(* ===== verification/_CoqProject ===== *)
-Q . S2P
Prelude.v
Frame.v
RecordingPolicy.v
ShortTerm.v
PreRecord.v
PreRecordInv.v
PreRecordSteps.v
Retention.v
Demand.v
Safety.v
StorageCleanup.v
Outbox.v
Nal.v
BrowserSessions.v
Logins.v
Placement.v
Privacy.v
CameraEvent.v
OnvifItems.v
OnvifDetails.v
OnvifIdentity.v
Observation.v
Normalize.v
EventHistory.v
Tracker.v
TrackerInv.v
TrackerSteps.v
NotifyModel.v
NotifyState.v
NotifyProcess.v
NotifyDelivery.v
NotifyProvider.v
NotifyStore.v
NotifyInv.v
NotifyInbox.v
NotifyPrune.v
NotifySteps.v
NotifyClaims.v
NotifyStoreInv.v
NotifyDisk.v
NotifyRun.v
ReoWire.v
ReoFraming.v
ReoUdp.v
ReoUdpNet.v
ReoUdpRun.v
ReoDiscovery.v
ReoMedia.v
ReoStream.v
ReoDispatch.v
ReoAssembly.v
ReoAssemblyInv.v
ReoChunks.v
ReoReassembly.v
StateSchema.v
StateStore.v
StateStoreInv.v
StateDurable.v
StateSync.v
StateRestore.v
StateRestoreInv.v
StateWatch.v
StateServer.v
StateWatchInv.v
StateRun.v
StateReplica.v
Mp4Io.v
Mp4Box.v
Mp4BoxInv.v
Mp4Moof.v
Fragmented.v
FragmentedInv.v
FragmentedRun.v
Mp4Track.v
Mp4TrackInv.v
Mp4ReadBack.v
FragmentedSamples.v
MediumTerm.v
MediumTermInv.v
MediumTermRun.v
