(* ===== verification/Prelude.v ===== *)
(** * KeepPeek: a verification of the recorder's core

    KeepPeek ([src/src/]) is a network video recorder: it receives the media of IP
    cameras, decides what to record, buffers recent media in memory, writes and
    expires recordings, forwards events and serves browsers.  This library models the
    parts that decide and account, as executable definitions translated from the Rust
    sources, and proves what makes them correct.  File names below are under
    [src/src/].

    ** How the parts interact

    A camera frame passes the admission policy ([storage/recording_policy.rs]) and,
    unless the camera is private ([privacy.rs]), enters the pre-record history
    ([storage/pre_record.rs]) or the short-term buffer ([storage/short_term.rs]) of
    its stream; viewers keep on-demand streams recording through the demand registry
    ([storage/demand.rs]); payloads are reframed on the way ([storage/nal.rs],
    [storage/adts.rs]).  The medium-term writer ([storage/medium_term.rs]) turns the
    frames of a stream into an MP4 file of fragments ([crates/mp4]) and tells the
    catalog of each.  Finished recordings are placed on a volume
    ([storage/volumes.rs]) and kept as long as retention rules ask
    ([storage/retention.rs]), unless storage safety ([storage/safety.rs]) makes the
    engine ([storage/engine.rs]) delete some first.  Notifications of ONVIF cameras are
    normalized ([crates/onvif/onvif/src/event/normalize.rs]) and tracked as timeline
    events ([camera_events/lifecycle.rs]).  Rules turn events and health changes into
    notifications ([notifications/]) that are queued, delivered, retried and shown in
    each owner's inbox.  Events leave through the MQTT outbox
    ([event_forwarder/outbox.rs]); browsers log in and stay logged in through
    [access/login_transactions.rs] and [access/browser_sessions.rs].  Reolink cameras are
    reached through the protocol of [crates/reo-proto], over TCP or its own UDP transport.
    Clients share documents through the state store ([server/state_store.rs]), which keeps
    them in memory and in a database and tells watching sessions what changed.

    ** Files

    - [Prelude] (this file): panics and errors, machine integers, time, strings, and
      the shared lemmas on lists, sums and maps.
    - [Frame]: media frames ([storage/frame.rs], [storage/segment.rs]).
    - [RecordingPolicy]: the admission policy of [storage/recording_policy.rs].
      [CameraRecordingPolicy] is its state, [policy_decide] and [note_event] its
      operations.  The event-boost track switches stream on keyframes only, keeps its
      audio and video from one stream, and completes the cycle from an event to idle.
    - [ShortTerm]: [ShortTermBuffer] of [storage/short_term.rs].  Byte accounting over
      any run, and the cut of the keyframe-aligned drain, including the loss of delta
      frames of a GOP that is drained while still open.
    - [PreRecord], [PreRecordInv], [PreRecordSteps]: [PreRecordBuffers] of
      [storage/pre_record.rs], its budgets as shared counters and its reservations as
      owned values, the invariant, and the operations as a step relation in which
      replay owners drop frames at any time.  Memory stays bounded, nothing panics,
      and a replay is decodable and in order.
    - [Retention]: [storage/retention.rs].  A decision names exactly the rules with
      evidence, deadlines only extend, well-formed snapshots always decide, and
      policies survive serialization.
    - [Demand]: [storage/demand.rs], refined to an abstract registry that never
      forgets a guard or a lease, with callers' instants in any order; the calls that
      abort are exactly those with an empty id or a number that does not fit.
    - [Safety], [StorageCleanup]: [storage/safety.rs] and the cleanup of
      [storage/engine.rs].  The percentage arithmetic is exact, a cleanup run has a
      definite verdict whatever sizes are reported, and where these are consistent it
      restores headroom with the fewest deletions.
    - [Outbox]: [event_forwarder/outbox.rs].  Nothing is lost or delivered twice
      within the receipt window, and all counters are exact.
    - [Nal]: [storage/nal.rs] and [storage/adts.rs].  Readers are total and exact on
      arbitrary bytes; conversions and headers round-trip.
    - [BrowserSessions], [Logins]: [access/browser_sessions.rs] and
      [access/login_transactions.rs] as step relations with a history of what was
      issued.  Tables are bounded, authentication is sound, ended sessions and used
      login states stay dead.
    - [Placement]: [storage/volumes.rs], [storage/volumes/validation.rs] and
      [storage/volumes/placement.rs].  Validation is sound, the rule used is the most
      specific one, the destination is the best one that can hold the data, and the
      others are rejected for a reason that is true.
    - [Privacy]: [privacy.rs].  Windows evaluate to their meaning, decisions are exact
      on every reachable registry, and the gate never passes stale media under any
      interleaving of its atomic accesses, up to the wrap of its 64-bit epoch.
    - [CameraEvent]: the values of the camera event components, and floats.
    - [OnvifItems], [OnvifDetails], [OnvifIdentity], [Normalize]: the normalizer of the
      [onvif] crate ([event/normalize.rs] and [event/normalize/]).  It always returns,
      its detections are bounded (confidences lie between 0 and 1, through the rounding
      of decimals to [f64] and [f32]), and identities are equal exactly when the subjects
      are.
    - [Observation], [EventHistory], [Tracker], [TrackerInv], [TrackerSteps]: the event
      tracker of [camera_events/lifecycle.rs] and its modules, its invariant and its
      runs.  The tracker is proved against [NormalizerLaws], an interface that
      [Normalize] discharges.  Nothing aborts, its commands form a valid timeline (a
      refinement of an abstract one), redeliveries change nothing, and [expire] publishes
      exactly the ends and revisions that are due.
    - [NotifyModel], [NotifyState], [NotifyProcess], [NotifyDelivery], [NotifyProvider],
      [NotifyStore], [NotifyInbox]: the notification service: rules and their validation
      ([notifications/model.rs], [pushover.rs]), its in-memory state ([state.rs]), the
      candidate pipeline ([orchestrator.rs]), the outbox and the providers
      ([delivery.rs], [delivery/attachments.rs]), rules with their secrets on disk
      ([store.rs], [config.rs]) and the inbox ([inbox.rs]).  A file is written to a
      temporary one that is renamed, and the write may fail before or after the rename.
    - [NotifyInv], [NotifyPrune], [NotifySteps], [NotifyClaims], [NotifyStoreInv],
      [NotifyDisk], [NotifyRun]: the invariant of the state, that every operation returns
      and keeps it, and the theorems.  No run of the service aborts or outgrows its tables and no
      attempt is handed out twice; claims take the best due item; pruning forgets only
      what nobody waits for; cooldowns keep rules quiet; and rules and their
      destinations survive restarts and writes that failed before their rename.
    - [ReoWire], [ReoFraming], [ReoDispatch]: the wire format of Reolink cameras in [crates/reo-proto]
      ([header.rs], [framing.rs], the buffers and ciphers of [session.rs]) and the head of
      its dispatcher, which decides what is decrypted.  What one session sends, in
      whatever pieces and after whatever noise, is what the handlers of the other get.
    - [ReoUdp], [ReoUdpNet], [ReoUdpRun]: its UDP transport ([udp.rs]), one direction of
      a connection as an invariant between a sender and a receiver, and runs of two ends
      over a network that loses, repeats and reorders datagrams: an end hands out only
      prefixes of what its peer accepted, and what is missing is kept for
      retransmission, across the wrap of the packet counters.
    - [ReoDiscovery]: the discovery that negotiates the two identifiers of a UDP
      connection ([udp.rs]): it asks until an accepting reply to its own identifier
      arrives and hands the connection out once; transports made from it start
      synchronized.
    - [ReoMedia], [ReoStream], [ReoAssembly]: the media of Reolink streams: frame headers
      and the frame iterator ([media.rs]), the routing of streams, and the reassembly of
      frames from message bodies ([session.rs]).  [ReoAssemblyInv]: on arbitrary bytes the
      reassembly returns and stays within its bounds (the depth of the call stack is not
      modelled; it grows with the frames of a body).  [ReoChunks], [ReoReassembly]: a
      stream cut anywhere at multiples of eight bytes gives the same events, which are
      the frames the iterator finds in the whole.
    - [StateSchema], [StateStore], [StateDurable], [StateRestore], [StateWatch],
      [StateServer]: the state store: documents and their schema
      ([server/state_store_schema.rs]), the registry in memory ([server/state_store.rs]),
      the database with statements that may fail ([server/state_store_durable.rs]), what
      opening it does, the watches ([server/state_store_watch.rs]) and the handlers.
      What they need of hashing, encoding, SQL and sessions are the classes [StoreEnv],
      [DatabaseEnv] and [ServerEnv] with their laws.
    - [StateStoreInv], [StateSync], [StateRestoreInv], [StateWatchInv]: the invariants of registry and watches, a logic for
      transactions with which each database operation is proved to do what the registry
      does, the restore, what publishing does to one watch, and what events say.
      [StateRun]: steps of the whole store and their soundness.  [StateReplica]: the reachable states, through failures and
      restarts, and the theorems: quotas and agreement of memory and database, recovery,
      compare-and-set, and that a watch is a replica of what it watches.
    - [Mp4Io], [Mp4Box], [Mp4BoxInv], [Mp4Moof]: the boxes of a fragment in [crates/mp4]
      ([mp4box/]), encoders, decoders and sizes over a file whose every call may fail and
      a reader over bytes ([emits] and [reads] say what a writer appends and a reader
      takes); they round-trip, and the rewriting of stored fragments changes nothing but
      what it should.
    - [Fragmented], [FragmentedInv], [FragmentedRun], [FragmentedSamples]: the fragmented
      writer ([fragmented.rs]) with every I/O failure, the invariant of a session and of
      the log of fragments it returned, and what each operation does to the samples of a
      track.
    - [Mp4Track], [Mp4TrackInv], [Mp4ReadBack]: the sample tables of the reader
      ([track.rs], [reader.rs]); whatever a session did and whatever failed, every
      flushed sample is read back at the ranges the writer returned, as long as nothing
      is flushed after the one failure that leaves the file in front of a fragment.
    - [MediumTerm], [MediumTermInv], [MediumTermRun]: the medium-term writer with its calls
      on the catalog and the file system, its invariant, and whole recordings: every frame
      from the first keyframe on is in the file, the catalog has one exact row per
      fragment, and reading at the catalogued offsets gives the frames back.

    ** Conventions

    A Rust struct is a [Record], an enum an [Inductive] type with its constructors, and
    a method a function of the state it reads that returns the state it leaves.
    Integers are [Z] in the range of their type and keep its overflow behaviour: the
    release profile checks overflow and aborts on panics, so plain arithmetic,
    [assert!] and [expect] return [Panic] ([outcome]); checked, saturating and
    wrapping operations are written out.  Errors are values of [result].  Strings are
    their UTF-8 bytes.  Maps and sets are finite maps; where the code iterates over
    one in key order, so does the model.  A [Mutex]-guarded method is one step; the
    privacy gate, whose readers take no lock, is modelled access by access.

    Time is an argument: an [Instant] or a UTC time in nanoseconds, passed by the
    caller as the code reads its clock.  Code outside the repository's own sources
    (SHA-256, UUIDs, time zones, OAuth, the file system, the SQL catalog) is an
    argument or an argument record of the definitions that call it, and what a theorem
    needs of it is a hypothesis that its witness instantiates.

    Loops over lists are structural.  Loops that are not carry fuel and return [Panic]
    when it runs out: the NAL readers have one unit per input byte, of which every turn
    consumes at least one, the eviction loops of [PreRecord] one per buffered group
    of pictures, the XML walk of [OnvifItems] one per node of its budget, the template
    and secret scanners of the notification rules one per character, the claim loop
    one per outbox item, each turn expiring one, the receive loop of [ReoWire] one per
    byte, the flush of [ReoUdp] one per buffered packet and its deadlines one per
    interval that passed, the frames of a body in [ReoAssembly] one per byte and its
    dispatcher two per byte and one per accumulator, the children of an MP4 box one per
    byte of the file.  The theorems prove that the fuel
    suffices: they state that the result is returned.  The notification counters abort
    at the end of 64 bits; [OP_COST] bounds what one operation adds to them, so runs
    are stated for fewer than 6*10^13 operations.  Likewise the revisions and sequence
    numbers of the state store: its runs have at most [MAX_STEPS] = 2^48 steps.

    ** Not modelled

    The HTTP server and its configuration editing ([server.rs], [server/], the settings
    and profile adapters of the state store included), the WebRTC, RTSP, ONVIF, ISAPI and
    vendor transports and their crates, the SQL catalog and metadata store, the [moov]
    box of the MP4 crate (a function of the tracks) and its scan of top-level boxes, the
    long-term store, exports and backup, the worker threads of the notification
    providers and the migration of their legacy database, the threads and pull points around the camera event tracker, logging and the web
    interface.  Candidates to model next, in this order: retention settings with their
    floating-point days ([storage/retention/settings.rs]), volume reservations
    ([storage/volumes/runtime.rs]), recording health ([storage/health.rs]) and runtime
    profiles ([profiles.rs]). *)

From Stdlib Require DecimalString.
From stdpp Require Export sorting prelude gmap strings numbers list.
Export stdpp.list_basics.list.

#[global] Open Scope Z_scope.

(** ** Panics and errors

    The release profile keeps [overflow-checks] on and aborts on a panic
    ([Cargo.toml], [profile.release]), so an arithmetic overflow, a failed
    [assert!] or an [expect] on [None] ends the process.  [outcome] separates a
    value from such an abort; [result] is Rust's [Result]. *)

Inductive outcome (A : Type) : Type :=
| Ret (a : A)
| Panic.
Arguments Ret {A} a.
Arguments Panic {A}.

Definition obind {A B : Type} (m : outcome A) (k : A → outcome B) : outcome B :=
  match m with
  | Ret a => k a
  | Panic => Panic
  end.

Inductive result (E A : Type) : Type :=
| Ok (a : A)
| Err (e : E).
Arguments Ok {E A} a.
Arguments Err {E A} e.

Definition rbind {E A B : Type} (m : result E A) (k : A → result E B) : result E B :=
  match m with
  | Ok a => k a
  | Err e => Err e
  end.

Declare Scope rust_scope.
Delimit Scope rust_scope with rust.
Notation "'let!' x := m 'in' k" := (obind m (λ x, k))
  (at level 10, x pattern, m at level 100, k at level 200,
   format "'[v' 'let!'  x  :=  m  'in' '/' k ']'") : rust_scope.
Notation "'let?' x := m 'in' k" := (rbind m (λ x, k))
  (at level 10, x pattern, m at level 100, k at level 200,
   format "'[v' 'let?'  x  :=  m  'in' '/' k ']'") : rust_scope.
#[global] Open Scope rust_scope.

(** ** Machine integers

    An integer of width [w] is a [Z] in its range; [usize] is 64 bits wide, as on
    every target the project ships.  Plain [+] and [-] panic outside the range,
    the [checked_] operations return [None] and the [saturating_] ones clamp. *)

Definition u8_max : Z := 2 ^ 8 - 1.
Definition u32_max : Z := 2 ^ 32 - 1.
Definition u64_max : Z := 2 ^ 64 - 1.
Definition usize_max : Z := u64_max.
Definition i64_min : Z := - 2 ^ 63.
Definition i64_max : Z := 2 ^ 63 - 1.

Definition in_u64 (z : Z) : Prop := 0 ≤ z ≤ u64_max.
Definition in_usize (z : Z) : Prop := 0 ≤ z ≤ usize_max.
Definition in_i64 (z : Z) : Prop := i64_min ≤ z ≤ i64_max.

Definition checked_add (max a b : Z) : option Z :=
  if a + b <=? max then Some (a + b) else None.
Definition checked_sub (a b : Z) : option Z :=
  if b <=? a then Some (a - b) else None.
Definition saturating_add (max a b : Z) : Z := Z.min max (a + b).
Definition saturating_sub (a b : Z) : Z := Z.max 0 (a - b).
Definition saturating_mul (max a b : Z) : Z := Z.min max (a * b).

(** [i64::checked_add] and the other signed variants clip on both sides. *)
Definition i64_checked_add (a b : Z) : option Z :=
  if (i64_min <=? a + b) && (a + b <=? i64_max) then Some (a + b) else None.
Definition i64_checked_sub (a b : Z) : option Z :=
  if (i64_min <=? a - b) && (a - b <=? i64_max) then Some (a - b) else None.
Definition i64_saturating_add (a b : Z) : Z :=
  Z.max i64_min (Z.min i64_max (a + b)).
Definition i64_saturating_sub (a b : Z) : Z :=
  Z.max i64_min (Z.min i64_max (a - b)).

(** [a + b] and [a - b] on unsigned integers with overflow checks on. *)
Definition plain_add (max a b : Z) : outcome Z :=
  if a + b <=? max then Ret (a + b) else Panic.
Definition plain_sub (a b : Z) : outcome Z :=
  if b <=? a then Ret (a - b) else Panic.

Definition plain_mul (max a b : Z) : outcome Z :=
  if a * b <=? max then Ret (a * b) else Panic.

(** [AtomicUsize::fetch_add] and [fetch_sub] wrap around silently. *)
Definition wrapping_add (a b : Z) : Z := (a + b) mod 2 ^ 64.
Definition wrapping_sub (a b : Z) : Z := (a - b) mod 2 ^ 64.

(** ** Time

    [Duration] and [Instant] in nanoseconds.  [Duration] holds [u64] seconds and
    sub-second nanoseconds; [Instant] on Unix holds [i64] seconds and
    nanoseconds, so its checked operations fail exactly when the result leaves
    that range, and [duration_since] saturates at zero. *)

Definition nanos_per_sec : Z := 1000000000.
Definition nanos_per_ms : Z := 1000000.
Definition duration_max : Z := 2 ^ 64 * nanos_per_sec - 1.
Definition instant_min : Z := - 2 ^ 63 * nanos_per_sec.
Definition instant_max : Z := 2 ^ 63 * nanos_per_sec - 1.

Definition in_duration (d : Z) : Prop := 0 ≤ d ≤ duration_max.
Definition in_instant (t : Z) : Prop := instant_min ≤ t ≤ instant_max.

Definition from_secs (s : Z) : Z := s * nanos_per_sec.
Definition from_millis (ms : Z) : Z := ms * nanos_per_ms.
Definition as_millis (d : Z) : Z := d / nanos_per_ms.

Definition instant_checked_add (t d : Z) : option Z :=
  if t + d <=? instant_max then Some (t + d) else None.
Definition instant_checked_sub (t d : Z) : option Z :=
  if instant_min <=? t - d then Some (t - d) else None.
Definition instant_add (t d : Z) : outcome Z :=
  if t + d <=? instant_max then Ret (t + d) else Panic.
Definition saturating_duration_since (a b : Z) : Z := Z.max 0 (a - b).
Definition checked_duration_since (a b : Z) : option Z :=
  if b <=? a then Some (a - b) else None.

(** ** Options and strings *)

Definition is_none_or {A : Type} (f : A → bool) (o : option A) : bool :=
  match o with Some a => f a | None => true end.
Definition is_some_and {A : Type} (f : A → bool) (o : option A) : bool :=
  match o with Some a => f a | None => false end.
Definition unwrap_or {A : Type} (o : option A) (d : A) : A :=
  match o with Some a => a | None => d end.
Definition option_or {A : Type} (a b : option A) : option A :=
  match a with Some x => Some x | None => b end.

Definition is_none {A : Type} (o : option A) : bool := match o with None => true | Some _ => false end.

(** [str::len] counts bytes; a Rust string is its UTF-8 byte string. *)
Definition str_len (s : string) : Z := Z.of_nat (String.length s).
Definition str_is_empty (s : string) : bool :=
  match s with EmptyString => true | _ => false end.
Definition str_eqb (a b : string) : bool := bool_decide (a = b).
(** [Ord for str]: lexicographic on bytes. *)
Definition str_leb (a b : string) : bool := String.leb a b.
Definition str_ltb (a b : string) : bool := String.ltb a b.

(** [usize::to_string]. *)
Definition usize_to_string (n : Z) : string := DecimalString.NilEmpty.string_of_uint (N.to_uint (Z.to_N n)).

(** [str::starts_with]. *)
Fixpoint str_prefix (p s : string) : bool :=
  match p, s with
  | EmptyString, _ => true
  | String a p', String b s' => bool_decide (a = b) && str_prefix p' s'
  | _, _ => false
  end.

Fixpoint bytes_of (s : string) : list Z :=
  match s with
  | EmptyString => []
  | String c s' => Z.of_N (Ascii.N_of_ascii c) :: bytes_of s'
  end.

(** [chars().take(n).collect()]: in UTF-8 a character is a byte that is not a
    continuation byte ([0x80..=0xBF]) followed by its continuation bytes. *)
Definition is_continuation (c : Ascii.ascii) : bool :=
  let b := Ascii.N_of_ascii c in (128 <=? b)%N && (b <=? 191)%N.
Fixpoint take_chars (n : nat) (s : string) : string :=
  match s with
  | EmptyString => EmptyString
  | String c s' =>
      if is_continuation c then String c (take_chars n s')
      else match n with
           | O => EmptyString
           | S n' => String c (take_chars n' s')
           end
  end.

(** [chars().count()]. *)
Fixpoint char_count (s : string) : Z :=
  match s with
  | EmptyString => 0
  | String c s' => (if is_continuation c then 0 else 1) + char_count s'
  end.

Definition is_ascii_alphanumeric (b : Z) : bool :=
  ((48 <=? b) && (b <=? 57)) || ((65 <=? b) && (b <=? 90)) || ((97 <=? b) && (b <=? 122)).

(** [strip_suffix] of one ASCII character. *)
Fixpoint strip_last (c : Ascii.ascii) (s : string) : option string :=
  match s with
  | EmptyString => None
  | String d EmptyString => if bool_decide (d = c) then Some EmptyString else None
  | String d s' => String d <$> strip_last c s'
  end.
(** [split] at one ASCII character: never empty. *)
Fixpoint str_split (sep : Ascii.ascii) (s : string) : list string :=
  match s with
  | EmptyString => [EmptyString]
  | String c s' =>
      if bool_decide (c = sep) then EmptyString :: str_split sep s'
      else match str_split sep s' with
           | w :: ws => String c w :: ws
           | [] => [String c EmptyString]
           end
  end.

(** [char::is_control] (U+0000-001F and U+007F-009F) somewhere in UTF-8 bytes. *)
Fixpoint has_control (l : list Z) : bool :=
  match l with
  | [] => false
  | b :: l' =>
      (b <? 32) || (b =? 127)
      || ((b =? 194) && match l' with c :: _ => (128 <=? c) && (c <=? 159) | [] => false end)
      || has_control l'
  end.

(** [char::is_whitespace] as the bytes of one character. *)
Definition ws1 (a : Z) : bool := ((9 <=? a) && (a <=? 13)) || (a =? 32).
Definition ws2 (a b : Z) : bool := (a =? 194) && ((b =? 133) || (b =? 160)).
Definition ws3 (a b c : Z) : bool :=
  ((a =? 225) && (b =? 154) && (c =? 128))
  || ((a =? 226) && (b =? 128)
      && (((128 <=? c) && (c <=? 138)) || (c =? 168) || (c =? 169) || (c =? 175)))
  || ((a =? 226) && (b =? 129) && (c =? 159))
  || ((a =? 227) && (b =? 128) && (c =? 128)).
Definition starts_with_space (l : list Z) : bool :=
  match l with
  | a :: b :: c :: _ => ws1 a || ws2 a b || ws3 a b c
  | [a; b] => ws1 a || ws2 a b
  | [a] => ws1 a
  | [] => false
  end.
Definition ends_with_space (l : list Z) : bool :=
  match rev l with
  | c :: b :: a :: _ => ws1 c || ws2 b c || ws3 a b c
  | [c; b] => ws1 c || ws2 b c
  | [c] => ws1 c
  | [] => false
  end.
(** [s.trim() == s]. *)
Definition is_trimmed (s : string) : bool :=
  negb (starts_with_space (bytes_of s)) && negb (ends_with_space (bytes_of s)).

(** [str::trim]: drops leading and trailing white space characters. *)
Fixpoint trim_start (l : list Z) : list Z :=
  match l with
  | a :: ((b :: ((c :: l3) as l2)) as l1) =>
      if ws1 a then trim_start l1
      else if ws2 a b then trim_start l2
      else if ws3 a b c then trim_start l3
      else l
  | [a; b] => if ws1 a then (if ws1 b then [] else [b]) else if ws2 a b then [] else l
  | [a] => if ws1 a then [] else l
  | [] => []
  end.
Fixpoint trim_end_rev (l : list Z) : list Z :=
  match l with
  | c :: ((b :: ((a :: l3) as l2)) as l1) =>
      if ws1 c then trim_end_rev l1
      else if ws2 b c then trim_end_rev l2
      else if ws3 a b c then trim_end_rev l3
      else l
  | [c; b] => if ws1 c then (if ws1 b then [] else [b]) else if ws2 b c then [] else l
  | [c] => if ws1 c then [] else l
  | [] => []
  end.
Fixpoint string_of_bytes (l : list Z) : string :=
  match l with
  | [] => EmptyString
  | b :: l' => String (Ascii.ascii_of_N (Z.to_N b)) (string_of_bytes l')
  end.
Definition str_trim (s : string) : string :=
  string_of_bytes (rev (trim_end_rev (rev (trim_start (bytes_of s))))).

(** [anyhow::ensure!]. *)
Definition ensure (b : bool) (message : string) : result string unit :=
  if b then Ok tt else Err message.

(** [Vec::len], [VecDeque::len], [[T]::len]. *)
Definition vec_len {A : Type} (l : list A) : Z := Z.of_nat (length l).

(** ** Automation *)

Create HintDb keeppeek.
Create Rewrite HintDb keeppeek.

(** Turns every boolean comparison in sight into the proposition it decides. *)
Ltac reflect_bools :=
  repeat match goal with
  | H : (_ && _) = true |- _ => apply andb_true_iff in H; destruct H
  | H : (_ || _) = false |- _ => apply orb_false_iff in H; destruct H
  | H : negb _ = true |- _ => apply negb_true_iff in H
  | H : negb _ = false |- _ => apply negb_false_iff in H
  | H : (_ <=? _) = true |- _ => apply Z.leb_le in H
  | H : (_ <=? _) = false |- _ => apply Z.leb_gt in H
  | H : (_ <? _) = true |- _ => apply Z.ltb_lt in H
  | H : (_ <? _) = false |- _ => apply Z.ltb_ge in H
  | H : (_ =? _) = true |- _ => apply Z.eqb_eq in H
  | H : (_ =? _) = false |- _ => apply Z.eqb_neq in H
  | H : bool_decide _ = true |- _ => apply bool_decide_eq_true in H
  | H : bool_decide _ = false |- _ => apply bool_decide_eq_false in H
  | H : str_eqb _ _ = true |- _ => apply bool_decide_eq_true in H
  | H : str_eqb _ _ = false |- _ => apply bool_decide_eq_false in H
  end.

(** Splits on the scrutinee of a [match] or an [if] of the goal, once. *)
Ltac split_match :=
  match goal with
  | |- context [match ?x with _ => _ end] => destruct x eqn:?
  end.
(** The same in a hypothesis. *)
Ltac split_match_in H :=
  match type of H with
  | context [match ?x with _ => _ end] => destruct x eqn:?
  end.
(** Runs a definition through all its branches and closes the easy ones. *)
Ltac branches := repeat split_match; simplify_eq/=; reflect_bools.

(** ** Checked arithmetic *)

Lemma i64_checked_add_Some a b c :
  i64_checked_add a b = Some c ↔ c = a + b ∧ i64_min ≤ a + b ≤ i64_max.
Proof. unfold i64_checked_add. split_match; reflect_bools; [naive_solver|]. apply andb_false_iff in Heqb0. rewrite !Z.leb_gt in Heqb0. naive_solver lia. Qed.
Lemma i64_checked_add_None a b :
  i64_checked_add a b = None ↔ ¬ (i64_min ≤ a + b ≤ i64_max).
Proof.
  destruct (i64_checked_add a b) as [c|] eqn:Hc.
  - apply i64_checked_add_Some in Hc. naive_solver.
  - split; [|done]. intros _ Hr. by rewrite (proj2 (i64_checked_add_Some a b (a + b)) (conj eq_refl Hr)) in Hc.
Qed.
Lemma checked_add_Some max a b c :
  checked_add max a b = Some c ↔ c = a + b ∧ a + b ≤ max.
Proof. unfold checked_add. split_match; reflect_bools; naive_solver lia. Qed.
Lemma checked_sub_Some a b c : checked_sub a b = Some c ↔ c = a - b ∧ b ≤ a.
Proof. unfold checked_sub. split_match; reflect_bools; naive_solver lia. Qed.

(** ** Sums and list lemmas *)

Lemma vec_len_app {A : Type} (l k : list A) : vec_len (l ++ k) = vec_len l + vec_len k.
Proof. unfold vec_len. rewrite length_app. lia. Qed.

Definition zsum {A : Type} (f : A → Z) (l : list A) : Z := foldr (λ a z, f a + z) 0 l.

Section zsum.
Context {A : Type} (f : A → Z).

Lemma zsum_nil : zsum f [] = 0.
Proof. done. Qed.
Lemma zsum_cons a l : zsum f (a :: l) = f a + zsum f l.
Proof. done. Qed.
Lemma zsum_app l k : zsum f (l ++ k) = zsum f l + zsum f k.
Proof. induction l as [|a l IH]; simpl; [done|]. rewrite IH. lia. Qed.
Lemma zsum_nonneg l : (∀ a, 0 ≤ f a) → 0 ≤ zsum f l.
Proof. intros Hf. induction l as [|a l IH]; simpl; [done|]. specialize (Hf a). lia. Qed.
Lemma zsum_sub_le l k : (∀ a, 0 ≤ f a) → l `sublist_of` k → zsum f l ≤ zsum f k.
Proof. intros Hf. induction 1 as [|a l k _ IH|a l k _ IH]; simpl; [done| |]; specialize (Hf a); lia. Qed.
Lemma zsum_elem_le a l : (∀ a, 0 ≤ f a) → a ∈ l → f a ≤ zsum f l.
Proof.
  intros Hf. induction 1 as [a l|a b l _ IH]; simpl; [|specialize (Hf b); lia].
  pose proof (zsum_nonneg l Hf). lia.
Qed.
Lemma zsum_perm l k : l ≡ₚ k → zsum f l = zsum f k.
Proof. induction 1; simpl; lia. Qed.
End zsum.

#[export] Hint Rewrite @zsum_nil @zsum_cons @zsum_app : keeppeek.

(** [Iterator::position] and the last index satisfying a predicate. *)
Fixpoint position {A : Type} (P : A → bool) (l : list A) : option nat :=
  match l with
  | [] => None
  | a :: l' => if P a then Some 0%nat else S <$> position P l'
  end.
Fixpoint rposition {A : Type} (P : A → bool) (l : list A) : option nat :=
  match l with
  | [] => None
  | a :: l' =>
      match rposition P l' with
      | Some i => Some (S i)
      | None => if P a then Some 0%nat else None
      end
  end.

Section position.
Context {A : Type} (P : A → bool).

Lemma position_Some l i :
  position P l = Some i →
  ∃ a, l !! i = Some a ∧ P a = true ∧ (∀ j b, (j < i)%nat → l !! j = Some b → P b = false).
Proof.
  revert i. induction l as [|a l IH]; intros i; simpl; [done|].
  destruct (P a) eqn:Ha.
  - intros [= <-]. exists a. repeat split; [done|]. intros j b Hj. lia.
  - destruct (position P l) as [i'|] eqn:Hp; simpl; [|done]. intros [= <-].
    destruct (IH i' eq_refl) as (b & Hb & HPb & Hall). exists b. repeat split; [done|done|].
    intros [|j] c Hj; simpl; [by intros [= <-]|]. apply Hall. lia.
Qed.
Lemma position_None l : position P l = None → Forall (λ a, P a = false) l.
Proof.
  induction l as [|a l IH]; simpl; [by constructor|]. destruct (P a) eqn:Ha; [done|].
  destruct (position P l); simpl; [done|]. intros _. constructor; auto.
Qed.
Lemma rposition_Some l i :
  rposition P l = Some i →
  ∃ a, l !! i = Some a ∧ P a = true ∧ (∀ j b, (i < j)%nat → l !! j = Some b → P b = false).
Proof.
  revert i. induction l as [|a l IH]; intros i; simpl; [done|].
  destruct (rposition P l) as [i'|] eqn:Hp.
  - intros [= <-]. destruct (IH i' eq_refl) as (b & Hb & HPb & Hall).
    exists b. repeat split; [done|done|]. intros [|j] c Hj; [lia|]. apply Hall. lia.
  - destruct (P a) eqn:Ha; [|done]. intros [= <-]. exists a. repeat split; [done|].
    clear IH Ha. intros [|j] b Hj; [lia|]. simpl.
    clear Hj. revert j b Hp. induction l as [|c l IH]; intros j b Hp Hl; [done|]. simpl in Hp.
    destruct (rposition P l) eqn:Hr; [done|]. destruct (P c) eqn:Hc; [done|].
    destruct j as [|j]; simpl in Hl; [by simplify_eq|by eapply IH].
Qed.
Lemma rposition_None l : rposition P l = None ↔ position P l = None.
Proof.
  induction l as [|a l IH]; simpl; [done|].
  destruct (rposition P l), (position P l), (P a); simpl; naive_solver.
Qed.
Lemma position_miss l : Forall (λ a, P a = false) l → position P l = None.
Proof. induction 1 as [|a l Ha _ IH]; simpl; [done|]. by rewrite Ha, IH. Qed.
Lemma position_app_hit l a k :
  Forall (λ a, P a = false) l → P a = true → position P (l ++ a :: k) = Some (length l).
Proof.
  induction 1 as [|b l Hb _ IH]; simpl; intros Ha; [by rewrite Ha|]. by rewrite Hb, IH.
Qed.
Lemma rposition_app_hit l a k :
  P a = true → Forall (λ a, P a = false) k → rposition P (l ++ a :: k) = Some (length l).
Proof.
  intros Ha Hk. induction l as [|b l IH]; simpl; [|by rewrite IH].
  assert (rposition P k = None) as -> by (by apply rposition_None, position_miss).
  by rewrite Ha.
Qed.
Lemma position_le_rposition l i j :
  position P l = Some i → rposition P l = Some j → (i ≤ j)%nat.
Proof.
  intros (a & Ha & HPa & Hi)%position_Some (b & Hb & HPb & Hj)%rposition_Some.
  destruct (decide (i ≤ j)%nat) as [|Hn]; [done|].
  specialize (Hi j b ltac:(lia) Hb). congruence.
Qed.
End position.

(** ** Identifier scans *)

Lemma ensure_Ok b m u : ensure b m = Ok u ↔ b = true.
Proof. destruct u, b; cbn; naive_solver. Qed.
Lemma rbind_Ok {E A B} (m : result E A) (k : A → result E B) b :
  rbind m k = Ok b ↔ ∃ a, m = Ok a ∧ k a = Ok b.
Proof. destruct m; cbn; naive_solver. Qed.

Lemma str_is_empty_spec s : str_is_empty s = false ↔ s ≠ "".
Proof. destruct s; naive_solver. Qed.

Lemma existsb_fresh {A : Type} (f : A → string) (id : string) (l : list A) :
  existsb (λ a, str_eqb (f a) id) l = false ↔ id ∉ f <$> l.
Proof.
  induction l as [|a l IH]; simpl; [by split; [intros _; apply not_elem_of_nil|]|].
  rewrite orb_false_iff, IH, not_elem_of_cons. unfold str_eqb.
  rewrite bool_decide_eq_false. naive_solver.
Qed.

Lemma fmap_mjoin {A B C : Type} (g : B → C) (f : A → list B) l :
  g <$> mjoin (f <$> l) = mjoin ((λ a, g <$> f a) <$> l).
Proof.
  induction l as [|a l IH]; [done|]. rewrite !fmap_cons.
  change (mjoin (f a :: (f <$> l))) with (f a ++ mjoin (f <$> l)). by rewrite fmap_app, IH.
Qed.
Lemma zsum_mjoin {A B : Type} (g : B → Z) (f : A → list B) l :
  zsum g (mjoin (f <$> l)) = zsum (λ a, zsum g (f a)) l.
Proof.
  induction l as [|a l IH]; [done|]. rewrite fmap_cons, zsum_cons, <-IH.
  change (mjoin (f a :: (f <$> l))) with (f a ++ mjoin (f <$> l)). apply zsum_app.
Qed.
Lemma zsum_ext {A : Type} (f g : A → Z) l : (∀ a, a ∈ l → f a = g a) → zsum f l = zsum g l.
Proof.
  induction l as [|a l IH]; intros H; [done|]. rewrite !zsum_cons, (H a) by (by left). f_equal.
  apply IH. intros b Hb. apply H. by right.
Qed.

(** ** Maps: the values of a map, flattened *)

Definition map_flat {K V B : Type} `{Countable K} (f : V → list B) (m : gmap K V) : list B :=
  mjoin ((λ e : K * V, f (snd e)) <$> map_to_list m).

Section map_flat.
Context {K V B : Type} `{Countable K} (f : V → list B).

Lemma mjoin_perm (l k : list (list B)) : l ≡ₚ k → mjoin l ≡ₚ mjoin k.
Proof.
  induction 1 as [|x l k _ IH|x y l|l k j _ IH1 _ IH2]; simpl; [done| | |by etrans].
  - by apply Permutation_app_head.
  - rewrite !app_assoc. by apply Permutation_app_tail, Permutation_app_comm.
Qed.
Lemma map_flat_empty : map_flat f (∅ : gmap K V) = [].
Proof. unfold map_flat. by rewrite map_to_list_empty. Qed.
Lemma map_flat_insert_None (m : gmap K V) k v :
  m !! k = None → map_flat f (<[k:=v]> m) ≡ₚ f v ++ map_flat f m.
Proof.
  intros Hk. unfold map_flat.
  etrans; [apply mjoin_perm, fmap_Permutation, map_to_list_insert, Hk|]. done.
Qed.
Lemma map_flat_delete (m : gmap K V) k v :
  m !! k = Some v → map_flat f m ≡ₚ f v ++ map_flat f (delete k m).
Proof.
  intros Hk. rewrite <-(insert_delete_id m k v Hk) at 1.
  apply map_flat_insert_None, lookup_delete_eq.
Qed.
Lemma map_flat_insert_Some (m : gmap K V) k v v' :
  m !! k = Some v → f v ++ map_flat f (<[k:=v']> m) ≡ₚ f v' ++ map_flat f m.
Proof.
  intros Hk. rewrite (map_flat_delete m k v Hk), <-(insert_delete_eq m k v').
  rewrite map_flat_insert_None by apply lookup_delete_eq.
  rewrite !app_assoc. apply Permutation_app_tail, Permutation_app_comm.
Qed.
Lemma map_flat_fmap_nil {W : Type} (g : V → W) (h : W → list B) (m : gmap K V) :
  (∀ v, h (g v) = []) → map_flat h (g <$> m) = [].
Proof.
  intros Hg. unfold map_flat. rewrite map_to_list_fmap.
  induction (map_to_list m) as [|[k v] l IH]; simpl; [done|]. by rewrite Hg.
Qed.
Lemma elem_of_map_flat (m : gmap K V) x :
  x ∈ map_flat f m ↔ ∃ k v, m !! k = Some v ∧ x ∈ f v.
Proof.
  unfold map_flat. rewrite list_elem_of_join. split.
  - intros (l & Hx & Hl). apply list_elem_of_fmap in Hl as ([k v] & -> & Hkv).
    exists k, v. split; [by apply elem_of_map_to_list|done].
  - intros (k & v & Hkv & Hx). exists (f v). split; [done|].
    apply list_elem_of_fmap. exists (k, v). split; [done|by apply elem_of_map_to_list].
Qed.
End map_flat.

(** ** Sublists *)

Lemma Forall_sublist {A : Type} (P : A → Prop) l k :
  l `sublist_of` k → Forall P k → Forall P l.
Proof. induction 1; intros Hk; inversion_clear Hk; auto. Qed.
Lemma StronglySorted_sublist {A} (R : relation A) l k :
  l `sublist_of` k → StronglySorted R k → StronglySorted R l.
Proof.
  induction 1 as [|a l k Hlk IH|a l k Hlk IH]; intros Hs; [constructor| |];
    inversion_clear Hs; [|auto].
  constructor; [auto|]. by eapply Forall_sublist.
Qed.

Lemma sublist_fmap {A B : Type} (f : A → B) l k : l `sublist_of` k → f <$> l `sublist_of` f <$> k.
Proof. induction 1; cbn; [done|by apply sublist_skip|by apply sublist_cons]. Qed.
Lemma StronglySorted_fmap {A B} (R : relation B) (f : A → B) l :
  StronglySorted R (f <$> l) ↔ StronglySorted (λ a b, R (f a) (f b)) l.
Proof.
  induction l as [|a l IH]; [by split; constructor|]. rewrite fmap_cons. split.
  - inversion_clear 1 as [|? ? Hs Hf]. rewrite Forall_fmap in Hf. constructor; [by apply IH|done].
  - inversion_clear 1 as [|? ? Hs Hf]. constructor; [by apply IH|]. by rewrite Forall_fmap.
Qed.
Lemma StronglySorted_snoc {A} (R : relation A) l x :
  StronglySorted R l → Forall (λ a, R a x) l → StronglySorted R (l ++ [x]).
Proof.
  induction 1 as [|a l Hs IH Ha]; intros Hx; simpl; [by repeat constructor|].
  inversion_clear Hx. constructor; [auto|]. apply Forall_app. by repeat constructor.
Qed.
Lemma zsum_fmap {A B} (f : B → Z) (g : A → B) l : zsum f (g <$> l) = zsum (λ a, f (g a)) l.
Proof. induction l as [|a l IH]; [done|]. by rewrite fmap_cons, !zsum_cons, IH. Qed.

Lemma sublist_elem_of {A : Type} (x : A) l k : x ∈ l → l `sublist_of` k → x ∈ k.
Proof.
  intros Hx Hs. revert Hx. induction Hs as [|a l k _ IH|a l k _ IH]; intros Hx; [done| |by right; auto].
  apply elem_of_cons in Hx as [->|Hx]; [by left|right; auto].
Qed.

(** ** Maps in key order *)

(** Iterating a [BTreeMap<String, _>] visits its keys in byte order. *)
Definition key_le {V : Type} (a b : string * V) : Prop := str_leb (fst a) (fst b) = true.
#[global] Instance key_le_dec {V : Type} : RelDecision (@key_le V).
Proof. intros a b. unfold key_le. apply _. Defined.
Definition btree_iter {V : Type} (m : gmap string V) : list (string * V) :=
  merge_sort key_le (map_to_list m).

Lemma str_leb_total a b : str_leb a b = true ∨ str_leb b a = true.
Proof. apply String.leb_total. Qed.
Lemma str_leb_antisym a b : str_leb a b = true → str_leb b a = true → a = b.
Proof. apply String.leb_antisym. Qed.

Lemma ascii_compare_eq a b : Ascii.compare a b = Eq ↔ a = b.
Proof.
  unfold Ascii.compare. rewrite N.compare_eq_iff. split; [|by intros ->].
  intros H. by rewrite <-(Ascii.ascii_N_embedding a), H, Ascii.ascii_N_embedding.
Qed.
Lemma str_compare_le_trans a b c :
  String.compare a b ≠ Gt → String.compare b c ≠ Gt → String.compare a c ≠ Gt.
Proof.
  revert b c. induction a as [|x a IH]; intros [|y b] [|z c]; simpl; try done.
  destruct (Ascii.compare x y) eqn:Hxy; [|clear IH|done].
  - apply ascii_compare_eq in Hxy as ->. destruct (Ascii.compare y z); try done. apply IH.
  - intros _. destruct (Ascii.compare y z) eqn:Hyz; [|intros _|done].
    + apply ascii_compare_eq in Hyz as ->. by rewrite Hxy.
    + unfold Ascii.compare in *. rewrite N.compare_lt_iff in Hxy, Hyz.
      assert (N.compare (Ascii.N_of_ascii x) (Ascii.N_of_ascii z) = Lt) as ->; [|done].
      apply N.compare_lt_iff. lia.
Qed.
Lemma str_leb_trans a b c : str_leb a b = true → str_leb b c = true → str_leb a c = true.
Proof.
  unfold str_leb, String.leb. pose proof (str_compare_le_trans a b c) as H.
  destruct (String.compare a b), (String.compare b c), (String.compare a c); try done; naive_solver.
Qed.
Lemma str_ltb_leb a b : str_ltb a b = true ↔ str_leb a b = true ∧ a ≠ b.
Proof.
  unfold str_ltb, str_leb, String.ltb, String.leb. pose proof (String.compare_eq_iff a b) as He.
  destruct (String.compare a b) eqn:E; [naive_solver| |naive_solver]. split; [|done]. intros _. split; [done|].
  intros ->. pose proof (String.compare_antisym b b) as Hb. by rewrite E in Hb.
Qed.
Lemma str_len_app a b : str_len (a +:+ b)%string = str_len a + str_len b.
Proof.
  unfold str_len. rewrite <-Nat2Z.inj_add. f_equal. induction a as [|ch a IH]; [done|].
  change (String ch a +:+ b)%string with (String ch (a +:+ b)%string). cbn [String.length].
  by rewrite IH.
Qed.

#[global] Instance key_le_total {V} : Total (@key_le V).
Proof. intros a b. apply str_leb_total. Qed.
#[global] Instance key_le_trans {V} : Transitive (@key_le V).
Proof. intros a b c. apply str_leb_trans. Qed.

Lemma btree_iter_elem {V} (m : gmap string V) k v :
  (k, v) ∈ btree_iter m ↔ m !! k = Some v.
Proof.
  unfold btree_iter. rewrite <-elem_of_map_to_list. by rewrite merge_sort_Permutation.
Qed.
Lemma btree_iter_sorted {V} (m : gmap string V) : StronglySorted key_le (btree_iter m).
Proof. apply StronglySorted_merge_sort; apply _. Qed.
Lemma btree_iter_perm {V} (m : gmap string V) : btree_iter m ≡ₚ map_to_list m.
Proof. apply merge_sort_Permutation. Qed.
Lemma btree_iter_NoDup {V} (m : gmap string V) : NoDup (fst <$> btree_iter m).
Proof. rewrite btree_iter_perm. apply NoDup_fst_map_to_list. Qed.
