(* ===== verification/Frame.v ===== *)
(** * Media frames

    The encoded frames the cameras deliver ([src/storage/frame.rs]) and the
    timestamped frames the recorder buffers ([src/storage/segment.rs]).  A byte is
    a [Z] in [0, 255]; a payload ([bytes::Bytes]) is the list of its bytes. *)

From S2P Require Import Prelude.

Inductive VideoCodec := H264 | H265.
Inductive AudioCodec := Aac | G711Alaw | G711Ulaw | Adpcm.

#[global] Instance VideoCodec_eq_dec : EqDecision VideoCodec.
Proof. solve_decision. Defined.
#[global] Instance AudioCodec_eq_dec : EqDecision AudioCodec.
Proof. solve_decision. Defined.

Definition default_sample_rate (c : AudioCodec) : Z :=
  match c with
  | Aac => 16000
  | G711Alaw | G711Ulaw => 8000
  | Adpcm => 8000
  end.

Record VideoFrame := mk_video {
  v_codec : VideoCodec;
  v_is_keyframe : bool;
  v_width : Z;
  v_height : Z;
  v_data : list Z
}.

Record AudioFrame := mk_audio {
  a_codec : AudioCodec;
  a_sample_rate : Z;
  a_duration : Z;
  a_data : list Z
}.

Inductive MediaFrame :=
| Video (v : VideoFrame)
| Audio (a : AudioFrame).

Definition media_byte_len (f : MediaFrame) : Z :=
  match f with
  | Video v => vec_len (v_data v)
  | Audio a => vec_len (a_data a)
  end.
Definition media_is_video_keyframe (f : MediaFrame) : bool :=
  match f with Video v => v_is_keyframe v | Audio _ => false end.
Definition is_video (f : MediaFrame) : bool :=
  match f with Video _ => true | Audio _ => false end.
Definition is_audio (f : MediaFrame) : bool :=
  match f with Video _ => false | Audio _ => true end.

Record RecordingFrame := mk_frame {
  received_at : Z;
  timestamp : option Z;
  frame : MediaFrame
}.

Definition byte_len (f : RecordingFrame) : Z := media_byte_len (frame f).
Definition is_video_keyframe (f : RecordingFrame) : bool :=
  media_is_video_keyframe (frame f).

Lemma byte_len_nonneg f : 0 ≤ byte_len f.
Proof. unfold byte_len, media_byte_len, vec_len. destruct (frame f); lia. Qed.

Lemma keyframe_is_video f : is_video_keyframe f = true → is_video (frame f) = true.
Proof. unfold is_video_keyframe, media_is_video_keyframe. by destruct (frame f). Qed.

#[export] Hint Resolve byte_len_nonneg : keeppeek.

(** A video frame with an [n]-byte payload, for evaluating the definitions. *)
Definition sample_video (keyframe : bool) (at_ : Z) (n : nat) : RecordingFrame :=
  mk_frame at_ None (Video (mk_video H264 keyframe 1920 1080 (replicate n 0))).
Definition sample_audio (at_ dur : Z) (n : nat) : RecordingFrame :=
  mk_frame at_ None (Audio (mk_audio Aac 16000 dur (replicate n 0))).
