(* ===== verification/RecordingPolicy.v ===== *)
(** * Recording admission policy

    [src/storage/recording_policy.rs]: which frames of a camera's [main] and
    [sub] streams the recorder stores.  In [EventBoost] mode one recorded track
    carries the sub stream, and the main stream while an event is live; the switch
    in either direction happens on a keyframe of the stream switched to. *)

From S2P Require Import Prelude.

Inductive CameraRecordingMode := Off | Sub | Main | Both | EventBoost | EventOnly.

Inductive EventMainState := Idle | WaitingForKeyframe | Recording.

Inductive AdmissionDecision :=
| Record_
| RecordAs (stream : string)
| Ignore.

#[global] Instance CameraRecordingMode_eq_dec : EqDecision CameraRecordingMode.
Proof. solve_decision. Defined.
#[global] Instance EventMainState_eq_dec : EqDecision EventMainState.
Proof. solve_decision. Defined.
#[global] Instance AdmissionDecision_eq_dec : EqDecision AdmissionDecision.
Proof. solve_decision. Defined.

Record CameraRecordingPolicy := mk_policy {
  mode : CameraRecordingMode;
  event_duration : Z;
  main_until : option Z;
  event_main_state : EventMainState
}.

Definition policy_new (m : CameraRecordingMode) (d : Z) : CameraRecordingPolicy :=
  mk_policy m d None Idle.

Definition note_event (p : CameraRecordingPolicy) (now : Z) : CameraRecordingPolicy :=
  if bool_decide (mode p ≠ EventBoost) then p
  else
    mk_policy (mode p) (event_duration p)
      (instant_checked_add now (event_duration p))
      (if bool_decide (event_main_state p = Idle) then WaitingForKeyframe
       else event_main_state p).

Definition is_main_or_sub (s : string) : bool := str_eqb s "main" || str_eqb s "sub".

(** The [(EventBoost, "main" | "sub")] arm for video frames. *)
Definition decide_boost_video (p : CameraRecordingPolicy) (stream_id : string)
    (is_video_keyframe : bool) (now : Z) : AdmissionDecision * CameraRecordingPolicy :=
  let p :=
    if bool_decide (event_main_state p = WaitingForKeyframe)
       && is_none_or (λ deadline, deadline <=? now) (main_until p)
    then mk_policy (mode p) (event_duration p) None Idle
    else p in
  match event_main_state p with
  | Idle =>
      if str_eqb stream_id "sub" then (RecordAs "sub", p) else (Ignore, p)
  | WaitingForKeyframe =>
      if str_eqb stream_id "sub" then (RecordAs "sub", p)
      else if str_eqb stream_id "main" && is_video_keyframe
      then (RecordAs "sub", mk_policy (mode p) (event_duration p) (main_until p) Recording)
      else (Ignore, p)
  | Recording =>
      if is_some_and (λ deadline, now <? deadline) (main_until p)
         && str_eqb stream_id "main"
      then (RecordAs "sub", p)
      else if str_eqb stream_id "sub" && is_video_keyframe
              && is_none_or (λ deadline, deadline <=? now) (main_until p)
      then (RecordAs "sub", mk_policy (mode p) (event_duration p) None Idle)
      else if str_eqb stream_id "main" then (RecordAs "sub", p)
      else (Ignore, p)
  end.

(** The [(EventBoost, "main" | "sub") if !is_video] arm. *)
Definition decide_boost_audio (p : CameraRecordingPolicy) (stream_id : string)
    : AdmissionDecision :=
  let preferred :=
    if bool_decide (event_main_state p = Recording) then "main" else "sub" in
  if str_eqb stream_id preferred then RecordAs "sub" else Ignore.

Definition policy_decide (p : CameraRecordingPolicy) (stream_id : string)
    (is_video is_video_keyframe : bool) (now : Z)
    : AdmissionDecision * CameraRecordingPolicy :=
  match mode p with
  | Sub => (if str_eqb stream_id "sub" then Record_ else Ignore, p)
  | Main => (if str_eqb stream_id "main" then Record_ else Ignore, p)
  | Both => (if is_main_or_sub stream_id then Record_ else Ignore, p)
  | EventBoost =>
      if is_main_or_sub stream_id then
        if negb is_video then (decide_boost_audio p stream_id, p)
        else decide_boost_video p stream_id is_video_keyframe now
      else (Ignore, p)
  | Off | EventOnly => (Ignore, p)
  end.

Definition preferred_audio_stream (p : CameraRecordingPolicy) : string :=
  match mode p with
  | Main | Both => "main"
  | EventBoost => if bool_decide (event_main_state p = Recording) then "main" else "sub"
  | _ => "sub"
  end.

(** ** Runs of the policy *)

Inductive PolicyInput :=
| InEvent (now : Z)
| InFrame (stream_id : string) (is_video is_video_keyframe : bool) (now : Z).

(** A recorded frame: its source stream, whether it is video and a keyframe. *)
Record Recorded := mk_recorded {
  rec_stream : string;
  rec_video : bool;
  rec_keyframe : bool
}.

Definition policy_step (p : CameraRecordingPolicy) (i : PolicyInput)
    : option Recorded * CameraRecordingPolicy :=
  match i with
  | InEvent now => (None, note_event p now)
  | InFrame s v k now =>
      match policy_decide p s v k now with
      | (Ignore, p') => (None, p')
      | (_, p') => (Some (mk_recorded s v k), p')
      end
  end.

Fixpoint policy_run (p : CameraRecordingPolicy) (inputs : list PolicyInput)
    : list Recorded * CameraRecordingPolicy :=
  match inputs with
  | [] => ([], p)
  | i :: rest =>
      let '(o, p1) := policy_step p i in
      let '(os, p2) := policy_run p1 rest in
      (match o with Some a => a :: os | None => os end, p2)
  end.

(** A recorded track is coherent when its video switches stream only on a
    keyframe and its audio comes from the stream the video was last taken from
    (sub before any video); [last] is the stream of the last video frame. *)
Fixpoint coherent_track (last : option string) (l : list Recorded) : bool :=
  match l with
  | [] => true
  | a :: l' =>
      if rec_video a then
        (match last with
         | Some s => str_eqb (rec_stream a) s || rec_keyframe a
         | None => true
         end) && coherent_track (Some (rec_stream a)) l'
      else str_eqb (rec_stream a) (unwrap_or last "sub") && coherent_track last l'
  end.

(** ** Lemmas *)

(** Whether the stream [last] recorded last fits the state: main while
    [Recording], sub (or nothing yet) otherwise. *)
Definition last_fits (p : CameraRecordingPolicy) (last : option string) : Prop :=
  match event_main_state p with
  | Recording => last = Some "main"
  | _ => last = None ∨ last = Some "sub"
  end.

Lemma note_event_mode p now : mode (note_event p now) = mode p.
Proof. unfold note_event. by case_bool_decide. Qed.

Lemma note_event_last_fits p now last :
  last_fits p last → last_fits (note_event p now) last.
Proof. unfold note_event, last_fits. by repeat case_bool_decide; destruct (event_main_state p). Qed.

Lemma decide_boost_video_mode p s k now :
  mode (snd (decide_boost_video p s k now)) = mode p.
Proof. unfold decide_boost_video. by branches. Qed.

Lemma policy_decide_mode p s v k now : mode (snd (policy_decide p s v k now)) = mode p.
Proof.
  unfold policy_decide. destruct (mode p) eqn:Hm; simpl; try done.
  by repeat case_match; rewrite ?decide_boost_video_mode.
Qed.

(** What one admitted or ignored video frame does to [last_fits]. *)
Lemma decide_boost_video_last_fits p s k now last :
  last_fits p last →
  let '(d, p') := decide_boost_video p s k now in
  match d with
  | Ignore => last_fits p' last
  | _ => last_fits p' (Some s) ∧ (last = None ∨ last = Some s ∨ k = true)
  end.
Proof.
  unfold last_fits, decide_boost_video. intros Hl.
  destruct (event_main_state p) eqn:Hs; simpl in *; rewrite ?Hs;
    repeat (case_match; simpl in *; simplify_eq; reflect_bools; subst; simpl in *);
    naive_solver.
Qed.

Lemma str_eqb_refl s : str_eqb s s = true.
Proof. by apply bool_decide_eq_true. Qed.

Lemma last_fits_audio p s last :
  last_fits p last → decide_boost_audio p s ≠ Ignore → s = unwrap_or last "sub".
Proof.
  unfold last_fits, decide_boost_audio. intros Hl Hd.
  destruct (event_main_state p) eqn:Hs; simpl in *;
    repeat case_match; reflect_bools; naive_solver.
Qed.

Lemma policy_run_coherent inputs p last :
  mode p = EventBoost → last_fits p last →
  coherent_track last (fst (policy_run p inputs)) = true.
Proof.
  revert p last. induction inputs as [|i inputs IH]; intros p last Hm Hl; [done|].
  simpl. destruct (policy_step p i) as [o p1] eqn:Hstep.
  destruct (policy_run p1 inputs) as [os p2] eqn:Hrun.
  assert (IH' : ∀ last', mode p1 = EventBoost → last_fits p1 last' →
                         coherent_track last' os = true).
  { intros last' H1 H2. specialize (IH p1 last' H1 H2). by rewrite Hrun in IH. }
  clear IH Hrun. destruct i as [now|s v k now]; simpl in Hstep.
  - simplify_eq. apply IH'; [by rewrite note_event_mode|by apply note_event_last_fits].
  - destruct (policy_decide p s v k now) as [d p'] eqn:Hd.
    assert (Hm' : mode p' = EventBoost).
    { by rewrite <-Hm, <-(policy_decide_mode p s v k now), Hd. }
    unfold policy_decide in Hd. rewrite Hm in Hd.
    destruct (is_main_or_sub s) eqn:Hms; [|by simplify_eq; apply IH'].
    destruct v; simpl in Hd.
    + pose proof (decide_boost_video_last_fits p s k now last Hl) as Hv.
      rewrite Hd in Hv. destruct d; simplify_eq; try by apply IH'.
      all: destruct Hv as [Hv1 Hv2]; simpl; rewrite (IH' (Some s)), andb_true_r by done.
      all: destruct Hv2 as [->|[->| ->]]; rewrite ?str_eqb_refl; try done;
        destruct last; auto using orb_true_r.
    +
      assert (Hd1 : d = decide_boost_audio p s ∧ p' = p) by (by simplify_eq).
      destruct Hd1 as [-> ->].
      destruct (decide_boost_audio p s) eqn:Ha; simplify_eq; simpl; try by apply IH'.
      all: rewrite (last_fits_audio p1 s last Hl), str_eqb_refl by congruence.
      all: by rewrite IH'.
Qed.

(** ** Properties *)

(** C9. Event boost: on every sequence of events and frames of the camera's
    streams, in any order and at any times, the recorded track takes video from
    one stream at a time, changes stream only on a keyframe of the new stream,
    and takes audio only from the stream it is taking video from. *)
Theorem event_boost_track_coherent d inputs :
  coherent_track None (fst (policy_run (policy_new EventBoost d) inputs)) = true.
Proof. apply policy_run_coherent; [done|by left]. Qed.

(** After an event at [t0] whose window [event_duration] ends at
    a representable instant, a main keyframe inside the window starts main
    recording; from then on every main frame is recorded and sub video is ignored
    while the window is open, and the first sub keyframe at or after the window's
    end is recorded and returns the policy to its idle state. *)
Theorem event_boost_cycle p t0 t1 t2 t3 k2 v2 :
  mode p = EventBoost → event_main_state p = Idle →
  0 ≤ event_duration p → t0 + event_duration p ≤ instant_max →
  t1 < t0 + event_duration p → t2 < t0 + event_duration p →
  t0 + event_duration p ≤ t3 →
  let p0 := note_event p t0 in
  let deadline := Some (t0 + event_duration p) in
  let p1 := mk_policy EventBoost (event_duration p) deadline Recording in
  policy_decide p0 "main" true true t1 = (RecordAs "sub", p1)
  ∧ policy_decide p1 "main" v2 k2 t2 = (RecordAs "sub", p1)
  ∧ policy_decide p1 "main" v2 k2 t3 = (RecordAs "sub", p1)
  ∧ policy_decide p1 "sub" true k2 t2 = (Ignore, p1)
  ∧ policy_decide p1 "sub" true true t3
    = (RecordAs "sub", mk_policy EventBoost (event_duration p) None Idle).
Proof.
  intros Hm Hs Hd Hmax H1 H2 H3. unfold note_event, instant_checked_add.
  rewrite Hm, Hs. rewrite (proj2 (Z.leb_le _ _) Hmax). simpl.
  unfold policy_decide, decide_boost_video; simpl.
  rewrite (proj2 (Z.leb_gt _ t1)), (proj2 (Z.leb_gt _ t2)), (proj2 (Z.leb_le _ t3)),
    (proj2 (Z.ltb_lt t2 _)), (proj2 (Z.ltb_ge t3 _)) by lia.
  destruct v2, k2; repeat split.
Qed.

Lemma event_boost_cycle_witness :
  policy_decide (note_event (policy_new EventBoost 60) 10) "main" true true 20
  = (RecordAs "sub", mk_policy EventBoost 60 (Some 70) Recording).
Proof.
  refine (proj1 (event_boost_cycle (policy_new EventBoost 60) 10 20 30 80 true true
                   _ _ _ _ _ _ _)); vm_compute; congruence.
Defined.
