(* ===== verification/ShortTerm.v ===== *)
(** * Short-term frame buffer

    [src/storage/short_term.rs]: the in-memory queue between a camera's ingest
    and its MP4 writer.  Frames enter at the back, age out at the front, and are
    drained to the writer from the front.  [total_bytes] is maintained
    incrementally with overflow-checked arithmetic. *)

From S2P Require Import Prelude Frame.

Record ShortTermBuffer := mk_short_term {
  chunks : list RecordingFrame;
  max_duration : Z;
  total_bytes : Z
}.

Definition short_new (d : Z) : ShortTermBuffer := mk_short_term [] d 0.

(** The [while let Some(oldest) = self.chunks.front()] loop of [evict_expired]. *)
Fixpoint evict_loop (cutoff : Z) (l : list RecordingFrame) (total : Z)
    : outcome (list RecordingFrame * Z) :=
  match l with
  | [] => Ret ([], total)
  | oldest :: rest =>
      if received_at oldest <? cutoff then
        let! total' := plain_sub total (byte_len oldest) in
        evict_loop cutoff rest total'
      else Ret (l, total)
  end.

Definition evict_expired (b : ShortTermBuffer) : outcome ShortTermBuffer :=
  match last (chunks b) with
  | None => Ret b
  | Some newest =>
      match instant_checked_sub (received_at newest) (max_duration b) with
      | None => Ret b
      | Some cutoff =>
          let! r := evict_loop cutoff (chunks b) (total_bytes b) in
          Ret (mk_short_term (fst r) (max_duration b) (snd r))
      end
  end.

Definition short_push (b : ShortTermBuffer) (f : RecordingFrame) : outcome ShortTermBuffer :=
  let! total := plain_add usize_max (total_bytes b) (byte_len f) in
  evict_expired (mk_short_term (chunks b ++ [f]) (max_duration b) total).

(** The loop of [drain_before]; [drained] is the vector built so far. *)
Fixpoint drain_loop (cutoff : Z) (l : list RecordingFrame) (total : Z)
    (drained : list RecordingFrame) : outcome (list RecordingFrame * list RecordingFrame * Z) :=
  match l with
  | [] => Ret (drained, [], total)
  | front :: rest =>
      if received_at front <? cutoff then
        let! total' := plain_sub total (byte_len front) in
        drain_loop cutoff rest total' (drained ++ [front])
      else Ret (drained, l, total)
  end.

Definition drain_before (b : ShortTermBuffer) (cutoff : Z)
    : outcome (list RecordingFrame * ShortTermBuffer) :=
  let! r := drain_loop cutoff (chunks b) (total_bytes b) [] in
  let '(drained, rest, total) := r in
  Ret (drained, mk_short_term rest (max_duration b) total).

(** [for _ in 0..n { self.chunks.pop_front().unwrap() ... }]: the popped frames,
    the remaining queue and the byte total. *)
Fixpoint pop_front_n (n : nat) (l : list RecordingFrame) (total : Z)
    : outcome (list RecordingFrame * list RecordingFrame * Z) :=
  match n with
  | O => Ret ([], l, total)
  | S n' =>
      match l with
      | [] => Panic
      | f :: rest =>
          let! total' := plain_sub total (byte_len f) in
          let! r := pop_front_n n' rest total' in
          let '(popped, rest', total'') := r in
          Ret (f :: popped, rest', total'')
      end
  end.

Definition drain_up_to_last_keyframe_before (b : ShortTermBuffer) (cutoff : Z)
    : outcome (list RecordingFrame * ShortTermBuffer) :=
  match position (λ f, is_video_keyframe f && (received_at f <? cutoff)) (chunks b) with
  | None => Ret ([], b)
  | Some start =>
      match rposition (λ f, is_video_keyframe f && (received_at f <? cutoff)) (chunks b) with
      | None => Panic
      | Some last_kf =>
          let end_ :=
            match position is_video_keyframe (drop (last_kf + 1) (chunks b)) with
            | Some i => (last_kf + 1 + i)%nat
            | None => (last_kf + 1)%nat
            end in
          let! r1 := pop_front_n start (chunks b) (total_bytes b) in
          let '(_, l1, total1) := r1 in
          let! count := if (end_ <? start)%nat then Panic else Ret (end_ - start)%nat in
          let! r2 := pop_front_n count l1 total1 in
          let '(drained, l2, total2) := r2 in
          Ret (drained, mk_short_term l2 (max_duration b) total2)
      end
  end.

Definition drain_all (b : ShortTermBuffer) : list RecordingFrame * ShortTermBuffer :=
  (chunks b, mk_short_term [] (max_duration b) 0).

Definition short_duration (b : ShortTermBuffer) : Z :=
  match head (chunks b), last (chunks b) with
  | Some first, Some newest => saturating_duration_since (received_at newest) (received_at first)
  | _, _ => 0
  end.

(** ** The buffer as a step function *)

Inductive ShortOp :=
| OpPush (f : RecordingFrame)
| OpDrainBefore (cutoff : Z)
| OpDrainKeyframe (cutoff : Z)
| OpDrainAll.

Definition short_step (b : ShortTermBuffer) (op : ShortOp)
    : outcome (list RecordingFrame * ShortTermBuffer) :=
  match op with
  | OpPush f => let! b' := short_push b f in Ret ([], b')
  | OpDrainBefore c => drain_before b c
  | OpDrainKeyframe c => drain_up_to_last_keyframe_before b c
  | OpDrainAll => Ret (drain_all b)
  end.

Fixpoint short_run (b : ShortTermBuffer) (ops : list ShortOp)
    : outcome (list RecordingFrame * ShortTermBuffer) :=
  match ops with
  | [] => Ret ([], b)
  | op :: ops' =>
      let! r := short_step b op in
      let! r' := short_run (snd r) ops' in
      Ret (fst r ++ fst r', snd r')
  end.

(** The frames a sequence of operations pushes. *)
Definition pushed (ops : list ShortOp) : list RecordingFrame :=
  omap (λ op, match op with OpPush f => Some f | _ => None end) ops.

(** ** Invariant *)

Definition short_inv (b : ShortTermBuffer) : Prop :=
  total_bytes b = zsum byte_len (chunks b).

Lemma zsum_byte_len_nonneg l : 0 ≤ zsum byte_len l.
Proof. apply zsum_nonneg, byte_len_nonneg. Qed.
#[export] Hint Resolve zsum_byte_len_nonneg : keeppeek.

(** Every removal loop splits the queue and never underflows the total. *)
Lemma evict_loop_spec cutoff l :
  ∃ old rest, evict_loop cutoff l (zsum byte_len l) = Ret (rest, zsum byte_len rest)
    ∧ l = old ++ rest ∧ Forall (λ f, received_at f < cutoff) old
    ∧ (∀ f, head rest = Some f → cutoff ≤ received_at f).
Proof.
  induction l as [|f l IH]; simpl; [by exists [], []|].
  destruct (Z.ltb_spec (received_at f) cutoff) as [Hlt|Hge].
  - destruct IH as (old & rest & Heq & -> & Hold & Hhd).
    exists (f :: old), rest. unfold plain_sub.
    rewrite (proj2 (Z.leb_le _ _)) by (pose proof (zsum_byte_len_nonneg (old ++ rest)); lia).
    simpl. rewrite Z.add_simpl_l, Heq. by repeat constructor.
  - exists [], (f :: l). repeat split; [constructor|]. intros ? [= <-]. lia.
Qed.

Lemma drain_loop_spec cutoff l acc :
  ∃ old rest, drain_loop cutoff l (zsum byte_len l) acc = Ret (acc ++ old, rest, zsum byte_len rest)
    ∧ l = old ++ rest ∧ Forall (λ f, received_at f < cutoff) old
    ∧ (∀ f, head rest = Some f → cutoff ≤ received_at f).
Proof.
  revert acc. induction l as [|f l IH]; intros acc; simpl.
  { exists [], []. rewrite app_nil_r. by repeat constructor. }
  destruct (Z.ltb_spec (received_at f) cutoff) as [Hlt|Hge].
  - destruct (IH (acc ++ [f])) as (old & rest & Heq & -> & Hold & Hhd).
    exists (f :: old), rest. unfold plain_sub.
    rewrite (proj2 (Z.leb_le _ _)) by (pose proof (zsum_byte_len_nonneg (old ++ rest)); lia).
    simpl. rewrite Z.add_simpl_l, Heq, <-app_assoc. by repeat constructor.
  - exists [], (f :: l). rewrite app_nil_r. repeat split; [constructor|]. intros ? [= <-]. lia.
Qed.

Lemma pop_front_n_spec n l :
  (n ≤ length l)%nat →
  pop_front_n n l (zsum byte_len l) = Ret (take n l, drop n l, zsum byte_len (drop n l)).
Proof.
  revert l. induction n as [|n IH]; intros l Hn; [done|].
  destruct l as [|f l]; simpl in *; [lia|]. unfold plain_sub.
  rewrite (proj2 (Z.leb_le _ _)) by (pose proof (zsum_byte_len_nonneg l); lia).
  simpl. rewrite Z.add_simpl_l, IH by lia. done.
Qed.

(** A keyframe received before the cutoff. *)
Definition older_keyframe (cutoff : Z) (f : RecordingFrame) : Prop :=
  is_video_keyframe f = true ∧ received_at f < cutoff.

(** How the queue is cut into dropped frames, drained frames and a rest: the drained
    part begins with the first keyframe older than the cutoff and contains the last
    one, [k]; it ends before the next keyframe of the queue, and with [k] itself when
    there is none. *)
Definition keyframe_cut (cutoff : Z) (l dropped drained rest : list RecordingFrame) : Prop :=
  l = dropped ++ drained ++ rest
  ∧ Forall (λ f, ¬ older_keyframe cutoff f) dropped
  ∧ (∃ k tl, drained = k :: tl ∧ older_keyframe cutoff k)
  ∧ Forall (λ f, ¬ older_keyframe cutoff f) rest
  ∧ ∃ hd k tl, drained = hd ++ k :: tl ∧ older_keyframe cutoff k
      ∧ Forall (λ f, is_video_keyframe f = false) tl
      ∧ ((Forall (λ f, is_video_keyframe f = false) rest ∧ tl = [])
         ∨ ∃ k' rest', rest = k' :: rest' ∧ is_video_keyframe k' = true).

Lemma older_keyframe_true c f :
  is_video_keyframe f && (received_at f <? c) = true ↔ older_keyframe c f.
Proof. unfold older_keyframe. by rewrite andb_true_iff, Z.ltb_lt. Qed.
Lemma older_keyframe_false c f :
  is_video_keyframe f && (received_at f <? c) = false ↔ ¬ older_keyframe c f.
Proof. by rewrite <-older_keyframe_true, not_true_iff_false. Qed.

Lemma drop_lookup_Forall {A} (P : A → Prop) n (l : list A) :
  (∀ j b, (n ≤ j)%nat → l !! j = Some b → P b) → Forall P (drop n l).
Proof.
  intros H. apply Forall_lookup. intros i x. rewrite lookup_drop. apply H. lia.
Qed.
Lemma take_lookup_Forall {A} (P : A → Prop) n (l : list A) :
  (∀ j b, (j < n)%nat → l !! j = Some b → P b) → Forall P (take n l).
Proof.
  intros H. apply Forall_lookup. intros i x [Hl Hi]%lookup_take_Some. by apply (H i).
Qed.

Lemma cut_at_indices cutoff l start last_kf fin :
  position (λ f, is_video_keyframe f && (received_at f <? cutoff)) l = Some start →
  rposition (λ f, is_video_keyframe f && (received_at f <? cutoff)) l = Some last_kf →
  fin = match position is_video_keyframe (drop (last_kf + 1) l) with
        | Some i => (last_kf + 1 + i)%nat
        | None => (last_kf + 1)%nat
        end →
  (start ≤ last_kf < fin ∧ fin ≤ length l)%nat
  ∧ keyframe_cut cutoff l (take start l) (take (fin - start) (drop start l))
      (drop (fin - start) (drop start l)).
Proof.
  intros Hs Hr Hfin.
  pose proof (position_le_rposition _ _ _ _ Hs Hr) as Hle.
  apply position_Some in Hs as (ks & Hks & Heks%older_keyframe_true & Hbefore).
  apply rposition_Some in Hr as (kl & Hkl & Hekl%older_keyframe_true & Hafter).
  pose proof (lookup_lt_Some _ _ _ Hkl) as Hlen.
  assert (Hb : (last_kf < fin ∧ fin ≤ length l)%nat).
  { destruct (position is_video_keyframe _) as [i|] eqn:Hp; [|lia].
    apply position_Some in Hp as (f & Hf & _ & _). rewrite lookup_drop in Hf.
    apply lookup_lt_Some in Hf. lia. }
  split; [lia|]. rewrite drop_drop.
  replace (start + (fin - start))%nat with fin by lia.
  repeat split.
  - rewrite <-(take_drop start l) at 1. f_equal.
    rewrite <-(take_drop (fin - start) (drop start l)) at 1. rewrite drop_drop.
    by replace (start + (fin - start))%nat with fin by lia.
  - apply take_lookup_Forall. intros j b Hj Hb'. by eapply older_keyframe_false, Hbefore.
  - exists ks, (take (fin - start - 1) (drop (S start) l)). split; [|done].
    rewrite (drop_S _ _ _ Hks). destruct (fin - start)%nat as [|m] eqn:Hm; [lia|]. simpl. by rewrite Nat.sub_0_r.
  - apply drop_lookup_Forall. intros j b Hj Hb'. eapply older_keyframe_false, Hafter; [|done]. lia.
  - exists (take (last_kf - start) (drop start l)), kl, (take (fin - S last_kf) (drop (S last_kf) l)).
    split; [|split; [done|]].
    { rewrite <-(take_drop (last_kf - start) (take (fin - start) (drop start l))) at 1. f_equal.
      - rewrite take_take. f_equal. lia.
      - replace (fin - start)%nat with ((last_kf - start) + (fin - last_kf))%nat by lia.
        rewrite <-take_drop_commute, drop_drop. replace (start + (last_kf - start))%nat with last_kf by lia.
        rewrite (drop_S _ _ _ Hkl).
        replace (fin - last_kf)%nat with (S (fin - S last_kf)) by lia. done. }
    subst fin. destruct (position is_video_keyframe _) as [i|] eqn:Hp.
    + apply position_Some in Hp as (f & Hf & Hkf & Hno). split.
      * apply take_lookup_Forall. intros j b Hj Hb'. apply (Hno j b); [lia|].
        by replace (last_kf + 1)%nat with (S last_kf) by lia.
      * right. rewrite lookup_drop in Hf. exists f, (drop (S (last_kf + 1 + i)) l). by rewrite (drop_S _ _ _ Hf).
    + replace (last_kf + 1 - S last_kf)%nat with 0%nat by lia. split; [constructor|]. left.
      split; [by apply position_None|done].
Qed.

Lemma drain_keyframe_result b cutoff :
  short_inv b →
  (Forall (λ f, ¬ older_keyframe cutoff f) (chunks b)
   ∧ drain_up_to_last_keyframe_before b cutoff = Ret ([], b))
  ∨ ∃ dropped drained rest, keyframe_cut cutoff (chunks b) dropped drained rest
    ∧ drain_up_to_last_keyframe_before b cutoff
      = Ret (drained, mk_short_term rest (max_duration b) (zsum byte_len rest)).
Proof.
  unfold drain_up_to_last_keyframe_before. intros ->.
  destruct (position _ (chunks b)) as [start|] eqn:Hs.
  2:{ left. split; [|done]. apply position_None in Hs. eapply Forall_impl; [exact Hs|].
      intros f. apply older_keyframe_false. }
  right.
  destruct (rposition _ (chunks b)) as [last_kf|] eqn:Hr;
    [|apply rposition_None in Hr; rewrite Hr in Hs; discriminate].
  destruct (cut_at_indices cutoff (chunks b) start last_kf _ Hs Hr eq_refl) as [Hlt Hcut].
  set (fin := match position is_video_keyframe _ with Some _ => _ | None => _ end) in *.
  eexists _, _, _. split; [exact Hcut|].
  rewrite pop_front_n_spec by lia. simpl.
  rewrite (proj2 (Nat.ltb_ge _ _)) by lia. simpl.
  rewrite pop_front_n_spec by (rewrite length_drop; lia). done.
Qed.

(** One step keeps the invariant, returns a value as long as the pushed bytes
    fit, and never invents frames. *)
Lemma short_step_spec b op :
  short_inv b →
  zsum byte_len (chunks b) + zsum byte_len (pushed [op]) ≤ usize_max →
  ∃ out b', short_step b op = Ret (out, b') ∧ short_inv b'
    ∧ max_duration b' = max_duration b
    ∧ (out ++ chunks b') `sublist_of` (chunks b ++ pushed [op]).
Proof.
  intros Hinv Hfit. destruct op as [f|c|c|]; simpl in *.
  - rewrite Z.add_0_r in Hfit.
    unfold short_push, plain_add. rewrite Hinv, (proj2 (Z.leb_le _ _) Hfit). simpl.
    unfold evict_expired. simpl. rewrite last_snoc.
    replace (zsum byte_len (chunks b) + byte_len f)
      with (zsum byte_len (chunks b ++ [f])) by (rewrite zsum_app; simpl; lia).
    destruct (instant_checked_sub _ _) as [cut|]; simpl; [|by eexists _, _].
    destruct (evict_loop_spec cut (chunks b ++ [f])) as (old & rest & -> & Heq & _ & _).
    simpl. eexists _, _. repeat split; simpl. rewrite Heq. by apply sublist_inserts_l.
  - unfold drain_before. rewrite Hinv.
    destruct (drain_loop_spec c (chunks b) []) as (old & rest & -> & Heq & _ & _).
    simpl. eexists _, _. repeat split; simpl. by rewrite Heq, app_nil_r.
  - destruct (drain_keyframe_result b c Hinv) as [[_ ->]|(dr & dn & rs & Hcut & ->)].
    + eexists _, _. repeat split; [done|]. simpl. by rewrite app_nil_r.
    + eexists _, _. repeat split; simpl. destruct Hcut as [-> _]. rewrite app_nil_r.
      by apply sublist_inserts_l.
  - eexists _, _. repeat split; simpl. by rewrite !app_nil_r.
Qed.

Lemma pushed_cons op ops : pushed (op :: ops) = pushed [op] ++ pushed ops.
Proof. by destruct op. Qed.

Lemma short_run_spec ops b :
  short_inv b →
  zsum byte_len (chunks b) + zsum byte_len (pushed ops) ≤ usize_max →
  ∃ out b', short_run b ops = Ret (out, b') ∧ short_inv b'
    ∧ max_duration b' = max_duration b
    ∧ (out ++ chunks b') `sublist_of` (chunks b ++ pushed ops).
Proof.
  revert b. induction ops as [|op ops IH]; intros b Hinv Hfit; cbn [short_run].
  { eexists _, _. repeat split; [done|]. simpl. by rewrite app_nil_r. }
  rewrite pushed_cons, zsum_app in Hfit.
  destruct (short_step_spec b op Hinv) as (o1 & b1 & -> & Hinv1 & Hmax1 & Hsub1).
  { pose proof (zsum_byte_len_nonneg (pushed ops)). lia. }
  pose proof (zsum_sub_le byte_len _ _ byte_len_nonneg Hsub1) as Hle.
  rewrite !zsum_app in Hle. pose proof (zsum_byte_len_nonneg o1).
  destruct (IH b1 Hinv1) as (o2 & b2 & Hrun & Hinv2 & Hmax2 & Hsub2); [lia|].
  cbn [obind fst snd]. rewrite Hrun. cbn [obind fst snd]. eexists _, _. repeat split; [done|congruence|].
  rewrite (pushed_cons op ops), <-app_assoc.
  etrans; [by apply sublist_app; [reflexivity|exact Hsub2]|].
  rewrite !app_assoc. by apply sublist_app.
Qed.

(** A queue whose only keyframe comes last, after frames that are not keyframes. *)
Lemma drain_lone_keyframe ds k rest d c :
  Forall (λ f, is_video_keyframe f = false) ds → is_video_keyframe k = true →
  received_at k < c → Forall (λ f, is_video_keyframe f = false) rest →
  drain_up_to_last_keyframe_before
    (mk_short_term (ds ++ k :: rest) d (zsum byte_len (ds ++ k :: rest))) c
  = Ret ([k], mk_short_term rest d (zsum byte_len rest)).
Proof.
  intros Hds Hk Hc Hrest.
  assert (He : is_video_keyframe k && (received_at k <? c) = true)
    by (by apply older_keyframe_true).
  assert (Hne : ∀ l, Forall (λ f, is_video_keyframe f = false) l →
                     Forall (λ f, is_video_keyframe f && (received_at f <? c) = false) l).
  { intros l Hl. eapply Forall_impl; [exact Hl|]. intros f Hf. simpl in Hf. by rewrite Hf. }
  unfold drain_up_to_last_keyframe_before. cbn [chunks total_bytes max_duration].
  rewrite position_app_hit, rposition_app_hit by auto.
  replace (drop (length ds + 1) (ds ++ k :: rest)) with rest
    by (rewrite drop_app_ge by lia; by replace (length ds + 1 - length ds)%nat with 1%nat by lia).
  rewrite position_miss by done.
  rewrite pop_front_n_spec by (rewrite length_app; lia).
  rewrite drop_app_length. cbn [obind].
  rewrite (proj2 (Nat.ltb_ge _ _)) by lia.
  replace (length ds + 1 - length ds)%nat with 1%nat by lia. cbn [obind].
  by rewrite pop_front_n_spec by (simpl; lia).
Qed.

(** Pushing keeps the newest frame: eviction only removes frames older than it. *)
Lemma short_push_suffix b f b' :
  short_inv b → 0 ≤ max_duration b → short_push b f = Ret b' →
  ∃ old kept, chunks b = old ++ kept ∧ chunks b' = kept ++ [f]
    ∧ max_duration b' = max_duration b ∧ short_inv b'.
Proof.
  intros Hinv Hd. unfold short_push, plain_add. rewrite Hinv.
  destruct (_ <=? _); simpl; [|done].
  unfold evict_expired. cbn [chunks max_duration total_bytes]. rewrite last_snoc.
  replace (zsum byte_len (chunks b) + byte_len f)
    with (zsum byte_len (chunks b ++ [f])) by (rewrite zsum_app; simpl; lia).
  destruct (instant_checked_sub _ _) as [cut|] eqn:Hcut; intros Hp.
  2:{ simplify_eq/=. by exists [], (chunks b). }
  destruct (evict_loop_spec cut (chunks b ++ [f])) as (old & rest & Heq & Hl & Hold & Hhd).
  rewrite Heq in Hp. simplify_eq/=.
  unfold instant_checked_sub in Hcut. case_match; simplify_eq.
  destruct rest as [|x rest _] using rev_ind.
  - rewrite app_nil_r in Hl. rewrite <-Hl, Forall_app, Forall_singleton in Hold. lia.
  - rewrite app_assoc in Hl. apply app_inj_tail in Hl as [-> ->]. by exists old, rest.
Qed.

(** ** Properties *)

(** C10. Every sequence of pushes and drains of an empty buffer whose pushed
    payloads fit in [usize] returns without a panic; afterwards [total_bytes] is
    the exact size of the buffered frames, the drained frames followed by the
    buffered ones are a subsequence of the pushed ones (in order, none twice). *)
Theorem short_term_accounting d ops :
  zsum byte_len (pushed ops) ≤ usize_max →
  ∃ out b, short_run (short_new d) ops = Ret (out, b)
    ∧ total_bytes b = zsum byte_len (chunks b)
    ∧ (out ++ chunks b) `sublist_of` pushed ops.
Proof.
  intros Hfit. destruct (short_run_spec ops (short_new d) eq_refl Hfit) as (out & b & ? & ? & _ & ?); eauto.
Qed.

Lemma short_term_accounting_witness :
  ∃ out b, short_run (short_new 100)
      [OpPush (sample_video true 0 5); OpPush (sample_video false 10 3); OpDrainKeyframe 5]
    = Ret (out, b) ∧ total_bytes b = zsum byte_len (chunks b)
      ∧ (out ++ chunks b) `sublist_of` [sample_video true 0 5; sample_video false 10 3].
Proof.
  apply (short_term_accounting 100
    [OpPush (sample_video true 0 5); OpPush (sample_video false 10 3); OpDrainKeyframe 5]).
  vm_compute. congruence.
Defined.

(** C11. [drain_up_to_last_keyframe_before] on a consistent buffer.  When no
    keyframe of the queue was received strictly before the cutoff, nothing changes.
    Otherwise the queue is cut into dropped, drained and kept frames: no keyframe
    received before the cutoff is dropped or kept, the drained part begins with such a
    keyframe, and after the last of them it holds the frames up to the next keyframe of
    the queue, which the kept part then begins with; when there is no such keyframe the
    drained part ends with the last one drained.  The byte counter is the size of what
    is kept. *)
Theorem drain_keyframe_cut b cutoff :
  short_inv b →
  (Forall (λ f, ¬ (is_video_keyframe f = true ∧ received_at f < cutoff)) (chunks b)
   ∧ drain_up_to_last_keyframe_before b cutoff = Ret ([], b))
  ∨ ∃ dropped gops k tail rest,
      chunks b = dropped ++ (gops ++ k :: tail) ++ rest
    ∧ Forall (λ f, ¬ (is_video_keyframe f = true ∧ received_at f < cutoff)) (dropped ++ tail ++ rest)
    ∧ (∃ k0 tl, gops ++ [k] = k0 :: tl ∧ is_video_keyframe k0 = true ∧ received_at k0 < cutoff)
    ∧ (is_video_keyframe k = true ∧ received_at k < cutoff)
    ∧ Forall (λ f, is_video_keyframe f = false) tail
    ∧ ((Forall (λ f, is_video_keyframe f = false) rest ∧ tail = [])
       ∨ ∃ k' rest', rest = k' :: rest' ∧ is_video_keyframe k' = true)
    ∧ drain_up_to_last_keyframe_before b cutoff
      = Ret (gops ++ k :: tail, mk_short_term rest (max_duration b) (zsum byte_len rest)).
Proof.
  intros Hinv. destruct (drain_keyframe_result b cutoff Hinv) as [?|(dropped & drained & rest & Hcut & Hd)]; [by left|].
  right. destruct Hcut as (Hl & Hdr & (k0 & tl0 & Hk0 & Ho0) & Hre & gops & k & tail & -> & Hk & Htl & Hend).
  exists dropped, gops, k, tail, rest. split_and!; try done.
  - rewrite !Forall_app. split_and!; [done| |done]. eapply Forall_impl; [exact Htl|]. cbn. intros f Hf [Hf' _]. congruence.
  - destruct gops as [|g gops]; injection Hk0 as <- _; [by exists k, []|by exists g, (gops ++ [k])].
  - apply Hk.
  - apply Hk.
Qed.

(** A keyframe at the cutoff is kept; the older GOP is drained up to it. *)
Lemma drain_keyframe_cut_witness :
  let b := mk_short_term [sample_video false 1 2; sample_video true 2 5; sample_video false 3 3; sample_video true 5 4]
             100 14 in
  (∃ dropped gops k tail rest, chunks b = dropped ++ (gops ++ k :: tail) ++ rest
    ∧ (is_video_keyframe k = true ∧ received_at k < 5)
    ∧ drain_up_to_last_keyframe_before b 5
      = Ret (gops ++ k :: tail, mk_short_term rest (max_duration b) (zsum byte_len rest)))
  ∧ drain_up_to_last_keyframe_before b 5
    = Ret ([sample_video true 2 5; sample_video false 3 3], mk_short_term [sample_video true 5 4] 100 4).
Proof.
  intros b. split; [|vm_compute; reflexivity].
  destruct (drain_keyframe_cut b 5 eq_refl) as [[H _]|(dropped & gops & k & tail & rest & H1 & _ & _ & H2 & _ & _ & H3)].
  - exfalso. rewrite Forall_forall in H. refine (H (sample_video true 2 5) _ _); [|by vm_compute].
    apply list_elem_of_further, list_elem_of_here.
  - exists dropped, gops, k, tail, rest. exact (conj H1 (conj H2 H3)).
Defined.

(** A GOP that is still open when it is flushed loses its delta frames: when
    the only keyframe [k] of the buffer is older than the cutoff and no newer
    keyframe has arrived, the drain takes [k] alone and keeps its delta frames
    [deltas]; once the next keyframe [k'] is pushed and older than a later
    cutoff, the next drain returns [k'] alone and the buffer is empty: the
    [deltas] reach neither the writer nor the buffer. *)
Theorem open_gop_deltas_lost d k deltas k' c1 c2 b2 :
  0 ≤ d → is_video_keyframe k = true → received_at k < c1 →
  Forall (λ f, is_video_keyframe f = false) deltas →
  is_video_keyframe k' = true → received_at k' < c2 →
  let b0 := mk_short_term (k :: deltas) d (zsum byte_len (k :: deltas)) in
  let b1 := mk_short_term deltas d (zsum byte_len deltas) in
  short_push b1 k' = Ret b2 →
  drain_up_to_last_keyframe_before b0 c1 = Ret ([k], b1)
  ∧ drain_up_to_last_keyframe_before b2 c2 = Ret ([k'], mk_short_term [] d 0).
Proof.
  intros Hd Hk Hc1 Hds Hk' Hc2 b0 b1 Hp. split.
  - by apply (drain_lone_keyframe [] k deltas).
  - destruct (short_push_suffix b1 k' b2) as (old & kept & Hold & Hch & Hmax & Hinv); [done..|].
    destruct b2 as [ch md tb]. unfold short_inv in Hinv. simpl in *. subst.
    rewrite Forall_app in Hds. destruct Hds as [_ Hkept].
    apply (drain_lone_keyframe kept k' []); [done..|constructor].
Qed.

Lemma open_gop_deltas_lost_witness :
  let k := sample_video true 0 5 in
  let deltas := [sample_video false 10 3; sample_video false 20 3] in
  let k' := sample_video true 30 5 in
  ∃ b2, short_push (mk_short_term deltas 1000 6) k' = Ret b2
    ∧ drain_up_to_last_keyframe_before (mk_short_term (k :: deltas) 1000 11) 15
      = Ret ([k], mk_short_term deltas 1000 6)
    ∧ drain_up_to_last_keyframe_before b2 40 = Ret ([k'], mk_short_term [] 1000 0).
Proof.
  eexists. split; [reflexivity|].
  refine (open_gop_deltas_lost 1000 (sample_video true 0 5)
    [sample_video false 10 3; sample_video false 20 3] (sample_video true 30 5) 15 40 _
    _ _ _ _ _ _ _); try (vm_compute; congruence); repeat constructor.
Defined.
