(* ===== verification/PreRecord.v ===== *)
(** * Pre-record history buffers

    [src/storage/pre_record.rs]: the bounded in-memory history of every camera
    stream that is replayed into an event recording.  Each buffered frame holds a
    [Reservation] on two shared budgets, its stream's and the global one, which it
    gives back when the frame is dropped, wherever that happens: inside the buffers
    or later, by the owner of replayed frames.

    The [Arc<Budget>]s are modelled as a store: a stream budget is an entry of
    [stream_budgets] under the identity of its allocation, a reservation refers to
    it by that identity, and dropping a frame releases both counters.  A stream
    that is removed and configured again gets a new allocation, while frames still
    held by a replay keep releasing the old one. *)

From S2P Require Import Prelude Frame.

Definition MAX_STREAMS : Z := 254.
Definition MAX_STREAM_FRAMES : Z := 16384.
Definition MAX_GLOBAL_FRAMES : Z := 131072.
Definition MAX_ID_BYTES : Z := 256.

(** ** Budgets and reservations *)

Record Budget := mk_budget {
  b_bytes : Z;
  b_frames : Z;
  b_max_bytes : Z;
  b_max_frames : Z
}.

Definition budget_new (max_bytes max_frames : Z) : Budget := mk_budget 0 0 max_bytes max_frames.

Definition budget_fits (b : Budget) (bytes : Z) : bool :=
  is_some_and (λ total, total <=? b_max_bytes b) (checked_add usize_max (b_bytes b) bytes)
  && (b_frames b <? b_max_frames b).

(** [fetch_add] and [fetch_sub] wrap. *)
Definition budget_acquire (b : Budget) (bytes : Z) : bool * Budget :=
  if negb (budget_fits b bytes) then (false, b)
  else (true, mk_budget (wrapping_add (b_bytes b) bytes) (wrapping_add (b_frames b) 1)
                (b_max_bytes b) (b_max_frames b)).

Definition budget_release (b : Budget) (bytes : Z) : Budget :=
  mk_budget (wrapping_sub (b_bytes b) bytes) (wrapping_sub (b_frames b) 1)
    (b_max_bytes b) (b_max_frames b).

(** The identity of an [Arc<Budget>] allocation. *)
Abbreviation Arc := N.

Record Reservation := mk_reservation {
  r_bytes : Z;
  r_stream_budget : Arc
}.

Record BufferedFrame := mk_buffered {
  bf_frame : RecordingFrame;
  bf_reservation : Reservation
}.

Record Budgets := mk_budgets {
  stream_budgets : gmap Arc Budget;
  global_budget : Budget
}.

(** [Drop for Reservation]. *)
Definition drop_reservation (bs : Budgets) (r : Reservation) : Budgets :=
  mk_budgets (alter (λ b, budget_release b (r_bytes r)) (r_stream_budget r) (stream_budgets bs))
    (budget_release (global_budget bs) (r_bytes r)).

Definition drop_frames (bs : Budgets) (fs : list BufferedFrame) : Budgets :=
  foldl (λ bs f, drop_reservation bs (bf_reservation f)) bs fs.

(** ** One stream's history *)

Record Gop := mk_gop {
  g_start : Z;
  g_frames : list BufferedFrame
}.

Inductive HistoryReason :=
| Ready | ReplayPending | Startup | MissingKeyframe | DurationEviction
| StreamPressure | GlobalPressure | InvalidOrder.

#[global] Instance HistoryReason_eq_dec : EqDecision HistoryReason.
Proof. solve_decision. Defined.

Record StreamHistory := mk_history {
  h_duration : Z;
  h_budget : Arc;
  h_gops : list Gop;
  h_awaiting_keyframe : bool;
  h_discontinuous : bool;
  h_last_received_at : option Z;
  h_reason : HistoryReason;
  h_continuous : bool;
  h_released : list BufferedFrame
}.

Definition set_gops (h : StreamHistory) (g : list Gop) : StreamHistory :=
  mk_history (h_duration h) (h_budget h) g (h_awaiting_keyframe h) (h_discontinuous h)
    (h_last_received_at h) (h_reason h) (h_continuous h) (h_released h).
Definition set_awaiting (h : StreamHistory) (a : bool) : StreamHistory :=
  mk_history (h_duration h) (h_budget h) (h_gops h) a (h_discontinuous h)
    (h_last_received_at h) (h_reason h) (h_continuous h) (h_released h).
Definition set_discontinuous (h : StreamHistory) (d : bool) : StreamHistory :=
  mk_history (h_duration h) (h_budget h) (h_gops h) (h_awaiting_keyframe h) d
    (h_last_received_at h) (h_reason h) (h_continuous h) (h_released h).
Definition set_last (h : StreamHistory) (t : option Z) : StreamHistory :=
  mk_history (h_duration h) (h_budget h) (h_gops h) (h_awaiting_keyframe h) (h_discontinuous h)
    t (h_reason h) (h_continuous h) (h_released h).
Definition set_reason (h : StreamHistory) (r : HistoryReason) : StreamHistory :=
  mk_history (h_duration h) (h_budget h) (h_gops h) (h_awaiting_keyframe h) (h_discontinuous h)
    (h_last_received_at h) r (h_continuous h) (h_released h).
Definition set_continuous_flag (h : StreamHistory) (c : bool) : StreamHistory :=
  mk_history (h_duration h) (h_budget h) (h_gops h) (h_awaiting_keyframe h) (h_discontinuous h)
    (h_last_received_at h) (h_reason h) c (h_released h).
Definition set_released (h : StreamHistory) (r : list BufferedFrame) : StreamHistory :=
  mk_history (h_duration h) (h_budget h) (h_gops h) (h_awaiting_keyframe h) (h_discontinuous h)
    (h_last_received_at h) (h_reason h) (h_continuous h) r.
Definition set_duration (h : StreamHistory) (d : Z) : StreamHistory :=
  mk_history d (h_budget h) (h_gops h) (h_awaiting_keyframe h) (h_discontinuous h)
    (h_last_received_at h) (h_reason h) (h_continuous h) (h_released h).

Definition gop_frames (gs : list Gop) : list BufferedFrame := mjoin (g_frames <$> gs).

(** [evict_oldest]: the evicted GOP's frames are queued for release to the writer
    of a continuous recording, and dropped otherwise. *)
Definition evict_oldest (bs : Budgets) (h : StreamHistory) : bool * Budgets * StreamHistory :=
  let '(evicted, gops) :=
    match h_gops h with
    | [] => (None, [])
    | g :: gs => (Some g, gs)
    end in
  let present := bool_decide (is_Some evicted) in
  let h := set_gops h gops in
  let '(bs, h) :=
    match evicted with
    | Some g =>
        if h_continuous h then (bs, set_released h (h_released h ++ g_frames g))
        else (drop_frames bs (g_frames g), h)
    | None => (bs, h)
    end in
  let h := match gops with [] => set_awaiting h true | _ => h end in
  (present, bs, h).

(** [while front.is_some_and(too old) { evict }]: [pending] is the queue of GOPs
    left, one of which each turn of the loop removes. *)
Fixpoint expire_loop (pending : list Gop) (bs : Budgets) (h : StreamHistory) (now : Z)
    : Budgets * StreamHistory :=
  match pending with
  | [] => (bs, h)
  | g :: pending' =>
      if h_duration h <? saturating_duration_since now (g_start g) then
        let '(_, bs, h) := evict_oldest bs (set_reason h DurationEviction) in
        expire_loop pending' bs h now
      else (bs, h)
  end.
Definition history_expire (bs : Budgets) (h : StreamHistory) (now : Z) : Budgets * StreamHistory :=
  expire_loop (h_gops h) bs h now.

(** [while self.evict_oldest() {}]. *)
Fixpoint evict_all (pending : list Gop) (bs : Budgets) (h : StreamHistory)
    : Budgets * StreamHistory :=
  let '(present, bs, h) := evict_oldest bs h in
  match pending with
  | _ :: pending' => if present then evict_all pending' bs h else (bs, h)
  | [] => (bs, h)
  end.

Definition discard_open (bs : Budgets) (h : StreamHistory) : Budgets * StreamHistory :=
  let '(bs, h) :=
    if h_continuous h then evict_all (h_gops h) bs h
    else if negb (h_awaiting_keyframe h) then
      match last (h_gops h) with
      | Some g => (drop_frames bs (g_frames g), set_gops h (removelast (h_gops h)))
      | None => (bs, h)
      end
    else (bs, h) in
  (bs, set_discontinuous (set_awaiting h true) true).

Definition history_fits (bs : Budgets) (h : StreamHistory) (bytes : Z) : bool :=
  match stream_budgets bs !! h_budget h with
  | Some b => budget_fits b bytes
  | None => false
  end.

(** [while !self.budget.fits(bytes) { ... evict_oldest ... }]. *)
Fixpoint fit_loop (pending : list Gop) (bs : Budgets) (h : StreamHistory) (bytes : Z)
    : bool * Budgets * StreamHistory :=
  if history_fits bs h bytes then (true, bs, h)
  else
    let '(present, bs, h) := evict_oldest bs (set_reason h StreamPressure) in
    if present then
      match pending with
      | _ :: pending' => fit_loop pending' bs h bytes
      | [] => (false, bs, h)
      end
    else (false, bs, h).

Definition stream_max_bytes (bs : Budgets) (h : StreamHistory) : Z :=
  match stream_budgets bs !! h_budget h with
  | Some b => b_max_bytes b
  | None => 0
  end.

Definition admit_frame (bs : Budgets) (h : StreamHistory) (f : RecordingFrame) (now global_limit : Z)
    : bool * Budgets * StreamHistory :=
  let '(bs, h) := history_expire bs h now in
  let too_old := h_duration h <? saturating_duration_since now (received_at f) in
  if (now <? received_at f) || too_old
     || is_some_and (λ newest, received_at f <? newest) (h_last_received_at h)
  then
    let h := set_reason h (if too_old then DurationEviction else InvalidOrder) in
    let '(bs, h) := discard_open bs h in
    (false, bs, h)
  else
    let h := set_last h (Some (received_at f)) in
    let keyframe := is_video_keyframe f in
    if h_awaiting_keyframe h && negb keyframe then
      (false, bs,
       if bool_decide (h_reason h = Startup) then set_reason h MissingKeyframe else h)
    else
      let bytes := byte_len f in
      let h := if keyframe then set_awaiting h true else h in
      if (stream_max_bytes bs h <? bytes) || (global_limit <? bytes) then
        let h := set_reason h
          (if stream_max_bytes bs h <? bytes then StreamPressure else GlobalPressure) in
        let '(bs, h) := discard_open bs h in
        (false, bs, h)
      else
        let '(bs, h) :=
          if keyframe && h_discontinuous h then
            (drop_frames bs (gop_frames (h_gops h)), set_discontinuous (set_gops h []) false)
          else (bs, h) in
        let '(fits, bs, h) := fit_loop (h_gops h) bs h bytes in
        if negb fits then (false, bs, h)
        else if h_awaiting_keyframe h && negb keyframe then (false, bs, h)
        else (true, bs, h).

(** ** The registry *)

Record PreRecordBuffers := mk_buffers {
  streams : gmap string (gmap string StreamHistory);
  stream_count : Z;
  stream_bytes : Z;
  budgets : Budgets;
  next_arc : Arc
}.

Definition buffers_new (stream_bytes global_bytes : Z) : PreRecordBuffers :=
  mk_buffers ∅ 0 stream_bytes (mk_budgets ∅ (budget_new global_bytes MAX_GLOBAL_FRAMES)) 0%N.

Definition stream_mut (p : PreRecordBuffers) (source stream : string) : option StreamHistory :=
  streams p !! source ≫= λ inner, inner !! stream.

(** Writing back through the [&mut StreamHistory] of a configured stream. *)
Definition put_stream (p : PreRecordBuffers) (source stream : string) (bs : Budgets)
    (h : StreamHistory) : PreRecordBuffers :=
  mk_buffers (alter (λ inner, <[stream := h]> inner) source (streams p)) (stream_count p)
    (stream_bytes p) bs (next_arc p).

Definition set_streams (p : PreRecordBuffers) (s : gmap string (gmap string StreamHistory))
    : PreRecordBuffers :=
  mk_buffers s (stream_count p) (stream_bytes p) (budgets p) (next_arc p).

Definition history_clear (h : StreamHistory) : StreamHistory :=
  set_reason (set_last (set_discontinuous (set_awaiting (set_released (set_gops h []) []) true)
    false) None) Startup.

Definition history_frames (h : StreamHistory) : list BufferedFrame :=
  gop_frames (h_gops h) ++ h_released h.

Definition configure (p : PreRecordBuffers) (source stream : string) (duration : Z)
    : bool * PreRecordBuffers :=
  if str_is_empty source || (MAX_ID_BYTES <? str_len source)
     || negb (str_eqb stream "main" || str_eqb stream "sub")
     || (duration =? 0) || (from_secs 30 <? duration)
     || (stream_bytes p =? 0) || (b_max_bytes (global_budget (budgets p)) =? 0)
  then (false, p)
  else
    match stream_mut p source stream with
    | Some h =>
        (true, put_stream p source stream (drop_frames (budgets p) (history_frames h))
                 (set_duration (history_clear h) duration))
    | None =>
        if stream_count p =? MAX_STREAMS then (false, p)
        else
          let h := mk_history duration (next_arc p) [] true false None Startup false [] in
          let bs := mk_budgets
            (<[next_arc p := budget_new (stream_bytes p) MAX_STREAM_FRAMES]>
               (stream_budgets (budgets p)))
            (global_budget (budgets p)) in
          (true, mk_buffers
                   (<[source := <[stream := h]> (unwrap_or (streams p !! source) ∅)]> (streams p))
                   (stream_count p + 1) (stream_bytes p) bs (next_arc p + 1)%N)
    end.

(** The GOP heads [make_global_room] scans, one per stream that has a GOP. *)
Definition gop_heads (s : gmap string (gmap string StreamHistory)) : list (Z * string * string) :=
  mjoin ((λ e : string * gmap string StreamHistory,
    omap (λ e' : string * StreamHistory,
      match h_gops (snd e') with
      | g :: _ => Some (g_start g, fst e, fst e')
      | [] => None
      end) (map_to_list (snd e))) <$> map_to_list s).

(** [Ord] on [(Instant, &str, &str)]. *)
Definition head_ltb (a b : Z * string * string) : bool :=
  let '(t1, s1, m1) := a in
  let '(t2, s2, m2) := b in
  (t1 <? t2) || ((t1 =? t2) && (str_ltb s1 s2 || (str_eqb s1 s2 && str_ltb m1 m2))).

Definition min_head (l : list (Z * string * string)) : option (Z * string * string) :=
  foldr (λ a acc, match acc with
                  | Some b => Some (if head_ltb b a then b else a)
                  | None => Some a
                  end) None l.

(** The [while !self.global_budget.fits(bytes)] loop.  Every turn evicts a GOP;
    [Panic] stands for a failed [expect] and for running out of [fuel], which
    [push_owned] sets to one more than the number of GOPs held. *)
Fixpoint make_global_room (fuel : nat) (p : PreRecordBuffers) (source stream : string)
    (f : RecordingFrame) : outcome (bool * PreRecordBuffers) :=
  let bytes := byte_len f in
  let keyframe := is_video_keyframe f in
  if budget_fits (global_budget (budgets p)) bytes then Ret (true, p)
  else
    match fuel with
    | O => Panic
    | S fuel' =>
        match min_head (gop_heads (streams p)) with
        | None => Ret (false, p)
        | Some oldest =>
            if keyframe && head_ltb (received_at f, source, stream) oldest then Ret (false, p)
            else
              let '(_, oldest_source, oldest_stream) := oldest in
              match stream_mut p oldest_source oldest_stream with
              | None => Panic
              | Some evicted =>
                  let '(_, bs, h) := evict_oldest (budgets p) (set_reason evicted GlobalPressure) in
                  let p := put_stream p oldest_source oldest_stream bs h in
                  if negb keyframe && is_some_and h_awaiting_keyframe (stream_mut p source stream)
                  then Ret (false, p)
                  else make_global_room fuel' p source stream f
              end
        end
    end.

Definition gop_count (p : PreRecordBuffers) : nat :=
  length (map_flat (map_flat h_gops) (streams p)).

Definition push_owned (p : PreRecordBuffers) (source stream : string) (f : RecordingFrame) (now : Z)
    : outcome (result RecordingFrame unit * PreRecordBuffers) :=
  let global_limit := b_max_bytes (global_budget (budgets p)) in
  match stream_mut p source stream with
  | None => Ret (Err f, p)
  | Some h =>
      let '(admitted, bs, h) := admit_frame (budgets p) h f now global_limit in
      let p := put_stream p source stream bs h in
      if negb admitted then Ret (Err f, p)
      else
        let bytes := byte_len f in
        let keyframe := is_video_keyframe f in
        let! r := make_global_room (S (gop_count p)) p source stream f in
        let '(room, p) := r in
        match stream_mut p source stream with
        | None => Panic
        | Some h =>
            if negb room then
              Ret (Err f, put_stream p source stream (budgets p) (set_reason h GlobalPressure))
            else if h_awaiting_keyframe h && negb keyframe then Ret (Err f, p)
            else
              match stream_budgets (budgets p) !! h_budget h with
              | None => Panic
              | Some b =>
                  let '(ok, b1) := budget_acquire b bytes in
                  if negb ok then Ret (Err f, p)
                  else
                    let '(gok, g1) := budget_acquire (global_budget (budgets p)) bytes in
                    if negb gok then
                      let bs := mk_budgets
                        (<[h_budget h := budget_release b1 bytes]> (stream_budgets (budgets p)))
                        (global_budget (budgets p)) in
                      let '(bs, h) := discard_open bs h in
                      Ret (Err f, put_stream p source stream bs h)
                    else
                      let bs := mk_budgets
                        (<[h_budget h := b1]> (stream_budgets (budgets p))) g1 in
                      let retained := mk_buffered f (mk_reservation bytes (h_budget h)) in
                      if keyframe then
                        let h :=
                          if bool_decide (h_reason h = MissingKeyframe)
                             || bool_decide (h_reason h = InvalidOrder)
                          then set_reason h Startup else h in
                        let h := set_awaiting
                          (set_gops h (h_gops h ++ [mk_gop (received_at f) [retained]])) false in
                        Ret (Ok tt, put_stream p source stream bs h)
                      else
                        match last (h_gops h) with
                        | Some g =>
                            let g := mk_gop (g_start g) (g_frames g ++ [retained]) in
                            let h := set_gops h (removelast (h_gops h) ++ [g]) in
                            Ret (Ok tt, put_stream p source stream bs h)
                        | None =>
                            Ret (Ok tt, put_stream p source stream (drop_frames bs [retained]) h)
                        end
              end
        end
  end.

Definition set_continuous (p : PreRecordBuffers) (source stream : string) (c : bool)
    : PreRecordBuffers :=
  match stream_mut p source stream with
  | Some h => put_stream p source stream (budgets p) (set_continuous_flag h c)
  | None => p
  end.

Definition map_frames (m : gmap string StreamHistory) : list BufferedFrame :=
  map_flat history_frames m.

Definition clear_source (p : PreRecordBuffers) (source : string) : PreRecordBuffers :=
  match streams p !! source with
  | Some inner =>
      mk_buffers (<[source := history_clear <$> inner]> (streams p)) (stream_count p)
        (stream_bytes p) (drop_frames (budgets p) (map_frames inner)) (next_arc p)
  | None => p
  end.

Definition clear_stream (p : PreRecordBuffers) (source stream : string) : PreRecordBuffers :=
  match stream_mut p source stream with
  | Some h =>
      put_stream p source stream (drop_frames (budgets p) (history_frames h)) (history_clear h)
  | None => p
  end.

Definition remove_source (p : PreRecordBuffers) (source : string) : outcome PreRecordBuffers :=
  match streams p !! source with
  | Some inner =>
      let! count := plain_sub (stream_count p) (Z.of_nat (size inner)) in
      Ret (mk_buffers (delete source (streams p)) count (stream_bytes p)
             (drop_frames (budgets p) (map_frames inner)) (next_arc p))
  | None => Ret p
  end.

Definition first_released (m : gmap string StreamHistory)
    : option (string * BufferedFrame * StreamHistory) :=
  head (omap (λ e : string * StreamHistory,
    match h_released (snd e) with
    | f :: rest => Some (fst e, f, set_released (snd e) rest)
    | [] => None
    end) (btree_iter m)).

Definition next_released (p : PreRecordBuffers)
    : option (string * string * BufferedFrame) * PreRecordBuffers :=
  match head (omap (λ e : string * gmap string StreamHistory,
      match first_released (snd e) with
      | Some (stream, f, h) => Some (fst e, stream, f, h)
      | None => None
      end) (btree_iter (streams p))) with
  | Some (source, stream, f, h) =>
      (Some (source, stream, f), put_stream p source stream (budgets p) h)
  | None => (None, p)
  end.

(** [expire] on the whole registry: [values_mut] in any order, each history on
    its own; the budgets are threaded through. *)
Definition expire_stream (p : PreRecordBuffers) (k : string * string) (now : Z)
    : PreRecordBuffers :=
  match stream_mut p (fst k) (snd k) with
  | Some h =>
      let '(bs, h) := history_expire (budgets p) h now in
      put_stream p (fst k) (snd k) bs h
  | None => p
  end.
Definition stream_keys (p : PreRecordBuffers) : list (string * string) :=
  mjoin ((λ e : string * gmap string StreamHistory,
    (λ e' : string * StreamHistory, (fst e, fst e')) <$> btree_iter (snd e))
      <$> btree_iter (streams p)).
Definition buffers_expire (p : PreRecordBuffers) (now : Z) : PreRecordBuffers :=
  foldl (λ p k, expire_stream p k now) p (stream_keys p).

(** The [retain] of [trim_audio_to_video]: kept frames, dropped frames. *)
Fixpoint trim_retain (audio_end wall_end : Z) (fs : list BufferedFrame)
    : list BufferedFrame * list BufferedFrame :=
  match fs with
  | [] => ([], [])
  | b :: fs' =>
      let keep end_ := let '(k, d) := trim_retain end_ wall_end fs' in (b :: k, d) in
      let discard := let '(k, d) := trim_retain audio_end wall_end fs' in (k, b :: d) in
      match frame (bf_frame b) with
      | Video _ => keep audio_end
      | Audio a =>
          let start := received_at (bf_frame b) in
          match instant_checked_add start (a_duration a) with
          | None => discard
          | Some end_ =>
              if (start <? audio_end) || (wall_end <? end_) || (a_duration a =? 0)
              then discard else keep end_
          end
      end
  end.

Definition buffered_is_video (b : BufferedFrame) : bool := is_video (frame (bf_frame b)).

Definition trim_audio_to_video (fs : list BufferedFrame)
    : list BufferedFrame * list BufferedFrame :=
  let video := List.filter buffered_is_video fs in
  match video with
  | [] => ([], fs)
  | first :: _ =>
      let newest := unwrap_or (last video) first in
      trim_retain (received_at (bf_frame first)) (received_at (bf_frame newest)) fs
  end.

Definition take_history (p : PreRecordBuffers) (source stream : string) (now : Z)
    : list BufferedFrame * PreRecordBuffers :=
  match stream_mut p source stream with
  | None => ([], p)
  | Some h =>
      let '(bs, h) := history_expire (budgets p) h now in
      let frames := gop_frames (h_gops h) in
      let h := set_gops (set_awaiting h true) [] in
      let h := match frames with [] => h | _ => set_reason h Startup end in
      let '(kept, dropped) := trim_audio_to_video frames in
      (kept, put_stream p source stream (drop_frames bs dropped) h)
  end.

Record HistorySnapshot := mk_snapshot {
  s_requested : Z;
  s_available : Z;
  s_retained_bytes : Z;
  s_pending_bytes : Z;
  s_reason : HistoryReason
}.

(** [Iterator::sum] on [usize]. *)
Definition usize_sum (l : list Z) : outcome Z :=
  foldl (λ acc z, let! a := acc in plain_add usize_max a z) (Ret 0) l.

Definition history_snapshot (p : PreRecordBuffers) (source stream : string) (now : Z)
    : outcome (option HistorySnapshot * PreRecordBuffers) :=
  match stream_mut p source stream with
  | None => Ret (None, p)
  | Some h =>
      let '(bs, h) := history_expire (budgets p) h now in
      let start := g_start <$> head (h_gops h) in
      let end_ :=
        last (h_gops h) ≫= λ g,
        (λ b, received_at (bf_frame b)) <$>
          head (List.filter buffered_is_video (rev (g_frames g))) in
      let! retained := usize_sum ((λ b, byte_len (bf_frame b)) <$> gop_frames (h_gops h)) in
      let reserved :=
        match stream_budgets bs !! h_budget h with Some b => b_bytes b | None => 0 end in
      let available :=
        match start, end_ with
        | Some s, Some e => saturating_duration_since e s
        | _, _ => 0
        end in
      let pending := saturating_sub reserved retained in
      let reason :=
        if h_duration h <=? available then Ready
        else if bool_decide (h_gops h = []) && (0 <? pending) then ReplayPending
        else h_reason h in
      Ret (Some (mk_snapshot (h_duration h) available retained pending reason),
           put_stream p source stream bs h)
  end.
