(* ===== verification/PreRecordInv.v ===== *)
(** * Pre-record buffers: accounting and structure

    The invariant of [PreRecord]: the atomic counters of every budget are exactly
    the sums over the reservations alive in the buffers and with replay owners,
    every history is a sequence of GOPs that start with their keyframe, in receive
    order.  Every operation preserves it, under any interleaving with replay
    owners dropping frames. *)

From S2P Require Import Prelude Frame PreRecord.

(** ** Reservations and the counters *)

Definition on_arc (a : Arc) (l : list Reservation) : list Reservation :=
  filter (λ r, r_stream_budget r = a) l.

Definition reservations (fs : list BufferedFrame) : list Reservation := bf_reservation <$> fs.

(** [acct sb gb bs l]: the counters in [bs] are those of the live reservations
    [l], within the limits [sb] per stream and [gb] overall. *)
Record acct (sb gb : Z) (bs : Budgets) (l : list Reservation) : Prop := {
  acct_global :
    global_budget bs = mk_budget (zsum r_bytes l) (vec_len l) gb MAX_GLOBAL_FRAMES;
  acct_stream a b :
    stream_budgets bs !! a = Some b →
    b = mk_budget (zsum r_bytes (on_arc a l)) (vec_len (on_arc a l)) sb MAX_STREAM_FRAMES
    ∧ zsum r_bytes (on_arc a l) ≤ sb ∧ vec_len (on_arc a l) ≤ MAX_STREAM_FRAMES;
  acct_global_bytes : zsum r_bytes l ≤ gb;
  acct_global_frames : vec_len l ≤ MAX_GLOBAL_FRAMES;
  acct_nonneg : Forall (λ r, 0 ≤ r_bytes r) l;
  acct_limits : sb ≤ usize_max ∧ gb ≤ usize_max
}.

Lemma on_arc_cons a r l :
  on_arc a (r :: l) = if bool_decide (r_stream_budget r = a) then r :: on_arc a l else on_arc a l.
Proof. unfold on_arc. rewrite filter_cons. by repeat case_decide; case_bool_decide. Qed.
Lemma on_arc_app a l k : on_arc a (l ++ k) = on_arc a l ++ on_arc a k.
Proof. apply filter_app. Qed.

Lemma zsum_r_bytes_nonneg l : Forall (λ r, 0 ≤ r_bytes r) l → 0 ≤ zsum r_bytes l.
Proof. induction 1; simpl; lia. Qed.
Lemma on_arc_nonneg a l :
  Forall (λ r, 0 ≤ r_bytes r) l → Forall (λ r, 0 ≤ r_bytes r) (on_arc a l).
Proof.
  rewrite !Forall_forall. intros Hl r [_ Hr]%list_elem_of_filter. by apply Hl.
Qed.
Lemma zsum_on_arc_le a l :
  Forall (λ r, 0 ≤ r_bytes r) l → zsum r_bytes (on_arc a l) ≤ zsum r_bytes l.
Proof.
  induction 1 as [|r l Hr _ IH]; [done|]. rewrite on_arc_cons.
  case_bool_decide; simpl; lia.
Qed.

Lemma vec_len_cons {A} (a : A) l : vec_len (a :: l) = vec_len l + 1.
Proof. unfold vec_len. simpl. lia. Qed.
Lemma vec_len_nonneg {A} (l : list A) : 0 ≤ vec_len l.
Proof. unfold vec_len. lia. Qed.
Lemma vec_len_perm {A} (l k : list A) : l ≡ₚ k → vec_len l = vec_len k.
Proof. intros Hp. unfold vec_len. by rewrite (Permutation_length Hp). Qed.

#[export] Instance acct_proper sb gb bs : Proper ((≡ₚ) ==> impl) (acct sb gb bs).
Proof.
  intros l k Hp [Hg Hs Hgb Hgf Hn Hl].
  assert (Hon : ∀ a, on_arc a l ≡ₚ on_arc a k) by (intros a; unfold on_arc; by rewrite Hp).
  split; try done.
  - by rewrite <-(zsum_perm r_bytes _ _ Hp), <-(vec_len_perm _ _ Hp).
  - intros a b Hab.
    rewrite <-(zsum_perm r_bytes _ _ (Hon a)), <-(vec_len_perm _ _ (Hon a)). by apply Hs.
  - by rewrite <-(zsum_perm r_bytes _ _ Hp).
  - by rewrite <-(vec_len_perm _ _ Hp).
  - by rewrite <-Hp.
Qed.

Lemma wrapping_sub_exact a b : 0 ≤ b ≤ a → a ≤ u64_max → wrapping_sub a b = a - b.
Proof. unfold wrapping_sub, u64_max. intros. apply Z.mod_small. lia. Qed.
Lemma wrapping_add_exact a b : 0 ≤ a → 0 ≤ b → a + b ≤ u64_max → wrapping_add a b = a + b.
Proof. unfold wrapping_add, u64_max. intros. apply Z.mod_small. lia. Qed.

(** Giving back the reservation [r] of a counter that counts [r :: l]. *)
Lemma release_exact r l mb mf :
  0 ≤ r_bytes r → Forall (λ r, 0 ≤ r_bytes r) l →
  r_bytes r + zsum r_bytes l ≤ u64_max → vec_len l + 1 ≤ u64_max →
  budget_release (mk_budget (r_bytes r + zsum r_bytes l) (vec_len l + 1) mb mf) (r_bytes r)
  = mk_budget (zsum r_bytes l) (vec_len l) mb mf.
Proof.
  intros Hr Hl Hb Hf. unfold budget_release. simpl.
  pose proof (zsum_r_bytes_nonneg l Hl). pose proof (vec_len_nonneg l).
  rewrite !wrapping_sub_exact by lia. f_equal; lia.
Qed.

Lemma acct_drop_reservation sb gb bs r l :
  acct sb gb bs (r :: l) → acct sb gb (drop_reservation bs r) l.
Proof.
  intros [Hg Hs Hgb Hgf Hn [Hlim1 Hlim2]].
  apply Forall_cons in Hn as [Hr Hn].
  pose proof (zsum_r_bytes_nonneg l Hn). pose proof (vec_len_nonneg l).
  rewrite vec_len_cons in *. rewrite zsum_cons in *.
  unfold drop_reservation. split; simpl; try done; try lia.
  - rewrite Hg. apply release_exact; try done; unfold usize_max, MAX_GLOBAL_FRAMES, u64_max in *; lia.
  - intros a b. rewrite lookup_alter. case_decide as Ha; [subst a|].
    + destruct (stream_budgets bs !! r_stream_budget r) as [b0|] eqn:Hb0; simpl; [|done]. intros [= <-].
      destruct (Hs _ b0 Hb0) as (-> & Hle & Hlf).
      rewrite on_arc_cons, bool_decide_true in Hle, Hlf |- * by done.
      rewrite zsum_cons in Hle. rewrite vec_len_cons in Hlf. rewrite zsum_cons, vec_len_cons.
      split; [|lia]. apply release_exact; auto using on_arc_nonneg;
        unfold usize_max, u64_max, MAX_STREAM_FRAMES in *; lia.
    + intros Hb. destruct (Hs a b Hb) as (-> & Hle & Hlf).
      by rewrite on_arc_cons, bool_decide_false in Hle, Hlf |- * by done.
Qed.

Lemma acct_drop_frames sb gb bs fs l :
  acct sb gb bs (reservations fs ++ l) → acct sb gb (drop_frames bs fs) l.
Proof.
  revert bs. induction fs as [|f fs IH]; intros bs Ha; [done|].
  apply IH. by apply acct_drop_reservation.
Qed.

Lemma budget_fits_spec b bytes :
  budget_fits b bytes = true →
  b_bytes b + bytes ≤ b_max_bytes b ∧ b_bytes b + bytes ≤ usize_max ∧ b_frames b < b_max_frames b.
Proof.
  unfold budget_fits, checked_add. intros [H1 H2]%andb_true_iff.
  destruct (_ <=? _) eqn:He; simpl in H1; reflect_bools; [lia|done].
Qed.

Lemma acct_acquire sb gb bs l a b bytes b1 g1 :
  acct sb gb bs l → 0 ≤ bytes → stream_budgets bs !! a = Some b →
  budget_acquire b bytes = (true, b1) →
  budget_acquire (global_budget bs) bytes = (true, g1) →
  acct sb gb (mk_budgets (<[a := b1]> (stream_budgets bs)) g1) (mk_reservation bytes a :: l).
Proof.
  intros [Hg Hs Hgb Hgf Hn [Hlim1 Hlim2]] Hb Ha Hacq Hgacq.
  destruct (Hs a b Ha) as (-> & Hle & Hlf). rewrite Hg in Hgacq.
  unfold budget_acquire in *.
  destruct (budget_fits _ bytes) eqn:Hf1 in Hacq; simpl in Hacq; [|done].
  destruct (budget_fits _ bytes) eqn:Hf2 in Hgacq; simpl in Hgacq; [|done].
  injection Hacq as <-. injection Hgacq as <-.
  apply budget_fits_spec in Hf1. apply budget_fits_spec in Hf2. simpl in *.
  pose proof (zsum_r_bytes_nonneg l Hn). pose proof (vec_len_nonneg l).
  pose proof (zsum_r_bytes_nonneg _ (on_arc_nonneg a l Hn)).
  pose proof (vec_len_nonneg (on_arc a l)).
  unfold usize_max, u64_max, MAX_GLOBAL_FRAMES, MAX_STREAM_FRAMES in *.
  rewrite !wrapping_add_exact by (unfold u64_max; lia).
  split; simpl; try done; rewrite ?vec_len_cons; try lia.
  - f_equal; lia.
  - intros c d. rewrite lookup_insert. case_decide as Hc.
    + intros [= <-]. subst c.
      rewrite on_arc_cons, bool_decide_true, zsum_cons, vec_len_cons by done. simpl.
      split; [f_equal; lia|unfold MAX_STREAM_FRAMES; lia].
    + intros Hd. destruct (Hs c d Hd) as (-> & ? & ?).
      by rewrite on_arc_cons, bool_decide_false by done.
  - unfold MAX_GLOBAL_FRAMES. lia.
  - by constructor.
Qed.

(** A failed global acquisition gives back the stream reservation exactly. *)
Lemma release_after_acquire sb gb bs l a b bytes b1 :
  acct sb gb bs l → 0 ≤ bytes → stream_budgets bs !! a = Some b →
  budget_acquire b bytes = (true, b1) → budget_release b1 bytes = b.
Proof.
  intros [Hg Hs Hgb Hgf Hn [Hlim1 Hlim2]] Hb Ha Hacq.
  destruct (Hs a b Ha) as (-> & Hle & Hlf). unfold budget_acquire in Hacq.
  destruct (budget_fits _ bytes) eqn:Hf; simpl in Hacq; [|done]. injection Hacq as <-.
  apply budget_fits_spec in Hf. simpl in *.
  pose proof (zsum_r_bytes_nonneg _ (on_arc_nonneg a l Hn)).
  pose proof (vec_len_nonneg (on_arc a l)).
  unfold usize_max, u64_max, MAX_STREAM_FRAMES in *.
  unfold budget_release. simpl. rewrite !wrapping_add_exact by (unfold u64_max; lia).
  rewrite !wrapping_sub_exact by (unfold u64_max; lia). f_equal; lia.
Qed.

(** ** Histories *)

Definition frame_time (b : BufferedFrame) : Z := received_at (bf_frame b).
Definition time_le (a b : BufferedFrame) : Prop := frame_time a ≤ frame_time b.

(** A GOP starts with its keyframe, received at [g_start], and has no other. *)
Definition gop_ok (g : Gop) : Prop :=
  ∃ k rest, g_frames g = k :: rest ∧ is_video_keyframe (bf_frame k) = true
    ∧ frame_time k = g_start g
    ∧ Forall (λ b, is_video_keyframe (bf_frame b) = false) rest.

Record hist_ok (h : StreamHistory) : Prop := {
  ok_gops : Forall gop_ok (h_gops h);
  ok_sorted : StronglySorted time_le (gop_frames (h_gops h));
  ok_last : match h_last_received_at h with
            | None => h_gops h = []
            | Some t => Forall (λ b, frame_time b ≤ t) (gop_frames (h_gops h))
            end;
  ok_open : h_awaiting_keyframe h = false → h_gops h ≠ [];
  ok_frames : Forall (λ b, bf_reservation b = mk_reservation (byte_len (bf_frame b)) (h_budget h))
                (history_frames h)
}.

(** What an eviction may do: move whole GOPs to [h_released] or drop their frames
    [d] with their reservations; nothing else changes but flags and reason. *)
Record shrinks (bs : Budgets) (h : StreamHistory) (bs' : Budgets) (h' : StreamHistory)
    (d : list BufferedFrame) : Prop := {
  sh_budgets : bs' = drop_frames bs d;
  sh_frames : history_frames h ≡ₚ d ++ history_frames h';
  sh_gops : h_gops h' `sublist_of` h_gops h;
  sh_budget : h_budget h' = h_budget h;
  sh_duration : h_duration h' = h_duration h;
  sh_last : h_last_received_at h' = h_last_received_at h;
  sh_continuous : h_continuous h' = h_continuous h;
  sh_open : h_awaiting_keyframe h' = false →
            h_awaiting_keyframe h = false ∧ (h_gops h' = [] → h_gops h = [])
}.

Lemma drop_frames_app bs d1 d2 :
  drop_frames bs (d1 ++ d2) = drop_frames (drop_frames bs d1) d2.
Proof. unfold drop_frames. by rewrite foldl_app. Qed.

Lemma shrinks_refl bs h : shrinks bs h bs h [].
Proof. by split. Qed.

Lemma shrinks_trans bs1 h1 bs2 h2 bs3 h3 d1 d2 :
  shrinks bs1 h1 bs2 h2 d1 → shrinks bs2 h2 bs3 h3 d2 → shrinks bs1 h1 bs3 h3 (d1 ++ d2).
Proof.
  intros [-> Hf1 Hg1 Hb1 Hd1 Hl1 Hc1 Ho1] [-> Hf2 Hg2 Hb2 Hd2 Hl2 Hc2 Ho2].
  split; try congruence.
  - by rewrite drop_frames_app.
  - rewrite Hf1, Hf2. by rewrite app_assoc.
  - by etrans.
  - naive_solver.
Qed.

(** Changing the reason is invisible to all of the above. *)
Lemma shrinks_set_reason bs h r : shrinks bs h bs (set_reason h r) [].
Proof. by split. Qed.

Lemma gop_frames_cons g gs : gop_frames (g :: gs) = g_frames g ++ gop_frames gs.
Proof. done. Qed.
Lemma gop_frames_app gs1 gs2 : gop_frames (gs1 ++ gs2) = gop_frames gs1 ++ gop_frames gs2.
Proof. unfold gop_frames. by rewrite fmap_app, join_app. Qed.
Lemma gop_frames_sublist gs1 gs2 :
  gs1 `sublist_of` gs2 → gop_frames gs1 `sublist_of` gop_frames gs2.
Proof.
  induction 1 as [|g gs1 gs2 _ IH|g gs1 gs2 _ IH]; [done| |]; rewrite !gop_frames_cons.
  - by apply sublist_app.
  - by apply sublist_inserts_l.
Qed.

Lemma shrinks_hist_ok bs h bs' h' d : shrinks bs h bs' h' d → hist_ok h → hist_ok h'.
Proof.
  intros [_ Hf Hg Hb _ Hl _ Ho] [Hok Hs Hlast Hopen Hfr].
  pose proof (gop_frames_sublist _ _ Hg) as Hsub.
  split.
  - by eapply Forall_sublist.
  - by eapply StronglySorted_sublist.
  - rewrite Hl. destruct (h_last_received_at h).
    + by eapply Forall_sublist.
    + rewrite Hlast in Hg. by apply sublist_nil_r in Hg.
  - intros Ha. destruct (Ho Ha) as [Ha' Hnil]. intros Hn. by apply (Hopen Ha'), Hnil.
  - rewrite Hf, Forall_app in Hfr. rewrite Hb. tauto.
Qed.

Lemma evict_oldest_spec bs h present bs' h' :
  evict_oldest bs h = (present, bs', h') →
  (∃ d, shrinks bs h bs' h' d) ∧ h_gops h' = tail (h_gops h)
  ∧ present = bool_decide (h_gops h ≠ []) ∧ (h_gops h' = [] → h_awaiting_keyframe h' = true).
Proof.
  unfold evict_oldest. destruct h as [du bu gs aw di la re co rl].
  destruct gs as [|g gs]; simpl.
  { intros [= <- <- <-]. split; [|done]. by exists []. }
  destruct co; simpl.
  - intros [= <- <- <-]. split.
    + exists []. split; try (by destruct gs); unfold history_frames; simpl.
      * assert (Hp : g_frames g ++ gop_frames gs ++ rl ≡ₚ gop_frames gs ++ rl ++ g_frames g)
          by apply Permutation_app_rot.
        rewrite gop_frames_cons, <-app_assoc. by destruct gs.
      * destruct gs; by apply sublist_cons.
    + by destruct gs.
  - intros [= <- <- <-]. split.
    + exists (g_frames g). split; try (by destruct gs); unfold history_frames; simpl.
      * rewrite gop_frames_cons, <-app_assoc. by destruct gs.
      * destruct gs; by apply sublist_cons.
    + by destruct gs.
Qed.

Lemma history_expire_spec bs h now bs' h' :
  history_expire bs h now = (bs', h') →
  (∃ d, shrinks bs h bs' h' d)
  ∧ (∀ g, head (h_gops h') = Some g → saturating_duration_since now (g_start g) ≤ h_duration h').
Proof.
  unfold history_expire. remember (h_gops h) as pending eqn:Hp.
  revert bs h Hp. induction pending as [|g pending IH]; intros bs h Hp; simpl.
  { intros [= <- <-]. split; [by exists []; apply shrinks_refl|]. by rewrite <-Hp. }
  destruct (_ <? _) eqn:Hold; reflect_bools.
  - destruct (evict_oldest _ _) as [[present bs1] h1] eqn:He.
    apply evict_oldest_spec in He as ((d1 & Hs1) & Hg1 & _ & _). simpl in Hg1.
    rewrite <-Hp in Hg1. simpl in Hg1. intros Hr.
    destruct (IH bs1 h1 (eq_sym Hg1) Hr) as ((d2 & Hs2) & Hhd). split; [|done].
    exists ([] ++ d1 ++ d2).
    eapply shrinks_trans; [apply shrinks_set_reason|]. by eapply shrinks_trans.
  - intros [= <- <-]. split; [by exists []; apply shrinks_refl|].
    rewrite <-Hp. intros ? [= <-]. done.
Qed.

Lemma evict_all_spec bs h bs' h' :
  evict_all (h_gops h) bs h = (bs', h') →
  (∃ d, shrinks bs h bs' h' d) ∧ h_gops h' = [] ∧ h_awaiting_keyframe h' = true.
Proof.
  remember (h_gops h) as pending eqn:Hp.
  revert bs h Hp. induction pending as [|g pending IH]; intros bs h Hp; simpl;
    destruct (evict_oldest bs h) as [[present bs1] h1] eqn:He;
    apply evict_oldest_spec in He as ((d1 & Hs1) & Hg1 & Hpr & Haw);
    rewrite <-Hp in Hg1, Hpr; simpl in *.
  - intros [= <- <-]. eauto.
  - subst present. intros Hr.
    destruct (IH bs1 h1 (eq_sym Hg1) Hr) as ((d2 & Hs2) & ? & ?). split; [|done].
    exists (d1 ++ d2). by eapply shrinks_trans.
Qed.

(** The loop equation of [evict_all]: the list argument is only a bound. *)
Lemma removelast_snoc_last {A} (l : list A) x : last l = Some x → l = removelast l ++ [x].
Proof.
  intros Hl. destruct l as [|y l _] using rev_ind; [done|].
  rewrite last_snoc in Hl. injection Hl as ->. by rewrite removelast_last.
Qed.

Lemma discard_open_spec bs h bs' h' :
  discard_open bs h = (bs', h') →
  (∃ d, shrinks bs h bs' h' d) ∧ h_awaiting_keyframe h' = true ∧ h_discontinuous h' = true.
Proof.
  unfold discard_open. destruct (h_continuous h) eqn:Hc.
  - destruct (evict_all _ bs h) as [bs1 h1] eqn:He.
    apply evict_all_spec in He as ((d & [H1 H2 H3 H4 H5 H6 H7 H8]) & _ & _).
    intros [= <- <-]. split; [|done]. exists d. by split.
  - destruct (h_awaiting_keyframe h) eqn:Ha; simpl.
    + intros [= <- <-]. split; [|done]. exists []. by split.
    + destruct (last (h_gops h)) as [g|] eqn:Hl; simpl; intros [= <- <-]; (split; [|done]).
      * exists (g_frames g). apply removelast_snoc_last in Hl. split; try done; simpl.
        -- unfold history_frames. simpl. rewrite Hl at 1. rewrite gop_frames_app.
           rewrite gop_frames_cons, app_nil_r, <-app_assoc. apply Permutation_app_swap_app.
        -- rewrite Hl at 2. by apply sublist_inserts_r.
      * exists []. by split.
Qed.

Lemma fit_loop_spec bs h bytes ok bs' h' :
  fit_loop (h_gops h) bs h bytes = (ok, bs', h') →
  (∃ d, shrinks bs h bs' h' d) ∧ (ok = true → history_fits bs' h' bytes = true).
Proof.
  remember (h_gops h) as pending eqn:Hp.
  revert bs h Hp. induction pending as [|g pending IH]; intros bs h Hp; simpl;
    (destruct (history_fits bs h bytes) eqn:Hf;
       [intros [= <- <- <-]; split; [by exists []; apply shrinks_refl|done]|]);
    destruct (evict_oldest _ _) as [[present bs1] h1] eqn:He;
    apply evict_oldest_spec in He as ((d1 & Hs1) & Hg1 & Hpr & Haw); simpl in *;
    rewrite <-Hp in Hg1, Hpr; simpl in *.
  - subst present.
    intros [= <- <- <-]. split; [|done]. exists ([] ++ d1).
    eapply shrinks_trans; [apply shrinks_set_reason|done].
  - subst present. intros Hr.
    destruct (IH bs1 h1 (eq_sym Hg1) Hr) as ((d2 & Hs2) & Hfit). split; [|done].
    exists ([] ++ d1 ++ d2). eapply shrinks_trans; [apply shrinks_set_reason|].
    by eapply shrinks_trans.
Qed.

(** The part of [shrinks] that survives the other field updates. *)
Record evicts (bs : Budgets) (h : StreamHistory) (bs' : Budgets) (h' : StreamHistory) : Prop := {
  ev_budget : h_budget h' = h_budget h;
  ev_frames : ∃ d, bs' = drop_frames bs d ∧ history_frames h ≡ₚ d ++ history_frames h'
}.

Lemma shrinks_evicts bs h bs' h' d : shrinks bs h bs' h' d → evicts bs h bs' h'.
Proof. intros [? ? ? ? ? ? ? ?]. split; eauto. Qed.
Lemma evicts_refl bs h : evicts bs h bs h.
Proof. split; [done|]. by exists []. Qed.
Lemma evicts_trans bs1 h1 bs2 h2 bs3 h3 :
  evicts bs1 h1 bs2 h2 → evicts bs2 h2 bs3 h3 → evicts bs1 h1 bs3 h3.
Proof.
  intros [? (d1 & -> & Hp1)] [? (d2 & -> & Hp2)]. split; [congruence|].
  exists (d1 ++ d2). split; [by rewrite drop_frames_app|].
  rewrite Hp1, Hp2. by rewrite app_assoc.
Qed.

Lemma hist_ok_set_last h t :
  hist_ok h → is_some_and (λ newest, t <? newest) (h_last_received_at h) = false →
  hist_ok (set_last h (Some t)).
Proof.
  intros [Hok Hs Hl Ho Hf] Ht. split; simpl; try done.
  destruct (h_last_received_at h) as [t0|]; simpl in *; reflect_bools.
  - eapply Forall_impl; [exact Hl|]. simpl. lia.
  - rewrite Hl. constructor.
Qed.
Lemma hist_ok_awaiting h : hist_ok h → hist_ok (set_awaiting h true).
Proof. intros [Hok Hs Hl Ho Hf]. by split. Qed.
Lemma hist_ok_cleared h :
  hist_ok h → h_awaiting_keyframe h = true → hist_ok (set_discontinuous (set_gops h []) false).
Proof.
  intros [Hok Hs Hl Ho Hf] Ha. split; simpl; try done; try constructor.
  - destruct (h_last_received_at h); [constructor|done].
  - congruence.
  - unfold history_frames in *. simpl. apply Forall_app in Hf. tauto.
Qed.

Lemma discard_after_reason bs h r bs' h' :
  hist_ok h → discard_open bs (set_reason h r) = (bs', h') →
  hist_ok h' ∧ evicts bs h bs' h'.
Proof.
  intros Hok Hd. apply discard_open_spec in Hd as ((d & Hs) & _ & _). split.
  - eapply shrinks_hist_ok; [exact Hs|]. by destruct Hok.
  - apply shrinks_evicts in Hs as []. by split.
Qed.

(** What [admit_frame] guarantees: it only evicts, except that a frame which
    passes the order check becomes the newest one. *)
Lemma admit_frame_spec bs h f now gl ok bs' h' :
  hist_ok h → admit_frame bs h f now gl = (ok, bs', h') →
  hist_ok h' ∧ evicts bs h bs' h'
  ∧ (ok = true → h_last_received_at h' = Some (received_at f)
       ∧ (h_awaiting_keyframe h' = false ∨ is_video_keyframe f = true)).
Proof.
  unfold admit_frame. intros Hok.
  destruct (history_expire bs h now) as [bs1 h1] eqn:He.
  apply history_expire_spec in He as ((d1 & Hs1) & _).
  pose proof (shrinks_hist_ok _ _ _ _ _ Hs1 Hok) as Hok1.
  apply shrinks_evicts in Hs1 as Hev1.
  destruct (_ || _ || _) eqn:Hg.
  { destruct (discard_open _ _) as [bs2 h2] eqn:Hd. intros [= <- <- <-].
    destruct (discard_after_reason _ _ _ _ _ Hok1 Hd). split_and!; [done|by eapply evicts_trans|done]. }
  reflect_bools.
  pose proof (hist_ok_set_last h1 (received_at f) Hok1 ltac:(assumption)) as Hok2.
  set (h2 := set_last h1 (Some (received_at f))) in *.
  assert (Hev2 : evicts bs h bs1 h2) by (destruct Hev1; by split).
  destruct (h_awaiting_keyframe h2 && negb (is_video_keyframe f)) eqn:Hw.
  { intros [= <- <- <-]. split_and!; [| |done].
    - case_bool_decide; [by destruct Hok2|done].
    - destruct Hev2. by case_bool_decide; split. }
  set (h3 := if is_video_keyframe f then set_awaiting h2 true else h2).
  assert (Hok3 : hist_ok h3) by (subst h3; destruct (is_video_keyframe f); auto using hist_ok_awaiting).
  assert (Hev3 : evicts bs h bs1 h3) by (subst h3; destruct (is_video_keyframe f), Hev2; by split).
  assert (Hlast3 : h_last_received_at h3 = Some (received_at f))
    by (subst h3; by destruct (is_video_keyframe f)).
  assert (Hkf3 : is_video_keyframe f = true → h_awaiting_keyframe h3 = true)
    by (subst h3; intros Hk; by rewrite Hk).
  clearbody h3. destruct (_ || _).
  { destruct (discard_open _ _) as [bs4 h4] eqn:Hd. intros [= <- <- <-].
    destruct (discard_after_reason _ _ _ _ _ Hok3 Hd). split_and!; [done|by eapply evicts_trans|done]. }
  destruct (if is_video_keyframe f && h_discontinuous h3 then _ else _) as [bs5 h5] eqn:Hclr.
  assert (H5 : hist_ok h5 ∧ evicts bs1 h3 bs5 h5
               ∧ h_last_received_at h5 = Some (received_at f)).
  { destruct (is_video_keyframe f) eqn:Hk, (h_discontinuous h3); simpl in Hclr; simplify_eq;
      auto using evicts_refl.
    split_and!; [by apply hist_ok_cleared, Hkf3| |done].
    split; [done|]. by exists (gop_frames (h_gops h3)). }
  destruct H5 as (Hok5 & Hev5 & Hlast5). clear Hclr.
  destruct (fit_loop _ bs5 h5 (byte_len f)) as [[fits bs6] h6] eqn:Hfit.
  apply fit_loop_spec in Hfit as ((d6 & Hs6) & _).
  pose proof (shrinks_hist_ok _ _ _ _ _ Hs6 Hok5) as Hok6.
  assert (Hlast6 : h_last_received_at h6 = Some (received_at f)) by (destruct Hs6; congruence).
  assert (Hev6 : evicts bs h bs6 h6).
  { eapply evicts_trans; [exact Hev3|]. eapply evicts_trans; [exact Hev5|].
    by apply shrinks_evicts in Hs6. }
  destruct fits; simpl; [|by intros [= <- <- <-]].
  destruct (h_awaiting_keyframe h6 && negb (is_video_keyframe f)) eqn:Hw6;
    intros [= <- <- <-]; split_and!; try done.
  intros _. split; [done|].
  destruct (h_awaiting_keyframe h6), (is_video_keyframe f); naive_solver.
Qed.

(** ** The registry *)

Definition live (p : PreRecordBuffers) : list BufferedFrame := map_flat map_frames (streams p).

Definition total_streams (s : gmap string (gmap string StreamHistory)) : Z :=
  vec_len (map_flat map_to_list s).

(** A reservation is for the payload it guards, on an allocation made so far. *)
Definition res_ok (n : Arc) (b : BufferedFrame) : Prop :=
  (r_stream_budget (bf_reservation b) < n)%N
  ∧ r_bytes (bf_reservation b) = byte_len (bf_frame b).

Record buffers_inv (sb gb : Z) (p : PreRecordBuffers) (outs : list BufferedFrame) : Prop := {
  inv_acct : acct sb gb (budgets p) (reservations (live p ++ outs));
  inv_hist s m h : stream_mut p s m = Some h →
    hist_ok h ∧ is_Some (stream_budgets (budgets p) !! h_budget h);
  inv_arcs a : is_Some (stream_budgets (budgets p) !! a) → (a < next_arc p)%N;
  inv_res : Forall (res_ok (next_arc p)) (live p ++ outs);
  inv_count : stream_count p = total_streams (streams p) ∧ stream_count p ≤ MAX_STREAMS;
  inv_bytes : stream_bytes p = sb
}.

Lemma reservations_app l k : reservations (l ++ k) = reservations l ++ reservations k.
Proof. apply fmap_app. Qed.
#[export] Instance reservations_proper : Proper ((≡ₚ) ==> (≡ₚ)) reservations.
Proof. intros l k Hp. by apply fmap_Permutation. Qed.

Lemma drop_frames_is_Some bs d a :
  is_Some (stream_budgets (drop_frames bs d) !! a) ↔ is_Some (stream_budgets bs !! a).
Proof.
  revert bs. induction d as [|f d IH]; intros bs; [done|]. simpl. rewrite IH. simpl.
  rewrite lookup_alter. case_decide; [|done]. by rewrite fmap_is_Some; subst.
Qed.

Lemma stream_mut_put_eq p s m bs h :
  is_Some (stream_mut p s m) → stream_mut (put_stream p s m bs h) s m = Some h.
Proof.
  unfold stream_mut, put_stream. simpl. rewrite lookup_alter_eq.
  destruct (streams p !! s); simpl; [|by intros []]. intros _. by rewrite lookup_insert_eq.
Qed.
Lemma stream_mut_put_ne p s m bs h s' m' :
  (s, m) ≠ (s', m') → stream_mut (put_stream p s m bs h) s' m' = stream_mut p s' m'.
Proof.
  unfold stream_mut, put_stream. simpl. intros Hne. rewrite lookup_alter. case_decide; [|done].
  subst s'. destruct (streams p !! s); simpl; [|done].
  rewrite lookup_insert_ne; [done|]. congruence.
Qed.

Lemma alter_as_insert {V} (f : V → V) (m : gmap string V) k v :
  m !! k = Some v → alter f k m = <[k := f v]> m.
Proof.
  intros Hk. apply map_eq. intros i. rewrite lookup_alter, lookup_insert.
  case_decide; subst; [by rewrite Hk|done].
Qed.

Lemma live_put p s m bs h h' :
  stream_mut p s m = Some h →
  history_frames h ++ live (put_stream p s m bs h') ≡ₚ history_frames h' ++ live p.
Proof.
  unfold stream_mut, live, put_stream. simpl. intros Hm.
  destruct (streams p !! s) as [inner|] eqn:Hs; simpl in Hm; [|done].
  rewrite (alter_as_insert _ _ _ _ Hs).
  pose proof (map_flat_insert_Some map_frames (streams p) s inner (<[m:=h']> inner) Hs) as Houter.
  pose proof (map_flat_insert_Some history_frames inner m h h' Hm) as Hinner.
  fold (map_frames (<[m:=h']> inner)) in Hinner. fold (map_frames inner) in Hinner.
  apply (Permutation_app_inv_l (map_frames inner)).
  rewrite (Permutation_app_swap_app (map_frames inner) (history_frames h)), Houter.
  rewrite app_assoc, Hinner, <-app_assoc.
  apply Permutation_app_swap_app.
Qed.

Lemma total_streams_put p s m bs h h' :
  stream_mut p s m = Some h → total_streams (streams (put_stream p s m bs h')) = total_streams (streams p).
Proof.
  unfold stream_mut, put_stream, total_streams. simpl. intros Hm.
  destruct (streams p !! s) as [inner|] eqn:Hs; simpl in Hm; [|done].
  rewrite (alter_as_insert _ _ _ _ Hs).
  pose proof (map_flat_insert_Some map_to_list (streams p) s inner (<[m:=h']> inner) Hs) as Houter.
  apply Permutation_length in Houter. rewrite !length_app, !length_map_to_list in Houter.
  rewrite (map_size_insert_Some _ _ _ (mk_is_Some _ _ Hm)) in Houter. unfold vec_len. lia.
Qed.

(** Any operation that evicts from one history and puts it back. *)
Lemma put_evicts_live p s m h bs' h' :
  stream_mut p s m = Some h → evicts (budgets p) h bs' h' →
  ∃ d, bs' = drop_frames (budgets p) d ∧ live p ≡ₚ d ++ live (put_stream p s m bs' h').
Proof.
  intros Hm [_ (d & -> & Hp)]. exists d. split; [done|].
  pose proof (live_put p s m (drop_frames (budgets p) d) h h' Hm) as Hl.
  rewrite Hp, <-app_assoc, (Permutation_app_swap_app d) in Hl.
  by apply Permutation_app_inv_l in Hl.
Qed.

(** Dropping the frames [d] and handing others to their new owner. *)
Lemma inv_shrink sb gb p outs p' outs' d :
  buffers_inv sb gb p outs →
  budgets p' = drop_frames (budgets p) d →
  live p ++ outs ≡ₚ d ++ live p' ++ outs' →
  next_arc p' = next_arc p → stream_bytes p' = stream_bytes p →
  stream_count p' = total_streams (streams p') → stream_count p' ≤ MAX_STREAMS →
  (∀ s m h', stream_mut p' s m = Some h' →
     hist_ok h' ∧ ∃ s0 m0 h, stream_mut p s0 m0 = Some h ∧ h_budget h' = h_budget h) →
  buffers_inv sb gb p' outs'.
Proof.
  intros [Ha Hh Har Hf _ Hb] Hbud Hl Harc Hsb Hc1 Hc2 Hst. split; try done; try congruence.
  - rewrite Hbud. apply acct_drop_frames. by rewrite <-reservations_app, <-Hl.
  - intros s m h' Hm. rewrite Hbud, drop_frames_is_Some.
    destruct (Hst s m h' Hm) as (Hok & s0 & m0 & h & Hm0 & ->). split; [done|]. by apply (Hh s0 m0).
  - intros a. rewrite Hbud, drop_frames_is_Some, Harc. apply Har.
  - rewrite Harc. rewrite Hl in Hf. apply Forall_app in Hf. tauto.
Qed.

(** The histories of [put_stream]. *)
Lemma put_stream_hist sb gb p outs s m h bs' h' :
  buffers_inv sb gb p outs → stream_mut p s m = Some h → hist_ok h' → h_budget h' = h_budget h →
  ∀ s1 m1 h1, stream_mut (put_stream p s m bs' h') s1 m1 = Some h1 →
    hist_ok h1 ∧ ∃ s0 m0 h0, stream_mut p s0 m0 = Some h0 ∧ h_budget h1 = h_budget h0.
Proof.
  intros Hinv Hm Hok Hbud s1 m1 h1 H1.
  destruct (decide ((s, m) = (s1, m1))) as [[= <- <-]|Hne].
  - rewrite stream_mut_put_eq in H1 by eauto. simplify_eq. eauto 10.
  - rewrite stream_mut_put_ne in H1 by done.
    destruct (inv_hist _ _ _ _ Hinv s1 m1 h1 H1). eauto 10.
Qed.

Lemma inv_put_drop sb gb p outs outs' s m h h' d :
  buffers_inv sb gb p outs → stream_mut p s m = Some h →
  h_budget h' = h_budget h → hist_ok h' →
  history_frames h ++ outs ≡ₚ d ++ history_frames h' ++ outs' →
  buffers_inv sb gb (put_stream p s m (drop_frames (budgets p) d) h') outs'.
Proof.
  intros Hinv Hm Hbud Hok Hp. destruct (inv_count _ _ _ _ Hinv) as [Hc1 Hc2].
  set (bs' := drop_frames (budgets p) d).
  eapply (inv_shrink sb gb p outs _ outs' d); try done.
  - pose proof (live_put p s m bs' h h' Hm) as Hl.
    apply (Permutation_app_inv_l (history_frames h')).
    rewrite app_assoc, <-Hl, <-app_assoc, (Permutation_app_comm (live _)), app_assoc, Hp.
    rewrite <-!app_assoc, (Permutation_app_swap_app d). do 2 apply Permutation_app_head.
    apply Permutation_app_comm.
  - rewrite (total_streams_put p s m bs' h h' Hm). done.
  - by eapply put_stream_hist.
Qed.

Lemma inv_put_evicts sb gb p outs s m h bs' h' :
  buffers_inv sb gb p outs → stream_mut p s m = Some h →
  evicts (budgets p) h bs' h' → hist_ok h' →
  buffers_inv sb gb (put_stream p s m bs' h') outs.
Proof.
  intros Hinv Hm [Hbud (d & -> & Hp)] Hok. eapply inv_put_drop; try done.
  rewrite Hp. by rewrite app_assoc.
Qed.

(** ** [make_global_room] *)

Lemma min_head_elem l x : min_head l = Some x → x ∈ l.
Proof.
  revert x. induction l as [|a l IH]; intros x; simpl; [done|].
  destruct (min_head l) as [b|] eqn:Hb; intros Hx; simplify_eq; [|by left].
  destruct (head_ltb b a); [right; by apply IH|by left].
Qed.

Lemma gop_heads_elem s t source stream :
  (t, source, stream) ∈ gop_heads s →
  ∃ inner h g gs, s !! source = Some inner ∧ inner !! stream = Some h
    ∧ h_gops h = g :: gs ∧ t = g_start g.
Proof.
  unfold gop_heads. rewrite list_elem_of_join. intros (l & Hin & Hl).
  apply list_elem_of_fmap in Hl as ([s0 inner] & -> & Hs).
  apply list_elem_of_omap in Hin as ([m0 h] & Hm & Hg). simpl in *.
  destruct (h_gops h) as [|g gs] eqn:Hgops; simplify_eq.
  apply elem_of_map_to_list in Hs, Hm. eauto 10.
Qed.

Lemma map_flat_length_insert {K V B} `{Countable K} (f : V → list B) (m : gmap K V) k v v' :
  m !! k = Some v →
  (length (f v) + length (map_flat f (<[k:=v']> m)) = length (f v') + length (map_flat f m))%nat.
Proof.
  intros Hk. pose proof (map_flat_insert_Some f m k v v' Hk) as Hp.
  apply Permutation_length in Hp. by rewrite !length_app in Hp.
Qed.

Lemma gop_count_put p s m bs h h' :
  stream_mut p s m = Some h →
  (length (h_gops h) + gop_count (put_stream p s m bs h') = length (h_gops h') + gop_count p)%nat.
Proof.
  unfold stream_mut, gop_count, put_stream. simpl. intros Hm.
  destruct (streams p !! s) as [inner|] eqn:Hs; simpl in Hm; [|done].
  rewrite (alter_as_insert _ _ _ _ Hs).
  pose proof (map_flat_length_insert (map_flat h_gops) (streams p) s inner (<[m:=h']> inner) Hs).
  pose proof (map_flat_length_insert h_gops inner m h h' Hm). lia.
Qed.

Definition same_keys (p p' : PreRecordBuffers) : Prop :=
  ∀ s m, is_Some (stream_mut p s m) ↔ is_Some (stream_mut p' s m).

Lemma put_same_keys p s m bs h h' :
  stream_mut p s m = Some h → same_keys p (put_stream p s m bs h').
Proof.
  intros Hm s' m'. destruct (decide ((s, m) = (s', m'))) as [[= <- <-]|Hne].
  - rewrite stream_mut_put_eq by eauto. split; eauto.
  - by rewrite stream_mut_put_ne.
Qed.

(** The loop returns within its fuel, keeps the invariant, and keeps what is known
    of the stream being pushed to: the budget and the newest frame. *)
Lemma make_global_room_spec sb gb fuel p outs s m f h :
  buffers_inv sb gb p outs → (gop_count p < fuel)%nat → stream_mut p s m = Some h →
  ∃ room p' h', make_global_room fuel p s m f = Ret (room, p') ∧ buffers_inv sb gb p' outs
    ∧ stream_mut p' s m = Some h' ∧ h_last_received_at h' = h_last_received_at h
    ∧ (room = true → is_video_keyframe f = false →
       h_awaiting_keyframe h = false → h_awaiting_keyframe h' = false)
    ∧ (live p' ⊆+ live p) ∧ same_keys p p'.
Proof.
  revert p h. induction fuel as [|fuel IH]; intros p h Hinv Hfuel Hm; [lia|]. simpl.
  destruct (budget_fits _ _).
  { eexists _, _, _. by split_and!. }
  destruct (min_head _) as [[[t s0] m0]|] eqn:Hmin.
  2:{ eexists _, _, _. by split_and!. }
  destruct (is_video_keyframe f && _) eqn:Hk.
  { eexists _, _, _. by split_and!. }
  apply min_head_elem, gop_heads_elem in Hmin as (inner & h0 & g & gs & Hs0 & Hm0 & Hgops & ->).
  assert (Hsm : stream_mut p s0 m0 = Some h0) by (unfold stream_mut; by rewrite Hs0).
  rewrite Hsm. destruct (evict_oldest _ _) as [[present bs1] h1] eqn:He.
  apply evict_oldest_spec in He as ((d & Hsh) & Hg1 & _ & Haw).
  assert (Hok0 : hist_ok (set_reason h0 GlobalPressure)).
  { destruct (inv_hist _ _ _ _ Hinv s0 m0 h0 Hsm) as [[] _]. by split. }
  pose proof (shrinks_hist_ok _ _ _ _ _ Hsh Hok0) as Hok1.
  assert (Hev : evicts (budgets p) h0 bs1 h1) by (apply shrinks_evicts in Hsh as []; by split).
  pose proof (inv_put_evicts sb gb p outs s0 m0 h0 bs1 h1 Hinv Hsm Hev Hok1) as Hinv1.
  destruct (put_evicts_live p s0 m0 h0 bs1 h1 Hsm Hev) as (dr & _ & Hlive).
  assert (Hsub : live (put_stream p s0 m0 bs1 h1) ⊆+ live p)
    by (rewrite Hlive; by apply submseteq_inserts_l).
  pose proof (put_same_keys p s0 m0 bs1 h0 h1 Hsm) as Hkeys.
  assert (∃ h', stream_mut (put_stream p s0 m0 bs1 h1) s m = Some h'
    ∧ h_last_received_at h' = h_last_received_at h) as (h' & Hm' & Hlast').
  { destruct (decide ((s0, m0) = (s, m))) as [[= -> ->]|Hne].
    - rewrite stream_mut_put_eq by eauto. exists h1. split; [done|].
      destruct Hsh. simpl in *. congruence.
    - rewrite stream_mut_put_ne by done. eauto. }
  rewrite Hm'. simpl. destruct (negb _ && h_awaiting_keyframe h') eqn:Hstop.
  { eexists _, _, _. by split_and!. }
  destruct (IH (put_stream p s0 m0 bs1 h1) h' Hinv1) as
    (room & p' & h2 & -> & Hinv2 & Hm2 & Hl2 & Ha2 & Hsub2 & Hk2).
  { pose proof (gop_count_put p s0 m0 bs1 h0 h1 Hsm) as Hcnt.
    rewrite Hg1, Hgops in Hcnt. simpl in Hcnt. rewrite Hgops in Hcnt. simpl in Hcnt. lia. }
  { done. }
  eexists _, _, _. split_and!; try done.
  - congruence.
  - intros Hr Hkf _. apply Ha2; [done|done|]. rewrite Hkf in Hstop. by destruct (h_awaiting_keyframe h').
  - by etrans.
  - intros s1 m1. by rewrite (Hkeys s1 m1).
Qed.

(** ** [push_owned] *)

Lemma inv_put_add sb gb p outs s m h b b1 g1 x h' :
  buffers_inv sb gb p outs → stream_mut p s m = Some h →
  stream_budgets (budgets p) !! h_budget h = Some b →
  budget_acquire b (r_bytes (bf_reservation x)) = (true, b1) →
  budget_acquire (global_budget (budgets p)) (r_bytes (bf_reservation x)) = (true, g1) →
  bf_reservation x = mk_reservation (byte_len (bf_frame x)) (h_budget h) →
  h_budget h' = h_budget h → hist_ok h' → history_frames h' ≡ₚ x :: history_frames h →
  buffers_inv sb gb
    (put_stream p s m (mk_budgets (<[h_budget h := b1]> (stream_budgets (budgets p))) g1) h') outs.
Proof.
  intros [Ha Hh Har Hf [Hc1 Hc2] Hb] Hm Hlk Hacq Hgacq Hx Hbud Hok Hfr.
  set (bs2 := mk_budgets _ g1).
  assert (Hl : live (put_stream p s m bs2 h') ≡ₚ x :: live p).
  { pose proof (live_put p s m bs2 h h' Hm) as Hl. rewrite Hfr in Hl. simpl in Hl.
    rewrite Permutation_middle in Hl. by apply Permutation_app_inv_l in Hl. }
  assert (Hdom : ∀ a, is_Some (stream_budgets bs2 !! a) ↔ is_Some (stream_budgets (budgets p) !! a)).
  { intros a. simpl. rewrite lookup_insert. case_decide as Ha'; [|done]. rewrite <-Ha', Hlk. split; eauto. }
  split; cbn [budgets streams stream_count stream_bytes next_arc put_stream]; try done.
  - rewrite Hl. simpl. rewrite Hx in *. simpl in *.
    eapply acct_acquire; eauto using byte_len_nonneg.
  - intros s' m' h0 H0. rewrite (Hdom (h_budget h0)).
    destruct (decide ((s, m) = (s', m'))) as [[= <- <-]|Hne].
    + rewrite stream_mut_put_eq in H0 by eauto. simplify_eq. rewrite Hbud. by eauto.
    + rewrite stream_mut_put_ne in H0 by done. by apply (Hh s' m').
  - intros a Ha'. by apply Har, Hdom.
  - rewrite Hl. simpl. constructor; [|done]. unfold res_ok. rewrite Hx. simpl.
    split; [apply Har; eauto|done].
  - pose proof (total_streams_put p s m bs2 h h' Hm) as Ht. simpl in Ht. by rewrite Ht.
Qed.

(** Appending a frame that is the newest one, as a GOP of its own or to the last. *)
Lemma hist_ok_append h x gs :
  hist_ok h → h_last_received_at h = Some (frame_time x) →
  bf_reservation x = mk_reservation (byte_len (bf_frame x)) (h_budget h) →
  gop_frames gs = gop_frames (h_gops h) ++ [x] → Forall gop_ok gs → gs ≠ [] →
  hist_ok (set_gops h gs) ∧ history_frames (set_gops h gs) ≡ₚ x :: history_frames h.
Proof.
  intros [Hok Hs Hl Ho Hf] Hlast Hx Hgs Hgok Hne. rewrite Hlast in Hl.
  assert (Hp : history_frames (set_gops h gs) ≡ₚ x :: history_frames h).
  { unfold history_frames. simpl. rewrite Hgs, <-app_assoc. simpl. symmetry. apply Permutation_middle. }
  split; [|done]. split; simpl; try done.
  - rewrite Hgs. by apply StronglySorted_snoc.
  - rewrite Hlast, Hgs. apply Forall_app. split; [done|]. by repeat constructor.
  - rewrite Hp. by constructor.
Qed.

Lemma gop_frames_snoc_frame gs g x :
  last gs = Some g →
  gop_frames (removelast gs ++ [mk_gop (g_start g) (g_frames g ++ [x])]) = gop_frames gs ++ [x].
Proof.
  intros Hl. rewrite (removelast_snoc_last gs g Hl) at 2.
  rewrite !gop_frames_app, !gop_frames_cons. simpl. by rewrite !app_nil_r, app_assoc.
Qed.

Lemma gops_ok_snoc_frame gs g x :
  last gs = Some g → Forall gop_ok gs → is_video_keyframe (bf_frame x) = false →
  Forall gop_ok (removelast gs ++ [mk_gop (g_start g) (g_frames g ++ [x])]).
Proof.
  intros Hl Hok Hx. rewrite (removelast_snoc_last gs g Hl) in Hok.
  apply Forall_app in Hok as [Hok Hg]. apply Forall_app. split; [done|].
  apply Forall_singleton in Hg as (k & rest & Hgf & Hk & Ht & Hrest).
  apply Forall_singleton. exists k, (rest ++ [x]). simpl. rewrite Hgf.
  split_and!; try done. apply Forall_app. by repeat constructor.
Qed.

(** The last step of [push_owned]: the frame is accepted and stored. *)
Lemma store_frame_spec sb gb p outs s m f h b b1 g1 :
  let keyframe := is_video_keyframe f in
  let x := mk_buffered f (mk_reservation (byte_len f) (h_budget h)) in
  let bs := mk_budgets (<[h_budget h := b1]> (stream_budgets (budgets p))) g1 in
  buffers_inv sb gb p outs → stream_mut p s m = Some h →
  h_last_received_at h = Some (received_at f) →
  h_awaiting_keyframe h && negb keyframe = false →
  stream_budgets (budgets p) !! h_budget h = Some b →
  budget_acquire b (byte_len f) = (true, b1) →
  budget_acquire (global_budget (budgets p)) (byte_len f) = (true, g1) →
  (keyframe = true → ∀ r, let h' := set_awaiting
      (set_gops (set_reason h r) (h_gops h ++ [mk_gop (received_at f) [x]])) false in
    buffers_inv sb gb (put_stream p s m bs h') outs)
  ∧ (keyframe = false → ∃ g, last (h_gops h) = Some g
      ∧ let h' := set_gops h (removelast (h_gops h) ++ [mk_gop (g_start g) (g_frames g ++ [x])]) in
        buffers_inv sb gb (put_stream p s m bs h') outs).
Proof.
  intros keyframe x bs Hinv Hm Hlast Haw Hlk Hacq Hgacq.
  destruct (inv_hist _ _ _ _ Hinv s m h Hm) as [Hok _]. split; intros Hk.
  - intros r h'. set (gs := h_gops h ++ [mk_gop (received_at f) [x]]) in *.
    destruct (hist_ok_append h x gs) as [[H1 H2 H3 H4 H5] Hp]; try done.
    + subst gs. by rewrite gop_frames_app, gop_frames_cons, app_nil_r.
    + subst gs. apply Forall_app. split; [by destruct Hok|]. apply Forall_singleton.
      exists x, []. split_and!; done || constructor.
    + subst gs. by destruct (h_gops h).
    + apply (inv_put_add sb gb p outs s m h b b1 g1 x h'); try done.
      split; try done. simpl. intros _. subst gs. by destruct (h_gops h).
  - assert (Hopen : h_gops h ≠ []).
    { apply (ok_open h Hok). subst keyframe. rewrite Hk in Haw. by destruct (h_awaiting_keyframe h). }
    destruct (last (h_gops h)) as [g|] eqn:Hlg; [|by apply last_None in Hlg].
    exists g. split; [done|]. intros h'.
    destruct (hist_ok_append h x (removelast (h_gops h) ++ [mk_gop (g_start g) (g_frames g ++ [x])]))
      as [Hok' Hp]; try done.
    + by apply gop_frames_snoc_frame.
    + apply gops_ok_snoc_frame; [done|by destruct Hok|done].
    + by destruct (removelast (h_gops h)).
    + by apply (inv_put_add sb gb p outs s m h b b1 g1 x h').
Qed.

Lemma live_put_reason p s m h r :
  stream_mut p s m = Some h → live (put_stream p s m (budgets p) (set_reason h r)) ≡ₚ live p.
Proof.
  intros Hm. pose proof (live_put p s m (budgets p) h (set_reason h r) Hm) as Hl.
  by apply Permutation_app_inv_l in Hl.
Qed.

#[local] Arguments make_global_room : simpl never.

(** [push_owned] always returns, keeps the invariant, and gives the frame back
    untouched when it is refused. *)
Lemma push_owned_spec sb gb p outs s m f now :
  buffers_inv sb gb p outs →
  ∃ r p', push_owned p s m f now = Ret (r, p') ∧ buffers_inv sb gb p' outs
    ∧ (∀ f', r = Err f' → f' = f ∧ live p' ⊆+ live p).
Proof.
  intros Hinv. unfold push_owned.
  destruct (stream_mut p s m) as [h|] eqn:Hm.
  2:{ eexists _, _. split_and!; try done. by intros ? [= <-]. }
  destruct (inv_hist _ _ _ _ Hinv s m h Hm) as [Hok _].
  destruct (admit_frame _ _ _ _ _) as [[ok bs1] h1] eqn:Hadm.
  apply admit_frame_spec in Hadm as (Hok1 & Hev1 & Hadm); [|done].
  pose proof (inv_put_evicts sb gb p outs s m h bs1 h1 Hinv Hm Hev1 Hok1) as Hinv1.
  destruct (put_evicts_live p s m h bs1 h1 Hm Hev1) as (d1 & _ & Hl1).
  assert (Hsub1 : live (put_stream p s m bs1 h1) ⊆+ live p)
    by (rewrite Hl1; by apply submseteq_inserts_l).
  destruct ok; simpl.
  2:{ eexists _, _. split_and!; try done. by intros ? [= <-]. }
  destruct (Hadm eq_refl) as [Hlast1 Haw1]. clear Hadm.
  destruct (make_global_room_spec sb gb (S (gop_count (put_stream p s m bs1 h1)))
    (put_stream p s m bs1 h1) outs s m f h1) as
    (room & p2 & h2 & Hroom & Hinv2 & Hm2 & Hlast2 & Haw2 & Hsub2 & _); [done|lia| |].
  { apply stream_mut_put_eq. eauto. }
  assert (Hsub : live p2 ⊆+ live p) by (by etrans).
  rewrite Hroom. simpl. rewrite Hm2. destruct room; simpl.
  2:{ eexists _, _. split_and!; [done| |].
    - eapply inv_put_evicts; [done|done| |].
      + apply shrinks_evicts with []. apply shrinks_set_reason.
      + destruct (inv_hist _ _ _ _ Hinv2 s m h2 Hm2) as [[] _]. by split.
    - intros ? [= <-]. split; [done|]. by rewrite live_put_reason. }
  destruct (h_awaiting_keyframe h2 && negb (is_video_keyframe f)) eqn:Haw.
  { eexists _, _. split_and!; try done. by intros ? [= <-]. }
  destruct (inv_hist _ _ _ _ Hinv2 s m h2 Hm2) as [Hok2 [b Hlk]]. rewrite Hlk.
  destruct (budget_acquire b (byte_len f)) as [acq b1] eqn:Hacq. destruct acq; simpl.
  2:{ eexists _, _. split_and!; try done. by intros ? [= <-]. }
  destruct (budget_acquire (global_budget (budgets p2)) (byte_len f)) as [gacq g1] eqn:Hgacq.
  destruct gacq; simpl.
  - destruct (store_frame_spec sb gb p2 outs s m f h2 b b1 g1) as [Hkey Hdelta];
      [done|done|congruence|done..|].
    destruct (is_video_keyframe f) eqn:Hk.
    + specialize (Hkey eq_refl).
      destruct (_ || _); eexists _, _; (split_and!; [done| |done]).
      * apply (Hkey Startup).
      * specialize (Hkey (h_reason h2)). by destruct h2.
    + destruct (Hdelta eq_refl) as (g & Hg & Hinv3). rewrite Hg.
      eexists _, _. by split_and!.
  - rewrite (release_after_acquire sb gb (budgets p2) _ _ b (byte_len f) b1
      (inv_acct _ _ _ _ Hinv2) (byte_len_nonneg f) Hlk Hacq), insert_id by done.
    destruct (discard_open _ h2) as [bs3 h3] eqn:Hd.
    assert (Hd' : discard_open (budgets p2) h2 = (bs3, h3)) by (by destruct (budgets p2)).
    apply discard_open_spec in Hd' as ((d3 & Hs3) & _ & _).
    pose proof (shrinks_hist_ok _ _ _ _ _ Hs3 Hok2) as Hok3. apply shrinks_evicts in Hs3.
    destruct (put_evicts_live p2 s m h2 bs3 h3 Hm2 Hs3) as (d4 & _ & Hl4).
    eexists _, _. split_and!; [done|by eapply inv_put_evicts|].
    intros ? [= <-]. split; [done|]. etrans; [|exact Hsub]. rewrite Hl4. by apply submseteq_inserts_l.
Qed.
