(* ===== verification/PreRecordSteps.v ===== *)
(** * Pre-record buffers: reachable states

    The operations of [PreRecord] as a step relation interleaved with replay
    owners that drop frames, the invariant of [PreRecordInv] on every reachable
    state, and what it gives: memory bounds, panic freedom and decodable replays. *)

From S2P Require Import Prelude Frame PreRecord PreRecordInv.

Lemma history_clear_ok h : hist_ok (history_clear h).
Proof. split; simpl; try done; constructor. Qed.

Lemma inv_history sb gb p outs s m h :
  buffers_inv sb gb p outs → stream_mut p s m = Some h → hist_ok h.
Proof. intros Hinv Hm. by destruct (inv_hist _ _ _ _ Hinv s m h Hm). Qed.
#[export] Hint Resolve history_clear_ok inv_history : keeppeek.

Lemma clear_stream_inv sb gb p outs s m :
  buffers_inv sb gb p outs → buffers_inv sb gb (clear_stream p s m) outs.
Proof.
  intros Hinv. unfold clear_stream. destruct (stream_mut p s m) as [h|] eqn:Hm; [|done].
  by eapply inv_put_drop; eauto with keeppeek.
Qed.

Lemma set_continuous_inv sb gb p outs s m c :
  buffers_inv sb gb p outs → buffers_inv sb gb (set_continuous p s m c) outs.
Proof.
  intros Hinv. unfold set_continuous. destruct (stream_mut p s m) as [h|] eqn:Hm; [|done].
  eapply (inv_put_drop sb gb p outs outs s m h _ []); try done.
  destruct (inv_history _ _ _ _ _ _ _ Hinv Hm). by split.
Qed.

(** A new stream: its history is empty and its budget is a new allocation. *)
Definition added (p : PreRecordBuffers) (source stream : string) (h : StreamHistory)
    : gmap string (gmap string StreamHistory) :=
  <[source := <[stream := h]> (unwrap_or (streams p !! source) ∅)]> (streams p).

Lemma lookup_added p source stream h s m :
  (added p source stream h !! s ≫= λ inner, inner !! m)
  = if bool_decide ((source, stream) = (s, m)) then Some h else stream_mut p s m.
Proof.
  unfold added, stream_mut. rewrite lookup_insert. case_decide as Hs; simpl.
  - subst s. rewrite lookup_insert. case_decide as Hm.
    + subst m. by rewrite bool_decide_true.
    + rewrite bool_decide_false by congruence. destruct (streams p !! source); simpl; [done|].
      by rewrite lookup_empty.
  - by rewrite bool_decide_false by congruence.
Qed.

Lemma map_flat_added {B} (f : gmap string StreamHistory → list B) (w : string → StreamHistory → list B)
    p source stream h :
  (∀ m k v, m !! k = None → f (<[k:=v]> m) ≡ₚ w k v ++ f m) → f ∅ = [] →
  stream_mut p source stream = None →
  map_flat f (added p source stream h) ≡ₚ w stream h ++ map_flat f (streams p).
Proof.
  intros Hins Hempty Hnone. unfold added, stream_mut in *.
  destruct (streams p !! source) as [inner|] eqn:Hs; simpl in *.
  - pose proof (map_flat_insert_Some f (streams p) source inner (<[stream:=h]> inner) Hs) as Hp.
    rewrite (Hins _ _ _ Hnone), <-app_assoc in Hp.
    apply (Permutation_app_inv_l (f inner)). rewrite Hp. apply Permutation_app_swap_app.
  - rewrite map_flat_insert_None by done.
    rewrite (Hins _ _ _ (lookup_empty _)), Hempty, app_nil_r. done.
Qed.

Lemma on_arc_fresh a l :
  Forall (res_ok a) l → on_arc a (reservations l) = [].
Proof.
  induction 1 as [|b l [Hb _] _ IH]; [done|]. simpl. rewrite on_arc_cons, bool_decide_false; [done|lia].
Qed.

Lemma configure_inv sb gb p outs s m d :
  0 ≤ sb → buffers_inv sb gb p outs → buffers_inv sb gb (snd (configure p s m d)) outs.
Proof.
  intros Hsb Hinv. unfold configure. destruct (_ || _); [done|].
  destruct (stream_mut p s m) as [h|] eqn:Hm; simpl.
  { eapply inv_put_drop; [done|done|done| |done]. destruct (history_clear_ok h). by split. }
  destruct (_ =? _) eqn:Hmax; simpl; [done|]. reflect_bools.
  set (h := mk_history d (next_arc p) [] true false None Startup false []).
  destruct Hinv as [Ha Hh Har Hf [Hc1 Hc2] Hb].
  assert (Hl : live (mk_buffers (added p s m h) 0 0 (budgets p) 0) ≡ₚ live p).
  { unfold live. simpl. etrans; [|apply (map_flat_added map_frames (λ _, history_frames) p s m h)].
    - done.
    - intros m0 k v Hk. by apply map_flat_insert_None.
    - apply map_flat_empty.
    - done. }
  assert (Ht : total_streams (added p s m h) = total_streams (streams p) + 1).
  { unfold total_streams.
    rewrite (vec_len_perm _ _ (map_flat_added map_to_list (λ k v, [(k, v)]) p s m h
      (λ m0 k v Hk, map_to_list_insert m0 k v Hk) (map_to_list_empty) Hm)).
    simpl. by rewrite vec_len_cons. }
  unfold live in Hl. simpl in Hl.
  split; unfold live; simpl; rewrite ?Hl; try done.
  - destruct Ha as [Hg Hs ? ? ? ?]. split; simpl; try done.
    intros a b. rewrite lookup_insert. case_decide as Hc; [|apply Hs].
    subst a. intros [= <-]. rewrite on_arc_fresh by done.
    split; [by rewrite Hb|]. simpl. unfold MAX_STREAM_FRAMES, vec_len. simpl. lia.
  - intros s0 m0 h0 H0. unfold stream_mut in H0. simpl in H0.
    change (<[s:=<[m:=h]> (unwrap_or (streams p !! s) ∅)]> (streams p)) with (added p s m h) in H0.
    rewrite lookup_added in H0. rewrite lookup_insert_is_Some'.
    case_bool_decide; simplify_eq.
    + split; [|by left]. split; simpl; try done; constructor.
    + destruct (Hh s0 m0 h0 H0). auto.
  - intros a. rewrite lookup_insert_is_Some'. intros [<-|Ha']; [lia|]. specialize (Har a Ha'). lia.
  - eapply Forall_impl; [exact Hf|]. unfold res_ok. intros b0 [? ?]. split; [lia|done].
  - fold (added p s m h). rewrite Ht. unfold MAX_STREAMS in *. lia.
Qed.

Lemma live_source p s inner :
  streams p !! s = Some inner →
  live p ≡ₚ map_frames inner ++ map_flat map_frames (delete s (streams p)).
Proof. intros Hs. by apply map_flat_delete. Qed.

Lemma clear_source_inv sb gb p outs s :
  buffers_inv sb gb p outs → buffers_inv sb gb (clear_source p s) outs.
Proof.
  intros Hinv. unfold clear_source. destruct (streams p !! s) as [inner|] eqn:Hs; [|done].
  destruct (inv_count _ _ _ _ Hinv) as [Hc1 Hc2].
  eapply (inv_shrink sb gb p outs _ outs (map_frames inner)); try done; simpl.
  - rewrite app_assoc. apply Permutation_app_tail. rewrite (live_source p s inner Hs).
    apply Permutation_app_head. unfold live. simpl.
    rewrite (map_flat_delete map_frames (<[s:=history_clear <$> inner]> (streams p)) s
      (history_clear <$> inner)) by apply lookup_insert_eq.
    rewrite delete_insert_eq. unfold map_frames at 2.
    by rewrite (map_flat_fmap_nil history_clear history_frames) by done.
  - rewrite Hc1. unfold total_streams.
    pose proof (map_flat_length_insert map_to_list (streams p) s inner (history_clear <$> inner) Hs)
      as Hlen.
    rewrite !length_map_to_list, map_size_fmap in Hlen. unfold vec_len. lia.
  - intros s0 m0 h0. unfold stream_mut. simpl. rewrite lookup_insert. case_decide as Hd; simpl.
    + subst s0. rewrite lookup_fmap. destruct (inner !! m0) as [h|] eqn:Hm; simpl; [|done].
      intros [= <-]. split; [apply history_clear_ok|]. exists s, m0, h. by rewrite Hs.
    + intros H0. split; [|eauto]. by eapply (inv_history sb gb p outs s0 m0).
Qed.

Lemma remove_source_inv sb gb p outs s :
  buffers_inv sb gb p outs →
  ∃ p', remove_source p s = Ret p' ∧ buffers_inv sb gb p' outs.
Proof.
  intros Hinv. unfold remove_source. destruct (streams p !! s) as [inner|] eqn:Hs; [|by eauto].
  destruct (inv_count _ _ _ _ Hinv) as [Hc1 Hc2].
  assert (Ht : total_streams (streams p)
    = Z.of_nat (size inner) + total_streams (delete s (streams p))).
  { unfold total_streams. rewrite (vec_len_perm _ _ (map_flat_delete map_to_list _ _ _ Hs)).
    unfold vec_len. rewrite length_app, length_map_to_list. lia. }
  pose proof (vec_len_nonneg (map_flat map_to_list (delete s (streams p)))) as Hnn.
  fold (total_streams (delete s (streams p))) in Hnn.
  unfold plain_sub. rewrite (proj2 (Z.leb_le _ _)) by lia. simpl. eexists. split; [done|].
  eapply (inv_shrink sb gb p outs _ outs (map_frames inner)); try done; simpl.
  - rewrite app_assoc. apply Permutation_app_tail. by apply live_source.
  - lia.
  - lia.
  - intros s0 m0 h0. unfold stream_mut. simpl. rewrite lookup_delete. case_decide; simpl; [done|].
    intros H0. split; [|eauto]. by eapply (inv_history sb gb p outs s0 m0).
Qed.

Lemma head_omap_elem {A B} (f : A → option B) l b :
  head (omap f l) = Some b → ∃ a, a ∈ l ∧ f a = Some b.
Proof.
  intros Hh. assert (Hin : b ∈ omap f l) by (destruct (omap f l); simplify_eq/=; by left).
  by apply list_elem_of_omap in Hin.
Qed.

(** [next_released] takes the first frame of some stream's released queue. *)
Lemma next_released_spec p r p' :
  next_released p = (r, p') →
  (r = None ∧ p' = p)
  ∨ ∃ s m f h rest, r = Some (s, m, f) ∧ stream_mut p s m = Some h ∧ h_released h = f :: rest
      ∧ p' = put_stream p s m (budgets p) (set_released h rest).
Proof.
  unfold next_released. destruct (head _) as [[[[s m] f] h']|] eqn:Hh; [|naive_solver].
  intros [= <- <-]. right.
  apply head_omap_elem in Hh as ([s0 inner] & Hin & Hf). simpl in Hf.
  destruct (first_released inner) as [[[m0 f0] h0]|] eqn:Hfr; [|done]. simplify_eq.
  apply btree_iter_elem in Hin.
  unfold first_released in Hfr. apply head_omap_elem in Hfr as ([m1 h1] & Hin1 & Hf1).
  simpl in Hf1. destruct (h_released h1) as [|f1 rest] eqn:Hrel; [done|]. simplify_eq.
  apply btree_iter_elem in Hin1. exists s, m, f, h1, rest. split_and!; try done.
  unfold stream_mut. by rewrite Hin.
Qed.

Lemma next_released_inv sb gb p outs r p' :
  buffers_inv sb gb p outs → next_released p = (r, p') →
  buffers_inv sb gb p' (match r with Some (_, _, f) => f :: outs | None => outs end).
Proof.
  intros Hinv Hr. apply next_released_spec in Hr as [[-> ->]|(s & m & f & h & rest & -> & Hm & Hrel & ->)];
    [done|].
  assert (Hp : history_frames h ≡ₚ f :: history_frames (set_released h rest)).
  { unfold history_frames. rewrite Hrel. simpl. symmetry. apply Permutation_middle. }
  eapply (inv_put_drop sb gb p outs (f :: outs) s m h _ []); try done; simpl.
  - destruct (inv_history _ _ _ _ _ _ _ Hinv Hm) as [H1 H2 H3 H4 H5]. split; try done.
    rewrite Hp in H5. by apply Forall_cons in H5 as [_ ?].
  - rewrite Hp. simpl. apply Permutation_middle.
Qed.

Lemma expire_stream_inv sb gb p outs k now :
  buffers_inv sb gb p outs → buffers_inv sb gb (expire_stream p k now) outs.
Proof.
  intros Hinv. unfold expire_stream. destruct (stream_mut p _ _) as [h|] eqn:Hm; [|done].
  destruct (history_expire (budgets p) h now) as [bs h'] eqn:He.
  apply history_expire_spec in He as ((d & Hs) & _).
  eapply inv_put_evicts; eauto using shrinks_evicts, shrinks_hist_ok with keeppeek.
Qed.

Lemma buffers_expire_inv sb gb p outs now :
  buffers_inv sb gb p outs → buffers_inv sb gb (buffers_expire p now) outs.
Proof.
  unfold buffers_expire. generalize (stream_keys p). intros l. revert p.
  induction l as [|k l IH]; intros p Hinv; simpl; [done|]. by apply IH, expire_stream_inv.
Qed.

Lemma trim_retain_perm ae we fs k d : trim_retain ae we fs = (k, d) → fs ≡ₚ d ++ k.
Proof.
  revert ae k d. induction fs as [|b fs IH]; intros ae k d; simpl; [by intros [= <- <-]|].
  assert (Hkeep : ∀ e k d, (let '(k, d) := trim_retain e we fs in (b :: k, d)) = (k, d) →
                    b :: fs ≡ₚ d ++ k).
  { intros e k0 d0. destruct (trim_retain e we fs) as [k1 d1] eqn:Ht. intros [= <- <-].
    rewrite (IH _ _ _ Ht). apply Permutation_middle. }
  assert (Hdrop : ∀ k d, (let '(k, d) := trim_retain ae we fs in (k, b :: d)) = (k, d) →
                    b :: fs ≡ₚ d ++ k).
  { intros k0 d0. destruct (trim_retain ae we fs) as [k1 d1] eqn:Ht. intros [= <- <-].
    by rewrite (IH _ _ _ Ht). }
  destruct (frame (bf_frame b)); [apply Hkeep|].
  destruct (instant_checked_add _ _); [|apply Hdrop]. destruct (_ || _); eauto.
Qed.

Lemma trim_audio_perm fs k d : trim_audio_to_video fs = (k, d) → fs ≡ₚ d ++ k.
Proof.
  unfold trim_audio_to_video. destruct (List.filter _ fs).
  - intros [= <- <-]. by rewrite app_nil_r.
  - apply trim_retain_perm.
Qed.

Lemma take_history_inv sb gb p outs s m now fs p' :
  buffers_inv sb gb p outs → take_history p s m now = (fs, p') → buffers_inv sb gb p' (fs ++ outs).
Proof.
  intros Hinv. unfold take_history. destruct (stream_mut p s m) as [h|] eqn:Hm; [|by intros [= <- <-]].
  destruct (history_expire (budgets p) h now) as [bs h1] eqn:He.
  apply history_expire_spec in He as ((d & Hs) & _).
  pose proof (shrinks_hist_ok _ _ _ _ _ Hs (inv_history _ _ _ _ _ _ _ Hinv Hm)) as Hok.
  destruct (trim_audio_to_video _) as [kept dropped] eqn:Ht. apply trim_audio_perm in Ht.
  intros [= <- <-].
  set (h2 := match gop_frames (h_gops h1) with [] => _ | _ => _ end).
  assert (H2 : h_budget h2 = h_budget h1 ∧ history_frames h2 = h_released h1 ∧ hist_ok h2).
  { destruct Hok as [H1 H2 H3 H4 H5]. apply Forall_app in H5 as [_ H5].
    subst h2. destruct (gop_frames (h_gops h1)); (split_and!; [done|done|]); split; simpl;
      try done; try constructor; destruct (h_last_received_at h1); try done; constructor. }
  destruct H2 as (Hbud & Hfr & Hok2). clearbody h2.
  destruct Hs as [-> Hperm _ Hbud1 _ _ _ _]. rewrite <-drop_frames_app.
  eapply inv_put_drop; try done; [congruence|].
  rewrite Hperm. unfold history_frames at 1. rewrite Ht, Hfr, <-!app_assoc.
  do 2 apply Permutation_app_head. apply Permutation_app_swap_app.
Qed.

(** ** Snapshots *)

Lemma usize_sum_acc l a :
  Forall (λ z, 0 ≤ z) l → a + zsum id l ≤ usize_max →
  foldl (λ acc z, let! a := acc in plain_add usize_max a z) (Ret a) l = Ret (a + zsum id l).
Proof.
  revert a. induction l as [|z l IH]; intros a Hl Ha; simpl; [by rewrite Z.add_0_r|].
  apply Forall_cons in Hl as [Hz Hl]. simpl in Ha.
  assert (0 ≤ zsum id l) by (clear -Hl; induction Hl; simpl; unfold id in *; lia).
  unfold plain_add at 2. unfold id in *. rewrite (proj2 (Z.leb_le _ _)) by lia.
  rewrite IH by (done || lia). f_equal. lia.
Qed.

Lemma usize_sum_byte_len fs :
  zsum (λ b, byte_len (bf_frame b)) fs ≤ usize_max →
  usize_sum ((λ b, byte_len (bf_frame b)) <$> fs) = Ret (zsum (λ b, byte_len (bf_frame b)) fs).
Proof.
  intros Hle. unfold usize_sum. rewrite usize_sum_acc.
  - by rewrite zsum_fmap.
  - apply Forall_fmap, Forall_forall. intros b _. apply byte_len_nonneg.
  - by rewrite zsum_fmap.
Qed.

(** The frames of a configured stream are counted by its budget. *)
Lemma history_on_arc sb gb p outs s m h :
  buffers_inv sb gb p outs → stream_mut p s m = Some h →
  zsum (λ b, byte_len (bf_frame b)) (history_frames h)
    ≤ zsum r_bytes (on_arc (h_budget h) (reservations (live p ++ outs)))
  ∧ vec_len (history_frames h) ≤ vec_len (on_arc (h_budget h) (reservations (live p ++ outs))).
Proof.
  intros Hinv Hm. destruct (inv_history _ _ _ _ _ _ _ Hinv Hm) as [_ _ _ _ Hf].
  assert (Hsub : ∃ rest, live p ++ outs ≡ₚ history_frames h ++ rest).
  { unfold stream_mut in Hm. destruct (streams p !! s) as [inner|] eqn:Hs; simpl in Hm; [|done].
    pose proof (live_source p s inner Hs) as Hl. unfold map_frames at 1 in Hl.
    rewrite (map_flat_delete history_frames inner m h Hm), <-app_assoc in Hl.
    exists (map_flat history_frames (delete m inner) ++ map_flat map_frames (delete s (streams p)) ++ outs).
    rewrite !app_assoc. apply Permutation_app_tail. by rewrite <-!app_assoc. }
  destruct Hsub as (rest & Hp).
  assert (Hon : on_arc (h_budget h) (reservations (live p ++ outs))
    ≡ₚ reservations (history_frames h) ++ on_arc (h_budget h) (reservations rest)).
  { unfold on_arc. rewrite Hp, reservations_app, filter_app. apply Permutation_app_tail.
    clear -Hf. induction Hf as [|b l Hb _ IH]; [done|]. simpl. rewrite filter_cons, Hb. simpl.
    rewrite decide_True by done. by rewrite IH. }
  assert (Hz : zsum r_bytes (reservations (history_frames h))
    = zsum (λ b, byte_len (bf_frame b)) (history_frames h)).
  { clear -Hf. induction Hf as [|b l Hb _ IH]; [done|]. simpl. by rewrite IH, Hb. }
  rewrite (zsum_perm _ _ _ Hon), (vec_len_perm _ _ Hon), zsum_app, Hz.
  pose proof (acct_nonneg _ _ _ _ (inv_acct _ _ _ _ Hinv)) as Hn.
  apply (on_arc_nonneg (h_budget h)) in Hn. rewrite Hon in Hn. apply Forall_app in Hn as [_ Hn].
  pose proof (zsum_r_bytes_nonneg _ Hn). unfold vec_len, reservations in *.
  rewrite length_app, length_fmap. lia.
Qed.

Lemma history_bounds sb gb p outs s m h :
  buffers_inv sb gb p outs → stream_mut p s m = Some h →
  zsum (λ b, byte_len (bf_frame b)) (history_frames h) ≤ sb
  ∧ vec_len (history_frames h) ≤ MAX_STREAM_FRAMES.
Proof.
  intros Hinv Hm. destruct (history_on_arc sb gb p outs s m h Hinv Hm) as [H1 H2].
  destruct (inv_hist _ _ _ _ Hinv s m h Hm) as [_ [b Hb]].
  destruct (acct_stream _ _ _ _ (inv_acct _ _ _ _ Hinv) _ _ Hb) as (_ & H3 & H4). lia.
Qed.

Lemma history_snapshot_spec sb gb p outs s m now :
  buffers_inv sb gb p outs →
  ∃ r p', history_snapshot p s m now = Ret (r, p') ∧ buffers_inv sb gb p' outs.
Proof.
  intros Hinv. unfold history_snapshot. destruct (stream_mut p s m) as [h|] eqn:Hm; [|by eauto].
  destruct (history_expire (budgets p) h now) as [bs h'] eqn:He.
  apply history_expire_spec in He as ((d & Hs) & _).
  assert (Hinv' : buffers_inv sb gb (put_stream p s m bs h') outs)
    by (eapply inv_put_evicts; eauto using shrinks_evicts, shrinks_hist_ok with keeppeek).
  destruct (history_bounds sb gb _ outs s m h' Hinv') as [Hle _].
  { apply stream_mut_put_eq. eauto. }
  pose proof (proj1 (acct_limits _ _ _ _ (inv_acct _ _ _ _ Hinv))).
  unfold history_frames in Hle. rewrite zsum_app in Hle.
  pose proof (zsum_nonneg (λ b, byte_len (bf_frame b)) (h_released h') (λ b, byte_len_nonneg _)).
  rewrite usize_sum_byte_len by lia. simpl. eauto.
Qed.

(** ** Steps and reachability *)

Definition world : Type := PreRecordBuffers * list BufferedFrame.

Inductive pr_step : world → world → Prop :=
| st_configure p outs s m d :
    pr_step (p, outs) (snd (configure p s m d), outs)
| st_push p outs s m f now r p' :
    push_owned p s m f now = Ret (r, p') → pr_step (p, outs) (p', outs)
| st_set_continuous p outs s m c :
    pr_step (p, outs) (set_continuous p s m c, outs)
| st_clear_source p outs s :
    pr_step (p, outs) (clear_source p s, outs)
| st_clear_stream p outs s m :
    pr_step (p, outs) (clear_stream p s m, outs)
| st_remove_source p outs s p' :
    remove_source p s = Ret p' → pr_step (p, outs) (p', outs)
| st_next_released p outs s m f p' :
    next_released p = (Some (s, m, f), p') → pr_step (p, outs) (p', f :: outs)
| st_expire p outs now :
    pr_step (p, outs) (buffers_expire p now, outs)
| st_take p outs s m now fs p' :
    take_history p s m now = (fs, p') → pr_step (p, outs) (p', fs ++ outs)
| st_snapshot p outs s m now r p' :
    history_snapshot p s m now = Ret (r, p') → pr_step (p, outs) (p', outs)
| st_owner_drops p l f k :
    pr_step (p, l ++ f :: k)
      (mk_buffers (streams p) (stream_count p) (stream_bytes p) (drop_frames (budgets p) [f])
         (next_arc p), l ++ k).

Definition reachable (sb gb : Z) (w : world) : Prop := rtc pr_step (buffers_new sb gb, []) w.

Lemma owner_drops_inv sb gb p l f k :
  buffers_inv sb gb p (l ++ f :: k) →
  buffers_inv sb gb (mk_buffers (streams p) (stream_count p) (stream_bytes p)
    (drop_frames (budgets p) [f]) (next_arc p)) (l ++ k).
Proof.
  intros Hinv. destruct (inv_count _ _ _ _ Hinv).
  eapply (inv_shrink sb gb p (l ++ f :: k) _ (l ++ k) [f]); try done.
  - unfold live. simpl. rewrite !app_assoc. symmetry. apply Permutation_middle.
  - intros s m h Hm. split; [|eauto]. by eapply (inv_history sb gb p _ s m).
Qed.

Lemma pr_step_inv sb gb w w' :
  0 ≤ sb → pr_step w w' →
  buffers_inv sb gb (fst w) (snd w) → buffers_inv sb gb (fst w') (snd w').
Proof.
  intros Hsb Hst Hinv. destruct Hst as [|p outs s m f now r p' Hp| | | |p outs s p' Hp
    |p outs s m f p' Hp| |p outs s m now fs p' Hp|p outs s m now r p' Hp|]; simpl in *.
  - by apply configure_inv.
  - destruct (push_owned_spec sb gb p outs s m f now Hinv) as (r0 & p0 & Hp' & ? & _).
    rewrite Hp in Hp'. by simplify_eq.
  - by apply set_continuous_inv.
  - by apply clear_source_inv.
  - by apply clear_stream_inv.
  - destruct (remove_source_inv sb gb p outs s Hinv) as (p0 & Hp' & ?). rewrite Hp in Hp'. by simplify_eq.
  - by apply (next_released_inv sb gb p outs _ _ Hinv Hp).
  - by apply buffers_expire_inv.
  - by eapply take_history_inv.
  - destruct (history_snapshot_spec sb gb p outs s m now Hinv) as (r0 & p0 & Hp' & ?).
    rewrite Hp in Hp'. by simplify_eq.
  - by apply owner_drops_inv.
Qed.

Lemma buffers_new_inv sb gb :
  0 ≤ sb ≤ usize_max → 0 ≤ gb ≤ usize_max → buffers_inv sb gb (buffers_new sb gb) [].
Proof.
  intros Hsb Hgb. split; simpl; try done.
  - split; simpl; try done; try lia; unfold live; simpl; rewrite map_flat_empty; simpl; try lia.
  - intros a [b Hb]. by rewrite lookup_empty in Hb.
Qed.

Lemma reachable_inv sb gb p outs :
  0 ≤ sb ≤ usize_max → 0 ≤ gb ≤ usize_max →
  reachable sb gb (p, outs) → buffers_inv sb gb p outs.
Proof.
  intros Hsb Hgb Hr. change (buffers_inv sb gb (fst (p, outs)) (snd (p, outs))).
  assert (H0 : buffers_inv sb gb (fst (buffers_new sb gb, @nil BufferedFrame))
    (snd (buffers_new sb gb, @nil BufferedFrame))) by (by apply buffers_new_inv).
  unfold reachable in Hr. revert H0. induction Hr as [|w1 w2 w3 Hst _ IH]; intros H0; [done|].
  apply IH. eapply pr_step_inv; [|done|done]. lia.
Qed.

(** ** What a replay contains *)

Definition audio_within (wall_end : Z) (b : BufferedFrame) : Prop :=
  match frame (bf_frame b) with
  | Video _ => True
  | Audio a => frame_time b + a_duration a ≤ wall_end
  end.

Lemma trim_retain_spec ae we fs k d :
  trim_retain ae we fs = (k, d) → k `sublist_of` fs ∧ Forall (audio_within we) k.
Proof.
  revert ae k d. induction fs as [|b fs IH]; intros ae k d; simpl; [by intros [= <- <-]|].
  assert (Hdrop : ∀ k d, (let '(k, d) := trim_retain ae we fs in (k, b :: d)) = (k, d) →
                    k `sublist_of` b :: fs ∧ Forall (audio_within we) k).
  { intros k0 d0. destruct (trim_retain ae we fs) as [k1 d1] eqn:Ht. intros [= <- <-].
    destruct (IH _ _ _ Ht). split; [by apply sublist_cons|done]. }
  assert (Hkeep : audio_within we b → ∀ e k d,
    (let '(k, d) := trim_retain e we fs in (b :: k, d)) = (k, d) →
    k `sublist_of` b :: fs ∧ Forall (audio_within we) k).
  { intros Hb e k0 d0. destruct (trim_retain e we fs) as [k1 d1] eqn:Ht. intros [= <- <-].
    destruct (IH _ _ _ Ht). split; [by apply sublist_skip|by constructor]. }
  unfold audio_within, frame_time in Hkeep.
  destruct (frame (bf_frame b)) as [v|a] eqn:Hf; [by apply Hkeep|].
  destruct (instant_checked_add _ _) as [e|] eqn:He; [|apply Hdrop].
  unfold instant_checked_add in He. destruct (_ <=? instant_max); simplify_eq.
  destruct (_ || _) eqn:Hc; [apply Hdrop|]. reflect_bools. by apply Hkeep.
Qed.

Lemma filter_last_elem {A} (f : A → bool) l x : last (List.filter f l) = Some x → f x = true.
Proof.
  intros Hl. apply last_Some_elem_of in Hl. rewrite list_elem_of_In, filter_In in Hl. tauto.
Qed.

(** The frames of a consistent history, trimmed: nothing, or a replay that starts
    with the keyframe of the oldest GOP. *)
Lemma trim_history h kept dropped :
  hist_ok h → trim_audio_to_video (gop_frames (h_gops h)) = (kept, dropped) →
  kept = [] ∧ h_gops h = []
  ∨ ∃ g k rest we, head (h_gops h) = Some g ∧ kept = k :: rest
      ∧ is_video_keyframe (bf_frame k) = true ∧ frame_time k = g_start g
      ∧ kept `sublist_of` gop_frames (h_gops h)
      ∧ (∃ v, v ∈ gop_frames (h_gops h) ∧ buffered_is_video v = true ∧ frame_time v = we)
      ∧ Forall (audio_within we) kept.
Proof.
  intros [Hok _ _ _ _]. unfold trim_audio_to_video.
  destruct (h_gops h) as [|g gs]; [intros [= <- <-]; by left|].
  apply Forall_cons in Hok as [(k & rest & Hg & Hk & Ht & _) _].
  rewrite gop_frames_cons, Hg. simpl.
  assert (Hv : buffered_is_video k = true) by (apply keyframe_is_video, Hk). rewrite Hv.
  set (all := rest ++ gop_frames gs).
  destruct (last (k :: List.filter buffered_is_video all)) as [v|] eqn:Hl; [|by apply last_None in Hl].
  simpl. intros Htrim. right.
  assert (Hlv : last (List.filter buffered_is_video (k :: all)) = Some v) by (simpl; by rewrite Hv).
  pose proof (filter_last_elem _ _ _ Hlv) as Hvid.
  assert (Hin : v ∈ k :: all).
  { apply last_Some_elem_of in Hlv. rewrite list_elem_of_In, filter_In in Hlv.
    rewrite list_elem_of_In. tauto. }
  pose proof (trim_retain_spec _ _ (k :: all) kept dropped Htrim) as [Hsub Haud].
  simpl in Htrim. unfold buffered_is_video in Hv.
  destruct (frame (bf_frame k)) as [vf|]; [|done].
  destruct (trim_retain _ _ all) as [k1 d1]. simplify_eq.
  exists g, k, k1, (frame_time v). split_and!; eauto.
Qed.

(** ** Properties *)

(** From every reachable state, pushing a frame of any size at any time to any
    stream returns (the eviction loops end and no [expect] fails) in a reachable
    state; a refused frame is handed back unchanged and adds nothing to the
    buffers, which only lose frames.  Removing a source and taking a snapshot
    return as well. *)
Lemma operations_return sb gb p outs s m f now :
  0 ≤ sb ≤ usize_max → 0 ≤ gb ≤ usize_max → reachable sb gb (p, outs) →
  (∃ r p', push_owned p s m f now = Ret (r, p') ∧ reachable sb gb (p', outs)
     ∧ ∀ f', r = Err f' → f' = f ∧ live p' ⊆+ live p)
  ∧ (∃ p', remove_source p s = Ret p')
  ∧ (∃ r p', history_snapshot p s m now = Ret (r, p')).
Proof.
  intros Hsb Hgb Hr. pose proof (reachable_inv sb gb p outs Hsb Hgb Hr) as Hinv. split_and!.
  - destruct (push_owned_spec sb gb p outs s m f now Hinv) as (r & p' & Hp & _ & Hrf).
    exists r, p'. split_and!; try done. eapply rtc_r; [exact Hr|by eapply st_push].
  - destruct (remove_source_inv sb gb p outs s Hinv) as (p' & ? & _). eauto.
  - destruct (history_snapshot_spec sb gb p outs s m now Hinv) as (r & p' & ? & _). eauto.
Qed.

(** C12. Memory stays bounded: after any interleaving of configuration, pushes,
    expiry, replays and replay owners dropping frames, all payload bytes held by
    the buffers and by replay owners together are at most the global limit, the
    frames at most 131072, each stream holds at most its limit and 16384 frames,
    at most 254 streams are configured, and every budget counter is exactly the
    sum of the reservations still alive on it (no release ever wraps around).  Nothing
    panics on the way: from every such state a push, the removal of a source and a
    snapshot return, and a push that is refused hands the frame back and adds nothing. *)
Theorem prerecord_memory_bounded sb gb p outs :
  0 ≤ sb ≤ usize_max → 0 ≤ gb ≤ usize_max → reachable sb gb (p, outs) →
  zsum (λ b, byte_len (bf_frame b)) (live p ++ outs) ≤ gb
  ∧ vec_len (live p ++ outs) ≤ MAX_GLOBAL_FRAMES
  ∧ b_bytes (global_budget (budgets p)) = zsum (λ b, byte_len (bf_frame b)) (live p ++ outs)
  ∧ b_frames (global_budget (budgets p)) = vec_len (live p ++ outs)
  ∧ total_streams (streams p) ≤ MAX_STREAMS
  ∧ (∀ s m h, stream_mut p s m = Some h →
      zsum (λ b, byte_len (bf_frame b)) (history_frames h) ≤ sb
      ∧ vec_len (history_frames h) ≤ MAX_STREAM_FRAMES
      ∧ ∃ b, stream_budgets (budgets p) !! h_budget h = Some b
          ∧ b_bytes b = zsum r_bytes (on_arc (h_budget h) (reservations (live p ++ outs)))
          ∧ b_frames b = vec_len (on_arc (h_budget h) (reservations (live p ++ outs))))
  ∧ ∀ s m f now,
      (∃ r p', push_owned p s m f now = Ret (r, p') ∧ reachable sb gb (p', outs)
         ∧ ∀ f', r = Err f' → f' = f ∧ live p' ⊆+ live p)
      ∧ (∃ p', remove_source p s = Ret p')
      ∧ (∃ r p', history_snapshot p s m now = Ret (r, p')).
Proof.
  intros Hsb Hgb Hr. pose proof (reachable_inv sb gb p outs Hsb Hgb Hr) as Hinv.
  pose proof Hinv as [Ha Hh _ Hres [Hc1 Hc2] _]. pose proof Ha as [Hg Hs Hgby Hgf _ _].
  assert (Hz : zsum r_bytes (reservations (live p ++ outs))
    = zsum (λ b, byte_len (bf_frame b)) (live p ++ outs)).
  { clear -Hres. induction Hres as [|b l [_ Hb] _ IH]; [done|]. simpl. by rewrite IH, Hb. }
  assert (Hv : vec_len (reservations (live p ++ outs)) = vec_len (live p ++ outs))
    by (unfold vec_len, reservations; by rewrite length_fmap).
  pose proof (operations_return sb gb p outs) as Hops.
  rewrite Hg. simpl. rewrite Hz, Hv in *.
  do 5 (split; [first [done|lia]|]).
  split; [|intros s m f now; by apply Hops].
  intros s m h Hm. destruct (history_bounds sb gb p outs s m h Hinv Hm).
  destruct (Hh s m h Hm) as [_ [b Hb]]. destruct (Hs _ b Hb) as (-> & _).
  split_and!; try done. eauto.
Qed.

Lemma prerecord_memory_bounded_witness :
  let p := snd (configure (buffers_new 100 150) "cam" "main" 5) in
  zsum (λ b, byte_len (bf_frame b)) (live p ++ []) ≤ 150.
Proof.
  refine (proj1 (prerecord_memory_bounded 100 150 _ [] _ _ _));
    [vm_compute; split; congruence|vm_compute; split; congruence|].
  eapply rtc_l; [apply (st_configure (buffers_new 100 150) [] "cam" "main" 5)|apply rtc_refl].
Defined.

(** C13. A replay is decodable: the frames [take_history] hands out of any reachable
    state are in receive order, the first is a video keyframe, none is older than
    the configured history duration, and no audio packet outlasts the newest
    buffered video frame. *)
Theorem replay_decodable sb gb p outs s m now fs p' :
  0 ≤ sb ≤ usize_max → 0 ≤ gb ≤ usize_max → reachable sb gb (p, outs) →
  take_history p s m now = (fs, p') →
  fs = []
  ∨ ∃ h k rest we, stream_mut p s m = Some h ∧ fs = k :: rest
      ∧ is_video_keyframe (bf_frame k) = true ∧ StronglySorted time_le fs
      ∧ Forall (λ b, now - frame_time b ≤ h_duration h) fs
      ∧ (∃ v, v ∈ history_frames h ∧ buffered_is_video v = true ∧ frame_time v = we)
      ∧ Forall (audio_within we) fs.
Proof.
  intros Hsb Hgb Hr. pose proof (reachable_inv sb gb p outs Hsb Hgb Hr) as Hinv.
  unfold take_history. destruct (stream_mut p s m) as [h|] eqn:Hm; [|intros [= <- <-]; by left].
  destruct (history_expire (budgets p) h now) as [bs h1] eqn:He.
  apply history_expire_spec in He as ((d & Hs) & Hage).
  pose proof (shrinks_hist_ok _ _ _ _ _ Hs (inv_history _ _ _ _ _ _ _ Hinv Hm)) as Hok.
  destruct (trim_audio_to_video _) as [kept dropped] eqn:Ht. intros [= <- <-].
  destruct (trim_history h1 kept dropped Hok Ht)
    as [[-> _]|(g & k & rest & we & Hhd & -> & Hk & Htime & Hsub & (v & Hv & Hvid & Hwe) & Haud)];
    [by left|right].
  pose proof (StronglySorted_sublist _ _ _ Hsub (ok_sorted _ Hok)) as Hsort.
  exists h, k, rest, we. split_and!; try done.
  - specialize (Hage g Hhd). rewrite (sh_duration _ _ _ _ _ Hs) in Hage.
    unfold saturating_duration_since in Hage.
    inversion Hsort as [|k0 l0 _ Hle]; subst. constructor; [lia|].
    eapply Forall_impl; [exact Hle|]. unfold time_le. simpl. lia.
  - exists v. split_and!; try done. destruct Hs as [_ Hp Hg _ _ _ _ _].
    unfold history_frames. apply elem_of_app. left.
    eapply sublist_elem_of; [exact Hv|]. by apply gop_frames_sublist.
Qed.

(** One configured stream that has buffered a keyframe and a delta frame. *)
Definition demo_world : outcome PreRecordBuffers :=
  let p := snd (configure (buffers_new 100 150) "cam" "main" 50) in
  let! r1 := push_owned p "cam" "main" (sample_video true 3 10) 4 in
  let! r2 := push_owned (snd r1) "cam" "main" (sample_video false 5 7) 6 in
  Ret (snd r2).

Lemma demo_world_reachable p : demo_world = Ret p → reachable 100 150 (p, []).
Proof.
  unfold demo_world. intros Hd.
  destruct (push_owned (snd (configure _ _ _ _)) _ _ _ _) as [[r1 p1]|] eqn:H1; [|done].
  cbn [obind fst snd] in Hd.
  destruct (push_owned p1 _ _ _ _) as [[r2 p2]|] eqn:H2; [|done].
  cbn [obind fst snd] in Hd. injection Hd as <-.
  eapply rtc_l; [apply st_configure|]. eapply rtc_l; [eapply st_push, H1|].
  eapply rtc_l; [eapply st_push, H2|apply rtc_refl].
Qed.

Lemma replay_decodable_witness :
  ∃ p fs p', demo_world = Ret p ∧ take_history p "cam" "main" 7 = (fs, p') ∧ length fs = 2%nat
    ∧ (fs = [] ∨ ∃ h k rest we, stream_mut p "cam" "main" = Some h ∧ fs = k :: rest
      ∧ is_video_keyframe (bf_frame k) = true ∧ StronglySorted time_le fs
      ∧ Forall (λ b, 7 - frame_time b ≤ h_duration h) fs
      ∧ (∃ v, v ∈ history_frames h ∧ buffered_is_video v = true ∧ frame_time v = we)
      ∧ Forall (audio_within we) fs).
Proof.
  eexists _, _, _. split; [vm_compute; reflexivity|]. split; [vm_compute; reflexivity|].
  split; [reflexivity|].
  eapply (replay_decodable 100 150 _ [] "cam" "main" 7);
    [vm_compute; split; congruence|vm_compute; split; congruence| |vm_compute; reflexivity].
  apply demo_world_reachable. vm_compute. reflexivity.
Defined.
