(* ===== verification/Retention.v ===== *)
(** * Retention decisions

    [src/storage/retention.rs]: a camera policy is at most sixteen rules; a
    finalized recording interval is kept until the latest deadline of the rules
    its canonical events satisfy, and never shorter than a deadline already
    committed for it.  Rule durations run from the exclusive end of the interval.
    [RetentionError] names the [bail!] of each error branch. *)

From S2P Require Import Prelude.

Definition MAX_RULES : Z := 16.
Definition MAX_EVENTS : Z := 256.
Definition MAX_SELECTOR_BYTES : Z := 128.

Inductive RetentionError :=
| BadInterval
| BadSelector
| DurationRange
| RuleLimit
| DuplicateRule
| EventLimit
| MissingIdentity
| DuplicateRevision
| EventOrder
| PulseRange
| DeadlineRange.

Record Interval := mk_interval { start_ms : Z; end_ms : Z }.

Definition interval_new (s e : Z) : result RetentionError Interval :=
  if e <=? s then Err BadInterval else Ok (mk_interval s e).

Definition overlaps (a b : Interval) : bool :=
  (start_ms a <? end_ms b) && (start_ms b <? end_ms a).

Inductive Predicate :=
| Continuous
| Motion
| Event (event_type : string).

#[global] Instance Predicate_eq_dec : EqDecision Predicate.
Proof. solve_decision. Defined.

Record Rule := mk_rule {
  rule_id : string;
  duration_ms : Z;
  predicate : Predicate
}.

(** The fields of [TimelineEvent] ([src/storage/metadata.rs]) a decision reads. *)
Record TimelineEvent := mk_event {
  ev_id : string;
  ev_camera_id : string;
  ev_stream : option string;
  ev_kind : string;
  ev_start_time_ms : Z;
  ev_end_time_ms : option Z
}.

(** [b'_' | b'-' | b'.'] besides the alphanumerics. *)
Definition selector_byte (b : Z) : bool :=
  is_ascii_alphanumeric b || (b =? 95) || (b =? 45) || (b =? 46).

Definition validate_selector (value : string) : result RetentionError unit :=
  if str_is_empty value
     || (MAX_SELECTOR_BYTES <? str_len value)
     || negb (forallb selector_byte (bytes_of value))
  then Err BadSelector
  else Ok tt.

Definition i64_try_from (z : Z) : result RetentionError Z :=
  if z <=? i64_max then Ok z else Err DurationRange.

Definition rule_new (id : string) (duration : Z) (p : Predicate) : result RetentionError Rule :=
  let? _ := validate_selector id in
  let? _ := match p with
            | Event event_type => validate_selector event_type
            | _ => Ok tt
            end in
  let? d := i64_try_from duration in
  Ok (mk_rule id d p).

Definition rule_matches (r : Rule) (e : TimelineEvent) : bool :=
  match predicate r with
  | Continuous => false
  | Motion => str_eqb (ev_kind e) "motion"
  | Event event_type => str_eqb (ev_kind e) event_type
  end.

Record Policy := mk_retention_policy { rules : list Rule }.

(** The duplicate scan: rule [index] against [rules[..index]]. *)
Fixpoint duplicate_scan (seen rest : list Rule) : result RetentionError unit :=
  match rest with
  | [] => Ok tt
  | r :: rest' =>
      if existsb (λ previous, str_eqb (rule_id previous) (rule_id r)) seen
      then Err DuplicateRule
      else duplicate_scan (seen ++ [r]) rest'
  end.

Definition retention_policy_new (rs : list Rule) : result RetentionError Policy :=
  if MAX_RULES <? vec_len rs then Err RuleLimit
  else
    let? _ := duplicate_scan [] rs in
    Ok (mk_retention_policy rs).

(** [RawRule]: a rule as it is deserialized, before [TryFrom]. *)
Record RawRule := mk_raw_rule {
  raw_id : string;
  raw_duration_ms : Z;
  raw_predicate : Predicate
}.

Definition rule_try_from (r : RawRule) : result RetentionError Rule :=
  rule_new (raw_id r) (raw_duration_ms r) (raw_predicate r).

(** The visitor of [bounded_rules]: elements are converted one at a time, and the
    seventeenth is refused before it is stored. *)
Fixpoint bounded_rules (acc : list Rule) (sequence : list RawRule)
    : result RetentionError (list Rule) :=
  match sequence with
  | [] => Ok acc
  | raw :: rest =>
      let? r := rule_try_from raw in
      if vec_len acc =? MAX_RULES then Err RuleLimit
      else bounded_rules (acc ++ [r]) rest
  end.

(** [TryFrom<RawPolicy>] after [bounded_rules]: how a stored policy is read back. *)
Definition policy_deserialize (sequence : list RawRule) : result RetentionError Policy :=
  let? rs := bounded_rules [] sequence in
  retention_policy_new rs.

Record Recording := mk_recording {
  camera_id : string;
  stream_id : string;
  interval : Interval;
  protected : bool;
  committed_deadline_ms : option Z
}.

Inductive Reason := MatchingRules | CommittedDeadline | Protected | NoMatchingEvidence.

Record RetentionDecision := mk_decision {
  deadline_ms : option Z;
  matching_rules : list string;
  dec_protected : bool;
  reason : Reason
}.

Definition expired (d : RetentionDecision) (now_ms : Z) : bool :=
  negb (dec_protected d) && is_none_or (λ deadline, deadline <=? now_ms) (deadline_ms d).

Definition requires_event_evidence (p : Policy) : bool :=
  existsb (λ r, negb (duration_ms r =? 0) && bool_decide (predicate r ≠ Continuous)) (rules p).

(** An event of another camera, or of another stream of this camera. *)
Definition out_of_scope (rec : Recording) (e : TimelineEvent) : bool :=
  negb (str_eqb (ev_camera_id e) (camera_id rec))
  || is_some_and (λ s, negb (str_eqb s (stream_id rec))) (ev_stream e).

(** The [match event.end_time_ms]: [Ok None] is its [continue] arm. *)
Definition observed_end (rec : Recording) (e : TimelineEvent)
    : result RetentionError (option Z) :=
  match ev_end_time_ms e with
  | Some en =>
      if en <? ev_start_time_ms e then Err EventOrder
      else if en =? ev_start_time_ms e then
        match i64_checked_add en 1 with
        | Some en' => Ok (Some en')
        | None => Err PulseRange
        end
      else Ok (Some en)
  | None =>
      if end_ms (interval rec) <=? ev_start_time_ms e then Ok None
      else Ok (Some (end_ms (interval rec)))
  end.

Fixpoint observe_events (rec : Recording) (observations : list (Interval * TimelineEvent))
    (events : list TimelineEvent) : result RetentionError (list (Interval * TimelineEvent)) :=
  match events with
  | [] => Ok observations
  | e :: rest =>
      if out_of_scope rec e then observe_events rec observations rest
      else if str_is_empty (ev_id e)
              || existsb (λ o, str_eqb (ev_id (snd o)) (ev_id e)) observations
      then Err DuplicateRevision
      else
        let? en := observed_end rec e in
        match en with
        | None => observe_events rec observations rest
        | Some en =>
            let? i := interval_new (ev_start_time_ms e) en in
            observe_events rec (observations ++ [(i, e)]) rest
        end
  end.

Definition recording_events (rec : Recording) (events : list TimelineEvent)
    : result RetentionError (list (Interval * TimelineEvent)) :=
  if MAX_EVENTS <? vec_len events then Err EventLimit
  else if str_is_empty (camera_id rec) || str_is_empty (stream_id rec)
  then Err MissingIdentity
  else observe_events rec [] events.

Definition rule_applies (rec : Recording) (observations : list (Interval * TimelineEvent))
    (r : Rule) : bool :=
  bool_decide (predicate r = Continuous)
  || existsb (λ o, overlaps (interval rec) (fst o) && rule_matches r (snd o)) observations.

(** The loop over the rules, with its accumulated deadline and matching ids. *)
Fixpoint apply_rules (rec : Recording) (observations : list (Interval * TimelineEvent))
    (deadline : option Z) (matching : list string) (rs : list Rule)
    : result RetentionError (option Z * list string) :=
  match rs with
  | [] => Ok (deadline, matching)
  | r :: rest =>
      if duration_ms r =? 0 then apply_rules rec observations deadline matching rest
      else if rule_applies rec observations r then
        match i64_checked_add (end_ms (interval rec)) (duration_ms r) with
        | None => Err DeadlineRange
        | Some d =>
            apply_rules rec observations
              (Some (match deadline with Some previous => Z.max previous d | None => d end))
              (matching ++ [rule_id r]) rest
        end
      else apply_rules rec observations deadline matching rest
  end.

(** [deadline_ms.into_iter().chain(committed).max()]. *)
Definition option_max (a b : option Z) : option Z :=
  match a, b with
  | Some x, Some y => Some (Z.max x y)
  | Some x, None => Some x
  | None, y => y
  end.

Definition resolve (p : Policy) (rec : Recording) (events : list TimelineEvent)
    : result RetentionError RetentionDecision :=
  let? observations := recording_events rec events in
  let? (deadline, matching) := apply_rules rec observations None [] (rules p) in
  let reason :=
    if protected rec then Protected
    else if is_some_and
              (λ previous, is_none_or (λ candidate, candidate <=? previous) deadline)
              (committed_deadline_ms rec)
    then CommittedDeadline
    else match deadline with
         | Some _ => MatchingRules
         | None => NoMatchingEvidence
         end in
  Ok (mk_decision (option_max deadline (committed_deadline_ms rec)) matching
        (protected rec) reason).

(** ** Specification

    What counts as evidence, without the accumulating loop: an event of this
    camera and stream, finite or open, taken as a half-open interval in which a
    pulse lasts one millisecond and an open event reaches the recording's end. *)

Definition event_end (rec : Recording) (e : TimelineEvent) : Z :=
  match ev_end_time_ms e with
  | Some en => if en =? ev_start_time_ms e then en + 1 else en
  | None => end_ms (interval rec)
  end.

Definition in_scope (rec : Recording) (e : TimelineEvent) : Prop :=
  ev_camera_id e = camera_id rec ∧ (ev_stream e = None ∨ ev_stream e = Some (stream_id rec)).

#[global] Instance in_scope_dec rec e : Decision (in_scope rec e).
Proof. apply _. Defined.

Definition evidence_event (rec : Recording) (kind : string) (e : TimelineEvent) : Prop :=
  in_scope rec e ∧ ev_kind e = kind
  ∧ start_ms (interval rec) < event_end rec e
  ∧ ev_start_time_ms e < end_ms (interval rec).

Definition evidence (rec : Recording) (events : list TimelineEvent) (kind : string) : Prop :=
  Exists (evidence_event rec kind) events.

Definition rule_holds (rec : Recording) (events : list TimelineEvent) (r : Rule) : Prop :=
  duration_ms r ≠ 0 ∧
  match predicate r with
  | Continuous => True
  | Motion => evidence rec events "motion"
  | Event k => evidence rec events k
  end.

#[global] Instance evidence_event_dec rec kind e : Decision (evidence_event rec kind e).
Proof. unfold evidence_event. apply _. Defined.
#[global] Instance rule_holds_dec rec events r : Decision (rule_holds rec events r).
Proof. unfold rule_holds, evidence. destruct (predicate r); apply _. Defined.

(** The deadlines a decision has to honour. *)
Definition candidates (p : Policy) (rec : Recording) (events : list TimelineEvent) : list Z :=
  ((λ r, end_ms (interval rec) + duration_ms r) <$> filter (rule_holds rec events) (rules p))
  ++ option_list (committed_deadline_ms rec).

(** The revisions a decision accepts: nonempty ids, no in-scope id twice, ends not
    before starts, and a pulse that has a next millisecond. *)
Definition revisions_ok (rec : Recording) (events : list TimelineEvent) : Prop :=
  Forall (λ e, ev_id e ≠ "" ∧
    (∀ en, ev_end_time_ms e = Some en → ev_start_time_ms e ≤ en < i64_max))
    (filter (in_scope rec) events)
  ∧ NoDup (ev_id <$> filter (in_scope rec) events).

(** The decision's deadline becomes the recording's committed obligation. *)
Definition recommit (rec : Recording) (d : RetentionDecision) : Recording :=
  mk_recording (camera_id rec) (stream_id rec) (interval rec) (protected rec) (deadline_ms d).

(** ** Events *)

Lemma out_of_scope_spec rec e : out_of_scope rec e = false ↔ in_scope rec e.
Proof.
  unfold out_of_scope, in_scope, str_eqb.
  destruct (ev_stream e) as [s|]; simpl; rewrite orb_false_iff, negb_false_iff, bool_decide_eq_true.
  - rewrite negb_false_iff, bool_decide_eq_true. naive_solver.
  - naive_solver.
Qed.

Definition observation (rec : Recording) (e : TimelineEvent) : option (Interval * TimelineEvent) :=
  if decide (in_scope rec e) then
    if decide (ev_end_time_ms e = None ∧ end_ms (interval rec) ≤ ev_start_time_ms e) then None
    else Some (mk_interval (ev_start_time_ms e) (event_end rec e), e)
  else None.

(** An accepted in-scope event contributes its observation. *)
Lemma observed_end_spec rec e en :
  in_scope rec e → observed_end rec e = Ok en →
  observation rec e = (λ en, (mk_interval (ev_start_time_ms e) en, e)) <$> en.
Proof.
  unfold observed_end, observation, event_end. intros Hs. rewrite decide_True by done.
  destruct (ev_end_time_ms e) as [x|]; intros He.
  - rewrite decide_False by naive_solver.
    destruct (i64_checked_add x 1) as [y|] eqn:Hy.
    + unfold i64_checked_add in Hy. split_match_in Hy; simplify_eq.
      repeat split_match_in He; by simplify_eq/=.
    + repeat split_match_in He; by simplify_eq/=.
  - split_match_in He; simplify_eq; reflect_bools; [by rewrite decide_True|].
    rewrite decide_False; [done|]. lia.
Qed.

Lemma observe_events_spec rec acc events obs :
  observe_events rec acc events = Ok obs → obs = acc ++ omap (observation rec) events.
Proof.
  revert acc. induction events as [|e events IH]; intros acc; simpl.
  { intros [= <-]. by rewrite app_nil_r. }
  destruct (out_of_scope rec e) eqn:Hsc.
  { unfold observation at 1. rewrite decide_False; [apply IH|].
    by rewrite <-out_of_scope_spec, Hsc. }
  apply out_of_scope_spec in Hsc. split_match; [done|].
  destruct (observed_end rec e) as [en|] eqn:Hen; simpl; [|done].
  rewrite (observed_end_spec _ _ _ Hsc Hen). destruct en as [en|]; simpl; [|apply IH].
  unfold interval_new. split_match; simpl; [done|].
  intros ->%IH. by rewrite <-app_assoc.
Qed.

Lemma recording_events_spec rec events obs :
  recording_events rec events = Ok obs → obs = omap (observation rec) events.
Proof. unfold recording_events. repeat split_match; [done..|]. apply observe_events_spec. Qed.

Lemma matches_kind r e :
  rule_matches r e = true ↔
  (predicate r = Motion ∧ ev_kind e = "motion") ∨ (∃ k, predicate r = Event k ∧ ev_kind e = k).
Proof.
  unfold rule_matches, str_eqb. destruct (predicate r); rewrite ?bool_decide_eq_true; naive_solver.
Qed.

Lemma observed_evidence rec events f :
  existsb (λ o, overlaps (interval rec) (fst o) && f (snd o)) (omap (observation rec) events) = true
  ↔ Exists (λ e, in_scope rec e ∧ f e = true
            ∧ start_ms (interval rec) < event_end rec e
            ∧ ev_start_time_ms e < end_ms (interval rec)) events.
Proof.
  induction events as [|e events IH]; [simpl; by rewrite Exists_nil|].
  rewrite Exists_cons, <-IH. simpl. unfold observation at 1.
  destruct (decide (in_scope rec e)) as [Hs|Hs]; [|naive_solver].
  destruct (decide _) as [[Hn Hl]|Hn]; simpl.
  - split; [naive_solver|]. intros [(_ & _ & _ & ?)|?]; [lia|done].
  - rewrite orb_true_iff. unfold overlaps. simpl.
    rewrite !andb_true_iff, !Z.ltb_lt. naive_solver.
Qed.

Lemma rule_applies_spec rec events r :
  (negb (duration_ms r =? 0) && rule_applies rec (omap (observation rec) events) r) = true
  ↔ rule_holds rec events r.
Proof.
  unfold rule_holds, rule_applies, evidence, evidence_event.
  rewrite andb_true_iff, negb_true_iff, Z.eqb_neq, orb_true_iff, bool_decide_eq_true,
    observed_evidence, Exists_exists.
  setoid_rewrite matches_kind.
  destruct (predicate r) as [| |k]; rewrite ?Exists_exists; split; intros [Hd He]; split; try done.
  - by left.
  - destruct He as [|(e & He & Hs & [[_ Hk]|(k & ? & _)] & Ho)]; [done| |done]. by exists e.
  - right. destruct He as (e & He & Hs & Hk & Ho). exists e. naive_solver.
  - destruct He as [|(e & He & Hs & [[? _]|(k' & [= <-] & Hk)] & Ho)]; [done|done|]. by exists e.
  - right. destruct He as (e & He & Hs & Hk & Ho). exists e. naive_solver.
Qed.

(** ** The rule loop *)

Definition rule_deadlines (rec : Recording) (rs : list Rule) : list Z :=
  (λ r, end_ms (interval rec) + duration_ms r) <$> rs.

Definition zmax_list (l : list Z) : option Z := foldr (λ x acc, option_max (Some x) acc) None l.

Lemma option_max_assoc a b c : option_max a (option_max b c) = option_max (option_max a b) c.
Proof. destruct a, b, c; simpl; f_equal; lia. Qed.
Lemma zmax_list_app l k : zmax_list (l ++ k) = option_max (zmax_list l) (zmax_list k).
Proof.
  induction l as [|x l IH]; [done|]. cbn [app zmax_list foldr] in *.
  fold (zmax_list (l ++ k)). by rewrite IH, option_max_assoc.
Qed.

Lemma zmax_list_is_max l x :
  zmax_list l = Some x ↔ x ∈ l ∧ Forall (λ y, y ≤ x) l.
Proof.
  revert x. induction l as [|y l IH]; intros x; simpl.
  { split; [done|]. intros [H _]. by apply not_elem_of_nil in H. }
  fold (zmax_list l). rewrite elem_of_cons, Forall_cons.
  destruct (zmax_list l) as [m|] eqn:Hm.
  - destruct (proj1 (IH m) eq_refl) as [Hin Hle]. split.
    + intros [= <-]. split.
      * destruct (Z.max_spec y m) as [[_ ->]|[_ ->]]; auto.
      * split; [lia|]. eapply Forall_impl; [done|]. simpl. lia.
    + intros [[->|Hx] [Hy Hall]]; f_equal.
      * rewrite Forall_forall in Hall. specialize (Hall m Hin). simpl in Hall. lia.
      * rewrite Forall_forall in Hle, Hall. specialize (Hle x Hx). specialize (Hall m Hin).
        simpl in *. lia.
  - destruct l as [|z l]; [|simpl in Hm; destruct (zmax_list l); done].
    split; [intros [= <-]; split_and!; [by left|lia|constructor]|]. intros [[->|Hx] _]; [done|]. by apply not_elem_of_nil in Hx.
Qed.
Lemma zmax_list_None l : zmax_list l = None ↔ l = [].
Proof. destruct l as [|x l]; [done|]. simpl. destruct (zmax_list l); done. Qed.

Lemma apply_rules_spec rec events dl ms rs dl' ms' :
  apply_rules rec (omap (observation rec) events) dl ms rs = Ok (dl', ms') →
  dl' = option_max dl (zmax_list (rule_deadlines rec (filter (rule_holds rec events) rs)))
  ∧ ms' = ms ++ (rule_id <$> filter (rule_holds rec events) rs).
Proof.
  revert dl ms. induction rs as [|r rs IH]; intros dl ms; simpl.
  { intros [= <- <-]. rewrite app_nil_r. by destruct dl. }
  pose proof (rule_applies_spec rec events r) as Hr. rewrite filter_cons.
  destruct (duration_ms r =? 0) eqn:Hz.
  { rewrite decide_False by (rewrite <-Hr; done). apply IH. }
  destruct (rule_applies _ _ r) eqn:Ha; simpl in Hr.
  - rewrite decide_True by (by apply Hr). destruct (i64_checked_add _ _) as [z|] eqn:Hd; [|done].
    apply i64_checked_add_Some in Hd as [-> _].
    intros [-> ->]%IH. rewrite fmap_cons, <-app_assoc. split; [|done].
    cbn [rule_deadlines zmax_list foldr fmap list_fmap].
    fold (rule_deadlines rec (filter (rule_holds rec events) rs)).
    fold (zmax_list (rule_deadlines rec (filter (rule_holds rec events) rs))).
    rewrite option_max_assoc. by destruct dl.
  - rewrite decide_False by (rewrite <-Hr; done). apply IH.
Qed.

(** ** Decisions *)

(** [resolve] in one equation, once its two fallible parts have succeeded. *)
Lemma resolve_inv p rec events d :
  resolve p rec events = Ok d →
  deadline_ms d = zmax_list (candidates p rec events)
  ∧ matching_rules d = (rule_id <$> filter (rule_holds rec events) (rules p))
  ∧ dec_protected d = protected rec
  ∧ reason d = (if protected rec then Protected
                else if is_some_and (λ c, is_none_or (λ x, x <=? c)
                          (zmax_list (rule_deadlines rec (filter (rule_holds rec events) (rules p)))))
                          (committed_deadline_ms rec)
                then CommittedDeadline
                else match filter (rule_holds rec events) (rules p) with
                     | [] => NoMatchingEvidence
                     | _ => MatchingRules
                     end).
Proof.
  unfold resolve. destruct (recording_events rec events) as [obs|] eqn:Ho; simpl; [|done].
  apply recording_events_spec in Ho as ->.
  destruct (apply_rules _ _ _ _ _) as [[dl ms]|] eqn:Ha; simpl; [|done].
  apply apply_rules_spec in Ha as [-> ->]. intros [= <-]. simpl. split_and!; try done.
  - unfold candidates. rewrite zmax_list_app. f_equal.
    by destruct (committed_deadline_ms rec).
  - destruct (protected rec); [done|]. split_match; [done|].
    destruct (filter (rule_holds rec events) (rules p)) as [|r rs]; [done|]. simpl.
    by destruct (zmax_list (rule_deadlines rec rs)).
Qed.

Lemma deadline_upper p rec events d y :
  resolve p rec events = Ok d → y ∈ candidates p rec events →
  ∃ x, deadline_ms d = Some x ∧ y ≤ x.
Proof.
  intros (Hd & _)%resolve_inv Hy. destruct (deadline_ms d) as [x|] eqn:Hx.
  - exists x. split; [done|]. symmetry in Hd. apply zmax_list_is_max in Hd as [_ Hall].
    rewrite Forall_forall in Hall. by apply Hall.
  - symmetry in Hd. apply zmax_list_None in Hd. rewrite Hd in Hy. by apply not_elem_of_nil in Hy.
Qed.

(** What a decision says. *)
Lemma resolve_result p rec events d :
  resolve p rec events = Ok d →
  matching_rules d = (rule_id <$> filter (rule_holds rec events) (rules p))
  ∧ (∀ x, deadline_ms d = Some x ↔
       x ∈ candidates p rec events ∧ Forall (λ y, y ≤ x) (candidates p rec events))
  ∧ (deadline_ms d = None ↔ candidates p rec events = [])
  ∧ (reason d = NoMatchingEvidence ↔ protected rec = false ∧ candidates p rec events = [])
  ∧ (reason d = Protected ↔ protected rec = true).
Proof.
  intros (Hd & Hm & Hp & Hr)%resolve_inv. split_and!; [done| | | |].
  - intros x. rewrite Hd. apply zmax_list_is_max.
  - rewrite Hd. apply zmax_list_None.
  - rewrite Hr. unfold candidates. destruct (protected rec); [naive_solver|].
    destruct (committed_deadline_ms rec) as [c|]; simpl.
    + split; [|intros [_ H]; by apply app_eq_nil in H as [_ ?]].
      intros H. exfalso. destruct (is_none_or _ _) eqn:Hn; [done|].
      destruct (filter _ (rules p)); done.
    + rewrite app_nil_r. destruct (filter _ (rules p)); naive_solver.
  - rewrite Hr. destruct (protected rec); [done|]. repeat split_match; done.
Qed.

(** A decision only extends what was promised: it keeps any committed
    deadline, and once its own deadline is committed no later decision, under any
    other policy and any other events, expires the recording earlier. *)
Theorem deadlines_only_extend p rec events d p' events' d' now :
  resolve p rec events = Ok d →
  resolve p' (recommit rec d) events' = Ok d' →
  (∀ c, committed_deadline_ms rec = Some c → ∃ x, deadline_ms d = Some x ∧ c ≤ x)
  ∧ (expired d' now = true → expired d now = true).
Proof.
  intros Hd Hd'. split.
  - intros c Hc. eapply deadline_upper; [done|]. unfold candidates. rewrite Hc.
    apply elem_of_app. right. by apply list_elem_of_singleton.
  - destruct (resolve_inv _ _ _ _ Hd) as (_ & _ & Hp & _).
    destruct (resolve_inv _ _ _ _ Hd') as (_ & _ & Hp' & _).
    unfold expired. rewrite Hp, Hp'. simpl. destruct (protected rec); [done|]. simpl.
    destruct (deadline_ms d) as [x|] eqn:Hx; [|done]. simpl.
    destruct (deadline_upper _ _ _ _ x Hd') as (y & -> & Hle).
    { unfold candidates. simpl. rewrite Hx. apply elem_of_app. right.
      by apply list_elem_of_singleton. }
    simpl. rewrite !Z.leb_le. lia.
Qed.

(** ** Success *)

Lemma observe_events_total rec acc events :
  Forall (λ e, ev_id e ≠ "" ∧
    (∀ en, ev_end_time_ms e = Some en → ev_start_time_ms e ≤ en < i64_max))
    (filter (in_scope rec) events) →
  NoDup ((ev_id ∘ snd <$> acc) ++ (ev_id <$> filter (in_scope rec) events)) →
  (∀ e, e ∈ events → in_i64 (ev_start_time_ms e)) →
  ∃ obs, observe_events rec acc events = Ok obs.
Proof.
  revert acc. induction events as [|e events IH]; intros acc Hok Hnd Hi; simpl; [by eexists|].
  rewrite filter_cons in Hok, Hnd.
  assert (∀ e, e ∈ events → in_i64 (ev_start_time_ms e)) as Hi' by (intros; apply Hi; by right).
  destruct (decide (in_scope rec e)) as [Hs|Hs].
  2:{ assert (out_of_scope rec e = true) as ->; [|by apply IH].
      apply not_false_is_true. by rewrite out_of_scope_spec. }
  rewrite (proj2 (out_of_scope_spec rec e) Hs). inversion Hok as [|? ? [Hid Hen] Hok']; subst.
  rewrite fmap_cons in Hnd.
  rewrite (proj2 (str_is_empty_spec _) Hid). simpl.
  assert (existsb (λ o, str_eqb (ev_id (snd o)) (ev_id e)) acc = false) as ->.
  { apply (existsb_fresh (ev_id ∘ snd)). apply NoDup_app in Hnd as (_ & Hd & _).
    intros Hin. apply (Hd _ Hin). by left. }
  assert (NoDup ((ev_id ∘ snd <$> acc) ++ (ev_id <$> filter (in_scope rec) events))) as Hnd1.
  { eapply sublist_NoDup; [exact Hnd|]. apply sublist_app; [done|]. by apply sublist_cons. }
  assert (∀ i, ∃ obs, observe_events rec (acc ++ [(i, e)]) events = Ok obs) as Hgo.
  { intros i. apply IH; [done| |done]. by rewrite fmap_app, <-app_assoc. }
  pose proof (Hi e ltac:(by left)) as [Hmin _].
  unfold observed_end, interval_new. destruct (ev_end_time_ms e) as [en|] eqn:Hend.
  - destruct (Hen en eq_refl) as [Hle Hlt].
    rewrite (proj2 (Z.ltb_ge en _) Hle).
    destruct (en =? ev_start_time_ms e) eqn:Heq; reflect_bools.
    + rewrite (proj2 (i64_checked_add_Some en 1 (en + 1))) by lia. simpl.
      rewrite (proj2 (Z.leb_gt _ _)) by lia. apply Hgo.
    + simpl. rewrite (proj2 (Z.leb_gt _ _)) by lia. apply Hgo.
  - split_match; simpl; [by apply IH|]. reflect_bools.
    rewrite (proj2 (Z.leb_gt _ _)) by lia. apply Hgo.
Qed.

Lemma apply_rules_total rec obs dl ms rs :
  Forall (λ r, i64_min ≤ end_ms (interval rec) + duration_ms r ≤ i64_max) rs →
  ∃ o, apply_rules rec obs dl ms rs = Ok o.
Proof.
  intros Hr. revert dl ms. induction Hr as [|r rs Hr _ IH]; intros dl ms; simpl; [by eexists|].
  repeat split_match; [apply IH..| |apply IH]. by apply i64_checked_add_None in Heqo.
Qed.

(** A decision is always reached on a well-formed snapshot: at most 256
    events, a nonempty identity, in-scope revisions with distinct nonempty ids
    that end no earlier than they start, and deadlines inside the i64 range. *)
Lemma resolve_total p rec events :
  vec_len events ≤ MAX_EVENTS → camera_id rec ≠ "" → stream_id rec ≠ "" →
  revisions_ok rec events → (∀ e, e ∈ events → in_i64 (ev_start_time_ms e)) →
  Forall (λ r, i64_min ≤ end_ms (interval rec) + duration_ms r ≤ i64_max) (rules p) →
  ∃ d, resolve p rec events = Ok d.
Proof.
  intros Hlen Hc%str_is_empty_spec Hs%str_is_empty_spec [Hok Hnd] Hi Hr.
  unfold resolve, recording_events. rewrite (proj2 (Z.ltb_ge _ _) Hlen), Hc, Hs. simpl.
  destruct (observe_events_total rec [] events) as [obs ->]; [done..|]. simpl.
  destruct (apply_rules_total rec obs None [] (rules p) Hr) as [[dl ms] ->]. by eexists.
Qed.

(** C14. [resolve] returns the latest obligation and nothing else, and always decides a
    well-formed snapshot: the matching rules are exactly the enabled rules with
    overlapping evidence of their kind on this camera and stream, in policy order, and
    the deadline is the maximum of the deadlines they imply and the committed one
    (absent only if there is none); with at most 256 events, a nonempty identity,
    in-scope revisions with distinct nonempty ids that end no earlier than they start,
    and deadlines inside the i64 range, there is a decision. *)
Theorem resolve_exact p rec events :
  (∀ d, resolve p rec events = Ok d →
     matching_rules d = (rule_id <$> filter (rule_holds rec events) (rules p))
     ∧ (∀ x, deadline_ms d = Some x ↔
          x ∈ candidates p rec events ∧ Forall (λ y, y ≤ x) (candidates p rec events))
     ∧ (deadline_ms d = None ↔ candidates p rec events = [])
     ∧ (reason d = NoMatchingEvidence ↔ protected rec = false ∧ candidates p rec events = [])
     ∧ (reason d = Protected ↔ protected rec = true))
  ∧ (vec_len events ≤ MAX_EVENTS → camera_id rec ≠ "" → stream_id rec ≠ "" →
     revisions_ok rec events → (∀ e, e ∈ events → in_i64 (ev_start_time_ms e)) →
     Forall (λ r, i64_min ≤ end_ms (interval rec) + duration_ms r ≤ i64_max) (rules p) →
     ∃ d, resolve p rec events = Ok d).
Proof. split; [intros d; apply resolve_result|apply resolve_total]. Qed.

(** ** Policies at rest *)

Definition to_raw (r : Rule) : RawRule := mk_raw_rule (rule_id r) (duration_ms r) (predicate r).

Definition selector_ok (v : string) : Prop :=
  v ≠ "" ∧ str_len v ≤ MAX_SELECTOR_BYTES ∧ Forall (λ b, selector_byte b = true) (bytes_of v).

Definition raw_ok (r : RawRule) : Prop :=
  selector_ok (raw_id r) ∧ raw_duration_ms r ≤ i64_max
  ∧ (∀ k, raw_predicate r = Event k → selector_ok k).

Definition of_raw (r : RawRule) : Rule := mk_rule (raw_id r) (raw_duration_ms r) (raw_predicate r).

Lemma validate_selector_spec v : validate_selector v = Ok tt ↔ selector_ok v.
Proof.
  unfold validate_selector, selector_ok. split.
  - destruct (str_is_empty v) eqn:He, (MAX_SELECTOR_BYTES <? str_len v) eqn:Hl,
      (forallb selector_byte (bytes_of v)) eqn:Hf; simpl; try done.
    intros _. reflect_bools. split_and!; [by apply str_is_empty_spec|done|].
    apply Forall_forall. intros b Hb. rewrite forallb_forall in Hf. apply Hf. by apply list_elem_of_In.
  - intros (He & Hl & Hf). rewrite (proj2 (str_is_empty_spec v) He), (proj2 (Z.ltb_ge _ _) Hl).
    assert (forallb selector_byte (bytes_of v) = true) as ->; [|done].
    apply forallb_forall. intros b Hb. rewrite Forall_forall in Hf. apply Hf. by apply list_elem_of_In.
Qed.

Lemma validate_selector_Ok v u : validate_selector v = Ok u ↔ selector_ok v.
Proof. destruct u. apply validate_selector_spec. Qed.

Lemma rule_try_from_spec raw r : rule_try_from raw = Ok r ↔ r = of_raw raw ∧ raw_ok raw.
Proof.
  destruct raw as [id d p]. unfold rule_try_from, rule_new, raw_ok, of_raw, i64_try_from. simpl.
  rewrite <-validate_selector_spec. destruct (validate_selector id) as [[]|]; simpl; [|naive_solver].
  assert ((∀ k, p = Event k → selector_ok k) ↔
          match p with Event k => validate_selector k | _ => Ok tt end = Ok tt) as ->.
  { destruct p as [| |k]; [by split|by split|]. rewrite validate_selector_spec. naive_solver. }
  destruct (match p with Event k => validate_selector k | _ => Ok tt end) as [[]|]; simpl;
    [|naive_solver].
  split_match; simpl; reflect_bools; naive_solver lia.
Qed.

Lemma bounded_rules_spec acc raws rs :
  vec_len acc ≤ MAX_RULES →
  bounded_rules acc raws = Ok rs ↔
  rs = acc ++ (of_raw <$> raws) ∧ Forall raw_ok raws ∧ vec_len (acc ++ (of_raw <$> raws)) ≤ MAX_RULES.
Proof.
  revert acc. induction raws as [|raw raws IH]; intros acc Hacc; simpl.
  { rewrite app_nil_r. split; [by intros [= <-]|]. by intros (-> & _ & _). }
  rewrite Forall_cons. destruct (rule_try_from raw) as [r|] eqn:Hr; simpl.
  - apply rule_try_from_spec in Hr as [-> Hok].
    destruct (vec_len acc =? MAX_RULES) eqn:Hm; reflect_bools.
    + split; [done|]. intros (_ & _ & Hlen). unfold vec_len in *.
      rewrite length_app in Hlen. simpl in Hlen. lia.
    + rewrite IH, <-app_assoc; [naive_solver|].
      unfold vec_len in *. rewrite length_app. simpl. lia.
  - split; [done|]. intros (_ & [Hok _] & _).
    by rewrite (proj2 (rule_try_from_spec raw (of_raw raw)) (conj eq_refl Hok)) in Hr.
Qed.

Lemma duplicate_scan_spec seen rest :
  NoDup (rule_id <$> seen) →
  duplicate_scan seen rest = Ok tt ↔ NoDup (rule_id <$> seen ++ rest).
Proof.
  revert seen. induction rest as [|r rest IH]; intros seen Hs; simpl; [by rewrite app_nil_r|].
  destruct (existsb _ seen) eqn:He.
  - split; [done|]. rewrite fmap_app. intros (_ & Hd & _)%NoDup_app. exfalso.
    assert (rule_id r ∉ rule_id <$> seen) as Hf%existsb_fresh by (intros Hin; apply (Hd _ Hin); by left).
    congruence.
  - apply existsb_fresh in He. rewrite IH, <-app_assoc; [done|].
    rewrite fmap_app. apply NoDup_app. split_and!; [done| |apply NoDup_singleton].
    intros x Hx [= ->]%list_elem_of_singleton. done.
Qed.

Lemma retention_policy_new_spec rs p :
  retention_policy_new rs = Ok p ↔
  p = mk_retention_policy rs ∧ vec_len rs ≤ MAX_RULES ∧ NoDup (rule_id <$> rs).
Proof.
  unfold retention_policy_new. pose proof (duplicate_scan_spec [] rs (NoDup_nil_2)) as Hd. simpl in Hd.
  split_match; reflect_bools; [naive_solver lia|].
  rewrite <-Hd. destruct (duplicate_scan [] rs) as [[]|]; simpl; naive_solver.
Qed.

(** C15. A stored policy reads back as itself: deserialization accepts exactly the
    sequences of at most sixteen valid rules with distinct ids, and the rules of any
    accepted policy, written out again, deserialize to the same policy. *)
Theorem policy_roundtrip raws p :
  (policy_deserialize raws = Ok p ↔
   p = mk_retention_policy (of_raw <$> raws) ∧ Forall raw_ok raws
   ∧ vec_len raws ≤ MAX_RULES ∧ NoDup (raw_id <$> raws))
  ∧ (policy_deserialize raws = Ok p → policy_deserialize (to_raw <$> rules p) = Ok p).
Proof.
  assert (∀ raws p, policy_deserialize raws = Ok p ↔
   p = mk_retention_policy (of_raw <$> raws) ∧ Forall raw_ok raws
   ∧ vec_len raws ≤ MAX_RULES ∧ NoDup (raw_id <$> raws)) as Hspec.
  { clear. intros raws p. unfold policy_deserialize.
    assert (rule_id <$> (of_raw <$> raws) = raw_id <$> raws) as Hids.
    { rewrite <-list_fmap_compose. done. }
    assert (vec_len (of_raw <$> raws) = vec_len raws) as Hlen.
    { unfold vec_len. by rewrite length_fmap. }
    pose proof (λ rs, bounded_rules_spec [] raws rs ltac:(done)) as Hb.
    destruct (bounded_rules [] raws) as [rs|e]; simpl in *.
    - destruct (proj1 (Hb rs) eq_refl) as (-> & Hf & Hl).
      rewrite retention_policy_new_spec, Hids, Hlen. naive_solver.
    - split; [done|]. intros (-> & Hf & Hl & _).
      assert (Err e = Ok (of_raw <$> raws)) as He by (apply Hb; by rewrite Hlen). done. }
  split; [apply Hspec|]. intros (-> & Hf & Hl & Hn)%Hspec. simpl.
  assert (to_raw <$> (of_raw <$> raws) = raws) as Hid.
  { clear. induction raws as [|[] raws IH]; [done|]. rewrite !fmap_cons, IH. done. }
  rewrite Hid. by apply Hspec.
Qed.

(** ** Witnesses *)

Definition demo_policy : Policy :=
  mk_retention_policy
    [mk_rule "all" 1000 Continuous; mk_rule "off" 0 Motion; mk_rule "person" 5000 (Event "person")].
Definition demo_recording : Recording :=
  mk_recording "front" "main" (mk_interval 100 200) false (Some 3000).
Definition demo_events : list TimelineEvent :=
  [mk_event "a" "front" None "person" 150 (Some 150);
   mk_event "b" "back" None "person" 150 None;
   mk_event "c" "front" (Some "main") "motion" 190 None].
Definition demo_decision : RetentionDecision :=
  mk_decision (Some 5200) ["all"; "person"] false MatchingRules.

Lemma deadlines_only_extend_witness : expired demo_decision 5300 = true.
Proof.
  apply (proj2 (deadlines_only_extend demo_policy demo_recording demo_events demo_decision
    (mk_retention_policy []) [] (mk_decision (Some 5200) [] false CommittedDeadline) 5300
    ltac:(vm_compute; reflexivity) ltac:(vm_compute; reflexivity))).
  vm_compute. reflexivity.
Defined.

Lemma resolve_exact_witness : ∃ d, resolve demo_policy demo_recording demo_events = Ok d.
Proof.
  apply (resolve_exact demo_policy demo_recording demo_events); try done.
  - unfold revisions_ok.
    assert (filter (in_scope demo_recording) demo_events
            = [mk_event "a" "front" None "person" 150 (Some 150);
               mk_event "c" "front" (Some "main") "motion" 190 None]) as ->
      by (vm_compute; reflexivity).
    split.
    + repeat (apply Forall_cons; split; [split; [done|by intros en [= <-]]|]). apply Forall_nil_2.
    + cbn. repeat (apply NoDup_cons; split; [set_solver|]). apply NoDup_nil_2.
  - intros e He. unfold demo_events in He. rewrite !elem_of_cons in He.
    destruct He as [->|[->|[->|He]]]; [by vm_compute..|by apply not_elem_of_nil in He].
  - repeat constructor; by vm_compute.
Defined.

Lemma policy_roundtrip_witness :
  policy_deserialize [mk_raw_rule "all" 1000 Continuous] = Ok (mk_retention_policy [mk_rule "all" 1000 Continuous])
  ∧ policy_deserialize (to_raw <$> [mk_rule "all" 1000 Continuous])
    = Ok (mk_retention_policy [mk_rule "all" 1000 Continuous]).
Proof.
  split; [vm_compute; reflexivity|].
  apply (policy_roundtrip [mk_raw_rule "all" 1000 Continuous] (mk_retention_policy [mk_rule "all" 1000 Continuous])).
  vm_compute; reflexivity.
Defined.
