(* ===== verification/Demand.v ===== *)
(** * Recording demand

    [src/storage/demand.rs]: viewers hold guards on a recording stream and
    keep-alives hold leases; a stream is recorded on demand while it has either.
    The registry counts guards per stream, keeps the furthest lease, starts an
    inactivity grace when the last guard is dropped and forgets a stream once
    nothing holds it.  A guard is its stream id; [Drop] calls [release_at]. *)

From S2P Require Import Prelude.

Record StreamDemand := mk_demand {
  viewers : Z;
  lease_until : option Z
}.

Record RecordingDemand := mk_registry {
  inactivity_grace : Z;
  streams : gmap string StreamDemand
}.

Definition demand_new (grace : Z) : RecordingDemand := mk_registry grace ∅.

(** [entry(stream_id).or_default()]. *)
Definition demand_entry (d : RecordingDemand) (s : string) : StreamDemand :=
  unwrap_or (streams d !! s) (mk_demand 0 None).
Definition set_stream (d : RecordingDemand) (s : string) (e : StreamDemand) : RecordingDemand :=
  mk_registry (inactivity_grace d) (<[s := e]> (streams d)).
Definition remove_stream (d : RecordingDemand) (s : string) : RecordingDemand :=
  mk_registry (inactivity_grace d) (delete s (streams d)).

Definition acquire (d : RecordingDemand) (s : string) : outcome RecordingDemand :=
  if str_is_empty s then Panic
  else
    let e := demand_entry d s in
    match checked_add usize_max (viewers e) 1 with
    | Some v => Ret (set_stream d s (mk_demand v (lease_until e)))
    | None => Panic
    end.

(** [if lease.is_none_or(|current| until > current) { lease = Some(until) }]. *)
Definition extend_lease (e : StreamDemand) (until : Z) : StreamDemand :=
  if is_none_or (λ current, current <? until) (lease_until e)
  then mk_demand (viewers e) (Some until)
  else e.

Definition renew_at (d : RecordingDemand) (s : string) (ttl now : Z) : outcome RecordingDemand :=
  if str_is_empty s then Panic
  else
    match instant_checked_add now ttl with
    | None => Panic
    | Some until => Ret (set_stream d s (extend_lease (demand_entry d s) until))
    end.

Definition demand_live (now : Z) (e : StreamDemand) : bool :=
  (0 <? viewers e) || is_some_and (λ until, now <? until) (lease_until e).

Definition is_active_at (d : RecordingDemand) (s : string) (now : Z) : bool * RecordingDemand :=
  match streams d !! s with
  | None => (false, d)
  | Some e =>
      let active := demand_live now e in
      (active, if negb active then remove_stream d s else d)
  end.

Definition viewer_count (d : RecordingDemand) (s : string) : Z :=
  match streams d !! s with Some e => viewers e | None => 0 end.

Definition release_at (d : RecordingDemand) (s : string) (now : Z) : outcome RecordingDemand :=
  match streams d !! s with
  | None => Ret d
  | Some e =>
      if viewers e <=? 0 then Panic
      else
        let e := mk_demand (viewers e - 1) (lease_until e) in
        let! e :=
          (if (viewers e =? 0) && negb (inactivity_grace d =? 0) then
             match instant_checked_add now (inactivity_grace d) with
             | None => Panic
             | Some grace_until => Ret (extend_lease e grace_until)
             end
           else Ret e) in
        Ret (if (viewers e =? 0) && is_none_or (λ until, until <=? now) (lease_until e)
             then remove_stream d s
             else set_stream d s e)
  end.

Record StreamHealth := mk_stream_health {
  sh_stream_id : string;
  sh_viewers : Z;
  lease_remaining_ms : option Z
}.

Record DemandHealth := mk_demand_health {
  active_streams : Z;
  total_viewers : Z;
  leased_streams : Z;
  reports : list StreamHealth
}.

Definition stream_report (now : Z) (kv : string * StreamDemand) : StreamHealth :=
  mk_stream_health (fst kv) (viewers (snd kv))
    (match lease_until (snd kv) with
     | Some until => (λ d, Z.min u64_max (as_millis d)) <$> checked_duration_since until now
     | None => None
     end).

(** [Iterator::sum] on [usize] panics on overflow. *)
Fixpoint sum_viewers (acc : Z) (l : list StreamHealth) : outcome Z :=
  match l with
  | [] => Ret acc
  | r :: l' => let! acc := plain_add usize_max acc (sh_viewers r) in sum_viewers acc l'
  end.

(** The hash map is listed in an unspecified order and then sorted by its unique
    keys, so the report order is the key order. *)
Definition health_snapshot (d : RecordingDemand) (now : Z)
    : outcome (DemandHealth * RecordingDemand) :=
  let d := mk_registry (inactivity_grace d) (filter (λ kv, demand_live now (snd kv) = true) (streams d)) in
  let rs := stream_report now <$> btree_iter (streams d) in
  let! total := sum_viewers 0 rs in
  Ret (mk_demand_health (vec_len rs) total
         (vec_len (filter (λ r, is_Some (lease_remaining_ms r)) rs)) rs, d).

(** ** Clients and the abstract registry *)

Inductive DemandOp :=
| OpAcquire (s : string)
| OpDrop (s : string) (now : Z)
| OpRenew (s : string) (ttl now : Z)
| OpActive (s : string) (now : Z)
| OpCount (s : string)
| OpHealth (now : Z).

Inductive DemandOut :=
| OutUnit
| OutBool (b : bool)
| OutCount (n : Z)
| OutHealth (h : DemandHealth).

Definition demand_exec (d : RecordingDemand) (op : DemandOp) : outcome (DemandOut * RecordingDemand) :=
  match op with
  | OpAcquire s => let! d := acquire d s in Ret (OutUnit, d)
  | OpDrop s now => let! d := release_at d s now in Ret (OutUnit, d)
  | OpRenew s ttl now => let! d := renew_at d s ttl now in Ret (OutUnit, d)
  | OpActive s now => let '(b, d) := is_active_at d s now in Ret (OutBool b, d)
  | OpCount s => Ret (OutCount (viewer_count d s), d)
  | OpHealth now => let! (h, d) := health_snapshot d now in Ret (OutHealth h, d)
  end.

Fixpoint demand_run (d : RecordingDemand) (ops : list DemandOp)
    : outcome (list DemandOut * RecordingDemand) :=
  match ops with
  | [] => Ret ([], d)
  | op :: ops' =>
      let! (out, d) := demand_exec d op in
      let! (outs, d) := demand_run d ops' in
      Ret (out :: outs, d)
  end.

(** What the registry promises: the guards alive, the furthest lease each stream
    was ever given, never forgotten, and the latest instant seen.  Callers read the
    clock before they take the lock, so instants may arrive out of order. *)
Record DemandSpec := mk_spec {
  guards : list string;
  leases : gmap string Z;
  clock : Z
}.

Definition spec_lease (σ : DemandSpec) (s : string) (until : Z) : gmap string Z :=
  <[s := match leases σ !! s with Some l => Z.max l until | None => until end]> (leases σ).

Definition op_now (σ : DemandSpec) (op : DemandOp) : Z :=
  match op with
  | OpDrop _ now | OpRenew _ _ now | OpActive _ now | OpHealth now => now
  | OpAcquire _ | OpCount _ => clock σ
  end.

Definition guard_count (σ : DemandSpec) (s : string) : Z :=
  vec_len (filter (λ g, g = s) (guards σ)).

Fixpoint remove_one (s : string) (l : list string) : list string :=
  match l with
  | [] => []
  | x :: l' => if bool_decide (x = s) then l' else x :: remove_one s l'
  end.

Definition spec_step (grace : Z) (σ : DemandSpec) (op : DemandOp) : DemandSpec :=
  let latest := Z.max (clock σ) (op_now σ op) in
  match op with
  | OpAcquire s => mk_spec (s :: guards σ) (leases σ) latest
  | OpDrop s now =>
      mk_spec (remove_one s (guards σ))
        (if (guard_count σ s =? 1) && negb (grace =? 0)
         then spec_lease σ s (now + grace) else leases σ) latest
  | OpRenew s ttl now => mk_spec (guards σ) (spec_lease σ s (now + ttl)) latest
  | _ => mk_spec (guards σ) (leases σ) latest
  end.

Definition spec_active (σ : DemandSpec) (s : string) (now : Z) : Prop :=
  s ∈ guards σ ∨ (∃ l, leases σ !! s = Some l ∧ now < l).

(** The calls that abort: an empty stream id, a viewer count, a viewer total or an
    instant that does not fit. *)
Definition aborts (grace : Z) (σ : DemandSpec) (op : DemandOp) : Prop :=
  match op with
  | OpAcquire s => s = "" ∨ usize_max ≤ guard_count σ s
  | OpDrop s now => guard_count σ s = 1 ∧ grace ≠ 0 ∧ instant_max < now + grace
  | OpRenew s ttl now => s = "" ∨ instant_max < now + ttl
  | OpHealth _ => usize_max < vec_len (guards σ)
  | OpActive _ _ | OpCount _ => False
  end.

(** A guard is dropped once: ownership, which the type of guards ensures. *)
Fixpoint drops_alive (grace : Z) (σ : DemandSpec) (ops : list DemandOp) : Prop :=
  match ops with
  | [] => True
  | op :: ops' =>
      match op with OpDrop s _ => s ∈ guards σ | _ => True end
      ∧ drops_alive grace (spec_step grace σ op) ops'
  end.

(** The lease time a report may show: the furthest lease of the stream when no instant
    seen so far is past it, and in any case only one that is not over. *)
Definition report_ok (σ : DemandSpec) (now : Z) (r : StreamHealth) : Prop :=
  sh_viewers r = guard_count σ (sh_stream_id r)
  ∧ (∀ l, leases σ !! sh_stream_id r = Some l → Z.max (clock σ) now < l →
      lease_remaining_ms r = Some (Z.min u64_max (as_millis (l - now))))
  ∧ (∀ ms, lease_remaining_ms r = Some ms → ∃ l, leases σ !! sh_stream_id r = Some l ∧ now ≤ l).

(** The answers the abstract registry allows.  A query at the latest instant seen, or a
    later one, has one answer; one at an earlier instant may already find a lease
    forgotten that a query at a later instant found over. *)
Definition out_ok (σ : DemandSpec) (op : DemandOp) (out : DemandOut) : Prop :=
  match op, out with
  | OpActive s now, OutBool b =>
      (b = true → spec_active σ s now) ∧ (spec_active σ s (Z.max (clock σ) now) → b = true)
  | OpCount s, OutCount n => n = guard_count σ s
  | OpHealth now, OutHealth h =>
      total_viewers h = vec_len (guards σ)
      ∧ active_streams h = vec_len (reports h)
      ∧ leased_streams h = vec_len (filter (λ r, is_Some (lease_remaining_ms r)) (reports h))
      ∧ StronglySorted (λ a b, str_leb (sh_stream_id a) (sh_stream_id b) = true) (reports h)
      ∧ NoDup (sh_stream_id <$> reports h)
      ∧ (∀ s, s ∈ sh_stream_id <$> reports h → spec_active σ s now)
      ∧ (∀ s, spec_active σ s (Z.max (clock σ) now) → s ∈ sh_stream_id <$> reports h)
      ∧ Forall (report_ok σ now) (reports h)
  | (OpAcquire _ | OpDrop _ _ | OpRenew _ _ _), OutUnit => True
  | _, _ => False
  end.

Fixpoint outs_ok (grace : Z) (σ : DemandSpec) (ops : list DemandOp) (outs : list DemandOut) : Prop :=
  match ops, outs with
  | [], [] => True
  | op :: ops', out :: outs' =>
      ¬ aborts grace σ op ∧ out_ok σ op out ∧ outs_ok grace (spec_step grace σ op) ops' outs'
  | _, _ => False
  end.

(** ** Refinement *)

(** The registry may forget a lease, but only one that was over at some instant seen;
    it never keeps one that is longer than the furthest one given. *)
Definition over (c : Z) (lease : option Z) : Prop := ∀ l, lease = Some l → l ≤ c.
Definition stream_rel (c n : Z) (la : option Z) (e : option StreamDemand) : Prop :=
  match e with
  | None => n = 0 ∧ over c la
  | Some e =>
      viewers e = n
      ∧ (lease_until e = la ∨ (over c la ∧ over c (lease_until e)))
      ∧ (∀ l, lease_until e = Some l → ∃ l', la = Some l' ∧ l ≤ l')
  end.

Definition refines (grace : Z) (σ : DemandSpec) (d : RecordingDemand) : Prop :=
  inactivity_grace d = grace
  ∧ ∀ s, stream_rel (clock σ) (guard_count σ s) (leases σ !! s) (streams d !! s).

Lemma over_mono c c' o : c ≤ c' → over c o → over c' o.
Proof. intros Hc Ho l Hl. specialize (Ho l Hl). lia. Qed.

Lemma stream_rel_mono c c' n la e : c ≤ c' → stream_rel c n la e → stream_rel c' n la e.
Proof. intros Hn. destruct e; simpl; naive_solver eauto using over_mono. Qed.

Lemma refines_clock grace σ d now :
  clock σ ≤ now → refines grace σ d → refines grace (mk_spec (guards σ) (leases σ) now) d.
Proof. intros Hn (Hg & Hr). split; [done|]. intros s. by eapply stream_rel_mono, Hr. Qed.

Lemma guard_count_elem σ s : s ∈ guards σ ↔ 0 < guard_count σ s.
Proof.
  unfold guard_count, vec_len. split.
  - intros Hs. destruct (filter (λ g, g = s) (guards σ)) eqn:Hf; [|simpl; lia].
    assert (s ∈ filter (λ g, g = s) (guards σ)) as Hin by by apply list_elem_of_filter.
    rewrite Hf in Hin. by apply not_elem_of_nil in Hin.
  - destruct (filter (λ g, g = s) (guards σ)) as [|x l] eqn:Hf; [simpl; lia|]. intros _.
    assert (x ∈ filter (λ g, g = s) (guards σ)) as [-> Hin]%list_elem_of_filter; [|done].
    rewrite Hf. by left.
Qed.
Lemma guard_count_nonneg σ s : 0 ≤ guard_count σ s.
Proof. unfold guard_count, vec_len. lia. Qed.

(** A live entry is active; an entry or a missing one that is not live was not active at
    the latest instant. *)
Lemma live_sound σ s now e :
  stream_rel (clock σ) (guard_count σ s) (leases σ !! s) (Some e) → demand_live now e = true → spec_active σ s now.
Proof.
  intros (Hv & _ & Hl) Hd. unfold demand_live in Hd. apply orb_true_iff in Hd as [Hd|Hd].
  - left. apply guard_count_elem. reflect_bools. lia.
  - destruct (lease_until e) as [l|]; [|done]. destruct (Hl l eq_refl) as (l' & ? & ?). right. exists l'.
    split; [done|]. cbn in Hd. reflect_bools. lia.
Qed.
Lemma live_complete σ s now e :
  stream_rel (clock σ) (guard_count σ s) (leases σ !! s) (Some e) →
  spec_active σ s (Z.max (clock σ) now) → demand_live now e = true.
Proof.
  intros (Hv & Hl & _) Ha. unfold demand_live. apply orb_true_iff. destruct Ha as [Hg|(l & Hs & Hlt)].
  - left. apply guard_count_elem in Hg. apply Z.ltb_lt. lia.
  - right. destruct Hl as [->|[Ho _]]; [rewrite Hs; cbn; apply Z.ltb_lt; lia|]. specialize (Ho l Hs). lia.
Qed.
Lemma absent_inactive σ s now :
  stream_rel (clock σ) (guard_count σ s) (leases σ !! s) None → ¬ spec_active σ s (Z.max (clock σ) now).
Proof.
  intros [Hc Hl] [Hg|(l & Hs & Hlt)]; [apply guard_count_elem in Hg; lia|]. specialize (Hl l Hs). lia.
Qed.
(** Forgetting an entry that is not live keeps the relation. *)
Lemma stream_rel_forget c c' now n la e :
  c ≤ c' → now ≤ c' → 0 ≤ n → stream_rel c n la (Some e) → demand_live now e = false → stream_rel c' n la None.
Proof.
  intros Hc Hnow Hn (Hv & Hl & _) Hd. unfold demand_live in Hd. apply orb_false_iff in Hd as [Hd Hx].
  split; [reflect_bools; lia|]. destruct Hl as [<-|[Ho _]]; [|by apply (over_mono c)].
  intros l Hlu. rewrite Hlu in Hx. cbn in Hx. reflect_bools. lia.
Qed.

(** Extending a lease on both sides. *)
Definition extended (until : Z) (la : option Z) : Z :=
  match la with Some l => Z.max l until | None => until end.
Lemma extend_lease_spec e until :
  extend_lease e until = mk_demand (viewers e) (Some (extended until (lease_until e))).
Proof.
  unfold extend_lease, extended. destruct e as [v [l|]]; cbn; [|done].
  destruct (l <? until) eqn:Hlt; reflect_bools; do 2 f_equal; lia.
Qed.
Lemma stream_rel_extend c n la e until :
  stream_rel c n la (Some e) → stream_rel c n (Some (extended until la)) (Some (extend_lease e until)).
Proof.
  rewrite extend_lease_spec. intros (Hv & Hl & Hle). split; [done|]. cbn [lease_until]. split.
  - destruct Hl as [->|[Ha Hc]]; [by left|]. destruct (decide (until ≤ c)) as [Hu|Hu].
    + right. split; intros x [= <-]; [destruct la as [l|]; [specialize (Ha l eq_refl)|]|
        destruct (lease_until e) as [l|]; [specialize (Hc l eq_refl)|]]; cbn; lia.
    + left. f_equal. destruct la as [l|]; [specialize (Ha l eq_refl)|];
        (destruct (lease_until e) as [l'|]; [specialize (Hc l' eq_refl)|]); cbn; lia.
  - intros x [= <-]. eexists. split; [done|]. destruct (lease_until e) as [l|]; cbn.
    + destruct (Hle l eq_refl) as (l' & -> & ?). cbn. lia.
    + destruct la; cbn; lia.
Qed.

Lemma entry_rel grace σ d s :
  refines grace σ d → stream_rel (clock σ) (guard_count σ s) (leases σ !! s) (Some (demand_entry d s)).
Proof.
  intros (_ & Hr). specialize (Hr s). unfold demand_entry.
  destruct (streams d !! s) as [e|]; [done|]. destruct Hr as [-> Hl]. split; [done|]. split; [|done].
  right. split; [done|]. intros l [=].
Qed.

Lemma guard_count_cons σ s s' ls now :
  guard_count (mk_spec (s :: guards σ) ls now) s' =
  guard_count σ s' + (if bool_decide (s = s') then 1 else 0).
Proof.
  unfold guard_count, vec_len. cbn [guards]. rewrite filter_cons.
  destruct (decide (s = s')); [rewrite bool_decide_true by done|rewrite bool_decide_false by done];
    cbn [length]; lia.
Qed.
Lemma guard_count_remove σ s s' ls now :
  s ∈ guards σ →
  guard_count (mk_spec (remove_one s (guards σ)) ls now) s' =
  guard_count σ s' - (if bool_decide (s = s') then 1 else 0).
Proof.
  unfold guard_count, vec_len. cbn [guards]. intros Hin.
  induction (guards σ) as [|x l IH]; [by apply not_elem_of_nil in Hin|].
  cbn [remove_one]. destruct (decide (x = s)) as [->|Hx];
    [rewrite (bool_decide_true (s = s)) by done|rewrite (bool_decide_false (x = s)) by done].
  - rewrite filter_cons. destruct (decide (s = s'));
      [rewrite bool_decide_true by done|rewrite bool_decide_false by done]; cbn [length]; lia.
  - apply elem_of_cons in Hin as [->|Hin]; [done|]. specialize (IH Hin).
    rewrite !filter_cons. destruct (decide (x = s')); cbn [length]; lia.
Qed.
Lemma remove_one_length s l : s ∈ l → vec_len (remove_one s l) = vec_len l - 1.
Proof.
  unfold vec_len. induction l as [|x l IH]; intros Hin; [by apply not_elem_of_nil in Hin|].
  simpl. case_bool_decide; [lia|]. apply elem_of_cons in Hin as [->|Hin]; [done|].
  specialize (IH Hin). simpl. lia.
Qed.
Lemma guard_count_le σ s : guard_count σ s ≤ vec_len (guards σ).
Proof. unfold guard_count, vec_len. pose proof (length_filter (λ g, g = s) (guards σ)). lia. Qed.

(** An operation that rewrites one entry preserves the relation elsewhere. *)
Lemma refines_set grace σ σ' d s e :
  refines grace σ d → clock σ ≤ clock σ' →
  (∀ s', s' ≠ s → guard_count σ' s' = guard_count σ s' ∧ leases σ' !! s' = leases σ !! s') →
  stream_rel (clock σ') (guard_count σ' s) (leases σ' !! s) e →
  refines grace σ' (mk_registry (inactivity_grace d)
    (match e with Some e => <[s := e]> (streams d) | None => delete s (streams d) end)).
Proof.
  intros (Hg & Hr) Hc Hf He. split; [done|]. intros s'. simpl.
  destruct (decide (s' = s)) as [->|Hn].
  - destruct e; [by rewrite lookup_insert_eq|by rewrite lookup_delete_eq].
  - destruct (Hf s' Hn) as [-> ->].
    assert (match e with Some e => <[s := e]> (streams d) | None => delete s (streams d) end !! s'
            = streams d !! s') as ->.
    { destruct e; [by rewrite lookup_insert_ne|by rewrite lookup_delete_ne]. }
    by eapply stream_rel_mono, Hr.
Qed.

(** ** Each operation: it aborts, or answers and keeps the relation *)

Definition op_refines (grace : Z) (σ : DemandSpec) (op : DemandOp) (r : outcome (DemandOut * RecordingDemand)) : Prop :=
  (r = Panic ∧ aborts grace σ op)
  ∨ (∃ out d', r = Ret (out, d') ∧ ¬ aborts grace σ op ∧ out_ok σ op out ∧ refines grace (spec_step grace σ op) d').

Lemma acquire_refines grace σ d s :
  refines grace σ d → op_refines grace σ (OpAcquire s) (demand_exec d (OpAcquire s)).
Proof.
  intros Hr. cbn [demand_exec]. unfold acquire. destruct (str_is_empty s) eqn:Hs.
  { left. split; [done|]. left. by destruct s. }
  assert (s ≠ "") as Hne by (by destruct s). destruct (entry_rel grace σ d s Hr) as [Hv Hl].
  rewrite Hv. unfold checked_add. destruct (guard_count σ s + 1 <=? usize_max) eqn:Hm; reflect_bools.
  2:{ left. split; [done|]. right. lia. }
  right. eexists _, _. split; [done|]. split; [intros [?|?]; [done|lia]|]. split; [done|].
  apply (refines_set grace σ _ d s (Some (mk_demand (guard_count σ s + 1) (lease_until (demand_entry d s)))));
    [done|simpl; lia| |].
  - intros s' Hn. simpl. rewrite guard_count_cons, bool_decide_false by done. split; [lia|done].
  - cbn [spec_step clock leases op_now guards]. rewrite guard_count_cons, bool_decide_true, Z.max_id by done.
    split; [done|exact Hl].
Qed.

Lemma renew_refines grace σ d s ttl now :
  refines grace σ d → op_refines grace σ (OpRenew s ttl now) (demand_exec d (OpRenew s ttl now)).
Proof.
  intros Hr. cbn [demand_exec]. unfold renew_at, instant_checked_add. destruct (str_is_empty s) eqn:Hs.
  { left. split; [done|]. left. by destruct s. }
  assert (s ≠ "") as Hne by (by destruct s). destruct (now + ttl <=? instant_max) eqn:Hm; reflect_bools.
  2:{ left. split; [done|]. right. lia. }
  right. eexists _, _. split; [done|]. split; [intros [?|?]; [done|lia]|]. split; [done|].
  apply (refines_set grace σ _ d s (Some (extend_lease (demand_entry d s) (now + ttl)))); [done|simpl; lia| |].
  - intros s' Hn. simpl. unfold spec_lease. by rewrite lookup_insert_ne.
  - cbn [spec_step leases guards clock op_now]. unfold spec_lease. rewrite lookup_insert_eq.
    apply stream_rel_extend. apply (stream_rel_mono (clock σ)); [lia|]. exact (entry_rel grace σ d s Hr).
Qed.

Lemma active_refines grace σ d s now :
  refines grace σ d → op_refines grace σ (OpActive s now) (demand_exec d (OpActive s now)).
Proof.
  intros Hr. pose proof Hr as (Hg & Hs). specialize (Hs s). right. cbn [demand_exec].
  unfold is_active_at. destruct (streams d !! s) as [e|] eqn:He.
  - eexists _, _. split; [done|]. split; [tauto|]. split.
    { split; [by apply live_sound|by apply live_complete]. }
    destruct (demand_live now e) eqn:Ha; cbn [negb]; [apply refines_clock; [cbn; lia|done]|].
    apply (refines_set grace σ _ d s None); [done|simpl; lia|done|].
    eapply stream_rel_forget; [| |apply guard_count_nonneg|exact Hs|exact Ha]; simpl; lia.
  - eexists _, _. split; [done|]. split; [tauto|]. split; [|apply refines_clock; [cbn; lia|done]].
    split; [done|]. intros H. by destruct (absent_inactive _ _ _ Hs H).
Qed.

Lemma count_refines grace σ d s : refines grace σ d → viewer_count d s = guard_count σ s.
Proof.
  intros (_ & Hs). specialize (Hs s). unfold viewer_count.
  destruct (streams d !! s); simpl in Hs; naive_solver.
Qed.

(** Dropping a guard: the entry with one viewer less, its lease extended by the
    grace when it was the last. *)
Lemma release_refines grace σ d s now :
  refines grace σ d → s ∈ guards σ → op_refines grace σ (OpDrop s now) (demand_exec d (OpDrop s now)).
Proof.
  intros Hr Hin. pose proof Hr as (Hg & Hs). specialize (Hs s).
  set (σ' := spec_step grace σ (OpDrop s now)).
  assert (∀ s', guard_count σ' s' = guard_count σ s' - (if bool_decide (s = s') then 1 else 0)) as Hcount.
  { intros s'. by apply guard_count_remove. }
  assert (∀ s', s' ≠ s → guard_count σ' s' = guard_count σ s' ∧ leases σ' !! s' = leases σ !! s') as Hframe.
  { intros s' Hn. rewrite Hcount, bool_decide_false by done. split; [lia|].
    unfold σ'. simpl. split_match; [|done]. unfold spec_lease. by rewrite lookup_insert_ne. }
  specialize (Hcount s). rewrite bool_decide_true in Hcount by done.
  apply guard_count_elem in Hin as Hpos. cbn [demand_exec]. unfold release_at.
  destruct (streams d !! s) as [e|]; [|destruct Hs as [Hz _]; lia].
  apply (stream_rel_mono _ (clock σ')) in Hs; [|cbn; lia]. destruct Hs as [Hv Hl].
  rewrite (proj2 (Z.leb_gt _ _)) by lia. cbn [viewers lease_until]. rewrite Hg, Hv.
  set (e1 := mk_demand (guard_count σ s - 1) (lease_until e)).
  assert (stream_rel (clock σ') (guard_count σ' s) (leases σ !! s) (Some e1)) as Hr1.
  { rewrite Hcount. split; [done|exact Hl]. }
  assert ((guard_count σ s - 1 =? 0) = (guard_count σ s =? 1)) as ->.
  { apply eq_true_iff_eq. rewrite !Z.eqb_eq. lia. }
  assert (∀ e2, stream_rel (clock σ') (guard_count σ' s) (leases σ' !! s) (Some e2) →
    ¬ aborts grace σ (OpDrop s now) →
    op_refines grace σ (OpDrop s now) (Ret (OutUnit,
      if (viewers e2 =? 0) && is_none_or (λ until, until <=? now) (lease_until e2)
      then remove_stream d s else set_stream d s e2))) as Hend.
  { intros e2 He2 Hna. right. eexists _, _. split; [done|]. split; [done|]. split; [done|]. fold σ'. split_match.
    - apply (refines_set grace σ σ' d s None); [done|cbn; lia|done|].
      eapply (stream_rel_forget _ _ now); [reflexivity|cbn; lia|apply guard_count_nonneg|exact He2|].
      reflect_bools. unfold demand_live. apply orb_false_iff. split; [apply Z.ltb_ge; lia|].
      destruct (lease_until e2); cbn in *; [|done]. reflect_bools. apply Z.ltb_ge. lia.
    - apply (refines_set grace σ σ' d s (Some e2)); [done|cbn; lia|done..]. }
  assert (leases σ' = if (guard_count σ s =? 1) && negb (grace =? 0)
         then spec_lease σ s (now + grace) else leases σ) as Hls by done.
  destruct ((guard_count σ s =? 1) && negb (grace =? 0)) eqn:Hlast; cbn [obind].
  - unfold instant_checked_add. apply andb_true_iff in Hlast as [Hone Hz]. reflect_bools.
    destruct (now + grace <=? instant_max) eqn:Hm; reflect_bools; cbn [obind].
    + apply Hend; [|intros (_ & _ & ?); lia]. rewrite Hls. unfold spec_lease. rewrite lookup_insert_eq.
      by apply stream_rel_extend.
    + left. split; [done|]. split_and!; [done..|lia].
  - apply Hend; [by rewrite Hls|]. intros (Hone & Hz & _).
    apply andb_false_iff in Hlast as [Hf|Hf]; reflect_bools; done.
Qed.

(** ** The health snapshot *)

Lemma count_partition (ks gs : list string) :
  NoDup ks → (∀ g, g ∈ gs → g ∈ ks) →
  zsum (λ k, vec_len (filter (λ g, g = k) gs)) ks = vec_len gs.
Proof.
  intros Hnd. induction gs as [|g gs IH]; intros Hin.
  { clear. unfold vec_len. induction ks; simpl in *; lia. }
  assert (∀ k, vec_len (filter (λ g, g = k) (g :: gs))
    = (if bool_decide (g = k) then 1 else 0) + vec_len (filter (λ g, g = k) gs)) as Hk.
  { intros k. unfold vec_len. rewrite filter_cons.
    destruct (decide (g = k)); [rewrite bool_decide_true by done|rewrite bool_decide_false by done];
      cbn [length]; lia. }
  assert (∀ l, zsum (λ k, vec_len (filter (λ g, g = k) (g :: gs))) l =
    zsum (λ k, if bool_decide (g = k) then 1 else 0) l + zsum (λ k, vec_len (filter (λ g, g = k) gs)) l)
    as Hsplit.
  { induction l as [|k l IHl]; [done|]. rewrite !zsum_cons, IHl, Hk. lia. }
  rewrite Hsplit, IH by (intros; apply Hin; by right).
  assert (zsum (λ k, if bool_decide (g = k) then 1 else 0) ks = 1) as ->;
    [|unfold vec_len; cbn [length]; lia].
  specialize (Hin g ltac:(by left)). clear -Hnd Hin.
  assert (∀ l, g ∉ l → zsum (λ k, if bool_decide (g = k) then 1 else 0) l = 0) as Hz.
  { induction l as [|x l IHl]; [done|]. rewrite not_elem_of_cons. intros [Hx Hl].
    rewrite zsum_cons, IHl, bool_decide_false by done. lia. }
  induction Hnd as [|k ks Hk Hnd IH]; [by apply not_elem_of_nil in Hin|]. rewrite zsum_cons.
  destruct (decide (g = k)) as [->|Hne].
  - rewrite bool_decide_true, Hz by done. lia.
  - rewrite bool_decide_false, IH; [lia| |done]. by apply elem_of_cons in Hin as [?|?].
Qed.

Lemma sum_viewers_spec acc l :
  Forall (λ r, 0 ≤ sh_viewers r) l → 0 ≤ acc →
  sum_viewers acc l = if acc + zsum sh_viewers l <=? usize_max then Ret (acc + zsum sh_viewers l) else
    match l with [] => Ret acc | _ => Panic end.
Proof.
  intros Hf. revert acc. induction Hf as [|r l Hr Hf IH]; intros acc Ha; cbn [sum_viewers].
  { rewrite zsum_nil, Z.add_0_r. by destruct (_ <=? _). }
  assert (0 ≤ zsum sh_viewers l).
  { clear -Hf. induction Hf as [|r l Hr _ IH]; [done|]. rewrite zsum_cons. lia. }
  rewrite zsum_cons in *. unfold plain_add. destruct (acc + sh_viewers r <=? usize_max) eqn:E; cbn [obind]; reflect_bools.
  - rewrite IH by lia. rewrite Z.add_assoc. destruct (_ <=? _) eqn:E2; [done|]. destruct l; [|done].
    rewrite zsum_nil in E2. reflect_bools. lia.
  - by rewrite (proj2 (Z.leb_gt _ _)) by lia.
Qed.

Lemma retained_lookup σ d grace now s e :
  refines grace σ d →
  filter (λ kv, demand_live now (snd kv) = true) (streams d) !! s = Some e →
  stream_rel (clock σ) (guard_count σ s) (leases σ !! s) (Some e) ∧ spec_active σ s now.
Proof.
  intros (_ & Hs) [He Hl]%map_lookup_filter_Some. specialize (Hs s). rewrite He in Hs.
  split; [apply Hs|]. by eapply live_sound.
Qed.
Lemma active_retained σ d grace now s :
  refines grace σ d → spec_active σ s (Z.max (clock σ) now) →
  ∃ e, filter (λ kv, demand_live now (snd kv) = true) (streams d) !! s = Some e.
Proof.
  intros (_ & Hs) Ha. specialize (Hs s).
  destruct (streams d !! s) as [e|] eqn:He; [|by destruct (absent_inactive _ _ _ Hs Ha)].
  exists e. apply map_lookup_filter_Some. split; [done|]. simpl. by eapply live_complete.
Qed.

(** Keeping the live entries keeps the relation. *)
Lemma retain_refines grace σ d now :
  refines grace σ d →
  refines grace (mk_spec (guards σ) (leases σ) (Z.max (clock σ) now))
    (mk_registry (inactivity_grace d) (filter (λ kv, demand_live now (snd kv) = true) (streams d))).
Proof.
  intros (Hg & Hs). split; [done|]. intros s. cbn [clock leases streams].
  change (guard_count _ s) with (guard_count σ s). specialize (Hs s). rewrite map_lookup_filter.
  assert (clock σ ≤ Z.max (clock σ) now) as Hc by lia.
  destruct (streams d !! s) as [e|]; cbn [mbind option_bind]; [|exact (stream_rel_mono _ _ _ _ _ Hc Hs)].
  destruct (demand_live now e) eqn:Hd; [rewrite option_guard_True by done|rewrite option_guard_False by (cbn; by rewrite Hd)].
  - exact (stream_rel_mono _ _ _ _ _ Hc Hs).
  - eapply stream_rel_forget; [exact Hc| |apply guard_count_nonneg|exact Hs|exact Hd]; lia.
Qed.

Lemma stream_report_ok grace σ d now k e :
  refines grace σ d → filter (λ kv, demand_live now (snd kv) = true) (streams d) !! k = Some e →
  report_ok σ now (stream_report now (k, e)).
Proof.
  intros Hr He. destruct (retained_lookup σ d grace now k e Hr He) as [(Hv & Hl & Hle) _].
  unfold report_ok. cbn [stream_report sh_viewers sh_stream_id lease_remaining_ms fst snd]. split; [done|]. split.
  - intros l Hla Hlt. destruct Hl as [->|[Ho _]]; [|specialize (Ho l Hla); lia]. rewrite Hla.
    unfold checked_duration_since. by rewrite (proj2 (Z.leb_le _ _)) by lia.
  - intros ms Hms. destruct (lease_until e) as [l|]; [|done]. destruct (Hle l eq_refl) as (l' & ? & ?).
    exists l'. split; [done|]. unfold checked_duration_since in Hms.
    destruct (now <=? l) eqn:Hn; [reflect_bools; lia|done].
Qed.

Lemma report_ids now (l : list (string * StreamDemand)) :
  sh_stream_id <$> (stream_report now <$> l) = (fst <$> l).
Proof. rewrite <-list_fmap_compose. by apply list_fmap_ext. Qed.

Lemma health_refines grace σ d now :
  refines grace σ d → op_refines grace σ (OpHealth now) (demand_exec d (OpHealth now)).
Proof.
  intros Hr. cbn [demand_exec]. unfold health_snapshot. cbn [streams inactivity_grace].
  pose proof (retain_refines grace σ d now Hr) as Hr'.
  set (m := filter (λ kv, demand_live now (snd kv) = true) (streams d)) in *.
  set (rs := stream_report now <$> btree_iter m).
  assert (∀ s, s ∈ sh_stream_id <$> rs ↔ ∃ e, m !! s = Some e) as Hids.
  { intros s. unfold rs. rewrite report_ids, list_elem_of_fmap. split.
    - intros ([k e] & -> & He%btree_iter_elem). by exists e.
    - intros [e He]. exists (s, e). split; [done|]. by apply btree_iter_elem. }
  assert (∀ s, spec_active σ s (Z.max (clock σ) now) → s ∈ sh_stream_id <$> rs) as Hall.
  { intros s Ha. apply Hids. by eapply active_retained. }
  assert (Forall (report_ok σ now) rs) as Hv.
  { unfold rs. apply Forall_fmap, Forall_forall. intros [k e] He%btree_iter_elem. by eapply stream_report_ok. }
  assert (NoDup (sh_stream_id <$> rs)) as Hnd.
  { unfold rs. rewrite report_ids. apply btree_iter_NoDup. }
  assert (zsum sh_viewers rs = vec_len (guards σ)) as Hsum.
  { rewrite <-(count_partition (sh_stream_id <$> rs) (guards σ)); [|done|].
    - clear -Hv. induction Hv as [|r l [Hr _] Hv IH]; [done|].
      rewrite fmap_cons, !zsum_cons, IH, Hr. done.
    - intros g Hg. apply Hall. by left. }
  rewrite sum_viewers_spec, Z.add_0_l, Hsum; [|eapply Forall_impl; [exact Hv|]; intros r [-> _]; apply guard_count_nonneg|done].
  destruct (vec_len (guards σ) <=? usize_max) eqn:Hm; reflect_bools; cbn [obind].
  2:{ left. split; [|exact Hm]. destruct rs; [|done]. rewrite zsum_nil in Hsum. unfold usize_max, u64_max in *. lia. }
  right. eexists _, _. split; [done|]. split; [intros Hx; cbn in Hx; lia|]. split; [|exact Hr'].
  cbn [out_ok total_viewers active_streams leased_streams reports]. do 3 (split; [done|]). split.
  - unfold rs. pose proof (btree_iter_sorted m) as Hs. clear -Hs.
    induction Hs as [|kv l Hs IH Hf]; [constructor|]. rewrite fmap_cons. constructor; [done|].
    by apply Forall_fmap.
  - split; [done|]. split; [|done]. intros s [e He]%Hids. by eapply retained_lookup.
Qed.

Lemma exec_refines grace σ d op :
  refines grace σ d → match op with OpDrop s _ => s ∈ guards σ | _ => True end →
  op_refines grace σ op (demand_exec d op).
Proof.
  intros Hr Hin. destruct op as [s|s now|s ttl now|s now|s|now].
  - by apply acquire_refines.
  - by apply release_refines.
  - by apply renew_refines.
  - by apply active_refines.
  - right. eexists _, _. split; [done|]. split; [tauto|]. split; [by eapply count_refines|].
    apply refines_clock; [cbn; lia|done].
  - by apply health_refines.
Qed.

Definition spec_init (now : Z) : DemandSpec := mk_spec [] ∅ now.
Definition spec_run (grace : Z) (σ : DemandSpec) (ops : list DemandOp) : DemandSpec :=
  foldl (spec_step grace) σ ops.

Lemma new_refines grace now : refines grace (spec_init now) (demand_new grace).
Proof. split; [done|]. intros s. split; [done|]. intros l [=]. Qed.

(** C16. The demand registry refines the abstract one, under any interleaving of guards
    taken and dropped, lease renewals and queries, the instants in any order.  It aborts
    exactly at the first call with an empty stream id, or with a viewer count, a viewer
    total or an instant that does not fit its type.  Until then every answer is allowed by
    the abstract registry: a stream is reported active only while a guard on it is alive or
    the furthest lease it was ever given (the grace started by its last guard included) is
    not over at the caller's instant; it is always reported active when that lease is not
    over at the latest instant seen by any caller either; so renewing never shortens a
    lease; and counts and health reports show exactly the guards alive and, for a lease
    that no instant seen is past, exactly the time that remains.  The one hypothesis is
    that a guard is dropped once. *)
Theorem demand_refines grace t0 ops :
  drops_alive grace (spec_init t0) ops →
  (∃ outs d, demand_run (demand_new grace) ops = Ret (outs, d) ∧ outs_ok grace (spec_init t0) ops outs)
  ∨ (demand_run (demand_new grace) ops = Panic
     ∧ ∃ before op after outs d, ops = before ++ op :: after
       ∧ demand_run (demand_new grace) before = Ret (outs, d) ∧ outs_ok grace (spec_init t0) before outs
       ∧ aborts grace (spec_run grace (spec_init t0) before) op).
Proof.
  generalize (new_refines grace t0).
  generalize (demand_new grace), (spec_init t0). induction ops as [|op ops IH]; intros d σ Hr Hok.
  { left. by eexists [], d. }
  destruct Hok as [Hop Hok]. cbn [demand_run].
  destruct (exec_refines grace σ d op Hr Hop) as [[-> Ha]|(out & d' & He & Hna & Hout & Hr')].
  { right. split; [done|]. exists [], op, ops, [], d. by split_and!. }
  rewrite He. cbn [obind]. destruct (IH d' _ Hr' Hok)
    as [(outs & d'' & -> & Houts)|(-> & before & op' & after & outs & d'' & -> & Hb & Houts & Ha)].
  - left. exists (out :: outs), d''. by split.
  - right. split; [done|]. exists (op :: before), op', after, (out :: outs), d''. split; [done|].
    split; [|done]. cbn [demand_run]. rewrite He. cbn [obind]. by rewrite Hb.
Qed.

(** A lease renewed at instant 100 for 5 is found over at 106 and forgotten; a caller whose
    clock was read at 104 then finds the stream inactive, and a last guard dropped too
    close to the end of time aborts. *)
Definition demo_ops : list DemandOp :=
  [OpAcquire "a"; OpRenew "b" 5 100; OpActive "b" 106; OpActive "b" 104; OpDrop "a" 110; OpActive "a" 139;
   OpHealth 139; OpAcquire "a"; OpDrop "a" instant_max; OpCount "a"].

Lemma demand_refines_witness :
  demand_run (demand_new 30) demo_ops = Panic
  ∧ ∃ before op after outs d, demo_ops = before ++ op :: after
    ∧ demand_run (demand_new 30) before = Ret (outs, d) ∧ outs_ok 30 (spec_init 100) before outs
    ∧ aborts 30 (spec_run 30 (spec_init 100) before) op.
Proof.
  assert (demand_run (demand_new 30) demo_ops = Panic) as Hp by (vm_compute; reflexivity).
  destruct (demand_refines 30 100 demo_ops) as [(outs & d & Hr & _)|H].
  - cbn. repeat split; by left.
  - rewrite Hp in Hr. discriminate Hr.
  - exact H.
Defined.
