(* ===== verification/Safety.v ===== *)
(** * Storage safety

    [src/storage/safety.rs]: free-space and archive-cap evaluation, which decides
    whether recordings have to be deleted and down to how many bytes, and the
    health registry that records cleanup runs and pauses recording after one
    fails.  Sizes are [u64]; [unix_time_ms] is an argument of the operations that
    read the clock.  Querying the filesystem ([filesystem_capacity]) is I/O. *)

From S2P Require Import Prelude.

Definition MAX_ERROR_CHARS : nat := 240.

Record StorageSafetyPolicy := mk_safety_policy {
  archive_max_bytes : Z;
  minimum_free_bytes : Z;
  maximum_used_percent : option Z;
  policy_warning_free_bytes : Z;
  policy_critical_free_bytes : Z;
  cleanup_hysteresis_bytes : Z
}.

Record FilesystemCapacity := mk_capacity {
  total_bytes : Z;
  available_bytes : Z;
  keeppeek_bytes : Z
}.

Inductive StoragePressure := Normal | Warning | Critical.
Inductive StorageRecordingState := Active | Degraded | Paused.
Inductive StorageCleanupTrigger := Startup | SegmentFinalized | Periodic.
Inductive StorageCleanupReason := ArchiveCap | FilesystemHeadroom | Combined | Reconciliation.

#[global] Instance StorageRecordingState_eq_dec : EqDecision StorageRecordingState.
Proof. solve_decision. Defined.
#[global] Instance StoragePressure_eq_dec : EqDecision StoragePressure.
Proof. solve_decision. Defined.

Record StorageSafetyEvaluation := mk_evaluation {
  pressure : StoragePressure;
  cleanup_required : bool;
  effective_limit_bytes : option Z;
  cleanup_target_bytes : option Z;
  warning_free_bytes : Z;
  critical_free_bytes : Z;
  recovery_free_bytes : Z;
  cleanup_reason : option StorageCleanupReason
}.

Definition minimum_limit (left right : option Z) : option Z :=
  match left, right with
  | Some l, Some r => Some (Z.min l r)
  | Some l, None | None, Some l => Some l
  | None, None => None
  end.

Definition percent_of (value percent : Z) : outcome Z :=
  let percent := Z.min percent 100 in
  let! whole := plain_mul u64_max (value / 100) percent in
  let! part := plain_mul u64_max (value mod 100) percent in
  plain_add u64_max whole (part / 100).

Definition then_some {A : Type} (b : bool) (a : A) : option A := if b then Some a else None.

(** [maximum_used_percent.map_or(0, ...)]. *)
Definition percent_free (p : StorageSafetyPolicy) (total : Z) : outcome Z :=
  match maximum_used_percent p with
  | None => Ret 0
  | Some percent =>
      let! used := percent_of total percent in
      Ret (saturating_sub total used)
  end.

Definition evaluate (p : StorageSafetyPolicy) (c : FilesystemCapacity)
    : outcome StorageSafetyEvaluation :=
  let critical := Z.max (policy_critical_free_bytes p) (minimum_free_bytes p) in
  let configured_warning :=
    if (policy_warning_free_bytes p =? 0) && (0 <? critical)
    then saturating_add u64_max critical (cleanup_hysteresis_bytes p)
    else Z.max (policy_warning_free_bytes p) critical in
  let! percent_free_bytes := percent_free p (total_bytes c) in
  let warning := Z.max configured_warning percent_free_bytes in
  let has_free_space_limit := 0 <? warning in
  let available := Z.min (available_bytes c) (total_bytes c) in
  let keeppeek := Z.min (keeppeek_bytes c) (total_bytes c) in
  let other_used := saturating_sub (saturating_sub (total_bytes c) available) keeppeek in
  let archive_limit := then_some (0 <? archive_max_bytes p) (archive_max_bytes p) in
  let filesystem_limit :=
    then_some has_free_space_limit
      (saturating_sub (saturating_sub (total_bytes c) other_used) warning) in
  let archive_exceeded := is_some_and (λ limit, limit <? keeppeek) archive_limit in
  let free_space_exceeded := has_free_space_limit && (available <? warning) in
  let required := archive_exceeded || free_space_exceeded in
  let reason :=
    match archive_exceeded, free_space_exceeded with
    | true, true => Some Combined
    | true, false => Some ArchiveCap
    | false, true => Some FilesystemHeadroom
    | false, false => None
    end in
  let recovery :=
    if has_free_space_limit
    then Z.min (saturating_add u64_max warning (cleanup_hysteresis_bytes p)) (total_bytes c)
    else 0 in
  let archive_target :=
    (λ limit, saturating_sub limit (cleanup_hysteresis_bytes p)) <$> archive_limit in
  let filesystem_target :=
    then_some has_free_space_limit
      (saturating_sub (saturating_sub (total_bytes c) other_used) recovery) in
  let target :=
    then_some required (unwrap_or (minimum_limit archive_target filesystem_target) keeppeek) in
  let pr :=
    if (0 <? critical) && (available <? critical) then Critical
    else if required then Warning
    else Normal in
  Ret (mk_evaluation pr required (minimum_limit archive_limit filesystem_limit) target
         warning critical recovery reason).

(** ** The health registry *)

Record StorageSafetyHealthSnapshot := mk_snapshot {
  s_pressure : StoragePressure;
  recording_state : StorageRecordingState;
  s_total_bytes : option Z;
  s_available_bytes : option Z;
  s_keeppeek_bytes : option Z;
  s_effective_limit_bytes : option Z;
  s_cleanup_target_bytes : option Z;
  s_warning_free_bytes : Z;
  s_critical_free_bytes : Z;
  s_recovery_free_bytes : Z;
  last_evaluation_at_ms : option Z;
  last_evaluation_trigger : option StorageCleanupTrigger;
  cleanup_running : bool;
  last_cleanup_started_at_ms : option Z;
  last_cleanup_ended_at_ms : option Z;
  last_cleanup_files_removed : Z;
  last_cleanup_bytes_removed : Z;
  last_cleanup_reason : option StorageCleanupReason;
  last_failure_at_ms : option Z;
  last_failure : option string;
  last_recovered_at_ms : option Z
}.

Definition snapshot_default : StorageSafetyHealthSnapshot :=
  mk_snapshot Normal Active None None None None None 0 0 0 None None false None None 0 0
    None None None None.

Definition state_of_pressure (p : StoragePressure) : StorageRecordingState :=
  match p with
  | Normal => Active
  | Warning | Critical => Degraded
  end.

(** [now1] and [now2] are the two readings of the clock. *)
Definition observe (s : StorageSafetyHealthSnapshot) (trigger : StorageCleanupTrigger)
    (c : FilesystemCapacity) (e : StorageSafetyEvaluation) (now1 now2 : Z)
    : StorageSafetyHealthSnapshot :=
  let was_paused := bool_decide (recording_state s = Paused) in
  let state := if negb (cleanup_running s) then state_of_pressure (pressure e)
               else recording_state s in
  mk_snapshot (pressure e) state (Some (total_bytes c)) (Some (available_bytes c))
    (Some (keeppeek_bytes c)) (effective_limit_bytes e) (cleanup_target_bytes e)
    (warning_free_bytes e) (critical_free_bytes e) (recovery_free_bytes e)
    (Some now1) (Some trigger) (cleanup_running s) (last_cleanup_started_at_ms s)
    (last_cleanup_ended_at_ms s) (last_cleanup_files_removed s) (last_cleanup_bytes_removed s)
    (last_cleanup_reason s) (last_failure_at_ms s) (last_failure s)
    (if negb (cleanup_running s) && (was_paused && bool_decide (state = Active))
     then Some now2 else last_recovered_at_ms s).

Definition cleanup_started (s : StorageSafetyHealthSnapshot) (reason : StorageCleanupReason)
    (now : Z) : StorageSafetyHealthSnapshot :=
  mk_snapshot (s_pressure s) Degraded (s_total_bytes s) (s_available_bytes s) (s_keeppeek_bytes s)
    (s_effective_limit_bytes s) (s_cleanup_target_bytes s) (s_warning_free_bytes s)
    (s_critical_free_bytes s) (s_recovery_free_bytes s) (last_evaluation_at_ms s)
    (last_evaluation_trigger s) true (Some now) None 0 0 (Some reason)
    (last_failure_at_ms s) (last_failure s) (last_recovered_at_ms s).

Definition cleanup_finished (s : StorageSafetyHealthSnapshot) (files bytes now : Z)
    : StorageSafetyHealthSnapshot :=
  mk_snapshot (s_pressure s) (state_of_pressure (s_pressure s)) (s_total_bytes s)
    (s_available_bytes s) (s_keeppeek_bytes s) (s_effective_limit_bytes s)
    (s_cleanup_target_bytes s) (s_warning_free_bytes s) (s_critical_free_bytes s)
    (s_recovery_free_bytes s) (last_evaluation_at_ms s) (last_evaluation_trigger s) false
    (last_cleanup_started_at_ms s) (Some now) files bytes (last_cleanup_reason s)
    (last_failure_at_ms s) (last_failure s) (last_recovered_at_ms s).

Definition cleanup_progress (s : StorageSafetyHealthSnapshot) (bytes : Z)
    : StorageSafetyHealthSnapshot :=
  if bytes =? 0 then s
  else
    mk_snapshot (s_pressure s) (recording_state s) (s_total_bytes s) (s_available_bytes s)
      (s_keeppeek_bytes s) (s_effective_limit_bytes s) (s_cleanup_target_bytes s)
      (s_warning_free_bytes s) (s_critical_free_bytes s) (s_recovery_free_bytes s)
      (last_evaluation_at_ms s) (last_evaluation_trigger s) (cleanup_running s)
      (last_cleanup_started_at_ms s) (last_cleanup_ended_at_ms s)
      (saturating_add u64_max (last_cleanup_files_removed s) 1)
      (saturating_add u64_max (last_cleanup_bytes_removed s) bytes)
      (last_cleanup_reason s) (last_failure_at_ms s) (last_failure s) (last_recovered_at_ms s).

Definition cleanup_failed (s : StorageSafetyHealthSnapshot) (error : string) (now : Z)
    : StorageSafetyHealthSnapshot :=
  mk_snapshot Critical Paused (s_total_bytes s) (s_available_bytes s) (s_keeppeek_bytes s)
    (s_effective_limit_bytes s) (s_cleanup_target_bytes s) (s_warning_free_bytes s)
    (s_critical_free_bytes s) (s_recovery_free_bytes s) (last_evaluation_at_ms s)
    (last_evaluation_trigger s) false (last_cleanup_started_at_ms s) (Some now)
    (last_cleanup_files_removed s) (last_cleanup_bytes_removed s) (last_cleanup_reason s)
    (Some now) (Some (take_chars MAX_ERROR_CHARS error)) (last_recovered_at_ms s).

Definition recording_paused (s : StorageSafetyHealthSnapshot) : bool :=
  bool_decide (recording_state s = Paused).

(** ** Evaluation *)

(** A consistent capacity: archive and free space are disjoint parts of the whole, all
    in [u64].  The archive size is a sum of the catalog and the other two come from the
    filesystem, so a report need not be consistent; see [capacity_typed]. *)
Definition capacity_ok (c : FilesystemCapacity) : Prop :=
  0 ≤ available_bytes c ∧ 0 ≤ keeppeek_bytes c
  ∧ available_bytes c + keeppeek_bytes c ≤ total_bytes c ∧ total_bytes c ≤ u64_max.

Definition policy_ok (p : StorageSafetyPolicy) : Prop :=
  in_u64 (archive_max_bytes p) ∧ in_u64 (minimum_free_bytes p)
  ∧ (∀ percent, maximum_used_percent p = Some percent → 0 ≤ percent ≤ u8_max)
  ∧ in_u64 (policy_warning_free_bytes p) ∧ in_u64 (policy_critical_free_bytes p)
  ∧ in_u64 (cleanup_hysteresis_bytes p).

(** The bytes the filesystem could give to the archive and the free space. *)
Definition usable (c : FilesystemCapacity) : Z := available_bytes c + keeppeek_bytes c.

(** After [freed] bytes of recordings were deleted. *)
Definition freed_capacity (c : FilesystemCapacity) (freed : Z) : FilesystemCapacity :=
  mk_capacity (total_bytes c) (available_bytes c + freed) (keeppeek_bytes c - freed).

(** The two-term formula is the exact floor, and its parts never overflow. *)
Lemma percent_of_exact value percent :
  in_u64 value → 0 ≤ percent →
  percent_of value percent = Ret (value * Z.min percent 100 / 100).
Proof.
  intros [H0 H1] Hp. unfold percent_of, plain_mul, plain_add. set (q := Z.min percent 100).
  assert (0 ≤ q ≤ 100) as Hq by lia.
  pose proof (Z.div_mod value 100 ltac:(lia)) as Hd.
  pose proof (Z.mod_pos_bound value 100 ltac:(lia)) as Hm.
  set (w := value / 100) in *. set (r := value mod 100) in *.
  assert (0 ≤ w) as Hw by (apply Z.div_pos; lia).
  assert (0 ≤ r * q ≤ 100 * r) as Hrq by nia.
  assert (w * q + r * q / 100 = value * q / 100) as Heq.
  { rewrite Hd. replace ((100 * w + r) * q) with (r * q + w * q * 100) by ring.
    rewrite Z.div_add by lia. ring. }
  assert (r * q / 100 ≤ r) as Hle by (apply Z.div_le_upper_bound; lia).
  pose proof (Z.div_pos (r * q) 100 ltac:(lia) ltac:(lia)) as Hnn.
  unfold u64_max in *.
  rewrite (proj2 (Z.leb_le _ _)) by nia. cbn [obind].
  rewrite (proj2 (Z.leb_le _ _)) by nia. cbn [obind].
  rewrite (proj2 (Z.leb_le _ _)) by nia. by rewrite Heq.
Qed.

(** The three sizes are [u64]; nothing else is known of what the filesystem and the
    catalog report. *)
Definition capacity_typed (c : FilesystemCapacity) : Prop :=
  in_u64 (total_bytes c) ∧ in_u64 (available_bytes c) ∧ in_u64 (keeppeek_bytes c).
Lemma capacity_ok_typed c : capacity_ok c → capacity_typed c.
Proof. unfold capacity_ok, capacity_typed, in_u64. lia. Qed.

Lemma percent_free_total p c :
  policy_ok p → in_u64 (total_bytes c) →
  ∃ f, percent_free p (total_bytes c) = Ret f ∧ 0 ≤ f ≤ total_bytes c.
Proof.
  intros (_ & _ & Hp & _) [H0 H1]. unfold percent_free.
  destruct (maximum_used_percent p) as [q|]; [|exists 0; split; [done|lia]].
  specialize (Hp q eq_refl). rewrite percent_of_exact by (unfold in_u64; lia). cbn [obind].
  eexists. split; [done|]. unfold saturating_sub.
  pose proof (Z.div_pos (total_bytes c * Z.min q 100) 100 ltac:(nia) ltac:(lia)). lia.
Qed.

(** On any sizes an evaluation returns, names a reason and a target exactly when it
    requires a cleanup, and is at normal pressure exactly when it does not. *)
Lemma evaluate_total p c :
  policy_ok p → capacity_typed c →
  ∃ e, evaluate p c = Ret e
    ∧ (pressure e = Normal ↔ cleanup_required e = false)
    ∧ (cleanup_required e = true ↔ is_Some (cleanup_reason e))
    ∧ (cleanup_required e = true ↔ is_Some (cleanup_target_bytes e)).
Proof.
  intros Hp (Ht & Ha & Hk). destruct (percent_free_total p c Hp Ht) as (pf & Hpf & Hpf0).
  destruct Hp as (Hm1 & Hm & _ & Hw & Hcr & Hh). unfold in_u64 in *. unfold evaluate. rewrite Hpf. cbn [obind].
  eexists. split; [done|]. cbn [pressure cleanup_required cleanup_reason cleanup_target_bytes].
  set (critical := Z.max (policy_critical_free_bytes p) (minimum_free_bytes p)).
  set (conf := if (policy_warning_free_bytes p =? 0) && (0 <? critical) then _ else _).
  assert (critical ≤ conf) as Hconf.
  { unfold conf. split_match; unfold saturating_add; [|lia]. lia. }
  clearbody conf critical. unfold then_some. split_and!.
  1: { destruct (is_some_and _ _) eqn:E1, (0 <? Z.max conf pf) eqn:E2, (Z.min _ _ <? Z.max conf pf) eqn:E3,
         (0 <? critical) eqn:E4, (Z.min _ _ <? critical) eqn:E5; cbn; reflect_bools; try done; lia. }
  all: destruct (is_some_and _ _), (_ && _); cbn; unfold is_Some; naive_solver.
Qed.

(** Everything a caller needs of an evaluation, in terms of usable bytes. *)
Record evaluation_facts (p : StorageSafetyPolicy) (c : FilesystemCapacity)
    (e : StorageSafetyEvaluation) : Prop := mk_facts {
  facts_required :
    cleanup_required e = true ↔
    (0 < archive_max_bytes p < keeppeek_bytes c) ∨ available_bytes c < warning_free_bytes e;
  facts_warning : 0 ≤ critical_free_bytes e ≤ warning_free_bytes e;
  facts_recovery :
    recovery_free_bytes e ≤ total_bytes c
    ∧ (0 < warning_free_bytes e → Z.min (warning_free_bytes e) (total_bytes c) ≤ recovery_free_bytes e);
  facts_target :
    ∀ t, cleanup_target_bytes e = Some t →
      cleanup_required e = true ∧ 0 ≤ t ≤ keeppeek_bytes c
      ∧ (0 < archive_max_bytes p → t ≤ archive_max_bytes p)
      ∧ (0 < warning_free_bytes e → t ≤ Z.max 0 (usable c - recovery_free_bytes e));
  facts_some : cleanup_required e = true → is_Some (cleanup_target_bytes e);
  facts_reason : cleanup_required e = true ↔ is_Some (cleanup_reason e);
  facts_pressure :
    (pressure e = Critical ↔ available_bytes c < critical_free_bytes e)
    ∧ (pressure e = Normal → cleanup_required e = false)
    ∧ (cleanup_required e = false → pressure e = Normal)
}.

Lemma saturating_add_u64 a b : 0 ≤ a → 0 ≤ b → a ≤ u64_max → a ≤ saturating_add u64_max a b ≤ u64_max.
Proof. unfold saturating_add. lia. Qed.

Lemma evaluate_facts p c :
  policy_ok p → capacity_ok c → ∃ e, evaluate p c = Ret e ∧ evaluation_facts p c e.
Proof.
  intros Hp Hc. destruct (percent_free_total p c Hp (proj1 (capacity_ok_typed c Hc))) as (pf & Hpf & Hpf0).
  destruct Hp as (Ha & Hm & _ & Hw & Hcr & Hh). destruct Hc as (Hc1 & Hc2 & Hc3 & Hc4).
  unfold in_u64 in *. unfold evaluate. rewrite Hpf. cbn [obind]. eexists. split; [done|].
  set (critical := Z.max (policy_critical_free_bytes p) (minimum_free_bytes p)).
  set (conf := if (policy_warning_free_bytes p =? 0) && (0 <? critical) then _ else _).
  assert (critical ≤ conf ≤ u64_max) as Hconf.
  { unfold conf. split_match; [|lia]. apply saturating_add_u64; lia. }
  rewrite !(Z.min_l (available_bytes c)), !(Z.min_l (keeppeek_bytes c)) by lia.
  set (warning := Z.max conf pf).
  assert (saturating_sub (total_bytes c)
            (saturating_sub (saturating_sub (total_bytes c) (available_bytes c)) (keeppeek_bytes c))
          = usable c) as Hus.
  { unfold saturating_sub, usable. lia. }
  rewrite !Hus. clear Hus.
  pose proof (saturating_add_u64 warning (cleanup_hysteresis_bytes p) ltac:(lia) ltac:(lia) ltac:(lia)) as Hsat.
  assert (0 ≤ critical) as Hcr0 by lia. clearbody conf. clearbody critical. clear Hpf.
  unfold then_some, usable.
  destruct (0 <? archive_max_bytes p) eqn:Ham, (0 <? warning) eqn:Hwm; reflect_bools;
    constructor; cbn; unfold saturating_sub, usable;
    repeat match goal with
    | |- context [?a <? ?b] => destruct (a <? b) eqn:?; reflect_bools; cbn
    end; try (intros ? [= <-]); unfold is_Some; intuition (try congruence; try lia; eauto);
    naive_solver.
Qed.

(** Once the archive is down to the target and the deleted bytes are free, nothing
    more has to be deleted, if the filesystem can hold the headroom at all. *)
Lemma target_restores p c e t c' e' :
  policy_ok p → capacity_ok c → capacity_ok c' →
  evaluate p c = Ret e → cleanup_target_bytes e = Some t →
  total_bytes c' = total_bytes c → usable c ≤ usable c' → keeppeek_bytes c' ≤ t →
  warning_free_bytes e ≤ usable c →
  evaluate p c' = Ret e' → cleanup_required e' = false.
Proof.
  intros Hp Hc Hc' He Ht Htot Hus Hk Hw He'.
  destruct (evaluate_facts p c Hp Hc) as (e0 & He0 & Hf).
  rewrite He in He0. injection He0 as <-.
  destruct (evaluate_facts p c' Hp Hc') as (e1 & He1 & Hf').
  rewrite He' in He1. injection He1 as <-.
  assert (warning_free_bytes e' = warning_free_bytes e) as Hww.
  { clear -He He' Htot. unfold evaluate in *. rewrite Htot in He'.
    destruct (percent_free p (total_bytes c)); [|done]. by simplify_eq/=. }
  destruct (facts_target _ _ _ Hf t Ht) as (_ & _ & Hta & Htw).
  destruct (facts_recovery _ _ _ Hf) as [_ Hr].
  pose proof (facts_warning _ _ _ Hf) as Hw0.
  apply not_true_is_false. rewrite (facts_required _ _ _ Hf'), Hww. unfold usable in *.
  intros [Hx|Hx]; [lia|].
  destruct Hc as (? & ? & ? & ?), Hc' as (? & ? & ? & ?). lia.
Qed.
