(* ===== verification/StorageCleanup.v ===== *)
(** * Storage cleanup

    [src/storage/engine.rs], [enforce_storage_limit] and the functions under it:
    the recorder evaluates the safety policy, deletes claimed recordings until the
    archive is down to the cleanup target, checks that headroom came back, and
    pauses recording when any of it fails.

    The catalog database and the filesystem answer through [World]: the results
    their calls return in one run, with the claimable recordings in claim order.
    [clock i] is the [i]-th reading of [unix_time_ms] in a run. *)

From S2P Require Import Prelude Safety.

(** A claimed recording: its catalogued size, what [remove_catalog_recording] and
    [complete_cleanup] answer for it. *)
Record CleanupCandidate := mk_candidate {
  file_bytes : Z;
  removal : result string Z;
  completion : result string unit
}.

(** [pending_cleanup_candidate]: a claim left over from an earlier run. *)
Record PendingCandidate := mk_pending {
  pend_exists : bool;
  pend_retention_expiry : bool;
  pend_file_bytes : Z;
  pend_complete : result string unit;
  pend_cancel : result string unit
}.

Record World := mk_world {
  w_catalog : bool;
  w_owner : result string bool;
  w_capacity : result string FilesystemCapacity;
  w_pending : result string (option PendingCandidate);
  w_claims : list (result string CleanupCandidate);
  w_final : result string FilesystemCapacity
}.

(** A fallible step over the shared health registry that may also abort. *)
Definition Health (A : Type) : Type :=
  StorageSafetyHealthSnapshot → outcome (result string A * StorageSafetyHealthSnapshot).

Definition hret {A : Type} (a : A) : Health A := λ s, Ret (Ok a, s).
Definition hfail {A : Type} (e : string) : Health A := λ s, Ret (Err e, s).
Definition hlift {A : Type} (r : result string A) : Health A := λ s, Ret (r, s).
Definition hmod (f : StorageSafetyHealthSnapshot → StorageSafetyHealthSnapshot) : Health unit :=
  λ s, Ret (Ok tt, f s).
Definition hpure {A : Type} (m : outcome A) : Health A := λ s, let! a := m in Ret (Ok a, s).
Definition hbind {A B : Type} (m : Health A) (k : A → Health B) : Health B :=
  λ s, let! (r, s) := m s in
       match r with
       | Ok a => k a s
       | Err e => Ret (Err e, s)
       end.
Notation "'do' x := m 'in' k" := (hbind m (λ x, k))
  (at level 10, x pattern, m at level 100, k at level 200,
   format "'[v' 'do'  x  :=  m  'in' '/' k ']'") : rust_scope.

Definition remove_cleanup_candidate (c : CleanupCandidate) : Health Z :=
  do bytes := hlift (removal c) in
  do _ := hmod (λ s, cleanup_progress s bytes) in
  do _ := hlift (completion c) in
  hret bytes.

Definition reconcile_pending_cleanup (p : StorageSafetyPolicy) (clock : nat → Z)
    (pending : result string (option PendingCandidate)) (c : FilesystemCapacity)
    : Health FilesystemCapacity :=
  do pending := hlift pending in
  match pending with
  | None => hret c
  | Some cand =>
      if negb (pend_exists cand) then
        do _ := hmod (λ s, cleanup_started s Reconciliation (clock 0%nat)) in
        do _ := hlift (pend_complete cand) in
        do _ := hmod (λ s, cleanup_finished s 1 (pend_file_bytes cand) (clock 1%nat)) in
        hret (mk_capacity (total_bytes c) (available_bytes c)
                (saturating_sub (keeppeek_bytes c) (pend_file_bytes cand)))
      else if negb (pend_retention_expiry cand) then
        do e := hpure (evaluate p c) in
        if negb (cleanup_required e) then
          do _ := hlift (pend_cancel cand) in
          hret c
        else hret c
      else hret c
  end.

(** The [while capacity.keeppeek_bytes > target_bytes] loop: one claim per turn;
    an exhausted catalog answers [None]. *)
Fixpoint cleanup_loop (target : Z) (claims : list (result string CleanupCandidate))
    (c : FilesystemCapacity) (files bytes : Z) : Health (FilesystemCapacity * Z * Z) :=
  if keeppeek_bytes c <=? target then hret (c, files, bytes)
  else
    match claims with
    | [] => hfail "no eligible finalized recording remains to restore headroom"
    | claim :: claims' =>
        do cand := hlift claim in
        do removed := remove_cleanup_candidate cand in
        cleanup_loop target claims'
          (mk_capacity (total_bytes c)
             (Z.min (saturating_add u64_max (available_bytes c) removed) (total_bytes c))
             (saturating_sub (keeppeek_bytes c) (Z.max (file_bytes cand) removed)))
          (saturating_add u64_max files (if 0 <? removed then 1 else 0))
          (saturating_add u64_max bytes removed)
    end.

Definition finish_storage_cleanup (p : StorageSafetyPolicy) (clock : nat → Z)
    (trigger : StorageCleanupTrigger) (c : FilesystemCapacity) (files bytes : Z) : Health unit :=
  do recovered := hpure (evaluate p c) in
  do _ := hmod (λ s, observe s trigger c recovered (clock 5%nat) (clock 6%nat)) in
  if cleanup_required recovered
  then hfail "cleanup completed without restoring the configured recovery target"
  else hmod (λ s, cleanup_finished s files bytes (clock 7%nat)).

Definition ok_or {A : Type} (o : option A) (e : string) : result string A :=
  match o with Some a => Ok a | None => Err e end.

(** [capacity] is [None] in production; the [Some] case is a test hook. *)
Definition try_enforce_storage_limit (p : StorageSafetyPolicy) (clock : nat → Z) (w : World)
    (trigger : StorageCleanupTrigger) : Health unit :=
  if negb (w_catalog w) then hfail "recording catalog is unavailable for safe cleanup"
  else
    do owner := hlift (w_owner w) in
    if negb owner then hret tt
    else
      do capacity := hlift (w_capacity w) in
      do capacity := reconcile_pending_cleanup p clock (w_pending w) capacity in
      do evaluation := hpure (evaluate p capacity) in
      do _ := hmod (λ s, observe s trigger capacity evaluation (clock 2%nat) (clock 3%nat)) in
      if negb (cleanup_required evaluation) then hret tt
      else
        do reason := hlift (ok_or (cleanup_reason evaluation) "storage cleanup has no trigger reason") in
        do target := hlift (ok_or (cleanup_target_bytes evaluation) "storage cleanup has no recovery target") in
        do _ := hmod (λ s, cleanup_started s reason (clock 4%nat)) in
        do (_, files, bytes) := cleanup_loop target (w_claims w) capacity 0 0 in
        do capacity := hlift (w_final w) in
        finish_storage_cleanup p clock trigger capacity files bytes.

Definition enforce_storage_limit (p : StorageSafetyPolicy) (clock : nat → Z) (w : World)
    (trigger : StorageCleanupTrigger) (s : StorageSafetyHealthSnapshot)
    : outcome (result string unit * StorageSafetyHealthSnapshot) :=
  let! (r, s) := try_enforce_storage_limit p clock w trigger s in
  match r with
  | Ok _ => Ret (r, s)
  | Err error => Ret (r, cleanup_failed s error (clock 8%nat))
  end.

(** ** A small program logic

    [hsafe Q m K]: from a registry satisfying [Q] the step does not abort, and [K]
    holds if it succeeds.  Nothing is said of the registry after an error, which
    [enforce_storage_limit] overwrites. *)
Definition hsafe {A : Type} (Q : StorageSafetyHealthSnapshot → Prop) (m : Health A)
    (K : A → StorageSafetyHealthSnapshot → Prop) : Prop :=
  ∀ s, Q s → ∃ r s', m s = Ret (r, s') ∧ match r with Ok a => K a s' | Err _ => True end.

Lemma hsafe_bind {A B} Q (m : Health A) (k : A → Health B) K K' :
  hsafe Q m K → (∀ a, hsafe (K a) (k a) K') → hsafe Q (hbind m k) K'.
Proof.
  intros Hm Hk s Hs. destruct (Hm s Hs) as (r & s' & He & Hr). unfold hbind. rewrite He.
  cbn [obind]. destruct r as [a|e]; [by apply Hk|by eexists _, _].
Qed.
Lemma hsafe_lift {A} Q (r : result string A) : hsafe Q (hlift r) (λ a s, r = Ok a ∧ Q s).
Proof. intros s Hs. eexists _, _. split; [done|]. by destruct r. Qed.
Lemma hsafe_ret {A} (Q : _ → Prop) (a : A) (K : A → _ → Prop) : (∀ s, Q s → K a s) → hsafe Q (hret a) K.
Proof. intros HK s Hs. eexists _, _. split; [done|]. by apply HK. Qed.
Lemma hsafe_fail {A} Q e (K : A → _ → Prop) : hsafe Q (hfail e) K.
Proof. intros s Hs. by eexists _, _. Qed.
Lemma hsafe_mod (Q : _ → Prop) f (K : unit → _ → Prop) : (∀ s, Q s → K tt (f s)) → hsafe Q (hmod f) K.
Proof. intros HK s Hs. eexists _, _. split; [done|]. by apply HK. Qed.
Lemma hsafe_pure {A} Q (m : outcome A) a (K : A → _ → Prop) :
  m = Ret a → (∀ s, Q s → K a s) → hsafe Q (hpure m) K.
Proof. intros -> HK s Hs. eexists _, _. split; [done|]. by apply HK. Qed.
Lemma hsafe_pre {A} (Q Q' : _ → Prop) (m : Health A) K :
  (∀ s, Q s → Q' s) → hsafe Q' m K → hsafe Q m K.
Proof. intros HQ Hm s Hs. apply Hm. by apply HQ. Qed.
Lemma hsafe_extract {A} (P : Prop) Q (m : Health A) K :
  (P → hsafe Q m K) → hsafe (λ s, P ∧ Q s) m K.
Proof. intros Hm s [HP Hs]. by apply Hm. Qed.

(** A result that is used: destructs the lifted value into the context. *)
Ltac hstep_lift :=
  eapply hsafe_bind; [apply hsafe_lift|intros ?a; apply hsafe_extract; intros ?H].
(** No cleanup is running; the registry is idle between runs. *)
Definition idle (s : StorageSafetyHealthSnapshot) : Prop := cleanup_running s = false.
Definition running (s : StorageSafetyHealthSnapshot) : Prop := cleanup_running s = true.

Lemma progress_running s b : cleanup_running (cleanup_progress s b) = cleanup_running s.
Proof. unfold cleanup_progress. by split_match. Qed.

Lemma reconcile_safe p clock pending c :
  policy_ok p → capacity_typed c →
  (∀ cand, pending = Ok (Some cand) → 0 ≤ pend_file_bytes cand) →
  hsafe idle (reconcile_pending_cleanup p clock pending c) (λ c' s, capacity_typed c' ∧ idle s).
Proof.
  intros Hp Hc Hb. unfold reconcile_pending_cleanup. hstep_lift.
  destruct a as [cand|]; [|by apply hsafe_ret]. specialize (Hb cand H).
  destruct (pend_exists cand); cbn [negb].
  - destruct (pend_retention_expiry cand); cbn [negb]; [by apply hsafe_ret|].
    destruct (evaluate_total p c Hp Hc) as (e & He & _).
    eapply hsafe_bind; [eapply (hsafe_pure idle _ e (λ a s, a = e ∧ idle s)); [done|done]|].
    intros e'. apply hsafe_extract. intros ->. split_match; [|by apply hsafe_ret].
    hstep_lift. by apply hsafe_ret.
  - eapply hsafe_bind; [apply (hsafe_mod idle _ (λ _ s, running s)); done|intros []].
    hstep_lift. eapply hsafe_bind; [apply (hsafe_mod running _ (λ _ s, idle s)); done|intros []].
    apply hsafe_ret. intros s Hs. split; [|done].
    destruct Hc as (? & ? & ?). unfold capacity_typed, in_u64, saturating_sub in *. simpl. lia.
Qed.

Lemma loop_safe target claims c files bytes :
  hsafe running (cleanup_loop target claims c files bytes) (λ _ s, running s).
Proof.
  revert c files bytes. induction claims as [|claim claims IH]; intros c files bytes;
    cbn [cleanup_loop]; split_match; try (by apply hsafe_ret); try apply hsafe_fail.
  hstep_lift. unfold remove_cleanup_candidate.
  eapply (hsafe_bind running _ _ (λ _ s, running s)); [|intros; apply IH].
  hstep_lift.
  eapply hsafe_bind; [apply (hsafe_mod running _ (λ _ s, running s))|intros []].
  { intros s Hs. unfold running. by rewrite progress_running. }
  hstep_lift. by apply hsafe_ret.
Qed.

Definition healthy (s : StorageSafetyHealthSnapshot) : Prop :=
  idle s ∧ recording_state s = Active ∧ s_pressure s = Normal.

Lemma finish_safe p clock trigger c files bytes :
  policy_ok p → capacity_typed c →
  hsafe running (finish_storage_cleanup p clock trigger c files bytes) (λ _ s, healthy s).
Proof.
  intros Hp Hc. unfold finish_storage_cleanup.
  destruct (evaluate_total p c Hp Hc) as (e & He & Hn & _).
  eapply hsafe_bind; [eapply (hsafe_pure running _ e (λ a s, a = e ∧ running s)); [done|done]|].
  intros e'. apply hsafe_extract. intros ->.
  eapply hsafe_bind; [apply (hsafe_mod running _ (λ _ s, s_pressure s = pressure e)); done|intros []].
  destruct (cleanup_required e) eqn:Hr; [apply hsafe_fail|]. apply hsafe_mod. intros s Hs.
  rewrite (proj2 Hn eq_refl) in Hs. unfold healthy, idle. simpl. by rewrite Hs.
Qed.

(** The types of what the World answers: sizes are [u64]. *)
Definition world_typed (w : World) : Prop :=
  (∀ c, w_capacity w = Ok c → capacity_typed c) ∧ (∀ c, w_final w = Ok c → capacity_typed c)
  ∧ (∀ cand, w_pending w = Ok (Some cand) → 0 ≤ pend_file_bytes cand).

(** The run holds the catalog's cleanup ownership. *)
Definition owns (w : World) : Prop := w_catalog w = true ∧ w_owner w = Ok true.

Lemma try_enforce_safe p clock w trigger :
  policy_ok p → world_typed w → owns w →
  hsafe idle (try_enforce_storage_limit p clock w trigger) (λ _ s, healthy s).
Proof.
  intros Hp (Hwc & Hwf & Hwp) [Hcat Hown]. unfold try_enforce_storage_limit. rewrite Hcat. cbn [negb].
  hstep_lift. assert (a = true) as -> by congruence. cbn [negb].
  hstep_lift. eapply hsafe_bind; [by apply reconcile_safe; auto|]. intros c.
  apply hsafe_extract. intros Hc. destruct (evaluate_total p c Hp Hc) as (e & He & Hn & _).
  eapply hsafe_bind; [eapply (hsafe_pure idle _ e (λ a s, a = e ∧ idle s)); [done|done]|].
  intros e'. apply hsafe_extract. intros ->.
  eapply hsafe_bind;
    [apply (hsafe_mod idle _ (λ _ s, idle s ∧ (cleanup_required e = false → healthy s)))|intros []].
  { intros s Hs. split; [done|]. intros Hr%Hn. unfold healthy, idle in *. cbn. by rewrite Hs, Hr. }
  destruct (cleanup_required e) eqn:Hr; cbn [negb].
  2:{ apply hsafe_ret. intros s [_ Hs]. by apply Hs. }
  hstep_lift. hstep_lift.
  eapply hsafe_bind; [apply (hsafe_mod _ _ (λ _ s, running s)); done|intros []].
  eapply hsafe_bind; [apply loop_safe|]. intros [[c' files] bytes].
  hstep_lift. apply finish_safe; auto.
Qed.

Lemma try_enforce_unowned p clock w trigger s :
  ¬ owns w →
  (try_enforce_storage_limit p clock w trigger s = Ret (Ok tt, s) ∧ w_owner w = Ok false)
  ∨ ∃ e, try_enforce_storage_limit p clock w trigger s = Ret (Err e, s).
Proof.
  unfold owns, try_enforce_storage_limit. intros Hn.
  destruct (w_catalog w); cbn [negb]; [|right; by eexists]. unfold hbind, hlift.
  destruct (w_owner w) as [[]|e]; cbn; [naive_solver|by left|right; by eexists].
Qed.
#[global] Instance owns_dec w : Decision (owns w).
Proof.
  unfold owns. destruct (w_catalog w), (w_owner w) as [[]|]; (left; done) || (right; naive_solver).
Defined.

(** C17. A cleanup run has a definite verdict, whatever sizes the filesystem and the
    catalog report, also when they contradict each other.  Started with no cleanup
    marked as running (as a new registry is, and as every run leaves it), it never aborts
    and leaves no cleanup marked as running; recording is paused exactly when the run
    failed, whatever failed, with the error kept (its first 240 characters); a run that
    owned the catalog and succeeded leaves recording active at normal pressure, also when
    it was paused before; a run that found another owner changes nothing. *)
Theorem cleanup_verdict p clock w trigger s :
  policy_ok p → world_typed w → cleanup_running s = false →
  ∃ r s', enforce_storage_limit p clock w trigger s = Ret (r, s')
    ∧ cleanup_running s' = false
    ∧ match r with
      | Err e => recording_paused s' = true ∧ s_pressure s' = Critical
                 ∧ last_failure s' = Some (take_chars MAX_ERROR_CHARS e)
      | Ok _ =>
          match w_owner w with
          | Ok false => s' = s
          | _ => recording_paused s' = false ∧ recording_state s' = Active ∧ s_pressure s' = Normal
          end
      end.
Proof.
  intros Hp Hw Hs. unfold enforce_storage_limit. destruct (decide (owns w)) as [Hown|Hown].
  - destruct (try_enforce_safe p clock w trigger Hp Hw Hown s Hs) as (r & s' & -> & Hr).
    cbn [obind]. destruct r as [[]|e]; eexists _, _; (split; [done|]); [|done].
    destruct Hr as (Hi & Ha & Hn), Hown as [_ ->]. unfold recording_paused. by rewrite Ha.
  - destruct (try_enforce_unowned p clock w trigger s Hown) as [[-> Ho]|[e ->]]; cbn [obind];
      eexists _, _; (split; [done|]); [by rewrite Ho|done].
Qed.

(** ** Restoring headroom *)

(** A claim the filesystem and the catalog honour. *)
Definition honest (size : Z) : result string CleanupCandidate :=
  Ok (mk_candidate size (Ok size) (Ok tt)).

Lemma loop_honest t sizes c files bytes s :
  0 ≤ t → Forall (λ n, 0 ≤ n) sizes → 0 ≤ bytes →
  zsum id sizes ≤ keeppeek_bytes c → bytes + zsum id sizes ≤ u64_max →
  keeppeek_bytes c - zsum id sizes ≤ t → running s →
  ∃ n c' files' s',
    cleanup_loop t (honest <$> sizes) c files bytes s
      = Ret (Ok (c', files', bytes + zsum id (take n sizes)), s')
    ∧ running s' ∧ (n ≤ length sizes)%nat
    ∧ keeppeek_bytes c - zsum id (take n sizes) ≤ t
    ∧ (∀ m, (m < n)%nat → t < keeppeek_bytes c - zsum id (take m sizes)).
Proof.
  intros Ht Hf. revert c files bytes s.
  induction Hf as [|x sizes Hx Hf IH]; intros c files bytes s Hb Hsum Hmax Hle Hs.
  { exists 0%nat, c, files, s. rewrite zsum_nil in *. cbn [fmap list_fmap cleanup_loop take].
    rewrite (proj2 (Z.leb_le _ _)), zsum_nil, Z.add_0_r by lia.
    split_and!; [done|done|done|lia|]. intros m Hm. lia. }
  assert (0 ≤ zsum id sizes) as Hnn.
  { clear -Hf. induction Hf as [|y l Hy _ IH]; [done|]. rewrite zsum_cons. unfold id in *. lia. }
  rewrite zsum_cons in *. change (id x) with x in *. cbn [fmap list_fmap cleanup_loop].
  destruct (keeppeek_bytes c <=? t) eqn:Hdone; reflect_bools.
  { exists 0%nat, c, files, s. cbn [take]. rewrite zsum_nil, Z.add_0_r.
    split_and!; [done|done|lia|lia|]. intros m Hm. lia. }
  unfold hbind at 1. unfold hlift at 1, honest at 1. cbn [obind].
  unfold remove_cleanup_candidate, hbind, hlift, hmod, hret. cbn [removal completion obind file_bytes].
  rewrite Z.max_id.
  destruct (IH (mk_capacity (total_bytes c)
      (Z.min (saturating_add u64_max (available_bytes c) x) (total_bytes c))
      (saturating_sub (keeppeek_bytes c) x))
    (saturating_add u64_max files (if 0 <? x then 1 else 0)) (saturating_add u64_max bytes x)
    (cleanup_progress s x)) as (n & c' & f' & s' & Hrun & Hr & Hn & Hreach & Hmin);
    cbn [keeppeek_bytes]; unfold saturating_add, saturating_sub in *; try lia.
  { unfold running. by rewrite progress_running. }
  exists (S n), c', f', s'. cbn [take]. rewrite zsum_cons. change (id x) with x.
  cbn [keeppeek_bytes] in *. unfold hlift, hmod, hret in Hrun.
  rewrite Hrun. split_and!; [|done|cbn; lia|lia|].
  { do 4 f_equal. lia. }
  intros [|m] Hm; cbn [take]; rewrite ?zsum_nil, ?zsum_cons; [lia|].
  change (id x) with x. specialize (Hmin m ltac:(lia)). lia.
Qed.

Lemma freed_ok c freed : capacity_ok c → 0 ≤ freed ≤ keeppeek_bytes c → capacity_ok (freed_capacity c freed).
Proof. unfold capacity_ok. simpl. lia. Qed.

(** C18. Cleanup restores headroom and deletes no more than it has to: when the
    policy asks for a cleanup, the claimable recordings suffice to reach its target
    and the filesystem can hold the warning headroom, deleting the shortest prefix
    of the claims that reaches the target makes the re-evaluation pass, so the run
    succeeds and recording is active, with exactly those bytes reported. *)
Theorem cleanup_restores p clock w trigger s c e t sizes :
  policy_ok p → capacity_ok c → evaluate p c = Ret e → cleanup_target_bytes e = Some t →
  warning_free_bytes e ≤ usable c → owns w →
  w_capacity w = Ok c → w_pending w = Ok None → w_claims w = (honest <$> sizes) →
  Forall (λ n, 0 ≤ n) sizes → zsum id sizes ≤ keeppeek_bytes c → keeppeek_bytes c - zsum id sizes ≤ t →
  cleanup_running s = false →
  ∃ n, (n ≤ length sizes)%nat
    ∧ keeppeek_bytes c - zsum id (take n sizes) ≤ t
    ∧ (∀ m, (m < n)%nat → t < keeppeek_bytes c - zsum id (take m sizes))
    ∧ (w_final w = Ok (freed_capacity c (zsum id (take n sizes))) →
       ∃ s', enforce_storage_limit p clock w trigger s = Ret (Ok tt, s')
         ∧ recording_state s' = Active ∧ s_pressure s' = Normal
         ∧ last_cleanup_bytes_removed s' = zsum id (take n sizes)).
Proof.
  intros Hp Hc He Ht Hw [Hcat Hown] Hcap Hpend Hclaims Hsz Hsum Hreach Hs.
  destruct (evaluate_facts p c Hp Hc) as (e0 & He0 & Hf). rewrite He in He0. injection He0 as <-.
  destruct (facts_target _ _ _ Hf t Ht) as (Hreq & Ht0 & _).
  destruct (proj1 (facts_reason _ _ _ Hf) Hreq) as [rsn Hrsn].
  set (s1 := cleanup_started (observe s trigger c e (clock 2%nat) (clock 3%nat)) rsn (clock 4%nat)).
  destruct (loop_honest t sizes c 0 0 s1) as (n & c' & files & s2 & Hloop & Hrun & Hn & Hle & Hmin);
    [lia|done|lia|done|destruct Hc as (? & ? & ? & ?); lia|done|done|].
  exists n. split_and!; [done..|]. intros Hfin.
  assert (0 ≤ zsum id (take n sizes) ≤ keeppeek_bytes c) as Hfreed.
  { pose proof (Forall_take _ n _ Hsz) as Htk. pose proof (Forall_drop _ n _ Hsz) as Hdr.
    rewrite <-(take_drop n sizes), zsum_app in Hsum.
    assert (∀ l, Forall (λ n, 0 ≤ n) l → 0 ≤ zsum id l) as Hnn.
    { induction 1; [done|]. rewrite zsum_cons. unfold id in *. lia. }
    pose proof (Hnn _ Htk). pose proof (Hnn _ Hdr). lia. }
  set (c2 := freed_capacity c (zsum id (take n sizes))) in *.
  pose proof (freed_ok c _ Hc Hfreed) as Hc2.
  destruct (evaluate_facts p c2 Hp Hc2) as (e2 & He2 & Hf2).
  assert (cleanup_required e2 = false) as Hr2.
  { apply (target_restores p c e t c2 e2); try done; unfold usable, c2; cbn; lia. }
  destruct (facts_pressure _ _ _ Hf2) as (_ & _ & Hn2). specialize (Hn2 Hr2).
  eexists. unfold enforce_storage_limit, try_enforce_storage_limit. rewrite Hcat. cbn [negb].
  unfold hbind, hlift, reconcile_pending_cleanup, hpure, hmod, hbind, hlift, hret.
  rewrite Hown. cbn [obind negb]. rewrite Hcap. cbn [obind]. rewrite Hpend. cbn [obind].
  rewrite He. cbn [obind]. rewrite Hreq, Hrsn, Ht. cbn [obind negb ok_or].
  fold s1. rewrite Hclaims, Hloop. cbn [obind]. rewrite Hfin. cbn [obind].
  unfold finish_storage_cleanup, hbind, hpure, hmod. rewrite He2. cbn [obind]. rewrite Hr2.
  cbn [obind]. split; [reflexivity|]. cbn. by rewrite Hn2.
Qed.

(** ** Witnesses *)

Definition demo_policy : StorageSafetyPolicy := mk_safety_policy 0 100 None 0 0 50.
Definition demo_capacity : FilesystemCapacity := mk_capacity 1000 90 600.
Definition demo_world : World :=
  mk_world true (Ok true) (Ok demo_capacity) (Ok None) (honest <$> [70; 60; 80])
    (Ok (freed_capacity demo_capacity 130)).

Lemma demo_policy_ok : policy_ok demo_policy.
Proof. unfold policy_ok, in_u64. cbn. by vm_compute. Qed.
Lemma demo_capacity_ok : capacity_ok demo_capacity.
Proof. by vm_compute. Qed.

(** A catalog that claims more bytes than the filesystem has, on a filesystem that
    reports more free space than it has. *)
Definition odd_world : World :=
  mk_world true (Ok true) (Ok (mk_capacity 1000 1500 4000)) (Ok None) [] (Err "unreadable").

Lemma cleanup_verdict_witness :
  ∃ r s', enforce_storage_limit (mk_safety_policy 500 100 (Some 90) 0 0 50) Z.of_nat odd_world Periodic snapshot_default
      = Ret (r, s')
    ∧ cleanup_running s' = false ∧ recording_paused s' = true.
Proof.
  edestruct (cleanup_verdict (mk_safety_policy 500 100 (Some 90) 0 0 50) Z.of_nat odd_world Periodic snapshot_default)
    as (r & s' & He & Hr & _).
  - unfold policy_ok, in_u64. cbn. split_and!; try (by vm_compute). intros q [= <-]. by vm_compute.
  - split_and!; [intros c [= <-]|intros c [=]|intros cand [=]]. unfold capacity_typed, in_u64. split_and!; by vm_compute.
  - reflexivity.
  - exists r, s'. split; [exact He|]. split; [exact Hr|].
    assert (match enforce_storage_limit (mk_safety_policy 500 100 (Some 90) 0 0 50) Z.of_nat odd_world Periodic
              snapshot_default with Ret (_, s) => recording_paused s | Panic => false end = true) as Hp
      by (vm_compute; reflexivity).
    rewrite He in Hp. exact Hp.
Defined.

Lemma cleanup_restores_witness :
  ∃ n, (n ≤ 3)%nat ∧ 600 - zsum id (take n [70; 60; 80]) ≤ 490.
Proof.
  edestruct (cleanup_restores demo_policy Z.of_nat demo_world Periodic snapshot_default demo_capacity
    (mk_evaluation Critical true (Some 540) (Some 490) 150 100 200 (Some FilesystemHeadroom)) 490
    [70; 60; 80]) as (n & Hn & Hle & _).
  - apply demo_policy_ok.
  - apply demo_capacity_ok.
  - vm_compute; reflexivity.
  - reflexivity.
  - by vm_compute.
  - by vm_compute.
  - reflexivity.
  - reflexivity.
  - reflexivity.
  - repeat constructor; lia.
  - by vm_compute.
  - by vm_compute.
  - reflexivity.
  - exists n. split; [exact Hn|exact Hle].
Defined.
