(* ===== verification/Outbox.v ===== *)
(** * MQTT outbox

    [src/event_forwarder/outbox.rs]: publications wait in a bounded FIFO until the
    broker acknowledges them; deduplication keys of pending and recently delivered
    publications are remembered so that a re-published event is not sent twice.
    [OutboxError] names the error branches; none of them changes the state. *)

From S2P Require Import Prelude.

Definition MAX_PENDING_ITEMS : Z := 10000.
Definition MAX_DELIVERY_RECEIPTS : Z := 100000.

Record Publication := mk_publication {
  dedup_key : string;
  topic : string;
  payload : list Z;
  qos : Z;
  retain : bool;
  event_timestamp_ms : Z;
  content_type : string;
  payload_format_indicator : option Z;
  correlation_data : list Z
}.

Record OutboxItem := mk_item {
  sequence : Z;
  publication : Publication;
  attempts : Z
}.

Record OutboxStats := mk_stats {
  pending_items : Z;
  stats_pending_bytes : Z;
  oldest_event_timestamp_ms : option Z
}.

Inductive EnqueueResult := Inserted | Duplicate.

Inductive OutboxError :=
| ItemLimit
| OutboxFull (limit_bytes attempted_bytes : Z)
| SequenceExhausted
| NotFound.

Record OutboxState := mk_outbox {
  next_sequence : Z;
  pending : list (OutboxItem * Z);
  pending_bytes : Z;
  seen_keys : gset string;
  delivered_keys : list string
}.

Definition outbox_new : OutboxState := mk_outbox 0 [] 0 ∅ [].

(** The [u64::try_from] of a [usize] succeeds on a 64-bit target. *)
Definition publication_size (p : Publication) : Z :=
  saturating_add usize_max
    (saturating_add usize_max
      (saturating_add usize_max
        (saturating_add usize_max (str_len (dedup_key p)) (str_len (topic p)))
        (vec_len (payload p)))
      (str_len (content_type p)))
    (vec_len (correlation_data p)).

Definition enqueue (s : OutboxState) (p : Publication) (limit_bytes : Z)
    : result OutboxError EnqueueResult * OutboxState :=
  if bool_decide (dedup_key p ∈ seen_keys s) then (Ok Duplicate, s)
  else if vec_len (pending s) =? MAX_PENDING_ITEMS then (Err ItemLimit, s)
  else
    let item_bytes := publication_size p in
    let attempted_bytes := saturating_add u64_max (pending_bytes s) item_bytes in
    if limit_bytes <? attempted_bytes then (Err (OutboxFull limit_bytes attempted_bytes), s)
    else
      match i64_checked_add (next_sequence s) 1 with
      | None => (Err SequenceExhausted, s)
      | Some seq =>
          (Ok Inserted,
           mk_outbox seq (pending s ++ [(mk_item seq p 0, item_bytes)]) attempted_bytes
             ({[dedup_key p]} ∪ seen_keys s) (delivered_keys s))
      end.

Definition next (s : OutboxState) : option OutboxItem := fst <$> head (pending s).

(** [iter_mut().find(..)]: the first item of that sequence. *)
Fixpoint bump_attempts (seq : Z) (l : list (OutboxItem * Z)) : option (list (OutboxItem * Z)) :=
  match l with
  | [] => None
  | (item, bytes) :: l' =>
      if sequence item =? seq
      then Some ((mk_item (sequence item) (publication item)
                    (saturating_add u64_max (attempts item) 1), bytes) :: l')
      else ((item, bytes) ::.) <$> bump_attempts seq l'
  end.

Definition mark_attempt (s : OutboxState) (seq : Z) : result OutboxError unit * OutboxState :=
  match bump_attempts seq (pending s) with
  | None => (Err NotFound, s)
  | Some l => (Ok tt, mk_outbox (next_sequence s) l (pending_bytes s) (seen_keys s) (delivered_keys s))
  end.

(** [VecDeque::remove] at an index known to be valid. *)
Definition vec_remove {A : Type} (i : nat) (l : list A) : list A := take i l ++ drop (S i) l.

Definition mark_delivered (s : OutboxState) (seq : Z) : outcome (result OutboxError unit * OutboxState) :=
  match position (λ e : OutboxItem * Z, sequence (fst e) =? seq) (pending s) with
  | None => Ret (Err NotFound, s)
  | Some index =>
      match pending s !! index with
      | None => Panic
      | Some (item, item_bytes) =>
          let delivered := delivered_keys s ++ [dedup_key (publication item)] in
          let '(seen, delivered) :=
            if MAX_DELIVERY_RECEIPTS <? vec_len delivered then
              match delivered with
              | expired :: rest => (seen_keys s ∖ {[expired]}, rest)
              | [] => (seen_keys s, delivered)
              end
            else (seen_keys s, delivered) in
          Ret (Ok tt,
               mk_outbox (next_sequence s) (vec_remove index (pending s))
                 (saturating_sub (pending_bytes s) item_bytes) seen delivered)
      end
  end.

Definition min_option (acc : option Z) (x : Z) : option Z :=
  match acc with Some m => Some (Z.min m x) | None => Some x end.
Definition stats (s : OutboxState) : OutboxStats :=
  mk_stats (vec_len (pending s)) (pending_bytes s)
    (foldl min_option None
       ((λ e : OutboxItem * Z, event_timestamp_ms (publication (fst e))) <$> pending s)).

(** ** Runs *)

Inductive OutboxOp :=
| Enqueue (p : Publication)
| MarkAttempt (seq : Z)
| MarkDelivered (seq : Z).

(** What a run did: publications inserted and delivered, in order. *)
Record Log := mk_log {
  inserted : list Publication;
  delivered : list Publication
}.

Definition item_of (s : OutboxState) (seq : Z) : list Publication :=
  match position (λ e : OutboxItem * Z, sequence (fst e) =? seq) (pending s) with
  | Some i => option_list ((λ e : OutboxItem * Z, publication (fst e)) <$> pending s !! i)
  | None => []
  end.

Definition outbox_exec (limit : Z) (s : OutboxState) (op : OutboxOp) : outcome (OutboxState * Log) :=
  match op with
  | Enqueue p =>
      let '(r, s) := enqueue s p limit in
      Ret (s, mk_log (match r with Ok Inserted => [p] | _ => [] end) [])
  | MarkAttempt seq => Ret (snd (mark_attempt s seq), mk_log [] [])
  | MarkDelivered seq =>
      let! (r, s') := mark_delivered s seq in
      Ret (s', mk_log [] (match r with Ok _ => item_of s seq | Err _ => [] end))
  end.

Fixpoint outbox_run (limit : Z) (s : OutboxState) (ops : list OutboxOp) : outcome (OutboxState * Log) :=
  match ops with
  | [] => Ret (s, mk_log [] [])
  | op :: ops' =>
      let! (s, l1) := outbox_exec limit s op in
      let! (s, l2) := outbox_run limit s ops' in
      Ret (s, mk_log (inserted l1 ++ inserted l2) (delivered l1 ++ delivered l2))
  end.

(** ** Invariant *)

Definition key_of (e : OutboxItem * Z) : string := dedup_key (publication (fst e)).
Definition seq_of (e : OutboxItem * Z) : Z := sequence (fst e).
Definition pub_of (e : OutboxItem * Z) : Publication := publication (fst e).

Record outbox_ok (limit : Z) (s : OutboxState) : Prop := mk_outbox_ok {
  ok_items : vec_len (pending s) ≤ MAX_PENDING_ITEMS;
  ok_receipts : vec_len (delivered_keys s) ≤ MAX_DELIVERY_RECEIPTS;
  ok_bytes : pending_bytes s = zsum snd (pending s);
  ok_limit : pending_bytes s ≤ limit;
  ok_sizes : Forall (λ e, snd e = publication_size (pub_of e)) (pending s);
  ok_keys : seen_keys s = list_to_set ((key_of <$> pending s) ++ delivered_keys s);
  ok_nodup : NoDup ((key_of <$> pending s) ++ delivered_keys s);
  ok_order : StronglySorted (λ a b, seq_of a < seq_of b) (pending s);
  ok_seq : Forall (λ e, seq_of e ≤ next_sequence s) (pending s)
}.

Lemma publication_size_nonneg p : 0 ≤ publication_size p.
Proof. unfold publication_size, saturating_add, str_len, vec_len, usize_max, u64_max. lia. Qed.

Lemma outbox_new_ok limit : 0 ≤ limit → outbox_ok limit outbox_new.
Proof. intros Hl. by constructor; try constructor. Qed.

Lemma enqueue_ok limit s p :
  limit < u64_max → outbox_ok limit s → outbox_ok limit (snd (enqueue s p limit)).
Proof.
  intros Hl [Hi Hr Hb Hlim Hsz Hk Hnd Ho Hs]. unfold enqueue.
  destruct (bool_decide _) eqn:Hseen; [done|]. destruct (_ =? _) eqn:Hlen; [done|].
  destruct (limit <? _) eqn:Hfit; [done|].
  destruct (i64_checked_add _ 1) as [seq|] eqn:Hseq; [|done]. reflect_bools.
  apply i64_checked_add_Some in Hseq as [-> _].
  pose proof (publication_size_nonneg p) as Hp. unfold saturating_add in *.
  assert (u64_max `min` (pending_bytes s + publication_size p) = pending_bytes s + publication_size p) as Hsat by lia.
  rewrite Hk, not_elem_of_list_to_set in Hseen. apply not_elem_of_app in Hseen as [Hkp Hkd].
  constructor; cbn [snd pending pending_bytes seen_keys delivered_keys next_sequence].
  - unfold vec_len in *. rewrite length_app. cbn. lia.
  - done.
  - rewrite zsum_app, zsum_cons, zsum_nil. cbn [snd]. lia.
  - lia.
  - apply Forall_app. by repeat constructor.
  - rewrite fmap_app, Hk. cbn. set_solver.
  - rewrite fmap_app, <-app_assoc. cbn. apply NoDup_app in Hnd as (Hn1 & Hn2 & Hn3).
    apply NoDup_app. split_and!; [done| |].
    + intros x Hx. rewrite elem_of_cons. intros [->|?]; [done|]. by apply (Hn2 x).
    + by apply NoDup_cons.
  - apply StronglySorted_snoc; [done|]. eapply Forall_impl; [exact Hs|]. unfold seq_of. simpl. lia.
  - apply Forall_app. split; [|repeat constructor; unfold seq_of; simpl; lia].
    eapply Forall_impl; [exact Hs|]. simpl. lia.
Qed.

(** What the invariant reads of an entry; [bump_attempts] changes none of it. *)
Definition core (e : OutboxItem * Z) : Z * Publication * Z := (seq_of e, pub_of e, snd e).

Lemma bump_attempts_core seq l l' : bump_attempts seq l = Some l' → core <$> l' = core <$> l.
Proof.
  revert l'. induction l as [|[item bytes] l IH]; intros l'; simpl; [done|].
  split_match; [by intros [= <-]|].
  destruct (bump_attempts seq l) as [l1|]; simpl; [|done]. intros [= <-]. cbn. f_equal. by apply IH.
Qed.

Lemma attempt_ok limit s seq : outbox_ok limit s → outbox_ok limit (snd (mark_attempt s seq)).
Proof.
  intros Hok. unfold mark_attempt. destruct (bump_attempts seq (pending s)) as [l|] eqn:Hb; [|done].
  apply bump_attempts_core in Hb as Hsame. destruct Hok as [Hi Hr Hby Hlim Hsz Hk Hnd Ho Hs].
  assert (key_of <$> l = key_of <$> pending s) as Hkeys.
  { change key_of with ((λ t : Z * Publication * Z, dedup_key (snd (fst t))) ∘ core).
    by rewrite !list_fmap_compose, Hsame. }
  constructor; cbn [snd pending pending_bytes seen_keys delivered_keys next_sequence]; try done.
  - unfold vec_len in *. by rewrite <-(length_fmap core l), Hsame, length_fmap.
  - rewrite Hby. change (zsum (λ e, snd (core e)) (pending s) = zsum (λ e, snd (core e)) l).
    by rewrite <-!(zsum_fmap snd core), Hsame.
  - apply (Forall_fmap core (λ t, snd t = publication_size (snd (fst t)))). rewrite Hsame.
    by apply Forall_fmap.
  - by rewrite Hkeys.
  - by rewrite Hkeys.
  - apply (StronglySorted_fmap (λ a b, fst (fst a) < fst (fst b)) core). rewrite Hsame.
    by apply StronglySorted_fmap.
  - apply (Forall_fmap core (λ t, fst (fst t) ≤ next_sequence s)). rewrite Hsame. by apply Forall_fmap.
Qed.

(** Removing one entry, with its key moved to the receipts. *)
Lemma delivered_split s seq i :
  position (λ e : OutboxItem * Z, sequence (fst e) =? seq) (pending s) = Some i →
  ∃ l e k, pending s = l ++ e :: k ∧ pending s !! i = Some e ∧ vec_remove i (pending s) = l ++ k
    ∧ seq_of e = seq.
Proof.
  intros (e & He & Hseq & _)%position_Some. reflect_bools.
  exists (take i (pending s)), e, (drop (S i) (pending s)). split_and!; [|done|done|done].
  by rewrite take_drop_middle.
Qed.

Lemma delivered_ok limit s seq :
  outbox_ok limit s →
  ∃ r s', mark_delivered s seq = Ret (r, s') ∧ outbox_ok limit s'
    ∧ (pub_of <$> pending s) ≡ₚ
      (match r with Ok _ => item_of s seq | Err _ => [] end) ++ (pub_of <$> pending s').
Proof.
  intros Hok. unfold mark_delivered, item_of.
  destruct (position _ (pending s)) as [i|] eqn:Hpos; [|by eexists _, _].
  destruct (delivered_split s seq i Hpos) as (l & [item bytes] & k & Hsplit & Hi & Hrem & Hseq).
  rewrite Hi, Hrem. destruct Hok as [Hit Hr Hby Hlim Hsz Hk Hnd Ho Hs].
  rewrite Hsplit in *. rewrite fmap_app, fmap_cons in Hnd, Hk.
  rewrite zsum_app, zsum_cons in Hby. cbn [snd] in Hby.
  assert (Forall (λ e, snd e = publication_size (pub_of e)) (l ++ k)) as Hsz'.
  { rewrite Forall_app, Forall_cons in Hsz. apply Forall_app. naive_solver. }
  assert (∀ m, Forall (λ e, snd e = publication_size (pub_of e)) m → 0 ≤ zsum snd m) as Hnn.
  { induction 1 as [|e m He _ IH]; [done|]. rewrite zsum_cons, He.
    pose proof (publication_size_nonneg (pub_of e)). lia. }
  pose proof (Hnn _ Hsz') as Hlk. rewrite zsum_app in Hlk.
  assert (saturating_sub (pending_bytes s) bytes = zsum snd (l ++ k)) as Hby'.
  { rewrite zsum_app. unfold saturating_sub. lia. }
  pose proof (Forall_inv (proj2 (proj1 (Forall_app _ l _) Hsz))) as Hbytes. cbn in Hbytes.
  pose proof (publication_size_nonneg (publication item)) as Hpos0.
  assert (bytes = publication_size (publication item)) as Hbytes' by done.
  assert (saturating_sub (pending_bytes s) bytes ≤ limit) as Hlim' by (unfold saturating_sub; lia).
  set (key := dedup_key (publication item)) in *.
  assert (((key_of <$> l ++ k) ++ delivered_keys s ++ [key]) ≡ₚ
    (key_of <$> l) ++ key :: (key_of <$> k) ++ delivered_keys s) as Hperm.
  { rewrite fmap_app, <-!app_assoc. apply Permutation_app_head.
    by rewrite (app_assoc (key_of <$> k)), <-Permutation_cons_append. }
  change (key_of (item, bytes)) with key in *.
  assert (NoDup ((key_of <$> l ++ k) ++ delivered_keys s ++ [key])) as Hnd'.
  { rewrite Hperm. by rewrite <-app_assoc in Hnd. }
  assert (seen_keys s = list_to_set ((key_of <$> l ++ k) ++ delivered_keys s ++ [key])) as Hk'.
  { rewrite Hk. apply set_eq. intros x. rewrite !elem_of_list_to_set, Hperm, <-app_assoc. done. }
  assert (StronglySorted (λ a b, seq_of a < seq_of b) (l ++ k)
    ∧ Forall (λ e, seq_of e ≤ next_sequence s) (l ++ k)
    ∧ vec_len (l ++ k) ≤ MAX_PENDING_ITEMS) as (Ho' & Hs' & Hlen').
  { assert (l ++ k `sublist_of` l ++ (item, bytes) :: k) as Hsub
      by (apply sublist_app; [done|by apply sublist_cons]).
    split_and!; [by eapply StronglySorted_sublist|by eapply Forall_sublist|].
    unfold vec_len in *. apply sublist_length in Hsub. lia. }
  destruct (MAX_DELIVERY_RECEIPTS <? vec_len (delivered_keys s ++ [key])) eqn:Hfull.
  - destruct (delivered_keys s ++ [key]) as [|expired rest] eqn:Hd; [by destruct (delivered_keys s)|].
    eexists _, _. split; [done|]. split.
    + constructor; cbn [pending pending_bytes seen_keys delivered_keys next_sequence]; try done; try lia.
      * assert (vec_len (delivered_keys s ++ [key]) = vec_len (expired :: rest)) as Hl by by rewrite Hd.
        unfold vec_len in *. rewrite length_app in Hl. cbn in Hl. lia.
      * rewrite Hk'. apply NoDup_app in Hnd' as (_ & Hn2 & Hn3). apply NoDup_cons in Hn3 as [Hn3 _].
        assert (expired ∉ key_of <$> l ++ k) by (intros Hx; apply (Hn2 _ Hx); by left).
        rewrite !list_to_set_app_L, list_to_set_cons. apply set_eq. intros x.
        rewrite elem_of_difference, !elem_of_union, !elem_of_list_to_set, !elem_of_singleton.
        split; [naive_solver|]. intros [?|?]; (split; [naive_solver|]); intros ->; done.
      * eapply sublist_NoDup; [exact Hnd'|]. apply sublist_app; [done|]. by apply sublist_cons.
    + cbn. rewrite fmap_app, fmap_cons, fmap_app. by rewrite <-Permutation_middle.
  - eexists _, _. split; [done|]. split.
    + constructor; cbn [pending pending_bytes seen_keys delivered_keys next_sequence]; try done;
        reflect_bools; try lia.
    + cbn. rewrite fmap_app, fmap_cons, fmap_app. by rewrite <-Permutation_middle.
Qed.

(** ** Runs *)

Lemma enqueue_pending s p limit :
  pub_of <$> pending (snd (enqueue s p limit)) =
  (pub_of <$> pending s) ++ match fst (enqueue s p limit) with Ok Inserted => [p] | _ => [] end.
Proof.
  unfold enqueue. repeat split_match; simpl; rewrite ?app_nil_r; try done. by rewrite fmap_app.
Qed.
Lemma attempt_pending s seq : pub_of <$> pending (snd (mark_attempt s seq)) = pub_of <$> pending s.
Proof.
  unfold mark_attempt. destruct (bump_attempts seq (pending s)) as [l|] eqn:Hb; [|done]. cbn.
  apply bump_attempts_core in Hb.
  change pub_of with ((λ t : Z * Publication * Z, snd (fst t)) ∘ core).
  by rewrite !list_fmap_compose, Hb.
Qed.
Lemma delivered_sublist s seq r s' :
  mark_delivered s seq = Ret (r, s') → pending s' `sublist_of` pending s.
Proof.
  unfold mark_delivered. destruct (position _ (pending s)) as [i|] eqn:Hpos; [|by intros [= <- <-]].
  destruct (delivered_split s seq i Hpos) as (l & e & k & Hsplit & Hi & Hrem & _).
  rewrite Hi, Hrem. destruct e as [item bytes]. split_match. intros [= <- <-]. cbn. rewrite Hsplit.
  apply sublist_app; [done|]. by apply sublist_cons.
Qed.

Lemma exec_ok limit s op :
  limit < u64_max → outbox_ok limit s →
  ∃ s' log, outbox_exec limit s op = Ret (s', log) ∧ outbox_ok limit s'
    ∧ (pub_of <$> pending s) ++ inserted log ≡ₚ delivered log ++ (pub_of <$> pending s')
    ∧ (pub_of <$> pending s') `sublist_of` (pub_of <$> pending s) ++ inserted log.
Proof.
  intros Hl Hok. destruct op as [p|seq|seq]; cbn [outbox_exec].
  - pose proof (enqueue_ok limit s p Hl Hok) as Hok'. pose proof (enqueue_pending s p limit) as Hp.
    destruct (enqueue s p limit) as [r s']. cbn in *. eexists _, _. split; [done|]. split; [done|].
    cbn. by rewrite Hp.
  - pose proof (attempt_ok limit s seq Hok) as Hok'. pose proof (attempt_pending s seq) as Hp.
    eexists _, _. split; [done|]. split; [done|]. cbn. rewrite app_nil_r. by rewrite Hp.
  - destruct (delivered_ok limit s seq Hok) as (r & s' & He & Hok' & Hperm). rewrite He.
    apply delivered_sublist in He. cbn [obind]. eexists _, _. split; [done|]. split; [done|].
    cbn. rewrite app_nil_r. split; [done|]. by apply sublist_fmap.
Qed.

Lemma run_ok limit s ops :
  limit < u64_max → outbox_ok limit s →
  ∃ s' log, outbox_run limit s ops = Ret (s', log) ∧ outbox_ok limit s'
    ∧ (pub_of <$> pending s) ++ inserted log ≡ₚ delivered log ++ (pub_of <$> pending s')
    ∧ (pub_of <$> pending s') `sublist_of` (pub_of <$> pending s) ++ inserted log.
Proof.
  intros Hl. revert s. induction ops as [|op ops IH]; intros s Hok.
  { eexists _, _. split; [done|]. split; [done|]. cbn. by rewrite app_nil_r. }
  destruct (exec_ok limit s op Hl Hok) as (s1 & l1 & He1 & Hok1 & Hp1 & Hs1).
  destruct (IH s1 Hok1) as (s2 & l2 & He2 & Hok2 & Hp2 & Hs2).
  cbn [outbox_run]. rewrite He1. cbn [obind]. rewrite He2. cbn [obind].
  eexists _, _. split; [done|]. split; [done|]. cbn. split.
  - by rewrite app_assoc, Hp1, <-!app_assoc, Hp2.
  - etrans; [exact Hs2|]. rewrite app_assoc. by apply sublist_app.
Qed.

(** C19. The outbox neither loses nor duplicates: whatever publications are offered
    and whatever sequences are acknowledged or retried, no operation aborts, every
    inserted publication is either delivered exactly once or still pending, pending
    ones keep their insertion order with increasing sequence numbers, and item,
    byte and receipt counts stay within their limits with the byte counter exact. *)
Theorem outbox_no_loss limit ops :
  0 ≤ limit < u64_max →
  ∃ s log, outbox_run limit outbox_new ops = Ret (s, log)
    ∧ inserted log ≡ₚ delivered log ++ (pub_of <$> pending s)
    ∧ (pub_of <$> pending s) `sublist_of` inserted log
    ∧ StronglySorted (λ a b, seq_of a < seq_of b) (pending s)
    ∧ vec_len (pending s) ≤ MAX_PENDING_ITEMS
    ∧ vec_len (delivered_keys s) ≤ MAX_DELIVERY_RECEIPTS
    ∧ stats_pending_bytes (stats s) = zsum (λ e, publication_size (pub_of e)) (pending s)
    ∧ stats_pending_bytes (stats s) ≤ limit.
Proof.
  intros [H0 Hl]. destruct (run_ok limit outbox_new ops Hl (outbox_new_ok limit H0))
    as (s & log & He & [Hi Hr Hby Hlim Hsz _ _ Ho _] & Hp & Hs).
  exists s, log. split_and!; try done. cbn. rewrite Hby. clear -Hsz.
  induction Hsz as [|e l He _ IH]; [done|]. by rewrite !zsum_cons, He, IH.
Qed.

(** ** Deduplication *)

(** [k] cannot be forgotten for a while: it is pending, or fewer than [n] keys were
    delivered after it. *)
Definition remembered (k : string) (n : Z) (s : OutboxState) : Prop :=
  k ∈ key_of <$> pending s ∨ ∃ l r, delivered_keys s = l ++ k :: r ∧ vec_len r < n.

Lemma remembered_mono k n n' s : n ≤ n' → remembered k n s → remembered k n' s.
Proof. intros Hn [?|(l & r & ? & ?)]; [by left|]. right. exists l, r. split; [done|lia]. Qed.
Lemma remembered_seen limit k n s : outbox_ok limit s → remembered k n s → k ∈ seen_keys s.
Proof.
  intros Hok Hk. rewrite (ok_keys _ _ Hok), elem_of_list_to_set, elem_of_app.
  destruct Hk as [?|(l & r & -> & _)]; [by left|right]. rewrite elem_of_app, elem_of_cons. auto.
Qed.

Lemma deliver_remembered k n s seq r s' :
  0 ≤ n < MAX_DELIVERY_RECEIPTS → remembered k n s →
  mark_delivered s seq = Ret (r, s') → remembered k (n + 1) s'.
Proof.
  intros Hn Hk. unfold mark_delivered.
  destruct (position _ (pending s)) as [i|] eqn:Hpos;
    [|intros [= <- <-]; by eapply remembered_mono; [|done]; lia].
  destruct (delivered_split s seq i Hpos) as (l & e & m & Hsplit & Hi & Hrem & _).
  rewrite Hi, Hrem. destruct e as [item bytes].
  assert (k ∈ key_of <$> l ++ m ∨ ∃ l1 r1,
    delivered_keys s ++ [dedup_key (publication item)] = l1 ++ k :: r1 ∧ vec_len r1 < n + 1) as Hk'.
  { destruct Hk as [Hin|(l1 & r1 & -> & Hr)].
    - rewrite Hsplit, fmap_app, fmap_cons, elem_of_app, elem_of_cons in Hin.
      rewrite fmap_app, elem_of_app. destruct Hin as [?|[->|?]]; [by left; left| |by left; right].
      right. exists (delivered_keys s), []. split; [done|]. unfold vec_len. cbn. lia.
    - right. exists l1, (r1 ++ [dedup_key (publication item)]). rewrite <-app_assoc. split; [done|].
      unfold vec_len in *. rewrite length_app. cbn. lia. }
  destruct (MAX_DELIVERY_RECEIPTS <? _) eqn:Hfull; reflect_bools.
  - destruct (delivered_keys s ++ _) as [|x rest]; intros [= <- <-]; [by destruct Hk'; [left|right]|].
    destruct Hk' as [?|([|y l1] & r1 & [= -> ->] & Hr)]; [by left| |right].
    + unfold vec_len in *. cbn in Hfull. lia.
    + by exists l1, r1.
  - intros [= <- <-]. destruct Hk'; [by left|by right].
Qed.

Lemma enqueue_remembered k n s p limit :
  remembered k n s → remembered k n (snd (enqueue s p limit)).
Proof.
  intros Hk. unfold enqueue. repeat split_match; try done.
  destruct Hk as [Hk|Hk]; [left|by right]. cbn. rewrite fmap_app, elem_of_app. by left.
Qed.
Lemma attempt_remembered k n s seq : remembered k n s → remembered k n (snd (mark_attempt s seq)).
Proof.
  intros Hk. pose proof (attempt_pending s seq) as Hp.
  assert (key_of <$> pending (snd (mark_attempt s seq)) = key_of <$> pending s) as Hkeys.
  { change key_of with (dedup_key ∘ pub_of). by rewrite !list_fmap_compose, Hp. }
  assert (delivered_keys (snd (mark_attempt s seq)) = delivered_keys s) as Hd.
  { unfold mark_attempt. by split_match. }
  unfold remembered. by rewrite Hkeys, Hd.
Qed.

Definition is_delivery (op : OutboxOp) : Prop := match op with MarkDelivered _ => True | _ => False end.
#[global] Instance is_delivery_dec op : Decision (is_delivery op).
Proof. destruct op; apply _. Defined.

Lemma run_remembered limit k ops : ∀ n s s' log,
  limit < u64_max → outbox_ok limit s → 0 ≤ n → remembered k n s →
  n + vec_len (filter is_delivery ops) ≤ MAX_DELIVERY_RECEIPTS →
  outbox_run limit s ops = Ret (s', log) →
  remembered k (n + vec_len (filter is_delivery ops)) s'.
Proof.
  induction ops as [|op ops IH]; intros n s s' log Hl Hok Hn Hk Hlen Hrun.
  { simplify_eq/=. unfold vec_len. cbn. by rewrite Z.add_0_r. }
  destruct (exec_ok limit s op Hl Hok) as (s1 & l1 & He1 & Hok1 & _). cbn [outbox_run] in Hrun.
  rewrite He1 in Hrun. cbn [obind] in Hrun.
  destruct (run_ok limit s1 ops Hl Hok1) as (s2 & l2 & He2 & _). rewrite He2 in Hrun. simplify_eq/=.
  rewrite filter_cons in *. destruct op as [p|seq|seq]; cbn in He1.
  - rewrite decide_False in * by (intros []). eapply IH; [done..| |done|exact He2].
    pose proof (enqueue_remembered k n s p limit Hk). destruct (enqueue s p limit). by simplify_eq/=.
  - rewrite decide_False in * by (intros []). eapply IH; [done..| |done|exact He2].
    simplify_eq. by apply attempt_remembered.
  - rewrite decide_True in * by done. unfold vec_len in *. cbn in *.
    replace (n + Z.of_nat (S (length (filter is_delivery ops))))
      with (n + 1 + Z.of_nat (length (filter is_delivery ops))) by lia.
    destruct (mark_delivered s seq) as [[r s3]|] eqn:Hd; [|done]. simplify_eq/=.
    eapply (IH (n + 1) s1); [done|done|lia| |lia|exact He2].
    eapply deliver_remembered; [|exact Hk|exact Hd]. lia.
Qed.

(** No event is published twice within the receipt window: after a publication
    was inserted, and until 100,000 more publications have been delivered, enqueuing
    one with the same key is a duplicate and leaves the outbox unchanged, whether
    the first is still pending or was delivered. *)
Theorem outbox_dedup limit before p between s log s1 s2 log' p' :
  0 ≤ limit < u64_max →
  outbox_run limit outbox_new before = Ret (s, log) →
  enqueue s p limit = (Ok Inserted, s1) →
  outbox_run limit s1 between = Ret (s2, log') →
  vec_len (filter is_delivery between) ≤ MAX_DELIVERY_RECEIPTS →
  dedup_key p' = dedup_key p →
  enqueue s2 p' limit = (Ok Duplicate, s2).
Proof.
  intros [H0 Hl] Hb Hq Hbt Hlen Hk.
  destruct (run_ok limit outbox_new before Hl (outbox_new_ok limit H0)) as (s' & l' & He & Hok & _).
  rewrite Hb in He. injection He as <- <-.
  pose proof (enqueue_ok limit s p Hl Hok) as Hok1. rewrite Hq in Hok1.
  destruct (run_ok limit s1 between Hl Hok1) as (s'' & l'' & He & Hok2 & _).
  rewrite Hbt in He. injection He as <- <-.
  assert (remembered (dedup_key p) 0 s1) as Hr.
  { left. pose proof (enqueue_pending s p limit) as Hp. rewrite Hq in Hp. cbn in Hp.
    change key_of with (dedup_key ∘ pub_of). rewrite list_fmap_compose, Hp, fmap_app, elem_of_app.
    right. by left. }
  pose proof (run_remembered limit (dedup_key p) between 0 s1 s2 log' Hl Hok1 ltac:(lia) Hr
    ltac:(lia) Hbt) as Hr2.
  apply (remembered_seen limit) in Hr2; [|done]. unfold enqueue. rewrite Hk.
  by rewrite bool_decide_true.
Qed.

(** ** Witnesses *)

Definition demo_publication (k : string) : Publication :=
  mk_publication k "t" [1; 2; 3] 1 false 5 "json" None [].

Lemma outbox_no_loss_witness :
  ∃ s log, outbox_run 100 outbox_new
      [Enqueue (demo_publication "a"); Enqueue (demo_publication "a"); Enqueue (demo_publication "b");
       MarkAttempt 1; MarkDelivered 1] = Ret (s, log)
    ∧ inserted log ≡ₚ delivered log ++ (pub_of <$> pending s).
Proof.
  destruct (outbox_no_loss 100 [Enqueue (demo_publication "a"); Enqueue (demo_publication "a");
    Enqueue (demo_publication "b"); MarkAttempt 1; MarkDelivered 1]) as (s & log & He & Hp & _).
  - vm_compute. split; [discriminate|reflexivity].
  - exists s, log. split; [exact He|exact Hp].
Defined.

Definition demo_one : OutboxState := snd (enqueue outbox_new (demo_publication "a") 100).
Definition demo_sent : OutboxState :=
  match outbox_run 100 demo_one [MarkDelivered 1] with Ret (s, _) => s | Panic => outbox_new end.
Lemma outbox_dedup_witness :
  enqueue demo_sent (demo_publication "a") 100 = (Ok Duplicate, demo_sent).
Proof.
  apply (outbox_dedup 100 [] (demo_publication "a") [MarkDelivered 1] outbox_new (mk_log [] [])
    demo_one demo_sent (mk_log [] [demo_publication "a"]) (demo_publication "a")).
  - vm_compute. split; [discriminate|reflexivity].
  - reflexivity.
  - vm_compute. reflexivity.
  - vm_compute. reflexivity.
  - vm_compute. discriminate.
  - reflexivity.
Defined.
