(* ===== verification/Nal.v ===== *)
(** * NAL units and ADTS headers

    [src/storage/nal.rs]: conversion between Annex B byte streams (NAL units behind
    start codes) and length-prefixed AVCC samples, and extraction of H.264 and H.265
    parameter sets.  [src/storage/adts.rs]: the ADTS header of an AAC packet.
    Bytes are [Z] in [0, 256); an index into the slice is the remaining suffix. *)

From S2P Require Import Prelude.

Definition byte (b : Z) : Prop := 0 ≤ b < 256.

(** [u32::to_be_bytes] and [u32::from_be_bytes]. *)
Definition to_be_bytes (n : Z) : list Z :=
  [Z.land (Z.shiftr n 24) 255; Z.land (Z.shiftr n 16) 255; Z.land (Z.shiftr n 8) 255; Z.land n 255].
Definition from_be_bytes (a b c d : Z) : Z :=
  Z.lor (Z.lor (Z.shiftl a 24) (Z.shiftl b 16)) (Z.lor (Z.shiftl c 8) d).
Definition as_u32 (n : Z) : Z := n mod 2 ^ 32.

(** The length of the start code at the front, if there is one. *)
Definition start_code (l : list Z) : option nat :=
  match l with
  | a :: b :: c :: d :: _ =>
      if (a =? 0) && (b =? 0) && (c =? 0) && (d =? 1) then Some 4%nat
      else if (a =? 0) && (b =? 0) && (c =? 1) then Some 3%nat
      else None
  | [a; b; c] => if (a =? 0) && (b =? 0) && (c =? 1) then Some 3%nat else None
  | _ => None
  end.

(** The inner [while j + 2 < len] loop: the distance to the next start code, or to
    the end when the loop runs out. *)
Fixpoint nalu_len (l : list Z) : nat :=
  match l with
  | a :: (b :: c :: rest) as tail =>
      if (a =? 0) && (b =? 0)
         && ((c =? 1) || ((c =? 0) && match rest with d :: _ => d =? 1 | [] => false end))
      then 0%nat
      else S (nalu_len tail)
  | _ => length l
  end.

(** The outer [while i < len] loop; every turn moves [i] forward, so [len] turns
    suffice, and running out of them is the impossible [Panic]. *)
Fixpoint annexb_loop (fuel : nat) (l : list Z) : outcome (list Z) :=
  match l with
  | [] => Ret []
  | _ :: tail =>
      match fuel with
      | O => Panic
      | S fuel' =>
          match start_code l with
          | None => annexb_loop fuel' tail
          | Some sc_len =>
              let rest := drop sc_len l in
              let n := nalu_len rest in
              let nalu := take n rest in
              let! more := annexb_loop fuel' (drop n rest) in
              Ret ((if bool_decide (nalu = []) then []
                    else to_be_bytes (as_u32 (vec_len nalu)) ++ nalu) ++ more)
          end
      end
  end.

Definition annexb_to_avcc (annexb : list Z) : outcome (list Z) :=
  annexb_loop (length annexb) annexb.

(** [for_each_avcc_nalu] collects the slices its closure is called with. *)
Fixpoint avcc_loop (fuel : nat) (data : list Z) : outcome (list (list Z)) :=
  match data with
  | a :: b :: c :: d :: rest =>
      let nal_len := from_be_bytes a b c d in
      if (nal_len =? 0) || (vec_len rest <? nal_len) then Ret []
      else
        match fuel with
        | O => Panic
        | S fuel' =>
            let! more := avcc_loop fuel' (drop (Z.to_nat nal_len) rest) in
            Ret (take (Z.to_nat nal_len) rest :: more)
        end
  | _ => Ret []
  end.

Definition for_each_avcc_nalu (data : list Z) : outcome (list (list Z)) :=
  avcc_loop (length data) data.

Definition avcc_to_annexb (avcc : list Z) : outcome (list Z) :=
  let! nalus := for_each_avcc_nalu avcc in
  Ret (mjoin ((λ nalu, [0; 0; 0; 1] ++ nalu) <$> nalus)).

Definition h264_step (acc : option (list Z) * option (list Z)) (nalu : list Z)
    : option (list Z) * option (list Z) :=
  match nalu with
  | [] => acc
  | header :: _ =>
      let nal_type := Z.land header 31 in
      if nal_type =? 7 then (Some nalu, snd acc)
      else if nal_type =? 8 then (fst acc, Some nalu)
      else acc
  end.

Definition extract_h264_sps_pps (avcc : list Z) : outcome (option (list Z) * option (list Z)) :=
  let! nalus := for_each_avcc_nalu avcc in
  Ret (foldl h264_step (None, None) nalus).

Definition has_h264_parameter_sets (avcc : list Z) : outcome bool :=
  let! nalus := for_each_avcc_nalu avcc in
  Ret (foldl (λ found nalu,
         found || match nalu with
                  | header :: _ => (Z.land header 31 =? 7) || (Z.land header 31 =? 8)
                  | [] => false
                  end) false nalus).

Definition H265Params : Type := option (list Z) * option (list Z) * option (list Z).

Definition h265_type (header : Z) : Z := Z.land (Z.shiftr header 1) 63.

Definition h265_step (acc : H265Params) (nalu : list Z) : H265Params :=
  let '(vps, sps, pps) := acc in
  match nalu with
  | header :: _ :: _ =>
      if h265_type header =? 32 then (Some nalu, sps, pps)
      else if h265_type header =? 33 then (vps, Some nalu, pps)
      else if h265_type header =? 34 then (vps, sps, Some nalu)
      else acc
  | _ => acc
  end.

Definition extract_h265_params (avcc : list Z) : outcome H265Params :=
  let! nalus := for_each_avcc_nalu avcc in
  Ret (foldl h265_step (None, None, None) nalus).

Definition has_h265_parameter_sets (avcc : list Z) : outcome bool :=
  let! nalus := for_each_avcc_nalu avcc in
  Ret (foldl (λ found nalu,
         found || match nalu with
                  | header :: _ => (32 <=? h265_type header) && (h265_type header <=? 34)
                  | [] => false
                  end) false nalus).

(** ** ADTS *)

Record AdtsInfo := mk_adts {
  header_len : nat;
  profile : Z;
  sample_rate : Z;
  channels : Z
}.

Definition SAMPLE_RATES : list Z :=
  [96000; 88200; 64000; 48000; 44100; 32000; 24000; 22050; 16000; 12000; 11025; 8000; 7350].

Definition parse_adts (data : list Z) : option AdtsInfo :=
  match data with
  | d0 :: d1 :: d2 :: d3 :: _ =>
      if (length data <? 7)%nat then None
      else if negb (d0 =? 255) || negb (Z.land d1 240 =? 240) then None
      else
        let header_len := if Z.land d1 1 =? 1 then 7%nat else 9%nat in
        if (length data <? header_len)%nat then None
        else
          let profile := Z.land (Z.shiftr d2 6) 3 + 1 in
          let freq_index := Z.land (Z.shiftr d2 2) 15 in
          let channels := Z.lor (Z.shiftl (Z.land d2 1) 2) (Z.land (Z.shiftr d3 6) 3) in
          match SAMPLE_RATES !! Z.to_nat freq_index with
          | Some sample_rate => Some (mk_adts header_len profile sample_rate channels)
          | None => None
          end
  | _ => None
  end.

Definition strip_adts (data : list Z) : list Z * option AdtsInfo :=
  match parse_adts data with
  | None => (data, None)
  | Some info => (drop (header_len info) data, Some info)
  end.

(** ** Big-endian lengths *)

Lemma lor_shiftl x y k : 0 ≤ k → 0 ≤ y < 2 ^ k → Z.lor (Z.shiftl x k) y = x * 2 ^ k + y.
Proof.
  intros Hk Hy. pose proof (Z.add_lor_land (Z.shiftl x k) y) as H.
  assert (Z.land (Z.shiftl x k) y = 0) as Hz.
  { apply Z.bits_inj'. intros n Hn. rewrite Z.land_spec, Z.bits_0.
    destruct (decide (n < k)); [by rewrite Z.shiftl_spec_low|].
    rewrite <-(Z.mod_small y (2 ^ k)), Z.mod_pow2_bits_high by lia. apply andb_false_r. }
  rewrite Hz in H. rewrite Z.shiftl_mul_pow2 in H by done. rewrite Z.shiftl_mul_pow2 by done. lia.
Qed.

Lemma from_be_bytes_sum a b c d :
  byte a → byte b → byte c → byte d →
  from_be_bytes a b c d = a * 2 ^ 24 + b * 2 ^ 16 + c * 2 ^ 8 + d.
Proof.
  unfold byte, from_be_bytes. intros Ha Hb Hc Hd.
  rewrite (lor_shiftl c d 8) by lia.
  rewrite <-Z.lor_assoc, (lor_shiftl b) by lia. rewrite (lor_shiftl a) by lia. lia.
Qed.

Lemma land_255 n : Z.land n 255 = n mod 256.
Proof. apply (Z.land_ones n 8). lia. Qed.

Lemma be_roundtrip n :
  0 ≤ n < 2 ^ 32 →
  from_be_bytes (Z.land (Z.shiftr n 24) 255) (Z.land (Z.shiftr n 16) 255)
    (Z.land (Z.shiftr n 8) 255) (Z.land n 255) = n.
Proof.
  intros Hn. rewrite !land_255, !Z.shiftr_div_pow2 by lia.
  rewrite from_be_bytes_sum by (unfold byte; apply Z.mod_pos_bound; lia).
  pose proof (Z.div_mod n 256 ltac:(lia)).
  pose proof (Z.div_mod (n / 256) 256 ltac:(lia)).
  pose proof (Z.div_mod (n / 256 / 256) 256 ltac:(lia)).
  rewrite !Z.div_div in * by lia.
  change (2 ^ 8) with 256. change (2 ^ 16) with (256 * 256). change (2 ^ 24) with (256 * 256 * 256).
  assert (n / (256 * 256 * 256) < 256) by (apply Z.div_lt_upper_bound; lia).
  rewrite (Z.mod_small (n / (256 * 256 * 256))) by (split; [apply Z.div_pos; lia|done]). lia.
Qed.

Lemma to_be_bytes_from a b c d :
  byte a → byte b → byte c → byte d → to_be_bytes (from_be_bytes a b c d) = [a; b; c; d].
Proof.
  intros Ha Hb Hc Hd. unfold to_be_bytes.
  rewrite !land_255, !Z.shiftr_div_pow2, from_be_bytes_sum by (done || lia).
  unfold byte in *. change (2 ^ 8) with 256. change (2 ^ 16) with 65536. change (2 ^ 24) with 16777216.
  repeat f_equal; Z.div_mod_to_equations; lia.
Qed.

(** ** AVCC samples *)

Definition encode (nalu : list Z) : list Z := to_be_bytes (vec_len nalu) ++ nalu.
Definition avcc_of (nalus : list (list Z)) : list Z := mjoin (encode <$> nalus).
Definition nalu_ok (nalu : list Z) : Prop := nalu ≠ [] ∧ vec_len nalu < 2 ^ 32.

Lemma avcc_of_cons n ns : avcc_of (n :: ns) = encode n ++ avcc_of ns.
Proof. done. Qed.

(** Where [for_each_avcc_nalu] stops: no room for a length, a zero length, or a
    length that overruns the data. *)
Definition avcc_stop (data : list Z) : Prop :=
  match data with
  | a :: b :: c :: d :: rest => from_be_bytes a b c d = 0 ∨ vec_len rest < from_be_bytes a b c d
  | _ => True
  end.

Lemma avcc_loop_spec fuel data :
  Forall byte data → (length data ≤ fuel)%nat →
  ∃ nalus rest, avcc_loop fuel data = Ret nalus ∧ data = avcc_of nalus ++ rest
    ∧ Forall nalu_ok nalus ∧ avcc_stop rest.
Proof.
  revert data. induction fuel as [|fuel IH]; intros data Hb Hlen.
  { destruct data; [|simpl in Hlen; lia]. by exists [], []. }
  destruct data as [|a [|b [|c [|d rest]]]]; try (eexists [], _; done).
  cbn [avcc_loop]. set (n := from_be_bytes a b c d).
  destruct ((n =? 0) || (vec_len rest <? n)) eqn:Hstop.
  { exists [], (a :: b :: c :: d :: rest). split_and!; [done|done|constructor|].
    cbn. fold n. apply orb_true_iff in Hstop. rewrite Z.eqb_eq, Z.ltb_lt in Hstop. done. }
  reflect_bools. inversion_clear Hb as [|? ? Ha Hb1]. inversion_clear Hb1 as [|? ? Hb Hb2].
  inversion_clear Hb2 as [|? ? Hc Hb3]. inversion_clear Hb3 as [|? ? Hd Hrest].
  assert (0 ≤ n < 2 ^ 32) as Hn.
  { unfold n. rewrite from_be_bytes_sum by done. unfold byte in *. lia. }
  assert (to_be_bytes n = [a; b; c; d]) as Hbe by by apply to_be_bytes_from.
  destruct (IH (drop (Z.to_nat n) rest)) as (nalus & tail & -> & Htail & Hok & Hst).
  { by apply Forall_drop. }
  { rewrite length_drop. cbn in Hlen. lia. }
  assert (vec_len (take (Z.to_nat n) rest) = n) as Htl.
  { unfold vec_len in *. rewrite length_take. lia. }
  exists (take (Z.to_nat n) rest :: nalus), tail. cbn [obind]. split_and!; [done| | |done].
  - rewrite avcc_of_cons. unfold encode at 1.
    by rewrite Htl, Hbe, <-!app_assoc, <-Htail, take_drop.
  - constructor; [|done]. split; [|lia]. intros Hnil. rewrite Hnil in Htl. unfold vec_len in Htl. cbn in Htl. lia.
Qed.

Lemma avcc_loop_complete fuel nalus rest :
  Forall nalu_ok nalus → avcc_stop rest → (length nalus ≤ fuel)%nat →
  avcc_loop fuel (avcc_of nalus ++ rest) = Ret nalus.
Proof.
  intros Hok Hstop. revert fuel. induction Hok as [|nalu nalus [Hne Hlt] Hok IH]; intros fuel Hfuel.
  - unfold avcc_of. cbn. destruct fuel, rest as [|a [|b [|c [|d rest]]]]; try done; cbn in *;
      rewrite (proj2 (orb_true_iff _ _)); try done; rewrite Z.eqb_eq, Z.ltb_lt; done.
  - destruct fuel as [|fuel]; [cbn in Hfuel; lia|].
    rewrite avcc_of_cons. unfold encode at 1.
    rewrite <-!app_assoc. cbn [to_be_bytes app avcc_loop].
    assert (0 < vec_len nalu) as Hpos by (unfold vec_len; destruct nalu; [done|cbn; lia]).
    rewrite be_roundtrip by lia.
    rewrite (proj2 (Z.eqb_neq _ _)) by lia.
    rewrite (proj2 (Z.ltb_ge _ _)) by (unfold vec_len; rewrite length_app; lia).
    cbn [orb]. unfold vec_len at 1 2. rewrite !Nat2Z.id, drop_app_length, take_app_length.
    rewrite IH by (cbn in Hfuel; lia). done.
Qed.

Lemma avcc_of_length nalus : (length nalus ≤ length (avcc_of nalus))%nat.
Proof.
  induction nalus as [|n ns IH]; [cbn; lia|]. rewrite avcc_of_cons, length_app. cbn [length encode to_be_bytes app]. lia.
Qed.

Lemma for_each_complete nalus rest :
  Forall nalu_ok nalus → avcc_stop rest → for_each_avcc_nalu (avcc_of nalus ++ rest) = Ret nalus.
Proof.
  intros Hok Hs. apply avcc_loop_complete; [done|done|].
  rewrite length_app. pose proof (avcc_of_length nalus). lia.
Qed.

(** The AVCC reader is total and exact on arbitrary bytes: it splits any input
    into the length-prefixed units it visits, each nonempty, and a rest that starts
    with no complete unit, and it visits exactly the units of a well-formed sample. *)
Lemma avcc_reader_exact data :
  Forall byte data →
  ∃ nalus rest, for_each_avcc_nalu data = Ret nalus
    ∧ data = avcc_of nalus ++ rest ∧ Forall nalu_ok nalus ∧ avcc_stop rest
    ∧ (∀ nalus' rest', data = avcc_of nalus' ++ rest' → Forall nalu_ok nalus' → avcc_stop rest' →
         nalus' = nalus).
Proof.
  intros Hb. destruct (avcc_loop_spec (length data) data Hb ltac:(lia))
    as (nalus & rest & He & Hd & Hok & Hs).
  exists nalus, rest. split_and!; try done. intros ns' rest' Hd' Hok' Hs'.
  pose proof (for_each_complete ns' rest' Hok' Hs') as Hc. rewrite <-Hd' in Hc.
  unfold for_each_avcc_nalu in Hc. congruence.
Qed.

(** ** Annex B streams *)

(** The outer loop returns on any bytes, and what it returns is a well-formed
    sample. *)
Lemma annexb_loop_total fuel l :
  (length l ≤ fuel)%nat → vec_len l < 2 ^ 32 →
  ∃ nalus, annexb_loop fuel l = Ret (avcc_of nalus) ∧ Forall nalu_ok nalus.
Proof.
  revert l. induction fuel as [|fuel IH]; intros l Hf Hl.
  { destruct l; [|cbn in Hf; lia]. by exists []. }
  destruct l as [|a tail]; [by exists []|]. cbn [annexb_loop].
  destruct (start_code (a :: tail)) as [sc|] eqn:Hsc.
  2:{ apply IH; [cbn in Hf; lia|unfold vec_len in *; cbn in Hl; lia]. }
  assert (0 < sc)%nat as Hpos.
  { unfold start_code in Hsc. repeat split_match_in Hsc; simplify_eq; lia. }
  set (rest := drop sc (a :: tail)). set (n := nalu_len rest).
  assert (length rest = S (length tail) - sc)%nat as Hrest by (unfold rest; by rewrite length_drop).
  destruct (IH (drop n rest)) as (nalus & -> & Hok).
  { rewrite length_drop. cbn in Hf. lia. }
  { unfold vec_len in *. rewrite length_drop. cbn in Hl. lia. }
  cbn [obind]. case_bool_decide as Hnil; [by exists nalus|].
  assert (vec_len (take n rest) < 2 ^ 32) as Hlt.
  { unfold vec_len in *. rewrite length_take. cbn in Hl. lia. }
  exists (take n rest :: nalus). split; [|by constructor].
  rewrite avcc_of_cons. unfold encode, as_u32. rewrite Z.mod_small; [done|].
  split; [unfold vec_len; lia|done].
Qed.

Definition start_bytes (four : bool) : list Z := if four then [0; 0; 0; 1] else [0; 0; 1].
Definition annexb_of (units : list (bool * list Z)) : list Z :=
  mjoin ((λ u : bool * list Z, start_bytes (fst u) ++ snd u) <$> units).

(** A unit as H.264 and H.265 define it: no start code inside (emulation
    prevention) and no trailing zero byte. *)
Definition clean (nalu : list Z) : Prop :=
  nalu_ok nalu ∧ last nalu ≠ Some 0 ∧ (∀ p q, nalu ≠ p ++ [0; 0; 1] ++ q).

Lemma clean_tail a b nalu :
  last (a :: b :: nalu) ≠ Some 0 ∧ (∀ p q, a :: b :: nalu ≠ p ++ [0; 0; 1] ++ q) →
  last (b :: nalu) ≠ Some 0 ∧ (∀ p q, b :: nalu ≠ p ++ [0; 0; 1] ++ q).
Proof.
  intros [Hl Hn]. split; [by rewrite last_cons_cons in Hl|].
  intros p q He. apply (Hn (a :: p) q). by rewrite He.
Qed.

(** No start code begins inside a clean unit, even with another one behind it. *)
Lemma no_code_inside nalu k :
  nalu ≠ [] → last nalu ≠ Some 0 → (∀ p q, nalu ≠ p ++ [0; 0; 1] ++ q) →
  match nalu ++ k with
  | a :: b :: c :: rest =>
      (a =? 0) && (b =? 0)
        && ((c =? 1) || ((c =? 0) && match rest with d :: _ => d =? 1 | [] => false end)) = false
  | _ => True
  end.
Proof.
  intros Hne Hl Hn. destruct nalu as [|a [|b [|c [|d r]]]]; cbn [app] in *; [done| | | |].
  - destruct k as [|b [|c k]]; try done. destruct (a =? 0) eqn:Ha; [|done]. reflect_bools. by subst.
  - destruct k as [|c k]; try done. destruct (b =? 0) eqn:Hb; [|by rewrite andb_false_r].
    reflect_bools. by subst.
  - destruct (a =? 0) eqn:Ha, (b =? 0) eqn:Hb, (c =? 1) eqn:Hc, (c =? 0) eqn:Hc0; reflect_bools; subst;
      try done; by destruct (Hn [] _ eq_refl).
  - destruct (a =? 0) eqn:Ha, (b =? 0) eqn:Hb, (c =? 1) eqn:Hc, (c =? 0) eqn:Hc0, (d =? 1) eqn:Hd;
      reflect_bools; subst; try done;
      by destruct (Hn [] _ eq_refl) || destruct (Hn [0] _ eq_refl).
Qed.

Lemma nalu_len_clean nalu k :
  nalu ≠ [] → last nalu ≠ Some 0 → (∀ p q, nalu ≠ p ++ [0; 0; 1] ++ q) →
  nalu_len k = 0%nat → nalu_len (nalu ++ k) = length nalu.
Proof.
  induction nalu as [|a nalu IH]; intros Hne Hl Hn Hk; [done|].
  pose proof (no_code_inside (a :: nalu) k Hne Hl Hn) as Hno.
  assert (nalu_len (nalu ++ k) = length nalu) as Hrec.
  { destruct nalu as [|b nalu]; [done|]. destruct (clean_tail a b nalu (conj Hl Hn)).
    by apply IH. }
  cbn [app] in *. destruct (nalu ++ k) as [|b [|c rest]] eqn:Happ.
  - cbn. apply app_nil in Happ as [-> _]. done.
  - cbn in *. by rewrite <-Hrec.
  - cbn [nalu_len]. rewrite Hno. cbn [length]. by rewrite <-Hrec.
Qed.

Lemma nalu_len_code units : nalu_len (annexb_of units) = 0%nat.
Proof.
  destruct units as [|[[] nalu] units]; [done| |]; unfold annexb_of; cbn; [done|done].
Qed.

Lemma annexb_of_cons four nalu units :
  annexb_of ((four, nalu) :: units) = start_bytes four ++ nalu ++ annexb_of units.
Proof. unfold annexb_of. cbn. by rewrite <-app_assoc. Qed.

Lemma start_code_unit four nalu k :
  nalu ≠ [] → start_code (start_bytes four ++ nalu ++ k) = Some (length (start_bytes four)).
Proof. intros Hne. destruct nalu as [|a nalu]; [done|]. by destruct four. Qed.

Lemma annexb_loop_units fuel units :
  Forall (λ u, clean (snd u)) units → (length (annexb_of units) ≤ fuel)%nat →
  annexb_loop fuel (annexb_of units) = Ret (avcc_of (snd <$> units)).
Proof.
  intros Hc. revert fuel.
  induction Hc as [|[four nalu] units [[Hne Hlen] [Hl Hn]] Hc IH]; intros fuel Hf; [by destruct fuel|].
  rewrite annexb_of_cons in *. cbn [snd] in *.
  destruct (start_bytes four ++ nalu ++ annexb_of units) as [|x tail] eqn:Hl0; [by destruct four|].
  destruct fuel as [|fuel]; [cbn in Hf; lia|]. cbn [annexb_loop]. rewrite <-Hl0 in *.
  rewrite start_code_unit by done. rewrite drop_app_length.
  rewrite nalu_len_clean by auto using nalu_len_code. rewrite take_app_length, drop_app_length.
  rewrite IH; [|rewrite !length_app in Hf; destruct four; cbn in Hf; lia]. cbn [obind].
  rewrite bool_decide_false by done. rewrite fmap_cons, avcc_of_cons. unfold encode, as_u32. cbn [snd].
  rewrite Z.mod_small; [done|]. split; [unfold vec_len; lia|done].
Qed.

(** C20. Annex B to AVCC and back: on any bytes the reader splits its input uniquely
    into nonempty length-prefixed units and a rest that starts with no complete unit,
    and the conversion returns a well-formed sample; a stream of clean units behind three- or four-byte start codes becomes
    exactly those units, and converting the sample back yields the same units
    behind four-byte start codes. *)
Theorem annexb_avcc_roundtrip units :
  Forall (λ u, clean (snd u)) units →
  annexb_to_avcc (annexb_of units) = Ret (avcc_of (snd <$> units))
  ∧ avcc_to_annexb (avcc_of (snd <$> units)) = Ret (annexb_of ((true,.) <$> (snd <$> units)))
  ∧ (∀ l, vec_len l < 2 ^ 32 →
       ∃ nalus, annexb_to_avcc l = Ret (avcc_of nalus) ∧ Forall nalu_ok nalus)
  ∧ (∀ data, Forall byte data →
       ∃ nalus rest, for_each_avcc_nalu data = Ret nalus
         ∧ data = avcc_of nalus ++ rest ∧ Forall nalu_ok nalus ∧ avcc_stop rest
         ∧ (∀ nalus' rest', data = avcc_of nalus' ++ rest' → Forall nalu_ok nalus' → avcc_stop rest' →
              nalus' = nalus)).
Proof.
  intros Hc. split_and!.
  - by apply annexb_loop_units.
  - unfold avcc_to_annexb. rewrite <-(app_nil_r (avcc_of _)), for_each_complete; [|apply Forall_fmap|done].
    { cbn [obind]. unfold annexb_of. by rewrite <-!list_fmap_compose. }
    eapply Forall_impl; [exact Hc|]. by intros u [? _].
  - intros l Hl. by apply annexb_loop_total.
  - apply avcc_reader_exact.
Qed.

(** ** Parameter sets *)

Definition h264_is (t : Z) (nalu : list Z) : Prop :=
  match nalu with header :: _ => Z.land header 31 = t | [] => False end.
#[global] Instance h264_is_dec t nalu : Decision (h264_is t nalu).
Proof. unfold h264_is. destruct nalu; apply _. Defined.

Lemma filter_snoc {A} (P : A → Prop) `{∀ x, Decision (P x)} l x :
  last (filter P (l ++ [x])) = if decide (P x) then Some x else last (filter P l).
Proof.
  rewrite filter_app, filter_cons. destruct (decide (P x)); [by rewrite filter_nil, last_snoc|].
  by rewrite filter_nil, app_nil_r.
Qed.

Lemma h264_fold nalus :
  foldl h264_step (None, None) nalus = (last (filter (h264_is 7) nalus), last (filter (h264_is 8) nalus)).
Proof.
  induction nalus as [|nalu nalus IH] using rev_ind; [done|].
  rewrite foldl_app, IH, !filter_snoc. cbn. unfold h264_step. destruct nalu as [|header nalu]; [done|].
  cbn [h264_is fst snd].
  destruct (Z.land header 31 =? 7) eqn:H7, (Z.land header 31 =? 8) eqn:H8; reflect_bools;
    repeat case_decide; congruence.
Qed.

Lemma foldl_or {A} (f : A → bool) b l : foldl (λ acc x, acc || f x) b l = b || existsb f l.
Proof.
  revert b. induction l as [|x l IH]; intros b; cbn; [by rewrite orb_false_r|]. by rewrite IH, orb_assoc.
Qed.

Definition h265_is (t : Z) (nalu : list Z) : Prop :=
  match nalu with header :: _ :: _ => h265_type header = t | _ => False end.
#[global] Instance h265_is_dec t nalu : Decision (h265_is t nalu).
Proof. unfold h265_is. destruct nalu as [|? []]; apply _. Defined.

Lemma h265_fold nalus :
  foldl h265_step (None, None, None) nalus
  = (last (filter (h265_is 32) nalus), last (filter (h265_is 33) nalus), last (filter (h265_is 34) nalus)).
Proof.
  induction nalus as [|nalu nalus IH] using rev_ind; [done|].
  rewrite foldl_app, IH, !filter_snoc. cbn. unfold h265_step.
  destruct nalu as [|header [|x nalu]]; [done|done|]. cbn [h265_is].
  destruct (h265_type header =? 32) eqn:H2, (h265_type header =? 33) eqn:H3,
    (h265_type header =? 34) eqn:H4; reflect_bools; repeat case_decide; congruence.
Qed.

Lemma last_filter_Some {A} (P : A → Prop) `{∀ x, Decision (P x)} l :
  is_Some (last (filter P l)) ↔ Exists P l.
Proof.
  rewrite last_is_Some, Exists_exists. split.
  - intros Hne. destruct (filter P l) as [|x k] eqn:Hf; [done|].
    exists x. assert (x ∈ filter P l) as []%list_elem_of_filter; [|done]. rewrite Hf. by left.
  - intros (x & Hx & Ht) Hnil. assert (x ∈ filter P l) as Hin by by apply list_elem_of_filter.
    rewrite Hnil in Hin. by apply not_elem_of_nil in Hin.
Qed.

(** Parameter-set extraction reads the sample it is given: among the units of
    any sample it returns the last SPS and PPS (H.264) and the last VPS, SPS and PPS
    of at least two bytes (H.265), and the H.264 presence test is true exactly when
    extraction finds one of the two. *)
Theorem parameter_sets_exact data nalus rest :
  data = avcc_of nalus ++ rest → Forall nalu_ok nalus → avcc_stop rest →
  extract_h264_sps_pps data
    = Ret (last (filter (h264_is 7) nalus), last (filter (h264_is 8) nalus))
  ∧ extract_h265_params data
    = Ret (last (filter (h265_is 32) nalus), last (filter (h265_is 33) nalus),
           last (filter (h265_is 34) nalus))
  ∧ ∃ found, has_h264_parameter_sets data = Ret found
    ∧ (found = true ↔
       is_Some (last (filter (h264_is 7) nalus)) ∨ is_Some (last (filter (h264_is 8) nalus))).
Proof.
  intros -> Hok Hs. unfold extract_h264_sps_pps, extract_h265_params, has_h264_parameter_sets.
  rewrite for_each_complete by done. cbn [obind]. rewrite h264_fold, h265_fold, foldl_or.
  split_and!; [done|done|]. eexists. split; [done|]. cbn [orb].
  rewrite !last_filter_Some, existsb_exists, !Exists_exists. setoid_rewrite list_elem_of_In. split.
  - intros (x & Hx & Hb). destruct x as [|h x]; [done|]. apply orb_true_iff in Hb as [Hb|Hb];
      reflect_bools; [left|right]; by exists (h :: x).
  - intros [(x & Hx & Ht)|(x & Hx & Ht)]; exists x; (split; [done|]);
      destruct x as [|h x]; [done| |done|]; cbn in Ht; rewrite Ht; done.
Qed.

(** ** ADTS packets *)

(** A header as ISO 14496-3 lays it out: [fields] are its bytes after the fourth,
    three of them, and two more for the CRC. *)
Definition adts_packet (mpeg2 crc : bool) (prof idx ch priv low : Z) (fields raw : list Z) : list Z :=
  [255; 240 + (if mpeg2 then 8 else 0) + (if crc then 0 else 1);
   (prof - 1) * 64 + idx * 4 + priv * 2 + ch / 4; ch mod 4 * 64 + low] ++ fields ++ raw.

Lemma land_3 n : Z.land n 3 = n mod 4.
Proof. apply (Z.land_ones n 2). lia. Qed.
Lemma land_15 n : Z.land n 15 = n mod 16.
Proof. apply (Z.land_ones n 4). lia. Qed.
Lemma land_1 n : Z.land n 1 = n mod 2.
Proof. apply (Z.land_ones n 1). lia. Qed.

Lemma adts_channels d2 d3 :
  Z.lor (Z.shiftl (Z.land d2 1) 2) (Z.land (Z.shiftr d3 6) 3) = d2 mod 2 * 4 + d3 / 64 mod 4.
Proof.
  rewrite land_3, land_1, Z.shiftr_div_pow2 by lia. change (2 ^ 6) with 64.
  rewrite lor_shiftl; [done|lia|]. apply Z.mod_pos_bound. lia.
Qed.

(** ADTS headers are parsed exactly: stripping a packet laid out as the
    standard says returns its raw payload with the profile, sample rate and channel
    configuration it was built from, with or without CRC, and data whose first byte
    is not a sync byte is passed through. *)
Theorem adts_roundtrip (mpeg2 crc : bool) prof idx ch priv low (fields raw : list Z) rate :
  1 ≤ prof ≤ 4 → SAMPLE_RATES !! Z.to_nat idx = Some rate → 0 ≤ idx → 0 ≤ ch < 8 →
  0 ≤ priv < 2 → 0 ≤ low < 64 → length fields = (if crc then 5 else 3)%nat →
  strip_adts (adts_packet mpeg2 crc prof idx ch priv low fields raw)
    = (raw, Some (mk_adts (if crc then 9 else 7) prof rate ch))
  ∧ (∀ d data, d ≠ 255 → strip_adts (d :: data) = (d :: data, None)).
Proof.
  intros Hp Hr Hi Hc Hpr Hl Hf. split.
  - assert (idx < 13) as Hi13.
    { apply lookup_lt_Some in Hr. cbn in Hr. lia. }
    unfold strip_adts, parse_adts, adts_packet. cbn [app].
    set (d2 := (prof - 1) * 64 + idx * 4 + priv * 2 + ch / 4). set (d3 := ch mod 4 * 64 + low).
    assert (d2 / 64 mod 4 + 1 = prof ∧ d2 / 4 mod 16 = idx ∧ d2 mod 2 * 4 + d3 / 64 mod 4 = ch)
      as (Hd1 & Hd2 & Hd3).
    { unfold d2, d3. clear -Hp Hi Hi13 Hc Hpr Hl. Z.div_mod_to_equations. lia. }
    clearbody d2 d3. rewrite adts_channels, land_3, land_15, !Z.shiftr_div_pow2 by lia.
    change (2 ^ 6) with 64. change (2 ^ 2) with 4. rewrite Hd1, Hd2, Hd3, Hr.
    destruct crc; destruct fields as [|f1 [|f2 [|f3 [|f4 [|f5 [|f6 fs]]]]]]; cbn in Hf; try lia;
      by destruct mpeg2.
  - intros d data Hd. unfold strip_adts, parse_adts.
    destruct data as [|d1 [|d2 [|d3 data]]]; try done.
    rewrite (proj2 (Z.eqb_neq d 255) Hd). cbn [negb orb]. by destruct (_ <? 7)%nat.
Qed.

(** ** Witnesses *)

Definition demo_units : list (bool * list Z) := [(true, [103; 1]); (false, [104; 0; 3]); (true, [101])].

Lemma clean_by_scan nalu :
  nalu ≠ [] → vec_len nalu < 2 ^ 32 → last nalu ≠ Some 0 →
  Forall (λ k, take 3 (drop k nalu) ≠ [0; 0; 1]) (seq 0 (length nalu)) → clean nalu.
Proof.
  intros Hne Hlen Hl Hscan. split; [done|]. split; [done|]. intros p q ->.
  rewrite Forall_forall in Hscan. apply (Hscan (length p)).
  - apply elem_of_seq. rewrite !length_app. cbn. lia.
  - by rewrite drop_app_length.
Qed.

Lemma annexb_avcc_roundtrip_witness :
  annexb_to_avcc (annexb_of demo_units) = Ret (avcc_of (snd <$> demo_units)).
Proof.
  apply (annexb_avcc_roundtrip demo_units). unfold demo_units.
  repeat (apply Forall_cons; split);
    try apply Forall_nil_2; apply clean_by_scan; try done; by repeat constructor.
Defined.

Lemma parameter_sets_exact_witness :
  extract_h264_sps_pps (avcc_of [[103; 1]; [104; 0; 3]; [101]] ++ [0]) = Ret (Some [103; 1], Some [104; 0; 3]).
Proof.
  refine (proj1 (parameter_sets_exact _ [[103; 1]; [104; 0; 3]; [101]] [0] eq_refl _ _)).
  - repeat (apply Forall_cons; split; [split; [done|by vm_compute]|]). apply Forall_nil_2.
  - exact I.
Defined.

Lemma adts_roundtrip_witness :
  strip_adts (adts_packet false false 2 4 2 0 0 [0; 31; 252] [7; 8])
  = ([7; 8], Some (mk_adts 7 2 44100 2)).
Proof.
  refine (proj1 (adts_roundtrip false false 2 4 2 0 0 [0; 31; 252] [7; 8] 44100 _ _ _ _ _ _ _));
    try lia; reflexivity.
Defined.
