(* ===== verification/BrowserSessions.v ===== *)
(** * Browser sessions

    [src/access/browser_sessions.rs]: the table of revocable browser sessions.  A
    cookie is [<uuid>.<secret>]; the table keeps its SHA-256 digest only, and a
    cookie is accepted for the session its id names when digest and origin match
    and neither the idle nor the absolute lifetime is over.

    SHA-256, the [uuid] crate and the random generator are outside the program:
    [sha256], [uuid_simple] and [uuid_parse] are arguments, and the id and tokens
    an operation draws are arguments of it.  [is_ascii] and [split_once] are
    modelled on the UTF-8 bytes. *)

From S2P Require Import Prelude.

Definition SESSION_LIMIT : Z := 4096.
Definition BOOTSTRAP_LIMIT : Z := 256.
Definition BOOTSTRAP_LIFETIME : Z := from_secs 300.

Inductive IpAddr := V4 (a : Z) | V6 (a : Z).

#[global] Instance IpAddr_eq_dec : EqDecision IpAddr.
Proof. solve_decision. Defined.

(** [Ipv6Addr::to_ipv4_mapped]: [::ffff:a.b.c.d]. *)
Definition normalize_address (address : IpAddr) : IpAddr :=
  match address with
  | V6 a => if Z.shiftr a 32 =? 65535 then V4 (a mod 2 ^ 32) else V6 a
  | V4 a => V4 a
  end.

Record Binding := mk_binding {
  identity_id : Z;
  revision : Z
}.

#[global] Instance Binding_eq_dec : EqDecision Binding.
Proof. solve_decision. Defined.

Record Limits := mk_limits {
  idle : Z;
  absolute : Z;
  per_identity : Z;
  per_address : Z
}.

Record Session := mk_session {
  sess_id : Z;
  binding : option Binding;
  origin : string;
  address : IpAddr;
  created_at_ms : Z;
  absolute_expires_at_ms : Z;
  handle_hash : string;
  csrf : string;
  created_at : Z;
  last_activity : Z
}.

Record Issued := mk_issued {
  cookie : string;
  issued_csrf : string;
  session_id : Z
}.

Record Sessions := mk_sessions {
  records : gmap Z Session;
  limits : Limits
}.

Inductive SessionError :=
| Capacity
| AddressLimit
| IdentityLimit
| BootstrapCapacity
| LifetimeRange
| ExpiryOverflow
| InvalidClock
| Unavailable
| Expired.

Definition sessions_new (l : Limits) : outcome Sessions :=
  if negb (idle l =? 0) && (idle l <=? absolute l) && (0 <? per_identity l) && (0 <? per_address l)
  then Ret (mk_sessions ∅ l)
  else Panic.

Definition expired (s : Session) (now : Z) (l : Limits) : bool :=
  let '(i, a) :=
    match binding s with
    | Some _ => (idle l, absolute l)
    | None => (BOOTSTRAP_LIFETIME, BOOTSTRAP_LIFETIME)
    end in
  (a <=? saturating_duration_since now (created_at s))
  || (i <=? saturating_duration_since now (last_activity s)).

(** [unwrap_or(i64::MAX)] of the conversion, then a saturating addition. *)
Definition last_activity_at_ms (s : Session) : Z :=
  i64_saturating_add (created_at_ms s)
    (Z.min i64_max (as_millis (saturating_duration_since (last_activity s) (created_at s)))).

Definition set_records (t : Sessions) (m : gmap Z Session) : Sessions := mk_sessions m (limits t).

Definition expire (t : Sessions) (now : Z) : Sessions :=
  set_records t (filter (λ e, expired (snd e) now (limits t) = false) (records t)).

(** [values().filter(..).count()]. *)
Definition count_sessions (P : Session → bool) (m : gmap Z Session) : Z :=
  Z.of_nat (size (filter (λ e : Z * Session, P (snd e) = true) m)).

Definition same_address (a : IpAddr) (s : Session) : bool := bool_decide (address s = a).
Definition bound_to (i : Z) (s : Session) : bool := is_some_and (λ b, identity_id b =? i) (binding s).
Definition is_bootstrap (s : Session) : bool := bool_decide (binding s = None).

Definition require_capacity (t : Sessions) (b : option Binding) (a : IpAddr)
    : result SessionError unit :=
  if negb (Z.of_nat (size (records t)) <? SESSION_LIMIT) then Err Capacity
  else if negb (count_sessions (same_address a) (records t) <? per_address (limits t))
  then Err AddressLimit
  else
    match b with
    | Some b =>
        if negb (count_sessions (bound_to (identity_id b)) (records t) <? per_identity (limits t))
        then Err IdentityLimit else Ok tt
    | None =>
        if negb (count_sessions is_bootstrap (records t) <? BOOTSTRAP_LIMIT)
        then Err BootstrapCapacity else Ok tt
    end.

Fixpoint is_ascii (s : string) : bool :=
  match s with
  | EmptyString => true
  | String c s' => (Ascii.N_of_ascii c <? 128)%N && is_ascii s'
  end.

(** [split_once('.')]: the parts before and after the first dot. *)
Fixpoint split_dot (s : string) : option (string * string) :=
  match s with
  | EmptyString => None
  | String c s' =>
      if (Ascii.N_of_ascii c =? 46)%N then Some (EmptyString, s')
      else match split_dot s' with
           | Some (a, b) => Some (String c a, b)
           | None => None
           end
  end.

Section table.
Context (sha256 : string → string) (uuid_simple : Z → string) (uuid_parse : string → option Z).

Definition csrf_matches (s : Session) (provided : string) : bool :=
  bool_decide (sha256 provided = sha256 (csrf s)).

(** [id], [secret] and [token] are the random draws. *)
Definition issue (t : Sessions) (b : option Binding) (o : string) (a : IpAddr) (now now_ms : Z)
    (id : Z) (secret token : string) : outcome (result SessionError Issued * Sessions) :=
  let t := expire t now in
  let a := normalize_address a in
  match require_capacity t b a with
  | Err e => Ret (Err e, t)
  | Ok _ =>
      let lifetime := match b with Some _ => absolute (limits t) | None => BOOTSTRAP_LIFETIME end in
      if i64_max <? as_millis lifetime then Ret (Err LifetimeRange, t)
      else
        match i64_checked_add now_ms (as_millis lifetime) with
        | None => Ret (Err ExpiryOverflow, t)
        | Some expires =>
            if now_ms <? 0 then Ret (Err InvalidClock, t)
            else
              let c := (uuid_simple id +:+ "." +:+ secret)%string in
              let s := mk_session id b o a now_ms expires (sha256 c) token now now in
              if bool_decide (is_Some (records t !! id)) then Panic
              else Ret (Ok (mk_issued c token id), set_records t (<[id := s]> (records t)))
        end
  end.

Definition rotate (t : Sessions) (prior : Z) (b : Binding) (now now_ms : Z)
    (id : Z) (secret token : string) : outcome (result SessionError Issued * Sessions) :=
  match records t !! prior with
  | None => Ret (Err Unavailable, t)
  | Some previous =>
      let t := set_records t (delete prior (records t)) in
      if expired previous now (limits t) then Ret (Err Expired, t)
      else
        let! (r, t) := issue t (Some b) (origin previous) (address previous) now now_ms id secret token in
        match r with
        | Ok issued => Ret (Ok issued, t)
        | Err e => Ret (Err e, set_records t (<[prior := previous]> (records t)))
        end
  end.

Definition cookie_id (c : string) : option Z :=
  if negb (str_len c =? 76) || negb (is_ascii c) then None
  else
    match split_dot c with
    | None => None
    | Some (id, secret) =>
        if negb (str_len id =? 32) || negb (str_len secret =? 43) then None
        else uuid_parse id
    end.

Definition lookup_cookie (t : Sessions) (c o : string) (now : Z) : option Session * Sessions :=
  match cookie_id c with
  | None => (None, t)
  | Some id =>
      match records t !! id with
      | None => (None, t)
      | Some s =>
          if expired s now (limits t) then (None, set_records t (delete id (records t)))
          else if negb (str_eqb (origin s) o) || negb (bool_decide (handle_hash s = sha256 c))
          then (None, t)
          else (Some s, t)
      end
  end.

Definition set_activity (s : Session) (now : Z) : Session :=
  mk_session (sess_id s) (binding s) (origin s) (address s) (created_at_ms s)
    (absolute_expires_at_ms s) (handle_hash s) (csrf s) (created_at s) now.

Definition authenticate (t : Sessions) (c o : string) (now : Z) : outcome (option Session * Sessions) :=
  match lookup_cookie t c o now with
  | (None, t) => Ret (None, t)
  | (Some authenticated, t) =>
      match records t !! sess_id authenticated with
      | None => Panic
      | Some s =>
          let s := set_activity s (Z.max (last_activity s) now) in
          Ret (Some s, set_records t (<[sess_id authenticated := s]> (records t)))
      end
  end.

Definition active (t : Sessions) (id : Z) (b : Binding) (now : Z) : bool :=
  is_some_and (λ s, bool_decide (binding s = Some b) && negb (expired s now (limits t)))
    (records t !! id).

Definition touch (t : Sessions) (id : Z) (b : Binding) (now : Z) : outcome (bool * Sessions) :=
  if negb (active t id b now) then Ret (false, t)
  else
    match records t !! id with
    | None => Panic
    | Some s => Ret (true, set_records t (<[id := set_activity s now]> (records t)))
    end.

Definition revoke (t : Sessions) (id : Z) : Sessions := set_records t (delete id (records t)).

Definition revoke_identity (t : Sessions) (identity : Z) : Sessions :=
  set_records t (filter (λ e, bound_to identity (snd e) = false) (records t)).

(** ** The table in use

    [history] remembers what every id was issued with; the random generator never
    repeats an id. *)
Record Grant := mk_grant {
  g_cookie : string;
  g_origin : string;
  g_created : Z;
  g_binding : option Binding
}.

Definition granted (g : gmap Z Grant) (o : string) (now : Z) (b : option Binding)
    (r : result SessionError Issued) : gmap Z Grant :=
  match r with
  | Ok issued => <[session_id issued := mk_grant (cookie issued) o now b]> g
  | Err _ => g
  end.

Inductive step : Sessions * gmap Z Grant → Sessions * gmap Z Grant → Prop :=
| step_issue t g b o a now now_ms id secret token r t' :
    g !! id = None → issue t b o a now now_ms id secret token = Ret (r, t') →
    step (t, g) (t', granted g o now b r)
| step_rotate t g prior previous b now now_ms id secret token r t' :
    g !! id = None → records t !! prior = Some previous →
    rotate t prior b now now_ms id secret token = Ret (r, t') →
    step (t, g) (t', granted g (origin previous) now (Some b) r)
| step_lookup t g c o now :
    step (t, g) (snd (lookup_cookie t c o now), g)
| step_authenticate t g c o now s t' :
    authenticate t c o now = Ret (s, t') → step (t, g) (t', g)
| step_touch t g id b now r t' :
    touch t id b now = Ret (r, t') → step (t, g) (t', g)
| step_revoke t g id : step (t, g) (revoke t id, g)
| step_revoke_identity t g i : step (t, g) (revoke_identity t i, g)
| step_expire t g now : step (t, g) (expire t now, g).

Definition reachable (l : Limits) (x : Sessions * gmap Z Grant) : Prop :=
  ∃ t0, sessions_new l = Ret t0 ∧ rtc step (t0, ∅) x.

(** ** Counting *)

Definition core (s : Session) : Session := set_activity s 0.

(** [m'] holds sessions of [m] only, with nothing but their activity changed. *)
Definition below (m' m : gmap Z Session) : Prop :=
  ∀ id s', m' !! id = Some s' → ∃ s, m !! id = Some s ∧ core s' = core s.

Lemma below_refl m : below m m.
Proof. intros id s Hs. by exists s. Qed.
Lemma below_trans m1 m2 m3 : below m1 m2 → below m2 m3 → below m1 m3.
Proof. intros H1 H2 id s (s1 & H & Hc)%H1. apply H2 in H as (s2 & H & Hc2). exists s2. by rewrite Hc. Qed.
Lemma below_filter (P : Z * Session → Prop) `{∀ x, Decision (P x)} m : below (filter P m) m.
Proof. intros id s [Hs _]%map_lookup_filter_Some. by exists s. Qed.
Lemma below_delete m i : below (delete i m) m.
Proof. intros id s [_ Hs]%lookup_delete_Some. by exists s. Qed.
Lemma below_update m i s n : m !! i = Some s → below (<[i := set_activity s n]> m) m.
Proof.
  intros Hi id s' [[<- <-]|[_ Hs]]%lookup_insert_Some; [by exists s|by exists s'].
Qed.

Lemma below_dom (P : Session → bool) m' m :
  (∀ s s', core s' = core s → P s' = P s) → below m' m →
  dom (filter (λ e : Z * Session, P (snd e) = true) m') ⊆ dom (filter (λ e : Z * Session, P (snd e) = true) m).
Proof.
  intros HP Hb id. rewrite !elem_of_dom. intros [s' [Hs' Hp]%map_lookup_filter_Some].
  destruct (Hb id s' Hs') as (s & Hs & Hc). exists s. apply map_lookup_filter_Some. split; [done|].
  cbn in *. by rewrite <-(HP s s' Hc).
Qed.
Lemma below_count (P : Session → bool) m' m :
  (∀ s s', core s' = core s → P s' = P s) → below m' m → count_sessions P m' ≤ count_sessions P m.
Proof.
  intros HP Hb. unfold count_sessions. rewrite <-!size_dom. apply Nat2Z.inj_le, subseteq_size, below_dom; done.
Qed.
Lemma below_size m' m : below m' m → (size m' ≤ size m)%nat.
Proof.
  intros Hb. rewrite <-!size_dom. apply subseteq_size. intros id. rewrite !elem_of_dom.
  intros [s' Hs']. destruct (Hb id s' Hs') as (s & Hs & _). by exists s.
Qed.

Lemma core_inv s s' :
  core s' = core s →
  sess_id s' = sess_id s ∧ binding s' = binding s ∧ origin s' = origin s ∧ address s' = address s
  ∧ handle_hash s' = handle_hash s ∧ created_at s' = created_at s.
Proof. destruct s, s'. unfold core. cbn. by intros [=]. Qed.
Lemma same_address_core a s s' : core s' = core s → same_address a s' = same_address a s.
Proof. intros (_ & _ & _ & Ha & _)%core_inv. unfold same_address. by rewrite Ha. Qed.
Lemma bound_to_core i s s' : core s' = core s → bound_to i s' = bound_to i s.
Proof. intros (_ & Hb & _)%core_inv. unfold bound_to. by rewrite Hb. Qed.
Lemma is_bootstrap_core s s' : core s' = core s → is_bootstrap s' = is_bootstrap s.
Proof. intros (_ & Hb & _)%core_inv. unfold is_bootstrap. by rewrite Hb. Qed.

Lemma count_insert (P : Session → bool) m id s :
  m !! id = None → count_sessions P (<[id := s]> m) = count_sessions P m + (if P s then 1 else 0).
Proof.
  intros Hid. unfold count_sessions. destruct (P s) eqn:HP.
  - rewrite map_filter_insert_True, map_size_insert_None by (done || by apply map_lookup_filter_None; left). lia.
  - rewrite map_filter_insert_False by (cbn; by rewrite HP). rewrite delete_id by done. lia.
Qed.

(** ** Invariant *)

Record bounded (l : Limits) (m : gmap Z Session) : Prop := mk_bounded {
  b_size : Z.of_nat (size m) ≤ SESSION_LIMIT;
  b_address : ∀ a, count_sessions (same_address a) m ≤ per_address l;
  b_identity : ∀ i, count_sessions (bound_to i) m ≤ per_identity l;
  b_bootstrap : count_sessions is_bootstrap m ≤ BOOTSTRAP_LIMIT
}.

Lemma bounded_below l m' m : below m' m → bounded l m → bounded l m'.
Proof.
  intros Hb [Hs Ha Hi Hbo]. constructor.
  - apply below_size in Hb. lia.
  - intros a. etrans; [apply (below_count _ m' m); [apply same_address_core|done]|done].
  - intros i. etrans; [apply (below_count _ m' m); [apply bound_to_core|done]|done].
  - etrans; [apply (below_count _ m' m); [apply is_bootstrap_core|done]|done].
Qed.

Lemma capacity_insert l t b a id s :
  limits t = l → bounded l (records t) → require_capacity t b a = Ok tt →
  records t !! id = None → binding s = b → address s = a →
  bounded l (<[id := s]> (records t)).
Proof.
  intros Hl [Hs Ha Hi Hbo] Hc Hid Hb Had. unfold require_capacity in Hc. rewrite Hl in Hc.
  destruct (_ <? SESSION_LIMIT) eqn:H1; cbn in Hc; [|done].
  destruct (_ <? per_address l) eqn:H2; cbn in Hc; [|done]. reflect_bools. constructor.
  - rewrite map_size_insert_None by done. lia.
  - intros a'. rewrite count_insert by done. unfold same_address at 2. rewrite Had.
    case_bool_decide; [subst; lia|]. specialize (Ha a'). lia.
  - intros i. rewrite count_insert by done. unfold bound_to at 2. rewrite Hb. specialize (Hi i).
    destruct b as [b|]; cbn; [|lia]. destruct (_ <? per_identity l) eqn:H3; cbn in Hc; [|done].
    reflect_bools. destruct (identity_id b =? i) eqn:H4; reflect_bools; [subst; lia|lia].
  - rewrite count_insert by done. unfold is_bootstrap at 2. rewrite Hb.
    destruct b as [b|]; [rewrite bool_decide_false by done; lia|rewrite bool_decide_true by done].
    destruct (_ <? BOOTSTRAP_LIMIT) eqn:H3; cbn in Hc; [|done]. reflect_bools. lia.
Qed.

(** What the history says of a live session. *)
Definition vouched (g : gmap Z Grant) (id : Z) (s : Session) : Prop :=
  sess_id s = id ∧ ∃ gr, g !! id = Some gr
    ∧ handle_hash s = sha256 (g_cookie gr) ∧ origin s = g_origin gr
    ∧ created_at s = g_created gr ∧ binding s = g_binding gr.

Record table_ok (l : Limits) (x : Sessions * gmap Z Grant) : Prop := mk_table_ok {
  ok_limits : limits (fst x) = l;
  ok_bounded : bounded l (records (fst x));
  ok_vouched : map_Forall (vouched (snd x)) (records (fst x))
}.

Lemma vouched_core g id s s' : core s' = core s → vouched g id s → vouched g id s'.
Proof.
  intros (H1 & H2 & H3 & _ & H5 & H6)%core_inv. unfold vouched. by rewrite H1, H2, H3, H5, H6.
Qed.
Lemma vouched_below g m' m : below m' m → map_Forall (vouched g) m → map_Forall (vouched g) m'.
Proof. intros Hb Hv id s' Hs'. destruct (Hb id s' Hs') as (s & Hs & Hc). eapply vouched_core; [done|]. by apply Hv. Qed.

Lemma table_below l t t' g :
  limits t' = limits t → below (records t') (records t) → table_ok l (t, g) → table_ok l (t', g).
Proof.
  intros Hl Hb [H1 H2 H3]. cbn in *. constructor; cbn; [congruence|by eapply bounded_below|by eapply vouched_below].
Qed.

(** An [issue], in one statement. *)
Lemma issue_spec t b o a now now_ms id secret token r t' :
  issue t b o a now now_ms id secret token = Ret (r, t') →
  limits t' = limits t ∧
  match r with
  | Err _ => records t' = records (expire t now)
  | Ok issued => ∃ s, records t' = <[id := s]> (records (expire t now))
      ∧ records (expire t now) !! id = None
      ∧ require_capacity (expire t now) b (normalize_address a) = Ok tt
      ∧ session_id issued = id ∧ cookie issued = (uuid_simple id +:+ "." +:+ secret)%string
      ∧ sess_id s = id ∧ handle_hash s = sha256 (cookie issued) ∧ origin s = o ∧ binding s = b
      ∧ address s = normalize_address a ∧ created_at s = now ∧ last_activity s = now
  end.
Proof.
  unfold issue. destruct (require_capacity _ b _) as [[]|e] eqn:Hc; [|by intros [= <- <-]].
  set (lt := match b with Some _ => _ | None => _ end).
  split_match; [by intros [= <- <-]|]. split_match; [|by intros [= <- <-]].
  split_match; [by intros [= <- <-]|]. case_bool_decide as Hid; [done|].
  intros [= <- <-]. split; [done|]. eexists. split; [done|]. cbn.
  split_and!; try done. by apply eq_None_not_Some.
Qed.

Lemma expire_below t now : below (records (expire t now)) (records t).
Proof. apply below_filter. Qed.

Lemma issue_ok l t g b o a now now_ms id secret token r t' :
  table_ok l (t, g) → g !! id = None →
  issue t b o a now now_ms id secret token = Ret (r, t') →
  table_ok l (t', granted g o now b r).
Proof.
  intros Hok Hg [Hl Hr]%issue_spec. destruct r as [issued|e].
  2:{ cbn. eapply table_below; [|rewrite Hr; apply expire_below|exact Hok]. done. }
  destruct Hr as (s & Hrec & Hfree & Hcap & Hid & Hck & Hsid & Hh & Ho & Hb & Ha & Hcr & _).
  assert (table_ok l (expire t now, g)) as [H1 H2 H3] by (eapply table_below; [|apply expire_below|exact Hok]; done).
  cbn in H1, H2, H3. constructor; cbn; rewrite ?Hrec.
  - by rewrite Hl.
  - by eapply (capacity_insert l (expire t now) b (normalize_address a)).
  - apply map_Forall_insert; [done|]. rewrite Hid. split.
    + split; [done|]. eexists. rewrite lookup_insert_eq. split; [done|]. cbn. by rewrite Hh.
    + intros id' s' Hs'. destruct (H3 id' s' Hs') as (He & gr & Hgr & ?). split; [done|].
      exists gr. rewrite lookup_insert_ne by congruence. done.
Qed.

Lemma rotate_ok l t g prior previous b now now_ms id secret token r t' :
  table_ok l (t, g) → g !! id = None → records t !! prior = Some previous →
  rotate t prior b now now_ms id secret token = Ret (r, t') →
  table_ok l (t', granted g (origin previous) now (Some b) r).
Proof.
  intros Hok Hg Hp. unfold rotate. rewrite Hp.
  set (t1 := set_records t (delete prior (records t))).
  assert (table_ok l (t1, g)) as Hok1 by (eapply table_below; [|apply below_delete|exact Hok]; done).
  destruct (expired previous now (limits t1)); [by intros [= <- <-]|].
  destruct (issue t1 _ _ _ _ _ _ _ _) as [[r1 t2]|] eqn:Hi; cbn [obind]; [|done].
  destruct r1 as [issued|e]; intros [= <- <-].
  - by apply (issue_ok l t1 g _ _ _ _ _ _ _ _ _ _ Hok1 Hg Hi).
  - apply issue_spec in Hi as [Hl Hr]. eapply table_below; [|  |exact Hok]; [done|]. cbn. rewrite Hr.
    intros i s [[<- <-]|[_ Hs]]%lookup_insert_Some; [by exists previous|].
    apply expire_below in Hs as (s1 & Hs1 & Hc). cbn in Hs1.
    apply below_delete in Hs1 as (s2 & Hs2 & Hc2). exists s2. by rewrite Hc.
Qed.

Lemma lookup_spec t c o now :
  limits (snd (lookup_cookie t c o now)) = limits t
  ∧ below (records (snd (lookup_cookie t c o now))) (records t)
  ∧ ∀ s, fst (lookup_cookie t c o now) = Some s →
      snd (lookup_cookie t c o now) = t ∧ ∃ id, cookie_id c = Some id ∧ records t !! id = Some s
        ∧ expired s now (limits t) = false ∧ origin s = o ∧ handle_hash s = sha256 c.
Proof.
  unfold lookup_cookie. destruct (cookie_id c) as [id|]; [|split_and!; [done|apply below_refl|done]].
  destruct (records t !! id) as [s|] eqn:Hs; [|split_and!; [done|apply below_refl|done]].
  destruct (expired s now (limits t)) eqn:He; [split_and!; [done|apply below_delete|done]|].
  unfold str_eqb. do 2 case_bool_decide; cbn; split_and!; try done; try apply below_refl.
  intros s' [= <-]. split; [done|]. by exists id.
Qed.

Lemma authenticate_spec l t g c o now :
  table_ok l (t, g) →
  ∃ r t', authenticate t c o now = Ret (r, t') ∧ limits t' = limits t
    ∧ below (records t') (records t)
    ∧ ∀ s, r = Some s → ∃ id s0, cookie_id c = Some id ∧ records t !! id = Some s0
        ∧ s = set_activity s0 (Z.max (last_activity s0) now)
        ∧ expired s0 now (limits t) = false ∧ origin s0 = o ∧ handle_hash s0 = sha256 c.
Proof.
  intros Hok. unfold authenticate. destruct (lookup_spec t c o now) as (Hl & Hb & Hs).
  destruct (lookup_cookie t c o now) as [[s|] t1] eqn:Hlk; cbn in *.
  2:{ eexists _, _. by split_and!. }
  destruct (Hs s eq_refl) as (-> & id & Hc & Hid & He & Ho & Hh).
  destruct (ok_vouched _ _ Hok id s Hid) as [Hsid _]. cbn in Hsid. rewrite Hsid, Hid.
  eexists _, _. split; [done|]. split_and!; [done|by apply below_update|].
  intros s' [= <-]. by exists id, s.
Qed.

Lemma touch_below t id b now r t' :
  touch t id b now = Ret (r, t') → limits t' = limits t ∧ below (records t') (records t).
Proof.
  unfold touch. destruct (negb _); [intros [= <- <-]; split; [done|apply below_refl]|].
  destruct (records t !! id) as [s|] eqn:Hs; [|done]. intros [= <- <-].
  split; [done|]. by apply below_update.
Qed.

(** Every step but an issue keeps the history and only loses sessions. *)
Lemma step_cases l x y :
  table_ok l x → step x y →
  (snd y = snd x ∧ limits (fst y) = limits (fst x) ∧ below (records (fst y)) (records (fst x)))
  ∨ table_ok l y
    ∧ (∃ id gr, snd x !! id = None ∧ snd y = <[id := gr]> (snd x)
       ∧ ∀ i, i ≠ id → is_Some (records (fst y) !! i) → is_Some (records (fst x) !! i)).
Proof.
  intros Hok. destruct 1 as [t g b o a now now_ms id secret token r t' Hg Hi
    |t g prior previous b now now_ms id secret token r t' Hg Hp Hi|t g c o now|t g c o now s t' Hi
    |t g id b now r t' Hi|t g id|t g i|t g now]; cbn.
  - destruct r as [issued|e]; [right|left].
    + split; [by eapply issue_ok|]. apply issue_spec in Hi as [_ (s & Hrec & _ & _ & Hid & _)].
      exists id, (mk_grant (cookie issued) o now b). cbn. rewrite Hid. split_and!; [done|done|].
      intros i Hn [s' Hs']. rewrite Hrec, lookup_insert_ne in Hs' by done.
      apply expire_below in Hs' as (s1 & ? & _). by exists s1.
    + apply issue_spec in Hi as [Hl Hr]. split_and!; [done|done|]. rewrite Hr. apply expire_below.
  - pose proof (rotate_ok l t g prior previous b now now_ms id secret token r t' Hok Hg Hp Hi) as Hok'.
    unfold rotate in Hi. rewrite Hp in Hi. set (t1 := set_records t _) in *.
    destruct (expired previous now (limits t1)); [simplify_eq; left; split_and!; [done|done|apply below_delete]|].
    destruct (issue t1 _ _ _ _ _ _ _ _) as [[r1 t2]|] eqn:Hi1; cbn [obind] in Hi; [|done].
    destruct r1 as [issued|e]; simplify_eq; [right|left].
    + split; [done|]. apply issue_spec in Hi1 as [_ (s & Hrec & _ & _ & Hid & _)].
      exists id, (mk_grant (cookie issued) (origin previous) now (Some b)). cbn. rewrite Hid.
      split_and!; [done|done|]. intros i Hn [s' Hs']. rewrite Hrec, lookup_insert_ne in Hs' by done.
      apply expire_below in Hs' as (s1 & Hs1 & _). apply below_delete in Hs1 as (s2 & ? & _). by exists s2.
    + apply issue_spec in Hi1 as [Hl Hr]. split_and!; [done|done|]. cbn. rewrite Hr.
      intros i s [[<- <-]|[_ Hs]]%lookup_insert_Some; [by exists previous|].
      apply expire_below in Hs as (s1 & Hs1 & Hc). apply below_delete in Hs1 as (s2 & Hs2 & Hc2).
      exists s2. by rewrite Hc.
  - left. destruct (lookup_spec t c o now) as (? & ? & _). by split_and!.
  - left. destruct (authenticate_spec l t g c o now Hok) as (r & t1 & He & ? & ? & _).
    rewrite Hi in He. injection He as <- <-. by split_and!.
  - left. apply touch_below in Hi as [? ?]. by split_and!.
  - left. split_and!; [done|done|apply below_delete].
  - left. split_and!; [done|done|apply below_filter].
  - left. split_and!; [done|done|apply expire_below].
Qed.

Lemma step_ok l x y : table_ok l x → step x y → table_ok l y.
Proof.
  intros Hok Hs. destruct (step_cases l x y Hok Hs) as [(Hg & Hl & Hb)|[? _]]; [|done].
  destruct x as [t g], y as [t' g']. cbn in *. subst. by eapply table_below.
Qed.

Lemma reachable_ok l x : reachable l x → table_ok l x.
Proof.
  intros (t0 & Hn & Hr). assert (table_ok l (t0, ∅)) as H0.
  { unfold sessions_new in Hn. split_match_in Hn; [|done]. simplify_eq. reflect_bools.
    constructor; cbn; [done| |done].
    constructor; intros; unfold count_sessions, SESSION_LIMIT, BOOTSTRAP_LIMIT;
      rewrite ?map_filter_empty, ?map_size_empty; lia. }
  clear Hn. induction Hr as [|x y z Hs _ IH]; [done|]. apply IH. by eapply step_ok.
Qed.

(** A session that is gone stays gone. *)
Lemma gone_stays l x y id :
  table_ok l x → rtc step x y → is_Some (snd x !! id) → records (fst x) !! id = None →
  records (fst y) !! id = None.
Proof.
  intros Hok Hr. revert Hok. induction Hr as [|x y z Hs _ IH]; intros Hok Hg Hn; [done|].
  pose proof (step_ok l x y Hok Hs) as Hok'.
  destruct (step_cases l x y Hok Hs) as [(Hgg & _ & Hb)|[_ (i & gr & Hfree & Hgg & Hkeep)]]; apply IH; try done.
  - by rewrite Hgg.
  - destruct (records (fst y) !! id) as [s|] eqn:Hy; [|done].
    apply Hb in Hy as (s' & Hs' & _). congruence.
  - rewrite Hgg. destruct (decide (i = id)) as [->|]; [by rewrite lookup_insert_eq|by rewrite lookup_insert_ne].
  - destruct (decide (id = i)) as [->|Hne]; [destruct Hg; congruence|].
    apply eq_None_not_Some. intros Hy. apply (Hkeep id Hne) in Hy as [s Hy]. congruence.
Qed.

(** ** Properties *)

(** The table cannot be flooded: on every reachable state there are at most
    4,096 sessions, at most [per_address] from one address, at most [per_identity]
    of one identity and at most 256 anonymous ones, also through rotation. *)
Lemma sessions_bounded l t g :
  reachable l (t, g) →
  Z.of_nat (size (records t)) ≤ SESSION_LIMIT
  ∧ (∀ a, count_sessions (same_address a) (records t) ≤ per_address l)
  ∧ (∀ i, count_sessions (bound_to i) (records t) ≤ per_identity l)
  ∧ count_sessions is_bootstrap (records t) ≤ BOOTSTRAP_LIMIT.
Proof. intros [_ [H1 H2 H3 H4] _]%reachable_ok. done. Qed.

Lemma expired_lifetime s now l :
  expired s now l = false →
  now - created_at s < match binding s with Some _ => absolute l | None => BOOTSTRAP_LIFETIME end
  ∧ now - last_activity s < match binding s with Some _ => idle l | None => BOOTSTRAP_LIFETIME end.
Proof.
  unfold expired, saturating_duration_since. destruct (binding s); intros H; reflect_bools; lia.
Qed.

(** C21. The table is bounded and authentication accepts no cookie it should not: on every
    reachable state there are at most 4,096 sessions, [per_address] from one address,
    [per_identity] of one identity and 256 anonymous ones, and authentication
    returns, and if it names a session then that session was issued with a cookie of
    the presented digest, for the presented origin and with the binding it still has,
    less than its absolute lifetime ago, whatever activity it had since. *)
Theorem session_auth_sound l t g c o now :
  reachable l (t, g) →
  (Z.of_nat (size (records t)) ≤ SESSION_LIMIT
   ∧ (∀ a, count_sessions (same_address a) (records t) ≤ per_address l)
   ∧ (∀ i, count_sessions (bound_to i) (records t) ≤ per_identity l)
   ∧ count_sessions is_bootstrap (records t) ≤ BOOTSTRAP_LIMIT)
  ∧ ∃ r t', authenticate t c o now = Ret (r, t')
    ∧ ∀ s, r = Some s → ∃ gr, g !! sess_id s = Some gr
        ∧ sha256 c = sha256 (g_cookie gr) ∧ g_origin gr = o ∧ binding s = g_binding gr
        ∧ now - g_created gr
          < match g_binding gr with Some _ => absolute l | None => BOOTSTRAP_LIFETIME end.
Proof.
  intros Hr. split; [by eapply sessions_bounded|]. pose proof (reachable_ok _ _ Hr) as Hok. destruct (authenticate_spec l t g c o now Hok) as (r & t' & He & _ & _ & Hs).
  exists r, t'. split; [done|]. intros s Hs'. destruct (Hs s Hs') as (id & s0 & Hc & Hid & -> & Hx & Ho & Hh).
  destruct (ok_vouched _ _ Hok id s0 Hid) as (Hsid & gr & Hg & Hgh & Hgo & Hgc & Hgb). cbn in Hg.
  exists gr. apply expired_lifetime in Hx as [Hx _]. pose proof (ok_limits _ _ Hok) as Hlim. cbn in Hlim. rewrite Hlim in Hx.
  cbn [sess_id set_activity binding]. rewrite Hsid, <-Hgc, <-Hgb. split_and!; congruence || done.
Qed.

(** The ways to end a session. *)
Inductive ended (t : Sessions) (g : gmap Z Grant) (id : Z) : Sessions → gmap Z Grant → Prop :=
| ended_revoke : ended t g id (revoke t id) g
| ended_identity gr b : g !! id = Some gr → g_binding gr = Some b →
    ended t g id (revoke_identity t (identity_id b)) g
| ended_rotate previous b now now_ms id' secret token issued t' :
    records t !! id = Some previous → g !! id' = None →
    rotate t id b now now_ms id' secret token = Ret (Ok issued, t') →
    ended t g id t' (granted g (origin previous) now (Some b) (Ok issued)).

Lemma ended_gone l t g id t1 g1 :
  table_ok l (t, g) → is_Some (g !! id) → ended t g id t1 g1 →
  records t1 !! id = None ∧ is_Some (g1 !! id) ∧ table_ok l (t1, g1).
Proof.
  intros Hok [gr0 Hg0] He. destruct He as [|gr b Hg Hb|previous b now now_ms id' secret token issued t' Hp Hg Hr].
  - split_and!; [apply lookup_delete_eq|by exists gr0|].
    eapply table_below; [|apply below_delete|exact Hok]. done.
  - split_and!; [|by exists gr0|eapply table_below; [|apply below_filter|exact Hok]; done].
    apply map_lookup_filter_None. destruct (records t !! id) as [s|] eqn:Hs; [right|by left].
    intros s' [= <-]. cbn. destruct (ok_vouched _ _ Hok id s Hs) as (_ & gr' & Hg' & _ & _ & _ & Hgb).
    cbn in Hg'. simplify_eq. unfold bound_to. rewrite Hgb, Hb. cbn. by rewrite Z.eqb_refl.
  - pose proof (rotate_ok _ _ _ _ _ _ _ _ _ _ _ _ _ Hok Hg Hp Hr) as Hok'. split_and!; [|cbn|done].
    + unfold rotate in Hr. rewrite Hp in Hr. set (t1 := set_records t _) in *.
      destruct (expired previous now (limits t1)); [done|].
      destruct (issue t1 _ _ _ _ _ _ _ _) as [[r1 t2]|] eqn:Hi1; cbn [obind] in Hr; [|done].
      destruct r1 as [issued'|e]; [|done]. simplify_eq.
      apply issue_spec in Hi1 as [_ (s & Hrec & _)].
      rewrite Hrec, lookup_insert_ne by congruence.
      destruct (records (expire t1 now) !! id) as [s'|] eqn:Hs'; [|done].
      apply expire_below in Hs' as (s1 & Hs1 & _). cbn in Hs1. by rewrite lookup_delete_eq in Hs1.
    + destruct (decide (session_id issued = id)) as [->|]; [by rewrite lookup_insert_eq|].
      by rewrite lookup_insert_ne.
Qed.

(** C22. An ended session never comes back: after it was revoked, its identity was
    revoked, or it was rotated into a new one, no later sequence of operations lets
    any cookie authenticate as it. *)
Theorem ended_sessions_stay_dead l t g id t1 g1 t2 g2 c o now s t3 :
  reachable l (t, g) → is_Some (g !! id) → ended t g id t1 g1 →
  rtc step (t1, g1) (t2, g2) → authenticate t2 c o now = Ret (Some s, t3) → sess_id s ≠ id.
Proof.
  intros Hok%reachable_ok Hg He Hr Ha Hid.
  destruct (ended_gone l t g id t1 g1 Hok Hg He) as (Hn & Hg1 & Hok1).
  pose proof (gone_stays l (t1, g1) (t2, g2) id Hok1 Hr Hg1 Hn) as Hn2.
  assert (table_ok l (t2, g2)) as Hok2.
  { clear -Hok1 Hr. induction Hr as [|x y z Hs _ IH]; [done|]. apply IH. by eapply step_ok. }
  destruct (authenticate_spec l t2 g2 c o now Hok2) as (r & t' & He2 & _ & _ & Hs).
  rewrite Ha in He2. injection He2 as <- <-.
  destruct (Hs s eq_refl) as (i & s0 & _ & Hi & -> & _).
  destruct (ok_vouched _ _ Hok2 i s0 Hi) as [Hsid _]. cbn in Hid, Hn2. congruence.
Qed.

Lemma split_dot_app a b : split_dot a = None → split_dot (a +:+ "." +:+ b)%string = Some (a, b).
Proof.
  induction a as [|ch a IH]; [done|].
  change (String ch a +:+ "." +:+ b)%string with (String ch (a +:+ "." +:+ b)%string).
  cbn [split_dot]. destruct (_ =? 46)%N; [done|].
  destruct (split_dot a) as [[]|]; [done|]. intros _. by rewrite IH.
Qed.
Lemma is_ascii_app a b : is_ascii (a +:+ b)%string = is_ascii a && is_ascii b.
Proof.
  induction a as [|ch a IH]; [done|]. change (String ch a +:+ b)%string with (String ch (a +:+ b)%string).
  cbn [is_ascii]. by rewrite IH, andb_assoc.
Qed.

(** What the [uuid] crate and the token encoder document: a simple UUID is 32 ASCII
    characters without a dot that parse back, a token is 43 ASCII characters. *)
Definition draws_ok (id : Z) (secret : string) : Prop :=
  uuid_parse (uuid_simple id) = Some id ∧ str_len (uuid_simple id) = 32
  ∧ is_ascii (uuid_simple id) = true ∧ split_dot (uuid_simple id) = None
  ∧ str_len secret = 43 ∧ is_ascii secret = true.

Lemma cookie_id_issued id secret :
  draws_ok id secret → cookie_id (uuid_simple id +:+ "." +:+ secret)%string = Some id.
Proof.
  intros (Hp & Hl & Ha & Hd & Hsl & Hsa). unfold cookie_id.
  rewrite !str_len_app, Hl, Hsl, !is_ascii_app, Ha, Hsa, split_dot_app by done.
  rewrite Hl, Hsl. exact Hp.
Qed.

(** An issued cookie works: presented from the origin it was issued for, before
    the idle limit, it authenticates as the new session with its binding; from any
    other origin it does not. *)
Theorem issued_cookie_authenticates l t g b o a now now_ms id secret token issued t' now' :
  reachable l (t, g) → g !! id = None → draws_ok id secret →
  issue t b o a now now_ms id secret token = Ret (Ok issued, t') →
  now ≤ now' → now' - now < match b with Some _ => idle l | None => BOOTSTRAP_LIFETIME end →
  (∃ s t'', authenticate t' (cookie issued) o now' = Ret (Some s, t'') ∧ sess_id s = id ∧ binding s = b)
  ∧ (∀ o', o' ≠ o → ∃ t'', authenticate t' (cookie issued) o' now' = Ret (None, t'')).
Proof.
  intros Hr Hg Hd Hi Hn Hidle. pose proof (reachable_ok l (t, g) Hr) as Hok.
  assert (idle l ≤ absolute l) as Hia.
  { destruct Hr as (t0 & Hn0 & _). unfold sessions_new in Hn0. split_match_in Hn0; [|done].
    by reflect_bools. }
  pose proof (ok_limits _ _ Hok) as Hlim. cbn in Hlim.
  apply issue_spec in Hi as [Hl (s & Hrec & _ & _ & Hid & Hck & Hsid & Hh & Ho & Hb & _ & Hcr & Hla)].
  assert (records t' !! id = Some s) as Hs by (rewrite Hrec; apply lookup_insert_eq).
  assert (expired s now' (limits t') = false) as Hx.
  { unfold expired, saturating_duration_since. rewrite Hl, Hlim, Hb, Hcr, Hla.
    destruct b; apply orb_false_iff; rewrite !Z.leb_gt; lia. }
  assert (cookie_id (cookie issued) = Some id) as Hcid by (rewrite Hck; by apply cookie_id_issued).
  unfold authenticate, lookup_cookie. rewrite Hcid, Hs, Hx, Ho. unfold str_eqb. split.
  - rewrite bool_decide_true, bool_decide_true by done. cbn. rewrite Hsid, Hs.
    eexists _, _. split; [done|]. cbn. by rewrite Hsid, Hb.
  - intros o' Hne. rewrite bool_decide_false by done. cbn. by eexists.
Qed.

End table.

(** ** Witnesses *)

Definition demo_limits : Limits := mk_limits (from_secs 60) (from_secs 600) 2 3.
Definition demo_table : Sessions := mk_sessions ∅ demo_limits.
Definition demo_simple (_ : Z) : string := "0123456789abcdef0123456789abcdef".
Definition demo_parse (_ : string) : option Z := Some 7.
Definition demo_secret : string := "0123456789012345678901234567890123456789012".
Definition demo_issue : outcome (result SessionError Issued * Sessions) :=
  issue id demo_simple demo_table None "https://a" (V4 1) 0 1000 7 demo_secret "token".
Definition demo_issued : Issued :=
  match demo_issue with Ret (Ok i, _) => i | _ => mk_issued "" "" 0 end.
Definition demo_after : Sessions :=
  match demo_issue with Ret (_, t) => t | Panic => demo_table end.
Definition demo_history : gmap Z Grant :=
  granted ∅ "https://a" 0 None (Ok demo_issued).

Lemma demo_start : reachable id demo_simple demo_parse demo_limits (demo_table, ∅).
Proof. exists demo_table. split; [reflexivity|constructor]. Qed.
Lemma demo_reachable : reachable id demo_simple demo_parse demo_limits (demo_after, demo_history).
Proof.
  exists demo_table. split; [reflexivity|]. eapply rtc_l; [|constructor].
  apply (step_issue id demo_simple demo_parse demo_table ∅ None "https://a" (V4 1) 0 1000 7
    demo_secret "token" (Ok demo_issued) demo_after); reflexivity.
Qed.

Lemma session_auth_sound_witness :
  ∃ r t', authenticate id demo_parse demo_after (cookie demo_issued) "https://a" 5 = Ret (r, t').
Proof.
  destruct (session_auth_sound id demo_simple demo_parse demo_limits demo_after demo_history
    (cookie demo_issued) "https://a" 5 demo_reachable) as (_ & r & t' & He & _).
  exists r, t'. exact He.
Defined.

(** Two sessions, one of them revoked: the other still authenticates. *)
Definition two_simple (i : Z) : string :=
  if i =? 7 then "0123456789abcdef0123456789abcdef" else "1123456789abcdef0123456789abcdef".
Definition two_parse (s : string) : option Z :=
  Some (if str_eqb s "0123456789abcdef0123456789abcdef" then 7 else 8).
Definition two_after (t : Sessions) (i : Z) : Issued * Sessions :=
  match issue id two_simple t None "https://a" (V4 1) 0 1000 i demo_secret "token" with
  | Ret (Ok iss, t') => (iss, t')
  | _ => (mk_issued "" "" 0, t)
  end.
Definition two_table : Sessions := snd (two_after (snd (two_after demo_table 7)) 8).
Definition two_history : gmap Z Grant :=
  granted (granted ∅ "https://a" 0 None (Ok (fst (two_after demo_table 7)))) "https://a" 0 None
    (Ok (fst (two_after (snd (two_after demo_table 7)) 8))).
Definition two_auth : option Session * Sessions :=
  match authenticate id two_parse (revoke two_table 7)
          (cookie (fst (two_after (snd (two_after demo_table 7)) 8))) "https://a" 5 with
  | Ret x => x
  | Panic => (None, two_table)
  end.
Definition two_session : Session :=
  match fst two_auth with
  | Some s => s
  | None => mk_session 0 None "" (V4 0) 0 0 "" "" 0 0
  end.

Lemma two_reachable : reachable id two_simple two_parse demo_limits (two_table, two_history).
Proof.
  exists demo_table. split; [reflexivity|]. eapply rtc_l; [|eapply rtc_l; [|constructor]].
  - apply (step_issue id two_simple two_parse demo_table ∅ None "https://a" (V4 1) 0 1000 7
      demo_secret "token" (Ok (fst (two_after demo_table 7))) (snd (two_after demo_table 7)));
      vm_compute; reflexivity.
  - apply (step_issue id two_simple two_parse (snd (two_after demo_table 7)) _ None "https://a" (V4 1) 0 1000 8
      demo_secret "token" (Ok (fst (two_after (snd (two_after demo_table 7)) 8))) two_table);
      vm_compute; reflexivity.
Qed.

Lemma ended_sessions_stay_dead_witness : sess_id two_session = 8 ∧ sess_id two_session ≠ 7.
Proof.
  split; [vm_compute; reflexivity|].
  apply (ended_sessions_stay_dead id two_simple two_parse demo_limits two_table two_history 7
    (revoke two_table 7) two_history (revoke two_table 7) two_history
    (cookie (fst (two_after (snd (two_after demo_table 7)) 8))) "https://a" 5 two_session (snd two_auth)).
  - exact two_reachable.
  - eexists. vm_compute. reflexivity.
  - apply ended_revoke.
  - constructor.
  - vm_compute. reflexivity.
Defined.

Lemma issued_cookie_authenticates_witness :
  ∃ s t'', authenticate id demo_parse demo_after (cookie demo_issued) "https://a" 5 = Ret (Some s, t'')
    ∧ sess_id s = 7 ∧ binding s = None.
Proof.
  refine (proj1 (issued_cookie_authenticates id demo_simple demo_parse demo_limits demo_table ∅ None
    "https://a" (V4 1) 0 1000 7 demo_secret "token" demo_issued demo_after 5 demo_start _ _ _ _ _)).
  - reflexivity.
  - by vm_compute.
  - vm_compute. reflexivity.
  - lia.
  - by vm_compute.
Defined.
