(* ===== verification/Logins.v ===== *)
(** * Login transactions

    [src/access/login_transactions.rs]: single-use OIDC login state, kept under the
    digest of the state parameter and bound to the browser, origin and provider
    revision that started the login.

    The [oauth2] and [url] crates and the transport policy are outside: [Provider]
    carries what they answer for one login (the origin of the redirect URI, whether
    the authorization endpoint is allowed, the two parsed URLs, and the random state,
    nonce, verifier and finished URL). *)

From S2P Require Import Prelude.

Definition LIMIT : Z := 256.
Definition LIFETIME : Z := from_secs 300.

Record Start := mk_start {
  st_browser : Z;
  st_origin : string;
  st_provider_id : string;
  st_revision : Z;
  st_return_path : string;
  st_candidate_plan : option Z
}.

Record Transaction := mk_transaction {
  browser : Z;
  origin : string;
  provider_id : string;
  revision : Z;
  return_path : string;
  candidate_plan : option Z;
  nonce : string;
  verifier : string;
  created : Z
}.

Inductive LoginError :=
| LoginCapacity
| BrowserCapacity
| ReturnPath
| InvalidBinding
| OriginMismatch
| External (message : string)
| InvalidState
| StateUnavailable
| BindingInvalid.

Record Provider := mk_provider {
  redirect_origin : result string string;
  endpoint_allowed : result string unit;
  auth_url : result string unit;
  redirect_url : result string unit;
  drawn_state : string;
  drawn_nonce : string;
  drawn_verifier : string;
  login_url : string
}.

Definition external {A : Type} (r : result string A) : result LoginError A :=
  match r with Ok a => Ok a | Err m => Err (External m) end.

(** [is_ascii_control], or a backslash, [%], [#] or a space. *)
Definition forbidden_byte (b : Z) : bool :=
  (b <? 32) || (b =? 127) || (b =? 92) || (b =? 37) || (b =? 35) || (b =? 32).

Definition validate_return_path (path : string) : result LoginError unit :=
  if (str_len path <=? 2048) && str_prefix "/" path && negb (str_prefix "//" path)
     && negb (str_prefix "/auth/" path) && forallb (λ b, b <? 128) (bytes_of path)
     && negb (existsb forbidden_byte (bytes_of path))
  then Ok tt else Err ReturnPath.

Section logins.
Context (sha256 : string → string).

Notation Transactions := (gmap string Transaction).

Definition candidate (pending : Transactions) (state : string) : option Z :=
  if str_is_empty state || (128 <? str_len state) then None
  else match pending !! sha256 state with
       | Some t => candidate_plan t
       | None => None
       end.

Definition browser_logins (b : Z) (pending : Transactions) : Z :=
  Z.of_nat (size (filter (λ e : string * Transaction, browser (snd e) = b) pending)).

Definition require_capacity (pending : Transactions) (b : Z) (now : Z)
    : result LoginError unit * Transactions :=
  let pending := filter (λ e : string * Transaction,
    saturating_duration_since now (created (snd e)) < LIFETIME) pending in
  (if negb (Z.of_nat (size pending) <? LIMIT) then Err LoginCapacity
   else if negb (browser_logins b pending <? 2) then Err BrowserCapacity
   else Ok tt, pending).

(** The checks of [start], in order, after the capacity was required. *)
Definition start_checks (input : Start) (p : Provider) : result LoginError unit :=
  let? _ := validate_return_path (st_return_path input) in
  let? _ := (if (str_len (st_provider_id input) <=? 64) && negb (str_is_empty (st_provider_id input))
                && (0 <? st_revision input)
             then Ok tt else Err InvalidBinding) in
  let? redirect := external (redirect_origin p) in
  let? _ := (if str_eqb redirect (st_origin input) then Ok tt else Err OriginMismatch) in
  let? _ := external (endpoint_allowed p) in
  let? _ := external (auth_url p) in
  external (redirect_url p).

Definition start (pending : Transactions) (input : Start) (p : Provider) (now : Z)
    : outcome (result LoginError string * Transactions) :=
  let '(capacity, pending) := require_capacity pending (st_browser input) now in
  match (let? _ := capacity in start_checks input p) with
  | Err e => Ret (Err e, pending)
  | Ok _ =>
      let digest := sha256 (drawn_state p) in
      let t := mk_transaction (st_browser input) (st_origin input) (st_provider_id input)
                 (st_revision input) (st_return_path input) (st_candidate_plan input)
                 (drawn_nonce p) (drawn_verifier p) now in
      if bool_decide (is_Some (pending !! digest)) then Panic
      else Ret (Ok (login_url p), <[digest := t]> pending)
  end.

Definition consume (pending : Transactions) (state : string) (b : Z) (o : string) (r now : Z)
    : result LoginError Transaction * Transactions :=
  if str_is_empty state || (128 <? str_len state) then (Err InvalidState, pending)
  else
    match pending !! sha256 state with
    | None => (Err StateUnavailable, pending)
    | Some t =>
        let pending := delete (sha256 state) pending in
        if (browser t =? b) && str_eqb (origin t) o && (revision t =? r)
           && (saturating_duration_since now (created t) <? LIFETIME)
        then (Ok t, pending)
        else (Err BindingInvalid, pending)
    end.

Definition revoke_browser (pending : Transactions) (b : Z) : Transactions :=
  filter (λ e : string * Transaction, browser (snd e) ≠ b) pending.

(** ** Runs

    [started] keeps what each state was drawn for; states are random and never
    repeat. *)
Inductive login_step : Transactions * gmap string Transaction → Transactions * gmap string Transaction → Prop :=
| login_start m g input p now r m' t :
    g !! sha256 (drawn_state p) = None → start m input p now = Ret (r, m') →
    t = mk_transaction (st_browser input) (st_origin input) (st_provider_id input)
          (st_revision input) (st_return_path input) (st_candidate_plan input)
          (drawn_nonce p) (drawn_verifier p) now →
    login_step (m, g) (m', match r with Ok _ => <[sha256 (drawn_state p) := t]> g | Err _ => g end)
| login_consume m g state b o r now : login_step (m, g) (snd (consume m state b o r now), g)
| login_revoke m g b : login_step (m, g) (revoke_browser m b, g).

Definition login_reachable (x : Transactions * gmap string Transaction) : Prop := rtc login_step (∅, ∅) x.

(** A path a browser resolves on the same origin. *)
Definition local_path (p : string) : Prop :=
  str_prefix "/" p = true ∧ str_prefix "//" p = false ∧ str_prefix "/auth/" p = false
  ∧ Forall (λ b, 32 < b < 127 ∧ b ≠ 92 ∧ b ≠ 37 ∧ b ≠ 35) (bytes_of p).

Record logins_ok (x : Transactions * gmap string Transaction) : Prop := mk_logins_ok {
  lo_limit : Z.of_nat (size (fst x)) ≤ LIMIT;
  lo_browser : ∀ b, browser_logins b (fst x) ≤ 2;
  lo_history : fst x ⊆ snd x;
  lo_paths : map_Forall (λ _ t, local_path (return_path t)) (snd x)
}.

Lemma validate_return_path_spec p : validate_return_path p = Ok tt → local_path p.
Proof.
  unfold validate_return_path.
  destruct (_ && _) eqn:H; [|done]. intros _. rewrite !andb_true_iff, !negb_true_iff in H.
  destruct H as (((((_ & H1) & H2) & H3) & H4) & H5). split_and!; [done..|].
  apply Forall_forall. intros b Hb%list_elem_of_In.
  rewrite forallb_forall in H4. specialize (H4 b Hb). reflect_bools.
  assert (forbidden_byte b = false) as Hf.
  { apply not_true_is_false. intros Ht. apply not_true_iff_false in H5. apply H5, existsb_exists. by exists b. }
  unfold forbidden_byte in Hf. reflect_bools. lia.
Qed.

Lemma logins_sub (m' m g : gmap string Transaction) : m' ⊆ m → logins_ok (m, g) → logins_ok (m', g).
Proof.
  intros Hs [H1 H2 H3 H4]. cbn in *. constructor; cbn; [| | |done].
  - apply map_subseteq_size in Hs. lia.
  - intros b. specialize (H2 b). unfold browser_logins in *.
    pose proof (map_subseteq_size _ _ (map_filter_subseteq_mono (λ e : string * Transaction, browser (snd e) = b) _ _ Hs)).
    lia.
  - by etrans.
Qed.

(** A started login: either nothing was stored, or one checked transaction was. *)
Lemma start_spec m input p now r m' :
  start m input p now = Ret (r, m') →
  match r with
  | Err _ => m' ⊆ m
  | Ok _ => ∃ m0, m0 ⊆ m ∧ m0 !! sha256 (drawn_state p) = None
      ∧ Z.of_nat (size m0) < LIMIT ∧ browser_logins (st_browser input) m0 < 2
      ∧ local_path (st_return_path input)
      ∧ m' = <[sha256 (drawn_state p) := mk_transaction (st_browser input) (st_origin input)
                (st_provider_id input) (st_revision input) (st_return_path input)
                (st_candidate_plan input) (drawn_nonce p) (drawn_verifier p) now]> m0
  end.
Proof.
  unfold start, require_capacity. set (m0 := filter _ m).
  assert (m0 ⊆ m) as Hsub by apply map_filter_subseteq.
  destruct (Z.of_nat (size m0) <? LIMIT) eqn:Hl; cbn [negb rbind]; [|by intros [= <- <-]].
  destruct (browser_logins (st_browser input) m0 <? 2) eqn:Hb; cbn [negb rbind]; [|by intros [= <- <-]].
  destruct (start_checks input p) eqn:Hc; [|by intros [= <- <-]].
  assert (validate_return_path (st_return_path input) = Ok tt) as Hv.
  { unfold start_checks in Hc. by destruct (validate_return_path _) as [[]|]. }
  case_bool_decide as Hfree; [done|]. intros [= <- <-]. exists m0. reflect_bools.
  split_and!; [done|by apply eq_None_not_Some|done|done|by apply validate_return_path_spec|done].
Qed.

Lemma consume_sub m state b o r now : snd (consume m state b o r now) ⊆ m.
Proof. unfold consume. repeat split_match; try done; apply delete_subseteq. Qed.

Lemma login_step_ok x y : logins_ok x → login_step x y → logins_ok y.
Proof.
  intros Hok. destruct 1 as [m g input p now r m' t Hg Hs Ht|m g state b o r now|m g b].
  - apply start_spec in Hs. destruct r as [u|e]; [|by eapply logins_sub].
    destruct Hs as (m0 & Hsub & Hfree & Hl & Hb & Hp & ->). rewrite <-Ht.
    destruct (logins_sub m0 m g Hsub Hok) as [H1 H2 H3 H4]. cbn in *. constructor; cbn.
    + rewrite map_size_insert_None by done. lia.
    + intros b. unfold browser_logins in *. destruct (decide (st_browser input = b)) as [<-|Hne].
      * rewrite map_filter_insert_True by (by subst t).
        rewrite map_size_insert_None by (apply map_lookup_filter_None; by left). lia.
      * rewrite map_filter_insert_False by (by subst t). rewrite delete_id by done. apply H2.
    + by apply insert_mono.
    + apply map_Forall_insert; [done|]. by subst t.
  - eapply logins_sub; [apply consume_sub|done].
  - eapply logins_sub; [apply map_filter_subseteq|done].
Qed.

Lemma login_reachable_ok x : login_reachable x → logins_ok x.
Proof.
  intros Hr. assert (logins_ok (∅, ∅)) as H0.
  { constructor; cbn; [by vm_compute| |done|done]. intros b. unfold browser_logins.
    rewrite map_filter_empty. by vm_compute. }
  unfold login_reachable in Hr. revert H0. generalize ((∅, ∅) : Transactions * gmap string Transaction) Hr.
  clear Hr. intros z Hr. induction Hr as [|x y z Hs _ IH]; intros H0; [done|]. apply IH. by eapply login_step_ok.
Qed.

(** A state that was drawn before and is not pending never is again. *)
Lemma login_gone_stays x y d :
  logins_ok x → rtc login_step x y → is_Some (snd x !! d) → fst x !! d = None → fst y !! d = None.
Proof.
  intros Hok Hr. revert Hok. induction Hr as [|x y z Hs _ IH]; intros Hok Hg Hn; [done|].
  assert (is_Some (snd y !! d) ∧ fst y !! d = None) as [Hg' Hn']; [|by apply IH; [eapply login_step_ok|..]].
  destruct Hs as [m g input p now r m' t Hfresh Hs Ht|m g state b o r now|m g b]; cbn in *.
  - apply start_spec in Hs. destruct r as [u|e].
    + destruct Hs as (m0 & Hsub & _ & _ & _ & _ & ->).
      assert (d ≠ sha256 (drawn_state p)) as Hne by (intros ->; destruct Hg; congruence).
      rewrite !lookup_insert_ne by done. split; [done|]. by eapply lookup_weaken_None.
    + split; [done|]. by eapply lookup_weaken_None.
  - split; [done|]. eapply lookup_weaken_None; [done|apply consume_sub].
  - split; [done|]. eapply lookup_weaken_None; [done|apply map_filter_subseteq].
Qed.

(** C23. Login states are bounded and work once, for the login they were drawn for: on
    every reachable store at most 256 logins are pending, at most two of one browser,
    and every login ever started returns to a path of the same origin without control,
    escape or fragment bytes; a successful callback has the browser, origin and provider
    revision the login started with and comes within five minutes of it; and after any
    callback that found the state, successful or not, no later callback with it succeeds. *)
Theorem login_state_single_use m g state b o r now :
  login_reachable (m, g) →
  (Z.of_nat (size m) ≤ LIMIT ∧ (∀ b, browser_logins b m ≤ 2)
   ∧ (∀ d t, g !! d = Some t → local_path (return_path t)))
  ∧ (∀ t m', consume m state b o r now = (Ok t, m') →
     g !! sha256 state = Some t ∧ browser t = b ∧ origin t = o ∧ revision t = r
     ∧ now - created t < LIFETIME)
  ∧ (∀ res m' m'' g'' b' o' r' now',
       consume m state b o r now = (res, m') → (is_Some (m !! sha256 state)) →
       res ≠ Err InvalidState → rtc login_step (m', g) (m'', g'') →
       fst (consume m'' state b' o' r' now') = Err StateUnavailable).
Proof.
  intros Hok%login_reachable_ok. pose proof (lo_history _ Hok) as Hh. cbn in Hh. split; [by destruct Hok|]. split.
  - intros t m' Hc. unfold consume in Hc. split_match_in Hc; [done|].
    destruct (m !! sha256 state) as [t'|] eqn:Ht; [|done].
    split_match_in Hc; [|done]. simplify_eq. reflect_bools. unfold saturating_duration_since in *.
    split_and!; [by eapply lookup_weaken|done..|lia].
  - intros res m' m'' g'' b' o' r' now' Hc [t Ht] Hres Hr.
    unfold consume in Hc. destruct (str_is_empty state || (128 <? str_len state)) eqn:Hst; [by simplify_eq|].
    rewrite Ht in Hc.
    assert (m' = delete (sha256 state) m) as -> by (split_match_in Hc; by simplify_eq).
    assert (fst (m'', g'') !! sha256 state = None) as Hn.
    { eapply (login_gone_stays (delete (sha256 state) m, g)); [|exact Hr| |apply lookup_delete_eq].
      - eapply logins_sub; [apply delete_subseteq|done].
      - exists t. by eapply lookup_weaken. }
    cbn in Hn. unfold consume. by rewrite Hst, Hn.
Qed.

End logins.

(** ** Witnesses *)

Definition demo_input : Start := mk_start 1 "https://a" "company" 1 "/events" None.
Definition demo_provider : Provider :=
  mk_provider (Ok "https://a") (Ok tt) (Ok tt) (Ok tt) "state" "nonce" "verifier" "https://idp".
Definition demo_transaction : Transaction :=
  mk_transaction 1 "https://a" "company" 1 "/events" None "nonce" "verifier" 0.

Lemma demo_login_reachable : login_reachable id ({["state" := demo_transaction]}, {["state" := demo_transaction]}).
Proof.
  eapply rtc_l; [|constructor].
  apply (login_start id ∅ ∅ demo_input demo_provider 0 (Ok "https://idp") {["state" := demo_transaction]}
    demo_transaction); reflexivity.
Qed.

Lemma login_state_single_use_witness :
  browser demo_transaction = 1 ∧ origin demo_transaction = "https://a".
Proof.
  destruct (login_state_single_use id {["state" := demo_transaction]} {["state" := demo_transaction]}
    "state" 1 "https://a" 1 5 demo_login_reachable) as (_ & H & _).
  destruct (H demo_transaction ∅) as (_ & Hb & Ho & _); [vm_compute; reflexivity|].
  split; [exact Hb|exact Ho].
Defined.
