(* ===== verification/Placement.v ===== *)
(** * Volume placement

    [src/storage/volumes.rs], [volumes/validation.rs] and [volumes/placement.rs]:
    named storage volumes with their placement rules, the checks a configuration
    passes before it is used, and the choice of a destination from a snapshot of
    observations.  Roots are Unix paths given as UTF-8 strings and compared by
    their components, as [Path::starts_with] does; errors carry their message. *)

From S2P Require Import Prelude.

Definition VOLUMES_MAX : Z := 32.
Definition RULES_MAX : Z := 256.
Definition CANDIDATES_MAX : Z := 8.

Definition volume_id_byte (b : Z) : bool :=
  ((97 <=? b) && (b <=? 122)) || ((48 <=? b) && (b <=? 57)) || (b =? 45) || (b =? 95).

(** [VolumeId] is its string. *)
Definition volume_id_parse (value : string) : result string string :=
  let? _ := ensure (negb (str_is_empty value) && (str_len value <=? 64)
                    && negb (str_prefix "legacy-" value)
                    && forallb volume_id_byte (bytes_of value))
    "volume ID must contain 1 to 64 lowercase ASCII letters, digits, hyphens or underscores; legacy- is reserved" in
  Ok value.

Inductive VolumeRole := Active | Archive | Export | Thumbnail | Metadata.
Inductive VolumeState := Enabled | StateReadOnly | StateDraining | StateDisabled.
Inductive PlacementStrategy := Priority | FreeSpace.
Inductive VolumeHealth := Online | HealthOffline | HealthReadOnly.
Inductive RejectionReason :=
| Disabled | Draining | ReadOnly | Offline | MissingObservation | RoleMismatch | SourceDenied
| InsufficientSpace | CapacityExceeded.

#[global] Instance VolumeRole_eq_dec : EqDecision VolumeRole.
Proof. solve_decision. Defined.

Record Volume := mk_volume {
  vol_id : string;
  vol_root : string;
  roles : list VolumeRole;
  vol_state : VolumeState;
  priority : Z;
  capacity_bytes : option Z;
  minimum_free_bytes : Z;
  warning_free_bytes : Z;
  critical_free_bytes : Z;
  sources : list string;
  groups : list string
}.

Record PlacementRule := mk_prule {
  rule_role : VolumeRole;
  rule_source : option string;
  rule_group : option string;
  candidates : list string;
  strategy : PlacementStrategy;
  allow_fallback : bool
}.

Record VolumeConfiguration := mk_configuration {
  volumes : list Volume;
  placement : list PlacementRule
}.

Record VolumeObservation := mk_observation {
  obs_id : string;
  health : VolumeHealth;
  obs_draining : bool;
  total_bytes : Z;
  available_bytes : Z;
  owned_bytes : Z
}.

Record PlacementRequest := mk_request {
  req_role : VolumeRole;
  req_source : string;
  req_group : string;
  required_bytes : Z
}.

Record RejectedVolume := mk_rejected {
  rejected_id : string;
  rejected_reason : RejectionReason
}.

Record PlacementDecision := mk_placement {
  selected : option string;
  rejected : list RejectedVolume
}.

(** ** Validation *)

Definition contains (l : list string) (s : string) : bool := existsb (λ x, str_eqb x s) l.
Definition has_role (l : list VolumeRole) (r : VolumeRole) : bool := existsb (λ x, bool_decide (x = r)) l.

Definition validate_selector (value : string) : result string unit :=
  ensure (negb (str_is_empty value) && (str_len value <=? 256) && is_trimmed value
          && negb (has_control (bytes_of value)))
    "source and group selectors require 1 to 256 bytes without control or surrounding whitespace".

(** [for (index, value) in values.iter().enumerate()], with [values[..index]]. *)
Fixpoint selectors_loop (seen rest : list string) : result string unit :=
  match rest with
  | [] => Ok tt
  | value :: rest' =>
      let? _ := validate_selector value in
      let? _ := ensure (negb (contains seen value)) "duplicate source or group selector" in
      selectors_loop (seen ++ [value]) rest'
  end.

Definition validate_selectors (values : list string) : result string unit :=
  let? _ := ensure (vec_len values <=? RULES_MAX) "at most 256 source or group selectors are allowed" in
  selectors_loop [] values.

Fixpoint roles_loop (seen rest : list VolumeRole) : result string unit :=
  match rest with
  | [] => Ok tt
  | r :: rest' =>
      let? _ := ensure (negb (has_role seen r)) "duplicate storage volume role" in
      roles_loop (seen ++ [r]) rest'
  end.

Fixpoint thresholds_loop (values : list Z) : result string unit :=
  match values with
  | [] => Ok tt
  | v :: rest =>
      let? _ := ensure (v <=? i64_max) "volume byte threshold exceeds the configuration integer limit" in
      thresholds_loop rest
  end.

Definition validate_volume (v : Volume) : result string unit :=
  let? _ := ensure (negb (bool_decide (roles v = [])) && (vec_len (roles v) <=? 5))
    "a volume requires 1 to 5 distinct roles" in
  let? _ := roles_loop [] (roles v) in
  let? _ := ensure (negb (bool_decide (capacity_bytes v = Some 0)))
    "a storage volume capacity must be nonzero or omitted" in
  let? _ := thresholds_loop [unwrap_or (capacity_bytes v) 0; minimum_free_bytes v;
                             warning_free_bytes v; critical_free_bytes v] in
  let? _ := ensure (Z.max (critical_free_bytes v) (minimum_free_bytes v) <=? warning_free_bytes v)
    "volume warning threshold must cover critical and minimum free space" in
  let? _ := validate_selectors (sources v) in
  let? _ := validate_selectors (groups v) in
  if has_role (roles v) Metadata
  then ensure (bool_decide (sources v = []) && bool_decide (groups v = []))
         "metadata volume cannot restrict sources or groups"
  else Ok tt.

(** [Path::components] of an absolute Unix path: the segments between slashes that
    are neither empty nor [.], after the root. *)
Fixpoint segments (current : list Z) (l : list Z) : list (list Z) :=
  match l with
  | [] => [current]
  | b :: l' => if b =? 47 then current :: segments [] l' else segments (current ++ [b]) l'
  end.
Definition components (path : string) : list (list Z) :=
  filter (λ s, s ≠ [] ∧ s ≠ [46]) (segments [] (bytes_of path)).
Definition is_absolute (path : string) : bool :=
  match bytes_of path with b :: _ => b =? 47 | [] => false end.
Definition path_starts_with (path base : string) : bool :=
  bool_decide (components base `prefix_of` components path).

Definition comparison_root (root : string) : result string string :=
  let? _ := ensure (is_absolute root && (str_len root <=? 4096) && negb (has_control (bytes_of root)))
    "volume root must be an absolute path of at most 4096 bytes without control characters" in
  let? _ := ensure (negb (existsb (λ part, bool_decide (part = [46; 46])) (components root)))
    "volume root cannot contain parent traversal" in
  let? _ := ensure (1 + vec_len (components root) <=? 64) "volume root has too many components" in
  Ok root.

Fixpoint volumes_loop (seen : list Volume) (roots : list string) (rest : list Volume)
    : result string unit :=
  match rest with
  | [] => Ok tt
  | v :: rest' =>
      let? _ := validate_volume v in
      let? _ := ensure (forallb (λ other, negb (str_eqb (vol_id other) (vol_id v))) seen)
        "duplicate volume ID" in
      let? root := comparison_root (vol_root v) in
      let? _ := ensure (forallb (λ other, negb (path_starts_with root other)
                                          && negb (path_starts_with other root)) roots)
        "storage volume roots must not overlap" in
      volumes_loop (seen ++ [v]) (roots ++ [root]) rest'
  end.

Definition find_volume (vs : list Volume) (id : string) : option Volume :=
  find (λ v, str_eqb (vol_id v) id) vs.

Fixpoint candidates_loop (vs : list Volume) (role : VolumeRole) (seen rest : list string)
    : result string unit :=
  match rest with
  | [] => Ok tt
  | id :: rest' =>
      let? _ := ensure (negb (contains seen id)) "duplicate placement candidate" in
      let? v := match find_volume vs id with
                | Some v => Ok v
                | None => Err "placement references an unknown volume"
                end in
      let? _ := ensure (has_role (roles v) role)
        "placement candidate does not support the requested role" in
      candidates_loop vs role (seen ++ [id]) rest'
  end.

Definition validate_rule (c : VolumeConfiguration) (r : PlacementRule) : result string unit :=
  let? _ := ensure (negb (bool_decide (candidates r = [])) && (vec_len (candidates r) <=? CANDIDATES_MAX))
    "placement requires 1 to 8 candidates" in
  let? _ := ensure (is_none (rule_source r) || is_none (rule_group r))
    "placement selects either a source or a group" in
  let? _ := match rule_source r with Some s => validate_selector s | None => Ok tt end in
  let? _ := match rule_group r with Some s => validate_selector s | None => Ok tt end in
  let? _ := (if bool_decide (rule_role r = Metadata)
             then ensure (is_none (rule_source r) && is_none (rule_group r)
                          && (vec_len (candidates r) =? 1) && negb (allow_fallback r))
                    "metadata placement requires one global destination without fallback"
             else Ok tt) in
  candidates_loop (volumes c) (rule_role r) [] (candidates r).

Definition same_selector (a b : PlacementRule) : bool :=
  bool_decide (rule_role a = rule_role b) && bool_decide (rule_source a = rule_source b)
  && bool_decide (rule_group a = rule_group b).

Fixpoint rules_loop (c : VolumeConfiguration) (seen rest : list PlacementRule) : result string unit :=
  match rest with
  | [] => Ok tt
  | r :: rest' =>
      let? _ := validate_rule c r in
      let? _ := ensure (forallb (λ other, negb (same_selector other r)) seen)
        "duplicate placement selector for a storage role" in
      rules_loop c (seen ++ [r]) rest'
  end.

Definition validate (c : VolumeConfiguration) : result string unit :=
  let? _ := ensure (vec_len (volumes c) <=? VOLUMES_MAX) "at most 32 storage volumes are allowed" in
  let? _ := ensure (vec_len (placement c) <=? RULES_MAX) "at most 256 placement rules are allowed" in
  let? _ := volumes_loop [] [] (volumes c) in
  rules_loop c [] (placement c).

(** ** Placement *)

Fixpoint observations_loop (seen rest : list VolumeObservation) : result string unit :=
  match rest with
  | [] => Ok tt
  | o :: rest' =>
      let? _ := ensure (forallb (λ other, negb (str_eqb (obs_id other) (obs_id o))) seen)
        "duplicate volume observation" in
      let? _ := ensure (available_bytes o <=? total_bytes o) "available volume space exceeds total space" in
      observations_loop (seen ++ [o]) rest'
  end.

Definition validate_observations (os : list VolumeObservation) : result string unit :=
  let? _ := ensure (vec_len os <=? VOLUMES_MAX) "at most 32 volume observations are allowed" in
  observations_loop [] os.

Definition rule_applies (req : PlacementRequest) (gs : list string) (r : PlacementRule) : bool :=
  bool_decide (rule_role r = req_role req)
  && is_none_or (λ s, str_eqb s (req_source req)) (rule_source r)
  && is_none_or (λ g, contains gs g) (rule_group r).

(** The key [(rank, Reverse(group))] compared: [key_gt a b] if [a] is strictly
    greater, which for groups means an earlier name. *)
Definition rule_rank (r : PlacementRule) : Z :=
  if negb (is_none (rule_source r)) then 2 else if negb (is_none (rule_group r)) then 1 else 0.
Definition key_gt (a b : PlacementRule) : bool :=
  (rule_rank b <? rule_rank a)
  || ((rule_rank a =? rule_rank b) && str_ltb (unwrap_or (rule_group a) "") (unwrap_or (rule_group b) "")).

(** [Iterator::max_by_key]: of equal keys, the last. *)
Definition max_step (best : option PlacementRule) (r : PlacementRule) : option PlacementRule :=
  match best with
  | None => Some r
  | Some b => if key_gt b r then Some b else Some r
  end.

Definition matching_rule (c : VolumeConfiguration) (req : PlacementRequest) (gs : list string)
    : option PlacementRule :=
  foldl max_step None (filter (λ r, rule_applies req gs r = true) (placement c)).

Definition eligibility (v : Volume) (req : PlacementRequest) (gs : list string)
    (o : option VolumeObservation) : result RejectionReason Z :=
  match vol_state v with
  | StateDisabled => Err Disabled
  | StateDraining => Err Draining
  | StateReadOnly => Err ReadOnly
  | Enabled =>
      if negb (has_role (roles v) (req_role req)) then Err RoleMismatch
      else if (negb (bool_decide (sources v = [])) || negb (bool_decide (groups v = [])))
              && negb (existsb (λ s, str_eqb s (req_source req)) (sources v))
              && negb (existsb (λ g, contains gs g) (groups v))
      then Err SourceDenied
      else
        match o with
        | None => Err MissingObservation
        | Some o =>
            if obs_draining o then Err Draining
            else
              match health o with
              | HealthOffline => Err Offline
              | HealthReadOnly => Err ReadOnly
              | Online =>
                  let available :=
                    saturating_sub (available_bytes o)
                      (Z.max (minimum_free_bytes v) (critical_free_bytes v)) in
                  if available <? required_bytes req then Err InsufficientSpace
                  else
                    let remaining_cap :=
                      match capacity_bytes v with
                      | None => u64_max
                      | Some cap => saturating_sub cap (owned_bytes o)
                      end in
                    if remaining_cap <? required_bytes req then Err CapacityExceeded
                    else Ok (Z.min available remaining_cap)
              end
        end
  end.

(** The comparison of [sort_unstable_by]: the strategy, then the id. *)
Definition placement_le (s : PlacementStrategy) (a b : Volume * Z) : Prop :=
  match s with
  | Priority => priority (fst a) < priority (fst b)
                ∨ priority (fst a) = priority (fst b) ∧ str_leb (vol_id (fst a)) (vol_id (fst b)) = true
  | FreeSpace => snd b < snd a
                 ∨ snd a = snd b ∧ str_leb (vol_id (fst a)) (vol_id (fst b)) = true
  end.
#[global] Instance placement_le_dec s : RelDecision (placement_le s).
Proof. intros a b. destruct s; apply _. Defined.

(** The loop over the considered candidates. *)
Fixpoint consider (c : VolumeConfiguration) (req : PlacementRequest) (gs : list string)
    (os : list VolumeObservation) (ids : list string) : outcome (list (Volume * Z) * list RejectedVolume) :=
  match ids with
  | [] => Ret ([], [])
  | id :: ids' =>
      match find_volume (volumes c) id with
      | None => Panic
      | Some v =>
          let! (eligible, rejected) := consider c req gs os ids' in
          match eligibility v req gs (find (λ o, str_eqb (obs_id o) id) os) with
          | Ok available => Ret ((v, available) :: eligible, rejected)
          | Err reason => Ret (eligible, mk_rejected id reason :: rejected)
          end
      end
  end.

Definition considered (r : PlacementRule) : list string :=
  if allow_fallback r then candidates r else take 1 (candidates r).

Definition place_with_groups (c : VolumeConfiguration) (req : PlacementRequest) (gs : list string)
    (os : list VolumeObservation) : outcome (result string PlacementDecision) :=
  match (let? _ := validate c in
         let? _ := ensure (0 <? required_bytes req) "placement must request at least one byte" in
         validate_observations os) with
  | Err e => Ret (Err e)
  | Ok _ =>
      match matching_rule c req gs with
      | None => Ret (Ok (mk_placement None []))
      | Some rule =>
          let! (eligible, rejected) := consider c req gs os (considered rule) in
          Ret (Ok (mk_placement ((λ e, vol_id (fst e)) <$> head (merge_sort (placement_le (strategy rule)) eligible))
                     rejected))
      end
  end.

Definition place (c : VolumeConfiguration) (req : PlacementRequest) (os : list VolumeObservation)
    : outcome (result string PlacementDecision) :=
  place_with_groups c req [req_group req] os.

(** ** What validation guarantees *)

(** Two volumes that cannot be confused: different ids, disjoint directory trees. *)
Definition separate (a b : Volume) : Prop :=
  vol_id a ≠ vol_id b
  ∧ ¬ components (vol_root a) `prefix_of` components (vol_root b)
  ∧ ¬ components (vol_root b) `prefix_of` components (vol_root a).

Lemma comparison_root_same r x : comparison_root r = Ok x → x = r.
Proof. unfold comparison_root. rewrite !rbind_Ok. intros ([] & _ & H). rewrite !rbind_Ok in H.
  destruct H as ([] & _ & H). rewrite rbind_Ok in H. destruct H as ([] & _ & H). by simplify_eq. Qed.

Lemma forallb_Forall {A} (f : A → bool) l : forallb f l = true ↔ Forall (λ x, f x = true) l.
Proof. rewrite forallb_forall, Forall_forall. by setoid_rewrite list_elem_of_In. Qed.

Lemma volumes_loop_spec seen rest :
  volumes_loop seen (vol_root <$> seen) rest = Ok tt →
  StronglySorted separate seen → StronglySorted separate (seen ++ rest).
Proof.
  revert seen. induction rest as [|v rest IH]; intros seen; cbn [volumes_loop]; [by rewrite app_nil_r|].
  rewrite rbind_Ok. intros ([] & _ & H) Hs. rewrite rbind_Ok in H. destruct H as ([] & Hid & H).
  rewrite rbind_Ok in H. destruct H as (root & Hroot & H). rewrite rbind_Ok in H.
  destruct H as ([] & Hov & H). apply comparison_root_same in Hroot as ->.
  apply ensure_Ok, forallb_Forall in Hid. apply ensure_Ok, forallb_Forall in Hov.
  rewrite Forall_fmap in Hov. specialize (IH (seen ++ [v])). rewrite fmap_app, <-app_assoc in IH.
  apply IH; [done|]. apply StronglySorted_snoc; [done|].
  rewrite Forall_forall in Hid, Hov. apply Forall_forall. intros a Ha.
  specialize (Hid a Ha). specialize (Hov a Ha). cbn in Hov. unfold path_starts_with in Hov.
  reflect_bools. by split_and!.
Qed.

Definition known (c : VolumeConfiguration) (role : VolumeRole) (id : string) : Prop :=
  ∃ v, find_volume (volumes c) id = Some v ∧ role ∈ roles v.

Lemma has_role_spec l r : has_role l r = true ↔ r ∈ l.
Proof.
  unfold has_role. rewrite existsb_exists. setoid_rewrite bool_decide_eq_true.
  setoid_rewrite list_elem_of_In. naive_solver.
Qed.
Lemma contains_spec l s : contains l s = true ↔ s ∈ l.
Proof.
  unfold contains, str_eqb. rewrite existsb_exists. setoid_rewrite bool_decide_eq_true.
  setoid_rewrite list_elem_of_In. naive_solver.
Qed.

Lemma candidates_loop_spec c role seen rest :
  candidates_loop (volumes c) role seen rest = Ok tt →
  NoDup seen → NoDup (seen ++ rest) ∧ Forall (known c role) rest.
Proof.
  revert seen. induction rest as [|id rest IH]; intros seen; cbn [candidates_loop]; [by rewrite app_nil_r|].
  rewrite rbind_Ok. intros ([] & Hdup & H) Hs. rewrite rbind_Ok in H. destruct H as (v & Hv & H).
  rewrite rbind_Ok in H. destruct H as ([] & Hrole & H). apply ensure_Ok in Hdup, Hrole. reflect_bools.
  destruct (find_volume (volumes c) id) as [v'|] eqn:Hf; [|done]. simplify_eq.
  apply has_role_spec in Hrole. apply not_true_iff_false in Hdup. rewrite contains_spec in Hdup.
  destruct (IH (seen ++ [id]) H) as [Hnd Hk].
  { apply NoDup_app. split_and!; [done| |apply NoDup_singleton]. intros x Hx ->%list_elem_of_singleton. done. }
  rewrite <-app_assoc in Hnd. split; [done|]. constructor; [by exists v|done].
Qed.

(** A usable rule: one to eight distinct candidates, each a volume with its role. *)
Definition rule_ok (c : VolumeConfiguration) (r : PlacementRule) : Prop :=
  candidates r ≠ [] ∧ vec_len (candidates r) ≤ CANDIDATES_MAX ∧ NoDup (candidates r)
  ∧ Forall (known c (rule_role r)) (candidates r).

Lemma validate_rule_spec c r : validate_rule c r = Ok tt → rule_ok c r.
Proof.
  unfold validate_rule. rewrite rbind_Ok. intros ([] & H1 & H). apply ensure_Ok in H1.
  rewrite rbind_Ok in H. destruct H as ([] & _ & H). rewrite rbind_Ok in H. destruct H as ([] & _ & H).
  rewrite rbind_Ok in H. destruct H as ([] & _ & H). rewrite rbind_Ok in H. destruct H as ([] & _ & H).
  apply candidates_loop_spec in H as [Hnd Hk]; [|apply NoDup_nil_2]. reflect_bools. by split_and!.
Qed.

Lemma rules_loop_spec c seen rest :
  rules_loop c seen rest = Ok tt →
  StronglySorted (λ a b, same_selector a b = false) seen →
  StronglySorted (λ a b, same_selector a b = false) (seen ++ rest) ∧ Forall (rule_ok c) rest.
Proof.
  revert seen. induction rest as [|r rest IH]; intros seen; cbn [rules_loop]; [by rewrite app_nil_r|].
  rewrite rbind_Ok. intros ([] & Hr & H) Hs. rewrite rbind_Ok in H. destruct H as ([] & Hsel & H).
  apply validate_rule_spec in Hr. apply ensure_Ok, forallb_Forall in Hsel.
  destruct (IH (seen ++ [r]) H) as [Hss Hf].
  { apply StronglySorted_snoc; [done|]. eapply Forall_impl; [exact Hsel|]. intros a Ha. by apply negb_true_iff in Ha. }
  rewrite <-app_assoc in Hss. split; [done|]. by constructor.
Qed.

Lemma validate_placement_spec c :
  validate c = Ok tt →
  StronglySorted separate (volumes c)
  ∧ StronglySorted (λ a b, same_selector a b = false) (placement c)
  ∧ Forall (rule_ok c) (placement c) ∧ vec_len (volumes c) ≤ VOLUMES_MAX.
Proof.
  unfold validate. rewrite rbind_Ok. intros ([] & Hn & H). apply ensure_Ok in Hn. reflect_bools.
  rewrite rbind_Ok in H. destruct H as ([] & _ & H). rewrite rbind_Ok in H. destruct H as ([] & Hv & H).
  apply (volumes_loop_spec []) in Hv; [|constructor].
  apply (rules_loop_spec c []) in H as [Hs Hr]; [|constructor]. by split_and!.
Qed.

(** A validated configuration is unambiguous: volume ids differ pairwise, no
    volume's root is inside another's, no two rules of a role have the same selector,
    and every rule names between one and eight distinct volumes that exist and carry
    its role. *)
Theorem validated_configuration c :
  validate c = Ok tt →
  NoDup (vol_id <$> volumes c)
  ∧ (∀ i j a b, volumes c !! i = Some a → volumes c !! j = Some b → i ≠ j → separate a b)
  ∧ (∀ i j a b, placement c !! i = Some a → placement c !! j = Some b → i ≠ j → same_selector a b = false)
  ∧ Forall (rule_ok c) (placement c) ∧ vec_len (volumes c) ≤ VOLUMES_MAX.
Proof.
  intros (Hv & Hr & Hf & Hn)%validate_placement_spec.
  assert (∀ {A} (R : relation A) l i j a b, (∀ x y, R x y → R y x) → StronglySorted R l →
    l !! i = Some a → l !! j = Some b → i ≠ j → R a b) as Hpair.
  { clear. intros A R l i j a b Hsym Hs. revert i j a b.
    induction Hs as [|x l Hs IH Hx]; intros [|i] [|j] a b Ha Hb Hne; cbn in *; simplify_eq; try done.
    - rewrite Forall_forall in Hx. apply Hx. by eapply list_elem_of_lookup_2.
    - apply Hsym. rewrite Forall_forall in Hx. apply Hx. by eapply list_elem_of_lookup_2.
    - eapply IH; [done..|congruence]. }
  split_and!; try done.
  - clear -Hv. induction Hv as [|x l Hs IH Hx]; [constructor|]. rewrite fmap_cons. constructor; [|done].
    intros (y & Hy & Hin)%list_elem_of_fmap. rewrite Forall_forall in Hx. by destruct (Hx y Hin).
  - intros i j a b. apply Hpair; [|done]. intros x y (H1 & H2 & H3). by split_and!.
  - intros i j a b. apply (Hpair _ (λ a b, same_selector a b = false)); [|done].
    unfold same_selector. intros x y H.
    rewrite !andb_false_iff, !bool_decide_eq_false in *. naive_solver.
Qed.

(** ** The chosen rule *)

Lemma str_ltb_total a b : str_ltb a b = false → str_leb b a = true.
Proof.
  unfold str_ltb, str_leb, String.ltb, String.leb. rewrite String.compare_antisym.
  by destruct (String.compare b a).
Qed.

(** How specific a rule is: an override for a source, for a group, or the default. *)
Definition specificity (r : PlacementRule) : Z :=
  match rule_source r, rule_group r with
  | Some _, _ => 2
  | None, Some _ => 1
  | None, None => 0
  end.
Definition group_name (r : PlacementRule) : string :=
  match rule_group r with Some g => g | None => "" end.

(** [r] is at least as specific as [r'], and among equally specific ones its group comes
    first. *)
Definition at_least (r r' : PlacementRule) : Prop :=
  specificity r' < specificity r
  ∨ specificity r' = specificity r ∧ str_leb (group_name r) (group_name r') = true.

(** The rule is meant for the request: its role, its source if it names one, and one of
    the groups if it names one. *)
Definition rule_matches (req : PlacementRequest) (gs : list string) (r : PlacementRule) : Prop :=
  rule_role r = req_role req
  ∧ (∀ s, rule_source r = Some s → s = req_source req)
  ∧ (∀ g, rule_group r = Some g → g ∈ gs).

Lemma applies_iff_matches req gs r : rule_applies req gs r = true ↔ rule_matches req gs r.
Proof.
  unfold rule_applies, rule_matches, is_none_or.
  destruct (rule_source r) as [s|], (rule_group r) as [g|]; rewrite !andb_true_iff, bool_decide_eq_true, ?contains_spec;
    unfold str_eqb; rewrite ?bool_decide_eq_true; naive_solver.
Qed.
Lemma rule_rank_spec r : rule_rank r = specificity r.
Proof. unfold rule_rank, specificity. by destruct (rule_source r), (rule_group r). Qed.

Lemma at_least_refl r : at_least r r.
Proof. right. split; [done|]. by destruct (str_leb_total (group_name r) (group_name r)). Qed.
Lemma at_least_trans a b c : at_least a b → at_least b c → at_least a c.
Proof.
  intros [H|[H1 H2]] [H'|[H1' H2']]; [left; lia|left; lia|left; lia|right]. split; [lia|].
  by eapply str_leb_trans.
Qed.
Lemma key_gt_at_least a b : (key_gt a b = true → at_least a b) ∧ (key_gt a b = false → at_least b a).
Proof.
  unfold key_gt, at_least. rewrite !rule_rank_spec. change (unwrap_or (rule_group a) "") with (group_name a).
  change (unwrap_or (rule_group b) "") with (group_name b). split; intros H.
  - apply orb_true_iff in H as [H|H]; reflect_bools; [by left|right]. split; [lia|]. by apply str_ltb_leb.
  - apply orb_false_iff in H as [H1 H2]. apply andb_false_iff in H2. reflect_bools.
    destruct (decide (specificity a = specificity b)) as [He|]; [|left; lia]. right. split; [done|].
    destruct H2 as [H2|H2]; reflect_bools; [done|]. by apply str_ltb_total.
Qed.

Lemma max_fold l best r :
  foldl max_step best l = Some r →
  (best = Some r ∨ r ∈ l) ∧ Forall (at_least r) l ∧ (∀ b, best = Some b → at_least r b).
Proof.
  revert best. induction l as [|x l IH]; intros best; cbn [foldl].
  { intros ->. split_and!; [by left|constructor|]. intros b [= ->]. apply at_least_refl. }
  intros H. destruct (IH _ H) as (Hin & Hall & Hb). unfold max_step in Hin, Hb.
  destruct best as [b|]; [destruct (key_gt b x) eqn:Hk; destruct (key_gt_at_least b x) as [K1 K2]|].
  - specialize (K1 Hk). specialize (Hb b eq_refl). split_and!.
    + destruct Hin as [?|?]; [by left|right; by right].
    + constructor; [by eapply at_least_trans|done].
    + by intros b' [= <-].
  - specialize (K2 Hk). specialize (Hb x eq_refl). split_and!.
    + destruct Hin as [[= ->]|?]; right; [by left|by right].
    + by constructor.
    + intros b' [= <-]. by eapply at_least_trans.
  - specialize (Hb x eq_refl). split_and!; [|by constructor|done].
    destruct Hin as [[= ->]|?]; right; [by left|by right].
Qed.
Lemma max_fold_None l best : foldl max_step best l = None ↔ best = None ∧ l = [].
Proof.
  revert best. induction l as [|x l IH]; intros best; cbn [foldl]; [naive_solver|].
  rewrite IH. unfold max_step. destruct best; [split_match|]; naive_solver.
Qed.

(** The most specific rule decides: the rule used matches the request and no matching
    rule is more specific; there is none exactly when no rule matches. *)
Lemma matching_rule_most_specific c req gs :
  match matching_rule c req gs with
  | Some r =>
      r ∈ placement c ∧ rule_matches req gs r
      ∧ (∀ r', r' ∈ placement c → rule_matches req gs r' → at_least r r')
  | None => Forall (λ r, ¬ rule_matches req gs r) (placement c)
  end.
Proof.
  unfold matching_rule.
  assert (∀ r, r ∈ filter (λ r, rule_applies req gs r = true) (placement c) ↔ r ∈ placement c ∧ rule_matches req gs r) as Hf.
  { intros r. rewrite list_elem_of_filter, applies_iff_matches. naive_solver. }
  destruct (foldl max_step None _) as [r|] eqn:E.
  - apply max_fold in E as ([?|[Hin Ha]%Hf] & Hall & _); [done|]. split_and!; [done|done|]. intros r' Hr' Ha'.
    rewrite Forall_forall in Hall. apply Hall, Hf. done.
  - apply max_fold_None in E as [_ Hnil]. apply Forall_forall. intros r Hr Ha.
    apply (not_elem_of_nil r). rewrite <-Hnil. by apply Hf.
Qed.

(** ** The chosen volume *)

#[global] Instance placement_le_total s : Total (placement_le s).
Proof.
  intros a b. destruct s; cbn.
  - destruct (Z.lt_total (priority (fst a)) (priority (fst b))) as [|[|]]; [auto| |auto].
    destruct (str_leb_total (vol_id (fst a)) (vol_id (fst b))); auto.
  - destruct (Z.lt_total (snd a) (snd b)) as [|[|]]; [auto| |auto].
    destruct (str_leb_total (vol_id (fst a)) (vol_id (fst b))); auto.
Qed.
#[global] Instance placement_le_trans s : Transitive (placement_le s).
Proof.
  intros a b c. destruct s; cbn; intros [?|[? H1]] [?|[? H2]]; try (left; lia);
    right; (split; [lia|]); by eapply str_leb_trans.
Qed.

Lemma sorted_head {A} (R : relation A) `{!RelDecision R, !Total R, !Transitive R} l x :
  head (merge_sort R l) = Some x → x ∈ l ∧ Forall (λ y, R x y) l.
Proof.
  pose proof (StronglySorted_merge_sort R l) as Hs. pose proof (merge_sort_Permutation R l) as Hp.
  destruct (merge_sort R l) as [|y k]; cbn; [done|]. intros [= ->].
  inversion_clear Hs as [|? ? _ Hx]. split; [rewrite <-Hp; by left|].
  rewrite <-Hp. constructor; [|done]. by destruct (total R x x).
Qed.
Lemma sorted_head_None {A} (R : relation A) `{!RelDecision R} l : head (merge_sort R l) = None → l = [].
Proof.
  pose proof (merge_sort_Permutation R l) as Hp. destruct (merge_sort R l); [|done].
  intros _. by apply Permutation_nil_l in Hp.
Qed.

(** The request may use the volume: the volume is open to all, or it names the source or
    one of the groups. *)
Definition permits (v : Volume) (req : PlacementRequest) (gs : list string) : Prop :=
  (sources v = [] ∧ groups v = []) ∨ req_source req ∈ sources v ∨ ∃ g, g ∈ groups v ∧ g ∈ gs.

(** What the allocation must leave free. *)
Definition reserve (v : Volume) : Z := Z.max (minimum_free_bytes v) (critical_free_bytes v).

(** The volume can take the allocation: enabled, online, not draining, open to the
    request in its role, with room above its reserve and within its cap. *)
Definition can_hold (v : Volume) (req : PlacementRequest) (gs : list string) (o : option VolumeObservation) : Prop :=
  vol_state v = Enabled ∧ req_role req ∈ roles v ∧ permits v req gs
  ∧ ∃ ob, o = Some ob ∧ health ob = Online ∧ obs_draining ob = false
    ∧ required_bytes req + reserve v ≤ available_bytes ob
    ∧ (∀ cap, capacity_bytes v = Some cap → owned_bytes ob + required_bytes req ≤ cap).

(** The bytes the volume could still take. *)
Definition room_left (v : Volume) (o : option VolumeObservation) : Z :=
  match o with
  | None => 0
  | Some ob =>
      match capacity_bytes v with
      | Some cap => Z.min (available_bytes ob - reserve v) (cap - owned_bytes ob)
      | None => available_bytes ob - reserve v
      end
  end.

(** Whether a reason is the truth about a volume. *)
Definition reason_holds (reason : RejectionReason) (v : Volume) (req : PlacementRequest) (gs : list string)
    (o : option VolumeObservation) : Prop :=
  match reason with
  | Disabled => vol_state v = StateDisabled
  | Draining => vol_state v = StateDraining ∨ ∃ ob, o = Some ob ∧ obs_draining ob = true
  | ReadOnly => vol_state v = StateReadOnly ∨ ∃ ob, o = Some ob ∧ health ob = HealthReadOnly
  | Offline => ∃ ob, o = Some ob ∧ health ob = HealthOffline
  | MissingObservation => o = None
  | RoleMismatch => req_role req ∉ roles v
  | SourceDenied => ¬ permits v req gs
  | InsufficientSpace => ∃ ob, o = Some ob ∧ available_bytes ob < required_bytes req + reserve v
  | CapacityExceeded => ∃ ob cap, o = Some ob ∧ capacity_bytes v = Some cap ∧ cap < owned_bytes ob + required_bytes req
  end.

Lemma permits_spec v req gs :
  (negb (bool_decide (sources v = [])) || negb (bool_decide (groups v = [])))
  && negb (existsb (λ s, str_eqb s (req_source req)) (sources v))
  && negb (existsb (λ g, contains gs g) (groups v)) = false ↔ permits v req gs.
Proof.
  assert (existsb (λ s, str_eqb s (req_source req)) (sources v) = true ↔ req_source req ∈ sources v) as Hs
    by apply (contains_spec (sources v) (req_source req)).
  assert (existsb (λ g, contains gs g) (groups v) = true ↔ ∃ g, g ∈ groups v ∧ g ∈ gs) as Hg.
  { rewrite existsb_exists. setoid_rewrite contains_spec. by setoid_rewrite list_elem_of_In. }
  unfold permits. rewrite <-Hs, <-Hg.
  destruct (existsb _ (sources v)), (existsb _ (groups v)); do 2 case_bool_decide; cbn; naive_solver.
Qed.

(** Sizes are [u64]. *)
Definition sizes_typed (c : VolumeConfiguration) (req : PlacementRequest) (os : list VolumeObservation) : Prop :=
  required_bytes req ≤ u64_max ∧ Forall (λ o, available_bytes o ≤ u64_max) os
  ∧ Forall (λ v, 0 ≤ minimum_free_bytes v) (volumes c).

Lemma eligibility_spec v req gs o :
  0 < required_bytes req ≤ u64_max → (∀ ob, o = Some ob → available_bytes ob ≤ u64_max) → 0 ≤ reserve v →
  match eligibility v req gs o with
  | Ok a => can_hold v req gs o ∧ a = room_left v o
  | Err reason => ¬ can_hold v req gs o ∧ reason_holds reason v req gs o
  end.
Proof.
  intros Hreq Hob Hres. unfold eligibility, can_hold. pose proof (permits_spec v req gs) as Hp.
  destruct (vol_state v) eqn:Hst; [|split; [by intros []|cbn; auto]..].
  destruct (has_role (roles v) (req_role req)) eqn:Hrole; cbn [negb].
  2:{ assert (req_role req ∉ roles v) as Hn by (rewrite <-has_role_spec; congruence). split; [by intros (_ & ? & _)|done]. }
  apply has_role_spec in Hrole.
  destruct (_ && negb (existsb (λ g, contains gs g) (groups v))).
  { assert (¬ permits v req gs) as Hn by (rewrite <-Hp; done). split; [by intros (_ & _ & ? & _)|done]. }
  assert (permits v req gs) as Hperm by (by apply Hp). clear Hp.
  destruct o as [o|]; [|split; [by intros (_ & _ & _ & ? & ? & _)|done]]. specialize (Hob o eq_refl).
  destruct (obs_draining o) eqn:Hdr.
  { split; [|right; eauto]. intros (_ & _ & _ & ob & [= <-] & _ & ? & _). congruence. }
  assert (health o ≠ Online → ¬ (Enabled = Enabled ∧ req_role req ∈ roles v ∧ permits v req gs ∧ ∃ ob, Some o = Some ob ∧
    health ob = Online ∧ obs_draining ob = false ∧ required_bytes req + reserve v ≤ available_bytes ob ∧
    (∀ cap, capacity_bytes v = Some cap → owned_bytes ob + required_bytes req ≤ cap))) as Hoff.
  { intros Hn (_ & _ & _ & ob & [= <-] & ? & _). done. }
  destruct (health o) eqn:Hh; [clear Hoff|split; [by apply Hoff|by exists o]|split; [by apply Hoff|right; eauto]].
  fold (reserve v). unfold saturating_sub.
  destruct (Z.max 0 (available_bytes o - reserve v) <? required_bytes req) eqn:Hav; reflect_bools.
  { split; [|exists o; split; [done|lia]]. intros (_ & _ & _ & ob & [= <-] & _ & _ & ? & _). lia. }
  destruct (capacity_bytes v) as [cap|] eqn:Hcap; cbn [room_left]; rewrite ?Hcap.
  - destruct (Z.max 0 (cap - owned_bytes o) <? required_bytes req) eqn:Hc; reflect_bools.
    + split; [|exists o, cap; split_and!; [done..|lia]]. intros (_ & _ & _ & ob & [= <-] & _ & _ & _ & Hx).
      specialize (Hx cap eq_refl). lia.
    + split; [|lia]. split_and!; try done. exists o. split_and!; try done; [lia|]. intros ? [= <-]. lia.
  - rewrite (proj2 (Z.ltb_ge _ _)) by lia. split; [|lia]. split_and!; try done. exists o. split_and!; try done. lia.
Qed.

Lemma considered_sub r id : id ∈ considered r → id ∈ candidates r.
Proof.
  unfold considered. destruct (allow_fallback r); [done|].
  intros H. rewrite <-(take_drop 1 (candidates r)). apply elem_of_app. by left.
Qed.

(** The observation of a volume. *)
Definition observed (os : list VolumeObservation) (id : string) : option VolumeObservation :=
  find (λ o, str_eqb (obs_id o) id) os.

(** The order of the strategy: the lower priority number, or the more room; equal ones by
    their name. *)
Definition ranks_before (s : PlacementStrategy) (v : Volume) (o : option VolumeObservation) (v' : Volume)
    (o' : option VolumeObservation) : Prop :=
  match s with
  | Priority =>
      priority v < priority v' ∨ priority v = priority v' ∧ str_leb (vol_id v) (vol_id v') = true
  | FreeSpace =>
      room_left v' o' < room_left v o ∨ room_left v' o' = room_left v o ∧ str_leb (vol_id v) (vol_id v') = true
  end.

Lemma considered_spec r id :
  id ∈ considered r ↔ if allow_fallback r then id ∈ candidates r else head (candidates r) = Some id.
Proof.
  unfold considered. destruct (allow_fallback r); [done|].
  destruct (candidates r) as [|x l]; cbn; [split; [by intros ?%not_elem_of_nil|done]|].
  rewrite list_elem_of_singleton. naive_solver.
Qed.

Lemma consider_typed c req gs os ids :
  Forall (λ id, is_Some (find_volume (volumes c) id)) ids → sizes_typed c req os → 0 < required_bytes req →
  ∃ eligible rejected, consider c req gs os ids = Ret (eligible, rejected)
    ∧ (∀ v a, (v, a) ∈ eligible ↔ ∃ id, id ∈ ids ∧ find_volume (volumes c) id = Some v
         ∧ can_hold v req gs (observed os id) ∧ a = room_left v (observed os id))
    ∧ (∀ id reason, mk_rejected id reason ∈ rejected → id ∈ ids ∧ ∃ v, find_volume (volumes c) id = Some v
         ∧ ¬ can_hold v req gs (observed os id) ∧ reason_holds reason v req gs (observed os id))
    ∧ (∀ id v, id ∈ ids → find_volume (volumes c) id = Some v → ¬ can_hold v req gs (observed os id) →
         ∃ reason, mk_rejected id reason ∈ rejected).
Proof.
  intros Hids (Hrq & Hos & Hvs) Hpos.
  assert (∀ id v, find_volume (volumes c) id = Some v →
    match eligibility v req gs (observed os id) with
    | Ok a => can_hold v req gs (observed os id) ∧ a = room_left v (observed os id)
    | Err reason => ¬ can_hold v req gs (observed os id) ∧ reason_holds reason v req gs (observed os id)
    end) as Hel.
  { intros id v Hv. apply eligibility_spec; [lia| |].
    - intros ob Hob. apply find_some in Hob as [Hin _]. rewrite Forall_forall in Hos. by apply Hos, list_elem_of_In.
    - apply find_some in Hv as [Hin _]. rewrite Forall_forall in Hvs. specialize (Hvs v ltac:(by apply list_elem_of_In)).
      unfold reserve. lia. }
  induction Hids as [|id ids [v Hv] _ (eligible & rejected & He & H1 & H2 & H3)]; cbn [consider].
  { eexists _, _. split; [done|]. split_and!; [intros v a; split; [by intros ?%not_elem_of_nil|by intros (id & ?%not_elem_of_nil & _)]
      |by intros ? ? ?%not_elem_of_nil|by intros ? ? ?%not_elem_of_nil]. }
  rewrite Hv, He. cbn [obind]. fold (observed os id). pose proof (Hel id v Hv) as Hx.
  destruct (eligibility v req gs (observed os id)) as [a0|reason0]; destruct Hx as [Hx Hx']; eexists _, _; (split; [done|]); split_and!.
  - intros v' a. rewrite elem_of_cons, H1. split.
    + intros [[= -> ->]|(i & Hi & ?)]; [exists id; split_and!; [by left|done..]|]. exists i. split; [by right|done].
    + intros (i & [->|Hi]%elem_of_cons & Hvi & Hc & ->); [left; congruence|right]. by exists i.
  - intros i reason [Hi ?]%H2. split; [by right|done].
  - intros i v' [->|Hi]%elem_of_cons Hvi Hn; [simplify_eq; done|by eapply H3].
  - intros v' a. rewrite H1. split.
    + intros (i & Hi & ?). exists i. split; [by right|done].
    + intros (i & [->|Hi]%elem_of_cons & Hvi & Hc & ->); [simplify_eq; done|by exists i].
  - intros i reason [[= -> ->]|[Hi ?]%H2]%elem_of_cons; [split; [by left|by exists v]|]. split; [by right|done].
  - intros i v' [->|Hi]%elem_of_cons Hvi Hn; [exists reason0; by left|].
    destruct (H3 i v' Hi Hvi Hn) as [reason ?]. exists reason. by right.
Qed.

Lemma check_Ok b e (k : result string unit) : (let? _ := ensure b e in k) = Ok tt ↔ b = true ∧ k = Ok tt.
Proof. unfold ensure. destruct b; cbn; naive_solver. Qed.

(** What is accepted as observations. *)
Lemma observations_loop_spec seen rest :
  observations_loop seen rest = Ok tt ↔
  Forall (λ o, obs_id o ∉ obs_id <$> seen) rest ∧ NoDup (obs_id <$> rest)
  ∧ Forall (λ o, available_bytes o ≤ total_bytes o) rest.
Proof.
  revert seen. induction rest as [|o rest IH]; intros seen; cbn [observations_loop].
  { split; [|done]. intros _. split_and!; [constructor|by constructor|constructor]. }
  assert (forallb (λ other, negb (str_eqb (obs_id other) (obs_id o))) seen = true ↔ obs_id o ∉ obs_id <$> seen) as Hs.
  { rewrite forallb_Forall, Forall_forall, list_elem_of_fmap. unfold str_eqb. setoid_rewrite negb_true_iff.
    setoid_rewrite bool_decide_eq_false. naive_solver. }
  rewrite !check_Ok, IH, Hs, Z.leb_le, fmap_cons, !Forall_cons, NoDup_cons, fmap_app. cbn.
  assert (Forall (λ o', obs_id o' ∉ (obs_id <$> seen) ++ [obs_id o]) rest ↔
    Forall (λ o', obs_id o' ∉ obs_id <$> seen) rest ∧ obs_id o ∉ obs_id <$> rest) as Hsplit.
  { rewrite !Forall_forall. setoid_rewrite elem_of_app. setoid_rewrite list_elem_of_singleton.
    rewrite (list_elem_of_fmap obs_id rest). naive_solver. }
  rewrite Hsplit. naive_solver.
Qed.
Lemma validate_observations_spec os :
  validate_observations os = Ok tt ↔
  vec_len os ≤ 32 ∧ NoDup (obs_id <$> os) ∧ Forall (λ o, available_bytes o ≤ total_bytes o) os.
Proof.
  unfold validate_observations. rewrite check_Ok, Z.leb_le, observations_loop_spec.
  split; [naive_solver|]. intros (? & ? & ?). split_and!; try done.
  apply Forall_forall. intros o _. apply not_elem_of_nil.
Qed.

(** C24. Placement follows the most specific rule and picks the best destination that can
    hold the data.  It never aborts, and it fails exactly on a configuration that does
    not validate, on an empty allocation and on observations that are too many, repeated
    or report more free than total space.  The rule used matches the role, source and
    groups of the request, and no matching rule is more specific (source before group
    before default, the first group name on ties); without a matching rule nothing is
    selected or rejected.  Of the candidates the rule lets it consider (all of them, or
    only the first without fallback), a selected volume is enabled, online, not draining,
    carries the role, permits the source and keeps its reserve and its cap after the
    allocation, and no candidate that could hold the data too ranks before it: by
    priority number or by the room left, then by name.  Nothing is selected exactly when
    no candidate can hold the data.  The rejected candidates are exactly those that
    cannot, each with a reason that is true of it.  Sizes are unsigned 64-bit. *)
Theorem placement_optimal c req gs os :
  sizes_typed c req os →
  ∃ r, place_with_groups c req gs os = Ret r
    ∧ ((∃ d, r = Ok d) ↔ validate c = Ok tt ∧ 0 < required_bytes req ∧ vec_len os ≤ 32 ∧ NoDup (obs_id <$> os)
         ∧ Forall (λ o, available_bytes o ≤ total_bytes o) os)
    ∧ ∀ d, r = Ok d →
        (d = mk_placement None [] ∧ Forall (λ r, ¬ rule_matches req gs r) (placement c))
        ∨ ∃ rule, rule ∈ placement c ∧ rule_matches req gs rule
          ∧ (∀ r', r' ∈ placement c → rule_matches req gs r' → at_least rule r')
          ∧ let offered id v := (if allow_fallback rule then id ∈ candidates rule else head (candidates rule) = Some id)
                                ∧ find_volume (volumes c) id = Some v in
            match selected d with
            | Some id => ∃ v, offered id v ∧ can_hold v req gs (observed os id)
                ∧ ∀ id' v', offered id' v' → can_hold v' req gs (observed os id') →
                    ranks_before (strategy rule) v (observed os id) v' (observed os id')
            | None => ∀ id v, offered id v → ¬ can_hold v req gs (observed os id)
            end
            ∧ (∀ id, (∃ reason, mk_rejected id reason ∈ rejected d) ↔
                 ∃ v, offered id v ∧ ¬ can_hold v req gs (observed os id))
            ∧ ∀ id reason, mk_rejected id reason ∈ rejected d →
                ∃ v, offered id v ∧ reason_holds reason v req gs (observed os id).
Proof.
  intros Htyped. unfold place_with_groups.
  assert ((let? _ := validate c in let? _ := ensure (0 <? required_bytes req) "placement must request at least one byte" in
           validate_observations os) = Ok tt ↔
    validate c = Ok tt ∧ 0 < required_bytes req ∧ vec_len os ≤ 32 ∧ NoDup (obs_id <$> os)
    ∧ Forall (λ o, available_bytes o ≤ total_bytes o) os) as Hiff.
  { destruct (validate c) as [[]|]; cbn [rbind]; [|naive_solver].
    rewrite check_Ok, Z.ltb_lt, validate_observations_spec. naive_solver. }
  destruct (let? _ := validate c in _) as [[]|e] eqn:Hchk.
  2:{ eexists. split; [done|]. split; [|by intros]. split; [by intros [? ?]|]. by intros ?%Hiff. }
  pose proof (proj1 Hiff eq_refl) as Hinput. destruct Hinput as (Hval & Hreq & _).
  apply validate_placement_spec in Hval as (_ & _ & Hrules & _).
  pose proof (matching_rule_most_specific c req gs) as Hm.
  destruct (matching_rule c req gs) as [rule|].
  2:{ eexists. split; [done|]. split; [split; [intros _; by apply Hiff|by eexists]|]. intros d [= <-]. by left. }
  destruct Hm as (Hin & Hmatch & Hbest0). rewrite Forall_forall in Hrules.
  destruct (Hrules rule Hin) as (_ & _ & _ & Hknown).
  assert (Forall (λ id, is_Some (find_volume (volumes c) id)) (considered rule)) as Hfound.
  { apply Forall_forall. intros id Hid%considered_sub. rewrite Forall_forall in Hknown.
    destruct (Hknown id Hid) as (v & Hv & _). by exists v. }
  destruct (consider_typed c req gs os (considered rule) Hfound Htyped Hreq) as (el & rj & -> & Hel & Hrj & Hall).
  cbn [obind]. eexists. split; [done|]. split; [split; [intros _; by apply Hiff|by eexists]|].
  intros d [= <-]. right. exists rule. do 3 (split; [done|]). cbn [selected rejected]. cbv zeta.
  split; [|split].
  - destruct (head (merge_sort (placement_le (strategy rule)) el)) as [[v a]|] eqn:Hh; cbn;
      setoid_rewrite <-(considered_spec rule).
    + apply (sorted_head (placement_le (strategy rule))) in Hh as [Hva Hbest]; [|apply _..].
      apply Hel in Hva as (id & Hid & Hfv & Hhold & ->).
      assert (vol_id v = id) as ->.
      { unfold find_volume in Hfv. apply find_some in Hfv as [_ Hfv]. by reflect_bools. }
      exists v. split_and!; [done..|]. intros id' v' [Hid' Hfv'] Hhold'.
      rewrite Forall_forall in Hbest.
      assert (placement_le (strategy rule) (v, room_left v (observed os id)) (v', room_left v' (observed os id'))) as Hle
        by (apply Hbest, Hel; by exists id').
      unfold placement_le, ranks_before in *. destruct (strategy rule); cbn in *; [done|].
      destruct Hle as [?|[? ?]]; [by left|right; split; [lia|done]].
    + apply sorted_head_None in Hh. subst el. intros id v [Hid Hv] Hhold.
      assert ((v, room_left v (observed os id)) ∈ []) as Hn by (apply Hel; by exists id). by apply not_elem_of_nil in Hn.
  - intros id. setoid_rewrite <-(considered_spec rule). split.
    + intros [reason (Hid & v & Hv & Hn & _)%Hrj]. by exists v.
    + intros (v & [Hid Hv] & Hn). by eapply Hall.
  - setoid_rewrite <-(considered_spec rule). intros id reason (Hid & v & Hv & _ & Hr)%Hrj. by exists v.
Qed.

(** ** Witnesses *)

Definition demo_volume (id root : string) (prio : Z) : Volume :=
  mk_volume id root [Archive] Enabled prio (Some 1000) 10 20 10 [] [].
Definition demo_configuration : VolumeConfiguration :=
  mk_configuration [demo_volume "a" "/mnt/a" 2; demo_volume "b" "/mnt/b" 1]
    [mk_prule Archive None None ["a"; "b"] Priority true].

Lemma validated_configuration_witness : NoDup (vol_id <$> volumes demo_configuration).
Proof. apply (validated_configuration demo_configuration). vm_compute. reflexivity. Defined.

Example placement_runs :
  place demo_configuration (mk_request Archive "front" "" 50)
    [mk_observation "a" Online false 1000 500 0; mk_observation "b" Online false 1000 59 0]
  = Ret (Ok (mk_placement (Some "a") [mk_rejected "b" InsufficientSpace])).
Proof. vm_compute. reflexivity. Qed.

Definition demo_request : PlacementRequest := mk_request Archive "front" "" 50.
Definition demo_observations : list VolumeObservation :=
  [mk_observation "a" Online false 1000 500 0; mk_observation "b" Online false 1000 59 0].
Definition demo_placement : PlacementDecision := mk_placement (Some "a") [mk_rejected "b" InsufficientSpace].

(** The volume with the better priority number is too full, so the other one is chosen,
    and it can hold the data. *)
Lemma placement_optimal_witness :
  place_with_groups demo_configuration demo_request [""] demo_observations = Ret (Ok demo_placement)
  ∧ ∃ v, find_volume (volumes demo_configuration) "a" = Some v
      ∧ can_hold v demo_request [""] (observed demo_observations "a").
Proof.
  assert (place_with_groups demo_configuration demo_request [""] demo_observations = Ret (Ok demo_placement)) as E
    by (vm_compute; reflexivity).
  split; [exact E|].
  destruct (placement_optimal demo_configuration demo_request [""] demo_observations) as (r & Hr & _ & Hd).
  - split; [by vm_compute|]. split; repeat constructor; by vm_compute.
  - rewrite E in Hr. injection Hr as <-. destruct (Hd _ eq_refl) as [[H _]|(rule & _ & _ & _ & (v & [_ Hv] & Hh & _) & _)].
    + discriminate H.
    + exists v. exact (conj Hv Hh).
Defined.
