(* ===== verification/Privacy.v ===== *)
(** * Camera privacy

    [src/privacy.rs]: weekly privacy windows in a camera's time zone with bounded
    administrator overrides, profile overrides that can only add privacy, and a gate
    per camera whose epoch advances at every change.

    Instants are UTC nanoseconds.  The [chrono] and [chrono_tz] crates answer through
    three arguments: [tz_parse] for zone names, [utc_offset] for the offset of a zone
    at an instant, and [rfc3339] for timestamps.  [decision_for_ip] is [decision] of
    the printed address; [next_transition] is a read-only forecast and left out. *)

From S2P Require Import Prelude.

Definition MAX_WINDOWS : Z := 64.
Definition MAX_PROFILE_OVERRIDES_DURING_TRANSITION : Z := 127 * 2.

Record PrivacyGate := mk_gate { gate_active : bool; gate_epoch : Z }.
Definition gate_new : PrivacyGate := mk_gate false 0.

(** [fetch_add] wraps, the returned value saturates. *)
Definition set_active (g : PrivacyGate) (active : bool) : Z * PrivacyGate :=
  if Bool.eqb (gate_active g) active then (gate_epoch g, g)
  else (saturating_add u64_max (gate_epoch g) 1, mk_gate active (wrapping_add (gate_epoch g) 1)).
Definition allows (g : PrivacyGate) (observed_epoch : Z) : bool :=
  negb (gate_active g) && (observed_epoch =? gate_epoch g).

Record PrivacyWindow := mk_window {
  weekdays : list Z;
  w_start : string;
  w_end : string
}.
Record PrivacyOverride := mk_override {
  actor : string;
  reason : string;
  accepted_at : string;
  expires_at : string
}.
Record PrivacySchedule := mk_schedule {
  enabled : bool;
  timezone : string;
  windows : list PrivacyWindow;
  temporary_override : option PrivacyOverride;
  keep_camera_connected : bool
}.

Definition minute_ns : Z := 60 * nanos_per_sec.
Definition day_ns : Z := 1440 * minute_ns.

(** [str::parse::<u32>] on two bytes: two digits, or a plus sign and a digit. *)
Definition digit (b : Z) : option Z := if (48 <=? b) && (b <=? 57) then Some (b - 48) else None.
Definition parse_two (a b : Z) : option Z :=
  match digit a, digit b with
  | Some x, Some y => Some (10 * x + y)
  | None, Some y => if a =? 43 then Some y else None
  | _, None => None
  end.

(** The time of day in nanoseconds; [from_hms_opt] refuses hours from 24 and minutes
    from 60 on. *)
Definition parse_time (value : string) : result string Z :=
  match bytes_of value with
  | [a; b; c; d; e] =>
      if negb (c =? 58) then Err "privacy schedule time must use HH:MM form"
      else
        match parse_two a b with
        | None => Err "privacy schedule hour is invalid"
        | Some hour =>
            match parse_two d e with
            | None => Err "privacy schedule minute is invalid"
            | Some minute =>
                if (hour <? 24) && (minute <? 60) then Ok ((hour * 60 + minute) * minute_ns)
                else Err "privacy schedule time is outside the day"
            end
        end
  | _ => Err "privacy schedule time must use HH:MM form"
  end.

(** [trim().is_empty()]: nothing but white space. *)
Fixpoint all_space (fuel : nat) (l : list Z) : bool :=
  match l with
  | [] => true
  | a :: l1 =>
      match fuel with
      | O => false
      | S fuel' =>
          if ws1 a then all_space fuel' l1
          else match l1 with
               | b :: l2 =>
                   if ws2 a b then all_space fuel' l2
                   else match l2 with
                        | c :: l3 => if ws3 a b c then all_space fuel' l3 else false
                        | [] => false
                        end
               | [] => false
               end
      end
  end.
Definition trim_is_empty (s : string) : bool := all_space (length (bytes_of s)) (bytes_of s).

Section privacy.
Context {Tz : Type} (tz_parse : string → option Tz) (utc_offset : Tz → Z → Z)
  (rfc3339 : string → option Z).

Definition parse_override_time (value : string) : result string Z :=
  match rfc3339 value with
  | Some t => Ok t
  | None => Err "privacy override timestamps must use RFC3339"
  end.

Definition parse_zone (s : PrivacySchedule) : result string Tz :=
  match tz_parse (timezone s) with
  | Some z => Ok z
  | None => Err "privacy schedule timezone must be a valid IANA zone"
  end.

Fixpoint validate_windows (ws : list PrivacyWindow) : result string unit :=
  match ws with
  | [] => Ok tt
  | w :: ws' =>
      let? _ := ensure (negb (bool_decide (weekdays w = [])))
        "privacy schedule windows must include at least one weekday" in
      let? _ := ensure (negb (existsb (λ d, negb ((1 <=? d) && (d <=? 7))) (weekdays w)))
        "privacy schedule weekday must be between 1 and 7" in
      let? s := parse_time (w_start w) in
      let? e := parse_time (w_end w) in
      let? _ := ensure (negb (s =? e))
        "privacy schedule windows cannot have equal start and end times" in
      validate_windows ws'
  end.

Definition validate_override (o : PrivacyOverride) : result string unit :=
  let? _ := ensure (negb (trim_is_empty (actor o) || (256 <? str_len (actor o))))
    "privacy override actor must contain 1 to 256 bytes" in
  let? _ := ensure (negb (trim_is_empty (reason o) || (256 <? str_len (reason o))))
    "privacy override reason must contain 1 to 256 bytes" in
  let? accepted := parse_override_time (accepted_at o) in
  let? expires := parse_override_time (expires_at o) in
  let? _ := ensure (accepted <? expires) "privacy override expiry must follow acceptance" in
  ensure (expires - accepted <=? day_ns) "privacy override cannot exceed 24 hours".

Definition validate (s : PrivacySchedule) : result string unit :=
  let? _ := ensure (vec_len (windows s) <=? MAX_WINDOWS)
    "privacy schedule cannot contain more than 64 windows" in
  let? _ := parse_zone s in
  let? _ := validate_windows (windows s) in
  match temporary_override s with
  | Some o => validate_override o
  | None => Ok tt
  end.

(** The override suppresses privacy; one with unreadable timestamps does too. *)
Definition override_active (o : PrivacyOverride) (instant : Z) : bool :=
  match parse_override_time (accepted_at o) with
  | Err _ => true
  | Ok accepted =>
      match parse_override_time (expires_at o) with
      | Err _ => true
      | Ok expires => (accepted <=? instant) && (instant <? expires)
      end
  end.

(** [with_timezone] and its [weekday] and [time]: 1970-01-01 was a Thursday. *)
Definition local_ns (z : Tz) (instant : Z) : Z := instant + utc_offset z instant.
Definition weekday_number (local : Z) : Z := (local / day_ns + 3) mod 7 + 1.
Definition time_of_day (local : Z) : Z := local mod day_ns.

Definition on (w : PrivacyWindow) (day : Z) : bool := existsb (λ d, d =? day) (weekdays w).

Fixpoint windows_loop (ws : list PrivacyWindow) (weekday local_time : Z) : result string bool :=
  match ws with
  | [] => Ok false
  | w :: ws' =>
      let? start := parse_time (w_start w) in
      let? end_ := parse_time (w_end w) in
      if on w weekday && (start <=? local_time) && (local_time <? end_) then Ok true
      else if (end_ <? start) && on w weekday && (start <=? local_time) then Ok true
      else if (end_ <? start)
              && (on w (if weekday =? 1 then 7 else weekday - 1) && (local_time <? end_))
      then Ok true
      else windows_loop ws' weekday local_time
  end.

Definition is_active_unchecked (s : PrivacySchedule) (instant : Z) : result string bool :=
  if negb (enabled s) then Ok false
  else if is_some_and (λ o, override_active o instant) (temporary_override s) then Ok false
  else
    let? zone := parse_zone s in
    let local := local_ns zone instant in
    windows_loop (windows s) (weekday_number local) (time_of_day local).

Definition is_active (s : PrivacySchedule) (instant : Z) : result string bool :=
  let? _ := validate s in
  is_active_unchecked s instant.

(** ** The registry *)

Record PrivacyRegistry := mk_registry {
  schedules : gmap string PrivacySchedule;
  profile_overrides : gmap string bool;
  gates : gmap string PrivacyGate;
  aliases : gmap string string
}.

(** [BTreeMap] iteration, in key order. *)
Fixpoint validate_cameras (l : list (string * PrivacySchedule)) : result string unit :=
  match l with
  | [] => Ok tt
  | (camera_id, s) :: l' =>
      let? _ := ensure (negb (trim_is_empty camera_id || (256 <? str_len camera_id)))
        "privacy camera keys must contain 1 to 256 bytes" in
      let? _ := validate s in
      validate_cameras l'
  end.

Definition registry_new (m : gmap string PrivacySchedule) : result string PrivacyRegistry :=
  let? _ := ensure (Z.of_nat (size m) <=? 127) "privacy registry cannot contain more than 127 cameras" in
  let? _ := validate_cameras (btree_iter m) in
  Ok (mk_registry m ∅ ((λ _, gate_new) <$> m) ∅).

Definition old_or_new (old : gmap string PrivacyGate) (k : string) : PrivacyGate :=
  unwrap_or (old !! k) gate_new.

Definition replace_schedules (r : PrivacyRegistry) (m : gmap string PrivacySchedule)
    : result string unit * PrivacyRegistry :=
  match registry_new m with
  | Err e => (Err e, r)
  | Ok _ =>
      (Ok tt,
       mk_registry m (profile_overrides r)
         (set_to_map (λ k, (k, old_or_new (gates r) k)) (dom m ∪ dom (profile_overrides r)))
         (aliases r))
  end.

Fixpoint validate_keys (l : list (string * bool)) : result string unit :=
  match l with
  | [] => Ok tt
  | (camera_id, _) :: l' =>
      let? _ := ensure (negb (trim_is_empty camera_id || (256 <? str_len camera_id)))
        "profile privacy camera keys must contain 1 to 256 bytes" in
      validate_keys l'
  end.

(** [schedules.get(..).map(is_active_unchecked).transpose()...unwrap_or(true)]: a
    schedule that cannot be evaluated counts as active. *)
Definition scheduled_active (m : gmap string PrivacySchedule) (camera_id : string) (now : Z) : bool :=
  match m !! camera_id with
  | None => false
  | Some s => match is_active_unchecked s now with Ok b => b | Err _ => true end
  end.

Definition replace_profile_overrides (r : PrivacyRegistry) (overrides : gmap string bool) (now : Z)
    : result string unit * PrivacyRegistry :=
  match (let? _ := ensure (Z.of_nat (size overrides) <=? MAX_PROFILE_OVERRIDES_DURING_TRANSITION)
           "profile privacy overrides cannot contain more than 254 cameras" in
         validate_keys (btree_iter overrides)) with
  | Err e => (Err e, r)
  | Ok _ =>
      let affected := dom (profile_overrides r) ∪ dom overrides in
      let gates' :=
        set_to_map (λ k,
          (k, if decide (k ∈ affected)
              then snd (set_active (old_or_new (gates r) k)
                     (unwrap_or (overrides !! k) false || scheduled_active (schedules r) k now))
              else old_or_new (gates r) k))
          (dom (gates r) ∪ affected) in
      (Ok tt, mk_registry (schedules r) overrides gates' (aliases r))
  end.

Definition set_alias (r : PrivacyRegistry) (alias camera_id : string) : PrivacyRegistry :=
  mk_registry (schedules r) (profile_overrides r) (gates r) (<[alias := camera_id]> (aliases r)).

Definition configured_id (r : PrivacyRegistry) (camera_id : string) : string :=
  unwrap_or (aliases r !! camera_id) camera_id.

Definition put_gate (r : PrivacyRegistry) (k : string) (g : PrivacyGate) : PrivacyRegistry :=
  mk_registry (schedules r) (profile_overrides r) (<[k := g]> (gates r)) (aliases r).

Definition decision (r : PrivacyRegistry) (camera_id : string) (instant : Z)
    : result string (bool * Z) * PrivacyRegistry :=
  let k := configured_id r camera_id in
  let profile_active := unwrap_or (profile_overrides r !! k) false in
  let finish active :=
    match gates r !! k with
    | None => (Err "privacy gate is missing for configured camera", r)
    | Some g => let '(epoch, g) := set_active g active in (Ok (active, epoch), put_gate r k g)
    end in
  match schedules r !! k with
  | None =>
      if negb profile_active then
        match gates r !! k with
        | Some g => let '(epoch, g) := set_active g false in (Ok (false, epoch), put_gate r k g)
        | None => (Ok (false, 0), r)
        end
      else finish true
  | Some s =>
      if profile_active then finish true
      else match is_active_unchecked s instant with
           | Err e => (Err e, r)
           | Ok active => finish active
           end
  end.

Definition gate (r : PrivacyRegistry) (camera_id : string) : option PrivacyGate :=
  gates r !! configured_id r camera_id.

(** ** Windows *)

(** An occurrence of a window: it starts on a listed day and ends the same day, or
    the next one when its end is before its start. *)
Definition covers (w : PrivacyWindow) (start end_ local : Z) : Prop :=
  ∃ day, on w ((day + 3) mod 7 + 1) = true
    ∧ day * day_ns + start ≤ local
    ∧ local < day * day_ns + end_ + (if end_ <? start then day_ns else 0).

Definition window_covers (w : PrivacyWindow) (local : Z) : Prop :=
  ∃ start end_, parse_time (w_start w) = Ok start ∧ parse_time (w_end w) = Ok end_
    ∧ covers w start end_ local.

Lemma day_ns_pos : 0 < day_ns.
Proof. by vm_compute. Qed.

Lemma digit_range b x : digit b = Some x → 0 ≤ x ≤ 9.
Proof. unfold digit. split_match; [|done]. intros [= <-]. reflect_bools. lia. Qed.
Lemma parse_two_nonneg a b x : parse_two a b = Some x → 0 ≤ x.
Proof.
  unfold parse_two. destruct (digit a) eqn:Ha, (digit b) eqn:Hb; try done;
    try split_match; intros [= <-]; repeat match goal with H : digit _ = Some _ |- _ => apply digit_range in H end; lia.
Qed.
Lemma parse_time_range v t : parse_time v = Ok t → 0 ≤ t < day_ns.
Proof.
  unfold parse_time. destruct (bytes_of v) as [|a [|b [|c [|d [|e [|f l]]]]]]; try done.
  split_match; [done|]. destruct (parse_two a b) as [h|] eqn:Hh; [|done].
  destruct (parse_two d e) as [m|] eqn:Hm; [|done]. split_match; [|done]. intros [= <-].
  apply parse_two_nonneg in Hh, Hm. reflect_bools. unfold day_ns, minute_ns, nanos_per_sec. lia.
Qed.

(** The day before, by name and by number. *)
Lemma previous_weekday local :
  (if weekday_number local =? 1 then 7 else weekday_number local - 1)
  = (local / day_ns - 1 + 3) mod 7 + 1.
Proof.
  unfold weekday_number. set (d := local / day_ns). clearbody d.
  destruct ((d + 3) mod 7 + 1 =? 1) eqn:H; reflect_bools; Z.div_mod_to_equations; lia.
Qed.

(** The three tests of the loop decide whether an occurrence covers the time. *)
Lemma window_tests w start end_ local :
  0 ≤ start < day_ns → 0 ≤ end_ < day_ns →
  (on w (weekday_number local) && (start <=? time_of_day local) && (time_of_day local <? end_)
   || (end_ <? start) && on w (weekday_number local) && (start <=? time_of_day local)
   || (end_ <? start) && (on w ((local / day_ns - 1 + 3) mod 7 + 1) && (time_of_day local <? end_))) = true
  ↔ covers w start end_ local.
Proof.
  intros Hs He. pose proof day_ns_pos as Hpos. unfold covers, weekday_number, time_of_day.
  pose proof (Z.div_mod local day_ns ltac:(lia)) as Hd.
  pose proof (Z.mod_pos_bound local day_ns Hpos) as Hm.
  set (q := local / day_ns) in *. set (r := local mod day_ns) in *. clearbody q r.
  split.
  - rewrite !orb_true_iff, !andb_true_iff. intros [[H|H]|H].
    + exists q. destruct H as [[Ho H1] H2]. reflect_bools. split; [done|]. split_match; reflect_bools; lia.
    + exists q. destruct H as [[H1 Ho] H2]. rewrite H1. reflect_bools. split; [done|]. lia.
    + exists (q - 1). destruct H as [H1 [Ho H2]]. rewrite H1. reflect_bools. split; [done|]. nia.
  - intros (day & Ho & H1 & H2). destruct (end_ <? start) eqn:Hw; reflect_bools.
    + assert (day = q ∨ day = q - 1) as [-> | ->] by nia.
      * destruct (start <=? r) eqn:Hr; [rewrite Ho; cbn; by rewrite !orb_true_r|]. reflect_bools. nia.
      * rewrite Ho. assert ((r <? end_) = true) as -> by (apply Z.ltb_lt; nia). cbn. by rewrite orb_true_r.
    + assert (day = q) as -> by nia. rewrite Ho.
      assert ((start <=? r) = true) as -> by (apply Z.leb_le; nia).
      assert ((r <? end_) = true) as -> by (apply Z.ltb_lt; nia). done.
Qed.

Definition times_ok (w : PrivacyWindow) : Prop :=
  ∃ s e, parse_time (w_start w) = Ok s ∧ parse_time (w_end w) = Ok e.

Lemma windows_loop_spec ws local :
  Forall times_ok ws →
  ∃ b, windows_loop ws (weekday_number local) (time_of_day local) = Ok b
    ∧ (b = true ↔ Exists (λ w, window_covers w local) ws).
Proof.
  induction 1 as [|w ws (s & e & Hs & He) _ (b & Hb & Hiff)]; cbn [windows_loop].
  { exists false. by rewrite Exists_nil. }
  rewrite Hs, He. cbn [rbind]. rewrite previous_weekday.
  pose proof (window_tests w s e local (parse_time_range _ _ Hs) (parse_time_range _ _ He)) as Ht.
  assert (window_covers w local ↔ covers w s e local) as Hc.
  { unfold window_covers. split; [|by exists s, e]. intros (s' & e' & H1 & H2 & H3).
    rewrite Hs in H1. rewrite He in H2. by simplify_eq. }
  pose proof (Exists_cons (λ w, window_covers w local) w ws) as Hex. rewrite Hc, <-Ht in Hex.
  clear Ht Hc. revert Hex.
  destruct (on w (weekday_number local) && (s <=? time_of_day local) && (time_of_day local <? e));
    [intros Hex; exists true; split; [done|]; rewrite Hex; cbn; by intuition|].
  destruct ((e <? s) && on w (weekday_number local) && (s <=? time_of_day local));
    [intros Hex; exists true; split; [done|]; rewrite Hex; cbn; by intuition|].
  destruct ((e <? s) && (on w _ && (time_of_day local <? e)));
    [intros Hex; exists true; split; [done|]; rewrite Hex; cbn; by intuition|].
  intros Hex. exists b. split; [done|]. rewrite Hex, Hiff. cbn. naive_solver.
Qed.

Lemma validate_windows_spec ws : validate_windows ws = Ok tt → Forall times_ok ws.
Proof.
  induction ws as [|w ws IH]; cbn [validate_windows]; [constructor|].
  rewrite rbind_Ok. intros ([] & _ & H). rewrite rbind_Ok in H. destruct H as ([] & _ & H).
  rewrite rbind_Ok in H. destruct H as (s & Hs & H). rewrite rbind_Ok in H. destruct H as (e & He & H).
  rewrite rbind_Ok in H. destruct H as ([] & _ & H). constructor; [by exists s, e|by apply IH].
Qed.

(** A valid override has readable bounds less than a day apart. *)
Definition override_bounds (o : PrivacyOverride) (accepted expires : Z) : Prop :=
  rfc3339 (accepted_at o) = Some accepted ∧ rfc3339 (expires_at o) = Some expires
  ∧ accepted < expires ≤ accepted + day_ns.

Lemma validate_override_spec o : validate_override o = Ok tt → ∃ a e, override_bounds o a e.
Proof.
  unfold validate_override. rewrite rbind_Ok. intros ([] & _ & H).
  rewrite rbind_Ok in H. destruct H as ([] & _ & H). rewrite rbind_Ok in H. destruct H as (a & Ha & H).
  rewrite rbind_Ok in H. destruct H as (e & He & H). rewrite rbind_Ok in H. destruct H as ([] & Hlt & H).
  apply ensure_Ok in Hlt, H. reflect_bools. exists a, e. unfold parse_override_time in *.
  destruct (rfc3339 (accepted_at o)) eqn:H1; [|done]. destruct (rfc3339 (expires_at o)) eqn:H2; [|done].
  simplify_eq. split_and!; [done|done|lia|lia].
Qed.

Record valid_schedule (s : PrivacySchedule) : Prop := mk_valid {
  v_zone : ∃ z, tz_parse (timezone s) = Some z;
  v_windows : Forall times_ok (windows s);
  v_override : ∀ o, temporary_override s = Some o → ∃ a e, override_bounds o a e
}.

Lemma validate_schedule_spec s : validate s = Ok tt → valid_schedule s.
Proof.
  unfold validate. rewrite rbind_Ok. intros ([] & _ & H). rewrite rbind_Ok in H. destruct H as (z & Hz & H).
  rewrite rbind_Ok in H. destruct H as ([] & Hw & H). constructor.
  - unfold parse_zone in Hz. destruct (tz_parse (timezone s)) as [z'|]; [by exists z'|done].
  - by apply validate_windows_spec.
  - intros o Ho. rewrite Ho in H. by apply validate_override_spec.
Qed.

(** When a valid schedule makes the camera private. *)
Definition private_at (s : PrivacySchedule) (instant : Z) : Prop :=
  enabled s = true
  ∧ (∀ o a e, temporary_override s = Some o → override_bounds o a e → ¬ (a ≤ instant < e))
  ∧ ∃ z, tz_parse (timezone s) = Some z
      ∧ Exists (λ w, window_covers w (local_ns z instant)) (windows s).

Lemma is_active_spec s instant :
  valid_schedule s → ∃ b, is_active_unchecked s instant = Ok b ∧ (b = true ↔ private_at s instant).
Proof.
  intros [(z & Hz) Hw Ho]. unfold is_active_unchecked, private_at.
  destruct (enabled s); cbn [negb]; [|exists false; naive_solver].
  destruct (is_some_and (λ o, override_active o instant) (temporary_override s)) eqn:Hov.
  - exists false. split; [done|]. split; [done|]. intros (_ & Hn & _).
    destruct (temporary_override s) as [o|]; [|done]. cbn in Hov.
    destruct (Ho o eq_refl) as (a & e & Hb). exfalso. apply (Hn o a e eq_refl Hb).
    destruct Hb as (H1 & H2 & _). unfold override_active, parse_override_time in Hov.
    rewrite H1, H2 in Hov. by reflect_bools.
  - unfold parse_zone. rewrite Hz. cbn [rbind].
    destruct (windows_loop_spec (windows s) (local_ns z instant) Hw) as (b & Hb & Hiff).
    exists b. split; [done|]. rewrite Hiff. split.
    + intros He. split_and!; [done| |by exists z]. intros o a e Hso (H1 & H2 & _) [Hl Hr].
      rewrite Hso in Hov. cbn in Hov. unfold override_active, parse_override_time in Hov.
      rewrite H1, H2 in Hov. apply andb_false_iff in Hov. reflect_bools. destruct Hov; reflect_bools; lia.
    + intros (_ & _ & z' & Hz' & He). by simplify_eq.
Qed.

(** C25. Privacy windows mean what they say: a schedule that passes validation always
    evaluates, and it is active exactly when it is enabled, no temporary override is
    running (which lasts at most 24 hours), and the local time lies in an occurrence
    of one of its windows: one that starts on a listed weekday and, when its end is
    before its start, runs past midnight into the next day. *)
Theorem privacy_window_exact s instant :
  validate s = Ok tt →
  ∃ b, is_active s instant = Ok b ∧ (b = true ↔ private_at s instant).
Proof.
  intros Hv. unfold is_active. rewrite Hv. cbn [rbind]. apply is_active_spec. by apply validate_schedule_spec.
Qed.

(** ** The registry *)

Definition gate_ok (g : PrivacyGate) : Prop := gate_active g = Z.odd (gate_epoch g).

Record registry_ok (r : PrivacyRegistry) : Prop := mk_registry_ok {
  ok_schedules : map_Forall (λ _ s, valid_schedule s) (schedules r);
  ok_gates : dom (schedules r) ∪ dom (profile_overrides r) ⊆ dom (gates r);
  ok_parity : map_Forall (λ _ g, gate_ok g) (gates r)
}.

Lemma set_active_ok g b :
  gate_ok g → gate_ok (snd (set_active g b)) ∧ gate_active (snd (set_active g b)) = b
    ∧ (fst (set_active g b) < u64_max → Z.odd (fst (set_active g b)) = b).
Proof.
  unfold gate_ok, set_active. intros Hg.
  destruct (Bool.eqb (gate_active g) b) eqn:Hb; cbn.
  - apply Bool.eqb_prop in Hb. by rewrite <-Hg, Hb.
  - apply Bool.eqb_false_iff in Hb.
    assert (Z.odd (gate_epoch g + 1) = b) as Hodd.
    { rewrite Z.add_1_r, Z.odd_succ, <-Z.negb_odd, <-Hg. by destruct (gate_active g), b. }
    split_and!; [|done|].
    + unfold wrapping_add. by rewrite <-Z.bit0_odd, Z.mod_pow2_bits_low, Z.bit0_odd by lia.
    + unfold saturating_add. intros Hlt. rewrite Z.min_r by lia. done.
Qed.

Lemma gate_new_ok : gate_ok gate_new.
Proof. done. Qed.

Lemma old_or_new_ok (old : gmap string PrivacyGate) k :
  map_Forall (λ _ g, gate_ok g) old → gate_ok (old_or_new old k).
Proof. unfold old_or_new. destruct (old !! k) as [g|] eqn:Hk; cbn; [|done]. intros H. by apply (H k). Qed.

Lemma validate_cameras_spec l :
  validate_cameras l = Ok tt → Forall (λ e, valid_schedule (snd e)) l.
Proof.
  induction l as [|[c s] l IH]; cbn [validate_cameras]; [constructor|].
  rewrite rbind_Ok. intros ([] & _ & H). rewrite rbind_Ok in H. destruct H as ([] & Hv & H).
  constructor; [by apply validate_schedule_spec|by apply IH].
Qed.

Lemma registry_new_spec m r :
  registry_new m = Ok r →
  map_Forall (λ _ s, valid_schedule s) m ∧ r = mk_registry m ∅ ((λ _, gate_new) <$> m) ∅.
Proof.
  unfold registry_new. rewrite rbind_Ok. intros ([] & _ & H). rewrite rbind_Ok in H.
  destruct H as ([] & Hv & H). simplify_eq. split; [|done]. apply validate_cameras_spec in Hv.
  intros k s Hs. rewrite Forall_forall in Hv. apply (Hv (k, s)). by apply btree_iter_elem.
Qed.

Lemma lookup_set_map {A} (f : string → A) (X : gset string) k :
  (set_to_map (λ k, (k, f k)) X : gmap string A) !! k = if decide (k ∈ X) then Some (f k) else None.
Proof.
  destruct (decide (k ∈ X)) as [Hin|Hin].
  - apply lookup_set_to_map; [naive_solver|]. by exists k.
  - apply eq_None_not_Some. intros [a Ha]. apply lookup_set_to_map in Ha; [|naive_solver].
    destruct Ha as (k' & Hk' & [= <- _]). done.
Qed.
Lemma dom_set_map {A} (f : string → A) (X : gset string) :
  dom (set_to_map (λ k, (k, f k)) X : gmap string A) = X.
Proof.
  apply set_eq. intros k. rewrite elem_of_dom, lookup_set_map. destruct (decide (k ∈ X)); [naive_solver|].
  split; [intros []; done|done].
Qed.

Inductive reg_step : PrivacyRegistry → PrivacyRegistry → Prop :=
| reg_schedules r m : reg_step r (snd (replace_schedules r m))
| reg_overrides r o now : reg_step r (snd (replace_profile_overrides r o now))
| reg_alias r a c : reg_step r (set_alias r a c)
| reg_decision r c t : reg_step r (snd (decision r c t)).

Definition reg_reachable (r : PrivacyRegistry) : Prop :=
  ∃ m r0, registry_new m = Ok r0 ∧ rtc reg_step r0 r.

Lemma put_gate_ok r k g b :
  registry_ok r → gates r !! k = Some g → registry_ok (put_gate r k (snd (set_active g b))).
Proof.
  intros [H1 H2 H3] Hg. constructor; cbn; [done| |].
  - rewrite dom_insert. set_solver.
  - apply map_Forall_insert_2; [|done]. by apply set_active_ok, (H3 k).
Qed.

(** A decision, and the registry after it. *)
Lemma decision_spec r c t :
  registry_ok r →
  ∃ active epoch, fst (decision r c t) = Ok (active, epoch)
    ∧ registry_ok (snd (decision r c t))
    ∧ (active = true ↔
         profile_overrides r !! configured_id r c = Some true
         ∨ ∃ s, schedules r !! configured_id r c = Some s ∧ private_at s t)
    ∧ (epoch < u64_max → Z.odd epoch = active)
    ∧ (∀ g, gates (snd (decision r c t)) !! configured_id r c = Some g → gate_active g = active).
Proof.
  intros Hok. pose proof Hok as [H1 H2 H3]. unfold decision. set (k := configured_id r c).
  assert (∀ g b, gates r !! k = Some g →
    registry_ok (put_gate r k (snd (set_active g b)))
    ∧ (fst (set_active g b) < u64_max → Z.odd (fst (set_active g b)) = b)
    ∧ ∀ g', gates (put_gate r k (snd (set_active g b))) !! k = Some g' → gate_active g' = b) as Hset.
  { intros g b Hg. destruct (set_active_ok g b (H3 k g Hg)) as (_ & Ha & Hodd).
    split_and!; [by apply put_gate_ok|done|]. cbn. intros g'. rewrite lookup_insert_eq. by intros [= <-]. }
  assert (is_Some (schedules r !! k) ∨ is_Some (profile_overrides r !! k) → ∃ g, gates r !! k = Some g) as Hgate.
  { rewrite <-!elem_of_dom. intros Hk. apply elem_of_dom. set_solver. }
  assert (∀ active, (is_Some (schedules r !! k) ∨ is_Some (profile_overrides r !! k)) →
    ∃ g, gates r !! k = Some g ∧
    match gates r !! k with
    | None => (Err "privacy gate is missing for configured camera", r)
    | Some g => let '(epoch, g) := set_active g active in (Ok (active, epoch), put_gate r k g)
    end = (Ok (active, fst (set_active g active)), put_gate r k (snd (set_active g active)))) as Hfin.
  { intros active Hk. destruct (Hgate Hk) as [g Hg]. exists g. split; [done|]. rewrite Hg.
    by destruct (set_active g active). }
  destruct (schedules r !! k) as [s|] eqn:Hs.
  - destruct (profile_overrides r !! k) as [[]|] eqn:Hp; cbn [unwrap_or].
    1: { destruct (Hfin true ltac:(left; by eexists)) as (g & Hg & ->). destruct (Hset g true Hg) as (? & ? & ?).
         eexists _, _. split; [done|]. split_and!; [done|naive_solver|done|done]. }
    all: destruct (is_active_spec s t (H1 k s Hs)) as (b & -> & Hb);
      destruct (Hfin b ltac:(left; by eexists)) as (g & Hg & ->); destruct (Hset g b Hg) as (? & ? & ?);
      eexists _, _; (split; [done|]); split_and!; [done| |done|done]; rewrite Hb; naive_solver.
  - destruct (profile_overrides r !! k) as [[]|] eqn:Hp; cbn [unwrap_or negb].
    1: { destruct (Hfin true ltac:(right; by eexists)) as (g & Hg & ->). destruct (Hset g true Hg) as (? & ? & ?).
         eexists _, _. split; [done|]. split_and!; [done|naive_solver|done|done]. }
    all: destruct (gates r !! k) as [g|] eqn:Hg;
      [destruct (Hset g false eq_refl) as (? & ? & ?); destruct (set_active g false) as [e g'];
       eexists _, _; (split; [done|]); split_and!; [done|naive_solver|done|done]
      |eexists _, _; (split; [done|]); split_and!; [done|naive_solver|done|cbn; by rewrite Hg]].
Qed.

Lemma reg_step_ok r r' : registry_ok r → reg_step r r' → registry_ok r'.
Proof.
  intros Hok. pose proof Hok as [H1 H2 H3]. destruct 1 as [r m|r o now|r a c|r c t].
  - unfold replace_schedules. destruct (registry_new m) as [r0|] eqn:Hn; [|done].
    apply registry_new_spec in Hn as [Hv _]. constructor; cbn; [done| |].
    + by rewrite dom_set_map.
    + intros k g. rewrite lookup_set_map. split_match; [|done]. intros [= <-]. by apply old_or_new_ok.
  - unfold replace_profile_overrides. destruct (let? _ := _ in _) as [u|]; [|done].
    constructor; cbn; [done| |].
    + rewrite dom_set_map. set_solver.
    + intros k g. rewrite lookup_set_map. split_match; [|done]. intros [= <-].
      split_match; [apply set_active_ok|]; by apply old_or_new_ok.
  - done.
  - by destruct (decision_spec r c t Hok) as (? & ? & _ & ? & _).
Qed.

Lemma reg_reachable_ok r : reg_reachable r → registry_ok r.
Proof.
  intros (m & r0 & Hn & Hr). apply registry_new_spec in Hn as [Hv ->].
  assert (registry_ok (mk_registry m ∅ ((λ _, gate_new) <$> m) ∅)) as H0.
  { constructor; cbn; [done|rewrite dom_fmap; set_solver|].
    intros k g Hg. apply lookup_fmap_Some in Hg as (s & <- & _). done. }
  revert H0 Hr. generalize (mk_registry m ∅ ((λ _, gate_new) <$> m) ∅). intros r0 H0 Hr.
  induction Hr as [|x y z Hs _ IH]; [done|]. apply IH. by eapply reg_step_ok.
Qed.

(** C26. The registry decides privacy correctly and never loses a gate: on every
    registry reachable by replacing schedules and profile overrides, aliasing and
    deciding, a decision succeeds; it is private exactly when a profile override or
    the camera's schedule makes it so (a false override never weakens a schedule);
    the camera's gate is left in that state; and the epoch returned is odd exactly
    when private, so two decisions with the same epoch agree. *)
Theorem privacy_decision_exact r c t :
  reg_reachable r →
  ∃ active epoch, fst (decision r c t) = Ok (active, epoch)
    ∧ (active = true ↔
         profile_overrides r !! configured_id r c = Some true
         ∨ ∃ s, schedules r !! configured_id r c = Some s ∧ private_at s t)
    ∧ (epoch < u64_max → Z.odd epoch = active)
    ∧ (∀ g, gates (snd (decision r c t)) !! configured_id r c = Some g → gate_active g = active).
Proof.
  intros Hok%reg_reachable_ok. destruct (decision_spec r c t Hok) as (a & e & H1 & _ & H2 & H3 & H4).
  exists a, e. by split_and!.
Qed.

End privacy.

(** ** The gate under concurrency

    [set_active] holds a mutex but writes two atomics one after the other, the epoch
    first ([fetch_add], which wraps); [allows] loads [active] and then [epoch] without the
    mutex, and so do the readers of the epoch.  The steps are the two writes; a load is a
    look at the state in between. *)

Record GateState := mk_gate_state {
  st_active : bool;
  st_epoch : Z;
  (** a transition that has bumped the epoch and not stored [active] yet *)
  st_pending : option bool
}.

Definition gate_initial : GateState := mk_gate_state false 0 None.

Inductive gate_step : GateState → GateState → Prop :=
| gate_bump s b :
    st_pending s = None → st_active s ≠ b →
    gate_step s (mk_gate_state (st_active s) (wrapping_add (st_epoch s) 1) (Some b))
| gate_store s b :
    st_pending s = Some b → gate_step s (mk_gate_state b (st_epoch s) None).

(** A run in which [n] transitions began: a step begins one unless one is pending. *)
Definition begins (s : GateState) : Z := if is_none (st_pending s) then 1 else 0.
Inductive gate_run : Z → GateState → GateState → Prop :=
| run_done s : gate_run 0 s s
| run_step s s1 n s' : gate_step s s1 → gate_run n s1 s' → gate_run (begins s + n) s s'.

(** [allows] with [active] loaded in [s1] and [epoch] in [s2]. *)
Definition allows_loads (s1 s2 : GateState) (observed : Z) : bool :=
  negb (st_active s1) && (observed =? st_epoch s2).

Lemma gate_steps_run s s' : rtc gate_step s s' → ∃ n, gate_run n s s'.
Proof. induction 1 as [s|x y z Hs _ [n IH]]; eexists; [constructor|by eapply run_step]. Qed.

Lemma gate_run_nonneg n s s' : gate_run n s s' → 0 ≤ n.
Proof. induction 1 as [|s s1 n s' _ _ IH]; [lia|]. unfold begins. destruct (st_pending s); cbn; lia. Qed.
Lemma gate_run_trans n m s s' s'' : gate_run n s s' → gate_run m s' s'' → gate_run (n + m) s s''.
Proof.
  induction 1 as [s|s s1 n s' Hs _ IH]; intros H; [done|]. rewrite <-Z.add_assoc. eapply run_step; eauto.
Qed.

Definition epoch_ok (s : GateState) : Prop := 0 ≤ st_epoch s < 2 ^ 64.
Lemma wrapping_next e : 0 ≤ e < 2 ^ 64 → wrapping_add e 1 = (e + 1) mod 2 ^ 64 ∧ 0 ≤ wrapping_add e 1 < 2 ^ 64.
Proof. intros He. split; [done|]. apply (Z.mod_pos_bound (e + 1) (2 ^ 64)). lia. Qed.

(** The epoch counts the transitions that began, modulo 2^64. *)
Lemma gate_run_epoch n s s' :
  gate_run n s s' → epoch_ok s → epoch_ok s' ∧ st_epoch s' = (st_epoch s + n) mod 2 ^ 64.
Proof.
  unfold epoch_ok. induction 1 as [s|s s1 n s' Hst _ IH]; intros Hs.
  - split; [done|]. rewrite Z.add_0_r. symmetry. by apply Z.mod_small.
  - unfold begins. destruct Hst as [s b Hp Ha|s b Hp]; rewrite Hp; cbn [is_none].
    + destruct (wrapping_next _ Hs) as [Hw Hr]. destruct (IH Hr) as [H1 H2]. split; [done|]. rewrite H2. cbn [st_epoch].
      rewrite Hw, Zplus_mod_idemp_l. f_equal. lia.
    + by apply IH.
Qed.
Lemma gate_run_same n s s' :
  gate_run n s s' → epoch_ok s → n < 2 ^ 64 → st_epoch s' = st_epoch s → n = 0.
Proof.
  intros Hr Hs Hn He. pose proof (gate_run_nonneg _ _ _ Hr) as H0. destruct (gate_run_epoch _ _ _ Hr Hs) as [_ H].
  unfold epoch_ok in Hs. rewrite He in H. destruct (decide (st_epoch s + n < 2 ^ 64)).
  - rewrite Z.mod_small in H by lia. lia.
  - rewrite <-(Z.mod_unique (st_epoch s + n) (2 ^ 64) 1 (st_epoch s + n - 2 ^ 64)) in H by lia. lia.
Qed.

(** Leaving a private state takes a transition. *)
Lemma gate_leaves_active n s s' :
  gate_run n s s' → st_active s = true → st_pending s = None → st_active s' = false → 0 < n.
Proof.
  intros Hr. destruct Hr as [s|s s1 n s' _ Hr]; [congruence|]. intros _ Hp _.
  apply gate_run_nonneg in Hr. unfold begins. rewrite Hp. cbn. lia.
Qed.
(** Without a new transition the epoch stays. *)
Lemma gate_run_quiet s s' : gate_run 0 s s' → st_epoch s' = st_epoch s.
Proof.
  intros Hr. remember 0 as n eqn:En. induction Hr as [s|s s1 n s' Hs Hr IH]; [done|].
  apply gate_run_nonneg in Hr as Hn. unfold begins in En.
  destruct Hs as [s b Hp Ha|s b Hp]; rewrite Hp in En; cbn in En; [lia|]. by rewrite IH by lia.
Qed.

Lemma gate_reachable_epoch s : rtc gate_step gate_initial s → epoch_ok s.
Proof. intros [n Hr]%gate_steps_run. by apply (gate_run_epoch _ _ _ Hr). Qed.

(** C27. No stale media passes the gate.  An epoch is observed in a state the gate
    reached; later, [allows] loads [active] and then [epoch], with any transitions
    interleaved, fewer than 2^64 of them (the epoch wraps).  If a transition to private
    had completed in between, or when the epoch was observed, the check refuses, also
    when the gate was opened again.  If the check passes, no transition began since the
    epoch was observed: at its first load the gate was open, at the observed epoch. *)
Theorem gate_never_leaks s_obs s1 s2 n m :
  rtc gate_step gate_initial s_obs → gate_run n s_obs s1 → gate_run m s1 s2 → n + m < 2 ^ 64 →
  (∀ s_private i j, gate_run i s_obs s_private → gate_run j s_private s1 → n = i + j →
     st_active s_private = true → st_pending s_private = None → allows_loads s1 s2 (st_epoch s_obs) = false)
  ∧ (allows_loads s1 s2 (st_epoch s_obs) = true →
     n = 0 ∧ m = 0 ∧ st_active s1 = false ∧ st_epoch s1 = st_epoch s_obs).
Proof.
  intros Hobs%gate_reachable_epoch H1 H2 Hn.
  pose proof (gate_run_nonneg _ _ _ H1) as Hn0. pose proof (gate_run_nonneg _ _ _ H2) as Hm0.
  assert (allows_loads s1 s2 (st_epoch s_obs) = true → n + m = 0 ∧ st_active s1 = false) as Hpass.
  { unfold allows_loads. intros Hal. reflect_bools. split; [|done].
    by apply (gate_run_same _ _ _ (gate_run_trans _ _ _ _ _ H1 H2)). }
  split.
  - intros s_private i j Hi Hj -> Ha Hp. apply not_true_is_false. intros [Hz Hopen]%Hpass.
    pose proof (gate_run_nonneg _ _ _ Hi). pose proof (gate_leaves_active _ _ _ Hj Ha Hp Hopen). lia.
  - intros [Hz Hopen]%Hpass. split_and!; [lia|lia|done|]. assert (n = 0) as -> by lia.
    by apply gate_run_quiet.
Qed.

(** The new epoch is visible before privacy is: while [activate] is between its two
    writes, a check against the epoch it is about to return still passes. *)
Theorem gate_epoch_published_first s :
  st_active s = false → st_pending s = None →
  ∃ mid done_, gate_step s mid ∧ gate_step mid done_ ∧ st_active done_ = true
    ∧ st_epoch done_ = wrapping_add (st_epoch s) 1 ∧ allows_loads mid mid (st_epoch done_) = true.
Proof.
  intros Ha Hp. eexists _, _. split; [by apply (gate_bump s true); [|rewrite Ha]|].
  split; [by apply (gate_store _ true)|]. cbn. split_and!; [done|done|].
  unfold allows_loads. cbn. rewrite Ha. cbn. lia.
Qed.

(** ** Witnesses *)

Definition demo_schedule : PrivacySchedule :=
  mk_schedule true "UTC" [mk_window [4] "22:00" "06:00"] None true.
Definition demo_tz (s : string) : option unit := if str_eqb s "UTC" then Some tt else None.
Definition demo_offset (_ : unit) (_ : Z) : Z := 0.
Definition demo_rfc3339 (_ : string) : option Z := None.

(** Friday 1970-01-02, five in the morning: inside Thursday's window. *)
Lemma privacy_window_exact_witness :
  is_active demo_tz demo_offset demo_rfc3339 demo_schedule (29 * 60 * minute_ns) = Ok true
  ∧ private_at demo_tz demo_offset demo_rfc3339 demo_schedule (29 * 60 * minute_ns).
Proof.
  destruct (privacy_window_exact demo_tz demo_offset demo_rfc3339 demo_schedule (29 * 60 * minute_ns))
    as (b & Hb & Hiff); [vm_compute; reflexivity|].
  assert (is_active demo_tz demo_offset demo_rfc3339 demo_schedule (29 * 60 * minute_ns) = Ok true) as H
    by (vm_compute; reflexivity).
  split; [exact H|]. apply Hiff. congruence.
Defined.

Definition demo_registry : PrivacyRegistry :=
  mk_registry {["front" := demo_schedule]} ∅ {["front" := gate_new]} ∅.

Lemma privacy_decision_exact_witness :
  ∃ active epoch,
    fst (decision demo_tz demo_offset demo_rfc3339 demo_registry "front" (29 * 60 * minute_ns))
    = Ok (active, epoch).
Proof.
  destruct (privacy_decision_exact demo_tz demo_offset demo_rfc3339 demo_registry "front" (29 * 60 * minute_ns))
    as (a & e & H & _).
  - exists {["front" := demo_schedule]}, demo_registry. split; [vm_compute; reflexivity|constructor].
  - exists a, e. exact H.
Defined.

(** An epoch observed before the gate closed and opened again, and one observed in the
    open gate, which passes. *)
Lemma gate_never_leaks_witness :
  allows_loads (mk_gate_state false 2 None) (mk_gate_state false 2 None) 0 = false
  ∧ allows_loads gate_initial gate_initial 0 = true ∧ st_active gate_initial = false.
Proof.
  assert (gate_run 1 gate_initial (mk_gate_state true 1 None)) as H1.
  { refine (run_step gate_initial (mk_gate_state false 1 (Some true)) 0 _ _ (run_step (mk_gate_state false 1 (Some true)) (mk_gate_state true 1 None) 0 _ _ (run_done _))).
    - apply (gate_bump gate_initial true); [reflexivity|discriminate].
    - apply (gate_store (mk_gate_state false 1 (Some true)) true). reflexivity. }
  assert (gate_run 1 (mk_gate_state true 1 None) (mk_gate_state false 2 None)) as H2.
  { refine (run_step (mk_gate_state true 1 None) (mk_gate_state true 2 (Some false)) 0 _ _
      (run_step (mk_gate_state true 2 (Some false)) (mk_gate_state false 2 None) 0 _ _ (run_done _))).
    - apply (gate_bump (mk_gate_state true 1 None) false); [reflexivity|discriminate].
    - apply (gate_store (mk_gate_state true 2 (Some false)) false). reflexivity. }
  split; [|split].
  - refine (proj1 (gate_never_leaks gate_initial (mk_gate_state false 2 None) (mk_gate_state false 2 None) 2 0 _
      (gate_run_trans 1 1 _ _ _ H1 H2) (run_done _) _) (mk_gate_state true 1 None) 1 1 H1 H2 eq_refl eq_refl eq_refl);
      [constructor|reflexivity].
  - reflexivity.
  - refine (proj1 (proj2 (proj2 (proj2 (gate_never_leaks gate_initial gate_initial gate_initial 0 0 _ (run_done _) (run_done _) _) _))));
      [constructor|reflexivity|reflexivity].
Defined.

Lemma gate_epoch_published_first_witness :
  ∃ mid done_, gate_step (mk_gate_state false 0 None) mid ∧ gate_step mid done_ ∧ st_active done_ = true
    ∧ st_epoch done_ = 1 ∧ allows_loads mid mid (st_epoch done_) = true.
Proof. apply (gate_epoch_published_first (mk_gate_state false 0 None)); reflexivity. Defined.
