(* ===== verification/CameraEvent.v ===== *)
(** * Camera event types

    The values the camera event tracker consumes and emits: ONVIF notifications,
    detections and analytics frames ([crates/onvif/onvif/src/event.rs],
    [event/normalize.rs], [event/metadata.rs]), the camera event policy
    ([src/cameras/events.rs]) and timeline events ([src/storage/metadata.rs],
    [src/keeppeek.rs]).

    [f32] and [f64] are [spec_float]s in the canonical form of their format, and a
    [DateTime<Utc>] is its nanoseconds since the epoch. *)

From S2P Require Import Prelude.
From Stdlib Require Export SpecFloat.

(** ** Floating point *)

Definition f32_add : spec_float → spec_float → spec_float := SFadd 24 128.
Definition f32_zero : spec_float := S754_zero false.
Definition f32_one : spec_float := Eval vm_compute in SFone 24 128.

(** [f64::from(f32)]: the same value on a mantissa of 53 bits. *)
Definition f64_from_f32 (x : spec_float) : spec_float :=
  match x with
  | S754_finite s m e =>
      let '(m, e) := shl_align m e (e - (53 - Zpos (digits2_pos m))) in S754_finite s m e
  | _ => x
  end.

Definition is_finite (x : spec_float) : bool :=
  match x with S754_zero _ | S754_finite _ _ _ => true | _ => false end.
Definition is_nan (x : spec_float) : bool :=
  match x with S754_nan => true | _ => false end.
(** [(lo..=hi).contains(&x)]. *)
Definition range_contains (lo hi x : spec_float) : bool := SFleb lo x && SFleb x hi.

Lemma SFeqb_refl x : is_nan x = false → SFeqb x x = true.
Proof.
  destruct x as [s|s| |s m e]; try done; intros _; [by destruct s|].
  unfold SFeqb, SFcompare. destruct s; rewrite Z.compare_refl, Pos.compare_cont_refl; done.
Qed.

Lemma f64_from_f32_nan x : is_nan x = false → is_nan (f64_from_f32 x) = false.
Proof. destruct x; try done. intros _. simpl. by destruct (shl_align _ _ _). Qed.

(** ** ONVIF notifications *)

Record ExpandedName := mk_name {
  namespace_uri : option string;
  local_name : string
}.
Record XmlAttribute := mk_attribute {
  attr_name : ExpandedName;
  attr_value : string
}.
Inductive XmlElement :=
| mk_element (name : ExpandedName) (attributes : list XmlAttribute) (text : string)
             (children : list XmlElement).
Record SimpleItem := mk_simple {
  simple_name : string;
  simple_value : string
}.
Record ElementItem := mk_element_item {
  element_name : string;
  element_value : XmlElement
}.
Record ItemList := mk_items {
  simple : list SimpleItem;
  element : list ElementItem
}.
Record Topic := mk_topic {
  dialect : string;
  path : list ExpandedName
}.

Inductive TimestampReason := Missing | Invalid.
Inductive TimestampSource := Camera | Received (reason : TimestampReason).
Inductive PropertyOperation := Initialized | Changed | Deleted | Other (name : string).

Record Notification := mk_notification {
  n_topic : Topic;
  n_utc_time : Z;
  n_timestamp_source : TimestampSource;
  n_property_operation : option PropertyOperation;
  n_source : ItemList;
  n_key : ItemList;
  n_data : ItemList
}.

Inductive Kind :=
| KindMotion | KindTamper | KindDigitalInput | KindAudioDetected | KindVideoLoss
| KindLineCrossing | KindIntrusion | KindRegionEntry | KindRegionExit | KindLoitering
| KindPerson | KindVehicle | KindAnimal | KindFace | KindLicensePlate | KindPackage
| KindObjectCount | KindDoorbellPress.

#[export] Instance kind_eq_dec : EqDecision Kind.
Proof. solve_decision. Defined.

Definition kind_as_str (k : Kind) : string :=
  match k with
  | KindMotion => "motion"
  | KindTamper => "tamper"
  | KindDigitalInput => "digital_input"
  | KindAudioDetected => "audio_detected"
  | KindVideoLoss => "video_loss"
  | KindLineCrossing => "line_crossing"
  | KindIntrusion => "intrusion"
  | KindRegionEntry => "region_entry"
  | KindRegionExit => "region_exit"
  | KindLoitering => "loitering"
  | KindPerson => "person"
  | KindVehicle => "vehicle"
  | KindAnimal => "animal"
  | KindFace => "face"
  | KindLicensePlate => "license_plate"
  | KindPackage => "package"
  | KindObjectCount => "object_count"
  | KindDoorbellPress => "doorbell_press"
  end.

Inductive ObjectClass :=
| ClassPerson | ClassVehicle | ClassAnimal | ClassFace | ClassLicensePlate | ClassPackage.

Definition kind_from_class (c : ObjectClass) : Kind :=
  match c with
  | ClassPerson => KindPerson
  | ClassVehicle => KindVehicle
  | ClassAnimal => KindAnimal
  | ClassFace => KindFace
  | ClassLicensePlate => KindLicensePlate
  | ClassPackage => KindPackage
  end.

Record BoundingBox := mk_box {
  box_x : spec_float;
  box_y : spec_float;
  box_width : spec_float;
  box_height : spec_float
}.

Definition no_nan (o : option spec_float) : Prop :=
  match o with Some x => is_nan x = false | None => True end.
Definition box_coordinates (b : BoundingBox) : list spec_float :=
  [box_x b; box_y b; box_width b; box_height b].
Definition box_no_nan (o : option (list spec_float)) : Prop :=
  match o with Some l => Forall (λ x, is_nan x = false) l | None => True end.

Record Detection := mk_detection {
  det_kind : Kind;
  det_active : option bool;
  det_source : option string;
  det_rule : option string;
  det_identity : string;
  det_utc_time : Z;
  det_operation : option PropertyOperation;
  det_confidence : option spec_float;
  det_bbox : option BoundingBox;
  det_text : option string;
  det_count : option Z
}.

(** [onvif::event::Object] and [onvif::event::Frame]. *)
Record FrameObject := mk_object {
  obj_id : string;
  obj_class : option ObjectClass;
  obj_confidence : option spec_float;
  obj_bbox : option BoundingBox;
  obj_text : option string
}.
Record Frame := mk_frame {
  f_utc_time : Z;
  f_objects : list FrameObject;
  f_deleted_ids : list string;
  f_source : option string
}.

(** ** Camera event policy *)

Inductive EventMode := ModeAuto | Vendor | OnvifPullpoint | RtspMetadata | ModeDisabled.
Inductive MetadataMode := MetadataAuto | MetadataEnabled | MetadataDisabled.

#[export] Instance event_mode_eq_dec : EqDecision EventMode.
Proof. solve_decision. Defined.
#[export] Instance metadata_mode_eq_dec : EqDecision MetadataMode.
Proof. solve_decision. Defined.

Record EventConfig := mk_config {
  mode : EventMode;
  metadata_stream : MetadataMode;
  event_service_url : option string;
  source_tokens : list string;
  include_topics : list string;
  exclude_topics : list string;
  snapshots : bool
}.

(** ** Timeline events *)

(** [serde_json::Value], with the numbers the payloads hold. *)
Inductive Value :=
| VNull
| VBool (b : bool)
| VInt (z : Z)
| VFloat (x : spec_float)
| VString (s : string)
| VArray (l : list Value)
| VObject (fields : list (string * Value)).
Notation Payload := (gmap string Value).

Record EventAttachment := mk_attachment {
  att_id : string;
  attachment_type : string;
  content_type : string;
  att_byte_len : option Z;
  ordinal : Z;
  att_timestamp_ms : option Z;
  att_text : option string
}.
Inductive EventSource := SourceCamera | SourceKeepPeek.

Record TimelineEvent := mk_timeline {
  ev_id : string;
  ev_revision : Z;
  ev_camera_id : string;
  ev_stream : option string;
  ev_source : EventSource;
  ev_kind : string;
  ev_start_time_ms : Z;
  ev_end_time_ms : option Z;
  ev_confidence : option spec_float;
  ev_bbox : option (list spec_float);
  ev_bbox_attachment_id : option string;
  ev_zone : option string;
  ev_text : option string;
  ev_payload : option Payload;
  ev_attachments : list EventAttachment;
  ev_canonical_attachment_id : option string;
  ev_icon_key : string;
  ev_rejected_icon_key : option string;
  ev_thumbnail_filename : option string
}.

(** The variants of [KeepPeekEvent] that camera lifecycles produce. *)
Inductive KeepPeekEvent :=
| TimelineEventStarted (event : TimelineEvent)
| TimelineEventImages (event : TimelineEvent) (images : list (string * list Z))
| TimelineEventEnded (id : string) (end_time_ms : Z).

(** ** Event icons *)

Definition ascii_lower (c : Ascii.ascii) : Ascii.ascii :=
  let n := Ascii.N_of_ascii c in
  if (65 <=? n)%N && (n <=? 90)%N then Ascii.ascii_of_N (n + 32) else c.
Fixpoint str_lower (s : string) : string :=
  match s with
  | EmptyString => EmptyString
  | String c s' => String (ascii_lower c) (str_lower s')
  end.
(** [str::eq_ignore_ascii_case]. *)
Definition eq_ignore_ascii_case (a b : string) : bool := str_eqb (str_lower a) (str_lower b).
(** [str::contains]. *)
Fixpoint str_contains (s p : string) : bool :=
  str_prefix p s || match s with EmptyString => false | String _ s' => str_contains s' p end.

Definition matches_ignore_ascii_case (value : string) (candidates : list string) : bool :=
  existsb (eq_ignore_ascii_case value) candidates.

Definition fallback_event_icon (event_type : string) : string :=
  let event_type := str_trim event_type in
  if matches_ignore_ascii_case event_type ["person"; "human"; "face"] then "person"
  else if matches_ignore_ascii_case event_type ["vehicle"; "car"; "truck"] then "vehicle"
  else if matches_ignore_ascii_case event_type ["animal"; "pet"] then "animal"
  else if eq_ignore_ascii_case event_type "package" then "package"
  else if eq_ignore_ascii_case event_type "motion" then "motion"
  else if eq_ignore_ascii_case event_type "doorbell" then "doorbell"
  else if matches_ignore_ascii_case event_type ["sound"; "audio"] then "sound"
  else if eq_ignore_ascii_case event_type "story" then "story"
  else if str_contains event_type "outage" || str_contains event_type "unavailable" then "alert"
  else "event".
