(* ===== verification/OnvifItems.v ===== *)
(** * ONVIF topics and items

    [crates/onvif/onvif/src/event/normalize/topics.rs] and [items.rs]: the recognized
    topics with the state names they read, the budget that bounds a notification before
    its items are interpreted, and the state, source and rule items.

    [element_loop] is the [while let] over an explicit stack of [Budget::element]: every
    turn counts one node and fails beyond 256, so 257 units of fuel are enough. *)

From S2P Require Import Prelude CameraEvent.

Definition TOPICS : string := "http://www.onvif.org/ver10/topics".
Definition ONVIF_SCHEMA_NAMESPACE : string := "http://www.onvif.org/ver10/schema".
Definition XML_DEPTH_MAX : Z := 32.
Definition TOPIC_SEGMENT_COUNT_MAX : Z := 32.
Definition ITEM_COUNT_MAX : Z := 256.
Definition ELEMENT_NODE_COUNT_MAX : Z := 256.
Definition NOTIFICATION_XML_SIZE_BYTES_MAX : Z := 256 * 1024.

(** Fields of [XmlElement]. *)
Definition xml_name (x : XmlElement) : ExpandedName := let 'mk_element n _ _ _ := x in n.
Definition xml_attributes (x : XmlElement) : list XmlAttribute := let 'mk_element _ a _ _ := x in a.
Definition xml_text (x : XmlElement) : string := let 'mk_element _ _ t _ := x in t.
Definition xml_children (x : XmlElement) : list XmlElement := let 'mk_element _ _ _ c := x in c.

(** ** Topics *)

Record Mapping := mk_mapping {
  map_kind : option Kind;
  map_states : list string;
  map_point : bool
}.

Definition property (kind : Kind) (states : list string) : Mapping := mk_mapping (Some kind) states false.
Definition point (kind : Kind) : Mapping := mk_mapping (Some kind) ["State"; "IsDetected"] true.

Definition object_kind (category : string) : option Kind :=
  if existsb (str_eqb category) ["Person"; "Human"] then Some KindPerson
  else if str_eqb category "Vehicle" then Some KindVehicle
  else if str_eqb category "Animal" then Some KindAnimal
  else if str_eqb category "Face" then Some KindFace
  else if str_eqb category "LicensePlate" then Some KindLicensePlate
  else if str_eqb category "Package" then Some KindPackage
  else None.

Definition lookup_path (names : list string) : option Mapping :=
  let same p := bool_decide (names = p) in
  if same ["RuleEngine"; "CellMotionDetector"; "Motion"] then Some (property KindMotion ["IsMotion"; "State"])
  else if same ["RuleEngine"; "MotionRegionDetector"; "Motion"] || same ["VideoSource"; "MotionAlarm"]
  then Some (property KindMotion ["State"; "IsMotion"])
  else if same ["VideoSource"; "Tamper"] then Some (property KindTamper ["State"; "IsTamper"])
  else if same ["Device"; "Trigger"; "DigitalInput"]
  then Some (property KindDigitalInput ["LogicalState"; "State"])
  else if same ["AudioSource"; "AudioDetection"]
  then Some (property KindAudioDetected ["State"; "IsSoundDetected"; "IsSound"])
  else if same ["VideoSource"; "SignalLoss"] then Some (property KindVideoLoss ["State"; "IsSignalLoss"])
  else if same ["RuleEngine"; "LineDetector"; "Crossed"] then Some (point KindLineCrossing)
  else if same ["RuleEngine"; "FieldDetector"; "ObjectsInside"]
  then Some (property KindIntrusion ["IsInside"; "State"])
  else if same ["RuleEngine"; "FieldDetector"; "RegionEntrance"] then Some (point KindRegionEntry)
  else if same ["RuleEngine"; "FieldDetector"; "RegionExit"] then Some (point KindRegionExit)
  else if same ["RuleEngine"; "FieldDetector"; "Loitering"]
          || same ["RuleEngine"; "LoiteringDetector"; "ObjectIsLoitering"]
  then Some (property KindLoitering ["State"; "IsLoitering"])
  else if same ["RuleEngine"; "ObjectDetector"; "Count"]
          || same ["RuleEngine"; "CountAggregation"; "Counter"]
          || same ["RuleEngine"; "CountAggregation"; "OccupancyCounter"]
  then Some (point KindObjectCount)
  else if same ["RuleEngine"; "ObjectDetection"; "Object"]
  then Some (mk_mapping None ["State"; "IsDetected"] true)
  else
    match names with
    | [a; b; category] =>
        if str_eqb a "RuleEngine" && str_eqb b "ObjectDetector"
        then (λ kind, property kind ["State"; "IsDetected"]) <$> object_kind category
        else if same ["RuleEngine"; "Recognition"; "Face"] then Some (point KindFace)
        else if same ["RuleEngine"; "Recognition"; "LicensePlate"] then Some (point KindLicensePlate)
        else if same ["RuleEngine"; "MyRuleDetector"; "Visitor"] then Some (point KindDoorbellPress)
        else None
    | _ => None
    end.

Definition lookup_topic (t : Topic) : result string (option Mapping) :=
  if TOPIC_SEGMENT_COUNT_MAX <? vec_len (path t) then Err "normalization topic limit exceeded"
  else if negb (bool_decide ((head (path t) ≫= namespace_uri) = Some TOPICS))
          || existsb (λ name, is_some_and (λ ns, negb (str_eqb ns TOPICS)) (namespace_uri name)) (path t)
  then Ok None
  else Ok (lookup_path (local_name <$> path t)).

Definition refinable (k : Kind) : bool :=
  match k with
  | KindMotion | KindLineCrossing | KindIntrusion | KindRegionEntry | KindRegionExit | KindLoitering => true
  | _ => false
  end.

Definition classified_kind (m : Mapping) (class : option ObjectClass) : option Kind :=
  match map_kind m with
  | Some kind =>
      Some (if refinable kind then match class with Some c => kind_from_class c | None => kind end else kind)
  | None => kind_from_class <$> class
  end.

(** ** Budget *)

Definition NAME_SIZE_BYTES_MAX : Z := 256.
Definition VALUE_SIZE_BYTES_MAX : Z := 4096.
Definition TEXT_SIZE_BYTES_MAX : Z := 64 * 1024.
Definition ATTRIBUTE_COUNT_MAX : Z := 32.

Record Budget := mk_budget {
  b_bytes : Z;
  b_items : Z;
  b_nodes : Z
}.

(** Steps over a state that may fail, and abort on overflow. *)
Definition spend_bind {S : Type} (m : outcome (result string S)) (k : S → outcome (result string S))
    : outcome (result string S) :=
  let! r := m in match r with Ok b => k b | Err err => Ret (Err err) end.
Notation "'spend' b := m 'in' k" := (spend_bind m (λ b, k))
  (at level 10, b pattern, m at level 100, k at level 200,
   format "'[v' 'spend'  b  :=  m  'in' '/' k ']'") : rust_scope.

Fixpoint spend_all {S A : Type} (f : A → S → outcome (result string S)) (l : list A) (b : S)
    : outcome (result string S) :=
  match l with
  | [] => Ret (Ok b)
  | a :: l' => spend b := f a b in spend_all f l' b
  end.

Definition Spend : Type := Budget → outcome (result string Budget).

Definition spend_string (value : string) (limit : Z) : Spend := λ b,
  if limit <? str_len value then Ret (Err "normalization string limit exceeded")
  else
    let! bytes := plain_add usize_max (b_bytes b) (str_len value) in
    if NOTIFICATION_XML_SIZE_BYTES_MAX <? bytes then Ret (Err "normalization byte limit exceeded")
    else Ret (Ok (mk_budget bytes (b_items b) (b_nodes b))).

Definition spend_name (name : ExpandedName) : Spend := λ b,
  if str_is_empty (local_name name) then Ret (Err "empty normalization XML name")
  else
    spend b := spend_string (local_name name) NAME_SIZE_BYTES_MAX b in
    spend_string (unwrap_or (namespace_uri name) "") VALUE_SIZE_BYTES_MAX b.

(** The count check of [section], for one of its two lists. *)
Definition spend_count (count : Z) : Spend := λ b,
  let! available := plain_sub ITEM_COUNT_MAX (b_items b) in
  if available <? count then Ret (Err "normalization item limit exceeded")
  else
    let! items := plain_add usize_max (b_items b) count in
    Ret (Ok (mk_budget (b_bytes b) items (b_nodes b))).

(** Item names are nonempty and distinct within a section. *)
Fixpoint spend_item_names (names : list string) (taken : gset string) (b : Budget)
    : outcome (result string Budget) :=
  match names with
  | [] => Ret (Ok b)
  | name :: names' =>
      spend b := spend_string name NAME_SIZE_BYTES_MAX b in
      if str_is_empty name || bool_decide (name ∈ taken)
      then Ret (Err "duplicate or empty normalization item name")
      else spend_item_names names' ({[name]} ∪ taken) b
  end.

(** The key attributes are compared and ordered by. *)
Definition attribute_key (a : XmlAttribute) : string * string :=
  (unwrap_or (namespace_uri (attr_name a)) "", local_name (attr_name a)).

Fixpoint spend_attributes (attributes : list XmlAttribute) (taken : gset (string * string)) (b : Budget)
    : outcome (result string Budget) :=
  match attributes with
  | [] => Ret (Ok b)
  | a :: attributes' =>
      spend b := spend_name (attr_name a) b in
      spend b := spend_string (attr_value a) VALUE_SIZE_BYTES_MAX b in
      if bool_decide (attribute_key a ∈ taken) then Ret (Err "duplicate normalization XML attribute")
      else spend_attributes attributes' ({[attribute_key a]} ∪ taken) b
  end.

Fixpoint element_loop (fuel : nat) (pending : list (XmlElement * Z)) (b : Budget)
    : outcome (result string Budget) :=
  match fuel with
  | O => Panic
  | S fuel' =>
      match pending with
      | [] => Ret (Ok b)
      | (element, depth) :: pending =>
          let! nodes := plain_add usize_max (b_nodes b) 1 in
          let b := mk_budget (b_bytes b) (b_items b) nodes in
          if (XML_DEPTH_MAX <? depth) || (ELEMENT_NODE_COUNT_MAX <? nodes)
          then Ret (Err "normalization XML limit exceeded")
          else
            let! available := plain_sub ELEMENT_NODE_COUNT_MAX nodes in
            if (available <? vec_len (xml_children element) + vec_len pending)
               || (ATTRIBUTE_COUNT_MAX <? vec_len (xml_attributes element))
            then Ret (Err "normalization XML limit exceeded")
            else
              spend b := spend_name (xml_name element) b in
              spend b := spend_string (xml_text element) TEXT_SIZE_BYTES_MAX b in
              spend b := spend_attributes (xml_attributes element) ∅ b in
              element_loop fuel'
                (rev ((λ child, (child, depth + 1)) <$> xml_children element) ++ pending) b
      end
  end.

Definition spend_element (root : XmlElement) : Spend := λ b,
  element_loop (S (S (Z.to_nat ELEMENT_NODE_COUNT_MAX))) [(root, 1)] b.

Definition item_names (section : ItemList) : list string :=
  (simple_name <$> simple section) ++ (element_name <$> element section).

Definition spend_section (section : ItemList) : Spend := λ b,
  spend b := spend_count (vec_len (simple section)) b in
  spend b := spend_count (vec_len (element section)) b in
  spend b := spend_item_names (item_names section) ∅ b in
  spend b := spend_all (λ item, spend_string (simple_value item) VALUE_SIZE_BYTES_MAX) (simple section) b in
  spend_all (λ item, spend_element (element_value item)) (element section) b.

Definition spend_operation (operation : option PropertyOperation) : Spend := λ b,
  match operation with
  | Some (Other value) => spend_string value NAME_SIZE_BYTES_MAX b
  | _ => Ret (Ok b)
  end.

Definition validate_items (n : Notification) : outcome (result string unit) :=
  let! r :=
    spend b := spend_string (dialect (n_topic n)) VALUE_SIZE_BYTES_MAX (mk_budget 0 0 0) in
    spend b := spend_all spend_name (path (n_topic n)) b in
    spend b := spend_operation (n_property_operation n) b in
    spend_all spend_section [n_source n; n_key n; n_data n] b in
  Ret (let? _ := r in Ok tt).

(** ** Items *)

(** [Iterator::find]. *)
Fixpoint iter_find {A : Type} (P : A → bool) (l : list A) : option A :=
  match l with
  | [] => None
  | a :: l' => if P a then Some a else iter_find P l'
  end.

Definition item_value (items : ItemList) (name : string) : option string :=
  simple_value <$> iter_find (λ item, str_eqb (simple_name item) name) (simple items).

Definition parse_boolean (value : string) : option bool :=
  let value := str_trim value in
  if existsb (eq_ignore_ascii_case value) ["true"; "1"; "on"; "active"] then Some true
  else if existsb (eq_ignore_ascii_case value) ["false"; "0"; "off"; "inactive"] then Some false
  else None.

Record State := mk_state {
  st_value : option bool;
  st_unknown : bool
}.

Fixpoint state_loop (items : list SimpleItem) (names : list string) (s : State) : result string State :=
  match items with
  | [] => Ok s
  | item :: items' =>
      if negb (existsb (str_eqb (simple_name item)) names) then state_loop items' names s
      else
        match parse_boolean (simple_value item) with
        | None => state_loop items' names (mk_state (st_value s) true)
        | Some value =>
            if is_some_and (λ previous, negb (eqb previous value)) (st_value s)
            then Err "contradictory normalization states"
            else state_loop items' names (mk_state (Some value) (st_unknown s))
        end
  end.
Definition item_state (items : ItemList) (names : list string) : result string State :=
  state_loop (simple items) names (mk_state None false).

Definition item_source (items : ItemList) : option string :=
  iter_find (λ value, negb (str_is_empty (str_trim value)))
    (omap (item_value items)
      ["VideoSourceConfigurationToken"; "VideoSourceToken"; "VideoSource"; "Source"; "ChannelID";
       "ChannelId"; "channelID"; "Channel"]).

Definition rule_names : list string := ["Rule"; "RuleName"; "RuleToken"; "RuleId"; "RuleID"].
Fixpoint rule_loop (items : list SimpleItem) (rule : option string) : result string (option string) :=
  match items with
  | [] => Ok rule
  | item :: items' =>
      if negb (existsb (str_eqb (simple_name item)) rule_names)
         || str_is_empty (str_trim (simple_value item))
      then rule_loop items' rule
      else if is_some_and (λ previous, negb (str_eqb previous (simple_value item))) rule
      then Err "contradictory normalization rule identifiers"
      else rule_loop items' (Some (simple_value item))
  end.
Definition item_rule (n : Notification) : result string (option string) :=
  rule_loop (simple (n_source n) ++ simple (n_key n)) None.

(** ** The budget is never overdrawn

    [spent m b] tells that a step from [b] returns, and that a budget it hands back
    is within the limits and has used no less. *)
Record budget_ok (b : Budget) : Prop := {
  bo_bytes : 0 ≤ b_bytes b ≤ NOTIFICATION_XML_SIZE_BYTES_MAX;
  bo_items : 0 ≤ b_items b ≤ ITEM_COUNT_MAX;
  bo_nodes : 0 ≤ b_nodes b ≤ ELEMENT_NODE_COUNT_MAX
}.

Definition spent (m : outcome (result string Budget)) (b : Budget) : Prop :=
  ∃ r, m = Ret r ∧ ∀ b', r = Ok b' → budget_ok b' ∧ b_nodes b ≤ b_nodes b'.
Definition thrifty (f : Spend) : Prop := ∀ b, budget_ok b → spent (f b) b.

Lemma spent_err err b : spent (Ret (Err err)) b.
Proof. by eexists. Qed.
Lemma spent_ok b b0 : budget_ok b → b_nodes b0 ≤ b_nodes b → spent (Ret (Ok b)) b0.
Proof. intros Hb Hn. eexists. split; [done|]. by intros ? [= <-]. Qed.
Lemma spent_bind m k b :
  spent m b → (∀ b', budget_ok b' → b_nodes b ≤ b_nodes b' → spent (k b') b') → spent (spend_bind m k) b.
Proof.
  intros (r & -> & Hr) Hk. unfold spend_bind. cbn. destruct r as [b'|]; [|apply spent_err].
  destruct (Hr b' eq_refl) as [Hb Hn]. destruct (Hk b' Hb Hn) as (r & Hr' & Hok). exists r. split; [done|].
  intros b2 Hb2. destruct (Hok b2 Hb2). split; [done|lia].
Qed.

Lemma spend_string_thrifty value limit : limit ≤ usize_max - NOTIFICATION_XML_SIZE_BYTES_MAX → thrifty (spend_string value limit).
Proof.
  intros Hl b [Hb Hi Hn]. unfold spend_string. destruct (Z.ltb_spec limit (str_len value)); [apply spent_err|].
  unfold plain_add. rewrite (proj2 (Z.leb_le _ _)) by lia. cbn. destruct (Z.ltb_spec NOTIFICATION_XML_SIZE_BYTES_MAX (b_bytes b + str_len value));
    [apply spent_err|]. apply spent_ok. { constructor; cbn; [unfold str_len in *; lia|done|done]. } done.
Qed.

#[local] Hint Resolve spent_err spent_ok : core.
#[local] Hint Resolve Z.le_refl : core.

Lemma spend_name_thrifty name : thrifty (spend_name name).
Proof.
  intros b Hb. unfold spend_name. split_match; [done|].
  apply spent_bind; [by apply spend_string_thrifty|]. intros b' Hb' _. by apply spend_string_thrifty.
Qed.

Lemma spend_all_thrifty {A} (f : A → Spend) l : (∀ a, thrifty (f a)) → thrifty (spend_all f l).
Proof.
  intros Hf. induction l as [|a l IH]; intros b Hb; cbn [spend_all]; [auto|]. apply spent_bind; [by apply Hf|]. intros b' Hb' _. by apply IH.
Qed.

Lemma spend_count_thrifty count : 0 ≤ count → thrifty (spend_count count).
Proof.
  intros Hc b [H1 H2 H3]. unfold spend_count, plain_sub, plain_add.
  rewrite (proj2 (Z.leb_le _ _)) by lia. cbn. destruct (Z.ltb_spec (ITEM_COUNT_MAX - b_items b) count); [done|].
  rewrite (proj2 (Z.leb_le _ _)); [|unfold ITEM_COUNT_MAX, usize_max, u64_max in *; lia]. apply spent_ok; [|done]. constructor; cbn; [done|lia|done].
Qed.

Lemma spend_item_names_thrifty names taken : thrifty (spend_item_names names taken).
Proof.
  revert taken. induction names as [|name names IH]; intros taken b Hb; cbn [spend_item_names]; [auto|].
  apply spent_bind; [by apply spend_string_thrifty|]. intros b' Hb' _. split_match; [done|by apply IH].
Qed.

Lemma spend_attributes_thrifty attributes taken : thrifty (spend_attributes attributes taken).
Proof.
  revert taken. induction attributes as [|a attributes IH]; intros taken b Hb; cbn [spend_attributes]; [auto|].
  apply spent_bind; [by apply spend_name_thrifty|]. intros b1 H1 _.
  apply spent_bind; [by apply spend_string_thrifty|]. intros b2 H2 _. split_match; [done|by apply IH].
Qed.

(** Every turn counts a node, so the fuel outlives the node budget. *)
Lemma element_loop_ok fuel pending b :
  budget_ok b → ELEMENT_NODE_COUNT_MAX - b_nodes b + 1 < Z.of_nat fuel → spent (element_loop fuel pending b) b.
Proof.
  revert pending b. induction fuel as [|fuel IH]; intros pending b Hb Hf; [destruct Hb; lia|].
  cbn [element_loop]. destruct pending as [|[x depth] pending]; [auto|]. pose proof Hb as [H1 H2 H3].
  unfold plain_add. rewrite (proj2 (Z.leb_le _ _)); [|unfold ELEMENT_NODE_COUNT_MAX, usize_max, u64_max in *; lia].
  cbn [obind]. destruct (_ || _) eqn:E; [auto|]. apply orb_false_iff in E as [_ E]. apply Z.ltb_ge in E.
  unfold plain_sub. rewrite (proj2 (Z.leb_le _ _)) by done. cbn [obind]. destruct (_ || _); [auto|].
  set (b0 := mk_budget _ _ _). assert (budget_ok b0) as Hb0 by (constructor; cbn; [done|done|lia]).
  assert (spent (spend b := spend_name (xml_name x) b0 in
    spend b := spend_string (xml_text x) TEXT_SIZE_BYTES_MAX b in
    spend b := spend_attributes (xml_attributes x) ∅ b in
    element_loop fuel (rev ((λ child, (child, depth + 1)) <$> xml_children x) ++ pending) b) b0) as (r & -> & Hr).
  { apply spent_bind; [by apply spend_name_thrifty|]. intros b1 Hb1 Hn1.
    apply spent_bind; [by apply spend_string_thrifty|]. intros b2 Hb2 Hn2.
    apply spent_bind; [by apply spend_attributes_thrifty|]. intros b3 Hb3 Hn3.
    apply IH; [done|]. cbn in Hn1. lia. }
  exists r. split; [done|]. intros b' Hb'. destruct (Hr b' Hb') as [? Hn]. cbn in Hn. split; [done|lia].
Qed.

Lemma spend_element_thrifty root : thrifty (spend_element root).
Proof. intros b Hb. apply element_loop_ok; [done|]. destruct Hb as [_ _ Hn]. unfold ELEMENT_NODE_COUNT_MAX in *. lia. Qed.

Lemma spend_section_thrifty section : thrifty (spend_section section).
Proof.
  intros b Hb. unfold spend_section.
  apply spent_bind; [apply spend_count_thrifty; [unfold vec_len; lia|done]|]. intros b1 Hb1 _.
  apply spent_bind; [apply spend_count_thrifty; [unfold vec_len; lia|done]|]. intros b2 Hb2 _.
  apply spent_bind; [by apply spend_item_names_thrifty|]. intros b3 Hb3 _.
  apply spent_bind; [apply spend_all_thrifty; [|done]; intros item; by apply spend_string_thrifty|]. intros b4 Hb4 _.
  apply spend_all_thrifty; [|done]. intros item. apply spend_element_thrifty.
Qed.

(** Validation always returns. *)
Lemma validate_items_total n : ∃ r, validate_items n = Ret r.
Proof.
  unfold validate_items.
  assert (spent (spend b := spend_string (dialect (n_topic n)) VALUE_SIZE_BYTES_MAX (mk_budget 0 0 0) in
    spend b := spend_all spend_name (path (n_topic n)) b in
    spend b := spend_operation (n_property_operation n) b in
    spend_all spend_section [n_source n; n_key n; n_data n] b) (mk_budget 0 0 0)) as (r & -> & _); [|by eexists].
  apply spent_bind; [by apply spend_string_thrifty|]. intros b1 Hb1 _.
  apply spent_bind; [apply spend_all_thrifty; [apply spend_name_thrifty|done]|]. intros b2 Hb2 _.
  apply spent_bind.
  - unfold spend_operation. destruct (n_property_operation n) as [[]|]; auto. by apply spend_string_thrifty.
  - intros b3 Hb3 _. apply spend_all_thrifty; [apply spend_section_thrifty|done].
Qed.
