(* ===== verification/OnvifDetails.v ===== *)
(** * Details of ONVIF notifications

    [crates/onvif/onvif/src/event/normalize/details.rs] and [classification.rs]: the
    confidence, box, text, count and object class of a notification's data section, and
    the standard library's number parsing they use.

    Decimal text is converted to the nearest [f64] exactly: [f64_of_decimal] divides by
    the power of ten once and rounds once, to even. *)

From S2P Require Import Prelude CameraEvent OnvifItems.

(** ** Numbers *)

Definition f64_of_decimal (negative : bool) (m : Z) (e10 : Z) : spec_float :=
  match m with
  | Zpos m =>
      if 0 <=? e10 then binary_normalize 53 1024 (cond_Zopp negative (Zpos m * 10 ^ e10)) 0 negative
      else
        let '(q, e, l) := SFdiv_core_binary 53 1024 (Zpos m) 0 (10 ^ (- e10)) 0 in
        binary_round_aux 53 1024 negative q e l
  | _ => S754_zero negative
  end.

Definition digit_of (c : Ascii.ascii) : option Z :=
  let n := Z.of_N (Ascii.N_of_ascii c) in
  if (48 <=? n) && (n <=? 57) then Some (n - 48) else None.
(** The leading decimal digits and the rest. *)
Fixpoint take_digits (s : string) : list Z * string :=
  match s with
  | EmptyString => ([], EmptyString)
  | String c s' =>
      match digit_of c with
      | Some d => let '(ds, rest) := take_digits s' in (d :: ds, rest)
      | None => ([], s)
      end
  end.
Definition decimal (ds : list Z) : Z := foldl (λ n d, n * 10 + d) 0 ds.

(** An optional sign. *)
Definition take_sign (s : string) : bool * string :=
  match s with
  | String c s' =>
      if bool_decide (String c EmptyString = "-") then (true, s')
      else if bool_decide (String c EmptyString = "+") then (false, s')
      else (false, s)
  | EmptyString => (false, s)
  end.

Definition parse_exponent (s : string) : option Z :=
  match s with
  | EmptyString => Some 0
  | String c s' =>
      if eq_ignore_ascii_case (String c EmptyString) "e" then
        let '(negative, s') := take_sign s' in
        match take_digits s' with
        | (d :: ds, EmptyString) => Some (if negative then - decimal (d :: ds) else decimal (d :: ds))
        | _ => None
        end
      else None
  end.

(** [str::parse::<f64>]. *)
Definition parse_f64 (s : string) : option spec_float :=
  let '(negative, s) := take_sign s in
  if eq_ignore_ascii_case s "inf" || eq_ignore_ascii_case s "infinity" then Some (S754_infinity negative)
  else if eq_ignore_ascii_case s "nan" then Some S754_nan
  else
    let '(ints, rest) := take_digits s in
    let '(fracs, rest) :=
      match rest with
      | String c rest' => if bool_decide (String c EmptyString = ".") then take_digits rest' else ([], rest)
      | EmptyString => ([], rest)
      end in
    if is_none (head (ints ++ fracs)) then None
    else
      (λ e, f64_of_decimal negative (decimal (ints ++ fracs)) (e - vec_len fracs)) <$> parse_exponent rest.

(** [str::parse::<u64>]. *)
Definition parse_u64 (s : string) : option Z :=
  let s := match s with
           | String c s' => if bool_decide (String c EmptyString = "+") then s' else s
           | EmptyString => s
           end in
  match take_digits s with
  | (d :: ds, EmptyString) => if decimal (d :: ds) <=? u64_max then Some (decimal (d :: ds)) else None
  | _ => None
  end.

(** [value as f32]. *)
Definition f64_as_f32 (x : spec_float) : spec_float :=
  match x with
  | S754_finite s m e => binary_round 24 128 s m e
  | _ => x
  end.

Definition f64_zero : spec_float := S754_zero false.
Definition f64_one : spec_float := Eval vm_compute in SFone 53 1024.
Definition f64_minus_one : spec_float := Eval vm_compute in SFopp (SFone 53 1024).
Definition f64_two : spec_float := Eval vm_compute in SFadd 53 1024 (SFone 53 1024) (SFone 53 1024).

(** ** Structured values *)

Definition DETAIL_STRING_MAX : Z := 256.

Definition xml_matches (x : XmlElement) (name : string) : bool :=
  bool_decide (namespace_uri (xml_name x) = Some ONVIF_SCHEMA_NAMESPACE)
  && str_eqb (local_name (xml_name x)) name.

Definition structured (data : ItemList) (name : string) (roots : list string) : option XmlElement :=
  match element_value <$> iter_find (λ item, str_eqb (element_name item) name) (element data) with
  | Some x => if existsb (xml_matches x) roots then Some x else None
  | None => None
  end.

Definition child (x : XmlElement) (name : string) : result string (option XmlElement) :=
  match filter (λ c, xml_matches c name = true) (xml_children x) with
  | [] => Ok None
  | [first] => Ok (Some first)
  | _ => Err "duplicate normalization XML field"
  end.

Definition scalar (x : XmlElement) : result string string :=
  if negb (vec_len (xml_children x) =? 0) || (DETAIL_STRING_MAX <? str_len (xml_text x))
  then Err "invalid normalization XML scalar"
  else Ok (str_trim (xml_text x)).

Definition attribute (x : XmlElement) (name : string) : option string :=
  attr_value <$> iter_find (λ a, str_eqb (local_name (attr_name a)) name
                              && str_is_empty (unwrap_or (namespace_uri (attr_name a)) ""))
                   (xml_attributes x).

(** ** Values *)

Definition parse_count (value : string) : result string Z :=
  match parse_u64 (str_trim value) with
  | Some n => Ok n
  | None => Err "invalid normalization count"
  end.

Definition probability (value : string) : result string spec_float :=
  match parse_f64 (str_trim value) with
  | None => Err "invalid normalization confidence"
  | Some value =>
      if negb (is_finite value) || negb (range_contains f64_zero f64_one value)
      then Err "invalid normalization confidence"
      else Ok (f64_as_f32 value)
  end.

Definition detail_text (value : string) : result string string :=
  if DETAIL_STRING_MAX <? str_len value then Err "normalization text limit exceeded" else Ok value.

(** [merge]: sets a field, or checks that it agrees. *)
Definition merge_field {A : Type} (same : A → A → bool) (target : option A) (value : A)
    : result string (option A) :=
  if is_some_and (λ previous, negb (same previous value)) target
  then Err "contradictory normalization attributes"
  else Ok (Some value).

Definition plate_text (info : XmlElement) (target : option string) : result string (option string) :=
  let? plate := child info "PlateNumber" in
  match plate with
  | None => Ok target
  | Some plate =>
      let? _ := match attribute plate "Likelihood" with
                | Some value => let? _ := probability value in Ok tt
                | None => Ok tt
                end in
      let? value := scalar plate in
      let? value := detail_text value in
      merge_field str_eqb target value
  end.

Definition coordinate (x : XmlElement) (name : string) : result string spec_float :=
  match attribute x name with
  | None => Err "missing normalization rectangle coordinate"
  | Some text =>
      match parse_f64 (str_trim text) with
      | None => Err "invalid normalization rectangle coordinate"
      | Some value =>
          if negb (is_finite value) || negb (range_contains f64_minus_one f64_one value)
          then Err "normalization rectangle coordinate out of bounds"
          else Ok value
      end
  end.

Definition half (x : spec_float) : spec_float := f64_as_f32 (SFdiv 53 1024 x f64_two).
Definition corner_box (west north east south : spec_float) : BoundingBox :=
  mk_box (half (SFadd 53 1024 west f64_one)) (half (SFsub 53 1024 f64_one north))
         (half (SFsub 53 1024 east west)) (half (SFsub 53 1024 north south)).

(** [a >= b] is [b <= a], [a > b] is [b < a] on floats. *)
Definition rectangle (x : XmlElement) : result string BoundingBox :=
  if negb (vec_len (xml_children x) =? 0) || negb (str_is_empty (str_trim (xml_text x)))
  then Err "invalid normalization rectangle"
  else
    let? west := coordinate x "left" in
    let? north := coordinate x "top" in
    let? east := coordinate x "right" in
    let? south := coordinate x "bottom" in
    if SFleb east west || SFleb north south then Err "empty normalization rectangle"
    else
      let b := corner_box west north east south in
      if SFleb (box_width b) f32_zero || SFleb (box_height b) f32_zero
         || SFltb f32_one (f32_add (box_x b) (box_width b))
         || SFltb f32_one (f32_add (box_y b) (box_height b))
         || SFeqb (f32_add (box_x b) (box_width b)) (box_x b)
         || SFeqb (f32_add (box_y b) (box_height b)) (box_y b)
      then Err "invalid normalization rectangle precision"
      else Ok b.

Definition box_eqb (a b : BoundingBox) : bool :=
  SFeqb (box_x a) (box_x b) && SFeqb (box_y a) (box_y b)
  && SFeqb (box_width a) (box_width b) && SFeqb (box_height a) (box_height b).

(** ** Classification *)

Definition CANDIDATE_COUNT_MAX : Z := 32.
Definition CLASS_SIZE_BYTES_MAX : Z := 256.

#[export] Instance object_class_eq_dec : EqDecision ObjectClass.
Proof. solve_decision. Defined.

Definition categories : list (list string * ObjectClass) :=
  [(["Person"; "Human"; "HumanBody"], ClassPerson);
   (["Vehicle"; "Vehical"; "Car"; "Bus"; "Truck"; "Bicycle"; "Motorcycle"; "Bike"], ClassVehicle);
   (["Animal"], ClassAnimal);
   (["Face"; "HumanFace"], ClassFace);
   (["LicensePlate"], ClassLicensePlate);
   (["Package"], ClassPackage)].
Definition category (value : string) : option ObjectClass :=
  snd <$> iter_find (λ entry, existsb (eq_ignore_ascii_case value) entry.1) categories.

Record Classification := mk_classification {
  cl_class : option ObjectClass;
  cl_confidence : option spec_float
}.
Record Candidates := mk_candidates {
  cand_count : Z;
  cand_selected : option Classification
}.

(** [Option::<f32>::partial_cmp]. *)
Definition confidence_cmp (a b : option spec_float) : option comparison :=
  match a, b with
  | None, None => Some Eq
  | None, Some _ => Some Lt
  | Some _, None => Some Gt
  | Some x, Some y => SFcompare x y
  end.

Definition candidate_add (c : Candidates) (value : string) (confidence : option spec_float)
    : result string Candidates :=
  if (CANDIDATE_COUNT_MAX <=? cand_count c) || (CLASS_SIZE_BYTES_MAX <? str_len value)
  then Err "normalization class limit exceeded"
  else
    let candidate := mk_classification (category (str_trim value)) confidence in
    match cand_selected c with
    | None => Ok (mk_candidates (cand_count c + 1) (Some candidate))
    | Some previous =>
        match confidence_cmp (cl_confidence candidate) (cl_confidence previous) with
        | Some Gt => Ok (mk_candidates (cand_count c + 1) (Some candidate))
        | Some Eq =>
            Ok (mk_candidates (cand_count c + 1)
                  (Some (if bool_decide (cl_class candidate = cl_class previous) then previous
                         else mk_classification None (cl_confidence previous))))
        | Some Lt => Ok (mk_candidates (cand_count c + 1) (Some previous))
        | None => Err "invalid normalization class likelihood"
        end
    end.

Definition some_or {A : Type} (o : option A) (err : string) : result string A :=
  match o with Some a => Ok a | None => Err err end.

(** One child of a class element. *)
Definition candidate_child (c : Candidates) (x : XmlElement) : result string Candidates :=
  if xml_matches x "Type" then
    let? confidence := match attribute x "Likelihood" with
                       | Some text => let? p := probability text in Ok (Some p)
                       | None => Ok None
                       end in
    let? value := scalar x in
    candidate_add c value confidence
  else if xml_matches x "ClassCandidate" then
    let? kind := child x "Type" in
    let? kind := some_or kind "missing normalization class type" in
    let? likelihood := child x "Likelihood" in
    let? likelihood := some_or likelihood "missing normalization class likelihood" in
    let? value := scalar kind in
    let? text := scalar likelihood in
    let? p := probability text in
    candidate_add c value (Some p)
  else Ok c.

(** A fallible loop over a list. *)
Fixpoint fold_result {A B : Type} (f : A → B → result string A) (a : A) (l : list B) : result string A :=
  match l with
  | [] => Ok a
  | b :: l' => let? a := f a b in fold_result f a l'
  end.

Definition candidate_element (c : Candidates) (x : XmlElement) : result string Candidates :=
  fold_result candidate_child c (xml_children x).

(** [split_ascii_whitespace]: space, tab, line feed, form feed and carriage return. *)
Definition is_ascii_space (c : Ascii.ascii) : bool :=
  let n := Ascii.N_of_ascii c in
  (n =? 32)%N || (n =? 9)%N || (n =? 10)%N || (n =? 12)%N || (n =? 13)%N.
Fixpoint split_words (s : string) : list string * string :=
  match s with
  | EmptyString => ([], EmptyString)
  | String c s' =>
      let '(words, word) := split_words s' in
      if is_ascii_space c
      then (if str_is_empty word then words else word :: words, EmptyString)
      else (words, String c word)
  end.
Definition split_ascii_whitespace (s : string) : list string :=
  let '(words, word) := split_words s in if str_is_empty word then words else word :: words.

Definition candidate_item (c : Candidates) (item : SimpleItem) : result string Candidates :=
  if existsb (str_eqb (simple_name item)) ["Class"; "ObjectClass"; "ClassType"]
  then candidate_add c (simple_value item) None
  else if str_eqb (simple_name item) "ClassTypes"
  then fold_result (λ c value, candidate_add c value None) c (split_ascii_whitespace (simple_value item))
  else Ok c.

Definition classify (data : ItemList) (appearance : option XmlElement) : result string Classification :=
  let? c := fold_result candidate_item (mk_candidates 0 None) (simple data) in
  let? c := match structured data "Class" ["Class"] with
            | Some x => candidate_element c x
            | None => Ok c
            end in
  let? c := match appearance with
            | Some appearance =>
                let? x := child appearance "Class" in
                match x with Some x => candidate_element c x | None => Ok c end
            | None => Ok c
            end in
  Ok (unwrap_or (cand_selected c) (mk_classification None None)).

(** ** Details *)

Record NDetails := mk_ndetails {
  nd_class : option ObjectClass;
  nd_confidence : option spec_float;
  nd_bbox : option BoundingBox;
  nd_text : option string;
  nd_count : option Z
}.

Definition detail_item (d : NDetails) (item : SimpleItem) : result string NDetails :=
  if existsb (str_eqb (simple_name item)) ["Confidence"; "Likelihood"] then
    let? p := probability (simple_value item) in
    let? p := merge_field SFeqb (nd_confidence d) p in
    Ok (mk_ndetails (nd_class d) p (nd_bbox d) (nd_text d) (nd_count d))
  else if existsb (str_eqb (simple_name item)) ["Count"; "ObjectCount"] then
    let? n := parse_count (simple_value item) in
    let? n := merge_field Z.eqb (nd_count d) n in
    Ok (mk_ndetails (nd_class d) (nd_confidence d) (nd_bbox d) (nd_text d) n)
  else if existsb (str_eqb (simple_name item)) ["Text"; "PlateNumber"; "LicensePlate"] then
    let? t := detail_text (simple_value item) in
    let? t := merge_field str_eqb (nd_text d) t in
    Ok (mk_ndetails (nd_class d) (nd_confidence d) (nd_bbox d) t (nd_count d))
  else Ok d.

Definition merge_box (d : NDetails) (x : XmlElement) : result string NDetails :=
  let? b := rectangle x in
  let? b := merge_field box_eqb (nd_bbox d) b in
  Ok (mk_ndetails (nd_class d) (nd_confidence d) b (nd_text d) (nd_count d)).
Definition merge_plate (d : NDetails) (x : XmlElement) : result string NDetails :=
  let? t := plate_text x (nd_text d) in
  Ok (mk_ndetails (nd_class d) (nd_confidence d) (nd_bbox d) t (nd_count d)).

(** The box and plate of an object's appearance. *)
Definition detail_appearance (d : NDetails) (appearance : XmlElement) : result string NDetails :=
  let? shape := child appearance "Shape" in
  let? x := match shape with Some shape => child shape "BoundingBox" | None => Ok None end in
  let? d := match x with
            | Some x =>
                let? transformation := child appearance "Transformation" in
                match transformation with
                | Some _ => Err "normalization box requires transformed coordinates"
                | None => merge_box d x
                end
            | None => Ok d
            end in
  let? info := child appearance "LicensePlateInfo" in
  match info with Some info => merge_plate d info | None => Ok d end.

Definition parse_details (data : ItemList) : result string NDetails :=
  let? appearance := match structured data "Object" ["Object"] with
                     | Some object => child object "Appearance"
                     | None => Ok None
                     end in
  let? class := classify data appearance in
  let? d := fold_result detail_item
              (mk_ndetails (cl_class class) (cl_confidence class) None None None) (simple data) in
  let? d := match structured data "BoundingBox" ["BoundingBox"; "Rectangle"] with
            | Some x => merge_box d x
            | None => Ok d
            end in
  let? d := match appearance with Some appearance => detail_appearance d appearance | None => Ok d end in
  match structured data "LicensePlateInfo" ["LicensePlateInfo"] with
  | Some info => merge_plate d info
  | None => Ok d
  end.

Example parse_f64_half : parse_f64 "0.5" = Some (SFdiv 53 1024 f64_one f64_two).
Proof. vm_compute. reflexivity. Qed.
Example parse_f64_tenth : parse_f64 "-1e-1" = Some (SFdiv 53 1024 f64_minus_one (f64_of_decimal false 10 0)).
Proof. vm_compute. reflexivity. Qed.

(** ** Rounding never produces NaN *)

Lemma shr_1_nonneg r : 0 ≤ shr_m r → 0 ≤ shr_m (shr_1 r).
Proof. destruct r as [[|[p|p|]|p] r s]; cbn; lia. Qed.

Lemma iter_shr_nonneg p r : 0 ≤ shr_m r → 0 ≤ shr_m (iter_pos shr_1 p r).
Proof.
  revert r. induction p as [p IH|p IH|]; intros r Hr; cbn [iter_pos].
  - by apply IH, IH, shr_1_nonneg.
  - by apply IH, IH.
  - by apply shr_1_nonneg.
Qed.

Lemma shr_fexp_nonneg prec emax m e l : 0 ≤ m → 0 ≤ shr_m (fst (shr_fexp prec emax m e l)).
Proof.
  intros Hm. unfold shr_fexp, shr. assert (0 ≤ shr_m (shr_record_of_loc m l)) by (destruct l as [|[]]; done).
  destruct (fexp _ _ _ - e); cbn [fst]; [done|by apply iter_shr_nonneg|done].
Qed.

Lemma round_aux_nan prec emax s m e l : 0 ≤ m → is_nan (binary_round_aux prec emax s m e l) = false.
Proof.
  intros Hm. unfold binary_round_aux. pose proof (shr_fexp_nonneg prec emax m e l Hm) as H1.
  destruct (shr_fexp prec emax m e l) as [r e1]. cbn in H1.
  assert (0 ≤ round_nearest_even (shr_m r) (loc_of_shr_record r)) as H2.
  { unfold round_nearest_even. repeat split_match; lia. }
  pose proof (shr_fexp_nonneg prec emax _ e1 loc_Exact H2) as H3.
  destruct (shr_fexp prec emax _ e1 loc_Exact) as [r' e2]. cbn in H3.
  destruct (shr_m r'); [done|by split_match|lia].
Qed.

Lemma binary_round_nan prec emax s m e : is_nan (binary_round prec emax s m e) = false.
Proof. unfold binary_round. destruct (shl_align m e _). by apply round_aux_nan. Qed.
Lemma binary_normalize_nan prec emax m e s : is_nan (binary_normalize prec emax m e s) = false.
Proof. destruct m; cbn; [done|apply binary_round_nan..]. Qed.

Lemma f64_as_f32_nan x : is_nan x = false → is_nan (f64_as_f32 x) = false.
Proof. destruct x; try done. intros _. apply binary_round_nan. Qed.

Lemma SFadd_nan x y : is_finite x = true → is_finite y = true → is_nan (SFadd 53 1024 x y) = false.
Proof.
  destruct x as [[]|[]| |? ? ?], y as [[]|[]| |? ? ?]; try done; intros _ _; apply binary_normalize_nan.
Qed.
Lemma SFsub_nan x y : is_finite x = true → is_finite y = true → is_nan (SFsub 53 1024 x y) = false.
Proof.
  destruct x as [[]|[]| |? ? ?], y as [[]|[]| |? ? ?]; try done; intros _ _; apply binary_normalize_nan.
Qed.

Lemma half_nan x : is_nan x = false → is_nan (half x) = false.
Proof.
  intros Hx. apply f64_as_f32_nan. destruct x as [[]|[]| |s m e]; try done. unfold SFdiv. cbn -[SFdiv_core_binary].
  destruct (SFdiv_core_binary 53 1024 (Zpos m) e 4503599627370496 (-51)) as [[q e'] l] eqn:E.
  apply round_aux_nan. unfold SFdiv_core_binary in E. destruct (Z.div_eucl _ _) as [q' r] eqn:Ed. simplify_eq.
  pose proof (f_equal fst Ed) as Hq. change (fst (Z.div_eucl ?a ?b)) with (a / b) in Hq. cbn in Hq. subst q.
  apply Z.div_pos; [|lia]. split_match; try lia. apply Z.shiftl_nonneg. lia.
Qed.

(** ** Rounding a value of at most one to [f32] stays within one *)

Lemma iter_shr_div p r : 0 ≤ shr_m r → shr_m (iter_pos shr_1 p r) = shr_m r / 2 ^ Zpos p.
Proof.
  assert (∀ r, 0 ≤ shr_m r → shr_m (shr_1 r) = shr_m r / 2) as H1.
  { intros [[|[q|q|]|q] ? ?] Hr; rewrite <-Z.div2_div; cbn in *; done || lia. }
  revert r. induction p as [p IH|p IH|]; intros r Hr; cbn [iter_pos]; [| |by apply H1].
  - rewrite IH by (apply iter_shr_nonneg, shr_1_nonneg, Hr). rewrite IH by (apply shr_1_nonneg, Hr). rewrite H1 by done.
    rewrite !Z.div_div by (pose proof (Z.pow_pos_nonneg 2 (Zpos p)); lia).
    f_equal. replace (Zpos p~1) with (1 + (Zpos p + Zpos p)) by lia. by rewrite !Z.pow_add_r by lia.
  - rewrite IH by (apply iter_shr_nonneg, Hr). rewrite IH by done. rewrite !Z.div_div by (pose proof (Z.pow_pos_nonneg 2 (Zpos p)); lia).
    f_equal. replace (Zpos p~0) with (Zpos p + Zpos p) by lia. by rewrite Z.pow_add_r by lia.
Qed.

Lemma Zdigits2_log m : 0 < m → Zdigits2 m = Z.log2 m + 1.
Proof.
  destruct m as [|p|p]; [lia| |lia]. intros _. cbn [Zdigits2].
  assert (∀ q, digits2_pos q = Pos.size q) as Hsz by (induction q; cbn; congruence).
  rewrite Hsz. destruct p as [p|p|]; cbn [Pos.size Z.log2]; lia.
Qed.
Lemma Zdigits2_bound m : 0 ≤ m → m < 2 ^ Zdigits2 m ∧ 0 ≤ Zdigits2 m.
Proof.
  intros Hm. destruct (Z.eq_dec m 0) as [->|Hn]; [done|]. rewrite Zdigits2_log by lia.
  pose proof (Z.log2_spec m ltac:(lia)) as [_ H]. pose proof (Z.log2_nonneg m). split; [|lia]. by rewrite Z.add_1_r.
Qed.
Lemma Zdigits2_le m d : 0 ≤ m < 2 ^ d → 0 ≤ d → Zdigits2 m ≤ d.
Proof.
  intros [Hm Hd] H0. destruct (Z.eq_dec m 0) as [->|Hn]; [done|]. rewrite Zdigits2_log by lia.
  assert (Z.log2 m < d); [|lia]. by apply Z.log2_lt_pow2; [lia|].
Qed.

(** Shifting right to the exponent of the format. *)
Lemma shr_spec r e n : 0 ≤ shr_m r → shr_m (fst (shr r e n)) = shr_m r / 2 ^ Z.max n 0 ∧ snd (shr r e n) = e + Z.max n 0.
Proof.
  intros Hr. unfold shr. destruct n as [|p|p]; cbn [fst snd].
  - change (Z.max 0 0) with 0. rewrite Z.pow_0_r, Z.div_1_r. lia.
  - rewrite iter_shr_div by done. rewrite Z.max_l by lia. done.
  - rewrite Z.max_r by lia. rewrite Z.pow_0_r, Z.div_1_r. lia.
Qed.

(** A rounded mantissa has no more digits than the format. *)
Lemma round_aux_digits prec emax s m e l s' m' e' :
  0 ≤ m → 0 ≤ prec → binary_round_aux prec emax s m e l = S754_finite s' m' e' → Zpos m' < 2 ^ prec.
Proof.
  intros Hm Hprec. unfold binary_round_aux. pose proof (shr_fexp_nonneg prec emax m e l Hm) as H1.
  destruct (shr_fexp prec emax m e l) as [r e1]. cbn in H1. set (M := round_nearest_even _ _).
  assert (0 ≤ M) as HM by (unfold M, round_nearest_even; repeat split_match; lia).
  unfold shr_fexp. set (n := fexp prec emax (Zdigits2 M + e1) - e1).
  destruct (shr_spec (shr_record_of_loc M loc_Exact) e1 n HM) as [Hq _]. cbn [shr_record_of_loc shr_m] in Hq.
  destruct (shr _ e1 n) as [r' e2]. cbn [fst] in Hq. destruct (shr_m r') as [|p|p]; [done| |done].
  case_match; [|done]. intros [= <- <- <-]. rewrite Hq. destruct (Zdigits2_bound M HM) as [Hlt Hd].
  assert (Zdigits2 M - prec ≤ n) as Hn by (unfold n, fexp; lia).
  apply Z.div_lt_upper_bound; [apply Z.pow_pos_nonneg; lia|]. rewrite <-Z.pow_add_r by lia.
  eapply Z.lt_le_trans; [exact Hlt|]. apply Z.pow_le_mono_r; lia.
Qed.

(** Below one, rounding to [f32] gives at most one. *)
Definition at_most_one (x : spec_float) : Prop :=
  x = S754_zero false ∨ ∃ m e, x = S754_finite false m e ∧ (e ≤ -24 ∨ (e = -23 ∧ m = 8388608%positive)).

Lemma round_aux_small m e D :
  0 < m → Zdigits2 m = D → D + e ≤ 0 → e ≤ Z.max (D + e - 24) (-149) →
  at_most_one (binary_round_aux 24 128 false m e loc_Exact).
Proof.
  intros Hm HD Hle Hexp. unfold binary_round_aux, shr_fexp at 1. rewrite HD. unfold fexp at 1, emin at 1.
  change (3 - 128 - 24) with (-149). set (E := Z.max (D + e - 24) (-149)) in *.
  destruct (shr_spec (shr_record_of_loc m loc_Exact) e (E - e)) as [Hm1 He1]; [cbn; lia|]. cbn [shr_record_of_loc shr_m] in Hm1.
  destruct (shr _ e (E - e)) as [r e1]. cbn [fst snd] in Hm1, He1. rewrite Z.max_l in Hm1, He1 by lia. replace (e + (E - e)) with E in He1 by lia. subst e1.
  assert (0 ≤ shr_m r < 2 ^ 24) as Hr.
  { rewrite Hm1. split; [apply Z.div_pos; [lia|apply Z.pow_pos_nonneg; lia]|].
    apply Z.div_lt_upper_bound; [apply Z.pow_pos_nonneg; lia|]. rewrite <-Z.pow_add_r by lia.
    destruct (Zdigits2_bound m ltac:(lia)) as [Hlt _]. rewrite HD in Hlt. eapply Z.lt_le_trans; [exact Hlt|].
    apply Z.pow_le_mono_r; lia. }
  set (M := round_nearest_even _ _). assert (0 ≤ M ≤ 2 ^ 24) as HM by (unfold M, round_nearest_even; repeat split_match; lia).
  clearbody M. clear Hm1 Hr r. unfold shr_fexp, fexp, emin. change (3 - 128 - 24) with (-149).
  assert (E ≤ -24 ∧ -149 ≤ E) as HE by lia.
  destruct (Z.eq_dec M (2 ^ 24)) as [->|Hne].
  - change (Zdigits2 (2 ^ 24)) with 25. replace (Z.max (25 + E - 24) (-149) - E) with 1 by lia.
    change (shr (shr_record_of_loc (2 ^ 24) loc_Exact) E 1)
      with (Build_shr_record 8388608 false false, E + 1). cbn [shr_m].
    rewrite (proj2 (Z.leb_le _ _)) by lia. right. eexists _, _. split; [done|]. lia.
  - assert (Zdigits2 M ≤ 24) as Hd by (apply Zdigits2_le; lia).
    destruct (shr_spec (shr_record_of_loc M loc_Exact) E (Z.max (Zdigits2 M + E - 24) (-149) - E)) as [Hq Hs]; [cbn; lia|].
    destruct (shr _ E _) as [r' e2]. cbn [fst snd shr_record_of_loc shr_m] in Hq, Hs. rewrite Z.max_r in Hq, Hs by lia.
    rewrite Z.pow_0_r, Z.div_1_r in Hq. rewrite Z.add_0_r in Hs. subst e2. rewrite Hq. destruct M as [|p|p]; [by left| |lia].
    rewrite (proj2 (Z.leb_le _ _)) by lia. right. eexists _, _. split; [done|]. lia.
Qed.

Lemma iter_xO_pos d m : Zpos (Pos.iter xO m d) = Zpos m * 2 ^ Zpos d.
Proof.
  induction d as [|d IH] using Pos.peano_ind; [cbn; lia|]. rewrite Pos.iter_succ, Pos2Z.inj_xO, IH, Pos2Z.inj_succ, Z.pow_succ_r by lia. lia.
Qed.

Lemma binary_round_small m e :
  Zpos (digits2_pos m) + e ≤ 0 → at_most_one (binary_round 24 128 false m e).
Proof.
  intros Hle. unfold binary_round, shl_align, fexp at 1, emin at 1. change (3 - 128 - 24) with (-149).
  set (D := Zpos (digits2_pos m)) in *. set (E := Z.max (D + e - 24) (-149)).
  destruct (E - e) as [|d|d] eqn:Hd; [apply (round_aux_small _ _ D)..|]; try done; try lia.
  assert (Zdigits2 (Zpos (Pos.iter xO m d)) = D + Zpos d) as Hdig.
  { rewrite Zdigits2_log, iter_xO_pos by lia. rewrite Z.log2_mul_pow2 by lia.
    pose proof (Zdigits2_log (Zpos m) ltac:(lia)) as H. cbn [Zdigits2] in H. fold D in H. lia. }
  change (fexp 24 128 (D + e)) with E. eapply round_aux_small; [lia|exact Hdig|lia|lia].
Qed.

(** A number of the unit interval, as [f32] compares. *)
Definition unit_interval (x : spec_float) : Prop :=
  is_finite x = true ∧ SFleb f32_zero x = true ∧ SFleb x f32_one = true.
Lemma at_most_one_unit x : at_most_one x → unit_interval x.
Proof.
  intros [->|(m & e & -> & Hme)]; [by vm_compute|]. split; [done|]. split; [done|].
  change f32_one with (S754_finite false 8388608 (-23)). unfold SFleb, SFcompare.
  destruct Hme as [He|[-> ->]]; [|done]. by rewrite (proj2 (Z.compare_lt_iff e (-23))) by lia.
Qed.

(** Text never yields a mantissa of more than 53 digits. *)
Lemma binary_normalize_digits m e z s' m' e' :
  binary_normalize 53 1024 m e z = S754_finite s' m' e' → Zpos m' < 2 ^ 53.
Proof.
  unfold binary_normalize, binary_round. destruct m as [|p|p]; [done|..]; destruct (shl_align _ _ _);
    intros H; by apply round_aux_digits in H.
Qed.
Lemma parse_f64_digits s b m e : parse_f64 s = Some (S754_finite b m e) → Zpos m < 2 ^ 53.
Proof.
  unfold parse_f64. destruct (take_sign s) as [neg t]. do 2 (split_match; [done|]).
  destruct (take_digits t) as [ints rest]. destruct (match rest with EmptyString => _ | String _ _ => _ end) as [fracs rest'].
  split_match; [done|]. intros (e10 & _ & H)%fmap_Some. symmetry in H. revert H. unfold f64_of_decimal.
  destruct (decimal _) as [|p|p]; [done| |done]. split_match; [by apply binary_normalize_digits|].
  destruct (SFdiv_core_binary _ _ _ _ _ _) as [[q e'] l] eqn:Eq. apply round_aux_digits; [|lia].
  unfold SFdiv_core_binary in Eq. destruct (Z.div_eucl _ _) as [q' r] eqn:Ed. simplify_eq.
  pose proof (f_equal fst Ed) as Hq. change (fst (Z.div_eucl ?a ?b)) with (a / b) in Hq. cbn [fst] in Hq. subst q.
  apply Z.div_pos; [|apply Z.pow_pos_nonneg; reflect_bools; lia]. split_match; try lia. apply Z.shiftl_nonneg. lia.
Qed.

Lemma f64_as_f32_unit x :
  is_finite x = true → range_contains f64_zero f64_one x = true →
  match x with S754_finite _ m _ => Zpos m < 2 ^ 53 | _ => True end → unit_interval (f64_as_f32 x).
Proof.
  unfold range_contains. intros Hf [H0 H1]%andb_true_iff Hm. destruct x as [[]| | |[] m e]; try done.
  cbn [f64_as_f32]. change f64_one with (S754_finite false 4503599627370496 (-52)) in H1.
  unfold SFleb, SFcompare in H1. destruct (decide (e = -52 ∧ m = 4503599627370496%positive)) as [[-> ->]|Hne]; [by vm_compute|].
  apply at_most_one_unit, binary_round_small. change (Zpos (digits2_pos m)) with (Zdigits2 (Zpos m)).
  destruct (Z.compare_spec e (-52)) as [He|He|He]; [| |done].
  - assert (Zpos m < 2 ^ 52) as Hm'.
    { change (2 ^ 52) with 4503599627370496. revert Hne H1. generalize 4503599627370496%positive. intros k Hne H1.
      change (Pos.compare_cont Eq m k) with (Pos.compare m k) in H1.
      destruct (Pos.compare_spec m k) as [Hc|Hc|Hc]; [by destruct Hne|lia|done]. }
    pose proof (Zdigits2_le (Zpos m) 52 ltac:(lia) ltac:(lia)). lia.
  - pose proof (Zdigits2_le (Zpos m) 53 ltac:(lia) ltac:(lia)). lia.
Qed.

(** ** What the details of a notification satisfy *)

(** A confidence is a number from 0 to 1. *)
Definition confidence_ok (o : option spec_float) : Prop :=
  match o with Some x => unit_interval x | None => True end.
Lemma confidence_no_nan o : confidence_ok o → no_nan o.
Proof. destruct o as [x|]; [|done]. intros [Hf _]. by destruct x. Qed.

Definition text_ok (o : option string) : Prop :=
  match o with Some t => str_len t ≤ DETAIL_STRING_MAX | None => True end.
Definition count_ok (o : option Z) : Prop :=
  match o with Some n => in_u64 n | None => True end.
(** A box with positive sides, in numbers. *)
Definition box_ok (o : option BoundingBox) : Prop :=
  match o with
  | Some b => Forall (λ x, is_nan x = false) (box_coordinates b)
              ∧ SFleb (box_width b) f32_zero = false ∧ SFleb (box_height b) f32_zero = false
              ∧ SFltb f32_one (f32_add (box_x b) (box_width b)) = false
              ∧ SFltb f32_one (f32_add (box_y b) (box_height b)) = false
  | None => True
  end.

Record ndetails_ok (d : NDetails) : Prop := {
  no_confidence : confidence_ok (nd_confidence d);
  no_box : box_ok (nd_bbox d);
  no_text : text_ok (nd_text d);
  no_count : count_ok (nd_count d)
}.

Lemma fold_result_inv {A B} (P : A → Prop) (f : A → B → result string A) l a a' :
  (∀ a b a', P a → f a b = Ok a' → P a') → P a → fold_result f a l = Ok a' → P a'.
Proof.
  intros Hf. revert a. induction l as [|b l IH]; intros a Ha; cbn; [by intros [= <-]|].
  intros (a1 & H1 & H2)%rbind_Ok. eapply IH; [|done]. by eapply Hf.
Qed.

Lemma merge_field_Ok {A} (same : A → A → bool) o (v : A) r : merge_field same o v = Ok r → r = Some v.
Proof. unfold merge_field. split_match; [done|]. by intros [= <-]. Qed.

Lemma probability_ok s p : probability s = Ok p → unit_interval p.
Proof.
  unfold probability. destruct (parse_f64 (str_trim s)) as [x|] eqn:Hx; [|done].
  destruct (is_finite x) eqn:Hf; cbn [negb orb]; [|done]. destruct (range_contains f64_zero f64_one x) eqn:Hr; [|done].
  intros [= <-]. apply f64_as_f32_unit; [done..|]. destruct x; try done. by eapply parse_f64_digits.
Qed.

Lemma detail_text_ok s t : detail_text s = Ok t → str_len t ≤ DETAIL_STRING_MAX.
Proof. unfold detail_text. destruct (Z.ltb_spec DETAIL_STRING_MAX (str_len s)); [done|]. by intros [= <-]. Qed.

Lemma coordinate_ok x name v : coordinate x name = Ok v → is_finite v = true.
Proof.
  unfold coordinate. destruct (attribute x name) as [t|]; [|done]. destruct (parse_f64 (str_trim t)) as [y|]; [|done].
  destruct (is_finite y) eqn:Hf; cbn; [|done]. split_match; [done|]. by intros [= <-].
Qed.

Lemma corner_box_nan w n e s :
  is_finite w = true → is_finite n = true → is_finite e = true → is_finite s = true →
  Forall (λ x, is_nan x = false) (box_coordinates (corner_box w n e s)).
Proof.
  intros Hw Hn He Hs. repeat constructor; cbn [box_x box_y box_width box_height corner_box]; apply half_nan.
  - by apply SFadd_nan.
  - by apply SFsub_nan.
  - by apply SFsub_nan.
  - by apply SFsub_nan.
Qed.

Lemma rectangle_ok x b : rectangle x = Ok b → box_ok (Some b).
Proof.
  unfold rectangle. split_match; [done|].
  intros (w & Hw & (n & Hn & (e & He & (s & Hs & H)%rbind_Ok)%rbind_Ok)%rbind_Ok)%rbind_Ok.
  apply coordinate_ok in Hw, Hn, He, Hs. destruct (SFleb e w || _) in H; [done|].
  pose proof (corner_box_nan w n e s Hw Hn He Hs) as Hnan. cbv zeta in H. revert H Hnan.
  generalize (corner_box w n e s) as c. intros c. split_match; [done|]. intros [= <-] Hnan. reflect_bools. done.
Qed.

Lemma plate_text_ok x o t : plate_text x o = Ok t → text_ok o → text_ok t.
Proof.
  intros (p & _ & H)%rbind_Ok Ho. destruct p as [p|]; [|by simplify_eq].
  apply rbind_Ok in H as (_ & _ & (v & _ & (v' & Hv%detail_text_ok & ->%merge_field_Ok)%rbind_Ok)%rbind_Ok). done.
Qed.

Lemma merge_box_ok d x d' : ndetails_ok d → merge_box d x = Ok d' → ndetails_ok d'.
Proof.
  intros [? ? ? ?] (b & Hb%rectangle_ok & (o & ->%merge_field_Ok & [= <-])%rbind_Ok)%rbind_Ok. by constructor.
Qed.
Lemma merge_plate_ok d x d' : ndetails_ok d → merge_plate d x = Ok d' → ndetails_ok d'.
Proof. intros [? ? ? ?] (t & Ht & [= <-])%rbind_Ok. apply plate_text_ok in Ht; [|done]. by constructor. Qed.

Lemma parse_u64_range s n : parse_u64 s = Some n → in_u64 n.
Proof.
  unfold parse_u64. destruct (take_digits _) as [[|d ds] []] eqn:E; try done.
  destruct (Z.leb_spec (decimal (d :: ds)) u64_max); [|done]. intros [= <-]. split; [|done].
  assert (Forall (λ d, 0 ≤ d) (d :: ds)) as Hd.
  { clear -E. revert E. generalize (d :: ds). set (s0 := match s with EmptyString => s | String _ _ => _ end). clearbody s0.
    induction s0 as [|c s0 IH]; intros l; cbn; [by intros [= <-]|].
    unfold digit_of. destruct (_ && _) eqn:Ec; [|by intros [= <-]]. reflect_bools. destruct (take_digits s0) as [l' r].
    intros [= <- ->]. constructor; [lia|]. by apply IH. }
  unfold decimal. assert (∀ l z, 0 ≤ z → Forall (λ d, 0 ≤ d) l → 0 ≤ foldl (λ n d, n * 10 + d) z l) as Hg.
  { intros l. induction l as [|a l IH]; intros z Hz Hl; cbn; [done|]. apply Forall_cons in Hl as [? ?]. apply IH; [lia|done]. }
  by apply Hg.
Qed.

Lemma detail_item_ok d i d' : ndetails_ok d → detail_item d i = Ok d' → ndetails_ok d'.
Proof.
  intros [? ? ? ?]. unfold detail_item. split_match; [|split_match; [|split_match; [|intros [= <-]; by constructor]]].
  - intros (p & Hp%probability_ok & (o & ->%merge_field_Ok & [= <-])%rbind_Ok)%rbind_Ok. by constructor.
  - intros (n & Hn & (o & ->%merge_field_Ok & [= <-])%rbind_Ok)%rbind_Ok. constructor; try done. cbn.
    unfold parse_count in Hn. destruct (parse_u64 _) eqn:E; [|done]. simplify_eq. by apply parse_u64_range in E.
  - intros (t & Ht%detail_text_ok & (o & ->%merge_field_Ok & [= <-])%rbind_Ok)%rbind_Ok. by constructor.
Qed.

Definition candidates_ok (c : Candidates) : Prop :=
  match cand_selected c with Some s => confidence_ok (cl_confidence s) | None => True end.

Lemma candidate_add_ok c v p c' : candidates_ok c → confidence_ok p → candidate_add c v p = Ok c' → candidates_ok c'.
Proof.
  intros Hc Hp. unfold candidate_add. destruct (_ || _); [done|]. unfold candidates_ok in *.
  destruct (cand_selected c) as [s|]; [|by intros [= <-]]. destruct (confidence_cmp _ _) as [[]|]; [..|done].
  - intros [= <-]. cbn. by case_bool_decide.
  - by intros [= <-].
  - by intros [= <-].
Qed.

Lemma candidate_child_ok c x c' : candidates_ok c → candidate_child c x = Ok c' → candidates_ok c'.
Proof.
  intros Hc. unfold candidate_child. split_match; [|split_match; [|by intros [= <-]]].
  - intros (p & Hp & (v & _ & H)%rbind_Ok)%rbind_Ok. eapply candidate_add_ok; [done| |done].
    destruct (attribute x "Likelihood"); [|by simplify_eq]. apply rbind_Ok in Hp as (q & Hq & [= <-]).
    by apply probability_ok in Hq.
  - intros (k & _ & (k' & _ & (l & _ & (l' & _ & (v & _ & (t & _ & (p & Hp%probability_ok & H)
      %rbind_Ok)%rbind_Ok)%rbind_Ok)%rbind_Ok)%rbind_Ok)%rbind_Ok)%rbind_Ok.
    by apply (candidate_add_ok c v (Some p)).
Qed.

Lemma candidate_item_ok c i c' : candidates_ok c → candidate_item c i = Ok c' → candidates_ok c'.
Proof.
  intros Hc. unfold candidate_item. split_match; [by apply candidate_add_ok|]. split_match; [|by intros [= <-]].
  apply (fold_result_inv candidates_ok); [|done]. intros a v a' Ha. by apply candidate_add_ok.
Qed.

Lemma candidate_element_ok c x c' : candidates_ok c → candidate_element c x = Ok c' → candidates_ok c'.
Proof. intros Hc. apply (fold_result_inv candidates_ok); [|done]. intros a v a' Ha. by apply candidate_child_ok. Qed.

Lemma classify_ok data appearance c : classify data appearance = Ok c → confidence_ok (cl_confidence c).
Proof.
  intros (c1 & H1 & (c2 & H2 & (c3 & H3 & [= <-])%rbind_Ok)%rbind_Ok)%rbind_Ok.
  assert (candidates_ok c1) as K1.
  { revert H1. by apply fold_result_inv; [intros a i a' Ha; apply candidate_item_ok|]. }
  assert (candidates_ok c2) as K2 by (destruct (structured _ _ _); [by eapply candidate_element_ok|by simplify_eq]).
  assert (candidates_ok c3) as K3.
  { destruct appearance as [x|]; [|by simplify_eq]. apply rbind_Ok in H3 as (y & _ & H3).
    destruct y; [by eapply candidate_element_ok|by simplify_eq]. }
  unfold candidates_ok in K3. by destruct (cand_selected c3).
Qed.

Lemma detail_appearance_ok d x d' : ndetails_ok d → detail_appearance d x = Ok d' → ndetails_ok d'.
Proof.
  intros Hd (s & _ & (b & _ & (d1 & H1 & (i & _ & H2)%rbind_Ok)%rbind_Ok)%rbind_Ok)%rbind_Ok.
  assert (ndetails_ok d1) as Hd1.
  { destruct b as [b|]; [|by simplify_eq]. apply rbind_Ok in H1 as (t & _ & H1). destruct t; [done|by eapply merge_box_ok]. }
  destruct i; [by eapply merge_plate_ok|by simplify_eq].
Qed.

Lemma parse_details_ok data d : parse_details data = Ok d → ndetails_ok d.
Proof.
  intros (a & _ & (c & Hc%classify_ok & (d1 & H1 & (d2 & H2 & (d3 & H3 & H4)%rbind_Ok)%rbind_Ok)%rbind_Ok)%rbind_Ok)%rbind_Ok.
  assert (ndetails_ok d1) as K1.
  { revert H1. apply fold_result_inv; [intros b i b' Hb; by apply detail_item_ok|]. by constructor. }
  assert (ndetails_ok d2) as K2 by (destruct (structured _ "BoundingBox" _); [by eapply merge_box_ok|by simplify_eq]).
  assert (ndetails_ok d3) as K3 by (destruct a; [by eapply detail_appearance_ok|by simplify_eq]).
  revert H4. split_match; [by apply merge_plate_ok|]. by intros [= <-].
Qed.
