(* ===== verification/OnvifIdentity.v ===== *)
(** * ONVIF property identity

    [crates/onvif/onvif/src/event/normalize/identity.rs]: the identity under which a
    notification is tracked, a sequence of length-prefixed parts of at most 4096 bytes.
    Items and attributes are written in the order of their names, which validation has
    made distinct, so the order an unstable sort leaves is the only sorted one.

    The lemmas relate the written bytes to what they stand for: two notifications have
    the same identity exactly when they are [same_subject]. *)

From S2P Require Import Prelude CameraEvent OnvifItems.
From Stdlib Require Import DecimalString DecimalN.

Definition IDENTITY_SIZE_BYTES_MAX : Z := 4096.

(** [Ord] of [(&str, &String)]. *)
Definition pair_leb (a b : string * string) : bool :=
  str_ltb (fst a) (fst b) || (str_eqb (fst a) (fst b) && str_leb (snd a) (snd b)).

(** [sort_unstable_by_key], on keys compared by [leb]. *)
Definition by_key {K A : Type} (leb : K → K → bool) (key : A → K) (a b : A) : Prop :=
  leb (key a) (key b) = true.
#[global] Instance by_key_dec {K A : Type} (leb : K → K → bool) (key : A → K) : RelDecision (by_key leb key).
Proof. intros a b. unfold by_key. apply _. Defined.
Definition sort_by_key {K A : Type} (leb : K → K → bool) (key : A → K) : list A → list A :=
  merge_sort (by_key leb key).

(** Writing to [Identity]: the text written so far is the state. *)
Definition Writer : Type := string → outcome (result string string).

Definition part (value : string) : Writer := λ identity,
  let length := usize_to_string (str_len value) in
  let! available := plain_sub IDENTITY_SIZE_BYTES_MAX (str_len identity) in
  let limit := Ret (Err "normalization identity limit exceeded") in
  if available <? str_len value then limit
  else
    let! rest := plain_sub available (str_len value) in
    if rest <? str_len length + 1 then limit
    else Ret (Ok (identity +:+ length +:+ ":" +:+ value)).

Definition count_part (count : Z) : Writer := part (usize_to_string count).

Definition name_part (name : ExpandedName) : Writer := λ identity,
  spend identity := part (unwrap_or (namespace_uri name) "") identity in
  part (local_name name) identity.

Definition sorted_attributes (x : XmlElement) : list XmlAttribute :=
  sort_by_key pair_leb attribute_key (xml_attributes x).

Definition attribute_part (a : XmlAttribute) : Writer := λ identity,
  spend identity := name_part (attr_name a) identity in
  part (attr_value a) identity.

Fixpoint element_part (x : XmlElement) : Writer := λ identity,
  match x with
  | mk_element name attributes text children =>
      spend identity := name_part name identity in
      let attributes := sorted_attributes x in
      spend identity := count_part (vec_len attributes) identity in
      spend identity := spend_all attribute_part attributes identity in
      spend identity := part text identity in
      spend identity := count_part (vec_len children) identity in
      spend_all element_part children identity
  end.

Definition simple_part (item : SimpleItem) : Writer := λ identity,
  spend identity := part (simple_name item) identity in
  part (simple_value item) identity.
Definition element_item_part (item : ElementItem) : Writer := λ identity,
  spend identity := part (element_name item) identity in
  element_part (element_value item) identity.

Definition section_part (section : ItemList) : Writer := λ identity,
  let simple := sort_by_key str_leb simple_name (simple section) in
  spend identity := count_part (vec_len simple) identity in
  spend identity := spend_all simple_part simple identity in
  let elements := sort_by_key str_leb element_name (element section) in
  spend identity := count_part (vec_len elements) identity in
  spend_all element_item_part elements identity.

Definition topic_name_part (name : ExpandedName) : Writer := λ identity,
  spend identity := part (unwrap_or (namespace_uri name) TOPICS) identity in
  part (local_name name) identity.

Definition canonical (n : Notification) : outcome (result string string) :=
  spend identity := part "onvif:1" "" in
  spend identity := count_part (vec_len (path (n_topic n))) identity in
  spend identity := spend_all topic_name_part (path (n_topic n)) identity in
  spend identity := section_part (n_source n) identity in
  section_part (n_key n) identity.

(** ** The parts of an identity

    What is written is a list of parts, each after its length. *)

Fixpoint element_parts (x : XmlElement) : list string :=
  match x with
  | mk_element name _ text children =>
      let attributes := sorted_attributes x in
      [unwrap_or (namespace_uri name) ""; local_name name; usize_to_string (vec_len attributes)]
      ++ mjoin ((λ a, [(attribute_key a).1; (attribute_key a).2; attr_value a]) <$> attributes)
      ++ [text; usize_to_string (vec_len children)] ++ mjoin (element_parts <$> children)
  end.

Definition counted {A : Type} (f : A → list string) (l : list A) : list string :=
  usize_to_string (vec_len l) :: mjoin (f <$> l).
Definition attribute_parts (a : XmlAttribute) : list string :=
  [(attribute_key a).1; (attribute_key a).2; attr_value a].
Definition simple_parts (i : SimpleItem) : list string := [simple_name i; simple_value i].
Definition element_item_parts (i : ElementItem) : list string := element_name i :: element_parts (element_value i).
Definition topic_key (name : ExpandedName) : string * string :=
  (unwrap_or (namespace_uri name) TOPICS, local_name name).
Definition topic_parts (name : ExpandedName) : list string := [(topic_key name).1; (topic_key name).2].
Definition section_parts (s : ItemList) : list string :=
  counted simple_parts (sort_by_key str_leb simple_name (simple s))
  ++ counted element_item_parts (sort_by_key str_leb element_name (element s)).
Definition identity_parts (n : Notification) : list string :=
  "onvif:1" :: counted topic_parts (path (n_topic n)) ++ section_parts (n_source n) ++ section_parts (n_key n).

(** The nested induction principle of elements. *)
Lemma xml_element_ind' (P : XmlElement → Prop) :
  (∀ name attributes text children, Forall P children → P (mk_element name attributes text children)) →
  ∀ x, P x.
Proof.
  intros H. fix IH 1. intros [name attributes text children]. apply H.
  induction children as [|c cs IHcs]; constructor; [apply IH|exact IHcs].
Qed.

Lemma element_parts_eq name attributes text children :
  element_parts (mk_element name attributes text children) =
  [unwrap_or (namespace_uri name) ""; local_name name]
  ++ counted attribute_parts (sort_by_key pair_leb attribute_key attributes)
  ++ text :: counted element_parts children.
Proof. done. Qed.

Lemma spend_bind_assoc {S} (m : outcome (result string S)) k1 k2 :
  spend_bind (spend_bind m k1) k2 = spend_bind m (λ b, spend_bind (k1 b) k2).
Proof. by destruct m as [[]|]. Qed.
Lemma spend_all_app {S A} (f : A → S → outcome (result string S)) l1 l2 b :
  spend_all f (l1 ++ l2) b = spend_bind (spend_all f l1 b) (spend_all f l2).
Proof. revert b. induction l1 as [|a l1 IH]; intros b; [done|]. cbn. rewrite spend_bind_assoc. by destruct (f a b) as [[]|]; cbn. Qed.
Lemma spend_bind_Ret {S} (m : outcome (result string S)) : spend_bind m (λ b, Ret (Ok b)) = m.
Proof. by destruct m as [[]|]. Qed.
Lemma spend_bind_ext {S} (m : outcome (result string S)) k1 k2 :
  (∀ b, k1 b = k2 b) → spend_bind m k1 = spend_bind m k2.
Proof. intros H. destruct m as [[]|]; cbn; auto. Qed.

(** A writer that writes some parts. *)
Definition writes (w : Writer) (l : list string) : Prop := ∀ identity, w identity = spend_all part l identity.

Lemma writes_part v : writes (part v) [v].
Proof. intros id. cbn. by rewrite spend_bind_Ret. Qed.
Lemma writes_bind w1 w2 l1 l2 :
  writes w1 l1 → writes w2 l2 → writes (λ id, spend_bind (w1 id) w2) (l1 ++ l2).
Proof. intros H1 H2 id. rewrite spend_all_app, H1. by apply spend_bind_ext. Qed.
Lemma writes_all {A} (f : A → Writer) (g : A → list string) l :
  Forall (λ a, writes (f a) (g a)) l → writes (spend_all f l) (mjoin (g <$> l)).
Proof. induction 1 as [|a l Ha _ IH]; [done|]. apply (writes_bind _ _ _ _ Ha IH). Qed.
Lemma writes_counted {A} (f : A → Writer) (g : A → list string) l :
  Forall (λ a, writes (f a) (g a)) l →
  writes (λ id, spend_bind (count_part (vec_len l) id) (spend_all f l)) (counted g l).
Proof. intros H. apply (writes_bind _ _ [_]); [apply writes_part|by apply writes_all]. Qed.

Lemma writes_attribute a : writes (attribute_part a) (attribute_parts a).
Proof.
  apply (writes_bind _ _ [_; _] [_]); [|apply writes_part].
  apply (writes_bind _ _ [_] [_]); apply writes_part.
Qed.

Lemma writes_element x : writes (element_part x) (element_parts x).
Proof.
  induction x as [name attributes text children IH] using xml_element_ind'. rewrite element_parts_eq.
  unfold counted. cbn [element_part].
  apply (writes_bind _ _ [_; _]); [apply (writes_bind _ _ [_] [_]); apply writes_part|].
  apply (writes_bind _ _ [_]); [apply writes_part|].
  apply writes_bind; [apply writes_all, Forall_true, writes_attribute|].
  apply (writes_bind _ _ [_]); [apply writes_part|].
  apply (writes_bind _ _ [_]); [apply writes_part|]. by apply writes_all.
Qed.

Lemma writes_section s : writes (section_part s) (section_parts s).
Proof.
  unfold section_parts, counted, section_part. apply (writes_bind _ _ [_]); [apply writes_part|].
  apply writes_bind.
  { apply writes_all, Forall_true. intros i. apply (writes_bind _ _ [_] [_]); apply writes_part. }
  apply (writes_bind _ _ [_]); [apply writes_part|].
  apply writes_all, Forall_true. intros i. apply (writes_bind _ _ [_]); [apply writes_part|apply writes_element].
Qed.

Lemma canonical_parts n : canonical n = spend_all part (identity_parts n) "".
Proof.
  change (canonical n) with ((λ id, canonical n) ""). revert n. intros n.
  assert (writes (λ id, spend identity := part "onvif:1" id in
    spend identity := count_part (vec_len (path (n_topic n))) identity in
    spend identity := spend_all topic_name_part (path (n_topic n)) identity in
    spend identity := section_part (n_source n) identity in
    section_part (n_key n) identity) (identity_parts n)) as H; [|exact (H "")].
  apply (writes_bind _ _ [_]); [apply writes_part|]. unfold counted.
  apply (writes_bind _ _ [_]); [apply writes_part|].
  apply writes_bind; [|apply writes_bind; apply writes_section].
  apply writes_all, Forall_true. intros i. apply (writes_bind _ _ [_] [_]); apply writes_part.
Qed.

(** ** Framing *)

Definition framed (v : string) : string := usize_to_string (str_len v) +:+ ":" +:+ v.
Definition framing (l : list string) : string := foldr (λ v s, framed v +:+ s) "" l.

Lemma str_app_assoc (a b c : string) : a +:+ (b +:+ c) = (a +:+ b) +:+ c.
Proof. induction a as [|x a IH]; [done|]. exact (f_equal (String x) IH). Qed.
Lemma str_app_nil (a : string) : a +:+ "" = a.
Proof. induction a as [|x a IH]; [done|]. exact (f_equal (String x) IH). Qed.
Lemma str_len_nonneg a : 0 ≤ str_len a.
Proof. unfold str_len. lia. Qed.

(** A part is written when it fits, and nothing aborts. *)
Lemma part_spec v identity :
  str_len identity ≤ IDENTITY_SIZE_BYTES_MAX →
  part v identity =
    Ret (if str_len (identity +:+ framed v) <=? IDENTITY_SIZE_BYTES_MAX
         then Ok (identity +:+ framed v) else Err "normalization identity limit exceeded").
Proof.
  intros Hid. unfold part, framed, plain_sub. rewrite (proj2 (Z.leb_le _ _)) by done. cbn [obind].
  pose proof (str_len_nonneg v). pose proof (str_len_nonneg (usize_to_string (str_len v))).
  rewrite !str_len_app. change (str_len ":") with 1.
  destruct (Z.ltb_spec (IDENTITY_SIZE_BYTES_MAX - str_len identity) (str_len v)).
  { rewrite (proj2 (Z.leb_gt _ _)) by lia. done. }
  rewrite (proj2 (Z.leb_le _ _)) by done. cbn [obind].
  destruct (Z.ltb_spec (IDENTITY_SIZE_BYTES_MAX - str_len identity - str_len v)
    (str_len (usize_to_string (str_len v)) + 1)).
  - rewrite (proj2 (Z.leb_gt _ _)) by lia. done.
  - rewrite (proj2 (Z.leb_le _ _)) by lia. done.
Qed.

Lemma parts_spec l identity :
  str_len identity ≤ IDENTITY_SIZE_BYTES_MAX →
  spend_all part l identity =
    Ret (if str_len (identity +:+ framing l) <=? IDENTITY_SIZE_BYTES_MAX
         then Ok (identity +:+ framing l) else Err "normalization identity limit exceeded").
Proof.
  revert identity. induction l as [|v l IH]; intros id Hid; cbn [spend_all framing foldr].
  { rewrite str_app_nil. by rewrite (proj2 (Z.leb_le _ _)). }
  rewrite part_spec by done. fold (framing l). rewrite str_app_assoc. cbn [spend_bind obind].
  destruct (Z.leb_spec (str_len (id +:+ framed v)) IDENTITY_SIZE_BYTES_MAX); [by apply IH|].
  rewrite (proj2 (Z.leb_gt _ _)); [done|]. rewrite str_len_app. pose proof (str_len_nonneg (framing l)). lia.
Qed.

(** What [canonical] returns: the framed parts, when they fit in 4096 bytes. *)
Lemma canonical_spec n :
  canonical n = Ret (if str_len (framing (identity_parts n)) <=? IDENTITY_SIZE_BYTES_MAX
                     then Ok (framing (identity_parts n)) else Err "normalization identity limit exceeded").
Proof. rewrite canonical_parts. by rewrite parts_spec. Qed.

Lemma str_app_inj a b r1 r2 : str_len a = str_len b → a +:+ r1 = b +:+ r2 → a = b ∧ r1 = r2.
Proof.
  unfold str_len. revert b. induction a as [|x a IH]; intros [|y b] Hl; cbn in *; try lia; [done|].
  intros [= -> H]. destruct (IH b ltac:(lia) H) as [-> ->]. done.
Qed.

(** A decimal number ends at the colon. *)
Lemma digits_colon_inj d1 d2 x y :
  NilEmpty.string_of_uint d1 +:+ ":" +:+ x = NilEmpty.string_of_uint d2 +:+ ":" +:+ y → d1 = d2 ∧ x = y.
Proof.
  revert d2. induction d1 as [|d IH|d IH|d IH|d IH|d IH|d IH|d IH|d IH|d IH|d IH]; intros [];
    try discriminate; cbn; intros [= H]; first [by subst | by destruct (IH _ H) as [-> ->]].
Qed.
Lemma usize_to_string_inj a b : 0 ≤ a → 0 ≤ b → usize_to_string a = usize_to_string b → a = b.
Proof.
  unfold usize_to_string. intros Ha Hb H.
  assert (N.to_uint (Z.to_N a) = N.to_uint (Z.to_N b)) as He.
  { apply (digits_colon_inj _ _ "" ""). by rewrite H. }
  apply DecimalN.Unsigned.to_uint_inj in He. lia.
Qed.

Lemma framed_inj a b r1 r2 : framed a +:+ r1 = framed b +:+ r2 → a = b ∧ r1 = r2.
Proof.
  unfold framed. rewrite <-!str_app_assoc. intros [Hn H]%digits_colon_inj.
  apply DecimalN.Unsigned.to_uint_inj in Hn. apply str_app_inj; [|done]. unfold str_len in *. lia.
Qed.

Lemma framed_nonempty v s : framed v +:+ s ≠ "".
Proof. unfold framed, usize_to_string. by destruct (N.to_uint _). Qed.

(** The written bytes determine the parts. *)
Lemma framing_inj l1 l2 : framing l1 = framing l2 → l1 = l2.
Proof.
  revert l2. induction l1 as [|a l1 IH]; intros [|b l2] H; [done| | |].
  - by destruct (framed_nonempty b (framing l2)).
  - by destruct (framed_nonempty a (framing l1)).
  - apply framed_inj in H as [-> H]. f_equal. by apply IH.
Qed.

(** ** What an identity stands for *)

(** An absent namespace of an XML name is the empty one. *)
Definition attribute_content (a : XmlAttribute) : (string * string) * string := (attribute_key a, attr_value a).
Definition name_key (name : ExpandedName) : string * string := (unwrap_or (namespace_uri name) "", local_name name).

(** The same element, up to the order of attributes. *)
Inductive xml_same : XmlElement → XmlElement → Prop :=
| xml_same_intro name1 name2 attributes1 attributes2 text children1 children2 :
    name_key name1 = name_key name2 →
    (attribute_content <$> attributes1) ≡ₚ (attribute_content <$> attributes2) →
    Forall2 xml_same children1 children2 →
    xml_same (mk_element name1 attributes1 text children1) (mk_element name2 attributes2 text children2).

Definition element_item_same (i j : ElementItem) : Prop :=
  element_name i = element_name j ∧ xml_same (element_value i) (element_value j).

(** The same items, up to their order. *)
Definition section_same (s1 s2 : ItemList) : Prop :=
  simple s1 ≡ₚ simple s2 ∧ ∃ l, l ≡ₚ element s2 ∧ Forall2 element_item_same (element s1) l.

(** The same topic with the same Source and Key; data, time and operation may differ. *)
Definition same_subject (n1 n2 : Notification) : Prop :=
  topic_key <$> path (n_topic n1) = topic_key <$> path (n_topic n2)
  ∧ section_same (n_source n1) (n_source n2) ∧ section_same (n_key n1) (n_key n2).

(** [f] writes [a] so that what was written tells where it ends, and [a] up to [R]. *)
Definition prefix_code {A : Type} (f : A → list string) (R : A → A → Prop) (a : A) : Prop :=
  ∀ b r1 r2, f a ++ r1 = f b ++ r2 → R a b ∧ r1 = r2.

Lemma cons_inv {A} (a b : A) l1 l2 : a :: l1 = b :: l2 → a = b ∧ l1 = l2.
Proof. by intros [= -> ->]. Qed.

Lemma counted_prefix {A} (f : A → list string) R l1 l2 r1 r2 :
  Forall (prefix_code f R) l1 → counted f l1 ++ r1 = counted f l2 ++ r2 → Forall2 R l1 l2 ∧ r1 = r2.
Proof.
  intros Hf H. injection H as Hn H. apply usize_to_string_inj in Hn; [|unfold vec_len; lia..].
  assert (length l1 = length l2) as Hl by (unfold vec_len in *; lia). clear Hn. revert l2 Hl H.
  induction Hf as [|a l1 Ha _ IH]; intros [|b l2] Hl; try done; cbn.
  rewrite <-!app_assoc. intros H. apply Ha in H as [Hab H]. apply IH in H as [Hl12 Hr]; [|naive_solver].
  by split; [constructor|].
Qed.

Lemma Forall2_fmap_eq {A B} (f : A → B) l1 l2 : Forall2 (λ a b, f a = f b) l1 l2 ↔ f <$> l1 = f <$> l2.
Proof. rewrite list_eq_Forall2, Forall2_fmap. done. Qed.

Lemma sort_perm {K A} (leb : K → K → bool) (key : A → K) l : sort_by_key leb key l ≡ₚ l.
Proof. apply merge_sort_Permutation. Qed.

Lemma attribute_prefix a : prefix_code attribute_parts (λ a b, attribute_content a = attribute_content b) a.
Proof.
  intros b r1 r2 H. unfold attribute_parts in H. injection H as H1 H2 H3 H4. split; [|done].
  unfold attribute_content. f_equal; [by apply injective_projections|done].
Qed.

Lemma element_prefix x : prefix_code element_parts xml_same x.
Proof.
  induction x as [name attributes text children IH] using xml_element_ind'.
  intros [name' attributes' text' children'] r1 r2. rewrite !element_parts_eq, <-!app_assoc.
  intros [H1 [H2 H]%cons_inv]%cons_inv.
  apply (counted_prefix _ _ _ _ _ _ (Forall_true _ _ attribute_prefix)) in H as [Ha H].
  apply cons_inv in H as [-> H].
  apply (counted_prefix _ _ _ _ _ _ IH) in H as [Hc ->]. split; [|done]. constructor; [|  |done].
  - unfold name_key. by f_equal.
  - apply Forall2_fmap_eq in Ha. by rewrite <-(sort_perm pair_leb attribute_key attributes), Ha, sort_perm.
Qed.

Lemma simple_prefix i : prefix_code simple_parts eq i.
Proof. intros j r1 r2 H. destruct i, j. cbn in H. injection H as -> -> ->. done. Qed.
Lemma element_item_prefix i : prefix_code element_item_parts element_item_same i.
Proof.
  intros j r1 r2 [H1 H]%cons_inv. apply element_prefix in H as [Hx ->]. by split.
Qed.

Lemma section_prefix s1 : prefix_code section_parts section_same s1.
Proof.
  intros s2 r1 r2. unfold section_parts. rewrite <-!app_assoc. intros H.
  apply (counted_prefix _ _ _ _ _ _ (Forall_true _ _ simple_prefix)) in H as [Hs H].
  apply (counted_prefix _ _ _ _ _ _ (Forall_true _ _ element_item_prefix)) in H as [He ->].
  apply list_eq_Forall2 in Hs. split; [|done]. split.
  - by rewrite <-(sort_perm str_leb simple_name (simple s1)), Hs, sort_perm.
  - destruct (Permutation_Forall2 (sort_perm _ _ (element s1)) He) as (l & Hl & Hf).
    exists l. split; [|done]. by rewrite <-Hl, sort_perm.
Qed.

Lemma identity_parts_subject n1 n2 : identity_parts n1 = identity_parts n2 → same_subject n1 n2.
Proof.
  intros [_ H]%cons_inv. apply (f_equal (λ l, l ++ [])) in H. rewrite <-!app_assoc in H.
  apply (counted_prefix topic_parts (λ a b, topic_key a = topic_key b)) in H as [Ht H].
  - apply section_prefix in H as [Hs H]. apply section_prefix in H as [Hk _].
    split_and!; [by apply Forall2_fmap_eq|done|done].
  - apply Forall_true. intros a b r1 r2 H'. unfold topic_parts in H'. injection H' as Ha Hb ->.
    split; [by apply injective_projections|done].
Qed.

(** ** The order of items and attributes does not matter *)

Class KeyOrder {K : Type} (leb : K → K → bool) : Prop := {
  ko_total a b : leb a b = true ∨ leb b a = true;
  ko_trans a b c : leb a b = true → leb b c = true → leb a c = true;
  ko_antisym a b : leb a b = true → leb b a = true → a = b
}.

#[export] Instance str_key_order : KeyOrder str_leb.
Proof. constructor; [apply str_leb_total|apply str_leb_trans|apply str_leb_antisym]. Qed.


Lemma pair_leb_spec a b :
  pair_leb a b = true ↔ str_leb a.1 b.1 = true ∧ (a.1 = b.1 → str_leb a.2 b.2 = true).
Proof.
  unfold pair_leb, str_eqb. rewrite orb_true_iff, andb_true_iff, bool_decide_eq_true, str_ltb_leb.
  destruct (decide (a.1 = b.1)) as [->|]; [|naive_solver]. pose proof (str_leb_total b.1 b.1). naive_solver.
Qed.

#[export] Instance pair_key_order : KeyOrder pair_leb.
Proof.
  constructor.
  - intros a b. rewrite !pair_leb_spec. destruct (str_leb_total a.1 b.1), (str_leb_total a.2 b.2);
      pose proof (str_leb_antisym a.1 b.1); destruct (decide (a.1 = b.1)) as [He|]; try rewrite He in *; naive_solver.
  - intros a b c. rewrite !pair_leb_spec. intros [H1 H2] [H3 H4]. split; [by eapply str_leb_trans|].
    intros He. assert (a.1 = b.1) as Hab by (apply str_leb_antisym; [done|by rewrite He]).
    eapply str_leb_trans; [by apply H2|]. apply H4. congruence.
  - intros a b. rewrite !pair_leb_spec. intros [H1 H2] [H3 H4]. pose proof (str_leb_antisym _ _ H1 H3) as He.
    apply injective_projections; [done|]. apply str_leb_antisym; auto.
Qed.

Section sorting.
Context {K : Type} (leb : K → K → bool) `{!KeyOrder leb}.

Lemma sort_sorted {A} (key : A → K) l : StronglySorted (by_key leb key) (sort_by_key leb key l).
Proof.
  apply StronglySorted_merge_sort; [|intros a b; apply ko_total].
  intros a b c. apply ko_trans.
Qed.

Lemma NoDup_fst_eq {B} (l : list (K * B)) x y : NoDup (fst <$> l) → x ∈ l → y ∈ l → x.1 = y.1 → x = y.
Proof.
  induction l as [|z l IH]; cbn; intros Hd Hx Hy He; [by apply elem_of_nil in Hx|].
  apply NoDup_cons in Hd as [Hz Hd]. rewrite elem_of_cons in Hx, Hy.
  destruct Hx as [-> | Hx], Hy as [-> | Hy]; [done| | |by apply IH].
  - destruct Hz. rewrite He. by apply list_elem_of_fmap_2.
  - destruct Hz. rewrite <-He. by apply list_elem_of_fmap_2.
Qed.

(** Sorting by a key that is distinct forgets the order of the items. *)
Lemma sort_content {A B} (key : A → K) (c : A → K * B) l1 l2 :
  (∀ a, (c a).1 = key a) → c <$> l1 ≡ₚ c <$> l2 → NoDup (key <$> l1) →
  c <$> sort_by_key leb key l1 = c <$> sort_by_key leb key l2.
Proof.
  intros Hc Hp Hd. apply (StronglySorted_unique_strong (by_key leb fst)).
  - intros x y Hx Hy Hxy Hyx. rewrite sort_perm in Hx, Hy. rewrite <-Hp in Hy.
    apply (NoDup_fst_eq (c <$> l1)); [|done|done|by apply ko_antisym].
    rewrite <-list_fmap_compose. by rewrite (list_fmap_ext _ key l1) by (intros; apply Hc).
  - eapply sorting.StronglySorted_fmap; [|apply (sort_sorted key)].
    intros a b. unfold by_key. by rewrite !Hc.
  - eapply sorting.StronglySorted_fmap; [|apply (sort_sorted key)].
    intros a b. unfold by_key. by rewrite !Hc.
  - by rewrite !sort_perm.
Qed.

Lemma counted_content {A B} (key : A → K) (c : A → K * B) (f : A → list string) (g : K * B → list string) l1 l2 :
  (∀ a, (c a).1 = key a) → (∀ a, f a = g (c a)) → c <$> l1 ≡ₚ c <$> l2 → NoDup (key <$> l1) →
  counted f (sort_by_key leb key l1) = counted f (sort_by_key leb key l2).
Proof.
  intros Hc Hf Hp Hd. pose proof (sort_content key c l1 l2 Hc Hp Hd) as He. unfold counted. f_equal.
  - f_equal. apply (f_equal length) in He. rewrite !length_fmap in He. unfold vec_len. by rewrite He.
  - f_equal. rewrite !(list_fmap_ext f (g ∘ c)) by (intros; apply Hf). by rewrite !list_fmap_compose, He.
Qed.

End sorting.

(** What validation establishes of names. *)
Inductive xml_distinct : XmlElement → Prop :=
| xml_distinct_intro name attributes text children :
    NoDup (attribute_key <$> attributes) → Forall xml_distinct children →
    xml_distinct (mk_element name attributes text children).
Definition section_distinct (s : ItemList) : Prop :=
  NoDup (simple_name <$> simple s) ∧ NoDup (element_name <$> element s)
  ∧ Forall (λ i, xml_distinct (element_value i)) (element s).

Lemma counted_ext {A B} (f : A → list string) (g : B → list string) l1 l2 :
  f <$> l1 = g <$> l2 → counted f l1 = counted g l2.
Proof.
  intros H. unfold counted. rewrite H. f_equal. f_equal. apply (f_equal length) in H.
  rewrite !length_fmap in H. unfold vec_len. by rewrite H.
Qed.

Lemma Forall_Forall2_eq {A B} (P : A → Prop) (R : A → A → Prop) (f : A → B) l1 l2 :
  Forall (λ a, ∀ b, R a b → P a → f a = f b) l1 → Forall2 R l1 l2 → Forall P l1 → f <$> l1 = f <$> l2.
Proof.
  intros Hf H. revert Hf. induction H as [|a b l1 l2 Hab _ IH]; [done|]. rewrite !Forall_cons.
  intros [Ha Hf] [Pa Hp]. cbn. f_equal; auto.
Qed.

Lemma element_parts_same x y : xml_same x y → xml_distinct x → element_parts x = element_parts y.
Proof.
  revert y. induction x as [name attributes text children IH] using xml_element_ind'. intros y Hs Hd.
  inversion Hs as [? name' ? attributes' ? ? children' Hname Hattr Hc]; subst.
  inversion Hd as [? ? ? ? Hna Hdc]; subst. rewrite !element_parts_eq. unfold name_key in Hname.
  injection Hname as -> ->. f_equal. f_equal; [|f_equal].
  - apply (counted_content pair_leb attribute_key attribute_content attribute_parts
      (λ p, [p.1.1; p.1.2; p.2])); done.
  - apply counted_ext. by eapply (Forall_Forall2_eq xml_distinct).
Qed.

Lemma section_parts_same s1 s2 : section_same s1 s2 → section_distinct s1 → section_parts s1 = section_parts s2.
Proof.
  intros [Hs (l & Hl & He)] (Hd1 & Hd2 & Hd3). unfold section_parts. f_equal.
  - apply (counted_content str_leb simple_name (λ i, (simple_name i, simple_value i)) simple_parts
      (λ p, [p.1; p.2])); [done|done|by rewrite Hs|done].
  - apply (counted_content str_leb element_name (λ i, (element_name i, element_parts (element_value i)))
      element_item_parts (λ p, p.1 :: p.2)); [done|done| |done].
    rewrite <-Hl. assert ((λ i, (element_name i, element_parts (element_value i))) <$> element s1
      = (λ i, (element_name i, element_parts (element_value i))) <$> l) as ->; [|done].
    eapply (Forall_Forall2_eq (λ i, xml_distinct (element_value i)) element_item_same); [|done|done].
    apply Forall_true. intros i j [-> Hx] Hd. f_equal. by apply element_parts_same.
Qed.

(** Distinct names make the identity a function of the subject. *)
Lemma identity_parts_same n1 n2 :
  same_subject n1 n2 → section_distinct (n_source n1) → section_distinct (n_key n1) →
  identity_parts n1 = identity_parts n2.
Proof.
  intros (Ht & Hs & Hk) Hds Hdk. unfold identity_parts. f_equal. f_equal; [|f_equal; by apply section_parts_same].
  apply counted_ext. change topic_parts with ((λ p : string * string, [p.1; p.2]) ∘ topic_key).
  by rewrite !list_fmap_compose, Ht.
Qed.

(** ** Validation makes names distinct *)

Lemma spend_bind_Ok {S} (m : outcome (result string S)) k b :
  spend_bind m k = Ret (Ok b) ↔ ∃ a, m = Ret (Ok a) ∧ k a = Ret (Ok b).
Proof. destruct m as [[]|]; cbn; naive_solver. Qed.

Lemma spend_item_names_NoDup names taken b b' :
  spend_item_names names taken b = Ret (Ok b') → NoDup names ∧ ∀ x, x ∈ names → x ∉ taken.
Proof.
  revert taken b. induction names as [|x names IH]; intros taken b; cbn [spend_item_names].
  { intros _. split; [constructor|]. by intros x ?%elem_of_nil. }
  intros (b1 & _ & H)%spend_bind_Ok. revert H. split_match; [done|]. reflect_bools. intros [Hd Hn]%IH.
  split; [|set_solver]. constructor; [set_solver|done].
Qed.
Lemma spend_attributes_NoDup attributes taken b b' :
  spend_attributes attributes taken b = Ret (Ok b') →
  NoDup (attribute_key <$> attributes) ∧ ∀ x, x ∈ attribute_key <$> attributes → x ∉ taken.
Proof.
  revert taken b. induction attributes as [|a attributes IH]; intros taken b; cbn [spend_attributes].
  { intros _. split; [constructor|]. by intros x ?%elem_of_nil. }
  intros (b1 & _ & (b2 & _ & H)%spend_bind_Ok)%spend_bind_Ok. revert H. split_match; [done|]. reflect_bools.
  intros [Hd Hn]%IH. rewrite fmap_cons. set (k := attribute_key a) in *. clearbody k.
  set (ks := attribute_key <$> attributes) in *. clearbody ks.
  split; [constructor; [set_solver|done]|set_solver].
Qed.

Lemma element_loop_distinct fuel pending b b' :
  element_loop fuel pending b = Ret (Ok b') → Forall xml_distinct pending.*1.
Proof.
  revert pending b. induction fuel as [|fuel IH]; intros pending b; [done|]. cbn [element_loop].
  destruct pending as [|[[name attributes text children] depth] pending]; [by constructor|].
  destruct (plain_add _ _ _) as [nodes|]; [|done]. cbn [obind]. split_match; [done|].
  destruct (plain_sub _ _) as [available|]; [|done]. cbn [obind]. split_match; [done|].
  intros (b1 & _ & (b2 & _ & (b3 & Ha & H)%spend_bind_Ok)%spend_bind_Ok)%spend_bind_Ok.
  apply spend_attributes_NoDup in Ha as [Ha _]. apply IH in H. rewrite fmap_app, Forall_app in H.
  destruct H as [Hc Hp]. constructor; [|done]. constructor; [done|].
  revert Hc. cbn [xml_children]. rewrite <-Permutation_rev, <-list_fmap_compose.
  by rewrite (list_fmap_ext _ id), list_fmap_id.
Qed.

Lemma spend_all_Forall {S A} (f : A → S → outcome (result string S)) (P : A → Prop) l b b' :
  (∀ a b b', f a b = Ret (Ok b') → P a) → spend_all f l b = Ret (Ok b') → Forall P l.
Proof.
  intros Hf. revert b. induction l as [|a l IH]; intros b; [by constructor|]. cbn.
  intros (b1 & Ha & H)%spend_bind_Ok. constructor; eauto.
Qed.

Lemma spend_section_distinct s b b' : spend_section s b = Ret (Ok b') → section_distinct s.
Proof.
  intros (b1 & _ & (b2 & _ & (b3 & Hn & (b4 & _ & He)%spend_bind_Ok)%spend_bind_Ok)%spend_bind_Ok)%spend_bind_Ok.
  apply spend_item_names_NoDup in Hn as [(Hs & _ & Hd)%NoDup_app _]. split_and!; [done|done|].
  revert He. apply spend_all_Forall. intros i b5 b6 H%element_loop_distinct.
  by inversion H.
Qed.

Lemma validate_items_distinct n :
  validate_items n = Ret (Ok tt) → section_distinct (n_source n) ∧ section_distinct (n_key n).
Proof.
  unfold validate_items. destruct (spend_bind _ _) as [r|] eqn:E; [|done]. cbn [obind].
  intros [= Hr]. apply rbind_Ok in Hr as (b & -> & _).
  apply spend_bind_Ok in E as (b1 & _ & (b2 & _ & (b3 & _ & H)%spend_bind_Ok)%spend_bind_Ok).
  apply (spend_all_Forall _ section_distinct) in H; [|intros; by eapply spend_section_distinct].
  rewrite !Forall_cons in H. tauto.
Qed.

(** Equal identities name equal subjects, and only they. *)
Lemma canonical_subject n1 n2 s :
  validate_items n1 = Ret (Ok tt) → canonical n1 = Ret (Ok s) →
  canonical n2 = Ret (Ok s) ↔ same_subject n1 n2.
Proof.
  intros [Hs Hk]%validate_items_distinct Hc1. split.
  - intros Hc2. apply identity_parts_subject, framing_inj. rewrite canonical_spec in Hc1, Hc2.
    destruct (_ <=? _) in Hc1; [|done]. destruct (_ <=? _) in Hc2; [|done]. congruence.
  - intros Hsame. rewrite canonical_spec in *. by rewrite <-(identity_parts_same n1 n2).
Qed.

Lemma canonical_total n : ∃ r, canonical n = Ret r ∧ ∀ s, r = Ok s → str_len s ≤ IDENTITY_SIZE_BYTES_MAX.
Proof.
  rewrite canonical_spec. eexists. split; [done|]. intros s. case_match; [|done]. intros [= <-].
  by apply Z.leb_le.
Qed.
