(* ===== verification/Observation.v ===== *)
(** * Camera event observations

    [src/camera_events/lifecycle/observation.rs]: one normalized observation of a
    camera property or object, its clock, its details and its replay fingerprint.

    [Environment] collects what the tracker takes from elsewhere: the formatting of
    [chrono], the serialized size of [serde_json], SHA-256, the draws of
    [Uuid::new_v4] (numbered), and [normalize] of the [onvif] crate.
    [NormalizerLaws] is what the tracker relies on of [normalize], as its
    documentation states it. *)

From S2P Require Import Prelude CameraEvent.

Record Environment := mk_environment {
  to_rfc3339 : Z → string;
  json_size : Payload → result string Z;
  sha256 : list Z → list Z;
  new_uuid : nat → string;
  normalize : Notification → result string (option Detection)
}.

(** A detection comes from a topic in a recognized namespace, so its path has a
    root; confidences and boxes are finite. *)
Class NormalizerLaws (e : Environment) : Prop := {
  normalize_topic n d : normalize e n = Ok (Some d) → path (n_topic n) ≠ [];
  normalize_confidence n d : normalize e n = Ok (Some d) → no_nan (det_confidence d);
  normalize_box n d : normalize e n = Ok (Some d) → box_no_nan (box_coordinates <$> det_bbox d)
}.

Definition PAYLOAD_BYTES_MAX : Z := 16 * 1024.
Definition CLOCK_SKEW_MS_MAX : Z := 300000.

Inductive Identity :=
| Property (identity : string)
| Object (module : option string) (id : string).

#[export] Instance identity_eq_dec : EqDecision Identity.
Proof. solve_decision. Defined.
#[export] Instance identity_countable : Countable Identity.
Proof.
  refine (inj_countable' (λ i, match i with Property s => inl s | Object m d => inr (m, d) end)
    (λ i, match i with inl s => Property s | inr (m, d) => Object m d end) _).
  by intros [].
Defined.

Inductive Action := ActInitialized (state : bool) | ActActive | ActEnd | ActPoint.

#[export] Instance action_eq_dec : EqDecision Action.
Proof. solve_decision. Defined.

Record Details := mk_details {
  d_confidence : option spec_float;
  d_bbox : option (list spec_float);
  d_text : option string
}.

Record Clock := mk_clock {
  c_camera : Z;
  c_received : Z;
  c_time_ms : Z;
  c_trusted : bool;
  c_timestamp_source : TimestampSource;
  c_reason : option string
}.

Record Observation := mk_observation {
  o_key : Identity;
  o_kind : option Kind;
  o_action : Action;
  o_clock : Clock;
  o_details : Details;
  o_payload : Payload
}.

(** ** Details *)

(** [#[derive(PartialEq)]]: floats compare by IEEE equality. *)
Definition opt_eqb {A : Type} (f : A → A → bool) (a b : option A) : bool :=
  match a, b with
  | Some x, Some y => f x y
  | None, None => true
  | _, _ => false
  end.
Fixpoint list_eqb {A : Type} (f : A → A → bool) (a b : list A) : bool :=
  match a, b with
  | x :: a', y :: b' => f x y && list_eqb f a' b'
  | [], [] => true
  | _, _ => false
  end.
Definition details_eqb (a b : Details) : bool :=
  opt_eqb SFeqb (d_confidence a) (d_confidence b)
  && opt_eqb (list_eqb SFeqb) (d_bbox a) (d_bbox b)
  && opt_eqb str_eqb (d_text a) (d_text b).

Definition merge (self update : Details) : Details :=
  mk_details (option_or (d_confidence update) (d_confidence self))
             (option_or (d_bbox update) (d_bbox self))
             (option_or (d_text update) (d_text self)).

(** ** Clocks *)

(** [DateTime::timestamp_millis]. *)
Definition timestamp_millis (t : Z) : Z := t / 1000000.
Definition abs_diff (a b : Z) : Z := Z.abs (a - b).

Definition has_camera_time (c : Clock) : bool :=
  match c_timestamp_source c with Camera => true | Received _ => false end.

Definition camera_time_in_window (c : Clock) : bool :=
  has_camera_time c && (abs_diff (timestamp_millis (c_camera c)) (c_time_ms c) <=? CLOCK_SKEW_MS_MAX).

Definition clock_new (camera received received_ms : Z) : Clock :=
  let camera_ms := timestamp_millis camera in
  let reason :=
    if CLOCK_SKEW_MS_MAX <? abs_diff camera_ms received_ms then Some "camera_time_out_of_window"
    else if received_ms <? camera_ms then Some "camera_time_in_future"
    else None in
  mk_clock camera received (if is_none reason then camera_ms else received_ms)
           (is_none reason) Camera reason.

Definition clock_notification (n : Notification) (received received_ms : Z) : Clock :=
  match n_timestamp_source n with
  | Camera => clock_new (n_utc_time n) received received_ms
  | Received reason =>
      mk_clock (n_utc_time n) received received_ms false (n_timestamp_source n)
        (Some match reason with
              | Missing => "camera_time_missing"
              | Invalid => "camera_time_invalid"
              end)
  end.

(** [json!] of an optional string, of an optional integer and of a box. *)
Definition json_opt_str (o : option string) : Value :=
  match o with Some s => VString s | None => VNull end.
Definition json_opt_int (o : option Z) : Value :=
  match o with Some z => VInt z | None => VNull end.
Definition json_f32 (x : spec_float) : Value :=
  if is_finite x then VFloat (f64_from_f32 x) else VNull.
Definition json_box (o : option (list spec_float)) : Value :=
  match o with Some l => VArray (json_f32 <$> l) | None => VNull end.

(** [payload.extend([...])]: later entries replace earlier ones. *)
Definition extend (p : Payload) (entries : list (string * Value)) : Payload :=
  foldl (λ p kv, <[kv.1 := kv.2]> p) p entries.

Section observation.
Context (e : Environment).

Definition clock_payload (c : Clock) : Payload :=
  let camera_time := if has_camera_time c then Some (to_rfc3339 e (c_camera c)) else None in
  extend ∅
    [("protocol", VString "onvif");
     ("observation_time_ms", VInt (c_time_ms c));
     ("cameraTime", json_opt_str camera_time);
     ("timestamp_source", VString (if c_trusted c then "camera" else "received"));
     ("timestamp_reason", json_opt_str (c_reason c))].

(** ** Observations *)

Definition known_operation (n : Notification) : bool :=
  match n_property_operation n with
  | None | Some Initialized | Some Changed | Some Deleted => true
  | Some (Other _) => false
  end.

Definition topic_root (root : ExpandedName) : string :=
  "{" +:+ unwrap_or (namespace_uri root) "" +:+ "}" +:+ local_name root.

(** [path[0]] and [path[1..]] panic on an empty path. *)
Definition topic (n : Notification) : outcome string :=
  match path (n_topic n) with
  | [] => Panic
  | root :: segments =>
      Ret (foldl (λ t segment, t +:+ "/" +:+ local_name segment) (topic_root root) segments)
  end.

Definition validate_payload (p : Payload) : result string unit :=
  let? size := json_size e p in
  ensure (size <=? PAYLOAD_BYTES_MAX) "camera event payload exceeds limit".

Definition detection_action (d : Detection) : option Action :=
  match det_operation d with
  | Some Initialized => Some (ActInitialized (unwrap_or (det_active d) false))
  | Some Deleted => Some ActEnd
  | Some Changed =>
      Some match det_active d with
           | Some true => ActActive
           | Some false => ActEnd
           | None => ActPoint
           end
  | None => if is_none (det_active d) then Some ActPoint else None
  | Some (Other _) => None
  end.

Definition detection_details (d : Detection) : Details :=
  mk_details (f64_from_f32 <$> det_confidence d) (box_coordinates <$> det_bbox d) (det_text d).

Definition notification (n : Notification) (d : Detection) (received received_ms : Z)
    : outcome (result string (option Observation)) :=
  match detection_action d with
  | None => Ret (Ok None)
  | Some action =>
      let clock := clock_notification n received received_ms in
      let details := detection_details d in
      let! t := topic n in
      let payload := extend (clock_payload clock)
        [("origin", VString "notification");
         ("topic", VString t);
         ("source_token", json_opt_str (det_source d));
         ("rule", json_opt_str (det_rule d));
         ("identity", VString (det_identity d));
         ("object_box", json_box (d_bbox details));
         ("count", json_opt_int (det_count d))] in
      Ret (let? _ := validate_payload payload in
           Ok (Some (mk_observation (Property (det_identity d)) (Some (det_kind d)) action
                       clock details payload)))
  end.

Definition state (o : Observation) : bool :=
  match o_action o with ActActive | ActInitialized true => true | _ => false end.

(** [n.to_le_bytes()] of [size] bytes. *)
Fixpoint to_le_bytes (size : nat) (z : Z) : list Z :=
  match size with
  | O => []
  | S size' => z mod 256 :: to_le_bytes size' (z / 256)
  end.
Definition hash_text (value : string) : list Z :=
  to_le_bytes 8 (str_len value) ++ bytes_of value.
Definition u8_from (b : bool) : Z := if b then 1 else 0.

Definition fingerprint (o : Observation) : list Z :=
  sha256 e
    ([u8_from (has_camera_time (o_clock o))]
     ++ match o_key o with
        | Property identity => [0] ++ hash_text identity
        | Object module id =>
            [1; u8_from (negb (is_none module))] ++ hash_text (unwrap_or module "") ++ hash_text id
        end
     ++ to_le_bytes 8 (c_camera (o_clock o) / nanos_per_sec)
     ++ to_le_bytes 4 (c_camera (o_clock o) mod nanos_per_sec)
     ++ [match o_action o with
         | ActInitialized false => 0
         | ActInitialized true => 1
         | ActActive => 2
         | ActEnd => 3
         | ActPoint => 4
         end]).

End observation.

(** ** Lemmas *)

Definition details_ok (d : Details) : Prop := no_nan (d_confidence d) ∧ box_no_nan (d_bbox d).

Lemma list_eqb_refl {A} (f : A → A → bool) l : Forall (λ x, f x x = true) l → list_eqb f l l = true.
Proof. induction 1 as [|x l Hx _ IH]; [done|]. simpl. by rewrite Hx, IH. Qed.

(** Details without NaN equal themselves, so publishing them makes an event clean. *)
Lemma details_eqb_refl d : details_ok d → details_eqb d d = true.
Proof.
  intros [Hc Hb]. destruct d as [c b t]. unfold details_eqb. cbn in *.
  apply andb_true_iff; split; [apply andb_true_iff; split|].
  - destruct c; [by apply SFeqb_refl|done].
  - destruct b as [l|]; [|done]. apply list_eqb_refl. eapply Forall_impl; [exact Hb|].
    intros x. apply SFeqb_refl.
  - destruct t; [|done]. simpl. by apply bool_decide_eq_true.
Qed.

Lemma merge_ok a b : details_ok a → details_ok b → details_ok (merge a b).
Proof. intros [? ?] [? ?]. split; cbn; [by destruct (d_confidence b)|by destruct (d_bbox b)]. Qed.

Lemma detection_details_ok e `{NormalizerLaws e} n d :
  normalize e n = Ok (Some d) → details_ok (detection_details d).
Proof.
  intros Hn. split; cbn.
  - pose proof (normalize_confidence n d Hn) as Hc. destruct (det_confidence d); [|done].
    by apply f64_from_f32_nan.
  - by apply (normalize_box n d).
Qed.

(** What a notification becomes, when it becomes an observation. *)
Lemma notification_spec e `{NormalizerLaws e} n d received received_ms :
  normalize e n = Ok (Some d) →
  ∃ r, notification e n d received received_ms = Ret r ∧
    ∀ o, r = Ok (Some o) →
      o_kind o = Some (det_kind d) ∧ o_key o = Property (det_identity d)
      ∧ detection_action d = Some (o_action o) ∧ details_ok (o_details o)
      ∧ (∃ t, o_payload o !! "topic" = Some (VString t))
      ∧ o_clock o = clock_notification n received received_ms.
Proof.
  intros Hn. unfold notification. destruct (detection_action d) as [a|] eqn:Ha; [|by eexists].
  unfold topic. pose proof (normalize_topic n d Hn) as Ht.
  destruct (path (n_topic n)) as [|root segs]; [done|]. cbn [obind]. eexists. split; [done|].
  intros o. destruct (validate_payload _ _) as [[]|]; [|done]. cbn [rbind]. intros [= <-].
  cbn. split_and!; [done|done|done|by apply (detection_details_ok e n)| |done].
  eexists. vm_compute. reflexivity.
Qed.
