(* ===== verification/Normalize.v ===== *)
(** * The ONVIF normalizer

    [crates/onvif/onvif/src/event/normalize.rs]: a notification of a recognized topic
    becomes one detection, or nothing.  The normalizer discharges what the tracker
    relies on ([NormalizerLaws] of Observation.v), so the tracker's theorems hold with
    it in place. *)

From S2P Require Import Prelude CameraEvent OnvifItems OnvifDetails OnvifIdentity Observation.

(** Sequencing of steps that may fail, and abort. *)
Definition step_bind {A B : Type} (m : outcome (result string A)) (k : A → outcome (result string B))
    : outcome (result string B) :=
  let! r := m in match r with Ok a => k a | Err err => Ret (Err err) end.
Notation "'let*' x := m 'in' k" := (step_bind m (λ x, k))
  (at level 10, x pattern, m at level 100, k at level 200,
   format "'[v' 'let*'  x  :=  m  'in' '/' k ']'") : rust_scope.

Definition is_deleted (operation : option PropertyOperation) : bool :=
  match operation with Some Deleted => true | _ => false end.

(** The [active] of a detection; [None] for a notification that reports nothing. *)
Definition detection_active (m : Mapping) (state : State) (deleted : bool) : option (option bool) :=
  if map_point m then
    if negb deleted && (st_unknown state || bool_decide (st_value state = Some false)) then None
    else Some None
  else if deleted then Some (Some false)
  else if st_unknown state || bool_decide (st_value state = None) then None
  else Some (st_value state).

Definition normalize_notification (n : Notification) : outcome (result string (option Detection)) :=
  let* mapping := Ret (lookup_topic (n_topic n)) in
  match mapping with
  | None => Ret (Ok None)
  | Some mapping =>
      let* _ := validate_items n in
      let* details := Ret (parse_details (n_data n)) in
      let* state := Ret (item_state (n_data n) (map_states mapping)) in
      let deleted := is_deleted (n_property_operation n) in
      if deleted && bool_decide (st_value state = Some true)
      then Ret (Err "deleted normalization state is active")
      else
        match detection_active mapping state deleted with
        | None => Ret (Ok None)
        | Some active =>
            match classified_kind mapping (nd_class details) with
            | None => Ret (Ok None)
            | Some kind =>
                if bool_decide (kind = KindObjectCount) && bool_decide (nd_count details = None) && negb deleted
                then Ret (Ok None)
                else
                  let* rule := Ret (item_rule n) in
                  let* identity := canonical n in
                  Ret (Ok (Some (mk_detection kind active (item_source (n_source n)) rule identity
                    (n_utc_time n) (n_property_operation n) (nd_confidence details) (nd_bbox details)
                    (nd_text details) (nd_count details))))
            end
        end
  end.

(** ** Behaviour *)

Lemma step_bind_Ok {A B} (m : outcome (result string A)) (k : A → outcome (result string B)) b :
  step_bind m k = Ret (Ok b) ↔ ∃ a, m = Ret (Ok a) ∧ k a = Ret (Ok b).
Proof. destruct m as [[]|]; cbn; naive_solver. Qed.
Lemma step_bind_total {A B} (m : outcome (result string A)) (k : A → outcome (result string B)) :
  (∃ r, m = Ret r) → (∀ a, m = Ret (Ok a) → ∃ r, k a = Ret r) → ∃ r, step_bind m k = Ret r.
Proof. intros [[a|err] ->] Hk; cbn; [by apply Hk|by eexists]. Qed.

Lemma normalize_total n : ∃ r, normalize_notification n = Ret r.
Proof.
  unfold normalize_notification. apply step_bind_total; [by eexists|]. intros [m|] _; [|by eexists].
  apply step_bind_total; [apply validate_items_total|]. intros _ _.
  apply step_bind_total; [by eexists|]. intros d _. apply step_bind_total; [by eexists|]. intros s _. cbv zeta.
  split_match; [by eexists|]. destruct (detection_active _ _ _) as [active|]; [|by eexists].
  destruct (classified_kind _ _) as [kind|]; [|by eexists]. split_match; [by eexists|].
  apply step_bind_total; [by eexists|]. intros rule _.
  apply step_bind_total; [|by eexists]. destruct (canonical_total n) as (r & -> & _). by eexists.
Qed.

(** What a detection was made from. *)
Record made_from (n : Notification) (d : Detection) (m : Mapping) (x : NDetails) (s : State) : Prop := {
  mf_mapping : lookup_topic (n_topic n) = Ok (Some m);
  mf_valid : validate_items n = Ret (Ok tt);
  mf_details : parse_details (n_data n) = Ok x;
  mf_state : item_state (n_data n) (map_states m) = Ok s;
  mf_active : detection_active m s (is_deleted (n_property_operation n)) = Some (det_active d);
  mf_kind : classified_kind m (nd_class x) = Some (det_kind d);
  mf_count : det_kind d = KindObjectCount → nd_count x ≠ None ∨ is_deleted (n_property_operation n) = true;
  mf_identity : canonical n = Ret (Ok (det_identity d));
  mf_fields : det_confidence d = nd_confidence x ∧ det_bbox d = nd_bbox x ∧ det_text d = nd_text x
              ∧ det_count d = nd_count x ∧ det_utc_time d = n_utc_time n
              ∧ det_operation d = n_property_operation n
}.

Lemma normalize_made n d :
  normalize_notification n = Ret (Ok (Some d)) → ∃ m x s, made_from n d m x s.
Proof.
  unfold normalize_notification. intros ([m|] & [= Hm] & H)%step_bind_Ok; [|done].
  apply step_bind_Ok in H as ([] & Hv & (x & [= Hx] & (s & [= Hs] & H)%step_bind_Ok)%step_bind_Ok).
  cbv zeta in H. revert H. split_match; [done|].
  destruct (detection_active _ _ _) as [active|] eqn:Ha; [|done].
  destruct (classified_kind _ _) as [kind|] eqn:Hk; [|done]. split_match; [done|].
  intros (rule & [= Hr] & (identity & Hi & [= <-])%step_bind_Ok)%step_bind_Ok.
  exists m, x, s. constructor; try done. cbn. intros ->.
  destruct (nd_count x); [by left|]. destruct (is_deleted _); [by right|]. done.
Qed.

(** ** The tracker's normalizer *)

(** [normalize] as a value: it always returns ([normalize_total]). *)
Definition normalize_result (n : Notification) : result string (option Detection) :=
  match normalize_notification n with Ret r => r | Panic => Ok None end.
Lemma normalize_result_spec n : normalize_notification n = Ret (normalize_result n).
Proof. unfold normalize_result. by destruct (normalize_total n) as [r ->]. Qed.

Definition onvif_environment (rfc3339 : Z → string) (size : Payload → result string Z)
    (hash : list Z → list Z) (uuid : nat → string) : Environment :=
  mk_environment rfc3339 size hash uuid normalize_result.

#[export] Instance onvif_laws rfc3339 size hash uuid :
  NormalizerLaws (onvif_environment rfc3339 size hash uuid).
Proof.
  split; intros n d Hn; cbn in Hn; pose proof (normalize_result_spec n) as Hs; rewrite Hn in Hs;
    apply normalize_made in Hs as (m & x & s & [Hm _ Hx _ _ _ _ _ (Hc & Hb & _)]).
  - intros Hp. unfold lookup_topic in Hm. by rewrite Hp in Hm.
  - rewrite Hc. apply confidence_no_nan. by apply parse_details_ok in Hx as [? _ _ _].
  - rewrite Hb. apply parse_details_ok in Hx as [_ Hbox _ _]. destruct (nd_bbox x); [|done]. apply Hbox.
Qed.

(** ** Properties *)

(** C31. Two detections carry the same identity exactly when their notifications are
    about the same subject: the same topic path (an absent namespace being the ONVIF
    topics namespace), and the same Source and Key items up to the order of items and of
    XML attributes, whatever their data, time and operation. *)
Theorem identity_names_subject n1 n2 d1 d2 :
  normalize_notification n1 = Ret (Ok (Some d1)) → normalize_notification n2 = Ret (Ok (Some d2)) →
  det_identity d1 = det_identity d2 ↔ same_subject n1 n2.
Proof.
  intros (m1 & x1 & s1 & [_ Hv _ _ _ _ _ Hi1 _])%normalize_made.
  intros (m2 & x2 & s2 & [_ _ _ _ _ _ _ Hi2 _])%normalize_made.
  rewrite <-(canonical_subject n1 n2 _ Hv Hi1), Hi2. split; [by intros ->|congruence].
Qed.

(** C32. Normalizing any notification returns, and what a detection carries is bounded:
    an identity of at most 4096 bytes, a text of at most 256, a count that fits in 64
    bits, a confidence from 0 to 1, and a box in numbers whose sides are positive and that
    does not pass the right or the bottom edge of the image (as [f32] adds).  An
    object-count detection has a count unless the property was deleted, and a deleted
    property is never reported as active. *)
Theorem normalize_bounds n :
  ∃ r, normalize_notification n = Ret r ∧ ∀ d, r = Ok (Some d) →
    str_len (det_identity d) ≤ 4096
    ∧ (∀ t, det_text d = Some t → str_len t ≤ 256)
    ∧ (∀ k, det_count d = Some k → 0 ≤ k < 2 ^ 64)
    ∧ (∀ c, det_confidence d = Some c → is_finite c = true ∧ SFleb f32_zero c = true ∧ SFleb c f32_one = true)
    ∧ box_ok (det_bbox d)
    ∧ (det_kind d = KindObjectCount → is_Some (det_count d) ∨ det_operation d = Some Deleted)
    ∧ (det_operation d = Some Deleted → det_active d ≠ Some true).
Proof.
  destruct (normalize_total n) as [r Hr]. exists r. split; [done|]. intros d ->.
  apply normalize_made in Hr as (m & x & s & [_ _ Hx _ Ha _ Hk Hi (E1 & E2 & E3 & E4 & _ & E6)]).
  apply parse_details_ok in Hx as [Hc Hb Ht Hn]. rewrite E1, E2, E3, E4, E6. split_and!; try done.
  - destruct (canonical_total n) as (r & Hr & Hlen). rewrite Hi in Hr. injection Hr as <-. by apply Hlen.
  - intros t E. by rewrite E in Ht.
  - intros k E. rewrite E in Hn. unfold count_ok, in_u64, u64_max in Hn. lia.
  - intros c E. by rewrite E in Hc.
  - intros Hkind. destruct (Hk Hkind) as [Hs|Hd]; [left; by destruct (nd_count x)|right].
    by destruct (n_property_operation n) as [[]|].
  - intros Hd He. rewrite Hd, He in Ha. unfold detection_active in Ha. cbn in Ha.
    by destruct (map_point m).
Qed.

(** ** A concrete camera *)

Definition sample_notification (items : list SimpleItem) (state : string) (utc : Z) : Notification :=
  mk_notification (mk_topic "" [mk_name (Some TOPICS) "VideoSource"; mk_name None "MotionAlarm"]) utc Camera
    (Some Changed) (mk_items items []) (mk_items [] []) (mk_items [mk_simple "State" state] []).
Definition sample_items : list SimpleItem := [mk_simple "Source" "front"; mk_simple "Rule" "gate"].

Lemma identity_names_subject_witness :
  ∃ d1 d2, normalize_notification (sample_notification sample_items "on" 5) = Ret (Ok (Some d1))
    ∧ normalize_notification (sample_notification (rev sample_items) "inactive" 9) = Ret (Ok (Some d2))
    ∧ det_active d1 = Some true ∧ det_active d2 = Some false ∧ det_identity d1 = det_identity d2.
Proof.
  eexists _, _. split; [vm_compute; reflexivity|]. split; [vm_compute; reflexivity|].
  split; [reflexivity|]. split; [reflexivity|].
  apply (identity_names_subject (sample_notification sample_items "on" 5)
    (sample_notification (rev sample_items) "inactive" 9)); [vm_compute; reflexivity..|].
  split; [reflexivity|]. split; [|by split; [|exists []]]. split; [|by exists []].
  apply Permutation_rev.
Defined.
