(* ===== verification/EventHistory.v ===== *)
(** * Replay history of camera events

    [src/camera_events/lifecycle/history.rs]: per identity a watermark of the last
    observation, and the fingerprints of the last observations.  Both are bounded:
    the oldest fingerprint leaves a full window, and the oldest watermark that is
    not protected by an open event or a baseline leaves a full table. *)

From S2P Require Import Prelude CameraEvent Observation.

Definition HISTORY_MAX : Z := 1024.

Record Mark := mk_mark {
  m_camera : Z;
  m_received : Z;
  m_in_window_time : option Z;
  m_untrusted_time : option Z;
  m_state : bool;
  m_opened : bool;
  m_kind : option Kind
}.

Record History := mk_history {
  marks : gmap Identity Mark;
  order : list Identity;
  seen : gset (list Z);
  recent : list (list Z)
}.

Definition history_new : History := mk_history ∅ [] ∅ [].

(** [Option::max]: [None] is below every [Some]. *)
Definition option_time_max (a b : option Z) : option Z :=
  match a, b with
  | Some x, Some y => Some (Z.max x y)
  | Some x, None => Some x
  | None, b => b
  end.

Definition open_kind (h : History) (key : Identity) : option Kind :=
  match marks h !! key with
  | Some mark => if m_opened mark then m_kind mark else None
  | None => None
  end.

Section history.
Context (e : Environment).

Definition is_replay (h : History) (o : Observation) : bool :=
  if bool_decide (fingerprint e o ∈ seen h) then true
  else
    match marks h !! o_key o with
    | None => false
    | Some previous =>
        if c_received (o_clock o) <? m_received previous then true
        else if negb (has_camera_time (o_clock o)) then false
        else
          let watermark :=
            if camera_time_in_window (o_clock o) then m_in_window_time previous
            else option_time_max (m_in_window_time previous) (m_untrusted_time previous) in
          is_some_and (λ watermark,
            (c_camera (o_clock o) <? watermark)
            || ((c_camera (o_clock o) =? watermark)
                && negb (bool_decide (o_action o = ActEnd) && m_state previous
                         && (m_camera previous =? c_camera (o_clock o)))))
            watermark
    end.

(** The [for _ in 0..HISTORY_MAX] loop of [evict]; [turns] counts down. *)
Fixpoint evict_loop (turns : nat) (protected : Identity → bool) (h : History) : outcome History :=
  match turns with
  | O => Panic
  | S turns' =>
      match order h with
      | [] => Panic
      | oldest :: rest =>
          if protected oldest
          then evict_loop turns' protected (mk_history (marks h) (rest ++ [oldest]) (seen h) (recent h))
          else Ret (mk_history (delete oldest (marks h)) rest (seen h) (recent h))
      end
  end.

Definition evict (protected : Identity → bool) (h : History) : outcome History :=
  if Z.of_nat (size (marks h)) <? HISTORY_MAX then Ret h
  else evict_loop (Z.to_nat HISTORY_MAX) protected h.

(** The fingerprint window: a full one loses its oldest entry first. *)
Definition remember_fingerprint (h : History) (f : list Z) : outcome History :=
  let! h :=
    if vec_len (recent h) =? HISTORY_MAX then
      match recent h with
      | [] => Panic
      | oldest :: rest => Ret (mk_history (marks h) (order h) (seen h ∖ {[oldest]}) rest)
      end
    else Ret h in
  Ret (if bool_decide (f ∈ seen h) then h
       else mk_history (marks h) (order h) ({[f]} ∪ seen h) (recent h ++ [f])).

(** The watermark an observation leaves. *)
Definition new_mark (previous : option Mark) (o : Observation) (opened : bool) : Mark :=
  mk_mark (c_camera (o_clock o)) (c_received (o_clock o))
    (if camera_time_in_window (o_clock o) then Some (c_camera (o_clock o))
     else previous ≫= m_in_window_time)
    (if camera_time_in_window (o_clock o) || negb (has_camera_time (o_clock o))
     then previous ≫= m_untrusted_time
     else Some (c_camera (o_clock o)))
    (state o) opened (o_kind o).

(** [if !self.marks.contains_key(&observation.key)]: a new identity queues last. *)
Definition enlist (h : History) (key : Identity) (protected : Identity → bool) : outcome History :=
  match marks h !! key with
  | Some _ => Ret h
  | None =>
      let! h := evict protected h in
      Ret (mk_history (marks h) (order h ++ [key]) (seen h) (recent h))
  end.

Definition remember (h : History) (o : Observation) (opened : bool) (protected : Identity → bool)
    : outcome History :=
  let! h := remember_fingerprint h (fingerprint e o) in
  let! h := enlist h (o_key o) protected in
  let h := mk_history (<[o_key o := new_mark (marks h !! o_key o) o opened]> (marks h))
             (order h) (seen h) (recent h) in
  if (Z.of_nat (size (marks h)) =? vec_len (order h))
     && (Z.of_nat (size (marks h)) <=? HISTORY_MAX) && (Z.of_nat (size (seen h)) <=? HISTORY_MAX)
  then Ret h else Panic.

End history.

(** ** Invariant

    [order] lists the identities with a watermark once each, [recent] the remembered
    fingerprints once each, and both fit their bound. *)
Record history_ok (h : History) : Prop := {
  ho_order : NoDup (order h);
  ho_keys : list_to_set (order h) = dom (marks h);
  ho_recent : NoDup (recent h);
  ho_seen : list_to_set (recent h) = seen h;
  ho_marks_max : Z.of_nat (size (marks h)) ≤ HISTORY_MAX;
  ho_recent_max : vec_len (recent h) ≤ HISTORY_MAX
}.

Lemma history_new_ok : history_ok history_new.
Proof. by constructor; cbn; try constructor. Qed.

Lemma history_order_len h : history_ok h → length (order h) = size (marks h).
Proof.
  intros [Hn Hk _ _ _ _]. rewrite <-size_dom, <-Hk. by rewrite size_list_to_set.
Qed.

Lemma history_seen_size h : history_ok h → size (seen h) = length (recent h).
Proof. intros [_ _ Hn Hs _ _]. rewrite <-Hs. by rewrite size_list_to_set. Qed.

(** What one eviction does: an unprotected identity loses its watermark. *)
Record evicted (protected : Identity → bool) (h h' : History) : Prop := {
  evd_ok : history_ok h';
  evd_size : size (marks h) = S (size (marks h'));
  evd_seen : seen h' = seen h;
  evd_recent : recent h' = recent h;
  evd_kept k m : protected k = true → marks h !! k = Some m → marks h' !! k = Some m;
  evd_sub k m : marks h' !! k = Some m → marks h !! k = Some m
}.

Lemma evict_first protected h k rest :
  history_ok h → order h = k :: rest → protected k = false →
  evicted protected h (mk_history (delete k (marks h)) rest (seen h) (recent h)).
Proof.
  intros [H1 H2 H3 H4 H5 H6] Ho Hpk. rewrite Ho in H1, H2. apply NoDup_cons in H1 as [Hk Hrest].
  assert (is_Some (marks h !! k)) as [m Hm].
  { apply elem_of_dom. rewrite <-H2. cbn. set_solver. }
  assert (size (marks h) = S (size (delete k (marks h)))) as Hsz.
  { rewrite <-(insert_delete_id (marks h) k m Hm) at 1. rewrite map_size_insert_None; [done|].
    apply lookup_delete_eq. }
  constructor; cbn; [constructor; cbn; try done|done|done|done| |].
  - rewrite dom_delete_L, <-H2. cbn. apply (not_elem_of_list_to_set (C := gset Identity)) in Hk. set_solver.
  - lia.
  - intros k' m' Hk'. rewrite lookup_delete_ne; [done|]. intros ->. congruence.
  - intros k' m'. apply lookup_delete_Some.
Qed.

(** Rotating the queue keeps the invariant and what an eviction does. *)
Lemma rotate_order_ok h k rest :
  history_ok h → order h = k :: rest → history_ok (mk_history (marks h) (rest ++ [k]) (seen h) (recent h)).
Proof.
  intros [H1 H2 H3 H4 H5 H6] Ho. rewrite Ho in H1, H2.
  constructor; cbn; try done.
  - by rewrite (Permutation_app_comm rest [k]).
  - rewrite list_to_set_app_L, <-H2. cbn. set_solver.
Qed.

(** Eviction finds an unprotected identity when fewer are protected than listed:
    [past] are the protected ones it has rotated to the back. *)
Lemma evict_loop_rotated protected (pin : gset Identity) past : ∀ todo turns h,
  order h = todo ++ past → Forall (λ k, protected k = true) past →
  history_ok h → (∀ k, protected k = true → k ∈ pin) →
  (size pin < length (order h))%nat → (length todo ≤ turns)%nat →
  ∃ h', evict_loop turns protected h = Ret h' ∧ evicted protected h h'.
Proof.
  intros todo. revert past. induction todo as [|k todo IH]; intros past turns h Ho Hd Hok Hp Hs Ht.
  - exfalso. cbn in Ho. rewrite Ho in Hs.
    assert (list_to_set (C:=gset Identity) past ⊆ pin) as Hsub%subseteq_size.
    { intros k Hk. apply elem_of_list_to_set in Hk. rewrite Forall_forall in Hd. by apply Hp, Hd. }
    rewrite size_list_to_set in Hsub; [lia|]. rewrite <-Ho. apply Hok.
  - destruct turns as [|turns]; [cbn in Ht; lia|]. cbn [evict_loop]. rewrite Ho. cbn [app].
    destruct (protected k) eqn:Hpk; [|eexists; split; [done|]; by apply evict_first].
    destruct (IH (past ++ [k]) turns (mk_history (marks h) ((todo ++ past) ++ [k]) (seen h) (recent h)))
      as (h' & He & Hev); try done.
    + cbn. by rewrite app_assoc.
    + apply Forall_app. by repeat constructor.
    + by apply rotate_order_ok.
    + cbn. rewrite Ho in Hs. cbn in Hs. rewrite length_app. cbn. lia.
    + cbn in Ht. lia.
    + exists h'. split; [exact He|]. destruct Hev. by constructor.
Qed.

Lemma evict_ok protected (pin : gset Identity) h :
  history_ok h → (∀ k, protected k = true → k ∈ pin) → Z.of_nat (size pin) < HISTORY_MAX →
  ∃ h', evict protected h = Ret h' ∧ history_ok h' ∧ Z.of_nat (size (marks h')) < HISTORY_MAX
    ∧ seen h' = seen h ∧ recent h' = recent h
    ∧ (∀ k m, protected k = true → marks h !! k = Some m → marks h' !! k = Some m)
    ∧ (∀ k m, marks h' !! k = Some m → marks h !! k = Some m).
Proof.
  intros Hok Hp Hs. unfold evict. destruct (Z.ltb_spec (Z.of_nat (size (marks h))) HISTORY_MAX).
  { by exists h. }
  pose proof (ho_marks_max h Hok). pose proof (history_order_len h Hok).
  destruct (evict_loop_rotated protected pin [] (order h) (Z.to_nat HISTORY_MAX) h) as (h' & He & []);
    try done; [by rewrite app_nil_r|lia|lia|].
  exists h'. split_and!; try done. lia.
Qed.

Lemma remember_fingerprint_ok h f :
  history_ok h → ∃ h', remember_fingerprint h f = Ret h' ∧ history_ok h'
    ∧ marks h' = marks h ∧ order h' = order h ∧ f ∈ seen h'.
Proof.
  intros Hok. pose proof Hok as [H1 H2 H3 H4 H5 H6]. unfold remember_fingerprint.
  assert (∃ h1, (if vec_len (recent h) =? HISTORY_MAX then
      match recent h with
      | [] => Panic
      | oldest :: rest => Ret (mk_history (marks h) (order h) (seen h ∖ {[oldest]}) rest)
      end else Ret h) = Ret h1 ∧ history_ok h1 ∧ marks h1 = marks h ∧ order h1 = order h
      ∧ vec_len (recent h1) < HISTORY_MAX) as (h1 & -> & Hok1 & Hm & Ho & Hlt).
  { destruct (Z.eqb_spec (vec_len (recent h)) HISTORY_MAX) as [Heq|Hne]; [|exists h; split_and!; try done; lia].
    destruct (recent h) as [|f0 rest] eqn:Hr; [done|]. eexists. split; [done|].
    unfold vec_len in *. cbn in *. apply NoDup_cons in H3 as [Hf0 Hrest].
    split_and!; try done; [|lia]. constructor; cbn; try done; [|unfold vec_len; lia].
    rewrite <-H4. cbn. apply (not_elem_of_list_to_set (C := gset (list Z))) in Hf0. set_solver. }
  cbn [obind]. case_bool_decide as Hf; [by exists h1|]. eexists. split; [done|].
  destruct Hok1 as [K1 K2 K3 K4 K5 K6]. cbn. split_and!; [|done|done|set_solver].
  constructor; cbn; try done.
  - apply NoDup_app. split; [done|]. split; [|apply NoDup_singleton].
    intros x Hx ->%list_elem_of_singleton. apply Hf. rewrite <-K4. by apply elem_of_list_to_set.
  - rewrite list_to_set_app_L, K4. cbn. set_solver.
  - unfold vec_len in *. rewrite length_app. cbn. lia.
Qed.

Lemma enlist_ok h key protected (pin : gset Identity) :
  history_ok h → (∀ k, protected k = true → k ∈ pin) → Z.of_nat (size pin) < HISTORY_MAX →
  ∃ h', enlist h key protected = Ret h' ∧ seen h' = seen h ∧ marks h' !! key = marks h !! key
    ∧ (∀ m, history_ok (mk_history (<[key := m]> (marks h')) (order h') (seen h') (recent h')))
    ∧ (∀ k m, protected k = true → marks h !! k = Some m → marks h' !! k = Some m)
    ∧ (∀ k m, marks h' !! k = Some m → marks h !! k = Some m).
Proof.
  intros Hok Hp Hs. unfold enlist. destruct (marks h !! key) as [m0|] eqn:Hm0.
  - exists h. split_and!; try done. intros m. destruct Hok.
    constructor; cbn; try done; [rewrite dom_insert_lookup_L; done|by erewrite map_size_insert_Some].
  - destruct (evict_ok protected pin h Hok Hp Hs) as (h2 & -> & Hok2 & Hlt & Hs2 & Hr2 & Hkeep & Hsub).
    cbn [obind]. eexists. split; [done|]. cbn.
    assert (marks h2 !! key = None) as Hnone.
    { destruct (marks h2 !! key) as [m|] eqn:E; [|done]. apply Hsub in E. congruence. }
    split_and!; try done. intros m. destruct Hok2 as [K1 K2 K3 K4 K5 K6].
    constructor; cbn; try done.
    + apply NoDup_app. split; [done|]. split; [|apply NoDup_singleton].
      intros x Hx ->%list_elem_of_singleton. apply (elem_of_list_to_set (C := gset Identity)) in Hx.
      rewrite K2 in Hx. by apply not_elem_of_dom in Hnone.
    + rewrite list_to_set_app_L, K2, dom_insert_L. cbn. set_solver.
    + rewrite map_size_insert_None by done. lia.
Qed.

(** Remembering an observation never aborts while the protected identities leave
    room; it keeps the marks of protected ones and sets the mark of the observation. *)
Lemma remember_ok e h o opened protected (pin : gset Identity) :
  history_ok h → (∀ k, protected k = true → k ∈ pin) → Z.of_nat (size pin) < HISTORY_MAX →
  ∃ h' previous, remember e h o opened protected = Ret h' ∧ history_ok h'
    ∧ fingerprint e o ∈ seen h' ∧ marks h' !! o_key o = Some (new_mark previous o opened)
    ∧ previous = marks h !! o_key o
    ∧ (∀ k m, k ≠ o_key o → protected k = true → marks h !! k = Some m → marks h' !! k = Some m)
    ∧ (∀ k m, k ≠ o_key o → marks h' !! k = Some m → marks h !! k = Some m).
Proof.
  intros Hok Hp Hs. unfold remember.
  destruct (remember_fingerprint_ok h (fingerprint e o) Hok) as (h1 & -> & Hok1 & Hm1 & Ho1 & Hf).
  cbn [obind].
  destruct (enlist_ok h1 (o_key o) protected pin Hok1 Hp Hs) as (h2 & -> & Hseen & Hprev & Hok2 & Hkeep & Hsub).
  cbn [obind]. cbn [marks order seen].
  set (m := new_mark _ _ _). specialize (Hok2 m).
  pose proof (history_order_len _ Hok2) as Hlen. pose proof (history_seen_size _ Hok2) as Hsz.
  cbn in Hlen, Hsz. pose proof (ho_marks_max _ Hok2). pose proof (ho_recent_max _ Hok2).
  unfold vec_len in *. cbn in *. rewrite <-Hlen, Hsz, Z.eqb_refl.
  rewrite !(proj2 (Z.leb_le _ _)) by lia. cbn.
  eexists _, _. split; [done|]. split; [done|]. cbn. split; [congruence|].
  split; [apply lookup_insert_eq|]. split; [congruence|]. rewrite <-Hm1.
  split; intros k m' Hk; rewrite lookup_insert_ne by done; [apply Hkeep|apply Hsub].
Qed.
