(* ===== verification/Tracker.v ===== *)
(** * Camera event lifecycles

    [src/camera_events/lifecycle.rs] and [lifecycle/objects.rs]: one camera's open
    events, initialized baselines, replay history and deferred final revisions, and
    the operations that turn notifications, analytics frames, deadlines and transport
    losses into timeline commands.

    Identifiers are drawn from [Uuid::new_v4]: the [nat] beside a tracker counts the
    draws so far.  [iter] lists the entries of the active [HashMap] in the order the
    code meets them, which the map does not determine; [MapOrder] is all that is
    assumed of it.  [kinds], [active_count] and [deduplicated] are reads. *)

From S2P Require Import Prelude CameraEvent Observation EventHistory.

Definition ACTIVE_MAX : Z := 128.
Definition BASELINE_MAX : Z := 128.
Definition UPDATE_INTERVAL : Z := from_secs 1.
Definition PROPERTY_TIMEOUT : Z := from_secs 30.
Definition OBJECT_TIMEOUT : Z := from_secs 5.
Definition OBJECTS_MAX : Z := 128.
Definition STRING_BYTES_MAX : Z := 256.

Record Active := mk_active {
  a_event : TimelineEvent;
  a_details : Details;
  a_published : Details;
  a_last_seen : Z;
  a_last_time_ms : Z;
  a_last_published : Z;
  a_last_camera_time : Z;
  a_pullpoint : bool;
  a_metadata : bool
}.

Inductive Transport := PullPoint | Metadata.

Record Tracker := mk_tracker {
  t_camera_id : string;
  t_policy : EventConfig;
  t_record_motion : bool;
  t_active : gmap Identity Active;
  t_baselines : gset Identity;
  t_history : History;
  t_pending : list Active;
  t_deduplicated : Z
}.

Definition tracker_new (camera_id : string) (policy : EventConfig) (record_motion : bool) : Tracker :=
  mk_tracker camera_id policy record_motion ∅ ∅ history_new [] 0.

(** Field updates. *)
Definition with_active (t : Tracker) (m : gmap Identity Active) : Tracker :=
  mk_tracker (t_camera_id t) (t_policy t) (t_record_motion t) m (t_baselines t) (t_history t)
    (t_pending t) (t_deduplicated t).
Definition with_baselines (t : Tracker) (b : gset Identity) : Tracker :=
  mk_tracker (t_camera_id t) (t_policy t) (t_record_motion t) (t_active t) b (t_history t)
    (t_pending t) (t_deduplicated t).
Definition with_history (t : Tracker) (h : History) : Tracker :=
  mk_tracker (t_camera_id t) (t_policy t) (t_record_motion t) (t_active t) (t_baselines t) h
    (t_pending t) (t_deduplicated t).
Definition with_pending (t : Tracker) (p : list Active) : Tracker :=
  mk_tracker (t_camera_id t) (t_policy t) (t_record_motion t) (t_active t) (t_baselines t)
    (t_history t) p (t_deduplicated t).
Definition with_deduplicated (t : Tracker) (n : Z) : Tracker :=
  mk_tracker (t_camera_id t) (t_policy t) (t_record_motion t) (t_active t) (t_baselines t)
    (t_history t) (t_pending t) n.

(** What the mutating operations thread: the tracker, the identifiers drawn so far
    and the commands pushed to [changes]. *)
Record Run := mk_run {
  r_tracker : Tracker;
  r_draws : nat;
  r_changes : list KeepPeekEvent
}.
Definition push_change (r : Run) (c : KeepPeekEvent) : Run :=
  mk_run (r_tracker r) (r_draws r) (r_changes r ++ [c]).
Definition push_some (r : Run) (c : option KeepPeekEvent) : Run :=
  match c with Some c => push_change r c | None => r end.
Definition on_tracker (r : Run) (f : Tracker → Tracker) : Run :=
  mk_run (f (r_tracker r)) (r_draws r) (r_changes r).

Definition slots_used (t : Tracker) : Z := Z.of_nat (size (t_active t)) + vec_len (t_pending t).

(** ** Active events *)

Definition dirty (a : Active) : bool := negb (details_eqb (a_details a) (a_published a)).

Definition deferred (a : Active) (now : Z) : bool :=
  dirty a && (saturating_duration_since now (a_last_published a) <? UPDATE_INTERVAL).

Definition flush (a : Active) (now : Z) : option KeepPeekEvent * Active :=
  if negb (dirty a) || deferred a now then (None, a)
  else (Some (TimelineEventImages (a_event a) []),
        mk_active (a_event a) (a_details a) (a_details a) (a_last_seen a) (a_last_time_ms a) now
          (a_last_camera_time a) (a_pullpoint a) (a_metadata a)).

(** The fields of an event that a new observation replaces. *)
Definition revise_event (ev : TimelineEvent) (d : Details) (p : Payload) : TimelineEvent :=
  mk_timeline (ev_id ev) (ev_revision ev) (ev_camera_id ev) (ev_stream ev) (ev_source ev)
    (ev_kind ev) (ev_start_time_ms ev) (ev_end_time_ms ev) (d_confidence d) (ev_bbox ev)
    (ev_bbox_attachment_id ev) (ev_zone ev) (d_text d)
    (Some (<["object_box" := json_box (d_bbox d)]> p)) (ev_attachments ev)
    (ev_canonical_attachment_id ev) (ev_icon_key ev) (ev_rejected_icon_key ev)
    (ev_thumbnail_filename ev).

Definition observe (a : Active) (o : Observation) : Active :=
  let d := merge (a_details a) (o_details o) in
  mk_active (revise_event (a_event a) d (o_payload o)) d (a_published a)
    (Z.max (a_last_seen a) (c_received (o_clock o)))
    (Z.max (a_last_time_ms a) (c_time_ms (o_clock o))) (a_last_published a)
    (c_camera (o_clock o)) (a_pullpoint a) (a_metadata a).

Definition end_event (ev : TimelineEvent) (end_time_ms : Z) : TimelineEvent :=
  mk_timeline (ev_id ev) (ev_revision ev) (ev_camera_id ev) (ev_stream ev) (ev_source ev)
    (ev_kind ev) (ev_start_time_ms ev) (Some end_time_ms) (ev_confidence ev) (ev_bbox ev)
    (ev_bbox_attachment_id ev) (ev_zone ev) (ev_text ev) (ev_payload ev) (ev_attachments ev)
    (ev_canonical_attachment_id ev) (ev_icon_key ev) (ev_rejected_icon_key ev)
    (ev_thumbnail_filename ev).
Definition with_event (a : Active) (ev : TimelineEvent) : Active :=
  mk_active ev (a_details a) (a_published a) (a_last_seen a) (a_last_time_ms a)
    (a_last_published a) (a_last_camera_time a) (a_pullpoint a) (a_metadata a).

(** [Some(active.event.kind.as_str()) == kind.map(Kind::as_str)]. *)
Definition same_kind (a : Active) (k : option Kind) : bool :=
  match k with Some k => str_eqb (ev_kind (a_event a)) (kind_as_str k) | None => false end.

Definition mark_transport (a : Active) (t : Transport) (b : bool) : Active :=
  mk_active (a_event a) (a_details a) (a_published a) (a_last_seen a) (a_last_time_ms a)
    (a_last_published a) (a_last_camera_time a)
    (match t with PullPoint => b | Metadata => a_pullpoint a end)
    (match t with PullPoint => a_metadata a | Metadata => b end).

(** ** The tracker *)

Section tracker.
Context (e : Environment) (iter : gmap Identity Active → list (Identity * Active)).

Definition close (r : Run) (key : Identity) (time_ms now : option Z) : outcome Run :=
  match t_active (r_tracker r) !! key with
  | None => Ret r
  | Some a =>
      let r := on_tracker r (λ t, with_active t (delete key (t_active t))) in
      let '(update, a) := match now with Some now => flush a now | None => (None, a) end in
      let r := push_some r update in
      let end_time_ms :=
        Z.max (Z.max (unwrap_or time_ms (a_last_time_ms a)) (a_last_time_ms a))
              (ev_start_time_ms (a_event a)) in
      let r := push_change r (TimelineEventEnded (ev_id (a_event a)) end_time_ms) in
      let r :=
        if dirty a
        then on_tracker r (λ t, with_pending t
               (t_pending t ++ [with_event a (end_event (a_event a) end_time_ms)]))
        else r in
      if slots_used (r_tracker r) <=? ACTIVE_MAX then Ret r else Panic
  end.

Definition new_event (t : Tracker) (draw : nat) (o : Observation) (kind : Kind) : TimelineEvent :=
  mk_timeline (new_uuid e draw) 1 (t_camera_id t) None SourceCamera (kind_as_str kind)
    (c_time_ms (o_clock o)) None (d_confidence (o_details o)) None None None
    (d_text (o_details o)) (Some (o_payload o)) [] None (fallback_event_icon (kind_as_str kind))
    None None.

Definition upsert (r : Run) (o : Observation) : outcome Run :=
  match o_kind o with
  | None => Panic
  | Some kind =>
      let! r :=
        if is_some_and (λ a, negb (str_eqb (ev_kind (a_event a)) (kind_as_str kind)))
             (t_active (r_tracker r) !! o_key o)
        then close r (o_key o) (Some (c_time_ms (o_clock o))) (Some (c_received (o_clock o)))
        else Ret r in
      Ret match t_active (r_tracker r) !! o_key o with
          | Some a =>
              let '(update, a) := flush (observe a o) (c_received (o_clock o)) in
              push_some (on_tracker r (λ t, with_active t (<[o_key o := a]> (t_active t)))) update
          | None =>
              let event := new_event (r_tracker r) (r_draws r) o kind in
              let r := push_change (mk_run (r_tracker r) (S (r_draws r)) (r_changes r))
                         (TimelineEventStarted event) in
              on_tracker r (λ t, with_active t
                (<[o_key o := mk_active event (o_details o) (o_details o) (c_received (o_clock o))
                                (c_time_ms (o_clock o)) (c_received (o_clock o))
                                (c_camera (o_clock o)) false false]> (t_active t)))
          end
  end.

(** The [match observation.action] of [commit]. *)
Definition act (r : Run) (o : Observation) (was_open : bool) : outcome Run :=
  match o_action o with
  | ActInitialized st =>
      Ret (if st && negb was_open
           then on_tracker r (λ t, with_baselines t ({[o_key o]} ∪ t_baselines t))
           else if negb st
           then on_tracker r (λ t, with_baselines t (t_baselines t ∖ {[o_key o]}))
           else r)
  | ActEnd =>
      close (on_tracker r (λ t, with_baselines t (t_baselines t ∖ {[o_key o]})))
        (o_key o) (Some (c_time_ms (o_clock o))) (Some (c_received (o_clock o)))
  | ActActive =>
      if bool_decide (o_key o ∈ t_baselines (r_tracker r)) then Ret r else upsert r o
  | ActPoint =>
      match o_kind o with
      | None => Panic
      | Some kind =>
          let event := new_event (r_tracker r) (r_draws r) o kind in
          Ret (push_change (mk_run (r_tracker r) (S (r_draws r)) (r_changes r))
                 (TimelineEventStarted (end_event event (ev_start_time_ms event))))
      end
  end.

Definition is_protected (t : Tracker) (key : Identity) : bool :=
  negb (is_none (t_active t !! key)) || bool_decide (key ∈ t_baselines t).

Definition commit (r : Run) (o : Observation) : outcome Run :=
  let was_open := negb (is_none (open_kind (t_history (r_tracker r)) (o_key o))) in
  let! r := act r o was_open in
  let opened := negb (is_none (t_active (r_tracker r) !! o_key o))
                || (bool_decide (o_action o = ActInitialized true) && was_open) in
  let! h := remember e (t_history (r_tracker r)) o opened (is_protected (r_tracker r)) in
  Ret (on_tracker r (λ t, with_history t h)).

(** ** Admission *)

Definition validate_policy (t : Tracker) : result string unit :=
  let? _ := ensure (str_len (t_camera_id t) <=? 256) "camera event owner exceeds limit" in
  let? _ := ensure (vec_len (source_tokens (t_policy t)) <=? 32)
              "event source filter count exceeds limit" in
  ensure (saturating_add usize_max (vec_len (include_topics (t_policy t)))
            (vec_len (exclude_topics (t_policy t))) <=? 32)
    "event topic filter count exceeds limit".

Definition accepts_topic (t : Tracker) (topic : Value) : bool :=
  match topic with
  | VString topic =>
      negb (existsb (λ filter, str_eqb filter topic) (exclude_topics (t_policy t)))
      && ((vec_len (include_topics (t_policy t)) =? 0)
          || existsb (λ filter, str_eqb filter topic) (include_topics (t_policy t)))
  | _ => false
  end.

Definition retained_kind (t : Tracker) (key : Identity) (kind : Kind) : Kind :=
  match kind with
  | KindMotion | KindIntrusion | KindLoitering => unwrap_or (open_kind (t_history t) key) kind
  | _ => kind
  end.

Definition needs_slot (t : Tracker) (o : Observation) : bool :=
  is_none_or (λ a, negb (same_kind a (o_kind o)) && deferred a (c_received (o_clock o)))
    (t_active t !! o_key o).

Definition check_capacity (t : Tracker) (o : Observation) : result string unit :=
  let? _ :=
    if bool_decide (o_action o = ActInitialized true) && negb (bool_decide (o_key o ∈ t_baselines t))
       && is_none (open_kind (t_history t) (o_key o))
    then ensure (Z.of_nat (size (t_baselines t)) <? BASELINE_MAX)
           "camera event baseline capacity reached"
    else Ok tt in
  if bool_decide (o_action o = ActActive) && negb (bool_decide (o_key o ∈ t_baselines t))
  then ensure (negb (needs_slot t o) || (slots_used t <? ACTIVE_MAX))
         "camera event active capacity reached"
  else Ok tt.

Definition prepare_details (t : Tracker) (o : Observation) : result string Observation :=
  let details :=
    match t_active t !! o_key o with
    | Some a => if same_kind a (o_kind o) then merge (a_details a) (o_details o) else o_details o
    | None => o_details o
    end in
  let payload := <["object_box" := json_box (d_bbox details)]> (o_payload o) in
  let? _ := validate_payload e payload in
  Ok (mk_observation (o_key o) (o_kind o) (o_action o) (o_clock o) details payload).

Definition with_kind (o : Observation) (k : option Kind) : Observation :=
  mk_observation (o_key o) k (o_action o) (o_clock o) (o_details o) (o_payload o).

(** The filters a detection passes in [prepare_notification] after [notification]. *)
Definition admit_observation (t : Tracker) (o : Observation) : outcome (option Observation) :=
  match o_payload o !! "topic" with
  | None => Panic
  | Some topic =>
      Ret (if negb (accepts_topic t topic) then None
           else
             let o := with_kind o (retained_kind t (o_key o) <$> o_kind o) in
             if bool_decide (o_kind o = Some KindMotion) && negb (t_record_motion t)
                && negb (bool_decide (o_action o = ActEnd)
                         || bool_decide (o_action o = ActInitialized false))
             then None
             else Some o)
  end.

Definition prepare_notification (t : Tracker) (n : Notification) (received received_ms : Z)
    : outcome (result string (option Observation)) :=
  match validate_policy t with
  | Err err => Ret (Err err)
  | Ok _ =>
      if bool_decide (mode (t_policy t) = ModeDisabled) || negb (known_operation n)
      then Ret (Ok None)
      else
        match normalize e n with
        | Err err => Ret (Err err)
        | Ok None => Ret (Ok None)
        | Ok (Some d) =>
            if negb (vec_len (source_tokens (t_policy t)) =? 0)
               && negb (existsb (λ token, bool_decide (det_source d = Some token))
                          (source_tokens (t_policy t)))
            then Ret (Ok None)
            else
              let! r := notification e n d received received_ms in
              match r with
              | Err err => Ret (Err err)
              | Ok None => Ret (Ok None)
              | Ok (Some o) => let! o := admit_observation t o in Ret (Ok o)
              end
        end
  end.

Definition remember_transport (t : Tracker) (key : Identity) (camera_time : Z) (kind : option Kind)
    (transport : Transport) : Tracker :=
  match t_active t !! key with
  | Some a =>
      if (a_last_camera_time a =? camera_time) && same_kind a kind
      then with_active t (<[key := mark_transport a transport true]> (t_active t))
      else t
  | None => t
  end.

Definition is_active_action (o : Observation) : bool := bool_decide (o_action o = ActActive).

(** Operations return the commands or the error, and the state they leave. *)
Notation World := (Tracker * nat)%type.
Notation Reply := (result string (list KeepPeekEvent) * (Tracker * nat))%type.

Definition count_duplicate (t : Tracker) (n : Z) : Tracker :=
  with_deduplicated t (saturating_add u64_max (t_deduplicated t) n).

Definition apply_from (w : World) (n : Notification) (received received_ms : Z)
    (transport : Transport) : outcome Reply :=
  let '(t, draws) := w in
  let! prepared := prepare_notification t n received received_ms in
  match prepared with
  | Err err => Ret (Err err, w)
  | Ok None => Ret (Ok [], w)
  | Ok (Some o) =>
      let touch := λ t o, if is_active_action o
        then remember_transport t (o_key o) (c_camera (o_clock o)) (o_kind o) transport else t in
      if is_replay e (t_history t) o
      then Ret (Ok [], (count_duplicate (touch t o) 1, draws))
      else
        match (let? o := prepare_details t o in let? _ := check_capacity t o in Ok o) with
        | Err err => Ret (Err err, w)
        | Ok o =>
            let! r := commit (mk_run t draws []) o in
            Ret (Ok (r_changes r), (touch (r_tracker r) o, r_draws r))
        end
  end.

Definition apply (w : World) (n : Notification) (received received_ms : Z) : outcome Reply :=
  apply_from w n received received_ms PullPoint.

Definition apply_metadata (w : World) (n : Notification) (received received_ms : Z) : outcome Reply :=
  if bool_decide (metadata_stream (t_policy w.1) = MetadataDisabled) then Ret (Ok [], w)
  else apply_from w n received received_ms Metadata.

(** ** Analytics frames *)

Definition validate_id (id : string) : result string unit :=
  ensure (negb (str_is_empty id) && (str_len id <=? STRING_BYTES_MAX))
    "camera metadata object identity exceeds limit".

Definition unit_range (x : spec_float) : bool := is_finite x && range_contains f32_zero f32_one x.

Definition validate_object (o : FrameObject) : result string unit :=
  let? _ := ensure (is_none_or unit_range (obj_confidence o)) "camera metadata confidence is invalid" in
  let? _ := ensure (is_none_or (λ text, str_len text <=? STRING_BYTES_MAX) (obj_text o))
              "camera metadata text exceeds limit" in
  match obj_bbox o with
  | None => Ok tt
  | Some b =>
      ensure (forallb unit_range (box_coordinates b)
              && SFltb f32_zero (box_width b) && SFltb f32_zero (box_height b)
              && SFleb (f32_add (box_x b) (box_width b)) f32_one
              && SFleb (f32_add (box_y b) (box_height b)) f32_one)
        "camera metadata box is invalid"
  end.

Fixpoint validate_ids (ids : list string) (identities : gset string) : result string (gset string) :=
  match ids with
  | [] => Ok identities
  | id :: ids' =>
      let? _ := validate_id id in
      let? _ := ensure (negb (bool_decide (id ∈ identities)))
                  "camera metadata repeats an object identity" in
      validate_ids ids' ({[id]} ∪ identities)
  end.

Fixpoint validate_objects (objects : list FrameObject) (identities : gset string) : result string unit :=
  match objects with
  | [] => Ok tt
  | o :: objects' =>
      let? _ := validate_id (obj_id o) in
      let? _ := ensure (negb (bool_decide (obj_id o ∈ identities)))
                  "camera metadata repeats an object identity" in
      let? _ := validate_object o in
      validate_objects objects' ({[obj_id o]} ∪ identities)
  end.

Definition validate_frame (f : Frame) : result string unit :=
  let? _ := ensure ((vec_len (f_objects f) <=? OBJECTS_MAX) && (vec_len (f_deleted_ids f) <=? OBJECTS_MAX))
              "camera metadata object count exceeds limit" in
  let? _ := ensure (is_none_or (λ source, str_len source <=? STRING_BYTES_MAX) (f_source f))
              "camera metadata module exceeds limit" in
  let? identities := validate_ids (f_deleted_ids f) ∅ in
  validate_objects (f_objects f) identities.

Definition frame_identity (f : Frame) (id : string) : Identity := Object (f_source f) id.

Definition deleted_observation (t : Tracker) (f : Frame) (received received_ms : Z) (id : string)
    : Observation :=
  mk_observation (frame_identity f id) (open_kind (t_history t) (frame_identity f id)) ActEnd
    (clock_new (f_utc_time f) received received_ms) (mk_details None None None) ∅.

Definition object_observation (t : Tracker) (f : Frame) (received received_ms : Z) (o : FrameObject)
    : option Observation :=
  let key := frame_identity f (obj_id o) in
  let known := if is_none (t_active t !! key) then None else open_kind (t_history t) key in
  match option_or (kind_from_class <$> obj_class o) known with
  | None => None
  | Some kind =>
      let clock := clock_new (f_utc_time f) received received_ms in
      let details := mk_details
        (if is_none (obj_class o) then None else f64_from_f32 <$> obj_confidence o)
        (box_coordinates <$> obj_bbox o) (obj_text o) in
      let payload := extend (clock_payload e clock)
        [("origin", VString "metadata");
         ("topic", VNull);
         ("source_token", VNull);
         ("rule", VNull);
         ("analytics_module", json_opt_str (f_source f));
         ("object_id", VString (obj_id o));
         ("object_box", json_box (d_bbox details))] in
      Some (mk_observation key (Some kind) ActActive clock details payload)
  end.

Definition prepare_frame (t : Tracker) (f : Frame) (received received_ms : Z)
    : result string (list Observation) :=
  let? _ := validate_frame f in
  Ok ((deleted_observation t f received received_ms <$> f_deleted_ids f)
      ++ omap (object_observation t f received received_ms) (f_objects f)).

Fixpoint slots_loop (t : Tracker) (os : list Observation) (slots : Z) : outcome Z :=
  match os with
  | [] => Ret slots
  | o :: os' =>
      let! slots :=
        match o_action o with
        | ActEnd =>
            if is_some_and (λ a, negb (deferred a (c_received (o_clock o)))) (t_active t !! o_key o)
            then plain_sub slots 1 else Ret slots
        | ActActive => if needs_slot t o then plain_add usize_max slots 1 else Ret slots
        | _ => Ret slots
        end in
      slots_loop t os' slots
  end.

Definition check_frame_capacity (t : Tracker) (os : list Observation) : outcome (result string unit) :=
  let! slots := slots_loop t os (slots_used t) in
  Ret (ensure (slots <=? ACTIVE_MAX) "camera event active capacity reached").

Fixpoint prepare_all (t : Tracker) (os : list Observation) : result string (list Observation) :=
  match os with
  | [] => Ok []
  | o :: os' =>
      let? o := prepare_details t o in
      let? os' := prepare_all t os' in
      Ok (o :: os')
  end.

Fixpoint commit_all (r : Run) (os : list Observation) : outcome Run :=
  match os with
  | [] => Ret r
  | o :: os' => let! r := commit r o in commit_all r os'
  end.

Definition frame (w : World) (f : Frame) (received received_ms : Z) : outcome Reply :=
  let '(t, draws) := w in
  match validate_policy t with
  | Err err => Ret (Err err, w)
  | Ok _ =>
      if bool_decide (mode (t_policy t) = ModeDisabled)
         || bool_decide (metadata_stream (t_policy t) = MetadataDisabled)
      then Ret (Ok [], w)
      else
        match prepare_frame t f received received_ms with
        | Err err => Ret (Err err, w)
        | Ok observations =>
            let fresh := filter (λ o, is_replay e (t_history t) o = false) observations in
            let duplicates := vec_len observations - vec_len fresh in
            match prepare_all t fresh with
            | Err err => Ret (Err err, w)
            | Ok fresh =>
                let! capacity := check_frame_capacity t fresh in
                match capacity with
                | Err err => Ret (Err err, w)
                | Ok _ =>
                    let! r := commit_all (mk_run (count_duplicate t duplicates) draws []) fresh in
                    Ret (Ok (r_changes r), (r_tracker r, r_draws r))
                end
            end
        end
  end.

(** ** Deadlines and transport loss *)

(** [pending.retain_mut]: publishes what is due and keeps what is still dirty. *)
Fixpoint flush_pending (pending : list Active) (now : Z) : list KeepPeekEvent * list Active :=
  match pending with
  | [] => ([], [])
  | a :: pending' =>
      let '(update, a) := flush a now in
      let '(changes, kept) := flush_pending pending' now in
      (option_list update ++ changes, if dirty a then a :: kept else kept)
  end.

Definition timeout (key : Identity) : Z :=
  match key with Property _ => PROPERTY_TIMEOUT | Object _ _ => OBJECT_TIMEOUT end.
Definition is_expired (now : Z) (entry : Identity * Active) : bool :=
  timeout entry.1 <=? saturating_duration_since now (a_last_seen entry.2).

Fixpoint close_all (r : Run) (keys : list Identity) (now : option Z) : outcome Run :=
  match keys with
  | [] => Ret r
  | key :: keys' => let! r := close r key None now in close_all r keys' now
  end.

(** The final loop over [active.values_mut()]. *)
Definition flush_active (r : Run) (entry : Identity * Active) (now : Z) : Run :=
  let '(update, a) := flush entry.2 now in
  push_some (on_tracker r (λ t, with_active t (<[entry.1 := a]> (t_active t)))) update.

Definition expire (w : World) (now : Z) : outcome (list KeepPeekEvent * World) :=
  let '(t, draws) := w in
  let '(changes, pending) := flush_pending (t_pending t) now in
  let expired := (filter (λ entry, is_expired now entry = true) (iter (t_active t))).*1 in
  let! r := close_all (mk_run (with_pending t pending) draws changes) expired (Some now) in
  let r := foldl (λ r entry, flush_active r entry now) r (iter (t_active (r_tracker r))) in
  Ret (r_changes r, (r_tracker r, r_draws r)).

Definition disconnect (w : World) : outcome (list KeepPeekEvent * World) :=
  let '(t, draws) := w in
  let! r := close_all (mk_run t draws []) (iter (t_active t)).*1 None in
  Ret (r_changes r, (r_tracker r, r_draws r)).

(** What losing [transport] makes of an entry, and whether it closes it. *)
Definition lose_transport (transport : Transport) (key : Identity) (a : Active) : Active :=
  match key with Property _ => mark_transport a transport false | Object _ _ => a end.
Definition closes_on_loss (transport : Transport) (entry : Identity * Active) : bool :=
  match entry.1 with
  | Object _ _ => match transport with Metadata => true | PullPoint => false end
  | Property _ =>
      let a := mark_transport entry.2 transport false in negb (a_pullpoint a) && negb (a_metadata a)
  end.

Definition disconnect_transport (w : World) (transport : Transport)
    : outcome (list KeepPeekEvent * World) :=
  let '(t, draws) := w in
  let keys := (filter (λ entry, closes_on_loss transport entry = true) (iter (t_active t))).*1 in
  let t := with_active t (map_imap (λ key a, Some (lose_transport transport key a)) (t_active t)) in
  let! r := close_all (mk_run t draws []) keys None in
  Ret (r_changes r, (r_tracker r, r_draws r)).

Definition disconnect_metadata (w : World) : outcome (list KeepPeekEvent * World) :=
  disconnect_transport w Metadata.
Definition disconnect_pullpoint (w : World) : outcome (list KeepPeekEvent * World) :=
  disconnect_transport w PullPoint.

End tracker.

(** All that is assumed of the iteration order of a [HashMap]. *)
Class MapOrder (iter : gmap Identity Active → list (Identity * Active)) : Prop :=
  map_order m : iter m ≡ₚ map_to_list m.
