(* ===== verification/TrackerInv.v ===== *)
(** * Invariants of the camera event tracker

    [tracker_ok] is the memory invariant: open and deferred events, baselines and
    history fit their budgets, and no stored detail is NaN (so publishing details
    makes an event clean, which the capacity checks rely on).

    [Timeline] is the abstract contract of the command stream: identifiers start
    once, end at most once while open and never before their start, and revisions
    name a started event, with its end exactly when it has ended.  [linked] relates
    it to a tracker. *)

From S2P Require Import Prelude CameraEvent Observation EventHistory Tracker.

(** ** The timeline specification *)

Record Timeline := mk_tl {
  tl_started : gmap string Z;
  tl_open : gset string
}.
Definition tl_new : Timeline := mk_tl ∅ ∅.

Definition tl_apply (tl : Timeline) (c : KeepPeekEvent) : option Timeline :=
  match c with
  | TimelineEventStarted ev =>
      match tl_started tl !! ev_id ev with
      | Some _ => None
      | None =>
          Some (mk_tl (<[ev_id ev := ev_start_time_ms ev]> (tl_started tl))
                  (if is_none (ev_end_time_ms ev) then {[ev_id ev]} ∪ tl_open tl else tl_open tl))
      end
  | TimelineEventImages ev _ =>
      if bool_decide (tl_started tl !! ev_id ev = Some (ev_start_time_ms ev))
         && eqb (bool_decide (ev_id ev ∈ tl_open tl)) (is_none (ev_end_time_ms ev))
      then Some tl else None
  | TimelineEventEnded id end_time_ms =>
      match tl_started tl !! id with
      | Some start =>
          if bool_decide (id ∈ tl_open tl) && (start <=? end_time_ms)
          then Some (mk_tl (tl_started tl) (tl_open tl ∖ {[id]})) else None
      | None => None
      end
  end.

Fixpoint tl_exec (tl : Timeline) (cs : list KeepPeekEvent) : option Timeline :=
  match cs with
  | [] => Some tl
  | c :: cs' => tl_apply tl c ≫= λ tl, tl_exec tl cs'
  end.

Lemma tl_exec_app tl cs cs' : tl_exec tl (cs ++ cs') = tl_exec tl cs ≫= λ tl, tl_exec tl cs'.
Proof.
  revert tl. induction cs as [|c cs IH]; intros tl; [done|]. cbn.
  destruct (tl_apply tl c); cbn; [apply IH|done].
Qed.

(** ** Invariants *)

Definition event_of (a : Active) : string := ev_id (a_event a).

Definition a_ok (a : Active) : Prop := details_ok (a_details a) ∧ details_ok (a_published a).

Record tracker_ok (t : Tracker) : Prop := {
  to_slots : slots_used t ≤ ACTIVE_MAX;
  to_baselines : Z.of_nat (size (t_baselines t)) ≤ BASELINE_MAX;
  to_history : history_ok (t_history t);
  to_active : map_Forall (λ _, a_ok) (t_active t);
  to_pending : Forall a_ok (t_pending t)
}.

(** An event the tracker holds open, and one whose final revision is deferred. *)
Definition opened_in (tl : Timeline) (a : Active) : Prop :=
  tl_started tl !! event_of a = Some (ev_start_time_ms (a_event a))
  ∧ event_of a ∈ tl_open tl ∧ ev_end_time_ms (a_event a) = None.
Definition ended_in (tl : Timeline) (a : Active) : Prop :=
  tl_started tl !! event_of a = Some (ev_start_time_ms (a_event a))
  ∧ event_of a ∉ tl_open tl ∧ is_Some (ev_end_time_ms (a_event a)).

Record linked (e : Environment) (t : Tracker) (draws : nat) (tl : Timeline) : Prop := {
  lk_active : map_Forall (λ _, opened_in tl) (t_active t);
  lk_open id : id ∈ tl_open tl → ∃ k a, t_active t !! k = Some a ∧ event_of a = id;
  lk_inj k k' a a' :
    t_active t !! k = Some a → t_active t !! k' = Some a' → event_of a = event_of a' → k = k';
  lk_pending : Forall (ended_in tl) (t_pending t);
  lk_ids id : is_Some (tl_started tl !! id) → ∃ i, (i < draws)%nat ∧ id = new_uuid e i
}.

(** The commands of a run so far are a valid timeline that matches its tracker. *)
Definition run_linked (e : Environment) (tl0 : Timeline) (r : Run) : Prop :=
  ∃ tl, tl_exec tl0 (r_changes r) = Some tl ∧ linked e (r_tracker r) (r_draws r) tl.

(** ** Single events *)

Lemma flush_spec a now :
  a_ok a → ∃ u a', flush a now = (u, a') ∧ a_ok a' ∧ a_event a' = a_event a
    ∧ a_last_time_ms a' = a_last_time_ms a ∧ a_last_seen a' = a_last_seen a
    ∧ dirty a' = deferred a now
    ∧ (deferred a' now = dirty a')
    ∧ (u = None ∨ u = Some (TimelineEventImages (a_event a) [])).
Proof.
  intros [Hd Hp]. unfold flush. destruct (dirty a) eqn:Ed; cbn.
  - destruct (deferred a now) eqn:Ef; cbn; eexists _, _; (split; [done|]).
    + rewrite Ed, Ef. split_and!; try done. by left.
    + assert (details_eqb (a_details a) (a_details a) = true) as Hr by by apply details_eqb_refl.
      unfold deferred, dirty. cbn. rewrite Hr. cbn. split_and!; try done. by right.
  - assert (deferred a now = false) as Ef by (unfold deferred; by rewrite Ed).
    eexists _, _. split; [done|]. rewrite Ed, Ef. split_and!; try done. by left.
Qed.

Lemma observe_ok a o : a_ok a → details_ok (o_details o) → a_ok (observe a o).
Proof. intros [Hd Hp] Ho. split; cbn; [by apply merge_ok|done]. Qed.

Lemma close_end_ge a time_ms :
  ev_start_time_ms (a_event a)
  ≤ Z.max (Z.max (unwrap_or time_ms (a_last_time_ms a)) (a_last_time_ms a)) (ev_start_time_ms (a_event a)).
Proof. lia. Qed.

(** ** Timeline moves *)

Lemma tl_revision tl a :
  opened_in tl a → tl_apply tl (TimelineEventImages (a_event a) []) = Some tl.
Proof.
  intros (Hs & Ho & He). cbn. unfold event_of in *. rewrite bool_decide_true by done.
  rewrite bool_decide_true by done. by rewrite He.
Qed.

Lemma tl_exec_revision tl a :
  opened_in tl a → tl_exec tl [TimelineEventImages (a_event a) []] = Some tl.
Proof. intros Ha. cbn [tl_exec]. by rewrite tl_revision. Qed.

Lemma tl_late_revision tl a :
  ended_in tl a → tl_apply tl (TimelineEventImages (a_event a) []) = Some tl.
Proof.
  intros (Hs & Ho & [z He]). cbn. unfold event_of in *. rewrite bool_decide_true by done.
  rewrite bool_decide_false by done. by rewrite He.
Qed.

Lemma tl_exec_late tl a :
  ended_in tl a → tl_exec tl [TimelineEventImages (a_event a) []] = Some tl.
Proof. intros Ha. cbn [tl_exec]. by rewrite tl_late_revision. Qed.

Section moves.
Context (e : Environment).

(** Dropping the event at [key] after its end leaves the other events linked. *)
Lemma linked_end t draws tl key a end_time_ms :
  linked e t draws tl → t_active t !! key = Some a → ev_start_time_ms (a_event a) ≤ end_time_ms →
  ∃ tl', tl_apply tl (TimelineEventEnded (event_of a) end_time_ms) = Some tl'
    ∧ linked e (with_active t (delete key (t_active t))) draws tl'
    ∧ ∀ a', event_of a' = event_of a → ev_start_time_ms (a_event a') = ev_start_time_ms (a_event a) →
      is_Some (ev_end_time_ms (a_event a')) → ended_in tl' a'.
Proof.
  intros [H1 H2 H3 H4 H5] Hk Hle. destruct (H1 key a Hk) as (Hs & Ho & He).
  cbn. rewrite Hs. rewrite bool_decide_true, (proj2 (Z.leb_le _ _)) by done. cbn.
  eexists. split; [done|]. split.
  - constructor; cbn.
    + intros k a' Hk'. apply lookup_delete_Some in Hk' as [Hne Hk'].
      destruct (H1 k a' Hk') as (Hs' & Ho' & He'). split_and!; [done|cbn|done].
      apply elem_of_difference. split; [done|]. intros Heq%elem_of_singleton. by apply Hne, (H3 _ _ _ _ Hk Hk').
    + intros id [Hid Hne]%elem_of_difference. destruct (H2 id Hid) as (k & a' & Hk' & <-).
      exists k, a'. split; [|done]. rewrite lookup_delete_ne; [done|]. intros ->. simplify_eq. set_solver.
    + intros k k' a1 a2 [_ ?]%lookup_delete_Some [_ ?]%lookup_delete_Some. by apply H3.
    + eapply Forall_impl; [exact H4|]. intros a' (Hs' & Ho' & He'). split_and!; [done|cbn; set_solver|done].
    + done.
  - intros a' Hid Hst Hend. split_and!; [cbn|cbn|done].
    + by rewrite Hid, Hst.
    + rewrite Hid. set_solver.
Qed.

Lemma linked_pending t draws tl a :
  linked e t draws tl → ended_in tl a → linked e (with_pending t (t_pending t ++ [a])) draws tl.
Proof.
  intros [H1 H2 H3 H4 H5] Ha. constructor; cbn; try done.
  apply Forall_app. split; [done|]. by apply Forall_singleton.
Qed.

(** Replacing an open event by a version with the same identity and start. *)
Lemma linked_update t draws tl key a a' :
  linked e t draws tl → t_active t !! key = Some a →
  event_of a' = event_of a → ev_start_time_ms (a_event a') = ev_start_time_ms (a_event a) →
  ev_end_time_ms (a_event a') = ev_end_time_ms (a_event a) →
  linked e (with_active t (<[key := a']> (t_active t))) draws tl.
Proof.
  intros [H1 H2 H3 H4 H5] Hk Hid Hst Hend. constructor; cbn; try done.
  - apply map_Forall_insert_2; [|done]. destruct (H1 key a Hk) as (Hs & Ho & He).
    unfold opened_in. by rewrite Hid, Hst, Hend.
  - intros id (k & b & Hb & <-)%H2. destruct (decide (k = key)) as [->|Hne].
    + simplify_eq. exists key, a'. by rewrite lookup_insert_eq.
    + exists k, b. by rewrite lookup_insert_ne.
  - assert (∀ k b, <[key:=a']> (t_active t) !! k = Some b →
      ∃ c, t_active t !! k = Some c ∧ event_of b = event_of c) as Hback.
    { intros k b [[-> <-]|[Hne Hb]]%lookup_insert_Some; eauto. }
    intros k k' b b' (c & Hc & ->)%Hback (c' & Hc' & ->)%Hback. by apply H3.
Qed.

(** Starting an event with a fresh identifier. *)
Lemma linked_start `{!Inj (=) (=) (new_uuid e)} t draws tl key a :
  linked e t draws tl → t_active t !! key = None →
  event_of a = new_uuid e draws → ev_end_time_ms (a_event a) = None →
  ∃ tl', tl_apply tl (TimelineEventStarted (a_event a)) = Some tl'
    ∧ linked e (with_active t (<[key := a]> (t_active t))) (S draws) tl'.
Proof.
  intros [H1 H2 H3 H4 H5] Hk Hid Hend.
  assert (tl_started tl !! event_of a = None) as Hfresh.
  { destruct (tl_started tl !! event_of a) eqn:E; [|done]. destruct (H5 (event_of a)) as (i & Hi & Hx); [by eexists|].
    rewrite Hid in Hx. apply (inj (new_uuid e)) in Hx. lia. }
  assert (∀ b, opened_in tl b ∨ ended_in tl b → event_of b ≠ event_of a) as Hdiff.
  { intros b Hb Heq. rewrite <-Heq in Hfresh. destruct Hb as [(Hx & _)|(Hx & _)]; congruence. }
  cbn. unfold event_of in Hfresh. rewrite Hfresh, Hend. cbn. eexists. split; [done|]. constructor; cbn.
  - apply map_Forall_insert_2.
    + split_and!; cbn; [apply lookup_insert_eq|set_solver|done].
    + intros k b Hb. pose proof (H1 k b Hb) as Hop. destruct Hop as (Hs & Ho & He).
      split_and!; [|cbn; set_solver|done]. cbn. rewrite lookup_insert_ne; [done|].
      intros Hx. by apply (Hdiff b); [left|].
  - intros id [->%elem_of_singleton|Hin]%elem_of_union.
    + exists key, a. by rewrite lookup_insert_eq.
    + destruct (H2 id Hin) as (k & b & Hb & <-). exists k, b. rewrite lookup_insert_ne; [done|]. congruence.
  - intros k k' b b' [[-> <-]|[Hne Hb]]%lookup_insert_Some [[-> <-]|[Hne' Hb']]%lookup_insert_Some Heq; try done.
    + exfalso. by apply (Hdiff b'); [left; by apply (H1 k')|].
    + exfalso. by apply (Hdiff b); [left; by apply (H1 k)|].
    + by apply (H3 k k' b b').
  - eapply Forall_impl; [exact H4|]. intros b Hb. destruct Hb as (Hs & Ho & He) eqn:Hb'.
    assert (event_of b ≠ event_of a) as Hne by (apply Hdiff; by right).
    split_and!; [cbn; rewrite lookup_insert_ne; [done|]; unfold event_of in *; congruence| |done].
    cbn. unfold event_of in *. set_solver.
  - intros id [z [[<- _]|[_ Hz]]%lookup_insert_Some].
    + exists draws. split; [lia|done].
    + destruct (H5 id) as (i & Hi & ->); [by eexists|]. exists i. split; [lia|done].
Qed.
End moves.

(** ** Closing an event *)

Definition still_dirty (a : Active) (now : option Z) : bool :=
  match now with Some now => deferred a now | None => dirty a end.
(** The slot that closing the event at a key releases. *)
Definition freed (t : Tracker) (key : Identity) (now : option Z) : Z :=
  match t_active t !! key with
  | Some a => if still_dirty a now then 0 else 1
  | None => 0
  end.

Record closed (r r' : Run) (key : Identity) (now : option Z) : Prop := {
  cd_active : t_active (r_tracker r') = delete key (t_active (r_tracker r));
  cd_baselines : t_baselines (r_tracker r') = t_baselines (r_tracker r);
  cd_history : t_history (r_tracker r') = t_history (r_tracker r);
  cd_draws : r_draws r' = r_draws r;
  cd_slots : slots_used (r_tracker r') = slots_used (r_tracker r) - freed (r_tracker r) key now;
  cd_pending : ∃ l, t_pending (r_tracker r') = t_pending (r_tracker r) ++ l
    ∧ ∀ n, now = Some n → Forall (λ a, deferred a n = true) l;
  cd_changes : ∃ cs, r_changes r' = r_changes r ++ cs
    ∧ ∀ a, t_active (r_tracker r) !! key = Some a → ∃ end_time_ms, TimelineEventEnded (event_of a) end_time_ms ∈ cs
}.

Lemma size_delete_Z (m : gmap Identity Active) k a :
  m !! k = Some a → Z.of_nat (size (delete k m)) = Z.of_nat (size m) - 1.
Proof.
  intros Hk. rewrite <-(insert_delete_id m k a Hk) at 2. rewrite map_size_insert_None; [lia|].
  apply lookup_delete_eq.
Qed.

Lemma freed_range t key now : 0 ≤ freed t key now ≤ 1.
Proof. unfold freed. repeat split_match; lia. Qed.

(** What [flush] does in [close]. *)
Lemma close_flush a now :
  a_ok a → ∃ u a',
    (match now with Some now => flush a now | None => (None, a) end) = (u, a')
    ∧ a_ok a' ∧ a_event a' = a_event a ∧ a_last_time_ms a' = a_last_time_ms a
    ∧ dirty a' = still_dirty a now ∧ (∀ n, now = Some n → deferred a' n = dirty a')
    ∧ (u = None ∨ u = Some (TimelineEventImages (a_event a) [])).
Proof.
  intros Ha. destruct now as [now|]; [|exists None, a; naive_solver].
  destruct (flush_spec a now Ha) as (u & a' & Hf & Hok & Hev & Hlt & Hls & Hd & Hdef & Hu).
  exists u, a'. naive_solver.
Qed.

Lemma slots_with_pending t m a :
  slots_used (with_pending (with_active t m) (t_pending t ++ [a])) = Z.of_nat (size m) + vec_len (t_pending t) + 1.
Proof. unfold slots_used, vec_len. cbn. rewrite length_app. cbn. lia. Qed.

Lemma close_ok r key time_ms now :
  tracker_ok (r_tracker r) →
  ∃ r', close r key time_ms now = Ret r' ∧ tracker_ok (r_tracker r') ∧ closed r r' key now
    ∧ ∀ e tl0, run_linked e tl0 r → run_linked e tl0 r'.
Proof.
  intros Hok. pose proof Hok as [H1 H2 H3 H4 H5]. unfold close.
  destruct (t_active (r_tracker r) !! key) as [a|] eqn:Hk.
  2: { exists r. split; [done|]. split; [done|]. split; [|done].
       constructor; try done; [by rewrite delete_id|unfold freed; rewrite Hk; lia| |].
       - exists []. by rewrite app_nil_r.
       - exists []. rewrite app_nil_r. split; [done|]. by rewrite Hk. }
  destruct (close_flush a now (H4 key a Hk)) as (u & a' & -> & Ha' & Hev & Hlt & Hd & Hdef & Hu).
  rewrite Hev, Hlt. set (end_ms := Z.max _ _).
  set (a2 := with_event a' (end_event (a_event a) end_ms)).
  set (t1 := with_active (r_tracker r) (delete key (t_active (r_tracker r)))).
  set (t2 := if dirty a' then with_pending t1 (t_pending t1 ++ [a2]) else t1).
  set (cs := option_list u ++ [TimelineEventEnded (event_of a) end_ms]).
  assert (∀ r0, r0 = mk_run t2 (r_draws r) (r_changes r ++ cs) →
    (let r := push_some (on_tracker r (λ t, with_active t (delete key (t_active t)))) u in
     let r := push_change r (TimelineEventEnded (ev_id (a_event a)) end_ms) in
     if dirty a' then on_tracker r (λ t, with_pending t (t_pending t ++ [a2])) else r) = r0) as Hr.
  { intros r0 ->. unfold t2, cs, push_change, on_tracker. destruct u, (dirty a'); cbn; by rewrite <-?app_assoc. }
  cbn zeta in Hr |- *. rewrite (Hr _ eq_refl). cbn [r_tracker].
  assert (slots_used t2 = slots_used (r_tracker r) - freed (r_tracker r) key now) as Hslots.
  { unfold freed. rewrite Hk, <-Hd. unfold t2, t1, slots_used. destruct (dirty a'); cbn;
      rewrite (size_delete_Z _ key a) by done; unfold vec_len; rewrite ?length_app; cbn; lia. }
  pose proof (freed_range (r_tracker r) key now).
  rewrite (proj2 (Z.leb_le _ _)) by lia. eexists. split; [done|]. cbn [r_tracker].
  assert (map_Forall (λ _, a_ok) (delete key (t_active (r_tracker r)))) by by apply map_Forall_delete.
  split; [|split].
  - constructor; [lia| | | |]; unfold t2; destruct (dirty a'); cbn; try done.
    apply Forall_app. split; [done|]. by apply Forall_singleton.
  - constructor; unfold t2; cbn; try (by destruct (dirty a')).
    + destruct (dirty a') eqn:Ed; cbn; [|exists []; by rewrite app_nil_r].
      exists [a2]. split; [done|]. intros n Hn. apply Forall_singleton.
      unfold deferred, dirty in *. cbn. by apply Hdef.
    + exists cs. split; [done|]. rewrite Hk. intros ? [= <-]. exists end_ms. unfold cs. set_solver.
  - intros e tl0 (tl & Hrun & Hlk). unfold run_linked. cbn [r_changes r_tracker r_draws].
    destruct (linked_end e (r_tracker r) (r_draws r) tl key a end_ms Hlk Hk) as (tl' & Htl & Hlk' & Hended); [lia|].
    exists tl'. rewrite tl_exec_app, Hrun. split.
    + unfold cs. cbn [mbind option_bind]. rewrite tl_exec_app.
      assert (tl_exec tl (option_list u) = Some tl) as ->.
      { destruct Hu as [-> | ->]; [done|]. apply tl_exec_revision. by apply (lk_active _ _ _ _ Hlk key). }
      cbn [mbind option_bind tl_exec]. by rewrite Htl.
    + unfold t2. destruct (dirty a'); [|done]. apply linked_pending; [done|]. apply Hended; [done|done|by eexists].
Qed.

(** ** Opening and updating an event *)

(** The effect of one observation outside its own identity. *)
Record touched (r r' : Run) (key : Identity) : Prop := {
  td_other k : k ≠ key → t_active (r_tracker r') !! k = t_active (r_tracker r) !! k;
  td_history : t_history (r_tracker r') = t_history (r_tracker r)
}.

Definition start_run (e : Environment) (r : Run) (o : Observation) (kind : Kind) : Run :=
  let event := new_event e (r_tracker r) (r_draws r) o kind in
  on_tracker (push_change (mk_run (r_tracker r) (S (r_draws r)) (r_changes r)) (TimelineEventStarted event))
    (λ t, with_active t
      (<[o_key o := mk_active event (o_details o) (o_details o) (c_received (o_clock o))
                      (c_time_ms (o_clock o)) (c_received (o_clock o))
                      (c_camera (o_clock o)) false false]> (t_active t))).

Lemma run_linked_push e tl0 r c t draws tl :
  tl_exec tl0 (r_changes r) = Some tl →
  (∃ tl', tl_apply tl c = Some tl' ∧ linked e t draws tl') →
  run_linked e tl0 (mk_run t draws (r_changes r ++ [c])).
Proof.
  intros Hrun (tl' & Htl & Hlk). exists tl'. cbn [r_changes r_tracker r_draws]. split; [|done].
  rewrite tl_exec_app, Hrun. cbn [mbind option_bind tl_exec]. by rewrite Htl.
Qed.

Lemma start_ok e r o kind :
  tracker_ok (r_tracker r) → details_ok (o_details o) → t_active (r_tracker r) !! o_key o = None →
  slots_used (r_tracker r) < ACTIVE_MAX →
  tracker_ok (r_tracker (start_run e r o kind)) ∧ touched r (start_run e r o kind) (o_key o)
  ∧ t_baselines (r_tracker (start_run e r o kind)) = t_baselines (r_tracker r)
  ∧ slots_used (r_tracker (start_run e r o kind)) = slots_used (r_tracker r) + 1
  ∧ (Inj (=) (=) (new_uuid e) → ∀ tl0, run_linked e tl0 r → run_linked e tl0 (start_run e r o kind)).
Proof.
  intros [H1 H2 H3 H4 H5] Hd Hk Hlt.
  assert (slots_used (r_tracker (start_run e r o kind)) = slots_used (r_tracker r) + 1) as Hs.
  { unfold slots_used. cbn. rewrite map_size_insert_None by done. lia. }
  split_and!; [|by constructor; cbn; [intros; apply lookup_insert_ne|]|done|done|].
  - constructor; [lia|done|done| |done]. cbn. by apply map_Forall_insert_2.
  - intros Hinj tl0 (tl & Hrun & Hlk). unfold start_run, push_change, on_tracker. cbn [r_tracker r_draws r_changes].
    eapply run_linked_push; [done|]. by eapply (linked_start e _ _ _ (o_key o) (mk_active _ _ _ _ _ _ _ _ _)).
Qed.

Definition observe_run (r : Run) (o : Observation) (a : Active) : Run :=
  let '(update, a) := flush (observe a o) (c_received (o_clock o)) in
  push_some (on_tracker r (λ t, with_active t (<[o_key o := a]> (t_active t)))) update.

(** Storing a flushed version of an open event and publishing its revision. *)
Lemma flush_entry_linked e tl0 r key a a1 a' u :
  t_active (r_tracker r) !! key = Some a → event_of a1 = event_of a →
  ev_start_time_ms (a_event a1) = ev_start_time_ms (a_event a) →
  ev_end_time_ms (a_event a1) = ev_end_time_ms (a_event a) →
  a_event a' = a_event a1 → (u = None ∨ u = Some (TimelineEventImages (a_event a1) [])) →
  run_linked e tl0 r →
  run_linked e tl0 (push_some (on_tracker r (λ t, with_active t (<[key := a']> (t_active t)))) u).
Proof.
  intros Hk Hid Hst Hend Hev Hu (tl & Hrun & Hlk).
  assert (linked e (with_active (r_tracker r) (<[key := a']> (t_active (r_tracker r)))) (r_draws r) tl) as Hlk'.
  { apply (linked_update e _ _ _ key a); try done; unfold event_of in *; by rewrite Hev. }
  destruct Hu as [-> | ->]; cbn [push_some]; [by exists tl|].
  unfold push_change. cbn [r_tracker r_draws r_changes on_tracker]. eapply run_linked_push; [done|].
  exists tl. split; [|done]. apply tl_revision. unfold opened_in, event_of in *. rewrite Hid, Hst, Hend.
  by apply (lk_active _ _ _ _ Hlk key).
Qed.

Lemma push_some_tracker r u : r_tracker (push_some r u) = r_tracker r.
Proof. by destruct u. Qed.

Lemma observe_run_ok r o a :
  tracker_ok (r_tracker r) → details_ok (o_details o) → t_active (r_tracker r) !! o_key o = Some a →
  tracker_ok (r_tracker (observe_run r o a)) ∧ touched r (observe_run r o a) (o_key o)
  ∧ t_baselines (r_tracker (observe_run r o a)) = t_baselines (r_tracker r)
  ∧ slots_used (r_tracker (observe_run r o a)) = slots_used (r_tracker r)
  ∧ ∀ e tl0, run_linked e tl0 r → run_linked e tl0 (observe_run r o a).
Proof.
  intros [H1 H2 H3 H4 H5] Hd Hk. unfold observe_run.
  destruct (flush_spec (observe a o) (c_received (o_clock o))) as (u & a' & -> & Ha' & Hev & _ & _ & _ & _ & Hu).
  { apply observe_ok; [by apply (H4 (o_key o))|done]. }
  assert (slots_used (with_active (r_tracker r) (<[o_key o := a']> (t_active (r_tracker r))))
          = slots_used (r_tracker r)) as Hs.
  { unfold slots_used. cbn. by erewrite map_size_insert_Some. }
  rewrite push_some_tracker. cbn [r_tracker on_tracker]. split_and!; [| |done|done|].
  - constructor; [lia|done|done| |done]. cbn. by apply map_Forall_insert_2.
  - constructor; rewrite push_some_tracker; cbn; [intros; by apply lookup_insert_ne|done].
  - intros e tl0. by apply (flush_entry_linked e tl0 r (o_key o) a (observe a o)).
Qed.

Lemma same_kind_Some a kind : same_kind a (Some kind) = str_eqb (ev_kind (a_event a)) (kind_as_str kind).
Proof. done. Qed.

Lemma upsert_ok e r o :
  tracker_ok (r_tracker r) → details_ok (o_details o) → is_Some (o_kind o) →
  (needs_slot (r_tracker r) o = true → slots_used (r_tracker r) < ACTIVE_MAX) →
  ∃ r', upsert e r o = Ret r' ∧ tracker_ok (r_tracker r') ∧ touched r r' (o_key o)
    ∧ t_baselines (r_tracker r') = t_baselines (r_tracker r)
    ∧ slots_used (r_tracker r') ≤ slots_used (r_tracker r) + (if needs_slot (r_tracker r) o then 1 else 0)
    ∧ (Inj (=) (=) (new_uuid e) → ∀ tl0, run_linked e tl0 r → run_linked e tl0 r').
Proof.
  intros Hok Hd [kind Hkind] Hroom. unfold upsert. rewrite Hkind.
  unfold needs_slot in *. rewrite Hkind in *.
  destruct (t_active (r_tracker r) !! o_key o) as [a|] eqn:Hk; cbn [is_some_and is_none_or] in *.
  2: { cbn [obind]. rewrite Hk. eexists. split; [done|]. change (on_tracker _ _) with (start_run e r o kind).
       destruct (start_ok e r o kind) as (? & ? & ? & ? & ?); auto. split_and!; auto. lia. }
  rewrite same_kind_Some in *. destruct (str_eqb (ev_kind (a_event a)) (kind_as_str kind)) eqn:Hsame; cbn [negb andb] in *.
  { cbn [obind]. rewrite Hk. eexists. split; [done|]. change (let '(_, _) := _ in _) with (observe_run r o a).
    destruct (observe_run_ok r o a) as (? & ? & ? & ? & ?); auto. split_and!; auto. lia. }
  destruct (close_ok r (o_key o) (Some (c_time_ms (o_clock o))) (Some (c_received (o_clock o))) Hok)
    as (r1 & -> & Hok1 & Hcl & Hlk1). cbn [obind].
  assert (t_active (r_tracker r1) !! o_key o = None) as Hk1.
  { rewrite (cd_active _ _ _ _ Hcl). apply lookup_delete_eq. }
  rewrite Hk1. eexists. split; [done|]. change (on_tracker _ _) with (start_run e r1 o kind).
  pose proof (cd_slots _ _ _ _ Hcl) as Hsl. unfold freed in Hsl. rewrite Hk in Hsl. cbn [still_dirty] in Hsl.
  pose proof (to_slots _ Hok) as Hmax.
  assert (slots_used (r_tracker r1) < ACTIVE_MAX) as Hlt.
  { destruct (deferred a (c_received (o_clock o))); [specialize (Hroom eq_refl); lia|lia]. }
  destruct (start_ok e r1 o kind Hok1 Hd Hk1 Hlt) as (G1 & G2 & G3 & G4 & G5). split_and!.
  - done.
  - constructor.
    + intros k Hne. rewrite (td_other _ _ _ G2) by done. rewrite (cd_active _ _ _ _ Hcl). by apply lookup_delete_ne.
    + rewrite (td_history _ _ _ G2). apply Hcl.
  - rewrite G3. apply Hcl.
  - rewrite G4. destruct (deferred a (c_received (o_clock o))); lia.
  - intros Hinj tl0 Hr. by apply G5, Hlk1.
Qed.

(** ** Committing an observation *)

Definition obs_ok (o : Observation) : Prop :=
  details_ok (o_details o) ∧ (o_action o = ActActive ∨ o_action o = ActPoint → is_Some (o_kind o)).

(** What the capacity checks establish before an observation is committed. *)
Definition room (t : Tracker) (o : Observation) : Prop :=
  (o_action o = ActInitialized true → o_key o ∉ t_baselines t →
   open_kind (t_history t) (o_key o) = None → Z.of_nat (size (t_baselines t)) < BASELINE_MAX)
  ∧ (o_action o = ActActive → o_key o ∉ t_baselines t → needs_slot t o = true →
     slots_used t < ACTIVE_MAX).

(** The slots an observation may take or release. *)
Definition slot_delta (t : Tracker) (o : Observation) : Z :=
  match o_action o with
  | ActActive => if needs_slot t o then 1 else 0
  | ActEnd => - freed t (o_key o) (Some (c_received (o_clock o)))
  | _ => 0
  end.

(** Draws and commands may change beside the tracker. *)
Lemma tracker_ok_baselines t b :
  tracker_ok t → Z.of_nat (size b) ≤ BASELINE_MAX → tracker_ok (with_baselines t b).
Proof. intros [? ? ? ? ?] ?. by constructor. Qed.

Lemma run_linked_baselines e tl0 r f :
  run_linked e tl0 r → run_linked e tl0 (on_tracker r (λ t, with_baselines t (f t))).
Proof. intros (tl & Hrun & [? ? ? ? ?]). exists tl. split; [done|]. by constructor. Qed.

Lemma baselines_remove t k : Z.of_nat (size (t_baselines t ∖ {[k]})) ≤ Z.of_nat (size (t_baselines t)).
Proof. apply inj_le, subseteq_size. set_solver. Qed.

Lemma point_linked e `{!Inj (=) (=) (new_uuid e)} tl0 r o kind :
  run_linked e tl0 r →
  run_linked e tl0 (push_change (mk_run (r_tracker r) (S (r_draws r)) (r_changes r))
    (TimelineEventStarted (end_event (new_event e (r_tracker r) (r_draws r) o kind)
       (ev_start_time_ms (new_event e (r_tracker r) (r_draws r) o kind))))).
Proof.
  intros (tl & Hrun & [H1 H2 H3 H4 H5]). unfold push_change. cbn [r_tracker r_draws r_changes].
  eapply run_linked_push; [done|]. set (id := new_uuid e (r_draws r)).
  assert (tl_started tl !! id = None) as Hfresh.
  { destruct (tl_started tl !! id) eqn:E; [|done]. destruct (H5 id) as (i & Hi & Hx); [by eexists|].
    apply (inj (new_uuid e)) in Hx. lia. }
  cbn. fold id. rewrite Hfresh. eexists. split; [done|].
  assert (∀ x z, tl_started tl !! x = Some z → <[id := c_time_ms (o_clock o)]> (tl_started tl) !! x = Some z) as Hkeep.
  { intros x z Hx. rewrite lookup_insert_ne; [done|]. congruence. }
  constructor; cbn; try done.
  - intros k a Ha. destruct (H1 k a Ha) as (? & ? & ?). split_and!; auto.
  - eapply Forall_impl; [exact H4|]. intros a (? & ? & ?). split_and!; auto.
  - intros x [z [[<- _]|[_ Hz]]%lookup_insert_Some].
    + exists (r_draws r). split; [lia|done].
    + destruct (H5 x) as (i & Hi & ->); [by eexists|]. exists i. split; [lia|done].
Qed.

Lemma act_ok e r o :
  tracker_ok (r_tracker r) → obs_ok o → room (r_tracker r) o →
  ∃ r', act e r o (negb (is_none (open_kind (t_history (r_tracker r)) (o_key o)))) = Ret r'
    ∧ tracker_ok (r_tracker r') ∧ touched r r' (o_key o)
    ∧ slots_used (r_tracker r') ≤ slots_used (r_tracker r) + slot_delta (r_tracker r) o
    ∧ (Inj (=) (=) (new_uuid e) → ∀ tl0, run_linked e tl0 r → run_linked e tl0 r').
Proof.
  intros Hok [Hd Hkind] [Hinit Hact]. unfold act, slot_delta.
  pose proof (to_baselines _ Hok) as Hb. pose proof (baselines_remove (r_tracker r) (o_key o)) as Hrm.
  destruct (o_action o) as [[]| | |] eqn:Ha.
  - eexists. split; [done|]. cbn [andb negb].
    destruct (open_kind (t_history (r_tracker r)) (o_key o)) as [k|] eqn:Hopen; cbn [is_none negb];
      [split_and!; try done; lia|].
    split_and!; try done; [apply tracker_ok_baselines; [done|]| |by intros; apply run_linked_baselines].
    + destruct (decide (o_key o ∈ t_baselines (r_tracker r))).
      * by replace ({[o_key o]} ∪ t_baselines (r_tracker r)) with (t_baselines (r_tracker r)) by set_solver.
      * rewrite size_union, size_singleton by set_solver. specialize (Hinit eq_refl n eq_refl). lia.
    + change (slots_used (r_tracker r) ≤ slots_used (r_tracker r) + 0). lia.
  - eexists. split; [done|]. cbn [andb negb].
    split_and!; try done; [apply tracker_ok_baselines; [done|lia]| |by intros; apply run_linked_baselines].
    change (slots_used (r_tracker r) ≤ slots_used (r_tracker r) + 0). lia.
  - case_bool_decide as Hbase; [|destruct (upsert_ok e r o) as (r' & ? & ? & ? & ? & ? & ?); auto; by exists r'].
    exists r. split_and!; try done. split_match; lia.
  - set (r1 := on_tracker r _).
    assert (tracker_ok (r_tracker r1)) as Hok1 by (apply tracker_ok_baselines; [done|lia]).
    destruct (close_ok r1 (o_key o) (Some (c_time_ms (o_clock o))) (Some (c_received (o_clock o))) Hok1)
      as (r' & -> & Hok' & Hcl & Hlk). exists r'. split_and!; try done.
    + constructor; [|apply Hcl]. intros k Hne. rewrite (cd_active _ _ _ _ Hcl). by apply lookup_delete_ne.
    + rewrite (cd_slots _ _ _ _ Hcl). by rewrite Z.add_opp_r.
    + intros _ tl0 Hr. by apply Hlk, run_linked_baselines.
  - destruct Hkind as [kind ->]; [by right|]. eexists. split; [done|]. split_and!; try done.
    + cbn. lia.
    + intros Hinj tl0. by apply point_linked.
Qed.

(** Open events and baselines protect their watermarks and leave room for others. *)
Lemma protected_fits t :
  tracker_ok t →
  (∀ k, is_protected t k = true → k ∈ dom (t_active t) ∪ t_baselines t)
  ∧ Z.of_nat (size (dom (t_active t) ∪ t_baselines t)) < HISTORY_MAX.
Proof.
  intros [H1 H2 _ _ _]. split.
  - intros k. unfold is_protected. destruct (t_active t !! k) eqn:E; cbn.
    + intros _. apply elem_of_union_l, elem_of_dom. by eexists.
    + intros ?%bool_decide_eq_true. set_solver.
  - assert (size (dom (t_active t) ∪ t_baselines t) ≤ size (t_active t) + size (t_baselines t))%nat.
    { rewrite size_union_alt, <-(size_dom (t_active t)).
      assert (size (t_baselines t ∖ dom (t_active t)) ≤ size (t_baselines t))%nat by (apply subseteq_size; set_solver).
      lia. }
    unfold slots_used, vec_len, ACTIVE_MAX, BASELINE_MAX, HISTORY_MAX in *. lia.
Qed.

Lemma commit_ok e r o :
  tracker_ok (r_tracker r) → obs_ok o → room (r_tracker r) o →
  ∃ r', commit e r o = Ret r' ∧ tracker_ok (r_tracker r')
    ∧ (∀ k, k ≠ o_key o → t_active (r_tracker r') !! k = t_active (r_tracker r) !! k)
    ∧ fingerprint e o ∈ seen (t_history (r_tracker r'))
    ∧ slots_used (r_tracker r') ≤ slots_used (r_tracker r) + slot_delta (r_tracker r) o
    ∧ (Inj (=) (=) (new_uuid e) → ∀ tl0, run_linked e tl0 r → run_linked e tl0 r').
Proof.
  intros Hok Hobs Hroom. unfold commit. destruct (act_ok e r o Hok Hobs Hroom) as (r1 & -> & Hok1 & Ht & Hs & Hlk).
  cbn [obind]. set (opened := _ || _). destruct (protected_fits _ Hok1) as [Hp Hfit].
  destruct (remember_ok e (t_history (r_tracker r1)) o opened (is_protected (r_tracker r1)) _
    (to_history _ Hok1) Hp Hfit) as (h & _ & -> & Hh & Hf & _). cbn [obind].
  eexists. split; [done|]. destruct Hok1. split_and!; [by constructor|apply Ht|done|done|].
  intros Hinj tl0 Hr. destruct (Hlk Hinj tl0 Hr) as (tl & Hrun & [? ? ? ? ?]). exists tl. split; [done|]. by constructor.
Qed.
