(* ===== verification/TrackerSteps.v ===== *)
(** * The camera event tracker over any sequence of operations

    Every operation of [Tracker] preserves the invariants of [TrackerInv], and the
    commands it returns are a valid continuation of the timeline.  The theorems are
    about whole runs: no operation aborts, the command stream keeps the timeline
    contract, redelivered notifications do nothing, and deadlines are enforced. *)

From S2P Require Import Prelude CameraEvent OnvifItems Observation Normalize EventHistory Tracker TrackerInv.

(** The commands of an operation continue the timeline, and the tracker it leaves is
    well formed. *)
Definition sound (e : Environment) (w : Tracker * nat) (out : list KeepPeekEvent)
    (w' : Tracker * nat) : Prop :=
  tracker_ok w'.1
  ∧ (Inj (=) (=) (new_uuid e) → ∀ tl, linked e w.1 w.2 tl →
     ∃ tl', tl_exec tl out = Some tl' ∧ linked e w'.1 w'.2 tl').

Definition changes_of (reply : result string (list KeepPeekEvent)) : list KeepPeekEvent :=
  match reply with Ok out => out | Err _ => [] end.

Lemma sound_refl e w : tracker_ok w.1 → sound e w [] w.
Proof. intros Hw. split; [done|]. intros _ tl Hl. by exists tl. Qed.

Lemma sound_trans e w out w' out' w'' :
  sound e w out w' → sound e w' out' w'' → sound e w (out ++ out') w''.
Proof.
  intros [H1 H2] [H3 H4]. split; [done|]. intros Hinj tl Hl. destruct (H2 Hinj tl Hl) as (tl' & Ht & Hl').
  destruct (H4 Hinj tl' Hl') as (tl'' & Ht' & Hl''). exists tl''. by rewrite tl_exec_app, Ht.
Qed.

(** A run that starts without commands yields a sound step. *)
Lemma sound_run e t draws r' :
  tracker_ok (r_tracker r') →
  (Inj (=) (=) (new_uuid e) → ∀ tl0, run_linked e tl0 (mk_run t draws []) → run_linked e tl0 r') →
  sound e (t, draws) (r_changes r') (r_tracker r', r_draws r').
Proof.
  intros Hok Hlk. split; [done|]. intros Hinj tl Hl.
  destruct (Hlk Hinj tl) as (tl' & Ht & Hl'); [by exists tl|]. by exists tl'.
Qed.

(** ** Bookkeeping that leaves the events alone *)

Definition same_events (t t' : Tracker) : Prop :=
  dom (t_active t') = dom (t_active t)
  ∧ (∀ k a a', t_active t !! k = Some a → t_active t' !! k = Some a' →
      a_event a' = a_event a ∧ a_details a' = a_details a ∧ a_published a' = a_published a)
  ∧ t_pending t' = t_pending t ∧ t_baselines t' = t_baselines t ∧ t_history t' = t_history t.

Lemma same_events_refl t : same_events t t.
Proof. split_and!; try done. intros k a a' H1 H2. by simplify_eq. Qed.

Lemma same_events_back t t' k a' :
  same_events t t' → t_active t' !! k = Some a' →
  ∃ a, t_active t !! k = Some a ∧ a_event a' = a_event a
    ∧ a_details a' = a_details a ∧ a_published a' = a_published a.
Proof.
  intros (Hd & Hs & _) Hk. assert (k ∈ dom (t_active t)) as [a Ha]%elem_of_dom.
  { rewrite <-Hd. apply elem_of_dom. by eexists. }
  exists a. split; [done|]. by apply (Hs k).
Qed.

Lemma same_events_ok t t' : same_events t t' → tracker_ok t → tracker_ok t'.
Proof.
  intros Hse [H1 H2 H3 H4 H5]. pose proof Hse as (Hd & Hs & Hp & Hb & Hh).
  assert (size (t_active t') = size (t_active t)) as Hsz by by rewrite <-!size_dom, Hd.
  constructor; [unfold slots_used in *; by rewrite Hsz, Hp|by rewrite Hb|by rewrite Hh| |by rewrite Hp].
  intros k a' (a & Ha & _ & Hx & Hy)%(same_events_back t t' k a' Hse). unfold a_ok. rewrite Hx, Hy. by apply (H4 k).
Qed.

Lemma same_events_linked e t t' draws tl : same_events t t' → linked e t draws tl → linked e t' draws tl.
Proof.
  intros Hse [H1 H2 H3 H4 H5]. pose proof Hse as (Hd & Hs & Hp & Hb & Hh). constructor; try done.
  - intros k a' (a & Ha & Hev & _)%(same_events_back t t' k a' Hse). unfold opened_in, event_of. rewrite Hev.
    by apply (H1 k).
  - intros id (k & a & Ha & <-)%H2. assert (k ∈ dom (t_active t')) as [a' Ha']%elem_of_dom.
    { rewrite Hd. apply elem_of_dom. by eexists. }
    exists k, a'. split; [done|]. unfold event_of. by rewrite (proj1 (Hs k a a' Ha Ha')).
  - intros k k' a a' (b & Hb1 & Hev & _)%(same_events_back t t' k a Hse)
      (b' & Hb2 & Hev' & _)%(same_events_back t t' k' a' Hse).
    unfold event_of. rewrite Hev, Hev'. by apply H3.
  - by rewrite Hp.
Qed.

Lemma mark_same_events t (f : Identity → Active → Active) :
  (∀ k a, a_event (f k a) = a_event a ∧ a_details (f k a) = a_details a ∧ a_published (f k a) = a_published a) →
  same_events t (with_active t (map_imap (λ k a, Some (f k a)) (t_active t))).
Proof.
  intros Hf. split_and!; try done; cbn.
  - apply set_eq. intros k. rewrite !elem_of_dom, map_lookup_imap. destruct (t_active t !! k); naive_solver.
  - intros k a a' Ha Ha'. rewrite map_lookup_imap, Ha in Ha'. cbn in Ha'. simplify_eq. apply Hf.
Qed.

Lemma remember_transport_same t key camera kind tr :
  same_events t (remember_transport t key camera kind tr).
Proof.
  unfold remember_transport. destruct (t_active t !! key) as [a|] eqn:Hk; [|apply same_events_refl].
  destruct (_ && _); [|apply same_events_refl]. split_and!; try done; cbn.
  - rewrite dom_insert_L. assert (key ∈ dom (t_active t)) by (apply elem_of_dom; by eexists). set_solver.
  - intros k b b' Hb [[-> <-]|[_ Hb']]%lookup_insert_Some; by simplify_eq.
Qed.

Lemma count_duplicate_same t n : same_events t (count_duplicate t n).
Proof. split_and!; try done. cbn. intros k a a' H1 H2. by simplify_eq. Qed.

Lemma same_events_trans t t' t'' : same_events t t' → same_events t' t'' → same_events t t''.
Proof.
  intros H1 H2. pose proof H1 as (D1 & S1 & P1 & B1 & G1). pose proof H2 as (D2 & S2 & P2 & B2 & G2).
  split_and!; try congruence. intros k a a'' Ha Ha''.
  destruct (same_events_back t' t'' k a'' H2 Ha'') as (a' & Ha' & -> & -> & ->). by apply (S1 k).
Qed.

Lemma sound_same e w out t' draws t'' :
  sound e w out (t', draws) → same_events t' t'' → sound e w out (t'', draws).
Proof.
  intros [H1 H2] Hs. split; [by eapply same_events_ok|]. intros Hinj tl Hl.
  destruct (H2 Hinj tl Hl) as (tl' & Ht & Hl'). exists tl'. split; [done|]. by eapply same_events_linked.
Qed.

(** ** Notifications *)

(** The part of an observation its fingerprint depends on. *)
Definition from_notification (e : Environment) (n : Notification) (o : Observation) : Prop :=
  ∃ d received received_ms, normalize e n = Ok (Some d) ∧ o_key o = Property (det_identity d)
    ∧ detection_action d = Some (o_action o) ∧ o_clock o = clock_notification n received received_ms.

Lemma from_notification_fingerprint e n o o' :
  from_notification e n o → from_notification e n o' → fingerprint e o = fingerprint e o'.
Proof.
  intros (d & t & ms & Hd & Hk & Ha & Hc) (d' & t' & ms' & Hd' & Hk' & Ha' & Hc').
  assert (d' = d) as -> by congruence. assert (o_action o' = o_action o) as Hact by congruence.
  unfold fingerprint. rewrite Hk, Hk', Hc, Hc', Hact.
  unfold clock_notification. destruct (n_timestamp_source n) eqn:Hs; cbn; rewrite ?Hs; congruence.
Qed.

Section steps.
Context (e : Environment) `{!NormalizerLaws e}.

Lemma admit_observation_ok t o :
  (∃ v, o_payload o !! "topic" = Some v) →
  ∃ r, admit_observation t o = Ret r
    ∧ ∀ o', r = Some o' → ∃ k, o' = with_kind o k ∧ (is_Some (o_kind o) → is_Some k).
Proof.
  intros [v Hv]. unfold admit_observation. rewrite Hv. eexists. split; [done|].
  intros o'. destruct (negb _); [done|]. destruct (_ && _); [done|]. intros [= <-].
  eexists. split; [done|]. intros [k ->]. by eexists.
Qed.

Lemma prepare_notification_ok t n received received_ms :
  ∃ r, prepare_notification e t n received received_ms = Ret r
    ∧ ∀ o, r = Ok (Some o) → obs_ok o ∧ from_notification e n o.
Proof.
  unfold prepare_notification. destruct (validate_policy t) as [[]|]; [|by eexists].
  destruct (_ || _); [by eexists|]. destruct (normalize e n) as [[d|]|] eqn:Hn; try by eexists.
  destruct (_ && _); [by eexists|].
  destruct (notification_spec e n d received received_ms Hn) as (r & -> & Hr). cbn [obind].
  destruct r as [[o|]|]; try by eexists.
  destruct (Hr o eq_refl) as (Hkind & Hkey & Hact & Hdet & [v Hv] & Hclock).
  destruct (admit_observation_ok t o) as (r & -> & Hadm); [by eexists|]. cbn [obind]. eexists. split; [done|].
  intros o' [= ->]. destruct (Hadm o' eq_refl) as (k & -> & Hk). split.
  - split; [done|]. intros _. apply Hk. by rewrite Hkind.
  - by exists d, received, received_ms.
Qed.

(** [prepare_details] fills in details and payload only. *)
Definition refined (o o' : Observation) : Prop :=
  o_key o' = o_key o ∧ o_kind o' = o_kind o ∧ o_action o' = o_action o ∧ o_clock o' = o_clock o.

Lemma prepare_details_ok t o o' :
  tracker_ok t → obs_ok o → prepare_details e t o = Ok o' → refined o o' ∧ obs_ok o'.
Proof.
  intros Hok [Hd Hk] (u & Hv & [= <-])%rbind_Ok. split; [done|]. split; [|done]. cbn.
  destruct (t_active t !! o_key o) as [a|] eqn:Ha; [|done]. destruct (same_kind _ _); [|done].
  apply merge_ok; [|done]. by apply (to_active _ Hok (o_key o) a Ha).
Qed.

Lemma check_capacity_room t o : check_capacity t o = Ok tt → room t o.
Proof.
  intros ([] & H1 & H2)%rbind_Ok. split.
  - intros Ha Hb Ho. rewrite Ha, Ho in H1. rewrite bool_decide_true, bool_decide_false in H1 by done.
    apply ensure_Ok in H1. by apply Z.ltb_lt.
  - intros Ha Hb Hn. rewrite Ha, Hn in H2. rewrite bool_decide_true, bool_decide_false in H2 by done.
    apply ensure_Ok in H2. by apply Z.ltb_lt.
Qed.

Lemma refined_fingerprint o o' : refined o o' → fingerprint e o' = fingerprint e o.
Proof. intros (Hk & _ & Ha & Hc). unfold fingerprint. by rewrite Hk, Ha, Hc. Qed.

(** An error or a filtered notification leaves the state alone, a replay only its
    bookkeeping; anything else is remembered. *)
Lemma apply_from_ok w n received received_ms tr :
  tracker_ok w.1 →
  ∃ reply w', apply_from e w n received received_ms tr = Ret (reply, w')
    ∧ sound e w (changes_of reply) w'
    ∧ (∀ err, reply = Err err → w' = w)
    ∧ (changes_of reply ≠ [] → ∃ o, from_notification e n o ∧ fingerprint e o ∈ seen (t_history w'.1)).
Proof.
  destruct w as [t draws]. cbn. intros Hok. unfold apply_from.
  destruct (prepare_notification_ok t n received received_ms) as (r & -> & Hr). cbn [obind].
  destruct r as [[o|]|err].
  2,3: eexists _, _; (split; [done|]); split_and!; try done; by apply sound_refl.
  destruct (Hr o eq_refl) as [Hobs Hfrom]. destruct (is_replay e (t_history t) o).
  { eexists _, _. split; [done|]. split_and!; try done. eapply sound_same; [by apply sound_refl|].
    eapply same_events_trans; [|apply count_duplicate_same]. cbn.
    destruct (is_active_action o); [apply remember_transport_same|apply same_events_refl]. }
  destruct (rbind _ _) as [o'|err] eqn:Hprep.
  2: eexists _, _; (split; [done|]); split_and!; try done; by apply sound_refl.
  apply rbind_Ok in Hprep as (o1 & Hdet & Hprep). apply rbind_Ok in Hprep as ([] & Hcap & [= <-]).
  destruct (prepare_details_ok t o o1 Hok Hobs Hdet) as [Href Hobs1].
  destruct (commit_ok e (mk_run t draws []) o1 Hok Hobs1 (check_capacity_room _ _ Hcap))
    as (r' & -> & Hok' & _ & Hf & _ & Hlk). cbn [obind].
  assert (same_events (r_tracker r') (if is_active_action o1
    then remember_transport (r_tracker r') (o_key o1) (c_camera (o_clock o1)) (o_kind o1) tr else r_tracker r')) as Hse.
  { destruct (is_active_action o1); [apply remember_transport_same|apply same_events_refl]. }
  eexists _, _. split; [done|]. split_and!; [|done|].
  - eapply sound_same; [|exact Hse]. by apply sound_run.
  - intros _. exists o. split; [done|]. rewrite <-(refined_fingerprint o o1 Href). cbn.
    destruct Hse as (_ & _ & _ & _ & ->). done.
Qed.

(** ** Analytics frames *)

Definition is_end (o : Observation) : Prop := o_action o = ActEnd.
Definition is_act (o : Observation) : Prop := o_action o = ActActive.

(** Deletions come first, identities are distinct. *)
Definition frame_shape (os : list Observation) : Prop :=
  ∃ ends acts, os = ends ++ acts ∧ Forall is_end ends ∧ Forall is_act acts
    ∧ NoDup (o_key <$> os) ∧ Forall obs_ok os ∧ vec_len os ≤ OBJECTS_MAX + OBJECTS_MAX.

Lemma validate_ids_spec ids s s' :
  validate_ids ids s = Ok s' → NoDup ids ∧ (∀ id, id ∈ ids → id ∉ s) ∧ s' = list_to_set ids ∪ s.
Proof.
  revert s. induction ids as [|id ids IH]; intros s; cbn.
  { intros [= <-]. split_and!; [constructor|set_solver|set_solver]. }
  intros ([] & _ & ([] & Hin & Hrest)%rbind_Ok)%rbind_Ok. apply ensure_Ok in Hin. reflect_bools.
  destruct (IH _ Hrest) as (Hn & Hs & ->). split_and!; [|set_solver|set_solver].
  constructor; [|done]. intros Hid. apply Hs in Hid. set_solver.
Qed.

Lemma validate_objects_spec os s :
  validate_objects os s = Ok tt →
  NoDup (obj_id <$> os) ∧ (∀ o, o ∈ os → obj_id o ∉ s) ∧ Forall (λ o, validate_object o = Ok tt) os.
Proof.
  revert s. induction os as [|o os IH]; intros s; cbn.
  { intros _. split_and!; [constructor|set_solver|done]. }
  intros ([] & _ & ([] & Hin & ([] & Hv & Hrest)%rbind_Ok)%rbind_Ok)%rbind_Ok. apply ensure_Ok in Hin. reflect_bools.
  destruct (IH _ Hrest) as (Hn & Hs & Hf). split_and!; [| |by constructor].
  - constructor; [|done]. intros (o' & Ho' & Hin')%list_elem_of_fmap. apply Hs in Hin'. set_solver.
  - intros o' [->|Ho']%elem_of_cons; [done|]. apply Hs in Ho'. set_solver.
Qed.

Lemma unit_range_nan x : unit_range x = true → is_nan x = false.
Proof. destruct x; cbn; done. Qed.

Lemma object_observation_ok t f received received_ms o ob :
  validate_object o = Ok tt → object_observation e t f received received_ms o = Some ob →
  o_key ob = frame_identity f (obj_id o) ∧ is_act ob ∧ obs_ok ob.
Proof.
  intros ([] & Hc & ([] & _ & Hb)%rbind_Ok)%rbind_Ok. apply ensure_Ok in Hc.
  unfold object_observation. destruct (option_or _ _) as [kind|]; [|done]. intros [= <-].
  split_and!; [done|done|]. split; [|by eexists]. split; cbn.
  - destruct (is_none (obj_class o)); [done|]. destruct (obj_confidence o); [|done].
    by apply f64_from_f32_nan, unit_range_nan.
  - destruct (obj_bbox o) as [b|]; [|done]. apply ensure_Ok in Hb. reflect_bools. cbn.
    apply Forall_forall. intros x Hx. apply unit_range_nan. rewrite forallb_forall in H. by apply H, list_elem_of_In.
Qed.

Lemma omap_keys_sub t f received received_ms os :
  Forall (λ o, validate_object o = Ok tt) os →
  (o_key <$> omap (object_observation e t f received received_ms) os)
    `sublist_of` (frame_identity f <$> (obj_id <$> os))
  ∧ Forall is_act (omap (object_observation e t f received received_ms) os)
  ∧ Forall obs_ok (omap (object_observation e t f received received_ms) os).
Proof.
  induction 1 as [|o os Hv _ (IH1 & IH2 & IH3)]; [done|]. cbn.
  destruct (object_observation e t f received received_ms o) as [ob|] eqn:Ho; cbn.
  - destruct (object_observation_ok _ _ _ _ _ _ Hv Ho) as (-> & ? & ?). split_and!; [by constructor|by constructor|by constructor].
  - split_and!; [by constructor|done|done].
Qed.

Lemma frame_identity_inj f : Inj (=) (=) (frame_identity f).
Proof. intros a b [=]. done. Qed.

Lemma prepare_frame_shape t f received received_ms os :
  prepare_frame e t f received received_ms = Ok os → frame_shape os.
Proof.
  intros ([] & Hv & [= <-])%rbind_Ok.
  apply rbind_Ok in Hv as ([] & Hlen & ([] & _ & (s & Hids & Hobjs)%rbind_Ok)%rbind_Ok).
  apply ensure_Ok in Hlen. reflect_bools.
  apply validate_ids_spec in Hids as (Hnd & _ & ->). apply validate_objects_spec in Hobjs as (Hno & Hns & Hval).
  destruct (omap_keys_sub t f received received_ms _ Hval) as (Hsub & Hact & Hobs).
  eexists _, _. split; [done|]. split_and!; [|done| | |].
  - apply Forall_fmap, Forall_forall. done.
  - pose proof (frame_identity_inj f) as Hinj.
    rewrite fmap_app, <-list_fmap_compose. apply NoDup_app. split_and!.
    + apply (NoDup_fmap_2 (frame_identity f)), Hnd.
    + intros k (id & -> & Hid)%list_elem_of_fmap Hk. apply (sublist_elem_of _ _ _ Hk) in Hsub.
      apply list_elem_of_fmap in Hsub as (id' & Heq & (o & -> & Ho)%list_elem_of_fmap).
      apply Hinj in Heq. apply Hns in Ho. set_solver.
    + eapply sublist_NoDup; [|exact Hsub]. by apply NoDup_fmap_2.
  - apply Forall_app. split; [|done]. apply Forall_fmap, Forall_forall. intros id _. split; cbn; [done|naive_solver].
  - apply sublist_length in Hsub. rewrite !length_fmap in Hsub. unfold vec_len in *.
    rewrite length_app, length_fmap. lia.
Qed.

Lemma frame_shape_filter (P : Observation → Prop) `{!∀ o, Decision (P o)} os :
  frame_shape os → frame_shape (filter P os).
Proof.
  intros (ends & acts & -> & He & Ha & Hn & Ho & Hl). exists (filter P ends), (filter P acts).
  rewrite <-filter_app. assert (∀ Q l, Forall Q l → Forall Q (filter P l)) as Hf.
  { intros Q l. apply Forall_sublist, sublist_filter. }
  pose proof (sublist_filter P (ends ++ acts)) as Hsub.
  split_and!; [done|by apply Hf|by apply Hf| |by apply Hf|].
  - eapply sublist_NoDup; [exact Hn|]. by apply sublist_fmap.
  - apply sublist_length in Hsub. unfold vec_len in *. lia.
Qed.

Lemma prepare_all_ok t os os' :
  tracker_ok t → Forall obs_ok os → prepare_all e t os = Ok os' → Forall2 refined os os' ∧ Forall obs_ok os'.
Proof.
  intros Hok Hobs. revert os'. induction Hobs as [|o os Ho Hos IH]; intros os'; cbn; [intros [= <-]; done|].
  intros (o1 & H1 & (os1 & H2 & [= <-])%rbind_Ok)%rbind_Ok.
  destruct (prepare_details_ok t o o1 Hok Ho H1). destruct (IH _ H2). split; by constructor.
Qed.

Lemma frame_shape_refined t os os' :
  tracker_ok t → frame_shape os → prepare_all e t os = Ok os' → frame_shape os'.
Proof.
  intros Hok (ends & acts & -> & He & Ha & Hn & Ho & Hl) Hp.
  destruct (prepare_all_ok t _ _ Hok Ho Hp) as [Href Hobs].
  apply Forall2_app_inv_l in Href as Hsplit. destruct Hsplit as (ends' & acts' & H1 & H2 & ->).
  exists ends', acts'. split_and!; [done| | | |done|unfold vec_len in *; by rewrite <-(Forall2_length _ _ _ Href)].
  - eapply Forall2_Forall_r in H1; [exact H1|]. eapply Forall_impl; [exact He|]. intros o Hx o' (_ & _ & Hact & _).
    unfold is_end in *. congruence.
  - eapply Forall2_Forall_r in H2; [exact H2|]. eapply Forall_impl; [exact Ha|]. intros o Hx o' (_ & _ & Hact & _).
    unfold is_act in *. congruence.
  - assert (o_key <$> ends' ++ acts' = o_key <$> ends ++ acts) as ->; [|done].
    clear -Href. induction Href as [|o o' l l' (Hk & _) _ IH]; [done|]. cbn. by rewrite Hk, IH.
Qed.

(** *** Slots *)

Lemma slot_delta_end t o : is_end o → -1 ≤ slot_delta t o ≤ 0.
Proof.
  intros Ho. unfold slot_delta. rewrite Ho.
  pose proof (freed_range t (o_key o) (Some (c_received (o_clock o)))). lia.
Qed.
Lemma slot_delta_act t o : is_act o → 0 ≤ slot_delta t o ≤ 1.
Proof. intros Ho. unfold slot_delta. rewrite Ho. split_match; lia. Qed.

(** The slots freed by deletions are distinct open events. *)
Lemma freed_le_active t ends :
  Forall is_end ends → NoDup (o_key <$> ends) →
  - Z.of_nat (size (t_active t)) ≤ zsum (slot_delta t) ends.
Proof.
  intros He. revert t. induction He as [|o ends Ho _ IH]; intros t Hn; [cbn; lia|].
  rewrite fmap_cons in Hn. apply NoDup_cons in Hn as [Hk Hn]. rewrite zsum_cons.
  set (t' := with_active t (delete (o_key o) (t_active t))).
  assert (zsum (slot_delta t) ends = zsum (slot_delta t') ends) as ->.
  { clear -Hk. induction ends as [|o' ends IH]; [done|]. rewrite !zsum_cons. rewrite fmap_cons in Hk.
    apply not_elem_of_cons in Hk as [Hne Hk]. rewrite IH by done. f_equal.
    unfold slot_delta, needs_slot, freed, t'. cbn. by rewrite lookup_delete_ne. }
  specialize (IH t' Hn). unfold t' in IH at 1. cbn in IH. unfold slot_delta at 1. rewrite Ho. unfold freed.
  destruct (t_active t !! o_key o) as [a|] eqn:Ha; [rewrite (size_delete_Z _ _ a Ha) in IH|rewrite delete_id in IH by done];
    cbn; [split_match|]; lia.
Qed.

Lemma slots_loop_ends t ends acts s :
  Forall is_end ends → 0 ≤ s + zsum (slot_delta t) ends →
  slots_loop t (ends ++ acts) s = slots_loop t acts (s + zsum (slot_delta t) ends).
Proof.
  intros He. revert s. induction He as [|o ends Ho Hends IH]; intros s Hs; cbn [app]; [by rewrite zsum_nil, Z.add_0_r|].
  rewrite zsum_cons in Hs |- *. cbn [slots_loop]. rewrite Ho.
  assert (zsum (slot_delta t) ends ≤ 0) as Hneg.
  { clear -Hends. induction Hends as [|o ends Ho _ IH]; [done|]. rewrite zsum_cons. pose proof (slot_delta_end t o Ho). lia. }
  assert (slot_delta t o = if is_some_and (λ a, negb (deferred a (c_received (o_clock o)))) (t_active t !! o_key o)
    then -1 else 0) as Hd.
  { unfold slot_delta, freed. rewrite Ho. destruct (t_active t !! o_key o) as [a|]; [|done]. cbn.
    by destruct (deferred a _). }
  rewrite Hd in Hs |- *. destruct (is_some_and _ _).
  - unfold plain_sub. rewrite (proj2 (Z.leb_le _ _)) by lia. cbn [obind]. rewrite IH by lia. f_equal. lia.
  - cbn [obind]. rewrite IH by lia. f_equal.
Qed.

Lemma slots_loop_acts t acts s :
  Forall is_act acts → s + vec_len acts ≤ usize_max →
  slots_loop t acts s = Ret (s + zsum (slot_delta t) acts).
Proof.
  intros Ha. revert s. induction Ha as [|o acts Ho _ IH]; intros s Hs; [by rewrite zsum_nil, Z.add_0_r|].
  rewrite zsum_cons. cbn [slots_loop]. unfold slot_delta at 1. rewrite Ho. unfold vec_len in *. cbn in Hs.
  destruct (needs_slot t o).
  - unfold plain_add. rewrite (proj2 (Z.leb_le _ _)) by lia. cbn [obind]. rewrite IH by lia. f_equal. lia.
  - cbn [obind]. rewrite IH by lia. f_equal.
Qed.

(** The slots in use stay within the budget along a list of observations. *)
Fixpoint fits (t : Tracker) (os : list Observation) (s : Z) : Prop :=
  match os with
  | [] => True
  | o :: os' => s + slot_delta t o ≤ ACTIVE_MAX ∧ fits t os' (s + slot_delta t o)
  end.

Lemma fits_ends t ends acts s :
  Forall is_end ends → s ≤ ACTIVE_MAX → fits t acts (s + zsum (slot_delta t) ends) → fits t (ends ++ acts) s.
Proof.
  intros He. revert s. induction He as [|o ends Ho _ IH]; intros s Hs Hf; cbn [app]; [by rewrite zsum_nil, Z.add_0_r in Hf|].
  pose proof (slot_delta_end t o Ho). split; [lia|]. apply IH; [lia|]. by rewrite <-Z.add_assoc.
Qed.

Lemma fits_acts t acts s :
  Forall is_act acts → s + zsum (slot_delta t) acts ≤ ACTIVE_MAX → fits t acts s.
Proof.
  intros Ha. revert s. induction Ha as [|o acts Ho Hacts IH]; intros s Hs; [done|]. rewrite zsum_cons in Hs.
  assert (0 ≤ zsum (slot_delta t) acts).
  { clear -Hacts. induction Hacts as [|o acts Ho _ IH]; [done|]. rewrite zsum_cons. pose proof (slot_delta_act t o Ho). lia. }
  split; [lia|]. apply IH. lia.
Qed.

Lemma fits_ext t t' os s :
  (∀ o, o ∈ os → t_active t' !! o_key o = t_active t !! o_key o) → fits t os s → fits t' os s.
Proof.
  revert s. induction os as [|o os IH]; intros s He; [done|]. cbn.
  assert (slot_delta t' o = slot_delta t o) as ->.
  { unfold slot_delta, needs_slot, freed. rewrite He; [done|]. by left. }
  intros [? ?]. split; [done|]. apply IH; [|done]. intros o' Ho'. apply He. by right.
Qed.

Lemma fits_room t o s :
  slots_used t ≤ s → s + slot_delta t o ≤ ACTIVE_MAX → is_end o ∨ is_act o → room t o.
Proof.
  intros Hs Hf Ho. split.
  - intros Ha. destruct Ho as [Ho|Ho]; unfold is_end, is_act in *; congruence.
  - intros Ha _ Hn. unfold slot_delta in Hf. rewrite Ha, Hn in Hf. lia.
Qed.

Lemma commit_all_ok os r s :
  tracker_ok (r_tracker r) → Forall obs_ok os → Forall (λ o, is_end o ∨ is_act o) os →
  NoDup (o_key <$> os) → slots_used (r_tracker r) ≤ s → fits (r_tracker r) os s →
  ∃ r', commit_all e r os = Ret r' ∧ tracker_ok (r_tracker r')
    ∧ (Inj (=) (=) (new_uuid e) → ∀ tl0, run_linked e tl0 r → run_linked e tl0 r').
Proof.
  revert r s. induction os as [|o os IH]; intros r s Hok Hobs Hact Hn Hs Hf; [by exists r|].
  apply Forall_cons in Hobs as [Ho Hobs]. apply Forall_cons in Hact as [Ha Hact]. destruct Hf as [Hf1 Hf2].
  rewrite fmap_cons in Hn. apply NoDup_cons in Hn as [Hk Hn]. cbn [commit_all].
  destruct (commit_ok e r o Hok Ho) as (r1 & -> & Hok1 & Hother & _ & Hs1 & Hlk1); [by eapply fits_room|].
  cbn [obind]. destruct (IH r1 (s + slot_delta (r_tracker r) o) Hok1 Hobs Hact Hn) as (r' & -> & Hok' & Hlk').
  - lia.
  - eapply fits_ext; [|exact Hf2]. intros o' Ho'. apply Hother. intros Heq. apply Hk. rewrite <-Heq. by apply list_elem_of_fmap_2.
  - exists r'. split_and!; auto.
Qed.

(** A frame that passes the capacity check is committed whole. *)
Lemma frame_commits t draws n os :
  tracker_ok t → frame_shape os →
  ∃ c, check_frame_capacity t os = Ret c
    ∧ (c = Ok tt → ∃ r, commit_all e (mk_run (count_duplicate t n) draws []) os = Ret r
        ∧ sound e (t, draws) (r_changes r) (r_tracker r, r_draws r)).
Proof.
  intros Hok (ends & acts & -> & He & Ha & Hn & Ho & Hl). pose proof (to_slots t Hok) as Hs.
  assert (0 ≤ slots_used t + zsum (slot_delta t) ends) as Hfree.
  { pose proof Hn as Hne. rewrite fmap_app in Hne. apply NoDup_app in Hne as [Hne _].
    pose proof (freed_le_active t ends He Hne). unfold slots_used, vec_len. lia. }
  assert (zsum (slot_delta t) ends ≤ 0) as Hneg.
  { clear -He. induction He as [|o ends Ho _ IH]; [done|]. rewrite zsum_cons. pose proof (slot_delta_end t o Ho). lia. }
  unfold check_frame_capacity. rewrite slots_loop_ends by done.
  rewrite slots_loop_acts; [|done|].
  2: { unfold vec_len in *. rewrite length_app in Hl. unfold ACTIVE_MAX, OBJECTS_MAX, usize_max, u64_max in *. lia. }
  cbn [obind]. eexists. split; [done|]. intros Hc%ensure_Ok. apply Z.leb_le in Hc.
  assert (fits t (ends ++ acts) (slots_used t)) as Hfits by (apply fits_ends; [done|done|by apply fits_acts]).
  destruct (commit_all_ok (ends ++ acts) (mk_run (count_duplicate t n) draws []) (slots_used t))
    as (r & -> & Hok' & Hlk); try done.
  - by eapply same_events_ok; [apply count_duplicate_same|].
  - apply Forall_app. split; (eapply Forall_impl; [eassumption|]); auto.
  - by eapply fits_ext; [|exact Hfits].
  - eexists. split; [done|]. apply sound_run; [done|]. intros Hinj tl0 (tl & Hrun & Hl0). apply Hlk; [done|].
    exists tl. split; [done|]. by eapply same_events_linked; [apply count_duplicate_same|].
Qed.

Lemma frame_ok w f received received_ms :
  tracker_ok w.1 →
  ∃ reply w', frame e w f received received_ms = Ret (reply, w')
    ∧ sound e w (changes_of reply) w' ∧ (∀ err, reply = Err err → w' = w).
Proof.
  destruct w as [t draws]. cbn. intros Hok. unfold frame.
  assert (∀ reply, changes_of reply = [] → ∃ reply' w',
    Ret (reply, (t, draws)) = Ret (reply', w') ∧ sound e (t, draws) (changes_of reply') w'
    ∧ (∀ err, reply' = Err err → w' = (t, draws))) as Hsame.
  { intros reply Hr. eexists _, _. split; [done|]. rewrite Hr. split; [by apply sound_refl|done]. }
  destruct (validate_policy t) as [[]|]; [|by apply Hsame]. destruct (_ || _); [by apply Hsame|].
  destruct (prepare_frame e t f received received_ms) as [os|] eqn:Hp; [|by apply Hsame].
  apply prepare_frame_shape in Hp. apply (frame_shape_filter (λ o, is_replay e (t_history t) o = false)) in Hp.
  destruct (prepare_all e t _) as [fresh|] eqn:Hall; [|by apply Hsame].
  apply (frame_shape_refined t) in Hall; [|done|done].
  destruct (frame_commits t draws (vec_len os - vec_len (filter (λ o, is_replay e (t_history t) o = false) os)) fresh Hok Hall)
    as (c & -> & Hc). cbn [obind]. destruct c as [[]|]; [|by apply Hsame].
  destruct (Hc eq_refl) as (r & -> & Hsound). cbn [obind]. eexists _, _. split; [done|]. split; [done|]. done.
Qed.
End steps.

(** ** Deadlines and transport loss *)

(** What closing a list of identities does. *)
Record closed_all (r r' : Run) (keys : list Identity) (now : option Z) : Prop := {
  ca_gone k : k ∈ keys → t_active (r_tracker r') !! k = None;
  ca_kept k : k ∉ keys → t_active (r_tracker r') !! k = t_active (r_tracker r) !! k;
  ca_pending : ∃ l, t_pending (r_tracker r') = t_pending (r_tracker r) ++ l
    ∧ ∀ n, now = Some n → Forall (λ a, deferred a n = true) l;
  ca_changes : ∃ cs, r_changes r' = r_changes r ++ cs
    ∧ ∀ k a, k ∈ keys → t_active (r_tracker r) !! k = Some a →
        ∃ end_time_ms, TimelineEventEnded (event_of a) end_time_ms ∈ cs
}.

Lemma close_all_ok keys now r :
  tracker_ok (r_tracker r) →
  ∃ r', close_all r keys now = Ret r' ∧ tracker_ok (r_tracker r') ∧ closed_all r r' keys now
    ∧ ∀ e tl0, run_linked e tl0 r → run_linked e tl0 r'.
Proof.
  revert r. induction keys as [|key keys IH]; intros r Hok.
  { exists r. split; [done|]. split; [done|]. split; [|done]. constructor; try done; [by intros k ?%elem_of_nil| |].
    - exists []. by rewrite app_nil_r.
    - exists []. rewrite app_nil_r. split; [done|]. by intros k a ?%elem_of_nil. }
  cbn [close_all]. destruct (close_ok r key None now Hok) as (r1 & -> & Hok1 & Hcl & Hlk1). cbn [obind].
  destruct (IH r1 Hok1) as (r' & -> & Hok' & [G1 G2 (l' & Gp & Gl) (cs' & Gc & Ge)] & Hlk'). exists r'.
  split; [done|]. split; [done|]. split; [|auto].
  pose proof Hcl as [Ca _ _ _ _ (l & Cp & Cl) (cs & Cc & Ce)]. constructor.
  - intros k [->|Hk]%elem_of_cons; [|by apply G1]. destruct (decide (key ∈ keys)); [by apply G1|].
    rewrite G2, Ca by done. apply lookup_delete_eq.
  - intros k [Hne Hk]%not_elem_of_cons. rewrite G2, Ca by done. by apply lookup_delete_ne.
  - exists (l ++ l'). rewrite Gp, Cp, app_assoc. split; [done|]. intros n Hn. apply Forall_app. auto.
  - exists (cs ++ cs'). rewrite Gc, Cc, app_assoc. split; [done|]. intros k a Hk Ha.
    destruct (decide (k = key)) as [->|Hne]; [destruct (Ce a Ha) as [end_ms ?]; exists end_ms; set_solver|].
    destruct (Ge k a) as [end_ms ?]; [set_solver| |exists end_ms; set_solver].
    rewrite Ca. by rewrite lookup_delete_ne.
Qed.

Lemma flush_pending_ok pending now :
  Forall a_ok pending → ∃ cs kept, flush_pending pending now = (cs, kept)
    ∧ Forall a_ok kept ∧ vec_len kept ≤ vec_len pending ∧ Forall (λ a, deferred a now = true) kept
    ∧ ∀ tl, Forall (ended_in tl) pending → tl_exec tl cs = Some tl ∧ Forall (ended_in tl) kept.
Proof.
  unfold vec_len. induction 1 as [|a pending Ha _ (cs & kept & IH1 & IH2 & IH3 & IH4 & IH5)]; [by exists [], []|].
  cbn [flush_pending]. destruct (flush_spec a now Ha) as (u & a' & -> & Ha' & Hev & _ & _ & Hd & Hdef & Hu).
  rewrite IH1. eexists _, _. split; [done|].
  assert (∀ tl, Forall (ended_in tl) (a :: pending) → tl_exec tl (option_list u ++ cs) = Some tl
    ∧ ended_in tl a' ∧ Forall (ended_in tl) kept) as Htl.
  { intros tl [Ht Hp]%Forall_cons. destruct (IH5 tl Hp) as [Hrun Hk]. split_and!; [|by unfold ended_in, event_of; rewrite Hev|done].
    rewrite tl_exec_app. assert (tl_exec tl (option_list u) = Some tl) as ->; [|done].
    destruct Hu as [-> | ->]; [done|]. by apply tl_exec_late. }
  destruct (dirty a') eqn:Hdirty; cbn [length]; split_and!; try done; try lia; try (by constructor); intros tl Hall.
  - destruct (Htl tl Hall) as (? & ? & ?). split; [done|]. by constructor.
  - destruct (Htl tl Hall) as (? & ? & ?). done.
Qed.

Definition flush_all (r : Run) (l : list (Identity * Active)) (now : Z) : Run :=
  foldl (λ r entry, flush_active r entry now) r l.

Record flushed_all (r r' : Run) (l : list (Identity * Active)) (now : Z) : Prop := {
  fa_ok : tracker_ok (r_tracker r');
  fa_other k : k ∉ l.*1 → t_active (r_tracker r') !! k = t_active (r_tracker r) !! k;
  fa_entry k a : (k, a) ∈ l → ∃ a', t_active (r_tracker r') !! k = Some a' ∧ a_last_seen a' = a_last_seen a
    ∧ dirty a' = deferred a' now;
  fa_pending : t_pending (r_tracker r') = t_pending (r_tracker r);
  fa_changes : ∃ cs, r_changes r' = r_changes r ++ cs;
  fa_linked e tl0 : run_linked e tl0 r → run_linked e tl0 r'
}.

Lemma flush_active_ok r k a now :
  tracker_ok (r_tracker r) → t_active (r_tracker r) !! k = Some a →
  flushed_all r (flush_active r (k, a) now) [(k, a)] now.
Proof.
  intros [H1 H2 H3 H4 H5] Hk. unfold flush_active. cbn [fst snd].
  destruct (flush_spec a now (H4 k a Hk)) as (u & a' & -> & Ha' & Hev & _ & Hls & Hd & Hdef & Hu).
  constructor; rewrite ?push_some_tracker; cbn [r_tracker on_tracker].
  - constructor; [|done|done| |done]; cbn; [|by apply map_Forall_insert_2].
    unfold slots_used in *. cbn. by erewrite map_size_insert_Some.
  - cbn. intros k' Hne. apply lookup_insert_ne. set_solver.
  - intros k' b Hb%list_elem_of_singleton. simplify_eq. exists a'. cbn. rewrite lookup_insert_eq. naive_solver.
  - done.
  - destruct u; cbn; [by eexists|exists []; by rewrite app_nil_r].
  - intros e tl0. by apply (flush_entry_linked e tl0 r k a a).
Qed.

Lemma flush_all_ok l now r :
  tracker_ok (r_tracker r) → NoDup l.*1 → (∀ k a, (k, a) ∈ l → t_active (r_tracker r) !! k = Some a) →
  flushed_all r (flush_all r l now) l now.
Proof.
  revert r. induction l as [|[k a] l IH]; intros r Hok Hn Hl.
  { constructor; cbn; try done; [by intros k a ?%elem_of_nil|]. exists []. by rewrite app_nil_r. }
  cbn [flush_all foldl fmap list_fmap fst] in *. apply NoDup_cons in Hn as [Hk Hn].
  destruct (flush_active_ok r k a now Hok) as [F1 F2 F3 F4 [cs F5] F6]; [apply Hl; by left|].
  destruct (IH (flush_active r (k, a) now)) as [G1 G2 G3 G4 [cs' G5] G6]; [done|done| |].
  { intros k' a' Hin. rewrite F2; [apply Hl; by right|]. cbn. intros ->%list_elem_of_singleton.
    apply Hk, list_elem_of_fmap. by exists (k, a'). }
  constructor.
  - done.
  - intros k' Hk'. cbn in Hk'. apply not_elem_of_cons in Hk' as [Hne Hk']. rewrite <-F2 by (cbn; set_solver). by apply G2.
  - intros k' a' [Heq|Hin]%elem_of_cons; [|by apply G3]. simplify_eq.
    destruct (F3 k a) as (a'' & Ha'' & ?); [by left|]. exists a''. split; [|done]. rewrite <-Ha''. by apply G2.
  - etrans; [exact G4|done].
  - exists (cs ++ cs'). etrans; [exact G5|]. by rewrite F5, app_assoc.
  - intros e tl0 Hr. by apply G6, F6.
Qed.

(** *** What is published and when, exactly *)

(** An event whose details differ from what was published last; its revision is due once
    that is a second ago. *)
Definition unpublished (a : Active) : bool := negb (details_eqb (a_details a) (a_published a)).
Definition due (now : Z) (a : Active) : bool :=
  unpublished a && (from_secs 1 <=? saturating_duration_since now (a_last_published a)).
Definition waiting (now : Z) (a : Active) : bool :=
  unpublished a && (saturating_duration_since now (a_last_published a) <? from_secs 1).

(** The revision that is due, if any, and the event after it. *)
Definition revision (now : Z) (a : Active) : list KeepPeekEvent :=
  if due now a then [TimelineEventImages (a_event a) []] else [].
Definition published (now : Z) (a : Active) : Active :=
  if due now a
  then mk_active (a_event a) (a_details a) (a_details a) (a_last_seen a) (a_last_time_ms a) now
         (a_last_camera_time a) (a_pullpoint a) (a_metadata a)
  else a.

(** The end of an event that expires, its command, and the revision it still owes. *)
Definition end_time (a : Active) : Z := Z.max (a_last_time_ms a) (ev_start_time_ms (a_event a)).
Definition ending (now : Z) (a : Active) : list KeepPeekEvent :=
  revision now a ++ [TimelineEventEnded (ev_id (a_event a)) (end_time a)].
Definition late (now : Z) (a : Active) : list Active :=
  if waiting now a then [with_event a (end_event (a_event a) (end_time a))] else [].

Lemma flush_exact a now :
  flush a now = (if due now a then Some (TimelineEventImages (a_event a) []) else None, published now a).
Proof.
  unfold flush, published, due, deferred, dirty. fold (unpublished a). unfold UPDATE_INTERVAL.
  rewrite Z.ltb_antisym. by destruct (unpublished a), (_ <=? _).
Qed.
Lemma dirty_published a now : a_ok a → dirty (published now a) = waiting now a.
Proof.
  intros [Hd _]. unfold published, due, waiting, dirty. fold (unpublished a). rewrite Z.ltb_antisym.
  destruct (unpublished a) eqn:E, (_ <=? _); cbn; try exact E.
  by rewrite details_eqb_refl.
Qed.
Lemma waiting_published a now : waiting now a = true → published now a = a.
Proof.
  unfold waiting, published, due. rewrite Z.ltb_antisym. by destruct (unpublished a), (_ <=? _).
Qed.
Lemma published_event a now : a_event (published now a) = a_event a ∧ a_last_time_ms (published now a) = a_last_time_ms a.
Proof. unfold published. by destruct (due now a). Qed.

Lemma flush_pending_exact pending now :
  Forall a_ok pending →
  flush_pending pending now = (pending ≫= revision now, filter (λ a, waiting now a = true) pending).
Proof.
  induction 1 as [|a pending Ha _ IH]; [done|]. cbn [flush_pending]. rewrite flush_exact, IH, dirty_published by done.
  rewrite filter_cons, bind_cons. unfold revision at 2. f_equal; [by destruct (due now a)|].
  destruct (waiting now a) eqn:E; [|done]. by rewrite waiting_published.
Qed.

Lemma with_pending_nil t m : with_pending (with_active t m) (t_pending t ++ []) = with_active t m.
Proof. unfold with_pending, with_active. cbn. by rewrite app_nil_r. Qed.

Lemma close_exact r key a now r' :
  t_active (r_tracker r) !! key = Some a → a_ok a → close r key None (Some now) = Ret r' →
  r' = mk_run (with_pending (with_active (r_tracker r) (delete key (t_active (r_tracker r))))
                 (t_pending (r_tracker r) ++ late now a))
         (r_draws r) (r_changes r ++ ending now a).
Proof.
  intros Hk Ha. unfold close. rewrite Hk, flush_exact. destruct (published_event a now) as [Ev Et].
  rewrite dirty_published, Ev, Et by done. cbn [unwrap_or]. rewrite Z.max_id. fold (end_time a). cbv zeta.
  unfold late, ending, revision. destruct (waiting now a) eqn:Hw; [rewrite (waiting_published a now Hw)|]; case_match; try done; intros [= <-];
    destruct (due now a); unfold push_change, on_tracker; cbn; rewrite ?with_pending_nil, <-?app_assoc; done.
Qed.

Lemma close_all_exact l now r r' :
  NoDup l.*1 → (∀ k a, (k, a) ∈ l → t_active (r_tracker r) !! k = Some a ∧ a_ok a) →
  close_all r l.*1 (Some now) = Ret r' →
  r' = mk_run (with_pending (with_active (r_tracker r) (foldl (λ m p, delete p.1 m) (t_active (r_tracker r)) l))
                 (t_pending (r_tracker r) ++ (l ≫= λ p, late now p.2)))
         (r_draws r) (r_changes r ++ (l ≫= λ p, ending now p.2)).
Proof.
  revert r. induction l as [|[k a] l IH]; intros r Hn Hl.
  { cbn. intros [= <-]. rewrite !app_nil_r. destruct r as [[] ? ?]. done. }
  rewrite fmap_cons in Hn |- *. cbn [close_all fst] in *. apply NoDup_cons in Hn as [Hk Hn].
  destruct (close r k None (Some now)) as [r1|] eqn:E; [|done]. cbn [obind].
  destruct (Hl k a) as [Ha Hok]; [by left|]. apply (close_exact r k a now) in E as ->; [|done..].
  intros H. apply IH in H as ->; [|done|].
  - cbn [r_tracker r_draws r_changes with_pending with_active t_active t_pending]. rewrite !bind_cons. cbn [foldl fst snd].
    by rewrite !app_assoc.
  - cbn. intros k' a' Hin. rewrite lookup_delete_ne; [apply Hl; by right|]. intros ->. apply Hk, list_elem_of_fmap.
    by exists (k', a').
Qed.

Lemma flush_all_exact l now r :
  flush_all r l now
  = mk_run (with_active (r_tracker r) (foldl (λ m p, <[p.1 := published now p.2]> m) (t_active (r_tracker r)) l))
      (r_draws r) (r_changes r ++ (l ≫= λ p, revision now p.2)).
Proof.
  unfold flush_all. revert r. induction l as [|[k a] l IH]; intros r.
  { cbn. rewrite app_nil_r. destruct r as [[] ? ?]. done. }
  cbn [foldl]. rewrite IH, bind_cons. unfold flush_active. cbn [fst snd]. rewrite flush_exact. unfold revision.
  destruct (due now a); unfold push_some, push_change, on_tracker; cbn; by rewrite <-?app_assoc.
Qed.

Section deadlines.
Context (iter : gmap Identity Active → list (Identity * Active)) `{!MapOrder iter}.

Lemma iter_elem m k a : (k, a) ∈ iter m ↔ m !! k = Some a.
Proof. rewrite (map_order m). apply elem_of_map_to_list. Qed.
Lemma iter_NoDup m : NoDup (iter m).*1.
Proof. rewrite (map_order m). apply NoDup_fst_map_to_list. Qed.

Lemma run_linked_start e t draws tl : linked e t draws tl → run_linked e tl (mk_run t draws []).
Proof. intros Hl. by exists tl. Qed.

Definition expired_keys (t : Tracker) (now : Z) : list Identity :=
  (filter (λ entry, is_expired now entry = true) (iter (t_active t))).*1.

Lemma expire_ok e w now :
  tracker_ok w.1 →
  ∃ out w', expire iter w now = Ret (out, w') ∧ sound e w out w'.
Proof.
  destruct w as [t draws]. cbn [fst]. intros Hok. pose proof Hok as [H1 H2 H3 H4 H5]. unfold expire.
  destruct (flush_pending_ok (t_pending t) now H5) as (cs & kept & -> & Hk1 & Hk2 & Hk3 & Hk4).
  fold (expired_keys t now). set (r0 := mk_run (with_pending t kept) draws cs).
  assert (tracker_ok (r_tracker r0)) as Hok0.
  { constructor; cbn; try done. unfold slots_used in *. cbn. lia. }
  destruct (close_all_ok (expired_keys t now) (Some now) r0 Hok0) as (r1 & -> & Hok1 & Hclosed & Hlk1).
  cbn [obind]. fold (flush_all r1 (iter (t_active (r_tracker r1))) now).
  assert (flushed_all r1 (flush_all r1 (iter (t_active (r_tracker r1))) now) (iter (t_active (r_tracker r1))) now) as Hfl.
  { apply flush_all_ok; [done|apply iter_NoDup|]. intros k a. by rewrite iter_elem. }
  eexists _, _. split; [done|]. split; [by apply Hfl|]. intros _ tl Hl. cbn [fst snd] in Hl.
  destruct (Hk4 tl (lk_pending _ _ _ _ Hl)) as [Htl Hpend].
  assert (run_linked e tl r0) as Hr0 by (exists tl; split; [done|]; destruct Hl; by constructor).
  destruct (fa_linked _ _ _ _ Hfl e tl (Hlk1 e tl Hr0)) as (tl' & ? & ?). by exists tl'.
Qed.

(** *** The effect of [expire], exactly *)

Definition deadline (k : Identity) : Z :=
  match k with Property _ => from_secs 30 | Object _ _ => from_secs 5 end.
Definition expired (now : Z) (p : Identity * Active) : Prop :=
  deadline p.1 ≤ saturating_duration_since now (a_last_seen p.2).
#[global] Instance expired_dec now p : Decision (expired now p).
Proof. unfold expired. apply _. Defined.

Lemma iter_filter (P : Identity * Active → Prop) `{!∀ p, Decision (P p)} m :
  filter P (iter m) ≡ₚ map_to_list (filter P m).
Proof.
  apply NoDup_Permutation.
  - apply NoDup_filter, (NoDup_fmap_1 fst), iter_NoDup.
  - apply NoDup_map_to_list.
  - intros [k a]. rewrite list_elem_of_filter, iter_elem, elem_of_map_to_list, map_lookup_filter_Some. naive_solver.
Qed.

Lemma foldl_delete_filter l (m : gmap Identity Active) (P : Identity * Active → Prop) `{!∀ p, Decision (P p)} :
  l ≡ₚ map_to_list (filter P m) → foldl (λ m p, delete p.1 m) m l = filter (λ p, ¬ P p) m.
Proof.
  intros Hl. assert (∀ l (m : gmap Identity Active) k, foldl (λ m (p : Identity * Active), delete p.1 m) m l !! k
    = if decide (k ∈ l.*1) then None else m !! k) as Hfold.
  { clear. induction l as [|[k a] l IH]; intros m k'; [by rewrite decide_False by apply not_elem_of_nil|].
    cbn [foldl]. rewrite IH, fmap_cons. cbn [fst]. destruct (decide (k' = k)) as [->|Hne].
    - rewrite lookup_delete_eq. destruct (decide (k ∈ k :: l.*1)) as [_|Hn]; [by destruct (decide _)|]. set_solver.
    - rewrite lookup_delete_ne by done. apply decide_ext. set_solver. }
  apply map_eq. intros k. rewrite Hfold, map_lookup_filter.
  destruct (m !! k) as [a|] eqn:Hk; cbn; [|by destruct (decide _)].
  assert (k ∈ l.*1 ↔ P (k, a)) as Hin.
  { rewrite list_elem_of_fmap. setoid_rewrite Hl. split.
    - intros ([k' a'] & -> & [Ha' HP]%elem_of_map_to_list%map_lookup_filter_Some). cbn in *. by simplify_eq.
    - intros HP. exists (k, a). split; [done|]. by apply elem_of_map_to_list, map_lookup_filter_Some. }
  destruct (decide (k ∈ l.*1)) as [Hy|Hy]; [rewrite option_guard_False|rewrite option_guard_True]; rewrite <-?Hin; auto.
Qed.

Lemma foldl_insert_fmap l (m : gmap Identity Active) (f : Active → Active) :
  l ≡ₚ map_to_list m → foldl (λ m (p : Identity * Active), <[p.1 := f p.2]> m) m l = f <$> m.
Proof.
  intros Hl. assert (NoDup l.*1) as Hn by (rewrite Hl; apply NoDup_fst_map_to_list).
  assert (∀ l (m0 : gmap Identity Active) k, NoDup l.*1 →
    foldl (λ m (p : Identity * Active), <[p.1 := f p.2]> m) m0 l !! k
    = match (list_to_map l : gmap Identity Active) !! k with Some a => Some (f a) | None => m0 !! k end) as Hfold.
  { clear. induction l as [|[k a] l IH]; intros m0 k' Hn; [done|]. rewrite fmap_cons in Hn. apply NoDup_cons in Hn as [Hk Hn].
    cbn [foldl]. rewrite list_to_map_cons, IH by done. destruct (decide (k = k')) as [<-|Hne].
    - cbn in Hk. by rewrite !lookup_insert_eq, not_elem_of_list_to_map_1 by done.
    - by rewrite !lookup_insert_ne by done. }
  apply map_eq. intros k. rewrite Hfold, lookup_fmap by done.
  assert ((list_to_map l : gmap Identity Active) = m) as ->; [|by destruct (m !! k)].
  rewrite (list_to_map_proper l (map_to_list m)) by done. apply list_to_map_to_list.
Qed.

Lemma expire_exact w now :
  tracker_ok w.1 →
  ∃ ended kept,
    ended ≡ₚ map_to_list (filter (expired now) (t_active w.1))
    ∧ kept ≡ₚ map_to_list (filter (λ p, ¬ expired now p) (t_active w.1))
    ∧ expire iter w now
      = Ret ((t_pending w.1 ≫= revision now) ++ (ended ≫= λ p, ending now p.2) ++ (kept ≫= λ p, revision now p.2),
             (mk_tracker (t_camera_id w.1) (t_policy w.1) (t_record_motion w.1)
                (published now <$> filter (λ p, ¬ expired now p) (t_active w.1)) (t_baselines w.1) (t_history w.1)
                (filter (λ a, waiting now a = true) (t_pending w.1) ++ (ended ≫= λ p, late now p.2))
                (t_deduplicated w.1), w.2)).
Proof.
  destruct w as [t draws]. cbn [fst snd]. intros Hok. pose proof Hok as [H1 H2 H3 H4 H5].
  set (ended := filter (λ entry, is_expired now entry = true) (iter (t_active t))).
  assert (ended ≡ₚ map_to_list (filter (expired now) (t_active t))) as Hended.
  { unfold ended. rewrite <-iter_filter. apply reflexive_eq, list_filter_iff. intros [k a].
    unfold is_expired, expired, timeout, deadline, PROPERTY_TIMEOUT, OBJECT_TIMEOUT. cbn. by rewrite Z.leb_le. }
  exists ended. unfold expire. rewrite flush_pending_exact by done. fold ended.
  set (r0 := mk_run _ draws _). destruct (close_all_ok ended.*1 (Some now) r0) as (r1 & E & _).
  { constructor; cbn; try done; [|eapply Forall_sublist; [apply sublist_filter|done]]. unfold slots_used in *. cbn.
    pose proof (length_filter (λ a, waiting now a = true) (t_pending t)). unfold vec_len in *. lia. }
  rewrite E. cbn [obind]. apply close_all_exact in E; cycle 1.
  { unfold ended. eapply sublist_NoDup; [apply (iter_NoDup (t_active t))|]. apply fmap_sublist, sublist_filter. }
  { intros k a [_ Hin%iter_elem]%list_elem_of_filter. split; [done|]. by apply (H4 k). }
  cbn in E. rewrite (foldl_delete_filter _ _ (expired now)) in E by done.
  fold (flush_all r1 (iter (t_active (r_tracker r1))) now). rewrite flush_all_exact, E. cbn.
  exists (iter (filter (λ p, ¬ expired now p) (t_active t))). split; [done|]. split; [apply map_order|].
  rewrite foldl_insert_fmap by apply map_order. by rewrite <-app_assoc.
Qed.

Lemma disconnect_ok e w :
  tracker_ok w.1 → ∃ out w', disconnect iter w = Ret (out, w') ∧ sound e w out w' ∧ t_active w'.1 = ∅.
Proof.
  destruct w as [t draws]. cbn. intros Hok. unfold disconnect.
  destruct (close_all_ok (iter (t_active t)).*1 None (mk_run t draws []) Hok) as (r & -> & Hok' & [C1 C2 _ _] & Hlk).
  cbn [obind]. eexists _, _. split; [done|]. split; [apply sound_run; [done|]; intros _ tl0; apply Hlk|]. cbn.
  apply map_empty. intros k. destruct (decide (k ∈ (iter (t_active t)).*1)) as [Hin|Hout]; [by apply C1|].
  rewrite C2 by done. cbn. destruct (t_active t !! k) as [a|] eqn:Ha; [|done].
  exfalso. apply Hout, list_elem_of_fmap. exists (k, a). by rewrite iter_elem.
Qed.

Lemma lose_transport_same tr t :
  same_events t (with_active t (map_imap (λ key a, Some (lose_transport tr key a)) (t_active t))).
Proof. apply mark_same_events. intros k a. by destruct k, tr. Qed.

Lemma disconnect_transport_ok e w tr :
  tracker_ok w.1 → ∃ out w', disconnect_transport iter w tr = Ret (out, w') ∧ sound e w out w'.
Proof.
  destruct w as [t draws]. cbn. intros Hok. unfold disconnect_transport.
  set (t1 := with_active t _). assert (same_events t t1) as Hse by apply lose_transport_same.
  destruct (close_all_ok (filter (λ x, closes_on_loss tr x = true) (iter (t_active t))).*1 None (mk_run t1 draws []))
    as (r & -> & Hok' & _ & Hlk); [by eapply same_events_ok|].
  cbn [obind]. eexists _, _. split; [done|]. apply sound_run; [done|]. intros _ tl0 (tl & Ht & Hl). apply Hlk.
  exists tl. split; [done|]. by eapply same_events_linked.
Qed.
End deadlines.

(** ** Whole runs *)

Inductive TrackerOp :=
| OpApply (n : Notification) (received received_ms : Z)
| OpApplyMetadata (n : Notification) (received received_ms : Z)
| OpFrame (f : Frame) (received received_ms : Z)
| OpExpire (now : Z)
| OpDisconnect
| OpDisconnectMetadata
| OpDisconnectPullpoint.

Definition infallible {A : Type} (m : outcome (list KeepPeekEvent * A))
    : outcome (result string (list KeepPeekEvent) * A) :=
  let! (out, w) := m in Ret (Ok out, w).

Definition tracker_exec (e : Environment) (iter : gmap Identity Active → list (Identity * Active))
    (w : Tracker * nat) (op : TrackerOp)
    : outcome (result string (list KeepPeekEvent) * (Tracker * nat)) :=
  match op with
  | OpApply n received received_ms => apply e w n received received_ms
  | OpApplyMetadata n received received_ms => apply_metadata e w n received received_ms
  | OpFrame f received received_ms => frame e w f received received_ms
  | OpExpire now => infallible (expire iter w now)
  | OpDisconnect => infallible (disconnect iter w)
  | OpDisconnectMetadata => infallible (disconnect_metadata iter w)
  | OpDisconnectPullpoint => infallible (disconnect_pullpoint iter w)
  end.

(** All commands of a sequence of operations, in order. *)
Fixpoint tracker_run (e : Environment) (iter : gmap Identity Active → list (Identity * Active))
    (w : Tracker * nat) (ops : list TrackerOp) : outcome (list KeepPeekEvent * (Tracker * nat)) :=
  match ops with
  | [] => Ret ([], w)
  | op :: ops' =>
      let! (reply, w) := tracker_exec e iter w op in
      let! (out, w) := tracker_run e iter w ops' in
      Ret (changes_of reply ++ out, w)
  end.

Section runs.
Context (e : Environment) (iter : gmap Identity Active → list (Identity * Active)).
Context `{!NormalizerLaws e} `{!MapOrder iter}.

Lemma tracker_exec_ok w op :
  tracker_ok w.1 →
  ∃ reply w', tracker_exec e iter w op = Ret (reply, w')
    ∧ sound e w (changes_of reply) w' ∧ (∀ err, reply = Err err → w' = w).
Proof.
  intros Hok. destruct op as [n t ms|n t ms|f t ms|now| | |]; cbn [tracker_exec].
  - destruct (apply_from_ok e w n t ms PullPoint Hok) as (reply & w' & ? & ? & ? & _). by exists reply, w'.
  - unfold apply_metadata. case_bool_decide.
    + exists (Ok []), w. split; [done|]. split; [by apply sound_refl|done].
    + destruct (apply_from_ok e w n t ms Metadata Hok) as (reply & w' & ? & ? & ? & _). by exists reply, w'.
  - by apply frame_ok.
  - destruct (expire_ok iter e w now Hok) as (out & w' & -> & ?). by exists (Ok out), w'.
  - destruct (disconnect_ok iter e w Hok) as (out & w' & -> & ? & _). by exists (Ok out), w'.
  - unfold disconnect_metadata. destruct (disconnect_transport_ok iter e w Metadata Hok) as (out & w' & -> & ?).
    by exists (Ok out), w'.
  - unfold disconnect_pullpoint. destruct (disconnect_transport_ok iter e w PullPoint Hok) as (out & w' & -> & ?).
    by exists (Ok out), w'.
Qed.

Lemma tracker_run_ok ops w :
  tracker_ok w.1 → ∃ out w', tracker_run e iter w ops = Ret (out, w') ∧ sound e w out w'.
Proof.
  revert w. induction ops as [|op ops IH]; intros w Hok.
  { exists [], w. split; [done|]. by apply sound_refl. }
  cbn [tracker_run]. destruct (tracker_exec_ok w op Hok) as (reply & w1 & -> & Hs & _). cbn [obind].
  destruct (IH w1 (proj1 Hs)) as (out & w' & -> & Hs'). cbn [obind].
  eexists _, _. split; [done|]. by eapply sound_trans.
Qed.

Lemma tracker_new_ok camera_id policy record_motion : tracker_ok (tracker_new camera_id policy record_motion).
Proof. constructor; cbn; try done. apply history_new_ok. Qed.

Lemma tracker_new_linked camera_id policy record_motion :
  linked e (tracker_new camera_id policy record_motion) 0 tl_new.
Proof. constructor; cbn; try done. intros id [z Hz]. done. Qed.

Lemma tracker_reachable_ok camera_id policy record_motion ops out w :
  tracker_run e iter (tracker_new camera_id policy record_motion, 0%nat) ops = Ret (out, w) → tracker_ok w.1.
Proof.
  intros Hrun. destruct (tracker_run_ok ops _ (tracker_new_ok camera_id policy record_motion : tracker_ok (_, 0%nat).1))
    as (out' & w' & Hr & Hs & _).
  rewrite Hrun in Hr. by simplify_eq.
Qed.

(** C28. No sequence of notifications, frames, deadlines and transport losses makes the
    tracker abort: its assertions hold, its [expect]s succeed and its counters do not
    underflow.  Open and deferred events share 128 slots, baselines another 128, and
    watermarks and fingerprints 1024 each; an operation that fails leaves the state as
    it was. *)
Theorem tracker_never_aborts camera_id policy record_motion ops :
  ∃ out w, tracker_run e iter (tracker_new camera_id policy record_motion, 0%nat) ops = Ret (out, w)
    ∧ Z.of_nat (size (t_active w.1)) + vec_len (t_pending w.1) ≤ ACTIVE_MAX
    ∧ Z.of_nat (size (t_baselines w.1)) ≤ BASELINE_MAX
    ∧ Z.of_nat (size (marks (t_history w.1))) ≤ HISTORY_MAX
    ∧ Z.of_nat (size (seen (t_history w.1))) ≤ HISTORY_MAX
    ∧ ∀ op, ∃ reply w', tracker_exec e iter w op = Ret (reply, w') ∧ ∀ err, reply = Err err → w' = w.
Proof.
  destruct (tracker_run_ok ops _ (tracker_new_ok camera_id policy record_motion : tracker_ok (_, 0%nat).1))
    as (out & w & Hr & Hok & _).
  exists out, w. destruct Hok as [H1 H2 H3 H4 H5] eqn:Heq. split_and!; try done.
  - by apply H3.
  - rewrite history_seen_size by done. by apply H3.
  - intros op. destruct (tracker_exec_ok w op Hok) as (reply & w' & ? & _ & ?). by exists reply, w'.
Qed.

(** C29. Over any run the commands form a valid timeline: every identifier starts once,
    ends at most once, after it started, while open and not before its start, and is
    revised only after it started, carrying its end exactly when it has ended.  The
    open identifiers are those of the tracker's active events.  Identifiers are taken
    to be distinct. *)
Theorem tracker_refines_timeline camera_id policy record_motion ops out w :
  Inj (=) (=) (new_uuid e) →
  tracker_run e iter (tracker_new camera_id policy record_motion, 0%nat) ops = Ret (out, w) →
  ∃ tl, tl_exec tl_new out = Some tl
    ∧ ∀ id, id ∈ tl_open tl ↔ ∃ k a, t_active w.1 !! k = Some a ∧ ev_id (a_event a) = id.
Proof.
  intros Hinj Hrun. destruct (tracker_run_ok ops _ (tracker_new_ok camera_id policy record_motion : tracker_ok (_, 0%nat).1))
    as (out' & w' & Hr & _ & Hs). rewrite Hrun in Hr. simplify_eq.
  destruct (Hs Hinj tl_new (tracker_new_linked camera_id policy record_motion)) as (tl & Htl & Hl).
  exists tl. split; [done|]. intros id. split; [apply (lk_open _ _ _ _ Hl)|].
  intros (k & a & Ha & <-). by destruct (lk_active _ _ _ _ Hl k a Ha) as (_ & ? & _).
Qed.

(** A notification that produced commands produces none when it is delivered again,
    by either transport and at any later receipt time, and leaves every event, baseline
    and deferred revision as it was. *)
Theorem redelivery_ignored camera_id policy record_motion ops out w n t1 ms1 tr1 out1 w1 t2 ms2 tr2 :
  tracker_run e iter (tracker_new camera_id policy record_motion, 0%nat) ops = Ret (out, w) →
  apply_from e w n t1 ms1 tr1 = Ret (Ok out1, w1) → out1 ≠ [] →
  ∃ reply w2, apply_from e w1 n t2 ms2 tr2 = Ret (reply, w2)
    ∧ changes_of reply = [] ∧ w2.2 = w1.2 ∧ same_events w1.1 w2.1.
Proof.
  intros Hrun%tracker_reachable_ok Hap Hne.
  destruct (apply_from_ok e w n t1 ms1 tr1 Hrun) as (reply & w1' & Hap' & Hs & _ & Hf).
  rewrite Hap in Hap'. simplify_eq. destruct (Hf Hne) as (o & Ho & Hseen). destruct w1' as [t draws]. cbn in *.
  unfold apply_from. destruct (prepare_notification_ok e t n t2 ms2) as (r & -> & Hr). cbn [obind].
  destruct r as [[o'|]|err].
  2,3: eexists _, (t, draws); split_and!; try done; apply same_events_refl.
  destruct (Hr o' eq_refl) as [_ Ho'].
  assert (is_replay e (t_history t) o' = true) as ->.
  { unfold is_replay. rewrite bool_decide_true; [done|].
    by rewrite (from_notification_fingerprint e n o' o Ho' Ho). }
  eexists _, _. split_and!; try done. cbn. eapply same_events_trans; [|apply count_duplicate_same].
  destruct (is_active_action o'); [apply remember_transport_same|apply same_events_refl].
Qed.

(** C30. [expire] enforces the deadlines and publishes every revision that is due, and
    nothing else.  A revision is due when the details of an event differ from what was
    published last, a second ago or more.  The commands are, in this order: the due
    revisions of ended events that still owed one; for each event whose last observation
    is as old as its deadline (30 s for properties, 5 s for objects) its due revision and
    its end, at its last time and not before its start; and the due revisions of the
    other events.  Exactly those others stay open, with what was published noted; ended
    events that owe a revision not yet due are kept for later; nothing else changes. *)
Theorem expire_enforces_deadlines camera_id policy record_motion ops out w now :
  tracker_run e iter (tracker_new camera_id policy record_motion, 0%nat) ops = Ret (out, w) →
  ∃ ended kept,
    ended ≡ₚ map_to_list (filter (λ p, deadline p.1 ≤ saturating_duration_since now (a_last_seen p.2)) (t_active w.1))
    ∧ kept ≡ₚ map_to_list (filter (λ p, ¬ deadline p.1 ≤ saturating_duration_since now (a_last_seen p.2)) (t_active w.1))
    ∧ expire iter w now
      = Ret ((t_pending w.1 ≫= revision now)
             ++ (ended ≫= λ p, revision now p.2 ++ [TimelineEventEnded (ev_id (a_event p.2)) (end_time p.2)])
             ++ (kept ≫= λ p, revision now p.2),
             (mk_tracker (t_camera_id w.1) (t_policy w.1) (t_record_motion w.1)
                (published now <$> filter (λ p, ¬ deadline p.1 ≤ saturating_duration_since now (a_last_seen p.2)) (t_active w.1))
                (t_baselines w.1) (t_history w.1)
                (filter (λ a, waiting now a = true) (t_pending w.1) ++ (ended ≫= λ p, late now p.2))
                (t_deduplicated w.1), w.2)).
Proof. intros Hrun%tracker_reachable_ok. exact (expire_exact iter w now Hrun). Qed.
End runs.

(** ** A concrete camera *)

Fixpoint demo_uuid (n : nat) : string :=
  match n with O => EmptyString | S n' => String (Ascii.ascii_of_N 49) (demo_uuid n') end.

(** The environment has the ONVIF normalizer, so its laws are [onvif_laws]. *)
Definition demo_env : Environment :=
  onvif_environment (λ _, "2026-01-01T00:00:00Z") (λ _, Ok 100) id demo_uuid.

#[export] Instance demo_order : MapOrder map_to_list.
Proof. intros m. reflexivity. Qed.

Lemma demo_uuid_inj : Inj (=) (=) (new_uuid demo_env).
Proof. intros n. cbn. induction n as [|n IH]; intros [|m] [=]; auto. Qed.

Definition demo_config : EventConfig := mk_config ModeAuto MetadataAuto None [] [] [] true.
Definition demo_notification (value : string) (utc : Z) : Notification :=
  mk_notification (mk_topic "" [mk_name (Some TOPICS) "VideoSource"; mk_name None "MotionAlarm"]) utc Camera
    (Some Changed) (mk_items [] []) (mk_items [] []) (mk_items [mk_simple "State" value] []).

Definition demo_property : Identity :=
  ltac:(let x := eval vm_compute in (normalize_result (demo_notification "true" 0)) in
        match x with Ok (Some ?d) => let i := eval vm_compute in (det_identity d) in exact (Property i) end).

(** Motion starts at second 1; the deadline passes; a later report opens a new event. *)
Definition demo_ops : list TrackerOp :=
  [OpApply (demo_notification "true" (from_secs 1)) (from_secs 1) 1000;
   OpExpire (from_secs 40);
   OpApply (demo_notification "true" (from_secs 50)) (from_secs 50) 50000].

Definition demo_tracker : Tracker * nat := (tracker_new "camera" demo_config true, 0%nat).
Definition demo_result : list KeepPeekEvent * (Tracker * nat) :=
  match tracker_run demo_env map_to_list demo_tracker demo_ops with
  | Ret r => r
  | Panic => ([], demo_tracker)
  end.

Lemma demo_run : tracker_run demo_env map_to_list demo_tracker demo_ops = Ret (demo_result.1, demo_result.2).
Proof.
  destruct (tracker_run_ok demo_env map_to_list demo_ops demo_tracker) as (out & w & Hr & _); [apply tracker_new_ok|].
  unfold demo_result. by rewrite Hr.
Qed.

Lemma tracker_never_aborts_witness :
  ∃ out w, tracker_run demo_env map_to_list demo_tracker demo_ops = Ret (out, w)
    ∧ Z.of_nat (size (t_active w.1)) + vec_len (t_pending w.1) ≤ ACTIVE_MAX.
Proof.
  destruct (tracker_never_aborts demo_env map_to_list "camera" demo_config true demo_ops) as (out & w & Hr & Hs & _).
  exists out, w. exact (conj Hr Hs).
Defined.

Lemma tracker_refines_timeline_witness :
  ∃ tl, tl_exec tl_new demo_result.1 = Some tl ∧ "1" ∈ tl_open tl ∧ length demo_result.1 = 3%nat.
Proof.
  destruct (tracker_refines_timeline demo_env map_to_list "camera" demo_config true demo_ops _ _ demo_uuid_inj demo_run)
    as (tl & Htl & Hopen). exists tl. split; [exact Htl|]. split; [|vm_compute; reflexivity].
  apply Hopen. exists demo_property. eexists. split; vm_compute; reflexivity.
Defined.

Definition demo_reply : result string (list KeepPeekEvent) * (Tracker * nat) :=
  match apply_from demo_env demo_tracker (demo_notification "true" (from_secs 1)) (from_secs 1) 1000 PullPoint with
  | Ret r => r
  | Panic => (Ok [], demo_tracker)
  end.

Lemma demo_reply_run :
  apply_from demo_env demo_tracker (demo_notification "true" (from_secs 1)) (from_secs 1) 1000 PullPoint
  = Ret (Ok (changes_of demo_reply.1), demo_reply.2).
Proof.
  assert (match demo_reply.1 with Ok _ => true | Err _ => false end = true) as Hok by (vm_compute; reflexivity).
  destruct (apply_from_ok demo_env demo_tracker (demo_notification "true" (from_secs 1)) (from_secs 1) 1000 PullPoint)
    as (reply & w & Hr & _); [apply tracker_new_ok|].
  assert (demo_reply = (reply, w)) as E by (unfold demo_reply; rewrite Hr; exact eq_refl).
  rewrite E in Hok |- *. rewrite Hr. clear - Hok. destruct reply; [exact eq_refl|discriminate Hok].
Qed.

Lemma redelivery_ignored_witness :
  ∃ reply w2, apply_from demo_env demo_reply.2 (demo_notification "true" (from_secs 1)) (from_secs 3) 3000 Metadata
    = Ret (reply, w2) ∧ changes_of reply = [].
Proof.
  destruct (redelivery_ignored demo_env map_to_list "camera" demo_config true [] [] demo_tracker
    (demo_notification "true" (from_secs 1)) (from_secs 1) 1000 PullPoint (changes_of demo_reply.1) demo_reply.2
    (from_secs 3) 3000 Metadata) as (reply & w2 & ? & ? & _).
  - reflexivity.
  - exact demo_reply_run.
  - assert (length (changes_of demo_reply.1) = 1%nat) as Hl by (vm_compute; reflexivity).
    intros He. rewrite He in Hl. discriminate Hl.
  - exists reply, w2. split; assumption.
Defined.

(** The event that the last notification opened. *)
Definition demo_active : Active :=
  ltac:(let x := eval vm_compute in (t_active demo_result.2.1 !! demo_property) in
        match x with Some ?a => exact a end).

(** At second 80 the event opened at second 50 ends at its last time. *)
Lemma expire_enforces_deadlines_witness :
  ∃ cs w', expire map_to_list demo_result.2 (from_secs 80) = Ret (cs, w')
    ∧ cs = [TimelineEventEnded (ev_id (a_event demo_active)) 50000] ∧ t_active w'.1 = ∅.
Proof.
  destruct (expire_enforces_deadlines demo_env map_to_list "camera" demo_config true demo_ops _ _ (from_secs 80) demo_run)
    as (ended & kept & He & Hk & Hx).
  assert (map_to_list (filter (λ p, deadline p.1 ≤ saturating_duration_since (from_secs 80) (a_last_seen p.2))
    (t_active demo_result.2.1)) = [(demo_property, demo_active)]) as E1 by (vm_compute; reflexivity).
  assert (filter (λ p, ¬ deadline p.1 ≤ saturating_duration_since (from_secs 80) (a_last_seen p.2))
    (t_active demo_result.2.1) = ∅) as E2 by (vm_compute; reflexivity).
  rewrite E1 in He. rewrite E2, map_to_list_empty in Hk. apply Permutation_singleton_r in He as ->.
  apply Permutation_nil_r in Hk as ->. rewrite E2 in Hx. eexists _, _. split; [exact Hx|].
  split; [vm_compute; reflexivity|]. cbn [fst t_active]. apply fmap_empty.
Defined.
