(* ===== verification/NotifyModel.v ===== *)
(** * Notification rules

    [src/notifications/model.rs] with the types of [src/notifications.rs]: candidates,
    rules, schedules and matching.

    [ZoneData] stands for [chrono] and [chrono_tz]: which zones exist, which timestamps
    are representable, and the local weekday (from Monday, 1 to 7), hour and minute. *)

From S2P Require Import Prelude CameraEvent.

Inductive Trigger :=
| EventCreated | EventUpdated | EventEnded | OutageStarted | TriggerRecovery
| StorageHealth | RecordingHealth | TriggerTest.
Inductive Severity := Info | Warning | Critical.
Inductive Lifecycle := LifeEvent | LifeOutage | LifeStorage | LifeRecording | LifeTest.
Inductive Stage := Preliminary | Enriched | StageRecovery.
Inductive CooldownScope := ScopeEvent | CameraEventKind | ScopeGroup | ScopeRule | ScopeOutage.
Inductive RateLimitScope := RateRule | RateChannel | RatePrincipal | RateGlobal.
Inductive Channel := Browser | Push | Webhook | Forwarder.
Inductive AttachmentPolicy := Never | WhenAvailable | Required.
Inductive Weekday := Monday | Tuesday | Wednesday | Thursday | Friday | Saturday | Sunday.

#[export] Instance trigger_eq_dec : EqDecision Trigger.
Proof. solve_decision. Defined.
#[export] Instance severity_eq_dec : EqDecision Severity.
Proof. solve_decision. Defined.
#[export] Instance lifecycle_eq_dec : EqDecision Lifecycle.
Proof. solve_decision. Defined.
#[export] Instance stage_eq_dec : EqDecision Stage.
Proof. solve_decision. Defined.
#[export] Instance cooldown_scope_eq_dec : EqDecision CooldownScope.
Proof. solve_decision. Defined.
#[export] Instance rate_scope_eq_dec : EqDecision RateLimitScope.
Proof. solve_decision. Defined.
#[export] Instance channel_eq_dec : EqDecision Channel.
Proof. solve_decision. Defined.
#[export] Instance attachment_policy_eq_dec : EqDecision AttachmentPolicy.
Proof. solve_decision. Defined.
#[export] Instance notify_weekday_eq_dec : EqDecision Weekday.
Proof. solve_decision. Defined.

#[export] Instance lifecycle_countable : Countable Lifecycle.
Proof.
  refine (inj_countable'
    (λ l, match l with LifeEvent => 0 | LifeOutage => 1 | LifeStorage => 2 | LifeRecording => 3 | LifeTest => 4 end)
    (λ z : Z, match z with 0 => LifeEvent | 1 => LifeOutage | 2 => LifeStorage | 3 => LifeRecording | _ => LifeTest end) _).
  by intros [].
Defined.
#[export] Instance stage_countable : Countable Stage.
Proof.
  refine (inj_countable' (λ s, match s with Preliminary => 0 | Enriched => 1 | StageRecovery => 2 end)
    (λ z : Z, match z with 0 => Preliminary | 1 => Enriched | _ => StageRecovery end) _).
  by intros [].
Defined.
#[export] Instance cooldown_scope_countable : Countable CooldownScope.
Proof.
  refine (inj_countable'
    (λ s, match s with ScopeEvent => 0 | CameraEventKind => 1 | ScopeGroup => 2 | ScopeRule => 3 | ScopeOutage => 4 end)
    (λ z : Z, match z with 0 => ScopeEvent | 1 => CameraEventKind | 2 => ScopeGroup | 3 => ScopeRule | _ => ScopeOutage end) _).
  by intros [].
Defined.

Definition lifecycle_as_str (l : Lifecycle) : string :=
  match l with
  | LifeEvent => "event"
  | LifeOutage => "outage"
  | LifeStorage => "storage"
  | LifeRecording => "recording"
  | LifeTest => "test"
  end.
Definition severity_as_str (s : Severity) : string :=
  match s with Info => "info" | Warning => "warning" | Critical => "critical" end.
Definition channel_as_str (c : Channel) : string :=
  match c with Browser => "browser" | Push => "push" | Webhook => "webhook" | Forwarder => "forwarder" end.
Definition stage_str (s : Stage) : string :=
  match s with Preliminary => "preliminary" | Enriched => "enriched" | StageRecovery => "recovery" end.
Definition number_from_monday (d : Weekday) : Z :=
  match d with
  | Monday => 1
  | Tuesday => 2
  | Wednesday => 3
  | Thursday => 4
  | Friday => 5
  | Saturday => 6
  | Sunday => 7
  end.

Record Candidate := mk_candidate {
  cd_trigger : Trigger;
  cd_source_id : string;
  cd_source_name : option string;
  cd_source_identity : string;
  cd_lifecycle : Lifecycle;
  cd_event_kind : option string;
  cd_payload : option Value;
  cd_group_ids : list string;
  cd_zone : option string;
  cd_confidence : option spec_float;
  cd_attachment_path : option string;
  cd_canonical_attachment : option EventAttachment;
  cd_icon_key : option string;
  cd_image_available : bool;
  cd_duration_ms : option Z;
  cd_severity : Severity;
  cd_reviewed : option bool;
  cd_bookmarked : option bool;
  cd_privacy_active : bool;
  cd_revision : Z;
  cd_stage : Stage;
  cd_occurred_at_ms : Z;
  cd_deep_link : string
}.

Record Filter := mk_filter {
  fl_source_ids : list string;
  fl_group_ids : list string;
  fl_event_kinds : list string;
  fl_zones : list string;
  fl_minimum_confidence : option spec_float;
  fl_attachment_required : option bool;
  fl_minimum_duration_ms : option Z;
  fl_severities : list Severity;
  fl_reviewed : option bool;
  fl_bookmarked : option bool
}.

Record WeeklyWindow := mk_weekly {
  w_weekdays : list Weekday;
  w_start_minute : Z;
  w_end_minute : Z
}.
(** [quiet_hours] is an optional record with one field, its windows. *)
Record Schedule := mk_schedule {
  sc_timezone : string;
  sc_active_windows : list WeeklyWindow;
  sc_quiet_hours : option (list WeeklyWindow)
}.
Record ScheduleStatus := mk_status {
  ss_active : bool;
  ss_quiet : bool
}.

Record Cooldown := mk_cooldown {
  co_scope : CooldownScope;
  co_duration_ms : Z
}.
Record RateLimit := mk_rate_limit {
  rl_scope : RateLimitScope;
  rl_maximum : Z;
  rl_window_ms : Z
}.
Record CriticalBypass := mk_bypass {
  cb_maximum : Z;
  cb_window_ms : Z
}.
Record Template := mk_template {
  tp_title : string;
  tp_body : string
}.
Record RuleAction := mk_action {
  ac_enabled : bool;
  ac_channel : Channel;
  ac_destination : string;
  ac_template : Template;
  ac_attachment : AttachmentPolicy;
  ac_allow_second_delivery : bool
}.
Record EnrichmentPolicy := mk_enrichment {
  en_deadline_ms : Z;
  en_maximum_revisions : Z;
  en_maximum_attempts : Z;
  en_maximum_attachment_bytes : Z;
  en_wake_after_deadline : bool
}.
Record FailurePolicy := mk_failure {
  fp_maximum_attempts : Z;
  fp_maximum_retry_interval_ms : Z;
  fp_expiry_ms : Z
}.
Record Rule := mk_rule {
  ru_id : string;
  ru_name : string;
  ru_enabled : bool;
  ru_revision : Z;
  ru_owner_id : string;
  ru_triggers : list Trigger;
  ru_filter : Filter;
  ru_schedule : Schedule;
  ru_cooldowns : list Cooldown;
  ru_rate_limits : list RateLimit;
  ru_critical_bypass : option CriticalBypass;
  ru_enrichment : EnrichmentPolicy;
  ru_actions : list RuleAction;
  ru_failure : FailurePolicy
}.

Inductive Suppression := OutsideSchedule | QuietHours | RuntimeProfile.
Definition suppression_as_str (s : Suppression) : string :=
  match s with
  | OutsideSchedule => "outside_schedule"
  | QuietHours => "quiet_hours"
  | RuntimeProfile => "runtime_profile"
  end.
Inductive MatchResult := NoMatch | Suppressed (s : Suppression) | Match.

(** ** Schedules *)

Definition u16_max : Z := 2 ^ 16 - 1.

Record ZoneData := mk_zones {
  zone_lookup : string → option (Z → Z * Z * Z);
  timestamp_ok : Z → bool
}.

Definition window_contains (w : WeeklyWindow) (weekday minute : Z) : bool :=
  let includes day := existsb (λ candidate, number_from_monday candidate =? day) (w_weekdays w) in
  if w_start_minute w <? w_end_minute w
  then includes weekday && ((w_start_minute w <=? minute) && (minute <? w_end_minute w))
  else
    let previous_weekday := if weekday =? 1 then 7 else weekday - 1 in
    (includes weekday && (w_start_minute w <=? minute))
    || (includes previous_weekday && (minute <? w_end_minute w)).

Definition status_at (zones : ZoneData) (s : Schedule) (timestamp_ms : Z) : result string ScheduleStatus :=
  match zone_lookup zones (sc_timezone s) with
  | None => Err "unknown schedule timezone"
  | Some local =>
      if negb (timestamp_ok zones timestamp_ms) then Err "schedule timestamp is out of range"
      else
        let '(weekday, hour, minute) := local timestamp_ms in
        let minute := hour * 60 + minute in
        let? _ := ensure (minute <=? u16_max) "out of range integral type conversion attempted" in
        Ok (mk_status
          (bool_decide (sc_active_windows s = [])
           || existsb (λ w, window_contains w weekday minute) (sc_active_windows s))
          (is_some_and (existsb (λ w, window_contains w weekday minute)) (sc_quiet_hours s)))
  end.

(** ** Matching *)

Definition str_mem (s : string) (l : list string) : bool := existsb (str_eqb s) l.

Definition matches_optional_filter (values : list string) (candidate : option string) : bool :=
  bool_decide (values = []) || is_some_and (λ c, existsb (λ value, str_eqb value c) values) candidate.

Definition matches_filter (f : Filter) (c : Candidate) : bool :=
  matches_optional_filter (fl_source_ids f) (Some (cd_source_id c))
  && (bool_decide (fl_group_ids f = []) || existsb (λ g, str_mem g (fl_group_ids f)) (cd_group_ids c))
  && matches_optional_filter (fl_event_kinds f) (cd_event_kind c)
  && matches_optional_filter (fl_zones f) (cd_zone c)
  && is_none_or (λ minimum, is_some_and (λ value, SFleb minimum value) (cd_confidence c))
       (fl_minimum_confidence f)
  && is_none_or (λ required, eqb required (negb (is_none (cd_attachment_path c)) && negb (cd_privacy_active c)))
       (fl_attachment_required f)
  && is_none_or (λ minimum, is_some_and (λ value, minimum <=? value) (cd_duration_ms c))
       (fl_minimum_duration_ms f)
  && (bool_decide (fl_severities f = []) || bool_decide (cd_severity c ∈ fl_severities f))
  && is_none_or (λ required, bool_decide (cd_reviewed c = Some required)) (fl_reviewed f)
  && is_none_or (λ required, bool_decide (cd_bookmarked c = Some required)) (fl_bookmarked f).

Definition rule_matches (zones : ZoneData) (r : Rule) (c : Candidate) : result string MatchResult :=
  if negb (ru_enabled r) || negb (bool_decide (cd_trigger c ∈ ru_triggers r)) then Ok NoMatch
  else if negb (matches_filter (ru_filter r) c) then Ok NoMatch
  else
    let? schedule := status_at zones (ru_schedule r) (cd_occurred_at_ms c) in
    if negb (ss_active schedule) then Ok (Suppressed OutsideSchedule)
    else if ss_quiet schedule
            && negb (bool_decide (cd_severity c = Critical) && negb (is_none (ru_critical_bypass r)))
    then Ok (Suppressed QuietHours)
    else Ok Match.

(** ** Validation *)

(** [1.0_f64]. *)
Definition f64_unit : spec_float := Eval vm_compute in SFone 53 1024.

Definition MAX_ID_BYTES : Z := 128.
Definition MAX_NAME_CHARS : Z := 128.
Definition MAX_FILTER_VALUES : Z := 128.
Definition MAX_ACTIONS : Z := 8.
Definition MAX_TEMPLATE_TITLE_CHARS : Z := 256.
Definition MAX_TEMPLATE_BODY_CHARS : Z := 4096.
Definition MAX_DESTINATION_BYTES : Z := 2048.
Definition MAX_POLICY_DURATION_MS : Z := 30 * 24 * 60 * 60 * 1000.
Definition MAX_ATTACHMENT_BYTES : Z := 4 * 1024 * 1024.
Definition PUSHOVER_MIN_RETRY_INTERVAL_MS : Z := 5000.
Definition ALLOWED_TEMPLATE_FIELDS : list string :=
  ["source.id"; "source.name"; "event.id"; "event.kind"; "event.zone"; "event.confidence";
   "event.duration"; "health.state"; "notification.stage"; "notification.deep_link"].

(** An error message names the checked value; the message is all that [name] affects. *)
Definition validate_id (value name : string) : result string unit :=
  ensure (negb (str_is_empty value) && (str_len value <=? MAX_ID_BYTES)
          && forallb (λ b, is_ascii_alphanumeric b || (b =? 45) || (b =? 95) || (b =? 46)) (bytes_of value))
    (name +:+ " must contain 1 to 128 ASCII letters, digits, '.', '-', or '_'").

Definition validate_duration (duration_ms : Z) (name : string) : result string unit :=
  ensure (negb ((duration_ms =? 0) || (MAX_POLICY_DURATION_MS <? duration_ms)))
    (name +:+ " must be between 1 ms and 2592000000 ms").

(** [ensure_unique]. *)
Definition ensure_unique {A : Type} `{EqDecision A} (values : list A) (name : string) : result string unit :=
  ensure (bool_decide (NoDup values)) (name +:+ " must be unique").

(** The loops that check every element of a list. *)
Fixpoint check_each {A : Type} (check : A → result string unit) (l : list A) : result string unit :=
  match l with
  | [] => Ok tt
  | a :: l' => let? _ := check a in check_each check l'
  end.

Definition validate_filter (f : Filter) : result string unit :=
  let? _ := check_each (λ p : string * list string,
    let? _ := ensure (vec_len p.2 <=? MAX_FILTER_VALUES) (p.1 +:+ " filter exceeds 128 values") in
    ensure (negb (existsb (λ value, str_is_empty (str_trim value)) p.2))
      (p.1 +:+ " filter values must not be empty"))
    [("source", fl_source_ids f); ("group", fl_group_ids f); ("event kind", fl_event_kinds f);
     ("zone", fl_zones f)] in
  ensure (is_none_or (λ c, is_finite c && range_contains (S754_zero false) f64_unit c) (fl_minimum_confidence f))
    "minimum confidence must be between 0 and 1".

Definition validate_window (w : WeeklyWindow) : result string unit :=
  let? _ := ensure (negb (bool_decide (w_weekdays w = []))) "schedule windows require at least one weekday" in
  let? _ := ensure_unique (w_weekdays w) "schedule weekdays" in
  let? _ := ensure (negb ((1440 <=? w_start_minute w) || (1440 <=? w_end_minute w)))
              "schedule minutes must be between 0 and 1439" in
  ensure (negb (w_start_minute w =? w_end_minute w)) "schedule window start and end must differ".

Definition validate_rule_schedule (zones : ZoneData) (s : Schedule) : result string unit :=
  let? _ := ensure (negb (is_none (zone_lookup zones (sc_timezone s)))) "unknown schedule timezone" in
  check_each validate_window (sc_active_windows s ++ unwrap_or (sc_quiet_hours s) []).

(** Each cooldown has a scope of its own and a bounded duration. *)
Fixpoint cooldowns_loop (taken : list CooldownScope) (l : list Cooldown) : result string unit :=
  match l with
  | [] => Ok tt
  | c :: l' =>
      let? _ := ensure (negb (bool_decide (co_scope c ∈ taken))) "cooldown scopes must be unique" in
      let? _ := validate_duration (co_duration_ms c) "cooldown" in
      cooldowns_loop (co_scope c :: taken) l'
  end.
Definition validate_cooldowns : list Cooldown → result string unit := cooldowns_loop [].

Fixpoint rate_limits_loop (taken : list RateLimitScope) (l : list RateLimit) : result string unit :=
  match l with
  | [] => Ok tt
  | c :: l' =>
      let? _ := ensure (negb (bool_decide (rl_scope c ∈ taken))) "rate-limit scopes must be unique" in
      let? _ := ensure (negb ((rl_maximum c =? 0) || (10000 <? rl_maximum c)))
                  "rate-limit maximum must be between 1 and 10000" in
      let? _ := validate_duration (rl_window_ms c) "rate-limit window" in
      rate_limits_loop (rl_scope c :: taken) l'
  end.
Definition validate_rate_limits : list RateLimit → result string unit := rate_limits_loop [].

Definition validate_enrichment (e : EnrichmentPolicy) : result string unit :=
  let? _ := validate_duration (en_deadline_ms e) "enrichment deadline" in
  let? _ := ensure (negb ((en_maximum_revisions e =? 0) || (32 <? en_maximum_revisions e)))
              "maximum enrichment revisions must be between 1 and 32" in
  let? _ := ensure (negb ((en_maximum_attempts e =? 0) || (8 <? en_maximum_attempts e)))
              "maximum enrichment attempts must be between 1 and 8" in
  ensure (negb ((en_maximum_attachment_bytes e =? 0) || (MAX_ATTACHMENT_BYTES <? en_maximum_attachment_bytes e)))
    "maximum attachment bytes must be between 1 and 4194304".

Definition validate_failure (f : FailurePolicy) : result string unit :=
  let? _ := ensure (negb ((fp_maximum_attempts f =? 0) || (10 <? fp_maximum_attempts f)))
              "maximum delivery attempts must be between 1 and 10" in
  let? _ := validate_duration (fp_maximum_retry_interval_ms f) "maximum retry interval" in
  validate_duration (fp_expiry_ms f) "outbox expiry".

Fixpoint str_skip (n : nat) (s : string) : string :=
  match n, s with
  | O, _ => s
  | S n', String _ s' => str_skip n' s'
  | S _, EmptyString => EmptyString
  end.
(** [str::find] of a pattern and the slices before and after it. *)
Fixpoint str_split_once (p s : string) : option (string * string) :=
  if str_prefix p s then Some (EmptyString, str_skip (String.length p) s)
  else
    match s with
    | EmptyString => None
    | String c s' => (λ r : string * string, (String c r.1, r.2)) <$> str_split_once p s'
    end.

(** The [while let] of [validate_template]; a turn consumes at least four bytes. *)
Fixpoint template_loop (fuel : nat) (remainder : string) : outcome (result string unit) :=
  match fuel with
  | O => Panic
  | S fuel' =>
      match str_split_once "{{" remainder with
      | None =>
          Ret (ensure (is_none (str_split_once "}}" remainder))
                 "template contains an unmatched closing delimiter")
      | Some (_, after_start) =>
          match str_split_once "}}" after_start with
          | None => Ret (Err "template contains an unterminated field")
          | Some (field, rest) =>
              if str_mem (str_trim field) ALLOWED_TEMPLATE_FIELDS then template_loop fuel' rest
              else Ret (Err "template field is not allowed")
          end
      end
  end.
Definition validate_text (text : string) : outcome (result string unit) :=
  template_loop (S (String.length text)) text.

(** Sequencing of checks that may abort. *)
Definition then_check (m : outcome (result string unit)) (k : outcome (result string unit))
    : outcome (result string unit) :=
  let! r := m in match r with Ok _ => k | Err err => Ret (Err err) end.

Definition validate_template (t : Template) : outcome (result string unit) :=
  then_check
    (Ret (let? _ := ensure (char_count (tp_title t) <=? MAX_TEMPLATE_TITLE_CHARS)
                      "template title exceeds 256 characters" in
          ensure (char_count (tp_body t) <=? MAX_TEMPLATE_BODY_CHARS) "template body exceeds 4096 characters"))
    (then_check (validate_text (tp_title t)) (validate_text (tp_body t))).

(** *** Pushover destinations ([src/notifications/pushover.rs]) *)

Definition KEY_LENGTH : Z := 30.
Definition MAX_DEVICE_LENGTH : Z := 25.
Definition MAX_SOUND_LENGTH : Z := 64.
Definition MIN_EMERGENCY_RETRY_SECONDS : Z := 30.
Definition MAX_EMERGENCY_EXPIRE_SECONDS : Z := 10800.
Definition MAX_TITLE_CHARS : Z := 250.
Definition MAX_MESSAGE_CHARS : Z := 1024.

Record PushDestination := mk_push {
  pd_application_token : string;
  pd_user_key : string;
  pd_device : option string;
  pd_sound : option string;
  pd_priority : Z;
  pd_retry_seconds : option Z;
  pd_expire_seconds : option Z;
  pd_deep_link_base_url : option string
}.

(** What the code reads of a parsed [url::Url]. *)
Record ParsedUrl := mk_url {
  url_scheme : string;
  url_username : string;
  url_password : option string
}.

(** [Url::parse] and [serde_json::from_str] for a Pushover destination. *)
Record Parsers := mk_parsers {
  url_parse : string → option ParsedUrl;
  push_from_json : string → option PushDestination
}.

(** [split(',')]. *)
Fixpoint split_commas (s : string) : list string :=
  match s with
  | EmptyString => [EmptyString]
  | String c s' =>
      if bool_decide (String c EmptyString = ",") then EmptyString :: split_commas s'
      else match split_commas s' with
           | w :: ws => String c w :: ws
           | [] => [String c EmptyString]
           end
  end.

Definition is_word_byte (b : Z) : bool := is_ascii_alphanumeric b || (b =? 95) || (b =? 45).

Definition validate_key (value name : string) : result string unit :=
  ensure ((str_len value =? KEY_LENGTH) && forallb is_ascii_alphanumeric (bytes_of value))
    (name +:+ " must contain exactly 30 ASCII letters or digits").

Definition http_without_credentials (u : ParsedUrl) : bool :=
  (str_eqb (url_scheme u) "http" || str_eqb (url_scheme u) "https")
  && str_is_empty (url_username u) && is_none (url_password u).

Definition validate_destination (parsers : Parsers) (d : PushDestination) : result string unit :=
  let? _ := validate_key (pd_application_token d) "Pushover application token" in
  let? _ := validate_key (pd_user_key d) "Pushover user or group key" in
  let? _ := ensure (is_none_or (λ device,
      negb (str_is_empty device)
      && forallb (λ name, negb (str_is_empty name) && (str_len name <=? MAX_DEVICE_LENGTH)
                          && forallb is_word_byte (bytes_of name)) (split_commas device)) (pd_device d))
    "Pushover devices must be comma-separated names of 1 to 25 letters, digits, '_' or '-'" in
  let? _ := ensure (is_none_or (λ sound,
      negb (str_is_empty sound) && (str_len sound <=? MAX_SOUND_LENGTH) && forallb is_word_byte (bytes_of sound))
      (pd_sound d))
    "Pushover sound must contain 1 to 64 letters, digits, '_' or '-'" in
  let? _ := ensure ((-2 <=? pd_priority d) && (pd_priority d <=? 2)) "Pushover priority must be between -2 and 2" in
  let? _ :=
    if pd_priority d =? 2 then
      let? _ := ensure (is_some_and (λ retry, MIN_EMERGENCY_RETRY_SECONDS <=? retry) (pd_retry_seconds d))
                  "Pushover emergency retry must be at least 30 seconds" in
      ensure (is_some_and (λ expire, negb (expire =? 0) && (expire <=? MAX_EMERGENCY_EXPIRE_SECONDS))
                (pd_expire_seconds d))
        "Pushover emergency expiry must be between 1 and 10800 seconds"
    else
      ensure (is_none (pd_retry_seconds d) && is_none (pd_expire_seconds d))
        "Pushover retry and expiry are only valid for emergency priority" in
  match pd_deep_link_base_url d with
  | None => Ok tt
  | Some base_url =>
      match url_parse parsers base_url with
      | None => Err "Pushover deep-link base must be an absolute URL"
      | Some parsed =>
          ensure (http_without_credentials parsed)
            "Pushover deep-link base must be an HTTP(S) URL without credentials"
      end
  end.

Definition push_parse (parsers : Parsers) (value : string) : result string PushDestination :=
  match push_from_json parsers value with
  | None => Err "Pushover destination must be valid JSON"
  | Some destination => let? _ := validate_destination parsers destination in Ok destination
  end.

Definition validate_push_template (title message : string) : result string unit :=
  let? _ := ensure (char_count title <=? MAX_TITLE_CHARS) "Pushover title exceeds 250 characters" in
  ensure (char_count message <=? MAX_MESSAGE_CHARS) "Pushover message exceeds 1024 characters".

(** *** Rules *)

Definition validate_target (parsers : Parsers) (a : RuleAction) : result string unit :=
  match ac_channel a with
  | Browser =>
      ensure (str_is_empty (ac_destination a))
        "browser actions use the rule owner and must not set a destination"
  | Webhook =>
      match url_parse parsers (ac_destination a) with
      | None => Err "webhook destination must be an absolute URL"
      | Some destination =>
          ensure (http_without_credentials destination)
            "webhook destination must be an HTTP(S) URL without credentials"
      end
  | Push =>
      let? _ := push_parse parsers (ac_destination a) in
      validate_push_template (tp_title (ac_template a)) (tp_body (ac_template a))
  | Forwarder =>
      ensure (negb (str_is_empty (str_trim (ac_destination a)))) "forwarder actions require a destination"
  end.

Definition validate_action (parsers : Parsers) (a : RuleAction) : outcome (result string unit) :=
  then_check (Ret (ensure (str_len (ac_destination a) <=? MAX_DESTINATION_BYTES)
                     "action destination exceeds 2048 bytes"))
    (then_check (validate_template (ac_template a))
       (Ret (if ac_enabled a then validate_target parsers a else Ok tt))).

Fixpoint validate_actions (parsers : Parsers) (l : list RuleAction) : outcome (result string unit) :=
  match l with
  | [] => Ret (Ok tt)
  | a :: l' => then_check (validate_action parsers a) (validate_actions parsers l')
  end.

(** The checks before the actions. *)
Definition validate_policies (zones : ZoneData) (r : Rule) : result string unit :=
  let? _ := validate_id (ru_id r) "rule ID" in
  let? _ := validate_id (ru_owner_id r) "rule owner" in
  let? _ := ensure (negb (str_is_empty (str_trim (ru_name r))) && (char_count (ru_name r) <=? MAX_NAME_CHARS))
              "rule name must contain 1 to 128 characters" in
  let? _ := ensure (negb (bool_decide (ru_triggers r = []))) "a rule must contain at least one trigger" in
  let? _ := ensure_unique (ru_triggers r) "rule triggers" in
  let? _ := validate_filter (ru_filter r) in
  let? _ := validate_rule_schedule zones (ru_schedule r) in
  let? _ := validate_cooldowns (ru_cooldowns r) in
  let? _ := validate_rate_limits (ru_rate_limits r) in
  let? _ := match ru_critical_bypass r with
            | None => Ok tt
            | Some bypass =>
                let? _ := ensure (negb ((cb_maximum bypass =? 0) || (10 <? cb_maximum bypass)))
                            "critical bypass maximum must be between 1 and 10" in
                validate_duration (cb_window_ms bypass) "critical bypass window"
            end in
  let? _ := validate_enrichment (ru_enrichment r) in
  let? _ := validate_failure (ru_failure r) in
  ensure (negb (bool_decide (ru_actions r = []) || (MAX_ACTIONS <? vec_len (ru_actions r))))
    "a rule must contain 1 to 8 actions".

Definition rule_validate (zones : ZoneData) (parsers : Parsers) (r : Rule) : outcome (result string unit) :=
  then_check (Ret (validate_policies zones r))
    (then_check (validate_actions parsers (ru_actions r))
       (Ret (ensure (negb (existsb (λ a, ac_enabled a && bool_decide (ac_channel a = Push)) (ru_actions r)
                           && (fp_maximum_retry_interval_ms (ru_failure r) <? PUSHOVER_MIN_RETRY_INTERVAL_MS)))
               "Pushover maximum retry interval must be at least 5000 ms"))).
