(* ===== verification/NotifyState.v ===== *)
(** * Notification state

    [src/notifications/state.rs] with the identities and cooldown keys of
    [src/notifications.rs]: the process-local tables, their limits and their pruning.

    The iteration order of a [HashMap] matters once, where inactive intervals of the
    same time are pruned; it is the argument [order]. *)

From S2P Require Import Prelude CameraEvent NotifyModel.

Definition MAX_PENDING_OUTBOX : Z := 10000.
Definition MAX_TERMINAL_NOTIFICATIONS : Z := 2000.
Definition MAX_LOGICAL_NOTIFICATIONS : Z := MAX_PENDING_OUTBOX + MAX_TERMINAL_NOTIFICATIONS.
Definition MAX_HISTORY_EVENTS : Z := 50000.
Definition MAX_DELIVERY_ATTEMPTS : Z := 50000.
Definition MAX_COOLDOWN_WINDOWS : Z := 10000.
Definition MAX_RATE_WINDOWS : Z := 4096.
Definition MAX_INACTIVE_OPERATIONAL_INTERVALS : Z := 4096.
Definition MAX_OPERATIONAL_INTERVALS : Z := 8192.

(** ** Records *)

Record LogicalNotification := mk_logical {
  lo_id : string;
  lo_rule_id : string;
  lo_owner_id : string;
  lo_source_id : string;
  lo_source_identity : string;
  lo_lifecycle : Lifecycle;
  lo_stage : Stage;
  lo_highest_revision : Z;
  lo_enrichment_attempts : Z;
  lo_created_at_ms : Z;
  lo_updated_at_ms : Z;
  lo_enrichment_deadline_at_ms : Z;
  lo_title : string;
  lo_body : string;
  lo_deep_link : string;
  lo_attachment_path : option string;
  lo_severity : Severity;
  lo_canonical_attachment : option EventAttachment;
  lo_icon_key : option string;
  lo_image_available : bool
}.

Record InboxReceipt := mk_receipt {
  re_seen_at_ms : option Z;
  re_acknowledged_at_ms : option Z;
  re_cleared_at_ms : option Z
}.

Record HistoryEntry := mk_history_entry {
  he_sequence : Z;
  he_logical_id : string;
  he_rule_id : string;
  he_revision : Z;
  he_stage : Stage;
  he_outcome : string;
  he_reason : option string;
  he_occurred_at_ms : Z;
  he_next_eligible_at_ms : option Z
}.

Record OperationalIntervalKey := mk_interval_key {
  ik_source_id : string;
  ik_lifecycle : Lifecycle;
  ik_event_kind : string
}.
Record OperationalInterval := mk_interval {
  iv_identity : string;
  iv_revision : Z;
  iv_active : bool;
  iv_updated_at_ms : Z
}.
Record RateWindow := mk_rate_window {
  rw_started_at_ms : Z;
  rw_count : Z
}.
Record CooldownKey := mk_cooldown_key {
  ck_rule_id : string;
  ck_scope : CooldownScope;
  ck_value : string
}.

Inductive OutboxStatus :=
| StPending | StRetrying | StDelivering | StDelivered | StFailed | StExpired | StSuppressed.

#[export] Instance outbox_status_eq_dec : EqDecision OutboxStatus.
Proof. solve_decision. Defined.
#[export] Instance interval_key_eq_dec : EqDecision OperationalIntervalKey.
Proof. solve_decision. Defined.
#[export] Instance interval_key_countable : Countable OperationalIntervalKey.
Proof.
  refine (inj_countable' (λ k, (ik_source_id k, ik_lifecycle k, ik_event_kind k))
    (λ k, mk_interval_key k.1.1 k.1.2 k.2) _). by intros [].
Defined.
#[export] Instance cooldown_key_eq_dec : EqDecision CooldownKey.
Proof. solve_decision. Defined.
#[export] Instance cooldown_key_countable : Countable CooldownKey.
Proof.
  refine (inj_countable' (λ k, (ck_rule_id k, ck_scope k, ck_value k))
    (λ k, mk_cooldown_key k.1.1 k.1.2 k.2) _). by intros [].
Defined.

Definition status_pending (s : OutboxStatus) : bool :=
  match s with StPending | StRetrying => true | _ => false end.

Record OutboxItem := mk_outbox_item {
  ob_id : Z;
  ob_logical_id : string;
  ob_action_index : Z;
  ob_stage : Stage;
  ob_channel : Channel;
  ob_destination_json : string;
  ob_payload_json : string;
  ob_replacement_key : string;
  ob_priority : Z;
  ob_status : OutboxStatus;
  ob_attempt_count : Z;
  ob_max_attempts : Z;
  ob_max_retry_interval_ms : Z;
  ob_attachment_enabled : bool;
  ob_attachment_required : bool;
  ob_max_attachment_bytes : Z;
  ob_next_attempt_at_ms : Z;
  ob_expires_at_ms : Z;
  ob_updated_at_ms : Z;
  ob_last_reason : option string;
  ob_provider_request_id : option string;
  ob_provider_receipt : option string;
  ob_next_receipt_check_at_ms : option Z;
  ob_provider_receipt_expires_at_ms : option Z;
  ob_provider_acknowledged_at_ms : option Z;
  ob_provider_expired_at_ms : option Z;
  ob_provider_acknowledged_by_hash : option string
}.

Definition receipt_pending (i : OutboxItem) : bool :=
  bool_decide (ob_status i = StDelivered)
  && negb (is_none (ob_provider_receipt i))
  && is_none (ob_provider_acknowledged_at_ms i)
  && is_none (ob_provider_expired_at_ms i)
  && negb (is_none (ob_next_receipt_check_at_ms i)).

Record DeliveryAttempt := mk_attempt {
  da_sequence : Z;
  da_outbox_id : Z;
  da_logical_id : string;
  da_channel : Channel;
  da_stage : Stage;
  da_attempt : Z;
  da_outcome : string;
  da_target_hash : string;
  da_provider_status : option Z;
  da_provider_request_id : option string;
  da_reason : option string;
  da_attempted_at_ms : Z;
  da_retry_at_ms : option Z
}.

Record RuleRecord := mk_rule_record {
  rr_id : string;
  rr_owner_id : string;
  rr_active : option Rule;
  rr_active_revision : Z;
  rr_draft : Rule;
  rr_draft_revision : Z;
  rr_created_at_ms : Z;
  rr_updated_at_ms : Z;
  rr_last_match_at_ms : option Z;
  rr_last_delivery_at_ms : option Z
}.

Record RuntimeState := mk_state {
  s_rules : gmap string RuleRecord;
  s_logical : gmap string LogicalNotification;
  s_intervals : gmap OperationalIntervalKey OperationalInterval;
  s_receipts : gmap (string * string) InboxReceipt;
  s_history : list HistoryEntry;
  s_cooldowns : gmap CooldownKey Z;
  s_rate_windows : gmap (string * string) RateWindow;
  s_outbox : gmap Z OutboxItem;
  s_attempts : list DeliveryAttempt;
  s_next_history_sequence : Z;
  s_next_attempt_sequence : Z;
  s_next_outbox_id : Z
}.

Definition set_s_rules (x : gmap string RuleRecord) (s : RuntimeState) : RuntimeState :=
  mk_state x (s_logical s) (s_intervals s) (s_receipts s) (s_history s) (s_cooldowns s) (s_rate_windows s)
    (s_outbox s) (s_attempts s) (s_next_history_sequence s) (s_next_attempt_sequence s) (s_next_outbox_id s).
Definition set_s_logical (x : gmap string LogicalNotification) (s : RuntimeState) : RuntimeState :=
  mk_state (s_rules s) x (s_intervals s) (s_receipts s) (s_history s) (s_cooldowns s) (s_rate_windows s)
    (s_outbox s) (s_attempts s) (s_next_history_sequence s) (s_next_attempt_sequence s) (s_next_outbox_id s).
Definition set_s_intervals (x : gmap OperationalIntervalKey OperationalInterval) (s : RuntimeState) : RuntimeState :=
  mk_state (s_rules s) (s_logical s) x (s_receipts s) (s_history s) (s_cooldowns s) (s_rate_windows s)
    (s_outbox s) (s_attempts s) (s_next_history_sequence s) (s_next_attempt_sequence s) (s_next_outbox_id s).
Definition set_s_receipts (x : gmap (string * string) InboxReceipt) (s : RuntimeState) : RuntimeState :=
  mk_state (s_rules s) (s_logical s) (s_intervals s) x (s_history s) (s_cooldowns s) (s_rate_windows s)
    (s_outbox s) (s_attempts s) (s_next_history_sequence s) (s_next_attempt_sequence s) (s_next_outbox_id s).
Definition set_s_cooldowns (x : gmap CooldownKey Z) (s : RuntimeState) : RuntimeState :=
  mk_state (s_rules s) (s_logical s) (s_intervals s) (s_receipts s) (s_history s) x (s_rate_windows s)
    (s_outbox s) (s_attempts s) (s_next_history_sequence s) (s_next_attempt_sequence s) (s_next_outbox_id s).
Definition set_s_rate_windows (x : gmap (string * string) RateWindow) (s : RuntimeState) : RuntimeState :=
  mk_state (s_rules s) (s_logical s) (s_intervals s) (s_receipts s) (s_history s) (s_cooldowns s) x
    (s_outbox s) (s_attempts s) (s_next_history_sequence s) (s_next_attempt_sequence s) (s_next_outbox_id s).
Definition set_s_outbox (x : gmap Z OutboxItem) (s : RuntimeState) : RuntimeState :=
  mk_state (s_rules s) (s_logical s) (s_intervals s) (s_receipts s) (s_history s) (s_cooldowns s) (s_rate_windows s)
    x (s_attempts s) (s_next_history_sequence s) (s_next_attempt_sequence s) (s_next_outbox_id s).

(** ** Identities and cooldown keys *)

Definition hex_digits : string := "0123456789abcdef".
Definition hex_digit (n : Z) : Ascii.ascii :=
  match String.get (Z.to_nat n) hex_digits with Some c => c | None => Ascii.ascii_of_N 48 end.
Fixpoint hex_bytes (l : list Z) : string :=
  match l with
  | [] => EmptyString
  | b :: l' => String (hex_digit (Z.shiftr b 4)) (String (hex_digit (Z.land b 15)) (hex_bytes l'))
  end.

(** [usize::to_be_bytes]. *)
Definition be_bytes_64 (n : Z) : list Z :=
  (λ k, Z.land (Z.shiftr n (8 * k)) 255) <$> [7; 6; 5; 4; 3; 2; 1; 0].

Definition logical_id (sha256 : list Z → list Z) (r : Rule) (c : Candidate) : string :=
  "notification-" +:+
  hex_bytes (sha256 (mjoin ((λ value, be_bytes_64 (str_len value) ++ bytes_of value)
    <$> [ru_id r; cd_source_id c; cd_source_identity c; lifecycle_as_str (cd_lifecycle c)]))).

(** The keys one cooldown of a rule stands for. *)
Definition cooldown_key_of (r : Rule) (c : Candidate) (cooldown : Cooldown) : list (CooldownKey * Z) :=
  let key scope value := (mk_cooldown_key (ru_id r) scope value, co_duration_ms cooldown) in
  match co_scope cooldown with
  | ScopeEvent =>
      if bool_decide (cd_lifecycle c = LifeEvent)
      then [key ScopeEvent (cd_source_id c +:+ ":" +:+ cd_source_identity c)] else []
  | CameraEventKind => [key CameraEventKind (cd_source_id c +:+ ":" +:+ unwrap_or (cd_event_kind c) "")]
  | ScopeGroup => key ScopeGroup <$> cd_group_ids c
  | ScopeRule => [key ScopeRule (ru_id r)]
  | ScopeOutage =>
      if bool_decide (cd_lifecycle c = LifeOutage)
      then [key ScopeOutage (cd_source_id c +:+ ":" +:+ cd_source_identity c)] else []
  end.
Definition cooldown_keys (r : Rule) (c : Candidate) : list (CooldownKey * Z) :=
  mjoin (cooldown_key_of r c <$> ru_cooldowns r).

(** ** Operations *)

Definition state_new (rules : gmap string RuleRecord) : RuntimeState :=
  mk_state rules ∅ ∅ ∅ [] ∅ ∅ ∅ [] 1 1 1.

Definition next_outbox_id (s : RuntimeState) : outcome (Z * RuntimeState) :=
  match checked_add u64_max (s_next_outbox_id s) 1 with
  | None => Panic
  | Some next =>
      Ret (s_next_outbox_id s,
           mk_state (s_rules s) (s_logical s) (s_intervals s) (s_receipts s) (s_history s) (s_cooldowns s)
             (s_rate_windows s) (s_outbox s) (s_attempts s) (s_next_history_sequence s)
             (s_next_attempt_sequence s) next)
  end.

(** A [BTreeMap<u64, _>] in key order. *)
Definition id_le (a b : Z * OutboxItem) : Prop := fst a ≤ fst b.
#[global] Instance id_le_dec : RelDecision id_le.
Proof. intros a b. unfold id_le. apply _. Defined.
Definition outbox_iter (m : gmap Z OutboxItem) : list (Z * OutboxItem) := merge_sort id_le (map_to_list m).

Definition pending_outbox_count (s : RuntimeState) : Z :=
  vec_len (filter (λ p, status_pending (ob_status p.2) = true) (outbox_iter (s_outbox s))).

Definition logical_capacity_available (s : RuntimeState) : bool :=
  Z.of_nat (size (s_logical s)) <? MAX_LOGICAL_NOTIFICATIONS.

Definition cooldown_capacity_for (s : RuntimeState) (keys : list CooldownKey) : bool :=
  let additional : gset CooldownKey := list_to_set (filter (λ key, s_cooldowns s !! key = None) keys) in
  saturating_add usize_max (Z.of_nat (size (s_cooldowns s))) (Z.of_nat (size additional))
  <=? MAX_COOLDOWN_WINDOWS.

Definition same_outbox_key (logical_id : string) (action_index : Z) (stage : Stage) (i : OutboxItem) : bool :=
  str_eqb (ob_logical_id i) logical_id && (ob_action_index i =? action_index)
  && bool_decide (ob_stage i = stage).
Definition outbox_key_exists (s : RuntimeState) (logical_id : string) (action_index : Z) (stage : Stage) : bool :=
  existsb (λ p, same_outbox_key logical_id action_index stage p.2) (outbox_iter (s_outbox s)).

Record PendingHistoryEntry := mk_pending {
  ph_logical_id : string;
  ph_rule_id : string;
  ph_revision : Z;
  ph_stage : Stage;
  ph_outcome : string;
  ph_reason : option string;
  ph_occurred_at_ms : Z;
  ph_next_eligible_at_ms : option Z
}.

(** [while deque.len() > max { deque.pop_front(); }]. *)
Definition trim_front {A : Type} (max : Z) (l : list A) : list A := drop (length l - Z.to_nat max) l.

Definition push_history (e : PendingHistoryEntry) (s : RuntimeState) : outcome RuntimeState :=
  match checked_add u64_max (s_next_history_sequence s) 1 with
  | None => Panic
  | Some next =>
      let entry := mk_history_entry (s_next_history_sequence s) (ph_logical_id e) (ph_rule_id e) (ph_revision e)
        (ph_stage e) (ph_outcome e) (ph_reason e) (ph_occurred_at_ms e) (ph_next_eligible_at_ms e) in
      Ret (mk_state (s_rules s) (s_logical s) (s_intervals s) (s_receipts s)
             (trim_front MAX_HISTORY_EVENTS (s_history s ++ [entry])) (s_cooldowns s) (s_rate_windows s)
             (s_outbox s) (s_attempts s) next (s_next_attempt_sequence s) (s_next_outbox_id s))
  end.

Definition set_sequence (a : DeliveryAttempt) (sequence : Z) : DeliveryAttempt :=
  mk_attempt sequence (da_outbox_id a) (da_logical_id a) (da_channel a) (da_stage a) (da_attempt a)
    (da_outcome a) (da_target_hash a) (da_provider_status a) (da_provider_request_id a) (da_reason a)
    (da_attempted_at_ms a) (da_retry_at_ms a).

Definition push_attempt (a : DeliveryAttempt) (s : RuntimeState) : outcome RuntimeState :=
  match checked_add u64_max (s_next_attempt_sequence s) 1 with
  | None => Panic
  | Some next =>
      Ret (mk_state (s_rules s) (s_logical s) (s_intervals s) (s_receipts s) (s_history s) (s_cooldowns s)
             (s_rate_windows s) (s_outbox s)
             (trim_front MAX_DELIVERY_ATTEMPTS (s_attempts s ++ [set_sequence a (s_next_attempt_sequence s)]))
             (s_next_history_sequence s) next (s_next_outbox_id s))
  end.

(** *** Pruning *)

Definition rate_le (a b : Z * (string * string)) : Prop :=
  a.1 < b.1 ∨ (a.1 = b.1 ∧ (str_ltb a.2.1 b.2.1 = true ∨ (a.2.1 = b.2.1 ∧ str_leb a.2.2 b.2.2 = true))).
#[global] Instance rate_le_dec : RelDecision rate_le.
Proof. intros a b. unfold rate_le. apply _. Defined.

Definition prune_oldest_rate_windows (windows : gmap (string * string) RateWindow)
    : outcome (gmap (string * string) RateWindow) :=
  if Z.of_nat (size windows) <=? MAX_RATE_WINDOWS then Ret windows
  else
    let oldest := merge_sort rate_le
      ((λ p : (string * string) * RateWindow, (rw_started_at_ms p.2, p.1)) <$> map_to_list windows) in
    let! excess := plain_sub (Z.of_nat (size windows)) MAX_RATE_WINDOWS in
    Ret (foldl (λ m key, delete key m) windows (snd <$> take (Z.to_nat excess) oldest)).

Definition interval_le (a b : Z * OperationalIntervalKey) : Prop := a.1 ≤ b.1.
#[global] Instance interval_le_dec : RelDecision interval_le.
Proof. intros a b. unfold interval_le. apply _. Defined.

Section pruning.
Context (order : gmap OperationalIntervalKey OperationalInterval →
  list (OperationalIntervalKey * OperationalInterval)).

Definition prune_operational_intervals (m : gmap OperationalIntervalKey OperationalInterval)
    : result string unit * gmap OperationalIntervalKey OperationalInterval :=
  let inactive := merge_sort interval_le
    ((λ p : OperationalIntervalKey * OperationalInterval, (iv_updated_at_ms p.2, p.1))
       <$> filter (λ p, iv_active p.2 = false) (order m)) in
  let remove_count := saturating_sub (vec_len inactive) MAX_INACTIVE_OPERATIONAL_INTERVALS in
  let m := foldl (λ m key, delete key m) m (snd <$> take (Z.to_nat remove_count) inactive) in
  (ensure (Z.of_nat (size m) <=? MAX_OPERATIONAL_INTERVALS)
     "notification process-local operational interval limit reached", m).

(** An outbox item that keeps its notification from being terminal. *)
Definition keeps_logical (i : OutboxItem) : bool :=
  status_pending (ob_status i) || bool_decide (ob_status i = StDelivering) || receipt_pending i.

Definition terminal_ge (a b : Z * string) : Prop :=
  b.1 < a.1 ∨ (a.1 = b.1 ∧ str_leb b.2 a.2 = true).
#[global] Instance terminal_ge_dec : RelDecision terminal_ge.
Proof. intros a b. unfold terminal_ge. apply _. Defined.

Definition terminal_ids (s : RuntimeState) : list (Z * string) :=
  let active_logical_ids : gset string :=
    list_to_set ((λ p : Z * OutboxItem, ob_logical_id p.2)
                 <$> filter (λ p, keeps_logical p.2 = true) (outbox_iter (s_outbox s))) in
  (λ p : string * LogicalNotification, (lo_updated_at_ms p.2, lo_id p.2))
    <$> filter (λ p, lo_id p.2 ∉ active_logical_ids) (map_to_list (s_logical s)).

Definition prune_terminal_notifications (s : RuntimeState) : RuntimeState :=
  let removed : gset string :=
    list_to_set (snd <$> drop (Z.to_nat MAX_TERMINAL_NOTIFICATIONS) (merge_sort terminal_ge (terminal_ids s))) in
  if bool_decide (removed = ∅) then s
  else
    mk_state (s_rules s)
      (filter (λ p, p.1 ∉ removed) (s_logical s))
      (s_intervals s)
      (filter (λ p, p.1.1 ∉ removed) (s_receipts s))
      (filter (λ e, he_logical_id e ∉ removed) (s_history s))
      (s_cooldowns s) (s_rate_windows s)
      (filter (λ p, ob_logical_id p.2 ∉ removed) (s_outbox s))
      (filter (λ a, da_logical_id a ∉ removed) (s_attempts s))
      (s_next_history_sequence s) (s_next_attempt_sequence s) (s_next_outbox_id s).

Definition prune (now_ms : Z) (s : RuntimeState) : outcome (result string unit * RuntimeState) :=
  let s := set_s_cooldowns (filter (λ p, now_ms < p.2) (s_cooldowns s)) s in
  if MAX_COOLDOWN_WINDOWS <? Z.of_nat (size (s_cooldowns s))
  then Ret (Err "notification process-local cooldown limit reached", s)
  else
    let! windows := prune_oldest_rate_windows (s_rate_windows s) in
    let s := set_s_rate_windows windows s in
    let '(r, intervals) := prune_operational_intervals (s_intervals s) in
    let s := set_s_intervals intervals s in
    match r with
    | Err err => Ret (Err err, s)
    | Ok _ =>
        let s := prune_terminal_notifications s in
        Ret (ensure (Z.of_nat (size (s_logical s)) <=? MAX_LOGICAL_NOTIFICATIONS)
               "notification process-local logical notification limit reached", s)
    end.
End pruning.

(** *** Rules that were disabled or deleted *)

Definition set_ob_status (i : OutboxItem) (status : OutboxStatus) (now_ms : Z) (reason : option string)
    : OutboxItem :=
  mk_outbox_item (ob_id i) (ob_logical_id i) (ob_action_index i) (ob_stage i) (ob_channel i)
    (ob_destination_json i) (ob_payload_json i) (ob_replacement_key i) (ob_priority i) status
    (ob_attempt_count i) (ob_max_attempts i) (ob_max_retry_interval_ms i) (ob_attachment_enabled i)
    (ob_attachment_required i) (ob_max_attachment_bytes i) (ob_next_attempt_at_ms i) (ob_expires_at_ms i)
    now_ms reason (ob_provider_request_id i) (ob_provider_receipt i) (ob_next_receipt_check_at_ms i)
    (ob_provider_receipt_expires_at_ms i) (ob_provider_acknowledged_at_ms i) (ob_provider_expired_at_ms i)
    (ob_provider_acknowledged_by_hash i).

Definition action_allowed (active : option Rule) (i : OutboxItem) : bool :=
  is_some_and (λ rule, ru_enabled rule
    && is_some_and (λ action, ac_enabled action && bool_decide (ac_channel action = ob_channel i))
         (ru_actions rule !! Z.to_nat (ob_action_index i))) active.

(** The pending items of a rule that its active version does not allow. *)
Definition cancelled_items (s : RuntimeState) (rule_id : string) (active : option Rule) : list (Z * OutboxItem) :=
  filter (λ p, status_pending (ob_status p.2)
               && is_some_and (λ logical, str_eqb (lo_rule_id logical) rule_id)
                    (s_logical s !! ob_logical_id p.2)
               && negb (action_allowed active p.2) = true) (outbox_iter (s_outbox s)).

Fixpoint push_all (entries : list PendingHistoryEntry) (s : RuntimeState) : outcome RuntimeState :=
  match entries with
  | [] => Ret s
  | e :: entries' => let! s := push_history e s in push_all entries' s
  end.

Definition cancel_disabled_outbox (rule_id : string) (active : option Rule) (now_ms : Z) (s : RuntimeState)
    : outcome (Z * RuntimeState) :=
  let cancelled := cancelled_items s rule_id active in
  let outbox := foldl (λ m (p : Z * OutboxItem),
    <[p.1 := set_ob_status p.2 StExpired now_ms (Some "rule_or_action_disabled")]> m) (s_outbox s) cancelled in
  let s := set_s_outbox outbox s in
  let entries := omap (λ p : Z * OutboxItem,
    (λ logical, mk_pending (ob_logical_id p.2) rule_id (lo_highest_revision logical) (ob_stage p.2)
       "expired" (Some "rule_or_action_disabled") now_ms None) <$> (s_logical s !! ob_logical_id p.2)) cancelled in
  let! s := push_all entries s in
  Ret (vec_len cancelled, s).
