(* ===== verification/NotifyProcess.v ===== *)
(** * Notification processing

    [src/notifications/orchestrator.rs]: a candidate is matched against the active
    rules, and creates, replaces or collapses a logical notification under the
    cooldowns, rate limits and capacities of each rule; deliveries enter the outbox.

    [NotifyEnv] stands for what the code takes from elsewhere: time zones, URL and JSON
    parsing, SHA-256, file sizes, stored secrets and [serde_json] serialization. *)

From S2P Require Import Prelude CameraEvent NotifyModel NotifyState.

(** [serialize_payload]'s [Payload], [PayloadSource] and [PayloadEvent]. *)
Record PayloadData := mk_payload {
  py_title : string;
  py_body : string;
  py_deep_link : string;
  py_occurred_at_ms : Z;
  py_event_id : option string;
  py_event_revision : option Z;
  py_canonical_attachment : option EventAttachment;
  py_icon_key : option string;
  py_image_availability : string;
  py_source : string * option string * list string;
  py_id : string;
  py_revision : Z;
  py_kind : option string;
  py_lifecycle : string;
  py_stage : string;
  py_duration_ms : option Z;
  py_severity : string;
  py_recovered : bool;
  py_payload : option Value
}.

Record NotifyEnv := mk_notify_env {
  ne_zones : ZoneData;
  ne_parsers : Parsers;
  ne_sha256 : list Z → list Z;
  ne_file_len : string → option Z;
  ne_secrets : result string unit;
  ne_secret : string → result string (option string);
  ne_destination_json : string → string;
  ne_payload_json : PayloadData → string
}.

(** ** Secrets ([src/config.rs]) *)

Definition is_ascii_uppercase (b : Z) : bool := (65 <=? b) && (b <=? 90).
Definition is_ascii_digit (b : Z) : bool := (48 <=? b) && (b <=? 57).
(** Characters outside ASCII have no byte in the accepted ranges. *)
Definition valid_secret_key (key : string) : bool :=
  match bytes_of key with
  | [] => false
  | b :: rest =>
      (is_ascii_uppercase b || (b =? 95))
      && forallb (λ b, is_ascii_uppercase b || is_ascii_digit b || (b =? 95)) rest
  end.

Definition upper_hex_digit (n : Z) : Ascii.ascii :=
  match String.get (Z.to_nat n) "0123456789ABCDEF" with Some c => c | None => Ascii.ascii_of_N 48 end.
Fixpoint percent_encode_url_component (s : string) : string :=
  match s with
  | EmptyString => EmptyString
  | String c s' =>
      let b := Z.of_N (Ascii.N_of_ascii c) in
      if is_ascii_alphanumeric b || (b =? 45) || (b =? 46) || (b =? 95) || (b =? 126)
      then String c (percent_encode_url_component s')
      else "%" +:+ String (upper_hex_digit (Z.shiftr b 4))
             (String (upper_hex_digit (Z.land b 15)) (percent_encode_url_component s'))
  end.

Section process.
Context (env : NotifyEnv).

(** The value of one reference body. *)
Definition secret_value (body : string) : result string string :=
  let '(key, modifier) := match str_split_once "|" body with
                          | Some (key, modifier) => (key, Some modifier)
                          | None => (body, None)
                          end in
  let? _ := ensure (valid_secret_key key) "invalid secret key" in
  let? found := ne_secret env key in
  match found with
  | None => Err "missing secret key"
  | Some secret =>
      match modifier with
      | None => Ok secret
      | Some m =>
          if str_eqb m "url" then Ok (percent_encode_url_component secret)
          else Err "invalid modifier for secret key"
      end
  end.

(** The [while let] over the references; a turn consumes at least nine bytes. *)
Fixpoint resolve_loop (fuel : nat) (value : string) : outcome (result string string) :=
  match fuel with
  | O => Panic
  | S fuel' =>
      match str_split_once "{secret:" value with
      | None => Ret (Ok value)
      | Some (before, rest) =>
          match str_split_once "}" rest with
          | None => Ret (Err "malformed secret reference")
          | Some (body, after) =>
              match secret_value body with
              | Err err => Ret (Err err)
              | Ok secret =>
                  let! r := resolve_loop fuel' after in
                  Ret (let? tail := r in Ok (before +:+ secret +:+ tail))
              end
          end
      end
  end.
Definition resolve_secret_references (value : string) : outcome (result string string) :=
  match ne_secrets env with
  | Err err => Ret (Err err)
  | Ok _ => resolve_loop (S (String.length value)) value
  end.

Definition set_destination (a : RuleAction) (destination : string) : RuleAction :=
  mk_action (ac_enabled a) (ac_channel a) destination (ac_template a) (ac_attachment a)
    (ac_allow_second_delivery a).
Fixpoint resolve_actions (l : list RuleAction) : outcome (result string (list RuleAction)) :=
  match l with
  | [] => Ret (Ok [])
  | a :: l' =>
      let! r := resolve_secret_references (ac_destination a) in
      match r with
      | Err err => Ret (Err err)
      | Ok destination =>
          let! r := resolve_actions l' in
          Ret (let? actions := r in Ok (set_destination a destination :: actions))
      end
  end.
Definition set_actions (r : Rule) (actions : list RuleAction) : Rule :=
  mk_rule (ru_id r) (ru_name r) (ru_enabled r) (ru_revision r) (ru_owner_id r) (ru_triggers r) (ru_filter r)
    (ru_schedule r) (ru_cooldowns r) (ru_rate_limits r) (ru_critical_bypass r) (ru_enrichment r) actions
    (ru_failure r).
Definition resolve_rule_destinations (r : Rule) : outcome (result string Rule) :=
  let! actions := resolve_actions (ru_actions r) in
  Ret (let? actions := actions in Ok (set_actions r actions)).

(** ** Text *)

(** [format!("{value:.2}")]: rounded to two decimals, ties to even. *)
Definition round_half_even (n d : Z) : Z :=
  let q := n / d in
  let r := n mod d in
  if (2 * r <? d) || ((2 * r =? d) && Z.even q) then q else q + 1.
Definition format_fixed2 (x : spec_float) : string :=
  let digits n := usize_to_string (n / 100) +:+ "." +:+ usize_to_string (n mod 100 / 10)
                  +:+ usize_to_string (n mod 10) in
  let sign (s : bool) : string := if s then "-" else "" in
  match x with
  | S754_nan => "NaN"
  | S754_infinity s => sign s +:+ "inf"
  | S754_zero s => sign s +:+ "0.00"
  | S754_finite s m e =>
      sign s +:+ digits (if 0 <=? e then Zpos m * 2 ^ e * 100 else round_half_even (Zpos m * 100) (2 ^ (- e)))
  end.

(** [str::replace] for a nonempty pattern; [skip] counts the rest of a match. *)
Fixpoint str_replace (skip : nat) (pattern replacement s : string) : string :=
  match s with
  | EmptyString => EmptyString
  | String c s' =>
      match skip with
      | S skip' => str_replace skip' pattern replacement s'
      | O =>
          if str_prefix pattern s
          then replacement +:+ str_replace (String.length pattern - 1) pattern replacement s'
          else String c (str_replace O pattern replacement s')
      end
  end.

Definition template_values (c : Candidate) : list (string * string) :=
  [("source.id", cd_source_id c);
   ("source.name", unwrap_or (cd_source_name c) "");
   ("event.id", cd_source_identity c);
   ("event.kind", unwrap_or (cd_event_kind c) "");
   ("event.zone", unwrap_or (cd_zone c) "");
   ("event.confidence", unwrap_or (format_fixed2 <$> cd_confidence c) "");
   ("event.duration", unwrap_or (usize_to_string <$> cd_duration_ms c) "");
   ("health.state", unwrap_or (cd_event_kind c) "");
   ("notification.stage", stage_str (cd_stage c));
   ("notification.deep_link", cd_deep_link c)].
Definition render (template : string) (c : Candidate) : string :=
  foldl (λ rendered (p : string * string), str_replace O ("{{" +:+ p.1 +:+ "}}") p.2 rendered)
    template (template_values c).

Definition render_logical (r : Rule) (c : Candidate) : string * string :=
  match ru_actions r with
  | [] => (ru_name r, "")
  | action :: _ =>
      let title := render (tp_title (ac_template action)) c in
      (if str_is_empty title then ru_name r else title, render (tp_body (ac_template action)) c)
  end.

(** ** Admission *)

Definition add_millis (timestamp_ms duration_ms : Z) : Z :=
  i64_saturating_add timestamp_ms (if duration_ms <=? i64_max then duration_ms else i64_max).

Record ProcessSummary := mk_summary {
  su_matched : Z;
  su_created : Z;
  su_replaced : Z;
  su_suppressed : Z;
  su_queued_attempts : Z
}.
Definition summary_new : ProcessSummary := mk_summary 0 0 0 0 0.
Definition u32_next (n k : Z) : Z := saturating_add u32_max n k.
Definition count_matched (u : ProcessSummary) : ProcessSummary :=
  mk_summary (u32_next (su_matched u) 1) (su_created u) (su_replaced u) (su_suppressed u) (su_queued_attempts u).
Definition count_suppressed (u : ProcessSummary) : ProcessSummary :=
  mk_summary (su_matched u) (su_created u) (su_replaced u) (u32_next (su_suppressed u) 1) (su_queued_attempts u).
Definition count_created (u : ProcessSummary) (queued : Z) : ProcessSummary :=
  mk_summary (su_matched u) (u32_next (su_created u) 1) (su_replaced u) (su_suppressed u)
    (u32_next (su_queued_attempts u) queued).
Definition count_replaced (u : ProcessSummary) (queued : Z) : ProcessSummary :=
  mk_summary (su_matched u) (su_created u) (u32_next (su_replaced u) 1) (su_suppressed u)
    (u32_next (su_queued_attempts u) queued).

Definition candidate_logical_id (r : Rule) (c : Candidate) : string := logical_id (ne_sha256 env) r c.

Definition history_entry (logical_id rule_id : string) (c : Candidate) (outcome : string)
    (reason : option string) (next_eligible_at_ms : option Z) : PendingHistoryEntry :=
  mk_pending logical_id rule_id (cd_revision c) (cd_stage c) outcome reason (cd_occurred_at_ms c)
    next_eligible_at_ms.

Definition is_tracked_operational_event (c : Candidate) : bool :=
  is_some_and (λ kind, str_mem kind
    ["camera_offline"; "stream_stale"; "decode_unavailable"; "recording_interrupted"]) (cd_event_kind c).

Definition supports_replacement (c : Channel) : bool :=
  match c with Browser | Push => true | _ => false end.

Definition rate_key (scope : RateLimitScope) (r : Rule) (c : Candidate) (channel : option Channel)
    : string * string :=
  let prefix : string := if bool_decide (cd_trigger c = TriggerTest) then "test_" else "" in
  match scope with
  | RateRule => (prefix +:+ "rule", ru_id r)
  | RateChannel => (prefix +:+ "channel", unwrap_or (channel_as_str <$> channel) "unknown")
  | RatePrincipal => (prefix +:+ "principal", ru_owner_id r)
  | RateGlobal => (prefix +:+ "global", "*")
  end.

Definition rate_limited_for_key (s : RuntimeState) (maximum window_ms : Z) (key : string * string) (now_ms : Z)
    : bool :=
  match s_rate_windows s !! key with
  | None => false
  | Some w => (now_ms <? add_millis (rw_started_at_ms w) window_ms) && (maximum <=? rw_count w)
  end.
Definition consume_rate_for_key (s : RuntimeState) (window_ms : Z) (key : string * string) (now_ms : Z)
    : RuntimeState :=
  let w := unwrap_or (s_rate_windows s !! key) (mk_rate_window now_ms 0) in
  let w :=
    if add_millis (rw_started_at_ms w) window_ms <=? now_ms then mk_rate_window now_ms 1
    else mk_rate_window (rw_started_at_ms w) (saturating_add u64_max (rw_count w) 1) in
  set_s_rate_windows (<[key := w]> (s_rate_windows s)) s.

Definition rate_limited (s : RuntimeState) (l : RateLimit) (r : Rule) (c : Candidate) (channel : option Channel)
    : bool :=
  rate_limited_for_key s (rl_maximum l) (rl_window_ms l) (rate_key (rl_scope l) r c channel) (cd_occurred_at_ms c).
Definition consume_rate (l : RateLimit) (r : Rule) (c : Candidate) (channel : option Channel) (s : RuntimeState)
    : RuntimeState :=
  consume_rate_for_key s (rl_window_ms l) (rate_key (rl_scope l) r c channel) (cd_occurred_at_ms c).

Definition is_channel_limit (l : RateLimit) : bool := bool_decide (rl_scope l = RateChannel).
Definition rule_rate_limited (s : RuntimeState) (r : Rule) (c : Candidate) : bool :=
  existsb (λ l, negb (is_channel_limit l) && rate_limited s l r c None) (ru_rate_limits r).
Definition consume_rule_rate_limits (r : Rule) (c : Candidate) (s : RuntimeState) : RuntimeState :=
  foldl (λ s l, if is_channel_limit l then s else consume_rate l r c None s) s (ru_rate_limits r).
Definition channel_rate_limited (s : RuntimeState) (r : Rule) (c : Candidate) (channel : Channel) : bool :=
  existsb (λ l, is_channel_limit l && rate_limited s l r c (Some channel)) (ru_rate_limits r).
Definition consume_channel_rate_limits (r : Rule) (c : Candidate) (channel : Channel) (s : RuntimeState)
    : RuntimeState :=
  foldl (λ s l, if is_channel_limit l then consume_rate l r c (Some channel) s else s) s (ru_rate_limits r).

Definition bypass_key (r : Rule) : string * string := ("critical_bypass", ru_id r).
Definition critical_bypass_available (s : RuntimeState) (r : Rule) (c : Candidate) : outcome bool :=
  match ru_critical_bypass r with
  | None => Panic
  | Some bypass =>
      Ret (negb (rate_limited_for_key s (cb_maximum bypass) (cb_window_ms bypass) (bypass_key r)
                   (cd_occurred_at_ms c)))
  end.
Definition consume_critical_bypass (r : Rule) (c : Candidate) (s : RuntimeState) : outcome RuntimeState :=
  match ru_critical_bypass r with
  | None => Panic
  | Some bypass => Ret (consume_rate_for_key s (cb_window_ms bypass) (bypass_key r) (cd_occurred_at_ms c))
  end.

Definition cooldown_eligible_at (s : RuntimeState) (r : Rule) (c : Candidate) : option Z :=
  foldl (λ next (p : CooldownKey * Z),
    match s_cooldowns s !! p.1 with
    | Some eligible =>
        if cd_occurred_at_ms c <? eligible
        then Some (match next with Some value => Z.max value eligible | None => eligible end)
        else next
    | None => next
    end) None (cooldown_keys r c).

Definition start_cooldowns (r : Rule) (c : Candidate) (s : RuntimeState) : bool * RuntimeState :=
  let cooldowns := cooldown_keys r c in
  if negb (cooldown_capacity_for s (fst <$> cooldowns)) then (false, s)
  else (true, set_s_cooldowns (foldl (λ m (p : CooldownKey * Z),
          <[p.1 := add_millis (cd_occurred_at_ms c) p.2]> m) (s_cooldowns s) cooldowns) s).

Inductive NewNotificationAdmission :=
| Accepted (critical_bypass : bool)
| NotAdmitted (reason : string) (next_eligible_at_ms : option Z).

(** Whether the candidate is critical within quiet hours. *)
Definition in_quiet_hours (r : Rule) (c : Candidate) : outcome bool :=
  if bool_decide (cd_severity c = Critical) then
    match status_at (ne_zones env) (ru_schedule r) (cd_occurred_at_ms c) with
    | Err _ => Panic
    | Ok status => Ret (ss_quiet status)
    end
  else Ret false.

Definition bypass_granted (s : RuntimeState) (r : Rule) (c : Candidate) : outcome bool :=
  if bool_decide (cd_severity c = Critical) && negb (is_none (ru_critical_bypass r))
  then critical_bypass_available s r c
  else Ret false.

Definition admit_new_notification (s : RuntimeState) (r : Rule) (c : Candidate)
    : outcome (NewNotificationAdmission * RuntimeState) :=
  let! quiet_bypass := in_quiet_hours r c in
  let eligible := cooldown_eligible_at s r c in
  let limited := rule_rate_limited s r c in
  let critical_bypass := quiet_bypass || negb (is_none eligible) || limited in
  let! granted := if critical_bypass then bypass_granted s r c else Ret true in
  if negb granted then
    let reason : string :=
      if quiet_bypass then "critical_bypass_limited"
      else if negb (is_none eligible) then "cooldown" else "rate_limited" in
    Ret (NotAdmitted reason eligible, s)
  else if negb (logical_capacity_available s) then Ret (NotAdmitted "logical_state_full" None, s)
  else
    let '(started, s) := start_cooldowns r c s in
    if negb started then Ret (NotAdmitted "cooldown_state_full" None, s)
    else
      let! s := if critical_bypass then consume_critical_bypass r c s else Ret s in
      Ret (Accepted critical_bypass, s).

(** ** Outbox *)

Definition candidate_image_availability (c : Candidate) : string :=
  if is_none (cd_canonical_attachment c) then "none"
  else if cd_image_available c then "available" else "unavailable".

Definition serialize_payload (c : Candidate) (title body : string) : string :=
  let event := bool_decide (cd_lifecycle c = LifeEvent) in
  ne_payload_json env (mk_payload title body (cd_deep_link c) (cd_occurred_at_ms c)
    (if event then Some (cd_source_identity c) else None) (if event then Some (cd_revision c) else None)
    (cd_canonical_attachment c) (cd_icon_key c) (candidate_image_availability c)
    (cd_source_id c, cd_source_name c, cd_group_ids c) (cd_source_identity c) (cd_revision c)
    (cd_event_kind c) (lifecycle_as_str (cd_lifecycle c)) (stage_str (cd_stage c)) (cd_duration_ms c)
    (severity_as_str (cd_severity c)) (bool_decide (cd_stage c = StageRecovery)) (cd_payload c)).

Record EnqueueContext := mk_context {
  cx_logical_id : string;
  cx_default_title : string;
  cx_default_body : string;
  cx_attachment_path : option string;
  cx_replacement : bool
}.

Definition build_outbox_item (id : Z) (r : Rule) (c : Candidate) (x : EnqueueContext) (index : Z) (a : RuleAction)
    : OutboxItem :=
  let rendered_title := render (tp_title (ac_template a)) c in
  let rendered_body := render (tp_body (ac_template a)) c in
  let title := if str_is_empty rendered_title then cx_default_title x else rendered_title in
  let body := if str_is_empty rendered_body then cx_default_body x else rendered_body in
  mk_outbox_item id (cx_logical_id x) index (cd_stage c) (ac_channel a)
    (ne_destination_json env (ac_destination a)) (serialize_payload c title body) (cx_logical_id x)
    (if bool_decide (cd_severity c = Critical) then 100 else 0) StPending 0
    (fp_maximum_attempts (ru_failure r)) (fp_maximum_retry_interval_ms (ru_failure r))
    (negb (bool_decide (ac_attachment a = Never))) (bool_decide (ac_attachment a = Required))
    (en_maximum_attachment_bytes (ru_enrichment r)) (cd_occurred_at_ms c)
    (add_millis (cd_occurred_at_ms c) (fp_expiry_ms (ru_failure r))) (cd_occurred_at_ms c)
    None None None None None None None None.

(** Why an enabled action is not queued. *)
Definition enqueue_rejection (s : RuntimeState) (r : Rule) (c : Candidate) (x : EnqueueContext) (a : RuleAction)
    : option (string * string) :=
  if cx_replacement x && negb (supports_replacement (ac_channel a)) && negb (ac_allow_second_delivery a)
  then Some ("collapsed", "replacement_unsupported")
  else if bool_decide (ac_attachment a = Required) && is_none (cx_attachment_path x)
  then Some ("failed", "attachment_required")
  else if channel_rate_limited s r c (ac_channel a) then Some ("rate_limited", channel_as_str (ac_channel a))
  else if MAX_PENDING_OUTBOX <=? pending_outbox_count s then Some ("expired", "outbox_full")
  else None.

Definition enqueue_action (r : Rule) (c : Candidate) (x : EnqueueContext) (index : Z) (a : RuleAction)
    (s : RuntimeState) : outcome (bool * RuntimeState) :=
  if negb (ac_enabled a) then Ret (false, s)
  else
    match enqueue_rejection s r c x a with
    | Some (outcome, reason) =>
        let! s := push_history (history_entry (cx_logical_id x) (ru_id r) c outcome (Some reason) None) s in
        Ret (false, s)
    | None =>
        if outbox_key_exists s (cx_logical_id x) index (cd_stage c) then Ret (false, s)
        else
          let! (id, s) := next_outbox_id s in
          let s := set_s_outbox (<[id := build_outbox_item id r c x index a]> (s_outbox s)) s in
          Ret (true, consume_channel_rate_limits r c (ac_channel a) s)
    end.

Fixpoint enqueue_loop (r : Rule) (c : Candidate) (x : EnqueueContext) (index : Z) (actions : list RuleAction)
    (queued : Z) (s : RuntimeState) : outcome (Z * RuntimeState) :=
  match actions with
  | [] => Ret (queued, s)
  | a :: actions' =>
      let! (added, s) := enqueue_action r c x index a s in
      enqueue_loop r c x (index + 1) actions' (if added then u32_next queued 1 else queued) s
  end.
Definition enqueue_actions (r : Rule) (c : Candidate) (x : EnqueueContext) (s : RuntimeState)
    : outcome (Z * RuntimeState) :=
  enqueue_loop r c x 0 (ru_actions r) 0 s.

(** ** New notifications *)

Definition set_last_match (record : RuleRecord) (now_ms : Z) : RuleRecord :=
  mk_rule_record (rr_id record) (rr_owner_id record) (rr_active record) (rr_active_revision record)
    (rr_draft record) (rr_draft_revision record) (rr_created_at_ms record) (rr_updated_at_ms record)
    (Some now_ms) (rr_last_delivery_at_ms record).

Definition new_logical (r : Rule) (c : Candidate) (logical_id title body : string) (attachment : option string)
    : LogicalNotification :=
  mk_logical logical_id (ru_id r) (ru_owner_id r) (cd_source_id c) (cd_source_identity c) (cd_lifecycle c)
    (cd_stage c) (cd_revision c) 0 (cd_occurred_at_ms c) (cd_occurred_at_ms c)
    (add_millis (cd_occurred_at_ms c) (en_deadline_ms (ru_enrichment r))) title body (cd_deep_link c) attachment
    (cd_severity c) (cd_canonical_attachment c) (cd_icon_key c) (cd_image_available c).

Definition insert_new_logical (r : Rule) (c : Candidate) (logical_id title body : string)
    (attachment : option string) (s : RuntimeState) : outcome RuntimeState :=
  let s := set_s_logical (<[logical_id := new_logical r c logical_id title body attachment]> (s_logical s)) s in
  let s := set_s_receipts (<[(logical_id, ru_owner_id r) := mk_receipt None None None]> (s_receipts s)) s in
  let s := consume_rule_rate_limits r c s in
  let s := set_s_rules (alter (λ record, set_last_match record (cd_occurred_at_ms c)) (ru_id r) (s_rules s)) s in
  push_history (history_entry logical_id (ru_id r) c "created" None None) s.

Definition create_new_notification (r : Rule) (c : Candidate) (logical_id : string) (attachment : option string)
    (s : RuntimeState) : outcome (Z * RuntimeState) :=
  let '(title, body) := render_logical r c in
  let! s := insert_new_logical r c logical_id title body attachment s in
  enqueue_actions r c (mk_context logical_id title body attachment false) s.

(** ** Known notifications *)

Definition record_existing_suppression (r : Rule) (c : Candidate) (logical_id reason : string)
    (s : RuntimeState) (u : ProcessSummary) : outcome (RuntimeState * ProcessSummary) :=
  let! s := push_history (history_entry logical_id (ru_id r) c "collapsed" (Some reason) None) s in
  Ret (s, count_suppressed u).

(** [state.logical.get_mut(id).expect(..)] and an update. *)
Definition update_logical (logical_id : string) (f : LogicalNotification → LogicalNotification) (s : RuntimeState)
    : outcome RuntimeState :=
  match s_logical s !! logical_id with
  | None => Panic
  | Some logical => Ret (set_s_logical (<[logical_id := f logical]> (s_logical s)) s)
  end.

Definition touch_logical (c : Candidate) (l : LogicalNotification) : LogicalNotification :=
  mk_logical (lo_id l) (lo_rule_id l) (lo_owner_id l) (lo_source_id l) (lo_source_identity l) (lo_lifecycle l)
    (lo_stage l) (cd_revision c) (lo_enrichment_attempts l) (lo_created_at_ms l) (cd_occurred_at_ms c)
    (lo_enrichment_deadline_at_ms l) (lo_title l) (lo_body l) (lo_deep_link l) (lo_attachment_path l)
    (lo_severity l) (lo_canonical_attachment l) (lo_icon_key l) (lo_image_available l).

Definition collapse_logical (c : Candidate) (attachment : option string) (l : LogicalNotification)
    : LogicalNotification :=
  mk_logical (lo_id l) (lo_rule_id l) (lo_owner_id l) (lo_source_id l) (lo_source_identity l) (lo_lifecycle l)
    (lo_stage l) (cd_revision c) (lo_enrichment_attempts l) (lo_created_at_ms l) (cd_occurred_at_ms c)
    (lo_enrichment_deadline_at_ms l) (lo_title l) (lo_body l) (lo_deep_link l) attachment
    (lo_severity l) (cd_canonical_attachment c) (cd_icon_key c) (cd_image_available c).

Definition replace_logical (c : Candidate) (title body : string) (attachment : option string) (tracked : bool)
    (l : LogicalNotification) : LogicalNotification :=
  mk_logical (lo_id l) (lo_rule_id l) (lo_owner_id l) (lo_source_id l) (lo_source_identity l) (lo_lifecycle l)
    (cd_stage c) (cd_revision c)
    (if bool_decide (cd_stage c = Enriched) && negb tracked
     then saturating_add u32_max (lo_enrichment_attempts l) 1 else lo_enrichment_attempts l)
    (lo_created_at_ms l) (cd_occurred_at_ms c) (lo_enrichment_deadline_at_ms l) title body (cd_deep_link c)
    attachment (cd_severity c) (cd_canonical_attachment c) (cd_icon_key c) (cd_image_available c).

Definition replace_existing (r : Rule) (c : Candidate) (logical_id : string) (attachment : option string)
    (tracked late : bool) (s : RuntimeState) : outcome (Z * RuntimeState) :=
  let '(title, body) := render_logical r c in
  let! s := update_logical logical_id (replace_logical c title body attachment tracked) s in
  let! s := push_history (history_entry logical_id (ru_id r) c "replaced"
              (if late then Some "late_enrichment_configured" else None) None) s in
  enqueue_actions r c (mk_context logical_id title body attachment true) s.

Definition process_existing (r : Rule) (c : Candidate) (logical_id : string) (existing : LogicalNotification)
    (attachment : option string) (s : RuntimeState) (u : ProcessSummary)
    : outcome (RuntimeState * ProcessSummary) :=
  if cd_revision c <=? lo_highest_revision existing
  then record_existing_suppression r c logical_id "duplicate_revision" s u
  else
    let tracked := is_tracked_operational_event c in
    let enriched := bool_decide (cd_stage c = Enriched) in
    if negb tracked && enriched && (en_maximum_revisions (ru_enrichment r) <? cd_revision c) then
      let! s := update_logical logical_id (touch_logical c) s in
      record_existing_suppression r c logical_id "enrichment_revision_limit" s u
    else
      let replace := bool_decide (cd_stage c = StageRecovery)
        || (enriched && (bool_decide (lo_stage existing = Preliminary) || tracked)) in
      let late := negb tracked && enriched && (lo_enrichment_deadline_at_ms existing <? cd_occurred_at_ms c) in
      let exhausted := negb tracked && enriched
        && (en_maximum_attempts (ru_enrichment r) <=? lo_enrichment_attempts existing) in
      if negb replace || exhausted || (late && negb (en_wake_after_deadline (ru_enrichment r))) then
        let! s := update_logical logical_id (collapse_logical c attachment) s in
        let reason : string :=
          if late then "late_enrichment"
          else if exhausted then "enrichment_attempt_limit" else "revision_collapsed" in
        record_existing_suppression r c logical_id reason s u
      else
        let! (queued, s) := replace_existing r c logical_id attachment tracked late s in
        Ret (s, count_replaced u queued).

(** ** Processing *)

Record AvailableAttachment := mk_available {
  av_path : string;
  av_byte_len : Z
}.
Definition available_attachment (c : Candidate) : option AvailableAttachment :=
  if cd_privacy_active c then None
  else cd_attachment_path c ≫= λ path, mk_available path <$> ne_file_len env path.
Definition usable_attachment (r : Rule) (a : option AvailableAttachment) : option string :=
  a ≫= λ attachment,
    if av_byte_len attachment <=? en_maximum_attachment_bytes (ru_enrichment r)
    then Some (av_path attachment) else None.

Definition process_rule (r : Rule) (c : Candidate) (a : option AvailableAttachment) (s : RuntimeState)
    (u : ProcessSummary) : outcome (RuntimeState * ProcessSummary) :=
  let logical_id := candidate_logical_id r c in
  let attachment := usable_attachment r a in
  match s_logical s !! logical_id with
  | Some existing => process_existing r c logical_id existing attachment s u
  | None =>
      let! (admission, s) := admit_new_notification s r c in
      match admission with
      | NotAdmitted reason next =>
          let! s := push_history (history_entry logical_id (ru_id r) c "suppressed" (Some reason) next) s in
          Ret (s, count_suppressed u)
      | Accepted _ =>
          let! (queued, s) := create_new_notification r c logical_id attachment s in
          Ret (s, count_created u queued)
      end
  end.

Fixpoint process_in_state (c : Candidate) (matches : list (MatchResult * Rule)) (a : option AvailableAttachment)
    (s : RuntimeState) (u : ProcessSummary) : outcome (RuntimeState * ProcessSummary) :=
  match matches with
  | [] => Ret (s, u)
  | (NoMatch, _) :: matches' => process_in_state c matches' a s u
  | (Suppressed reason, r) :: matches' =>
      let! s := push_history (history_entry (candidate_logical_id r c) (ru_id r) c "suppressed"
                  (Some (suppression_as_str reason)) None) s in
      process_in_state c matches' a s (count_suppressed (count_matched u))
  | (Match, r) :: matches' =>
      let! (s, u) := process_rule r c a s (count_matched u) in
      process_in_state c matches' a s u
  end.

Definition set_candidate_identity (c : Candidate) (identity : string) (revision : Z) : Candidate :=
  mk_candidate (cd_trigger c) (cd_source_id c) (cd_source_name c) identity (cd_lifecycle c) (cd_event_kind c)
    (cd_payload c) (cd_group_ids c) (cd_zone c) (cd_confidence c) (cd_attachment_path c)
    (cd_canonical_attachment c) (cd_icon_key c) (cd_image_available c) (cd_duration_ms c) (cd_severity c)
    (cd_reviewed c) (cd_bookmarked c) (cd_privacy_active c) revision (cd_stage c) (cd_occurred_at_ms c)
    (cd_deep_link c).

Definition starts_interval (c : Candidate) : bool :=
  match cd_trigger c with OutageStarted | StorageHealth | RecordingHealth => true | _ => false end.
Definition closes_interval (c : Candidate) : bool :=
  bool_decide (cd_trigger c = TriggerRecovery)
  && match cd_lifecycle c with LifeOutage | LifeStorage | LifeRecording => true | _ => false end.
Definition interval_key (c : Candidate) : OperationalIntervalKey :=
  mk_interval_key (cd_source_id c) (cd_lifecycle c) (unwrap_or (cd_event_kind c) "").

(** The open interval under a key. *)
Definition open_interval (s : RuntimeState) (key : OperationalIntervalKey) : option OperationalInterval :=
  s_intervals s !! key ≫= λ interval, if iv_active interval then Some interval else None.

Definition normalize_operational_interval (s : RuntimeState) (c : Candidate)
    : result string Candidate * RuntimeState :=
  if is_tracked_operational_event c then (Ok c, s)
  else if negb (starts_interval c) && negb (closes_interval c) then (Ok c, s)
  else
    let key := interval_key c in
    if starts_interval c then
      match open_interval s key with
      | Some existing => (Ok (set_candidate_identity c (iv_identity existing) (iv_revision existing)), s)
      | None =>
          if is_none (s_intervals s !! key) && (MAX_OPERATIONAL_INTERVALS <=? Z.of_nat (size (s_intervals s)))
          then (Err "notification process-local operational interval limit reached", s)
          else
            (Ok (set_candidate_identity c (cd_source_identity c) 1),
             set_s_intervals (<[key := mk_interval (cd_source_identity c) 1 true (cd_occurred_at_ms c)]>
               (s_intervals s)) s)
      end
    else
      match open_interval s key with
      | Some existing =>
          let revision := saturating_add u64_max (iv_revision existing) 1 in
          (Ok (set_candidate_identity c (iv_identity existing) revision),
           set_s_intervals (<[key := mk_interval (iv_identity existing) revision false (cd_occurred_at_ms c)]>
             (s_intervals s)) s)
      | None => (Ok c, s)
      end.

(** [Store]: the runtime state and the sources a profile suppresses. *)
Record Store := mk_store {
  st_state : RuntimeState;
  st_profile_suppressed : gset string
}.

Fixpoint resolve_rules (l : list Rule) : outcome (result string (list Rule)) :=
  match l with
  | [] => Ret (Ok [])
  | r :: l' =>
      let! resolved := resolve_rule_destinations r in
      match resolved with
      | Err err => Ret (Err err)
      | Ok r =>
          let! rest := resolve_rules l' in
          Ret (let? rest := rest in Ok (r :: rest))
      end
  end.
Definition resolved_active_rules (s : RuntimeState) : outcome (result string (list Rule)) :=
  resolve_rules (omap (λ p : string * RuleRecord, rr_active p.2) (btree_iter (s_rules s))).

Fixpoint match_rules (rules : list Rule) (c : Candidate) : result string (list (MatchResult * Rule)) :=
  match rules with
  | [] => Ok []
  | r :: rules' =>
      let? m := rule_matches (ne_zones env) r c in
      let? rest := match_rules rules' c in
      Ok ((m, r) :: rest)
  end.

(** A profile turns matches into suppressions. *)
Definition profile_match (m : MatchResult * Rule) : MatchResult * Rule :=
  match m with (Match, r) => (Suppressed RuntimeProfile, r) | _ => m end.
Definition is_match (m : MatchResult * Rule) : bool := match m with (Match, _) => true | _ => false end.

Section store.
Context (order : gmap OperationalIntervalKey OperationalInterval →
  list (OperationalIntervalKey * OperationalInterval)).

(** The part of [process] under the state lock. *)
Definition process_locked (matches : list (MatchResult * Rule)) (a : option AvailableAttachment) (c : Candidate)
    (st : Store) : outcome (result string ProcessSummary * Store) :=
  let keep s := mk_store s (st_profile_suppressed st) in
  let matches := if bool_decide (cd_source_id c ∈ st_profile_suppressed st)
                 then profile_match <$> matches else matches in
  let! (r, s) := prune order (cd_occurred_at_ms c) (st_state st) in
  match r with
  | Err err => Ret (Err err, keep s)
  | Ok _ =>
      let '(r, s) := normalize_operational_interval s c in
      match r with
      | Err err => Ret (Err err, keep s)
      | Ok c =>
          let! (s, summary) := process_in_state c matches a s summary_new in
          let! (r, s) := prune order (cd_occurred_at_ms c) s in
          Ret ((let? _ := r in Ok summary), keep s)
      end
  end.

Definition process (c : Candidate) (st : Store) : outcome (result string ProcessSummary * Store) :=
  let! rules := resolved_active_rules (st_state st) in
  match (let? rules := rules in match_rules rules c) with
  | Err err => Ret (Err err, st)
  | Ok matches =>
      let attachment := if existsb is_match matches then available_attachment c else None in
      process_locked matches attachment c st
  end.

(** ** Test notifications *)

Definition test_candidate (r : Rule) (identity : string) (now_ms : Z) : Candidate :=
  let f := ru_filter r in
  mk_candidate TriggerTest (unwrap_or (head (fl_source_ids f)) "notification-test") None identity LifeTest
    (Some (unwrap_or (head (fl_event_kinds f)) "test")) None [] (head (fl_zones f))
    (option_or (fl_minimum_confidence f) (Some f64_unit)) None None (Some "event") false
    (fl_minimum_duration_ms f) Info (fl_reviewed f) (fl_bookmarked f) false 1 Preliminary now_ms
    ("/settings#notifications-" +:+ identity).

Definition clear_cooldowns (r : Rule) : Rule :=
  mk_rule (ru_id r) (ru_name r) (ru_enabled r) (ru_revision r) (ru_owner_id r) (ru_triggers r) (ru_filter r)
    (ru_schedule r) [] (ru_rate_limits r) (ru_critical_bypass r) (ru_enrichment r) (ru_actions r)
    (ru_failure r).

(** The active rule a principal may test, resolved and validated. *)
Definition testable_rule (s : RuntimeState) (rule_id owner_id : string) : outcome (result string Rule) :=
  match s_rules s !! rule_id with
  | None => Ret (Err "notification rule was not found")
  | Some record =>
      if negb (str_eqb (rr_owner_id record) owner_id)
      then Ret (Err "notification rule is owned by another principal")
      else
        match rr_active record with
        | None => Ret (Err "notification rule is not active")
        | Some r =>
            let! resolved := resolve_rule_destinations r in
            match resolved with
            | Err err => Ret (Err err)
            | Ok r =>
                let! valid := rule_validate (ne_zones env) (ne_parsers env) r in
                Ret (let? _ := valid in Ok (clear_cooldowns r))
            end
        end
  end.

(** [uuid] is the identifier drawn by [Uuid::new_v4]. *)
Definition test_rule (rule_id owner_id : string) (now_ms : Z) (uuid : string) (st : Store)
    : outcome (result string ProcessSummary * Store) :=
  let keep s := mk_store s (st_profile_suppressed st) in
  let! r := testable_rule (st_state st) rule_id owner_id in
  match r with
  | Err err => Ret (Err err, st)
  | Ok r =>
      let c := test_candidate r ("notification-test-" +:+ uuid) now_ms in
      let! (pruned, s) := prune order now_ms (st_state st) in
      match pruned with
      | Err err => Ret (Err err, keep s)
      | Ok _ =>
          let! (s, summary) := process_rule r c None s (count_matched summary_new) in
          let! (pruned, s) := prune order now_ms s in
          Ret ((let? _ := pruned in Ok summary), keep s)
      end
  end.
End store.

(** ** Profiles *)

Definition suppressed_items (s : RuntimeState) (source_ids : gset string)
    : list (Z * OutboxItem * LogicalNotification) :=
  omap (λ p : Z * OutboxItem,
    if status_pending (ob_status p.2) then
      s_logical s !! ob_logical_id p.2 ≫= λ logical,
        if bool_decide (lo_source_id logical ∈ source_ids) then Some (p, logical) else None
    else None) (outbox_iter (s_outbox s)).

Definition set_profile_suppressed_sources (source_ids : gset string) (now_ms : Z) (st : Store)
    : outcome (result string Z * Store) :=
  if (127 <? Z.of_nat (size source_ids))
     || existsb (λ id, str_is_empty (str_trim id) || (256 <? str_len id)) (elements source_ids)
  then Ret (Err "runtime profile notification suppression exceeds its camera bounds", st)
  else
    let s := st_state st in
    let reason := suppression_as_str RuntimeProfile in
    let items := suppressed_items s source_ids in
    let outbox := foldl (λ m (p : Z * OutboxItem * LogicalNotification),
      <[p.1.1 := set_ob_status p.1.2 StSuppressed now_ms (Some reason)]> m) (s_outbox s) items in
    let entries := (λ p : Z * OutboxItem * LogicalNotification,
      mk_pending (ob_logical_id p.1.2) (lo_rule_id p.2) (lo_highest_revision p.2) (ob_stage p.1.2)
        "suppressed" (Some reason) now_ms None) <$> items in
    let! s := push_all entries (set_s_outbox outbox s) in
    Ret (Ok (vec_len items), mk_store s source_ids).

End process.
