(* ===== verification/NotifyDelivery.v ===== *)
(** * Notification delivery

    The state transitions of [src/notifications/delivery.rs]: claiming due outbox items,
    recording the outcome a provider reported, and following provider receipts.  The
    providers themselves are in [NotifyProvider]. *)

From S2P Require Import Prelude CameraEvent NotifyModel NotifyState NotifyProcess.

Definition MIN_RETRY_INTERVAL_MS : Z := 1000.
Definition MAX_REASON_BYTES : Z := 256.

Record Delivery := mk_delivery {
  dl_id : Z;
  dl_logical_id : string;
  dl_rule_id : string;
  dl_stage : Stage;
  dl_channel : Channel;
  dl_destination_json : string;
  dl_payload_json : string;
  dl_replacement_key : string;
  dl_attempt : Z;
  dl_max_attempts : Z;
  dl_max_retry_interval_ms : Z;
  dl_attachment_path : option string;
  dl_attachment_enabled : bool;
  dl_attachment_required : bool;
  dl_max_attachment_bytes : Z;
  dl_expires_at_ms : Z
}.

Inductive DeliveryOutcome :=
| Delivered (provider_status : option Z)
| Transient (reason : string) (provider_status : option Z) (retry_after_ms : option Z)
| Permanent (reason : string) (provider_status : option Z).

(** The receipt of a result is its identifier and its lifetime in seconds. *)
Record ProviderResult := mk_result {
  pr_outcome : DeliveryOutcome;
  pr_request_id : option string;
  pr_receipt : option (string * Z)
}.

Record ReceiptCheck := mk_receipt_check {
  rc_outbox_id : Z;
  rc_logical_id : string;
  rc_rule_id : string;
  rc_stage : Stage;
  rc_destination_json : string;
  rc_receipt : string;
  rc_receipt_expires_at_ms : Z;
  rc_max_retry_interval_ms : Z
}.

Inductive ReceiptOutcome :=
| ReceiptPending (expires_at_ms : option Z)
| ReceiptAcknowledged (acknowledged_at_ms : Z) (acknowledged_by_hash : option string)
| ReceiptExpired (expired_at_ms : option Z)
| ReceiptTransient (reason : string) (retry_after_ms : option Z)
| ReceiptPermanent (reason : string).

Record DeliveryTransition := mk_transition {
  tr_status : OutboxStatus;
  tr_history_outcome : string;
  tr_reason : option string;
  tr_provider_status : option Z;
  tr_retry_at_ms : option Z;
  tr_provider_request_id : option string;
  tr_provider_receipt : option string;
  tr_next_receipt_check_at_ms : option Z;
  tr_provider_receipt_expires_at_ms : option Z
}.

(** [1_u64 << exponent] with an exponent of at most 20. *)
Definition retry_interval (attempt : Z) : Z :=
  saturating_mul u64_max MIN_RETRY_INTERVAL_MS (Z.shiftl 1 (Z.min (saturating_sub attempt 1) 20)).

(** [String::truncate] panics inside a character. *)
Definition redact_reason (reason : string) : outcome string :=
  if str_len reason <=? MAX_REASON_BYTES then Ret reason
  else
    match String.get (Z.to_nat MAX_REASON_BYTES) reason with
    | Some c => if is_continuation c then Panic
                else Ret (String.substring 0 (Z.to_nat MAX_REASON_BYTES) reason)
    | None => Ret reason
    end.

Definition target_hash (sha256 : list Z → list Z) (destination_json : string) : string :=
  hex_bytes (sha256 (bytes_of destination_json)).

(** ** Claiming *)

(** [left.priority.cmp(&right.priority).then_with(|| right.id.cmp(&left.id))]; the
    identifiers of items are distinct. *)
Definition later_item (a b : OutboxItem) : bool :=
  (ob_priority a <? ob_priority b)
  || ((ob_priority a =? ob_priority b) && (ob_id b <=? ob_id a)).
(** [Iterator::max_by] keeps the last of equal elements. *)
Definition max_item (best : option OutboxItem) (i : OutboxItem) : option OutboxItem :=
  match best with
  | None => Some i
  | Some b => if later_item b i then Some i else Some b
  end.

Definition is_due (s : RuntimeState) (channel : Channel) (now_ms : Z) (i : OutboxItem) : bool :=
  bool_decide (ob_channel i = channel) && status_pending (ob_status i)
  && (ob_next_attempt_at_ms i <=? now_ms) && negb (is_none (s_logical s !! ob_logical_id i)).
Definition next_due_outbox_id (s : RuntimeState) (channel : Channel) (now_ms : Z) : option Z :=
  ob_id <$> foldl max_item None
    (filter (λ i, is_due s channel now_ms i = true) (snd <$> outbox_iter (s_outbox s))).

Definition expire_due_outbox (id now_ms : Z) (s : RuntimeState) : outcome RuntimeState :=
  match s_outbox s !! id with
  | None => Panic
  | Some item =>
      let s := set_s_outbox (<[id := set_ob_status item StExpired now_ms (Some "outbox_expired")]> (s_outbox s)) s in
      match s_logical s !! ob_logical_id item with
      | None => Panic
      | Some logical =>
          push_history (mk_pending (ob_logical_id item) (lo_rule_id logical) (lo_highest_revision logical)
            (ob_stage item) "expired" (Some "outbox_expired") now_ms None) s
      end
  end.

Definition claim_item (i : OutboxItem) (attempt now_ms : Z) : OutboxItem :=
  mk_outbox_item (ob_id i) (ob_logical_id i) (ob_action_index i) (ob_stage i) (ob_channel i)
    (ob_destination_json i) (ob_payload_json i) (ob_replacement_key i) (ob_priority i) StDelivering attempt
    (ob_max_attempts i) (ob_max_retry_interval_ms i) (ob_attachment_enabled i) (ob_attachment_required i)
    (ob_max_attachment_bytes i) (ob_next_attempt_at_ms i) (ob_expires_at_ms i) now_ms (ob_last_reason i)
    (ob_provider_request_id i) (ob_provider_receipt i) (ob_next_receipt_check_at_ms i)
    (ob_provider_receipt_expires_at_ms i) (ob_provider_acknowledged_at_ms i) (ob_provider_expired_at_ms i)
    (ob_provider_acknowledged_by_hash i).

(** The [loop] of [claim_due]: a turn that does not end it expires a pending item, so
    one unit of fuel per item and one more are enough. *)
Fixpoint claim_loop (fuel : nat) (channel : Channel) (now_ms : Z) (s : RuntimeState)
    : outcome (option Delivery * RuntimeState) :=
  match fuel with
  | O => Panic
  | S fuel' =>
      match next_due_outbox_id s channel now_ms with
      | None => Ret (None, s)
      | Some id =>
          match s_outbox s !! id with
          | None => Panic
          | Some item =>
              match s_logical s !! ob_logical_id item with
              | None => Panic
              | Some logical =>
                  if ob_expires_at_ms item <=? now_ms then
                    let! s := expire_due_outbox id now_ms s in
                    claim_loop fuel' channel now_ms s
                  else
                    match checked_add u32_max (ob_attempt_count item) 1 with
                    | None => Panic
                    | Some attempt =>
                        Ret (Some (mk_delivery id (ob_logical_id item) (lo_rule_id logical) (ob_stage item)
                               channel (ob_destination_json item) (ob_payload_json item)
                               (ob_replacement_key item) attempt (ob_max_attempts item)
                               (ob_max_retry_interval_ms item) (lo_attachment_path logical)
                               (ob_attachment_enabled item) (ob_attachment_required item)
                               (ob_max_attachment_bytes item) (ob_expires_at_ms item)),
                             set_s_outbox (<[id := claim_item item attempt now_ms]> (s_outbox s)) s)
                    end
              end
          end
      end
  end.
Definition claim_due (channel : Channel) (now_ms : Z) (s : RuntimeState)
    : outcome (option Delivery * RuntimeState) :=
  claim_loop (S (size (s_outbox s))) channel now_ms s.

(** ** Outcomes *)

Definition new_delivery_transition (status : OutboxStatus) (history_outcome : string) (reason : option string)
    (provider_status retry_at_ms : option Z) : DeliveryTransition :=
  mk_transition status history_outcome reason provider_status retry_at_ms None None None None.

Definition transient_delivery_transition (d : Delivery) (reason : string)
    (provider_status retry_after_ms : option Z) (now_ms : Z) : outcome DeliveryTransition :=
  let interval := Z.min (Z.max (unwrap_or retry_after_ms (retry_interval (dl_attempt d))) MIN_RETRY_INTERVAL_MS)
                    (dl_max_retry_interval_ms d) in
  let retry_at_ms := add_millis now_ms interval in
  if dl_max_attempts d <=? dl_attempt d then
    let! reason := redact_reason reason in
    Ret (new_delivery_transition StFailed "failed" (Some reason) provider_status None)
  else if dl_expires_at_ms d <=? retry_at_ms then
    Ret (new_delivery_transition StExpired "expired" (Some "retry_exceeds_expiry") provider_status None)
  else
    let! reason := redact_reason reason in
    Ret (new_delivery_transition StRetrying "retried" (Some reason) provider_status (Some retry_at_ms)).

Definition outcome_transition (d : Delivery) (o : DeliveryOutcome) (now_ms : Z) : outcome DeliveryTransition :=
  match o with
  | Delivered provider_status =>
      Ret (new_delivery_transition StDelivered "delivered" None provider_status None)
  | Permanent reason provider_status =>
      let! reason := redact_reason reason in
      Ret (new_delivery_transition StFailed "failed" (Some reason) provider_status None)
  | Transient reason provider_status retry_after_ms =>
      transient_delivery_transition d reason provider_status retry_after_ms now_ms
  end.

Definition delivery_transition (d : Delivery) (r : ProviderResult) (now_ms : Z) : outcome DeliveryTransition :=
  let! t := outcome_transition d (pr_outcome r) now_ms in
  let '(receipt, next_check, expires) :=
    match tr_status t, pr_receipt r with
    | StDelivered, Some (id, expire_seconds) =>
        (Some id, Some (add_millis now_ms PUSHOVER_MIN_RETRY_INTERVAL_MS),
         Some (add_millis now_ms (saturating_mul u64_max expire_seconds 1000)))
    | _, _ => (None, None, None)
    end in
  Ret (mk_transition (tr_status t) (tr_history_outcome t) (tr_reason t) (tr_provider_status t)
         (tr_retry_at_ms t) (pr_request_id r) receipt next_check expires).

Definition validate_delivery_claim (s : RuntimeState) (d : Delivery) : result string unit :=
  match s_outbox s !! dl_id d with
  | None => Err "claimed notification delivery no longer exists"
  | Some item =>
      let? _ := ensure (bool_decide (ob_status item = StDelivering) && (ob_attempt_count item =? dl_attempt d)
          && str_eqb (ob_logical_id item) (dl_logical_id d) && bool_decide (ob_channel item = dl_channel d)
          && bool_decide (ob_stage item = dl_stage d)) "notification delivery claim is stale" in
      ensure (is_some_and (λ logical, str_eqb (lo_rule_id logical) (dl_rule_id d)) (s_logical s !! dl_logical_id d))
        "notification delivery references invalid logical state"
  end.

Definition finish_item (t : DeliveryTransition) (now_ms : Z) (i : OutboxItem) : OutboxItem :=
  mk_outbox_item (ob_id i) (ob_logical_id i) (ob_action_index i) (ob_stage i) (ob_channel i)
    (ob_destination_json i) (ob_payload_json i) (ob_replacement_key i) (ob_priority i) (tr_status t)
    (ob_attempt_count i) (ob_max_attempts i) (ob_max_retry_interval_ms i) (ob_attachment_enabled i)
    (ob_attachment_required i) (ob_max_attachment_bytes i)
    (unwrap_or (tr_retry_at_ms t) (ob_next_attempt_at_ms i)) (ob_expires_at_ms i) now_ms (tr_reason t)
    (tr_provider_request_id t) (tr_provider_receipt t) (tr_next_receipt_check_at_ms t)
    (tr_provider_receipt_expires_at_ms t) (ob_provider_acknowledged_at_ms i) (ob_provider_expired_at_ms i)
    (ob_provider_acknowledged_by_hash i).

Definition set_last_delivery (record : RuleRecord) (now_ms : Z) : RuleRecord :=
  mk_rule_record (rr_id record) (rr_owner_id record) (rr_active record) (rr_active_revision record)
    (rr_draft record) (rr_draft_revision record) (rr_created_at_ms record) (rr_updated_at_ms record)
    (rr_last_match_at_ms record) (Some now_ms).

Definition push_delivery_history (d : Delivery) (t : DeliveryTransition) (now_ms : Z) (s : RuntimeState)
    : outcome RuntimeState :=
  match s_logical s !! dl_logical_id d with
  | None => Panic
  | Some logical =>
      push_history (mk_pending (dl_logical_id d) (dl_rule_id d) (lo_highest_revision logical) (dl_stage d)
        (tr_history_outcome t) (tr_reason t) now_ms (tr_retry_at_ms t)) s
  end.

Definition apply_delivery_transition (d : Delivery) (t : DeliveryTransition) (hash : string) (now_ms : Z)
    (s : RuntimeState) : outcome RuntimeState :=
  match s_outbox s !! dl_id d with
  | None => Panic
  | Some item =>
      let s := set_s_outbox (<[dl_id d := finish_item t now_ms item]> (s_outbox s)) s in
      let! s := push_attempt (mk_attempt 0 (dl_id d) (dl_logical_id d) (dl_channel d) (dl_stage d) (dl_attempt d)
                  (tr_history_outcome t) hash (tr_provider_status t) (tr_provider_request_id t) (tr_reason t)
                  now_ms (tr_retry_at_ms t)) s in
      let! s := push_delivery_history d t now_ms s in
      Ret (if bool_decide (tr_status t = StDelivered)
           then set_s_rules (alter (λ record, set_last_delivery record now_ms) (dl_rule_id d) (s_rules s)) s
           else s)
  end.

(** [record_delivery_metrics] is unreachable for a status that is not an outcome. *)
Definition record_delivery_metrics (status : OutboxStatus) : outcome unit :=
  match status with StPending | StDelivering => Panic | _ => Ret tt end.

Section delivery.
Context (env : NotifyEnv).
Context (order : gmap OperationalIntervalKey OperationalInterval →
  list (OperationalIntervalKey * OperationalInterval)).

Definition finish_delivery (d : Delivery) (r : ProviderResult) (now_ms : Z) (s : RuntimeState)
    : outcome (result string unit * RuntimeState) :=
  let hash := target_hash (ne_sha256 env) (dl_destination_json d) in
  let! t := delivery_transition d r now_ms in
  match validate_delivery_claim s d with
  | Err err => Ret (Err err, s)
  | Ok _ =>
      let! s := apply_delivery_transition d t hash now_ms s in
      let! (pruned, s) := prune order now_ms s in
      match pruned with
      | Err err => Ret (Err err, s)
      | Ok _ => let! _ := record_delivery_metrics (tr_status t) in Ret (Ok tt, s)
      end
  end.
End delivery.

(** ** Receipts *)

(** The receipt fields of an item, with [updated_at_ms] and [last_reason]. *)
Definition set_receipt (i : OutboxItem) (next_check expires acknowledged expired : option Z)
    (acknowledged_by : option string) (now_ms : Z) (reason : option string) : OutboxItem :=
  mk_outbox_item (ob_id i) (ob_logical_id i) (ob_action_index i) (ob_stage i) (ob_channel i)
    (ob_destination_json i) (ob_payload_json i) (ob_replacement_key i) (ob_priority i) (ob_status i)
    (ob_attempt_count i) (ob_max_attempts i) (ob_max_retry_interval_ms i) (ob_attachment_enabled i)
    (ob_attachment_required i) (ob_max_attachment_bytes i) (ob_next_attempt_at_ms i) (ob_expires_at_ms i)
    now_ms reason (ob_provider_request_id i) (ob_provider_receipt i) next_check expires acknowledged expired
    acknowledged_by.

Definition receipt_due (s : RuntimeState) (now_ms : Z) (i : OutboxItem) : bool :=
  bool_decide (ob_channel i = Push) && receipt_pending i
  && is_some_and (λ next, next <=? now_ms) (ob_next_receipt_check_at_ms i)
  && negb (is_none (s_logical s !! ob_logical_id i)).

(** [min_by_key] on the next check and the identifier; the first minimum is kept. *)
Definition min_receipt (best : option OutboxItem) (i : OutboxItem) : option OutboxItem :=
  let key j := (unwrap_or (ob_next_receipt_check_at_ms j) i64_min, ob_id j) in
  match best with
  | None => Some i
  | Some b =>
      if ((key i).1 <? (key b).1) || (((key i).1 =? (key b).1) && ((key i).2 <? (key b).2)) then Some i else Some b
  end.

Definition claim_due_receipt (now_ms : Z) (s : RuntimeState) : outcome (option ReceiptCheck * RuntimeState) :=
  match foldl min_receipt None (filter (λ i, receipt_due s now_ms i = true) (snd <$> outbox_iter (s_outbox s))) with
  | None => Ret (None, s)
  | Some selected =>
      let id := ob_id selected in
      match s_outbox s !! id with
      | None => Panic
      | Some item =>
          match s_logical s !! ob_logical_id item, ob_provider_receipt item, ob_provider_receipt_expires_at_ms item with
          | Some logical, Some receipt, Some expires =>
              Ret (Some (mk_receipt_check id (ob_logical_id item) (lo_rule_id logical) (ob_stage item)
                     (ob_destination_json item) receipt expires (ob_max_retry_interval_ms item)),
                   set_s_outbox (<[id := set_receipt item
                     (Some (add_millis now_ms PUSHOVER_MIN_RETRY_INTERVAL_MS)) (ob_provider_receipt_expires_at_ms item)
                     (ob_provider_acknowledged_at_ms item) (ob_provider_expired_at_ms item)
                     (ob_provider_acknowledged_by_hash item) now_ms (ob_last_reason item)]> (s_outbox s)) s)
          | _, _, _ => Panic
          end
      end
  end.

Definition validate_receipt_claim (s : RuntimeState) (r : ReceiptCheck) : result string unit :=
  match s_outbox s !! rc_outbox_id r with
  | None => Err "claimed notification receipt no longer exists"
  | Some item =>
      ensure (bool_decide (ob_status item = StDelivered) && bool_decide (ob_channel item = Push)
        && str_eqb (ob_logical_id item) (rc_logical_id r) && bool_decide (ob_stage item = rc_stage r)
        && bool_decide (ob_provider_receipt item = Some (rc_receipt r))
        && is_none (ob_provider_acknowledged_at_ms item) && is_none (ob_provider_expired_at_ms item)
        && is_some_and (λ logical, str_eqb (lo_rule_id logical) (rc_rule_id r)) (s_logical s !! rc_logical_id r))
        "notification receipt claim is stale"
  end.

Definition push_receipt_history (r : ReceiptCheck) (outcome : string) (reason : option string) (now_ms : Z)
    (s : RuntimeState) : Prelude.outcome RuntimeState :=
  match s_logical s !! rc_logical_id r with
  | None => Panic
  | Some logical =>
      push_history (mk_pending (rc_logical_id r) (rc_rule_id r) (lo_highest_revision logical) (rc_stage r)
        outcome reason now_ms None) s
  end.

(** [state.outbox.get_mut(id).expect(..)] and an update. *)
Definition update_outbox (id : Z) (f : OutboxItem → OutboxItem) (s : RuntimeState) : outcome RuntimeState :=
  match s_outbox s !! id with
  | None => Panic
  | Some item => Ret (set_s_outbox (<[id := f item]> (s_outbox s)) s)
  end.

Definition expire_receipt (r : ReceiptCheck) (expired_at_ms now_ms : Z) (reason : string) (s : RuntimeState)
    : outcome RuntimeState :=
  let! s := update_outbox (rc_outbox_id r) (λ i, set_receipt i None (ob_provider_receipt_expires_at_ms i)
              (ob_provider_acknowledged_at_ms i) (Some expired_at_ms) (ob_provider_acknowledged_by_hash i)
              now_ms (Some reason)) s in
  push_receipt_history r "expired" (Some reason) now_ms s.

Definition finish_pending_receipt (r : ReceiptCheck) (expires_at_ms : option Z) (now_ms : Z) (s : RuntimeState)
    : outcome RuntimeState :=
  let expires := unwrap_or expires_at_ms (rc_receipt_expires_at_ms r) in
  if expires <=? now_ms then expire_receipt r expires now_ms "provider_unacknowledged" s
  else
    update_outbox (rc_outbox_id r) (λ i, set_receipt i (Some (add_millis now_ms PUSHOVER_MIN_RETRY_INTERVAL_MS))
      (Some expires) (ob_provider_acknowledged_at_ms i) (ob_provider_expired_at_ms i)
      (ob_provider_acknowledged_by_hash i) now_ms None) s.

Definition acknowledge_receipt (r : ReceiptCheck) (acknowledged_at_ms : Z) (by_hash : option string) (now_ms : Z)
    (s : RuntimeState) : outcome RuntimeState :=
  let! s := update_outbox (rc_outbox_id r) (λ i, set_receipt i None (ob_provider_receipt_expires_at_ms i)
              (Some acknowledged_at_ms) (ob_provider_expired_at_ms i) by_hash now_ms None) s in
  push_receipt_history r "acknowledged" (Some "pushover") now_ms s.

Definition retry_receipt (r : ReceiptCheck) (reason : string) (retry_after_ms : option Z) (now_ms : Z)
    (s : RuntimeState) : outcome RuntimeState :=
  if rc_receipt_expires_at_ms r <=? now_ms
  then expire_receipt r (rc_receipt_expires_at_ms r) now_ms "provider_unacknowledged" s
  else
    let interval := Z.min (Z.max (unwrap_or retry_after_ms PUSHOVER_MIN_RETRY_INTERVAL_MS)
                             PUSHOVER_MIN_RETRY_INTERVAL_MS)
                      (Z.max (rc_max_retry_interval_ms r) PUSHOVER_MIN_RETRY_INTERVAL_MS) in
    let! reason := redact_reason reason in
    update_outbox (rc_outbox_id r) (λ i, set_receipt i (Some (add_millis now_ms interval))
      (ob_provider_receipt_expires_at_ms i) (ob_provider_acknowledged_at_ms i) (ob_provider_expired_at_ms i)
      (ob_provider_acknowledged_by_hash i) now_ms (Some reason)) s.

Definition fail_receipt (r : ReceiptCheck) (reason : string) (now_ms : Z) (s : RuntimeState)
    : outcome RuntimeState :=
  let! reason := redact_reason reason in
  let! s := update_outbox (rc_outbox_id r) (λ i, set_receipt i None (ob_provider_receipt_expires_at_ms i)
              (ob_provider_acknowledged_at_ms i) (ob_provider_expired_at_ms i)
              (ob_provider_acknowledged_by_hash i) now_ms (Some reason)) s in
  push_receipt_history r "failed" (Some reason) now_ms s.

Definition apply_receipt_outcome (r : ReceiptCheck) (o : ReceiptOutcome) (now_ms : Z) (s : RuntimeState)
    : outcome RuntimeState :=
  match o with
  | ReceiptPending expires => finish_pending_receipt r expires now_ms s
  | ReceiptAcknowledged at_ms by_hash => acknowledge_receipt r at_ms by_hash now_ms s
  | ReceiptExpired expired => expire_receipt r (unwrap_or expired now_ms) now_ms "provider_unacknowledged" s
  | ReceiptTransient reason retry_after => retry_receipt r reason retry_after now_ms s
  | ReceiptPermanent reason => fail_receipt r reason now_ms s
  end.

Definition finish_receipt (order : gmap OperationalIntervalKey OperationalInterval →
      list (OperationalIntervalKey * OperationalInterval)) (r : ReceiptCheck) (o : ReceiptOutcome) (now_ms : Z)
    (s : RuntimeState) : outcome (result string unit * RuntimeState) :=
  match validate_receipt_claim s r with
  | Err err => Ret (Err err, s)
  | Ok _ =>
      let! s := apply_receipt_outcome r o now_ms s in
      prune order now_ms s
  end.
