(* ===== verification/NotifyProvider.v ===== *)
(** * Notification providers

    The providers of [src/notifications/delivery.rs]: what the browser, webhook, Pushover
    and missing providers report for a delivery, and what Pushover reports for a receipt.
    JSON, URLs, files and the HTTP exchange of one call are the fields of [ProviderEnv];
    which file holds an event's attachment is the event store's answer. *)

From S2P Require Import Prelude OnvifDetails CameraEvent NotifyModel NotifyState NotifyProcess NotifyDelivery.

Definition MAX_DEEP_LINK_CHARS : Z := 512.

Record ProviderPayload := mk_provider_payload {
  pp_title : string;
  pp_body : string;
  pp_deep_link : string;
  pp_occurred_at_ms : option Z;
  pp_event_id : option string;
  pp_event_revision : option Z;
  pp_canonical_attachment : option EventAttachment;
  pp_icon_key : option string;
  pp_image_availability : option string;
  pp_source : option string;
  pp_event : option string;
  pp_attachment_content_type : option string;
  pp_attachment_base64 : option string
}.

Record PushoverMessage := mk_pushover_message {
  pm_token : string;
  pm_user : string;
  pm_message : string;
  pm_title : string;
  pm_priority : Z;
  pm_device : option string;
  pm_sound : option string;
  pm_retry : option Z;
  pm_expire : option Z;
  pm_timestamp : option Z;
  pm_url : option string;
  pm_url_title : option string;
  pm_attachment_base64 : option string;
  pm_attachment_type : option string
}.

Record PushoverResponse := mk_pushover_response {
  ps_status : Z;
  ps_request : option string;
  ps_receipt : option string
}.

Record PushoverReceiptResponse := mk_receipt_response {
  pt_status : Z;
  pt_request : option string;
  pt_acknowledged : Z;
  pt_acknowledged_at : Z;
  pt_acknowledged_by : option string;
  pt_expired : Z;
  pt_expires_at : Z
}.

(** What [ureq] returns: a response with its status, its [Retry-After] header when that is
    text, and its body when that can be read; or one of its errors. *)
Record HttpResponse := mk_response {
  rs_status : Z;
  rs_retry_after : option string;
  rs_body : option string
}.
Inductive HttpReply :=
| Response (r : HttpResponse)
| Timeout
| HostNotFound
| ConnectionFailed
| OtherError.

Record ProviderEnv := mk_provider_env {
  pv_destination : string → option string;
  pv_payload : string → option ProviderPayload;
  pv_payload_json : ProviderPayload → option string;
  pv_message_json : PushoverMessage → option string;
  pv_response : string → option PushoverResponse;
  pv_receipt_response : string → option PushoverReceiptResponse;
  pv_parsers : Parsers;
  pv_url : string → option (ParsedUrl * string);
  pv_join : string → string → option (ParsedUrl * string);
  pv_receipt_url : string → string → option string;
  pv_base64 : list Z → string;
  pv_sha256 : list Z → list Z;
  pv_file : string → option (bool * Z * option (list Z));
  pv_events : option (Delivery → option string);
  pv_post : string → string → HttpReply;
  pv_get : string → HttpReply
}.

Definition from_outcome (outcome : DeliveryOutcome) : ProviderResult := mk_result outcome None None.
Definition transient (reason : string) (provider_status retry_after_ms : option Z) : DeliveryOutcome :=
  Transient reason provider_status retry_after_ms.
Definition permanent (reason : string) (provider_status : option Z) : DeliveryOutcome :=
  Permanent reason provider_status.
Definition receipt_transient (reason : string) (retry_after_ms : option Z) : ReceiptOutcome :=
  ReceiptTransient reason retry_after_ms.
Definition receipt_permanent (reason : string) : ReceiptOutcome := ReceiptPermanent reason.

Definition is_success (status : Z) : bool := (200 <=? status) && (status <? 300).
Definition retryable (status : Z) : bool :=
  (status =? 408) || (status =? 425) || (status =? 429) || (500 <=? status).

Definition retry_after_ms (r : HttpResponse) : option Z :=
  match rs_retry_after r with
  | None => None
  | Some value => (λ seconds, saturating_mul u64_max seconds 1000) <$> parse_u64 (str_trim value)
  end.

Definition classify_http_failure (r : HttpResponse) : DeliveryOutcome :=
  if retryable (rs_status r) then
    transient "provider_retryable_status" (Some (rs_status r))
      (Some (Z.max (unwrap_or (retry_after_ms r) PUSHOVER_MIN_RETRY_INTERVAL_MS) PUSHOVER_MIN_RETRY_INTERVAL_MS))
  else permanent "provider_permanent_status" (Some (rs_status r)).

Definition classify_receipt_http_failure (r : HttpResponse) : ReceiptOutcome :=
  if retryable (rs_status r) then
    receipt_transient "provider_retryable_status"
      (Some (Z.max (unwrap_or (retry_after_ms r) PUSHOVER_MIN_RETRY_INTERVAL_MS) PUSHOVER_MIN_RETRY_INTERVAL_MS))
  else receipt_permanent "provider_permanent_status".

Definition valid_request_id (value : string) : bool :=
  negb (str_is_empty value) && (str_len value <=? 128)
  && forallb (λ b, is_ascii_alphanumeric b || (b =? 45)) (bytes_of value).
Definition valid_receipt (value : string) : bool :=
  (str_len value =? 30) && forallb is_ascii_alphanumeric (bytes_of value).
Definition seconds_to_millis (seconds : Z) : option Z :=
  if 0 <? seconds then Some (Z.min i64_max (seconds * 1000)) else None.

Definition ofilter {A : Type} (p : A → bool) (o : option A) : option A :=
  match o with Some a => if p a then Some a else None | None => None end.

Section providers.
Context (pv : ProviderEnv).

(** The file is read up to one byte past the limit. *)
Definition read_bounded_attachment (path : string) (maximum_bytes : Z) : option (list Z) :=
  match pv_file pv path with
  | None => None
  | Some (is_file, len, bytes) =>
      if negb is_file || (maximum_bytes <? len) then None
      else
        match bytes with
        | None => None
        | Some bytes =>
            let bytes := firstn (Z.to_nat (saturating_add u64_max maximum_bytes 1)) bytes in
            if vec_len bytes <=? maximum_bytes then Some bytes else None
        end
  end.

Definition provider_attachment (d : Delivery) : result string (option (list Z)) :=
  if negb (dl_attachment_enabled d) then Ok None
  else
    let attachment := match dl_attachment_path d with
                      | None => None
                      | Some path => read_bounded_attachment path (dl_max_attachment_bytes d)
                      end in
    if is_none attachment && dl_attachment_required d then Err "attachment_unavailable" else Ok attachment.

Definition with_image (p : ProviderPayload) (attachment : option (list Z)) : ProviderPayload :=
  mk_provider_payload (pp_title p) (pp_body p) (pp_deep_link p) (pp_occurred_at_ms p) (pp_event_id p)
    (pp_event_revision p) (pp_canonical_attachment p) (pp_icon_key p)
    (if negb (is_none (pp_canonical_attachment p)) && is_none attachment then Some "unavailable"
     else pp_image_availability p)
    (pp_source p) (pp_event p)
    (match attachment with Some _ => Some "image/jpeg" | None => pp_attachment_content_type p end)
    (match attachment with Some bytes => Some (pv_base64 pv bytes) | None => pp_attachment_base64 p end).

Definition webhook_payload (d : Delivery) : result string string :=
  match pv_payload pv (dl_payload_json d) with
  | None => Err "payload_invalid"
  | Some payload =>
      let? attachment := provider_attachment d in
      match pv_payload_json pv (with_image payload attachment) with
      | None => Err "payload_invalid"
      | Some json => Ok json
      end
  end.

Definition webhook_deliver (d : Delivery) : ProviderResult :=
  match pv_destination pv (dl_destination_json d) with
  | None => from_outcome (Permanent "destination_invalid" None)
  | Some destination =>
      match webhook_payload d with
      | Err reason => from_outcome (Permanent reason None)
      | Ok payload =>
          from_outcome
            match pv_post pv destination payload with
            | Response r =>
                if is_success (rs_status r) then Delivered (Some (rs_status r))
                else if retryable (rs_status r)
                then Transient "provider_retryable_status" (Some (rs_status r)) (retry_after_ms r)
                else Permanent "provider_permanent_status" (Some (rs_status r))
            | Timeout => Transient "provider_timeout" None None
            | HostNotFound | ConnectionFailed => Transient "provider_unreachable" None None
            | OtherError => Transient "provider_transport_error" None None
            end
      end
  end.

(** *** Pushover *)

Definition validated_deep_link (url : ParsedUrl * string) : option string :=
  if http_without_credentials url.1 && (char_count url.2 <=? MAX_DEEP_LINK_CHARS) then Some url.2 else None.

(** [None] is an error, [Some None] no link. *)
Definition deep_link (destination : PushDestination) (value : string) : option (option string) :=
  if str_is_empty value then Some None
  else
    match pv_url pv value with
    | Some url => Some <$> validated_deep_link url
    | None =>
        match pd_deep_link_base_url destination with
        | None => Some None
        | Some base_url =>
            match pv_join pv base_url value with
            | None => None
            | Some url => Some <$> validated_deep_link url
            end
        end
    end.

(** [serde_json::from_str] and [pushover::Destination::parse] on its value. *)
Definition pushover_destination (destination_json : string) : option PushDestination :=
  match pv_destination pv destination_json with
  | None => None
  | Some value => match push_parse (pv_parsers pv) value with Ok destination => Some destination | Err _ => None end
  end.

Definition pushover_message (destination : PushDestination) (payload : ProviderPayload)
    (link : option string) (attachment : option (list Z)) : PushoverMessage :=
  mk_pushover_message (pd_application_token destination) (pd_user_key destination) (pp_body payload) (pp_title payload)
    (pd_priority destination) (pd_device destination) (pd_sound destination) (pd_retry_seconds destination)
    (pd_expire_seconds destination) ((λ t, Z.quot t 1000) <$> pp_occurred_at_ms payload) link
    ((λ _, "Open in KeepPeek") <$> link) (pv_base64 pv <$> attachment) ((λ _, "image/jpeg") <$> attachment).

(** A successful response. *)
Definition pushover_accepted (destination : PushDestination) (status : Z) (body : option string) : ProviderResult :=
  match body with
  | None => from_outcome (transient "provider_response_invalid" (Some status) None)
  | Some body =>
      match pv_response pv body with
      | None => from_outcome (transient "provider_response_invalid" (Some status) None)
      | Some response =>
          match ofilter valid_request_id (ps_request response) with
          | None => from_outcome (permanent "provider_response_invalid" (Some status))
          | Some request_id =>
              let receipt :=
                if pd_priority destination =? 2
                then (λ receipt, Some (receipt, unwrap_or (pd_expire_seconds destination) 0))
                       <$> ofilter valid_receipt (ps_receipt response)
                else Some None in
              match receipt with
              | None => from_outcome (permanent "provider_response_invalid" (Some status))
              | Some receipt =>
                  if negb (ps_status response =? 1)
                  then mk_result (permanent "provider_rejected" (Some status)) (Some request_id) None
                  else mk_result (Delivered (Some status)) (Some request_id) receipt
              end
          end
      end
  end.

Definition pushover_deliver (messages_url : string) (d : Delivery) : ProviderResult :=
  match pushover_destination (dl_destination_json d) with
  | None => from_outcome (permanent "destination_invalid" None)
  | Some destination =>
      match pv_payload pv (dl_payload_json d) with
      | None => from_outcome (permanent "payload_invalid" None)
      | Some payload =>
          match provider_attachment d with
          | Err reason => from_outcome (permanent reason None)
          | Ok attachment =>
              match deep_link destination (pp_deep_link payload) with
              | None => from_outcome (permanent "deep_link_invalid" None)
              | Some link =>
                  match pv_message_json pv (pushover_message destination payload link attachment) with
                  | None => from_outcome (permanent "payload_invalid" None)
                  | Some body =>
                      match pv_post pv messages_url body with
                      | Response r =>
                          if negb (is_success (rs_status r)) then from_outcome (classify_http_failure r)
                          else pushover_accepted destination (rs_status r) (rs_body r)
                      | Timeout =>
                          from_outcome (transient "provider_timeout" None (Some PUSHOVER_MIN_RETRY_INTERVAL_MS))
                      | HostNotFound | ConnectionFailed =>
                          from_outcome (transient "provider_unreachable" None (Some PUSHOVER_MIN_RETRY_INTERVAL_MS))
                      | OtherError =>
                          from_outcome (transient "provider_transport_error" None (Some PUSHOVER_MIN_RETRY_INTERVAL_MS))
                      end
                  end
              end
          end
      end
  end.

Definition pushover_receipt_url (receipt token : string) : option string :=
  if valid_receipt receipt then pv_receipt_url pv receipt token else None.

(** A receipt that Pushover reports on. *)
Definition receipt_reported (body : option string) : ReceiptOutcome :=
  match body with
  | None => receipt_transient "provider_response_invalid" None
  | Some body =>
      match pv_receipt_response pv body with
      | None => receipt_transient "provider_response_invalid" None
      | Some r =>
          if negb (pt_status r =? 1) || is_none_or (λ value, negb (valid_request_id value)) (pt_request r)
             || (1 <? pt_acknowledged r) || (1 <? pt_expired r)
          then receipt_permanent "provider_response_invalid"
          else if pt_acknowledged r =? 1 then
            match seconds_to_millis (pt_acknowledged_at r) with
            | None => receipt_permanent "provider_response_invalid"
            | Some acknowledged_at_ms =>
                ReceiptAcknowledged acknowledged_at_ms
                  (target_hash (pv_sha256 pv) <$> ofilter (λ value, negb (str_is_empty value)) (pt_acknowledged_by r))
            end
          else if pt_expired r =? 1 then ReceiptExpired (seconds_to_millis (pt_expires_at r))
          else ReceiptPending (seconds_to_millis (pt_expires_at r))
      end
  end.

Definition check_receipt (c : ReceiptCheck) : ReceiptOutcome :=
  match pushover_destination (rc_destination_json c) with
  | None => receipt_permanent "destination_invalid"
  | Some destination =>
      match pushover_receipt_url (rc_receipt c) (pd_application_token destination) with
      | None => receipt_permanent "receipt_invalid"
      | Some url =>
          match pv_get pv url with
          | Response r =>
              if negb (is_success (rs_status r)) then classify_receipt_http_failure r
              else receipt_reported (rs_body r)
          | Timeout => receipt_transient "provider_timeout" (Some PUSHOVER_MIN_RETRY_INTERVAL_MS)
          | HostNotFound | ConnectionFailed =>
              receipt_transient "provider_unreachable" (Some PUSHOVER_MIN_RETRY_INTERVAL_MS)
          | OtherError => receipt_transient "provider_transport_error" (Some PUSHOVER_MIN_RETRY_INTERVAL_MS)
          end
      end
  end.

(** *** The provider of a channel *)

Definition provider_deliver (d : Delivery) : ProviderResult :=
  match dl_channel d with
  | Browser => from_outcome (Delivered None)
  | Push => pushover_deliver "https://api.pushover.net/1/messages.json" d
  | Webhook => webhook_deliver d
  | Forwarder => from_outcome (Permanent "channel_unavailable" None)
  end.

Definition set_attachment_path (d : Delivery) (path : option string) : Delivery :=
  mk_delivery (dl_id d) (dl_logical_id d) (dl_rule_id d) (dl_stage d) (dl_channel d) (dl_destination_json d)
    (dl_payload_json d) (dl_replacement_key d) (dl_attempt d) (dl_max_attempts d) (dl_max_retry_interval_ms d) path
    (dl_attachment_enabled d) (dl_attachment_required d) (dl_max_attachment_bytes d) (dl_expires_at_ms d).

(** With an event store, the attachment is the file it still holds for the event. *)
Definition attachments_deliver (d : Delivery) : ProviderResult :=
  match pv_events pv with
  | Some resolve =>
      if dl_attachment_enabled d then provider_deliver (set_attachment_path d (resolve d)) else provider_deliver d
  | None => provider_deliver d
  end.

(** ** Reasons fit the outbox *)

Definition short_outcome (o : DeliveryOutcome) : Prop :=
  match o with
  | Delivered _ => True
  | Transient reason _ _ | Permanent reason _ => str_len reason ≤ MAX_REASON_BYTES
  end.
Definition short_receipt (o : ReceiptOutcome) : Prop :=
  match o with
  | ReceiptTransient reason _ | ReceiptPermanent reason => str_len reason ≤ MAX_REASON_BYTES
  | _ => True
  end.

Lemma provider_attachment_short d reason : provider_attachment d = Err reason → str_len reason ≤ MAX_REASON_BYTES.
Proof. unfold provider_attachment. intros H. repeat case_match; simplify_eq; by vm_compute. Qed.
Lemma webhook_payload_short d reason : webhook_payload d = Err reason → str_len reason ≤ MAX_REASON_BYTES.
Proof.
  unfold webhook_payload. destruct (pv_payload pv _); [|intros [= <-]; by vm_compute].
  destruct (provider_attachment d) eqn:E; cbn [rbind]; [case_match; intros [= <-]; by vm_compute|].
  intros [= <-]. by eapply provider_attachment_short.
Qed.

Lemma provider_deliver_short d : short_outcome (pr_outcome (provider_deliver d)).
Proof.
  unfold provider_deliver. destruct (dl_channel d); [done| | |by vm_compute].
  - unfold pushover_deliver, pushover_accepted, classify_http_failure.
    destruct (provider_attachment d) as [a|reason] eqn:E; [|apply provider_attachment_short in E].
    all: repeat case_match; simplify_eq; cbn; try done; by vm_compute.
  - unfold webhook_deliver. destruct (webhook_payload d) as [a|reason] eqn:E; [|apply webhook_payload_short in E].
    all: repeat case_match; simplify_eq; cbn; try done; by vm_compute.
Qed.
Lemma attachments_deliver_short d : short_outcome (pr_outcome (attachments_deliver d)).
Proof. unfold attachments_deliver. repeat case_match; apply provider_deliver_short. Qed.
Lemma check_receipt_short c : short_receipt (check_receipt c).
Proof.
  unfold check_receipt, receipt_reported, classify_receipt_http_failure. repeat case_match; cbn; try done; by vm_compute.
Qed.
End providers.
