(* ===== verification/NotifyStore.v ===== *)
(** * Notification rules on disk

    [src/notifications/store.rs] and the managed secrets of [src/config.rs]: drafts and
    active versions of rules under optimistic concurrency, their destinations kept in
    [secrets.toml], and the order in which the two files are written.

    [Disk] holds what the two files say.  [StoreIo] gives the outcome of each file
    operation of a call.  [write_private_file_atomically] renames a finished temporary
    file and then syncs the directory, so a write that fails leaves its file as it was, or
    replaced when only the sync failed.  [overrides] stands for the process environment
    and [json_len] for [serde_json]. *)

From S2P Require Import Prelude CameraEvent NotifyModel NotifyState NotifyProcess.

Definition MAX_RULE_JSON_BYTES : Z := 64 * 1024.
Definition MAX_RULES : Z := 128.
Definition NOTIFICATION_SECRET_PREFIX : string := "KEEPPEEK_NOTIFICATION_".

Record PersistedRule := mk_persisted {
  pe_id : string;
  pe_owner_id : string;
  pe_active : option Rule;
  pe_active_revision : Z;
  pe_draft : Rule;
  pe_draft_revision : Z;
  pe_created_at_ms : Z;
  pe_updated_at_ms : Z
}.

Inductive RuleStoreError :=
| Conflict (active_revision draft_revision : Z)
| NotFound
| NotAuthorized
| Other (message : string).

Record Disk := mk_disk {
  dk_secrets : gmap string string;
  dk_rules : list PersistedRule
}.

(** How a write ends: in full, with an error before the rename, or with one after it,
    from opening or syncing the directory. *)
Inductive WriteResult :=
| Written
| WriteFailed (message : string)
| SyncFailed (message : string).

Definition write_private_file_atomically {A : Type} (w : WriteResult) (old new : A) : result string unit * A :=
  match w with
  | Written => (Ok tt, new)
  | WriteFailed message => (Err message, old)
  | SyncFailed message => (Err message, new)
  end.

Record StoreIo := mk_io {
  io_load : result string unit;
  io_config : result string unit;
  io_read : result string unit;
  io_staged : WriteResult;
  io_table : result string unit;
  io_write : WriteResult;
  io_rollback : WriteResult;
  io_current : WriteResult
}.

(** ** Secret references *)

Definition str_strip_prefix (p s : string) : option string :=
  if str_prefix p s then Some (str_skip (String.length p) s) else None.
Definition close_brace : Ascii.ascii := Ascii.ascii_of_N 125.

(** The text between [{secret:] and the closing brace of a reference. *)
Definition reference_body (value : string) : option string :=
  str_strip_prefix "{secret:" value ≫= strip_last close_brace.

Definition is_secret_reference (value : string) : bool :=
  match reference_body value with
  | None => false
  | Some body =>
      let '(key, modifier) := match str_split_once "|" body with
                              | Some (key, modifier) => (key, Some modifier)
                              | None => (body, None)
                              end in
      valid_secret_key key && is_none_or (λ modifier, str_eqb modifier "url") modifier
  end.

Definition managed_secret_key (reference : string) : option string :=
  reference_body reference ≫= λ key, if str_prefix NOTIFICATION_SECRET_PREFIX key then Some key else None.

Fixpoint upper_hex_bytes (l : list Z) : string :=
  match l with
  | [] => EmptyString
  | b :: l' => String (upper_hex_digit (Z.shiftr b 4)) (String (upper_hex_digit (Z.land b 15)) (upper_hex_bytes l'))
  end.

Section store.
Context (base : NotifyEnv).
Context (overrides : string → result string (option string)).
Context (json_len : Rule → Z).

Definition notification_secret_key (rule_id version : string) (revision action_index : Z) : string :=
  NOTIFICATION_SECRET_PREFIX +:+
  upper_hex_bytes (take 12 (ne_sha256 base
    (bytes_of rule_id ++ [0] ++ bytes_of version ++ [0] ++ be_bytes_64 revision ++ [0] ++ be_bytes_64 action_index))).

(** The environment with the secrets of a file: overrides come first. *)
Definition env_at (io : StoreIo) (secrets : gmap string string) : NotifyEnv :=
  mk_notify_env (ne_zones base) (ne_parsers base) (ne_sha256 base) (ne_file_len base) (io_load io)
    (λ key, let? found := overrides key in
            Ok (match found with Some value => Some value | None => secrets !! key end))
    (ne_destination_json base) (ne_payload_json base).

(** ** Externalizing destinations *)

Definition reference_to (key : string) : string := "{secret:" +:+ key +:+ "}".

(** One action: its destination on disk and what is stored for it. *)
Definition externalize_action (env : NotifyEnv) (rule_id version : string) (revision index : Z) (a : RuleAction)
    : outcome (result string (RuleAction * list (string * string))) :=
  if str_is_empty (ac_destination a) then Ret (Ok (a, []))
  else
    match managed_secret_key (ac_destination a) with
    | Some key =>
        let! value := resolve_secret_references env (ac_destination a) in
        Ret (let? value := value in Ok (a, [(key, value)]))
    | None =>
        if is_secret_reference (ac_destination a) then Ret (Ok (a, []))
        else
          let key := notification_secret_key rule_id version revision index in
          Ret (Ok (set_destination a (reference_to key), [(key, ac_destination a)]))
    end.

Fixpoint externalize_loop (env : NotifyEnv) (rule_id version : string) (revision index : Z) (l : list RuleAction)
    : outcome (result string (list RuleAction * list (string * string))) :=
  match l with
  | [] => Ret (Ok ([], []))
  | a :: l' =>
      let! r := externalize_action env rule_id version revision index a in
      match r with
      | Err err => Ret (Err err)
      | Ok (a, stored) =>
          let! r := externalize_loop env rule_id version revision (index + 1) l' in
          Ret (let? (actions, rest) := r in Ok (a :: actions, stored ++ rest))
      end
  end.

Definition externalize_destinations (env : NotifyEnv) (rule_id version : string) (r : Rule)
    : outcome (result string (Rule * list (string * string))) :=
  let! v := externalize_loop env rule_id version (ru_revision r) 0 (ru_actions r) in
  Ret (let? (actions, stored) := v in Ok (set_actions r actions, stored)).

Definition set_versions (record : RuleRecord) (active : option Rule) (draft : Rule) : RuleRecord :=
  mk_rule_record (rr_id record) (rr_owner_id record) active (rr_active_revision record) draft
    (rr_draft_revision record) (rr_created_at_ms record) (rr_updated_at_ms record) (rr_last_match_at_ms record)
    (rr_last_delivery_at_ms record).

Definition externalize_active (env : NotifyEnv) (record : RuleRecord)
    : outcome (result string (option Rule * list (string * string))) :=
  match rr_active record with
  | None => Ret (Ok (None, []))
  | Some active =>
      let! r := externalize_destinations env (rr_id record) "ACTIVE" active in
      Ret (let? (active, stored) := r in Ok (Some active, stored))
  end.
Definition externalize_record (env : NotifyEnv) (record : RuleRecord)
    : outcome (result string (RuleRecord * list (string * string))) :=
  let! r := externalize_active env record in
  match r with
  | Err err => Ret (Err err)
  | Ok (active, stored) =>
      let! r := externalize_destinations env (rr_id record) "DRAFT" (rr_draft record) in
      Ret (let? (draft, rest) := r in Ok (set_versions record active draft, stored ++ rest))
  end.
Fixpoint externalize_records (env : NotifyEnv) (l : list (string * RuleRecord))
    : outcome (result string (list (string * RuleRecord) * list (string * string))) :=
  match l with
  | [] => Ret (Ok ([], []))
  | (k, record) :: l' =>
      let! r := externalize_record env record in
      match r with
      | Err err => Ret (Err err)
      | Ok (record, stored) =>
          let! r := externalize_records env l' in
          Ret (let? (records, rest) := r in Ok ((k, record) :: records, stored ++ rest))
      end
  end.

(** ** Validation of what is on disk *)

Definition serialize_rule (r : Rule) : result string unit :=
  ensure (json_len r <=? MAX_RULE_JSON_BYTES) "notification rule exceeds 65536 serialized bytes".
Definition validate_draft_identity (r : Rule) : result string unit :=
  let? _ := ensure (negb (str_is_empty (ru_id r) || str_is_empty (ru_owner_id r)))
              "notification draft requires a rule ID and owner" in
  serialize_rule r.

Definition validate_persisted_rule (env : NotifyEnv) (p : PersistedRule) : outcome (result string unit) :=
  then_check
    (Ret (let? _ := ensure (str_eqb (pe_id p) (ru_id (pe_draft p)) && str_eqb (pe_owner_id p) (ru_owner_id (pe_draft p)))
                      "notification rule identity does not match its draft" in
          let? _ := ensure (negb ((pe_draft_revision p =? 0) || negb (ru_revision (pe_draft p) =? pe_draft_revision p)))
                      "notification draft revision is invalid" in
          validate_draft_identity (pe_draft p)))
    (match pe_active p with
     | None => Ret (ensure (pe_active_revision p =? 0) "notification active rule metadata is invalid")
     | Some active =>
         then_check
           (Ret (let? _ := ensure (negb (pe_active_revision p =? 0)) "notification active rule revision is invalid" in
                 let? _ := ensure (str_eqb (ru_id active) (pe_id p) && str_eqb (ru_owner_id active) (pe_owner_id p))
                             "notification active rule identity is invalid" in
                 ensure (ru_revision active =? pe_active_revision p) "notification active rule metadata is invalid"))
           (let! r := resolve_rule_destinations env active in
            match r with
            | Err err => Ret (Err err)
            | Ok r => rule_validate (ne_zones env) (ne_parsers env) r
            end)
     end).

(** The loops of [validate_configuration] and [load_configured_rules]; [seen] holds
    the identifiers taken. *)
Fixpoint validate_records (env : NotifyEnv) (seen : list string) (l : list PersistedRule) : outcome (result string unit) :=
  match l with
  | [] => Ret (Ok tt)
  | p :: l' =>
      then_check (validate_persisted_rule env p)
        (if str_mem (pe_id p) seen then Ret (Err "notification configuration contains duplicate rule IDs")
         else validate_records env (pe_id p :: seen) l')
  end.
Definition validate_configuration (env : NotifyEnv) (rules : list PersistedRule) : outcome (result string unit) :=
  if MAX_RULES <? vec_len rules then Ret (Err "notification configuration exceeds 128 rules")
  else validate_records env [] rules.

Definition record_of (p : PersistedRule) : RuleRecord :=
  mk_rule_record (pe_id p) (pe_owner_id p) (pe_active p) (pe_active_revision p) (pe_draft p) (pe_draft_revision p)
    (pe_created_at_ms p) (pe_updated_at_ms p) None None.
Definition persisted_of (record : RuleRecord) : PersistedRule :=
  mk_persisted (rr_id record) (rr_owner_id record) (rr_active record) (rr_active_revision record) (rr_draft record)
    (rr_draft_revision record) (rr_created_at_ms record) (rr_updated_at_ms record).

Fixpoint load_records (env : NotifyEnv) (rules : gmap string RuleRecord) (l : list PersistedRule)
    : outcome (result string (gmap string RuleRecord)) :=
  match l with
  | [] => Ret (Ok rules)
  | p :: l' =>
      let! r := validate_persisted_rule env p in
      match r with
      | Err err => Ret (Err err)
      | Ok _ =>
          if is_none (rules !! pe_id p) then load_records env (<[pe_id p := record_of p]> rules) l'
          else Ret (Err "notification configuration contains duplicate rule IDs")
      end
  end.
Definition load_configured_rules (env : NotifyEnv) (rules : list PersistedRule)
    : outcome (result string (gmap string RuleRecord)) :=
  if MAX_RULES <? vec_len rules then Ret (Err "notification configuration exceeds 128 rules")
  else load_records env ∅ rules.

(** ** Writing *)

Definition validate_secret_keys (secrets : gmap string string) : result string unit :=
  ensure (forallb (λ p : string * string, valid_secret_key p.1) (btree_iter secrets)) "invalid secret key".

(** [BTreeMap::extend]. *)
Definition extend (secrets values : gmap string string) : gmap string string := values ∪ secrets.

(** [write_configuration_table]: the rules are validated against the secrets on disk,
    the rest of the configuration by [io_table]. *)
Definition write_configuration_table (io : StoreIo) (rules : list PersistedRule) (disk : Disk)
    : outcome (result string unit * Disk) :=
  let! valid := validate_configuration (env_at io (dk_secrets disk)) rules in
  match (let? _ := valid in io_table io) with
  | Err err => Ret (Err err, disk)
  | Ok _ =>
      let '(r, rules) := write_private_file_atomically (io_write io) (dk_rules disk) rules in
      Ret (r, mk_disk (dk_secrets disk) rules)
  end.

(** Rolling back writes the old file again, or removes it when there was none. *)
Definition write_with_managed_secrets (io : StoreIo) (rules : list PersistedRule) (values : gmap string string)
    (disk : Disk) : outcome (result string unit * Disk) :=
  let original := dk_secrets disk in
  let staged := extend original values in
  let current := extend (filter (λ p, str_prefix NOTIFICATION_SECRET_PREFIX p.1 = false) original) values in
  match (let? _ := ensure (forallb (λ p : string * string, str_prefix NOTIFICATION_SECRET_PREFIX p.1) (btree_iter values))
                     "managed secret key does not use the required prefix" in
         let? _ := io_load io in
         let? _ := validate_secret_keys staged in
         let? _ := validate_secret_keys current in
         io_read io) with
  | Err err => Ret (Err err, disk)
  | Ok _ =>
      let '(r, secrets) := write_private_file_atomically (io_staged io) original staged in
      match r with
      | Err err => Ret (Err err, mk_disk secrets (dk_rules disk))
      | Ok _ =>
          let! (r, disk) := write_configuration_table io rules (mk_disk secrets (dk_rules disk)) in
          match r with
          | Err err =>
              let '(_, secrets) := write_private_file_atomically (io_rollback io) (dk_secrets disk) original in
              Ret (Err err, mk_disk secrets (dk_rules disk))
          | Ok _ =>
              let secrets := if bool_decide (staged = current) then dk_secrets disk
                             else snd (write_private_file_atomically (io_current io) (dk_secrets disk) current) in
              Ret (Ok tt, mk_disk secrets (dk_rules disk))
          end
      end
  end.

Definition persist_configured_rules (io : StoreIo) (rules : gmap string RuleRecord) (disk : Disk)
    : outcome (result string (gmap string RuleRecord) * Disk) :=
  let! r := externalize_records (env_at io (dk_secrets disk)) (btree_iter rules) in
  match (let? v := r in let? _ := io_config io in Ok v) with
  | Err err => Ret (Err err, disk)
  | Ok (canonical, stored) =>
      let values := foldl (λ m (p : string * string), <[p.1 := p.2]> m) ∅ stored in
      let! (r, disk) := write_with_managed_secrets io ((λ p : string * RuleRecord, persisted_of p.2) <$> canonical)
                          values disk in
      Ret ((let? _ := r in Ok (list_to_map canonical)), disk)
  end.

(** ** Operations *)

Definition ensure_owner (record : RuleRecord) (owner_id : string) : result RuleStoreError unit :=
  if str_eqb (rr_owner_id record) owner_id then Ok tt else Err NotAuthorized.
Definition ensure_revisions (record : RuleRecord) (active draft : Z) : result RuleStoreError unit :=
  if (rr_active_revision record =? active) && (rr_draft_revision record =? draft) then Ok tt
  else Err (Conflict (rr_active_revision record) (rr_draft_revision record)).
Definition other {A : Type} (r : result string A) : result RuleStoreError A :=
  match r with Ok a => Ok a | Err message => Err (Other message) end.

Definition restore_rule (rules : gmap string RuleRecord) (rule_id : string) (previous : option RuleRecord)
    : gmap string RuleRecord :=
  match previous with
  | Some record => <[rule_id := record]> rules
  | None => delete rule_id rules
  end.

Definition resolve_active (env : NotifyEnv) (active : option Rule) : outcome (result string (option Rule)) :=
  match active with
  | None => Ret (Ok None)
  | Some r => let! r := resolve_rule_destinations env r in Ret (let? r := r in Ok (Some r))
  end.
Definition resolve_record_destinations (env : NotifyEnv) (record : RuleRecord) : outcome (result string RuleRecord) :=
  let! active := resolve_active env (rr_active record) in
  match active with
  | Err err => Ret (Err err)
  | Ok active =>
      let! draft := resolve_rule_destinations env (rr_draft record) in
      Ret (let? draft := draft in Ok (set_versions record active draft))
  end.

Definition set_revision (r : Rule) (revision : Z) : Rule :=
  mk_rule (ru_id r) (ru_name r) (ru_enabled r) revision (ru_owner_id r) (ru_triggers r) (ru_filter r)
    (ru_schedule r) (ru_cooldowns r) (ru_rate_limits r) (ru_critical_bypass r) (ru_enrichment r) (ru_actions r)
    (ru_failure r).

Definition next_draft_revision (s : RuntimeState) (draft : Rule) (expected : Z) : result RuleStoreError Z :=
  match s_rules s !! ru_id draft with
  | Some existing =>
      let? _ := ensure_owner existing (ru_owner_id draft) in
      let? _ := ensure_revisions existing (rr_active_revision existing) expected in
      match checked_add u64_max (rr_draft_revision existing) 1 with
      | Some revision => Ok revision
      | None => Err (Other "notification draft revision is exhausted")
      end
  | None =>
      if expected =? 0 then
        if Z.of_nat (size (s_rules s)) <? MAX_RULES then Ok 1
        else Err (Other "notification configuration exceeds 128 rules")
      else Err (Conflict 0 0)
  end.

Definition draft_record (previous : option RuleRecord) (draft : Rule) (revision now_ms : Z) : RuleRecord :=
  mk_rule_record (ru_id draft) (ru_owner_id draft) (previous ≫= rr_active)
    (match previous with Some record => rr_active_revision record | None => 0 end)
    draft revision (match previous with Some record => rr_created_at_ms record | None => now_ms end) now_ms
    (previous ≫= rr_last_match_at_ms) (previous ≫= rr_last_delivery_at_ms).

Definition save_draft (draft : Rule) (expected now_ms : Z) (io : StoreIo) (s : RuntimeState) (disk : Disk)
    : outcome (result RuleStoreError RuleRecord * RuntimeState * Disk) :=
  match (let? _ := other (validate_draft_identity draft) in
         let? revision := next_draft_revision s draft expected in
         let? _ := other (serialize_rule (set_revision draft revision)) in
         Ok revision) with
  | Err err => Ret (Err err, s, disk)
  | Ok revision =>
      let id := ru_id draft in
      let previous := s_rules s !! id in
      let rules := <[id := draft_record previous (set_revision draft revision) revision now_ms]> (s_rules s) in
      let! (r, disk) := persist_configured_rules io rules disk in
      match r with
      | Err err => Ret (Err (Other err), set_s_rules (restore_rule rules id previous) s, disk)
      | Ok rules =>
          match rules !! id with
          | None => Panic
          | Some record =>
              let! resolved := resolve_record_destinations (env_at io (dk_secrets disk)) record in
              Ret (other resolved, set_s_rules rules s, disk)
          end
      end
  end.

Definition activated (record : RuleRecord) (active : Rule) (revision now_ms : Z) : RuleRecord :=
  mk_rule_record (rr_id record) (rr_owner_id record) (Some (set_revision active revision)) revision
    (rr_draft record) (rr_draft_revision record) (rr_created_at_ms record) now_ms (rr_last_match_at_ms record)
    (rr_last_delivery_at_ms record).

(** The checks of a change to an existing rule. *)
Definition current_record (s : RuntimeState) (rule_id owner_id : string) (active draft : Z)
    : result RuleStoreError RuleRecord :=
  match s_rules s !! rule_id with
  | None => Err NotFound
  | Some record =>
      let? _ := ensure_owner record owner_id in
      let? _ := ensure_revisions record active draft in
      Ok record
  end.

(** The draft with its destinations, validated, and its next revision. *)
Definition next_active (env : NotifyEnv) (previous : RuleRecord) : outcome (result string (Rule * Z)) :=
  let! resolved := resolve_rule_destinations env (rr_draft previous) in
  match resolved with
  | Err err => Ret (Err err)
  | Ok active =>
      let! valid := rule_validate (ne_zones env) (ne_parsers env) active in
      Ret (let? _ := valid in
           match checked_add u64_max (rr_active_revision previous) 1 with
           | Some revision => Ok (active, revision)
           | None => Err "notification active revision is exhausted"
           end)
  end.

Definition activate (rule_id owner_id : string) (expected_active expected_draft now_ms : Z) (io : StoreIo)
    (s : RuntimeState) (disk : Disk) : outcome (result RuleStoreError RuleRecord * RuntimeState * Disk) :=
  match current_record s rule_id owner_id expected_active expected_draft with
  | Err err => Ret (Err err, s, disk)
  | Ok previous =>
      let! next := next_active (env_at io (dk_secrets disk)) previous in
      match next with
      | Err err => Ret (Err (Other err), s, disk)
      | Ok (active, revision) =>
          let rules := <[rule_id := activated previous active revision now_ms]> (s_rules s) in
          let! (r, disk) := persist_configured_rules io rules disk in
          match r with
          | Err err => Ret (Err (Other err), set_s_rules (<[rule_id := previous]> rules) s, disk)
          | Ok rules =>
              match rules !! rule_id with
              | None => Panic
              | Some record =>
                  let! (_, s) := cancel_disabled_outbox rule_id (rr_active record) now_ms (set_s_rules rules s) in
                  let! resolved := resolve_record_destinations (env_at io (dk_secrets disk)) record in
                  Ret (other resolved, s, disk)
              end
          end
      end
  end.

Definition delete_rule (rule_id owner_id : string) (expected_active expected_draft now_ms : Z) (io : StoreIo)
    (s : RuntimeState) (disk : Disk) : outcome (result RuleStoreError unit * RuntimeState * Disk) :=
  match current_record s rule_id owner_id expected_active expected_draft with
  | Err err => Ret (Err err, s, disk)
  | Ok existing =>
      let rules := delete rule_id (s_rules s) in
      let! (r, disk) := persist_configured_rules io rules disk in
      match r with
      | Err err => Ret (Err (Other err), set_s_rules (<[rule_id := existing]> rules) s, disk)
      | Ok rules =>
          let! (_, s) := cancel_disabled_outbox rule_id None now_ms (set_s_rules rules s) in
          Ret (Ok tt, s, disk)
      end
  end.
End store.
