(* ===== verification/NotifyInv.v ===== *)
(** * Invariant of the notification state

    [notify_ok] bounds every table and relates them: outbox items name existing
    notifications, at most one item exists per notification, action and stage, and an
    item that waits for delivery has attempts left.  [grows] bounds how far an operation
    advances the sequence counters, whose overflow would abort. *)

From S2P Require Import Prelude CameraEvent NotifyModel NotifyState NotifyProcess NotifyDelivery NotifyStore.

Definition outbox_key (i : OutboxItem) : string * Z * Stage := (ob_logical_id i, ob_action_index i, ob_stage i).

(** Notifications times actions times stages. *)
Definition MAX_OUTBOX : Z := MAX_LOGICAL_NOTIFICATIONS * MAX_ACTIONS * 3.

(** What activation checked of a rule, as far as the state relies on it. *)
Record rule_ok (r : Rule) : Prop := {
  ruo_actions : vec_len (ru_actions r) ≤ MAX_ACTIONS;
  ruo_attempts : 1 ≤ fp_maximum_attempts (ru_failure r) ≤ 10
}.

(** A stored rule: its versions carry its key, and the active one was validated. *)
Record record_ok (k : string) (record : RuleRecord) : Prop := {
  rco_active : ∀ r, rr_active record = Some r → ru_id r = k ∧ rule_ok r;
  rco_draft : ru_id (rr_draft record) = k;
  rco_typed : 0 ≤ fp_maximum_attempts (ru_failure (rr_draft record))
}.

Record item_ok (s : RuntimeState) (id : Z) (i : OutboxItem) : Prop := {
  io_id : ob_id i = id;
  io_fresh : id < s_next_outbox_id s;
  io_logical : is_Some (s_logical s !! ob_logical_id i);
  io_index : 0 ≤ ob_action_index i < MAX_ACTIONS;
  io_attempts : 0 ≤ ob_attempt_count i ≤ ob_max_attempts i;
  io_max : ob_max_attempts i ≤ 10;
  io_left : status_pending (ob_status i) = true → ob_attempt_count i < ob_max_attempts i;
  io_receipt : is_Some (ob_provider_receipt i) → is_Some (ob_provider_receipt_expires_at_ms i)
}.

Record notify_ok (s : RuntimeState) : Prop := {
  no_rules : Z.of_nat (size (s_rules s)) ≤ MAX_RULES;
  no_records : map_Forall record_ok (s_rules s);
  no_logical : map_Forall (λ k l, lo_id l = k) (s_logical s);
  no_items : map_Forall (item_ok s) (s_outbox s);
  no_unique : ∀ a b i j, s_outbox s !! a = Some i → s_outbox s !! b = Some j → outbox_key i = outbox_key j → a = b;
  no_logical_size : Z.of_nat (size (s_logical s)) ≤ MAX_LOGICAL_NOTIFICATIONS;
  no_cooldowns : Z.of_nat (size (s_cooldowns s)) ≤ MAX_COOLDOWN_WINDOWS;
  no_intervals : Z.of_nat (size (s_intervals s)) ≤ MAX_OPERATIONAL_INTERVALS;
  no_history : vec_len (s_history s) ≤ MAX_HISTORY_EVENTS;
  no_attempts : vec_len (s_attempts s) ≤ MAX_DELIVERY_ATTEMPTS;
  no_receipts : map_Forall (λ k (_ : InboxReceipt), is_Some (s_logical s !! k.1)) (s_receipts s);
  no_owner : ∀ id a b, is_Some (s_receipts s !! (id, a)) → is_Some (s_receipts s !! (id, b)) → a = b
}.

Record grows (n : Z) (s s' : RuntimeState) : Prop := {
  gr_history : s_next_history_sequence s ≤ s_next_history_sequence s' ≤ s_next_history_sequence s + n;
  gr_attempt : s_next_attempt_sequence s ≤ s_next_attempt_sequence s' ≤ s_next_attempt_sequence s + n;
  gr_outbox : s_next_outbox_id s ≤ s_next_outbox_id s' ≤ s_next_outbox_id s + n
}.
Record room (n : Z) (s : RuntimeState) : Prop := {
  rm_history : s_next_history_sequence s + n ≤ u64_max;
  rm_attempt : s_next_attempt_sequence s + n ≤ u64_max;
  rm_outbox : s_next_outbox_id s + n ≤ u64_max
}.

(** A later version of an item: the key and the limit stay, attempts are not taken back. *)
Record later_version (i j : OutboxItem) : Prop := {
  lv_key : outbox_key j = outbox_key i;
  lv_max : ob_max_attempts j = ob_max_attempts i;
  lv_attempts : ob_attempt_count i ≤ ob_attempt_count j
}.
(** The items of [s'] are later versions of those of [s], or new under fresh identifiers. *)
Definition items_evolve (s s' : RuntimeState) : Prop :=
  ∀ id j, s_outbox s' !! id = Some j →
    (∃ i, s_outbox s !! id = Some i ∧ later_version i j) ∨ s_next_outbox_id s ≤ id.

(** The items in delivery, and those still to be delivered or in delivery. *)
Definition delivering (i : OutboxItem) : Prop := ob_status i = StDelivering.
Definition unsettled (i : OutboxItem) : Prop :=
  ob_status i = StPending ∨ ob_status i = StRetrying ∨ ob_status i = StDelivering.
#[export] Instance delivering_dec i : Decision (delivering i).
Proof. unfold delivering. apply _. Defined.
#[export] Instance unsettled_dec i : Decision (unsettled i).
Proof. unfold unsettled. apply _. Defined.
Definition count (P : OutboxItem → Prop) `{!∀ i, Decision (P i)} (s : RuntimeState) : Z :=
  Z.of_nat (size (filter (λ p, P p.2) (s_outbox s))).
Definition in_delivery : RuntimeState → Z := count delivering.
Definition outstanding : RuntimeState → Z := count unsettled.

(** A new item joins only fewer than the allowed number that wait. *)
Definition within_limit (s s' : RuntimeState) : Prop :=
  outstanding s' ≤ Z.max (outstanding s) (MAX_PENDING_OUTBOX + in_delivery s).
Record evolves (s s' : RuntimeState) : Prop := {
  ev_items : items_evolve s s';
  ev_limit : within_limit s s';
  ev_delivery : in_delivery s' ≤ in_delivery s
}.

(** A step that returns, keeps the invariant and uses at most [n] of each sequence. *)
Record steps (n : Z) (s s' : RuntimeState) : Prop := {
  sp_ok : notify_ok s';
  sp_grows : grows n s s';
  sp_evolves : evolves s s'
}.
(** The same for a claim, after which one more item may be in delivery. *)
Record claims (n : Z) (s s' : RuntimeState) : Prop := {
  cs_ok : notify_ok s';
  cs_grows : grows n s s';
  cs_items : items_evolve s s';
  cs_limit : within_limit s s'
}.

Lemma later_version_refl i : later_version i i.
Proof. by constructor. Qed.
Lemma later_version_trans i j k : later_version i j → later_version j k → later_version i k.
Proof. intros [? ? ?] [? ? ?]. constructor; [congruence..|lia]. Qed.
Lemma items_evolve_trans n s1 s2 s3 : grows n s1 s2 → items_evolve s1 s2 → items_evolve s2 s3 → items_evolve s1 s3.
Proof.
  intros Hg H12 H23 id k [(j & Hj & Hjk)|Hk]%H23; [|right; destruct Hg; lia].
  destruct (H12 _ _ Hj) as [(i & Hi & Hij)|Hi]; [left|by right]. exists i. split; [done|by eapply later_version_trans].
Qed.
Lemma within_limit_trans s1 s2 s3 :
  within_limit s1 s2 → in_delivery s2 ≤ in_delivery s1 → within_limit s2 s3 → within_limit s1 s3.
Proof. unfold within_limit. lia. Qed.

Section counting.
Context (P : OutboxItem → Prop) `{HPd : !∀ i, Decision (P i)}.
Lemma count_subseteq s s' : s_outbox s' ⊆ s_outbox s → count P s' ≤ count P s.
Proof.
  intros H. unfold count. apply inj_le, map_subseteq_size, map_subseteq_spec. intros id i [Hi HP]%map_lookup_filter_Some.
  apply map_lookup_filter_Some. split; [by eapply lookup_weaken|done].
Qed.
Lemma count_update id i x s :
  s_outbox s !! id = Some i → (P x → P i) → count P (set_s_outbox (<[id := x]> (s_outbox s)) s) ≤ count P s.
Proof.
  intros Hi HP. unfold count. cbn [s_outbox set_s_outbox]. apply inj_le. destruct (decide (P x)) as [Hx|Hx].
  - rewrite map_filter_insert_True, map_size_insert_Some; [done| |done]. exists i. apply map_lookup_filter_Some. auto.
  - rewrite map_filter_insert_False, map_filter_delete by done. apply map_subseteq_size, delete_subseteq.
Qed.
Lemma size_filter_insert id x (m : gmap Z OutboxItem) :
  m !! id = None →
  Z.of_nat (size (filter (λ p, P p.2) (<[id := x]> m)))
  = Z.of_nat (size (filter (λ p, P p.2) m)) + (if decide (P x) then 1 else 0).
Proof.
  intros Hid. destruct (decide (P x)) as [Hx|Hx].
  - rewrite map_filter_insert_True, map_size_insert_None; [lia| |done]. apply map_lookup_filter_None. by left.
  - rewrite map_filter_insert_False, delete_id by done. lia.
Qed.
Lemma count_if_insert id x s s' :
  s_outbox s !! id = None → s_outbox s' = <[id := x]> (s_outbox s) →
  count P s' = count P s + (if decide (P x) then 1 else 0).
Proof. intros Hid Hs. unfold count. rewrite Hs. by apply size_filter_insert. Qed.
Lemma count_listed s : count P s = vec_len (filter (λ p, P p.2) (outbox_iter (s_outbox s))).
Proof.
  unfold count, vec_len. rewrite <-length_map_to_list. f_equal. apply Permutation_length, NoDup_Permutation.
  - apply NoDup_map_to_list.
  - apply NoDup_filter. unfold outbox_iter. rewrite merge_sort_Permutation. apply NoDup_map_to_list.
  - intros [id i]. unfold outbox_iter. rewrite list_elem_of_filter, merge_sort_Permutation, !elem_of_map_to_list, map_lookup_filter_Some.
    naive_solver.
Qed.
End counting.

Definition waits (i : OutboxItem) : Prop := status_pending (ob_status i) = true.
#[local] Instance waits_dec i : Decision (waits i).
Proof. unfold waits. apply _. Defined.
Lemma outstanding_pending s : outstanding s = pending_outbox_count s + in_delivery s.
Proof.
  assert (pending_outbox_count s = count waits s) as ->
    by (rewrite count_listed; done).
  unfold outstanding, in_delivery, count. generalize (s_outbox s). intros m.
  induction m as [|id i m Hid IH] using map_ind; [done|].
  rewrite (size_filter_insert unsettled), (size_filter_insert delivering),
    (size_filter_insert waits), IH by done.
  repeat case_decide; unfold waits, unsettled, delivering in *; try lia; destruct (ob_status i); naive_solver.
Qed.

Lemma evolves_subseteq s s' : s_outbox s' ⊆ s_outbox s → evolves s s'.
Proof.
  intros H. constructor; [|pose proof (count_subseteq unsettled s s' H); unfold within_limit, outstanding; lia|by apply count_subseteq].
  intros id j Hj. left. exists j. split; [by eapply lookup_weaken|apply later_version_refl].
Qed.
Lemma evolves_eq s s' : s_outbox s' = s_outbox s → evolves s s'.
Proof. intros H. apply evolves_subseteq. by rewrite H. Qed.
Lemma evolves_trans n s1 s2 s3 : grows n s1 s2 → evolves s1 s2 → evolves s2 s3 → evolves s1 s3.
Proof.
  intros Hg [] []. constructor; [by eapply items_evolve_trans|by eapply within_limit_trans|lia].
Qed.

Lemma grows_refl n s : 0 ≤ n → grows n s s.
Proof. intros. constructor; lia. Qed.
Lemma grows_trans n m k s1 s2 s3 : grows n s1 s2 → grows m s2 s3 → n + m ≤ k → grows k s1 s3.
Proof. intros [? ? ?] [? ? ?] ?. constructor; lia. Qed.
Lemma steps_refl n s : 0 ≤ n → notify_ok s → steps n s s.
Proof. intros. constructor; [done|by apply grows_refl|by apply evolves_eq]. Qed.
Lemma steps_trans n m k s1 s2 s3 : steps n s1 s2 → steps m s2 s3 → n + m ≤ k → steps k s1 s3.
Proof. intros [_ ? ?] [? ? ?] ?. constructor; [done|by eapply grows_trans|by eapply evolves_trans]. Qed.
Lemma steps_zero_trans n s1 s2 s3 : steps 0 s1 s2 → steps n s2 s3 → steps n s1 s3.
Proof. intros H1 H2. eapply steps_trans; [exact H1|exact H2|lia]. Qed.
Lemma steps_weaken n m s1 s2 : steps n s1 s2 → n ≤ m → steps m s1 s2.
Proof. intros [? [? ? ?] ?] ?. constructor; [done| |done]. constructor; lia. Qed.
Lemma room_after n m k s1 s2 : room k s1 → grows n s1 s2 → n + m ≤ k → room m s2.
Proof. intros [? ? ?] [? ? ?] ?. constructor; lia. Qed.
Lemma room_mono n m s : room n s → m ≤ n → room m s.
Proof. intros [? ? ?] ?. constructor; lia. Qed.

Lemma state_new_ok rules :
  map_Forall record_ok rules → Z.of_nat (size rules) ≤ MAX_RULES → notify_ok (state_new rules).
Proof. constructor; try done; cbn. by intros id a b [r Hr]. Qed.

(** ** The outbox in order *)

Lemma outbox_iter_perm m : outbox_iter m ≡ₚ map_to_list m.
Proof. apply merge_sort_Permutation. Qed.
Lemma outbox_iter_elem m id i : (id, i) ∈ outbox_iter m ↔ m !! id = Some i.
Proof. by rewrite outbox_iter_perm, elem_of_map_to_list. Qed.

Lemma outbox_key_exists_false s logical index stage :
  outbox_key_exists s logical index stage = false →
  ∀ id i, s_outbox s !! id = Some i → outbox_key i ≠ (logical, index, stage).
Proof.
  intros H id i Hi He. unfold outbox_key_exists in H. apply outbox_iter_elem in Hi.
  assert (existsb (λ p, same_outbox_key logical index stage p.2) (outbox_iter (s_outbox s)) = true); [|congruence].
  apply existsb_exists. exists (id, i). split; [by apply list_elem_of_In|]. cbn. unfold same_outbox_key, outbox_key in *.
  injection He as -> -> ->. unfold str_eqb. rewrite !bool_decide_true by done. by rewrite Z.eqb_refl.
Qed.

(** ** The outbox is bounded *)

Definition outbox_keys_of (s : RuntimeState) : list (string * Z * Stage) :=
  (λ p : Z * OutboxItem, outbox_key p.2) <$> map_to_list (s_outbox s).
Definition possible_keys (s : RuntimeState) : list (string * Z * Stage) :=
  mjoin ((λ id, mjoin ((λ n, (λ stage, (id, Z.of_nat n, stage)) <$> [Preliminary; Enriched; StageRecovery])
    <$> seq 0 (Z.to_nat MAX_ACTIONS))) <$> elements (dom (s_logical s))).

Lemma length_join_const {A B} (f : A → list B) n l :
  (∀ a, length (f a) = n) → length (mjoin (f <$> l)) = (length l * n)%nat.
Proof.
  intros Hf. induction l as [|a l IH]; [done|].
  change (mjoin (f <$> a :: l)) with (f a ++ mjoin (f <$> l)). rewrite length_app, Hf, IH. cbn. lia.
Qed.

Lemma possible_keys_length s : length (possible_keys s) = (size (s_logical s) * 24)%nat.
Proof.
  unfold possible_keys. rewrite <-(size_dom (D := gset string)).
  change (size (dom (s_logical s))) with (length (elements (dom (s_logical s)))). by apply length_join_const.
Qed.

Lemma outbox_bounded s : notify_ok s → Z.of_nat (size (s_outbox s)) ≤ MAX_OUTBOX.
Proof.
  intros Hok. assert (outbox_keys_of s ⊆+ possible_keys s) as Hsub.
  { apply NoDup_submseteq.
    - apply NoDup_fmap_2_strong; [|apply NoDup_map_to_list]. intros [a i] [b j] Hi%elem_of_map_to_list Hj%elem_of_map_to_list He.
      assert (a = b) as -> by (by eapply (no_unique s Hok)). rewrite Hi in Hj. by simplify_eq.
    - intros k Hk. apply list_elem_of_fmap in Hk as ([id i] & -> & Hi%elem_of_map_to_list).
      destruct (no_items s Hok _ _ Hi) as [_ _ [l Hl] Hx _ _ _ _]. unfold possible_keys.
      apply list_elem_of_join. eexists. split; [|apply list_elem_of_fmap; exists (ob_logical_id i); split; [done|]].
      + apply list_elem_of_join. eexists. split; [|apply list_elem_of_fmap; exists (Z.to_nat (ob_action_index i)); split; [done|]].
        * cbn. unfold outbox_key. rewrite Z2Nat.id by lia. destruct (ob_stage i); set_solver.
        * apply elem_of_seq. unfold MAX_ACTIONS in *. lia.
      + apply elem_of_elements, elem_of_dom. by eexists. }
  apply submseteq_length in Hsub. rewrite possible_keys_length in Hsub. unfold outbox_keys_of in Hsub.
  rewrite length_fmap, length_map_to_list in Hsub. pose proof (no_logical_size s Hok).
  unfold MAX_OUTBOX, MAX_ACTIONS in *. lia.
Qed.

(** A notification has at most one inbox receipt. *)
Lemma receipts_bounded s : notify_ok s → (size (s_receipts s) ≤ size (s_logical s))%nat.
Proof.
  intros Hok. rewrite <-(size_dom (D := gset string) (s_logical s)), <-(length_map_to_list (s_receipts s)).
  change (size (dom (s_logical s))) with (length (elements (dom (s_logical s)))).
  rewrite <-(length_fmap (λ p : (string * string) * InboxReceipt, p.1.1)). apply submseteq_length, NoDup_submseteq.
  - apply NoDup_fmap_2_strong; [|apply NoDup_map_to_list].
    intros [[a o] r] [[b o'] r'] Hr%elem_of_map_to_list Hr'%elem_of_map_to_list He. cbn in He. subst b.
    assert (o = o') as -> by (eapply (no_owner s Hok a); by eexists). congruence.
  - intros k ([[a o] r] & -> & Hr%elem_of_map_to_list)%list_elem_of_fmap. cbn.
    apply elem_of_elements, elem_of_dom, (no_receipts s Hok _ _ Hr).
Qed.

(** ** History *)

(** Equal but for the history and its sequence. *)
Record quiet (s s' : RuntimeState) : Prop := {
  qu_rules : s_rules s' = s_rules s;
  qu_logical : s_logical s' = s_logical s;
  qu_intervals : s_intervals s' = s_intervals s;
  qu_receipts : s_receipts s' = s_receipts s;
  qu_cooldowns : s_cooldowns s' = s_cooldowns s;
  qu_windows : s_rate_windows s' = s_rate_windows s;
  qu_outbox : s_outbox s' = s_outbox s;
  qu_attempts : s_attempts s' = s_attempts s;
  qu_next_attempt : s_next_attempt_sequence s' = s_next_attempt_sequence s;
  qu_next_outbox : s_next_outbox_id s' = s_next_outbox_id s
}.

Lemma quiet_refl s : quiet s s.
Proof. by constructor. Qed.
Lemma quiet_trans s1 s2 s3 : quiet s1 s2 → quiet s2 s3 → quiet s1 s3.
Proof. intros [] []. constructor; congruence. Qed.

Lemma trim_front_len {A} max (l : list A) : 0 ≤ max → vec_len (trim_front max l) ≤ max.
Proof. intros. unfold trim_front, vec_len. rewrite length_drop. lia. Qed.

(** The notifications of [s] are still known in [s']. *)
Definition keeps (s s' : RuntimeState) : Prop := ∀ k, is_Some (s_logical s !! k) → is_Some (s_logical s' !! k).

Lemma item_ok_ext s s' id i :
  keeps s s' → s_next_outbox_id s ≤ s_next_outbox_id s' → item_ok s id i → item_ok s' id i.
Proof. intros Hl Hn [? ? ? ? ? ? ? ?]. constructor; try done; [lia|by apply Hl]. Qed.
Lemma items_ok_ext s s' (m : gmap Z OutboxItem) :
  keeps s s' → s_next_outbox_id s ≤ s_next_outbox_id s' → map_Forall (item_ok s) m → map_Forall (item_ok s') m.
Proof. intros Hl Hn H id i Hi. by eapply item_ok_ext, H. Qed.
Lemma keeps_eq s s' : s_logical s' = s_logical s → keeps s s'.
Proof. by intros H k; rewrite H. Qed.

Lemma notify_ok_quiet s s' :
  notify_ok s → quiet s s' → vec_len (s_history s') ≤ MAX_HISTORY_EVENTS → notify_ok s'.
Proof.
  intros [] [Q1 Q2 Q3 Q4 Q5 Q6 Q7 Q8 Q9 Q10] Hh.
  constructor; rewrite ?Q1, ?Q2, ?Q3, ?Q4, ?Q5, ?Q7, ?Q8; try done.
  apply (items_ok_ext s); [by apply keeps_eq|lia|done].
Qed.

(** A push with room left: the state is the same but for its history. *)
Lemma push_history_ok e s :
  notify_ok s → room 1 s → ∃ s', push_history e s = Ret s' ∧ quiet s s' ∧ steps 1 s s'.
Proof.
  intros Hok [Hh Ha Hx]. unfold push_history, checked_add. rewrite (proj2 (Z.leb_le _ _)) by lia.
  eexists. split; [done|]. split; [by constructor|]. split.
  - apply (notify_ok_quiet s); [done|by constructor|]. by apply trim_front_len.
  - constructor; cbn; lia.
  - by apply evolves_eq.
Qed.

Lemma push_all_ok entries s :
  notify_ok s → room (vec_len entries) s →
  ∃ s', push_all entries s = Ret s' ∧ quiet s s' ∧ steps (vec_len entries) s s'.
Proof.
  revert s. induction entries as [|e entries IH]; intros s Hok Hr; cbn [push_all].
  { exists s. split; [done|]. split; [apply quiet_refl|by apply steps_refl]. }
  assert (vec_len (e :: entries) = 1 + vec_len entries) as Hlen by (unfold vec_len; cbn; lia).
  destruct (push_history_ok e s Hok) as (s1 & -> & Hq & Hs); [eapply room_mono; [done|unfold vec_len; cbn; lia]|]. cbn [obind].
  destruct (IH s1) as (s2 & -> & Hq2 & Hs2); [apply Hs|eapply room_after; [done|apply Hs|lia]|].
  exists s2. split; [done|]. split; [by eapply quiet_trans|]. eapply steps_trans; [done|done|lia].
Qed.

(** Updates that leave the tables behind the invariant alone. *)
Lemma steps_rate_windows w s : notify_ok s → steps 0 s (set_s_rate_windows w s).
Proof.
  intros []. constructor; [|constructor; cbn; lia|by apply evolves_eq]. constructor; try done.
  apply (items_ok_ext s); [by apply keeps_eq|cbn; lia|done].
Qed.
Lemma steps_cooldowns m s :
  notify_ok s → Z.of_nat (size m) ≤ MAX_COOLDOWN_WINDOWS → steps 0 s (set_s_cooldowns m s).
Proof.
  intros [] Hm. constructor; [|constructor; cbn; lia|by apply evolves_eq]. constructor; try done.
  apply (items_ok_ext s); [by apply keeps_eq|cbn; lia|done].
Qed.
Lemma steps_intervals m s :
  notify_ok s → Z.of_nat (size m) ≤ MAX_OPERATIONAL_INTERVALS → steps 0 s (set_s_intervals m s).
Proof.
  intros [] Hm. constructor; [|constructor; cbn; lia|by apply evolves_eq]. constructor; try done.
  apply (items_ok_ext s); [by apply keeps_eq|cbn; lia|done].
Qed.

(** New rules, or an update that keeps the versions. *)
Lemma steps_set_rules m s :
  notify_ok s → Z.of_nat (size m) ≤ MAX_RULES → map_Forall record_ok m → steps 0 s (set_s_rules m s).
Proof.
  intros [] Hm Hr. constructor; [|constructor; cbn; lia|by apply evolves_eq]. constructor; cbn; try done.
  apply (items_ok_ext s); [by apply keeps_eq|cbn; lia|done].
Qed.
Lemma steps_rules k f s :
  (∀ record, rr_active (f record) = rr_active record ∧ rr_draft (f record) = rr_draft record) →
  notify_ok s → steps 0 s (set_s_rules (alter f k (s_rules s)) s).
Proof.
  intros Hf Hok. apply steps_set_rules; [done| |].
  - rewrite <-(size_dom (D := gset string)), dom_alter, size_dom. apply (no_rules s Hok).
  - intros k' record Hk. apply lookup_alter_Some in Hk as [(-> & record' & Hk & ->) | [_ Hk]];
      [|by apply (no_records s Hok)].
    destruct (no_records s Hok _ _ Hk) as [? ? ?], (Hf record') as [Ha Hd]. constructor; by rewrite ?Ha, ?Hd.
Qed.

(** An item is replaced by a later version. *)
Lemma outbox_update_ok id f i s :
  notify_ok s → s_outbox s !! id = Some i → later_version i (f i) → (item_ok s id i → item_ok s id (f i)) →
  let s' := set_s_outbox (<[id := f i]> (s_outbox s)) s in notify_ok s' ∧ grows 0 s s' ∧ items_evolve s s'.
Proof.
  intros [] Hi Hk Hf.
  assert (∀ c z, <[id := f i]> (s_outbox s) !! c = Some z → ∃ z', s_outbox s !! c = Some z' ∧ later_version z' z) as Hback.
  { intros c z Hz. apply lookup_insert_Some in Hz as [[<- <-] | [_ Hz]]; [by exists i|].
    exists z. split; [done|apply later_version_refl]. }
  split; [|split; [constructor; cbn; lia|intros c z Hz; left; by apply Hback]]. constructor; cbn; try done.
  - apply (items_ok_ext s); [by apply keeps_eq|cbn; lia|]. by apply map_Forall_insert_2; [apply Hf, no_items0|].
  - intros a b x y Hx Hy He. destruct (Hback _ _ Hx) as (x' & Hx' & [Ex _ _]), (Hback _ _ Hy) as (y' & Hy' & [Ey _ _]).
    eapply no_unique0; [done|done|congruence].
Qed.

(** The new version is in delivery, or still to be delivered, only if the old one was. *)
Definition settles (i j : OutboxItem) : Prop := (unsettled j → unsettled i) ∧ (delivering j → delivering i).
Lemma settles_status i j : ob_status j = ob_status i → settles i j.
Proof. unfold settles, unsettled, delivering. by intros ->. Qed.
Lemma settles_over i j : ¬ unsettled j → settles i j.
Proof. unfold settles, unsettled, delivering. tauto. Qed.

Lemma steps_outbox_update id f i s :
  notify_ok s → s_outbox s !! id = Some i → later_version i (f i) → settles i (f i) →
  (item_ok s id i → item_ok s id (f i)) → steps 0 s (set_s_outbox (<[id := f i]> (s_outbox s)) s).
Proof.
  intros Hok Hi Hk [Hu Hd] Hf. destruct (outbox_update_ok id f i s Hok Hi Hk Hf) as (H1 & H2 & H3). constructor; [done..|].
  pose proof (count_update unsettled id i (f i) s Hi Hu). pose proof (count_update delivering id i (f i) s Hi Hd).
  constructor; [done|unfold within_limit, outstanding; lia|done].
Qed.
Lemma claims_outbox_update id f i s :
  notify_ok s → s_outbox s !! id = Some i → later_version i (f i) → (unsettled (f i) → unsettled i) →
  (item_ok s id i → item_ok s id (f i)) → claims 0 s (set_s_outbox (<[id := f i]> (s_outbox s)) s).
Proof.
  intros Hok Hi Hk Hu Hf. destruct (outbox_update_ok id f i s Hok Hi Hk Hf) as (H1 & H2 & H3). constructor; [done..|].
  pose proof (count_update unsettled id i (f i) s Hi Hu). unfold within_limit, outstanding. lia.
Qed.
Lemma steps_claims n m k s1 s2 s3 : steps n s1 s2 → claims m s2 s3 → n + m ≤ k → claims k s1 s3.
Proof.
  intros [_ Hg [Hi Hl Hd]] [] ?. constructor; [done|by eapply grows_trans|by eapply items_evolve_trans|by eapply within_limit_trans].
Qed.
Lemma steps_are_claims n s s' : steps n s s' → claims n s s'.
Proof. intros [? ? []]. by constructor. Qed.

(** A notification is updated, or a new one is added with its receipt. *)
Lemma steps_logical_update id f l s :
  notify_ok s → s_logical s !! id = Some l → lo_id (f l) = lo_id l →
  steps 0 s (set_s_logical (<[id := f l]> (s_logical s)) s).
Proof.
  intros [] Hl Hf. constructor; [|constructor; cbn; lia|by apply evolves_eq].
  assert (keeps s (set_s_logical (<[id := f l]> (s_logical s)) s)) as Hk.
  { intros k Hk. cbn. apply lookup_insert_is_Some. destruct (decide (id = k)); auto. }
  constructor; cbn; try done.
  - apply map_Forall_insert_2; [|done]. rewrite Hf. by apply no_logical0.
  - apply (items_ok_ext s); [done|cbn; lia|done].
  - by rewrite map_size_insert_Some.
  - intros k r Hr. by eapply Hk, no_receipts0.
Qed.

Lemma steps_logical_insert id l owner receipt s :
  notify_ok s → s_logical s !! id = None → lo_id l = id → logical_capacity_available s = true →
  steps 0 s (set_s_receipts (<[(id, owner) := receipt]> (s_receipts s)) (set_s_logical (<[id := l]> (s_logical s)) s)).
Proof.
  intros [] Hl Hf Hc%Z.ltb_lt. constructor; [|constructor; cbn; lia|by apply evolves_eq].
  set (s' := set_s_receipts _ _).
  assert (keeps s s') as Hk.
  { intros k Hk. cbn. apply lookup_insert_is_Some. destruct (decide (id = k)); auto. }
  constructor; cbn; try done.
  - by apply map_Forall_insert_2.
  - apply (items_ok_ext s); [done|cbn; lia|done].
  - rewrite map_size_insert_None by done. lia.
  - apply map_Forall_insert_2; [cbn; by rewrite lookup_insert_eq|]. intros k r Hr. by eapply Hk, no_receipts0.
  - intros id' a b Ha Hb. assert (∀ c, is_Some (s_receipts s !! (id, c)) → False) as Hnew.
    { intros c [r Hr]. destruct (no_receipts0 _ _ Hr) as [l' Hl']. cbn in Hl'. congruence. }
    destruct (decide (id = id')) as [<-|Hne].
    + apply lookup_insert_is_Some in Ha as [[= <-]|[_ Ha]]; [|by destruct (Hnew a)].
      apply lookup_insert_is_Some in Hb as [[= <-]|[_ Hb]]; [done|by destruct (Hnew b)].
    + rewrite lookup_insert_ne in Ha, Hb by congruence. by eapply no_owner0.
Qed.

(** A new item takes the next identifier. *)
Lemma steps_outbox_insert i s :
  notify_ok s → room 1 s →
  (∀ s', s_logical s' = s_logical s → s_next_outbox_id s' = s_next_outbox_id s + 1 → item_ok s' (s_next_outbox_id s) i) →
  (∀ id j, s_outbox s !! id = Some j → outbox_key j ≠ outbox_key i) →
  ob_status i = StPending → pending_outbox_count s < MAX_PENDING_OUTBOX →
  ∃ s1, next_outbox_id s = Ret (s_next_outbox_id s, s1) ∧ s_outbox s1 = s_outbox s ∧ s_logical s1 = s_logical s ∧
    s_cooldowns s1 = s_cooldowns s ∧
    steps 1 s (set_s_outbox (<[s_next_outbox_id s := i]> (s_outbox s1)) s1).
Proof.
  intros [] [_ _ Hx] Hi Hk Hp Hlim. unfold next_outbox_id, checked_add. rewrite (proj2 (Z.leb_le _ _)) by lia.
  eexists. split_and!; [done..|].
  constructor; [|constructor; cbn; lia|].
  2:{ assert (s_outbox s !! s_next_outbox_id s = None) as Hfresh.
      { destruct (s_outbox s !! s_next_outbox_id s) as [j|] eqn:Hj; [|done]. pose proof (io_fresh _ _ _ (no_items0 _ _ Hj)). lia. }
      set (s' := set_s_outbox _ _).
      pose proof (count_if_insert unsettled _ i s s' Hfresh eq_refl) as Hu.
      pose proof (count_if_insert delivering _ i s s' Hfresh eq_refl) as Hd.
      rewrite decide_True in Hu by (by left). rewrite decide_False in Hd by (unfold delivering; by rewrite Hp).
      constructor; [|pose proof (outstanding_pending s); unfold within_limit, outstanding in *; lia|unfold in_delivery; lia].
      intros id j Hj. cbn in Hj. apply lookup_insert_Some in Hj as [[<- <-] | [_ Hj]]; [by right|left].
      exists j. split; [done|apply later_version_refl]. }
  constructor; cbn; try done.
  - apply map_Forall_insert_2; [by apply Hi|].
    apply (items_ok_ext s); [by apply keeps_eq|cbn; lia|done].
  - intros a b x y Hx' Hy He.
    apply lookup_insert_Some in Hx' as [[<- <-] | [_ Hx']]; apply lookup_insert_Some in Hy as [[<- <-] | [_ Hy]];
      [done|by destruct (Hk b y)|by destruct (Hk a x)|by eapply no_unique0].
Qed.

(** ** Pruning *)

Lemma foldl_delete_subseteq {K A} `{Countable K} (keys : list K) (m : gmap K A) :
  foldl (λ m key, delete key m) m keys ⊆ m.
Proof.
  revert m. induction keys as [|k keys IH]; intros m; cbn; [done|]. etrans; [apply IH|apply delete_subseteq].
Qed.
Lemma foldl_delete_size {K A} `{Countable K} (keys : list K) (m : gmap K A) :
  NoDup keys → (∀ k, k ∈ keys → is_Some (m !! k)) →
  (size (foldl (λ m key, delete key m) m keys) + length keys = size m)%nat.
Proof.
  revert m. induction keys as [|k keys IH]; intros m Hn Hk; cbn; [lia|]. apply NoDup_cons in Hn as [Hk' Hn].
  rewrite Nat.add_succ_r, IH; [|done|].
  - destruct (Hk k) as [a Ha]; [set_solver|]. rewrite (map_size_delete_Some k m (ex_intro _ a Ha)).
    assert (size m ≠ O); [|lia]. intros Hz%map_size_empty_inv. by rewrite Hz, lookup_empty in Ha.
  - intros k' Hin. rewrite lookup_delete_ne by (intros ->; done). apply Hk. set_solver.
Qed.

(** * A small notification service

    The concrete environment, rule and candidate that the notification theorems are
    instantiated with. *)



(** Every zone is at Monday midnight, every URL parses. *)
Definition demo_notify_env : NotifyEnv :=
  mk_notify_env (mk_zones (λ _, Some (λ _, (1, 0, 0))) (λ _, true))
    (mk_parsers (λ _, Some (mk_url "https" "" None)) (λ _, None))
    (λ bytes, bytes) (λ _, None) (Ok tt) (λ _, Ok None) (λ d, d) (λ p, py_title p).

Definition demo_action : RuleAction :=
  mk_action true Webhook "https://hook" (mk_template "Person" "Open {{notification.deep_link}}") WhenAvailable false.
Definition demo_rule : Rule :=
  mk_rule "r" "Front door" true 1 "o" [EventCreated]
    (mk_filter [] [] [] [] None None None [] None None) (mk_schedule "UTC" [] None)
    [mk_cooldown ScopeRule 30000] [] None (mk_enrichment 10000 4 2 1048576 false)
    [demo_action] (mk_failure 3 60000 3600000).
Definition demo_candidate : Candidate :=
  mk_candidate EventCreated "front" None "event-1" LifeEvent (Some "person") None [] None None None None None false
    None Info None None false 1 Preliminary 1000 "/events/1".

(** The draft and the active version are the same. *)
Definition demo_rule_record : RuleRecord := mk_rule_record "r" "o" (Some demo_rule) 1 demo_rule 1 0 0 None None.
Definition demo_rules : gmap string RuleRecord := {["r" := demo_rule_record]}.
Definition demo_io : StoreIo := mk_io (Ok tt) (Ok tt) (Ok tt) Written (Ok tt) Written Written Written.
Definition demo_disk : Disk := mk_disk ∅ [].
Definition demo_overrides (key : string) : result string (option string) := Ok None.
Definition demo_json_len (r : Rule) : Z := 100.
Definition demo_order (m : gmap OperationalIntervalKey OperationalInterval)
    : list (OperationalIntervalKey * OperationalInterval) := map_to_list m.

Lemma demo_rule_ok : rule_ok demo_rule.
Proof. constructor; vm_compute; [congruence|split; congruence]. Qed.
Lemma demo_rules_ok : map_Forall record_ok demo_rules.
Proof.
  apply map_Forall_singleton. constructor; [|done|by vm_compute]. intros r [= <-]. split; [done|apply demo_rule_ok].
Qed.
Lemma demo_state_ok : notify_ok (state_new demo_rules).
Proof. apply state_new_ok; [apply demo_rules_ok|by vm_compute]. Qed.
