(* ===== verification/NotifyInbox.v ===== *)
(** * The notification inbox

    [src/notifications/inbox.rs]: what a principal sees of the notifications it owns,
    within the cameras it may access ([src/access.rs]), and its receipts. *)

From S2P Require Import Prelude CameraEvent NotifyModel NotifyState NotifyProcess NotifyStore.

Definition MAX_PAGE_ITEMS : Z := 200.

Record CameraAccess := mk_access {
  ca_all_cameras : bool;
  ca_group_ids : list string;
  ca_camera_ids : list string
}.
Definition unrestricted : CameraAccess := mk_access true [] [].
Definition allows (a : CameraAccess) (camera_id : string) : bool :=
  ca_all_cameras a || existsb (λ allowed, str_eqb allowed camera_id) (ca_camera_ids a).

Record NotificationItem := mk_item {
  ni_logical_id : string;
  ni_rule_id : string;
  ni_source_id : string;
  ni_source_identity : string;
  ni_lifecycle : string;
  ni_stage : Stage;
  ni_revision : Z;
  ni_title : string;
  ni_body : string;
  ni_deep_link : string;
  ni_attachment_available : bool;
  ni_canonical_attachment : option EventAttachment;
  ni_icon_key : option string;
  ni_image_available : bool;
  ni_severity : Severity;
  ni_created_at_ms : Z;
  ni_updated_at_ms : Z;
  ni_seen_at_ms : option Z;
  ni_acknowledged_at_ms : option Z
}.
Record Inbox := mk_inbox {
  in_items : list NotificationItem;
  in_unread_count : Z
}.
Record HistoryEvent := mk_history_event {
  hv_sequence : Z;
  hv_revision : Z;
  hv_stage : Stage;
  hv_outcome : string;
  hv_reason : option string;
  hv_occurred_at_ms : Z;
  hv_next_eligible_at_ms : option Z
}.
Record AttemptRecord := mk_attempt_record {
  at_sequence : Z;
  at_channel : string;
  at_stage : Stage;
  at_attempt : Z;
  at_outcome : string;
  at_target_hash : string;
  at_provider_status : option Z;
  at_provider_request_id : option string;
  at_provider_acknowledged_at_ms : option Z;
  at_provider_expired_at_ms : option Z;
  at_provider_acknowledged_by_hash : option string;
  at_provider_acknowledgement_state : option string;
  at_reason : option string;
  at_attempted_at_ms : Z;
  at_retry_at_ms : option Z
}.
Record HistoryGroup := mk_history_group {
  hg_notification : NotificationItem;
  hg_events : list HistoryEvent;
  hg_attempts : list AttemptRecord
}.
Inductive ClearScope := ClearAll | ClearRule (rule_id : string) | ClearBefore (before_ms : Z).
Inductive ReceiptUpdate := Seen | Acknowledged | Cleared.

Record InboxRecord := mk_inbox_record {
  ir_logical : LogicalNotification;
  ir_receipt : InboxReceipt
}.

(** ** Reading *)

Definition record_le (a b : InboxRecord) : Prop :=
  lo_updated_at_ms (ir_logical b) < lo_updated_at_ms (ir_logical a)
  ∨ (lo_updated_at_ms (ir_logical a) = lo_updated_at_ms (ir_logical b)
     ∧ str_leb (lo_id (ir_logical a)) (lo_id (ir_logical b)) = true).
#[global] Instance record_le_dec : RelDecision record_le.
Proof. intros a b. unfold record_le. apply _. Defined.

Definition visible (principal_id : string) (access : CameraAccess) (l : LogicalNotification) : bool :=
  str_eqb (lo_owner_id l) principal_id && allows access (lo_source_id l).

Definition inbox_record (s : RuntimeState) (principal_id : string) (include_cleared : bool) (access : CameraAccess)
    (p : (string * string) * InboxReceipt) : option InboxRecord :=
  if negb (str_eqb p.1.2 principal_id) || (negb include_cleared && negb (is_none (re_cleared_at_ms p.2))) then None
  else
    s_logical s !! p.1.1 ≫= λ logical,
      if visible principal_id access logical then Some (mk_inbox_record logical p.2) else None.

(** [limit.clamp(1, MAX_PAGE_ITEMS)]. *)
Definition notification_records (s : RuntimeState) (principal_id : string) (limit : Z) (include_cleared : bool)
    (access : CameraAccess) : list InboxRecord :=
  let limit := Z.max 1 (Z.min limit MAX_PAGE_ITEMS) in
  take (Z.to_nat limit)
    (merge_sort record_le (omap (inbox_record s principal_id include_cleared access) (map_to_list (s_receipts s)))).

(** [is_file] answers whether a path names a file. *)
Definition notification_item (is_file : string → bool) (r : InboxRecord) : NotificationItem :=
  let l := ir_logical r in
  let available := is_some_and is_file (lo_attachment_path l) in
  mk_item (lo_id l) (lo_rule_id l) (lo_source_id l) (lo_source_identity l) (lifecycle_as_str (lo_lifecycle l))
    (lo_stage l) (lo_highest_revision l) (lo_title l) (lo_body l) (lo_deep_link l) available
    (lo_canonical_attachment l) (lo_icon_key l)
    (negb (is_none (lo_canonical_attachment l)) && lo_image_available l && available) (lo_severity l)
    (lo_created_at_ms l) (lo_updated_at_ms l) (re_seen_at_ms (ir_receipt r)) (re_acknowledged_at_ms (ir_receipt r)).

Definition unread (s : RuntimeState) (principal_id : string) (access : CameraAccess)
    (p : (string * string) * InboxReceipt) : bool :=
  str_eqb p.1.2 principal_id && is_none (re_seen_at_ms p.2) && is_none (re_cleared_at_ms p.2)
  && is_some_and (visible principal_id access) (s_logical s !! p.1.1).

Definition inbox_with_access (is_file : string → bool) (s : RuntimeState) (principal_id : string) (limit : Z)
    (access : CameraAccess) : Inbox :=
  mk_inbox (notification_item is_file <$> notification_records s principal_id limit false access)
    (vec_len (filter (λ p, unread s principal_id access p = true) (map_to_list (s_receipts s)))).

Definition history_event (e : HistoryEntry) : HistoryEvent :=
  mk_history_event (he_sequence e) (he_revision e) (he_stage e) (he_outcome e) (he_reason e) (he_occurred_at_ms e)
    (he_next_eligible_at_ms e).

Definition attempt_record (s : RuntimeState) (a : DeliveryAttempt) : AttemptRecord :=
  let delivered := if str_eqb (da_outcome a) "delivered" then s_outbox s !! da_outbox_id a else None in
  let state := delivered ≫= λ i, ob_provider_receipt i ≫= λ _,
    Some (if negb (is_none (ob_provider_acknowledged_at_ms i)) then "acknowledged"
          else if negb (is_none (ob_provider_expired_at_ms i)) then "expired"
          else if is_none (ob_next_receipt_check_at_ms i) then "failed" else "pending") in
  mk_attempt_record (da_sequence a) (channel_as_str (da_channel a)) (da_stage a) (da_attempt a) (da_outcome a)
    (da_target_hash a) (da_provider_status a) (da_provider_request_id a)
    (delivered ≫= ob_provider_acknowledged_at_ms) (delivered ≫= ob_provider_expired_at_ms)
    (delivered ≫= ob_provider_acknowledged_by_hash) state (da_reason a) (da_attempted_at_ms a) (da_retry_at_ms a).

(** The [expect] and the [assert_eq!] on each entry of the page. *)
Fixpoint check_history (s : RuntimeState) (l : list HistoryEntry) : outcome unit :=
  match l with
  | [] => Ret tt
  | e :: l' =>
      match s_logical s !! he_logical_id e with
      | None => Panic
      | Some logical => if str_eqb (he_rule_id e) (lo_rule_id logical) then check_history s l' else Panic
      end
  end.

(** The maps of events and attempts are read once per record: the entries of its
    notification in their order. *)
Definition history_with_access (is_file : string → bool) (s : RuntimeState) (principal_id : string) (limit : Z)
    (access : CameraAccess) : outcome (list HistoryGroup) :=
  let records := notification_records s principal_id limit true access in
  let ids : list string := (λ r, lo_id (ir_logical r)) <$> records in
  let! _ := check_history s (filter (λ e, he_logical_id e ∈ ids) (s_history s)) in
  Ret ((λ r, let id := lo_id (ir_logical r) in
             mk_history_group (notification_item is_file r)
               (history_event <$> filter (λ e, he_logical_id e = id) (s_history s))
               (attempt_record s <$> filter (λ a, da_logical_id a = id) (s_attempts s))) <$> records).

(** ** Receipts *)

Definition option_or_insert (o : option Z) (now_ms : Z) : option Z := Some (unwrap_or o now_ms).
Definition update_inbox_receipt (update : ReceiptUpdate) (now_ms : Z) (r : InboxReceipt) : InboxReceipt :=
  match update with
  | Seen => mk_receipt (option_or_insert (re_seen_at_ms r) now_ms) (re_acknowledged_at_ms r) (re_cleared_at_ms r)
  | Acknowledged => mk_receipt (re_seen_at_ms r) (option_or_insert (re_acknowledged_at_ms r) now_ms) (re_cleared_at_ms r)
  | Cleared => mk_receipt (re_seen_at_ms r) (re_acknowledged_at_ms r) (Some now_ms)
  end.

Section receipts.
Context (order : gmap OperationalIntervalKey OperationalInterval →
  list (OperationalIntervalKey * OperationalInterval)).

Definition update_receipt (logical_id principal_id : string) (update : ReceiptUpdate) (now_ms : Z) (s : RuntimeState)
    : outcome (result RuleStoreError unit * RuntimeState) :=
  if negb (is_some_and (λ l, str_eqb (lo_owner_id l) principal_id) (s_logical s !! logical_id))
  then Ret (Err NotAuthorized, s)
  else
    match s_receipts s !! (logical_id, principal_id) with
    | None => Ret (Err NotAuthorized, s)
    | Some receipt =>
        let s := set_s_receipts (<[(logical_id, principal_id) := update_inbox_receipt update now_ms receipt]>
                                   (s_receipts s)) s in
        let! (r, s) := prune order now_ms s in
        Ret (other r, s)
    end.

Definition clear_scope_matches (s : RuntimeState) (logical_id principal_id : string) (scope : ClearScope) : bool :=
  match scope with
  | ClearAll => true
  | ClearRule rule_id =>
      is_some_and (λ l, str_eqb (lo_owner_id l) principal_id && str_eqb (lo_rule_id l) rule_id) (s_logical s !! logical_id)
  | ClearBefore before_ms =>
      is_some_and (λ l, str_eqb (lo_owner_id l) principal_id && (lo_updated_at_ms l <? before_ms))
        (s_logical s !! logical_id)
  end.

Definition in_scope (s : RuntimeState) (principal_id : string) (scope : ClearScope)
    (p : (string * string) * InboxReceipt) : bool :=
  str_eqb p.1.2 principal_id && is_none (re_cleared_at_ms p.2) && clear_scope_matches s p.1.1 principal_id scope.

Definition clear_scope (principal_id : string) (scope : ClearScope) (now_ms : Z) (s : RuntimeState)
    : outcome (result RuleStoreError Z * RuntimeState) :=
  let keys := fst <$> filter (λ p, in_scope s principal_id scope p = true) (map_to_list (s_receipts s)) in
  let receipts := foldl (λ m key, alter (update_inbox_receipt Cleared now_ms) key m) (s_receipts s) keys in
  let! (r, s) := prune order now_ms (set_s_receipts receipts s) in
  Ret ((let? _ := other r in Ok (vec_len keys)), s).
End receipts.
