(* ===== verification/NotifyPrune.v ===== *)
(** * Pruning of the notification state

    [prune] keeps the invariant, leaves at most the allowed number of rate windows and
    terminal notifications, and never touches a delivery that is still owed. *)

From S2P Require Import Prelude CameraEvent NotifyModel NotifyState NotifyProcess NotifyDelivery NotifyStore NotifyInv.

Definition windows_bounded (s : RuntimeState) : Prop := Z.of_nat (size (s_rate_windows s)) ≤ MAX_RATE_WINDOWS.

Lemma map_to_list_keys_NoDup {K A B} `{Countable K} (m : gmap K A) (f : K * A → B) :
  (∀ p q, f p = f q → p.1 = q.1) → NoDup (f <$> map_to_list m).
Proof.
  intros Hf. apply NoDup_fmap_2_strong; [|apply NoDup_map_to_list].
  intros [k a] [k' a'] Hk%elem_of_map_to_list Hk'%elem_of_map_to_list He%Hf. cbn in He. subst k'. congruence.
Qed.

Lemma elem_of_drop_inv {A} (x : A) n l : x ∈ drop n l → x ∈ l.
Proof. intros H. rewrite <-(take_drop n l). apply elem_of_app. by right. Qed.

Lemma StronglySorted_take_drop {A} (R : relation A) n l x y :
  StronglySorted R l → x ∈ take n l → y ∈ drop n l → R x y.
Proof.
  revert l. induction n as [|n IH]; intros l Hs Hx Hy; [by apply elem_of_nil in Hx|].
  destruct l as [|a l]; [by apply elem_of_nil in Hx|]. cbn [take drop] in *. apply StronglySorted_inv in Hs as [Hs Ha].
  apply elem_of_cons in Hx as [->|Hx]; [|by eapply IH]. rewrite Forall_forall in Ha. by apply Ha, (elem_of_drop_inv _ n).
Qed.

Lemma foldl_remove_lookup {K A} `{Countable K} (keys : list K) (m : gmap K A) k :
  k ∉ keys → foldl (λ m key, delete key m) m keys !! k = m !! k.
Proof.
  revert m. induction keys as [|k' keys IH]; intros m Hk; cbn; [done|]. apply not_elem_of_cons in Hk as [Hne Hk].
  by rewrite IH, lookup_delete_ne.
Qed.
Lemma foldl_delete_gone {K A} `{Countable K} (keys : list K) (m : gmap K A) k :
  k ∈ keys → foldl (λ m key, delete key m) m keys !! k = None.
Proof.
  revert m. induction keys as [|k' keys IH]; intros m Hk; cbn; [by apply elem_of_nil in Hk|].
  destruct (decide (k ∈ keys)) as [Hin|Hin]; [by apply IH|]. apply elem_of_cons in Hk as [->|Hk]; [|done].
  by rewrite foldl_remove_lookup, lookup_delete_eq.
Qed.

#[local] Instance rate_le_total : Total rate_le.
Proof.
  intros [t [a b]] [u [c d]]. unfold rate_le. cbn. destruct (Z.lt_trichotomy t u) as [H|[<-|H]]; [left; by left| |right; by left].
  destruct (decide (a = c)) as [<-|Hne].
  - destruct (str_leb_total b d); [left|right]; right; split; auto.
  - destruct (str_leb_total a c) as [H|H]; [left|right]; right; (split; [done|]); left; apply str_ltb_leb; auto.
Qed.
#[local] Instance rate_le_trans : Transitive rate_le.
Proof.
  intros [t [a b]] [u [c d]] [v [e f]]. unfold rate_le. cbn. rewrite !str_ltb_leb.
  intros [H|[-> H]] [H'|[-> H']]; [left; lia|by left|by left|]. right. split; [done|].
  destruct H as [[H Hn]|[-> H]], H' as [[H' Hn']|[-> H']].
  - left. split; [by eapply str_leb_trans|]. intros ->. apply Hn. by apply str_leb_antisym.
  - by left.
  - by left.
  - right. split; [done|]. by eapply str_leb_trans.
Qed.

Lemma prune_windows_ok m :
  ∃ m', prune_oldest_rate_windows m = Ret m' ∧ m' ⊆ m ∧ Z.of_nat (size m') ≤ MAX_RATE_WINDOWS ∧
    (∀ key w, m !! key = Some w → m' !! key = None →
       Z.of_nat (size m') = MAX_RATE_WINDOWS ∧ ∀ k v, m' !! k = Some v → rw_started_at_ms w ≤ rw_started_at_ms v).
Proof.
  unfold prune_oldest_rate_windows. destruct (Z.leb_spec (Z.of_nat (size m)) MAX_RATE_WINDOWS) as [Hle|Hgt].
  { exists m. do 3 (split; [done|]). congruence. }
  set (oldest := merge_sort rate_le _). unfold plain_sub.
  rewrite (proj2 (Z.leb_le _ _)) by lia. cbn [obind]. eexists. split; [done|]. split; [apply foldl_delete_subseteq|].
  assert (oldest ≡ₚ ((λ p : (string * string) * RateWindow, (rw_started_at_ms p.2, p.1)) <$> map_to_list m)) as Hp
    by apply merge_sort_Permutation.
  assert (StronglySorted rate_le oldest) as Hsort by (apply StronglySorted_merge_sort; apply _).
  assert (∀ k w, m !! k = Some w → (rw_started_at_ms w, k) ∈ oldest) as Hin.
  { intros k w Hk. rewrite Hp. apply list_elem_of_fmap. exists (k, w). by rewrite elem_of_map_to_list. }
  assert (NoDup (snd <$> oldest)) as Hn.
  { rewrite Hp, <-list_fmap_compose. by apply map_to_list_keys_NoDup. }
  set (n := Z.to_nat (Z.of_nat (size m) - MAX_RATE_WINDOWS)).
  assert (length oldest = size m) as Hl by (by rewrite Hp, length_fmap, length_map_to_list).
  assert (NoDup (snd <$> take n oldest)) as Hn'.
  { rewrite fmap_take. eapply sublist_NoDup; [exact Hn|apply sublist_take]. }
  assert (∀ k, k ∈ snd <$> take n oldest → is_Some (m !! k)) as Hk.
  { intros k Hk. rewrite fmap_take in Hk. apply elem_of_take in Hk as (j & Hj & _).
    apply list_elem_of_lookup_2 in Hj. rewrite Hp, <-list_fmap_compose in Hj.
    apply list_elem_of_fmap in Hj as ([k' w] & -> & Hk%elem_of_map_to_list). by exists w. }
  pose proof (foldl_delete_size _ m Hn' Hk) as Hs. rewrite length_fmap, length_take, Hl in Hs. unfold MAX_RATE_WINDOWS in *.
  split; [lia|]. intros key w Hkey Hgone. split; [lia|]. intros k v Hv.
  assert ((rw_started_at_ms w, key) ∈ take n oldest) as Hold.
  { specialize (Hin key w Hkey). rewrite <-(take_drop n oldest) in Hin. apply elem_of_app in Hin as [?|Hd]; [done|].
    rewrite foldl_remove_lookup in Hgone; [congruence|]. intros Ht. rewrite <-(take_drop n oldest), fmap_app in Hn.
    apply NoDup_app in Hn as (_ & Hdis & _). apply (Hdis key Ht), list_elem_of_fmap. by exists (rw_started_at_ms w, key). }
  assert ((rw_started_at_ms v, k) ∈ drop n oldest) as Hnew.
  { assert (m !! k = Some v) as Hkv by (eapply lookup_weaken; [exact Hv|apply foldl_delete_subseteq]).
    specialize (Hin k v Hkv). rewrite <-(take_drop n oldest) in Hin. apply elem_of_app in Hin as [Ht|?]; [|done].
    rewrite foldl_delete_gone in Hv; [done|]. apply list_elem_of_fmap. by exists (rw_started_at_ms v, k). }
  destruct (StronglySorted_take_drop _ _ _ _ _ Hsort Hold Hnew) as [H|[H _]]; cbn in H; lia.
Qed.

Lemma prune_intervals_subseteq order m : (prune_operational_intervals order m).2 ⊆ m.
Proof. apply foldl_delete_subseteq. Qed.
Lemma prune_intervals_ok order m :
  Z.of_nat (size m) ≤ MAX_OPERATIONAL_INTERVALS → (prune_operational_intervals order m).1 = Ok tt.
Proof.
  intros Hm. pose proof (map_subseteq_size _ _ (prune_intervals_subseteq order m)) as Hs.
  unfold prune_operational_intervals in *. cbn [fst snd] in *. unfold ensure. rewrite (proj2 (Z.leb_le _ _)) by lia. done.
Qed.

(** ** Terminal notifications *)

Definition removed_ids (s : RuntimeState) : gset string :=
  list_to_set (snd <$> drop (Z.to_nat MAX_TERMINAL_NOTIFICATIONS) (merge_sort terminal_ge (terminal_ids s))).

(** Notifications that a delivery still depends on. *)
Definition live_ids (s : RuntimeState) : gset string :=
  list_to_set ((λ p : Z * OutboxItem, ob_logical_id p.2)
               <$> filter (λ p, keeps_logical p.2 = true) (outbox_iter (s_outbox s))).

Lemma elem_of_live_ids s id : id ∈ live_ids s ↔ ∃ n i, s_outbox s !! n = Some i ∧ keeps_logical i = true ∧ ob_logical_id i = id.
Proof.
  unfold live_ids. rewrite elem_of_list_to_set, list_elem_of_fmap. split.
  - intros ([n i] & -> & [Hk Hi%outbox_iter_elem]%list_elem_of_filter). by exists n, i.
  - intros (n & i & Hi & Hk & <-). exists (n, i). split; [done|]. apply list_elem_of_filter. by rewrite outbox_iter_elem.
Qed.

Lemma elem_of_terminal_ids s t id :
  notify_ok s → (t, id) ∈ terminal_ids s ↔ ∃ l, s_logical s !! id = Some l ∧ lo_updated_at_ms l = t ∧ id ∉ live_ids s.
Proof.
  intros Hok. unfold terminal_ids. rewrite list_elem_of_fmap. split.
  - intros ([k l] & [= -> ->] & [Hn Hl%elem_of_map_to_list]%list_elem_of_filter). cbn in *.
    rewrite (no_logical s Hok _ _ Hl) in *. by exists l.
  - intros (l & Hl & <- & Hn). exists (id, l). cbn. pose proof (no_logical s Hok _ _ Hl) as Hid. cbn in Hid.
    rewrite Hid. split; [done|]. apply list_elem_of_filter. cbn. rewrite Hid. by rewrite elem_of_map_to_list.
Qed.

Lemma removed_not_live s id : notify_ok s → id ∈ live_ids s → id ∉ removed_ids s.
Proof.
  intros Hok Hl Hr. unfold removed_ids in Hr. apply elem_of_list_to_set, list_elem_of_fmap in Hr as ([t id'] & -> & Hd).
  apply elem_of_drop_inv in Hd as Hj. rewrite merge_sort_Permutation in Hj.
  apply (elem_of_terminal_ids s t id' Hok) in Hj as (_ & _ & _ & Hn). by apply Hn.
Qed.

(** What [prune_terminal_notifications] leaves. *)
Lemma prune_terminal_maps s :
  let s' := prune_terminal_notifications s in
  s_logical s' = filter (λ p, p.1 ∉ removed_ids s) (s_logical s) ∧
  s_outbox s' = filter (λ p, ob_logical_id p.2 ∉ removed_ids s) (s_outbox s) ∧
  s_receipts s' = filter (λ p, p.1.1 ∉ removed_ids s) (s_receipts s).
Proof.
  unfold prune_terminal_notifications. fold (removed_ids s).
  destruct (bool_decide_reflect (removed_ids s = ∅)) as [->|Hne]; [|done].
  split_and!; symmetry; apply map_filter_id; set_solver.
Qed.

Lemma prune_terminal_same s :
  let s' := prune_terminal_notifications s in
  s_rules s' = s_rules s ∧ s_intervals s' = s_intervals s ∧ s_cooldowns s' = s_cooldowns s ∧
  s_rate_windows s' = s_rate_windows s ∧ s_next_history_sequence s' = s_next_history_sequence s ∧
  s_next_attempt_sequence s' = s_next_attempt_sequence s ∧ s_next_outbox_id s' = s_next_outbox_id s ∧
  vec_len (s_history s') ≤ vec_len (s_history s) ∧ vec_len (s_attempts s') ≤ vec_len (s_attempts s).
Proof.
  unfold prune_terminal_notifications. fold (removed_ids s).
  destruct (bool_decide_reflect (removed_ids s = ∅)) as [_|_]; [done|]. cbn. split_and!; try done.
  all: unfold vec_len; apply inj_le, length_filter.
Qed.

Lemma prune_terminal_ok s : notify_ok s → steps 0 s (prune_terminal_notifications s).
Proof.
  intros Hok. destruct (prune_terminal_maps s) as (El & Eo & Er).
  destruct (prune_terminal_same s) as (Eru & Ei & Ec & _ & E1 & E2 & E3 & Lh & La).
  destruct Hok as [R A L I U S C V H T P O].
  constructor; [|constructor; lia|apply evolves_subseteq; rewrite Eo; apply map_filter_subseteq].
  constructor; rewrite ?Eru, ?Ei, ?Ec, ?El, ?Eo, ?Er; try done; try lia.
  - intros k l [Hl _]%map_lookup_filter_Some. by apply L.
  - intros id i [Hi Hn]%map_lookup_filter_Some. destruct (I _ _ Hi) as [? ? [l Hl] ? ? ? ? ?].
    constructor; try done; [lia|]. exists l. rewrite El. by apply map_lookup_filter_Some.
  - intros a b i j [Hi _]%map_lookup_filter_Some [Hj _]%map_lookup_filter_Some. by apply U.
  - etrans; [apply inj_le, map_size_filter|done].
  - intros k r [Hr Hn]%map_lookup_filter_Some. destruct (P _ _ Hr) as [l Hl].
    exists l. by apply map_lookup_filter_Some.
  - intros id a b [? [Ha _]%map_lookup_filter_Some] [? [Hb _]%map_lookup_filter_Some]. eapply (O id); by eexists.
Qed.

Lemma prune_terminal_live s id i :
  notify_ok s → s_outbox s !! id = Some i → keeps_logical i = true →
  s_outbox (prune_terminal_notifications s) !! id = Some i ∧
  s_logical (prune_terminal_notifications s) !! ob_logical_id i = s_logical s !! ob_logical_id i.
Proof.
  intros Hok Hi Hk. destruct (prune_terminal_maps s) as (-> & -> & _).
  assert (ob_logical_id i ∉ removed_ids s) as Hn.
  { apply removed_not_live; [done|]. apply elem_of_live_ids. by exists id, i. }
  split; [by apply map_lookup_filter_Some|]. destruct (no_items s Hok _ _ Hi) as [_ _ [l Hl] _ _ _ _ _].
  rewrite Hl. by apply map_lookup_filter_Some.
Qed.

(** The notifications without owed deliveries are the newest ones. *)
Lemma prune_terminal_ids s :
  notify_ok s → vec_len (terminal_ids (prune_terminal_notifications s)) ≤ MAX_TERMINAL_NOTIFICATIONS.
Proof.
  intros Hok. set (s' := prune_terminal_notifications s).
  assert (notify_ok s') as Hok' by (by apply prune_terminal_ok).
  destruct (prune_terminal_maps s) as (El & _). fold s' in El.
  set (sorted := merge_sort terminal_ge (terminal_ids s)).
  assert (terminal_ids s' ⊆+ take (Z.to_nat MAX_TERMINAL_NOTIFICATIONS) sorted) as Hsub.
  { apply NoDup_submseteq.
    - unfold terminal_ids. apply NoDup_fmap_2_strong; [|apply NoDup_filter, NoDup_map_to_list].
      intros [k l] [k' l'] [_ Hk%elem_of_map_to_list]%list_elem_of_filter [_ Hk'%elem_of_map_to_list]%list_elem_of_filter [= _ He].
      rewrite (no_logical s' Hok' _ _ Hk), (no_logical s' Hok' _ _ Hk') in He. subst k'. congruence.
    - intros [t id] (l & Hl & <- & Hn)%elem_of_terminal_ids; [|done]. rewrite El in Hl.
      apply map_lookup_filter_Some in Hl as [Hl Hr]. cbn in Hr.
      assert ((lo_updated_at_ms l, id) ∈ sorted) as Hin.
      { unfold sorted. rewrite merge_sort_Permutation. apply elem_of_terminal_ids; [done|]. exists l. split_and!; [done..|].
        intros (n & i & Hi & Hk & He)%elem_of_live_ids. apply Hn, elem_of_live_ids.
        exists n, i. split_and!; [|done..]. by apply (prune_terminal_live s n i Hok Hi Hk). }
      rewrite <-(take_drop (Z.to_nat MAX_TERMINAL_NOTIFICATIONS) sorted) in Hin.
      apply elem_of_app in Hin as [Hin|Hin]; [done|]. exfalso. apply Hr. unfold removed_ids.
      apply elem_of_list_to_set, list_elem_of_fmap. by exists (lo_updated_at_ms l, id). }
  apply submseteq_length in Hsub. rewrite length_take in Hsub. unfold vec_len, MAX_TERMINAL_NOTIFICATIONS in *. lia.
Qed.

(** ** The whole pruning *)

Lemma prune_unfold order now s :
  notify_ok s → ∃ windows,
    prune order now s = Ret (Ok tt, prune_terminal_notifications
      (set_s_intervals (prune_operational_intervals order (s_intervals s)).2
         (set_s_rate_windows windows (set_s_cooldowns (filter (λ p, now < p.2) (s_cooldowns s)) s)))) ∧
    windows ⊆ s_rate_windows s ∧ Z.of_nat (size windows) ≤ MAX_RATE_WINDOWS ∧
    (∀ key w, s_rate_windows s !! key = Some w → windows !! key = None →
       Z.of_nat (size windows) = MAX_RATE_WINDOWS ∧ ∀ k v, windows !! k = Some v → rw_started_at_ms w ≤ rw_started_at_ms v).
Proof.
  intros Hok. unfold prune. cbn [s_cooldowns s_rate_windows set_s_cooldowns].
  pose proof (map_size_filter (λ p : CooldownKey * Z, now < p.2) (s_cooldowns s)) as Hc.
  pose proof (no_cooldowns s Hok). rewrite (proj2 (Z.ltb_ge _ _)) by lia.
  destruct (prune_windows_ok (s_rate_windows s)) as (w & -> & Hw). cbn [obind].
  exists w. split; [|done]. cbn [s_intervals set_s_rate_windows set_s_cooldowns].
  pose proof (prune_intervals_ok order _ (no_intervals s Hok)) as Hi.
  destruct (prune_operational_intervals order (s_intervals s)) as [r m] eqn:Hm. cbn in Hi. subst r. cbn [snd].
  set (s1 := set_s_intervals m _). unfold ensure. rewrite (proj2 (Z.leb_le _ _)); [done|].
  destruct (prune_terminal_maps s1) as (-> & _). etrans; [apply inj_le, map_size_filter|apply (no_logical_size s Hok)].
Qed.

(** The tables before the notifications are pruned. *)
Lemma prune_prepared order now w s :
  notify_ok s → steps 0 s (set_s_intervals (prune_operational_intervals order (s_intervals s)).2
    (set_s_rate_windows w (set_s_cooldowns (filter (λ p, now < p.2) (s_cooldowns s)) s))).
Proof.
  intros Hok. set (s1 := set_s_cooldowns _ s).
  assert (steps 0 s s1) as H1.
  { apply steps_cooldowns; [done|]. etrans; [apply inj_le, map_size_filter|by apply no_cooldowns]. }
  assert (steps 0 s1 (set_s_rate_windows w s1)) as H2 by apply steps_rate_windows, H1.
  do 2 (eapply steps_zero_trans; [done|]). apply steps_intervals; [apply H2|].
  etrans; [apply inj_le, map_subseteq_size, prune_intervals_subseteq|]. apply (no_intervals s Hok).
Qed.

Lemma prune_ok order now s :
  notify_ok s → ∃ s', prune order now s = Ret (Ok tt, s') ∧ steps 0 s s' ∧ windows_bounded s' ∧
    vec_len (terminal_ids s') ≤ MAX_TERMINAL_NOTIFICATIONS ∧
    (∀ id i, s_outbox s !! id = Some i → keeps_logical i = true →
       s_outbox s' !! id = Some i ∧ s_logical s' !! ob_logical_id i = s_logical s !! ob_logical_id i) ∧
    s_outbox s' ⊆ s_outbox s ∧ s_logical s' ⊆ s_logical s ∧ s_rules s' = s_rules s.
Proof.
  intros Hok. destruct (prune_unfold order now s Hok) as (w & -> & _ & Hw & _). eexists. split; [done|].
  pose proof (prune_prepared order now w s Hok) as H3. set (s3 := set_s_intervals _ _) in *.
  assert (notify_ok s3) as Hok3 by apply H3. pose proof (prune_terminal_ok s3 Hok3) as H4.
  destruct (prune_terminal_maps s3) as (El & Eo & _). destruct (prune_terminal_same s3) as (Er & _ & _ & Ew & _).
  split_and!.
  - by eapply steps_zero_trans.
  - unfold windows_bounded. by rewrite Ew.
  - by apply prune_terminal_ids.
  - intros id i Hi Hk. by apply (prune_terminal_live s3).
  - rewrite Eo. apply map_filter_subseteq.
  - rewrite El. apply map_filter_subseteq.
  - by rewrite Er.
Qed.

(** ** What is removed is oldest *)

#[local] Instance terminal_ge_total : Total terminal_ge.
Proof.
  intros [t a] [u b]. unfold terminal_ge. cbn. destruct (Z.lt_trichotomy t u) as [H|[<-|H]]; [right; by left| |left; by left].
  destruct (str_leb_total b a); [left|right]; by right.
Qed.
#[local] Instance terminal_ge_trans : Transitive terminal_ge.
Proof.
  intros [t a] [u b] [v c]. unfold terminal_ge. cbn. intros [H|[-> H]] [H'|[-> H']]; [left; lia|by left|by left|].
  right. split; [done|]. by eapply str_leb_trans.
Qed.

Lemma terminal_ids_NoDup s : notify_ok s → NoDup (terminal_ids s).*2.
Proof.
  intros Hok. unfold terminal_ids. rewrite <-list_fmap_compose. apply NoDup_fmap_2_strong; [|apply NoDup_filter, NoDup_map_to_list].
  intros [k l] [k' l'] [_ Hk%elem_of_map_to_list]%list_elem_of_filter [_ Hk'%elem_of_map_to_list]%list_elem_of_filter He.
  cbn in He. rewrite (no_logical s Hok _ _ Hk), (no_logical s Hok _ _ Hk') in He. subst k'. congruence.
Qed.

(** A removed notification is not owed anything, is no newer than those kept, and leaves
    as many others as are allowed. *)
Lemma prune_terminal_oldest s id l :
  notify_ok s → s_logical s !! id = Some l → s_logical (prune_terminal_notifications s) !! id = None →
  id ∉ live_ids s
  ∧ (∀ k m, s_logical (prune_terminal_notifications s) !! k = Some m → k ∉ live_ids s →
      lo_updated_at_ms l ≤ lo_updated_at_ms m)
  ∧ ∃ ids, NoDup ids ∧ vec_len ids = MAX_TERMINAL_NOTIFICATIONS
    ∧ ∀ k, k ∈ ids → is_Some (s_logical (prune_terminal_notifications s) !! k) ∧ k ∉ live_ids s.
Proof.
  intros Hok Hl Hn. destruct (prune_terminal_maps s) as (El & _). rewrite El in *.
  assert (id ∈ removed_ids s) as Hr.
  { apply map_lookup_filter_None in Hn as [Hn|Hn]; [congruence|]. specialize (Hn l Hl). cbn in Hn.
    destruct (decide (id ∈ removed_ids s)); [done|]. by destruct Hn. }
  unfold removed_ids in Hr. apply elem_of_list_to_set, list_elem_of_fmap in Hr as ([t id'] & -> & Hd).
  set (sorted := merge_sort terminal_ge (terminal_ids s)) in *. set (n := Z.to_nat MAX_TERMINAL_NOTIFICATIONS) in *.
  assert (sorted ≡ₚ terminal_ids s) as Hperm by apply merge_sort_Permutation.
  assert (StronglySorted terminal_ge sorted) as Hss by (apply StronglySorted_merge_sort; apply _).
  assert ((t, id') ∈ terminal_ids s) as Hin by (rewrite <-Hperm; by eapply elem_of_drop_inv).
  apply elem_of_terminal_ids in Hin as (l' & Hl' & <- & Hlive); [|done]. cbn in Hl. simplify_eq. split; [done|]. split.
  - intros k m [Hk Hnk]%map_lookup_filter_Some Hkl. cbn in Hnk.
    assert ((lo_updated_at_ms m, k) ∈ sorted) as Hs by (rewrite Hperm; apply elem_of_terminal_ids; [done|by exists m]).
    rewrite <-(take_drop n sorted) in Hs. apply elem_of_app in Hs as [Hs|Hs].
    + destruct (StronglySorted_take_drop _ _ _ _ _ Hss Hs Hd) as [H|[H _]]; cbn in H; lia.
    + exfalso. apply Hnk. unfold removed_ids. apply elem_of_list_to_set, list_elem_of_fmap. by exists (lo_updated_at_ms m, k).
  - assert (NoDup sorted.*2) as Hnd by (rewrite Hperm; by apply terminal_ids_NoDup).
    exists (take n sorted).*2. split; [rewrite fmap_take; eapply sublist_NoDup; [exact Hnd|apply sublist_take]|]. split.
    + unfold vec_len. rewrite length_fmap, length_take. assert (n < length sorted)%nat; [|unfold n, MAX_TERMINAL_NOTIFICATIONS in *; lia].
      destruct (decide (n < length sorted)%nat); [done|]. rewrite drop_ge in Hd by lia. by apply elem_of_nil in Hd.
    + intros k ([u k'] & -> & Hk)%list_elem_of_fmap. cbn [snd].
      assert ((u, k') ∈ terminal_ids s) as Hkt by (rewrite <-Hperm, <-(take_drop n sorted); apply elem_of_app; by left).
      apply elem_of_terminal_ids in Hkt as (m & Hm & _ & Hkl); [|done].
      split; [|done]. exists m. apply map_lookup_filter_Some. split; [done|]. cbn. intros Hrem.
      unfold removed_ids in Hrem. apply elem_of_list_to_set, list_elem_of_fmap in Hrem as (q & -> & Hq).
      rewrite <-(take_drop n sorted), fmap_app in Hnd. apply NoDup_app in Hnd as (_ & Hdis & _).
      apply (Hdis q.2); apply list_elem_of_fmap; [by exists (u, q.2)|by exists q].
Qed.

(** A delivery that is still owed: waiting for an attempt, in delivery, or delivered with a
    receipt that is neither acknowledged nor expired and is to be checked again. *)
Definition owed (i : OutboxItem) : Prop :=
  ob_status i = StPending ∨ ob_status i = StRetrying ∨ ob_status i = StDelivering
  ∨ (ob_status i = StDelivered ∧ ob_provider_receipt i ≠ None ∧ ob_provider_acknowledged_at_ms i = None
     ∧ ob_provider_expired_at_ms i = None ∧ ob_next_receipt_check_at_ms i ≠ None).
(** A notification with a delivery that is still owed. *)
Definition awaited (s : RuntimeState) (id : string) : Prop :=
  ∃ n i, s_outbox s !! n = Some i ∧ ob_logical_id i = id ∧ owed i.
(** A notification that is kept although nothing is owed for it. *)
Definition remains (s : RuntimeState) (id : string) : Prop := is_Some (s_logical s !! id) ∧ ¬ awaited s id.

Lemma keeps_logical_spec i : keeps_logical i = true ↔ owed i.
Proof.
  unfold keeps_logical, receipt_pending, owed, is_none.
  rewrite !orb_true_iff, !andb_true_iff, !bool_decide_eq_true.
  destruct (ob_status i), (ob_provider_receipt i), (ob_provider_acknowledged_at_ms i), (ob_provider_expired_at_ms i),
    (ob_next_receipt_check_at_ms i); cbn; naive_solver.
Qed.
Lemma live_awaited s id : id ∈ live_ids s ↔ awaited s id.
Proof. rewrite elem_of_live_ids. unfold awaited. setoid_rewrite keeps_logical_spec. naive_solver. Qed.

Lemma remains_terminal s ids :
  notify_ok s → NoDup ids → Forall (remains s) ids → vec_len ids ≤ vec_len (terminal_ids s).
Proof.
  intros Hok Hn Hr. rewrite Forall_forall in Hr. unfold vec_len. apply inj_le.
  rewrite <-(length_fmap snd (terminal_ids s)). apply submseteq_length, NoDup_submseteq; [done|].
  intros id Hid. destruct (Hr id Hid) as [[l Hl] Ha]. apply list_elem_of_fmap. exists (lo_updated_at_ms l, id).
  split; [done|]. apply elem_of_terminal_ids; [done|]. exists l. by rewrite live_awaited.
Qed.

(** C35. Pruning forgets only what nobody waits for, and no more than it must.  On a state
    that keeps the invariant it succeeds.  Every outbox item that is pending or retrying,
    in delivery, or delivered with an open receipt is untouched with its notification.
    At most 2000 notifications remain for which nothing is owed; one is removed only when
    exactly 2000 of them remain, and it is no newer than those.  The outbox items
    and inbox receipts that remain are exactly those of the notifications that remain.  At
    most 4096 rate windows remain; one is removed only when exactly 4096 remain, and it
    started no later than those.  Exactly the cooldowns that have not ended remain. *)
Theorem prune_keeps_owed order now s :
  notify_ok s → ∃ s', prune order now s = Ret (Ok tt, s') ∧
    (∀ id i, s_outbox s !! id = Some i → owed i →
       s_outbox s' !! id = Some i ∧ s_logical s' !! ob_logical_id i = s_logical s !! ob_logical_id i) ∧
    (∀ ids, NoDup ids → Forall (remains s') ids → vec_len ids ≤ 2000) ∧
    (∀ id l, s_logical s !! id = Some l → s_logical s' !! id = None →
       ¬ awaited s id ∧ (∃ ids, NoDup ids ∧ vec_len ids = 2000 ∧ Forall (remains s') ids) ∧
       ∀ k m, s_logical s' !! k = Some m → ¬ awaited s k → lo_updated_at_ms l ≤ lo_updated_at_ms m) ∧
    s_logical s' ⊆ s_logical s ∧
    (∀ id i, s_outbox s' !! id = Some i ↔ s_outbox s !! id = Some i ∧ is_Some (s_logical s' !! ob_logical_id i)) ∧
    (∀ k r, s_receipts s' !! k = Some r ↔ s_receipts s !! k = Some r ∧ is_Some (s_logical s' !! k.1)) ∧
    s_rate_windows s' ⊆ s_rate_windows s ∧ Z.of_nat (size (s_rate_windows s')) ≤ 4096 ∧
    (∀ key w, s_rate_windows s !! key = Some w → s_rate_windows s' !! key = None →
       Z.of_nat (size (s_rate_windows s')) = 4096 ∧
       ∀ k v, s_rate_windows s' !! k = Some v → rw_started_at_ms w ≤ rw_started_at_ms v) ∧
    (∀ key t, s_cooldowns s' !! key = Some t ↔ s_cooldowns s !! key = Some t ∧ now < t).
Proof.
  intros Hok. destruct (prune_ok order now s Hok) as (s' & E & Hst & Hw & Ht & Hlive & Ho & Hlo & _).
  destruct (prune_unfold order now s Hok) as (w & E' & Hws & Hwb & Hwo). rewrite E in E'. injection E' as E'.
  assert (notify_ok s') as Hok' by apply Hst. pose proof (prune_prepared order now w s Hok) as H3.
  set (s3 := set_s_intervals _ _) in E', H3. assert (notify_ok s3) as Hok3 by apply H3.
  destruct (prune_terminal_maps s3) as (El & Eo & Er). destruct (prune_terminal_same s3) as (_ & _ & Ec & Ew & _).
  rewrite <-E' in El, Eo, Er, Ec, Ew.
  assert (∀ id, is_Some (s_logical s !! id) → is_Some (s_logical s' !! id) ↔ id ∉ removed_ids s3) as Hkept.
  { intros id [l Hl]. rewrite El. split; [|intros Hr; exists l; by apply map_lookup_filter_Some].
    by intros [l' [_ Hr]%map_lookup_filter_Some]. }
  assert (∀ id, awaited s' id ↔ awaited s id) as Haw.
  { intros id. split; intros (n & i & Hi & He & Hw').
    - exists n, i. split; [|done]. by eapply lookup_weaken.
    - exists n, i. split; [|done]. by apply (Hlive n i Hi), keeps_logical_spec. }
  exists s'. split; [done|]. split; [intros id i Hi Hk%keeps_logical_spec; by apply (Hlive id i)|].
  split; [intros ids Hn Hr; etrans; [apply (remains_terminal s' ids Hok' Hn Hr)|exact Ht]|]. split; [|split; [done|]; split; [|split]].
  - intros id l Hl Hn. rewrite E' in Hn. destruct (prune_terminal_oldest s3 id l Hok3 Hl Hn) as (Hna & Hold & ids & Hnd & Hlen & Hids).
    rewrite <-E' in Hold, Hids. split; [by rewrite <-live_awaited|]. split.
    + exists ids. split_and!; [done..|]. apply Forall_forall. intros k Hk. destruct (Hids k Hk) as [? Hk'].
      split; [done|]. rewrite Haw, <-live_awaited. exact Hk'.
    + intros k m Hk Hka. apply (Hold k m Hk). by rewrite (live_awaited s3).
  - intros id i. rewrite Eo, map_lookup_filter_Some. split; intros [Hi Hr]; (split; [done|]);
      pose proof (io_logical _ _ _ (no_items s Hok _ _ Hi)) as Hl; by apply (Hkept _ Hl).
  - intros k r. rewrite Er, map_lookup_filter_Some. split; intros [Hi Hr]; (split; [done|]);
      pose proof (no_receipts s Hok _ _ Hi) as Hl; by apply (Hkept _ Hl).
  - rewrite Ew, Ec. split; [done|]. split; [done|]. split; [done|]. intros key t. apply map_lookup_filter_Some.
Qed.
