(* ===== verification/NotifySteps.v ===== *)
(** * Processing keeps the notification invariant

    Every operation of the orchestrator returns, keeps [notify_ok] and advances the
    sequences by a bounded amount. *)

From S2P Require Import Prelude CameraEvent NotifyModel NotifyState NotifyProcess NotifyDelivery NotifyStore NotifyInv NotifyPrune.

(** ** Loops over strings end *)

Lemma str_skip_length n s : String.length (str_skip n s) = (String.length s - n)%nat.
Proof. revert s. induction n as [|n IH]; intros [|c s]; cbn; [done..|apply IH]. Qed.
Lemma str_split_once_shorter d p s a b :
  str_split_once (String d p) s = Some (a, b) → (String.length b < String.length s)%nat.
Proof.
  revert a. induction s as [|c s IH]; intros a; [done|]. cbn [str_split_once]. destruct (str_prefix _ _); intros H.
  - injection H as _ <-. rewrite str_skip_length. cbn. lia.
  - apply fmap_Some in H as ([a' b'] & H & [= -> ->]). apply IH in H. cbn. lia.
Qed.

Lemma template_loop_total fuel s : (String.length s < fuel)%nat → ∃ r, template_loop fuel s = Ret r.
Proof.
  revert s. induction fuel as [|fuel IH]; intros s Hf; [lia|]. cbn [template_loop].
  destruct (str_split_once "{{" s) as [[a b]|] eqn:H1; [|by eexists].
  destruct (str_split_once "}}" b) as [[f rest]|] eqn:H2; [|by eexists].
  apply str_split_once_shorter in H1, H2. case_match; [apply IH; lia|by eexists].
Qed.
Lemma then_check_total m k : (∃ r, m = Ret r) → (∃ r, k = Ret r) → ∃ r, then_check m k = Ret r.
Proof. intros [r ->] [r' ->]. unfold then_check. cbn [obind]. destruct r; by eexists. Qed.
Lemma ret_total {A} (a : A) : ∃ r, Ret a = Ret r.
Proof. by eexists. Qed.
#[local] Hint Resolve then_check_total ret_total : core.
Lemma validate_text_total s : ∃ r, validate_text s = Ret r.
Proof. apply template_loop_total. lia. Qed.
#[local] Hint Resolve validate_text_total : core.
Lemma validate_action_total parsers a : ∃ r, validate_action parsers a = Ret r.
Proof. unfold validate_action, validate_template. auto 6. Qed.
#[local] Hint Resolve validate_action_total : core.
Lemma rule_validate_total zones parsers r : ∃ v, rule_validate zones parsers r = Ret v.
Proof.
  unfold rule_validate. apply then_check_total; [auto|]. apply then_check_total; [|auto].
  induction (ru_actions r); cbn [validate_actions]; auto.
Qed.

(** Validation bounds what the state relies on; the number of attempts is unsigned. *)
Lemma validate_policies_ok zones r :
  0 ≤ fp_maximum_attempts (ru_failure r) → validate_policies zones r = Ok tt → rule_ok r.
Proof.
  unfold validate_policies. intros Hu H.
  repeat match goal with H : rbind _ _ = Ok _ |- _ => apply rbind_Ok in H as (? & ? & H) end.
  apply ensure_Ok in H. apply negb_true_iff, orb_false_iff in H as [_ H%Z.ltb_ge].
  match goal with H : validate_failure _ = Ok _ |- _ => apply rbind_Ok in H as (? & Hf%ensure_Ok & _) end.
  apply negb_true_iff, orb_false_iff in Hf as [Hz%Z.eqb_neq Ht%Z.ltb_ge].
  constructor; [done|lia].
Qed.
Lemma rule_validate_ok zones parsers r :
  0 ≤ fp_maximum_attempts (ru_failure r) → rule_validate zones parsers r = Ret (Ok tt) → rule_ok r.
Proof.
  intros Hu. unfold rule_validate, then_check. cbn [obind].
  destruct (validate_policies zones r) as [[]|] eqn:H; [|done]. intros _. by eapply validate_policies_ok.
Qed.

(** ** Rate limits touch nothing but the rate windows *)

Lemma consume_rate_windows l r c channel s : ∃ w, consume_rate l r c channel s = set_s_rate_windows w s.
Proof. by eexists. Qed.
Lemma set_s_rate_windows_twice w w' s : set_s_rate_windows w (set_s_rate_windows w' s) = set_s_rate_windows w s.
Proof. done. Qed.
Lemma set_s_rate_windows_id s : set_s_rate_windows (s_rate_windows s) s = s.
Proof. by destruct s. Qed.

(** A loop that sets rate windows sets them once. *)
Lemma foldl_rate_windows {A} (f : RuntimeState → A → RuntimeState) l s :
  (∀ s a, ∃ w, f s a = set_s_rate_windows w s) → ∃ w, foldl f s l = set_s_rate_windows w s.
Proof.
  intros Hf. revert s. induction l as [|a l IH]; intros s; cbn.
  { exists (s_rate_windows s). by rewrite set_s_rate_windows_id. }
  destruct (Hf s a) as [w ->]. destruct (IH (set_s_rate_windows w s)) as [w' ->]. exists w'. done.
Qed.
Lemma consume_rule_rate_limits_windows r c s : ∃ w, consume_rule_rate_limits r c s = set_s_rate_windows w s.
Proof.
  apply foldl_rate_windows. intros s' l. case_match; [|apply consume_rate_windows].
  exists (s_rate_windows s'). by rewrite set_s_rate_windows_id.
Qed.
Lemma consume_channel_rate_limits_windows r c channel s :
  ∃ w, consume_channel_rate_limits r c channel s = set_s_rate_windows w s.
Proof.
  apply foldl_rate_windows. intros s' l. case_match; [apply consume_rate_windows|].
  exists (s_rate_windows s'). by rewrite set_s_rate_windows_id.
Qed.

(** ** Cooldowns *)

Lemma foldl_insert_cooldowns (g : Z → Z) (l : list (CooldownKey * Z)) (m : gmap CooldownKey Z) :
  dom (foldl (λ m p, <[p.1 := g p.2]> m) m l) = dom m ∪ list_to_set (fst <$> l).
Proof.
  revert m. induction l as [|[k d] l IH]; intros m; cbn; [set_solver|]. rewrite IH, dom_insert_L. set_solver.
Qed.

Lemma start_cooldowns_ok r c s :
  notify_ok s → steps 0 s (start_cooldowns r c s).2 ∧
    ∃ m, (start_cooldowns r c s).2 = set_s_cooldowns m s.
Proof.
  intros Hok. unfold start_cooldowns.
  destruct (cooldown_capacity_for s (fst <$> cooldown_keys r c)) eqn:Hc; cbn [negb snd].
  - split; [|by eexists]. apply steps_cooldowns; [done|]. unfold cooldown_capacity_for in Hc. apply Z.leb_le in Hc.
    set (m := foldl _ _ _). set (new := filter _ _) in Hc.
    assert (dom m ⊆ dom (s_cooldowns s) ∪ (list_to_set new : gset CooldownKey)) as Hsub.
    { unfold m. rewrite (foldl_insert_cooldowns (add_millis (cd_occurred_at_ms c))). intros k Hk.
      apply elem_of_union in Hk as [Hk|Hk]; [set_solver|].
      destruct (s_cooldowns s !! k) eqn:E; [apply elem_of_union_l, elem_of_dom; by eexists|].
      apply elem_of_union_r, elem_of_list_to_set, list_elem_of_filter. split; [done|set_solver]. }
    apply subseteq_size in Hsub. rewrite size_dom in Hsub.
    assert (size (dom (s_cooldowns s) ∪ (list_to_set new : gset CooldownKey))
            ≤ size (s_cooldowns s) + size (list_to_set new : gset CooldownKey))%nat as Hu.
    { rewrite size_union_alt, size_dom. apply Nat.add_le_mono_l, subseteq_size. set_solver. }
    unfold saturating_add, MAX_COOLDOWN_WINDOWS, usize_max, u64_max in *. lia.
  - split; [by apply steps_refl|]. exists (s_cooldowns s). by destruct s.
Qed.

Section notify_steps.
Context (env : NotifyEnv).

(** ** Enqueueing *)

(** An action that is not rejected finds room in the outbox. *)
Lemma enqueue_rejection_room r c x a s :
  enqueue_rejection s r c x a = None → pending_outbox_count s < MAX_PENDING_OUTBOX.
Proof. unfold enqueue_rejection. do 3 (case_match; [done|]). destruct (Z.leb_spec MAX_PENDING_OUTBOX (pending_outbox_count s)); done. Qed.

Lemma enqueue_action_ok r c x index a s :
  rule_ok r → notify_ok s → room 1 s → 0 ≤ index < MAX_ACTIONS → is_Some (s_logical s !! cx_logical_id x) →
  ∃ b s', enqueue_action env r c x index a s = Ret (b, s') ∧ steps 1 s s' ∧ s_logical s' = s_logical s ∧ s_cooldowns s' = s_cooldowns s.
Proof.
  intros Hr Hok Hroom Hx Hl. unfold enqueue_action.
  destruct (ac_enabled a); cbn [negb]; [|exists false, s; split_and!; [done|by apply steps_refl|done..]].
  destruct (enqueue_rejection s r c x a) as [[o reason]|] eqn:Hrej.
  { destruct (push_history_ok (history_entry (cx_logical_id x) (ru_id r) c o (Some reason) None) s Hok Hroom)
      as (s' & -> & Hq & Hs). exists false, s'. split_and!; [done..|apply Hq|apply Hq]. }
  destruct (outbox_key_exists s (cx_logical_id x) index (cd_stage c)) eqn:Hkey.
  { exists false, s. split_and!; [done|by apply steps_refl|done..]. }
  destruct (steps_outbox_insert (build_outbox_item env (s_next_outbox_id s) r c x index a) s) as (s1 & -> & Ho & Hl1 & Hc1 & Hs);
    [done|done| |by apply outbox_key_exists_false|done|by eapply enqueue_rejection_room|].
  - intros s' Hl' Hn'. destruct Hr as [_ Hatt]. constructor; cbn; try lia; [by rewrite Hl'|by intros []].
  - cbn [obind]. destruct (consume_channel_rate_limits_windows r c (ac_channel a)
      (set_s_outbox (<[s_next_outbox_id s := build_outbox_item env (s_next_outbox_id s) r c x index a]> (s_outbox s1)) s1))
      as [w ->].
    eexists _, _. split; [done|]. split; [|done]. eapply steps_trans; [exact Hs|apply steps_rate_windows, Hs|lia].
Qed.

Lemma enqueue_loop_ok r c x actions index queued s :
  rule_ok r → notify_ok s → room (vec_len actions) s → 0 ≤ index → index + vec_len actions ≤ MAX_ACTIONS →
  is_Some (s_logical s !! cx_logical_id x) →
  ∃ q s', enqueue_loop env r c x index actions queued s = Ret (q, s') ∧ steps (vec_len actions) s s' ∧
    s_logical s' = s_logical s ∧ s_cooldowns s' = s_cooldowns s.
Proof.
  intros Hr. revert index queued s. induction actions as [|a actions IH]; intros index queued s Hok Hroom Hx Hmax Hl; cbn [enqueue_loop].
  { exists queued, s. split_and!; [done|by apply steps_refl|done..]. }
  assert (vec_len (a :: actions) = 1 + vec_len actions) as Hlen by (unfold vec_len; cbn; lia).
  assert (0 ≤ vec_len actions) by (unfold vec_len; lia).
  destruct (enqueue_action_ok r c x index a s Hr Hok) as (b & s1 & -> & Hs1 & El & Ec); [eapply room_mono; [done|lia]|lia|done|].
  cbn [obind]. destruct (IH (index + 1) (if b then u32_next queued 1 else queued) s1) as (q & s2 & -> & Hs2 & El2 & Ec2);
    [apply Hs1|eapply room_after; [done|apply Hs1|lia]|lia|lia|by rewrite El|].
  exists q, s2. split_and!; [done|eapply steps_trans; [exact Hs1|exact Hs2|lia]|congruence..].
Qed.

Lemma enqueue_actions_ok r c x s :
  rule_ok r → notify_ok s → room 8 s → is_Some (s_logical s !! cx_logical_id x) →
  ∃ q s', enqueue_actions env r c x s = Ret (q, s') ∧ steps 8 s s' ∧ s_logical s' = s_logical s ∧ s_cooldowns s' = s_cooldowns s.
Proof.
  intros Hr Hok Hroom Hl. pose proof (ruo_actions r Hr) as Ha. unfold MAX_ACTIONS in Ha.
  unfold enqueue_actions. destruct (enqueue_loop_ok r c x (ru_actions r) 0 0 s) as (q & s' & -> & Hs & El & Ec);
    [done|done|by eapply room_mono|lia|unfold MAX_ACTIONS; lia|done|].
  exists q, s'. split_and!; [done| |done..]. by eapply steps_weaken.
Qed.

(** ** Admission *)

(** The schedule can be evaluated for the candidate. *)
Definition schedule_known (r : Rule) (c : Candidate) : Prop :=
  cd_severity c = Critical → ∃ status, status_at (ne_zones env) (ru_schedule r) (cd_occurred_at_ms c) = Ok status.

Lemma in_quiet_hours_ok r c : schedule_known r c → ∃ b, in_quiet_hours env r c = Ret b.
Proof.
  intros H. unfold in_quiet_hours. case_bool_decide as Hc; [|by eexists]. destruct (H Hc) as [status ->]. by eexists.
Qed.

Lemma bypass_granted_ok s r c :
  ∃ b, bypass_granted s r c = Ret b ∧ (b = true → is_Some (ru_critical_bypass r)).
Proof.
  unfold bypass_granted, critical_bypass_available.
  destruct (ru_critical_bypass r); cbn; [|rewrite andb_false_r; by exists false].
  rewrite andb_true_r. destruct (bool_decide (cd_severity c = Critical)); by eexists.
Qed.

Lemma admit_ok s r c :
  notify_ok s → schedule_known r c →
  ∃ a s', admit_new_notification env s r c = Ret (a, s') ∧ steps 0 s s' ∧ s_logical s' = s_logical s ∧
    (∀ b, a = Accepted b → logical_capacity_available s = true).
Proof.
  intros Hok Hk. unfold admit_new_notification. destruct (in_quiet_hours_ok r c Hk) as [quiet ->]. cbn [obind].
  set (eligible := cooldown_eligible_at s r c). set (limited := rule_rate_limited s r c).
  set (bypass := quiet || negb (is_none eligible) || limited).
  assert (∃ g, (if bypass then bypass_granted s r c else Ret true) = Ret g
               ∧ (bypass = true → g = true → is_Some (ru_critical_bypass r))) as (g & -> & Hg).
  { destruct bypass; [|by exists true]. destruct (bypass_granted_ok s r c) as (b & -> & Hb). by exists b. }
  cbn [obind]. destruct g; cbn [negb]; [|eexists _, s; split_and!; [done|by apply steps_refl|done|done]].
  destruct (logical_capacity_available s); cbn [negb]; [|eexists _, s; split_and!; [done|by apply steps_refl|done|done]].
  destruct (start_cooldowns_ok r c s Hok) as [Hs [m Hm]].
  destruct (start_cooldowns r c s) as [started s1]. cbn [snd] in *. subst s1.
  destruct started; cbn [negb]; [|eexists _, _; split_and!; [done|exact Hs|done|done]].
  destruct bypass; cbn [obind].
  - unfold consume_critical_bypass. destruct Hg as [b Hb]; [done..|]. rewrite Hb. cbn [obind].
    eexists _, _. split; [done|]. split; [|done].
    eapply steps_trans; [exact Hs|apply steps_rate_windows, Hs|lia].
  - eexists _, _. by split_and!.
Qed.

(** ** New notifications *)

Lemma create_ok r c id attachment s :
  rule_ok r → notify_ok s → room 9 s → s_logical s !! id = None → logical_capacity_available s = true →
  ∃ q s', create_new_notification env r c id attachment s = Ret (q, s') ∧ steps 9 s s' ∧ s_cooldowns s' = s_cooldowns s.
Proof.
  intros Hr Hok Hroom Hl Hc. unfold create_new_notification. destruct (render_logical r c) as [title body].
  unfold insert_new_logical. set (s1 := set_s_receipts _ _).
  assert (steps 0 s s1) as H1.
  { by apply (steps_logical_insert id (new_logical r c id title body attachment) (ru_owner_id r) (mk_receipt None None None) s). }
  destruct (consume_rule_rate_limits_windows r c s1) as [w ->].
  assert (steps 0 s1 (set_s_rate_windows w s1)) as H2 by apply steps_rate_windows, H1.
  set (s2 := set_s_rate_windows w s1) in *. set (s3 := set_s_rules _ s2).
  assert (steps 0 s2 s3) as H3 by (by apply steps_rules; [|apply H2]).
  assert (steps 0 s s3) as H4.
  { by do 2 (eapply steps_zero_trans; [done|]). }
  assert (room 9 s3) as Hr3 by (by eapply room_after; [done|apply H4|]).
  destruct (push_history_ok (history_entry id (ru_id r) c "created" None None) s3) as (s4 & -> & Hq & H5);
    [apply H4|by eapply room_mono|]. cbn [obind].
  destruct (enqueue_actions_ok r c (mk_context id title body attachment false) s4) as (q & s5 & -> & H6 & _ & Ec);
    [done|apply H5|by eapply room_after; [exact Hr3|apply H5|]| |].
  - cbn. rewrite (qu_logical _ _ Hq). cbn. rewrite lookup_insert_eq. by eexists.
  - exists q, s5. split; [done|]. split; [|by rewrite Ec, (qu_cooldowns _ _ Hq)].
    eapply steps_zero_trans; [exact H4|]. by eapply steps_trans; [exact H5|exact H6|].
Qed.

(** ** Known notifications *)

Lemma update_logical_ok id f l s :
  notify_ok s → s_logical s !! id = Some l → lo_id (f l) = lo_id l →
  ∃ s', update_logical id f s = Ret s' ∧ steps 0 s s' ∧ is_Some (s_logical s' !! id).
Proof.
  intros Hok Hl Hf. unfold update_logical. rewrite Hl. eexists. split; [done|]. split; [by apply steps_logical_update|].
  cbn. rewrite lookup_insert_eq. by eexists.
Qed.

Lemma record_suppression_ok r c id reason s u :
  notify_ok s → room 1 s →
  ∃ s' u', record_existing_suppression r c id reason s u = Ret (s', u') ∧ steps 1 s s'.
Proof.
  intros Hok Hroom. unfold record_existing_suppression.
  destruct (push_history_ok (history_entry id (ru_id r) c "collapsed" (Some reason) None) s Hok Hroom) as (s' & -> & _ & Hs).
  by exists s', (count_suppressed u).
Qed.

Lemma update_then_suppress r c id reason f l s u :
  notify_ok s → room 9 s → s_logical s !! id = Some l → lo_id (f l) = lo_id l →
  ∃ s' u', (let! s := update_logical id f s in record_existing_suppression r c id reason s u) = Ret (s', u') ∧
    steps 9 s s'.
Proof.
  intros Hok Hroom Hl Hf. destruct (update_logical_ok id f l s Hok Hl Hf) as (s1 & -> & H1 & _). cbn [obind].
  destruct (record_suppression_ok r c id reason s1 u) as (s2 & u' & -> & H2);
    [apply H1|by eapply room_after; [done|apply H1|]|].
  exists s2, u'. split; [done|]. by eapply steps_trans; [exact H1|exact H2|].
Qed.

Lemma replace_existing_ok r c id attachment tracked late l s :
  rule_ok r → notify_ok s → room 9 s → s_logical s !! id = Some l →
  ∃ q s', replace_existing env r c id attachment tracked late s = Ret (q, s') ∧ steps 9 s s'.
Proof.
  intros Hr Hok Hroom Hl. unfold replace_existing. destruct (render_logical r c) as [title body].
  destruct (update_logical_ok id (replace_logical c title body attachment tracked) l s Hok Hl) as (s1 & -> & H1 & Hs1);
    [done|]. cbn [obind].
  destruct (push_history_ok (history_entry id (ru_id r) c "replaced"
    (if late then Some "late_enrichment_configured" else None) None) s1) as (s2 & -> & Hq & H2);
    [apply H1|by eapply room_after; [done|apply H1|]|]. cbn [obind].
  assert (steps 1 s s2) as H3 by (by eapply steps_trans; [exact H1|exact H2|]).
  destruct (enqueue_actions_ok r c (mk_context id title body attachment true) s2) as (q & s3 & -> & H4 & _);
    [done|apply H3|by eapply room_after; [done|apply H3|]|cbn; by rewrite (qu_logical _ _ Hq)|].
  exists q, s3. split; [done|]. by eapply steps_trans; [exact H3|exact H4|].
Qed.

Lemma process_existing_ok r c id existing attachment s u :
  rule_ok r → notify_ok s → room 9 s → s_logical s !! id = Some existing →
  ∃ s' u', process_existing env r c id existing attachment s u = Ret (s', u') ∧ steps 9 s s'.
Proof.
  intros Hr Hok Hroom Hl. unfold process_existing.
  case_match.
  { destruct (record_suppression_ok r c id "duplicate_revision" s u) as (s' & u' & -> & Hs); [done|by eapply room_mono|].
    exists s', u'. split; [done|]. by eapply steps_weaken. }
  case_match; [by eapply update_then_suppress|].
  match goal with |- context [if ?b then _ else _] => destruct b eqn:Hb end; [by eapply update_then_suppress|].
  match goal with |- context [replace_existing env r c id attachment ?t ?l s] =>
    destruct (replace_existing_ok r c id attachment t l existing s Hr Hok Hroom Hl) as (q & s' & -> & Hs) end.
  cbn [obind]. by eexists _, _.
Qed.

Lemma process_rule_ok r c a s u :
  rule_ok r → notify_ok s → room 9 s → schedule_known r c →
  ∃ s' u', process_rule env r c a s u = Ret (s', u') ∧ steps 9 s s'.
Proof.
  intros Hr Hok Hroom Hk. unfold process_rule. set (id := candidate_logical_id env r c).
  destruct (s_logical s !! id) as [existing|] eqn:Hl; [by apply process_existing_ok|].
  destruct (admit_ok s r c Hok Hk) as (adm & s1 & -> & H1 & El & Hc). cbn [obind].
  assert (room 9 s1) as Hr1 by (by eapply room_after; [done|apply H1|]).
  destruct adm as [b|reason next].
  - destruct (create_ok r c id (usable_attachment r a) s1) as (q & s2 & -> & H2 & _); [done|apply H1|done|congruence| |].
    { rewrite <-(Hc b eq_refl). unfold logical_capacity_available. by rewrite El. }
    cbn [obind]. eexists _, _. split; [done|]. by eapply steps_trans; [exact H1|exact H2|].
  - destruct (push_history_ok (history_entry id (ru_id r) c "suppressed" (Some reason) next) s1) as (s2 & -> & _ & H2);
      [apply H1|by eapply room_mono|]. cbn [obind].
    eexists _, _. split; [done|]. by eapply steps_trans; [exact H1|exact H2|].
Qed.

Lemma process_in_state_ok c matches a s u :
  notify_ok s → room (9 * vec_len matches) s →
  Forall (λ m : MatchResult * Rule, rule_ok m.2 ∧ (m.1 = Match → schedule_known m.2 c)) matches →
  ∃ s' u', process_in_state env c matches a s u = Ret (s', u') ∧ steps (9 * vec_len matches) s s'.
Proof.
  revert s u. induction matches as [|[m r] matches IH]; intros s u Hok Hroom Hm; cbn [process_in_state].
  { exists s, u. split; [done|by apply steps_refl]. }
  apply Forall_cons in Hm as [[Hr Hk] Hm]. cbn [fst snd] in *.
  assert (vec_len ((m, r) :: matches) = 1 + vec_len matches) as Hlen by (unfold vec_len; cbn; lia).
  assert (0 ≤ vec_len matches) by (unfold vec_len; lia).
  assert (∃ s1 u1, steps 9 s s1 ∧ ∀ k : RuntimeState → ProcessSummary → outcome (RuntimeState * ProcessSummary),
    match m with
    | NoMatch => k s u
    | Suppressed reason =>
        let! s := push_history (history_entry (candidate_logical_id env r c) (ru_id r) c "suppressed"
                  (Some (suppression_as_str reason)) None) s in k s (count_suppressed (count_matched u))
    | Match => let! (s, u) := process_rule env r c a s (count_matched u) in k s u
    end = k s1 u1) as (s1 & u1 & H1 & Hstep).
  { destruct m as [|reason|].
    - exists s, u. split; [by apply steps_refl|done].
    - destruct (push_history_ok (history_entry (candidate_logical_id env r c) (ru_id r) c "suppressed"
                  (Some (suppression_as_str reason)) None) s Hok) as (s1 & -> & _ & H1); [eapply room_mono; [done|lia]|].
      exists s1, (count_suppressed (count_matched u)). split; [|done].
      by eapply steps_weaken.
    - destruct (process_rule_ok r c a s (count_matched u)) as (s1 & u1 & -> & H1); [done|done|eapply room_mono; [done|lia]|by apply Hk|].
      by exists s1, u1. }
  specialize (Hstep (λ s u, process_in_state env c matches a s u)).
  destruct (IH s1 u1) as (s2 & u2 & E & H2); [apply H1|eapply room_after; [done|apply H1|lia]|done|].
  exists s2, u2. split; [|eapply steps_trans; [exact H1|exact H2|lia]].
  rewrite <-E, <-Hstep. by destruct m.
Qed.

(** ** Secrets *)

Lemma resolve_loop_total fuel s : (String.length s < fuel)%nat → ∃ r, resolve_loop env fuel s = Ret r.
Proof.
  revert s. induction fuel as [|fuel IH]; intros s Hf; [lia|]. cbn [resolve_loop].
  destruct (str_split_once "{secret:" s) as [[a b]|] eqn:H1; [|by eexists].
  destruct (str_split_once "}" b) as [[f rest]|] eqn:H2; [|by eexists].
  apply str_split_once_shorter in H1, H2. destruct (secret_value env f); [|by eexists].
  destruct (IH rest) as [r ->]; [lia|]. by eexists.
Qed.
Lemma resolve_secret_references_total s : ∃ r, resolve_secret_references env s = Ret r.
Proof. unfold resolve_secret_references. case_match; [apply resolve_loop_total; lia|by eexists]. Qed.

Lemma resolve_actions_total l :
  ∃ r, resolve_actions env l = Ret r ∧ ∀ l', r = Ok l' → length l' = length l.
Proof.
  induction l as [|a l [r [IH Hl]]]; cbn [resolve_actions]; [by exists (Ok []); split; [|intros ? [= <-]]|].
  destruct (resolve_secret_references_total (ac_destination a)) as [d ->]. cbn [obind].
  destruct d as [d|e]; [|by exists (Err e)]. rewrite IH. cbn [obind]. eexists. split; [done|].
  destruct r as [l'|]; [|done]. intros ? [= <-]. cbn. f_equal. by apply Hl.
Qed.
Lemma resolve_rule_total r :
  ∃ v, resolve_rule_destinations env r = Ret v ∧ ∀ r', v = Ok r' →
    ru_id r' = ru_id r ∧ ru_failure r' = ru_failure r ∧ (rule_ok r ↔ rule_ok r').
Proof.
  unfold resolve_rule_destinations. destruct (resolve_actions_total (ru_actions r)) as (v & -> & Hv). cbn [obind].
  eexists. split; [done|]. destruct v as [l|]; [|done]. intros ? [= <-]. cbn. split; [done|]. split; [done|].
  split; intros [Ha Hf]; constructor; try done; unfold vec_len in *; cbn in *; by rewrite (Hv l) in *.
Qed.
Lemma resolve_rules_total l :
  ∃ v, resolve_rules env l = Ret v ∧ ∀ l', v = Ok l' → length l' = length l ∧ (Forall rule_ok l → Forall rule_ok l').
Proof.
  induction l as [|r l (v & IH & Hl)]; cbn [resolve_rules]; [exists (Ok []); split; [done|by intros ? [= <-]]|].
  destruct (resolve_rule_total r) as (d & -> & Hd). cbn [obind]. destruct d as [r'|e]; [|by exists (Err e)].
  rewrite IH. cbn [obind]. eexists. split; [done|]. destruct v as [l'|]; [|done]. intros ? [= <-]. cbn.
  destruct (Hl l') as [-> Hf]; [done|]. split; [done|]. intros [Hr Hrs]%Forall_cons.
  apply Forall_cons. split; [by apply (Hd r')|by apply Hf].
Qed.

Lemma omap_length_le {A B} (f : A → option B) l : (length (omap f l) ≤ length l)%nat.
Proof. induction l as [|a l IH]; cbn; [done|]. destruct (f a); cbn; lia. Qed.

Lemma active_rules_ok s :
  notify_ok s → let l := omap (λ p : string * RuleRecord, rr_active p.2) (btree_iter (s_rules s)) in
  vec_len l ≤ MAX_RULES ∧ Forall rule_ok l.
Proof.
  intros Hok l. split.
  - etrans; [|apply (no_rules s Hok)]. unfold vec_len, l. apply inj_le.
    etrans; [apply omap_length_le|]. unfold btree_iter. by rewrite merge_sort_Permutation, length_map_to_list.
  - apply Forall_forall. intros r (p & Hp & Hr)%list_elem_of_omap. destruct p as [k record].
    apply btree_iter_elem in Hp. by apply (no_records s Hok _ _ Hp).
Qed.

Lemma match_rules_ok c rules matches :
  match_rules env rules c = Ok matches → Forall rule_ok rules →
  vec_len matches = vec_len rules ∧
  Forall (λ m : MatchResult * Rule, rule_ok m.2 ∧ (m.1 = Match → schedule_known m.2 c)) matches.
Proof.
  revert matches. induction rules as [|r rules IH]; intros matches H Hf; cbn [match_rules] in H.
  { by injection H as <-. }
  apply rbind_Ok in H as (m & Hm & H). apply rbind_Ok in H as (rest & Hrest & [= <-]).
  apply Forall_cons in Hf as [Hr Hf]. destruct (IH rest Hrest Hf) as [Hl Hall]. split.
  - unfold vec_len in *. cbn. lia.
  - apply Forall_cons. split; [|done]. cbn. split; [done|]. intros -> _. unfold rule_matches in Hm.
    do 2 (case_match; [done|]). apply rbind_Ok in Hm as (status & Hs & _). by exists status.
Qed.
End notify_steps.

(** * Cooldowns

    What a rule does for a candidate it has no notification for yet: while a cooldown of
    the rule runs nothing is created, and a creation starts all of them. *)



Section cooldowns.
Context (env : NotifyEnv).

(** A cooldown of the rule runs at the time of the candidate. *)
Definition cooling (s : RuntimeState) (r : Rule) (c : Candidate) : Prop :=
  ∃ p e, p ∈ cooldown_keys r c ∧ s_cooldowns s !! p.1 = Some e ∧ cd_occurred_at_ms c < e.

Definition later_eligible (s : RuntimeState) (c : Candidate) (next : option Z) (p : CooldownKey * Z) : option Z :=
  match s_cooldowns s !! p.1 with
  | Some eligible =>
      if cd_occurred_at_ms c <? eligible
      then Some (match next with Some value => Z.max value eligible | None => eligible end)
      else next
  | None => next
  end.
Lemma foldl_later_eligible s c next l :
  is_Some next ∨ (∃ p e, p ∈ l ∧ s_cooldowns s !! p.1 = Some e ∧ cd_occurred_at_ms c < e) →
  is_Some (foldl (later_eligible s c) next l).
Proof.
  revert next. induction l as [|q l IH]; intros next H; cbn [foldl].
  { destruct H as [H|(p & e & Hp & _)]; [done|by apply elem_of_nil in Hp]. }
  apply IH. unfold later_eligible. destruct H as [[x ->]|(p & e & Hp & He & Hlt)].
  - left. repeat case_match; by eexists.
  - apply elem_of_cons in Hp as [->|Hp]; [left|right; by exists p, e]. rewrite He, (proj2 (Z.ltb_lt _ _)) by done. by eexists.
Qed.
Lemma foldl_later_after s c next l x :
  foldl (later_eligible s c) next l = Some x → (∀ y, next = Some y → cd_occurred_at_ms c < y) → cd_occurred_at_ms c < x.
Proof.
  revert next. induction l as [|q l IH]; intros next H Hy; cbn [foldl] in H; [by apply Hy|]. apply (IH _ H).
  unfold later_eligible. intros y. destruct (s_cooldowns s !! q.1) as [e|]; [|by apply Hy].
  destruct (Z.ltb_spec (cd_occurred_at_ms c) e); [|by apply Hy]. intros [= <-]. destruct next as [z|]; [specialize (Hy z eq_refl)|]; lia.
Qed.
Lemma cooling_eligible s r c : cooling s r c → is_Some (cooldown_eligible_at s r c).
Proof. intros H. by apply (foldl_later_eligible s c None); right. Qed.

(** A candidate that may pass a cooldown or a rate limit. *)
Definition may_bypass (r : Rule) (c : Candidate) : Prop := cd_severity c = Critical ∧ is_Some (ru_critical_bypass r).

Lemma no_bypass_granted s r c : ¬ may_bypass r c → bypass_granted s r c = Ret false.
Proof.
  unfold may_bypass, bypass_granted. intros H. destruct (ru_critical_bypass r) as [b|]; cbn; [|by rewrite andb_false_r].
  rewrite bool_decide_false; [done|]. intros Hc. by apply H.
Qed.

Lemma admit_cooling s r c :
  schedule_known env r c → cooling s r c → ¬ may_bypass r c →
  ∃ reason next, admit_new_notification env s r c = Ret (NotAdmitted reason (Some next), s) ∧ cd_occurred_at_ms c < next.
Proof.
  intros Hk Hcool Hb. unfold admit_new_notification. destruct (in_quiet_hours_ok env r c Hk) as [quiet ->]. cbn [obind].
  destruct (cooling_eligible s r c Hcool) as [next Hn]. rewrite Hn. cbn [is_none negb]. rewrite orb_true_r. cbn [orb].
  rewrite no_bypass_granted by done. cbn [obind negb]. eexists _, next. split; [done|].
  by apply (foldl_later_after s c None (cooldown_keys r c)).
Qed.

(** Inserting in turn leaves one of the values of each key. *)
Lemma foldl_insert_key (g : Z → Z) (l : list (CooldownKey * Z)) (m : gmap CooldownKey Z) p :
  p ∈ l → ∃ d, (p.1, d) ∈ l ∧ foldl (λ m q, <[q.1 := g q.2]> m) m l !! p.1 = Some (g d).
Proof.
  assert (∀ m : gmap CooldownKey Z, (∃ d, (p.1, d) ∈ l ∧ foldl (λ m q, <[q.1 := g q.2]> m) m l !! p.1 = Some (g d)) ∨
    (p ∉ l ∧ foldl (λ m q, <[q.1 := g q.2]> m) m l !! p.1 = m !! p.1)) as H; [|by destruct (H m) as [?|[? _]]].
  clear m. induction l as [|[k d] l IH]; intros m; cbn [foldl fst snd]; [right; split; [apply not_elem_of_nil|done]|].
  destruct (IH (<[k := g d]> m)) as [(d' & Hd & E)|[Hp E]]; [left; exists d'; split; [apply elem_of_cons; by right|done]|].
  destruct (decide (k = p.1)) as [->|Hne].
  - left. exists d. split; [apply elem_of_cons; by left|]. rewrite E. apply lookup_insert_eq.
  - right. rewrite E, lookup_insert_ne by done. split; [|done]. intros [->|?]%elem_of_cons; [by apply Hne|done].
Qed.

(** All cooldowns of the rule start at the time of the candidate. *)
Definition started (s : RuntimeState) (r : Rule) (c : Candidate) : Prop :=
  ∀ p, p ∈ cooldown_keys r c → ∃ d, (p.1, d) ∈ cooldown_keys r c ∧
    s_cooldowns s !! p.1 = Some (add_millis (cd_occurred_at_ms c) d).

Lemma admit_started s r c b s' : admit_new_notification env s r c = Ret (Accepted b, s') → started s' r c.
Proof.
  unfold admit_new_notification. destruct (in_quiet_hours env r c) as [quiet|]; [|done]. cbn [obind].
  set (bypass := quiet || _ || _). destruct (if bypass then _ else _) as [g|]; [|done]. cbn [obind].
  destruct g; cbn [negb]; [|done]. destruct (logical_capacity_available s); cbn [negb]; [|done].
  unfold start_cooldowns. destruct (cooldown_capacity_for s _); cbn [negb]; [|done].
  set (s1 := set_s_cooldowns _ s).
  assert (started s1 r c) as Hs1 by (intros p Hp; by apply (foldl_insert_key (add_millis (cd_occurred_at_ms c)))).
  destruct bypass; cbn [obind].
  - unfold consume_critical_bypass. destruct (ru_critical_bypass r); [|done]. cbn [obind]. by intros [= <- <-].
  - by intros [= <- <-].
Qed.

(** The latest entry is never trimmed. *)
Lemma trim_front_last {A} max (l : list A) x : 1 ≤ max → last (trim_front max (l ++ [x])) = Some x.
Proof.
  intros Hm. unfold trim_front. rewrite length_app. cbn [length]. rewrite drop_app_le by lia. apply last_snoc.
Qed.

(** A rule is quiet while a cooldown of it runs: for a candidate without a
    notification the rule returns; while one of its cooldowns for the candidate runs and
    the candidate may not bypass it, nothing changes but that the suppression is recorded
    with the time the cooldown ends; and whenever a notification is created, every
    cooldown of the rule for the candidate starts anew at its time. *)
Theorem cooldown_spacing r c a s u :
  rule_ok r → notify_ok s → room 9 s → schedule_known env r c → s_logical s !! candidate_logical_id env r c = None →
  ∃ s' u', process_rule env r c a s u = Ret (s', u') ∧
    (cooling s r c → ¬ may_bypass r c →
       quiet s s' ∧ u' = count_suppressed u ∧
       ∃ entry next, last (s_history s') = Some entry ∧ he_outcome entry = "suppressed" ∧
         he_next_eligible_at_ms entry = Some next ∧ cd_occurred_at_ms c < next) ∧
    (is_Some (s_logical s' !! candidate_logical_id env r c) → started s' r c).
Proof.
  intros Hr Hok Hroom Hk Hl. unfold process_rule. rewrite Hl. set (id := candidate_logical_id env r c) in *.
  destruct (admit_ok env s r c Hok Hk) as (adm & s1 & E & H1 & El & Hc). rewrite E. cbn [obind].
  assert (room 9 s1) as Hr1 by (by eapply room_after; [done|apply H1|]).
  destruct adm as [b|reason next].
  - destruct (create_ok env r c id (usable_attachment r a) s1) as (q & s2 & -> & H2 & Ec); [done|apply H1|done|congruence| |].
    { rewrite <-(Hc b eq_refl). unfold logical_capacity_available. by rewrite El. }
    cbn [obind]. eexists _, _. split; [done|]. split.
    + intros Hcool Hb. destruct (admit_cooling s r c Hk Hcool Hb) as (reason & next & E' & _). congruence.
    + intros _ p Hp. rewrite Ec. by apply (admit_started s r c b).
  - destruct (push_history_ok (history_entry id (ru_id r) c "suppressed" (Some reason) next) s1) as (s2 & Hpush & Hq & H2);
      [apply H1|by eapply room_mono|]. rewrite Hpush. cbn [obind]. eexists _, _. split; [done|]. split.
    + intros Hcool Hb. destruct (admit_cooling s r c Hk Hcool Hb) as (reason' & next' & E' & Hlt).
      rewrite E in E'. injection E' as -> -> ->. split; [done|]. split; [done|].
      unfold push_history, checked_add in Hpush. case_match; [|done]. injection Hpush as <-.
      eexists _, next'. split; [by apply trim_front_last|done].
    + intros Hs. rewrite (qu_logical _ _ Hq), El, Hl in Hs. by destruct Hs.
Qed.
End cooldowns.

(** ** A witness *)

Definition demo_key : CooldownKey := mk_cooldown_key "r" ScopeRule "r".
Definition demo_cooling : RuntimeState := set_s_cooldowns {[demo_key := 31000]} (state_new demo_rules).
Lemma demo_cooling_ok : notify_ok demo_cooling.
Proof. apply steps_cooldowns; [apply demo_state_ok|by vm_compute]. Qed.

Lemma cooldown_spacing_witness :
  ∃ s' u', process_rule demo_notify_env demo_rule demo_candidate None demo_cooling summary_new = Ret (s', u') ∧
    quiet demo_cooling s' ∧ u' = count_suppressed summary_new.
Proof.
  destruct (cooldown_spacing demo_notify_env demo_rule demo_candidate None demo_cooling summary_new demo_rule_ok demo_cooling_ok)
    as (s' & u' & E & Hcool & _).
  - constructor; vm_compute; congruence.
  - intros H. discriminate H.
  - vm_compute. reflexivity.
  - exists s', u'. split; [exact E|]. destruct Hcool as (Hq & Hu & _).
    + exists (demo_key, 30000), 31000. split; [apply list_elem_of_In; left; reflexivity|]. vm_compute. split; reflexivity.
    + intros [H _]. discriminate H.
    + split; [exact Hq|exact Hu].
Defined.

(** * The operations of the notification store keep its invariant *)



Section notify_ops.
Context (env : NotifyEnv).
Context (order : gmap OperationalIntervalKey OperationalInterval →
  list (OperationalIntervalKey * OperationalInterval)).

(** ** Processing *)

(** Normalizing changes a candidate's identity and revision only. *)
Definition normal_of (c : Candidate) (r : result string Candidate) : Prop :=
  ∀ c', r = Ok c' → cd_severity c' = cd_severity c ∧ cd_occurred_at_ms c' = cd_occurred_at_ms c.

Lemma normalize_interval_ok s c :
  notify_ok s → ∃ r s', normalize_operational_interval s c = (r, s') ∧ steps 0 s s' ∧
    s_rate_windows s' = s_rate_windows s ∧ s_outbox s' = s_outbox s ∧ normal_of c r.
Proof.
  intros Hok. unfold normalize_operational_interval.
  assert (∀ r, normal_of c r → ∃ r' s', (r, s) = (r', s') ∧ steps 0 s s' ∧
    s_rate_windows s' = s_rate_windows s ∧ s_outbox s' = s_outbox s ∧ normal_of c r') as Hsame.
  { intros r Hr. exists r, s. split_and!; [done|by apply steps_refl|done..]. }
  assert (∀ r v, normal_of c r →
    s_intervals s !! interval_key c ≠ None ∨ Z.of_nat (size (s_intervals s)) < MAX_OPERATIONAL_INTERVALS →
    ∃ r' s', (r, set_s_intervals (<[interval_key c := v]> (s_intervals s)) s) = (r', s') ∧ steps 0 s s' ∧
    s_rate_windows s' = s_rate_windows s ∧ s_outbox s' = s_outbox s ∧ normal_of c r') as Hins.
  { intros r v Hr Hv. eexists _, _. split_and!; [done| |done..]. apply steps_intervals; [done|].
    pose proof (no_intervals s Hok). destruct (s_intervals s !! interval_key c) as [w|] eqn:E.
    - by rewrite map_size_insert_Some by (by eexists).
    - rewrite map_size_insert_None by done. destruct Hv; [done|lia]. }
  case_match; [apply Hsame; by intros ? [= <-]|]. case_match; [apply Hsame; by intros ? [= <-]|].
  case_match.
  - destruct (open_interval s (interval_key c)) as [existing|] eqn:E; [apply Hsame; by intros ? [= <-]|].
    destruct (is_none (s_intervals s !! interval_key c) && _) eqn:Hfull; [by apply Hsame|].
    apply Hins; [by intros ? [= <-]|].
    apply andb_false_iff in Hfull as [Hn|Hn%Z.leb_gt]; [left|by right]. by destruct (s_intervals s !! interval_key c).
  - destruct (open_interval s (interval_key c)) as [existing|] eqn:E; [|apply Hsame; by intros ? [= <-]].
    apply Hins; [by intros ? [= <-]|]. left. unfold open_interval in E. by destruct (s_intervals s !! interval_key c).
Qed.

Lemma schedule_known_ext r c c' :
  cd_severity c' = cd_severity c → cd_occurred_at_ms c' = cd_occurred_at_ms c →
  schedule_known env r c → schedule_known env r c'.
Proof. unfold schedule_known. by intros -> ->. Qed.

Definition PROCESS_COST : Z := 9 * MAX_RULES.

Lemma process_locked_ok matches a c st :
  notify_ok (st_state st) → room PROCESS_COST (st_state st) → vec_len matches ≤ MAX_RULES →
  Forall (λ m : MatchResult * Rule, rule_ok m.2 ∧ (m.1 = Match → schedule_known env m.2 c)) matches →
  ∃ r st', process_locked env order matches a c st = Ret (r, st') ∧
    steps PROCESS_COST (st_state st) (st_state st') ∧ windows_bounded (st_state st').
Proof.
  intros Hok Hroom Hlen Hm. unfold process_locked.
  set (ms := if bool_decide _ then _ else matches).
  assert (vec_len ms = vec_len matches) as El by (unfold ms; case_match; [unfold vec_len; by rewrite length_fmap|done]).
  assert (Forall (λ m : MatchResult * Rule, rule_ok m.2 ∧ (m.1 = Match → schedule_known env m.2 c)) ms) as Hms.
  { unfold ms. case_match; [|done]. apply Forall_fmap. eapply Forall_impl; [exact Hm|]. intros [[|reason|] r] [Hr Hk]; by split. }
  destruct (prune_ok order (cd_occurred_at_ms c) _ Hok) as (s1 & -> & H1 & Hw1 & _). cbn [obind].
  destruct (normalize_interval_ok s1 c) as (r & s2 & -> & H2 & Ew & _ & Hc); [apply H1|].
  assert (steps 0 (st_state st) s2) as H12 by (by eapply steps_zero_trans).
  destruct r as [c'|e].
  - destruct (Hc c' eq_refl) as [Hsev Hocc]. unfold PROCESS_COST in *.
    destruct (process_in_state_ok env c' ms a s2 summary_new) as (s3 & u & -> & H3);
      [apply H12|eapply room_after; [done|apply H12|lia]| |].
    { eapply Forall_impl; [exact Hms|]. intros m [Hr Hk]. split; [done|]. intros He. by eapply schedule_known_ext; [| |apply Hk]. }
    cbn [obind]. destruct (prune_ok order (cd_occurred_at_ms c') s3) as (s4 & -> & H4 & Hw4 & _); [apply H3|]. cbn [obind].
    eexists _, _. split; [done|]. split; [|done]. cbn [st_state].
    eapply steps_zero_trans; [exact H12|]. eapply steps_trans; [exact H3|exact H4|lia].
  - eexists _, _. split; [done|]. split; [by eapply steps_weaken|]. unfold windows_bounded. cbn. by rewrite Ew.
Qed.

Lemma process_ok c st :
  notify_ok (st_state st) → room PROCESS_COST (st_state st) → windows_bounded (st_state st) →
  ∃ r st', process env order c st = Ret (r, st') ∧
    steps PROCESS_COST (st_state st) (st_state st') ∧ windows_bounded (st_state st').
Proof.
  intros Hok Hroom Hw. unfold process, resolved_active_rules.
  destruct (active_rules_ok _ Hok) as [Hlen Hrules].
  destruct (resolve_rules_total env (omap (λ p : string * RuleRecord, rr_active p.2) (btree_iter (s_rules (st_state st)))))
    as (v & -> & Hv). cbn [obind].
  destruct (let? rules := v in match_rules env rules c) as [matches|e] eqn:Hm.
  - apply rbind_Ok in Hm as (rules & -> & Hm). destruct (Hv rules eq_refl) as [El Hf].
    destruct (match_rules_ok env c rules matches Hm) as [El' Hall]; [by apply Hf|].
    apply process_locked_ok; [done|done| |done]. rewrite El'. unfold vec_len in *. by rewrite El.
  - eexists _, st. split; [done|]. split; [by apply steps_refl|done].
Qed.

Lemma test_rule_ok id owner now uuid st :
  notify_ok (st_state st) → room PROCESS_COST (st_state st) → windows_bounded (st_state st) →
  ∃ r st', test_rule env order id owner now uuid st = Ret (r, st') ∧
    steps PROCESS_COST (st_state st) (st_state st') ∧ windows_bounded (st_state st').
Proof.
  intros Hok Hroom Hw. unfold test_rule.
  assert (∃ v, testable_rule env (st_state st) id owner = Ret v ∧ ∀ r, v = Ok r → rule_ok r) as (v & -> & Hv).
  { unfold testable_rule. destruct (s_rules (st_state st) !! id) as [record|] eqn:Hrec; [|by eexists].
    case_match; [by eexists|]. destruct (rr_active record) as [r|] eqn:Ha; [|by eexists].
    destruct (resolve_rule_total env r) as (d & -> & Hd). cbn [obind]. destruct d as [r'|]; [|by eexists].
    destruct (rule_validate_total (ne_zones env) (ne_parsers env) r') as [w ->]. cbn [obind].
    eexists. split; [done|]. destruct w; [|done]. intros ? [= <-]. destruct (Hd r' eq_refl) as (_ & _ & Hr).
    destruct (proj1 Hr) as [Hx Hy]; [by apply (no_records _ Hok _ _ Hrec)|]. by constructor. }
  cbn [obind]. destruct v as [r|]; [|eexists _, st; split_and!; [done|by apply steps_refl|done]].
  destruct (prune_ok order now _ Hok) as (s1 & -> & H1 & _). cbn [obind]. unfold PROCESS_COST in *.
  destruct (process_rule_ok env r (test_candidate r ("notification-test-" +:+ uuid) now) None s1 (count_matched summary_new))
    as (s2 & u & -> & H2); [by apply Hv|apply H1|eapply room_after; [done|apply H1|done]|done|].
  cbn [obind]. destruct (prune_ok order now s2) as (s3 & -> & H3 & Hw3 & _); [apply H2|]. cbn [obind].
  eexists _, _. split; [done|]. split; [|done]. eapply steps_zero_trans; [exact H1|].
  by eapply steps_trans; [exact H2|exact H3|].
Qed.

(** ** Items that are called off *)

(** An item whose status leaves the pending ones. *)
Lemma set_ob_status_ok s id i status now reason :
  status_pending status = false → item_ok s id i → item_ok s id (set_ob_status i status now reason).
Proof. intros Hs []. by constructor; cbn; rewrite ?Hs. Qed.

(** A sweep over some items that sets their status, as cancelling and profiles do. *)
Lemma sweep_ok (f : Z * OutboxItem → OutboxItem) l s :
  (∀ p, later_version p.2 (f p) ∧ settles p.2 (f p) ∧ (∀ s, item_ok s p.1 p.2 → item_ok s p.1 (f p))) →
  NoDup (fst <$> l) → (∀ p, p ∈ l → s_outbox s !! p.1 = Some p.2) → notify_ok s →
  steps 0 s (set_s_outbox (foldl (λ m (p : Z * OutboxItem), <[p.1 := f p]> m) (s_outbox s) l) s).
Proof.
  intros Hf. revert s. induction l as [|[id i] l IH]; intros s Hn Hin Hok; cbn [foldl].
  { destruct s. by apply steps_refl. }
  rewrite fmap_cons in Hn. apply NoDup_cons in Hn as [Hni Hn].
  assert (s_outbox s !! id = Some i) as Hi by (apply (Hin (id, i)), elem_of_cons; by left).
  destruct (Hf (id, i)) as (Hk & Hset & Hitem).
  pose proof (steps_outbox_update id (λ _, f (id, i)) i s Hok Hi Hk Hset (Hitem s)) as H1. cbv beta in H1.
  eapply steps_zero_trans; [exact H1|].
  refine (IH (set_s_outbox (<[id := f (id, i)]> (s_outbox s)) s) Hn _ (sp_ok _ _ _ H1)).
  intros p Hp. cbn. rewrite lookup_insert_ne; [apply Hin, elem_of_cons; by right|]. intros He. cbn in He. apply Hni. cbn. rewrite He. apply list_elem_of_fmap. by exists p.
Qed.
Lemma outbox_iter_NoDup m : NoDup (fst <$> outbox_iter m).
Proof. rewrite outbox_iter_perm. apply NoDup_fst_map_to_list. Qed.
Lemma outbox_iter_length s : notify_ok s → vec_len (outbox_iter (s_outbox s)) ≤ MAX_OUTBOX.
Proof. intros Hok. unfold vec_len. rewrite outbox_iter_perm, length_map_to_list. by apply outbox_bounded. Qed.

(** What both sweeps share: the swept items are a part of the outbox in its order. *)
Lemma swept_ok status now reason items entries s :
  status_pending status = false → status ≠ StDelivering → items `sublist_of` outbox_iter (s_outbox s) → notify_ok s →
  (length entries ≤ length items)%nat → room MAX_OUTBOX s →
  ∃ s', push_all entries (set_s_outbox (foldl (λ m (p : Z * OutboxItem),
          <[p.1 := set_ob_status p.2 status now reason]> m) (s_outbox s) items) s) = Ret s' ∧
    steps MAX_OUTBOX s s' ∧ s_rate_windows s' = s_rate_windows s.
Proof.
  intros Hst Hnd Hsub Hok Hlen Hroom.
  assert (steps 0 s (set_s_outbox (foldl (λ m (p : Z * OutboxItem),
    <[p.1 := set_ob_status p.2 status now reason]> m) (s_outbox s) items) s)) as H1.
  { apply (sweep_ok (λ p, set_ob_status p.2 status now reason)); [| | |done].
    - intros p. split; [done|]. split; [|intros s'; by apply set_ob_status_ok].
      apply settles_over. unfold unsettled. cbn. naive_solver.
    - eapply sublist_NoDup; [apply (outbox_iter_NoDup (s_outbox s))|by apply sublist_fmap].
    - intros p Hp. eapply sublist_elem_of in Hp; [|exact Hsub]. by destruct p; apply outbox_iter_elem in Hp. }
  set (s1 := set_s_outbox _ s) in *.
  pose proof (outbox_iter_length s Hok) as Hout. apply sublist_length in Hsub. unfold vec_len in Hout.
  destruct (push_all_ok entries s1) as (s2 & -> & Hq & H2);
    [apply H1|eapply room_after; [exact Hroom|apply H1|unfold vec_len; lia]|].
  exists s2. split; [done|]. split; [|apply Hq]. eapply steps_trans; [exact H1|exact H2|unfold vec_len; lia].
Qed.

Lemma cancel_disabled_ok rule_id active now s :
  notify_ok s → room MAX_OUTBOX s →
  ∃ n s', cancel_disabled_outbox rule_id active now s = Ret (n, s') ∧ steps MAX_OUTBOX s s' ∧
    s_rate_windows s' = s_rate_windows s.
Proof.
  intros Hok Hroom. unfold cancel_disabled_outbox.
  set (items := cancelled_items s rule_id active). set (entries := omap _ items).
  destruct (swept_ok StExpired now (Some "rule_or_action_disabled") items entries s) as (s' & -> & Hs & Hw);
    [done|done|apply sublist_filter|done|apply omap_length_le|done|]. cbn [obind].
  by eexists _, s'.
Qed.

Lemma fst_omap_sublist {A B} (f : A → option (A * B)) l :
  (∀ a b, f a = Some b → b.1 = a) → (omap f l).*1 `sublist_of` l.
Proof.
  intros Hf. induction l as [|a l IH]; cbn; [done|]. destruct (f a) as [b|] eqn:E; cbn; [|by constructor].
  rewrite (Hf a b E). by constructor.
Qed.

Lemma set_profile_ok ids now st :
  notify_ok (st_state st) → room MAX_OUTBOX (st_state st) →
  ∃ r st', set_profile_suppressed_sources ids now st = Ret (r, st') ∧ steps MAX_OUTBOX (st_state st) (st_state st') ∧
    s_rate_windows (st_state st') = s_rate_windows (st_state st).
Proof.
  intros Hok Hroom. unfold set_profile_suppressed_sources.
  case_match; [eexists _, st; split_and!; [done|by apply steps_refl|done]|].
  set (items := suppressed_items (st_state st) ids).
  assert (items.*1 `sublist_of` outbox_iter (s_outbox (st_state st))) as Hsub.
  { apply fst_omap_sublist. intros p b Hb. case_match; [|done].
    destruct (s_logical (st_state st) !! ob_logical_id p.2); cbn in Hb; [|done]. by case_match; simplify_eq. }
  assert (∀ m : gmap Z OutboxItem, foldl (λ m (p : Z * OutboxItem * LogicalNotification),
      <[p.1.1 := set_ob_status p.1.2 StSuppressed now (Some (suppression_as_str RuntimeProfile))]> m) m items =
    foldl (λ m (p : Z * OutboxItem), <[p.1 := set_ob_status p.2 StSuppressed now (Some (suppression_as_str RuntimeProfile))]> m)
      m items.*1) as E.
  { intros m. revert m. clear. induction items as [|p items IH]; intros m; cbn; [done|apply IH]. }
  rewrite E.
  set (entries := _ <$> items).
  destruct (swept_ok StSuppressed now (Some (suppression_as_str RuntimeProfile)) items.*1 entries (st_state st))
    as (s' & -> & Hs & Hw); [done|done|done|done|unfold entries; by rewrite !length_fmap|done|]. cbn [obind].
  by eexists _, _.
Qed.
End notify_ops.
