(* ===== verification/NotifyClaims.v ===== *)
(** * Claiming and finishing deliveries

    [claim_due] expires what is overdue and hands out the best due item; finishing a
    delivery or a receipt keeps the invariant. *)

From S2P Require Import Prelude CameraEvent NotifyModel NotifyState NotifyProcess NotifyDelivery NotifyStore NotifyInv NotifyPrune NotifySteps.

(** ** The best due item *)

(** [i] is served before [j]. *)
Definition before_item (i j : OutboxItem) : Prop :=
  ob_priority j < ob_priority i ∨ (ob_priority j = ob_priority i ∧ ob_id i ≤ ob_id j).

Lemma before_item_trans i j k : before_item i j → before_item j k → before_item i k.
Proof. unfold before_item. lia. Qed.

Lemma foldl_max_item best l :
  match foldl max_item best l with
  | None => best = None ∧ l = []
  | Some i => (best = Some i ∨ i ∈ l) ∧ (∀ j, best = Some j → before_item i j) ∧ (∀ j, j ∈ l → before_item i j)
  end.
Proof.
  revert best. induction l as [|a l IH]; intros best; cbn [foldl].
  { destruct best as [b|]; [|done]. split_and!; [by left| |by intros ? ?%elem_of_nil]. intros ? [= <-]. unfold before_item. lia. }
  specialize (IH (max_item best a)). destruct (foldl max_item (max_item best a) l) as [i|] eqn:E.
  - destruct IH as (Hin & Hb & Hl).
    assert (max_item best a = Some a ∨ max_item best a = best) as Hor
      by (destruct best; cbn; [case_match|]; auto).
    assert (before_item i a) as Ha.
    { destruct best as [b|]; cbn in *; [|by apply Hb]. destruct (later_item b a) eqn:Hlt; [by apply Hb|].
      eapply before_item_trans; [by apply Hb|]. unfold later_item in Hlt. unfold before_item.
      apply orb_false_iff in Hlt as [H1%Z.ltb_ge H2]. apply andb_false_iff in H2 as [H2%Z.eqb_neq|H2%Z.leb_gt]; lia. }
    split_and!.
    + destruct Hin as [Hin|Hin]; [|right; set_solver].
      destruct Hor as [Hor|Hor]; rewrite Hor in Hin; [simplify_eq; right; set_solver|by left].
    + intros j ->. cbn in *. destruct (later_item j a) eqn:Hlt; [|by apply Hb]. eapply before_item_trans; [exact Ha|].
      unfold later_item in Hlt. unfold before_item.
      apply orb_true_iff in Hlt as [H1%Z.ltb_lt|[H1%Z.eqb_eq H2%Z.leb_le]%andb_true_iff]; lia.
    + intros j [->|Hj]%elem_of_cons; [done|by apply Hl].
  - destruct IH as [IH _]. destruct best as [b|]; cbn in IH; [by case_match|done].
Qed.

Lemma next_due_spec s channel now :
  notify_ok s →
  match next_due_outbox_id s channel now with
  | None => ∀ id i, s_outbox s !! id = Some i → is_due s channel now i = false
  | Some id => ∃ i, s_outbox s !! id = Some i ∧ is_due s channel now i = true ∧
      ∀ id' j, s_outbox s !! id' = Some j → is_due s channel now j = true → before_item i j
  end.
Proof.
  intros Hok. unfold next_due_outbox_id. set (due := filter _ _).
  assert (∀ i, i ∈ due ↔ s_outbox s !! ob_id i = Some i ∧ is_due s channel now i = true) as Hdue.
  { intros i. unfold due. rewrite list_elem_of_filter, list_elem_of_fmap. split.
    - intros [Hd ([id j] & -> & Hj%outbox_iter_elem)]. cbn. by rewrite (io_id _ _ _ (no_items s Hok _ _ Hj)).
    - intros [Hi Hd]. split; [done|]. exists (ob_id i, i). by rewrite outbox_iter_elem. }
  assert (∀ id i, s_outbox s !! id = Some i → is_due s channel now i = true → i ∈ due) as Hin.
  { intros id i Hi Hd. apply Hdue. by rewrite (io_id _ _ _ (no_items s Hok _ _ Hi)). }
  pose proof (foldl_max_item None due) as H. destruct (foldl max_item None due) as [i|]; cbn.
  - destruct H as ([?|[Hi Hd]%Hdue] & _ & Hb); [done|]. exists i. split_and!; [done..|]. intros id' j Hj Hd'. by eapply Hb, Hin.
  - destruct H as [_ H]. intros id i Hi. destruct (is_due s channel now i) eqn:Hd; [|done].
    specialize (Hin _ _ Hi Hd). rewrite H in Hin. by apply elem_of_nil in Hin.
Qed.

(** ** The claim loop *)

Definition expired_item (now : Z) (i : OutboxItem) : OutboxItem := set_ob_status i StExpired now (Some "outbox_expired").

(** From [s] to [s'] some due items whose time is over were expired. *)
Record expires_due (channel : Channel) (now : Z) (s s' : RuntimeState) : Prop := {
  ex_logical : s_logical s' = s_logical s;
  ex_windows : s_rate_windows s' = s_rate_windows s;
  ex_items : ∀ id, s_outbox s' !! id = s_outbox s !! id ∨
    ∃ i, s_outbox s !! id = Some i ∧ is_due s channel now i = true ∧ ob_expires_at_ms i ≤ now ∧
      s_outbox s' !! id = Some (expired_item now i)
}.

Lemma is_due_ext s s' channel now i : s_logical s' = s_logical s → is_due s' channel now i = is_due s channel now i.
Proof. unfold is_due. by intros ->. Qed.

Lemma expires_due_refl channel now s : expires_due channel now s s.
Proof. constructor; auto. Qed.
Lemma expires_due_trans channel now s1 s2 s3 :
  expires_due channel now s1 s2 → expires_due channel now s2 s3 → expires_due channel now s1 s3.
Proof.
  intros [L1 W1 I1] [L2 W2 I2]. constructor; [congruence..|]. intros id.
  destruct (I1 id) as [E1|(i & Hi & Hd & He & E1)], (I2 id) as [E2|(j & Hj & Hd' & He' & E2)].
  - left. congruence.
  - right. exists j. rewrite <-E1. split_and!; [done| |done..]. by rewrite <-Hd', (is_due_ext s1 s2).
  - right. exists i. split_and!; [done..|congruence].
  - rewrite E1 in Hj. injection Hj as <-. unfold is_due in Hd'. cbn in Hd'. by rewrite andb_false_r in Hd'.
Qed.

Definition pending_size (s : RuntimeState) : nat :=
  size (filter (λ p, status_pending (ob_status p.2) = true) (s_outbox s)).

Lemma is_due_inv s channel now i :
  is_due s channel now i = true → status_pending (ob_status i) = true ∧ is_Some (s_logical s !! ob_logical_id i).
Proof.
  unfold is_due. intros [[[_ Hp]%andb_true_iff _]%andb_true_iff Hl]%andb_true_iff. split; [done|].
  by destruct (s_logical s !! ob_logical_id i).
Qed.

Lemma expire_due_ok s channel now id i :
  notify_ok s → room 1 s → s_outbox s !! id = Some i → is_due s channel now i = true → ob_expires_at_ms i ≤ now →
  ∃ s', expire_due_outbox id now s = Ret s' ∧ steps 1 s s' ∧ expires_due channel now s s' ∧
    (pending_size s' < pending_size s)%nat.
Proof.
  intros Hok Hroom Hi Hd He. unfold expire_due_outbox. rewrite Hi.
  destruct (is_due_inv _ _ _ _ Hd) as [Hp [l Hl]]. fold (expired_item now i).
  set (s1 := set_s_outbox _ s).
  assert (steps 0 s s1) as H1.
  { apply (steps_outbox_update id (expired_item now) i s Hok Hi); [done| |by apply set_ob_status_ok].
    apply settles_over. unfold unsettled. cbn. naive_solver. }
  assert (s_logical s1 !! ob_logical_id i = Some l) as -> by done.
  destruct (push_history_ok (mk_pending (ob_logical_id i) (lo_rule_id l) (lo_highest_revision l) (ob_stage i)
    "expired" (Some "outbox_expired") now None) s1) as (s2 & -> & Hq & H2); [apply H1|by eapply room_after; [done|apply H1|]|].
  exists s2. split_and!; [done|by eapply steps_zero_trans| |].
  - constructor; [by rewrite (qu_logical _ _ Hq)|by rewrite (qu_windows _ _ Hq)|]. intros id'. rewrite (qu_outbox _ _ Hq).
    cbn. destruct (decide (id = id')) as [<-|Hne]; [right|left; by rewrite lookup_insert_ne].
    exists i. split_and!; [done..|by rewrite lookup_insert_eq].
  - unfold pending_size. rewrite (qu_outbox _ _ Hq). unfold s1. cbn [s_outbox set_s_outbox].
    rewrite map_filter_insert_False by done. rewrite map_filter_delete.
    assert (filter (λ p : Z * OutboxItem, status_pending (ob_status p.2) = true) (s_outbox s) !! id = Some i) as Hf
      by (by apply map_lookup_filter_Some).
    rewrite map_size_delete_Some by (by eexists).
    assert (size (filter (λ p : Z * OutboxItem, status_pending (ob_status p.2) = true) (s_outbox s)) ≠ O); [|lia].
    intros Hz%map_size_empty_inv. by rewrite Hz, lookup_empty in Hf.
Qed.

(** The delivery handed out for an item. *)
Definition delivery_of (channel : Channel) (id attempt : Z) (i : OutboxItem) (l : LogicalNotification) : Delivery :=
  mk_delivery id (ob_logical_id i) (lo_rule_id l) (ob_stage i) channel (ob_destination_json i) (ob_payload_json i)
    (ob_replacement_key i) attempt (ob_max_attempts i) (ob_max_retry_interval_ms i) (lo_attachment_path l)
    (ob_attachment_enabled i) (ob_attachment_required i) (ob_max_attachment_bytes i) (ob_expires_at_ms i).

(** What a claim does after the expiries. *)
Definition claimed (channel : Channel) (now : Z) (s : RuntimeState) (d : option Delivery) (s' : RuntimeState) : Prop :=
  match d with
  | None => s' = s ∧ ∀ id i, s_outbox s !! id = Some i → is_due s channel now i = false
  | Some d => ∃ id i l, s_outbox s !! id = Some i ∧ s_logical s !! ob_logical_id i = Some l ∧
      is_due s channel now i = true ∧ now < ob_expires_at_ms i ∧
      d = delivery_of channel id (ob_attempt_count i + 1) i l ∧
      s' = set_s_outbox (<[id := claim_item i (ob_attempt_count i + 1) now]> (s_outbox s)) s ∧
      ∀ id' j, s_outbox s !! id' = Some j → is_due s channel now j = true → before_item i j
  end.

Lemma claim_item_ok s id i now :
  status_pending (ob_status i) = true → item_ok s id i → item_ok s id (claim_item i (ob_attempt_count i + 1) now).
Proof. intros Hp Hi. pose proof (io_left _ _ _ Hi Hp). destruct Hi. constructor; cbn; try done; lia. Qed.

Lemma claim_loop_ok fuel channel now s :
  notify_ok s → room (Z.of_nat (pending_size s)) s → (pending_size s < fuel)%nat →
  ∃ d s1 s', claim_loop fuel channel now s = Ret (d, s') ∧ claims (Z.of_nat (pending_size s)) s s' ∧
    expires_due channel now s s1 ∧ claimed channel now s1 d s'.
Proof.
  revert s. induction fuel as [|fuel IH]; intros s Hok Hroom Hf; [lia|]. cbn [claim_loop].
  pose proof (next_due_spec s channel now Hok) as Hnext.
  destruct (next_due_outbox_id s channel now) as [id|].
  2:{ exists None, s, s. split_and!; [done|apply steps_are_claims, steps_refl; [lia|done]|apply expires_due_refl|done..]. }
  destruct Hnext as (i & Hi & Hd & Hbest). destruct (is_due_inv _ _ _ _ Hd) as [Hp [l Hl]]. rewrite Hi, Hl.
  destruct (Z.leb_spec (ob_expires_at_ms i) now) as [He|He].
  - assert (room 1 s) as Hr1.
    { eapply room_mono; [done|]. assert (pending_size s ≠ O); [|lia]. intros Hz%map_size_empty_inv.
      assert (filter (λ p : Z * OutboxItem, status_pending (ob_status p.2) = true) (s_outbox s) !! id = Some i) as Hx
        by (by apply map_lookup_filter_Some). by rewrite Hz, lookup_empty in Hx. }
    destruct (expire_due_ok s channel now id i Hok Hr1 Hi Hd He) as (s1 & -> & H1 & Hex & Hlt). cbn [obind].
    destruct (IH s1) as (d & s2 & s' & -> & H2 & Hex2 & Hc); [apply H1|eapply room_after; [exact Hroom|apply H1|lia]|lia|].
    exists d, s2, s'. split_and!; [done|eapply steps_claims; [exact H1|exact H2|lia]|by eapply expires_due_trans|done].
  - pose proof (no_items s Hok _ _ Hi) as Hitem. pose proof (io_max _ _ _ Hitem). pose proof (io_attempts _ _ _ Hitem).
    unfold checked_add. rewrite (proj2 (Z.leb_le _ _)) by (unfold u32_max; lia).
    eexists _, s, _. split; [done|]. split_and!; [|apply expires_due_refl|exists id, i, l; by split_and!].
    eapply steps_claims; [apply (steps_refl 0 s); done| |apply Zle_0_nat].
    apply (claims_outbox_update id (λ i, claim_item i (ob_attempt_count i + 1) now));
      [done|done|constructor; cbn; [done..|lia]| |by apply claim_item_ok].
    intros _. unfold unsettled. destruct (ob_status i); try done; auto.
Qed.

Lemma pending_size_le s : (pending_size s ≤ size (s_outbox s))%nat.
Proof. apply map_size_filter. Qed.

Lemma claim_due_ok channel now s :
  notify_ok s → room MAX_OUTBOX s →
  ∃ d s1 s', claim_due channel now s = Ret (d, s') ∧ claims MAX_OUTBOX s s' ∧
    expires_due channel now s s1 ∧ claimed channel now s1 d s'.
Proof.
  intros Hok Hroom. pose proof (outbox_bounded s Hok) as Hb. pose proof (pending_size_le s) as Hp.
  destruct (claim_loop_ok (S (size (s_outbox s))) channel now s Hok) as (d & s1 & s' & E & Hs & Hex & Hc);
    [eapply room_mono; [done|lia]|lia|].
  exists d, s1, s'. split_and!; [done|eapply steps_claims; [apply (steps_refl 0 s); done|exact Hs|lia]|done..].
Qed.

(** An item in time is not touched by the expiries. *)
Lemma expires_due_in_time channel now s s1 id i :
  expires_due channel now s s1 → s_outbox s !! id = Some i → now < ob_expires_at_ms i → s_outbox s1 !! id = Some i.
Proof. intros [_ _ Hx] Hi He. destruct (Hx id) as [->|(j & Hj & _ & Hj' & _)]; [done|]. rewrite Hi in Hj. simplify_eq. lia. Qed.
Lemma expires_due_back channel now s s1 id i :
  expires_due channel now s s1 → s_outbox s1 !! id = Some i → status_pending (ob_status i) = true → s_outbox s !! id = Some i.
Proof. intros [_ _ Hx] Hi Hp. destruct (Hx id) as [<-|(j & _ & _ & _ & E)]; [done|]. rewrite Hi in E. by simplify_eq. Qed.

(** A delivery that may be attempted now: on this channel, waiting for its first or its
    next attempt, whose time has come, of a notification that is known. *)
Record due_on (s : RuntimeState) (channel : Channel) (now : Z) (i : OutboxItem) : Prop := {
  du_channel : ob_channel i = channel;
  du_status : ob_status i = StPending ∨ ob_status i = StRetrying;
  du_time : ob_next_attempt_at_ms i ≤ now;
  du_known : ∃ l, s_logical s !! ob_logical_id i = Some l
}.

Lemma is_due_spec s channel now i : is_due s channel now i = true ↔ due_on s channel now i.
Proof.
  unfold is_due. rewrite !andb_true_iff, bool_decide_eq_true, Z.leb_le. split.
  - intros [[[H1 H2] H3] H4]. constructor; [done| |done|].
    + destruct (ob_status i); try done; auto.
    + destruct (s_logical s !! ob_logical_id i) as [l|]; [by exists l|done].
  - intros [H1 H2 H3 [l H4]]. rewrite H4. by destruct H2 as [-> | ->].
Qed.

(** C34. Claiming hands out the best due delivery exactly once more: on a state that keeps
    the invariant it returns.  An item is due when it is on the channel, pending or
    retrying, its next attempt is not in the future and its notification is known.  A
    delivery handed out is for a due item that has not expired and that no other such item
    precedes (higher priority first, then older); it carries the item's destination,
    payload and limits, is its next attempt and within its limit, and leaves the item in
    delivery with that attempt counted; nothing is handed out only when every due item has
    expired; and every other item is untouched, or was due and expired and is now marked
    expired. *)
Theorem claim_due_takes_best channel now s :
  notify_ok s → room MAX_OUTBOX s →
  ∃ d s', claim_due channel now s = Ret (d, s') ∧
    match d with
    | None => ∀ id i, s_outbox s !! id = Some i → due_on s channel now i → ob_expires_at_ms i ≤ now
    | Some d => ∃ i i' l, s_outbox s !! dl_id d = Some i ∧ s_logical s !! ob_logical_id i = Some l ∧
        due_on s channel now i ∧ now < ob_expires_at_ms i ∧
        d = delivery_of channel (ob_id i) (ob_attempt_count i + 1) i l ∧ dl_attempt d ≤ ob_max_attempts i ∧
        s_outbox s' !! dl_id d = Some i' ∧ i' = claim_item i (dl_attempt d) now ∧
        ob_status i' = StDelivering ∧ ob_attempt_count i' = ob_attempt_count i + 1 ∧
        ∀ id j, s_outbox s !! id = Some j → due_on s channel now j → now < ob_expires_at_ms j →
          ob_priority j < ob_priority i ∨ (ob_priority j = ob_priority i ∧ ob_id i ≤ ob_id j)
    end ∧
    ∀ id i, s_outbox s !! id = Some i → Some id ≠ dl_id <$> d →
      s_outbox s' !! id = Some i ∨
      (due_on s channel now i ∧ ob_expires_at_ms i ≤ now ∧
       ∃ i', s_outbox s' !! id = Some i' ∧ ob_status i' = StExpired ∧ ob_last_reason i' = Some "outbox_expired").
Proof.
  intros Hok Hroom. destruct (claim_due_ok channel now s Hok Hroom) as (d & s1 & s' & E & _ & Hx & Hc).
  exists d, s'. split; [done|]. pose proof Hx as [El Ew Hxi].
  assert (∀ id i, s_outbox s !! id = Some i → s_outbox s1 !! id = Some i ∨
      (due_on s channel now i ∧ ob_expires_at_ms i ≤ now ∧
       ∃ i', s_outbox s1 !! id = Some i' ∧ ob_status i' = StExpired ∧ ob_last_reason i' = Some "outbox_expired")) as Hrest.
  { intros id i Hi. destruct (Hxi id) as [->|(j & Hj & Hdj & Hej & E')]; [by left|]. rewrite Hi in Hj. simplify_eq.
    right. apply is_due_spec in Hdj. split_and!; [done..|]. by exists (expired_item now j). }
  destruct d as [d|].
  - destruct Hc as (id & i & l & Hi & Hl & Hd & He & -> & -> & Hbest). cbn [dl_id dl_attempt delivery_of].
    destruct (is_due_inv _ _ _ _ Hd) as [Hp _]. pose proof (expires_due_back _ _ _ _ _ _ Hx Hi Hp) as Hi0. split.
    + exists i, (claim_item i (ob_attempt_count i + 1) now), l. rewrite (is_due_ext s s1) in Hd by done. rewrite El in Hl.
      apply is_due_spec in Hd. pose proof (io_id _ _ _ (no_items s Hok _ _ Hi0)) as Hid.
      split_and!; try done; [by rewrite Hid| | |].
      * pose proof (io_left _ _ _ (no_items s Hok _ _ Hi0) Hp). lia.
      * cbn. by rewrite lookup_insert_eq.
      * intros id' j Hj Hdj Hej. eapply Hbest; [by eapply expires_due_in_time|]. rewrite (is_due_ext s s1) by done.
        by apply is_due_spec.
    + intros id' j Hj Hne. cbn. rewrite lookup_insert_ne by (intros ->; by apply Hne). by apply Hrest.
  - destruct Hc as [-> Hnone]. split; [|intros id i Hi _; by apply Hrest].
    intros id i Hi Hd%is_due_spec. destruct (Hrest id i Hi) as [E'|(_ & ? & _)]; [|done].
    specialize (Hnone _ _ E'). rewrite (is_due_ext s s1) in Hnone by done. congruence.
Qed.

(** ** Finishing a delivery *)

(** A reason that is too long is cut at its limit, which has to be a character boundary. *)
Definition reason_ok (reason : string) : Prop :=
  str_len reason ≤ MAX_REASON_BYTES ∨
  ∃ c, String.get (Z.to_nat MAX_REASON_BYTES) reason = Some c ∧ is_continuation c = false.
Lemma redact_reason_ok reason : reason_ok reason → ∃ r, redact_reason reason = Ret r.
Proof.
  unfold redact_reason. intros [H|(c & Hc & Hn)]; [rewrite (proj2 (Z.leb_le _ _)) by done; by eexists|].
  case_match; [by eexists|]. rewrite Hc, Hn. by eexists.
Qed.

Definition outcome_reason_ok (o : DeliveryOutcome) : Prop :=
  match o with
  | Delivered _ => True
  | Transient reason _ _ | Permanent reason _ => reason_ok reason
  end.

Definition settled (s : OutboxStatus) : Prop := s ≠ StPending ∧ s ≠ StDelivering ∧ s ≠ StSuppressed.

Lemma delivery_transition_ok d r now :
  outcome_reason_ok (pr_outcome r) →
  ∃ t, delivery_transition d r now = Ret t ∧ settled (tr_status t) ∧
    (tr_status t = StRetrying → dl_attempt d < dl_max_attempts d) ∧
    (is_Some (tr_provider_receipt t) → is_Some (tr_provider_receipt_expires_at_ms t)).
Proof.
  intros Hr. unfold delivery_transition.
  assert (∃ t, outcome_transition d (pr_outcome r) now = Ret t ∧ settled (tr_status t) ∧
    (tr_status t = StRetrying → dl_attempt d < dl_max_attempts d)) as (t & -> & Hs & Hret).
  { destruct (pr_outcome r) as [ps|reason ps after|reason ps]; cbn in Hr |- *.
    - by eexists.
    - unfold transient_delivery_transition. destruct (redact_reason_ok reason Hr) as [reason' ->]. cbn [obind].
      destruct (Z.leb_spec (dl_max_attempts d) (dl_attempt d)); [by eexists|].
      case_match; by eexists.
    - destruct (redact_reason_ok reason Hr) as [reason' ->]. by eexists. }
  cbn [obind]. destruct (tr_status t) eqn:Et; destruct (pr_receipt r) as [[id seconds]|]; eexists; split_and!;
    try done; cbn; rewrite ?Et; try done; try (by intros []); by eexists.
Qed.

Section finishing.
Context (env : NotifyEnv).
Context (order : gmap OperationalIntervalKey OperationalInterval →
  list (OperationalIntervalKey * OperationalInterval)).

Lemma push_attempt_ok a s :
  notify_ok s → room 1 s → ∃ s', push_attempt a s = Ret s' ∧ steps 1 s s' ∧ s_logical s' = s_logical s ∧
    s_outbox s' = s_outbox s.
Proof.
  intros [] [Hh Ha Hx]. unfold push_attempt, checked_add. rewrite (proj2 (Z.leb_le _ _)) by lia.
  eexists. split; [done|]. split; [|done]. constructor; [|constructor; cbn; lia|by apply evolves_eq]. constructor; cbn; try done.
  - eapply items_ok_ext; [by apply (keeps_eq s)|cbn; lia|done].
  - by apply trim_front_len.
Qed.

(** A claim that is still current names an item in delivery. *)
Lemma validate_claim_ok s d :
  validate_delivery_claim s d = Ok tt →
  ∃ i l, s_outbox s !! dl_id d = Some i ∧ ob_status i = StDelivering ∧ ob_attempt_count i = dl_attempt d ∧
    s_logical s !! dl_logical_id d = Some l.
Proof.
  unfold validate_delivery_claim. destruct (s_outbox s !! dl_id d) as [i|]; [|done].
  intros (? & [[[[H1%bool_decide_eq_true H2%Z.eqb_eq]%andb_true_iff _]%andb_true_iff _]%andb_true_iff _]%ensure_Ok%andb_true_iff
    & H3%ensure_Ok)%rbind_Ok.
  destruct (s_logical s !! dl_logical_id d) as [l|]; [|done]. by exists i, l.
Qed.

Lemma finish_item_ok s id i t now :
  (tr_status t = StRetrying → ob_attempt_count i < ob_max_attempts i) → settled (tr_status t) →
  (is_Some (tr_provider_receipt t) → is_Some (tr_provider_receipt_expires_at_ms t)) →
  item_ok s id i → item_ok s id (finish_item t now i).
Proof.
  intros Hr (Hp & Hd & Hs) Hx Hi. destruct Hi. constructor; cbn; try done.
  intros Hpend. apply Hr. by destruct (tr_status t).
Qed.

(** The delivery was handed out for the item it names: its limit is the item's. *)
Definition delivery_current (s : RuntimeState) (d : Delivery) : Prop :=
  ∀ i, s_outbox s !! dl_id d = Some i → ob_max_attempts i = dl_max_attempts d.

Lemma finish_delivery_ok d r now s :
  notify_ok s → room 2 s → windows_bounded s → outcome_reason_ok (pr_outcome r) → delivery_current s d →
  ∃ v s', finish_delivery env order d r now s = Ret (v, s') ∧ steps 2 s s' ∧ windows_bounded s'.
Proof.
  intros Hok Hroom Hw Hr Hcur. unfold finish_delivery.
  destruct (delivery_transition_ok d r now Hr) as (t & -> & Hst & Hret & Hrec). cbn [obind].
  destruct (validate_delivery_claim s d) as [[]|e] eqn:Hv; [|eexists _, s; split_and!; [done|by apply steps_refl|done]].
  destruct (validate_claim_ok s d Hv) as (i & l & Hi & Hs & Ha & Hl). unfold apply_delivery_transition. rewrite Hi.
  set (s1 := set_s_outbox _ s).
  assert (steps 0 s s1) as H1.
  { apply (steps_outbox_update (dl_id d) (finish_item t now) i s Hok Hi); [done| |].
    { unfold settles, unsettled, delivering. rewrite Hs. cbn. destruct Hst as (? & ? & ?). split; [tauto|done]. }
    apply finish_item_ok; [|done..].
    intros E. rewrite Ha, (Hcur i Hi). by apply Hret. }
  assert (room 2 s1) as Hr1 by (by eapply room_after; [done|apply H1|]).
  match goal with |- context [push_attempt ?a s1] => destruct (push_attempt_ok a s1) as (s2 & -> & H2 & El2 & _) end;
    [apply H1|by eapply room_mono|]. cbn [obind].
  assert (room 1 s2) as Hr2 by (by eapply room_after; [exact Hr1|apply H2|]).
  unfold push_delivery_history. assert (s_logical s2 !! dl_logical_id d = Some l) as -> by (by rewrite El2).
  match goal with |- context [push_history ?e s2] => destruct (push_history_ok e s2) as (s3 & -> & _ & H3) end;
    [apply H2|done|]. cbn [obind].
  assert (steps 2 s s3) as H13.
  { eapply steps_zero_trans; [exact H1|]. by eapply steps_trans; [exact H2|exact H3|]. }
  set (s4 := if bool_decide (tr_status t = StDelivered) then _ else s3).
  assert (steps 0 s3 s4) as H4.
  { unfold s4. case_match; [by apply steps_rules; [|apply H3]|apply steps_refl; [done|apply H3]]. }
  destruct (prune_ok order now s4) as (s5 & -> & H5 & Hw5 & _); [apply H4|]. cbn [obind].
  exists (Ok tt), s5. split; [by destruct Hst as (? & ? & ?); destruct (tr_status t)|]. split; [|done].
  eapply steps_trans; [exact H13|by eapply steps_zero_trans|done].
Qed.

(** ** Receipts *)

Lemma foldl_min_receipt_elem best l i :
  foldl min_receipt best l = Some i → best = Some i ∨ i ∈ l.
Proof.
  revert best. induction l as [|a l IH]; intros best; cbn [foldl]; [by left|]. intros [H|H]%IH; [|right; set_solver].
  destruct best as [b|]; cbn in H; [case_match|]; simplify_eq; [right; set_solver|by left|right; set_solver].
Qed.

(** The receipt fields of an item change; its key, status and limits do not. *)
Lemma set_receipt_ok s id i next expires acknowledged expired by_hash now reason :
  (is_Some (ob_provider_receipt i) → is_Some expires) → item_ok s id i →
  item_ok s id (set_receipt i next expires acknowledged expired by_hash now reason).
Proof. intros He []. by constructor. Qed.

Lemma receipt_due_inv s now i :
  receipt_due s now i = true → is_Some (ob_provider_receipt i) ∧ is_Some (s_logical s !! ob_logical_id i).
Proof.
  unfold receipt_due, receipt_pending.
  intros [[[_ [[[[_ Hr]%andb_true_iff _]%andb_true_iff _]%andb_true_iff _]%andb_true_iff]%andb_true_iff _]%andb_true_iff Hl]%andb_true_iff.
  by destruct (ob_provider_receipt i), (s_logical s !! ob_logical_id i).
Qed.

Lemma claim_receipt_ok now s :
  notify_ok s → ∃ r s', claim_due_receipt now s = Ret (r, s') ∧ steps 0 s s' ∧ s_rate_windows s' = s_rate_windows s.
Proof.
  intros Hok. unfold claim_due_receipt. destruct (foldl min_receipt None _) as [i|] eqn:E.
  2:{ exists None, s. split_and!; [done|by apply steps_refl|done]. }
  apply foldl_min_receipt_elem in E as [?|E]; [done|]. apply list_elem_of_filter in E as [Hd E].
  apply list_elem_of_fmap in E as ([id i'] & -> & Hi%outbox_iter_elem). cbn [snd] in *.
  pose proof (no_items s Hok _ _ Hi) as Hitem. rewrite (io_id _ _ _ Hitem), Hi.
  destruct (receipt_due_inv _ _ _ Hd) as [Hr [l Hl]]. destruct (io_receipt _ _ _ Hitem Hr) as [expires He].
  destruct Hr as [receipt Hr]. rewrite Hl, Hr, He. eexists _, _. split; [done|]. split; [|done].
  apply (steps_outbox_update id (λ i, set_receipt i (Some (add_millis now PUSHOVER_MIN_RETRY_INTERVAL_MS)) (Some expires)
    (ob_provider_acknowledged_at_ms i) (ob_provider_expired_at_ms i) (ob_provider_acknowledged_by_hash i) now
    (ob_last_reason i))); [done..|by apply settles_status|by apply set_receipt_ok].
Qed.

Definition receipt_reason_ok (o : ReceiptOutcome) : Prop :=
  match o with
  | ReceiptTransient reason _ | ReceiptPermanent reason => reason_ok reason
  | _ => True
  end.

(** An update of the claimed item's receipt, with or without a history entry. *)
Lemma update_receipt_ok f r now outcome reason i l s :
  notify_ok s → room 1 s → s_outbox s !! rc_outbox_id r = Some i → s_logical s !! rc_logical_id r = Some l →
  later_version i (f i) → ob_status (f i) = ob_status i →
  (item_ok s (rc_outbox_id r) i → item_ok s (rc_outbox_id r) (f i)) →
  ∃ s1, update_outbox (rc_outbox_id r) f s = Ret s1 ∧ steps 0 s s1 ∧
    ∃ s2, push_receipt_history r outcome reason now s1 = Ret s2 ∧ steps 1 s s2.
Proof.
  intros Hok Hroom Hi Hl Hk Hst Hf. unfold update_outbox. rewrite Hi. set (s1 := set_s_outbox _ s).
  assert (steps 0 s s1) as H1 by (apply (steps_outbox_update (rc_outbox_id r) f i s); [done..|by apply settles_status|done]).
  exists s1. split; [done|]. split; [done|]. unfold push_receipt_history.
  assert (s_logical s1 !! rc_logical_id r = Some l) as -> by done.
  match goal with |- context [push_history ?e s1] => destruct (push_history_ok e s1) as (s2 & -> & _ & H2) end;
    [apply H1|by eapply room_after; [done|apply H1|]|].
  exists s2. split; [done|]. by eapply steps_zero_trans.
Qed.

Lemma expire_receipt_ok r expired now reason i l s :
  notify_ok s → room 1 s → s_outbox s !! rc_outbox_id r = Some i → s_logical s !! rc_logical_id r = Some l →
  ∃ s', expire_receipt r expired now reason s = Ret s' ∧ steps 1 s s'.
Proof.
  intros Hok Hroom Hi Hl. unfold expire_receipt.
  match goal with |- context [update_outbox _ ?f s] =>
    destruct (update_receipt_ok f r now "expired" (Some reason) i l s) as (s1 & -> & H1 & s2 & E & H2) end; [done..| |].
  { intros Hitem. apply set_receipt_ok; [apply (io_receipt _ _ _ Hitem)|done]. }
  cbn [obind]. by exists s2.
Qed.

Lemma apply_receipt_ok r o now i l s :
  notify_ok s → room 1 s → s_outbox s !! rc_outbox_id r = Some i → s_logical s !! rc_logical_id r = Some l →
  receipt_reason_ok o → ∃ s', apply_receipt_outcome r o now s = Ret s' ∧ steps 1 s s'.
Proof.
  intros Hok Hroom Hi Hl Hr.
  pose proof (λ expired reason, expire_receipt_ok r expired now reason i l s Hok Hroom Hi Hl) as Hexp.
  assert (∀ f outcome reason, later_version i (f i) → ob_status (f i) = ob_status i →
    (item_ok s (rc_outbox_id r) i → item_ok s (rc_outbox_id r) (f i)) →
    ∃ s1, update_outbox (rc_outbox_id r) f s = Ret s1 ∧ steps 0 s s1 ∧
      ∃ s2, push_receipt_history r outcome reason now s1 = Ret s2 ∧ steps 1 s s2) as Hup.
  { intros. by eapply update_receipt_ok. }
  assert (item_ok s (rc_outbox_id r) i → is_Some (ob_provider_receipt i) → is_Some (ob_provider_receipt_expires_at_ms i)) as Hx
    by apply io_receipt.
  destruct o as [expires|at_ms by_hash|expired|reason after|reason]; cbn [apply_receipt_outcome].
  - unfold finish_pending_receipt. case_match; [apply Hexp|].
    match goal with |- context [update_outbox _ ?f s] => destruct (Hup f "" None) as (s1 & -> & H1 & _) end;
      [done|done|intros; by apply set_receipt_ok|]. exists s1. split; [done|by eapply steps_weaken].
  - unfold acknowledge_receipt.
    match goal with |- context [update_outbox _ ?f s] =>
      destruct (Hup f "acknowledged" (Some "pushover")) as (s1 & -> & H1 & s2 & E & H2) end;
      [done|done|intros; apply set_receipt_ok; auto|]. cbn [obind]. by exists s2.
  - apply Hexp.
  - unfold retry_receipt. case_match; [apply Hexp|]. destruct (redact_reason_ok reason Hr) as [reason' ->]. cbn [obind].
    match goal with |- context [update_outbox _ ?f s] => destruct (Hup f "" None) as (s1 & -> & H1 & _) end;
      [done|done|intros; apply set_receipt_ok; auto|]. exists s1. split; [done|by eapply steps_weaken].
  - unfold fail_receipt. destruct (redact_reason_ok reason Hr) as [reason' ->]. cbn [obind].
    match goal with |- context [update_outbox _ ?f s] =>
      destruct (Hup f "failed" (Some reason')) as (s1 & -> & H1 & s2 & E & H2) end;
      [done|done|intros; apply set_receipt_ok; auto|]. cbn [obind]. by exists s2.
Qed.

Lemma finish_receipt_ok r o now s :
  notify_ok s → room 1 s → windows_bounded s → receipt_reason_ok o →
  ∃ v s', finish_receipt order r o now s = Ret (v, s') ∧ steps 1 s s' ∧ windows_bounded s'.
Proof.
  intros Hok Hroom Hw Hr. unfold finish_receipt, validate_receipt_claim.
  destruct (s_outbox s !! rc_outbox_id r) as [i|] eqn:Hi; [|eexists _, s; split_and!; [done|by apply steps_refl|done]].
  destruct (ensure _ _) as [[]|e] eqn:Hv; [|eexists _, s; split_and!; [done|by apply steps_refl|done]].
  apply ensure_Ok, andb_true_iff in Hv as [_ Hl]. destruct (s_logical s !! rc_logical_id r) as [l|] eqn:El; [|done].
  destruct (apply_receipt_ok r o now i l s Hok Hroom Hi El Hr) as (s1 & -> & H1). cbn [obind].
  destruct (prune_ok order now s1) as (s2 & -> & H2 & Hw2 & _); [apply H1|].
  eexists _, s2. split; [done|]. split; [|done]. by eapply steps_trans; [exact H1|exact H2|].
Qed.
End finishing.
