(* ===== verification/NotifyStoreInv.v ===== *)
(** * Changes to notification rules keep the invariant

    Saving, activating and deleting rules return for every outcome of the file
    operations and keep the state's invariant. *)

From S2P Require Import Prelude CameraEvent NotifyModel NotifyState NotifyProcess NotifyDelivery NotifyStore NotifyInv NotifyInbox NotifyPrune NotifySteps.

Section notify_store.
Context (base : NotifyEnv) (overrides : string → result string (option string)) (json_len : Rule → Z).

(** ** Externalizing *)

(** A rule on disk: the same but for its destinations. *)
Record same_rule (r r' : Rule) : Prop := {
  sr_id : ru_id r' = ru_id r;
  sr_owner : ru_owner_id r' = ru_owner_id r;
  sr_revision : ru_revision r' = ru_revision r;
  sr_failure : ru_failure r' = ru_failure r;
  sr_actions : length (ru_actions r') = length (ru_actions r)
}.
Lemma same_rule_ok r r' : same_rule r r' → rule_ok r → rule_ok r'.
Proof. intros [_ _ _ Hf Ha] [? ?]. constructor; [unfold vec_len in *; by rewrite Ha|by rewrite Hf]. Qed.

Lemma externalize_action_total env id version revision index a :
  ∃ v, externalize_action base env id version revision index a = Ret v.
Proof.
  unfold externalize_action. case_match; [by eexists|]. destruct (managed_secret_key (ac_destination a)).
  - destruct (resolve_secret_references_total env (ac_destination a)) as [v ->]. by eexists.
  - case_match; by eexists.
Qed.
Lemma externalize_loop_total env id version revision index l :
  ∃ v, externalize_loop base env id version revision index l = Ret v ∧
    ∀ l' stored, v = Ok (l', stored) → length l' = length l.
Proof.
  revert index. induction l as [|a l IH]; intros index; cbn [externalize_loop]; [eexists; split; [done|by intros ? ? [= <- <-]]|].
  destruct (externalize_action_total env id version revision index a) as [v ->]. cbn [obind].
  destruct v as [[a' stored]|]; [|by eexists]. destruct (IH (index + 1)) as (v & -> & Hv). cbn [obind].
  eexists. split; [done|]. destruct v as [[l' rest]|]; [|done]. intros ? ? [= <- <-]. cbn. f_equal. by eapply Hv.
Qed.
Lemma externalize_destinations_total env id version r :
  ∃ v, externalize_destinations base env id version r = Ret v ∧ ∀ r' stored, v = Ok (r', stored) → same_rule r r'.
Proof.
  unfold externalize_destinations.
  destruct (externalize_loop_total env id version (ru_revision r) 0 (ru_actions r)) as (v & -> & Hv). cbn [obind].
  eexists. split; [done|]. destruct v as [[l stored]|]; [|done]. intros ? ? [= <- <-]. constructor; try done. by eapply Hv.
Qed.

(** A record on disk: its versions are on disk. *)
Record same_record (record record' : RuleRecord) : Prop := {
  sc_id : rr_id record' = rr_id record;
  sc_draft : same_rule (rr_draft record) (rr_draft record');
  sc_active : ∀ r', rr_active record' = Some r' → ∃ r, rr_active record = Some r ∧ same_rule r r'
}.
Lemma same_record_ok k record record' : same_record record record' → record_ok k record → record_ok k record'.
Proof.
  intros [_ Hd Ha] [Hact Hdr Ht]. constructor.
  - intros r' Hr'. destruct (Ha r' Hr') as (r & Hr & Hs). destruct (Hact r Hr) as [<- Hok].
    split; [apply Hs|by eapply same_rule_ok].
  - by rewrite (sr_id _ _ Hd).
  - by rewrite (sr_failure _ _ Hd).
Qed.

Lemma externalize_record_total env record :
  ∃ v, externalize_record base env record = Ret v ∧ ∀ record' stored, v = Ok (record', stored) → same_record record record'.
Proof.
  unfold externalize_record.
  assert (∃ v, externalize_active base env record = Ret v ∧ ∀ active stored, v = Ok (active, stored) →
    ∀ r', active = Some r' → ∃ r, rr_active record = Some r ∧ same_rule r r') as (v & -> & Hv).
  { unfold externalize_active. destruct (rr_active record) as [r|]; [|eexists; split; [done|by intros ? ? [= <- <-]]].
    destruct (externalize_destinations_total env (rr_id record) "ACTIVE" r) as (v & -> & Hv). cbn [obind].
    eexists. split; [done|]. destruct v as [[r' stored]|]; [|done]. intros ? ? [= <- <-] ? [= <-].
    exists r. split; [done|by eapply Hv]. }
  cbn [obind]. destruct v as [[active stored]|]; [|by eexists].
  destruct (externalize_destinations_total env (rr_id record) "DRAFT" (rr_draft record)) as (w & -> & Hw). cbn [obind].
  eexists. split; [done|]. destruct w as [[draft rest]|]; [|done]. intros ? ? [= <- <-].
  constructor; [done|by eapply Hw|by eapply Hv].
Qed.
Lemma externalize_records_total env l :
  ∃ v, externalize_records base env l = Ret v ∧ ∀ l' stored, v = Ok (l', stored) →
    Forall2 (λ p q : string * RuleRecord, q.1 = p.1 ∧ same_record p.2 q.2) l l'.
Proof.
  induction l as [|[k record] l IH]; cbn [externalize_records]; [eexists; split; [done|by intros ? ? [= <- <-]]|].
  destruct (externalize_record_total env record) as (v & -> & Hv). cbn [obind].
  destruct v as [[record' stored]|]; [|by eexists]. destruct IH as (w & -> & Hw). cbn [obind].
  eexists. split; [done|]. destruct w as [[l' rest]|]; [|done]. intros ? ? [= <- <-].
  constructor; [split; [done|by eapply Hv]|by eapply Hw].
Qed.

(** ** Writing returns *)

Lemma validate_persisted_total env p : ∃ v, validate_persisted_rule json_len env p = Ret v.
Proof.
  unfold validate_persisted_rule. apply then_check_total; [by eexists|]. destruct (pe_active p) as [r|]; [|by eexists].
  apply then_check_total; [by eexists|]. destruct (resolve_rule_total env r) as (v & -> & _). cbn [obind].
  destruct v; [apply rule_validate_total|by eexists].
Qed.
Lemma validate_records_total env seen l : ∃ v, validate_records json_len env seen l = Ret v.
Proof.
  revert seen. induction l as [|p l IH]; intros seen; cbn [validate_records]; [by eexists|].
  apply then_check_total; [apply validate_persisted_total|]. case_match; [by eexists|apply IH].
Qed.
Lemma validate_configuration_total env rules : ∃ v, validate_configuration json_len env rules = Ret v.
Proof. unfold validate_configuration. case_match; [by eexists|apply validate_records_total]. Qed.

Lemma write_table_total io rules disk : ∃ v, write_configuration_table base overrides json_len io rules disk = Ret v.
Proof.
  unfold write_configuration_table.
  destruct (validate_configuration_total (env_at base overrides io (dk_secrets disk)) rules) as [v ->]. cbn [obind].
  case_match; [|by eexists]. destruct (write_private_file_atomically _ _ _). by eexists.
Qed.
Lemma write_managed_total io rules values disk :
  ∃ v, write_with_managed_secrets base overrides json_len io rules values disk = Ret v.
Proof.
  unfold write_with_managed_secrets. case_match; [|by eexists].
  destruct (write_private_file_atomically _ _ _) as [[[]|err] secrets]; [|by eexists].
  destruct (write_table_total io rules (mk_disk secrets (dk_rules disk))) as [[v d'] ->].
  cbn [obind]. destruct v; [by eexists|]. destruct (write_private_file_atomically _ _ _). by eexists.
Qed.

Lemma persist_ok io rules disk :
  map_Forall record_ok rules →
  ∃ v disk', persist_configured_rules base overrides json_len io rules disk = Ret (v, disk') ∧
    ∀ rules', v = Ok rules' → dom rules' = dom rules ∧ map_Forall record_ok rules'.
Proof.
  intros Hok. unfold persist_configured_rules.
  destruct (externalize_records_total (env_at base overrides io (dk_secrets disk)) (btree_iter rules)) as (v & -> & Hv).
  cbn [obind]. destruct (let? v := v in let? _ := io_config io in Ok v) as [[canonical stored]|e] eqn:E; [|by eexists _, _].
  apply rbind_Ok in E as ([c st] & -> & E). apply rbind_Ok in E as (_ & _ & E). injection E as -> ->.
  specialize (Hv _ _ eq_refl).
  match goal with |- context [write_with_managed_secrets _ _ _ io ?r ?m disk] =>
    destruct (write_managed_total io r m disk) as [[w d'] ->] end.
  cbn [obind]. eexists _, d'. split; [done|]. intros rules' (_ & _ & [= <-])%rbind_Ok.
  assert (canonical.*1 = (btree_iter rules).*1) as Hfst.
  { clear -Hv. induction Hv as [|p q l l' [Hp _] Hv IH]; [done|]. rewrite !fmap_cons. by rewrite Hp, IH. }
  split.
  - apply set_eq. intros k. rewrite dom_list_to_map_L, Hfst, elem_of_list_to_set, list_elem_of_fmap. split.
    + intros ([k' record] & -> & Hk%btree_iter_elem). apply elem_of_dom. by exists record.
    + intros [record Hk]%elem_of_dom. exists (k, record). by rewrite btree_iter_elem.
  - intros k record' Hk%elem_of_list_to_map_2. apply list_elem_of_lookup in Hk as [n Hn].
    destruct (Forall2_lookup_r _ _ _ _ _ Hv Hn) as ([k' record] & Hl & He & Hs). cbn in *. subst k'.
    apply list_elem_of_lookup_2, btree_iter_elem in Hl. by eapply same_record_ok, Hok.
Qed.

(** ** The operations *)

Lemma resolve_record_total env record : ∃ v, resolve_record_destinations env record = Ret v.
Proof.
  unfold resolve_record_destinations, resolve_active. destruct (rr_active record) as [r|]; cbn [obind].
  - destruct (resolve_rule_total env r) as (v & -> & _). cbn [obind]. destruct v; cbn [rbind]; [|by eexists].
    destruct (resolve_rule_total env (rr_draft record)) as (w & -> & _). by eexists.
  - destruct (resolve_rule_total env (rr_draft record)) as (w & -> & _). by eexists.
Qed.

Lemma size_dom_eq {V W} (m : gmap string V) (m' : gmap string W) : dom m' = dom m → size m' = size m.
Proof. intros H. by rewrite <-(size_dom m), <-(size_dom m'), H. Qed.
Lemma set_s_rules_id s : set_s_rules (s_rules s) s = s.
Proof. by destruct s. Qed.

Lemma save_draft_ok draft expected now io s disk :
  notify_ok s → 0 ≤ fp_maximum_attempts (ru_failure draft) →
  ∃ r s' disk', save_draft base overrides json_len draft expected now io s disk = Ret (r, s', disk') ∧
    steps 0 s s' ∧ s_rate_windows s' = s_rate_windows s.
Proof.
  intros Hok Ht. unfold save_draft. case_match eqn:Hcheck.
  2:{ eexists _, s, _. split_and!; [done|by apply steps_refl|done]. }
  set (rec := draft_record _ _ _ _). set (rules := <[ru_id draft := rec]> (s_rules s)).
  apply rbind_Ok in Hcheck as (_ & _ & Hcheck). apply rbind_Ok in Hcheck as (rev & Hrev & _).
  assert (map_Forall record_ok rules) as Hrules.
  { apply map_Forall_insert_2; [|by apply (no_records s)]. constructor; [|done..]. intros r Hr.
    destruct (s_rules s !! ru_id draft) as [record|] eqn:E; [|done]. by apply (no_records s Hok _ _ E). }
  assert (Z.of_nat (size rules) ≤ MAX_RULES) as Hsize.
  { pose proof (no_rules s Hok). unfold rules, next_draft_revision in *.
    destruct (s_rules s !! ru_id draft) as [record|] eqn:E; [by rewrite map_size_insert_Some by (by eexists)|].
    rewrite map_size_insert_None by done. case_match; [|done].
    destruct (Z.ltb_spec (Z.of_nat (size (s_rules s))) MAX_RULES); [lia|done]. }
  destruct (persist_ok io rules disk Hrules) as (v & disk' & -> & Hv). cbn [obind]. destruct v as [rules'|e].
  - destruct (Hv rules' eq_refl) as [Hdom Hok'].
    assert (is_Some (rules' !! ru_id draft)) as [record Hrec].
    { apply elem_of_dom. rewrite Hdom. apply elem_of_dom. unfold rules. rewrite lookup_insert_eq. by eexists. }
    rewrite Hrec. destruct (resolve_record_total (env_at base overrides io (dk_secrets disk')) record) as [w ->]. cbn [obind].
    eexists _, _, _. split; [done|]. split; [|done]. apply steps_set_rules; [done| |done]. by rewrite (size_dom_eq _ _ Hdom).
  - assert (restore_rule rules (ru_id draft) (s_rules s !! ru_id draft) = s_rules s) as ->.
    { unfold restore_rule, rules. destruct (s_rules s !! ru_id draft) as [record|] eqn:E.
      - rewrite insert_insert_eq. by apply insert_id.
      - by apply delete_insert_id. }
    rewrite set_s_rules_id. eexists _, s, _. split_and!; [done|by apply steps_refl|done].
Qed.

Lemma current_record_Ok s id owner active draft record :
  current_record s id owner active draft = Ok record →
  s_rules s !! id = Some record ∧ rr_owner_id record = owner ∧ rr_active_revision record = active ∧ rr_draft_revision record = draft.
Proof.
  unfold current_record. destruct (s_rules s !! id) as [record'|]; [|done].
  intros ([] & Ho & H)%rbind_Ok. apply rbind_Ok in H as ([] & Hr & [= <-]).
  unfold ensure_owner, ensure_revisions in *. unfold str_eqb in Ho. case_bool_decide; [|done].
  destruct ((rr_active_revision record' =? active) && (rr_draft_revision record' =? draft)) eqn:E; [|done].
  apply andb_true_iff in E as [E1%Z.eqb_eq E2%Z.eqb_eq]. by split_and!.
Qed.

Lemma next_active_ok env previous k :
  record_ok k previous → ∃ v, next_active env previous = Ret v ∧
    ∀ active revision, v = Ok (active, revision) → ru_id active = k ∧ rule_ok active.
Proof.
  intros [_ Hd Ht]. unfold next_active.
  destruct (resolve_rule_total env (rr_draft previous)) as (v & -> & Hv). cbn [obind]. destruct v as [r|]; [|by eexists].
  destruct (Hv r eq_refl) as (Hid & Hf & _).
  destruct (rule_validate_total (ne_zones env) (ne_parsers env) r) as [w Hw]. rewrite Hw. cbn [obind].
  eexists. split; [done|]. intros active revision ([] & -> & H)%rbind_Ok.
  destruct (checked_add u64_max (rr_active_revision previous) 1); [|done]. injection H as <- <-.
  split; [by rewrite Hid|]. eapply rule_validate_ok; [by rewrite Hf|done].
Qed.

Lemma activate_ok id owner active draft now io s disk :
  notify_ok s → room MAX_OUTBOX s →
  ∃ r s' disk', activate base overrides json_len id owner active draft now io s disk = Ret (r, s', disk') ∧
    steps MAX_OUTBOX s s' ∧ s_rate_windows s' = s_rate_windows s.
Proof.
  intros Hok Hroom. unfold activate.
  destruct (current_record s id owner active draft) as [previous|e] eqn:Hcur.
  2:{ eexists _, s, _. split_and!; [done|by apply steps_refl|done]. }
  apply current_record_Ok in Hcur as (Hprev & _).
  destruct (next_active_ok (env_at base overrides io (dk_secrets disk)) previous id) as (v & -> & Hv); [by apply (no_records s)|].
  cbn [obind]. destruct v as [[r revision]|]; [|eexists _, s, _; split_and!; [done|by apply steps_refl|done]].
  destruct (Hv r revision eq_refl) as [Hid Hr]. set (rules := <[id := _]> (s_rules s)).
  assert (map_Forall record_ok rules) as Hrules.
  { apply map_Forall_insert_2; [|by apply (no_records s)]. destruct (no_records s Hok _ _ Hprev) as [Ha Hd Ht].
    constructor; [|done..]. intros ? [= <-]. split; [done|]. by destruct Hr as [? ?]; constructor. }
  assert (size rules = size (s_rules s)) as Hsize by (unfold rules; by rewrite map_size_insert_Some by (by eexists)).
  destruct (persist_ok io rules disk Hrules) as (w & disk' & -> & Hw). cbn [obind]. destruct w as [rules'|e].
  - destruct (Hw rules' eq_refl) as [Hdom Hok'].
    assert (is_Some (rules' !! id)) as [record Hrec].
    { apply elem_of_dom. rewrite Hdom. apply elem_of_dom. unfold rules. rewrite lookup_insert_eq. by eexists. }
    rewrite Hrec. assert (steps 0 s (set_s_rules rules' s)) as H1.
    { apply steps_set_rules; [done| |done]. rewrite (size_dom_eq _ _ Hdom), Hsize. apply (no_rules s Hok). }
    destruct (cancel_disabled_ok id (rr_active record) now (set_s_rules rules' s)) as (n & s2 & -> & H2 & Ew);
      [apply H1|by eapply room_after; [done|apply H1|]|]. cbn [obind].
    destruct (resolve_record_total (env_at base overrides io (dk_secrets disk')) record) as [x ->]. cbn [obind].
    eexists _, _, _. split; [done|]. split; [by eapply steps_zero_trans|done].
  - assert (<[id := previous]> rules = s_rules s) as -> by (unfold rules; rewrite insert_insert_eq; by apply insert_id).
    rewrite set_s_rules_id. eexists _, s, _. split_and!; [done|by apply steps_refl|done].
Qed.

Lemma delete_rule_ok id owner active draft now io s disk :
  notify_ok s → room MAX_OUTBOX s →
  ∃ r s' disk', delete_rule base overrides json_len id owner active draft now io s disk = Ret (r, s', disk') ∧
    steps MAX_OUTBOX s s' ∧ s_rate_windows s' = s_rate_windows s.
Proof.
  intros Hok Hroom. unfold delete_rule.
  destruct (current_record s id owner active draft) as [previous|e] eqn:Hcur.
  2:{ eexists _, s, _. split_and!; [done|by apply steps_refl|done]. }
  apply current_record_Ok in Hcur as (Hprev & _).
  assert (map_Forall record_ok (delete id (s_rules s))) as Hrules by (apply map_Forall_delete, (no_records s Hok)).
  destruct (persist_ok io (delete id (s_rules s)) disk Hrules) as (w & disk' & -> & Hw). cbn [obind]. destruct w as [rules'|e].
  - destruct (Hw rules' eq_refl) as [Hdom Hok']. assert (steps 0 s (set_s_rules rules' s)) as H1.
    { apply steps_set_rules; [done| |done]. rewrite (size_dom_eq _ _ Hdom). pose proof (no_rules s Hok).
      pose proof (map_subseteq_size _ _ (delete_subseteq (s_rules s) id)). lia. }
    destruct (cancel_disabled_ok id None now (set_s_rules rules' s)) as (n & s2 & -> & H2 & Ew);
      [apply H1|by eapply room_after; [done|apply H1|]|]. cbn [obind].
    eexists _, _, _. split; [done|]. split; [by eapply steps_zero_trans|done].
  - assert (<[id := previous]> (delete id (s_rules s)) = s_rules s) as -> by (rewrite insert_delete_eq; by apply insert_id).
    rewrite set_s_rules_id. eexists _, s, _. split_and!; [done|by apply steps_refl|done].
Qed.
End notify_store.

(** ** The inbox *)

Section notify_inbox.
Context (order : gmap OperationalIntervalKey OperationalInterval →
  list (OperationalIntervalKey * OperationalInterval)).

Lemma steps_set_receipts m s :
  notify_ok s → dom m = dom (s_receipts s) → steps 0 s (set_s_receipts m s).
Proof.
  intros Hok Hm. destruct Hok as [R A L I U S C V H T P O]. constructor; [|constructor; cbn; lia|by apply evolves_eq].
  assert (∀ k, is_Some (m !! k) → is_Some (s_receipts s !! k)) as Hd by (intros k; by rewrite <-!elem_of_dom, Hm).
  constructor; try done; [apply (items_ok_ext s); [by apply keeps_eq|cbn; lia|done]| |]; cbn.
  - intros k r Hr. destruct (Hd k) as [r' Hr']; [by eexists|]. by apply (P k r').
  - intros id a b Ha Hb. apply (O id); by apply Hd.
Qed.

Lemma inbox_update_ok id principal update now s :
  notify_ok s → windows_bounded s →
  ∃ r s', update_receipt order id principal update now s = Ret (r, s') ∧ steps 0 s s' ∧ windows_bounded s'.
Proof.
  intros Hok Hw. unfold update_receipt. case_match; [eexists _, s; split_and!; [done|by apply steps_refl|done]|].
  destruct (s_receipts s !! (id, principal)) as [receipt|] eqn:Hr; [|eexists _, s; split_and!; [done|by apply steps_refl|done]].
  match goal with |- context [prune order now ?s'] => set (s1 := s') end.
  assert (steps 0 s s1) as H1.
  { apply steps_set_receipts; [done|]. rewrite dom_insert_L. apply elem_of_dom_2 in Hr. set_solver. }
  destruct (prune_ok order now s1) as (s2 & -> & H2 & Hw2 & _); [apply H1|]. cbn [obind].
  eexists _, s2. split; [done|]. split; [by eapply steps_zero_trans|done].
Qed.

Lemma clear_scope_ok principal scope now s :
  notify_ok s → ∃ r s', clear_scope order principal scope now s = Ret (r, s') ∧ steps 0 s s' ∧ windows_bounded s'.
Proof.
  intros Hok. unfold clear_scope. set (keys := fst <$> _). set (receipts := foldl _ _ keys).
  assert (dom receipts = dom (s_receipts s)) as Hdom.
  { unfold receipts. clear. generalize (s_receipts s). induction keys as [|k keys IH]; intros m; cbn; [done|].
    rewrite IH. by rewrite dom_alter_L. }
  destruct (prune_ok order now (set_s_receipts receipts s)) as (s2 & -> & H2 & Hw2 & _);
    [by apply steps_set_receipts|]. cbn [obind].
  eexists _, s2. split; [done|]. split; [|done]. by eapply steps_zero_trans; [by apply steps_set_receipts|].
Qed.
End notify_inbox.
