(* ===== verification/NotifyDisk.v ===== *)
(** * Rules and their secrets on disk

    What a successful save leaves in the two files: every destination resolves to what
    was saved, and a restart loads the rules again. *)

From S2P Require Import Prelude CameraEvent NotifyModel NotifyState NotifyProcess NotifyDelivery NotifyStore NotifyInv NotifyInbox NotifyPrune NotifySteps NotifyStoreInv.

(** ** Strings *)

Definition char_in (c : Ascii.ascii) (s : string) : bool := bool_decide (Z.of_N (Ascii.N_of_ascii c) ∈ bytes_of s).

Lemma append_cons c p s : String c p +:+ s = String c (p +:+ s).
Proof. done. Qed.
Lemma str_prefix_app p s : str_prefix p (p +:+ s) = true.
Proof.
  induction p as [|c p IH]; [by destruct s|]. rewrite append_cons. cbn [str_prefix].
  by rewrite bool_decide_true, IH.
Qed.
Lemma str_skip_app p s : str_skip (String.length p) (p +:+ s) = s.
Proof. induction p as [|c p IH]; [by destruct s|]. by rewrite append_cons. Qed.
Lemma str_split_once_head p s : p ≠ "" → str_split_once p (p +:+ s) = Some ("", s).
Proof.
  intros Hp. destruct p as [|c p]; [done|]. pose proof (str_prefix_app (String c p) s) as H.
  pose proof (str_skip_app (String c p) s) as H'. rewrite append_cons in *.
  cbn [str_split_once]. rewrite H. by rewrite H'.
Qed.

Lemma str_prefix_char c d s : str_prefix (String c "") (String d s) = bool_decide (c = d).
Proof. cbn [str_prefix]. by rewrite andb_true_r. Qed.
Lemma char_in_cons c d s : char_in c (String d s) = false → c ≠ d ∧ char_in c s = false.
Proof.
  unfold char_in. intros H%bool_decide_eq_false. cbn [bytes_of] in H. rewrite elem_of_cons in H.
  split; [intros ->; apply H; by left|]. apply bool_decide_eq_false. intros Hs. apply H. by right.
Qed.

Lemma str_split_once_absent c s : char_in c s = false → str_split_once (String c "") s = None.
Proof.
  induction s as [|d s IH]; [done|]. intros [Hd Hs]%char_in_cons. cbn [str_split_once].
  rewrite str_prefix_char, bool_decide_false by done. by rewrite IH.
Qed.
Lemma str_split_once_first c s t :
  char_in c s = false → str_split_once (String c "") (s +:+ String c t) = Some (s, t).
Proof.
  induction s as [|d s IH].
  { intros _. change ("" +:+ String c t) with (String c "" +:+ t). by apply str_split_once_head. }
  intros [Hd Hs]%char_in_cons. rewrite append_cons. cbn [str_split_once].
  rewrite str_prefix_char, bool_decide_false by done. by rewrite IH.
Qed.

Lemma strip_last_Some c s t : strip_last c s = Some t → s = t +:+ String c "".
Proof.
  revert t. induction s as [|d s IH]; intros t; [done|]. cbn [strip_last]. destruct s as [|e s].
  - case_bool_decide as H; [|done]. by intros [= <-]; subst d.
  - intros (t' & Ht & ->)%fmap_Some. by rewrite (IH t' Ht).
Qed.
Lemma str_prefix_Some p s : str_prefix p s = true → s = p +:+ str_skip (String.length p) s.
Proof.
  revert s. induction p as [|c p IH]; intros s; [by destruct s|]. destruct s as [|d s]; [done|]. cbn [str_prefix].
  intros [Hc%bool_decide_eq_true Hp]%andb_true_iff. subst d. rewrite append_cons. cbn [String.length str_skip]. f_equal. by apply IH.
Qed.
Lemma reference_body_Some value body : reference_body value = Some body → value = reference_to body.
Proof.
  unfold reference_body, str_strip_prefix, reference_to.
  destruct (str_prefix "{secret:" value) eqn:Hp; [|done]. cbn [mbind option_bind].
  intros Hb%strip_last_Some. rewrite (str_prefix_Some _ _ Hp) at 1. by rewrite Hb.
Qed.

(** Keys hold none of the delimiters. *)
Definition key_byte (b : Z) : bool := is_ascii_uppercase b || is_ascii_digit b || (b =? 95).
Lemma valid_secret_key_chars c key :
  valid_secret_key key = true → key_byte (Z.of_N (Ascii.N_of_ascii c)) = false → char_in c key = false.
Proof.
  unfold valid_secret_key, char_in. intros H Hc. apply bool_decide_eq_false. intros Hin.
  destruct (bytes_of key) as [|b rest]; [done|]. apply andb_true_iff in H as [Hb Hrest].
  apply elem_of_cons in Hin as [Heq|Hin].
  - rewrite Heq in Hc. unfold key_byte in Hc. apply orb_true_iff in Hb as [Hb|Hb]; by rewrite Hb, ?orb_true_r in Hc.
  - rewrite forallb_forall in Hrest. apply list_elem_of_In, Hrest in Hin. unfold key_byte in Hc. by rewrite Hc in Hin.
Qed.

(** ** Resolving one reference *)

Lemma append_nil_r s : s +:+ "" = s.
Proof. induction s as [|c s IH]; [done|]. by rewrite append_cons, IH. Qed.

(** A reference without a closing brace in its body resolves to the value of its body. *)
Lemma resolve_reference env body :
  ne_secrets env = Ok tt → char_in close_brace body = false →
  resolve_secret_references env (reference_to body) = Ret (secret_value env body).
Proof.
  intros Hs Hb. unfold resolve_secret_references. rewrite Hs.
  set (n := String.length (reference_to body)). assert (∃ m, n = S m) as [m ->] by (by eexists).
  unfold reference_to. cbn [resolve_loop]. rewrite str_split_once_head by done.
  change "}" with (String close_brace ""). rewrite (str_split_once_first close_brace body "") by done.
  destruct (secret_value env body) as [v|e]; [|done].
  change (str_split_once "{secret:" "") with (@None (string * string)). cbn [obind rbind]. by rewrite append_nil_r.
Qed.
Lemma resolve_empty env : ne_secrets env = Ok tt → resolve_secret_references env "" = Ret (Ok "").
Proof. intros Hs. unfold resolve_secret_references. by rewrite Hs. Qed.

(** The key a body names. *)
Definition body_key (body : string) : string :=
  match str_split_once "|" body with Some (key, _) => key | None => body end.
Lemma secret_value_ext env env' body :
  ne_secret env (body_key body) = ne_secret env' (body_key body) → secret_value env body = secret_value env' body.
Proof. unfold secret_value, body_key. destruct (str_split_once "|" body) as [[key modifier]|]; by intros ->. Qed.

Lemma str_split_once_Some c s a b :
  str_split_once (String c "") s = Some (a, b) → s = a +:+ String c b.
Proof.
  revert a. induction s as [|d s IH]; intros a; [done|]. cbn [str_split_once]. rewrite str_prefix_char.
  case_bool_decide as Hd.
  - subst d. cbn [String.length str_skip]. by intros [= <- <-].
  - intros ([a' b'] & H & [= -> ->])%fmap_Some. cbn [fst snd]. by rewrite (IH a' H), append_cons.
Qed.
Lemma char_in_app c s t : char_in c (s +:+ t) = char_in c s || char_in c t.
Proof.
  unfold char_in. assert (bytes_of (s +:+ t) = bytes_of s ++ bytes_of t) as ->.
  { induction s as [|d s IH]; [done|]. rewrite append_cons. cbn [bytes_of]. by rewrite IH. }
  apply eq_true_iff_eq. rewrite orb_true_iff, !bool_decide_eq_true. by rewrite elem_of_app.
Qed.

(** What a user's reference looks like. *)
Lemma is_secret_reference_inv value :
  is_secret_reference value = true → ∃ body, value = reference_to body ∧ reference_body value = Some body ∧
    char_in close_brace body = false ∧ valid_secret_key (body_key body) = true ∧ ∃ rest, body = body_key body +:+ rest.
Proof.
  unfold is_secret_reference. destruct (reference_body value) as [body|] eqn:Hb; [|done]. intros H.
  exists body. split; [by apply reference_body_Some|]. split; [done|]. unfold body_key.
  destruct (str_split_once "|" body) as [[key modifier]|] eqn:Hs; apply andb_true_iff in H as [Hk Hm].
  - apply str_split_once_Some in Hs as Hbody. cbn in Hm. unfold str_eqb in Hm. apply bool_decide_eq_true in Hm. subst modifier.
    split_and!; [|done|by eexists]. rewrite Hbody, char_in_app.
    rewrite (valid_secret_key_chars close_brace key) by done. by vm_compute.
  - split_and!; [|done|exists ""; by rewrite append_nil_r]. by apply valid_secret_key_chars.
Qed.

Lemma strip_last_app c s : strip_last c (s +:+ String c "") = Some s.
Proof.
  induction s as [|d s IH].
  { change ("" +:+ String c "") with (String c ""). cbn [strip_last]. by rewrite bool_decide_true. }
  rewrite append_cons. destruct (s +:+ String c "") as [|e t] eqn:E; [by destruct s|].
  change (strip_last c (String d (String e t))) with (String d <$> strip_last c (String e t)). by rewrite IH.
Qed.
Lemma reference_body_to body : reference_body (reference_to body) = Some body.
Proof.
  unfold reference_body, reference_to, str_strip_prefix. rewrite str_prefix_app, str_skip_app. cbn [mbind option_bind].
  apply strip_last_app.
Qed.
Lemma managed_reference key :
  str_prefix NOTIFICATION_SECRET_PREFIX key = true → managed_secret_key (reference_to key) = Some key.
Proof. intros H. unfold managed_secret_key. rewrite reference_body_to. cbn [mbind option_bind]. by rewrite H. Qed.
Lemma managed_inv value key :
  managed_secret_key value = Some key → value = reference_to key ∧ str_prefix NOTIFICATION_SECRET_PREFIX key = true.
Proof.
  unfold managed_secret_key. destruct (reference_body value) as [body|] eqn:Hb; [|done]. cbn [mbind option_bind].
  destruct (str_prefix NOTIFICATION_SECRET_PREFIX body) eqn:Hp; [|done]. intros [= <-]. split; [by apply reference_body_Some|done].
Qed.
Lemma str_prefix_extend p s t : str_prefix p s = true → str_prefix p (s +:+ t) = true.
Proof.
  revert s. induction p as [|c p IH]; intros s; [by destruct (s +:+ t)|]. destruct s as [|d s]; [done|].
  rewrite append_cons. cbn [str_prefix]. intros [Hc Hp]%andb_true_iff. by rewrite Hc, IH.
Qed.

(** ** What was saved is what is read back *)

Section notify_disk.
Context (base : NotifyEnv) (overrides : string → result string (option string)) (json_len : Rule → Z).
Context (io : StoreIo).

Notation at_secrets := (env_at base overrides io).

(** A destination given in the clear. *)
Definition plain (d : string) : bool :=
  negb (str_is_empty d) && is_none (managed_secret_key d) && negb (is_secret_reference d).
(** What a destination stands for when it is saved. *)
Definition intended (env : NotifyEnv) (d : string) : outcome (result string string) :=
  if plain d then Ret (Ok d) else resolve_secret_references env d.

(** [d'] is what is written for [d], with [pairs] as the stored secrets. *)
Definition written (env : NotifyEnv) (pairs : list (string * string)) (d d' : string) : Prop :=
  (d' = d ∧ (d = "" ∨ (managed_secret_key d = None ∧ is_secret_reference d = true)))
  ∨ ∃ key v, (key, v) ∈ pairs ∧ managed_secret_key d' = Some key ∧ intended env d = Ret (Ok v).

Lemma key_prefix id version revision index :
  str_prefix NOTIFICATION_SECRET_PREFIX (notification_secret_key base id version revision index) = true.
Proof. apply str_prefix_app. Qed.

Lemma externalize_action_inv env id version revision index a a' stored pairs :
  externalize_action base env id version revision index a = Ret (Ok (a', stored)) → stored ⊆ pairs →
  a' = set_destination a (ac_destination a') ∧ written env pairs (ac_destination a) (ac_destination a').
Proof.
  unfold externalize_action. intros H Hsub. assert (a = set_destination a (ac_destination a)) as Ha by by destruct a.
  destruct (str_is_empty (ac_destination a)) eqn:He.
  { injection H as <- <-. split; [done|]. left. split; [done|]. left. by destruct (ac_destination a). }
  destruct (managed_secret_key (ac_destination a)) as [key|] eqn:Hm.
  { destruct (resolve_secret_references env (ac_destination a)) as [v|] eqn:Hr; [|done]. cbn [obind] in H.
    destruct v as [v|]; [|done]. injection H as <- <-. split; [done|]. right. exists key, v. split_and!; [set_solver|done|].
    unfold intended, plain. by rewrite He, Hm. }
  destruct (is_secret_reference (ac_destination a)) eqn:Hr.
  { injection H as <- <-. split; [done|]. left. split; [done|]. by right. }
  injection H as <- <-. split; [done|]. right. eexists _, (ac_destination a). split_and!.
  - apply Hsub. by apply list_elem_of_singleton.
  - cbn. apply managed_reference, key_prefix.
  - unfold intended, plain. by rewrite He, Hm, Hr.
Qed.

Definition written_action env pairs (a a' : RuleAction) : Prop :=
  a' = set_destination a (ac_destination a') ∧ written env pairs (ac_destination a) (ac_destination a').

Lemma externalize_loop_inv env id version revision index l l' stored pairs :
  externalize_loop base env id version revision index l = Ret (Ok (l', stored)) → stored ⊆ pairs →
  Forall2 (written_action env pairs) l l'.
Proof.
  revert index l' stored. induction l as [|a l IH]; intros index l' stored; cbn [externalize_loop]; [by intros [= <- <-]|].
  destruct (externalize_action base env id version revision index a) as [[[a1 st]|]|] eqn:Ha; [|done|done]. cbn [obind].
  destruct (externalize_loop base env id version revision (index + 1) l) as [[[l1 rest]|]|] eqn:Hl; [|done|done]. cbn [obind rbind].
  intros [= <- <-] Hsub. constructor.
  - eapply externalize_action_inv; [exact Ha|set_solver].
  - eapply IH; [exact Hl|set_solver].
Qed.

(** A rule and what is written for it. *)
Definition written_rule env pairs (r r' : Rule) : Prop :=
  r' = set_actions r (ru_actions r') ∧ Forall2 (written_action env pairs) (ru_actions r) (ru_actions r').
Lemma externalize_destinations_inv env id version r r' stored pairs :
  externalize_destinations base env id version r = Ret (Ok (r', stored)) → stored ⊆ pairs → written_rule env pairs r r'.
Proof.
  unfold externalize_destinations.
  destruct (externalize_loop base env id version (ru_revision r) 0 (ru_actions r)) as [[[l st]|]|] eqn:Hl; [|done|done].
  cbn [obind rbind]. intros [= <- <-] Hsub. split; [done|]. by eapply externalize_loop_inv.
Qed.
Definition written_record env pairs (record record' : RuleRecord) : Prop :=
  record' = set_versions record (rr_active record') (rr_draft record') ∧
  written_rule env pairs (rr_draft record) (rr_draft record') ∧
  option_Forall2 (written_rule env pairs) (rr_active record) (rr_active record').
Lemma externalize_record_inv env record record' stored pairs :
  externalize_record base env record = Ret (Ok (record', stored)) → stored ⊆ pairs → written_record env pairs record record'.
Proof.
  unfold externalize_record. destruct (externalize_active base env record) as [[[active st]|]|] eqn:Ha; [|done|done]. cbn [obind].
  destruct (externalize_destinations base env (rr_id record) "DRAFT" (rr_draft record)) as [[[draft rest]|]|] eqn:Hd; [|done|done].
  cbn [obind rbind]. intros [= <- <-] Hsub. split; [done|]. split.
  - eapply externalize_destinations_inv; [exact Hd|set_solver].
  - cbn. unfold externalize_active in Ha. destruct (rr_active record) as [r|]; [|injection Ha as <- <-; constructor].
    destruct (externalize_destinations base env (rr_id record) "ACTIVE" r) as [[[r' st']|]|] eqn:Hr; [|done|done].
    cbn [obind rbind] in Ha. injection Ha as <- <-. constructor. eapply externalize_destinations_inv; [exact Hr|set_solver].
Qed.
Lemma externalize_records_inv env l l' stored pairs :
  externalize_records base env l = Ret (Ok (l', stored)) → stored ⊆ pairs →
  Forall2 (λ p q : string * RuleRecord, q.1 = p.1 ∧ written_record env pairs p.2 q.2) l l'.
Proof.
  revert l' stored. induction l as [|[k record] l IH]; intros l' stored; cbn [externalize_records]; [by intros [= <- <-]|].
  destruct (externalize_record base env record) as [[[record' st]|]|] eqn:Hr; [|done|done]. cbn [obind].
  destruct (externalize_records base env l) as [[[l1 rest]|]|] eqn:Hl; [|done|done]. cbn [obind rbind].
  intros [= <- <-] Hsub. constructor.
  - split; [done|]. eapply externalize_record_inv; [exact Hr|set_solver].
  - eapply IH; [done|set_solver].
Qed.

(** *** Reading a written destination *)

(** [secrets] holds the stored pairs and agrees with [original] on the user's keys. *)
Record holds (original secrets : gmap string string) (pairs : list (string * string)) : Prop := {
  ho_pairs : ∀ key v, (key, v) ∈ pairs → secrets !! key = Some v;
  ho_valid : ∀ key v, (key, v) ∈ pairs → valid_secret_key key = true;
  ho_user : ∀ key, str_prefix NOTIFICATION_SECRET_PREFIX key = false → secrets !! key = original !! key
}.

Lemma body_key_valid key : valid_secret_key key = true → body_key key = key.
Proof.
  intros Hk. unfold body_key.
  assert (str_split_once "|" key = None) as -> by (by apply (str_split_once_absent (Ascii.ascii_of_N 124)), valid_secret_key_chars).
  done.
Qed.

(** The environment does not override managed keys. *)
Context (Hov : ∀ key, str_prefix NOTIFICATION_SECRET_PREFIX key = true → overrides key = Ok None).
Context (Hload : io_load io = Ok tt).

Lemma written_resolves original secrets pairs d d' :
  holds original secrets pairs → written (at_secrets original) pairs d d' →
  resolve_secret_references (at_secrets secrets) d' = intended (at_secrets original) d.
Proof.
  intros [Hp Hv Hu] [[-> Hd]|(key & v & Hin & Hm & Hi)].
  - unfold intended, plain. destruct Hd as [->|[Hm Hr]]; [by rewrite !resolve_empty|].
    rewrite Hr, !andb_false_r. destruct (is_secret_reference_inv d Hr) as (body & -> & Hb & Hc & Hk & rest & Hrest).
    rewrite !resolve_reference by done. f_equal. apply secret_value_ext. cbn. rewrite Hu; [done|].
    apply not_true_is_false. intros Hpre. unfold managed_secret_key in Hm. rewrite Hb in Hm. cbn [mbind option_bind] in Hm.
    rewrite Hrest, (str_prefix_extend _ _ rest Hpre) in Hm. done.
  - rewrite Hi. apply managed_inv in Hm as [-> Hpre]. specialize (Hv _ _ Hin). specialize (Hp _ _ Hin).
    rewrite resolve_reference; [|done|by apply valid_secret_key_chars]. unfold secret_value.
    assert (str_split_once "|" key = None) as -> by (by apply (str_split_once_absent (Ascii.ascii_of_N 124)), valid_secret_key_chars).
    rewrite Hv. cbn [ensure rbind ne_secret env_at]. rewrite Hov by done. cbn [rbind]. by rewrite Hp.
Qed.

(** *** Reading a written rule *)

(** What a rule stands for when it is saved. *)
Fixpoint intended_actions (env : NotifyEnv) (l : list RuleAction) : outcome (result string (list RuleAction)) :=
  match l with
  | [] => Ret (Ok [])
  | a :: l' =>
      let! r := intended env (ac_destination a) in
      match r with
      | Err err => Ret (Err err)
      | Ok destination =>
          let! r := intended_actions env l' in
          Ret (let? actions := r in Ok (set_destination a destination :: actions))
      end
  end.
Definition intended_rule (env : NotifyEnv) (r : Rule) : outcome (result string Rule) :=
  let! actions := intended_actions env (ru_actions r) in
  Ret (let? actions := actions in Ok (set_actions r actions)).

Lemma written_rule_resolves original secrets pairs r r' :
  holds original secrets pairs → written_rule (at_secrets original) pairs r r' →
  resolve_rule_destinations (at_secrets secrets) r' = intended_rule (at_secrets original) r.
Proof.
  intros Hh [Hr Hl]. unfold resolve_rule_destinations, intended_rule.
  assert (resolve_actions (at_secrets secrets) (ru_actions r') = intended_actions (at_secrets original) (ru_actions r)) as ->.
  { clear Hr. induction Hl as [|a a' l l' [Ha Hw] Hl IH]; [done|]. cbn [resolve_actions intended_actions].
    rewrite (written_resolves original secrets pairs _ _ Hh Hw), IH.
    destruct (intended (at_secrets original) (ac_destination a)) as [[d|]|]; [|done|done]. cbn [obind].
    rewrite Ha. done. }
  rewrite Hr. done.
Qed.

(** The two sets of secrets a write goes through validate alike. *)
Lemma validate_persisted_same original s1 s2 pairs record record' :
  holds original s1 pairs → holds original s2 pairs → written_record (at_secrets original) pairs record record' →
  validate_persisted_rule json_len (at_secrets s1) (persisted_of record') =
  validate_persisted_rule json_len (at_secrets s2) (persisted_of record').
Proof.
  intros H1 H2 (_ & _ & Ha). unfold validate_persisted_rule. cbn [pe_active persisted_of].
  inversion Ha as [r r' Hr E1 E2|E1 E2]; [|done].
  rewrite (written_rule_resolves _ _ _ _ _ H1 Hr), (written_rule_resolves _ _ _ _ _ H2 Hr). done.
Qed.

Lemma validate_records_same original s1 s2 pairs l l' seen :
  holds original s1 pairs → holds original s2 pairs →
  Forall2 (λ p q : string * RuleRecord, q.1 = p.1 ∧ written_record (at_secrets original) pairs p.2 q.2) l l' →
  validate_records json_len (at_secrets s1) seen ((λ p : string * RuleRecord, persisted_of p.2) <$> l') =
  validate_records json_len (at_secrets s2) seen ((λ p : string * RuleRecord, persisted_of p.2) <$> l').
Proof.
  intros H1 H2 Hl. revert seen. induction Hl as [|p q l l' [_ Hw] Hl IH]; intros seen; [done|].
  rewrite fmap_cons. cbn [validate_records].
  rewrite (validate_persisted_same original s1 s2 pairs p.2 q.2 H1 H2 Hw). unfold then_check. f_equal.
  rewrite IH. done.
Qed.

(** *** Loading what was validated *)

Lemma load_records_validated env seen m l :
  validate_records json_len env seen l = Ret (Ok tt) → (∀ id, str_mem id seen = false → m !! id = None) →
  load_records json_len env m l = Ret (Ok (foldl (λ m p, <[pe_id p := record_of p]> m) m l)) ∧
  NoDup (pe_id <$> l) ∧ (∀ p, p ∈ l → str_mem (pe_id p) seen = false).
Proof.
  revert seen m. induction l as [|p l IH]; intros seen m H Hs; cbn [validate_records load_records foldl] in *.
  { split_and!; [done|constructor|by intros p ?%elem_of_nil]. }
  unfold then_check in H. destruct (validate_persisted_rule json_len env p) as [[[]|]|]; [|done|done]. cbn [obind] in *.
  destruct (str_mem (pe_id p) seen) eqn:Hm; [done|]. rewrite (Hs _ Hm). cbn [is_none].
  assert (∀ id, str_mem id (pe_id p :: seen) = str_eqb id (pe_id p) || str_mem id seen) as Hcons by done.
  destruct (IH (pe_id p :: seen) (<[pe_id p := record_of p]> m) H) as (-> & Hn & Hin).
  { intros id Hid. rewrite Hcons in Hid. apply orb_false_iff in Hid as [He Hid]. unfold str_eqb in He.
    apply bool_decide_eq_false in He. rewrite lookup_insert_ne by done. by apply Hs. }
  split; [done|]. split.
  - rewrite fmap_cons. apply NoDup_cons. split; [|done]. intros (q & Hq & Hql)%list_elem_of_fmap.
    specialize (Hin q Hql). rewrite Hcons, <-Hq in Hin. unfold str_eqb in Hin. by rewrite bool_decide_true in Hin.
  - intros q [->|Hq]%elem_of_cons; [done|]. specialize (Hin q Hq). rewrite Hcons in Hin. by apply orb_false_iff in Hin as [_ Hin].
Qed.

Lemma foldl_insert_map {A V} (f : A → string) (g : A → V) l (m : gmap string V) :
  NoDup (f <$> l) → foldl (λ m a, <[f a := g a]> m) m l = list_to_map ((λ a, (f a, g a)) <$> l) ∪ m.
Proof.
  revert m. induction l as [|a l IH]; intros m Hn; cbn [foldl]; [symmetry; apply (left_id_L ∅ (∪))|].
  rewrite fmap_cons in Hn. apply NoDup_cons in Hn as [Ha Hn]. rewrite IH by done. rewrite fmap_cons, list_to_map_cons.
  rewrite <-insert_union_l. symmetry. apply insert_union_r. apply not_elem_of_list_to_map.
  rewrite <-list_fmap_compose. exact Ha.
Qed.
End notify_disk.

(** *** The outcome of a write *)

Section write.
Context (base : NotifyEnv) (overrides : string → result string (option string)) (json_len : Rule → Z).

Definition staged_secrets (original values : gmap string string) : gmap string string := extend original values.
Definition current_secrets (original values : gmap string string) : gmap string string :=
  extend (filter (λ p, str_prefix NOTIFICATION_SECRET_PREFIX p.1 = false) original) values.

(** What a failed save leaves: the files before it, except that a file may have been
    replaced by a write whose directory could not be synced, and that the secrets may
    still be the staged ones when they could not be rolled back. *)
Record failed_write (io : StoreIo) (rules : list PersistedRule) (values : gmap string string) (disk disk' : Disk) : Prop := {
  fw_rules : dk_rules disk' = dk_rules disk ∨ (dk_rules disk' = rules ∧ ∃ err, io_write io = SyncFailed err);
  fw_secrets : dk_secrets disk' = dk_secrets disk ∨ (dk_secrets disk' = staged_secrets (dk_secrets disk) values ∧
    ((∃ err, io_staged io = SyncFailed err) ∨ ∃ err, io_rollback io = WriteFailed err))
}.

Lemma write_managed_inv io rules values disk r disk' :
  write_with_managed_secrets base overrides json_len io rules values disk = Ret (r, disk') →
  match r with
  | Ok _ => io_load io = Ok tt ∧
      (∀ key v, values !! key = Some v → str_prefix NOTIFICATION_SECRET_PREFIX key = true ∧ valid_secret_key key = true) ∧
      dk_rules disk' = rules ∧
      (dk_secrets disk' = staged_secrets (dk_secrets disk) values ∨ dk_secrets disk' = current_secrets (dk_secrets disk) values) ∧
      validate_configuration json_len (env_at base overrides io (staged_secrets (dk_secrets disk) values)) rules = Ret (Ok tt)
  | Err _ => failed_write io rules values disk disk'
  end.
Proof.
  unfold write_with_managed_secrets. fold (staged_secrets (dk_secrets disk) values).
  fold (current_secrets (dk_secrets disk) values).
  set (staged := staged_secrets (dk_secrets disk) values). set (current := current_secrets (dk_secrets disk) values).
  destruct (let? _ := ensure (forallb _ _) _ in _) as [u|e] eqn:Hc; [|intros [= <- <-]; constructor; by left].
  apply rbind_Ok in Hc as ([] & Hpre%ensure_Ok & Hc). apply rbind_Ok in Hc as ([] & Hload & Hc).
  apply rbind_Ok in Hc as ([] & Hval%ensure_Ok & _).
  assert (∀ key v, values !! key = Some v → str_prefix NOTIFICATION_SECRET_PREFIX key = true ∧ valid_secret_key key = true) as Hkeys.
  { intros key v Hv. rewrite forallb_forall in Hpre, Hval. split.
    - apply (Hpre (key, v)). by apply list_elem_of_In, btree_iter_elem.
    - apply (Hval (key, v)), list_elem_of_In, btree_iter_elem. unfold staged, staged_secrets, extend.
      by apply lookup_union_Some_l. }
  destruct (io_staged io) as [|e|e] eqn:Hst; cbn [write_private_file_atomically].
  2:{ intros [= <- <-]. constructor; by left. }
  2:{ intros [= <- <-]. constructor; [by left|]. right. split; [done|]. left. by exists e. }
  (* a failure of the configuration, then the rollback *)
  assert (∀ err d, dk_secrets d = staged →
    dk_rules d = dk_rules disk ∨ (dk_rules d = rules ∧ ∃ err, io_write io = SyncFailed err) →
    (let '(_, secrets) := write_private_file_atomically (io_rollback io) (dk_secrets d) (dk_secrets disk) in
     Ret (Err err, mk_disk secrets (dk_rules d))) = Ret (r, disk') →
    ∃ e, r = Err e ∧ failed_write io rules values disk disk') as Hback.
  { intros err d Hs Hr H. destruct (io_rollback io) as [|e|e] eqn:Hrb; cbn in H; injection H as <- <-; exists err; (split; [done|]);
      (constructor; [exact Hr|]); [by left| |by left]. right. split; [exact Hs|]. right. by exists e. }
  unfold write_configuration_table. cbn [dk_secrets dk_rules].
  destruct (validate_configuration json_len (env_at base overrides io staged) rules) as [[[]|e]|] eqn:Hconf; cbn [obind rbind]; [| |done].
  2:{ intros H. destruct (Hback e (mk_disk staged (dk_rules disk)) eq_refl (or_introl eq_refl) H) as (? & -> & ?). done. }
  destruct (io_table io) as [[]|e]; cbn [obind].
  2:{ intros H. destruct (Hback e (mk_disk staged (dk_rules disk)) eq_refl (or_introl eq_refl) H) as (? & -> & ?). done. }
  destruct (io_write io) as [|e|e] eqn:Hwr; cbn [write_private_file_atomically obind dk_secrets dk_rules].
  - intros [= <- <-]. split_and!; [done|done|done| |done]. cbn [dk_secrets].
    case_bool_decide; [by left|]. destruct (io_current io); cbn; auto.
  - intros H. destruct (Hback e (mk_disk staged (dk_rules disk)) eq_refl (or_introl eq_refl) H) as (? & -> & ?). done.
  - intros H. destruct (Hback e (mk_disk staged rules) eq_refl (or_intror (conj eq_refl (ex_intro _ e eq_refl))) H) as (? & -> & ?). done.
Qed.

(** One value per key: the digests of the keys do not collide. *)
Definition functional (pairs : list (string * string)) : Prop :=
  ∀ key v v', (key, v) ∈ pairs → (key, v') ∈ pairs → v = v'.

Lemma foldl_insert_other pairs (m : gmap string string) key :
  (∀ v, (key, v) ∉ pairs) → foldl (λ m (p : string * string), <[p.1 := p.2]> m) m pairs !! key = m !! key.
Proof.
  revert m. induction pairs as [|[k w] pairs IH]; intros m Hno; [done|]. cbn [foldl fst snd].
  rewrite IH; [|intros v Hv; apply (Hno v); apply elem_of_cons; by right]. apply lookup_insert_ne.
  intros <-. apply (Hno w), elem_of_cons. by left.
Qed.
Lemma foldl_insert_functional pairs (m : gmap string string) key v :
  functional pairs → (key, v) ∈ pairs → foldl (λ m (p : string * string), <[p.1 := p.2]> m) m pairs !! key = Some v.
Proof.
  revert m. induction pairs as [|[k w] pairs IH]; intros m Hf Hin; [by apply elem_of_nil in Hin|]. cbn [foldl fst snd].
  destruct (decide ((key, v) ∈ pairs)) as [Hv|Hv].
  { apply IH; [|done]. intros key' v1 v2 H1 H2. apply (Hf key'); apply elem_of_cons; by right. }
  apply elem_of_cons in Hin as [[= -> ->]|Hin]; [|done]. rewrite foldl_insert_other; [by rewrite lookup_insert_eq|].
  intros v' Hv'. apply Hv. rewrite (Hf k w v'); [done|apply elem_of_cons; by left|apply elem_of_cons; by right].
Qed.
Lemma foldl_insert_elem pairs (m : gmap string string) key v :
  foldl (λ m (p : string * string), <[p.1 := p.2]> m) m pairs !! key = Some v → (key, v) ∈ pairs ∨ m !! key = Some v.
Proof.
  revert m. induction pairs as [|[k w] pairs IH]; intros m; cbn [foldl fst snd]; [by right|].
  intros [H|H]%IH; [left; apply elem_of_cons; by right|].
  apply lookup_insert_Some in H as [[-> ->]|[_ H]]; [left; apply elem_of_cons; by left|by right].
Qed.

(** Both sets of secrets hold what was stored. *)
Lemma holds_write original values pairs secrets :
  values = foldl (λ m (p : string * string), <[p.1 := p.2]> m) ∅ pairs → functional pairs →
  (∀ key v, values !! key = Some v → str_prefix NOTIFICATION_SECRET_PREFIX key = true ∧ valid_secret_key key = true) →
  secrets = staged_secrets original values ∨ secrets = current_secrets original values → holds original secrets pairs.
Proof.
  intros Hv Hf Hk Hs.
  assert (∀ key v, (key, v) ∈ pairs → values !! key = Some v) as Hin by (intros; subst values; by apply foldl_insert_functional).
  constructor.
  - intros key v H. destruct Hs as [->| ->]; apply lookup_union_Some_l; by apply Hin.
  - intros key v H. by apply (Hk key v), Hin.
  - intros key Hp. assert (values !! key = None) as Hn.
    { destruct (values !! key) as [v|] eqn:E; [|done]. destruct (Hk key v E). congruence. }
    destruct Hs as [->| ->]; unfold staged_secrets, current_secrets, extend; rewrite lookup_union_r by done; [done|].
    destruct (original !! key) as [v|] eqn:E; [by apply map_lookup_filter_Some|]. apply map_lookup_filter_None. by left.
Qed.

(** A restart forgets when a rule last matched and delivered. *)
Definition forget (record : RuleRecord) : RuleRecord := record_of (persisted_of record).

(** Nothing is written in the clear. *)
Definition no_plain_destination (r : Rule) : Prop := Forall (λ a, plain (ac_destination a) = false) (ru_actions r).

Lemma written_rule_no_plain env pairs r r' : written_rule env pairs r r' → no_plain_destination r'.
Proof.
  intros [_ Hl]. unfold no_plain_destination. induction Hl as [|a a' l l' [_ Hw] Hl IH]; [done|].
  apply Forall_cons. split; [|done]. unfold plain.
  destruct Hw as [[-> [->|[Hm Hr]]]|(key & v & _ & Hm & _)]; [done|by rewrite Hr, andb_false_r|by rewrite Hm, andb_false_r].
Qed.

(** Loading the records a write validated gives them back. *)
Lemma load_written io secrets (canonical : list (string * RuleRecord)) :
  validate_configuration json_len (env_at base overrides io secrets)
    ((λ p : string * RuleRecord, persisted_of p.2) <$> canonical) = Ret (Ok tt) →
  Forall (λ p : string * RuleRecord, rr_id p.2 = p.1) canonical →
  load_configured_rules json_len (env_at base overrides io secrets)
    ((λ p : string * RuleRecord, persisted_of p.2) <$> canonical) = Ret (Ok (forget <$> list_to_map canonical)).
Proof.
  unfold validate_configuration, load_configured_rules. intros H Hid. case_match; [done|].
  destruct (load_records_validated json_len (env_at base overrides io secrets) [] ∅ _ H) as (-> & Hn & _); [done|].
  do 2 f_equal. rewrite foldl_insert_map by done. rewrite (right_id_L ∅ (∪)).
  clear -Hid. induction Hid as [|[k record] l Hp Hl IH]; [done|]. cbn in Hp. subst k.
  rewrite !fmap_cons, !list_to_map_cons, fmap_insert, IH. done.
Qed.

Lemma Forall2_ids env pairs l l' :
  Forall2 (λ p q : string * RuleRecord, q.1 = p.1 ∧ written_record env pairs p.2 q.2) l l' →
  Forall (λ p : string * RuleRecord, rr_id p.2 = p.1) l → Forall (λ p : string * RuleRecord, rr_id p.2 = p.1) l'.
Proof.
  induction 1 as [|p q l l' [Hk (Hr & _)] Hl IH]; [done|]. intros [Hp Hps]%Forall_cons. apply Forall_cons.
  split; [|by apply IH]. rewrite Hr, Hk. exact Hp.
Qed.
Lemma Forall2_fst env pairs l l' :
  Forall2 (λ p q : string * RuleRecord, q.1 = p.1 ∧ written_record env pairs p.2 q.2) l l' → l'.*1 = l.*1.
Proof. induction 1 as [|p q l l' [Hp _] Hl IH]; [done|]. rewrite !fmap_cons. by rewrite Hp, IH. Qed.

Lemma written_lookup env pairs (rules : gmap string RuleRecord) canonical k record :
  Forall2 (λ p q : string * RuleRecord, q.1 = p.1 ∧ written_record env pairs p.2 q.2) (btree_iter rules) canonical →
  rules !! k = Some record →
  ∃ record', (list_to_map canonical : gmap string RuleRecord) !! k = Some record' ∧ written_record env pairs record record'.
Proof.
  intros Hl Hk. apply btree_iter_elem, list_elem_of_lookup in Hk as [n Hn].
  destruct (Forall2_lookup_l _ _ _ _ _ Hl Hn) as ([k' record'] & Hc & Hk' & Hw). cbn in Hk', Hw. subst k'.
  exists record'. split; [|done]. apply elem_of_list_to_map_1; [|by eapply list_elem_of_lookup_2].
  rewrite (Forall2_fst _ _ _ _ Hl). apply btree_iter_NoDup.
Qed.

(** A successful save, in the terms of the property below. *)
Definition saved (env env' : NotifyEnv) (rules rules' : gmap string RuleRecord) : Prop :=
  ∀ k record, rules !! k = Some record → ∃ record', rules' !! k = Some record' ∧
    resolve_rule_destinations env' (rr_draft record') = intended_rule env (rr_draft record) ∧
    no_plain_destination (rr_draft record') ∧
    match rr_active record, rr_active record' with
    | Some r, Some r' => resolve_rule_destinations env' r' = intended_rule env r ∧ no_plain_destination r'
    | None, None => True
    | _, _ => False
    end.

Lemma written_saved io original secrets pairs (rules : gmap string RuleRecord) canonical :
  (∀ key, str_prefix NOTIFICATION_SECRET_PREFIX key = true → overrides key = Ok None) → io_load io = Ok tt →
  holds original secrets pairs →
  Forall2 (λ p q : string * RuleRecord, q.1 = p.1 ∧ written_record (env_at base overrides io original) pairs p.2 q.2)
    (btree_iter rules) canonical →
  saved (env_at base overrides io original) (env_at base overrides io secrets) rules (list_to_map canonical).
Proof.
  intros Hov Hload Hh Hl k record Hk. destruct (written_lookup _ _ _ _ _ _ Hl Hk) as (record' & Hr' & _ & Hd & Ha).
  exists record'. split; [done|]. split; [by eapply written_rule_resolves|]. split; [by eapply written_rule_no_plain|].
  inversion Ha as [r r' Hr E1 E2|E1 E2]; [|done].
  split; [by eapply written_rule_resolves|by eapply written_rule_no_plain].
Qed.

Lemma persist_total io rules disk :
  ∃ v disk', persist_configured_rules base overrides json_len io rules disk = Ret (v, disk').
Proof.
  unfold persist_configured_rules.
  destruct (externalize_records_total base (env_at base overrides io (dk_secrets disk)) (btree_iter rules)) as (v & -> & _).
  cbn [obind]. destruct (let? v := v in let? _ := io_config io in Ok v) as [[canonical stored]|e]; [|by eexists _, _].
  match goal with |- context [write_with_managed_secrets _ _ _ io ?r ?m disk] =>
    destruct (write_managed_total base overrides json_len io r m disk) as [[w d'] ->] end.
  by eexists _, _.
Qed.

(** C36. What is saved is what a restart reads, when no environment variable overrides a
    managed key and the digests that name the stored destinations do not collide.  Saving
    always returns.  When it succeeds, a restart loads the rules again (without the times
    of their last match and delivery), every destination is on disk only as a reference,
    and resolving it yields the text that was saved, or for a reference what it resolved to
    before.  When it fails, the rules on disk are the old ones, unless the error came after
    the configuration was renamed into place; every old secret keeps its value, except the
    managed ones this save stores, which still have one; and both files are as before when
    no write failed after its rename and the rollback went through. *)
Theorem rules_survive_restart io rules disk :
  map_Forall (λ k record, rr_id record = k) rules →
  (∀ key, str_prefix NOTIFICATION_SECRET_PREFIX key = true → overrides key = Ok None) →
  (∀ canonical stored, externalize_records base (env_at base overrides io (dk_secrets disk)) (btree_iter rules)
     = Ret (Ok (canonical, stored)) → functional stored) →
  ∃ v disk', persist_configured_rules base overrides json_len io rules disk = Ret (v, disk') ∧ match v with
  | Ok rules' =>
      load_configured_rules json_len (env_at base overrides io (dk_secrets disk')) (dk_rules disk')
        = Ret (Ok (forget <$> rules')) ∧
      saved (env_at base overrides io (dk_secrets disk)) (env_at base overrides io (dk_secrets disk')) rules rules'
  | Err _ =>
      (dk_rules disk' = dk_rules disk ∨ ∃ err, io_write io = SyncFailed err) ∧
      (∀ key value, dk_secrets disk !! key = Some value →
         is_Some (dk_secrets disk' !! key) ∧
         (dk_secrets disk' !! key = Some value ∨
          ∃ canonical stored value', externalize_records base (env_at base overrides io (dk_secrets disk)) (btree_iter rules)
            = Ret (Ok (canonical, stored)) ∧ (key, value') ∈ stored)) ∧
      ((∀ err, io_staged io ≠ SyncFailed err ∧ io_write io ≠ SyncFailed err ∧ io_rollback io ≠ WriteFailed err) →
         disk' = disk)
  end.
Proof.
  intros Hid Hov Hfun. destruct (persist_total io rules disk) as (v & disk' & H). exists v, disk'. split; [exact H|].
  unfold persist_configured_rules in H.
  destruct (externalize_records _ _ _) as [r|] eqn:Hext; [|done]. cbn [obind] in H.
  destruct (let? v := r in let? _ := io_config io in Ok v) as [[canonical stored]|e] eqn:E.
  2:{ injection H as <- <-. split; [by left|]. split; [|done]. intros key value Hk. split; [by eexists|by left]. }
  apply rbind_Ok in E as ([c st] & -> & E). apply rbind_Ok in E as (_ & _ & E). injection E as -> ->.
  specialize (Hfun _ _ eq_refl). assert (Forall2 (λ p q : string * RuleRecord, q.1 = p.1 ∧
    written_record (env_at base overrides io (dk_secrets disk)) stored p.2 q.2) (btree_iter rules) canonical) as Hw
    by (by eapply externalize_records_inv).
  destruct (write_with_managed_secrets _ _ _ _ _ _ _) as [[w d]|] eqn:Hwrite; [|done]. cbn [obind] in H. injection H as <- <-.
  apply write_managed_inv in Hwrite. destruct w as [[]|e]; cbn [rbind].
  - destruct Hwrite as (Hload & Hkeys & Hrules & Hsec & Hvalid).
    pose proof (holds_write _ _ _ _ eq_refl Hfun Hkeys Hsec) as Hh.
    pose proof (holds_write (dk_secrets disk) _ _ _ eq_refl Hfun Hkeys (or_introl eq_refl)) as Hh0. rewrite Hrules.
    split; [|by apply (written_saved io (dk_secrets disk) (dk_secrets d) stored)].
    apply load_written.
    + unfold validate_configuration in *. case_match; [done|]. rewrite <-Hvalid.
      by eapply (validate_records_same base overrides json_len io Hov Hload (dk_secrets disk)).
    + eapply Forall2_ids; [exact Hw|]. apply Forall_forall. intros [k record] Hk%btree_iter_elem. by apply Hid.
  - destruct Hwrite as [Hrules Hsec]. split; [destruct Hrules as [?|[_ ?]]; auto|]. split.
    + intros key value Hk. destruct Hsec as [->|[-> _]]; [split; [by eexists|by left]|].
      split; [apply lookup_union_is_Some; right; by eexists|].
      unfold staged_secrets, extend. set (values := foldl _ _ stored).
      destruct (values !! key) as [value'|] eqn:Hv; [right|left; by rewrite lookup_union_r].
      exists canonical, stored, value'. split; [done|]. apply foldl_insert_elem in Hv as [?|?]; [done|by rewrite lookup_empty in *].
    + intros Hio. destruct Hrules as [Hr|[_ [err Hr]]]; [|destruct (Hio err) as (_ & ? & _); done].
      destruct Hsec as [Hs|[_ [[err Hs]|[err Hs]]]]; [|destruct (Hio err); done|destruct (Hio err) as (_ & _ & ?); done].
      destruct d, disk. cbn in *. by subst.
Qed.
End write.

(** ** A witness *)

Definition demo_persist : outcome (result string (gmap string RuleRecord) * Disk) :=
  persist_configured_rules demo_notify_env demo_overrides demo_json_len demo_io demo_rules demo_disk.

Lemma demo_rules_ids : map_Forall (λ k record, rr_id record = k) demo_rules.
Proof. by apply map_Forall_singleton. Qed.
(** A decidable form. *)
Definition functional_check (pairs : list (string * string)) : bool :=
  forallb (λ p, forallb (λ q : string * string, negb (str_eqb p.1 q.1) || str_eqb p.2 q.2) pairs) pairs.
Lemma functional_by_check pairs : functional_check pairs = true → functional pairs.
Proof.
  unfold functional_check. rewrite forallb_forall. intros H key v v' Hv%list_elem_of_In Hv'%list_elem_of_In.
  specialize (H _ Hv). rewrite forallb_forall in H. specialize (H _ Hv'). cbn in H. unfold str_eqb in H.
  rewrite (bool_decide_true (key = key)) in H by done. cbn in H. by apply bool_decide_eq_true in H.
Qed.
Lemma demo_functional canonical stored :
  externalize_records demo_notify_env (env_at demo_notify_env demo_overrides demo_io ∅) (btree_iter demo_rules)
    = Ret (Ok (canonical, stored)) → functional stored.
Proof.
  intros H. assert (stored = match externalize_records demo_notify_env (env_at demo_notify_env demo_overrides demo_io ∅)
    (btree_iter demo_rules) with Ret (Ok (_, stored)) => stored | _ => [] end) as -> by (by rewrite H).
  clear H. apply functional_by_check. vm_compute. reflexivity.
Qed.

Lemma rules_survive_restart_witness :
  ∃ rules' disk', demo_persist = Ret (Ok rules', disk') ∧
    load_configured_rules demo_json_len (env_at demo_notify_env demo_overrides demo_io (dk_secrets disk')) (dk_rules disk')
      = Ret (Ok (forget <$> rules')).
Proof.
  assert (match demo_persist with Ret (Ok _, _) => true | _ => false end = true) as Hok by (vm_compute; reflexivity).
  destruct (rules_survive_restart demo_notify_env demo_overrides demo_json_len demo_io demo_rules demo_disk
    demo_rules_ids (λ _ _, eq_refl) demo_functional) as (v & disk' & E & H).
  unfold demo_persist in *. rewrite E in Hok |- *. destruct v as [rules'|]; [|discriminate Hok].
  exists rules', disk'. split; [reflexivity|exact (proj1 H)].
Defined.

(** When the directory cannot be synced after the configuration was renamed into place, the
    save fails and its secrets are rolled back, but the new configuration stays: the next
    start cannot resolve its references and does not load it. *)
Example failed_sync_strands_rules :
  let io := mk_io (Ok tt) (Ok tt) (Ok tt) Written (Ok tt) (SyncFailed "directory") Written Written in
  match persist_configured_rules demo_notify_env demo_overrides demo_json_len io demo_rules demo_disk with
  | Ret (Err _, disk') =>
      bool_decide (dk_rules disk' = dk_rules demo_disk) = false ∧
      match load_configured_rules demo_json_len (env_at demo_notify_env demo_overrides demo_io (dk_secrets disk')) (dk_rules disk') with
      | Ret (Err _) => True
      | _ => False
      end
  | _ => False
  end.
Proof. vm_compute. auto. Qed.
