(* ===== verification/NotifyRun.v ===== *)
(** * Runs of the notification service

    Candidates, deliveries, receipts, rule changes and inbox updates in any order, on a
    state started from a configuration. *)

From S2P Require Import Prelude CameraEvent NotifyModel NotifyState NotifyProcess NotifyDelivery NotifyProvider NotifyStore NotifyInv NotifyInbox NotifyPrune NotifySteps NotifyClaims NotifyStoreInv.

(** The service: its store, its files and the deliveries handed out, latest first. *)
Record System := mk_system {
  sy_store : Store;
  sy_disk : Disk;
  sy_claims : list Delivery
}.

(** The order of a hash map and the environment may differ at every call.  [n] counts
    the deliveries handed out from the latest; what their provider reports is computed
    from what its calls observe. *)
Inductive NotifyOp :=
| OpProcess (env : NotifyEnv) (c : Candidate)
| OpTest (env : NotifyEnv) (id owner : string) (now : Z) (uuid : string)
| OpProfile (ids : gset string) (now : Z)
| OpClaim (channel : Channel) (now : Z)
| OpFinish (env : NotifyEnv) (pv : ProviderEnv) (n : nat) (now : Z)
| OpClaimReceipt (now : Z)
| OpFinishReceipt (pv : ProviderEnv) (r : ReceiptCheck) (now : Z)
| OpSave (env : NotifyEnv) (io : StoreIo) (draft : Rule) (expected now : Z)
| OpActivate (env : NotifyEnv) (io : StoreIo) (id owner : string) (active draft now : Z)
| OpDelete (env : NotifyEnv) (io : StoreIo) (id owner : string) (active draft now : Z)
| OpReceipt (id principal : string) (update : ReceiptUpdate) (now : Z)
| OpClear (principal : string) (scope : ClearScope) (now : Z).

Definition set_state (sys : System) (s : RuntimeState) : System :=
  mk_system (mk_store s (st_profile_suppressed (sy_store sys))) (sy_disk sys) (sy_claims sys).
Definition set_store (sys : System) (st : Store) : System := mk_system st (sy_disk sys) (sy_claims sys).
Definition state_of (sys : System) : RuntimeState := st_state (sy_store sys).

Section run.
Context (overrides : string → result string (option string)) (json_len : Rule → Z).
Context (order : gmap OperationalIntervalKey OperationalInterval →
  list (OperationalIntervalKey * OperationalInterval)).

Definition notify_step (sys : System) (op : NotifyOp) : outcome System :=
  match op with
  | OpProcess env c => let! (_, st) := process env order c (sy_store sys) in Ret (set_store sys st)
  | OpTest env id owner now uuid =>
      let! (_, st) := test_rule env order id owner now uuid (sy_store sys) in Ret (set_store sys st)
  | OpProfile ids now =>
      let! (_, st) := set_profile_suppressed_sources ids now (sy_store sys) in Ret (set_store sys st)
  | OpClaim channel now =>
      let! (d, s) := claim_due channel now (state_of sys) in
      let sys := set_state sys s in
      Ret (match d with
           | None => sys
           | Some d => mk_system (sy_store sys) (sy_disk sys) (d :: sy_claims sys)
           end)
  | OpFinish env pv n now =>
      match sy_claims sys !! n with
      | None => Ret sys
      | Some d =>
          let! (_, s) := finish_delivery env order d (attachments_deliver pv d) now (state_of sys) in Ret (set_state sys s)
      end
  | OpClaimReceipt now => let! (_, s) := claim_due_receipt now (state_of sys) in Ret (set_state sys s)
  | OpFinishReceipt pv r now =>
      let! (_, s) := finish_receipt order r (check_receipt pv r) now (state_of sys) in Ret (set_state sys s)
  | OpSave env io draft expected now =>
      let! (_, s, disk) := save_draft env overrides json_len draft expected now io (state_of sys) (sy_disk sys) in
      Ret (mk_system (mk_store s (st_profile_suppressed (sy_store sys))) disk (sy_claims sys))
  | OpActivate env io id owner active draft now =>
      let! (_, s, disk) := activate env overrides json_len id owner active draft now io (state_of sys) (sy_disk sys) in
      Ret (mk_system (mk_store s (st_profile_suppressed (sy_store sys))) disk (sy_claims sys))
  | OpDelete env io id owner active draft now =>
      let! (_, s, disk) := delete_rule env overrides json_len id owner active draft now io (state_of sys) (sy_disk sys) in
      Ret (mk_system (mk_store s (st_profile_suppressed (sy_store sys))) disk (sy_claims sys))
  | OpReceipt id principal update now =>
      let! (_, s) := update_receipt order id principal update now (state_of sys) in Ret (set_state sys s)
  | OpClear principal scope now =>
      let! (_, s) := clear_scope order principal scope now (state_of sys) in Ret (set_state sys s)
  end.

Fixpoint notify_run (sys : System) (ops : list NotifyOp) : outcome System :=
  match ops with
  | [] => Ret sys
  | op :: ops' => let! sys := notify_step sys op in notify_run sys ops'
  end.

(** [RuntimeState::new] on a loaded configuration. *)
Definition start (rules : gmap string RuleRecord) (disk : Disk) : System :=
  mk_system (mk_store (state_new rules) ∅) disk [].

(** The most deliveries that were handed out and not finished at the same time. *)
Fixpoint peak_delivering (sys : System) (ops : list NotifyOp) : Z :=
  Z.max (in_delivery (state_of sys))
    (match ops with
     | [] => 0
     | op :: ops' => match notify_step sys op with Ret sys => peak_delivering sys ops' | Panic => 0 end
     end).

(** The types of the inputs: the attempts of a rule are unsigned. *)
Definition op_ok (op : NotifyOp) : Prop :=
  match op with
  | OpSave _ _ draft _ _ => 0 ≤ fp_maximum_attempts (ru_failure draft)
  | _ => True
  end.

(** An operation advances a sequence by less than this. *)
Definition OP_COST : Z := 300000.

(** What the deliveries handed out and the outbox have in common. *)
Record claim_ok (s : RuntimeState) (d : Delivery) : Prop := {
  cl_id : dl_id d < s_next_outbox_id s;
  cl_attempt : 1 ≤ dl_attempt d ≤ dl_max_attempts d;
  cl_max : dl_max_attempts d ≤ 10;
  cl_item : ∀ i, s_outbox s !! dl_id d = Some i →
    ob_max_attempts i = dl_max_attempts d ∧ dl_attempt d ≤ ob_attempt_count i
}.
Definition attempt_key (d : Delivery) : Z * Z := (dl_id d, dl_attempt d).

Record system_ok (sys : System) : Prop := {
  so_state : notify_ok (state_of sys);
  so_windows : windows_bounded (state_of sys);
  so_claims : Forall (claim_ok (state_of sys)) (sy_claims sys);
  so_once : NoDup (attempt_key <$> sy_claims sys)
}.

Lemma claim_ok_claims n s s' d : claims n s s' → claim_ok s d → claim_ok s' d.
Proof.
  intros [_ Hg He _] [Hid Ha Hm Hi]. constructor; [destruct Hg; lia|done|done|]. intros j Hj.
  destruct (He _ _ Hj) as [(i & Hii & [_ Hmax Hatt])|]; [|lia]. destruct (Hi i Hii). split; [congruence|lia].
Qed.

(** An operation that hands nothing out. *)
Lemma system_ok_steps n sys s profile disk :
  system_ok sys → steps n (state_of sys) s → windows_bounded s →
  system_ok (mk_system (mk_store s profile) disk (sy_claims sys)).
Proof.
  intros [Ho Hw Hc Hn] Hs Hw'. constructor; [apply Hs|done| |done].
  eapply Forall_impl; [exact Hc|]. intros d. by eapply claim_ok_claims, steps_are_claims.
Qed.

(** A claim is a new attempt of its item. *)
Lemma system_ok_claim channel now sys d s1 s :
  system_ok sys → expires_due channel now (state_of sys) s1 → claimed channel now s1 (Some d) s →
  claims MAX_OUTBOX (state_of sys) s →
  system_ok (mk_system (mk_store s (st_profile_suppressed (sy_store sys))) (sy_disk sys) (d :: sy_claims sys)).
Proof.
  intros [Ho Hw Hc Hn] [El Ew Hx] (id & i & l & Hi & Hl & Hd & He & -> & -> & _) Hs.
  assert (s_outbox (state_of sys) !! id = Some i) as Hi0.
  { destruct (Hx id) as [E|(j & _ & _ & _ & E)]; [congruence|]. rewrite Hi in E. simplify_eq.
    by apply is_due_inv in Hd as [Hd _]. }
  destruct (no_items _ Ho _ _ Hi0) as [_ Hf _ _ Ha Hm Hleft _].
  destruct (is_due_inv _ _ _ _ Hd) as [Hp _]. specialize (Hleft Hp).
  assert (claim_ok (set_s_outbox (<[id := claim_item i (ob_attempt_count i + 1) now]> (s_outbox s1)) s1)
            (delivery_of channel id (ob_attempt_count i + 1) i l)) as Hnew.
  { constructor; cbn; [|lia|lia|].
    - destruct Hs as [_ [_ _ Hg] _ _]. cbn in Hg. lia.
    - intros j. rewrite lookup_insert_eq. intros [= <-]. cbn. lia. }
  constructor; [apply Hs| | |].
  - unfold windows_bounded, state_of. cbn. rewrite Ew. apply Hw.
  - apply Forall_cons. split; [done|]. eapply Forall_impl; [exact Hc|]. intros d'. by eapply claim_ok_claims.
  - cbn. apply NoDup_cons. split; [|done]. intros (d' & [= Eid Eat] & Hd')%list_elem_of_fmap.
    rewrite Forall_forall in Hc. destruct (Hc d' Hd') as [_ _ _ Hitem]. rewrite <-Eid in Hitem.
    destruct (Hitem i Hi0). lia.
Qed.

Lemma windows_same s s' : s_rate_windows s' = s_rate_windows s → windows_bounded s → windows_bounded s'.
Proof. unfold windows_bounded. by intros ->. Qed.
Lemma cost_weaken n s s' : n ≤ OP_COST → claims n s s' → claims OP_COST s s'.
Proof. intros Hn [? [? ? ?] ? ?]. constructor; [done| |done..]. constructor; lia. Qed.

(** Finishing an operation that hands nothing out. *)
Lemma finish_step n sys s profile disk :
  system_ok sys → steps n (state_of sys) s → windows_bounded s → n ≤ OP_COST →
  ∃ sys', Ret (mk_system (mk_store s profile) disk (sy_claims sys)) = Ret sys' ∧ system_ok sys' ∧
    claims OP_COST (state_of sys) (state_of sys').
Proof.
  intros Hok Hs Hw Hn. eexists. split; [done|]. split; [by eapply system_ok_steps|by eapply cost_weaken, steps_are_claims].
Qed.

Lemma notify_step_ok sys op :
  system_ok sys → room OP_COST (state_of sys) → op_ok op →
  ∃ sys', notify_step sys op = Ret sys' ∧ system_ok sys' ∧ claims OP_COST (state_of sys) (state_of sys').
Proof.
  intros Hsys Hroom Hop. pose proof (so_state _ Hsys) as Hok. pose proof (so_windows _ Hsys) as Hw.
  assert (room MAX_OUTBOX (state_of sys)) as HroomO by (by eapply room_mono).
  assert (room PROCESS_COST (state_of sys)) as HroomP by (by eapply room_mono).
  assert (room 2 (state_of sys)) as Hroom2 by (by eapply room_mono).
  assert (room 1 (state_of sys)) as Hroom1 by (by eapply room_mono).
  destruct op; cbn [notify_step op_ok] in *.
  - destruct (process_ok env order c (sy_store sys) Hok HroomP Hw) as (r & [s p] & -> & Hs & Hw'). by eapply finish_step.
  - destruct (test_rule_ok env order id owner now uuid (sy_store sys) Hok HroomP Hw) as (r & [s p] & -> & Hs & Hw').
    by eapply finish_step.
  - destruct (set_profile_ok ids now (sy_store sys) Hok HroomO) as (r & [s p] & -> & Hs & Ew).
    eapply finish_step; [done|exact Hs|by eapply windows_same|done].
  - destruct (claim_due_ok channel now (state_of sys) Hok HroomO) as (d & s1 & s & -> & Hs & Hx & Hc). cbn [obind].
    destruct d as [d|].
    + eexists. split; [done|]. split; [exact (system_ok_claim channel now sys d s1 s Hsys Hx Hc Hs)|].
      eapply cost_weaken; [|exact Hs]. done.
    + eexists. split; [done|]. destruct Hc as [-> _]. split; [|by eapply cost_weaken; [|exact Hs]].
      constructor; [apply Hs|eapply windows_same; [apply (ex_windows _ _ _ _ Hx)|done]| |apply Hsys].
      eapply Forall_impl; [apply (so_claims _ Hsys)|]. intros d'. by eapply claim_ok_claims.
  - destruct (sy_claims sys !! n) as [d|] eqn:Hd.
    2:{ exists sys. split; [done|]. split; [done|]. by apply steps_are_claims, steps_refl. }
    assert (outcome_reason_ok (pr_outcome (attachments_deliver pv d))) as Hshort.
    { pose proof (attachments_deliver_short pv d) as H. destruct (pr_outcome _); [done|by left..]. }
    assert (delivery_current (state_of sys) d) as Hcur.
    { pose proof (so_claims _ Hsys) as Hc. rewrite Forall_forall in Hc. intros i Hi.
      by apply (cl_item _ _ (Hc d (list_elem_of_lookup_2 _ _ _ Hd)) i Hi). }
    destruct (finish_delivery_ok env order d (attachments_deliver pv d) now (state_of sys) Hok Hroom2 Hw Hshort Hcur) as (v & s & -> & Hs & Hw').
    by eapply finish_step.
  - destruct (claim_receipt_ok now (state_of sys) Hok) as (r & s & -> & Hs & Ew).
    eapply finish_step; [done|exact Hs|by eapply windows_same|done].
  - assert (receipt_reason_ok (check_receipt pv r)) as Hshort.
    { pose proof (check_receipt_short pv r) as H. destruct (check_receipt pv r); [done..|by left|by left]. }
    destruct (finish_receipt_ok order r (check_receipt pv r) now (state_of sys) Hok Hroom1 Hw Hshort) as (v & s & -> & Hs & Hw').
    by eapply finish_step.
  - destruct (save_draft_ok env overrides json_len draft expected now io (state_of sys) (sy_disk sys) Hok Hop)
      as (r & s & disk & -> & Hs & Ew). eapply finish_step; [done|exact Hs|by eapply windows_same|done].
  - destruct (activate_ok env overrides json_len id owner active draft now io (state_of sys) (sy_disk sys) Hok HroomO)
      as (r & s & disk & -> & Hs & Ew). eapply finish_step; [done|exact Hs|by eapply windows_same|done].
  - destruct (delete_rule_ok env overrides json_len id owner active draft now io (state_of sys) (sy_disk sys) Hok HroomO)
      as (r & s & disk & -> & Hs & Ew). eapply finish_step; [done|exact Hs|by eapply windows_same|done].
  - destruct (inbox_update_ok order id principal update now (state_of sys) Hok Hw) as (r & s & -> & Hs & Hw'). by eapply finish_step.
  - destruct (clear_scope_ok order principal scope now (state_of sys) Hok) as (r & s & -> & Hs & Hw'). by eapply finish_step.
Qed.

Lemma notify_run_ok sys ops :
  system_ok sys → room (OP_COST * Z.of_nat (length ops)) (state_of sys) → Forall op_ok ops →
  ∃ sys', notify_run sys ops = Ret sys' ∧ system_ok sys' ∧
    outstanding (state_of sys') ≤ Z.max (outstanding (state_of sys)) (MAX_PENDING_OUTBOX + peak_delivering sys ops).
Proof.
  revert sys. induction ops as [|op ops IH]; intros sys Hsys Hroom Hops; cbn [notify_run peak_delivering].
  { exists sys. split; [done|]. split; [done|lia]. }
  apply Forall_cons in Hops as [Hop Hops]. cbn [length] in Hroom. unfold OP_COST in *.
  destruct (notify_step_ok sys op Hsys) as (sys1 & -> & Hsys1 & Hs); [eapply room_mono; [done|unfold OP_COST; lia]|done|].
  cbn [obind]. destruct (IH sys1) as (sys' & E & Hok & Ho); [done| |done|].
  - eapply room_after; [exact Hroom|apply Hs|unfold OP_COST; lia].
  - exists sys'. split; [done|]. split; [done|]. pose proof (cs_limit _ _ _ Hs). unfold within_limit in *. lia.
Qed.

(** ** Starting from a configuration *)

Lemma validate_persisted_ok env p :
  validate_persisted_rule json_len env p = Ret (Ok tt) →
  (∀ r, pe_active p = Some r → 0 ≤ fp_maximum_attempts (ru_failure r)) →
  0 ≤ fp_maximum_attempts (ru_failure (pe_draft p)) → record_ok (pe_id p) (record_of p).
Proof.
  unfold validate_persisted_rule, then_check. cbn [obind]. intros H Ha Hd.
  destruct (let? _ := ensure (str_eqb (pe_id p) _ && _) _ in _) as [u|] eqn:E; [|done].
  apply rbind_Ok in E as (u' & Hid%ensure_Ok & _). apply andb_true_iff in Hid as [Hid _].
  unfold str_eqb in Hid. apply bool_decide_eq_true in Hid.
  constructor; cbn; [|done|done]. intros r Hr. rewrite Hr in H. specialize (Ha r Hr).
  destruct (let? _ := ensure (negb (pe_active_revision p =? 0)) _ in _) as [v|] eqn:E; [|done].
  apply rbind_Ok in E as (v' & _ & E). apply rbind_Ok in E as (v'' & Hra%ensure_Ok & _).
  apply andb_true_iff in Hra as [Hra _]. unfold str_eqb in Hra. apply bool_decide_eq_true in Hra. split; [done|].
  destruct (resolve_rule_total env r) as (w & Ew & Hw). rewrite Ew in H. cbn [obind] in H. destruct w as [r'|]; [|done].
  destruct (Hw r' eq_refl) as (_ & Hf & Hiff). apply Hiff. eapply rule_validate_ok; [by rewrite Hf|done].
Qed.

(** Attempt limits are unsigned. *)
Definition persisted_typed (p : PersistedRule) : Prop :=
  (∀ r, pe_active p = Some r → 0 ≤ fp_maximum_attempts (ru_failure r)) ∧
  0 ≤ fp_maximum_attempts (ru_failure (pe_draft p)).

Lemma load_records_ok env m l rules :
  load_records json_len env m l = Ret (Ok rules) → Forall persisted_typed l → map_Forall record_ok m →
  map_Forall record_ok rules ∧ size rules = (size m + length l)%nat.
Proof.
  revert m. induction l as [|p l IH]; intros m H Ht Hm; cbn [load_records] in H.
  { injection H as <-. split; [done|cbn; lia]. }
  apply Forall_cons in Ht as [[Ha Hd] Ht].
  destruct (validate_persisted_total json_len env p) as [v Hv]. rewrite Hv in H. cbn [obind] in H. destruct v as [[]|]; [|done].
  destruct (m !! pe_id p) eqn:E; cbn [is_none] in H; [done|].
  destruct (IH _ H Ht) as [Hr Hs]; [by apply map_Forall_insert_2; [eapply validate_persisted_ok|]|].
  split; [done|]. rewrite Hs, map_size_insert_None by done. cbn. lia.
Qed.

Lemma load_ok env l rules :
  load_configured_rules json_len env l = Ret (Ok rules) → Forall persisted_typed l →
  map_Forall record_ok rules ∧ Z.of_nat (size rules) ≤ MAX_RULES.
Proof.
  unfold load_configured_rules. destruct (Z.ltb_spec MAX_RULES (vec_len l)) as [?|Hle]; [done|]. intros H Ht.
  destruct (load_records_ok env ∅ l rules H Ht) as [Hr Hs]; [apply map_Forall_empty|]. split; [done|].
  rewrite Hs, map_size_empty. unfold vec_len in *. lia.
Qed.

Lemma notify_start_ok rules disk :
  map_Forall record_ok rules → Z.of_nat (size rules) ≤ MAX_RULES → system_ok (start rules disk).
Proof.
  intros Hr Hs. constructor; [by apply state_new_ok|done|done|by constructor].
Qed.
Lemma start_room (ops : list NotifyOp) rules disk :
  OP_COST * Z.of_nat (length ops) < u64_max → room (OP_COST * Z.of_nat (length ops)) (state_of (start rules disk)).
Proof. intros H. constructor; cbn; lia. Qed.

(** C33. The notification service never aborts and stays bounded.  Started from a
    configuration that loads, it survives every sequence of candidates, tests, profile
    changes, claims, deliveries and receipt checks (whatever the provider's calls observe),
    rule changes (whatever the file operations return) and inbox updates shorter than
    6*10^13 operations.  The deliveries that wait or are under way stay within 10000 and the
    most that were under way at once, so the queue is full at 10000; the other tables stay
    within their limits; each outbox item and each inbox receipt belongs to a known
    notification, which has at most one receipt and at most one item per action and
    stage; and every delivery handed out is a new attempt of its item, of at most ten. *)
Theorem notify_run_safe env persisted rules disk ops :
  load_configured_rules json_len env persisted = Ret (Ok rules) → Forall persisted_typed persisted →
  OP_COST * Z.of_nat (length ops) < u64_max → Forall op_ok ops →
  ∃ sys, notify_run (start rules disk) ops = Ret sys ∧
    let s := state_of sys in
    outstanding s ≤ 10000 + peak_delivering (start rules disk) ops ∧
    (Z.of_nat (size (s_rules s)) ≤ 128 ∧ Z.of_nat (size (s_logical s)) ≤ 12000 ∧
     Z.of_nat (size (s_outbox s)) ≤ 288000 ∧ Z.of_nat (size (s_receipts s)) ≤ 12000 ∧
     Z.of_nat (size (s_cooldowns s)) ≤ 10000 ∧
     Z.of_nat (size (s_rate_windows s)) ≤ 4096 ∧ Z.of_nat (size (s_intervals s)) ≤ 8192 ∧
     vec_len (s_history s) ≤ 50000 ∧ vec_len (s_attempts s) ≤ 50000) ∧
    (∀ id i, s_outbox s !! id = Some i → is_Some (s_logical s !! ob_logical_id i)) ∧
    (∀ id owner, is_Some (s_receipts s !! (id, owner)) → is_Some (s_logical s !! id)) ∧
    (∀ a b i j, s_outbox s !! a = Some i → s_outbox s !! b = Some j → outbox_key i = outbox_key j → a = b) ∧
    NoDup (attempt_key <$> sy_claims sys) ∧ Forall (λ d, 1 ≤ dl_attempt d ≤ 10) (sy_claims sys).
Proof.
  intros Hl Ht Hlen Hops. destruct (load_ok env persisted rules Hl Ht) as [Hr Hs].
  destruct (notify_run_ok (start rules disk) ops) as (sys & E & Hok & Hload); [by apply notify_start_ok|by apply start_room|done|].
  exists sys. split; [done|]. destruct Hok as [Hok Hw Hc Hn]. pose proof (outbox_bounded _ Hok) as Ho.
  pose proof (receipts_bounded _ Hok) as Hrc. split.
  { etrans; [exact Hload|]. unfold MAX_PENDING_OUTBOX. change (outstanding (state_of (start rules disk))) with 0.
    assert (0 ≤ peak_delivering (start rules disk) ops) by (destruct ops; cbn [peak_delivering]; unfold in_delivery, count; lia).
    lia. }
  split; [destruct Hok; split_and!; try done; unfold MAX_LOGICAL_NOTIFICATIONS, MAX_PENDING_OUTBOX, MAX_TERMINAL_NOTIFICATIONS in *; lia|].
  split_and!; [| |by apply (no_unique _ Hok)|done|].
  - intros id i Hi. apply (io_logical _ _ _ (no_items _ Hok _ _ Hi)).
  - intros id owner [r Hrr]. apply (no_receipts _ Hok _ _ Hrr).
  - eapply Forall_impl; [exact Hc|]. intros d [_ ? ? _]. lia.
Qed.
End run.

(** ** Witnesses *)

(** A provider whose calls time out. *)
Definition demo_provider : ProviderEnv :=
  mk_provider_env (λ _, Some "https://example.invalid")
    (λ _, Some (mk_provider_payload "t" "b" "" None None None None None None None None None None))
    (λ _, Some "{}") (λ _, Some "{}") (λ _, None) (λ _, None) (mk_parsers (λ _, None) (λ _, None))
    (λ _, None) (λ _ _, None) (λ _ _, None) (λ _, "") (λ l, l) (λ _, None) None (λ _ _, Timeout) (λ _, Timeout).

Definition demo_persisted : list PersistedRule := [persisted_of demo_rule_record].
Definition demo_ops : list NotifyOp :=
  [OpProcess demo_notify_env demo_candidate; OpClaim Webhook 1000;
   OpFinish demo_notify_env demo_provider 0 1500; OpClaim Webhook 9000].

Lemma notify_run_safe_witness :
  match load_configured_rules demo_json_len demo_notify_env demo_persisted with
  | Ret (Ok rules) =>
      ∃ sys, notify_run demo_overrides demo_json_len demo_order (start rules demo_disk) demo_ops = Ret sys ∧
        outstanding (state_of sys)
          ≤ 10000 + peak_delivering demo_overrides demo_json_len demo_order (start rules demo_disk) demo_ops ∧
        NoDup (attempt_key <$> sy_claims sys)
  | _ => False
  end.
Proof.
  assert (match load_configured_rules demo_json_len demo_notify_env demo_persisted with Ret (Ok _) => true | _ => false end
          = true) as Hok by (vm_compute; reflexivity).
  destruct (load_configured_rules demo_json_len demo_notify_env demo_persisted) as [[rules|e]|] eqn:E;
    [|discriminate Hok|discriminate Hok].
  destruct (notify_run_safe demo_overrides demo_json_len demo_order demo_notify_env demo_persisted rules demo_disk demo_ops E)
    as (sys & Hrun & Ho & _ & _ & _ & _ & Hn & _).
  - apply Forall_singleton. split; [intros r [= <-]|]; vm_compute; congruence.
  - vm_compute. reflexivity.
  - repeat (apply Forall_cons; split; [exact I|]). apply Forall_nil_2.
  - exists sys. split; [exact Hrun|]. split; [exact Ho|exact Hn].
Defined.

(** The run hands out two attempts of one item, one at a time. *)
Example demo_run_attempts :
  match load_configured_rules demo_json_len demo_notify_env demo_persisted with
  | Ret (Ok rules) =>
      match notify_run demo_overrides demo_json_len demo_order (start rules demo_disk) demo_ops with
      | Ret sys => (attempt_key <$> sy_claims sys, outstanding (state_of sys),
                    peak_delivering demo_overrides demo_json_len demo_order (start rules demo_disk) demo_ops)
      | Panic => ([], 0, 0)
      end
  | _ => ([], 0, 0)
  end = ([(1, 2); (1, 1)], 1, 1).
Proof. vm_compute. reflexivity. Qed.

(** The state after the candidate, which queued one delivery. *)
Definition demo_queued : System :=
  match notify_run demo_overrides demo_json_len demo_order (start demo_rules demo_disk)
    [OpProcess demo_notify_env demo_candidate] with Ret sys => sys | Panic => start ∅ demo_disk end.
Lemma demo_queued_ok : notify_ok (state_of demo_queued).
Proof.
  destruct (notify_run_ok demo_overrides demo_json_len demo_order (start demo_rules demo_disk)
    [OpProcess demo_notify_env demo_candidate]) as (sys & E & Hok & _).
  - apply notify_start_ok; [apply demo_rules_ok|by vm_compute].
  - by apply start_room.
  - by repeat constructor.
  - unfold demo_queued. rewrite E. apply Hok.
Qed.
Definition demo_item : OutboxItem :=
  match s_outbox (state_of demo_queued) !! 1 with Some i => i | None => mk_outbox_item 0 "" 0 Preliminary Browser "" "" "" 0
    StFailed 0 0 0 false false 0 0 0 0 None None None None None None None None end.

(** It is handed out as the first attempt and is in delivery then. *)
Lemma claim_due_takes_best_witness :
  ∃ d s' i, claim_due Webhook 1000 (state_of demo_queued) = Ret (Some d, s') ∧ attempt_key d = (1, 1) ∧
    s_outbox s' !! 1 = Some i ∧ ob_status i = StDelivering.
Proof.
  destruct (claim_due_takes_best Webhook 1000 (state_of demo_queued) demo_queued_ok) as (d & s' & E & Hd & _).
  - constructor; vm_compute; congruence.
  - assert (match claim_due Webhook 1000 (state_of demo_queued) with Ret (Some d, _) => attempt_key d | _ => (0, 0) end
            = (1, 1)) as Hkey by (vm_compute; reflexivity).
    rewrite E in Hkey. destruct d as [d|]; [|discriminate Hkey].
    destruct Hd as (i & i' & l & _ & _ & _ & _ & _ & _ & Hi' & _ & Hs & _).
    exists d, s', i'. split; [exact E|]. split; [exact Hkey|]. split; [|exact Hs].
    assert (dl_id d = 1) as Hid by (injection Hkey as Hid _; exact Hid). rewrite <-Hid. exact Hi'.
Defined.

(** Pruning keeps it, with its notification. *)
Lemma prune_keeps_owed_witness :
  ∃ s', prune demo_order 5000 (state_of demo_queued) = Ret (Ok tt, s') ∧
    s_outbox s' !! 1 = Some demo_item ∧ is_Some (s_logical s' !! ob_logical_id demo_item).
Proof.
  destruct (prune_keeps_owed demo_order 5000 (state_of demo_queued) demo_queued_ok) as (s' & E & Hk & _).
  destruct (Hk 1 demo_item) as [Hi Hl].
  - vm_compute. reflexivity.
  - left. vm_compute. reflexivity.
  - exists s'. split; [exact E|]. split; [exact Hi|]. rewrite Hl.
    assert (is_none (s_logical (state_of demo_queued) !! ob_logical_id demo_item) = false) as Hs by (vm_compute; reflexivity).
    destruct (s_logical (state_of demo_queued) !! ob_logical_id demo_item) as [l|]; [exists l; reflexivity|discriminate Hs].
Defined.
