(* ===== verification/ReoWire.v ===== *)
(** * The Baichuan wire format

    Headers and message framing of Reolink cameras ([reo-proto]: [header.rs],
    [magic.rs], [framing.rs], the receive and send buffers of [session.rs]) and the
    body ciphers ([encryption.rs]).  Bytes are integers from 0 to 255.  The time of the last
    receipt and the statistics counters, which no buffer reads, are left out. *)

From S2P Require Import Prelude.

(** ** Little-endian integers

    [to_le_bytes] and [from_le_bytes] at a width of [n] bytes. *)

Fixpoint to_le (n : nat) (x : Z) : list Z :=
  match n with
  | O => []
  | S n' => x mod 256 :: to_le n' (x / 256)
  end.
Fixpoint from_le (l : list Z) : Z :=
  match l with
  | [] => 0
  | b :: l' => b + 256 * from_le l'
  end.
Definition u32_le : Z → list Z := to_le 4.

(** [u32::from_le_bytes] and [u16::from_le_bytes] of the bytes at an offset that the
    caller has checked. *)
Definition u32_at (data : list Z) (offset : nat) : Z := from_le (take 4 (drop offset data)).
Definition u16_at (data : list Z) (offset : nat) : Z := from_le (take 2 (drop offset data)).

Definition is_byte (b : Z) : Prop := 0 ≤ b < 256.
Definition in_u32 (x : Z) : Prop := 0 ≤ x ≤ u32_max.
Definition u32_wrap (x : Z) : Z := x mod 2 ^ 32.

(** ** Errors *)

Inductive BcError :=
| Incomplete
| BadMagic (magic : list Z)
| InvalidHeader (message : string)
| Encryption (message : string)
| XmlParse (message : string)
| Protocol (message : string)
| AuthFailed (status : Z)
| WrongRole
| BufferTooSmall (needed available : Z)
| MessageTooLarge (size max : Z)
| MediaFrameTooLarge (size max : Z)
| InvalidUdpPacket (message : string)
| UdpChecksumMismatch (expected actual : Z).

(** ** Headers *)

Definition BC_MAGIC : Z := 0x0ABCDEF0.
Definition BC_MAGIC_BYTES : list Z := [0xf0; 0xde; 0xbc; 0x0a].
Definition JPEG_MAGIC : Z := 0x0FEDCBA0.
Definition JPEG_MAGIC_BYTES : list Z := [0xa0; 0xcb; 0xed; 0x0f].
Definition is_header_magic (magic : Z) : bool := (magic =? BC_MAGIC) || (magic =? JPEG_MAGIC).
Definition has_header_magic (data : list Z) : bool :=
  bool_decide (take 4 data = BC_MAGIC_BYTES) || bool_decide (take 4 data = JPEG_MAGIC_BYTES).

Definition HEADER_LEN_SHORT : Z := 20.
Definition HEADER_LEN_EXTENDED : Z := 24.
Definition BC_CLASS_LEGACY : Z := 0x6514.
Definition BC_CLASS_MODERN_SHORT : Z := 0x6614.
Definition BC_CLASS_MODERN_EXT : Z := 0x6414.
Definition make_status (class response_code : Z) : Z := Z.lor (Z.shiftl class 16) response_code.

Record PacketHeader := mk_header {
  h_msg_id : Z;
  h_body_len : Z;
  h_encryption_offset : Z;
  h_status_class : Z;
  h_extension : option Z
}.

Definition channel_id (h : PacketHeader) : Z := Z.land (h_encryption_offset h) 0xFF.
Definition stream_type_id (h : PacketHeader) : Z := Z.land (Z.shiftr (h_encryption_offset h) 8) 0xFF.
Definition message_number (h : PacketHeader) : Z := Z.land (Z.shiftr (h_encryption_offset h) 16) 0xFFFF.
Definition with_message_number (h : PacketHeader) (message_number : Z) : PacketHeader :=
  mk_header (h_msg_id h) (h_body_len h)
    (Z.lor (Z.land (h_encryption_offset h) 0xFFFF) (Z.shiftl message_number 16))
    (h_status_class h) (h_extension h).
Definition header_len (h : PacketHeader) : Z :=
  if is_none (h_extension h) then HEADER_LEN_SHORT else HEADER_LEN_EXTENDED.
Definition bc_class (h : PacketHeader) : Z := Z.land (Z.shiftr (h_status_class h) 16) 0xFFFF.
Definition response_code (h : PacketHeader) : Z := Z.land (h_status_class h) 0xFFFF.
Definition is_binary (h : PacketHeader) : bool := bc_class h =? BC_CLASS_LEGACY.
Definition is_modern (h : PacketHeader) : bool :=
  (bc_class h =? BC_CLASS_MODERN_EXT) || (bc_class h =? BC_CLASS_MODERN_SHORT) || (bc_class h =? 0).
Definition is_extended (h : PacketHeader) : bool :=
  (bc_class h =? BC_CLASS_MODERN_EXT) || (bc_class h =? 0).

Definition header_parse (data : list Z) : result BcError (PacketHeader * Z) :=
  if vec_len data <? HEADER_LEN_SHORT then Err Incomplete
  else
    let magic := u32_at data 0 in
    if negb (is_header_magic magic) then Err (BadMagic (take 4 data))
    else
      let msg_id := u32_at data 4 in
      let body_len := u32_at data 8 in
      let encryption_offset := u32_at data 12 in
      let status_class := u32_at data 16 in
      let class := Z.land (Z.shiftr status_class 16) 0xFFFF in
      let has_extension := (class =? BC_CLASS_MODERN_EXT) || (class =? 0) in
      if has_extension then
        if vec_len data <? HEADER_LEN_EXTENDED then Err Incomplete
        else Ok (mk_header msg_id body_len encryption_offset status_class (Some (u32_at data 20)),
                 HEADER_LEN_EXTENDED)
      else Ok (mk_header msg_id body_len encryption_offset status_class None, HEADER_LEN_SHORT).

(** The bytes [serialize] writes; their number is what it returns. *)
Definition header_serialize (h : PacketHeader) : list Z :=
  u32_le BC_MAGIC ++ u32_le (h_msg_id h) ++ u32_le (h_body_len h) ++ u32_le (h_encryption_offset h)
  ++ u32_le (h_status_class h)
  ++ match h_extension h with Some ext => u32_le ext | None => [] end.

(** ** Framing *)

Record RawMessage := mk_raw { raw_header : PacketHeader; raw_body : list Z }.

Definition MAX_SNAPSHOT_BYTES : Z := 16 * 1024 * 1024.

(** The first offset in [1..len - 3] where a magic begins ([scan_for_magic] of both the
    read buffer and the session). *)
Definition scan_for_magic (data : list Z) : option nat :=
  List.find (λ i, has_header_magic (drop i data)) (seq 1 (length data - 4)).

(** What follows the resynchronization in [try_parse_message]. *)
Definition parse_at_magic (buf : list Z) : result BcError (option RawMessage) * list Z :=
  match header_parse buf with
  | Err Incomplete => (Ok None, buf)
  | Err e => (Err e, buf)
  | Ok (header, hlen) =>
      let body_len := h_body_len header in
      if MAX_SNAPSHOT_BYTES <? body_len then (Err (MessageTooLarge body_len MAX_SNAPSHOT_BYTES), buf)
      else
        match checked_add usize_max hlen body_len with
        | None => (Err (InvalidHeader "message length overflow"), buf)
        | Some total_len =>
            if vec_len buf <? total_len then (Ok None, buf)
            else
              (Ok (Some (mk_raw header (take (Z.to_nat body_len) (drop (Z.to_nat hlen) buf)))),
               drop (Z.to_nat total_len) buf)
        end
  end.

Definition try_parse_message (buf : list Z) : result BcError (option RawMessage) * list Z :=
  if vec_len buf <? HEADER_LEN_SHORT then (Ok None, buf)
  else if has_header_magic buf then parse_at_magic buf
  else
    match scan_for_magic buf with
    | Some offset =>
        let buf := drop offset buf in
        if vec_len buf <? HEADER_LEN_SHORT then (Ok None, buf) else parse_at_magic buf
    | None =>
        let keep := Z.min (vec_len buf) 3 in
        (Ok None, drop (Z.to_nat (vec_len buf - keep)) buf)
    end.

(** ** The session's receive buffer

    [rv_data] is [recv_buf[recv_start..recv_end]] and [rv_start] is [recv_start];
    [compactable] tells that no pending event refers to the buffer.  [dispatch] is the
    session's handling of one message. *)

Record Receiver := mk_receiver {
  rv_capacity : Z;
  rv_start : Z;
  rv_data : list Z
}.

Definition try_compact_recv (compactable : bool) (r : Receiver) : Receiver :=
  if (0 <? rv_start r) && compactable then mk_receiver (rv_capacity r) 0 (rv_data r) else r.

Definition advance_recv (r : Receiver) (n : nat) : Receiver :=
  mk_receiver (rv_capacity r) (rv_start r + Z.of_nat n) (drop n (rv_data r)).

Section receive.
Context {S : Type} (dispatch : PacketHeader → list Z → S → result BcError S).

(** Every turn consumes a byte at least; the fuel is one more than the bytes. *)
Fixpoint parse_loop (fuel : nat) (r : Receiver) (s : S) : outcome (result BcError unit * Receiver * S) :=
  match fuel with
  | O => Panic
  | Datatypes.S fuel' =>
      let data := rv_data r in
      if vec_len data <? HEADER_LEN_SHORT then Ret (Ok tt, r, s)
      else if negb (has_header_magic data) then
        match scan_for_magic data with
        | Some offset => parse_loop fuel' (advance_recv r offset) s
        | None =>
            let keep := Z.min (vec_len data) 3 in
            Ret (Ok tt, advance_recv r (Z.to_nat (vec_len data - keep)), s)
        end
      else
        match header_parse data with
        | Err Incomplete => Ret (Ok tt, r, s)
        | Err e => Ret (Err e, r, s)
        | Ok (header, hlen) =>
            let! total := plain_add usize_max hlen (h_body_len header) in
            if vec_len data <? total then Ret (Ok tt, r, s)
            else
              let body := take (Z.to_nat (h_body_len header)) (drop (Z.to_nat hlen) data) in
              let r := advance_recv r (Z.to_nat total) in
              match dispatch header body s with
              | Err e => Ret (Err e, r, s)
              | Ok s => parse_loop fuel' r s
              end
        end
  end.
Definition parse_messages (r : Receiver) (s : S) : outcome (result BcError unit * Receiver * S) :=
  parse_loop (1 + length (rv_data r)) r s.

Definition handle_tcp_data (compactable : bool) (data : list Z) (r : Receiver) (s : S)
    : outcome (result BcError unit * Receiver * S) :=
  let r := try_compact_recv compactable r in
  let recv_end := rv_start r + vec_len (rv_data r) in
  let! size := plain_add usize_max recv_end (vec_len data) in
  if rv_capacity r <? size then Ret (Err (MessageTooLarge size (rv_capacity r)), r, s)
  else parse_messages (mk_receiver (rv_capacity r) (rv_start r) (rv_data r ++ data)) s.
End receive.

(** ** Ciphers *)

Definition BC_XOR_KEY : list Z := [0x1F; 0x2D; 0x3C; 0x4B; 0x5A; 0x69; 0x78; 0xFF].

Definition bc_xor (channel : Z) (data : list Z) : list Z :=
  let skip := channel mod 8 in
  imap (λ i byte, Z.lxor byte (Z.lxor (nth (Z.to_nat ((skip + Z.of_nat i) mod 8)) BC_XOR_KEY 0) channel)) data.

Inductive EncryptionMode := EncNone | BcEncrypt | Aes | FullAes.

(** AES-128-CFB with the fixed initialization vector, a fresh cipher per call. *)
Record Cipher := mk_cipher {
  aes_encrypt : list Z → list Z → list Z;
  aes_decrypt : list Z → list Z → list Z
}.

(** [if len > 0 { apply }]. *)
Definition on_part (apply : list Z → list Z) (l : list Z) : list Z :=
  match l with [] => [] | _ => apply l end.
(** [apply] on the two regions of a body, each with a fresh cipher state. *)
Definition on_regions (apply : list Z → list Z) (payload_offset : option Z) (body : list Z) : list Z :=
  let ext_len := Z.to_nat (Z.min (unwrap_or payload_offset 0) (u32_wrap (vec_len body))) in
  on_part apply (take ext_len body) ++ on_part apply (drop ext_len body).

Section ciphers.
Context (aes : Cipher).

Definition decrypt_body (mode : EncryptionMode) (aes_key : option (list Z)) (channel : Z)
    (payload_offset : option Z) (body : list Z) : list Z :=
  match mode with
  | BcEncrypt => on_regions (bc_xor channel) payload_offset body
  | Aes | FullAes =>
      match aes_key with
      | Some key => on_regions (aes_decrypt aes key) payload_offset body
      | None => body
      end
  | EncNone => body
  end.
Definition encrypt_body (mode : EncryptionMode) (aes_key : option (list Z)) (channel : Z)
    (payload_offset : option Z) (body : list Z) : list Z :=
  match mode with
  | BcEncrypt => on_regions (bc_xor channel) payload_offset body
  | Aes | FullAes =>
      match aes_key with
      | Some key => on_regions (aes_encrypt aes key) payload_offset body
      | None => body
      end
  | EncNone => body
  end.

(** ** The session's send buffer

    [sd_data] is [send_buf[send_start..send_end]], [sd_start] is [send_start]. *)

Record Sender := mk_sender { sd_capacity : Z; sd_start : Z; sd_data : list Z }.

Definition COMMAND_LOGIN : Z := 1.

(** [reserve_send] with the header written; the body is appended by the caller.  The
    lengths of slices in memory are at most half the range of [usize]. *)
Definition reserve_send (h : PacketHeader) (body_len : Z) (sd : Sender) : result BcError unit * Sender :=
  let hdr := header_serialize h in
  match checked_add usize_max (vec_len hdr) body_len with
  | None => (Err (Protocol "outgoing message length overflow"), sd)
  | Some total =>
      let send_end sd := sd_start sd + vec_len (sd_data sd) in
      let sd := if (sd_capacity sd <? send_end sd + total) && (0 <? sd_start sd)
                then mk_sender (sd_capacity sd) 0 (sd_data sd) else sd in
      if sd_capacity sd <? send_end sd + total
      then (Err (BufferTooSmall (send_end sd + total) (sd_capacity sd)), sd)
      else (Ok tt, mk_sender (sd_capacity sd) (sd_start sd) (sd_data sd ++ hdr))
  end.

(** The body as [queue_send] leaves it in the buffer. *)
Definition sealed_body (mode : EncryptionMode) (aes_key : option (list Z)) (h : PacketHeader) (body : list Z)
    : list Z :=
  match body with
  | [] => []
  | _ => if negb (h_msg_id h =? COMMAND_LOGIN)
         then encrypt_body mode aes_key (channel_id h) (h_extension h) body else body
  end.

Definition queue_send (mode : EncryptionMode) (aes_key : option (list Z)) (h : PacketHeader) (body : list Z)
    (sd : Sender) : result BcError unit * Sender :=
  match reserve_send h (vec_len body) sd with
  | (Err e, sd) => (Err e, sd)
  | (Ok _, sd) =>
      (Ok tt, mk_sender (sd_capacity sd) (sd_start sd) (sd_data sd ++ sealed_body mode aes_key h body))
  end.

(** The part of [poll_output] that drains queued bytes into a buffer of [n] bytes. *)
Definition poll_send (n : nat) (sd : Sender) : option (list Z) * Sender :=
  match sd_data sd with
  | [] => (None, sd)
  | _ =>
      let out := take n (sd_data sd) in
      let rest := drop n (sd_data sd) in
      (Some out, match rest with
                 | [] => mk_sender (sd_capacity sd) 0 []
                 | _ => mk_sender (sd_capacity sd) (sd_start sd + vec_len out) rest
                 end)
  end.
End ciphers.
