(* ===== verification/ReoFraming.v ===== *)
(** * Framing of Baichuan messages is exact

    Headers, bodies and ciphers round-trip; a receiver recovers exactly the messages of
    a stream, however it is cut into chunks and whatever noise lies between them. *)

From S2P Require Import Prelude ReoWire.

(** ** Little-endian integers *)

Lemma to_le_length n x : length (to_le n x) = n.
Proof. revert x. induction n as [|n IH]; intros x; cbn [to_le length]; [done|]. by rewrite IH. Qed.
Lemma from_to_le n x : 0 ≤ x < 256 ^ Z.of_nat n → from_le (to_le n x) = x.
Proof.
  revert x. induction n as [|n IH]; intros x Hx; cbn [to_le from_le].
  - change (256 ^ Z.of_nat 0) with 1 in Hx. lia.
  - rewrite Nat2Z.inj_succ, Z.pow_succ_r in Hx by lia. rewrite IH.
    + pose proof (Z.div_mod x 256). lia.
    + split; [apply Z.div_pos; lia|]. apply Z.div_lt_upper_bound; lia.
Qed.
Lemma u32_le_length x : length (u32_le x) = 4%nat.
Proof. apply to_le_length. Qed.
Lemma from_u32_le x : in_u32 x → from_le (u32_le x) = x.
Proof. intros [? Hx]. apply from_to_le. change (256 ^ Z.of_nat 4) with (u32_max + 1). lia. Qed.
Lemma to_le_bytes n x : Forall is_byte (to_le n x).
Proof.
  revert x. induction n as [|n IH]; intros x; cbn [to_le]; constructor; [|apply IH].
  unfold is_byte. apply Z.mod_pos_bound. lia.
Qed.

(** The bytes after a prefix. *)
Lemma u32_at_app pre l n : length pre = n → u32_at (pre ++ l) n = from_le (take 4 l).
Proof. intros <-. unfold u32_at. by rewrite drop_app_length. Qed.
Lemma u32_at_le pre x l n : length pre = n → in_u32 x → u32_at (pre ++ u32_le x ++ l) n = x.
Proof.
  intros Hn Hx. rewrite u32_at_app by done. rewrite take_app_le by (by rewrite u32_le_length).
  rewrite take_ge by (by rewrite u32_le_length). by apply from_u32_le.
Qed.

(** ** Headers *)

(** A header that the type of the record allows, with the extension its class asks for. *)
Record header_ok (h : PacketHeader) : Prop := {
  ho_msg_id : in_u32 (h_msg_id h);
  ho_body_len : in_u32 (h_body_len h);
  ho_encryption_offset : in_u32 (h_encryption_offset h);
  ho_status_class : in_u32 (h_status_class h);
  ho_extension : match h_extension h with Some ext => in_u32 ext | None => True end;
  ho_extended : is_extended h = negb (is_none (h_extension h))
}.

Lemma serialize_length h : vec_len (header_serialize h) = header_len h.
Proof.
  unfold header_serialize, header_len, vec_len, u32_le. rewrite !length_app, !to_le_length.
  by destruct (h_extension h).
Qed.

Lemma serialize_magic h l : take 4 (header_serialize h ++ l) = BC_MAGIC_BYTES.
Proof. unfold header_serialize. rewrite <-app_assoc. apply take_app_length'. reflexivity. Qed.

Lemma parse_serialize h l : header_ok h → header_parse (header_serialize h ++ l) = Ok (h, header_len h).
Proof.
  intros [H1 H2 H3 H4 H5 H6].
  assert (20 ≤ vec_len (header_serialize h ++ l)) as Hlen.
  { unfold vec_len. rewrite length_app. pose proof (serialize_length h) as E. unfold vec_len, header_len in E.
    destruct (is_none _) in E; change HEADER_LEN_SHORT with 20 in E; change HEADER_LEN_EXTENDED with 24 in E; lia. }
  unfold header_parse. rewrite (proj2 (Z.ltb_ge _ _)) by (change HEADER_LEN_SHORT with 20; lia).
  assert (u32_at (header_serialize h ++ l) 0 = BC_MAGIC) as -> by (unfold u32_at; rewrite drop_0, serialize_magic; reflexivity).
  cbn [is_header_magic]. change (is_header_magic BC_MAGIC) with true. cbn [negb].
  assert (∀ a b x c n, header_serialize h ++ l = a ++ u32_le x ++ c → length a = n → in_u32 x → b = x →
    u32_at (header_serialize h ++ l) n = b) as Hat by (intros a b x c n -> Hn Hx ->; by apply u32_at_le).
  unfold header_serialize in *.
  rewrite (Hat (u32_le BC_MAGIC) (h_msg_id h) (h_msg_id h) _ 4%nat) by
    (first [by rewrite <-!app_assoc|reflexivity|done]).
  rewrite (Hat (u32_le BC_MAGIC ++ u32_le (h_msg_id h)) (h_body_len h) (h_body_len h) _ 8%nat) by
    (first [by rewrite <-!app_assoc|by rewrite !length_app, !u32_le_length|done]).
  rewrite (Hat (u32_le BC_MAGIC ++ u32_le (h_msg_id h) ++ u32_le (h_body_len h)) (h_encryption_offset h)
    (h_encryption_offset h) _ 12%nat) by
    (first [by rewrite <-!app_assoc|by rewrite !length_app, !u32_le_length|done]).
  rewrite (Hat (u32_le BC_MAGIC ++ u32_le (h_msg_id h) ++ u32_le (h_body_len h) ++ u32_le (h_encryption_offset h))
    (h_status_class h) (h_status_class h) _ 16%nat) by
    (first [by rewrite <-!app_assoc|by rewrite !length_app, !u32_le_length|done]).
  change (((Z.land (Z.shiftr (h_status_class h) 16) 0xFFFF =? BC_CLASS_MODERN_EXT)
    || (Z.land (Z.shiftr (h_status_class h) 16) 0xFFFF =? 0))) with (is_extended h).
  rewrite H6. unfold header_len. destruct h as [mi bl eo sc [ext|]]; cbn [h_extension is_none negb h_msg_id h_body_len h_encryption_offset h_status_class] in *; [|done].
  rewrite (proj2 (Z.ltb_ge _ _)).
  - do 3 f_equal. rewrite (Hat (u32_le BC_MAGIC ++ u32_le mi ++ u32_le bl ++ u32_le eo ++ u32_le sc) ext ext l 20%nat);
      [done|by rewrite <-!app_assoc|by rewrite !length_app, !u32_le_length|done|done].
  - unfold vec_len. rewrite !length_app, !u32_le_length. change HEADER_LEN_EXTENDED with 24. lia.
Qed.

Lemma u32_at_prefix data rest n : (n + 4 ≤ length data)%nat → u32_at (data ++ rest) n = u32_at data n.
Proof.
  intros Hn. unfold u32_at. rewrite drop_app_le by lia. rewrite take_app_le; [done|]. rewrite length_drop. lia.
Qed.

(** A prefix of a header is incomplete until the header is there. *)
Lemma parse_prefix data rest h hl :
  HEADER_LEN_SHORT ≤ vec_len data → header_parse (data ++ rest) = Ok (h, hl) →
  header_parse data = if vec_len data <? hl then Err Incomplete else Ok (h, hl).
Proof.
  intros Hlen. unfold header_parse. change HEADER_LEN_SHORT with 20 in *. change HEADER_LEN_EXTENDED with 24 in *.
  unfold vec_len in *. rewrite length_app, Nat2Z.inj_add. rewrite !(proj2 (Z.ltb_ge _ 20)) by lia.
  rewrite !(u32_at_prefix data rest) by lia. destruct (negb _); [done|]. destruct (_ || _) eqn:Hext.
  - destruct (Z.of_nat (length data) + _ <? 24) eqn:E1; [done|]. intros [= <- <-].
    destruct (Z.of_nat (length data) <? 24) eqn:E2; [done|].
    apply Z.ltb_ge in E2. by rewrite u32_at_prefix by lia.
  - intros [= <- <-]. by rewrite (proj2 (Z.ltb_ge _ 20)) by lia.
Qed.

(** ** Streams of messages *)

Record message_ok (m : RawMessage) : Prop := {
  mo_header : header_ok (raw_header m);
  mo_body_len : h_body_len (raw_header m) = vec_len (raw_body m);
  mo_fits : vec_len (raw_body m) ≤ MAX_SNAPSHOT_BYTES
}.
Definition wire_bytes (m : RawMessage) : list Z := header_serialize (raw_header m) ++ raw_body m.

(** No magic begins in the first [n] positions. *)
Definition magic_free (n : nat) (s : list Z) : Prop := ∀ i, (i < n)%nat → has_header_magic (drop i s) = false.

(** A stream of messages, with bytes before, between and after them in which no magic
    begins. *)
Inductive noisy : list RawMessage → list Z → Prop :=
| noisy_end g : magic_free (length g) g → noisy [] g
| noisy_message g m ms s :
    magic_free (length g) (g ++ wire_bytes m ++ s) → message_ok m → noisy ms s →
    noisy (m :: ms) (g ++ wire_bytes m ++ s).

Lemma magic_short s : (length s < 4)%nat → has_header_magic s = false.
Proof.
  intros Hs. unfold has_header_magic. apply orb_false_iff.
  split; apply bool_decide_eq_false; intros H; apply (f_equal length) in H; rewrite length_take in H;
    [change (length BC_MAGIC_BYTES) with 4%nat in H|change (length JPEG_MAGIC_BYTES) with 4%nat in H]; lia.
Qed.
Lemma magic_prefix data rest : (4 ≤ length data)%nat → has_header_magic (data ++ rest) = has_header_magic data.
Proof. intros Hl. unfold has_header_magic. by rewrite take_app_le by lia. Qed.
Lemma wire_magic m s : has_header_magic (wire_bytes m ++ s) = true.
Proof.
  unfold has_header_magic, wire_bytes. rewrite <-app_assoc, serialize_magic. by rewrite bool_decide_true.
Qed.
Lemma wire_length m : message_ok m → vec_len (wire_bytes m) = header_len (raw_header m) + h_body_len (raw_header m).
Proof.
  intros Hm. unfold wire_bytes, vec_len. rewrite length_app, Nat2Z.inj_add.
  change (Z.of_nat (length (header_serialize _))) with (vec_len (header_serialize (raw_header m))).
  by rewrite serialize_length, (mo_body_len _ Hm).
Qed.
Lemma header_len_range h : 20 ≤ header_len h ≤ 24.
Proof. unfold header_len. by destruct (is_none _). Qed.

(** Noise can be dropped a byte at a time. *)
Lemma noisy_drop1 ms s : noisy ms s → has_header_magic s = false → noisy ms (drop 1 s).
Proof.
  intros [g Hg|g m ms' s' Hg Hm Hs] Hno.
  - constructor. intros i Hi. rewrite length_drop in Hi. rewrite drop_drop. apply Hg. lia.
  - destruct g as [|b g]; [cbn [app] in Hno; by rewrite wire_magic in Hno|]. cbn [app drop].
    constructor; [|done|done]. intros i Hi. apply (Hg (S i)). cbn. lia.
Qed.
Lemma noisy_drop n ms s : noisy ms s → magic_free n s → noisy ms (drop n s).
Proof.
  induction n as [|n IH]; intros Hs Hn; [by rewrite drop_0|].
  replace (S n) with (n + 1)%nat by lia. rewrite <-drop_drop.
  apply noisy_drop1; [apply IH; [done|]; intros i Hi; apply Hn; lia|]. apply Hn. lia.
Qed.

(** At a magic stands a message. *)
Lemma noisy_at_magic ms s :
  noisy ms s → has_header_magic s = true →
  ∃ m ms' s', ms = m :: ms' ∧ s = wire_bytes m ++ s' ∧ message_ok m ∧ noisy ms' s'.
Proof.
  intros [g Hg|g m ms' s' Hg Hm Hs] Hmagic.
  - destruct g as [|b g]; [discriminate|]. specialize (Hg 0%nat ltac:(cbn; lia)). rewrite drop_0 in Hg.
    by rewrite Hg in Hmagic.
  - destruct g as [|b g]; [by eexists _, _, _|]. specialize (Hg 0%nat ltac:(cbn; lia)). rewrite drop_0 in Hg.
    by rewrite Hg in Hmagic.
Qed.

(** [scan_for_magic] finds the first magic after the first byte. *)
Lemma scan_Some data n :
  scan_for_magic data = Some n →
  (1 ≤ n)%nat ∧ (n + 4 ≤ length data)%nat ∧ has_header_magic (drop n data) = true ∧
  ∀ i, (1 ≤ i < n)%nat → has_header_magic (drop i data) = false.
Proof.
  unfold scan_for_magic. remember (length data - 4)%nat as k eqn:Hk. intros H.
  assert (∀ a j, List.find (λ i, has_header_magic (drop i data)) (seq a j) = Some n →
    (a ≤ n < a + j)%nat ∧ has_header_magic (drop n data) = true ∧
    ∀ i, (a ≤ i < n)%nat → has_header_magic (drop i data) = false) as Hgen.
  { clear H. intros a j. revert a. induction j as [|j IH]; intros a; cbn [seq List.find]; [done|].
    destruct (has_header_magic (drop a data)) eqn:E.
    - intros [= <-]. split; [lia|]. split; [done|]. lia.
    - intros H. destruct (IH _ H) as (H1 & H2 & H3). split; [lia|]. split; [done|]. intros i Hi.
      destruct (decide (i = a)) as [->|]; [done|]. apply H3. lia. }
  destruct (Hgen _ _ H) as (H1 & H2 & H3). split; [lia|]. split; [lia|]. done.
Qed.
Lemma scan_None data i :
  scan_for_magic data = None → (1 ≤ i)%nat → (i + 4 ≤ length data)%nat → has_header_magic (drop i data) = false.
Proof. intros H Hi Hl. eapply List.find_none in H; [exact H|]. apply in_seq. lia. Qed.

Lemma noisy_short ms s : noisy ms s → vec_len s < HEADER_LEN_SHORT → ms = [].
Proof.
  intros [g _|g m ms' s' _ Hm _] Hs; [done|]. exfalso. revert Hs.
  change HEADER_LEN_SHORT with 20. unfold vec_len. rewrite !length_app.
  pose proof (wire_length m Hm) as Hw. pose proof (header_len_range (raw_header m)).
  pose proof (ho_body_len _ (mo_header _ Hm)) as [? _]. unfold vec_len in Hw. lia.
Qed.

(** What a receiver sees of the message at a magic. *)
Lemma parse_noisy ms data rest :
  noisy ms (data ++ rest) → HEADER_LEN_SHORT ≤ vec_len data → has_header_magic data = true →
  ∃ m ms', ms = m :: ms' ∧ message_ok m ∧
    header_parse data = (if vec_len data <? header_len (raw_header m) then Err Incomplete
                         else Ok (raw_header m, header_len (raw_header m))) ∧
    (vec_len (data ++ rest) < vec_len (wire_bytes m) → False) ∧
    (vec_len (wire_bytes m) ≤ vec_len data →
       take (Z.to_nat (h_body_len (raw_header m))) (drop (Z.to_nat (header_len (raw_header m))) data) = raw_body m ∧
       noisy ms' (drop (Z.to_nat (vec_len (wire_bytes m))) data ++ rest)).
Proof.
  intros Hs Hlen Hmagic. rewrite <-(magic_prefix data rest) in Hmagic
    by (change HEADER_LEN_SHORT with 20 in Hlen; unfold vec_len in Hlen; lia).
  destruct (noisy_at_magic _ _ Hs Hmagic) as (m & ms' & s' & -> & Es & Hm & Hs').
  exists m, ms'. split; [done|]. split; [done|]. split_and!.
  - apply parse_prefix with rest; [done|]. rewrite Es. unfold wire_bytes. rewrite <-app_assoc.
    apply parse_serialize. apply Hm.
  - rewrite Es. unfold vec_len. rewrite length_app. lia.
  - intros Hle. assert (∃ d, data = wire_bytes m ++ d ∧ s' = d ++ rest) as (d & -> & ->).
    { exists (drop (length (wire_bytes m)) data). unfold vec_len in Hle.
      assert (take (length (wire_bytes m)) data = wire_bytes m) as Ht.
      { rewrite <-(take_app_le data rest) by lia. by rewrite Es, take_app_length. }
      rewrite <-Ht at 1. rewrite take_drop. split; [done|].
      rewrite <-drop_app_le by lia. by rewrite Es, drop_app_length. }
    split.
    + unfold wire_bytes. rewrite <-app_assoc. rewrite <-serialize_length. unfold vec_len at 1. rewrite Nat2Z.id.
      rewrite drop_app_length. rewrite (mo_body_len _ Hm). unfold vec_len. by rewrite Nat2Z.id, take_app_length.
    + unfold vec_len. by rewrite Nat2Z.id, drop_app_length.
Qed.

(** Resynchronizing loses no message. *)
Lemma noise_skipped ms data rest n :
  noisy ms (data ++ rest) → has_header_magic data = false → scan_for_magic data = Some n →
  noisy ms (drop n data ++ rest) ∧ (1 ≤ n)%nat ∧ (n + 4 ≤ length data)%nat.
Proof.
  intros Hs Hno Hscan. destruct (scan_Some _ _ Hscan) as (H1 & H2 & H3 & H4). split; [|done].
  rewrite <-drop_app_le by lia. apply noisy_drop; [done|].
  intros i Hi. rewrite drop_app_le by lia. rewrite magic_prefix by (rewrite length_drop; lia).
  destruct i; [by rewrite drop_0|]. apply H4. lia.
Qed.
Lemma noise_kept ms data rest :
  noisy ms (data ++ rest) → has_header_magic data = false → scan_for_magic data = None → (3 ≤ length data)%nat →
  noisy ms (drop (Z.to_nat (vec_len data - Z.min (vec_len data) 3)) data ++ rest) ∧
  length (drop (Z.to_nat (vec_len data - Z.min (vec_len data) 3)) data) = 3%nat.
Proof.
  intros Hs Hno Hscan Hl. unfold vec_len. rewrite Z.min_r by lia.
  replace (Z.to_nat (Z.of_nat (length data) - 3)) with (length data - 3)%nat by lia.
  split; [|rewrite length_drop; lia].
  rewrite <-drop_app_le by lia. apply noisy_drop; [done|]. intros i Hi. rewrite drop_app_le by lia.
  rewrite magic_prefix by (rewrite length_drop; lia). destruct i; [by rewrite drop_0|].
  apply scan_None; [done|lia|lia].
Qed.

Section session_receive.
Context {S : Type} (dispatch : PacketHeader → list Z → S → result BcError S).

(** Dispatching messages one after another. *)
Fixpoint dispatch_all (ms : list RawMessage) (s : S) : result BcError S :=
  match ms with
  | [] => Ok s
  | m :: ms' => let? s := dispatch (raw_header m) (raw_body m) s in dispatch_all ms' s
  end.
Lemma dispatch_all_app a b s : dispatch_all (a ++ b) s = let? s := dispatch_all a s in dispatch_all b s.
Proof. revert s. induction a as [|m a IH]; intros s; cbn; [done|]. destruct (dispatch _ _ s); cbn; [apply IH|done]. Qed.

(** The receiver dispatched [done], waits for the rest of [todo], and holds less than
    one message. *)
Record received (limit : Z) (ms : list RawMessage) (rest : list Z) (s : S) (r : Receiver)
    (out : outcome (result BcError unit * Receiver * S)) : Prop := {
  rc_result : ∃ done todo r' s', out = Ret (Ok tt, r', s') ∧ ms = done ++ todo ∧ dispatch_all done s = Ok s' ∧
    noisy todo (rv_data r' ++ rest) ∧ rv_capacity r' = rv_capacity r ∧
    rv_start r ≤ rv_start r' ∧ vec_len (rv_data r') ≤ limit ∧ (rest = [] → todo = [])
}.

Lemma received_stop limit ms rest s r r' :
  noisy ms (rv_data r' ++ rest) → rv_capacity r' = rv_capacity r →
  rv_start r ≤ rv_start r' → vec_len (rv_data r') ≤ limit → (rest = [] → ms = []) →
  received limit ms rest s r (Ret (Ok tt, r', s)).
Proof. intros. constructor. by exists [], ms, r', s. Qed.
Lemma received_advance limit ms rest s r n out :
  received limit ms rest s (advance_recv r n) out → received limit ms rest s r out.
Proof.
  intros [(dn & todo & r' & s' & -> & -> & Hd & Hs & Hc & He & Hl & Hr)]. constructor.
  exists dn, todo, r', s'. split_and!; try done. cbn in He. lia.
Qed.
Lemma received_message limit m ms rest s s1 r out :
  dispatch (raw_header m) (raw_body m) s = Ok s1 → received limit ms rest s1 r out → received limit (m :: ms) rest s r out.
Proof.
  intros Hd [(done & todo & r' & s' & -> & -> & Hs & Hrest)]. constructor.
  exists (m :: done), todo, r', s'. split; [done|]. split; [done|]. split; [cbn; by rewrite Hd|done].
Qed.

Lemma parse_loop_ok limit fuel r s rest ms s_end :
  noisy ms (rv_data r ++ rest) → dispatch_all ms s = Ok s_end → (length (rv_data r) < fuel)%nat →
  Forall (λ m, vec_len (wire_bytes m) ≤ limit) ms → 20 ≤ limit →
  received limit ms rest s r (parse_loop dispatch fuel r s).
Proof.
  revert r s ms. induction fuel as [|fuel IH]; intros r s ms Hs Hd Hfuel Hm Hlimit; [lia|]. cbn [parse_loop].
  destruct (vec_len (rv_data r) <? HEADER_LEN_SHORT) eqn:Hshort.
  { apply Z.ltb_lt in Hshort. apply received_stop; try done; [change HEADER_LEN_SHORT with 20 in Hshort; lia|].
    intros ->. rewrite app_nil_r in Hs. by eapply noisy_short. }
  apply Z.ltb_ge in Hshort. destruct (has_header_magic (rv_data r)) eqn:Hmagic; cbn [negb].
  2: { change HEADER_LEN_SHORT with 20 in Hshort. destruct (scan_for_magic (rv_data r)) as [n|] eqn:Hscan.
    - destruct (noise_skipped _ _ _ _ Hs Hmagic Hscan) as (Hn & H1 & H2). apply received_advance with n.
      apply IH; try done. unfold advance_recv; cbn; rewrite length_drop; lia.
    - destruct (noise_kept _ _ _ Hs Hmagic Hscan) as [Hn Hlen3]; [unfold vec_len in Hshort; lia|].
      apply received_stop; unfold advance_recv; cbn [rv_data rv_capacity rv_start]; try done.
      + lia.
      + unfold vec_len in *. lia.
      + intros ->. rewrite app_nil_r in Hn. apply noisy_short in Hn; [done|]. unfold vec_len at 1. rewrite Hlen3. done. }
  destruct (parse_noisy _ _ _ Hs Hshort Hmagic) as (m & ms' & -> & Hok & -> & Hcomplete & Hbody).
  pose proof (wire_length m Hok) as Hwire. pose proof (header_len_range (raw_header m)) as Hhl.
  pose proof (ho_body_len _ (mo_header _ Hok)) as [Hb1 Hb2]. apply Forall_cons in Hm as [Hm Hms].
  assert (rest = [] → vec_len (rv_data r) < vec_len (wire_bytes m) → m :: ms' = []) as Hend.
  { intros ->. rewrite app_nil_r in Hcomplete. lia. }
  destruct (vec_len (rv_data r) <? header_len (raw_header m)) eqn:Hinc.
  { apply Z.ltb_lt in Hinc. apply received_stop; try done; [lia|]. intros Hr. apply Hend; [done|lia]. }
  apply Z.ltb_ge in Hinc. unfold plain_add. rewrite (proj2 (Z.leb_le _ _))
    by (change usize_max with (2 ^ 64 - 1); change u32_max with (2 ^ 32 - 1) in Hb2; lia).
  cbn [obind]. rewrite <-Hwire. destruct (vec_len (rv_data r) <? vec_len (wire_bytes m)) eqn:Htot.
  { apply Z.ltb_lt in Htot. apply received_stop; try done; [lia|]. intros Hr. apply Hend; [done|lia]. }
  apply Z.ltb_ge in Htot. destruct (Hbody Htot) as [-> Hrest]. cbn in Hd.
  destruct (dispatch (raw_header m) (raw_body m) s) as [s1|] eqn:Hd1; [|done]. cbn in Hd.
  apply received_message with s1; [done|]. apply received_advance with (Z.to_nat (vec_len (wire_bytes m))).
  apply IH; try done. unfold advance_recv, vec_len in *. cbn [rv_data]. rewrite length_drop. lia.
Qed.

(** The bytes of a connection arrive in chunks; the caller drains the events between
    them, so that the buffer can be compacted. *)
Fixpoint feed (chunks : list (list Z)) (r : Receiver) (s : S) : outcome (result BcError unit * Receiver * S) :=
  match chunks with
  | [] => Ret (Ok tt, r, s)
  | c :: chunks' =>
      let! (v, r, s) := handle_tcp_data dispatch true c r s in
      match v with
      | Err e => Ret (Err e, r, s)
      | Ok _ => feed chunks' r s
      end
  end.

Lemma feed_ok limit capacity chunks r s ms s_end :
  noisy ms (rv_data r ++ concat chunks) → dispatch_all ms s = Ok s_end →
  Forall (λ m, vec_len (wire_bytes m) ≤ limit) ms → 20 ≤ limit →
  Forall (λ c, limit + vec_len c ≤ capacity) chunks → capacity ≤ usize_max → rv_capacity r = capacity →
  0 ≤ rv_start r → vec_len (rv_data r) ≤ limit → (concat chunks = [] → ms = []) →
  ∃ r', feed chunks r s = Ret (Ok tt, r', s_end).
Proof.
  intros Hs Hd Hm Hlimit Hc Hcap. revert r s ms Hs Hd Hm.
  induction Hc as [|c chunks Hc Hcs IH]; intros r s ms Hs Hd Hm Hrc Hst Hlen Hend.
  { rewrite (Hend eq_refl) in Hd. injection Hd as <-. by exists r. }
  cbn [feed concat] in *. unfold handle_tcp_data.
  assert (try_compact_recv true r = mk_receiver capacity 0 (rv_data r)) as ->.
  { unfold try_compact_recv. destruct r as [cap start data]; cbn in *. subst cap.
    destruct (0 <? start) eqn:E; cbn; [done|]. apply Z.ltb_ge in E. by replace start with 0 by lia. }
  cbn [rv_start rv_data rv_capacity]. unfold plain_add. rewrite (proj2 (Z.leb_le _ _)) by lia. cbn [obind].
  rewrite (proj2 (Z.ltb_ge _ _)) by lia. unfold parse_messages. cbn [rv_data].
  rewrite app_assoc in Hs.
  destruct (parse_loop_ok limit (1 + length (rv_data r ++ c)) (mk_receiver capacity 0 (rv_data r ++ c)) s
    (concat chunks) ms s_end Hs Hd) as [(dn & todo & r' & s' & -> & -> & Hd' & Hs' & Hc' & He & Hl & Hr)];
    [cbn; lia|done|done|]. cbn [obind]. rewrite dispatch_all_app, Hd' in Hd. cbn in Hd.
  apply IH with todo; try done.
  apply Forall_app in Hm. apply Hm.
Qed.
End session_receive.

(** ** The read buffer *)

(** Parsing until no complete message is left. *)
Fixpoint read_all (fuel : nat) (buf : list Z) : outcome (result BcError (list RawMessage) * list Z) :=
  match fuel with
  | O => Panic
  | Datatypes.S fuel' =>
      match try_parse_message buf with
      | (Err e, buf) => Ret (Err e, buf)
      | (Ok None, buf) => Ret (Ok [], buf)
      | (Ok (Some m), buf) =>
          let! (v, buf) := read_all fuel' buf in
          Ret ((let? ms := v in Ok (m :: ms)), buf)
      end
  end.
Fixpoint read_chunks (chunks : list (list Z)) (buf : list Z) : outcome (result BcError (list RawMessage) * list Z) :=
  match chunks with
  | [] => Ret (Ok [], buf)
  | c :: chunks' =>
      let! (v, buf) := read_all (1 + length (buf ++ c)) (buf ++ c) in
      match v with
      | Err e => Ret (Err e, buf)
      | Ok ms =>
          let! (v, buf) := read_chunks chunks' buf in
          Ret ((let? rest := v in Ok (ms ++ rest)), buf)
      end
  end.

(** A message comes out, or the buffer waits for the rest of one. *)
Definition parses (ms : list RawMessage) (buf rest : list Z) (out : result BcError (option RawMessage) * list Z) : Prop :=
  (∃ m ms' buf', out = (Ok (Some m), buf') ∧ ms = m :: ms' ∧ noisy ms' (buf' ++ rest) ∧ (length buf' < length buf)%nat) ∨
  (∃ buf', out = (Ok None, buf') ∧ noisy ms (buf' ++ rest) ∧ (rest = [] → ms = [])).

Lemma parse_at_magic_ok ms buf rest :
  noisy ms (buf ++ rest) → HEADER_LEN_SHORT ≤ vec_len buf → has_header_magic buf = true →
  parses ms buf rest (parse_at_magic buf).
Proof.
  intros Hs Hshort Hmagic. destruct (parse_noisy _ _ _ Hs Hshort Hmagic) as (m & ms' & -> & Hok & Hp & Hcomplete & Hbody).
  pose proof (wire_length m Hok) as Hwire. pose proof (header_len_range (raw_header m)) as Hhl.
  pose proof (ho_body_len _ (mo_header _ Hok)) as [Hb1 Hb2]. pose proof (mo_fits _ Hok) as Hfits.
  rewrite <-(mo_body_len _ Hok) in Hfits. unfold parse_at_magic. rewrite Hp.
  assert (vec_len buf < vec_len (wire_bytes m) → parses (m :: ms') buf rest (Ok None, buf)) as Hwait.
  { intros Hlt. apply or_intror. exists buf. split; [done|]. split; [done|]. intros ->. rewrite app_nil_r in Hcomplete. lia. }
  destruct (vec_len buf <? header_len (raw_header m)) eqn:Hinc; [apply Z.ltb_lt in Hinc; apply Hwait; lia|].
  rewrite (proj2 (Z.ltb_ge _ _)) by lia. unfold checked_add. rewrite (proj2 (Z.leb_le _ _))
    by (change usize_max with (2 ^ 64 - 1); change u32_max with (2 ^ 32 - 1) in Hb2; lia).
  rewrite <-Hwire. destruct (vec_len buf <? vec_len (wire_bytes m)) eqn:Htot; [apply Z.ltb_lt in Htot; by apply Hwait|].
  apply Z.ltb_ge in Htot. destruct (Hbody Htot) as [-> Hrest]. apply or_introl. destruct m as [h b].
  eexists _, _, _. split_and!; [done|done|done|]. unfold vec_len in *. rewrite length_drop. lia.
Qed.

Lemma try_parse_ok ms buf rest : noisy ms (buf ++ rest) → parses ms buf rest (try_parse_message buf).
Proof.
  intros Hs. unfold try_parse_message. change HEADER_LEN_SHORT with 20.
  assert (∀ b, noisy ms (b ++ rest) → vec_len b < 20 → parses ms buf rest (Ok None, b)) as Hwait.
  { intros b Hb Hlt. apply or_intror. exists b. split; [done|]. split; [done|]. intros ->. rewrite app_nil_r in Hb.
    by eapply noisy_short. }
  destruct (vec_len buf <? 20) eqn:Hshort; [apply Z.ltb_lt in Hshort; by apply Hwait|]. apply Z.ltb_ge in Hshort.
  destruct (has_header_magic buf) eqn:Hmagic; [by apply parse_at_magic_ok|].
  destruct (scan_for_magic buf) as [n|] eqn:Hscan.
  - destruct (noise_skipped _ _ _ _ Hs Hmagic Hscan) as (Hn & H1 & H2).
    destruct (vec_len (drop n buf) <? 20) eqn:E; [apply Z.ltb_lt in E; by apply Hwait|]. apply Z.ltb_ge in E.
    destruct (parse_at_magic_ok _ _ _ Hn E) as [(m & ms' & b & -> & -> & Hb & Hl)|H]; [by apply scan_Some in Hscan as (_ & _ & ? & _)| |by apply or_intror].
    apply or_introl. exists m, ms', b. split_and!; try done. rewrite length_drop in Hl. lia.
  - destruct (noise_kept _ _ _ Hs Hmagic Hscan) as [Hn Hl]; [unfold vec_len in Hshort; lia|].
    apply Hwait; [done|]. unfold vec_len at 1. rewrite Hl. done.
Qed.

Lemma read_all_ok fuel ms buf rest :
  noisy ms (buf ++ rest) → (length buf < fuel)%nat →
  ∃ done todo buf', read_all fuel buf = Ret (Ok done, buf') ∧ ms = done ++ todo ∧ noisy todo (buf' ++ rest) ∧
    (rest = [] → todo = []).
Proof.
  revert ms buf. induction fuel as [|fuel IH]; intros ms buf Hs Hf; [lia|]. cbn [read_all].
  destruct (try_parse_ok _ _ _ Hs) as [(m & ms' & b & -> & -> & Hb & Hl)|(b & -> & Hb & He)].
  - destruct (IH ms' b Hb ltac:(lia)) as (d & todo & b' & -> & -> & Hn & He). exists (m :: d), todo, b'. done.
  - by exists [], ms, b.
Qed.
Lemma read_chunks_ok chunks ms buf :
  noisy ms (buf ++ concat chunks) → (concat chunks = [] → ms = []) → ∃ buf', read_chunks chunks buf = Ret (Ok ms, buf').
Proof.
  revert ms buf. induction chunks as [|c chunks IH]; intros ms buf Hs He; cbn [read_chunks concat] in *.
  { rewrite (He eq_refl). by exists buf. }
  rewrite app_assoc in Hs. destruct (read_all_ok (1 + length (buf ++ c)) _ _ _ Hs ltac:(lia)) as (d & todo & b & -> & -> & Hb & Hr).
  cbn [obind]. destruct (IH todo b Hb Hr) as [b' ->]. by exists b'.
Qed.

(** ** Ciphers *)

Lemma bc_xor_length channel l : length (bc_xor channel l) = length l.
Proof. apply length_imap. Qed.
Lemma bc_xor_involutive channel l : bc_xor channel (bc_xor channel l) = l.
Proof.
  unfold bc_xor. apply list_eq. intros i. rewrite !list_lookup_imap. destruct (l !! i) as [b|]; cbn; [|done].
  by rewrite Z.lxor_assoc, Z.lxor_nilpotent, Z.lxor_0_r.
Qed.

Lemma on_part_length f l : (∀ l, length (f l) = length l) → length (on_part f l) = length l.
Proof. intros Hf. destruct l; [done|apply Hf]. Qed.
Lemma on_part_id f g l : (∀ l, length (f l) = length l) → (∀ l, g (f l) = l) → on_part g (on_part f l) = l.
Proof.
  intros Hlen Hinv. destruct l as [|b l]; [done|]. cbn [on_part]. specialize (Hlen (b :: l)). specialize (Hinv (b :: l)).
  destruct (f (b :: l)); [discriminate|exact Hinv].
Qed.
Lemma on_regions_length f payload_offset body :
  (∀ l, length (f l) = length l) → length (on_regions f payload_offset body) = length body.
Proof.
  intros Hf. unfold on_regions. rewrite length_app, !on_part_length, length_take, length_drop by done. lia.
Qed.
Lemma on_regions_id f g payload_offset body :
  (∀ l, length (f l) = length l) → (∀ l, g (f l) = l) →
  on_regions g payload_offset (on_regions f payload_offset body) = body.
Proof.
  intros Hlen Hinv. unfold on_regions at 1. unfold vec_len. rewrite on_regions_length by done. unfold on_regions.
  change (Z.of_nat (length body)) with (vec_len body).
  remember (Z.to_nat (Z.min (unwrap_or payload_offset 0) (u32_wrap (vec_len body)))) as n eqn:Hn.
  assert (n ≤ length body)%nat as Hle.
  { subst n. unfold u32_wrap, vec_len. assert (Z.of_nat (length body) mod 2 ^ 32 ≤ Z.of_nat (length body)) by (apply Z.mod_le; lia). lia. }
  assert (length (on_part f (take n body)) = n) as Ht by (rewrite on_part_length, length_take by done; lia).
  rewrite take_app_length', drop_app_length' by done. rewrite !on_part_id by done. apply take_drop.
Qed.

(** What AES-CFB promises. *)
Class CipherLaws (aes : Cipher) : Prop := {
  cl_length key l : length (aes_encrypt aes key l) = length l;
  cl_inverse key l : aes_decrypt aes key (aes_encrypt aes key l) = l
}.

Section sender.
Context (aes : Cipher) `{!CipherLaws aes} (mode : EncryptionMode) (aes_key : option (list Z)).

Lemma decrypt_encrypt channel payload_offset body :
  decrypt_body aes mode aes_key channel payload_offset (encrypt_body aes mode aes_key channel payload_offset body) = body.
Proof.
  unfold decrypt_body, encrypt_body. destruct mode, aes_key as [key|]; try done;
    apply on_regions_id; auto using bc_xor_length, bc_xor_involutive, cl_length, cl_inverse.
Qed.
Lemma encrypt_length channel payload_offset body :
  length (encrypt_body aes mode aes_key channel payload_offset body) = length body.
Proof.
  unfold encrypt_body. destruct mode, aes_key as [key|]; try done;
    apply on_regions_length; auto using bc_xor_length, cl_length.
Qed.

Lemma encrypt_nil channel payload_offset : encrypt_body aes mode aes_key channel payload_offset [] = [].
Proof. apply nil_length_inv. by rewrite encrypt_length. Qed.

(** A message as it travels. *)
Definition sealed (m : RawMessage) : RawMessage :=
  mk_raw (raw_header m) (sealed_body aes mode aes_key (raw_header m) (raw_body m)).

Lemma sealed_length h body : length (sealed_body aes mode aes_key h body) = length body.
Proof. unfold sealed_body. destruct body; [done|]. by destruct (negb _); [apply encrypt_length|]. Qed.
Lemma sealed_ok m : message_ok m → message_ok (sealed m).
Proof.
  intros [Hh Hb Hf]. constructor; cbn; [done|..]; unfold vec_len in *; by rewrite sealed_length.
Qed.

(** What the owner of a session does to its send buffer: messages are queued, and bytes
    are taken out in buffers of any size. *)
Inductive SendOp := Queue (m : RawMessage) | Poll (n : nat).
Fixpoint send_run (ops : list SendOp) (sd : Sender) : list RawMessage * list Z * Sender :=
  match ops with
  | [] => ([], [], sd)
  | Queue m :: ops' =>
      match queue_send aes mode aes_key (raw_header m) (raw_body m) sd with
      | (Ok _, sd) => let '(ms, out, sd) := send_run ops' sd in (m :: ms, out, sd)
      | (Err _, sd) => send_run ops' sd
      end
  | Poll n :: ops' =>
      let '(bytes, sd) := poll_send n sd in
      let '(ms, out, sd) := send_run ops' sd in (ms, unwrap_or bytes [] ++ out, sd)
  end.

Lemma reserve_send_data h n sd v sd' :
  reserve_send h n sd = (v, sd') → sd_data sd' = sd_data sd ++ match v with Ok _ => header_serialize h | Err _ => [] end.
Proof.
  unfold reserve_send. destruct (checked_add _ _ _) as [total|]; [|intros [= <- <-]; by rewrite app_nil_r].
  destruct (_ && _); cbn [sd_data sd_start sd_capacity]; case_match; intros [= <- <-]; cbn; by rewrite ?app_nil_r.
Qed.
Lemma queue_send_data m sd v sd' :
  queue_send aes mode aes_key (raw_header m) (raw_body m) sd = (v, sd') →
  sd_data sd' = sd_data sd ++ match v with Ok _ => wire_bytes (sealed m) | Err _ => [] end.
Proof.
  unfold queue_send. destruct (reserve_send _ _ sd) as [[[]|e] sd1] eqn:E; apply reserve_send_data in E; intros [= <- <-];
    cbn [sd_data]; [|done]. by rewrite E, <-app_assoc.
Qed.
Lemma poll_send_data n sd bytes sd' : poll_send n sd = (bytes, sd') → sd_data sd = unwrap_or bytes [] ++ sd_data sd'.
Proof.
  unfold poll_send. destruct (sd_data sd) as [|b l] eqn:E; [intros [= <- <-]; by rewrite E|].
  intros [= <- <-]. cbn [unwrap_or]. destruct (drop n (b :: l)) eqn:Ed; cbn [sd_data]; rewrite <-Ed;
    by rewrite take_drop.
Qed.

Lemma send_run_data ops sd ms out sd' :
  send_run ops sd = (ms, out, sd') → out ++ sd_data sd' = sd_data sd ++ concat (wire_bytes ∘ sealed <$> ms).
Proof.
  revert sd ms out. induction ops as [|[m|n] ops IH]; intros sd ms out; cbn [send_run].
  - intros [= <- <- <-]. cbn. by rewrite app_nil_r.
  - destruct (queue_send _ _ _ _ _ sd) as [[[]|e] sd1] eqn:E; apply queue_send_data in E.
    + destruct (send_run ops sd1) as [[ms1 out1] sd2] eqn:E1. intros [= <- <- <-]. rewrite (IH _ _ _ E1), E. cbn.
      by rewrite <-app_assoc.
    + intros H. rewrite (IH _ _ _ H), E. by rewrite app_nil_r.
  - destruct (poll_send n sd) as [bytes sd1] eqn:E. apply poll_send_data in E.
    destruct (send_run ops sd1) as [[ms1 out1] sd2] eqn:E1. intros [= <- <- <-].
    rewrite <-app_assoc, (IH _ _ _ E1), E. by rewrite app_assoc.
Qed.

Lemma send_run_queued ops sd ms out sd' : send_run ops sd = (ms, out, sd') → ∀ m, m ∈ ms → Queue m ∈ ops.
Proof.
  revert sd ms out. induction ops as [|[m|n] ops IH]; intros sd ms out; cbn [send_run].
  - intros [= <- <- <-] m Hm. by apply elem_of_nil in Hm.
  - destruct (queue_send _ _ _ _ _ sd) as [[[]|e] sd1]; [|intros H m' Hm'; apply elem_of_cons; eauto].
    destruct (send_run ops sd1) as [[ms1 out1] sd2] eqn:E1. intros [= <- <- <-] m' [->|Hm']%elem_of_cons; apply elem_of_cons; eauto.
  - destruct (poll_send n sd) as [bytes sd1]. destruct (send_run ops sd1) as [[ms1 out1] sd2] eqn:E1.
    intros [= <- <- <-] m' Hm'. apply elem_of_cons. eauto.
Qed.
End sender.

(** Messages without noise. *)
Lemma noisy_clean ms : Forall message_ok ms → noisy ms (concat (wire_bytes <$> ms)).
Proof.
  induction 1 as [|m ms Hm Hms IH]; cbn; [by constructor; intros i Hi; cbn in Hi; lia|].
  apply (noisy_message [] m ms); [intros i Hi; cbn in Hi; lia|done|done].
Qed.
