(* ===== verification/ReoUdp.v ===== *)
(** * The Baichuan UDP transport

    Packets and the reliable payload transport of [reo-proto] ([udp.rs]).  The CRC of
    the [crc32fast] crate is a parameter. *)

From S2P Require Import Prelude ReoWire.

Definition DISCOVERY_MAGIC : Z := 0x2a87cf3a.
Definition ACK_MAGIC : Z := 0x2a87cf20.
Definition DATA_MAGIC : Z := 0x2a87cf10.
Definition DATA_HEADER_LEN : Z := 20.
Definition ACK_HEADER_LEN : Z := 28.
Definition DISCOVERY_HEADER_LEN : Z := 20.
Definition XML_KEY : list Z :=
  [0x1f2d3c4b; 0x5a6c7f8d; 0x38172e4b; 0x8271635a; 0x863f1a2b; 0xa5c6f7d8; 0x8371e1b4; 0x17f2d3a5].

(** [u32::wrapping_add] and [u32::wrapping_sub]. *)
Definition u32_wrapping_add (a b : Z) : Z := u32_wrap (a + b).
Definition u32_wrapping_sub (a b : Z) : Z := u32_wrap (a - b).
(** [i32::from_le_bytes] and [i32::to_le_bytes] through the unsigned integer of the same
    bits. *)
Definition to_i32 (x : Z) : Z := if x <? 2 ^ 31 then x else x - 2 ^ 32.
Definition i32_le (x : Z) : list Z := u32_le (u32_wrap x).

Record UdpDiscovery := mk_discovery { di_transmission_id : Z; di_xml : list Z }.
Record UdpAck := mk_ack {
  ak_connection_id : Z;
  ak_group_id : Z;
  ak_packet_id : Z;
  ak_latency : Z;
  ak_received : list Z
}.
Record UdpData := mk_data { da_connection_id : Z; da_packet_id : Z; da_payload : list Z }.

Inductive BcUdpPacket :=
| PkDiscovery (discovery : UdpDiscovery)
| PkAck (ack : UdpAck)
| PkData (data : UdpData).

Definition ack_empty (connection_id : Z) : UdpAck := mk_ack connection_id u32_max u32_max 0 [].

(** ** Reading and writing *)

Definition read_u32 (datagram : list Z) (offset : nat) : result BcError Z :=
  if Z.of_nat offset + 4 <=? vec_len datagram then Ok (u32_at datagram offset)
  else Err (InvalidUdpPacket "truncated header").
(** A [u32] always fits a [usize]. *)
Definition read_len (datagram : list Z) (offset : nat) : result BcError Z := read_u32 datagram offset.
Definition read_i32 (datagram : list Z) (offset : nat) : result BcError Z :=
  let? x := read_u32 datagram offset in Ok (to_i32 x).
Definition ensure_datagram_len (datagram : list Z) (header_len payload_len : Z) : result BcError unit :=
  if negb (vec_len datagram =? saturating_add usize_max header_len payload_len)
  then Err (InvalidUdpPacket "payload length mismatch") else Ok tt.

(** The key stream of 32 bytes repeats. *)
Definition xml_key (transmission_id : Z) : list Z :=
  concat ((λ word, u32_le (u32_wrapping_add word transmission_id)) <$> XML_KEY).
Definition crypt_xml (transmission_id : Z) (payload : list Z) : list Z :=
  imap (λ i byte, Z.lxor byte (nth (i mod 32) (xml_key transmission_id) 0)) payload.

Section packets.
Context (crc : list Z → Z).

Definition decode_discovery (datagram : list Z) : result BcError BcUdpPacket :=
  let? payload_len := read_len datagram 4 in
  let? _ := ensure_datagram_len datagram DISCOVERY_HEADER_LEN payload_len in
  let? marker := read_u32 datagram 8 in
  if negb (marker =? 1) then Err (InvalidUdpPacket "invalid discovery marker")
  else
    let? transmission_id := read_u32 datagram 12 in
    let? expected := read_u32 datagram 16 in
    let encrypted := drop (Z.to_nat DISCOVERY_HEADER_LEN) datagram in
    let actual := crc encrypted in
    if negb (actual =? expected) then Err (UdpChecksumMismatch expected actual)
    else Ok (PkDiscovery (mk_discovery transmission_id (crypt_xml transmission_id encrypted))).

Definition decode_ack (datagram : list Z) : result BcError BcUdpPacket :=
  let? payload_len := read_len datagram 24 in
  let? _ := ensure_datagram_len datagram ACK_HEADER_LEN payload_len in
  let? marker := read_u32 datagram 8 in
  if negb (marker =? 0) then Err (InvalidUdpPacket "invalid ACK marker")
  else
    let? connection_id := read_i32 datagram 4 in
    let? group_id := read_u32 datagram 12 in
    let? packet_id := read_u32 datagram 16 in
    let? latency := read_u32 datagram 20 in
    Ok (PkAck (mk_ack connection_id group_id packet_id latency (drop (Z.to_nat ACK_HEADER_LEN) datagram))).

Definition decode_data (datagram : list Z) : result BcError BcUdpPacket :=
  let? payload_len := read_len datagram 16 in
  let? _ := ensure_datagram_len datagram DATA_HEADER_LEN payload_len in
  let? marker := read_u32 datagram 8 in
  if negb (marker =? 0) then Err (InvalidUdpPacket "invalid data marker")
  else
    let? connection_id := read_i32 datagram 4 in
    let? packet_id := read_u32 datagram 12 in
    Ok (PkData (mk_data connection_id packet_id (drop (Z.to_nat DATA_HEADER_LEN) datagram))).

Definition decode (datagram : list Z) : result BcError BcUdpPacket :=
  let? magic := read_u32 datagram 0 in
  if magic =? DISCOVERY_MAGIC then decode_discovery datagram
  else if magic =? ACK_MAGIC then decode_ack datagram
  else if magic =? DATA_MAGIC then decode_data datagram
  else Err (InvalidUdpPacket "unknown magic").

Definition encode_discovery (d : UdpDiscovery) : result BcError (list Z) :=
  if u32_max <? vec_len (di_xml d) then Err (InvalidUdpPacket "discovery payload is too large")
  else
    let encrypted := crypt_xml (di_transmission_id d) (di_xml d) in
    Ok (u32_le DISCOVERY_MAGIC ++ u32_le (vec_len (di_xml d)) ++ u32_le 1 ++ u32_le (di_transmission_id d)
        ++ u32_le (crc encrypted) ++ encrypted).
Definition encode_ack (a : UdpAck) : result BcError (list Z) :=
  if u32_max <? vec_len (ak_received a) then Err (InvalidUdpPacket "ACK payload is too large")
  else
    Ok (u32_le ACK_MAGIC ++ i32_le (ak_connection_id a) ++ u32_le 0 ++ u32_le (ak_group_id a)
        ++ u32_le (ak_packet_id a) ++ u32_le (ak_latency a) ++ u32_le (vec_len (ak_received a)) ++ ak_received a).
Definition encode_data (d : UdpData) : result BcError (list Z) :=
  if u32_max <? vec_len (da_payload d) then Err (InvalidUdpPacket "data payload is too large")
  else
    Ok (u32_le DATA_MAGIC ++ i32_le (da_connection_id d) ++ u32_le 0 ++ u32_le (da_packet_id d)
        ++ u32_le (vec_len (da_payload d)) ++ da_payload d).
Definition encode (p : BcUdpPacket) : result BcError (list Z) :=
  match p with
  | PkDiscovery d => encode_discovery d
  | PkAck a => encode_ack a
  | PkData d => encode_data d
  end.

(** ** The transport *)

Record BcUdpConfig := mk_udp_config { uc_mtu : Z; uc_ack_interval : Z; uc_resend_interval : Z }.
Definition udp_config_default : BcUdpConfig := mk_udp_config 1350 (from_millis 10) (from_millis 500).

Inductive BcUdpOutput :=
| OutDatagram (bytes : list Z)
| OutPayload (bytes : list Z)
| OutTimeout (deadline : Z).

Record BcUdpTransport := mk_transport {
  tp_client_id : Z;
  tp_camera_id : Z;
  tp_config : BcUdpConfig;
  tp_next_send_packet : Z;
  tp_next_receive_packet : Z;
  tp_sent : gmap Z UdpData;
  tp_received : gmap Z (list Z);
  tp_outputs : list BcUdpOutput;
  tp_next_ack : Z;
  tp_next_resend : Z
}.

Definition MAX_RECEIVE_WINDOW : Z := 256.
Definition MAX_IN_FLIGHT_PACKETS : Z := 4096.

Definition set_sending (next : Z) (sent : gmap Z UdpData) (outputs : list BcUdpOutput) (t : BcUdpTransport)
    : BcUdpTransport :=
  mk_transport (tp_client_id t) (tp_camera_id t) (tp_config t) next (tp_next_receive_packet t) sent (tp_received t)
    outputs (tp_next_ack t) (tp_next_resend t).
Definition set_receiving (next : Z) (received : gmap Z (list Z)) (outputs : list BcUdpOutput) (t : BcUdpTransport)
    : BcUdpTransport :=
  mk_transport (tp_client_id t) (tp_camera_id t) (tp_config t) (tp_next_send_packet t) next (tp_sent t) received
    outputs (tp_next_ack t) (tp_next_resend t).
Definition set_deadlines (next_ack next_resend : Z) (outputs : list BcUdpOutput) (t : BcUdpTransport)
    : BcUdpTransport :=
  mk_transport (tp_client_id t) (tp_camera_id t) (tp_config t) (tp_next_send_packet t) (tp_next_receive_packet t)
    (tp_sent t) (tp_received t) outputs next_ack next_resend.

Definition transport_new (client_id camera_id now : Z) (config : BcUdpConfig)
    : outcome (result BcError BcUdpTransport) :=
  if uc_mtu config <=? DATA_HEADER_LEN then Ret (Err (InvalidUdpPacket "MTU is too small"))
  else if (uc_ack_interval config =? 0) || (uc_resend_interval config =? 0)
  then Ret (Err (InvalidUdpPacket "ACK and resend intervals must be non-zero"))
  else
    let! next_ack := instant_add now (uc_ack_interval config) in
    let! next_resend := instant_add now (uc_resend_interval config) in
    Ret (Ok (mk_transport client_id camera_id config 0 0 ∅ ∅ [] next_ack next_resend)).

(** [slice::chunks]: pieces of [n] bytes, the last one maybe shorter; the fuel is the
    length. *)
Fixpoint chunks_loop (fuel n : nat) (l : list Z) : list (list Z) :=
  match fuel, l with
  | O, _ | _, [] => []
  | S fuel', _ => take n l :: chunks_loop fuel' n (drop n l)
  end.
Definition chunks (n : nat) (l : list Z) : list (list Z) := chunks_loop (length l) n l.

Definition div_ceil (a b : Z) : Z := (a + b - 1) / b.

(** The loop of [queue_payload]. *)
Fixpoint queue_chunks (cs : list (list Z)) (t : BcUdpTransport) : result BcError unit * BcUdpTransport :=
  match cs with
  | [] => (Ok tt, t)
  | chunk :: cs' =>
      let data := mk_data (tp_camera_id t) (tp_next_send_packet t) chunk in
      let next := u32_wrapping_add (tp_next_send_packet t) 1 in
      match encode (PkData data) with
      | Err e => (Err e, set_sending next (tp_sent t) (tp_outputs t) t)
      | Ok bytes =>
          queue_chunks cs' (set_sending next (<[da_packet_id data := data]> (tp_sent t))
                              (tp_outputs t ++ [OutDatagram bytes]) t)
      end
  end.

Definition queue_payload (payload : list Z) (t : BcUdpTransport) : result BcError unit * BcUdpTransport :=
  let chunk_size := uc_mtu (tp_config t) - DATA_HEADER_LEN in
  let packet_count := div_ceil (vec_len payload) chunk_size in
  if saturating_sub MAX_IN_FLIGHT_PACKETS (Z.of_nat (size (tp_sent t))) <? packet_count
  then (Err (Protocol "UDP send window is full"), t)
  else queue_chunks (chunks (Z.to_nat chunk_size) payload) t.

(** Every turn takes an entry out; the fuel is one more than the entries. *)
Fixpoint flush_loop (fuel : nat) (next : Z) (received : gmap Z (list Z)) (payload : list Z)
    : outcome (Z * gmap Z (list Z) * list Z) :=
  match fuel with
  | O => Panic
  | S fuel' =>
      match received !! next with
      | None => Ret (next, received, payload)
      | Some chunk => flush_loop fuel' (u32_wrapping_add next 1) (delete next received) (payload ++ chunk)
      end
  end.
Definition flush_received (t : BcUdpTransport) : outcome BcUdpTransport :=
  let! (next, received, payload) :=
    flush_loop (1 + size (tp_received t)) (tp_next_receive_packet t) (tp_received t) [] in
  Ret (set_receiving next received
         (match payload with [] => tp_outputs t | _ => tp_outputs t ++ [OutPayload payload] end) t).

Definition acknowledged_id (a : UdpAck) (offset : nat) : Z :=
  u32_wrapping_add (u32_wrapping_add (ak_packet_id a) 1) (u32_wrap (Z.of_nat offset)).
Definition handle_ack (a : UdpAck) (t : BcUdpTransport) : BcUdpTransport :=
  let newer id := let distance := u32_wrapping_sub id (ak_packet_id a) in
                  negb (distance =? 0) && (distance <? 2 ^ 31) in
  let sent := filter (λ p : Z * UdpData, newer p.1 = true) (tp_sent t) in
  let marked := imap (λ offset flag, (acknowledged_id a offset, flag)) (ak_received a) in
  let sent := foldl (λ (m : gmap Z UdpData) (p : Z * Z), if negb (p.2 =? 0) then delete p.1 m else m) sent marked in
  set_sending (tp_next_send_packet t) sent (tp_outputs t) t.

(** [entry(k).or_insert(v)]. *)
Definition or_insert {V : Type} (k : Z) (v : V) (m : gmap Z V) : gmap Z V :=
  match m !! k with Some _ => m | None => <[k := v]> m end.

Definition handle_data (d : UdpData) (t : BcUdpTransport) : outcome (result BcError unit * BcUdpTransport) :=
  let distance := u32_wrapping_sub (da_packet_id d) (tp_next_receive_packet t) in
  if distance <? MAX_RECEIVE_WINDOW then
    let received := or_insert (da_packet_id d) (da_payload d) (tp_received t) in
    let! t := flush_received (set_receiving (tp_next_receive_packet t) received (tp_outputs t) t) in
    Ret (Ok tt, t)
  else if distance <? 2 ^ 31 then Ret (Err (InvalidUdpPacket "data packet is outside the receive window"), t)
  else Ret (Ok tt, t).

Definition handle_datagram (datagram : list Z) (t : BcUdpTransport) : outcome (result BcError unit * BcUdpTransport) :=
  match decode datagram with
  | Err e => Ret (Err e, t)
  | Ok (PkDiscovery _) => Ret (Ok tt, t)
  | Ok (PkAck a) => Ret (Ok tt, if ak_connection_id a =? tp_client_id t then handle_ack a t else t)
  | Ok (PkData d) => if da_connection_id d =? tp_client_id t then handle_data d t else Ret (Ok tt, t)
  end.

(** A [BTreeMap<u32, _>] in key order. *)
Definition packet_le {V : Type} (a b : Z * V) : Prop := a.1 ≤ b.1.
#[global] Instance packet_le_dec {V : Type} : RelDecision (@packet_le V).
Proof. intros a b. unfold packet_le. apply _. Defined.
Definition packet_iter {V : Type} (m : gmap Z V) : list (Z * V) := merge_sort packet_le (map_to_list m).

(** The distances in the window of the buffered packets. *)
Definition window_distances (t : BcUdpTransport) : list Z :=
  filter (λ d, d < MAX_RECEIVE_WINDOW)
    ((λ p : Z * list Z, u32_wrapping_sub p.1 (tp_next_receive_packet t)) <$> packet_iter (tp_received t)).
Definition option_zmax (best : option Z) (d : Z) : option Z :=
  match best with None => Some d | Some b => Some (Z.max b d) end.

(** Writing a mark at a distance past the longest is out of bounds. *)
Fixpoint mark_received (ds : list Z) (marks : list Z) : outcome (list Z) :=
  match ds with
  | [] => Ret marks
  | d :: ds' => if d <? vec_len marks then mark_received ds' (<[Z.to_nat d := 1]> marks) else Panic
  end.
Definition build_ack (t : BcUdpTransport) : outcome UdpAck :=
  let distances := window_distances t in
  let marks :=
    match foldl option_zmax None distances with
    | None => []
    | Some distance => replicate (Z.to_nat distance + 1) 0
    end in
  let! received := mark_received distances marks in
  Ret (mk_ack (tp_camera_id t) 0 (u32_wrapping_sub (tp_next_receive_packet t) 1) 0 received).

(** [advance_deadline]: every turn adds the interval. *)
Fixpoint advance_loop (fuel : nat) (deadline interval now : Z) : outcome Z :=
  match fuel with
  | O => Panic
  | S fuel' =>
      if deadline <=? now then
        let! deadline := instant_add deadline interval in
        advance_loop fuel' deadline interval now
      else Ret deadline
  end.
Definition advance_deadline (deadline interval now : Z) : outcome Z :=
  advance_loop (Z.to_nat ((now - deadline) / interval + 2)) deadline interval now.

(** The datagrams of a retransmission, up to the first that fails to encode. *)
Fixpoint resend_all (ds : list UdpData) (outputs : list BcUdpOutput) : result BcError unit * list BcUdpOutput :=
  match ds with
  | [] => (Ok tt, outputs)
  | d :: ds' =>
      match encode (PkData d) with
      | Err e => (Err e, outputs)
      | Ok bytes => resend_all ds' (outputs ++ [OutDatagram bytes])
      end
  end.

(** The end of [poll_output]: what is due at [now] besides an acknowledgement. *)
Definition poll_resend (now : Z) (t : BcUdpTransport) : outcome (result BcError BcUdpOutput * BcUdpTransport) :=
  let idle t := (Ok (OutTimeout (Z.min (tp_next_ack t) (tp_next_resend t))), t) in
  if tp_next_resend t <=? now then
    let! next_resend := advance_deadline (tp_next_resend t) (uc_resend_interval (tp_config t)) now in
    let '(v, outputs) := resend_all (snd <$> packet_iter (tp_sent t)) (tp_outputs t) in
    let t := set_deadlines (tp_next_ack t) next_resend outputs t in
    match v with
    | Err e => Ret (Err e, t)
    | Ok _ =>
        match tp_outputs t with
        | output :: rest => Ret (Ok output, set_deadlines (tp_next_ack t) (tp_next_resend t) rest t)
        | [] => Ret (idle t)
        end
    end
  else Ret (idle t).

Definition poll_output (now : Z) (t : BcUdpTransport) : outcome (result BcError BcUdpOutput * BcUdpTransport) :=
  match tp_outputs t with
  | output :: rest => Ret (Ok output, set_deadlines (tp_next_ack t) (tp_next_resend t) rest t)
  | [] =>
      if tp_next_ack t <=? now then
        let! next_ack := advance_deadline (tp_next_ack t) (uc_ack_interval (tp_config t)) now in
        let t := set_deadlines next_ack (tp_next_resend t) [] t in
        let! a := build_ack t in
        Ret ((let? bytes := encode (PkAck a) in Ok (OutDatagram bytes)), t)
      else poll_resend now t
  end.

Definition pending_send_packets (t : BcUdpTransport) : Z := Z.of_nat (size (tp_sent t)).
End packets.
