(* ===== verification/ReoUdpNet.v ===== *)
(** * The UDP transport is reliable

    Two transports joined by a network that loses, repeats, reorders and invents
    datagrams: what one delivers is a prefix of what the other was given, nothing that
    was accepted is forgotten before it arrived, and retransmission makes progress. *)

From S2P Require Import Prelude ReoWire ReoFraming ReoUdp.

(** ** Packet numbers *)

(** The wire number of the packet with index [i] of a stream that starts at [base]. *)
Definition packet_id (base i : Z) : Z := u32_wrap (base + i).

Lemma packet_id_range base i : in_u32 (packet_id base i).
Proof. unfold packet_id, u32_wrap, in_u32. pose proof (Z.mod_pos_bound (base + i) (2 ^ 32)). change u32_max with (2 ^ 32 - 1). lia. Qed.
Lemma packet_id_next base i : u32_wrapping_add (packet_id base i) 1 = packet_id base (i + 1).
Proof. unfold u32_wrapping_add, packet_id, u32_wrap. rewrite Zplus_mod_idemp_l. f_equal. lia. Qed.
Lemma packet_id_add base i k : u32_wrapping_add (packet_id base i) (u32_wrap k) = packet_id base (i + k).
Proof. unfold u32_wrapping_add, packet_id, u32_wrap. rewrite <-Zplus_mod. f_equal. lia. Qed.
Lemma packet_id_prev base i : u32_wrapping_sub (packet_id base i) 1 = packet_id base (i - 1).
Proof. unfold u32_wrapping_sub, packet_id, u32_wrap. rewrite Zminus_mod_idemp_l. f_equal. lia. Qed.
Lemma distance_eq base i j : u32_wrapping_sub (packet_id base i) (packet_id base j) = (i - j) mod 2 ^ 32.
Proof. unfold u32_wrapping_sub, packet_id, u32_wrap. rewrite <-Zminus_mod. f_equal. lia. Qed.
Lemma distance_ahead base i j : 0 ≤ i - j < 2 ^ 32 → u32_wrapping_sub (packet_id base i) (packet_id base j) = i - j.
Proof. intros H. rewrite distance_eq. by apply Z.mod_small. Qed.
Lemma distance_behind base i j :
  - 2 ^ 31 ≤ i - j < 0 → 2 ^ 31 ≤ u32_wrapping_sub (packet_id base i) (packet_id base j).
Proof.
  intros H. rewrite distance_eq, <-(Z_mod_plus_full (i - j) 1 (2 ^ 32)), Z.mod_small by lia. lia.
Qed.
Lemma packet_id_inj base i j : 0 ≤ i < 2 ^ 32 → 0 ≤ j < 2 ^ 32 → packet_id base i = packet_id base j → i = j.
Proof.
  intros Hi Hj E. destruct (Z.lt_trichotomy i j) as [Hlt|[Heq|Hgt]]; [|done|].
  - pose proof (distance_ahead base j i ltac:(lia)) as H. rewrite E in H. unfold u32_wrapping_sub, u32_wrap in H.
    rewrite Z.sub_diag, Z.mod_0_l in H by lia. lia.
  - pose proof (distance_ahead base i j ltac:(lia)) as H. rewrite E in H. unfold u32_wrapping_sub, u32_wrap in H.
    rewrite Z.sub_diag, Z.mod_0_l in H by lia. lia.
Qed.

(** ** Packets round-trip *)

Definition in_i32 (x : Z) : Prop := - 2 ^ 31 ≤ x < 2 ^ 31.
Lemma to_i32_wrap x : in_i32 x → to_i32 (u32_wrap x) = x.
Proof.
  unfold in_i32, to_i32, u32_wrap. intros Hx. destruct (decide (0 ≤ x)).
  - rewrite Z.mod_small by lia. by rewrite (proj2 (Z.ltb_lt _ _)) by lia.
  - rewrite <-(Z_mod_plus_full x 1 (2 ^ 32)), Z.mod_small by lia. rewrite (proj2 (Z.ltb_ge _ _)) by lia. lia.
Qed.
Lemma u32_wrap_range x : in_u32 (u32_wrap x).
Proof. rewrite <-(Z.add_0_l x). apply (packet_id_range 0). Qed.

(** The field at an offset of a datagram. *)
Lemma read_field datagram pre x l n :
  datagram = pre ++ u32_le x ++ l → length pre = n → in_u32 x → read_u32 datagram n = Ok x.
Proof.
  intros -> Hn Hx. unfold read_u32. rewrite (proj2 (Z.leb_le _ _)); [by rewrite u32_at_le|].
  unfold vec_len. rewrite !length_app, u32_le_length. lia.
Qed.

(** Reads the next field of a datagram of known layout. *)
Ltac read_next pre :=
  erewrite (read_field _ pre) by
    first [by rewrite <-!app_assoc | by rewrite ?length_app, ?u32_le_length | done | apply u32_wrap_range
          | apply from_u32_le | (split; lia)]; cbn [rbind].

Lemma ensure_len_ok datagram hl pl : vec_len datagram = hl + pl → hl + pl ≤ usize_max → ensure_datagram_len datagram hl pl = Ok tt.
Proof. intros H1 H2. unfold ensure_datagram_len, saturating_add. rewrite Z.min_r by done. by rewrite H1, Z.eqb_refl. Qed.

Section codec.
Context (crc : list Z → Z).

Definition data_fields_ok (d : UdpData) : Prop :=
  in_i32 (da_connection_id d) ∧ in_u32 (da_packet_id d) ∧ vec_len (da_payload d) ≤ u32_max.
Lemma data_roundtrip d : data_fields_ok d → ∃ bytes, encode crc (PkData d) = Ok bytes ∧ decode crc bytes = Ok (PkData d).
Proof.
  intros (Hc & Hp & Hl). destruct d as [conn pid payload].
  cbn [encode da_connection_id da_packet_id da_payload] in *. unfold encode_data. cbn [da_connection_id da_packet_id da_payload].
  rewrite (proj2 (Z.ltb_ge _ _)) by done. eexists. split; [done|].
  assert (in_u32 (vec_len payload)) as Hlen by (split; [unfold vec_len|]; lia).
  unfold decode. erewrite (read_field _ [] DATA_MAGIC) by (first [reflexivity|done]). cbn [rbind].
  change (DATA_MAGIC =? DISCOVERY_MAGIC) with false. change (DATA_MAGIC =? ACK_MAGIC) with false.
  change (DATA_MAGIC =? DATA_MAGIC) with true. cbn iota. unfold decode_data, read_len, read_i32, i32_le.
  read_next (u32_le DATA_MAGIC ++ u32_le (u32_wrap conn) ++ u32_le 0 ++ u32_le pid).
  rewrite ensure_len_ok; [|unfold vec_len; rewrite !length_app, !u32_le_length; change DATA_HEADER_LEN with 20; lia
    |change DATA_HEADER_LEN with 20; change usize_max with (2 ^ 64 - 1); change u32_max with (2 ^ 32 - 1) in Hl; lia].
  cbn [rbind]. read_next (u32_le DATA_MAGIC ++ u32_le (u32_wrap conn)). cbn [Z.eqb negb].
  read_next (u32_le DATA_MAGIC). rewrite to_i32_wrap by done.
  read_next (u32_le DATA_MAGIC ++ u32_le (u32_wrap conn) ++ u32_le 0). do 3 f_equal.
Qed.

Definition ack_fields_ok (a : UdpAck) : Prop :=
  in_i32 (ak_connection_id a) ∧ in_u32 (ak_group_id a) ∧ in_u32 (ak_packet_id a) ∧ in_u32 (ak_latency a) ∧
  vec_len (ak_received a) ≤ u32_max.
Lemma ack_roundtrip a : ack_fields_ok a → ∃ bytes, encode crc (PkAck a) = Ok bytes ∧ decode crc bytes = Ok (PkAck a).
Proof.
  intros (Hc & Hg & Hp & Hla & Hl). destruct a as [conn group pid latency received].
  cbn [encode ak_connection_id ak_group_id ak_packet_id ak_latency ak_received] in *. unfold encode_ack.
  cbn [ak_connection_id ak_group_id ak_packet_id ak_latency ak_received].
  rewrite (proj2 (Z.ltb_ge _ _)) by done. eexists. split; [done|].
  assert (in_u32 (vec_len received)) as Hlen by (split; [unfold vec_len|]; lia).
  unfold decode. erewrite (read_field _ [] ACK_MAGIC) by (first [reflexivity|done]). cbn [rbind].
  change (ACK_MAGIC =? DISCOVERY_MAGIC) with false. change (ACK_MAGIC =? ACK_MAGIC) with true. cbn iota.
  unfold decode_ack, read_len, read_i32, i32_le.
  read_next (u32_le ACK_MAGIC ++ u32_le (u32_wrap conn) ++ u32_le 0 ++ u32_le group ++ u32_le pid ++ u32_le latency).
  rewrite ensure_len_ok; [|unfold vec_len; rewrite !length_app, !u32_le_length; change ACK_HEADER_LEN with 28; lia
    |change ACK_HEADER_LEN with 28; change usize_max with (2 ^ 64 - 1); change u32_max with (2 ^ 32 - 1) in Hl; lia].
  cbn [rbind]. read_next (u32_le ACK_MAGIC ++ u32_le (u32_wrap conn)). cbn [Z.eqb negb].
  read_next (u32_le ACK_MAGIC). rewrite to_i32_wrap by done.
  read_next (u32_le ACK_MAGIC ++ u32_le (u32_wrap conn) ++ u32_le 0).
  read_next (u32_le ACK_MAGIC ++ u32_le (u32_wrap conn) ++ u32_le 0 ++ u32_le group).
  read_next (u32_le ACK_MAGIC ++ u32_le (u32_wrap conn) ++ u32_le 0 ++ u32_le group ++ u32_le pid). do 3 f_equal.
Qed.
End codec.

(** ** One direction of a connection

    [cs] are the pieces of the sender's stream in order, [n] of which the receiver has
    delivered. *)

Definition MAX_PACKETS : Z := 2 ^ 31 - 1.
Definition piece (cs : list (list Z)) (i : Z) : option (list Z) := if 0 <=? i then cs !! Z.to_nat i else None.

Lemma piece_range cs i c : piece cs i = Some c → 0 ≤ i < vec_len cs.
Proof.
  unfold piece, vec_len. destruct (0 <=? i) eqn:E; [|done]. apply Z.leb_le in E. intros H%lookup_lt_Some. lia.
Qed.
Lemma piece_app cs cs' i c : piece cs i = Some c → piece (cs ++ cs') i = Some c.
Proof. unfold piece. destruct (0 <=? i); [|done]. apply lookup_app_l_Some. Qed.
Lemma piece_lookup cs i : 0 ≤ i < vec_len cs → ∃ c, piece cs i = Some c.
Proof.
  unfold piece, vec_len. intros [Hi Hl]. rewrite (proj2 (Z.leb_le _ _)) by done.
  apply lookup_lt_is_Some. lia.
Qed.
Lemma piece_last cs c : piece (cs ++ [c]) (vec_len cs) = Some c.
Proof. unfold piece, vec_len. rewrite (proj2 (Z.leb_le _ _)) by lia. rewrite Nat2Z.id. by apply list_lookup_middle. Qed.

(** The bytes of the pieces from [n] up to [n']. *)
Definition bytes_between (cs : list (list Z)) (n n' : Z) : list Z :=
  concat (take (Z.to_nat (n' - n)) (drop (Z.to_nat n) cs)).
Lemma bytes_between_nil cs n : bytes_between cs n n = [].
Proof. unfold bytes_between. by rewrite Z.sub_diag. Qed.
Lemma bytes_between_cons cs n n' c :
  0 ≤ n < n' → piece cs n = Some c → bytes_between cs n n' = c ++ bytes_between cs (n + 1) n'.
Proof.
  intros Hn. unfold piece, bytes_between. rewrite (proj2 (Z.leb_le _ _)) by lia. intros H.
  rewrite (drop_S _ _ _ H). replace (Z.to_nat (n' - n)) with (S (Z.to_nat (n' - (n + 1)))) by lia.
  cbn [take concat]. by replace (Z.to_nat (n + 1)) with (S (Z.to_nat n)) by lia.
Qed.
Lemma bytes_between_app cs n n' : 0 ≤ n ≤ n' → bytes_between cs 0 n' = bytes_between cs 0 n ++ bytes_between cs n n'.
Proof.
  intros Hn. unfold bytes_between. rewrite !Z.sub_0_r, !drop_0, <-concat_app. f_equal.
  replace (Z.to_nat n') with (Z.to_nat n + Z.to_nat (n' - n))%nat by lia. by rewrite take_take_drop.
Qed.
Lemma bytes_between_all cs : bytes_between cs 0 (vec_len cs) = concat cs.
Proof. unfold bytes_between, vec_len. rewrite Z.sub_0_r, Nat2Z.id, drop_0. by rewrite take_ge. Qed.
Lemma bytes_between_grow cs cs' n : 0 ≤ n ≤ vec_len cs → bytes_between (cs ++ cs') 0 n = bytes_between cs 0 n.
Proof. intros Hn. unfold bytes_between, vec_len in *. rewrite !drop_0, take_app_le by lia. done. Qed.

(** The receiver has packet [i]. *)
Definition arrived (base n : Z) (y : BcUdpTransport) (i : Z) : Prop :=
  i < n ∨ n ≤ i ≤ MAX_PACKETS ∧ is_Some (tp_received y !! packet_id base i).

Record link (base : Z) (cs : list (list Z)) (n : Z) (x y : BcUdpTransport) : Prop := {
  lk_total : vec_len cs ≤ MAX_PACKETS;
  lk_next_send : tp_next_send_packet x = packet_id base (vec_len cs);
  lk_next_receive : tp_next_receive_packet y = packet_id base n;
  lk_position : 0 ≤ n ≤ vec_len cs;
  lk_sent k d : tp_sent x !! k = Some d →
    ∃ i c, k = packet_id base i ∧ piece cs i = Some c ∧ d = mk_data (tp_camera_id x) k c;
  lk_received k p : tp_received y !! k = Some p → ∃ i, k = packet_id base i ∧ n < i < n + 256 ∧ piece cs i = Some p;
  lk_kept i : n ≤ i < vec_len cs → arrived base n y i ∨ is_Some (tp_sent x !! packet_id base i);
  lk_in_flight : Z.of_nat (size (tp_sent x)) ≤ MAX_IN_FLIGHT_PACKETS;
  lk_pieces : Forall (λ c, vec_len c ≤ u32_max) cs
}.

(** A data packet of the stream; an acknowledgement of packets that arrived. *)
Definition data_ok (base : Z) (cs : list (list Z)) (d : UdpData) : Prop :=
  ∃ i, da_packet_id d = packet_id base i ∧ piece cs i = Some (da_payload d).
Definition ack_ok (base n : Z) (y : BcUdpTransport) (a : UdpAck) : Prop :=
  ∃ p, 0 ≤ p ≤ n ∧ ak_packet_id a = packet_id base (p - 1) ∧
    ∀ offset flag, ak_received a !! offset = Some flag → flag ≠ 0 → arrived base n y (p + Z.of_nat offset).

Lemma data_ok_app base cs cs' d : data_ok base cs d → data_ok base (cs ++ cs') d.
Proof. intros (i & Hi & Hp). exists i. split; [done|]. by apply piece_app. Qed.
Lemma ack_ok_mono base n n' y y' a :
  n ≤ n' → (∀ i, arrived base n y i → arrived base n' y' i) → ack_ok base n y a → ack_ok base n' y' a.
Proof. intros Hn Hmono (p & Hp & Hid & Hm). exists p. split; [lia|]. split; [done|]. intros o f Ho Hf. apply Hmono. by eapply Hm. Qed.

Lemma max_packets : MAX_PACKETS = 2147483647.
Proof. reflexivity. Qed.

(** ** Receiving data *)

(** Delivering the packets that are next in order. *)
Lemma flush_loop_ok base cs fuel n received payload :
  (size received < fuel)%nat → 0 ≤ n ≤ vec_len cs → vec_len cs ≤ MAX_PACKETS →
  (∀ k p, received !! k = Some p → ∃ i, k = packet_id base i ∧ n ≤ i < n + 256 ∧ piece cs i = Some p) →
  ∃ n' received', flush_loop fuel (packet_id base n) received payload
      = Ret (packet_id base n', received', payload ++ bytes_between cs n n') ∧
    n ≤ n' ≤ vec_len cs ∧
    (∀ k p, received' !! k = Some p → ∃ i, k = packet_id base i ∧ n' < i < n' + 256 ∧ piece cs i = Some p) ∧
    (∀ i, n ≤ i < vec_len cs → is_Some (received !! packet_id base i) → i < n' ∨ is_Some (received' !! packet_id base i)).
Proof.
  rewrite max_packets. revert n received payload. induction fuel as [|fuel IH]; intros n received payload Hf Hn Ht Hr; [lia|].
  cbn [flush_loop]. destruct (received !! packet_id base n) as [chunk|] eqn:E.
  - destruct (Hr _ _ E) as (i & Hid & Hi & Hp). pose proof (piece_range _ _ _ Hp) as Hrange.
    apply packet_id_inj in Hid as <-; [|lia|lia]. rewrite packet_id_next.
    destruct (IH (n + 1) (delete (packet_id base n) received) (payload ++ chunk)) as (n' & received' & -> & Hn' & Hr' & Hk).
    + rewrite map_size_delete_Some by done. assert (size received ≠ 0%nat) by (intros Hz%map_size_empty_inv; by rewrite Hz in E). lia.
    + lia.
    + done.
    + intros k p [Hne Hk]%lookup_delete_Some. destruct (Hr _ _ Hk) as (i & -> & Hi' & Hp'). exists i. split; [done|].
      split; [|done]. destruct (decide (i = n)) as [->|]; [done|lia].
    + exists n', received'. split; [by rewrite (bytes_between_cons cs n n' chunk), app_assoc by (done || lia)|].
      split; [lia|]. split; [done|]. intros i Hi1 Hi2. destruct (decide (i = n)) as [->|]; [lia|]. apply Hk; [lia|].
      rewrite lookup_delete_ne; [done|]. intros Heq. apply packet_id_inj in Heq; lia.
  - exists n, received. split; [by rewrite bytes_between_nil, app_nil_r|]. split; [lia|]. split.
    { intros k p Hk. destruct (Hr _ _ Hk) as (i & -> & Hi & Hp). exists i. split; [done|]. split; [|done].
      destruct (decide (i = n)) as [->|]; [by rewrite E in Hk|lia]. }
    by intros i _ Hi; apply or_intror.
Qed.

(** The two halves of a transport. *)
Record same_sender (t t' : BcUdpTransport) : Prop := {
  ss_next : tp_next_send_packet t' = tp_next_send_packet t;
  ss_sent : tp_sent t' = tp_sent t
}.
Record same_receiver (t t' : BcUdpTransport) : Prop := {
  sv_next : tp_next_receive_packet t' = tp_next_receive_packet t;
  sv_received : tp_received t' = tp_received t
}.
Record same_ids (t t' : BcUdpTransport) : Prop := {
  si_client : tp_client_id t' = tp_client_id t;
  si_camera : tp_camera_id t' = tp_camera_id t;
  si_config : tp_config t' = tp_config t
}.
Lemma link_ext base cs n x x' y y' :
  link base cs n x y → same_sender x x' → same_ids x x' → same_receiver y y' → link base cs n x' y'.
Proof.
  intros [H1 H2 H3 H4 H5 H6 H7 H8 H9] [Hn Hs] [_ Hc _] [Hr Hv].
  constructor; unfold arrived in *; rewrite ?Hn, ?Hs, ?Hr, ?Hv, ?Hc; done.
Qed.
Lemma arrived_ext base n y y' i : same_receiver y y' → arrived base n y i → arrived base n y' i.
Proof. intros [_ Hv]. unfold arrived. by rewrite Hv. Qed.

Lemma arrived_known base cs n x y i c :
  link base cs n x y → piece cs i = Some c → is_Some (tp_received y !! packet_id base i) → arrived base n y i.
Proof.
  intros Hl Hp Hs. pose proof (piece_range _ _ _ Hp). pose proof (lk_total _ _ _ _ _ Hl). unfold arrived.
  destruct (Z.lt_ge_cases i n); [by apply or_introl|]. apply or_intror. split; [lia|done].
Qed.

Lemma or_insert_elem {V} k (v : V) (m : gmap Z V) j w :
  or_insert k v m !! j = Some w → m !! j = Some w ∨ j = k ∧ w = v.
Proof.
  unfold or_insert. destruct (m !! k); [by apply or_introl|].
  intros [[<- <-]|[_ H]]%lookup_insert_Some; [by apply or_intror|by apply or_introl].
Qed.
Lemma or_insert_has {V} k (v : V) (m : gmap Z V) j : is_Some (m !! j) ∨ j = k → is_Some (or_insert k v m !! j).
Proof.
  unfold or_insert. destruct (m !! k) as [w|] eqn:E; intros [H| ->]; [done|by exists w| |rewrite lookup_insert_eq; by exists v].
  destruct (decide (j = k)) as [->|]; [rewrite lookup_insert_eq; by exists v|by rewrite lookup_insert_ne].
Qed.

(** What the receiver's half does when packets are delivered. *)
Record delivers (base : Z) (cs : list (list Z)) (n n' : Z) (x y y' : BcUdpTransport) : Prop := {
  dv_link : link base cs n' x y';
  dv_position : n ≤ n';
  dv_sender : same_sender y y';
  dv_ids : same_ids y y';
  dv_ack : tp_next_ack y' = tp_next_ack y;
  dv_resend : tp_next_resend y' = tp_next_resend y;
  dv_arrived i : arrived base n y i → arrived base n' y' i;
  dv_outputs : tp_outputs y' = tp_outputs y ++ match bytes_between cs n n' with [] => [] | p => [OutPayload p] end
}.
Lemma delivers_nothing base cs n x y : link base cs n x y → delivers base cs n n x y y.
Proof. intros Hl. constructor; try done. by rewrite bytes_between_nil, app_nil_r. Qed.

Lemma flush_received_ok base cs n x y received :
  link base cs n x y →
  (∀ k p, received !! k = Some p → ∃ i, k = packet_id base i ∧ n ≤ i < n + 256 ∧ piece cs i = Some p) →
  (∀ k, is_Some (tp_received y !! k) → is_Some (received !! k)) →
  ∃ n' y', flush_received (set_receiving (tp_next_receive_packet y) received (tp_outputs y) y) = Ret y' ∧
    delivers base cs n n' x y y' ∧
    ∀ i c, piece cs i = Some c → is_Some (received !! packet_id base i) → arrived base n' y' i.
Proof.
  intros Hl Hr Hsub. pose proof (lk_total _ _ _ _ _ Hl) as Ht. pose proof (lk_position _ _ _ _ _ Hl) as Hn.
  unfold flush_received. cbn [tp_received tp_next_receive_packet set_receiving tp_outputs].
  rewrite (lk_next_receive _ _ _ _ _ Hl).
  destruct (flush_loop_ok base cs (1 + size received) n received []) as (n' & received' & -> & Hn' & Hr' & Hk); [lia|lia|done|done|].
  cbn [obind app]. eexists n', _. split; [done|]. set (y' := set_receiving _ _ _ _).
  assert (∀ i c, piece cs i = Some c → is_Some (received !! packet_id base i) → arrived base n' y' i) as Hnew.
  { intros i c Hp Hi. pose proof (piece_range _ _ _ Hp) as Hrange. unfold arrived.
    destruct (Z.lt_ge_cases i n'); [by apply or_introl|]. apply or_intror. split; [lia|].
    destruct (Hk i ltac:(lia) Hi); [lia|done]. }
  assert (∀ i, arrived base n y i → arrived base n' y' i) as Hmono.
  { intros i [Hi|[Hi [p Hp]]]; [apply or_introl; lia|].
    destruct (lk_received _ _ _ _ _ Hl _ _ Hp) as (j & Hid & Hj & Hpj). pose proof (piece_range _ _ _ Hpj).
    rewrite max_packets in *. apply packet_id_inj in Hid as ->; [|lia|lia]. eapply Hnew; [done|]. apply Hsub. by exists p. }
  split; [|done]. constructor; try done; [|lia|by unfold y'; cbn; destruct (bytes_between _ _ _); rewrite ?app_nil_r].
  destruct Hl as [H1 H2 H3 H4 H5 H6 H7 H8 H9]. constructor; try done; [lia|].
  intros i Hi. destruct (H7 i ltac:(lia)) as [Ha|Hs]; [by apply or_introl, Hmono|by apply or_intror].
Qed.

Lemma handle_data_ok base cs n x y d :
  link base cs n x y → data_ok base cs d →
  ∃ v n' y', handle_data d y = Ret (v, y') ∧ delivers base cs n n' x y y' ∧
    ∀ i, da_packet_id d = packet_id base i → piece cs i = Some (da_payload d) → i < n + 256 → arrived base n' y' i.
Proof.
  intros Hl (i & Hid & Hp). pose proof (lk_total _ _ _ _ _ Hl) as Ht. rewrite max_packets in Ht.
  pose proof (lk_position _ _ _ _ _ Hl) as Hn. pose proof (piece_range _ _ _ Hp) as Hi.
  assert (∀ j, packet_id base i = packet_id base j → piece cs j = Some (da_payload d) → j = i) as Huniq.
  { intros j Hj Hpj. apply piece_range in Hpj. apply packet_id_inj in Hj; lia. }
  unfold handle_data. assert (u32_wrapping_sub (da_packet_id d) (tp_next_receive_packet y)
    = u32_wrapping_sub (packet_id base i) (packet_id base n)) as -> by (by rewrite Hid, (lk_next_receive _ _ _ _ _ Hl)).
  rewrite Hid. change MAX_RECEIVE_WINDOW with 256.
  destruct (Z.lt_ge_cases i n) as [Hlt|Hge].
  { pose proof (distance_behind base i n ltac:(lia)) as Hd. rewrite !(proj2 (Z.ltb_ge _ _)) by lia.
    eexists _, n, y. split; [done|]. split; [by apply delivers_nothing|].
    intros j Hj Hpj _. apply or_introl. by rewrite (Huniq j). }
  rewrite distance_ahead by lia. destruct (i - n <? 256) eqn:Hw.
  2: { apply Z.ltb_ge in Hw. rewrite (proj2 (Z.ltb_lt _ _)) by lia. eexists _, n, y. split; [done|].
    split; [by apply delivers_nothing|]. intros j Hj Hpj Hj2. rewrite (Huniq j) in Hj2 by done. lia. }
  apply Z.ltb_lt in Hw.
  destruct (flush_received_ok base cs n x y (or_insert (packet_id base i) (da_payload d) (tp_received y)) Hl)
    as (n' & y' & -> & Hd & Hnew).
  - intros k p [Hk|[-> ->]]%or_insert_elem; [|exists i; split; [done|split; [lia|done]]].
    destruct (lk_received _ _ _ _ _ Hl _ _ Hk) as (j & -> & Hj & Hpj). exists j. split; [done|]. split; [lia|done].
  - intros k Hk. apply or_insert_has. by apply or_introl.
  - cbn [obind]. eexists _, n', y'. split; [done|]. split; [done|]. intros j Hj Hpj _. rewrite (Huniq j) by done.
    eapply Hnew; [done|]. apply or_insert_has. by apply or_intror.
Qed.

(** ** Acknowledgements *)

Lemma foldl_delete_lookup (l : list (Z * Z)) (m : gmap Z UdpData) k d :
  m !! k = Some d →
  foldl (λ m p, if negb (p.2 =? 0) then delete p.1 m else m) m l !! k = Some d ∨
  ∃ flag, (k, flag) ∈ l ∧ flag ≠ 0.
Proof.
  revert m. induction l as [|[j f] l IH]; intros m Hm; [by apply or_introl|]. cbn [foldl].
  destruct (decide (j = k ∧ f ≠ 0)) as [[-> Hf]|Hne]; [apply or_intror; exists f; split; [by apply elem_of_cons, or_introl|done]|].
  destruct (IH (if negb (f =? 0) then delete j m else m)) as [H|(flag & H & Hf)].
  - destruct (f =? 0) eqn:E; cbn; [done|]. apply Z.eqb_neq in E. rewrite lookup_delete_ne; [done|]. naive_solver.
  - by apply or_introl.
  - apply or_intror. exists flag. split; [by apply elem_of_cons, or_intror|done].
Qed.
Lemma foldl_delete_sub (l : list (Z * Z)) (m : gmap Z UdpData) :
  foldl (λ m p, if negb (p.2 =? 0) then delete p.1 m else m) m l ⊆ m.
Proof.
  revert m. induction l as [|[j f] l IH]; intros m; [done|]. cbn [foldl]. etrans; [apply IH|].
  destruct (negb _); [apply delete_subseteq|done].
Qed.

Lemma handle_ack_ok base cs n x y a :
  link base cs n x y → ack_ok base n y a →
  link base cs n (handle_ack a x) y ∧ same_receiver x (handle_ack a x) ∧ same_ids x (handle_ack a x) ∧
  tp_outputs (handle_ack a x) = tp_outputs x.
Proof.
  intros Hl (p & Hp & Hpid & Hmarks). split; [|done].
  destruct Hl as [H1 H2 H3 H4 H5 H6 H7 H8 H9]. rewrite max_packets in H1.
  assert (tp_sent (handle_ack a x) ⊆ tp_sent x) as Hsub.
  { unfold handle_ack. cbn [set_sending tp_sent]. etrans; [apply foldl_delete_sub|]. apply map_filter_subseteq. }
  constructor; try done.
  - intros k d Hk. apply H5. by eapply lookup_weaken.
  - intros i Hi. destruct (H7 i Hi) as [Ha|[d Hd]]; [by apply or_introl|].
    set (newer := λ q : Z * UdpData, (negb (u32_wrapping_sub q.1 (ak_packet_id a) =? 0)
      && (u32_wrapping_sub q.1 (ak_packet_id a) <? 2 ^ 31)) = true).
    assert (filter newer (tp_sent x) !! packet_id base i = Some d) as Hkeep.
    { apply map_lookup_filter_Some. split; [done|]. unfold newer. cbn [fst]. rewrite Hpid, distance_ahead by lia.
      apply andb_true_iff. split; [apply negb_true_iff, Z.eqb_neq; lia|apply Z.ltb_lt; lia]. }
    destruct (foldl_delete_lookup (imap (λ offset flag, (acknowledged_id a offset, flag)) (ak_received a)) _ _ _ Hkeep)
      as [Hin|(flag & Hin & Hf)]; [apply or_intror; by exists d|]. apply or_introl.
    apply list_elem_of_lookup in Hin as (o & Ho). rewrite list_lookup_imap in Ho.
    destruct (ak_received a !! o) as [f|] eqn:Eo; [|done]. cbn in Ho. injection Ho as Hid <-.
    unfold acknowledged_id in Hid. rewrite Hpid, packet_id_next, packet_id_add in Hid.
    pose proof (Hmarks _ _ Eo Hf) as Harr. assert (0 ≤ p + Z.of_nat o < 2 ^ 32) as Hrange.
    { destruct Harr as [?|[? _]]; rewrite ?max_packets in *; lia. }
    apply packet_id_inj in Hid; [|lia|lia]. by replace i with (p + Z.of_nat o) by lia.
  - pose proof (map_subseteq_size _ _ Hsub). lia.
Qed.

(** ** Sending *)

Section sending.
Context (crc : list Z → Z).

(** A datagram that carries a piece of the stream. *)
Definition carries (base : Z) (cs : list (list Z)) (connection : Z) (bytes : list Z) : Prop :=
  ∃ d, decode crc bytes = Ok (PkData d) ∧ da_connection_id d = connection ∧ data_ok base cs d.

Definition datagrams (outputs : list BcUdpOutput) : list (list Z) :=
  omap (λ o, match o with OutDatagram bytes => Some bytes | _ => None end) outputs.
Definition payloads (outputs : list BcUdpOutput) : list Z :=
  concat (omap (λ o, match o with OutPayload bytes => Some bytes | _ => None end) outputs).
Lemma datagrams_app a b : datagrams (a ++ b) = datagrams a ++ datagrams b.
Proof. apply omap_app. Qed.
Lemma payloads_app a b : payloads (a ++ b) = payloads a ++ payloads b.
Proof. unfold payloads. by rewrite omap_app, concat_app. Qed.

Lemma carries_app base cs cs' c bytes : carries base cs c bytes → carries base (cs ++ cs') c bytes.
Proof. intros (d & H1 & H2 & H3). exists d. split; [done|]. split; [done|]. by apply data_ok_app. Qed.

(** Sending one more piece. *)
Lemma link_send base cs n x y c outputs :
  link base cs n x y → vec_len cs + 1 ≤ MAX_PACKETS → vec_len c ≤ u32_max →
  Z.of_nat (size (tp_sent x)) + 1 ≤ MAX_IN_FLIGHT_PACKETS →
  link base (cs ++ [c]) n
    (set_sending (u32_wrapping_add (tp_next_send_packet x) 1)
       (<[tp_next_send_packet x := mk_data (tp_camera_id x) (tp_next_send_packet x) c]> (tp_sent x)) outputs x) y.
Proof.
  intros [H1 H2 H3 H4 H5 H6 H7 H8 H9] Hmax Hc Hsize.
  assert (vec_len (cs ++ [c]) = vec_len cs + 1) as Hlen by (unfold vec_len; rewrite length_app; cbn; lia).
  constructor; cbn [set_sending tp_next_send_packet tp_sent tp_camera_id]; rewrite ?Hlen; try done.
  - by rewrite H2, packet_id_next.
  - lia.
  - intros k d [[<- <-]|[_ Hk]]%lookup_insert_Some.
    + exists (vec_len cs), c. by rewrite piece_last, H2.
    + destruct (H5 _ _ Hk) as (i & c' & -> & Hp & ->). exists i, c'. split; [done|]. split; [by apply piece_app|done].
  - intros k p Hk. destruct (H6 _ _ Hk) as (i & -> & Hi & Hp). exists i. split; [done|]. split; [done|]. by apply piece_app.
  - intros i Hi. destruct (decide (i = vec_len cs)) as [->|].
    + apply or_intror. rewrite H2, lookup_insert_eq. by eexists.
    + destruct (H7 i ltac:(lia)) as [Ha|[d Hd]]; [by apply or_introl|]. apply or_intror. rewrite lookup_insert_is_Some'.
      apply or_intror. by exists d.
  - rewrite map_size_insert. destruct (_ !! _); cbn; lia.
  - apply Forall_app. split; [done|]. by apply Forall_singleton.
Qed.

(** What the sender's half does when pieces are queued. *)
Record sends (base : Z) (cs cs' : list (list Z)) (n : Z) (x x' y : BcUdpTransport) : Prop := {
  sn_link : link base (cs ++ cs') n x' y;
  sn_receiver : same_receiver x x';
  sn_ids : same_ids x x';
  sn_outputs : ∃ outs, tp_outputs x' = tp_outputs x ++ outs ∧
    Forall (carries base (cs ++ cs') (tp_camera_id x)) (datagrams outs) ∧ payloads outs = []
}.

Lemma queue_chunks_ok base cs n x y cs' :
  link base cs n x y → in_i32 (tp_camera_id x) → Forall (λ c, vec_len c ≤ u32_max) cs' →
  vec_len cs + vec_len cs' ≤ MAX_PACKETS → Z.of_nat (size (tp_sent x)) + vec_len cs' ≤ MAX_IN_FLIGHT_PACKETS →
  ∃ x', queue_chunks crc cs' x = (Ok tt, x') ∧ sends base cs cs' n x x' y.
Proof.
  intros Hl Hid Hcs. revert cs x Hl Hid. induction Hcs as [|c cs' Hc Hcs IH]; intros cs x Hl Hid Hmax Hsize; cbn [queue_chunks].
  { exists x. split; [done|]. constructor; rewrite ?app_nil_r; try done. exists []. by rewrite app_nil_r. }
  assert (vec_len (c :: cs') = 1 + vec_len cs') as E by (unfold vec_len; cbn [length]; lia). rewrite E in *.
  assert (0 ≤ vec_len cs') by (unfold vec_len; lia).
  destruct (data_roundtrip crc (mk_data (tp_camera_id x) (tp_next_send_packet x) c)) as (bytes & -> & Hdec).
  { split; [done|]. split; [|done]. cbn. rewrite (lk_next_send _ _ _ _ _ Hl). apply packet_id_range. }
  cbn [da_packet_id]. pose proof (link_send _ _ _ _ _ c (tp_outputs x ++ [OutDatagram bytes]) Hl ltac:(lia) Hc ltac:(lia)) as Hl1.
  set (x1 := set_sending _ _ _ _) in *. assert (vec_len (cs ++ [c]) = vec_len cs + 1) as Hlen by (unfold vec_len; rewrite length_app; cbn; lia).
  destruct (IH (cs ++ [c]) x1 Hl1 Hid) as (x' & -> & [Hl' Hr' Hi' (outs & Ho & Hcar & Hp)]); [lia| |].
  { unfold x1. cbn. rewrite map_size_insert. destruct (_ !! _); cbn; lia. }
  exists x'. split; [done|]. rewrite <-app_assoc in Hl', Hcar. constructor; [done| | |].
  - destruct Hr' as [? ?]. by constructor.
  - destruct Hi' as [? ? ?]. by constructor.
  - exists (OutDatagram bytes :: outs). rewrite Ho. split; [by cbn; rewrite <-app_assoc|]. split; [|done]. cbn. constructor; [|done].
    eexists. split; [exact Hdec|]. split; [done|]. exists (vec_len cs). cbn [da_packet_id da_payload].
    split; [apply Hl|]. replace (cs ++ c :: cs') with ((cs ++ [c]) ++ cs') by (by rewrite <-app_assoc). apply piece_app, piece_last.
Qed.

Lemma chunks_loop_ok fuel n l :
  (0 < n)%nat → (length l ≤ fuel)%nat →
  concat (chunks_loop fuel n l) = l ∧ Forall (λ c, (length c ≤ n)%nat) (chunks_loop fuel n l) ∧
  (length (chunks_loop fuel n l) * n ≤ length l + n - 1)%nat.
Proof.
  intros Hn. revert l. induction fuel as [|fuel IH]; intros l Hl; [destruct l; cbn in *; [split_and!; [done|by constructor|lia]|lia]|].
  destruct l as [|b l]; [cbn; split_and!; [done|by constructor|lia]|]. cbn [chunks_loop].
  destruct (IH (drop n (b :: l))) as (Hc & Hf & Hk); [rewrite length_drop; cbn in *; lia|]. cbn [concat length].
  split; [by rewrite Hc, take_drop|]. split; [constructor; [rewrite length_take; lia|done]|].
  rewrite length_drop in Hk. destruct (decide (n ≤ length (b :: l))%nat); [cbn [length] in *; lia|].
  assert (drop n (b :: l) = []) as E by (apply drop_ge; lia). rewrite E in *. destruct fuel; cbn in *; lia.
Qed.
Lemma chunks_ok n l :
  0 < n → concat (chunks (Z.to_nat n) l) = l ∧ Forall (λ c, vec_len c ≤ n) (chunks (Z.to_nat n) l) ∧
    vec_len (chunks (Z.to_nat n) l) ≤ div_ceil (vec_len l) n.
Proof.
  intros Hn. destruct (chunks_loop_ok (length l) (Z.to_nat n) l) as (H1 & H2 & H3); [lia|lia|]. split; [done|]. split.
  - eapply Forall_impl; [exact H2|]. intros c Hc. cbn in Hc. unfold vec_len. lia.
  - unfold div_ceil, vec_len. apply Z.div_le_lower_bound; [done|]. unfold chunks. nia.
Qed.

(** The configuration of a transport made by [new], for a link's maximum transmission unit. *)
Record config_ok (t : BcUdpTransport) : Prop := {
  co_mtu : DATA_HEADER_LEN < uc_mtu (tp_config t) ≤ u32_max;
  co_ack : 0 < uc_ack_interval (tp_config t);
  co_resend : 0 < uc_resend_interval (tp_config t);
  co_client : in_i32 (tp_client_id t);
  co_camera : in_i32 (tp_camera_id t)
}.
Lemma config_ok_ext t t' : same_ids t t' → config_ok t → config_ok t'.
Proof. intros [E1 E2 E3] [? ? ? ? ?]. constructor; rewrite ?E1, ?E2, ?E3; done. Qed.

(** The packets a payload takes. *)
Definition packets_of (t : BcUdpTransport) (payload : list Z) : Z :=
  div_ceil (vec_len payload) (uc_mtu (tp_config t) - DATA_HEADER_LEN).

Lemma queue_payload_ok base cs n x y payload :
  link base cs n x y → config_ok x → vec_len cs + packets_of x payload ≤ MAX_PACKETS →
  (∃ e, queue_payload crc payload x = (Err e, x)) ∨
  ∃ cs' x', queue_payload crc payload x = (Ok tt, x') ∧ concat cs' = payload ∧ vec_len cs' ≤ packets_of x payload ∧
    sends base cs cs' n x x' y.
Proof.
  intros Hl Hcfg Hmax. destruct Hcfg as [Hmtu _ _ _ Hcam]. unfold queue_payload. fold (packets_of x payload).
  destruct (_ <? packets_of x payload) eqn:Hfull; [apply or_introl; by eexists|]. apply Z.ltb_ge in Hfull. apply or_intror.
  change DATA_HEADER_LEN with 20 in Hmtu.
  destruct (chunks_ok (uc_mtu (tp_config x) - DATA_HEADER_LEN) payload) as (H1 & H2 & H3); [change DATA_HEADER_LEN with 20; lia|].
  destruct (queue_chunks_ok base cs n x y (chunks (Z.to_nat (uc_mtu (tp_config x) - DATA_HEADER_LEN)) payload) Hl Hcam)
    as (x' & -> & Hs).
  - eapply Forall_impl; [exact H2|]. intros c Hc. cbn in Hc. change DATA_HEADER_LEN with 20 in Hc. lia.
  - unfold packets_of in Hmax. lia.
  - unfold packets_of, saturating_sub in Hfull. pose proof (lk_in_flight _ _ _ _ _ Hl). lia.
  - eexists _, x'. split; [done|]. done.
Qed.
End sending.

(** ** Polling *)

Lemma advance_loop_total fuel deadline interval now :
  0 < interval → now + interval ≤ instant_max → - interval ≤ now - deadline → (now - deadline) / interval + 2 ≤ Z.of_nat fuel →
  ∃ d, advance_loop fuel deadline interval now = Ret d.
Proof.
  intros Hi Hmax. revert deadline. induction fuel as [|fuel IH]; intros deadline Hd Hf.
  { assert (-1 ≤ (now - deadline) / interval) by (apply Z.div_le_lower_bound; lia). lia. }
  cbn [advance_loop]. destruct (deadline <=? now) eqn:E; [|by eexists]. apply Z.leb_le in E. unfold instant_add.
  rewrite (proj2 (Z.leb_le _ _)) by lia. cbn [obind]. apply IH; [lia|].
  replace (now - (deadline + interval)) with (now - deadline + (-1) * interval) by lia. rewrite Z.div_add by lia. lia.
Qed.
Lemma advance_deadline_total deadline interval now :
  0 < interval → now + interval ≤ instant_max → deadline ≤ now → ∃ d, advance_deadline deadline interval now = Ret d.
Proof.
  intros Hi Hmax Hd. apply advance_loop_total; [done|done|lia|].
  assert (0 ≤ (now - deadline) / interval) by (apply Z.div_pos; lia). lia.
Qed.

Lemma mark_received_ok ds marks :
  Forall (λ d, 0 ≤ d < vec_len marks) ds → ∃ marks', mark_received ds marks = Ret marks' ∧ length marks' = length marks ∧
    ∀ o f, marks' !! o = Some f → marks !! o = Some f ∨ Z.of_nat o ∈ ds.
Proof.
  intros Hds. revert marks Hds. induction ds as [|d ds IH]; intros marks Hds; cbn [mark_received].
  { exists marks. split; [done|]. split; [done|]. by intros o f H; apply or_introl. }
  apply Forall_cons in Hds as [Hd Hds]. rewrite (proj2 (Z.ltb_lt _ _)) by lia.
  destruct (IH (<[Z.to_nat d := 1]> marks)) as (marks' & -> & Hl & Hm); [unfold vec_len; by rewrite length_insert|].
  exists marks'. rewrite length_insert in Hl. split; [done|]. split; [done|]. intros o f Ho.
  destruct (Hm o f Ho) as [H|H]; [|apply or_intror, elem_of_cons; by apply or_intror].
  destruct (decide (o = Z.to_nat d)) as [->|]; [apply or_intror, elem_of_cons, or_introl; lia|].
  rewrite list_lookup_insert_ne in H by done. by apply or_introl.
Qed.

Lemma foldl_zmax_ok l best :
  match foldl option_zmax best l with
  | Some m => (best = Some m ∨ m ∈ l) ∧ (∀ d, d ∈ l ∨ best = Some d → d ≤ m)
  | None => best = None ∧ l = []
  end.
Proof.
  revert best. induction l as [|d l IH]; intros best; cbn [foldl].
  { destruct best as [b|]; [|done]. split; [by apply or_introl|]. intros d [H|[= ->]]; [by apply elem_of_nil in H|done]. }
  specialize (IH (option_zmax best d)). destruct (foldl _ _ l) as [m|].
  - destruct IH as [H1 H2]. split.
    + destruct H1 as [H1|H1]; [|apply or_intror, elem_of_cons; by apply or_intror].
      destruct best as [b|]; cbn in H1; injection H1 as <-; [|apply or_intror, elem_of_cons; by apply or_introl].
      destruct (Z.max_spec b d) as [[_ ->]|[_ ->]]; [apply or_intror, elem_of_cons; by apply or_introl|by apply or_introl].
    + intros e [[->|He]%elem_of_cons| ->].
      * destruct best as [b|]; cbn in H2; [etrans; [|by apply H2, or_intror]; lia|by apply H2, or_intror].
      * by apply H2, or_introl.
      * cbn in H2. etrans; [|by apply H2, or_intror]. lia.
  - destruct IH as [H _]. by destruct best.
Qed.

Lemma packet_iter_perm {V} (m : gmap Z V) : packet_iter m ≡ₚ map_to_list m.
Proof. apply merge_sort_Permutation. Qed.

Lemma window_distance_ok base cs n x y d :
  link base cs n x y → d ∈ window_distances y → 0 < d < 256 ∧ arrived base n y (n + d).
Proof.
  intros Hl. unfold window_distances. rewrite list_elem_of_filter. intros [Hd Hin].
  apply list_elem_of_fmap in Hin as ([k p] & -> & Hin). rewrite packet_iter_perm in Hin. apply elem_of_map_to_list in Hin.
  destruct (lk_received _ _ _ _ _ Hl _ _ Hin) as (i & -> & Hi & Hp). cbn [fst].
  rewrite (lk_next_receive _ _ _ _ _ Hl). pose proof (piece_range _ _ _ Hp). pose proof (lk_total _ _ _ _ _ Hl) as Ht.
  rewrite max_packets in Ht. rewrite distance_ahead by (pose proof (lk_position _ _ _ _ _ Hl); lia).
  split; [lia|]. replace (n + (i - n)) with i by lia. eapply arrived_known; [done|done|]. by exists p.
Qed.

Lemma build_ack_ok base cs n x y :
  link base cs n x y → in_i32 (tp_camera_id y) →
  ∃ a, build_ack y = Ret a ∧ ack_ok base n y a ∧ ack_fields_ok a ∧ ak_connection_id a = tp_camera_id y ∧
    ak_packet_id a = packet_id base (n - 1).
Proof.
  intros Hl Hid. unfold build_ack.
  pose proof (foldl_zmax_ok (window_distances y) None) as Hmax.
  set (marks := match foldl option_zmax None (window_distances y) with None => [] | Some distance => replicate (Z.to_nat distance + 1) 0 end).
  assert (Forall (λ d, 0 ≤ d < vec_len marks) (window_distances y) ∧ vec_len marks ≤ 256 ∧ ∀ o f, marks !! o = Some f → f = 0)
    as (Hds & Hlen & Hzero).
  { unfold marks. destruct (foldl option_zmax None (window_distances y)) as [m|]; [|destruct Hmax as [_ ->]; split_and!; [by constructor|done|]; intros o f Ho; by rewrite lookup_nil in Ho].
    destruct Hmax as [[Hm|Hm] Hle]; [done|]. destruct (window_distance_ok _ _ _ _ _ _ Hl Hm) as [Hm1 _]. unfold vec_len. rewrite length_replicate.
    split_and!; [|lia|by intros o f [-> _]%lookup_replicate]. apply Forall_forall. intros d Hd.
    destruct (window_distance_ok _ _ _ _ _ _ Hl Hd) as [Hd1 _]. pose proof (Hle d (or_introl Hd)). lia. }
  destruct (mark_received_ok _ _ Hds) as (marks' & -> & Hl' & Hm). cbn [obind]. eexists. split; [done|].
  rewrite (lk_next_receive _ _ _ _ _ Hl), packet_id_prev. split; [|split; [|done]].
  - exists n. split; [pose proof (lk_position _ _ _ _ _ Hl); lia|]. split; [done|]. cbn [ak_received]. intros o f Ho Hf.
    destruct (Hm o f Ho) as [H|H]; [by apply Hzero in H|]. by eapply window_distance_ok.
  - assert (in_u32 0) as H0 by done. split; [done|]. split; [done|]. split; [apply packet_id_range|]. split; [done|].
    cbn [ak_received]. unfold vec_len in *. change u32_max with (2 ^ 32 - 1). lia.
Qed.
