(* ===== verification/ReoUdpRun.v ===== *)
(** * Runs of two UDP transports over a network

    The operations of the two ends interleave with a network that may deliver any
    datagram that was ever sent, any number of times and in any order, or not at all, and
    may invent datagrams of other connections. *)

From S2P Require Import Prelude ReoWire ReoFraming ReoUdp ReoUdpNet.

Section run.
Context (crc : list Z → Z).

(** ** Ends and their network *)

(** A transport, the datagrams it sent, the bytes it accepted for sending and the bytes
    it delivered. *)
Record endpoint := mk_endpoint {
  ep_transport : BcUdpTransport;
  ep_wire : list (list Z);
  ep_accepted : list Z;
  ep_delivered : list Z
}.
Definition endpoint_of (t : BcUdpTransport) : endpoint := mk_endpoint t [] [] [].

Inductive EndOp :=
| Send (payload : list Z)
| PollAt (now : Z)
| Deliver (k : nat)
| Stray (datagram : list Z).

Definition emitted (v : result BcError BcUdpOutput) : list (list Z) :=
  match v with Ok (OutDatagram bytes) => [bytes] | _ => [] end.
Definition handed_out (v : result BcError BcUdpOutput) : list Z :=
  match v with Ok (OutPayload bytes) => bytes | _ => [] end.
Definition set_transport (e : endpoint) (t : BcUdpTransport) : endpoint :=
  mk_endpoint t (ep_wire e) (ep_accepted e) (ep_delivered e).

Definition end_step (op : EndOp) (e peer : endpoint) : outcome endpoint :=
  match op with
  | Send payload =>
      let '(v, t) := queue_payload crc payload (ep_transport e) in
      Ret (mk_endpoint t (ep_wire e)
             (match v with Ok _ => ep_accepted e ++ payload | Err _ => ep_accepted e end) (ep_delivered e))
  | PollAt now =>
      let! (v, t) := poll_output crc now (ep_transport e) in
      Ret (mk_endpoint t (ep_wire e ++ emitted v) (ep_accepted e) (ep_delivered e ++ handed_out v))
  | Deliver k =>
      match ep_wire peer !! k with
      | None => Ret e
      | Some datagram =>
          let! (_, t) := handle_datagram crc datagram (ep_transport e) in Ret (set_transport e t)
      end
  | Stray datagram =>
      let! (_, t) := handle_datagram crc datagram (ep_transport e) in Ret (set_transport e t)
  end.

(** The operation of one end or the other. *)
Definition net_step (p : bool * EndOp) (net : endpoint * endpoint) : outcome (endpoint * endpoint) :=
  let '(a, b) := net in
  if p.1 then let! b := end_step p.2 b a in Ret (a, b) else let! a := end_step p.2 a b in Ret (a, b).
Fixpoint net_run (ops : list (bool * EndOp)) (net : endpoint * endpoint) : outcome (endpoint * endpoint) :=
  match ops with
  | [] => Ret net
  | p :: ops' => let! net := net_step p net in net_run ops' net
  end.

(** A datagram that belongs to another connection or to none. *)
Definition is_stray (t : BcUdpTransport) (datagram : list Z) : Prop :=
  match decode crc datagram with
  | Ok (PkData d) => da_connection_id d ≠ tp_client_id t
  | Ok (PkAck a) => ak_connection_id a ≠ tp_client_id t
  | _ => True
  end.
Definition end_op_ok (op : EndOp) (t : BcUdpTransport) : Prop :=
  match op with
  | PollAt now => now + uc_ack_interval (tp_config t) ≤ instant_max ∧ now + uc_resend_interval (tp_config t) ≤ instant_max
  | Stray datagram => is_stray t datagram
  | _ => True
  end.
Definition op_packets (op : EndOp) (t : BcUdpTransport) : Z :=
  match op with Send payload => packets_of t payload | _ => 0 end.

(** ** Datagrams in the network *)

(** A datagram of an end: a piece of its stream, or an acknowledgement of packets it has. *)
Definition wire_ok (base : Z) (cs : list (list Z)) (base' n' : Z) (t : BcUdpTransport) (bytes : list Z) : Prop :=
  carries crc base cs (tp_camera_id t) bytes ∨
  ∃ a, decode crc bytes = Ok (PkAck a) ∧ ak_connection_id a = tp_camera_id t ∧ ack_ok base' n' t a.

Lemma wire_ok_grow base cs cs' base' n n' t t' bytes :
  same_ids t t' → n ≤ n' → (∀ i, arrived base' n t i → arrived base' n' t' i) →
  wire_ok base cs base' n t bytes → wire_ok base (cs ++ cs') base' n' t' bytes.
Proof.
  intros [_ Hc _] Hn Hmono [H|(a & H1 & H2 & H3)].
  - apply or_introl. rewrite Hc. by apply carries_app.
  - apply or_intror. exists a. split; [done|]. split; [by rewrite Hc|]. by eapply ack_ok_mono.
Qed.

Lemma wire_ok_ext base cs base' n t t' bytes :
  same_ids t t' → same_receiver t t' → wire_ok base cs base' n t bytes → wire_ok base cs base' n t' bytes.
Proof.
  intros Hi Hr H. rewrite <-(app_nil_r cs). eapply wire_ok_grow; [done|done| |done]. intros i. by apply arrived_ext.
Qed.

Lemma resend_all_ok base cs n x y ds outputs :
  link base cs n x y → in_i32 (tp_camera_id x) → (∀ d, d ∈ ds → ∃ k, tp_sent x !! k = Some d) →
  ∃ outs, resend_all crc ds outputs = (Ok tt, outputs ++ outs) ∧ Forall (carries crc base cs (tp_camera_id x)) (datagrams outs) ∧
    payloads outs = [].
Proof.
  intros Hl Hid. revert outputs. induction ds as [|d ds IH]; intros outputs Hds; cbn [resend_all].
  { exists []. by rewrite app_nil_r. }
  destruct (Hds d) as [k Hk]; [by apply elem_of_cons, or_introl|].
  destruct (lk_sent _ _ _ _ _ Hl _ _ Hk) as (i & c & -> & Hp & ->).
  destruct (data_roundtrip crc (mk_data (tp_camera_id x) (packet_id base i) c)) as (bytes & -> & Hdec).
  { split; [done|]. split; [apply packet_id_range|]. cbn. pose proof (lk_pieces _ _ _ _ _ Hl) as Hall. rewrite Forall_forall in Hall.
    apply Hall. unfold piece in Hp. destruct (0 <=? i); [|done]. by eapply list_elem_of_lookup_2. }
  destruct (IH (outputs ++ [OutDatagram bytes])) as (outs & -> & Hc & Hpay); [intros d Hd; apply Hds, elem_of_cons; by apply or_intror|].
  exists (OutDatagram bytes :: outs). rewrite <-app_assoc. split; [done|]. split; [|done]. cbn. constructor; [|done].
  eexists. split; [exact Hdec|]. split; [done|]. by exists i.
Qed.

(** What polling gives: outputs move, and new datagrams are sound. *)
Record polls (base : Z) (cs : list (list Z)) (base' n' : Z) (x x' : BcUdpTransport) (v : result BcError BcUdpOutput) : Prop := {
  pl_sender : same_sender x x';
  pl_receiver : same_receiver x x';
  pl_ids : same_ids x x';
  pl_payloads : handed_out v ++ payloads (tp_outputs x') = payloads (tp_outputs x);
  pl_datagrams : ∃ outs, emitted v ++ datagrams (tp_outputs x') = datagrams (tp_outputs x) ++ outs ∧
    Forall (wire_ok base cs base' n' x') outs
}.
Lemma polls_pop base cs base' n' x o rest :
  tp_outputs x = o :: rest →
  polls base cs base' n' x (set_deadlines (tp_next_ack x) (tp_next_resend x) rest x) (Ok o).
Proof.
  intros E. constructor; try done; cbn [set_deadlines tp_outputs]; rewrite E.
  - by destruct o.
  - exists []. rewrite app_nil_r. by destruct o.
Qed.

Lemma poll_resend_ok base cs n x y base' n' now :
  link base cs n x y → config_ok x → now + uc_resend_interval (tp_config x) ≤ instant_max → tp_outputs x = [] →
  ∃ v x', poll_resend crc now x = Ret (v, x') ∧ polls base cs base' n' x x' v.
Proof.
  intros Hl Hcfg Hnow Hout. unfold poll_resend. destruct (tp_next_resend x <=? now) eqn:Hdue.
  2: { eexists _, x. split; [done|]. constructor; try done. exists []. by rewrite app_nil_r. }
  apply Z.leb_le in Hdue. destruct (advance_deadline_total (tp_next_resend x) (uc_resend_interval (tp_config x)) now) as [d ->];
    [apply Hcfg|done|done|]. cbn [obind].
  destruct (resend_all_ok base cs n x y (snd <$> packet_iter (tp_sent x)) (tp_outputs x) Hl) as (outs & -> & Hc & Hp); [apply Hcfg| |].
  { intros e ([k e'] & -> & Hin)%list_elem_of_fmap. rewrite packet_iter_perm in Hin. apply elem_of_map_to_list in Hin. by exists k. }
  rewrite Hout. cbn [app set_deadlines tp_outputs tp_next_ack tp_next_resend].
  assert (Forall (wire_ok base cs base' n' x) (datagrams outs)) as Hw.
  { eapply Forall_impl; [exact Hc|]. intros b Hb. by apply or_introl. }
  destruct outs as [|o outs]; (eexists _, _; split; [done|]).
  - constructor; try done; cbn; rewrite Hout; [done|]. exists []. by rewrite app_nil_r.
  - constructor; try done; cbn [set_deadlines tp_outputs]; rewrite Hout.
    + revert Hp. unfold payloads. by destruct o.
    + exists (datagrams (o :: outs)). split; [by destruct o|]. eapply Forall_impl; [exact Hw|]. intros b. by apply wire_ok_ext.
Qed.

Lemma poll_output_ok base cs n x y base' cs' n' now :
  link base cs n x y → link base' cs' n' y x → config_ok x → end_op_ok (PollAt now) x →
  ∃ v x', poll_output crc now x = Ret (v, x') ∧ polls base cs base' n' x x' v.
Proof.
  intros Hl Hl' Hcfg [Hnow1 Hnow2]. unfold poll_output. destruct (tp_outputs x) as [|o rest] eqn:Hout.
  2: { eexists _, _. split; [done|]. by apply polls_pop. }
  destruct (tp_next_ack x <=? now) eqn:Hdue; [|by eapply poll_resend_ok]. apply Z.leb_le in Hdue.
  destruct (advance_deadline_total (tp_next_ack x) (uc_ack_interval (tp_config x)) now) as [d ->]; [apply Hcfg|done|done|].
  cbn [obind]. set (x1 := set_deadlines _ _ _ _).
  assert (link base' cs' n' y x1) as Hl1 by (by eapply link_ext).
  destruct (build_ack_ok base' cs' n' y x1 Hl1) as (a & -> & Hok & Hf & Hconn & _); [apply Hcfg|]. cbn [obind].
  destruct (ack_roundtrip crc a Hf) as (bytes & -> & Hdec). cbn [rbind]. eexists _, x1. split; [done|].
  constructor; try done; cbn [x1 set_deadlines tp_outputs]; rewrite Hout; [done|].
  exists [bytes]. split; [done|]. apply Forall_singleton. apply or_intror. by exists a.
Qed.
(** ** Both directions *)

(** What holds of an end [a]: it sends the pieces [cs], [n] of which its peer has
    delivered, and has delivered [n'] of the pieces [cs'] of the peer. *)
Record half (base : Z) (cs : list (list Z)) (n base' : Z) (cs' : list (list Z)) (n' : Z) (a b : endpoint) : Prop := {
  hf_link : link base cs n (ep_transport a) (ep_transport b);
  hf_config : config_ok (ep_transport a);
  hf_ids : tp_camera_id (ep_transport a) = tp_client_id (ep_transport b);
  hf_accepted : ep_accepted a = concat cs;
  hf_delivered : ep_delivered a ++ payloads (tp_outputs (ep_transport a)) = bytes_between cs' 0 n';
  hf_wire : Forall (wire_ok base cs base' n' (ep_transport a)) (ep_wire a ++ datagrams (tp_outputs (ep_transport a)))
}.
Definition joined (base : Z) (cs : list (list Z)) (n base' : Z) (cs' : list (list Z)) (n' : Z) (a b : endpoint) : Prop :=
  half base cs n base' cs' n' a b ∧ half base' cs' n' base cs n b a.

Lemma joined_swap base cs n base' cs' n' a b : joined base cs n base' cs' n' a b → joined base' cs' n' base cs n b a.
Proof. by intros [H1 H2]. Qed.

(** The peer's half when an end changes what it has accepted or delivered. *)
Lemma half_peer base cs cs1 n base' cs' n' n1 a a' b :
  half base' cs' n' base cs n b a → 0 ≤ n ≤ vec_len cs → same_ids (ep_transport a) (ep_transport a') →
  link base' cs' n1 (ep_transport b) (ep_transport a') → half base' cs' n1 base (cs ++ cs1) n b a'.
Proof.
  intros [H1 H2 H3 H4 H5 H6] Hn Hi Hl. constructor; [done|done| |done| |done].
  - by rewrite (si_client _ _ Hi).
  - by rewrite bytes_between_grow.
Qed.

(** A step of the first end: it accepts [cs1] and delivers up to [n1]. *)
Definition steps_to (base : Z) (cs : list (list Z)) (n base' : Z) (cs' : list (list Z)) (n' : Z) (op : EndOp) (a b : endpoint) : Prop :=
  ∃ a' cs1 n1, end_step op a b = Ret a' ∧ joined base (cs ++ cs1) n base' cs' n1 a' b ∧
    vec_len cs1 ≤ op_packets op (ep_transport a) ∧ same_ids (ep_transport a) (ep_transport a').

Lemma stays base cs n base' cs' n' op a b :
  joined base cs n base' cs' n' a b → 0 ≤ op_packets op (ep_transport a) → end_step op a b = Ret a →
  steps_to base cs n base' cs' n' op a b.
Proof. intros Hj Hp E. exists a, [], n'. by rewrite app_nil_r. Qed.

Lemma send_step base cs n base' cs' n' payload a b :
  joined base cs n base' cs' n' a b → vec_len cs + packets_of (ep_transport a) payload ≤ MAX_PACKETS →
  0 ≤ packets_of (ep_transport a) payload → steps_to base cs n base' cs' n' (Send payload) a b.
Proof.
  intros Hj Hmax Hpos. pose proof Hj as [[H1 H2 H3 H4 H5 H6] Hb]. destruct a as [x wire acc del]; cbn [ep_transport ep_wire ep_accepted ep_delivered] in *.
  destruct (queue_payload_ok crc base cs n x (ep_transport b) payload H1 H2 Hmax) as [[e E]|(cs1 & x' & E & Hc & Hlen & [Hl Hr Hi (outs & Ho & Hcar & Hp)])].
  { apply stays; [done|done|]. cbn [end_step ep_transport]. by rewrite E. }
  unfold steps_to. cbn [end_step ep_transport ep_wire ep_accepted ep_delivered]. rewrite E. eexists _, cs1, n'. split; [done|].
  split; [|by split]. split; [|eapply half_peer; [done|apply H1|done|]; cbn [ep_transport]].
  - constructor; cbn [ep_transport ep_wire ep_accepted ep_delivered]; [done|by eapply config_ok_ext|by rewrite (si_camera _ _ Hi)| | |].
    + by rewrite H4, concat_app, Hc.
    + by rewrite Ho, payloads_app, Hp, app_nil_r.
    + rewrite Ho, datagrams_app, app_assoc. apply Forall_app. split.
      * eapply Forall_impl; [exact H6|]. intros w. apply wire_ok_grow; [done|done|]. intros i. by apply arrived_ext.
      * eapply Forall_impl; [exact Hcar|]. intros w Hw. apply or_introl. by rewrite (si_camera _ _ Hi).
  - eapply link_ext; [apply Hb|done|done|done].
Qed.

Lemma poll_step base cs n base' cs' n' now a b :
  joined base cs n base' cs' n' a b → end_op_ok (PollAt now) (ep_transport a) → steps_to base cs n base' cs' n' (PollAt now) a b.
Proof.
  intros [[H1 H2 H3 H4 H5 H6] Hb] Hok. destruct a as [x wire acc del]; cbn [ep_transport ep_wire ep_accepted ep_delivered] in *.
  destruct (poll_output_ok base cs n x (ep_transport b) base' cs' n' now H1 (hf_link _ _ _ _ _ _ _ _ Hb) H2 Hok)
    as (v & x' & E & [Hs Hr Hi Hp (outs & Ho & Hw)]).
  unfold steps_to. cbn [end_step ep_transport ep_wire ep_accepted ep_delivered]. rewrite E. cbn [obind].
  eexists _, [], n'. rewrite app_nil_r. split; [done|]. split; [|by split]. split.
  - constructor; cbn [ep_transport ep_wire ep_accepted ep_delivered]; [by eapply link_ext|by eapply config_ok_ext|by rewrite (si_camera _ _ Hi)|done| |].
    + by rewrite <-app_assoc, Hp.
    + rewrite <-app_assoc, Ho, app_assoc. apply Forall_app. split; [|done].
      eapply Forall_impl; [exact H6|]. intros w. by apply wire_ok_ext.
  - rewrite <-(app_nil_r cs). eapply half_peer; [done|apply H1|done|]. cbn [ep_transport]. by eapply link_ext; [apply Hb|..].
Qed.

(** An acknowledgement of the peer. *)
Lemma ack_step base cs n base' cs' n' ack a b :
  joined base cs n base' cs' n' a b → ack_ok base n (ep_transport b) ack →
  joined base cs n base' cs' n' (set_transport a (handle_ack ack (ep_transport a))) b ∧
  same_ids (ep_transport a) (handle_ack ack (ep_transport a)).
Proof.
  intros [[H1 H2 H3 H4 H5 H6] Hb] Hack.
  destruct (handle_ack_ok base cs n _ _ ack H1 Hack) as (Hl & Hr & Hi & Ho). split; [|done]. split.
  - constructor; cbn [set_transport ep_transport ep_wire ep_accepted ep_delivered]; [done|by eapply config_ok_ext|done|done|by rewrite Ho|].
    rewrite Ho. eapply Forall_impl; [exact H6|]. intros w. by apply wire_ok_ext.
  - rewrite <-(app_nil_r cs). eapply half_peer; [done|apply H1|done|]. by eapply link_ext; [apply Hb|..].
Qed.

(** A data packet of the peer. *)
Lemma data_step base cs n base' cs' n' d a b :
  joined base cs n base' cs' n' a b → data_ok base' cs' d →
  ∃ v x' n1, handle_data d (ep_transport a) = Ret (v, x') ∧ joined base cs n base' cs' n1 (set_transport a x') b ∧
    same_ids (ep_transport a) x'.
Proof.
  intros [[H1 H2 H3 H4 H5 H6] Hb] Hd.
  destruct (handle_data_ok base' cs' n' (ep_transport b) (ep_transport a) d (hf_link _ _ _ _ _ _ _ _ Hb) Hd) as (v & n1 & x' & E & [Hl Hn Hs Hi _ _ Ha Ho] & _).
  exists v, x', n1. split; [done|]. split; [|done]. pose proof (lk_position _ _ _ _ _ (hf_link _ _ _ _ _ _ _ _ Hb)) as Hpos. split.
  - constructor; cbn [set_transport ep_transport ep_wire ep_accepted ep_delivered].
    + by eapply link_ext.
    + by eapply config_ok_ext.
    + by rewrite (si_camera _ _ Hi).
    + done.
    + rewrite Ho, payloads_app, app_assoc, H5, (bytes_between_app cs' n' n1) by lia. f_equal.
      destruct (bytes_between cs' n' n1); [done|]. cbn. by rewrite app_nil_r.
    + rewrite Ho, datagrams_app. replace (datagrams match bytes_between cs' n' n1 with [] => [] | p => [OutPayload p] end) with (@nil (list Z)) by (by destruct (bytes_between cs' n' n1)).
      rewrite app_nil_r. eapply Forall_impl; [exact H6|]. intros w. rewrite <-(app_nil_r cs) at 2. by apply wire_ok_grow.
  - rewrite <-(app_nil_r cs). eapply half_peer; [done|apply H1|done|done].
Qed.

Lemma deliver_step base cs n base' cs' n' k a b :
  joined base cs n base' cs' n' a b → steps_to base cs n base' cs' n' (Deliver k) a b.
Proof.
  intros Hj. destruct (ep_wire b !! k) as [bytes|] eqn:Ek; [|apply stays; [done|done|]; cbn [end_step]; by rewrite Ek].
  pose proof Hj as [Ha Hb]. pose proof (hf_wire _ _ _ _ _ _ _ _ Hb) as Hw. apply Forall_app in Hw as [Hw _].
  unfold steps_to. cbn [end_step op_packets]. rewrite Ek. unfold handle_datagram.
  destruct (Forall_lookup_1 _ _ _ _ Hw Ek) as [(d & Hdec & Hc & Hd)|(ack & Hdec & Hc & Hack)]; rewrite Hdec.
  - rewrite (proj2 (Z.eqb_eq _ _)) by (rewrite Hc; apply Hb).
    destruct (data_step _ _ _ _ _ _ d a b Hj Hd) as (v & x' & n1 & -> & Hj' & Hi). cbn [obind].
    exists (set_transport a x'), [], n1. by rewrite app_nil_r.
  - rewrite (proj2 (Z.eqb_eq _ _)) by (rewrite Hc; apply Hb). cbn [obind].
    destruct (ack_step _ _ _ _ _ _ ack a b Hj Hack) as [Hj' Hi].
    eexists _, [], n'. rewrite app_nil_r. split; [done|]. by split.
Qed.

Lemma stray_step base cs n base' cs' n' datagram a b :
  joined base cs n base' cs' n' a b → is_stray (ep_transport a) datagram → steps_to base cs n base' cs' n' (Stray datagram) a b.
Proof.
  intros Hj Hs. apply stays; [done|done|]. cbn [end_step]. unfold handle_datagram, is_stray in *.
  assert (set_transport a (ep_transport a) = a) as Hid by (by destruct a).
  destruct (decode crc datagram) as [[d|ack|d]|e]; cbn [obind]; rewrite ?Hid; [done| | |done].
  - rewrite (proj2 (Z.eqb_neq _ _)) by done. by rewrite Hid.
  - rewrite (proj2 (Z.eqb_neq _ _)) by done. cbn [obind]. by rewrite Hid.
Qed.

Lemma packets_of_pos t payload : config_ok t → 0 ≤ packets_of t payload.
Proof.
  intros H. unfold packets_of, div_ceil. pose proof (co_mtu _ H). apply Z.div_pos; [unfold vec_len|]; lia.
Qed.

Lemma end_step_ok base cs n base' cs' n' op a b :
  joined base cs n base' cs' n' a b → end_op_ok op (ep_transport a) → vec_len cs + op_packets op (ep_transport a) ≤ MAX_PACKETS →
  steps_to base cs n base' cs' n' op a b.
Proof.
  intros Hj Hok Hmax. destruct op; [apply send_step|apply poll_step|apply deliver_step|apply stray_step]; try done.
  apply packets_of_pos, Hj.
Qed.

(** ** Runs *)

(** The packets one side sends in a run. *)
Definition side_packets (side : bool) (ops : list (bool * EndOp)) (t : BcUdpTransport) : Z :=
  zsum (λ p : bool * EndOp, if Bool.eqb p.1 side then op_packets p.2 t else 0) ops.

Lemma op_packets_ext op t t' : same_ids t t' → op_packets op t' = op_packets op t.
Proof. intros [_ _ E]. destruct op; try done. cbn. unfold packets_of. by rewrite E. Qed.
Lemma end_op_ok_ext op t t' : same_ids t t' → end_op_ok op t → end_op_ok op t'.
Proof.
  intros [E1 _ E3]. destruct op; try done; cbn; [by rewrite E3|]. unfold is_stray. by rewrite E1.
Qed.
Lemma same_ids_trans t1 t2 t3 : same_ids t1 t2 → same_ids t2 t3 → same_ids t1 t3.
Proof. intros [A1 A2 A3] [B1 B2 B3]. constructor; congruence. Qed.

Lemma same_ids_sym t1 t2 : same_ids t1 t2 → same_ids t2 t1.
Proof. intros [A1 A2 A3]. by constructor. Qed.
Lemma side_packets_cons side p ops t :
  side_packets side (p :: ops) t = (if Bool.eqb p.1 side then op_packets p.2 t else 0) + side_packets side ops t.
Proof. apply zsum_cons. Qed.
Lemma side_packets_pos side ops t : config_ok t → 0 ≤ side_packets side ops t.
Proof.
  intros Hc. apply zsum_nonneg. intros [s op]. cbn. destruct (Bool.eqb s side); [|done].
  destruct op; try done. by apply packets_of_pos.
Qed.

Lemma net_run_ok ops base cs n base' cs' n' a b ta tb :
  joined base cs n base' cs' n' a b → same_ids ta (ep_transport a) → same_ids tb (ep_transport b) →
  Forall (λ p, end_op_ok p.2 (if p.1 : bool then tb else ta)) ops →
  vec_len cs + side_packets false ops ta ≤ MAX_PACKETS → vec_len cs' + side_packets true ops tb ≤ MAX_PACKETS →
  ∃ a' b' cs1 n1 cs1' n1', net_run ops (a, b) = Ret (a', b') ∧ joined base cs1 n1 base' cs1' n1' a' b' ∧
    same_ids ta (ep_transport a') ∧ same_ids tb (ep_transport b').
Proof.
  revert base cs n base' cs' n' a b. induction ops as [|[side op] ops IH]; intros base cs n base' cs' n' a b Hj Hia Hib Hok Ha Hb.
  { by exists a, b, cs, n, cs', n'. }
  apply Forall_cons in Hok as [Hop Hok]. cbn [net_run net_step fst snd] in *. rewrite side_packets_cons in Ha, Hb.
  pose proof (side_packets_pos false ops ta ltac:(eapply config_ok_ext; [by apply same_ids_sym|apply Hj])).
  pose proof (side_packets_pos true ops tb ltac:(eapply config_ok_ext; [by apply same_ids_sym|apply Hj])).
  destruct side; cbn [Bool.eqb fst snd] in Ha, Hb.
  - rewrite <-(op_packets_ext op tb (ep_transport b)) in Hb by done.
    destruct (end_step_ok _ _ _ _ _ _ op b a (joined_swap _ _ _ _ _ _ _ _ Hj)) as (b' & cs1 & n1 & -> & Hj' & Hlen & Hi'); [by eapply end_op_ok_ext|lia|].
    cbn [obind]. apply (IH _ _ _ _ _ _ _ _ (joined_swap _ _ _ _ _ _ _ _ Hj')); [done|by eapply same_ids_trans|done|lia|].
    unfold vec_len in *. rewrite length_app. lia.
  - rewrite <-(op_packets_ext op ta (ep_transport a)) in Ha by done.
    destruct (end_step_ok _ _ _ _ _ _ op a b Hj) as (a' & cs1 & n1 & -> & Hj' & Hlen & Hi'); [by eapply end_op_ok_ext|lia|].
    cbn [obind]. apply (IH _ _ _ _ _ _ _ _ Hj'); [by eapply same_ids_trans|done|done| |lia].
    unfold vec_len in *. rewrite length_app. lia.
Qed.

(** Two transports that agree on both counters and have nothing under way, as two new
    ones do. *)
Record synchronized (ta tb : BcUdpTransport) : Prop := {
  sy_forward : tp_next_send_packet ta = tp_next_receive_packet tb;
  sy_back : tp_next_send_packet tb = tp_next_receive_packet ta;
  sy_counters : in_u32 (tp_next_send_packet ta) ∧ in_u32 (tp_next_send_packet tb);
  sy_idle : tp_sent ta = ∅ ∧ tp_sent tb = ∅ ∧ tp_received ta = ∅ ∧ tp_received tb = ∅ ∧ tp_outputs ta = [] ∧ tp_outputs tb = [];
  sy_ids : tp_camera_id ta = tp_client_id tb ∧ tp_camera_id tb = tp_client_id ta;
  sy_config : config_ok ta ∧ config_ok tb
}.

Lemma link_start ta tb :
  tp_next_send_packet ta = tp_next_receive_packet tb → in_u32 (tp_next_send_packet ta) → tp_sent ta = ∅ → tp_received tb = ∅ →
  link (tp_next_send_packet ta) [] 0 ta tb.
Proof.
  intros E Hc Hs Hr. assert (tp_next_send_packet ta = packet_id (tp_next_send_packet ta) 0) as Hid.
  { unfold packet_id, u32_wrap. rewrite Z.add_0_r, Z.mod_small; [done|]. destruct Hc. change u32_max with (2 ^ 32 - 1) in *. lia. }
  constructor; try done; rewrite ?Hs, ?Hr; try (by intros k d Hk; rewrite lookup_empty in Hk).
  - by rewrite <-E.
  - intros i Hi. change (vec_len []) with 0 in Hi. lia.
  - rewrite map_size_empty. done.
Qed.

Lemma joined_start ta tb :
  synchronized ta tb →
  joined (tp_next_send_packet ta) [] 0 (tp_next_send_packet tb) [] 0 (endpoint_of ta) (endpoint_of tb).
Proof.
  intros [H1 H2 [H3 H3'] (S1 & S2 & R1 & R2 & O1 & O2) [I1 I2] [C1 C2]].
  split; (constructor; cbn [endpoint_of ep_transport ep_wire ep_accepted ep_delivered]; try done; [by apply link_start| |]);
    rewrite ?O1, ?O2; [done|by constructor|done|by constructor].
Qed.

(** What one direction of a connection promises. *)
Record reliable (a b : endpoint) : Prop := {
  rl_prefix : ep_delivered b `prefix_of` ep_accepted a;
  rl_kept : ep_delivered b ++ payloads (tp_outputs (ep_transport b)) = ep_accepted a ∨
    is_Some (tp_sent (ep_transport a) !! tp_next_receive_packet (ep_transport b));
  rl_in_flight : pending_send_packets (ep_transport a) ≤ MAX_IN_FLIGHT_PACKETS;
  rl_window : Forall (λ d, 0 < d < MAX_RECEIVE_WINDOW) (window_distances (ep_transport b)) ∧
    length (window_distances (ep_transport b)) = size (tp_received (ep_transport b))
}.

Lemma filter_keeps {A} (P : A → Prop) `{!∀ a, Decision (P a)} l : Forall P l → filter P l = l.
Proof. induction 1 as [|a l Ha Hl IH]; [done|]. rewrite filter_cons_True by done. by rewrite IH. Qed.

Lemma window_full base cs n x y :
  link base cs n x y → length (window_distances y) = size (tp_received y).
Proof.
  intros Hl. unfold window_distances.
  assert (Forall (λ d, d < MAX_RECEIVE_WINDOW)
    ((λ p : Z * list Z, u32_wrapping_sub p.1 (tp_next_receive_packet y)) <$> packet_iter (tp_received y))) as Hall.
  { apply Forall_fmap, Forall_forall. intros [k p] Hin. rewrite packet_iter_perm in Hin. apply elem_of_map_to_list in Hin. cbn.
    destruct (lk_received _ _ _ _ _ Hl _ _ Hin) as (i & -> & Hi & Hp). rewrite (lk_next_receive _ _ _ _ _ Hl).
    rewrite distance_ahead by lia. change MAX_RECEIVE_WINDOW with 256. lia. }
  rewrite (filter_keeps _ _ Hall), length_fmap, packet_iter_perm. by rewrite <-length_map_to_list.
Qed.

Lemma joined_reliable base cs n base' cs' n' a b : joined base cs n base' cs' n' a b → reliable a b.
Proof.
  intros [Ha Hb]. pose proof (hf_link _ _ _ _ _ _ _ _ Ha) as Hl. pose proof (lk_position _ _ _ _ _ Hl) as Hn.
  assert (ep_accepted a = bytes_between cs 0 n ++ bytes_between cs n (vec_len cs)) as Hacc.
  { rewrite (hf_accepted _ _ _ _ _ _ _ _ Ha), <-bytes_between_app by lia. by rewrite bytes_between_all. }
  constructor.
  - rewrite Hacc, <-(hf_delivered _ _ _ _ _ _ _ _ Hb), <-app_assoc. by eexists.
  - destruct (Z.lt_ge_cases n (vec_len cs)) as [Hlt|Hge].
    + apply or_intror. rewrite (lk_next_receive _ _ _ _ _ Hl).
      destruct (lk_kept _ _ _ _ _ Hl n ltac:(lia)) as [[?|[? [p Hp]]]|Hs]; [lia| |done]. exfalso.
      destruct (lk_received _ _ _ _ _ Hl _ _ Hp) as (i & Hid & Hi & Hpc). apply piece_range in Hpc. pose proof (lk_total _ _ _ _ _ Hl) as Ht.
      rewrite max_packets in *. apply packet_id_inj in Hid; lia.
    + apply or_introl. rewrite (hf_delivered _ _ _ _ _ _ _ _ Hb), Hacc. replace (vec_len cs) with n by lia.
      by rewrite bytes_between_nil, app_nil_r.
  - apply (lk_in_flight _ _ _ _ _ Hl).
  - split; [|by eapply window_full]. apply Forall_forall. intros d Hd. by apply (window_distance_ok _ _ _ _ _ _ Hl Hd).
Qed.

(** C38. Two synchronized transports over a network that loses, repeats, reorders and
    delays their datagrams and mixes in datagrams of other connections: no operation
    panics or fails to return, either end only ever hands out a prefix of the bytes its
    peer accepted for sending, in order and once, and as long as something is missing the
    peer still keeps the packet that is awaited next. At most 4096 packets are in flight
    and every packet held back lies in the window of 256. A run may accept up to 2^31 - 1
    packets in each direction, from any value of the counters, so they may wrap around. *)
Theorem udp_reliable ta tb ops :
  synchronized ta tb → Forall (λ p, end_op_ok p.2 (if p.1 : bool then tb else ta)) ops →
  side_packets false ops ta ≤ MAX_PACKETS → side_packets true ops tb ≤ MAX_PACKETS →
  ∃ a b, net_run ops (endpoint_of ta, endpoint_of tb) = Ret (a, b) ∧ reliable a b ∧ reliable b a.
Proof.
  intros Hs Hok Ha Hb.
  destruct (net_run_ok ops _ _ _ _ _ _ _ _ ta tb (joined_start ta tb Hs)) as (a & b & cs & n & cs' & n' & E & Hj & _); [done|done|done|done|done|].
  exists a, b. split; [done|]. split; [by eapply joined_reliable|by eapply joined_reliable, joined_swap].
Qed.
End run.

(** ** A run *)

Definition example_transport (client camera next : Z) : BcUdpTransport :=
  mk_transport client camera (mk_udp_config 32 (from_millis 10) (from_millis 500)) next next ∅ ∅ [] (from_millis 10) (from_millis 500).
(** Four packets across the wrap of the counters: the first is lost and resent, the others
    arrive in reverse order and twice. *)
Definition example_ops : list (bool * EndOp) :=
  [(false, Send (seqZ 0 40)); (false, PollAt 0); (false, PollAt 0); (false, PollAt 0); (false, PollAt 0);
   (true, Deliver 3); (true, Deliver 2); (true, Deliver 1); (true, Deliver 2); (true, Stray [1; 2; 3]);
   (true, PollAt (from_millis 10)); (false, Deliver 0); (false, PollAt (from_millis 500)); (false, PollAt (from_millis 500));
   (true, Deliver 5); (true, PollAt (from_millis 11))].

Lemma example_synchronized : synchronized (example_transport 7 9 (2 ^ 32 - 2)) (example_transport 9 7 (2 ^ 32 - 2)).
Proof. constructor; try done; split; constructor; done. Qed.

Lemma udp_reliable_witness :
  match net_run (λ _, 0) example_ops (endpoint_of (example_transport 7 9 (2 ^ 32 - 2)), endpoint_of (example_transport 9 7 (2 ^ 32 - 2))) with
  | Ret (a, b) => ep_delivered b = seqZ 0 40 ∧ reliable a b
  | Panic => False
  end.
Proof.
  destruct (udp_reliable (λ _, 0) (example_transport 7 9 (2 ^ 32 - 2)) (example_transport 9 7 (2 ^ 32 - 2)) example_ops)
    as (a & b & E & Hr & _).
  - apply example_synchronized.
  - repeat constructor; vm_compute; done.
  - vm_compute. discriminate.
  - vm_compute. discriminate.
  - rewrite E. split; [|exact Hr].
    assert (match net_run (λ _, 0) example_ops (endpoint_of (example_transport 7 9 (2 ^ 32 - 2)), endpoint_of (example_transport 9 7 (2 ^ 32 - 2))) with
      | Ret (a, b) => ep_delivered b = seqZ 0 40 | Panic => False end) as H by (vm_compute; reflexivity).
    rewrite E in H. exact H.
Defined.
