(* ===== verification/ReoDiscovery.v ===== *)
(** * Discovery of a camera over UDP

    The exchange that negotiates the two connection identifiers before the transport of
    [ReoUdp] starts ([udp.rs]).  The reader and writer of the [xml] crate are parameters:
    the bytes written for a sequence of events, if none is refused, and the events read
    from bytes. *)

From S2P Require Import Prelude CameraEvent OnvifDetails NotifyModel ReoWire ReoFraming ReoUdp ReoUdpNet ReoUdpRun.

Inductive WriteEvent :=
| WStart (name : string)
| WCharacters (text : string)
| WEnd.
Inductive ReadEvent :=
| StartElement (local_name : string)
| Characters (text : string)
| CData (text : string)
| EndElement (local_name : string)
| EndDocument
| OtherEvent.

(** [str::parse::<i32>] and [i32::to_string]. *)
Definition parse_i32 (s : string) : option Z :=
  let '(negative, s) := take_sign s in
  match take_digits s with
  | (d :: ds, EmptyString) =>
      let n := if negative then - decimal (d :: ds) else decimal (d :: ds) in
      if (- 2 ^ 31 <=? n) && (n <? 2 ^ 31) then Some n else None
  | _ => None
  end.
Definition i32_to_string (n : Z) : string :=
  if n <? 0 then "-" +:+ usize_to_string (- n) else usize_to_string n.

Record BcUdpDiscoveryConfig := mk_discovery_config {
  dc_uid : string;
  dc_client_id : Z;
  dc_client_port : Z;
  dc_transmission_id : Z;
  dc_mtu : Z;
  dc_retry_interval : Z
}.
Definition discovery_config_new (uid : string) (client_id client_port : Z) : BcUdpDiscoveryConfig :=
  mk_discovery_config uid client_id client_port 1 1350 (from_millis 500).

Record BcUdpConnection := mk_connection { cn_client_id : Z; cn_camera_id : Z; cn_transmission_id : Z }.

Inductive BcUdpDiscoveryOutput :=
| DiscDatagram (bytes : list Z)
| DiscConnected (connection : BcUdpConnection)
| DiscTimeout (deadline : Z).

Record BcUdpDiscovery := mk_udp_discovery {
  ds_config : BcUdpDiscoveryConfig;
  ds_request : list Z;
  ds_connection : option BcUdpConnection;
  ds_next_send : Z
}.

(** What [parse_connect_reply] has seen so far. *)
Record ReplyScan := mk_scan {
  sc_in_reply : bool;
  sc_current : option string;
  sc_response : option Z;
  sc_client_id : option Z;
  sc_camera_id : option Z
}.

Section discovery.
Context (crc : list Z → Z).
Context (write_xml : list WriteEvent → option (list Z)).
Context (read_xml : list Z → list (result unit ReadEvent)).

Definition write_text_element (name value : string) : list WriteEvent := [WStart name; WCharacters value; WEnd].
Definition field_events (field : string * string) : list WriteEvent :=
  match str_split_once "." field.1 with
  | Some (parent, child) => [WStart parent] ++ write_text_element child field.2 ++ [WEnd]
  | None => write_text_element field.1 field.2
  end.
Definition discovery_xml_packet (transmission_id : Z) (element : string) (fields : list (string * string))
    : result BcError (list Z) :=
  match write_xml ([WStart "P2P"; WStart element] ++ concat (field_events <$> fields) ++ [WEnd; WEnd]) with
  | None => Err (XmlParse "failed to write UDP discovery XML")
  | Some xml => encode crc (PkDiscovery (mk_discovery transmission_id xml))
  end.

Definition connection_transport (c : BcUdpConnection) (now : Z) (config : BcUdpConfig) : outcome (result BcError BcUdpTransport) :=
  transport_new (cn_client_id c) (cn_camera_id c) now config.
Definition connection_fields (c : BcUdpConnection) : list (string * string) :=
  [("cid", i32_to_string (cn_client_id c)); ("did", i32_to_string (cn_camera_id c))].
Definition heartbeat (c : BcUdpConnection) : result BcError (list Z) :=
  discovery_xml_packet (cn_transmission_id c) "C2D_HB" (connection_fields c).
Definition disconnect (c : BcUdpConnection) : result BcError (list Z) :=
  discovery_xml_packet (cn_transmission_id c) "C2D_DISC" (connection_fields c).

Definition discovery_new (config : BcUdpDiscoveryConfig) (now : Z) : result BcError BcUdpDiscovery :=
  if str_is_empty (dc_uid config) then Err (InvalidUdpPacket "camera UID is empty")
  else if dc_client_port config =? 0 then Err (InvalidUdpPacket "client port is zero")
  else if dc_retry_interval config =? 0 then Err (InvalidUdpPacket "discovery retry interval must be non-zero")
  else
    let? request :=
      discovery_xml_packet (dc_transmission_id config) "C2D_C"
        [("uid", dc_uid config); ("cli.port", usize_to_string (dc_client_port config));
         ("cid", i32_to_string (dc_client_id config)); ("mtu", usize_to_string (dc_mtu config));
         ("debug", "0"); ("p", "MAC")] in
    Ok (mk_udp_discovery config request None now).

(** One text of a reply; an element that is repeated keeps its last text. *)
Definition reply_text (value : string) (s : ReplyScan) : ReplyScan :=
  if sc_in_reply s then
    match sc_current s with
    | Some name =>
        if str_eqb name "rsp" then mk_scan (sc_in_reply s) (sc_current s) (parse_i32 value) (sc_client_id s) (sc_camera_id s)
        else if str_eqb name "cid" then mk_scan (sc_in_reply s) (sc_current s) (sc_response s) (parse_i32 value) (sc_camera_id s)
        else if str_eqb name "did" then mk_scan (sc_in_reply s) (sc_current s) (sc_response s) (sc_client_id s) (parse_i32 value)
        else s
    | None => s
    end
  else s.
Definition reply_event (e : ReadEvent) (s : ReplyScan) : ReplyScan :=
  match e with
  | StartElement name =>
      let in_reply := if str_eqb name "D2C_C_R" then true else sc_in_reply s in
      mk_scan in_reply (if in_reply then Some name else None) (sc_response s) (sc_client_id s) (sc_camera_id s)
  | Characters value | CData value => reply_text value s
  | EndElement name =>
      mk_scan (if str_eqb name "D2C_C_R" then false else sc_in_reply s) None (sc_response s) (sc_client_id s) (sc_camera_id s)
  | EndDocument | OtherEvent => s
  end.
Fixpoint reply_loop (events : list (result unit ReadEvent)) (s : ReplyScan) : result BcError ReplyScan :=
  match events with
  | [] => Ok s
  | Err _ :: _ => Err (XmlParse "malformed UDP discovery XML")
  | Ok EndDocument :: _ => Ok s
  | Ok e :: events' => reply_loop events' (reply_event e s)
  end.
Definition parse_connect_reply (xml : list Z) : result BcError (option (Z * Z * Z)) :=
  let? s := reply_loop (read_xml xml) (mk_scan false None None None None) in
  Ok (match sc_response s, sc_client_id s, sc_camera_id s with
      | Some response, Some client_id, Some camera_id => Some (response, client_id, camera_id)
      | _, _, _ => None
      end).

Definition discovery_handle (datagram : list Z) (s : BcUdpDiscovery) : result BcError unit * BcUdpDiscovery :=
  match decode crc datagram with
  | Err e => (Err e, s)
  | Ok (PkDiscovery d) =>
      match parse_connect_reply (di_xml d) with
      | Err e => (Err e, s)
      | Ok None => (Ok tt, s)
      | Ok (Some (response, client_id, camera_id)) =>
          if negb (response =? 0) || negb (client_id =? dc_client_id (ds_config s)) then (Ok tt, s)
          else (Ok tt, mk_udp_discovery (ds_config s) (ds_request s)
                         (Some (mk_connection client_id camera_id (di_transmission_id d))) (ds_next_send s))
      end
  | Ok _ => (Ok tt, s)
  end.

Definition discovery_poll (now : Z) (s : BcUdpDiscovery) : outcome (BcUdpDiscoveryOutput * BcUdpDiscovery) :=
  match ds_connection s with
  | Some connection =>
      Ret (DiscConnected connection, mk_udp_discovery (ds_config s) (ds_request s) None (ds_next_send s))
  | None =>
      if ds_next_send s <=? now then
        let! next_send := advance_deadline (ds_next_send s) (dc_retry_interval (ds_config s)) now in
        Ret (DiscDatagram (ds_request s), mk_udp_discovery (ds_config s) (ds_request s) None next_send)
      else Ret (DiscTimeout (ds_next_send s), s)
  end.

(** ** Runs *)

Inductive DiscOp :=
| DReceive (datagram : list Z)
| DPoll (now : Z).
Definition disc_step (op : DiscOp) (s : BcUdpDiscovery) : outcome (option BcUdpDiscoveryOutput * BcUdpDiscovery) :=
  match op with
  | DReceive datagram => Ret (None, (discovery_handle datagram s).2)
  | DPoll now => let! (o, s) := discovery_poll now s in Ret (Some o, s)
  end.
Fixpoint disc_run (ops : list DiscOp) (s : BcUdpDiscovery) : outcome (list (option BcUdpDiscoveryOutput) * BcUdpDiscovery) :=
  match ops with
  | [] => Ret ([], s)
  | op :: ops' =>
      let! (o, s) := disc_step op s in
      let! (os, s) := disc_run ops' s in
      Ret (o :: os, s)
  end.

(** A datagram that accepts the connection. *)
Definition reply_of (datagram : list Z) : option (Z * BcUdpConnection) :=
  match decode crc datagram with
  | Ok (PkDiscovery d) =>
      match parse_connect_reply (di_xml d) with
      | Ok (Some (response, client_id, camera_id)) => Some (response, mk_connection client_id camera_id (di_transmission_id d))
      | _ => None
      end
  | _ => None
  end.
Definition accepts (config : BcUdpDiscoveryConfig) (datagram : list Z) : option BcUdpConnection :=
  match reply_of datagram with
  | Some (response, c) => if (response =? 0) && (cn_client_id c =? dc_client_id config) then Some c else None
  | None => None
  end.

(** What the run is specified to output: a reply answers the next poll, once. *)
Fixpoint disc_spec (config : BcUdpDiscoveryConfig) (request : list Z) (pending : option BcUdpConnection)
    (ops : list DiscOp) (outs : list (option BcUdpDiscoveryOutput)) : Prop :=
  match ops, outs with
  | [], [] => True
  | DReceive datagram :: ops', None :: outs' =>
      disc_spec config request (match accepts config datagram with Some c => Some c | None => pending end) ops' outs'
  | DPoll now :: ops', Some o :: outs' =>
      match pending with
      | Some c => o = DiscConnected c
      | None => o = DiscDatagram request ∨ ∃ deadline, o = DiscTimeout deadline ∧ now < deadline
      end ∧ disc_spec config request None ops' outs'
  | _, _ => False
  end.

Lemma discovery_handle_ok datagram s :
  (discovery_handle datagram s).2 = mk_udp_discovery (ds_config s) (ds_request s)
    (match accepts (ds_config s) datagram with Some c => Some c | None => ds_connection s end) (ds_next_send s).
Proof.
  unfold discovery_handle, accepts, reply_of. destruct s as [config request pending next]. cbn [ds_config ds_request ds_connection ds_next_send].
  destruct (decode crc datagram) as [[d|a|d]|e]; [|done..].
  destruct (parse_connect_reply (di_xml d)) as [[[[response client] camera]|]|e]; [|done..]. cbn.
  destruct (response =? 0); cbn; [|done]. by destruct (client =? dc_client_id config).
Qed.

Lemma disc_run_ok ops s :
  0 < dc_retry_interval (ds_config s) → Forall (λ op, match op with DPoll now => now + dc_retry_interval (ds_config s) ≤ instant_max | _ => True end) ops →
  ∃ outs s', disc_run ops s = Ret (outs, s') ∧ disc_spec (ds_config s) (ds_request s) (ds_connection s) ops outs.
Proof.
  intros Hi. revert s Hi. induction ops as [|op ops IH]; intros s Hi Hops; [by exists [], s|].
  apply Forall_cons in Hops as [Hop Hops]. cbn [disc_run]. destruct op as [datagram|now]; cbn [disc_step obind].
  - rewrite discovery_handle_ok. set (pending := match accepts _ _ with Some c => _ | None => _ end).
    destruct (IH (mk_udp_discovery (ds_config s) (ds_request s) pending (ds_next_send s)) Hi Hops) as (outs1 & s1 & E1 & Hs1).
    rewrite E1. cbn [obind]. by exists (None :: outs1), s1.
  - unfold discovery_poll. destruct (ds_connection s) as [c|] eqn:Ec.
    { cbn [obind]. destruct (IH (mk_udp_discovery (ds_config s) (ds_request s) None (ds_next_send s)) Hi Hops) as (outs1 & s1 & E1 & Hs1).
      rewrite E1. cbn [obind]. by exists (Some (DiscConnected c) :: outs1), s1. }
    destruct (ds_next_send s <=? now) eqn:Hdue.
    + apply Z.leb_le in Hdue. destruct (advance_deadline_total (ds_next_send s) (dc_retry_interval (ds_config s)) now Hi Hop Hdue) as [d ->].
      cbn [obind]. destruct (IH (mk_udp_discovery (ds_config s) (ds_request s) None d) Hi Hops) as (outs1 & s1 & E1 & Hs1).
      rewrite E1. cbn [obind]. exists (Some (DiscDatagram (ds_request s)) :: outs1), s1. split; [done|]. split; [by apply or_introl|done].
    + apply Z.leb_gt in Hdue. cbn [obind]. destruct (IH s Hi Hops) as (outs1 & s1 & E1 & Hs1). rewrite Ec in Hs1.
      rewrite E1. cbn [obind]. eexists (Some _ :: outs1), s1. split; [done|]. split; [|done]. apply or_intror. by eexists.
Qed.

(** Discovery never panics, asks for the connection until a reply with response 0 names
    its own identifier, and then hands the negotiated connection out once. *)
Theorem discovery_negotiates config now s ops :
  discovery_new config now = Ok s → 0 ≤ dc_retry_interval config →
  Forall (λ op, match op with DPoll now => now + dc_retry_interval config ≤ instant_max | _ => True end) ops →
  ∃ outs s', disc_run ops s = Ret (outs, s') ∧ disc_spec config (ds_request s) None ops outs.
Proof.
  unfold discovery_new. destruct (str_is_empty _); [done|]. destruct (dc_client_port config =? 0); [done|].
  destruct (dc_retry_interval config =? 0) eqn:Hz; [done|]. apply Z.eqb_neq in Hz.
  destruct (discovery_xml_packet _ _ _) as [request|e]; [|done]. intros [= <-] Hi Hops.
  by apply (disc_run_ok ops (mk_udp_discovery config request None now)); [cbn; lia|].
Qed.

(** The transports of a connection and of the same connection seen from the camera start
    synchronized. *)
Lemma connection_synchronized c now now' config config' ta tb :
  connection_transport c now config = Ret (Ok ta) →
  connection_transport (mk_connection (cn_camera_id c) (cn_client_id c) (cn_transmission_id c)) now' config' = Ret (Ok tb) →
  in_i32 (cn_client_id c) → in_i32 (cn_camera_id c) → uc_mtu config ≤ u32_max → uc_mtu config' ≤ u32_max →
  0 ≤ uc_ack_interval config → 0 ≤ uc_resend_interval config → 0 ≤ uc_ack_interval config' → 0 ≤ uc_resend_interval config' →
  synchronized ta tb.
Proof.
  intros Ha Hb Hc1 Hc2 M1 M2 I1 I2 I3 I4.
  assert (∀ client camera now config t, transport_new client camera now config = Ret (Ok t) →
    (∃ next_ack next_resend, t = mk_transport client camera config 0 0 ∅ ∅ [] next_ack next_resend) ∧
    DATA_HEADER_LEN < uc_mtu config ∧ uc_ack_interval config ≠ 0 ∧ uc_resend_interval config ≠ 0) as Hnew.
  { clear. intros client camera now config t. unfold transport_new. destruct (uc_mtu config <=? DATA_HEADER_LEN) eqn:E1; [done|].
    destruct (_ || _) eqn:E2; [done|]. apply orb_false_iff in E2 as [E2 E3]. apply Z.eqb_neq in E2, E3. apply Z.leb_gt in E1.
    unfold instant_add. destruct (_ <=? _); [|done]. cbn [obind]. destruct (_ <=? _); [|done]. cbn [obind]. intros [= <-].
    split; [by eexists _, _|done]. }
  destruct (Hnew _ _ _ _ _ Ha) as [(? & ? & ->) ?], (Hnew _ _ _ _ _ Hb) as [(? & ? & ->) ?].
  constructor; cbn; try done; split; constructor; cbn; try done; try lia.
Qed.
End discovery.
