(* ===== verification/ReoMedia.v ===== *)
(** * Media frames of Reolink streams

    The frame headers, audio durations and the frame iterator of [media.rs]. *)

From S2P Require Import Prelude ReoWire.

Definition MEDIA_MAGIC_INFO_V1 : Z := 0x31303031.
Definition MEDIA_MAGIC_INFO_V2 : Z := 0x32303031.
Definition MEDIA_MAGIC_IFRAME_BASE : Z := 0x63643030.
Definition MEDIA_MAGIC_PFRAME_BASE : Z := 0x63643130.
Definition MEDIA_MAGIC_AAC : Z := 0x62773530.
Definition MEDIA_MAGIC_AAC_V2 : Z := 0x62773531.
Definition MEDIA_MAGIC_ADPCM : Z := 0x62773130.
Definition RECOVERY_OFFSETS : list nat := [528; 1056; 1584]%nat.
Definition AAC_SAMPLE_RATES : list Z :=
  [96000; 88200; 64000; 48000; 44100; 32000; 24000; 22050; 16000; 12000; 11025; 8000; 7350].
Definition DEFAULT_AAC_SAMPLE_RATE : Z := 16000.
Definition AAC_SAMPLES_PER_RAW_BLOCK : Z := 1024.
Definition NARROWBAND_AUDIO_SAMPLE_RATE : Z := 8000.
Definition IMA_ADPCM_HEADER_LEN : Z := 4.
Definition MAX_MEDIA_HEADER : Z := 512.
Definition MAX_MEDIA_FRAME : Z := 4 * 1024 * 1024.

Inductive VideoCodec := H264 | H265.
Inductive AudioCodec := Aac | Adpcm | Pcm | G711Alaw | G711Ulaw.
#[global] Instance video_codec_eq_dec : EqDecision VideoCodec.
Proof. solve_decision. Defined.
#[global] Instance video_codec_countable : Countable VideoCodec.
Proof.
  refine (inj_countable' (λ c, match c with H264 => false | H265 => true end)
            (λ b : bool, if b then H265 else H264) _). by intros [].
Defined.

Record BcTimestamp := mk_timestamp { ts_year : Z; ts_month : Z; ts_day : Z; ts_hour : Z; ts_minute : Z; ts_second : Z }.

Inductive MediaMagic :=
| InfoV1
| InfoV2
| IFrame (channel : Z)
| PFrame (channel : Z)
| AacAudio
| AdpcmAudio.

Definition from_u32 (magic : Z) : option MediaMagic :=
  if magic =? MEDIA_MAGIC_INFO_V1 then Some InfoV1
  else if magic =? MEDIA_MAGIC_INFO_V2 then Some InfoV2
  else if (magic =? MEDIA_MAGIC_AAC) || (magic =? MEDIA_MAGIC_AAC_V2) then Some AacAudio
  else if magic =? MEDIA_MAGIC_ADPCM then Some AdpcmAudio
  else if (MEDIA_MAGIC_IFRAME_BASE <=? magic) && (magic <=? MEDIA_MAGIC_IFRAME_BASE + 9)
  then Some (IFrame (magic - MEDIA_MAGIC_IFRAME_BASE))
  else if (MEDIA_MAGIC_PFRAME_BASE <=? magic) && (magic <=? MEDIA_MAGIC_PFRAME_BASE + 9)
  then Some (PFrame (magic - MEDIA_MAGIC_PFRAME_BASE))
  else None.
Definition to_u32 (magic : MediaMagic) : Z :=
  match magic with
  | InfoV1 => MEDIA_MAGIC_INFO_V1
  | InfoV2 => MEDIA_MAGIC_INFO_V2
  | IFrame ch => MEDIA_MAGIC_IFRAME_BASE + ch
  | PFrame ch => MEDIA_MAGIC_PFRAME_BASE + ch
  | AacAudio => MEDIA_MAGIC_AAC
  | AdpcmAudio => MEDIA_MAGIC_ADPCM
  end.

Record StreamMetadata := mk_metadata {
  sm_width : Z;
  sm_height : Z;
  sm_fps : Z;
  sm_start_time : option BcTimestamp;
  sm_end_time : option BcTimestamp
}.
Record VideoFrameRef := mk_video_ref {
  vr_channel : Z;
  vr_is_keyframe : bool;
  vr_codec : VideoCodec;
  vr_data : list Z;
  vr_microseconds : Z
}.
Record AudioFrameRef := mk_audio_ref { ar_codec : AudioCodec; ar_data : list Z; ar_duration : Z }.
Inductive MediaFrame :=
| MInfo (info : StreamMetadata)
| MVideo (frame : VideoFrameRef)
| MAudio (frame : AudioFrameRef).

Definition align8 (n : Z) : Z := Z.ldiff (n + 7) 7.
Definition padding_len (payload_len : Z) : Z := (8 - payload_len mod 8) mod 8.

(** ** Headers *)

(** The byte at an offset that the caller has checked. *)
Definition byte_at (data : list Z) (offset : nat) : Z := nth offset data 0.
Definition timestamp_at (data : list Z) (offset : nat) : BcTimestamp :=
  mk_timestamp (2000 + byte_at data offset) (byte_at data (offset + 1)) (byte_at data (offset + 2))
    (byte_at data (offset + 3)) (byte_at data (offset + 4)) (byte_at data (offset + 5)).

Definition parse_stream_metadata (data : list Z) : result BcError (StreamMetadata * Z) :=
  if vec_len data <? 8 then Err Incomplete
  else
    let header_size := u32_at data 4 in
    if header_size <? 8 then Err (Protocol "stream info header size too small")
    else if vec_len data <? header_size then Err Incomplete
    else
      Ok (mk_metadata
            (if 12 <=? header_size then u32_at data 8 else 0)
            (if 16 <=? header_size then u32_at data 12 else 0)
            (if 18 <=? header_size then byte_at data 17 else 0)
            (if 24 <=? header_size then Some (timestamp_at data 18) else None)
            (if 30 <=? header_size then Some (timestamp_at data 24) else None), header_size).

Definition video_codec_of (tag : list Z) : option VideoCodec :=
  if bool_decide (tag = [72; 50; 54; 52]) then Some H264
  else if bool_decide (tag = [72; 50; 54; 53]) then Some H265
  else None.

(** Codec, payload length, microseconds, header length and handle hint. *)
Definition parse_video_header (data : list Z) : result BcError (VideoCodec * Z * Z * Z * Z) :=
  if vec_len data <? 24 then Err Incomplete
  else
    match video_codec_of (take 4 (drop 4 data)) with
    | None => Err (Protocol "unknown video codec in frame header")
    | Some codec =>
        let data_len := u32_at data 8 in
        if MAX_MEDIA_FRAME <? data_len then Err (MediaFrameTooLarge data_len MAX_MEDIA_FRAME)
        else
          let additional_header_size := u32_at data 12 in
          let microseconds := u32_at data 16 in
          let stream_handle_hint := u32_at data 20 in
          match checked_add usize_max 24 additional_header_size with
          | Some total =>
              if total <=? MAX_MEDIA_HEADER then Ok (codec, data_len, microseconds, total, stream_handle_hint)
              else Err (Protocol "video frame header exceeds maximum size")
          | None => Err (Protocol "video frame header exceeds maximum size")
          end
    end.

Definition parse_aac_header (data : list Z) : result BcError (Z * Z) :=
  if vec_len data <? 8 then Err Incomplete else Ok (u16_at data 4, 8).
Definition parse_adpcm_header (data : list Z) : result BcError (Z * Z) :=
  if vec_len data <? 12 then Err Incomplete
  else
    let payload_len := u16_at data 4 in
    if payload_len <? 4 then Err (Protocol "ADPCM payload is shorter than its subheader")
    else if negb (u16_at data 8 =? 0x0100) then Err (Protocol "invalid ADPCM frame marker")
    else Ok (payload_len - 4, 12).

(** ** Durations, in nanoseconds *)

Definition samples_to_duration (samples sample_rate : Z) : Z :=
  samples / sample_rate * nanos_per_sec + (samples mod sample_rate) * nanos_per_sec / sample_rate.
Definition aac_metadata (data : list Z) : option (Z * Z) :=
  if (7 <=? vec_len data) && (byte_at data 0 =? 0xFF) && (Z.land (byte_at data 1) 0xF0 =? 0xF0) then
    let frequency_index := Z.to_nat (Z.land (Z.shiftr (byte_at data 2) 2) 0x0F) in
    (λ rate, (rate, Z.land (byte_at data 6) 0x03 + 1)) <$> AAC_SAMPLE_RATES !! frequency_index
  else None.
Definition aac_duration (data : list Z) : Z :=
  let '(sample_rate, raw_blocks) := unwrap_or (aac_metadata data) (DEFAULT_AAC_SAMPLE_RATE, 1) in
  samples_to_duration (AAC_SAMPLES_PER_RAW_BLOCK * raw_blocks) sample_rate.
Definition adpcm_duration (data : list Z) : Z :=
  let samples := if IMA_ADPCM_HEADER_LEN <=? vec_len data then 1 + (vec_len data - IMA_ADPCM_HEADER_LEN) * 2 else 0 in
  samples_to_duration samples NARROWBAND_AUDIO_SAMPLE_RATE.
Definition audio_frame_duration (codec : AudioCodec) (data : list Z) : Z :=
  match codec with
  | Aac => aac_duration data
  | Adpcm => adpcm_duration data
  | G711Alaw | G711Ulaw => samples_to_duration (vec_len data) NARROWBAND_AUDIO_SAMPLE_RATE
  | Pcm => samples_to_duration (vec_len data / 2) NARROWBAND_AUDIO_SAMPLE_RATE
  end.

(** ** The frame iterator *)

Record MediaFrameIter := mk_iter { it_data : list Z; it_pos : Z }.
Definition iter_remaining (it : MediaFrameIter) : list Z := drop (Z.to_nat (it_pos it)) (it_data it).
Definition iter_advance (n : Z) (it : MediaFrameIter) : MediaFrameIter := mk_iter (it_data it) (it_pos it + n).
Definition iter_finish (it : MediaFrameIter) : MediaFrameIter := mk_iter (it_data it) (vec_len (it_data it)).

Definition is_media_magic (data : list Z) (offset : nat) : bool :=
  if from_u32 (u32_at data offset) then true else false.
Definition scan_media (remaining : list Z) : option nat :=
  match List.find (λ offset, (offset + 4 <=? length remaining)%nat && is_media_magic remaining offset) RECOVERY_OFFSETS with
  | Some offset => Some offset
  | None => List.find (is_media_magic remaining) (seq 1 (length remaining - 4))
  end.

(** An audio frame whose header is [parsed]. *)
Definition iter_audio (codec : AudioCodec) (parsed : result BcError (Z * Z)) (it : MediaFrameIter)
    : result BcError (option MediaFrame) * MediaFrameIter :=
  let remaining := iter_remaining it in
  match parsed with
  | Err e => (Err e, it)
  | Ok (data_len, header_len) =>
      let frame_end := header_len + data_len in
      if vec_len remaining <? frame_end then (Err Incomplete, it)
      else
        let data := take (Z.to_nat data_len) (drop (Z.to_nat header_len) remaining) in
        (Ok (Some (MAudio (mk_audio_ref codec data (audio_frame_duration codec data)))), iter_advance (align8 frame_end) it)
  end.
Definition iter_video (channel : Z) (is_keyframe : bool) (it : MediaFrameIter)
    : result BcError (option MediaFrame) * MediaFrameIter :=
  let remaining := iter_remaining it in
  match parse_video_header remaining with
  | Err e => (Err e, it)
  | Ok (codec, data_len, microseconds, header_total, _) =>
      let frame_end := header_total + data_len in
      if vec_len remaining <? frame_end then (Err Incomplete, it)
      else
        let data := take (Z.to_nat data_len) (drop (Z.to_nat header_total) remaining) in
        (Ok (Some (MVideo (mk_video_ref channel is_keyframe codec data microseconds))),
         iter_advance (frame_end + padding_len data_len) it)
  end.

(** The recursion of [parse_next] after a scan finds a magic at once. *)
Fixpoint parse_next (fuel : nat) (it : MediaFrameIter) : outcome (result BcError (option MediaFrame) * MediaFrameIter) :=
  match fuel with
  | O => Panic
  | S fuel' =>
      if vec_len (it_data it) <? it_pos it then Panic
      else
        let remaining := iter_remaining it in
        if vec_len remaining <? 4 then Ret (Ok None, it)
        else
          match from_u32 (u32_at remaining 0) with
          | None =>
              match scan_media remaining with
              | Some offset => parse_next fuel' (iter_advance (Z.of_nat offset) it)
              | None => Ret (Ok None, iter_finish it)
              end
          | Some InfoV1 | Some InfoV2 =>
              Ret (match parse_stream_metadata remaining with
                   | Err e => (Err e, it)
                   | Ok (info, consumed) => (Ok (Some (MInfo info)), iter_advance (align8 consumed) it)
                   end)
          | Some (IFrame channel) => Ret (iter_video channel true it)
          | Some (PFrame channel) => Ret (iter_video channel false it)
          | Some AacAudio => Ret (iter_audio Aac (parse_aac_header remaining) it)
          | Some AdpcmAudio => Ret (iter_audio Adpcm (parse_adpcm_header remaining) it)
          end
  end.

Definition iter_next (it : MediaFrameIter) : outcome (option (result BcError MediaFrame) * MediaFrameIter) :=
  if vec_len (it_data it) <=? it_pos it then Ret (None, it)
  else
    let! (v, it) := parse_next 2 it in
    Ret (match v with
         | Ok (Some frame) => (Some (Ok frame), it)
         | Ok None => (None, it)
         | Err e => (Some (Err e), iter_finish it)
         end).

(** The items of the iterator; every frame takes eight bytes at least. *)
Fixpoint iter_collect (fuel : nat) (it : MediaFrameIter) : outcome (list (result BcError MediaFrame)) :=
  match fuel with
  | O => Panic
  | S fuel' =>
      let! (v, it) := iter_next it in
      match v with
      | None => Ret []
      | Some item => let! items := iter_collect fuel' it in Ret (item :: items)
      end
  end.
Definition parse_media_frames (data : list Z) : outcome (list (result BcError MediaFrame)) :=
  iter_collect (1 + length data) (mk_iter data 0).
