(* ===== verification/ReoStream.v ===== *)
(** * Media streams of a Reolink session

    The routing of streams and the reassembly of frames from message bodies in
    [session.rs].  The reader of the [xml] crate and the iteration order of hash maps are
    parameters.  The statistics counters are left out, and so is the range in the receive
    buffer of [StreamStarted], which nothing reads. *)

From S2P Require Import Prelude OnvifDetails ReoWire ReoUdp ReoUdpNet ReoUdpRun ReoDiscovery ReoMedia.

Definition MAX_PENDING : Z := 128.
Definition MEDIA_FRAME_ALIGNMENT : nat := 8.

Inductive StreamType := StMain | StSub | StExtern.
Definition from_wire_id (id : Z) : option StreamType :=
  if id =? 0 then Some StMain else if id =? 1 then Some StSub else if id =? 2 then Some StExtern else None.
Definition stream_type_wire_id (stream_type : StreamType) : Z :=
  match stream_type with StMain => 0 | StSub => 1 | StExtern => 2 end.
Definition stream_key (channel : Z) (stream_type : StreamType) : Z :=
  Z.lor (Z.shiftl channel 8) (stream_type_wire_id stream_type).

Record StreamSubscriptionEntry := mk_subscription {
  sb_channel : Z;
  sb_stream_type : StreamType;
  sb_expected_width : Z;
  sb_expected_height : Z
}.

Record MicrosecondTimeline := mk_timeline { tl_previous : option Z; tl_elapsed : Z }.
Definition timeline_default : MicrosecondTimeline := mk_timeline None 0.
Definition timeline_advance (timestamp : Z) (t : MicrosecondTimeline) : MicrosecondTimeline :=
  mk_timeline (Some timestamp)
    (match tl_previous t with
     | Some previous => saturating_add duration_max (tl_elapsed t) (u32_wrapping_sub timestamp previous * 1000)
     | None => tl_elapsed t
     end).

Record VideoAccum := mk_video_accum {
  va_stream_id : Z;
  va_channel : Z;
  va_is_keyframe : bool;
  va_codec : VideoCodec;
  va_microseconds : Z;
  va_expected : Z;
  va_data : list Z
}.
Record AudioAccum := mk_audio_accum {
  aa_stream_id : Z;
  aa_codec : AudioCodec;
  aa_expected : Z;
  aa_padding : Z;
  aa_data : list Z
}.

Inductive EventKind :=
| EkMediaInfo (stream_id : Z) (info : StreamMetadata)
| EkVideoFrame (stream_id channel : Z) (is_keyframe : bool) (codec : VideoCodec) (timestamp : Z)
| EkAudioFrame (stream_id : Z) (codec : AudioCodec)
| EkStreamStarted.
(** A pending event and the range of its data in [media_out]. *)
Record PendingEvent := mk_pending { pe_kind : EventKind; pe_start : Z; pe_len : Z }.

Inductive Event :=
| StreamMetadataEvent (stream_id : Z) (info : StreamMetadata)
| VideoFrameEvent (stream_id channel : Z) (is_keyframe : bool) (codec : VideoCodec) (data : list Z) (timestamp : Z)
| AudioFrameEvent (stream_id : Z) (codec : AudioCodec) (data : list Z) (duration : Z)
| StreamStartedEvent.

(** How streams are told apart. *)
Record Routing := mk_routing {
  rt_stream_ids_by_key : gmap Z Z;
  rt_stream_subs_by_id : gmap Z StreamSubscriptionEntry;
  rt_pending_subscribe_ids : list Z;
  rt_stream_id_by_remote_handle : gmap Z Z;
  rt_remote_handle_by_stream_id : gmap Z Z;
  rt_stream_id_by_msg_num : gmap Z Z;
  rt_stream_id_by_channel_codec : gmap (Z * VideoCodec) Z;
  rt_last_stream_metadata : option StreamMetadata
}.
Definition set_last (info : option StreamMetadata) (r : Routing) : Routing :=
  mk_routing (rt_stream_ids_by_key r) (rt_stream_subs_by_id r) (rt_pending_subscribe_ids r)
    (rt_stream_id_by_remote_handle r) (rt_remote_handle_by_stream_id r) (rt_stream_id_by_msg_num r)
    (rt_stream_id_by_channel_codec r) info.
Definition set_pending_ids (ids : list Z) (r : Routing) : Routing :=
  mk_routing (rt_stream_ids_by_key r) (rt_stream_subs_by_id r) ids
    (rt_stream_id_by_remote_handle r) (rt_remote_handle_by_stream_id r) (rt_stream_id_by_msg_num r)
    (rt_stream_id_by_channel_codec r) (rt_last_stream_metadata r).
Definition set_codec_ids (ids : gmap (Z * VideoCodec) Z) (r : Routing) : Routing :=
  mk_routing (rt_stream_ids_by_key r) (rt_stream_subs_by_id r) (rt_pending_subscribe_ids r)
    (rt_stream_id_by_remote_handle r) (rt_remote_handle_by_stream_id r) (rt_stream_id_by_msg_num r)
    ids (rt_last_stream_metadata r).
Definition set_handles (by_handle by_stream : gmap Z Z) (r : Routing) : Routing :=
  mk_routing (rt_stream_ids_by_key r) (rt_stream_subs_by_id r) (rt_pending_subscribe_ids r)
    by_handle by_stream (rt_stream_id_by_msg_num r)
    (rt_stream_id_by_channel_codec r) (rt_last_stream_metadata r).

(** The part of the session that stream messages read and write. *)
Record Session := mk_session {
  s_routing : Routing;
  s_pending : list PendingEvent;
  s_pending_idx : Z;
  s_media_out : list Z;
  s_video_accums : gmap Z VideoAccum;
  s_video_timestamps : gmap Z MicrosecondTimeline;
  s_audio_accums : gmap Z AudioAccum;
  s_header_carry : list Z;
  s_active_streams : Z
}.
Definition set_routing (r : Routing) (s : Session) : Session :=
  mk_session r (s_pending s) (s_pending_idx s) (s_media_out s) (s_video_accums s) (s_video_timestamps s)
    (s_audio_accums s) (s_header_carry s) (s_active_streams s).
Definition set_pending (pending : list PendingEvent) (media_out : list Z) (s : Session) : Session :=
  mk_session (s_routing s) pending (s_pending_idx s) media_out (s_video_accums s) (s_video_timestamps s)
    (s_audio_accums s) (s_header_carry s) (s_active_streams s).
Definition set_video_accums (accums : gmap Z VideoAccum) (s : Session) : Session :=
  mk_session (s_routing s) (s_pending s) (s_pending_idx s) (s_media_out s) accums (s_video_timestamps s)
    (s_audio_accums s) (s_header_carry s) (s_active_streams s).
Definition set_timestamps (timestamps : gmap Z MicrosecondTimeline) (s : Session) : Session :=
  mk_session (s_routing s) (s_pending s) (s_pending_idx s) (s_media_out s) (s_video_accums s) timestamps
    (s_audio_accums s) (s_header_carry s) (s_active_streams s).
Definition set_audio_accums (accums : gmap Z AudioAccum) (s : Session) : Session :=
  mk_session (s_routing s) (s_pending s) (s_pending_idx s) (s_media_out s) (s_video_accums s) (s_video_timestamps s)
    accums (s_header_carry s) (s_active_streams s).
Definition set_carry (carry : list Z) (s : Session) : Session :=
  mk_session (s_routing s) (s_pending s) (s_pending_idx s) (s_media_out s) (s_video_accums s) (s_video_timestamps s)
    (s_audio_accums s) carry (s_active_streams s).
Definition set_active (n : Z) (s : Session) : Session :=
  mk_session (s_routing s) (s_pending s) (s_pending_idx s) (s_media_out s) (s_video_accums s) (s_video_timestamps s)
    (s_audio_accums s) (s_header_carry s) n.

Definition pending_is_full (s : Session) : bool := MAX_PENDING <=? vec_len (s_pending s).
Definition push_pending (e : PendingEvent) (s : Session) : Session := set_pending (s_pending s ++ [e]) (s_media_out s) s.

(** ** Finding frames *)

(** The magic at the start of a body, behind up to seven zero bytes of padding. *)
Fixpoint media_offset_loop (count offset : nat) (body : list Z) : option (nat * MediaMagic) :=
  match count with
  | O => None
  | S count' =>
      if (length body <? offset + 4)%nat then None
      else if (0 <? offset)%nat && negb (byte_at body (offset - 1) =? 0) then None
      else
        match from_u32 (u32_at body offset) with
        | Some magic => Some (offset, magic)
        | None => media_offset_loop count' (S offset) body
        end
  end.
Definition media_frame_offset (body : list Z) : option (nat * MediaMagic) :=
  media_offset_loop MEDIA_FRAME_ALIGNMENT 0 body.
Definition find_media_magic (data : list Z) : option nat :=
  List.find (is_media_magic data) (seq 1 (length data - 4)).

Section session.
Context (read_xml : list Z → list (result unit ReadEvent)).
Context (subs_order : gmap Z StreamSubscriptionEntry → list (Z * StreamSubscriptionEntry)).
Context (codec_order : gmap (Z * VideoCodec) Z → list (Z * VideoCodec * Z)).

(** ** Routing *)

Definition stream_id_from_header (encryption_offset : Z) (r : Routing) : Z :=
  let channel := Z.land encryption_offset 0xFF in
  let stream_type_raw := Z.land (Z.shiftr encryption_offset 8) 0xFF in
  let msg_num := Z.land (Z.shiftr encryption_offset 16) 0xFFFF in
  let by_type :=
    match from_wire_id stream_type_raw with
    | Some stream_type => unwrap_or (rt_stream_ids_by_key r !! stream_key channel stream_type) 0
    | None => 0
    end in
  if negb (msg_num =? 0) then unwrap_or (rt_stream_id_by_msg_num r !! msg_num) by_type else by_type.

(** The first position of a pending identifier, removed. *)
Fixpoint pop_first (P : Z → bool) (ids : list Z) : option (Z * list Z) :=
  match ids with
  | [] => None
  | id :: ids' => if P id then Some (id, ids') else (λ p : Z * list Z, (p.1, id :: p.2)) <$> pop_first P ids'
  end.
Definition pop_pending_for_channel (media_channel : Z) (r : Routing) : option (Z * list Z) :=
  pop_first (λ id, match rt_stream_subs_by_id r !! id with Some sub => sb_channel sub =? media_channel | None => false end)
    (rt_pending_subscribe_ids r).
Definition pop_pending_for_channel_and_resolution (media_channel : Z) (r : Routing) : option (Z * list Z) :=
  match rt_last_stream_metadata r with
  | None => None
  | Some info =>
      if (sm_width info =? 0) && (sm_height info =? 0) then None
      else
        pop_first (λ id,
          match rt_stream_subs_by_id r !! id with
          | Some sub =>
              (sb_channel sub =? media_channel) && (0 <? sb_expected_width sub) && (0 <? sb_expected_height sub)
              && (sb_expected_width sub =? sm_width info) && (sb_expected_height sub =? sm_height info)
          | None => false
          end) (rt_pending_subscribe_ids r)
  end.
Definition learn_stream_id (media_channel : Z) (r : Routing) : option (Z * list Z) :=
  match pop_pending_for_channel_and_resolution media_channel r with
  | Some p => Some p
  | None =>
      match pop_pending_for_channel media_channel r with
      | Some p => Some p
      | None => match rt_pending_subscribe_ids r with [] => None | id :: ids => Some (id, ids) end
      end
  end.

(** The cached identifier of a channel and codec, corrected when the last stream info
    contradicts it. *)
Definition expects (info : StreamMetadata) (sub : StreamSubscriptionEntry) : bool :=
  (sb_expected_width sub =? sm_width info) && (sb_expected_height sub =? sm_height info).
Definition cached_stream_id (key : Z * VideoCodec) (stream_id : Z) (r : Routing) : Z * Routing :=
  match rt_last_stream_metadata r with
  | None => (stream_id, r)
  | Some info =>
      let r := set_last None r in
      if (0 <? sm_width info) && (0 <? sm_height info) then
        let expected_matches :=
          is_none_or (λ sub, (sb_expected_width sub =? 0) || (sb_expected_height sub =? 0) || expects info sub)
            (rt_stream_subs_by_id r !! stream_id) in
        match (if expected_matches then None
               else List.find (λ p : Z * StreamSubscriptionEntry, expects info p.2) (subs_order (rt_stream_subs_by_id r))) with
        | None => (stream_id, r)
        | Some (correct_id, _) =>
            let other_key :=
              List.find (λ p : Z * VideoCodec * Z, negb (bool_decide (p.1 = key)) && (p.2 =? correct_id))
                (codec_order (rt_stream_id_by_channel_codec r)) in
            let ids := <[key := correct_id]> (rt_stream_id_by_channel_codec r) in
            (correct_id, set_codec_ids (match other_key with Some (other, _) => <[other := stream_id]> ids | None => ids end) r)
        end
      else (stream_id, r)
  end.
Definition resolve_video_stream_id (header_stream_id stream_handle_hint media_channel : Z) (codec : VideoCodec)
    (r : Routing) : Z * Routing :=
  let key := (media_channel, codec) in
  if negb (header_stream_id =? 0) && bool_decide (is_Some (rt_stream_subs_by_id r !! header_stream_id)) then
    (header_stream_id,
     set_last None (set_pending_ids (List.filter (λ id, negb (id =? header_stream_id)) (rt_pending_subscribe_ids r)) r))
  else
    match rt_stream_id_by_channel_codec r !! key with
    | Some stream_id => cached_stream_id key stream_id r
    | None =>
        match rt_stream_id_by_remote_handle r !! stream_handle_hint with
        | Some stream_id => (stream_id, set_codec_ids (<[key := stream_id]> (rt_stream_id_by_channel_codec r)) r)
        | None =>
            if negb (stream_handle_hint =? 0) && bool_decide (is_Some (rt_stream_subs_by_id r !! stream_handle_hint))
            then (stream_handle_hint, r)
            else
              match learn_stream_id media_channel r with
              | Some (stream_id, ids) =>
                  (stream_id,
                   set_codec_ids (<[key := stream_id]> (rt_stream_id_by_channel_codec r)) (set_last None (set_pending_ids ids r)))
              | None => (if negb (header_stream_id =? 0) then header_stream_id else 0, r)
              end
        end
    end.

(** ** Acknowledgements of a stream start *)

(** The calls of the visitor of [parse_xml] up to the first error. *)
Fixpoint visit_texts (current : option string) (events : list (result unit ReadEvent)) : list (string * string) :=
  match events with
  | [] | Err _ :: _ | Ok EndDocument :: _ => []
  | Ok (StartElement name) :: events' => visit_texts (if str_len name <=? 64 then Some name else None) events'
  | Ok (Characters text) :: events' | Ok (CData text) :: events' =>
      match current with Some name => [(name, text)] | None => [] end ++ visit_texts current events'
  | Ok (EndElement _) :: events' => visit_texts None events'
  | Ok OtherEvent :: events' => visit_texts current events'
  end.
Definition parse_uint (max : Z) (s : string) : option Z :=
  match parse_u64 s with Some n => if n <=? max then Some n else None | None => None end.

Record AckScan := mk_ack_scan { as_channel : option Z; as_handle : option Z; as_stream_type : option StreamType }.
Definition ack_field (a : AckScan) (p : string * string) : AckScan :=
  let '(name, text) := p in
  if str_eqb name "channelId" then
    match parse_uint 255 text with Some v => mk_ack_scan (Some v) (as_handle a) (as_stream_type a) | None => a end
  else if str_eqb name "handle" then
    match parse_uint u32_max text with Some v => mk_ack_scan (as_channel a) (Some v) (as_stream_type a) | None => a end
  else if str_eqb name "streamType" then
    mk_ack_scan (as_channel a) (as_handle a)
      (if str_eqb text "mainStream" then Some StMain
       else if str_eqb text "subStream" then Some StSub
       else if str_eqb text "externStream" then Some StExtern
       else None)
  else a.
Definition parse_stream_ack (data : list Z) : option (Z * Z * option StreamType) :=
  let a := foldl ack_field (mk_ack_scan None None None) (visit_texts None (read_xml data)) in
  match as_channel a, as_handle a with
  | Some channel, Some handle => Some (channel, handle, as_stream_type a)
  | _, _ => None
  end.

(** The stream an acknowledgement belongs to. *)
Definition acked_stream_id (channel : Z) (stream_type : option StreamType) (r : Routing) : option Z * Routing :=
  match match stream_type with Some st => rt_stream_ids_by_key r !! stream_key channel st | None => None end with
  | Some sid =>
      (Some sid, set_pending_ids (List.filter (λ id, negb (id =? sid)) (rt_pending_subscribe_ids r)) r)
  | None =>
      match rt_pending_subscribe_ids r with
      | [] => (None, r)
      | id :: ids => (Some id, set_pending_ids ids r)
      end
  end.
(** It never fails. *)
Definition maybe_update_stream_handle_mapping (full_body : list Z) (payload_offset : option Z) (r : Routing) : Routing :=
  let offset := match payload_offset with
                | Some offset => if (0 <? offset) && (offset <? vec_len full_body) then Some (Z.to_nat offset) else None
                | None => None
                end in
  let parsed :=
    match offset with
    | None => parse_stream_ack full_body
    | Some offset =>
        match parse_stream_ack (drop offset full_body) with
        | Some p => Some p
        | None => parse_stream_ack full_body
        end
    end in
  match parsed with
  | None => r
  | Some (channel, remote_handle, stream_type) =>
      let '(local_stream_id, r) := acked_stream_id channel stream_type r in
      match local_stream_id with
      | None => r
      | Some stream_id =>
          let add r := set_handles (<[remote_handle := stream_id]> (rt_stream_id_by_remote_handle r))
                         (<[stream_id := remote_handle]> (rt_remote_handle_by_stream_id r)) r in
          match rt_stream_id_by_remote_handle r !! remote_handle with
          | Some existing =>
              if negb (existing =? stream_id)
              then set_handles (delete remote_handle (rt_stream_id_by_remote_handle r))
                     (delete existing (rt_remote_handle_by_stream_id r)) r
              else add r
          | None => add r
          end
      end
  end.
End session.
