(* ===== verification/ReoDispatch.v ===== *)
(** * Opening received messages

    The head of [BcSession::dispatch_message] ([session.rs] of [reo-proto]): which bodies are
    decrypted, and how, before the handler of the message sees them.  Together with the
    framing of [ReoFraming] this gives the path from [queue_send] of one session to the
    handlers of another.  The rest of [dispatch_message], which selects the handler by the
    message's number, is the parameter [handle]; it also gets the payload's range.  So are
    [take_pending_command] and the counters, which the decision does not read. *)

From S2P Require Import Prelude ReoWire ReoFraming ReoMedia ReoStream.

Definition COMMAND_STREAM : Z := 3.
Definition COMMAND_SNAP : Z := 109.

(** What the head reads of the session: [pending.is_full()], the negotiated cipher, whether a
    frame or a frame header is being put together, and whether a snapshot is. *)
Record SessionView := mk_view {
  sv_pending_full : bool;
  sv_encryption : EncryptionMode;
  sv_aes_key : option (list Z);
  sv_accumulating : bool;
  sv_snapshot : bool
}.

Definition payload_range (h : PacketHeader) (body_len : Z) : result BcError (Z * Z) :=
  let payload_offset := unwrap_or (h_extension h) 0 in
  if body_len <? payload_offset then Err (InvalidHeader "payload offset exceeds message body length")
  else Ok (payload_offset, body_len - payload_offset).

Definition is_full_aes (mode : EncryptionMode) : bool := match mode with FullAes => true | _ => false end.

Definition skip_decrypt (v : SessionView) (h : PacketHeader) (body : list Z) : bool :=
  let full_aes := is_full_aes (sv_encryption v) in
  (h_msg_id h =? COMMAND_LOGIN)
  || (negb (is_none (media_frame_offset body)) && negb full_aes)
  || ((h_msg_id h =? COMMAND_SNAP) && is_binary h && negb full_aes)
  || ((h_msg_id h =? COMMAND_STREAM) && sv_accumulating v && negb full_aes).

Section dispatch.
Context (aes : Cipher).

(** The body as the handlers find it in the receive buffer. *)
Definition open_body (v : SessionView) (h : PacketHeader) (body : list Z) : list Z :=
  let decrypt := decrypt_body aes (sv_encryption v) (sv_aes_key v) (channel_id h) in
  let partial := (h_msg_id h =? COMMAND_SNAP) && negb (is_binary h) && negb (is_full_aes (sv_encryption v)) in
  if (0 <? vec_len body) && negb (skip_decrypt v h body) then
    if partial && sv_snapshot v && (unwrap_or (h_extension h) 0 =? 0) then body
    else
      let offset := unwrap_or (h_extension h) 0 in
      if partial && (0 <? offset) && (offset <? u32_wrap (vec_len body))
      then decrypt None (take (Z.to_nat offset) body) ++ drop (Z.to_nat offset) body
      else decrypt (h_extension h) body
  else body.

Context {S : Type} (view : S → SessionView).
Context (handle : PacketHeader → list Z → Z * Z → S → result BcError S).

Definition dispatch_message (h : PacketHeader) (body : list Z) (s : S) : result BcError S :=
  if sv_pending_full (view s) then Err (Protocol "pending event queue full")
  else
    let? range := payload_range h (vec_len body) in
    handle h (open_body (view s) h body) range s.

(** ** Messages in the clear *)

(** What the handlers are given for a message: its body and the range of its payload. *)
Definition handle_message (m : RawMessage) (s : S) : result BcError S :=
  let offset := unwrap_or (h_extension (raw_header m)) 0 in
  handle (raw_header m) (raw_body m) (offset, vec_len (raw_body m) - offset) s.
Fixpoint handle_all (ms : list RawMessage) (s : S) : result BcError S :=
  match ms with
  | [] => Ok s
  | m :: ms' => let? s := handle_message m s in handle_all ms' s
  end.

Context (mode : EncryptionMode) (aes_key : option (list Z)).

(** A message that the session can read: there is room for its event, its payload lies in its
    body, and it is a login, or the peers agree on the cipher and its sealed body is not
    taken for one that is sent in the clear: media, the continuation of a frame under way,
    or a picture. *)
Definition readable (v : SessionView) (m : RawMessage) : Prop :=
  let h := raw_header m in
  let offset := unwrap_or (h_extension h) 0 in
  sv_pending_full v = false ∧ offset ≤ vec_len (raw_body m) ∧
  (h_msg_id h = COMMAND_LOGIN ∨
   (sv_encryption v = mode ∧ sv_aes_key v = aes_key ∧
    (mode = FullAes ∨
     (media_frame_offset (raw_body (sealed aes mode aes_key m)) = None
      ∧ (h_msg_id h = COMMAND_STREAM → sv_accumulating v = false)
      ∧ (h_msg_id h = COMMAND_SNAP → is_binary h = false ∧ (sv_snapshot v = true → offset ≠ 0)
         ∧ ¬ (0 < offset < vec_len (raw_body m))))))).
Fixpoint readable_all (ms : list RawMessage) (s : S) : Prop :=
  match ms with
  | [] => True
  | m :: ms' =>
      readable (view s) m ∧ match handle_message m s with Ok s => readable_all ms' s | Err _ => True end
  end.

Lemma open_login v h body : h_msg_id h = COMMAND_LOGIN → open_body v h body = body.
Proof. intros Hh. unfold open_body, skip_decrypt. by rewrite Hh, andb_false_r. Qed.
Lemma open_media v h body :
  media_frame_offset body ≠ None → sv_encryption v ≠ FullAes → open_body v h body = body.
Proof.
  intros Hm Hf. unfold open_body, skip_decrypt. destruct (media_frame_offset body); [|done].
  destruct (sv_encryption v); [| | |done]; cbn; by rewrite orb_true_r, andb_false_r.
Qed.

Context `{!CipherLaws aes}.

Lemma open_sealed v m :
  in_u32 (vec_len (raw_body m)) → readable v m →
  open_body v (raw_header m) (raw_body (sealed aes mode aes_key m)) = raw_body m.
Proof.
  intros Hlen (_ & Hoff & Hr). cbn [sealed raw_body]. unfold sealed_body. destruct (raw_body m) as [|b l] eqn:Eb; [done|].
  destruct Hr as [Hlogin|(Hmode & Hkey & Hr)].
  { rewrite Hlogin. cbn [negb Z.eqb]. by apply open_login. }
  destruct (h_msg_id (raw_header m) =? COMMAND_LOGIN) eqn:El; cbn [negb].
  { apply open_login. by apply Z.eqb_eq. }
  set (body := encrypt_body aes mode aes_key (channel_id (raw_header m)) (h_extension (raw_header m)) (b :: l)).
  assert (vec_len body = vec_len (b :: l)) as Hvl by (unfold vec_len, body; by rewrite encrypt_length).
  assert (decrypt_body aes mode aes_key (channel_id (raw_header m)) (h_extension (raw_header m)) body = b :: l) as Hd
    by apply decrypt_encrypt, _.
  assert (0 <? vec_len body = true) as Hpos by (rewrite Hvl; unfold vec_len; cbn [length]; apply Z.ltb_lt; lia).
  unfold open_body, skip_decrypt. rewrite El, Hpos, Hmode, Hkey. cbn [andb orb].
  destruct Hr as [->|(Hmedia & Hstream & Hsnap)].
  { cbn [is_full_aes negb]. by rewrite !andb_false_r. }
  cbn [sealed raw_body] in Hmedia. unfold sealed_body in Hmedia. rewrite Eb, El in Hmedia. cbn [negb] in Hmedia. fold body in Hmedia.
  rewrite Hmedia. cbn [is_none negb andb orb]. rewrite Hvl.
  destruct (Z.eqb_spec (h_msg_id (raw_header m)) COMMAND_STREAM) as [Hs|Hs].
  { rewrite Hs. cbn [Z.eqb COMMAND_SNAP COMMAND_STREAM Pos.eqb andb orb]. by rewrite (Hstream Hs). }
  destruct (Z.eqb_spec (h_msg_id (raw_header m)) COMMAND_SNAP) as [Hn|Hn]; cbn [andb orb negb]; [|done].
  destruct (Hsnap Hn) as (-> & Hacc & Hpart). cbn [andb orb negb].
  destruct (is_full_aes mode); cbn [negb andb]; [done|].
  assert (sv_snapshot v && (unwrap_or (h_extension (raw_header m)) 0 =? 0) = false) as ->.
  { destruct (sv_snapshot v); [|done]. apply Z.eqb_neq. by apply Hacc. }
  assert ((0 <? unwrap_or (h_extension (raw_header m)) 0)
    && (unwrap_or (h_extension (raw_header m)) 0 <? u32_wrap (vec_len (b :: l))) = false) as ->; [|done].
  unfold u32_wrap. rewrite Z.mod_small by (destruct Hlen; unfold u32_max in *; lia).
  apply andb_false_iff. rewrite !Z.ltb_ge. destruct (decide (0 < unwrap_or (h_extension (raw_header m)) 0)); [right|left]; lia.
Qed.

Lemma dispatch_sealed m s :
  in_u32 (vec_len (raw_body m)) → readable (view s) m →
  dispatch_message (raw_header m) (raw_body (sealed aes mode aes_key m)) s = handle_message m s.
Proof.
  intros Hlen Hr. unfold dispatch_message, handle_message, payload_range. rewrite open_sealed by done.
  destruct Hr as (-> & Hoff & _). cbn [sealed raw_body]. unfold vec_len at 1 2. rewrite sealed_length by done.
  fold (vec_len (raw_body m)). by rewrite (proj2 (Z.ltb_ge _ _)) by done.
Qed.
Lemma dispatch_all_sealed ms s :
  Forall (λ m, in_u32 (vec_len (raw_body m))) ms → readable_all ms s →
  dispatch_all dispatch_message (sealed aes mode aes_key <$> ms) s = handle_all ms s.
Proof.
  intros Hms. revert s. induction Hms as [|m ms Hm Hms IH]; intros s Hr; [done|]. destruct Hr as [Hr Hrest].
  rewrite fmap_cons. cbn [dispatch_all handle_all]. change (raw_header (sealed aes mode aes_key m)) with (raw_header m).
  rewrite dispatch_sealed by done. destruct (handle_message m s); [by apply IH|done].
Qed.
End dispatch.

(** C37. What is sent is what the handlers receive.  The bytes a session hands out, taken in
    buffers of any size, are exactly the messages queued successfully, sealed.  From any
    stream of these messages, with noise between them in which no magic begins and cut
    into chunks anywhere, the receiving session gives its handlers exactly these messages
    in order, decrypted, each with the range of its payload, and a read buffer yields the
    sealed ones.  Messages have bodies of at most 16 MiB and headers that describe them, the
    events of a chunk are taken before the next one comes, a message and a chunk fit
    the receive buffer together, the handlers succeed, and every message is readable when
    it arrives: a login, or sealed with the session's cipher and not taken
    for a body in the clear.  A body that begins with a media frame, after fewer than
    eight zero bytes, reaches its handler as it was sent unless everything is encrypted. *)
Theorem wire_exact {S} (view : S → SessionView) (handle : PacketHeader → list Z → Z * Z → S → result BcError S)
    aes `{!CipherLaws aes} mode aes_key ops cap ms out sd limit :
  send_run aes mode aes_key ops (mk_sender cap 0 []) = (ms, out, sd) →
  (∀ m, Queue m ∈ ops → message_ok m ∧ vec_len (wire_bytes m) ≤ limit) → 20 ≤ limit →
  let wire := sealed aes mode aes_key <$> ms in
  (sd_data sd = [] → noisy wire out) ∧
  (∀ chunks capacity s s_end,
     noisy wire (concat chunks) → readable_all aes view handle mode aes_key ms s → handle_all handle ms s = Ok s_end →
     Forall (λ c, limit + vec_len c ≤ capacity) chunks → capacity ≤ usize_max →
     (∃ r, feed (dispatch_message aes view handle) chunks (mk_receiver capacity 0 []) s = Ret (Ok tt, r, s_end)) ∧
     ∃ buf, read_chunks chunks [] = Ret (Ok wire, buf)) ∧
  (∀ h body s, media_frame_offset body ≠ None → sv_encryption (view s) ≠ FullAes → sv_pending_full (view s) = false →
     unwrap_or (h_extension h) 0 ≤ vec_len body →
     dispatch_message aes view handle h body s = handle_message handle (mk_raw h body) s).
Proof.
  intros Hrun Hops Hlimit wire.
  assert (∀ m, m ∈ ms → message_ok m ∧ vec_len (wire_bytes m) ≤ limit) as Hms
    by (intros m Hm; apply Hops; by eapply send_run_queued).
  split; [|split].
  - intros Hsd. apply send_run_data in Hrun. rewrite Hsd, app_nil_r in Hrun. rewrite Hrun. cbn [sd_data app].
    rewrite list_fmap_compose. apply noisy_clean, Forall_fmap, Forall_forall.
    intros m Hm. apply sealed_ok; [done|]. by apply Hms.
  - intros chunks capacity s s_end Hs Hread Hd Hc Hcap.
    assert (concat chunks = [] → wire = []) as Hend.
    { intros E. rewrite E in Hs. by eapply noisy_short. }
    split; [|by apply read_chunks_ok].
    apply feed_ok with limit capacity wire; try done; [| |cbn; unfold vec_len; cbn; lia].
    + unfold wire. rewrite dispatch_all_sealed; [done..| |done]. apply Forall_forall. intros m Hm.
      destruct (Hms m Hm) as [[Hh Hb _] _]. rewrite <-Hb. apply Hh.
    + apply Forall_fmap, Forall_forall. intros m Hm. destruct (Hms m Hm) as [_ Hl].
      change (vec_len (wire_bytes (sealed aes mode aes_key m)) ≤ limit). revert Hl. unfold wire_bytes, vec_len. rewrite !length_app. cbn [sealed raw_header raw_body].
      by rewrite sealed_length by done.
  - intros h body s Hm Hf Hp Ho. unfold dispatch_message, handle_message, payload_range. cbn [raw_header raw_body].
    by rewrite Hp, (proj2 (Z.ltb_ge _ _)), open_media by done.
Qed.

(** ** A witness *)

(** A cipher that satisfies the laws: the identity stands for AES. *)
Definition plain_cipher : Cipher := mk_cipher (λ _ l, l) (λ _ l, l).
#[export] Instance plain_cipher_laws : CipherLaws plain_cipher.
Proof. by constructor. Qed.

Definition demo_login : RawMessage := mk_raw (mk_header 1 2 0x00010000 0x66140000 None) [60; 62].
Definition demo_ping : RawMessage := mk_raw (mk_header 93 3 0x00020000 0x66140000 None) [1; 2; 3].
Definition demo_query : RawMessage := mk_raw (mk_header 80 4 0x00030005 0x64140000 (Some 1)) [0xf0; 0xde; 0xbc; 0x0a].
Definition demo_ops : list SendOp := [Queue demo_login; Queue demo_ping; Poll 7; Queue demo_query; Poll 100].
Definition demo_view (log : list RawMessage) : SessionView := mk_view false BcEncrypt None false false.
Definition demo_log (h : PacketHeader) (body : list Z) (range : Z * Z) (log : list RawMessage)
    : result BcError (list RawMessage) := Ok (log ++ [mk_raw h body]).
Definition demo_sent : list RawMessage * list Z * Sender :=
  send_run plain_cipher BcEncrypt None demo_ops (mk_sender 1024 0 []).

Lemma demo_login_ok : message_ok demo_login ∧ vec_len (wire_bytes demo_login) ≤ 64.
Proof. split; [|done]. constructor; [constructor|..]; done. Qed.
Lemma demo_ping_ok : message_ok demo_ping ∧ vec_len (wire_bytes demo_ping) ≤ 64.
Proof. split; [|done]. constructor; [constructor|..]; done. Qed.
Lemma demo_query_ok : message_ok demo_query ∧ vec_len (wire_bytes demo_query) ≤ 64.
Proof. split; [|done]. constructor; [constructor|..]; done. Qed.
Lemma demo_ops_ok m : Queue m ∈ demo_ops → message_ok m ∧ vec_len (wire_bytes m) ≤ 64.
Proof.
  unfold demo_ops. rewrite !elem_of_cons, elem_of_nil. intros [[= ->]|[[= ->]|[[=]|[[= ->]|[[=]|[]]]]]];
    [apply demo_login_ok|apply demo_ping_ok|apply demo_query_ok].
Qed.

(** A login and two messages sealed with the fixed key, sent in pieces of seven and more
    bytes and received as two chunks cut in the middle of the second, reach the handlers
    in the clear. *)
Lemma wire_exact_witness :
  ∃ r, feed (dispatch_message plain_cipher demo_view demo_log) [take 30 demo_sent.1.2; drop 30 demo_sent.1.2]
         (mk_receiver 1024 0 []) [] = Ret (Ok tt, r, [demo_login; demo_ping; demo_query]).
Proof.
  destruct (wire_exact demo_view demo_log plain_cipher BcEncrypt None demo_ops 1024 [demo_login; demo_ping; demo_query]
    demo_sent.1.2 demo_sent.2 64 eq_refl demo_ops_ok ltac:(lia)) as (Hclean & Hfeed & _).
  destruct (Hfeed [take 30 demo_sent.1.2; drop 30 demo_sent.1.2] 1024 [] [demo_login; demo_ping; demo_query]) as [Hr _].
  - cbn [concat]. rewrite app_nil_r, take_drop. apply Hclean. reflexivity.
  - cbn [readable_all handle_message]. repeat split; try (vm_compute; discriminate); try reflexivity.
    + left. reflexivity.
    + right. split; [reflexivity|]. split; [reflexivity|]. right. split; [vm_compute; reflexivity|].
      split; intros H; vm_compute in H; discriminate H.
    + right. split; [reflexivity|]. split; [reflexivity|]. right. split; [vm_compute; reflexivity|].
      split; intros H; vm_compute in H; discriminate H.
  - reflexivity.
  - repeat constructor; vm_compute; discriminate.
  - vm_compute; discriminate.
  - exact Hr.
Defined.
