(* ===== verification/ReoAssembly.v ===== *)
(** * Reassembly of media frames

    How message bodies of a stream become frames in [session.rs]: frames in one body,
    frames whose header or payload runs over the end of a body, and the delivery of
    pending events. *)

From S2P Require Import Prelude ReoWire ReoUdp ReoDiscovery ReoMedia ReoStream.

(** ** Emitting frames *)

Definition push_media (kind : EventKind) (data : list Z) (s : Session) : Session :=
  set_pending (s_pending s ++ [mk_pending kind (vec_len (s_media_out s)) (vec_len data)]) (s_media_out s ++ data) s.
Definition push_video (stream_id channel : Z) (is_keyframe : bool) (codec : VideoCodec) (microseconds : Z)
    (data : list Z) (s : Session) : Session :=
  let timeline := timeline_advance microseconds (unwrap_or (s_video_timestamps s !! stream_id) timeline_default) in
  push_media (EkVideoFrame stream_id channel is_keyframe codec (tl_elapsed timeline)) data
    (set_timestamps (<[stream_id := timeline]> (s_video_timestamps s)) s).

Definition emit_video_frame (stream_id channel : Z) (is_keyframe : bool) (codec : VideoCodec) (microseconds : Z)
    (data : list Z) (s : Session) : Session :=
  match data with
  | [] => s
  | _ => if pending_is_full s then s else push_video stream_id channel is_keyframe codec microseconds data s
  end.
Definition emit_audio_frame (stream_id : Z) (codec : AudioCodec) (data : list Z) (s : Session) : Session :=
  match data with
  | [] => s
  | _ => if pending_is_full s then s else push_media (EkAudioFrame stream_id codec) data s
  end.
(** The first [expected] bytes of an accumulator, which its data must have. *)
Definition accum_bytes (expected : Z) (data : list Z) : outcome (list Z) :=
  if vec_len data <? expected then Panic else Ret (take (Z.to_nat expected) data).
Definition emit_audio_accum (a : AudioAccum) (s : Session) : outcome Session :=
  if aa_expected a =? 0 then Ret s
  else if pending_is_full s then Ret s
  else
    let! data := accum_bytes (aa_expected a) (aa_data a) in
    Ret (push_media (EkAudioFrame (aa_stream_id a) (aa_codec a)) data s).
Definition try_complete_video_accum (key : Z) (s : Session) : outcome Session :=
  match s_video_accums s !! key with
  | Some a =>
      if va_expected a <=? vec_len (va_data a) then
        let s := set_video_accums (delete key (s_video_accums s)) s in
        if pending_is_full s then Ret s
        else
          let! data := accum_bytes (va_expected a) (va_data a) in
          Ret (push_video (va_stream_id a) (va_channel a) (va_is_keyframe a) (va_codec a) (va_microseconds a) data s)
      else Ret s
  | None => Ret s
  end.

Definition discard_accums (key : Z) (s : Session) : Session :=
  set_audio_accums (delete key (s_audio_accums s)) (set_video_accums (delete key (s_video_accums s)) s).
Definition stash_header_carry (body : list Z) (s : Session) : Session :=
  if (vec_len body =? 0) || (MAX_MEDIA_HEADER <? vec_len body) then s else set_carry body s.
Definition keep_carry (carry : list Z) (s : Session) : Session :=
  if vec_len carry <? MAX_MEDIA_HEADER then set_carry carry s else s.
Definition pending_audio_key (s : Session) : option Z :=
  match map_to_list (s_audio_accums s) with [(key, _)] => Some key | _ => None end.
Definition note_metadata (stream_id : Z) (info : StreamMetadata) (s : Session) : Session :=
  let s := set_routing (set_last (Some info) (s_routing s)) s in
  if pending_is_full s then s else push_pending (mk_pending (EkMediaInfo stream_id info) 0 0) s.

Notation step := (outcome (result BcError unit * Session)).

Section assembly.
Context (read_xml : list Z → list (result unit ReadEvent)).
Context (subs_order : gmap Z StreamSubscriptionEntry → list (Z * StreamSubscriptionEntry)).
Context (codec_order : gmap (Z * VideoCodec) Z → list (Z * VideoCodec * Z)).

(** The stream of a video frame and the key of its accumulator. *)
Definition resolve_frame (stream_id hint channel : Z) (codec : VideoCodec) (s : Session) : Z * Z * Session :=
  let '(resolved, r) := resolve_video_stream_id subs_order codec_order stream_id hint channel codec (s_routing s) in
  let key := if negb (stream_id =? 0) then stream_id else resolved in
  (resolved, key, discard_accums key (set_routing r s)).

Definition audio_codec_of (magic : MediaMagic) : AudioCodec := match magic with AacAudio => Aac | _ => Adpcm end.
Definition parse_audio_header (magic : MediaMagic) (data : list Z) : result BcError (Z * Z) :=
  match magic with AacAudio => parse_aac_header data | _ => parse_adpcm_header data end.

(** ** Frames that start in a body *)

(** [again] handles what follows a complete frame in the same body. *)
Definition start_info (again : list Z → Z → Session → step) (body : list Z) (stream_id : Z) (s : Session) : step :=
  match parse_stream_metadata body with
  | Err Incomplete => Ret (Ok tt, stash_header_carry body s)
  | Err e => Ret (Err e, s)
  | Ok (info, consumed) =>
      let s := note_metadata stream_id info s in
      let aligned := align8 consumed in
      if aligned <? vec_len body then again (drop (Z.to_nat aligned) body) stream_id s else Ret (Ok tt, s)
  end.
Definition start_video (again : list Z → Z → Session → step) (channel : Z) (is_keyframe : bool) (body : list Z)
    (stream_id : Z) (s : Session) : step :=
  match parse_video_header body with
  | Err Incomplete => Ret (Ok tt, stash_header_carry body s)
  | Err e => Ret (Err e, s)
  | Ok (codec, data_len, microseconds, header_total, hint) =>
      if vec_len body <? header_total then Ret (Ok tt, stash_header_carry body s)
      else
        let '(resolved, key, s) := resolve_frame stream_id hint channel codec s in
        let payload := drop (Z.to_nat header_total) body in
        if data_len <=? vec_len payload then
          let s := emit_video_frame resolved channel is_keyframe codec microseconds (take (Z.to_nat data_len) payload) s in
          let frame_end := header_total + data_len + padding_len data_len in
          if frame_end <? vec_len body then again (drop (Z.to_nat frame_end) body) resolved s else Ret (Ok tt, s)
        else
          Ret (Ok tt, set_video_accums
                 (<[key := mk_video_accum resolved channel is_keyframe codec microseconds data_len payload]> (s_video_accums s)) s)
  end.
Definition start_audio (again : list Z → Z → Session → step) (magic : MediaMagic) (body : list Z)
    (stream_id : Z) (s : Session) : step :=
  match parse_audio_header magic body with
  | Err Incomplete => Ret (Ok tt, stash_header_carry body s)
  | Err e => Ret (Err e, s)
  | Ok (data_len, header_len) =>
      let s := discard_accums stream_id s in
      let frame_end := header_len + data_len in
      if frame_end <=? vec_len body then
        let s := emit_audio_frame stream_id (audio_codec_of magic)
                   (take (Z.to_nat data_len) (drop (Z.to_nat header_len) body)) s in
        let aligned := align8 frame_end in
        if aligned <? vec_len body then again (drop (Z.to_nat aligned) body) stream_id s else Ret (Ok tt, s)
      else
        Ret (Ok tt, set_audio_accums
               (<[stream_id := mk_audio_accum stream_id (audio_codec_of magic) data_len (align8 frame_end - frame_end)
                                 (drop (Z.to_nat header_len) body)]> (s_audio_accums s)) s)
  end.
Definition start_frame (again : list Z → Z → Session → step) (magic : MediaMagic) (body : list Z)
    (stream_id : Z) (s : Session) : step :=
  match magic with
  | InfoV1 | InfoV2 => start_info again body stream_id s
  | IFrame channel => start_video again channel true body stream_id s
  | PFrame channel => start_video again channel false body stream_id s
  | AacAudio | AdpcmAudio => start_audio again magic body stream_id s
  end.

(** [dispatch_remaining_media] and [dispatch_media_start] call each other; a complete
    frame takes eight bytes at least, and the fuel is the number of bytes. *)
Fixpoint dispatch_remaining_media (fuel : nat) (body : list Z) (stream_id : Z) (s : Session) : step :=
  match fuel with
  | O => Panic
  | S fuel' =>
      if (vec_len body <? 4) || pending_is_full s then Ret (Ok tt, s)
      else
        match from_u32 (u32_at body 0) with
        | Some magic => start_frame (dispatch_remaining_media fuel') magic body stream_id s
        | None => Ret (Ok tt, s)
        end
  end.
Definition dispatch_media_start (magic : MediaMagic) (body : list Z) (stream_id : Z) (s : Session) : step :=
  start_frame (dispatch_remaining_media (1 + length body)) magic body stream_id s.

(** ** Bodies that continue *)

(** What follows a completed frame and its padding, if anything. *)
Definition skip_padding (again : list Z → Session → step) (copied padding : Z) (body : list Z) (s : Session) : step :=
  if copied <? vec_len body then
    let padding_to_skip := Z.min padding (vec_len body - copied) in
    match drop (Z.to_nat (copied + padding_to_skip)) body with
    | [] => Ret (Ok tt, s)
    | rest => again rest s
    end
  else Ret (Ok tt, s).

Definition append_audio_continuation (again : list Z → Session → step) (key : Z) (body : list Z) (s : Session) : step :=
  match s_audio_accums s !! key with
  | None => Ret (Ok tt, s)
  | Some a =>
      let needed := saturating_sub (aa_expected a) (vec_len (aa_data a)) in
      let to_copy := Z.min (vec_len body) needed in
      let a := mk_audio_accum (aa_stream_id a) (aa_codec a) (aa_expected a) (aa_padding a)
                 (aa_data a ++ take (Z.to_nat to_copy) body) in
      if vec_len (aa_data a) <? aa_expected a
      then Ret (Ok tt, set_audio_accums (<[key := a]> (s_audio_accums s)) s)
      else
        let! s := emit_audio_accum a (set_audio_accums (delete key (s_audio_accums s)) s) in
        skip_padding again to_copy (aa_padding a) body s
  end.
Definition append_video_continuation (again : list Z → Session → step) (key : Z) (a : VideoAccum) (body : list Z)
    (s : Session) : step :=
  let needed := saturating_sub (va_expected a) (vec_len (va_data a)) in
  let to_copy := Z.min (vec_len body) needed in
  let a' := mk_video_accum (va_stream_id a) (va_channel a) (va_is_keyframe a) (va_codec a) (va_microseconds a)
              (va_expected a) (va_data a ++ take (Z.to_nat to_copy) body) in
  let! s := try_complete_video_accum key (set_video_accums (<[key := a']> (s_video_accums s)) s) in
  skip_padding again to_copy (padding_len (va_expected a)) body s.

(** The accumulator a body without a header continues. *)
Definition continued_video (stream_id : Z) (s : Session) : option (Z * VideoAccum) :=
  match s_video_accums s !! stream_id with
  | Some a => Some (stream_id, a)
  | None => match map_to_list (s_video_accums s) with [p] => Some p | _ => None end
  end.

(** A header carried over from the last body; [again] dispatches the rest of this one.
    The length of the carry never exceeds that of the header it completes. *)
Definition resume_rest (again : list Z → Session → step) (header_len carry_len : Z) (body : list Z) (s : Session) : step :=
  let! consumed := plain_sub header_len carry_len in
  let! _ := plain_sub (vec_len body) consumed in
  again (drop (Z.to_nat consumed) body) s.
Definition resume_video (again : list Z → Session → step) (channel : Z) (is_keyframe : bool) (carry : list Z)
    (carry_len : Z) (body : list Z) (stream_id : Z) (s : Session) : step :=
  match parse_video_header carry with
  | Err Incomplete => Ret (Ok tt, keep_carry carry s)
  | Err e => Ret (Err e, s)
  | Ok (codec, data_len, microseconds, header_total, hint) =>
      if MAX_MEDIA_HEADER <? header_total then Ret (Ok tt, s)
      else if vec_len carry <? header_total then Ret (Ok tt, keep_carry carry s)
      else
        let '(resolved, key, s) := resolve_frame stream_id hint channel codec s in
        let a := mk_video_accum resolved channel is_keyframe codec microseconds data_len [] in
        resume_rest again header_total carry_len body (set_video_accums (<[key := a]> (s_video_accums s)) s)
  end.
Definition resume_audio (again : list Z → Session → step) (magic : MediaMagic) (carry : list Z)
    (carry_len : Z) (body : list Z) (stream_id : Z) (s : Session) : step :=
  match parse_audio_header magic carry with
  | Err Incomplete => Ret (Ok tt, keep_carry carry s)
  | Err e => Ret (Err e, s)
  | Ok (data_len, header_len) =>
      let s := discard_accums stream_id s in
      let frame_end := header_len + data_len in
      let a := mk_audio_accum stream_id (audio_codec_of magic) data_len (align8 frame_end - frame_end) [] in
      resume_rest again header_len carry_len body (set_audio_accums (<[stream_id := a]> (s_audio_accums s)) s)
  end.
Definition resume_info (again : list Z → Session → step) (carry : list Z) (carry_len : Z) (body : list Z)
    (stream_id : Z) (s : Session) : step :=
  match parse_stream_metadata carry with
  | Err Incomplete => Ret (Ok tt, keep_carry carry s)
  | Err e => Ret (Err e, s)
  | Ok (info, consumed_total) =>
      let s := note_metadata stream_id info s in
      let consumed := saturating_sub (align8 consumed_total) carry_len in
      if vec_len body <=? consumed then Ret (Ok tt, s) else again (drop (Z.to_nat consumed) body) s
  end.
Definition resume_header_carry (again : list Z → Session → step) (body : list Z) (stream_id : Z) (s : Session) : step :=
  let carry_len := vec_len (s_header_carry s) in
  let taken := Z.min (vec_len body) (saturating_sub MAX_MEDIA_HEADER carry_len) in
  let carry := s_header_carry s ++ take (Z.to_nat taken) body in
  let s := set_carry [] s in
  match media_frame_offset carry with
  | None => Ret (Ok tt, s)
  | Some (_, IFrame channel) => resume_video again channel true carry carry_len body stream_id s
  | Some (_, PFrame channel) => resume_video again channel false carry carry_len body stream_id s
  | Some (_, InfoV1) | Some (_, InfoV2) => resume_info again carry carry_len body stream_id s
  | Some (_, magic) => resume_audio again magic carry carry_len body stream_id s
  end.

(** A body that acknowledges a stream start. *)
Definition stream_started (body : list Z) (payload_offset : option Z) (s : Session) : Session :=
  let s := set_routing (maybe_update_stream_handle_mapping read_xml body payload_offset (s_routing s)) s in
  let s := if pending_is_full s then s else push_pending (mk_pending EkStreamStarted 0 0) s in
  set_active (saturating_add 255 (s_active_streams s) 1) s.

(** Every call on a rest consumes bytes or completes an accumulator; the fuel is twice the
    bytes and the accumulators. *)
Fixpoint dispatch_loop (fuel : nat) (stream_id : Z) (payload_offset : option Z) (body : list Z) (s : Session) : step :=
  match fuel with
  | O => Panic
  | S fuel' =>
      let again := dispatch_loop fuel' stream_id payload_offset in
      match body with
      | [] => Ret (Ok tt, s)
      | first :: _ =>
          match s_header_carry s with
          | _ :: _ => resume_header_carry again body stream_id s
          | [] =>
              match media_frame_offset body with
              | Some (offset, magic) => dispatch_media_start magic (drop offset body) stream_id s
              | None =>
                  match pending_audio_key s with
                  | Some key => append_audio_continuation again key body s
                  | None =>
                      match continued_video stream_id s with
                      | Some (key, a) => append_video_continuation again key a body s
                      | None =>
                          if first =? 60 then Ret (Ok tt, stream_started body payload_offset s)
                          else
                            match find_media_magic body with
                            | Some offset => again (drop offset body) s
                            | None => Ret (Ok tt, s)
                            end
                      end
                  end
              end
          end
      end
  end.
Definition dispatch_stream (stream_id : Z) (payload_offset : option Z) (body : list Z) (s : Session) : step :=
  dispatch_loop (1 + 2 * length body + size (s_video_accums s) + size (s_audio_accums s)) stream_id payload_offset body s.
End assembly.

(** ** Delivering events *)

(** The bytes of an event; its range lies in [media_out]. *)
Definition media_slice (e : PendingEvent) (s : Session) : outcome (list Z) :=
  if vec_len (s_media_out s) <? pe_start e + pe_len e then Panic
  else Ret (take (Z.to_nat (pe_len e)) (drop (Z.to_nat (pe_start e)) (s_media_out s))).
Definition needs_buf (kind : EventKind) : bool :=
  match kind with EkVideoFrame _ _ _ _ _ | EkAudioFrame _ _ => true | _ => false end.
Definition event_of (e : PendingEvent) (s : Session) : outcome Event :=
  match pe_kind e with
  | EkMediaInfo stream_id info => Ret (StreamMetadataEvent stream_id info)
  | EkVideoFrame stream_id channel is_keyframe codec timestamp =>
      let! data := media_slice e s in Ret (VideoFrameEvent stream_id channel is_keyframe codec data timestamp)
  | EkAudioFrame stream_id codec =>
      let! data := media_slice e s in Ret (AudioFrameEvent stream_id codec data (audio_frame_duration codec data))
  | EkStreamStarted => Ret StreamStartedEvent
  end.
(** The part of [poll_output] that delivers an event into a buffer of [n] bytes. *)
Definition poll_event (n : Z) (s : Session) : outcome (result BcError (option Event) * Session) :=
  match s_pending s !! Z.to_nat (s_pending_idx s) with
  | None => Ret (Ok None, s)
  | Some e =>
      if needs_buf (pe_kind e) && (n <? pe_len e) then Ret (Err (BufferTooSmall (pe_len e) n), s)
      else
        let! event := event_of e s in
        let idx := s_pending_idx s + 1 in
        Ret (Ok (Some event),
             if vec_len (s_pending s) <=? idx
             then mk_session (s_routing s) [] 0 [] (s_video_accums s) (s_video_timestamps s) (s_audio_accums s)
                    (s_header_carry s) (s_active_streams s)
             else mk_session (s_routing s) (s_pending s) idx (s_media_out s) (s_video_accums s) (s_video_timestamps s)
                    (s_audio_accums s) (s_header_carry s) (s_active_streams s))
  end.
