(* ===== verification/ReoAssemblyInv.v ===== *)
(** * The reassembly is total

    On arbitrary bodies the stream dispatcher returns, and the session it leaves is one on
    which every pending event can be delivered. *)

From S2P Require Import Prelude ReoWire ReoFraming ReoUdp ReoDiscovery ReoMedia ReoStream ReoAssembly.

(** ** Headers and their prefixes *)

Lemma byte_at_app l k offset : (offset < length l)%nat → byte_at (l ++ k) offset = byte_at l offset.
Proof. intros H. unfold byte_at. by rewrite app_nth1. Qed.
Lemma vec_len_pos {A} (l : list A) : 0 ≤ vec_len l.
Proof. unfold vec_len. lia. Qed.
Lemma vec_len_drop {A} n (l : list A) : vec_len (drop n l) = Z.max 0 (vec_len l - Z.of_nat n).
Proof. unfold vec_len. rewrite length_drop. lia. Qed.
Lemma vec_len_take {A} n (l : list A) : vec_len (take n l) = Z.min (Z.of_nat n) (vec_len l).
Proof. unfold vec_len. rewrite length_take. lia. Qed.

Lemma align8_eq n : align8 n = (n + 7) / 8 * 8.
Proof. unfold align8. change 7 with (Z.ones 3) at 2. by rewrite Z.ldiff_ones_r, Z.shiftr_div_pow2, Z.shiftl_mul_pow2 by lia. Qed.
Lemma align8_ge n : n ≤ align8 n < n + 8.
Proof. rewrite align8_eq. pose proof (Z.div_mod (n + 7) 8 ltac:(lia)). pose proof (Z.mod_pos_bound (n + 7) 8 ltac:(lia)). lia. Qed.
Lemma padding_len_range n : 0 ≤ padding_len n < 8.
Proof. unfold padding_len. apply Z.mod_pos_bound. lia. Qed.

(** The number of bytes the header at the start of a body takes, as far as it is known:
    the header is complete when the body has that many. *)
Definition header_need (magic : MediaMagic) (body : list Z) : Z :=
  match magic with
  | InfoV1 | InfoV2 => if vec_len body <? 8 then 8 else Z.max 8 (u32_at body 4)
  | IFrame _ | PFrame _ => if vec_len body <? 24 then 24 else 24 + u32_at body 12
  | AacAudio => 8
  | AdpcmAudio => 12
  end.

Definition starts_with (magic : MediaMagic) (body : list Z) : Prop :=
  4 ≤ vec_len body ∧ from_u32 (u32_at body 0) = Some magic.
Lemma starts_with_app magic body k : starts_with magic body → starts_with magic (body ++ k).
Proof.
  intros [H1 H2]. split; [rewrite vec_len_app; pose proof (vec_len_pos k); lia|].
  rewrite u32_at_prefix; [done|]. unfold vec_len in H1. lia.
Qed.
Lemma starts_with_offset magic body : starts_with magic body → media_frame_offset body = Some (0%nat, magic).
Proof.
  intros [H1 H2]. unfold media_frame_offset. cbn [media_offset_loop MEDIA_FRAME_ALIGNMENT].
  rewrite (proj2 (Nat.ltb_ge _ _)) by (unfold vec_len in H1; lia). cbn [Nat.ltb Nat.leb andb]. by rewrite H2.
Qed.

Lemma from_le_nonneg l : Forall is_byte l → 0 ≤ from_le l.
Proof. induction 1 as [|b l Hb Hl IH]; cbn [from_le]; [done|]. unfold is_byte in Hb. lia. Qed.
Lemma u32_at_nonneg l n : Forall is_byte l → 0 ≤ u32_at l n.
Proof. intros H. apply from_le_nonneg. by apply Forall_take, Forall_drop. Qed.
Lemma from_le_bound l : Forall is_byte l → from_le l < 256 ^ vec_len l.
Proof.
  induction 1 as [|b l Hb Hl IH]; cbn [from_le]; [done|]. unfold is_byte in Hb. unfold vec_len in *. cbn [length].
  rewrite Nat2Z.inj_succ, Z.pow_succ_r by lia. lia.
Qed.
Lemma u16_at_range l n : Forall is_byte l → 0 ≤ u16_at l n < 2 ^ 16.
Proof.
  intros H. assert (Forall is_byte (take 2 (drop n l))) as Hb by (by apply Forall_take, Forall_drop). split; [by apply from_le_nonneg|].
  eapply Z.lt_le_trans; [by apply from_le_bound|]. change (2 ^ 16) with (256 ^ 2). apply Z.pow_le_mono_r; [done|]. rewrite vec_len_take. lia.
Qed.

Lemma header_need_app magic c k :
  Forall is_byte (c ++ k) → vec_len c < header_need magic c → vec_len c < header_need magic (c ++ k).
Proof.
  intros Hb. unfold header_need. rewrite vec_len_app. pose proof (vec_len_pos k).
  assert (∀ n, Z.of_nat n + 4 ≤ vec_len c → u32_at (c ++ k) n = u32_at c n) as Hu
    by (intros n Hn; apply u32_at_prefix; unfold vec_len in Hn; lia).
  pose proof (u32_at_nonneg _ 12 Hb). destruct magic; try done.
  1,2: destruct (Z.ltb_spec (vec_len c) 8) as [H8|H8]; intros Hc; destruct (Z.ltb_spec (vec_len c + vec_len k) 8); try lia; rewrite Hu; lia.
  1,2: destruct (Z.ltb_spec (vec_len c) 24) as [H8|H8]; intros Hc; destruct (Z.ltb_spec (vec_len c + vec_len k) 24); try lia; rewrite Hu; lia.
Qed.

(** What the header parsers return, in terms of [header_need]. *)
Lemma parse_video_need magic data :
  Forall is_byte data → (∃ channel, magic = IFrame channel ∨ magic = PFrame channel) →
  match parse_video_header data with
  | Err Incomplete => vec_len data < header_need magic data
  | Ok (_, data_len, _, header_total, _) =>
      header_total = header_need magic data ∧ 24 ≤ vec_len data ∧ 24 ≤ header_total ≤ MAX_MEDIA_HEADER ∧ 0 ≤ data_len ≤ MAX_MEDIA_FRAME
  | Err _ => True
  end.
Proof.
  intros Hb Hm. assert (header_need magic data = if vec_len data <? 24 then 24 else 24 + u32_at data 12) as -> by (by destruct Hm as [? [-> | ->]]).
  unfold parse_video_header. destruct (Z.ltb_spec (vec_len data) 24); [done|].
  destruct (video_codec_of _); [|done]. destruct (Z.ltb_spec MAX_MEDIA_FRAME (u32_at data 8)); [done|]. unfold checked_add. pose proof (u32_at_nonneg _ 12 Hb). pose proof (u32_at_nonneg _ 8 Hb).
  destruct (_ <=? usize_max); [|done]. destruct (Z.leb_spec (24 + u32_at data 12) MAX_MEDIA_HEADER); [|done]. split; [done|]. split; [done|]. split; lia.
Qed.
Lemma parse_audio_need magic data :
  Forall is_byte data → magic = AacAudio ∨ magic = AdpcmAudio →
  match parse_audio_header magic data with
  | Err Incomplete => vec_len data < header_need magic data
  | Ok (data_len, header_len) => header_len = header_need magic data ∧ header_len ≤ vec_len data ∧ 8 ≤ header_len ≤ 12 ∧ 0 ≤ data_len < 2 ^ 16
  | Err _ => True
  end.
Proof.
  intros Hb [-> | ->]; cbn [parse_audio_header header_need].
  - unfold parse_aac_header. destruct (Z.ltb_spec (vec_len data) 8); [done|]. pose proof (u16_at_range _ 4 Hb). lia.
  - unfold parse_adpcm_header. destruct (Z.ltb_spec (vec_len data) 12); [done|]. pose proof (u16_at_range _ 4 Hb).
    destruct (Z.ltb_spec (u16_at data 4) 4); [done|]. destruct (negb _); [done|]. lia.
Qed.
Lemma parse_info_need magic data :
  magic = InfoV1 ∨ magic = InfoV2 →
  match parse_stream_metadata data with
  | Err Incomplete => vec_len data < header_need magic data
  | Ok (_, consumed) => consumed = header_need magic data ∧ consumed ≤ vec_len data ∧ 8 ≤ consumed
  | Err _ => True
  end.
Proof.
  intros Hm. assert (header_need magic data = if vec_len data <? 8 then 8 else Z.max 8 (u32_at data 4)) as -> by (by destruct Hm as [-> | ->]).
  unfold parse_stream_metadata. destruct (Z.ltb_spec (vec_len data) 8); [done|].
  destruct (Z.ltb_spec (u32_at data 4) 8); [done|]. destruct (Z.ltb_spec (vec_len data) (u32_at data 4)); lia.
Qed.

(** ** The invariant *)

Definition carry_ok (carry : list Z) : Prop :=
  carry = [] ∨
  ∃ magic, starts_with magic carry ∧ vec_len carry < header_need magic carry ∧ vec_len carry ≤ MAX_MEDIA_HEADER ∧ Forall is_byte carry.
(** An accumulator never holds more than its frame. *)
Definition video_ok (a : VideoAccum) : Prop := vec_len (va_data a) ≤ va_expected a ≤ MAX_MEDIA_FRAME.
Definition audio_ok (a : AudioAccum) : Prop := vec_len (aa_data a) ≤ aa_expected a < 2 ^ 16.
Record session_ok (s : Session) : Prop := {
  so_carry : carry_ok (s_header_carry s);
  so_pending : vec_len (s_pending s) ≤ MAX_PENDING;
  so_idx : 0 ≤ s_pending_idx s ≤ vec_len (s_pending s);
  so_ranges : Forall (λ e, 0 ≤ pe_start e ∧ 0 ≤ pe_len e ∧ pe_start e + pe_len e ≤ vec_len (s_media_out s)) (s_pending s);
  so_video : map_Forall (λ _, video_ok) (s_video_accums s);
  so_audio : map_Forall (λ _, audio_ok) (s_audio_accums s)
}.
Definition accums (s : Session) : nat := size (s_video_accums s) + size (s_audio_accums s).

Lemma session_ok_ext s s' :
  s_header_carry s' = s_header_carry s → s_pending s' = s_pending s → s_pending_idx s' = s_pending_idx s →
  s_media_out s' = s_media_out s →
  (session_ok s → map_Forall (λ _, video_ok) (s_video_accums s')) → (session_ok s → map_Forall (λ _, audio_ok) (s_audio_accums s')) →
  session_ok s → session_ok s'.
Proof.
  intros E1 E2 E3 E4 Hv Ha Hs. pose proof Hs as [H1 H2 H3 H4 _ _].
  constructor; rewrite ?E1, ?E2, ?E3, ?E4; auto.
Qed.
(** Solves [session_ok] of a session that differs from [s] in its accumulators only. *)
Ltac same_session s :=
  apply (session_ok_ext s); try done; try (intros Hok; apply Hok);
  try (intros Hok; first [apply map_Forall_delete, Hok | apply map_Forall_insert_2; [|apply Hok] | apply map_Forall_insert_2; [|apply map_Forall_delete, Hok]]).

Lemma push_ok s e media :
  session_ok s → pending_is_full s = false → 0 ≤ pe_start e → 0 ≤ pe_len e → pe_start e + pe_len e ≤ vec_len (s_media_out s ++ media) →
  session_ok (set_pending (s_pending s ++ [e]) (s_media_out s ++ media) s).
Proof.
  intros [H1 H2 H3 H4 H5 H6] Hf He1 He2 He3. unfold pending_is_full in Hf. apply Z.leb_gt in Hf.
  assert (vec_len (s_pending s ++ [e]) = vec_len (s_pending s) + 1) as Hl by (rewrite vec_len_app; done).
  constructor; cbn [set_pending s_header_carry s_pending s_pending_idx s_media_out]; rewrite ?Hl; [done|lia|lia| |done|done].
  apply Forall_app. split; [|by apply Forall_singleton]. eapply Forall_impl; [exact H4|]. cbn. intros e' He'.
  rewrite vec_len_app. pose proof (vec_len_pos media). lia.
Qed.
Lemma push_media_ok kind data s : session_ok s → pending_is_full s = false → session_ok (push_media kind data s).
Proof.
  intros Hs Hf. apply push_ok; [done|done|apply vec_len_pos|apply vec_len_pos|]. cbn. by rewrite vec_len_app.
Qed.
Lemma push_video_ok id ch key codec us data s :
  session_ok s → pending_is_full s = false → session_ok (push_video id ch key codec us data s).
Proof. intros Hs Hf. apply push_media_ok; [|done]. same_session s. Qed.
Lemma push_pending_ok kind s :
  session_ok s → pending_is_full s = false → session_ok (push_pending (mk_pending kind 0 0) s).
Proof.
  intros Hs Hf. unfold push_pending. rewrite <-(app_nil_r (s_media_out s)). apply push_ok; [done|done|done|done|].
  rewrite app_nil_r. apply vec_len_pos.
Qed.

(** A result of a step: an error or not, it leaves a session that is well formed. *)
Definition returns (m : step) : Prop := ∃ v s', m = Ret (v, s') ∧ session_ok s'.
Lemma returns_now v s : session_ok s → returns (Ret (v, s)).
Proof. intros Hs. by exists v, s. Qed.
#[local] Hint Resolve returns_now : core.

Lemma emit_video_ok id ch key codec us data s : session_ok s → session_ok (emit_video_frame id ch key codec us data s).
Proof. intros Hs. unfold emit_video_frame. destruct data; [done|]. destruct (pending_is_full s) eqn:Hf; [done|]. by apply push_video_ok. Qed.
Lemma emit_audio_ok id codec data s : session_ok s → session_ok (emit_audio_frame id codec data s).
Proof. intros Hs. unfold emit_audio_frame. destruct data; [done|]. destruct (pending_is_full s) eqn:Hf; [done|]. by apply push_media_ok. Qed.
Lemma note_metadata_ok id info s : session_ok s → session_ok (note_metadata id info s).
Proof.
  intros Hs. unfold note_metadata. assert (session_ok (set_routing (set_last (Some info) (s_routing s)) s)) as Hs1 by (same_session s).
  destruct (pending_is_full _) eqn:Hf; [done|]. by apply push_pending_ok.
Qed.
Lemma set_carry_ok carry s : session_ok s → carry_ok carry → session_ok (set_carry carry s).
Proof. intros [H1 H2 H3 H4 H5 H6] Hc. by constructor. Qed.
Lemma stash_ok magic body s :
  session_ok s → Forall is_byte body → starts_with magic body → vec_len body < header_need magic body → session_ok (stash_header_carry body s).
Proof.
  intros Hs Hb Hm Hn. unfold stash_header_carry. destruct (_ || _) eqn:E; [done|]. apply orb_false_iff in E as [_ E]. apply Z.ltb_ge in E.
  apply set_carry_ok; [done|]. apply or_intror. by exists magic.
Qed.

Section total.
Context (read_xml : list Z → list (result unit ReadEvent)).
Context (subs_order : gmap Z StreamSubscriptionEntry → list (Z * StreamSubscriptionEntry)).
Context (codec_order : gmap (Z * VideoCodec) Z → list (Z * VideoCodec * Z)).

Lemma discard_ok key s : session_ok s → session_ok (discard_accums key s).
Proof. intros Hs. same_session s. Qed.
Lemma size_delete_le {V} k (m : gmap Z V) : (size (delete k m) ≤ size m)%nat.
Proof. apply map_subseteq_size, delete_subseteq. Qed.
Lemma discard_accums_le key s : (accums (discard_accums key s) ≤ accums s)%nat.
Proof.
  unfold accums. cbn. pose proof (size_delete_le key (s_video_accums s)). pose proof (size_delete_le key (s_audio_accums s)). lia.
Qed.
Lemma size_insert_le {V} k (v : V) (m : gmap Z V) : (size (<[k := v]> m) ≤ 1 + size m)%nat.
Proof. rewrite map_size_insert. destruct (m !! k); cbn; lia. Qed.

Lemma resolve_frame_ok id hint ch codec s resolved key s' :
  resolve_frame subs_order codec_order id hint ch codec s = (resolved, key, s') → session_ok s →
  session_ok s' ∧ (accums s' ≤ accums s)%nat.
Proof.
  unfold resolve_frame. destruct (resolve_video_stream_id _ _ _ _ _ _ _) as [r rt]. intros [= _ _ <-] Hs.
  split; [same_session s|]. apply (discard_accums_le _ (set_routing rt s)).
Qed.

(** ** Frames that start in a body *)

Definition continues (n : nat) (again : list Z → Z → Session → step) : Prop :=
  ∀ rest id s, (length rest < n)%nat → Forall is_byte rest → session_ok s → returns (again rest id s).

Lemma rest_returns again body id s k :
  continues (length body) again → Forall is_byte body → session_ok s → 0 < k → k < vec_len body →
  returns (again (drop (Z.to_nat k) body) id s).
Proof.
  intros Ha Hb Hs Hk Hl. apply Ha; [|by apply Forall_drop|done]. rewrite length_drop. unfold vec_len in Hl. lia.
Qed.

Lemma start_info_returns again magic body id s :
  continues (length body) again → magic = InfoV1 ∨ magic = InfoV2 → Forall is_byte body → starts_with magic body → session_ok s →
  returns (start_info again body id s).
Proof.
  intros Ha Hm Hb Hst Hs. unfold start_info. pose proof (parse_info_need magic body Hm) as Hp.
  destruct (parse_stream_metadata body) as [[info c]|e]; [|destruct e; auto; by apply returns_now, (stash_ok magic)].
  destruct Hp as (_ & _ & Hc). pose proof (align8_ge c). destruct (Z.ltb_spec (align8 c) (vec_len body)).
  - apply rest_returns; [done|done|by apply note_metadata_ok|lia|done].
  - by apply returns_now, note_metadata_ok.
Qed.
Lemma start_video_returns again magic ch key body id s :
  continues (length body) again → (∃ channel, magic = IFrame channel ∨ magic = PFrame channel) → Forall is_byte body → starts_with magic body →
  session_ok s → returns (start_video subs_order codec_order again ch key body id s).
Proof.
  intros Ha Hm Hb Hst Hs. unfold start_video. pose proof (parse_video_need magic body Hb Hm) as Hp.
  destruct (parse_video_header body) as [[[[[codec dl] us] ht] hint]|e]; [|destruct e; auto; by apply returns_now, (stash_ok magic)].
  destruct Hp as (Hneed & H24 & Hht & Hdl). destruct (Z.ltb_spec (vec_len body) ht); [apply returns_now, (stash_ok magic); try done; lia|].
  destruct (resolve_frame _ _ _ _ _ _ _) as [[resolved akey] s1] eqn:E. apply resolve_frame_ok in E as [Hs1 _]; [|done].
  destruct (Z.leb_spec dl (vec_len (drop (Z.to_nat ht) body))); [|apply returns_now; same_session s1; unfold video_ok; cbn; lia].
  pose proof (padding_len_range dl). destruct (Z.ltb_spec (ht + dl + padding_len dl) (vec_len body)).
  - apply rest_returns; [done|done|by apply emit_video_ok|lia|done].
  - by apply returns_now, emit_video_ok.
Qed.
Lemma start_audio_returns again magic body id s :
  continues (length body) again → magic = AacAudio ∨ magic = AdpcmAudio → Forall is_byte body → starts_with magic body → session_ok s →
  returns (start_audio again magic body id s).
Proof.
  intros Ha Hm Hb Hst Hs. unfold start_audio. pose proof (parse_audio_need magic body Hb Hm) as Hp.
  destruct (parse_audio_header magic body) as [[dl hl]|e]; [|destruct e; auto; by apply returns_now, (stash_ok magic)].
  destruct Hp as (_ & _ & Hhl & Hdl). destruct (Z.leb_spec (hl + dl) (vec_len body));
    [|apply returns_now; same_session s; unfold audio_ok; cbn [aa_data aa_expected]; rewrite vec_len_drop; lia].
  pose proof (align8_ge (hl + dl)). destruct (Z.ltb_spec (align8 (hl + dl)) (vec_len body)).
  - apply rest_returns; [done|done|by apply emit_audio_ok, discard_ok|lia|done].
  - by apply returns_now, emit_audio_ok, discard_ok.
Qed.
Lemma start_frame_returns again magic body id s :
  continues (length body) again → Forall is_byte body → starts_with magic body → session_ok s →
  returns (start_frame subs_order codec_order again magic body id s).
Proof.
  intros Ha Hb Hst Hs. destruct magic as [| |ch|ch| |]; cbn [start_frame].
  - apply start_info_returns with InfoV1; auto.
  - apply start_info_returns with InfoV2; auto.
  - apply start_video_returns with (IFrame ch); eauto.
  - apply start_video_returns with (PFrame ch); eauto.
  - apply start_audio_returns; auto.
  - apply start_audio_returns; auto.
Qed.
Lemma remaining_returns fuel body id s :
  (length body < fuel)%nat → Forall is_byte body → session_ok s → returns (dispatch_remaining_media subs_order codec_order fuel body id s).
Proof.
  revert body id s. induction fuel as [|fuel IH]; intros body id s Hf Hb Hs; [lia|]. cbn [dispatch_remaining_media].
  destruct (Z.ltb_spec (vec_len body) 4); cbn [orb]; [auto|]. destruct (pending_is_full s); [auto|].
  destruct (from_u32 _) as [magic|] eqn:E; [|auto]. apply start_frame_returns; [|done|by split|done].
  intros rest id' s' Hr Hb' Hs'. apply IH; [lia|done|done].
Qed.
Lemma media_start_returns magic body id s :
  Forall is_byte body → starts_with magic body → session_ok s → returns (dispatch_media_start subs_order codec_order magic body id s).
Proof.
  intros Hb Hst Hs. apply start_frame_returns; [|done|done|done]. intros rest id' s' Hr Hb' Hs'. apply remaining_returns; [lia|done|done].
Qed.

Lemma offset_loop_some count offset body k magic :
  media_offset_loop count offset body = Some (k, magic) → starts_with magic (drop k body) ∧ (offset ≤ k < offset + count)%nat.
Proof.
  revert offset. induction count as [|count IH]; intros offset; [done|]. cbn [media_offset_loop].
  destruct (Nat.ltb_spec (length body) (offset + 4)); [done|]. destruct (_ && _); [done|].
  destruct (from_u32 (u32_at body offset)) as [m|] eqn:E; [intros [= <- <-]|intros [Hs Hr]%IH; split; [done|lia]].
  split; [|lia]. split; [rewrite vec_len_drop; unfold vec_len; lia|]. unfold u32_at in *. by rewrite drop_drop, Nat.add_0_r.
Qed.

(** ** Bodies that continue *)

Definition resumes (n : nat) (again : list Z → Session → step) : Prop :=
  ∀ rest s, (2 * length rest + accums s < n)%nat → Forall is_byte rest → session_ok s → returns (again rest s).

Lemma skip_returns n again copied padding body s :
  resumes n again → Forall is_byte body → session_ok s → (copied < vec_len body → (2 * length body + accums s < n)%nat) →
  returns (skip_padding again copied padding body s).
Proof.
  intros Ha Hb Hs Hn. unfold skip_padding. destruct (Z.ltb_spec copied (vec_len body)) as [Hc|]; [|auto].
  destruct (drop _ body) as [|b rest] eqn:E; [auto|]. rewrite <-E. apply Ha; [|by apply Forall_drop|done].
  specialize (Hn Hc). rewrite length_drop. lia.
Qed.
Lemma accum_bytes_ok expected data : expected ≤ vec_len data → accum_bytes expected data = Ret (take (Z.to_nat expected) data).
Proof. intros H. unfold accum_bytes. by rewrite (proj2 (Z.ltb_ge _ _)). Qed.

Lemma append_audio_returns n again key body s :
  resumes n again → Forall is_byte body → session_ok s → (2 * length body + accums s ≤ n)%nat →
  returns (append_audio_continuation again key body s).
Proof.
  intros Ha Hb Hs Hn. unfold append_audio_continuation. destruct (s_audio_accums s !! key) as [a|] eqn:Ek; [|auto].
  set (to_copy := Z.min _ _). cbn [aa_data aa_expected aa_padding].
  destruct (Z.ltb_spec (vec_len (aa_data a ++ take (Z.to_nat to_copy) body)) (aa_expected a)) as [|Hfull].
  { pose proof (so_audio _ Hs _ _ Ek) as [_ ?]. apply returns_now. same_session s. split; cbn [aa_data aa_expected]; lia. }
  set (s1 := set_audio_accums _ s). assert (session_ok s1) as Hs1 by (same_session s).
  assert (S (accums s1) = accums s)%nat as Hacc.
  { unfold accums, s1. cbn. rewrite map_size_delete_Some by (by exists a). assert (size (s_audio_accums s) ≠ 0%nat); [|lia].
    intros Hz%map_size_empty_inv. by rewrite Hz in Ek. }
  unfold emit_audio_accum. cbn [aa_expected aa_data aa_stream_id aa_codec]. destruct (aa_expected a =? 0); cbn [obind].
  { apply (skip_returns n); [done|done|done|lia]. }
  destruct (pending_is_full s1) eqn:Hf; cbn [obind]; [apply (skip_returns n); [done|done|done|lia]|].
  rewrite accum_bytes_ok by done. cbn [obind]. apply (skip_returns n); [done|done|by apply push_media_ok|].
  change (accums (push_media _ _ s1)) with (accums s1). lia.
Qed.
Lemma append_video_returns n again key a body s :
  resumes n again → Forall is_byte body → session_ok s → (2 * length body + accums s ≤ n)%nat → s_video_accums s !! key = Some a →
  returns (append_video_continuation again key a body s).
Proof.
  intros Ha Hb Hs Hn Ek. unfold append_video_continuation. set (to_copy := Z.min _ _). set (a' := mk_video_accum _ _ _ _ _ _ _).
  unfold try_complete_video_accum. cbn [set_video_accums s_video_accums]. rewrite lookup_insert_eq. cbn [a' va_expected va_data].
  destruct (Z.leb_spec (va_expected a) (vec_len (va_data a ++ take (Z.to_nat to_copy) body))) as [Hfull|Hpart]; cbn [obind].
  - set (s1 := set_video_accums _ (set_video_accums _ s)). assert (session_ok s1) as Hs1.
    { same_session s. cbn. rewrite delete_insert_eq. intros Hok. apply map_Forall_delete, Hok. }
    assert (S (accums s1) = accums s)%nat as Hacc.
    { unfold accums, s1. cbn. rewrite delete_insert_eq, map_size_delete_Some by (by exists a).
      assert (size (s_video_accums s) ≠ 0%nat); [|lia]. intros Hz%map_size_empty_inv. by rewrite Hz in Ek. }
    destruct (pending_is_full s1) eqn:Hf; cbn [obind]; [apply (skip_returns n); [done|done|done|lia]|].
    rewrite accum_bytes_ok by done. cbn [obind]. apply (skip_returns n); [done|done|by apply push_video_ok|].
    change (accums (push_video _ _ _ _ _ _ s1)) with (accums s1). lia.
  - pose proof (so_video _ Hs _ _ Ek) as [_ ?]. apply (skip_returns n); [done|done|same_session s; unfold video_ok; cbn [a' va_data va_expected]; lia|]. intros Hc. exfalso. rewrite vec_len_app, vec_len_take in Hpart.
    unfold to_copy, saturating_sub in *. lia.
Qed.

Lemma resume_rest_returns n again need carry_len body s :
  resumes n again → Forall is_byte body → session_ok s → carry_len < need → need - carry_len ≤ vec_len body →
  (2 * length body + accums s < n + 2)%nat → returns (resume_rest again need carry_len body s).
Proof.
  intros Ha Hb Hs Hc Hl Hn. unfold resume_rest, plain_sub. rewrite (proj2 (Z.leb_le _ _)) by lia. cbn [obind].
  rewrite (proj2 (Z.leb_le _ _)) by lia. cbn [obind]. apply Ha; [|by apply Forall_drop|done]. rewrite length_drop. unfold vec_len in Hl. lia.
Qed.
Lemma keep_carry_ok magic carry s :
  session_ok s → Forall is_byte carry → starts_with magic carry → vec_len carry < header_need magic carry → session_ok (keep_carry carry s).
Proof.
  intros Hs Hb Hst Hn. unfold keep_carry. destruct (Z.ltb_spec (vec_len carry) MAX_MEDIA_HEADER); [|done].
  apply set_carry_ok; [done|]. apply or_intror. exists magic. split; [done|]. split; [done|]. split; [lia|done].
Qed.

Lemma insert_accums_le key a s :
  (accums (set_video_accums (<[key := a]> (s_video_accums s)) s) ≤ 1 + accums s)%nat.
Proof. unfold accums. cbn. pose proof (size_insert_le key a (s_video_accums s)). lia. Qed.

(** [carry] extends the carried header by [taken] bytes of the body. *)
Section resume.
Context (n : nat) (again : list Z → Session → step) (Hagain : resumes n again).
Context (magic : MediaMagic) (old body : list Z) (taken : Z).
Context (Htaken : 0 ≤ taken ≤ vec_len body) (Hbytes : Forall is_byte body).
Context (Hold : Forall is_byte old) (Hst : starts_with magic old) (Hneed : vec_len old < header_need magic old).
#[local] Notation carry := (old ++ take (Z.to_nat taken) body).

Lemma carry_bytes : Forall is_byte carry.
Proof. apply Forall_app. split; [done|]. by apply Forall_take. Qed.
Lemma carry_starts : starts_with magic carry.
Proof. by apply starts_with_app. Qed.
Lemma carry_need : vec_len old < header_need magic carry.
Proof. apply header_need_app; [apply carry_bytes|done]. Qed.
Lemma carry_len : vec_len carry = vec_len old + taken.
Proof. rewrite vec_len_app, vec_len_take. lia. Qed.
#[local] Hint Resolve carry_bytes carry_starts : core.

Lemma keep_returns s : session_ok s → vec_len carry < header_need magic carry → returns (Ret (Ok tt, keep_carry carry s)).
Proof. intros Hs Hn. apply returns_now. by apply (keep_carry_ok magic); auto. Qed.

Lemma resume_video_returns ch key id s :
  (∃ channel, magic = IFrame channel ∨ magic = PFrame channel) → session_ok s → (2 * length body + accums s ≤ n)%nat →
  returns (resume_video subs_order codec_order again ch key carry (vec_len old) body id s).
Proof.
  intros Hm Hs Hn. unfold resume_video. pose proof (parse_video_need magic carry carry_bytes Hm) as Hp.
  destruct (parse_video_header carry) as [[[[[codec dl] us] ht] hint]|e]; [|destruct e; auto; by apply keep_returns].
  destruct Hp as (Ht & _ & Hht & Hdl). pose proof carry_need as Hcn. rewrite (proj2 (Z.ltb_ge MAX_MEDIA_HEADER ht)) by lia.
  destruct (Z.ltb_spec (vec_len carry) ht) as [|Hge]; [apply keep_returns; [done|lia]|].
  destruct (resolve_frame _ _ _ _ _ _ _) as [[resolved akey] s1] eqn:E. apply resolve_frame_ok in E as [Hs1 Hacc]; [|done].
  rewrite carry_len in Hge. set (a := mk_video_accum _ _ _ _ _ _ _). pose proof (insert_accums_le akey a s1).
  apply (resume_rest_returns n); [done|done|same_session s1; unfold video_ok, a; cbn [va_data va_expected]; change (vec_len []) with 0; lia|lia|lia|lia].
Qed.
Lemma resume_audio_returns id s :
  magic = AacAudio ∨ magic = AdpcmAudio → session_ok s → (2 * length body + accums s ≤ n)%nat →
  returns (resume_audio again magic carry (vec_len old) body id s).
Proof.
  intros Hm Hs Hn. unfold resume_audio. pose proof (parse_audio_need magic carry carry_bytes Hm) as Hp.
  destruct (parse_audio_header magic carry) as [[dl hl]|e]; [|destruct e; auto; by apply keep_returns].
  destruct Hp as (Ht & Hge & Hhl & Hdl). pose proof carry_need as Hcn. rewrite carry_len in Hge.
  set (a := mk_audio_accum _ _ _ _ _). pose proof (discard_accums_le id s) as Hd. pose proof (size_insert_le id a (s_audio_accums (discard_accums id s))).
  apply (resume_rest_returns n); [done|done|same_session s; unfold audio_ok, a; cbn [aa_data aa_expected]; change (vec_len []) with 0; lia|lia|lia|].
  unfold accums in *. cbn in *. lia.
Qed.
Lemma resume_info_returns id s :
  magic = InfoV1 ∨ magic = InfoV2 → session_ok s → (2 * length body + accums s ≤ n)%nat →
  returns (resume_info again carry (vec_len old) body id s).
Proof.
  intros Hm Hs Hn. unfold resume_info. pose proof (parse_info_need magic carry Hm) as Hp.
  destruct (parse_stream_metadata carry) as [[info c]|e]; [|destruct e; auto; by apply keep_returns].
  destruct Hp as (Ht & Hge & Hc). pose proof carry_need as Hcn. pose proof (align8_ge c). unfold saturating_sub.
  assert (session_ok (note_metadata id info s)) as Hs1 by (by apply note_metadata_ok).
  assert (accums (note_metadata id info s) = accums s) as Hacc by (unfold note_metadata; by destruct (pending_is_full _)).
  destruct (Z.leb_spec (vec_len body) (Z.max 0 (align8 c - vec_len old))); [auto|].
  apply Hagain; [|by apply Forall_drop|done]. rewrite length_drop, Hacc. unfold vec_len in *. lia.
Qed.
End resume.

Lemma resume_header_returns n again body id s :
  resumes n again → Forall is_byte body → session_ok s → s_header_carry s ≠ [] → (2 * length body + accums s ≤ n)%nat →
  returns (resume_header_carry subs_order codec_order again body id s).
Proof.
  intros Ha Hb Hs Hne Hn. destruct (so_carry _ Hs) as [|(magic & Hst & Hneed & Hmax & Hold)]; [done|]. unfold resume_header_carry.
  set (taken := Z.min _ _). assert (0 ≤ taken ≤ vec_len body) as Ht.
  { unfold taken, saturating_sub. pose proof (vec_len_pos body). lia. }
  assert (session_ok (set_carry [] s)) as Hs1 by (apply set_carry_ok; [done|by apply or_introl]).
  rewrite (starts_with_offset magic) by (by apply starts_with_app).
  destruct magic as [| |ch|ch| |].
  - eapply resume_info_returns; eauto.
  - eapply resume_info_returns; eauto.
  - eapply resume_video_returns; eauto.
  - eapply resume_video_returns; eauto.
  - eapply resume_audio_returns; eauto.
  - eapply resume_audio_returns; eauto.
Qed.

(** ** The dispatcher *)

Lemma dispatch_loop_returns fuel id offset body s :
  (2 * length body + accums s < fuel)%nat → Forall is_byte body → session_ok s →
  returns (dispatch_loop read_xml subs_order codec_order fuel id offset body s).
Proof.
  revert body s. induction fuel as [|fuel IH]; intros body s Hf Hb Hs; [lia|]. cbn [dispatch_loop].
  set (again := dispatch_loop _ _ _ fuel id offset). assert (resumes fuel again) as Ha by (intros rest s' Hr Hbr Hs'; by apply IH).
  destruct body as [|b body0]; [auto|]. set (body := b :: body0) in *.
  destruct (s_header_carry s) as [|c carry] eqn:Ec; [|apply (resume_header_returns fuel); [done|done|done|by rewrite Ec|lia]].
  destruct (media_frame_offset body) as [[offset' magic]|] eqn:Eo.
  { apply offset_loop_some in Eo as [Hst _]. apply media_start_returns; [by apply Forall_drop|done|done]. }
  destruct (pending_audio_key s) as [key|]; [apply (append_audio_returns fuel); [done|done|done|lia]|].
  destruct (continued_video id s) as [[key a]|] eqn:Ev.
  { apply (append_video_returns fuel); [done|done|done|lia|]. unfold continued_video in Ev.
    destruct (s_video_accums s !! id) as [a'|] eqn:E1; [by simplify_eq|].
    destruct (map_to_list (s_video_accums s)) as [|p [|]] eqn:E2; simplify_eq. apply elem_of_map_to_list. rewrite E2. by apply list_elem_of_singleton. }
  destruct (b =? 60).
  { apply returns_now. unfold stream_started. set (s1 := set_routing _ s). assert (session_ok s1) as Hs1 by (same_session s).
    destruct (pending_is_full s1) eqn:Hfull; [same_session s1|]. pose proof (push_pending_ok EkStreamStarted s1 Hs1 Hfull) as Hs2.
    same_session (push_pending (mk_pending EkStreamStarted 0 0) s1). }
  destruct (find_media_magic body) as [k|] eqn:Ek; [|auto]. apply List.find_some in Ek as [Hk%in_seq _].
  apply Ha; [|by apply Forall_drop|done]. rewrite length_drop. lia.
Qed.
Lemma dispatch_returns id offset body s :
  Forall is_byte body → session_ok s → returns (dispatch_stream read_xml subs_order codec_order id offset body s).
Proof. intros Hb Hs. apply dispatch_loop_returns; [unfold accums; lia|done|done]. Qed.

Lemma poll_event_returns n s :
  session_ok s → ∃ v s', poll_event n s = Ret (v, s') ∧ session_ok s' ∧
    (v = Ok None → s_pending_idx s = vec_len (s_pending s)).
Proof.
  intros Hs. pose proof Hs as [H1 H2 H3 H4 H5 H6]. unfold poll_event.
  destruct (s_pending s !! Z.to_nat (s_pending_idx s)) as [e|] eqn:Ee.
  2: { exists (Ok None), s. split; [done|]. split; [done|]. intros _. apply lookup_ge_None in Ee. unfold vec_len in *. lia. }
  destruct (needs_buf _ && _); [by eexists _, s|].
  rewrite Forall_forall in H4. pose proof (list_elem_of_lookup_2 _ _ _ Ee) as Hin. specialize (H4 _ Hin). cbn in H4.
  assert (∃ ev, event_of e s = Ret ev) as [ev ->].
  { unfold event_of, media_slice. rewrite (proj2 (Z.ltb_ge _ _)) by lia. destruct (pe_kind e); by eexists. }
  cbn [obind]. eexists _, _. split; [done|]. split; [|done]. apply lookup_lt_Some in Ee.
  destruct (Z.leb_spec (vec_len (s_pending s)) (s_pending_idx s + 1)); constructor; cbn; try done; try lia; apply Hs.
Qed.

(** ** Runs *)

Inductive StreamOp :=
| SBody (stream_id : Z) (payload_offset : option Z) (body : list Z)
| SPoll (n : Z).
Definition stream_step (op : StreamOp) (s : Session) : outcome Session :=
  match op with
  | SBody id offset body => let! (_, s) := dispatch_stream read_xml subs_order codec_order id offset body s in Ret s
  | SPoll n => let! (_, s) := poll_event n s in Ret s
  end.
Fixpoint stream_run (ops : list StreamOp) (s : Session) : outcome Session :=
  match ops with
  | [] => Ret s
  | op :: ops' => let! s := stream_step op s in stream_run ops' s
  end.
Definition op_bytes (op : StreamOp) : Prop := match op with SBody _ _ body => Forall is_byte body | SPoll _ => True end.

Lemma stream_run_ok ops s : Forall op_bytes ops → session_ok s → ∃ s', stream_run ops s = Ret s' ∧ session_ok s'.
Proof.
  intros Hops. revert s. induction Hops as [|op ops Hop Hops IH]; intros s Hs; [by exists s|]. cbn [stream_run].
  destruct op as [id offset body|n]; cbn [stream_step].
  - destruct (dispatch_returns id offset body s Hop Hs) as (v & s' & -> & Hs'). cbn [obind]. by apply IH.
  - destruct (poll_event_returns n s Hs) as (v & s' & -> & Hs' & _). cbn [obind]. by apply IH.
Qed.
End total.

(** A session that has received no stream data. *)
Definition session_fresh (r : Routing) : Session := mk_session r [] 0 [] ∅ ∅ ∅ [] 0.
Lemma session_fresh_ok r : session_ok (session_fresh r).
Proof. constructor; try done; try apply map_Forall_empty. by apply or_introl. Qed.

(** C40. Whatever bytes the bodies of stream messages hold, on whatever streams and
    interleaved with polls of any buffer size, no dispatch panics or runs forever and no
    poll panics; a carried header stays within 512 bytes, at most 128 events are pending
    with their data in place, and no accumulator outgrows its declared frame of at most
    4 MiB of video or 64 KiB of audio.  The depth of the calls is not part of this: the
    two functions that dispatch a body call each other once per frame of it. *)
Theorem stream_total read_xml subs_order codec_order r ops :
  Forall op_bytes ops →
  ∃ s, stream_run read_xml subs_order codec_order ops (session_fresh r) = Ret s ∧
    vec_len (s_header_carry s) ≤ MAX_MEDIA_HEADER ∧ vec_len (s_pending s) ≤ MAX_PENDING ∧
    map_Forall (λ _, video_ok) (s_video_accums s) ∧ map_Forall (λ _, audio_ok) (s_audio_accums s) ∧
    ∀ e, e ∈ s_pending s → ∃ event, event_of e s = Ret event.
Proof.
  intros Hops. destruct (stream_run_ok read_xml subs_order codec_order ops _ Hops (session_fresh_ok r)) as (s & E & [H1 H2 H3 H4 H5 H6]).
  exists s. split; [done|]. split; [|split; [done|split; [done|split; [done|]]]].
  - destruct H1 as [-> | (magic & _ & _ & H & _)]; [done|done].
  - intros e He. rewrite Forall_forall in H4. specialize (H4 e He) as (? & ? & ?). unfold event_of, media_slice.
    rewrite (proj2 (Z.ltb_ge _ _)) by lia. destruct (pe_kind e); by eexists.
Qed.

(** Bodies that split a header, name an unknown codec, continue nothing or hold garbage. *)
Definition garbage_ops : list StreamOp :=
  [SBody 1 None (u32_le MEDIA_MAGIC_AAC ++ [9]); SBody 0 (Some 3) [0; 9; 0; 1; 2]; SBody 7 None (u32_le MEDIA_MAGIC_IFRAME_BASE ++ seqZ 0 30);
   SPoll 0; SBody 1 None (seqZ 1 40); SPoll 100; SBody 2 None [60; 61; 62]; SBody 1 None []].
Lemma stream_total_witness :
  ∃ s, stream_run (λ _, []) map_to_list map_to_list garbage_ops (session_fresh (mk_routing ∅ ∅ [] ∅ ∅ ∅ ∅ None)) = Ret s ∧
    vec_len (s_pending s) ≤ MAX_PENDING.
Proof.
  destruct (stream_total (λ _, []) map_to_list map_to_list (mk_routing ∅ ∅ [] ∅ ∅ ∅ ∅ None) garbage_ops) as (s & E & _ & Hp & _).
  - repeat constructor; try (vm_compute; intuition congruence); cbn; lia.
  - by exists s.
Defined.

(** ** How deep the calls go

    Each frame of a body is dispatched by a call inside the call for the frame before it.
    Audio frames without data leave no event, so the queue does not stop them: a body of
    [n] of them needs [n] nested calls.  The fuel of the model counts these calls. *)
Definition empty_frames (n : nat) : list Z := concat (replicate n (u32_le MEDIA_MAGIC_AAC ++ [0; 0; 0; 0])).
Example empty_frames_nest :
  let s := session_fresh (mk_routing ∅ ∅ [] ∅ ∅ ∅ ∅ None) in
  vec_len (empty_frames 300) = 2400 ∧
  dispatch_remaining_media map_to_list map_to_list 299 (empty_frames 300) 1 s = Panic ∧
  match dispatch_remaining_media map_to_list map_to_list 300 (empty_frames 300) 1 s with
  | Ret (_, s') => s_pending s' = []
  | _ => False
  end.
Proof. by vm_compute. Qed.
