(* ===== verification/ReoChunks.v ===== *)
(** * Frames do not depend on how a stream is cut into messages

    A stream of frames, cut at any multiples of eight bytes into message bodies, gives
    the same events; they are the frames the iterator of [media.rs] finds in the whole. *)

From S2P Require Import Prelude ReoWire ReoFraming ReoUdp ReoDiscovery ReoMedia ReoStream ReoAssembly ReoAssemblyInv.

(** ** Streams *)

Inductive WireFrame :=
| WInfo (v2 : bool) (info : StreamMetadata)
| WVideo (frame : VideoFrameRef) (hint : Z) (extension : list Z)
| WAac (v2 : bool) (payload : list Z)
| WAdpcm (half_block : Z) (payload : list Z).

Definition timestamp_bytes (t : option BcTimestamp) : list Z :=
  match t with
  | Some t => [ts_year t - 2000; ts_month t; ts_day t; ts_hour t; ts_minute t; ts_second t]
  | None => replicate 6 0
  end.
Definition codec_tag (codec : VideoCodec) : list Z := match codec with H264 => [72; 50; 54; 52] | H265 => [72; 50; 54; 53] end.

Definition wf_magic (f : WireFrame) : MediaMagic :=
  match f with
  | WInfo v2 _ => if v2 then InfoV2 else InfoV1
  | WVideo v _ _ => if vr_is_keyframe v then IFrame (vr_channel v) else PFrame (vr_channel v)
  | WAac _ _ => AacAudio
  | WAdpcm _ _ => AdpcmAudio
  end.
Definition wf_word (f : WireFrame) : Z :=
  match f with WAac true _ => MEDIA_MAGIC_AAC_V2 | _ => to_u32 (wf_magic f) end.
Definition wf_payload (f : WireFrame) : list Z :=
  match f with
  | WInfo _ _ => []
  | WVideo v _ _ => vr_data v
  | WAac _ payload | WAdpcm _ payload => payload
  end.
(** The header; a stream info has its full 32 bytes. *)
Definition wf_fields (f : WireFrame) : list Z :=
  match f with
  | WInfo _ info =>
      u32_le 32 ++ u32_le (sm_width info) ++ u32_le (sm_height info) ++ [0; sm_fps info]
      ++ timestamp_bytes (sm_start_time info) ++ timestamp_bytes (sm_end_time info) ++ [0; 0]
  | WVideo v hint extension =>
      codec_tag (vr_codec v) ++ u32_le (vec_len (vr_data v)) ++ u32_le (vec_len extension) ++ u32_le (vr_microseconds v)
      ++ u32_le hint ++ extension
  | WAac _ payload => to_le 2 (vec_len payload) ++ to_le 2 (vec_len payload)
  | WAdpcm half_block payload =>
      to_le 2 (vec_len payload + 4) ++ to_le 2 (vec_len payload + 4) ++ to_le 2 0x0100 ++ to_le 2 half_block
  end.
Definition wf_header (f : WireFrame) : list Z := u32_le (wf_word f) ++ wf_fields f.
Definition wf_padding (f : WireFrame) : Z :=
  match f with
  | WVideo v _ _ => padding_len (vec_len (vr_data v))
  | _ => let frame_end := vec_len (wf_header f) + vec_len (wf_payload f) in align8 frame_end - frame_end
  end.
Definition wf_bytes (f : WireFrame) : list Z :=
  wf_header f ++ wf_payload f ++ replicate (Z.to_nat (wf_padding f)) 0.
Definition wire_stream (fs : list WireFrame) : list Z := concat (wf_bytes <$> fs).

(** The fields fit the wire format, and a payload is there and not too long. *)
Definition timestamp_fits (t : option BcTimestamp) : Prop := ∃ t', t = Some t'.
Definition wf_ok (f : WireFrame) : Prop :=
  match f with
  | WInfo _ info =>
      in_u32 (sm_width info) ∧ in_u32 (sm_height info) ∧ timestamp_fits (sm_start_time info) ∧ timestamp_fits (sm_end_time info)
  | WVideo v hint extension =>
      0 ≤ vr_channel v ≤ 9 ∧ 0 < vec_len (vr_data v) ≤ MAX_MEDIA_FRAME ∧ in_u32 (vr_microseconds v) ∧ in_u32 hint ∧
      vec_len extension mod 8 = 0 ∧ 24 + vec_len extension ≤ MAX_MEDIA_HEADER
  | WAac _ payload => 0 < vec_len payload < 2 ^ 16
  | WAdpcm half_block payload => 0 < vec_len payload < 2 ^ 16 - 4 ∧ 0 ≤ half_block < 2 ^ 16
  end.

(** Where a body may begin inside a payload, the payload does not look like a frame. *)
Definition quiet_frame (f : WireFrame) (rest : list Z) : Prop :=
  ∀ j, (j < length (wf_payload f))%nat → j = 0%nat ∨ (vec_len (wf_header f) + Z.of_nat j) mod 8 = 0 →
    media_frame_offset (drop j (wf_payload f ++ replicate (Z.to_nat (wf_padding f)) 0 ++ rest)) = None.
Fixpoint quiet (fs : list WireFrame) : Prop :=
  match fs with
  | [] => True
  | f :: fs' => quiet_frame f (wire_stream fs') ∧ quiet fs'
  end.

(** ** What the frames mean *)

Definition media_of (f : WireFrame) : MediaFrame :=
  match f with
  | WInfo _ info => MInfo info
  | WVideo v _ _ => MVideo v
  | WAac _ payload => MAudio (mk_audio_ref Aac payload (audio_frame_duration Aac payload))
  | WAdpcm _ payload => MAudio (mk_audio_ref Adpcm payload (audio_frame_duration Adpcm payload))
  end.
Fixpoint events_of (id : Z) (tl : MicrosecondTimeline) (fs : list MediaFrame) : list Event :=
  match fs with
  | [] => []
  | MInfo info :: fs' => StreamMetadataEvent id info :: events_of id tl fs'
  | MVideo v :: fs' =>
      let tl := timeline_advance (vr_microseconds v) tl in
      VideoFrameEvent id (vr_channel v) (vr_is_keyframe v) (vr_codec v) (vr_data v) (tl_elapsed tl) :: events_of id tl fs'
  | MAudio a :: fs' => AudioFrameEvent id (ar_codec a) (ar_data a) (ar_duration a) :: events_of id tl fs'
  end.

(** ** Headers parse *)

Lemma to_le_at2 pre x l n : length pre = n → 0 ≤ x < 2 ^ 16 → u16_at (pre ++ to_le 2 x ++ l) n = x.
Proof.
  intros <- Hx. unfold u16_at. rewrite drop_app_length. rewrite take_app_length' by (by rewrite to_le_length). apply from_to_le. done.
Qed.

Lemma video_word key n :
  (n < 10)%nat → let magic := if key : bool then IFrame (Z.of_nat n) else PFrame (Z.of_nat n) in
  from_u32 (to_u32 magic) = Some magic ∧ in_u32 (to_u32 magic).
Proof.
  intros Hn. do 10 (destruct n as [|n]; [destruct key; (split; [reflexivity|split; vm_compute; discriminate])|]). lia.
Qed.
Lemma magic_word f : wf_ok f → from_u32 (wf_word f) = Some (wf_magic f) ∧ in_u32 (wf_word f).
Proof.
  destruct f as [v2 info|v hint ext|v2 p|h p]; cbn [wf_ok wf_word wf_magic].
  - intros _. destruct v2; (split; [reflexivity|split; vm_compute; discriminate]).
  - intros (Hch & _). destruct (video_word (vr_is_keyframe v) (Z.to_nat (vr_channel v))) as [H1 H2]; [lia|].
    rewrite Z2Nat.id in H1, H2 by lia. by destruct (vr_is_keyframe v).
  - intros _. destruct v2; (split; [reflexivity|split; vm_compute; discriminate]).
  - intros _. split; [reflexivity|split; vm_compute; discriminate].
Qed.
Lemma header_starts f k : wf_ok f → starts_with (wf_magic f) (wf_header f ++ k).
Proof.
  intros Hf. destruct (magic_word f Hf) as [H1 H2]. unfold wf_header. split.
  - unfold vec_len. rewrite !length_app, u32_le_length. lia.
  - rewrite <-app_assoc. pose proof (u32_at_le [] (wf_word f) (wf_fields f ++ k) 0 eq_refl H2) as E. cbn [app] in E. by rewrite E.
Qed.

Lemma info_header v2 info k :
  wf_ok (WInfo v2 info) → parse_stream_metadata (wf_header (WInfo v2 info) ++ k) = Ok (info, 32).
Proof.
  intros (Hw & Hh & [s Es] & [e Ee]). destruct info as [w h fps st en]; cbn [sm_width sm_height sm_fps sm_start_time sm_end_time] in *. subst st en.
  destruct s as [sy smo sd sh smi ss], e as [ey emo ed eh emi es]. unfold parse_stream_metadata.
  set (data := (wf_header _ ++ k)%list). assert (32 ≤ vec_len data) as Hlen.
  { unfold data, wf_header, vec_len. cbn [wf_fields sm_width sm_height]. rewrite !length_app, !u32_le_length. cbn [length timestamp_bytes sm_start_time sm_end_time]. lia. }
  rewrite (proj2 (Z.ltb_ge _ _)) by lia.
  change (u32_at data 4) with (from_le (u32_le 32)). rewrite from_u32_le by (split; vm_compute; discriminate).
  change (32 <? 8) with false. cbn iota. rewrite (proj2 (Z.ltb_ge _ _)) by lia.
  change (12 <=? 32) with true. change (16 <=? 32) with true. change (18 <=? 32) with true. change (24 <=? 32) with true. change (30 <=? 32) with true.
  cbn iota. change (u32_at data 8) with (from_le (u32_le w)). change (u32_at data 12) with (from_le (u32_le h)). rewrite !from_u32_le by done.
  change (byte_at data 17) with fps.
  change (timestamp_at data 18) with (mk_timestamp (2000 + (sy - 2000)) smo sd sh smi ss).
  change (timestamp_at data 24) with (mk_timestamp (2000 + (ey - 2000)) emo ed eh emi es). by rewrite !Zplus_minus.
Qed.
Lemma codec_of_tag codec : video_codec_of (codec_tag codec) = Some codec.
Proof. by destruct codec. Qed.
Lemma codec_tag_cons codec : ∃ a b c d, codec_tag codec = [a; b; c; d].
Proof. destruct codec; by do 4 eexists. Qed.
Lemma video_header v hint ext k :
  wf_ok (WVideo v hint ext) →
  parse_video_header (wf_header (WVideo v hint ext) ++ k) =
    Ok (vr_codec v, vec_len (vr_data v), vr_microseconds v, vec_len (wf_header (WVideo v hint ext)), hint).
Proof.
  intros (Hch & Hlen & Hus & Hhint & Hmod & Hmax). change MAX_MEDIA_FRAME with 4194304 in *. change MAX_MEDIA_HEADER with 512 in *.
  assert (vec_len (wf_header (WVideo v hint ext)) = 24 + vec_len ext) as ->.
  { unfold wf_header, vec_len. cbn [wf_fields]. rewrite !length_app, !u32_le_length. by destruct (vr_codec v); cbn [length codec_tag]; lia. }
  unfold parse_video_header. destruct (codec_tag_cons (vr_codec v)) as (a & b & c & d & Et).
  unfold wf_header. cbn [wf_fields]. rewrite Et. set (data := (_ ++ k)%list).
  assert (24 ≤ vec_len data) as Hdata by (unfold data, vec_len; rewrite !length_app, !u32_le_length; cbn [length]; lia).
  rewrite (proj2 (Z.ltb_ge _ _)) by lia. change (take 4 (drop 4 data)) with [a; b; c; d]. rewrite <-Et, codec_of_tag.
  change (u32_at data 8) with (from_le (u32_le (vec_len (vr_data v)))). change (u32_at data 12) with (from_le (u32_le (vec_len ext))).
  change (u32_at data 16) with (from_le (u32_le (vr_microseconds v))). change (u32_at data 20) with (from_le (u32_le hint)).
  pose proof (vec_len_pos ext). rewrite !from_u32_le; try done; try (split; [lia|change u32_max with (2 ^ 32 - 1); lia]).
  change MAX_MEDIA_FRAME with 4194304. rewrite (proj2 (Z.ltb_ge _ _)) by lia. unfold checked_add. rewrite (proj2 (Z.leb_le _ usize_max)) by (change usize_max with (2 ^ 64 - 1); lia).
  change MAX_MEDIA_HEADER with 512. by rewrite (proj2 (Z.leb_le _ _)) by lia.
Qed.

(** The codec of an audio frame. *)
Definition wf_audio (f : WireFrame) : bool := match f with WAac _ _ | WAdpcm _ _ => true | _ => false end.
Lemma audio_header f k :
  wf_ok f → wf_audio f = true →
  parse_audio_header (wf_magic f) (wf_header f ++ k) = Ok (vec_len (wf_payload f), vec_len (wf_header f)).
Proof.
  destruct f as [| |v2 p|half p]; try done; cbn [wf_ok wf_magic parse_audio_header wf_payload]; intros Hp _; unfold wf_header; cbn [wf_fields].
  - unfold parse_aac_header. set (data := (_ ++ k)%list).
    assert (8 ≤ vec_len data) as Hdata by (unfold data, vec_len; rewrite !length_app, !to_le_length, u32_le_length; lia).
    rewrite (proj2 (Z.ltb_ge _ _)) by lia. change (u16_at data 4) with (from_le (to_le 2 (vec_len p))).
    rewrite from_to_le by (change (256 ^ Z.of_nat 2) with (2 ^ 16); lia). by destruct v2.
  - destruct Hp as [Hp Hh]. unfold parse_adpcm_header. set (data := (_ ++ k)%list).
    assert (12 ≤ vec_len data) as Hdata by (unfold data, vec_len; rewrite !length_app, !to_le_length, u32_le_length; lia).
    rewrite (proj2 (Z.ltb_ge _ _)) by lia. change (u16_at data 4) with (from_le (to_le 2 (vec_len p + 4))).
    rewrite from_to_le by (change (256 ^ Z.of_nat 2) with (2 ^ 16); lia). rewrite (proj2 (Z.ltb_ge _ _)) by lia.
    change (u16_at data 8 =? 0x0100) with true. cbn [negb]. by rewrite Z.add_simpl_r.
Qed.

(** ** Lengths *)

Lemma header_length f :
  wf_ok f → vec_len (wf_header f) = match f with WInfo _ _ => 32 | WVideo _ _ ext => 24 + vec_len ext | WAac _ _ => 8 | WAdpcm _ _ => 12 end.
Proof.
  unfold wf_header. destruct f as [v2 info|v hint ext|v2 p|half p]; cbn [wf_ok wf_fields]; intros Hf; unfold vec_len;
    rewrite !length_app, ?u32_le_length, ?to_le_length; cbn [length]; try lia.
  - destruct Hf as (_ & _ & [s ->] & [e ->]). cbn [timestamp_bytes length]. lia.
  - destruct (vr_codec v); cbn [codec_tag length]; lia.
Qed.
Lemma header_max f : wf_ok f → 8 ≤ vec_len (wf_header f) ≤ MAX_MEDIA_HEADER.
Proof.
  intros Hf. rewrite header_length by done. change MAX_MEDIA_HEADER with 512. destruct f as [| v hint ext| |]; try lia.
  destruct Hf as (_ & _ & _ & _ & _ & Hmax). change MAX_MEDIA_HEADER with 512 in Hmax. pose proof (vec_len_pos ext). lia.
Qed.
Lemma padding_range f : 0 ≤ wf_padding f < 8.
Proof.
  unfold wf_padding. destruct f as [| v hint ext| |]; [|apply padding_len_range|..];
    match goal with |- context [align8 ?n] => pose proof (align8_ge n); lia end.
Qed.
Lemma align8_mod n : align8 n mod 8 = 0.
Proof. rewrite align8_eq. by apply Z.mod_mul. Qed.
Lemma padding_mod n : (n + padding_len n) mod 8 = 0.
Proof.
  unfold padding_len. rewrite Zplus_mod_idemp_r. replace (n + (8 - n mod 8)) with (1 * 8 + (n - n mod 8)) by lia.
  rewrite Z.add_comm, Z_mod_plus_full, Zminus_mod_idemp_r, Z.sub_diag. done.
Qed.
Lemma frame_length f : vec_len (wf_bytes f) = vec_len (wf_header f) + vec_len (wf_payload f) + wf_padding f.
Proof.
  unfold wf_bytes. rewrite !vec_len_app. unfold vec_len at 3. rewrite length_replicate. pose proof (padding_range f). lia.
Qed.
Lemma frame_aligned f : wf_ok f → vec_len (wf_bytes f) mod 8 = 0.
Proof.
  intros Hf. rewrite frame_length. destruct f as [v2 info|v hint ext|v2 p|half p]; unfold wf_padding;
    try (rewrite Zplus_minus; apply align8_mod).
  rewrite header_length by done. destruct Hf as (_ & _ & _ & _ & Hmod & _). cbn [wf_payload].
  replace (24 + vec_len ext + vec_len (vr_data v) + padding_len (vec_len (vr_data v)))
    with (vec_len ext + (3 * 8 + (vec_len (vr_data v) + padding_len (vec_len (vr_data v))))) by lia.
  rewrite Zplus_mod, Hmod, (Z.add_comm (3 * 8)), Z_mod_plus_full, padding_mod. done.
Qed.
Lemma stream_cons f fs : wire_stream (f :: fs) = wf_bytes f ++ wire_stream fs.
Proof. done. Qed.
Lemma stream_aligned fs : Forall wf_ok fs → vec_len (wire_stream fs) mod 8 = 0.
Proof.
  induction 1 as [|f fs Hf Hfs IH]; [done|]. rewrite stream_cons, vec_len_app, Zplus_mod, frame_aligned by done. by rewrite IH.
Qed.

(** ** Incomplete headers *)

Lemma parse_video_prefix c k : 24 ≤ vec_len c → parse_video_header (c ++ k) = parse_video_header c.
Proof.
  intros Hc. unfold vec_len in Hc. unfold parse_video_header. rewrite !(proj2 (Z.ltb_ge _ 24)) by (unfold vec_len; rewrite ?length_app; lia).
  rewrite drop_app_le, take_app_le, !u32_at_prefix by (rewrite ?length_drop; lia). done.
Qed.
Definition needs_header (f : WireFrame) (c : list Z) : Prop :=
  match f with
  | WInfo _ _ => parse_stream_metadata c = Err Incomplete
  | WVideo v hint ext =>
      parse_video_header c = Err Incomplete ∨
      parse_video_header c = Ok (vr_codec v, vec_len (vr_data v), vr_microseconds v, vec_len (wf_header f), hint)
  | WAac _ _ | WAdpcm _ _ => parse_audio_header (wf_magic f) c = Err Incomplete
  end.
Lemma header_prefix f c h :
  wf_ok f → wf_header f = c ++ h → h ≠ [] → 4 ≤ vec_len c → needs_header f c ∧ starts_with (wf_magic f) c ∧ vec_len c < vec_len (wf_header f).
Proof.
  intros Hf E Hh Hc. assert (vec_len c < vec_len (wf_header f)) as Hlt by (rewrite E, vec_len_app; destruct h; [done|unfold vec_len; cbn [length]; lia]).
  split; [|split; [|done]].
  - pose proof (header_length f Hf) as Hl. destruct f as [v2 info|v hint ext|v2 p|half p]; cbn [needs_header].
    + unfold parse_stream_metadata. destruct (Z.ltb_spec (vec_len c) 8); [done|].
      pose proof (info_header v2 info [] Hf) as Hp. rewrite app_nil_r, E in Hp. unfold parse_stream_metadata in Hp.
      destruct (Z.ltb_spec (vec_len (c ++ h)) 8); [done|]. rewrite u32_at_prefix in Hp by (unfold vec_len in *; lia).
      destruct (_ <? 8); [done|]. destruct (vec_len (c ++ h) <? u32_at c 4); [done|]. injection Hp as _ Hz. rewrite Hz.
      by rewrite (proj2 (Z.ltb_lt _ _)) by lia.
    + destruct (Z.lt_ge_cases (vec_len c) 24) as [H24|H24].
      * apply or_introl. unfold parse_video_header. by rewrite (proj2 (Z.ltb_lt _ _)) by lia.
      * apply or_intror. rewrite <-(parse_video_prefix c h) by lia. rewrite <-E, <-(app_nil_r (wf_header _)) at 1. by apply video_header.
    + cbn. unfold parse_aac_header. by rewrite (proj2 (Z.ltb_lt _ _)) by lia.
    + cbn. unfold parse_adpcm_header. by rewrite (proj2 (Z.ltb_lt _ _)) by lia.
  - destruct (header_starts f [] Hf) as [_ Hs]. rewrite app_nil_r, E, u32_at_prefix in Hs by (unfold vec_len in Hc; lia). by split.
Qed.

(** ** The iterator finds the frames *)

Lemma take_middle {A} (a b c : list A) : take (Z.to_nat (vec_len b)) (drop (Z.to_nat (vec_len a)) (a ++ b ++ c)) = b.
Proof. unfold vec_len. rewrite !Nat2Z.id, drop_app_length. apply take_app_length. Qed.
Lemma bytes_app f rest : wf_bytes f ++ rest = wf_header f ++ wf_payload f ++ replicate (Z.to_nat (wf_padding f)) 0 ++ rest.
Proof. unfold wf_bytes. by rewrite <-!app_assoc. Qed.

Lemma parse_next_frame fuel f rest it :
  wf_ok f → iter_remaining it = wf_bytes f ++ rest → it_pos it ≤ vec_len (it_data it) →
  parse_next (S fuel) it = Ret (Ok (Some (media_of f)), iter_advance (vec_len (wf_bytes f)) it).
Proof.
  intros Hf Hr Hpos. cbn [parse_next]. rewrite (proj2 (Z.ltb_ge _ _)) by done.
  assert (starts_with (wf_magic f) (iter_remaining it)) as [H4 Hm] by (rewrite Hr, bytes_app; by apply header_starts).
  rewrite (proj2 (Z.ltb_ge _ _)) by lia. rewrite Hm. pose proof (frame_length f) as Hlen. pose proof (padding_range f) as Hpad.
  pose proof (vec_len_pos rest) as Hrest.
  assert (vec_len (wf_header f) + vec_len (wf_payload f) ≤ vec_len (iter_remaining it)) as Hall by (rewrite Hr, vec_len_app; lia).
  destruct f as [v2 info|v hint ext|v2 p|half p].
  - assert (parse_stream_metadata (iter_remaining it) = Ok (info, 32)) as E by (rewrite Hr, bytes_app; by apply info_header).
    assert (align8 32 = vec_len (wf_bytes (WInfo v2 info))) as <-.
    { rewrite Hlen. unfold wf_padding. rewrite header_length by done. cbn [wf_payload]. reflexivity. }
    by destruct v2; cbn [wf_magic]; rewrite E.
  - assert (iter_video (vr_channel v) (vr_is_keyframe v) it
      = (Ok (Some (MVideo v)), iter_advance (vec_len (wf_bytes (WVideo v hint ext))) it)) as Ev;
      [|by destruct (vr_is_keyframe v) eqn:Ek; cbn [wf_magic]; rewrite Ek, Ev].
    unfold iter_video. rewrite Hr, bytes_app, video_header, <-bytes_app, <-Hr by done.
    rewrite (proj2 (Z.ltb_ge _ _)) by done. rewrite Hr, bytes_app, take_middle, Hlen. by destruct v.
  - cbn [wf_magic]. unfold iter_audio. pose proof (audio_header (WAac v2 p) (p ++ replicate (Z.to_nat (wf_padding (WAac v2 p))) 0 ++ rest) Hf eq_refl) as E.
    cbn [wf_magic parse_audio_header] in E. rewrite Hr, bytes_app. cbn [wf_payload] in *. rewrite E, <-bytes_app, <-Hr, (proj2 (Z.ltb_ge _ _)) by done.
    rewrite Hr, bytes_app. cbn [wf_payload]. rewrite take_middle, Hlen. unfold wf_padding. cbn [wf_payload]. by rewrite Zplus_minus.
  - cbn [wf_magic]. unfold iter_audio. pose proof (audio_header (WAdpcm half p) (p ++ replicate (Z.to_nat (wf_padding (WAdpcm half p))) 0 ++ rest) Hf eq_refl) as E.
    cbn [wf_magic parse_audio_header] in E. rewrite Hr, bytes_app. cbn [wf_payload] in *. rewrite E, <-bytes_app, <-Hr, (proj2 (Z.ltb_ge _ _)) by done.
    rewrite Hr, bytes_app. cbn [wf_payload]. rewrite take_middle, Hlen. unfold wf_padding. cbn [wf_payload]. by rewrite Zplus_minus.
Qed.

Lemma collect_frames fuel pre fs :
  Forall wf_ok fs → (length (wire_stream fs) < fuel)%nat →
  iter_collect fuel (mk_iter (pre ++ wire_stream fs) (vec_len pre)) = Ret (Ok <$> (media_of <$> fs)).
Proof.
  intros Hfs. revert fuel pre. induction Hfs as [|f fs Hf Hfs IH]; intros fuel pre Hfuel; (destruct fuel as [|fuel]; [lia|]); cbn [iter_collect].
  { unfold iter_next. cbn [it_data it_pos]. rewrite app_nil_r, (proj2 (Z.leb_le _ _)) by done. done. }
  unfold iter_next. cbn [it_data it_pos]. rewrite stream_cons in *. pose proof (header_max f Hf) as Hh. pose proof (padding_range f).
  pose proof (frame_length f) as Hlen. pose proof (vec_len_pos (wf_payload f)). pose proof (vec_len_pos (wire_stream fs)).
  rewrite (proj2 (Z.leb_gt _ _)) by (rewrite !vec_len_app; lia).
  rewrite (parse_next_frame _ f (wire_stream fs)); [|done| |]; cbn [it_data it_pos].
  2: { unfold iter_remaining. cbn [it_data it_pos]. unfold vec_len. by rewrite Nat2Z.id, drop_app_length. }
  2: { rewrite !vec_len_app. lia. }
  cbn [obind]. unfold iter_advance. cbn [it_data it_pos]. rewrite app_assoc, <-vec_len_app. rewrite IH; [done|].
  rewrite length_app in Hfuel. unfold vec_len in *. lia.
Qed.
Lemma iterator_exact fs : Forall wf_ok fs → parse_media_frames (wire_stream fs) = Ret (Ok <$> (media_of <$> fs)).
Proof. intros Hfs. unfold parse_media_frames. apply (collect_frames _ []); [done|]. lia. Qed.

(** ** Cutting a stream *)

Lemma cut_at {A} (b tail x y : list A) :
  b ++ tail = x ++ y → (∃ z, z ≠ [] ∧ x = b ++ z ∧ tail = z ++ y) ∨ (∃ b', b = x ++ b' ∧ b' ++ tail = y).
Proof.
  intros E. apply app_eq_inv in E as [(z & -> & ->)|(z & -> & ->)]; [apply or_intror; by exists z|].
  destruct z as [|a z]; [apply or_intror; exists []; by rewrite !app_nil_r|apply or_introl; by exists (a :: z)].
Qed.
Lemma cut_payload (b tail p pad rest : list Z) :
  b ++ tail = p ++ pad ++ rest → vec_len tail mod 8 = 0 → vec_len rest mod 8 = 0 → vec_len pad < 8 →
  (∃ z, z ≠ [] ∧ p = b ++ z ∧ tail = z ++ pad ++ rest) ∨ (∃ b', b = p ++ pad ++ b' ∧ b' ++ tail = rest).
Proof.
  intros E Ht Hr Hp. destruct (cut_at _ _ _ _ E) as [?|(b1 & -> & E1)]; [by apply or_introl|apply or_intror].
  destruct (cut_at _ _ _ _ E1) as [(z & Hz & -> & ->)|(b2 & -> & E2)]; [exfalso|by exists b2].
  rewrite vec_len_app in Ht, Hp. assert (vec_len z mod 8 = 0) as Hmod.
  { rewrite Zplus_mod, Hr, Z.add_0_r, Z.mod_mod in Ht by done. done. }
  assert (0 < vec_len z) by (destruct z; [done|unfold vec_len; cbn [length]; lia]). pose proof (vec_len_pos b1).
  rewrite Z.mod_small in Hmod by lia. lia.
Qed.

(** ** The session in the middle of a stream *)

Definition subscribed (id : Z) (s : Session) : Prop := id ≠ 0 ∧ is_Some (rt_stream_subs_by_id (s_routing s) !! id).
Record ready (id : Z) (s : Session) : Prop := {
  rd_carry : s_header_carry s = [];
  rd_video : s_video_accums s = ∅;
  rd_audio : s_audio_accums s = ∅;
  rd_subscribed : subscribed id s
}.
(** The first bytes of a payload are held by an accumulator. *)
Definition holding (id : Z) (f : WireFrame) (d : list Z) (s : Session) : Prop :=
  s_header_carry s = [] ∧ subscribed id s ∧
  match f with
  | WInfo _ _ => False
  | WVideo v _ _ =>
      s_audio_accums s = ∅ ∧
      s_video_accums s = {[id := mk_video_accum id (vr_channel v) (vr_is_keyframe v) (vr_codec v) (vr_microseconds v) (vec_len (vr_data v)) d]}
  | WAac _ _ | WAdpcm _ _ =>
      s_video_accums s = ∅ ∧
      s_audio_accums s = {[id := mk_audio_accum id (audio_codec_of (wf_magic f)) (vec_len (wf_payload f)) (wf_padding f) d]}
  end.

Notation pad f := (replicate (Z.to_nat (wf_padding f)) 0).
(** The session waits for the bytes of [rest], which complete the frames. *)
Inductive mid (id : Z) : Session → list Z → list WireFrame → Prop :=
| mid_ready s fs : ready id s → mid id s (wire_stream fs) fs
| mid_header s c h f fs :
    s_header_carry s = c → s_video_accums s = ∅ → s_audio_accums s = ∅ → subscribed id s →
    wf_header f = c ++ h → h ≠ [] → 4 ≤ vec_len c → mid id s (h ++ wf_payload f ++ pad f ++ wire_stream fs) (f :: fs)
| mid_payload s d p f fs :
    holding id f d s → wf_payload f = d ++ p → p ≠ [] → mid id s (p ++ pad f ++ wire_stream fs) (f :: fs).

(** What a frame adds to the pending events. *)
Definition frame_push (id : Z) (s : Session) (f : WireFrame) : Session :=
  match f with
  | WInfo _ info => push_pending (mk_pending (EkMediaInfo id info) 0 0) s
  | WVideo v _ _ => push_video id (vr_channel v) (vr_is_keyframe v) (vr_codec v) (vr_microseconds v) (vr_data v) s
  | WAac _ p => push_media (EkAudioFrame id Aac) p s
  | WAdpcm _ p => push_media (EkAudioFrame id Adpcm) p s
  end.
Definition push_all (id : Z) : Session → list WireFrame → Session := foldl (frame_push id).
Definition out (s : Session) : list PendingEvent * list Z * gmap Z MicrosecondTimeline :=
  (s_pending s, s_media_out s, s_video_timestamps s).

Lemma frame_push_out id f s s' : out s = out s' → out (frame_push id s f) = out (frame_push id s' f).
Proof.
  unfold out. intros [= E1 E2 E3]. destruct f; cbn; by rewrite E1, E2, ?E3.
Qed.
Lemma push_all_out id fs s s' : out s = out s' → out (push_all id s fs) = out (push_all id s' fs).
Proof.
  revert s s'. induction fs as [|f fs IH]; intros s s' E; [done|]. cbn. apply IH. by apply frame_push_out.
Qed.

Definition reaches (id : Z) (tail : list Z) (fs : list WireFrame) (s : Session) (m : step) : Prop :=
  ∃ s' fs1 fs2, m = Ret (Ok tt, s') ∧ fs = fs1 ++ fs2 ∧ mid id s' tail fs2 ∧ out s' = out (push_all id s fs1) ∧
    s_pending_idx s' = s_pending_idx s ∧ s_active_streams s' = s_active_streams s.

Lemma reaches_now id tail fs s s' :
  mid id s' tail fs → out s' = out s → s_pending_idx s' = s_pending_idx s → s_active_streams s' = s_active_streams s →
  reaches id tail fs s (Ret (Ok tt, s')).
Proof. intros Hm Ho Hi Ha. by exists s', [], fs. Qed.
Lemma reaches_push id tail f fs s s1 m :
  out s1 = out (frame_push id s f) → s_pending_idx s1 = s_pending_idx s → s_active_streams s1 = s_active_streams s →
  reaches id tail fs s1 m → reaches id tail (f :: fs) s m.
Proof.
  intros Ho Hi Ha (s' & fs1 & fs2 & -> & -> & Hm & Ho' & Hi' & Ha'). exists s', (f :: fs1), fs2. split; [done|]. split; [done|]. split; [done|].
  split; [|by split; congruence]. rewrite Ho'. by apply (push_all_out id fs1 s1 (frame_push id s f)).
Qed.

(** Frames of at least [m] bytes leave room for their events. *)
Definition room (m : Z) (n : Z) (s : Session) : Prop := m * vec_len (s_pending s) + n ≤ MAX_PENDING * m.
Lemma room_not_full m n s : 0 < m → 0 < n → room m n s → pending_is_full s = false.
Proof.
  intros Hm Hn Hr. unfold room, pending_is_full in *. apply Z.leb_gt. nia.
Qed.
Lemma frame_push_pending id f s : vec_len (s_pending (frame_push id s f)) = vec_len (s_pending s) + 1.
Proof. destruct f; cbn [frame_push push_pending push_video push_media set_pending s_pending set_timestamps]; by rewrite vec_len_app. Qed.

Lemma resolve_subscribed subs_order codec_order id hint ch codec s :
  subscribed id s → ∃ r, resolve_frame subs_order codec_order id hint ch codec s = (id, id, discard_accums id (set_routing r s)) ∧
    subscribed id (discard_accums id (set_routing r s)).
Proof.
  intros [Hid Hsub]. unfold resolve_frame, resolve_video_stream_id. rewrite (proj2 (Z.eqb_neq _ _)) by done.
  rewrite bool_decide_true by done. cbn [negb andb]. eexists. split; [done|]. by split.
Qed.

Section chunks.
Context (read_xml : list Z → list (result unit ReadEvent)).
Context (subs_order : gmap Z StreamSubscriptionEntry → list (Z * StreamSubscriptionEntry)).
Context (codec_order : gmap (Z * VideoCodec) Z → list (Z * VideoCodec * Z)).
Context (id m : Z) (Hm : 0 < m).

Definition frame_ok (f : WireFrame) : Prop := wf_ok f ∧ m ≤ vec_len (wf_bytes f).
Lemma frames_wf fs : Forall frame_ok fs → Forall wf_ok fs.
Proof. intros H. eapply Forall_impl; [exact H|]. by intros f [Hf _]. Qed.
Lemma pad_short f : vec_len (pad f) = wf_padding f.
Proof. unfold vec_len. rewrite length_replicate. pose proof (padding_range f). lia. Qed.
Lemma drop_bytes (a b : list Z) : drop (Z.to_nat (vec_len a)) (a ++ b) = b.
Proof. unfold vec_len. by rewrite Nat2Z.id, drop_app_length. Qed.
Lemma take_bytes (a b : list Z) : take (Z.to_nat (vec_len a)) (a ++ b) = a.
Proof. unfold vec_len. by rewrite Nat2Z.id, take_app_length. Qed.
Lemma vec_len_nonempty {A} (l : list A) : l ≠ [] → 0 < vec_len l.
Proof. destruct l; [done|]. unfold vec_len. cbn [length]. lia. Qed.

(** ** Frames that start in a body *)

Section starts.
Context (tail : list Z) (Htail : vec_len tail mod 8 = 0).
Context (again : list Z → Z → Session → step) (b : list Z).
Context (Hagain : ∀ b' fs s, (length b' < length b)%nat → b' ≠ [] → b' ++ tail = wire_stream fs → Forall frame_ok fs → ready id s →
  room m (vec_len b') s → reaches id tail fs s (again b' id s)).
Context (f : WireFrame) (fs : list WireFrame) (Hf : frame_ok f) (Hfs : Forall frame_ok fs).
Context (s : Session) (Hs : ready id s) (Hroom : room m (vec_len b) s) (Hb : 8 ≤ vec_len b).

Lemma start_finish b' s1 :
  b = wf_bytes f ++ b' → b' ++ tail = wire_stream fs → ready id s1 → out s1 = out (frame_push id s f) →
  s_pending_idx s1 = s_pending_idx s → s_active_streams s1 = s_active_streams s →
  reaches id tail (f :: fs) s
    (if vec_len (wf_bytes f) <? vec_len b then again (drop (Z.to_nat (vec_len (wf_bytes f))) b) id s1 else Ret (Ok tt, s1)).
Proof.
  intros Eb Et Hs1 Ho Hi Ha. apply (reaches_push id tail f fs s s1); [done|done|done|]. pose proof (header_max f (proj1 Hf)) as Hh.
  pose proof (frame_length f) as Hl. pose proof (padding_range f). pose proof (vec_len_pos (wf_payload f)).
  destruct (Z.ltb_spec (vec_len (wf_bytes f)) (vec_len b)) as [Hlt|Hge].
  - rewrite Eb in Hlt |- *. rewrite vec_len_app in Hlt. rewrite drop_bytes. apply Hagain; [|intros ->; change (vec_len []) with 0 in Hlt; lia|done|done|done|].
    + rewrite Eb, length_app. unfold vec_len in *. lia.
    + unfold room in *. rewrite Eb, vec_len_app in Hroom. unfold out in Ho. injection Ho as -> _ _. rewrite frame_push_pending.
      destruct Hf as [_ Hmin]. lia.
  - rewrite Eb, vec_len_app in Hge. destruct b' as [|x b']; [|unfold vec_len in Hge; cbn [length] in Hge; lia]. cbn [app] in Et. rewrite Et.
    apply reaches_now; [by constructor|done|done|done].
Qed.
(** The body ends inside the header. *)
Lemma start_stash h :
  wf_header f = b ++ h → h ≠ [] → tail = h ++ wf_payload f ++ pad f ++ wire_stream fs →
  reaches id tail (f :: fs) s (Ret (Ok tt, stash_header_carry b s)).
Proof.
  intros E Hh Et. pose proof (header_max f (proj1 Hf)) as Hmax. destruct (header_prefix f b h (proj1 Hf) E Hh ltac:(lia)) as (_ & _ & Hlt).
  unfold stash_header_carry. rewrite (proj2 (Z.eqb_neq _ 0)) by lia. cbn [orb]. rewrite (proj2 (Z.ltb_ge _ _)) by lia.
  apply reaches_now; [|done|done|done]. rewrite Et. by apply mid_header with b; [|apply Hs|apply Hs|apply Hs| | |lia].
Qed.

Lemma start_info_reaches v2 info :
  f = WInfo v2 info → b ++ tail = wire_stream (f :: fs) → reaches id tail (f :: fs) s (start_info again b id s).
Proof.
  intros Ef E. rewrite stream_cons, bytes_app in E. unfold start_info.
  destruct (cut_at _ _ _ _ E) as [(h & Hh & Eh & Eh2)|(b1 & Eb & E1)].
  { destruct (header_prefix f b h (proj1 Hf) Eh Hh ltac:(lia)) as (Hn & _). rewrite Ef in Hn. cbn [needs_header] in Hn. rewrite Hn. by apply (start_stash h). }
  destruct (cut_payload _ _ _ _ _ E1 Htail (stream_aligned _ (frames_wf _ Hfs))) as [(z & Hz & Ez & _)|(b' & Eb' & Et)];
    [rewrite pad_short; apply padding_range|rewrite Ef in Ez; by destruct b1; destruct z|].
  assert (b = wf_bytes f ++ b') as Ebf by (by rewrite Eb, Eb', bytes_app).
  assert (parse_stream_metadata b = Ok (info, 32)) as -> by (rewrite Eb, Ef; apply info_header; rewrite <-Ef; apply Hf).
  assert (align8 32 = vec_len (wf_bytes f)) as ->.
  { rewrite frame_length. unfold wf_padding. rewrite header_length by apply Hf. by rewrite Ef. }
  unfold note_metadata. change (pending_is_full (set_routing _ s)) with (pending_is_full s). rewrite (room_not_full m (vec_len b)) by (done || lia).
  eapply start_finish; [done|done| |by rewrite Ef|done|done]. by destruct Hs.
Qed.

Lemma start_video_reaches v hint ext :
  f = WVideo v hint ext → b ++ tail = wire_stream (f :: fs) →
  reaches id tail (f :: fs) s (start_video subs_order codec_order again (vr_channel v) (vr_is_keyframe v) b id s).
Proof.
  intros Ef E. rewrite stream_cons, bytes_app in E. unfold start_video.
  destruct (cut_at _ _ _ _ E) as [(h & Hh & Eh & Eh2)|(b1 & Eb & E1)].
  { destruct (header_prefix f b h (proj1 Hf) Eh Hh ltac:(lia)) as (Hn & _ & Hlt). rewrite Ef in Hn. cbn [needs_header] in Hn.
    destruct Hn as [-> | ->]; [by apply (start_stash h)|]. rewrite <-Ef, (proj2 (Z.ltb_lt _ _)) by done. by apply (start_stash h). }
  assert (parse_video_header b = Ok (vr_codec v, vec_len (vr_data v), vr_microseconds v, vec_len (wf_header f), hint)) as ->.
  { rewrite Eb, Ef. apply video_header. rewrite <-Ef. apply Hf. }
  rewrite (proj2 (Z.ltb_ge _ _)) by (rewrite Eb, vec_len_app; pose proof (vec_len_pos b1); lia).
  destruct (resolve_subscribed subs_order codec_order id hint (vr_channel v) (vr_codec v) s (rd_subscribed _ _ Hs)) as (r & -> & Hsub).
  set (s1 := discard_accums id (set_routing r s)) in *. rewrite Eb, drop_bytes. cbn zeta.
  assert (s_video_accums s1 = ∅ ∧ s_audio_accums s1 = ∅) as [Hva Haa] by (unfold s1; cbn; rewrite (rd_video _ _ Hs), (rd_audio _ _ Hs), !delete_empty; done).
  destruct (cut_payload _ _ _ _ _ E1 Htail (stream_aligned _ (frames_wf _ Hfs))) as [(z & Hz & Ez & Ez2)|(b' & Eb' & Et)].
  - rewrite pad_short. apply padding_range.
  - assert (vr_data v = b1 ++ z) as Ev by (by rewrite <-Ez, Ef). pose proof (vec_len_nonempty z Hz).
    rewrite (proj2 (Z.leb_gt _ _)) by (rewrite Ev, vec_len_app; lia).
    apply reaches_now; [|done|done|done]. rewrite Ez2. apply (mid_payload id _ b1 z f fs); [|done|done]. unfold holding. rewrite Ef. cbn.
    rewrite (rd_audio _ _ Hs), (rd_video _ _ Hs), !delete_empty. split; [apply Hs|]. by split.
  - assert (wf_payload f = vr_data v) as Ep by (by rewrite Ef). rewrite Eb', Ep.
    pose proof (vec_len_pos (pad f ++ b')). rewrite (proj2 (Z.leb_le _ _)) by (rewrite vec_len_app; lia). rewrite take_bytes.
    assert (vec_len (wf_header f) + vec_len (vr_data v) + padding_len (vec_len (vr_data v)) = vec_len (wf_bytes f)) as ->
      by (rewrite frame_length, Ep, Ef; done).
    unfold emit_video_frame. destruct (vr_data v) as [|x data] eqn:Ed.
    { destruct Hf as [Hwf _]. rewrite Ef in Hwf. destruct Hwf as (_ & Hlen & _). rewrite Ed in Hlen. unfold vec_len in Hlen. cbn in Hlen. lia. }
    rewrite <-Ep, <-bytes_app. change (pending_is_full s1) with (pending_is_full s). rewrite (room_not_full m (vec_len b)) by (done || lia).
    assert (wf_bytes f ++ b' = b) as -> by (by rewrite Eb, Eb', bytes_app).
    eapply start_finish; [by rewrite Eb, Eb', bytes_app|done| |by rewrite Ef|done|done].
    constructor; [apply Hs|done|done|done].
Qed.

Lemma start_audio_reaches :
  wf_audio f = true → b ++ tail = wire_stream (f :: fs) → reaches id tail (f :: fs) s (start_audio again (wf_magic f) b id s).
Proof.
  intros Ef E. rewrite stream_cons, bytes_app in E. unfold start_audio.
  destruct (cut_at _ _ _ _ E) as [(h & Hh & Eh & Eh2)|(b1 & Eb & E1)].
  { destruct (header_prefix f b h (proj1 Hf) Eh Hh ltac:(lia)) as (Hn & _). replace (parse_audio_header (wf_magic f) b) with (@Err BcError (Z * Z) Incomplete)
      by (destruct f; done). by apply (start_stash h). }
  assert (parse_audio_header (wf_magic f) b = Ok (vec_len (wf_payload f), vec_len (wf_header f))) as -> by (rewrite Eb; apply audio_header; [apply Hf|done]).
  set (s1 := discard_accums id s). cbn zeta.
  assert (s_video_accums s1 = ∅ ∧ s_audio_accums s1 = ∅) as [Hva Haa] by (unfold s1; cbn; rewrite (rd_video _ _ Hs), (rd_audio _ _ Hs), !delete_empty; done).
  destruct (cut_payload _ _ _ _ _ E1 Htail (stream_aligned _ (frames_wf _ Hfs))) as [(z & Hz & Ez & Ez2)|(b' & Eb' & Et)].
  - rewrite pad_short. apply padding_range.
  - pose proof (vec_len_nonempty z Hz). rewrite (proj2 (Z.leb_gt _ _)) by (rewrite Ez, Eb, !vec_len_app; lia).
    apply reaches_now; [|done|done|done]. rewrite Ez2. apply (mid_payload id _ b1 z f fs); [|done|done]. unfold holding. rewrite Eb, drop_bytes.
    destruct f as [| |v2 p|half p]; try done; cbn; rewrite (rd_audio _ _ Hs), (rd_video _ _ Hs), !delete_empty; (split; [apply Hs|]; split; [apply Hs|done]).
  - pose proof (vec_len_pos (pad f ++ b')). rewrite (proj2 (Z.leb_le _ _)) by (rewrite Eb, Eb', !vec_len_app in *; lia).
    assert (take (Z.to_nat (vec_len (wf_payload f))) (drop (Z.to_nat (vec_len (wf_header f))) b) = wf_payload f) as -> by (by rewrite Eb, Eb', take_middle).
    assert (align8 (vec_len (wf_header f) + vec_len (wf_payload f)) = vec_len (wf_bytes f)) as ->.
    { rewrite frame_length. destruct f; try done; unfold wf_padding; by rewrite Zplus_minus. }
    assert (0 < vec_len (wf_payload f)) as Hpos by (destruct Hf as [Hwf _]; destruct f; try done; cbn in *; lia).
    assert (b = wf_bytes f ++ b') as Ebf by (by rewrite Eb, Eb', bytes_app).
    unfold emit_audio_frame. destruct (wf_payload f) as [|x data] eqn:Ed; [done|]. rewrite <-Ed.
    change (pending_is_full s1) with (pending_is_full s). rewrite (room_not_full m (vec_len b)) by (done || lia).
    eapply start_finish; [exact Ebf|done| |by destruct f|done|done].
    constructor; [apply Hs|done|done|apply Hs].
Qed.
End starts.

Definition goes_on (tail : list Z) (n : nat) (again : list Z → Z → Session → step) : Prop :=
  ∀ b fs s, (length b < n)%nat → b ≠ [] → b ++ tail = wire_stream fs → Forall frame_ok fs → ready id s →
    room m (vec_len b) s → reaches id tail fs s (again b id s).
Lemma start_reaches tail again b f fs s :
  vec_len tail mod 8 = 0 → goes_on tail (length b) again → frame_ok f → Forall frame_ok fs → ready id s → room m (vec_len b) s →
  8 ≤ vec_len b → b ++ tail = wire_stream (f :: fs) →
  reaches id tail (f :: fs) s (start_frame subs_order codec_order again (wf_magic f) b id s).
Proof.
  intros Ht Ha Hf Hfs Hs Hr Hb E. destruct f as [v2 info|v hint ext|v2 p|half p]; cbn [wf_magic].
  - pose proof (start_info_reaches tail Ht again b Ha _ fs Hf Hfs s Hs Hr Hb v2 info eq_refl E). by destruct v2.
  - pose proof (start_video_reaches tail Ht again b Ha _ fs Hf Hfs s Hs Hr Hb v hint ext eq_refl E) as H.
    by destruct (vr_is_keyframe v) eqn:Ek; cbn [start_frame].
  - by apply (start_audio_reaches tail Ht again b Ha _ fs Hf Hfs s Hs Hr Hb).
  - by apply (start_audio_reaches tail Ht again b Ha _ fs Hf Hfs s Hs Hr Hb).
Qed.

Lemma body_aligned b tail fs :
  b ++ tail = wire_stream fs → vec_len tail mod 8 = 0 → Forall frame_ok fs → b ≠ [] → 8 ≤ vec_len b.
Proof.
  intros E Ht Hfs Hb. pose proof (stream_aligned fs (frames_wf _ Hfs)) as Ha. rewrite <-E, vec_len_app, Zplus_mod, Ht, Z.add_0_r, Z.mod_mod in Ha by done.
  pose proof (vec_len_nonempty b Hb). destruct (Z.lt_ge_cases (vec_len b) 8); [|done]. rewrite Z.mod_small in Ha by lia. lia.
Qed.
Lemma stream_head b tail fs :
  b ++ tail = wire_stream fs → b ≠ [] → ∃ f fs', fs = f :: fs'.
Proof. intros E Hb. destruct fs as [|f fs]; [|by exists f, fs]. by destruct b. Qed.
Lemma head_starts b tail f fs :
  b ++ tail = wire_stream (f :: fs) → wf_ok f → 8 ≤ vec_len b → starts_with (wf_magic f) b.
Proof.
  intros E Hf Hb. destruct (header_starts f (wf_payload f ++ pad f ++ wire_stream fs) Hf) as [_ Hw]. rewrite <-bytes_app, <-stream_cons, <-E in Hw.
  split; [lia|]. rewrite u32_at_prefix in Hw; [done|]. unfold vec_len in Hb. lia.
Qed.

Lemma remaining_reaches fuel tail b fs s :
  (length b < fuel)%nat → vec_len tail mod 8 = 0 → b ≠ [] → b ++ tail = wire_stream fs → Forall frame_ok fs → ready id s →
  room m (vec_len b) s → reaches id tail fs s (dispatch_remaining_media subs_order codec_order fuel b id s).
Proof.
  revert b fs s. induction fuel as [|fuel IH]; intros b fs s Hfuel Ht Hb E Hfs Hs Hr; [lia|]. cbn [dispatch_remaining_media].
  pose proof (body_aligned _ _ _ E Ht Hfs Hb) as H8. destruct (stream_head _ _ _ E Hb) as (f & fs' & ->). apply Forall_cons in Hfs as [Hf Hfs].
  rewrite (proj2 (Z.ltb_ge _ 4)) by lia. rewrite (room_not_full m (vec_len b)) by (done || lia). cbn [orb].
  destruct (head_starts _ _ _ _ E (proj1 Hf) H8) as [_ ->]. apply start_reaches; try done.
  intros b' fs1 s1 Hl Hb' E' Hfs1 Hs1 Hr1. apply IH; [lia|done..].
Qed.
Lemma media_start_reaches tail b f fs s :
  vec_len tail mod 8 = 0 → 8 ≤ vec_len b → b ++ tail = wire_stream (f :: fs) → Forall frame_ok (f :: fs) → ready id s →
  room m (vec_len b) s → reaches id tail (f :: fs) s (dispatch_media_start subs_order codec_order (wf_magic f) b id s).
Proof.
  intros Ht Hb E [Hf Hfs]%Forall_cons Hs Hr. apply start_reaches; try done.
  intros b' fs1 s1 Hl Hb' E' Hfs1 Hs1 Hr1. apply remaining_reaches; [lia|done..].
Qed.
End chunks.
