(* ===== verification/ReoReassembly.v ===== *)
(** * Reassembly across message bodies

    Headers and payloads that run over the end of a body, and the theorem on whole
    streams. *)

From S2P Require Import Prelude ReoWire ReoFraming ReoUdp ReoDiscovery ReoMedia ReoStream ReoAssembly ReoAssemblyInv ReoChunks.

Lemma offset_loop_app count offset b t k magic :
  media_offset_loop count offset b = Some (k, magic) → media_offset_loop count offset (b ++ t) = Some (k, magic).
Proof.
  revert offset. induction count as [|count IH]; intros offset; [done|]. cbn [media_offset_loop].
  destruct (Nat.ltb_spec (length b) (offset + 4)) as [|Hl]; [done|].
  rewrite (proj2 (Nat.ltb_ge (length (b ++ t)) (offset + 4))) by (rewrite length_app; lia). rewrite u32_at_prefix by lia.
  destruct offset as [|offset]; cbn [Nat.ltb Nat.leb andb].
  - destruct (from_u32 _); [done|]. apply IH.
  - rewrite byte_at_app by lia. destruct (negb _); [done|]. destruct (from_u32 _); [done|]. apply IH.
Qed.
Lemma offset_prefix b t : media_frame_offset (b ++ t) = None → media_frame_offset b = None.
Proof.
  intros H. unfold media_frame_offset in *. destruct (media_offset_loop _ 0 b) as [[k magic]|] eqn:E; [|done].
  by rewrite (offset_loop_app _ _ _ t _ _ E) in H.
Qed.

Lemma payload_nonempty f : wf_ok f → match f with WInfo _ _ => True | _ => wf_payload f ≠ [] end.
Proof.
  destruct f as [v2 info|v hint ext|v2 p|half p]; cbn [wf_ok wf_payload]; [done|intros (_ & H & _)|intros H|intros [H _]];
    intros E; rewrite E in H; change (vec_len []) with 0 in H; lia.
Qed.

Lemma frame_cases f : (∃ v2 info, f = WInfo v2 info) ∨ (∃ v hint ext, f = WVideo v hint ext) ∨ wf_audio f = true.
Proof. destruct f; [apply or_introl; by do 2 eexists|apply or_intror, or_introl; by do 3 eexists|by do 2 apply or_intror..]. Qed.

Section reassembly.
Context (read_xml : list Z → list (result unit ReadEvent)).
Context (subs_order : gmap Z StreamSubscriptionEntry → list (Z * StreamSubscriptionEntry)).
Context (codec_order : gmap (Z * VideoCodec) Z → list (Z * VideoCodec * Z)).
Context (id m : Z) (Hm : 0 < m) (payload_offset : option Z).

(** Where a body may be dispatched. *)
Record placed (tail b : list Z) (fs : list WireFrame) (s : Session) : Prop := {
  pc_mid : mid id s (b ++ tail) fs;
  pc_tail : vec_len tail mod 8 = 0;
  pc_frames : Forall (frame_ok m) fs;
  pc_quiet : quiet fs;
  pc_calm : (s_video_accums s = ∅ ∧ s_audio_accums s = ∅) ∨ media_frame_offset (b ++ tail) = None;
  pc_room : (ready id s ∧ room m (vec_len b) s) ∨ room m (m + vec_len b) s
}.
Definition loops (n : nat) (tail : list Z) (again : list Z → Session → step) : Prop :=
  ∀ b fs s, (2 * length b + accums s < n)%nat → placed tail b fs s → reaches id tail fs s (again b s).

Lemma placed_ready tail b fs s :
  ready id s → b ++ tail = wire_stream fs → vec_len tail mod 8 = 0 → Forall (frame_ok m) fs → quiet fs → room m (vec_len b) s →
  placed tail b fs s.
Proof.
  intros Hs E Ht Hfs Hq Hr. constructor; try done.
  - rewrite E. by constructor.
  - apply or_introl. by destruct Hs.
  - by apply or_introl.
Qed.
Lemma ready_accums s : ready id s → accums s = 0%nat.
Proof. intros [_ Hv Ha _]. unfold accums. by rewrite Hv, Ha, !map_size_empty. Qed.

Section continued.
Context (n : nat) (tail : list Z) (again : list Z → Session → step) (Hagain : loops n tail again).

(** After the last bytes of a payload. *)
Lemma skip_reaches f fs s s1 p b' :
  let b := p ++ pad f ++ b' in
  b' ++ tail = wire_stream fs → vec_len tail mod 8 = 0 → Forall (frame_ok m) fs → quiet fs → room m (m + vec_len b) s →
  (2 * length b < n)%nat → ready id s1 → out s1 = out (frame_push id s f) → s_pending_idx s1 = s_pending_idx s →
  s_active_streams s1 = s_active_streams s →
  reaches id tail (f :: fs) s (skip_padding again (vec_len p) (wf_padding f) b s1).
Proof.
  intros b E Ht Hfs Hq Hr Hn Hs1 Ho Hi Ha. apply (reaches_push id tail f fs s s1); [done|done|done|].
  pose proof (padding_range f) as Hp. pose proof (pad_short f) as Hpl.
  assert (b' = [] → reaches id tail fs s1 (Ret (Ok tt, s1))) as Hdone.
  { intros ->. cbn [app] in E. rewrite E. apply reaches_now; [by constructor|done|done|done]. }
  unfold skip_padding. destruct (Z.ltb_spec (vec_len p) (vec_len b)) as [Hlt|Hge].
  2: { apply Hdone. unfold b in Hge. rewrite !vec_len_app in Hge. destruct b' as [|x b']; [done|]. unfold vec_len in *. cbn [length] in Hge. lia. }
  rewrite Z.min_l by (unfold b; rewrite !vec_len_app; pose proof (vec_len_pos b'); lia).
  assert (drop (Z.to_nat (vec_len p + wf_padding f)) b = b') as ->.
  { unfold b. replace (vec_len p + wf_padding f) with (vec_len (p ++ pad f)) by (rewrite vec_len_app; lia). rewrite app_assoc. apply drop_bytes. }
  destruct (decide (b' = [])) as [Eb'|Hb']; [rewrite Eb' at 1; by apply Hdone|]. replace (match b' with [] => Ret (Ok tt, s1) | z :: l => again (z :: l) s1 end) with (again b' s1) by (by destruct b'). apply Hagain.
  - rewrite (ready_accums _ Hs1). unfold b in Hn. rewrite !length_app in Hn. lia.
  - apply placed_ready; [done|done|done|done|done|]. unfold room in *. unfold out in Ho. injection Ho as -> _ _. rewrite frame_push_pending.
    unfold b in Hr. rewrite !vec_len_app in Hr. pose proof (vec_len_pos p). lia.
Qed.

(** ** Payloads *)

Lemma video_reaches v hint ext fs s d p b :
  let f := WVideo v hint ext in
  holding id f d s → wf_payload f = d ++ p → p ≠ [] → b ++ tail = p ++ pad f ++ wire_stream fs → vec_len tail mod 8 = 0 →
  Forall (frame_ok m) (f :: fs) → quiet fs → room m (m + vec_len b) s → (2 * length b < n)%nat → b ≠ [] →
  reaches id tail (f :: fs) s
    (append_video_continuation again id
       (mk_video_accum id (vr_channel v) (vr_is_keyframe v) (vr_codec v) (vr_microseconds v) (vec_len (vr_data v)) d) b s).
Proof.
  intros f (Hc & Hsub & Haa & Hva) Ep Hp E Ht Hfs Hq Hr Hn Hb. unfold append_video_continuation. cbn [va_expected va_data va_stream_id va_channel va_is_keyframe va_codec va_microseconds].
  apply Forall_cons in Hfs as [Hf Hfs]. assert (vr_data v = d ++ p) as Ev by (exact Ep).
  assert (saturating_sub (vec_len (vr_data v)) (vec_len d) = vec_len p) as ->.
  { unfold saturating_sub. rewrite Ev, vec_len_app. pose proof (vec_len_pos p). lia. }
  unfold try_complete_video_accum. cbn [set_video_accums s_video_accums]. rewrite Hva, insert_singleton_eq, lookup_singleton_eq. cbn [va_expected va_data].
  assert (vec_len (pad f) < 8) as Hpad by (rewrite pad_short; apply padding_range).
  destruct (cut_payload _ _ _ _ _ E Ht (stream_aligned _ (frames_wf m _ Hfs)) Hpad) as [(z & Hz & Ez & Et)|(b' & Eb & Et)].
  - pose proof (vec_len_nonempty z Hz). rewrite Z.min_l by (rewrite Ez, vec_len_app; lia).
    assert (take (Z.to_nat (vec_len b)) b = b) as -> by (unfold vec_len; by rewrite Nat2Z.id, firstn_all).
    rewrite (proj2 (Z.leb_gt _ _)) by (rewrite Ev, Ez, !vec_len_app; lia). cbn [obind]. unfold skip_padding. rewrite Z.ltb_irrefl.
    apply reaches_now; [|done|done|done]. rewrite Et. apply (mid_payload id _ (d ++ b) z f fs); [|by rewrite Ep, Ez, app_assoc|done].
    split; [done|]. split; [done|]. by split.
  - assert (Z.min (vec_len b) (vec_len p) = vec_len p) as ->.
    { apply Z.min_r. rewrite Eb, vec_len_app. pose proof (vec_len_pos (pad f ++ b')). lia. }
    assert (take (Z.to_nat (vec_len p)) b = p) as -> by (rewrite Eb; apply take_bytes). rewrite <-Ev, (proj2 (Z.leb_le _ _)) by done.
    pose proof (vec_len_nonempty b Hb). set (s1 := set_video_accums _ (set_video_accums _ s)).
    assert (pending_is_full s1 = false) as -> by (apply (room_not_full m (m + vec_len b)); [done|lia|done]).
    rewrite accum_bytes_ok by done. cbn [obind]. replace (take (Z.to_nat (vec_len (vr_data v))) (vr_data v)) with (vr_data v)
      by (unfold vec_len; by rewrite Nat2Z.id, firstn_all).
    change (padding_len (vec_len (vr_data v))) with (wf_padding f). rewrite Eb. apply skip_reaches; rewrite <-?Eb; try done.
    constructor; try done. unfold s1. cbn. apply delete_singleton_eq.
Qed.
Lemma audio_reaches f fs s d p b :
  wf_audio f = true → holding id f d s → wf_payload f = d ++ p → p ≠ [] → b ++ tail = p ++ pad f ++ wire_stream fs → vec_len tail mod 8 = 0 →
  Forall (frame_ok m) (f :: fs) → quiet fs → room m (m + vec_len b) s → (2 * length b < n)%nat → b ≠ [] →
  reaches id tail (f :: fs) s (append_audio_continuation again id b s).
Proof.
  intros Hau (Hc & Hsub & Hacc) Ep Hp E Ht Hfs Hq Hr Hn Hb.
  assert (s_video_accums s = ∅ ∧
    s_audio_accums s = {[id := mk_audio_accum id (audio_codec_of (wf_magic f)) (vec_len (wf_payload f)) (wf_padding f) d]}) as [Hva Haa] by (by destruct f).
  clear Hacc. unfold append_audio_continuation. rewrite Haa, lookup_singleton_eq. cbn [aa_expected aa_data aa_stream_id aa_codec aa_padding].
  apply Forall_cons in Hfs as [Hf Hfs].
  assert (saturating_sub (vec_len (wf_payload f)) (vec_len d) = vec_len p) as ->.
  { unfold saturating_sub. rewrite Ep, vec_len_app. pose proof (vec_len_pos p). lia. }
  assert (vec_len (pad f) < 8) as Hpad by (rewrite pad_short; apply padding_range).
  destruct (cut_payload _ _ _ _ _ E Ht (stream_aligned _ (frames_wf m _ Hfs)) Hpad) as [(z & Hz & Ez & Et)|(b' & Eb & Et)].
  - pose proof (vec_len_nonempty z Hz). rewrite Z.min_l by (rewrite Ez, vec_len_app; lia).
    assert (take (Z.to_nat (vec_len b)) b = b) as -> by (unfold vec_len; by rewrite Nat2Z.id, firstn_all).
    rewrite (proj2 (Z.ltb_lt _ _)) by (rewrite Ep, Ez, !vec_len_app; lia).
    apply reaches_now; [|done|done|done]. rewrite Et. apply (mid_payload id _ (d ++ b) z f fs); [|by rewrite Ep, Ez, app_assoc|done].
    split; [done|]. split; [done|]. destruct f; try done; cbn [set_audio_accums s_audio_accums s_video_accums]; by rewrite insert_singleton_eq.
  - assert (Z.min (vec_len b) (vec_len p) = vec_len p) as ->.
    { apply Z.min_r. rewrite Eb, vec_len_app. pose proof (vec_len_pos (pad f ++ b')). lia. }
    assert (take (Z.to_nat (vec_len p)) b = p) as -> by (rewrite Eb; apply take_bytes). rewrite <-Ep, (proj2 (Z.ltb_ge _ _)) by done.
    pose proof (vec_len_nonempty b Hb). rewrite delete_singleton_eq. set (s1 := set_audio_accums _ s). unfold emit_audio_accum. cbn [aa_expected aa_data aa_stream_id aa_codec].
    assert (0 < vec_len (wf_payload f)) as Hpos by (destruct Hf as [Hwf _]; destruct f; try done; cbn in *; lia).
    rewrite (proj2 (Z.eqb_neq _ 0)) by lia.
    assert (pending_is_full s1 = false) as -> by (apply (room_not_full m (m + vec_len b)); [done|lia|done]).
    rewrite accum_bytes_ok by done. cbn [obind]. replace (take (Z.to_nat (vec_len (wf_payload f))) (wf_payload f)) with (wf_payload f)
      by (unfold vec_len; by rewrite Nat2Z.id, firstn_all).
    rewrite Eb. apply skip_reaches; rewrite <-?Eb; try done; by destruct f.
Qed.
End continued.

(** ** Headers *)

Section resumed.
Context (n : nat) (tail : list Z) (again : list Z → Session → step) (Hagain : loops n tail again).
Context (f : WireFrame) (fs : list WireFrame) (Hf : frame_ok m f) (Hfs : Forall (frame_ok m) fs) (Hqf : quiet_frame f (wire_stream fs)) (Hq : quiet fs).
Context (c h b : list Z) (Hch : wf_header f = c ++ h) (Hh : h ≠ []) (Hc : 4 ≤ vec_len c).
Context (s : Session) (Hva : s_video_accums s = ∅) (Haa : s_audio_accums s = ∅) (Hsub : subscribed id s).
Context (Ht : vec_len tail mod 8 = 0) (Hr : room m (m + vec_len b) s) (Hn : (2 * length b ≤ n)%nat) (Hb : b ≠ []).

(** The header still lacks bytes. *)
Lemma resume_keeps z :
  h = b ++ z → z ≠ [] → tail = z ++ wf_payload f ++ pad f ++ wire_stream fs →
  reaches id tail (f :: fs) s (Ret (Ok tt, keep_carry (c ++ b) (set_carry [] s))).
Proof.
  intros Ez Hz Et. pose proof (header_max f (proj1 Hf)) as Hmax.
  assert (wf_header f = (c ++ b) ++ z) as E by (by rewrite Hch, Ez, app_assoc).
  destruct (header_prefix f (c ++ b) z (proj1 Hf) E Hz) as (_ & _ & Hlt); [rewrite vec_len_app; pose proof (vec_len_pos b); lia|].
  unfold keep_carry. rewrite (proj2 (Z.ltb_lt _ _)) by lia. apply reaches_now; [|done|done|done]. rewrite Et.
  apply (mid_header id _ (c ++ b) z f fs); try done. rewrite vec_len_app. pose proof (vec_len_pos b). lia.
Qed.

(** The header is complete; [b1] begins the payload. *)
Lemma resume_payload b1 s1 :
  b = h ++ b1 → b1 ++ tail = wf_payload f ++ pad f ++ wire_stream fs → wf_payload f ≠ [] → holding id f [] s1 → out s1 = out s →
  s_pending_idx s1 = s_pending_idx s → s_active_streams s1 = s_active_streams s →
  reaches id tail (f :: fs) s (resume_rest again (vec_len (wf_header f)) (vec_len c) b s1).
Proof.
  intros Eb E Hp Hs1 Ho Hi Ha. unfold resume_rest, plain_sub. pose proof (vec_len_nonempty h Hh). pose proof (vec_len_pos b1).
  assert (vec_len (wf_header f) = vec_len c + vec_len h) as Hl by (rewrite Hch; apply vec_len_app).
  rewrite (proj2 (Z.leb_le _ _)) by lia. cbn [obind]. replace (vec_len (wf_header f) - vec_len c) with (vec_len h) by lia.
  rewrite (proj2 (Z.leb_le _ _)) by (rewrite Eb, vec_len_app; lia). cbn [obind]. rewrite Eb, drop_bytes.
  assert (reaches id tail (f :: fs) s1 (again b1 s1)) as (s' & fs1 & fs2 & E1 & E2 & Hmid & Ho' & Hi' & Ha').
  { apply Hagain.
    - assert (accums s1 = 1%nat) as ->; [|rewrite Eb, length_app in Hn; unfold vec_len in *; lia].
      destruct Hs1 as (_ & _ & Hacc). unfold accums. destruct f; try done; destruct Hacc as [-> ->]; by rewrite map_size_empty, map_size_singleton.
    - constructor; [|done|by constructor|done| |].
      + rewrite E. by apply (mid_payload id _ [] (wf_payload f) f fs).
      + apply or_intror. rewrite E. apply (Hqf 0%nat); [|by apply or_introl]. destruct (wf_payload f); [done|]. cbn [length]. lia.
      + apply or_intror. unfold room in *. unfold out in Ho. injection Ho as -> _ _. rewrite Eb, vec_len_app in Hr. lia. }
  exists s', fs1, fs2. split; [done|]. split; [done|]. split; [done|]. split; [|split; congruence]. rewrite Ho'. by apply push_all_out.
Qed.

Lemma resume_video_reaches v hint ext b1 k :
  f = WVideo v hint ext → b = h ++ b1 → b1 ++ tail = wf_payload f ++ pad f ++ wire_stream fs →
  reaches id tail (f :: fs) s
    (resume_video subs_order codec_order again (vr_channel v) (vr_is_keyframe v) (wf_header f ++ k) (vec_len c) b id (set_carry [] s)).
Proof.
  intros Ef Eb E. unfold resume_video.
  assert (parse_video_header (wf_header f ++ k) = Ok (vr_codec v, vec_len (vr_data v), vr_microseconds v, vec_len (wf_header f), hint)) as ->.
  { rewrite Ef. apply video_header. rewrite <-Ef. apply Hf. }
  pose proof (header_max f (proj1 Hf)). rewrite (proj2 (Z.ltb_ge MAX_MEDIA_HEADER _)) by lia.
  rewrite (proj2 (Z.ltb_ge _ _)) by (rewrite vec_len_app; pose proof (vec_len_pos k); lia).
  destruct (resolve_subscribed subs_order codec_order id hint (vr_channel v) (vr_codec v) (set_carry [] s) Hsub) as (r & -> & Hsub1).
  eapply resume_payload; [done|done| | |done|done|done].
  - pose proof (payload_nonempty f (proj1 Hf)) as Hne. by rewrite Ef in Hne |- *.
  - rewrite Ef. split; [done|]. split; [done|]. cbn. rewrite Haa, Hva, !delete_empty. by split.
Qed.
Lemma resume_audio_reaches b1 k :
  wf_audio f = true → b = h ++ b1 → b1 ++ tail = wf_payload f ++ pad f ++ wire_stream fs →
  reaches id tail (f :: fs) s (resume_audio again (wf_magic f) (wf_header f ++ k) (vec_len c) b id (set_carry [] s)).
Proof.
  intros Hau Eb E. unfold resume_audio. rewrite audio_header by (done || apply Hf).
  eapply resume_payload; [done|done| | |done|done|done].
  - pose proof (payload_nonempty f (proj1 Hf)) as Hne. by destruct f.
  - split; [done|]. split; [done|]. destruct f; try done; cbn [set_audio_accums discard_accums set_video_accums set_carry s_audio_accums s_video_accums];
      rewrite Haa, Hva, !delete_empty; by split.
Qed.
Lemma resume_info_reaches v2 info b1 k :
  f = WInfo v2 info → b = h ++ b1 → b1 ++ tail = wf_payload f ++ pad f ++ wire_stream fs →
  reaches id tail (f :: fs) s (resume_info again (wf_header f ++ k) (vec_len c) b id (set_carry [] s)).
Proof.
  intros Ef Eb E. unfold resume_info.
  assert (parse_stream_metadata (wf_header f ++ k) = Ok (info, 32)) as -> by (rewrite Ef; apply info_header; rewrite <-Ef; apply Hf).
  assert (vec_len c + vec_len h = 32) as Hl by (rewrite <-vec_len_app, <-Hch, header_length, Ef by apply Hf; done).
  change (align8 32) with 32. replace (saturating_sub 32 (vec_len c)) with (vec_len h) by (unfold saturating_sub; pose proof (vec_len_pos h); lia).
  assert (b1 ++ tail = wire_stream fs) as E1.
  { assert (wf_payload f = [] ∧ pad f = []) as [Hp1 Hp2]; [|by rewrite Hp1, Hp2 in E].
    split; [by rewrite Ef|]. assert (wf_padding f = 0) as ->; [|done]. unfold wf_padding. rewrite header_length by apply Hf. by rewrite Ef. }
  set (s1 := note_metadata _ _ _). pose proof (vec_len_nonempty b Hb).
  assert (s1 = push_pending (mk_pending (EkMediaInfo id info) 0 0) (set_routing (set_last (Some info) (s_routing s)) (set_carry [] s))) as Es1.
  { unfold s1, note_metadata. change (pending_is_full _) with (pending_is_full s) at 1. by rewrite (room_not_full m (m + vec_len b)) by (done || lia). }
  assert (ready id s1) as Hs1 by (rewrite Es1; by constructor).
  apply (reaches_push id tail f fs s s1); [by rewrite Es1, Ef|by rewrite Es1|by rewrite Es1|].
  pose proof (vec_len_nonempty h Hh). destruct (Z.leb_spec (vec_len b) (vec_len h)) as [Hle|Hgt].
  - rewrite Eb, vec_len_app in Hle. destruct b1 as [|x b1]; [|unfold vec_len in Hle; cbn [length] in Hle; lia]. cbn [app] in E1. rewrite E1.
    apply reaches_now; [by constructor|done|done|done].
  - rewrite Eb, drop_bytes. apply Hagain.
    + rewrite (ready_accums _ Hs1). rewrite Eb, length_app in Hn. unfold vec_len in *. lia.
    + apply placed_ready; [done|done|done|done|done|]. unfold room in *. rewrite Es1. cbn. rewrite vec_len_app. rewrite Eb, vec_len_app in Hr. unfold vec_len at 2. cbn. lia.
Qed.

Lemma resume_reaches :
  b ++ tail = h ++ wf_payload f ++ pad f ++ wire_stream fs → s_header_carry s = c →
  reaches id tail (f :: fs) s (resume_header_carry subs_order codec_order again b id s).
Proof.
  intros E Ec. unfold resume_header_carry. rewrite Ec. set (taken := Z.min _ _). pose proof (header_max f (proj1 Hf)) as Hmax.
  assert (vec_len (wf_header f) = vec_len c + vec_len h) as Hl by (rewrite Hch; apply vec_len_app).
  destruct (cut_at _ _ _ _ E) as [(z & Hz & Ez & Et)|(b1 & Eb & E1)].
  - assert (taken = vec_len b) as ->. { unfold taken, saturating_sub. rewrite Ez, vec_len_app in Hl. pose proof (vec_len_pos z). lia. }
    assert (take (Z.to_nat (vec_len b)) b = b) as -> by (unfold vec_len; by rewrite Nat2Z.id, firstn_all).
    pose proof (resume_keeps z Ez Hz Et) as Hkeep. assert (wf_header f = (c ++ b) ++ z) as E' by (by rewrite Hch, Ez, app_assoc).
    destruct (header_prefix f (c ++ b) z (proj1 Hf) E' Hz) as (Hneed & Hst & Hlt); [rewrite vec_len_app; pose proof (vec_len_pos b); lia|].
    rewrite (starts_with_offset _ _ Hst). unfold resume_info, resume_video, resume_audio, needs_header in *.
    destruct f as [[] info|v hint ext|v2 p|half p]; cbn [wf_magic] in *; try (by rewrite Hneed).
    destruct (vr_is_keyframe v); destruct Hneed as [-> | ->]; try done; rewrite (proj2 (Z.ltb_ge MAX_MEDIA_HEADER _)), (proj2 (Z.ltb_lt _ _)) by lia; done.
  - assert (vec_len h ≤ taken) as Htk. { unfold taken, saturating_sub. rewrite Eb, vec_len_app. pose proof (vec_len_pos b1). lia. }
    assert (c ++ take (Z.to_nat taken) b = wf_header f ++ take (Z.to_nat (taken - vec_len h)) b1) as ->.
    { rewrite Hch, Eb, <-app_assoc. f_equal. rewrite take_app_ge by (unfold vec_len in Htk; lia). f_equal. f_equal. unfold vec_len. lia. }
    rewrite (starts_with_offset (wf_magic f)) by (by apply header_starts, Hf).
    generalize (take (Z.to_nat (taken - vec_len h)) b1). intros k.
    destruct (frame_cases f) as [(v2 & info & Ef)|[(v & hint & ext & Ef)|Hau]].
    + pose proof (resume_info_reaches v2 info b1 k Ef Eb E1) as H.
      assert (wf_magic f = if v2 then InfoV2 else InfoV1) as -> by (by rewrite Ef). destruct v2; exact H.
    + pose proof (resume_video_reaches v hint ext b1 k Ef Eb E1) as H.
      assert (wf_magic f = if vr_is_keyframe v then IFrame (vr_channel v) else PFrame (vr_channel v)) as -> by (by rewrite Ef).
      destruct (vr_is_keyframe v); exact H.
    + pose proof (resume_audio_reaches b1 k Hau Eb E1) as H.
      assert (wf_magic f = AacAudio ∨ wf_magic f = AdpcmAudio) as [Em|Em] by (destruct f; try done; auto); rewrite Em in H |- *; exact H.
Qed.
End resumed.

(** ** The dispatcher *)

Lemma dispatch_loop_reaches fuel tail b fs s :
  (2 * length b + accums s < fuel)%nat → placed tail b fs s →
  reaches id tail fs s (dispatch_loop read_xml subs_order codec_order fuel id payload_offset b s).
Proof.
  revert b fs s. induction fuel as [|fuel IH]; intros b fs s Hfuel [Hmid Ht Hfs Hq Hcalm Hr]; [lia|]. cbn [dispatch_loop].
  set (again := dispatch_loop _ _ _ fuel id payload_offset). assert (loops fuel tail again) as Ha by (intros b' fs' s' Hl Hp; by apply IH).
  destruct b as [|x b0]; [by apply reaches_now|]. set (b := x :: b0) in *. assert (b ≠ []) as Hb by done.
  remember (b ++ tail) as rest eqn:E. destruct Hmid as [s fs Hs|s c h f fs Hc Hva Haa Hsub Hch Hh Hc4|s d p f fs Hh Ep Hp].
  - rewrite (rd_carry _ _ Hs). destruct (stream_head _ _ _ (eq_sym E) Hb) as (f & fs' & ->).
    pose proof (body_aligned m _ _ _ (eq_sym E) Ht Hfs Hb) as H8.
    rewrite (starts_with_offset (wf_magic f)) by (eapply head_starts; [by symmetry|apply Forall_cons in Hfs as [[? _] _]; done|done]).
    rewrite drop_0. apply (media_start_reaches subs_order codec_order id m Hm); try done. destruct Hr as [[_ Hr]|Hr]; [done|]. unfold room in *. lia.
  - assert (room m (m + vec_len b) s) as Hr' by (destruct Hr as [[[Hc0 _ _ _] _]|Hr]; [rewrite Hc0 in Hc; subst c; change (vec_len []) with 0 in Hc4; lia|done]).
    destruct Hq as [Hqf Hq]. apply Forall_cons in Hfs as [Hf Hfs]. assert (s_header_carry s ≠ []) as Hne by (rewrite Hc; intros ->; change (vec_len []) with 0 in Hc4; lia).
    replace (match s_header_carry s with [] => _ | _ :: _ => resume_header_carry subs_order codec_order again b id s end)
      with (resume_header_carry subs_order codec_order again b id s) by (by destruct (s_header_carry s)).
    apply (resume_reaches fuel tail again Ha f fs Hf Hfs Hqf Hq c h b); try done. lia.
  - destruct Hq as [Hqf Hq]. pose proof Hh as (Hc & Hsub & Hacc). rewrite Hc.
    assert (s_video_accums s ≠ ∅ ∨ s_audio_accums s ≠ ∅) as Hne.
    { destruct f; try done; destruct Hacc as [_ ->]; [apply or_introl|apply or_intror..]; apply map_non_empty_singleton. }
    assert (media_frame_offset b = None) as ->.
    { destruct Hcalm as [[H1 H2]|Hcalm]; [by destruct Hne|]. rewrite E in Hcalm. by eapply offset_prefix. }
    assert (room m (m + vec_len b) s) as Hr' by (destruct Hr as [[[_ H1 H2 _] _]|Hr]; [by destruct Hne|done]).
    assert (accums s = 1%nat) as Hacc1.
    { unfold accums. destruct f; try done; destruct Hacc as [-> ->]; by rewrite map_size_empty, map_size_singleton. }
    destruct (frame_cases f) as [(v2 & info & ->)|[(v & hint & ext & ->)|Hau]]; [done| |].
    + destruct Hacc as [Haa Hva]. unfold pending_audio_key, continued_video. rewrite Haa, map_to_list_empty, Hva, lookup_singleton_eq.
      apply (video_reaches fuel tail again Ha v hint ext fs s d p b); try done. lia.
    + assert (s_audio_accums s = {[id := mk_audio_accum id (audio_codec_of (wf_magic f)) (vec_len (wf_payload f)) (wf_padding f) d]}) as Haa
        by (destruct f; try done; by destruct Hacc).
      unfold pending_audio_key. rewrite Haa, map_to_list_singleton. apply (audio_reaches fuel tail again Ha f fs s d p b); try done. lia.
Qed.

(** ** Whole streams *)

(** Polls until nothing is pending; the fuel is one more than the events. *)
Fixpoint drain (fuel : nat) (n : Z) (s : Session) : outcome (list Event * Session) :=
  match fuel with
  | O => Panic
  | S fuel' =>
      let! (v, s) := poll_event n s in
      match v with
      | Ok (Some event) => let! (events, s) := drain fuel' n s in Ret (event :: events, s)
      | _ => Ret ([], s)
      end
  end.
(** A session that gets the bodies of a stream one by one and is polled after each. *)
Fixpoint receive_all (n : Z) (bodies : list (list Z)) (s : Session) : outcome (result BcError (list Event) * Session) :=
  match bodies with
  | [] => Ret (Ok [], s)
  | body :: bodies' =>
      let! (v, s) := dispatch_stream read_xml subs_order codec_order id payload_offset body s in
      match v with
      | Err e => Ret (Err e, s)
      | Ok _ =>
          let! (events, s) := drain (1 + length (s_pending s)) n s in
          let! (v, s) := receive_all n bodies' s in
          Ret (match v with Ok more => Ok (events ++ more) | Err e => Err e end, s)
      end
  end.

Definition deliverable (n : Z) (media : list Z) (e : PendingEvent) (ev : Event) : Prop :=
  (∀ s, s_media_out s = media → event_of e s = Ret ev) ∧ pe_len e ≤ n.
Definition cleared (s : Session) : Session :=
  mk_session (s_routing s) [] 0 [] (s_video_accums s) (s_video_timestamps s) (s_audio_accums s) (s_header_carry s) (s_active_streams s).

Lemma drain_none fuel n s : s_pending s !! Z.to_nat (s_pending_idx s) = None → drain (S fuel) n s = Ret ([], s).
Proof. intros E. cbn [drain]. unfold poll_event. by rewrite E. Qed.
Lemma drain_ok fuel n s evs :
  0 ≤ s_pending_idx s →
  Forall2 (deliverable n (s_media_out s)) (drop (Z.to_nat (s_pending_idx s)) (s_pending s)) evs → (length evs < fuel)%nat →
  drain fuel n s = Ret (evs, match evs with [] => s | _ => cleared s end).
Proof.
  revert fuel s. induction evs as [|ev evs IH]; intros fuel s Hi Hall Hf; (destruct fuel as [|fuel]; [lia|]).
  { apply Forall2_nil_inv_r in Hall. apply drain_none. apply lookup_ge_None. apply (f_equal length) in Hall. rewrite length_drop in Hall. cbn in Hall. lia. }
  apply Forall2_cons_inv_r in Hall as (e & rest & [Hev Hlen] & Hrest & Ed).
  assert (s_pending s !! Z.to_nat (s_pending_idx s) = Some e) as Ee by (rewrite <-(Nat.add_0_r (Z.to_nat _)), <-lookup_drop, Ed; done).
  assert (drop (S (Z.to_nat (s_pending_idx s))) (s_pending s) = rest) as Er by (apply drop_S in Ee; congruence).
  cbn [drain]. unfold poll_event. rewrite Ee. replace (needs_buf (pe_kind e) && (n <? pe_len e)) with false
    by (rewrite (proj2 (Z.ltb_ge _ _)), andb_false_r by lia; done).
  rewrite (Hev s) by done. cbn [obind]. cbn [length] in Hf. pose proof (lookup_lt_Some _ _ _ Ee) as Hlt.
  destruct (Z.leb_spec (vec_len (s_pending s)) (s_pending_idx s + 1)) as [Hle|Hgt].
  - assert (rest = []) as -> by (rewrite <-Er; apply drop_ge; unfold vec_len in Hle; lia). apply Forall2_nil_inv_l in Hrest as ->.
    destruct fuel as [|fuel]; [cbn in Hf; lia|]. by rewrite drain_none.
  - set (s1 := mk_session _ _ _ _ _ _ _ _ _). rewrite (IH fuel s1); [|cbn; lia| |lia].
    + cbn [obind]. destruct evs; [|done]. apply Forall2_nil_inv_r in Hrest as ->. apply (f_equal length) in Er. rewrite length_drop in Er. cbn in Er. unfold vec_len in Hgt. lia.
    + unfold s1. cbn [s_media_out s_pending_idx s_pending]. replace (Z.to_nat (s_pending_idx s + 1)) with (S (Z.to_nat (s_pending_idx s))) by lia. by rewrite Er.
Qed.

(** ** The events of pushed frames *)

Definition clock (s : Session) : MicrosecondTimeline := unwrap_or (s_video_timestamps s !! id) timeline_default.
Fixpoint clock_after (tl : MicrosecondTimeline) (fs : list MediaFrame) : MicrosecondTimeline :=
  match fs with
  | [] => tl
  | MVideo v :: fs' => clock_after (timeline_advance (vr_microseconds v) tl) fs'
  | _ :: fs' => clock_after tl fs'
  end.
Lemma events_of_app tl a b : events_of id tl (a ++ b) = events_of id tl a ++ events_of id (clock_after tl a) b.
Proof. revert tl. induction a as [|[i|v|au] a IH]; intros tl; cbn; [done|by rewrite IH..]. Qed.

Lemma slice_media (pre data more : list Z) e s :
  s_media_out s = (pre ++ data) ++ more → pe_start e = vec_len pre → pe_len e = vec_len data → media_slice e s = Ret data.
Proof.
  intros E H1 H2. unfold media_slice. rewrite E, H1, H2, <-app_assoc. rewrite (proj2 (Z.ltb_ge _ _)) by (rewrite !vec_len_app; pose proof (vec_len_pos more); lia).
  by rewrite take_middle.
Qed.
Lemma frame_push_event n f s :
  vec_len (wf_payload f) ≤ n → 0 ≤ n →
  ∃ e data ev, s_pending (frame_push id s f) = s_pending s ++ [e] ∧ s_media_out (frame_push id s f) = s_media_out s ++ data ∧
    events_of id (clock s) [media_of f] = [ev] ∧ clock (frame_push id s f) = clock_after (clock s) [media_of f] ∧
    ∀ more, deliverable n ((s_media_out s ++ data) ++ more) e ev.
Proof.
  intros Hn Hn0. destruct f as [v2 info|v hint ext|v2 p|half p]; cbn [frame_push wf_payload media_of] in *.
  - eexists _, [], _. split; [done|]. split; [by rewrite app_nil_r|]. split; [done|]. split; [done|]. intros more. by split; [|cbn].
  - eexists _, (vr_data v), _. split; [done|]. split; [done|]. split; [done|]. split; [unfold clock; cbn; by rewrite lookup_insert_eq|]. intros more.
    split; [|done]. intros s' Hs'. unfold event_of. cbn [pe_kind]. erewrite slice_media by done. done.
  - eexists _, p, _. split; [done|]. split; [done|]. split; [done|]. split; [done|]. intros more.
    split; [|done]. intros s' Hs'. unfold event_of. cbn [pe_kind]. erewrite slice_media by done. done.
  - eexists _, p, _. split; [done|]. split; [done|]. split; [done|]. split; [done|]. intros more.
    split; [|done]. intros s' Hs'. unfold event_of. cbn [pe_kind]. erewrite slice_media by done. done.
Qed.
Lemma push_all_events n fs s :
  Forall (λ f, vec_len (wf_payload f) ≤ n) fs → 0 ≤ n →
  ∃ es data, s_pending (push_all id s fs) = s_pending s ++ es ∧ s_media_out (push_all id s fs) = s_media_out s ++ data ∧
    clock (push_all id s fs) = clock_after (clock s) (media_of <$> fs) ∧
    ∀ more, Forall2 (deliverable n ((s_media_out s ++ data) ++ more)) es (events_of id (clock s) (media_of <$> fs)).
Proof.
  intros Hfs Hn. revert s. induction Hfs as [|f fs Hf Hfs IH]; intros s.
  { exists [], []. rewrite !app_nil_r. split; [done|]. split; [done|]. split; [done|]. intros more. constructor. }
  destruct (frame_push_event n f s Hf Hn) as (e & d & ev & E1 & E2 & E3 & E4 & Hd).
  destruct (IH (frame_push id s f)) as (es & data & F1 & F2 & F3 & F4).
  exists (e :: es), (d ++ data). change (push_all id s (f :: fs)) with (push_all id (frame_push id s f) fs).
  split; [by rewrite F1, E1, <-app_assoc|]. split; [by rewrite F2, E2, <-app_assoc|].
  rewrite fmap_cons, (app_assoc (s_media_out s)). change (media_of f :: (media_of <$> fs)) with ([media_of f] ++ (media_of <$> fs)).
  split; [rewrite F3, E4; by destruct (media_of f)|]. intros more. rewrite events_of_app, E3, <-E4. constructor.
  - rewrite <-(app_assoc _ data). apply Hd.
  - rewrite <-E2. apply F4.
Qed.

(** ** Bodies at multiples of eight bytes *)

Lemma mid_calm s rest fs :
  mid id s rest fs → vec_len rest mod 8 = 0 → Forall (frame_ok m) fs → quiet fs →
  (s_video_accums s = ∅ ∧ s_audio_accums s = ∅) ∨ media_frame_offset rest = None.
Proof.
  intros Hmid Hr Hfs Hq. destruct Hmid as [s fs Hs|s c h f fs Hc Hva Haa Hsub Hch Hh Hc4|s d p f fs Hh Ep Hp].
  - apply or_introl. by destruct Hs.
  - by apply or_introl.
  - apply or_intror. apply Forall_cons in Hfs as [[Hf _] Hfs]. destruct Hq as [Hqf _].
    pose proof (Hqf (length d)) as H. rewrite Ep, <-app_assoc, drop_app_length in H. apply H.
    { rewrite length_app. destruct p; [done|]. cbn [length]. lia. }
    apply or_intror. pose proof (frame_aligned f Hf) as Ha. rewrite frame_length, Ep, vec_len_app in Ha.
    rewrite !vec_len_app, pad_short in Hr. pose proof (stream_aligned _ (frames_wf m _ Hfs)) as Hst.
    rewrite !Z.add_assoc, Zplus_mod, Hst, Z.add_0_r, Z.mod_mod in Hr by done. fold (vec_len d).
    replace (vec_len (wf_header f) + vec_len d) with (vec_len (wf_header f) + (vec_len d + vec_len p) + wf_padding f - (vec_len p + wf_padding f)) by lia.
    rewrite Zminus_mod, Ha, Hr. done.
Qed.
Lemma mid_end s fs : mid id s [] fs → fs = [].
Proof.
  intros Hmid. remember [] as rest eqn:E. destruct Hmid as [s fs Hs|s c h f fs Hc Hva Haa Hsub Hch Hh Hc4|s d p f fs Hh Ep Hp].
  - destruct fs as [|f fs]; [done|]. apply (f_equal length) in E. rewrite stream_cons in E. unfold wf_bytes, wf_header in E. rewrite !length_app, u32_le_length in E. cbn in E. lia.
  - by destruct h.
  - by destruct p.
Qed.

Record polled (s : Session) : Prop := { po_pending : s_pending s = []; po_idx : s_pending_idx s = 0; po_media : s_media_out s = [] }.

Lemma body_step n c tail fs s :
  mid id s (c ++ tail) fs → polled s → vec_len c mod 8 = 0 → vec_len tail mod 8 = 0 → vec_len c ≤ (MAX_PENDING - 1) * m →
  Forall (frame_ok m) fs → quiet fs → Forall (λ f, vec_len (wf_payload f) ≤ n) fs → 0 ≤ n →
  ∃ s1 s2 fs1 fs2, dispatch_stream read_xml subs_order codec_order id payload_offset c s = Ret (Ok tt, s1) ∧ fs = fs1 ++ fs2 ∧
    drain (1 + length (s_pending s1)) n s1 = Ret (events_of id (clock s) (media_of <$> fs1), s2) ∧
    mid id s2 tail fs2 ∧ polled s2 ∧ clock s2 = clock_after (clock s) (media_of <$> fs1).
Proof.
  intros Hmid [Hp0 Hi0 Hm0] Hc Ht Hlen Hfs Hq Hn Hn0.
  assert (vec_len (c ++ tail) mod 8 = 0) as Hall by (rewrite vec_len_app, Zplus_mod, Hc, Ht; done).
  destruct (dispatch_loop_reaches (1 + 2 * length c + size (s_video_accums s) + size (s_audio_accums s)) tail c fs s)
    as (s1 & fs1 & fs2 & E & -> & Hmid1 & Ho & Hi & _).
  { unfold accums. lia. }
  { constructor; try done; [by eapply mid_calm|]. apply or_intror. unfold room. rewrite Hp0. change (vec_len []) with 0. lia. }
  apply Forall_app in Hn as [Hn1 _]. destruct (push_all_events n fs1 s Hn1 Hn0) as (es & data & F1 & F2 & F3 & F4).
  unfold out in Ho. injection Ho as O1 O2 O3. rewrite F1, Hp0 in O1. rewrite F2, Hm0 in O2. cbn [app] in O1, O2. specialize (F4 []). rewrite app_nil_r, Hm0 in F4. cbn [app] in F4.
  exists s1, (match events_of id (clock s) (media_of <$> fs1) with [] => s1 | _ => cleared s1 end), fs1, fs2. split; [done|]. split; [done|].
  pose proof (Forall2_length _ _ _ F4) as Hl. split; [apply drain_ok; rewrite ?Hi, ?Hi0, ?O1, ?O2; [done|done|lia]|].
  assert (clock s1 = clock_after (clock s) (media_of <$> fs1)) as Hclock by (unfold clock; rewrite O3; exact F3).
  destruct (events_of id (clock s) (media_of <$> fs1)) as [|ev evs] eqn:Eev.
  - split; [done|]. split; [|done]. destruct es; [|done]. constructor; [done|by rewrite Hi|]. rewrite O2. destruct fs1 as [|f fs1]; [|by destruct f].
    cbn in F2. rewrite Hm0 in F2. by rewrite F2.
  - split; [|by split]. clear -Hmid1. destruct Hmid1 as [s fs []|s c h f fs Hc Hva Haa Hsub Hch Hh Hc4|s d p f fs (H1 & H2 & H3) Ep Hp].
    + by constructor.
    + by apply (mid_header id _ c h f fs).
    + apply (mid_payload id _ d p f fs); [|done|done]. split; [done|]. by split.
Qed.

Lemma receive_all_ok n bodies fs s :
  mid id s (concat bodies) fs → polled s → Forall (λ c, vec_len c mod 8 = 0 ∧ vec_len c ≤ (MAX_PENDING - 1) * m) bodies →
  Forall (frame_ok m) fs → quiet fs → Forall (λ f, vec_len (wf_payload f) ≤ n) fs → 0 ≤ n →
  ∃ s', receive_all n bodies s = Ret (Ok (events_of id (clock s) (media_of <$> fs)), s').
Proof.
  intros Hmid Hp Hb. revert fs s Hmid Hp. induction Hb as [|c bodies [Hc Hl] Hb IH]; intros fs s Hmid Hp Hfs Hq Hn Hn0; cbn [receive_all concat] in *.
  { apply mid_end in Hmid as ->. by eexists. }
  assert (vec_len (concat bodies) mod 8 = 0) as Ht.
  { clear -Hb. induction Hb as [|c bodies [Hc _] Hb IH]; [done|]. cbn [concat]. by rewrite vec_len_app, Zplus_mod, Hc, IH. }
  destruct (body_step n c (concat bodies) fs s) as (s1 & s2 & fs1 & fs2 & -> & -> & E & Hmid2 & Hp2 & Hclock); try done. cbn [obind]. rewrite E. cbn [obind].
  apply Forall_app in Hfs as [_ Hfs]. apply Forall_app in Hn as [_ Hn].
  assert (quiet fs2) as Hq2. { clear -Hq. induction fs1 as [|f fs1 IH]; [done|]. cbn [app quiet] in Hq. by apply IH, Hq. }
  destruct (IH fs2 s2 Hmid2 Hp2 Hfs Hq2 Hn Hn0) as [s' ->]. cbn [obind]. exists s'. by rewrite fmap_app, events_of_app, Hclock.
Qed.
End reassembly.

(** C39. Frames do not depend on how a stream is cut: the bodies of a subscribed stream,
    cut anywhere at multiples of eight bytes (through headers, their extensions, payloads
    and audio), and polled after each, give exactly the events of its frames, in order,
    each once, with their data, durations and unwrapped timestamps, and no error.  They are
    the frames the iterator finds in the whole stream.  Frames have at least [m] bytes and
    bodies at most 127 times as many, so that the queue of 128 events never fills; payloads
    are not empty, header extensions are a multiple of eight bytes, and no place of a
    payload where a body may begin looks like a frame. *)
Theorem frames_independent_of_cuts read_xml subs_order codec_order payload_offset r id m n fs bodies :
  id ≠ 0 → is_Some (rt_stream_subs_by_id r !! id) → 0 < m → Forall (frame_ok m) fs → quiet fs →
  Forall (λ f, vec_len (wf_payload f) ≤ n) fs → 0 ≤ n →
  concat bodies = wire_stream fs → Forall (λ c, vec_len c mod 8 = 0 ∧ vec_len c ≤ (MAX_PENDING - 1) * m) bodies →
  ∃ s, receive_all read_xml subs_order codec_order id payload_offset n bodies (session_fresh r)
      = Ret (Ok (events_of id timeline_default (media_of <$> fs)), s) ∧
    parse_media_frames (concat bodies) = Ret (Ok <$> (media_of <$> fs)).
Proof.
  intros Hid Hsub Hm Hfs Hq Hn Hn0 Eb Hb. rewrite Eb, iterator_exact by (by eapply frames_wf).
  destruct (receive_all_ok read_xml subs_order codec_order id m Hm payload_offset n bodies fs (session_fresh r)) as [s E]; try done.
  - rewrite Eb. by constructor.
  - by exists s.
Qed.

(** The stream of the test of [session.rs]: video with 80, 112 and no bytes of header
    extension, audio and padding, cut into bodies of eight bytes. *)
Definition text (s : string) : list Z := (λ c, Z.of_N (Ascii.N_of_ascii c)) <$> String.list_ascii_of_string s.
Definition fixture : list WireFrame :=
  [WVideo (mk_video_ref 0 true H265 (text "keyframe-payload-0123456789") 0) 0 (replicate 80 0xAA);
   WAac false (text "aac-audio-frame");
   WVideo (mk_video_ref 0 false H265 (text "pframe-a") 40000) 0 (replicate 112 0xAA);
   WAac false (text "aac2");
   WVideo (mk_video_ref 0 false H265 (text "pframe-b-with-longer-payload") 80000) 0 []].
Definition fixture_routing : Routing :=
  mk_routing ∅ {[1 := mk_subscription 0 StMain 0 0]} [1] ∅ ∅ ∅ ∅ None.

Lemma fixture_quiet : quiet fixture.
Proof.
  refine (conj _ (conj _ (conj _ (conj _ (conj _ I))))); intros j Hj _;
    do 28 (destruct j as [|j]; [first [vm_compute; reflexivity|exfalso; revert Hj; vm_compute; lia]|]); exfalso; revert Hj; vm_compute; lia.
Qed.
Lemma fixture_ok : Forall (frame_ok 16) fixture.
Proof. repeat constructor; vm_compute; congruence. Qed.
Lemma frames_independent_of_cuts_witness :
  ∃ s, receive_all (λ _, []) map_to_list map_to_list 1 None 64 (chunks 8 (wire_stream fixture)) (session_fresh fixture_routing)
    = Ret (Ok (events_of 1 timeline_default (media_of <$> fixture)), s).
Proof.
  destruct (frames_independent_of_cuts (λ _, []) map_to_list map_to_list None fixture_routing 1 16 64 fixture (chunks 8 (wire_stream fixture)))
    as (s & E & _).
  - done.
  - by eexists.
  - done.
  - apply fixture_ok.
  - apply fixture_quiet.
  - repeat constructor; vm_compute; congruence.
  - done.
  - vm_compute. reflexivity.
  - vm_compute. repeat constructor; congruence.
  - by exists s.
Defined.
