(* ===== verification/StateSchema.v ===== *)
(** * State documents

    The values of the server's state store: [google.protobuf.Struct] documents, the
    errors of the store, and the approved schemas of [server/state_store_schema.rs].

    A [Struct] is the list of the bindings of its [BTreeMap], in key order; a [Value]
    without a kind is [VUnset].  [f64] is [spec_float]. *)

From S2P Require Import Prelude.
From Stdlib Require Export SpecFloat.

Inductive Value :=
| VUnset
| NullValue
| NumberValue (x : spec_float)
| StringValue (s : string)
| BoolValue (b : bool)
| StructValue (fields : list (string * Value))
| ListValue (values : list Value).

Definition Struct : Type := list (string * Value).

Fixpoint fields_get (fields : Struct) (name : string) : option Value :=
  match fields with
  | [] => None
  | (k, v) :: fields' => if str_eqb k name then Some v else fields_get fields' name
  end.

(** ** Errors *)

Inductive Invalid :=
| InvNamespace | InvKey | InvSchema | ValueMissing | ValueTooLarge | NamespaceFull
| StoreFull | InvTtl | WatchNotFound | WatchLimitExceeded | AckAhead.

Inductive Error :=
| NotFound
| Conflict (current_revision : Z)
| NotAuthorized
| InvalidE (i : Invalid)
| Storage (message : string).

#[global] Instance Invalid_eq_dec : EqDecision Invalid.
Proof. solve_decision. Defined.
#[global] Instance Error_eq_dec : EqDecision Error.
Proof. solve_decision. Defined.

Definition schema_error {A : Type} : result Error A := Err (InvalidE InvSchema).
(** [if bad { return Err(Schema) }]. *)
Definition require (b : bool) : result Error unit := if b then Ok tt else schema_error.

(** ** Media intents *)

Definition MEDIA_INTENT_SCHEMA : string := "keeppeek.media-intent.v1".
Definition MAX_ID_CHARS : Z := 128.
(** 1_000_000.0 with its mantissa of 53 bits. *)
Definition MAX_PRIORITY : spec_float := S754_finite false 8589934592000000 (-33).

Definition string_value (field : Value) : option string :=
  match field with StringValue text => Some text | _ => None end.

Definition require_string (value : Struct) (name : string) : result Error string :=
  match fields_get value name ≫= string_value with
  | Some text => Ok text
  | None => schema_error
  end.

Definition require_bool (value : Struct) (name : string) : result Error bool :=
  match fields_get value name with
  | Some (BoolValue enabled) => Ok enabled
  | _ => schema_error
  end.

Definition require_text (text : string) : result Error unit :=
  if (MAX_ID_CHARS <? char_count text) || has_control (bytes_of text) then schema_error else Ok tt.

Definition require_identifier (text : string) : result Error unit :=
  if str_is_empty text then schema_error else require_text text.

Definition validate_recording_mode (value : Struct) (role : string) : result Error unit :=
  match fields_get value "recording_mode" with
  | None => require (negb (str_eqb role "publish"))
  | Some mode =>
      if negb (str_eqb role "publish") then schema_error
      else match string_value mode with
           | Some mode => require (str_eqb mode "inherit" || str_eqb mode "disabled" || str_eqb mode "required")
           | None => schema_error
           end
  end.

Fixpoint validate_texts (value : Struct) (names : list string) : result Error unit :=
  match names with
  | [] => Ok tt
  | name :: names' =>
      match fields_get value name with
      | None => validate_texts value names'
      | Some field =>
          match string_value field with
          | None => schema_error
          | Some text => let? _ := require_text text in validate_texts value names'
          end
      end
  end.

Definition finite (x : spec_float) : bool :=
  match x with S754_zero _ | S754_finite _ _ _ => true | _ => false end.

Definition validate_priority (value : Struct) : result Error unit :=
  match fields_get value "priority" with
  | None => Ok tt
  | Some (NumberValue p) => require (finite p && SFleb (S754_zero false) p && SFleb p MAX_PRIORITY)
  | Some _ => schema_error
  end.

Definition validate_parameters (value : Struct) : result Error unit :=
  match fields_get value "parameters" with
  | None => Ok tt
  | Some (StructValue []) => Ok tt
  | Some _ => schema_error
  end.

Definition MEDIA_INTENT_FIELDS : list string :=
  ["role"; "desired"; "source_id"; "media_kind"; "recording_mode"; "stream_id"; "variant_id";
   "output_profile"; "priority"; "parameters"].

Definition validate_media_intent (value : Struct) : result Error unit :=
  let? role := require_string value "role" in
  let? _ := require (str_eqb role "publish" || str_eqb role "subscribe") in
  let? _ := require_bool value "desired" in
  let? source_id := require_string value "source_id" in
  let? _ := require_identifier source_id in
  let? kind := require_string value "media_kind" in
  let? _ := require (str_eqb kind "audio" || str_eqb kind "video") in
  let? _ := validate_recording_mode value role in
  let? _ := validate_texts value ["stream_id"; "variant_id"; "output_profile"] in
  let? _ := validate_priority value in
  let? _ := validate_parameters value in
  require (forallb (λ f : string * Value, existsb (str_eqb f.1) MEDIA_INTENT_FIELDS) value).

Definition validate_value (schema : string) (value : Struct) : result Error unit :=
  if str_eqb schema MEDIA_INTENT_SCHEMA then validate_media_intent value else schema_error.
