(* ===== verification/StateStore.v ===== *)
(** * The state store in memory

    [Registry] of [server/state_store.rs]: namespaces of versioned entries with
    compare-and-set revisions, leases that expire, and quotas; every change of a
    namespace advances its revision, and expirations are collected as events.

    [encoded_len] is the size prost computes for a document, and [hash_iter] the order
    in which a [HashMap] is visited; both are fields of [StoreEnv]. *)

From S2P Require Import Prelude StateSchema.

Class StoreEnv := {
  encoded_len : Struct → Z;
  hash_iter : ∀ V : Type, gmap string V → list (string * V)
}.
Arguments hash_iter {_} [V] m.

(** A size fits [usize], and an iteration visits every binding once. *)
Class StoreLaws (E : StoreEnv) : Prop := {
  encoded_len_range : ∀ v, 0 ≤ encoded_len v ≤ usize_max;
  hash_iter_perm : ∀ (V : Type) (m : gmap string V), hash_iter m ≡ₚ map_to_list m
}.

Definition MAX_NAMESPACE_CHARS : Z := 128.
Definition MAX_KEY_CHARS : Z := 256.
Definition MAX_SCHEMA_CHARS : Z := 128.
Definition MAX_VALUE_BYTES : Z := 64 * 1024.
Definition MAX_ENTRIES_PER_NAMESPACE : Z := 1024.
Definition MAX_PENDING_EXPIRIES : Z := 4096.
Definition MAX_NAMESPACES : Z := 256.
Definition MAX_TOTAL_VALUE_BYTES : Z := 64 * 1024 * 1024.
Definition MIN_TTL_MS : Z := 1000.
Definition MAX_TTL_MS : Z := 86400000.

Record StoredEntry := mk_entry {
  se_namespace : string;
  se_key : string;
  se_schema : string;
  se_value : Struct;
  se_revision : Z;
  se_updated_ms : Z;
  se_expires_ms : option Z;
  se_owner_id : string
}.

Record ExpiredEntry := mk_expired {
  xe_namespace : string;
  xe_key : string;
  xe_revision : Z;
  xe_schema : string;
  xe_value : Struct;
  xe_owner_id : string;
  xe_expires_ms : Z
}.

Record StoredRecord := mk_record {
  sr_schema : string;
  sr_value : Struct;
  sr_revision : Z;
  sr_updated_ms : Z;
  sr_expires_ms : option Z;
  sr_owner_id : string
}.

Record NamespaceState := mk_namespace {
  ns_revision : Z;
  ns_entries : gmap string StoredRecord
}.

Record Registry := mk_registry {
  namespaces : gmap string NamespaceState;
  pending : list ExpiredEntry;
  pending_overflowed : bool;
  stored_bytes : Z
}.
Definition registry_default : Registry := mk_registry ∅ [] false 0.
Definition namespace_default : NamespaceState := mk_namespace 0 ∅.

(** [prost_types::Duration]. *)
Record Duration := mk_duration { d_seconds : Z; d_nanos : Z }.

Inductive NamespaceLayout :=
| System
| Service
| Group
| User (owner : string).

(** ** Names *)

Definition slash : Ascii.ascii := Ascii.ascii_of_N 47.
Definition namespace_error {A : Type} : result Error A := Err (InvalidE InvNamespace).
Definition key_error {A : Type} : result Error A := Err (InvalidE InvKey).

Definition is_namespace_segment (segment : string) : bool :=
  negb (str_is_empty segment) && (str_len segment <=? 64)
  && forallb (λ b, ((97 <=? b) && (b <=? 122)) || ((48 <=? b) && (b <=? 57)) || (b =? 45)) (bytes_of segment).

Definition validate_namespace (namespace : string) : result Error NamespaceLayout :=
  if MAX_NAMESPACE_CHARS <? str_len namespace then namespace_error
  else match strip_last slash namespace with
       | None => namespace_error
       | Some inner =>
           match str_split slash inner with
           | [] => namespace_error
           | [top] => if str_eqb top "system" then Ok System else namespace_error
           | [top; scope] =>
               if negb (is_namespace_segment top) || negb (is_namespace_segment scope) then namespace_error
               else if str_eqb top "service" then Ok Service
               else if str_eqb top "group" then Ok Group
               else if str_eqb top "user" then Ok (User scope)
               else namespace_error
           | _ => namespace_error
           end
       end.

Definition name_byte (b : Z) : bool := is_ascii_alphanumeric b || (b =? 46) || (b =? 95) || (b =? 45).

Definition is_key_segment (segment : string) : bool :=
  if str_is_empty segment || (128 <? str_len segment) || str_eqb segment "." || str_eqb segment ".."
  then false
  else forallb name_byte (bytes_of segment).

Definition validate_key (key : string) : result Error unit :=
  if str_is_empty key || (MAX_KEY_CHARS <? str_len key) then key_error
  else if forallb is_key_segment (str_split slash key) then Ok tt else key_error.

Definition validate_schema (schema : string) : result Error unit :=
  if str_is_empty schema || (MAX_SCHEMA_CHARS <? str_len schema) then schema_error
  else if forallb name_byte (bytes_of schema) then Ok tt else schema_error.

Definition validate_key_prefix (prefix : string) : result Error unit :=
  let stripped := unwrap_or (strip_last slash prefix) prefix in
  if str_is_empty stripped then key_error else validate_key stripped.

Definition ttl_error {A : Type} : result Error A := Err (InvalidE InvTtl).

Definition ttl_expiry_ms (ttl : Duration) (now_ms : Z) : result Error Z :=
  if (d_nanos ttl <? 0) || (999999999 <? d_nanos ttl) then ttl_error
  else if d_seconds ttl <? 0 then ttl_error
  else if negb (d_seconds ttl * 1000 <=? u64_max) then ttl_error
  else match checked_add u64_max (d_seconds ttl * 1000) (d_nanos ttl / 1000000) with
       | None => ttl_error
       | Some millis =>
           if millis <? MIN_TTL_MS then ttl_error
           else match checked_add u64_max now_ms (Z.min millis MAX_TTL_MS) with
                | Some t => Ok t
                | None => ttl_error
                end
       end.

Definition authorize_write (layout : NamespaceLayout) (owner_id : string) (writer_admin : bool)
    : result Error unit :=
  match layout with
  | System => Err NotAuthorized
  | Service | Group => if writer_admin then Ok tt else Err NotAuthorized
  | User owner => if str_eqb owner_id owner || writer_admin then Ok tt else Err NotAuthorized
  end.

Definition authorize_read (layout : NamespaceLayout) (owner_id : string) (reader_admin : bool)
    : result Error unit :=
  match layout with
  | System | Service | Group => if reader_admin then Ok tt else Err NotAuthorized
  | User owner => if str_eqb owner_id owner || reader_admin then Ok tt else Err NotAuthorized
  end.

Definition check_expected (expected current : option Z) : result Error unit :=
  match expected, current with
  | None, _ => Ok tt
  | Some wanted, None => if wanted =? 0 then Ok tt else Err NotFound
  | Some wanted, Some have =>
      if wanted =? 0 then Err (Conflict have)
      else if wanted =? have then Ok tt
      else Err (Conflict have)
  end.

Definition is_expired (record : StoredRecord) (now_ms : Z) : bool :=
  is_some_and (λ expires_ms, expires_ms <=? now_ms) (sr_expires_ms record).

Definition entry_of (namespace key : string) (r : StoredRecord) : StoredEntry :=
  mk_entry namespace key (sr_schema r) (sr_value r) (sr_revision r) (sr_updated_ms r) (sr_expires_ms r)
    (sr_owner_id r).
Definition record_of (e : StoredEntry) : StoredRecord :=
  mk_record (se_schema e) (se_value e) (se_revision e) (se_updated_ms e) (se_expires_ms e) (se_owner_id e).

(** [checked_add(1).expect("namespace revision overflow")]. *)
Definition next_revision (revision : Z) : outcome Z :=
  match checked_add u64_max revision 1 with Some r => Ret r | None => Panic end.

(** [sort_unstable] on strings and on pairs of them. *)
Definition str_le (a b : string) : Prop := str_leb a b = true.
#[global] Instance str_le_dec : RelDecision str_le.
Proof. intros a b. unfold str_le. apply _. Defined.
Definition sort_strings (l : list string) : list string := merge_sort str_le l.
Definition pair_le (a b : string * string) : Prop :=
  str_ltb a.1 b.1 = true ∨ a.1 = b.1 ∧ str_leb a.2 b.2 = true.
#[global] Instance pair_le_dec : RelDecision pair_le.
Proof. intros a b. unfold pair_le. apply _. Defined.

(** ** The registry *)

Section registry.
Context `{E : StoreEnv}.

Definition value_bytes (value : Struct) : Z := encoded_len value.

Definition find_record (r : Registry) (namespace key : string) : option StoredRecord :=
  namespaces r !! namespace ≫= λ st, ns_entries st !! key.

Definition push_pending (r : Registry) (expired : ExpiredEntry) : Registry :=
  if MAX_PENDING_EXPIRIES <=? vec_len (pending r)
  then mk_registry (namespaces r) (tail (pending r) ++ [expired]) true (stored_bytes r)
  else mk_registry (namespaces r) (pending r ++ [expired]) (pending_overflowed r) (stored_bytes r).

Definition expire_key_if_due (r : Registry) (namespace key : string) (now_ms : Z) : outcome Registry :=
  match namespaces r !! namespace with
  | None => Ret r
  | Some state =>
      match ns_entries state !! key with
      | None => Ret r
      | Some record =>
          if negb (is_expired record now_ms) then Ret r
          else
            let! revision := next_revision (ns_revision state) in
            Ret (push_pending
              (mk_registry
                (<[namespace := mk_namespace revision (delete key (ns_entries state))]> (namespaces r))
                (pending r) (pending_overflowed r)
                (saturating_sub (stored_bytes r) (value_bytes (sr_value record))))
              (mk_expired namespace key revision (sr_schema record) (sr_value record) (sr_owner_id record)
                (unwrap_or (sr_expires_ms record) now_ms)))
      end
  end.

Fixpoint expire_all (r : Registry) (due : list (string * string)) (now_ms : Z) : outcome Registry :=
  match due with
  | [] => Ret r
  | (namespace, key) :: due' =>
      let! r := expire_key_if_due r namespace key now_ms in
      expire_all r due' now_ms
  end.

Definition reclaim_namespace (r : Registry) (namespace : string) (now_ms : Z) : outcome Registry :=
  let expired :=
    match namespaces r !! namespace with
    | None => []
    | Some state =>
        (λ e : string * StoredRecord, (namespace, e.1))
          <$> base.filter (λ e : string * StoredRecord, is_expired e.2 now_ms = true)
                (hash_iter (ns_entries state))
    end in
  expire_all r expired now_ms.

(** The checks of a put that read no state: the value and the expiry. *)
Definition put_request (namespace key schema : string) (value : option Struct) (ttl : option Duration)
    (owner_id : string) (writer_admin : bool) (now_ms : Z) : result Error (Struct * option Z) :=
  let? layout := validate_namespace namespace in
  let? _ := validate_key key in
  let? _ := validate_schema schema in
  match value with
  | None => Err (InvalidE ValueMissing)
  | Some value =>
      if MAX_VALUE_BYTES <? encoded_len value then Err (InvalidE ValueTooLarge)
      else
        let? expires_ms :=
          match ttl with
          | None => Ok None
          | Some ttl => let? t := ttl_expiry_ms ttl now_ms in Ok (Some t)
          end in
        let? _ := authorize_write layout owner_id writer_admin in
        let? _ := validate_value schema value in
        Ok (value, expires_ms)
  end.

(** Room for a key that is not there yet. *)
Definition admit_key (r : Registry) (namespace : string) (now_ms : Z)
    : outcome (result Error unit * Registry) :=
  if bool_decide (namespaces r !! namespace = None) then
    Ret (if MAX_NAMESPACES <=? Z.of_nat (size (namespaces r)) then Err (InvalidE StoreFull) else Ok tt, r)
  else
    let! r := reclaim_namespace r namespace now_ms in
    match namespaces r !! namespace with
    | None => Panic
    | Some state =>
        Ret (if MAX_ENTRIES_PER_NAMESPACE <=? Z.of_nat (size (ns_entries state))
             then Err (InvalidE NamespaceFull) else Ok tt, r)
    end.

(** The byte quota, and the new record. *)
Definition store_record (r : Registry) (namespace key schema : string) (value : Struct)
    (expires_ms : option Z) (owner_id : string) (now_ms : Z)
    : outcome (result Error StoredEntry * Registry) :=
  let old_bytes :=
    match find_record r namespace key with Some record => value_bytes (sr_value record) | None => 0 end in
  let total_bytes :=
    saturating_sub (saturating_add u64_max (stored_bytes r) (value_bytes value)) old_bytes in
  if MAX_TOTAL_VALUE_BYTES <? total_bytes then Ret (Err (InvalidE StoreFull), r)
  else
    let state := unwrap_or (namespaces r !! namespace) namespace_default in
    let! revision := next_revision (ns_revision state) in
    let record := mk_record schema value revision now_ms expires_ms owner_id in
    Ret (Ok (entry_of namespace key record),
         mk_registry
           (<[namespace := mk_namespace revision (<[key := record]> (ns_entries state))]> (namespaces r))
           (pending r) (pending_overflowed r) total_bytes).

Definition put (r : Registry) (namespace key schema : string) (value : option Struct)
    (expected_revision : option Z) (ttl : option Duration) (owner_id : string) (writer_admin : bool)
    (now_ms : Z) : outcome (result Error StoredEntry * Registry) :=
  match put_request namespace key schema value ttl owner_id writer_admin now_ms with
  | Err e => Ret (Err e, r)
  | Ok (value, expires_ms) =>
      let! r := expire_key_if_due r namespace key now_ms in
      let current := sr_revision <$> find_record r namespace key in
      match check_expected expected_revision current with
      | Err e => Ret (Err e, r)
      | Ok _ =>
          let! (admitted, r) :=
            match current with
            | Some _ => Ret (Ok tt, r)
            | None => admit_key r namespace now_ms
            end in
          match admitted with
          | Err e => Ret (Err e, r)
          | Ok _ => store_record r namespace key schema value expires_ms owner_id now_ms
          end
      end
  end.

Definition get (r : Registry) (namespace key owner_id : string) (reader_admin : bool) (now_ms : Z)
    : outcome (result Error StoredEntry * Registry) :=
  match (let? layout := validate_namespace namespace in
         let? _ := authorize_read layout owner_id reader_admin in
         validate_key key) with
  | Err e => Ret (Err e, r)
  | Ok _ =>
      let! r := expire_key_if_due r namespace key now_ms in
      Ret (match find_record r namespace key with
           | Some record => Ok (entry_of namespace key record)
           | None => Err NotFound
           end, r)
  end.

Definition delete_request (namespace key owner_id : string) (writer_admin : bool) : result Error unit :=
  let? layout := validate_namespace namespace in
  let? _ := validate_key key in
  authorize_write layout owner_id writer_admin.

Definition delete_entry (r : Registry) (namespace key : string) (expected_revision : option Z)
    (owner_id : string) (writer_admin : bool) (now_ms : Z) : outcome (result Error Z * Registry) :=
  match delete_request namespace key owner_id writer_admin with
  | Err e => Ret (Err e, r)
  | Ok _ =>
      let! r := expire_key_if_due r namespace key now_ms in
      match namespaces r !! namespace with
      | None => Ret (Err NotFound, r)
      | Some state =>
          match check_expected expected_revision (sr_revision <$> ns_entries state !! key) with
          | Err e => Ret (Err e, r)
          | Ok _ =>
              match ns_entries state !! key with
              | None => Ret (Err NotFound, r)
              | Some removed =>
                  let! revision := next_revision (ns_revision state) in
                  Ret (Ok revision,
                       mk_registry
                         (<[namespace := mk_namespace revision (delete key (ns_entries state))]> (namespaces r))
                         (pending r) (pending_overflowed r)
                         (saturating_sub (stored_bytes r) (value_bytes (sr_value removed))))
              end
          end
      end
  end.

Definition drain_pending (r : Registry) : list ExpiredEntry * bool * Registry :=
  (pending r, pending_overflowed r, mk_registry (namespaces r) [] false (stored_bytes r)).

Definition all_due (r : Registry) (now_ms : Z) : list (string * string) :=
  mjoin ((λ n : string * NamespaceState,
            (λ e : string * StoredRecord, (n.1, e.1))
              <$> base.filter (λ e : string * StoredRecord, is_expired e.2 now_ms = true)
                    (hash_iter (ns_entries n.2)))
         <$> hash_iter (namespaces r)).

Definition expire_due (r : Registry) (now_ms : Z) : outcome (list ExpiredEntry * bool * Registry) :=
  let! r := expire_all r (merge_sort pair_le (all_due r now_ms)) now_ms in
  Ret (drain_pending r).

Definition due_keys (r : Registry) (namespace key_prefix : string) (now_ms : Z) : list string :=
  match namespaces r !! namespace with
  | None => []
  | Some state =>
      sort_strings (fst <$> base.filter (λ e : string * StoredRecord,
        str_prefix key_prefix e.1 && is_expired e.2 now_ms = true) (hash_iter (ns_entries state)))
  end.

Definition apply_expiration (r : Registry) (expired : ExpiredEntry) : Registry :=
  let state := unwrap_or (namespaces r !! xe_namespace expired) namespace_default in
  let freed :=
    match ns_entries state !! xe_key expired with Some record => value_bytes (sr_value record) | None => 0 end in
  push_pending
    (mk_registry
      (<[xe_namespace expired :=
           mk_namespace (Z.max (ns_revision state) (xe_revision expired))
             (delete (xe_key expired) (ns_entries state))]> (namespaces r))
      (pending r) (pending_overflowed r) (saturating_sub (stored_bytes r) freed))
    expired.
Definition apply_expirations (r : Registry) (entries : list ExpiredEntry) : Registry :=
  foldl apply_expiration r entries.

Definition import_entry (r : Registry) (namespace : string) (entry : StoredEntry) : Registry :=
  let state := unwrap_or (namespaces r !! namespace) namespace_default in
  mk_registry
    (<[namespace := mk_namespace (ns_revision state) (<[se_key entry := record_of entry]> (ns_entries state))]>
      (namespaces r))
    (pending r) (pending_overflowed r)
    (saturating_add u64_max (stored_bytes r) (value_bytes (se_value entry))).
Definition import_namespace (r : Registry) (namespace : string) (revision : Z) (entries : list StoredEntry)
    : Registry :=
  let state := unwrap_or (namespaces r !! namespace) namespace_default in
  foldl (λ r e, import_entry r namespace e)
    (mk_registry
      (<[namespace := mk_namespace (Z.max (ns_revision state) revision) (ns_entries state)]> (namespaces r))
      (pending r) (pending_overflowed r) (stored_bytes r))
    entries.

Definition snapshot (r : Registry) (namespace key_prefix : string) (now_ms : Z)
    : outcome (Z * list StoredEntry * Registry) :=
  let keys :=
    match namespaces r !! namespace with
    | None => []
    | Some state =>
        sort_strings (base.filter (λ key, str_prefix key_prefix key = true) (fst <$> hash_iter (ns_entries state)))
    end in
  let! r := expire_all r ((λ key, (namespace, key)) <$> keys) now_ms in
  let revision := match namespaces r !! namespace with Some state => ns_revision state | None => 0 end in
  Ret (revision, omap (λ key, entry_of namespace key <$> find_record r namespace key) keys, r).

End registry.
