(* ===== verification/StateStoreInv.v ===== *)
(** * The invariant of the state store

    What every registry of [StateStore] satisfies: entries are valid and within their
    quotas, revisions are distinct and below the namespace's, the byte count is exact. *)

From S2P Require Import Prelude StateSchema StateStore.

Section inv.
Context `{E : StoreEnv} {L : StoreLaws E}.

Definition record_bytes (rec : StoredRecord) : Z := encoded_len (sr_value rec).
Definition ns_records (st : NamespaceState) : list StoredRecord := snd <$> map_to_list (ns_entries st).
Definition total_bytes (m : gmap string NamespaceState) : Z := zsum record_bytes (map_flat ns_records m).

Record record_ok (revision : Z) (key : string) (rec : StoredRecord) : Prop := {
  rec_key : validate_key key = Ok tt;
  rec_schema : validate_schema (sr_schema rec) = Ok tt;
  rec_value : validate_value (sr_schema rec) (sr_value rec) = Ok tt;
  rec_size : encoded_len (sr_value rec) ≤ MAX_VALUE_BYTES;
  rec_revision : 1 ≤ sr_revision rec ≤ revision;
  rec_updated : 0 ≤ sr_updated_ms rec;
  rec_expires : ∀ t, sr_expires_ms rec = Some t → 0 ≤ t;
  rec_owner : str_len (sr_owner_id rec) ≤ 256
}.

Record namespace_ok (name : string) (st : NamespaceState) : Prop := {
  nso_name : ∃ layout, validate_namespace name = Ok layout ∧ layout ≠ System;
  nso_revision : 0 ≤ ns_revision st;
  nso_size : Z.of_nat (size (ns_entries st)) ≤ MAX_ENTRIES_PER_NAMESPACE;
  nso_records : ∀ key rec, ns_entries st !! key = Some rec → record_ok (ns_revision st) key rec;
  nso_distinct : ∀ k1 k2 r1 r2, ns_entries st !! k1 = Some r1 → ns_entries st !! k2 = Some r2 →
    sr_revision r1 = sr_revision r2 → k1 = k2
}.

Record registry_ok (r : Registry) : Prop := {
  ro_bytes : stored_bytes r = total_bytes (namespaces r);
  ro_limit : stored_bytes r ≤ MAX_TOTAL_VALUE_BYTES;
  ro_count : Z.of_nat (size (namespaces r)) ≤ MAX_NAMESPACES;
  ro_namespaces : ∀ name st, namespaces r !! name = Some st → namespace_ok name st;
  ro_pending : vec_len (pending r) ≤ MAX_PENDING_EXPIRIES
}.

Lemma record_bytes_nonneg rec : 0 ≤ record_bytes rec.
Proof. apply encoded_len_range. Qed.

Lemma registry_default_ok : registry_ok registry_default.
Proof. by split; cbn. Qed.

(** ** The byte count *)

Lemma ns_records_delete st rev key rec :
  ns_entries st !! key = Some rec →
  ns_records st ≡ₚ rec :: ns_records (mk_namespace rev (delete key (ns_entries st))).
Proof.
  intros Hk. unfold ns_records. cbn [ns_entries].
  by rewrite <-(map_to_list_delete (ns_entries st) key rec Hk).
Qed.
Lemma ns_records_insert st rev key rec :
  ns_entries st !! key = None →
  ns_records (mk_namespace rev (<[key := rec]> (ns_entries st))) ≡ₚ rec :: ns_records st.
Proof. intros Hk. unfold ns_records. cbn [ns_entries]. by rewrite (map_to_list_insert _ _ _ Hk). Qed.

Lemma total_bytes_update m name st st' :
  m !! name = Some st →
  total_bytes (<[name := st']> m) = total_bytes m - zsum record_bytes (ns_records st) + zsum record_bytes (ns_records st').
Proof.
  intros Hm. unfold total_bytes.
  pose proof (zsum_perm record_bytes _ _ (map_flat_insert_Some ns_records m name st st' Hm)) as H.
  rewrite !zsum_app in H. lia.
Qed.
Lemma total_bytes_fresh m name st' :
  m !! name = None → total_bytes (<[name := st']> m) = total_bytes m + zsum record_bytes (ns_records st').
Proof.
  intros Hm. unfold total_bytes.
  pose proof (zsum_perm record_bytes _ _ (map_flat_insert_None ns_records m name st' Hm)) as H.
  rewrite zsum_app in H. lia.
Qed.
Lemma total_bytes_nonneg m : 0 ≤ total_bytes m.
Proof. apply zsum_nonneg, record_bytes_nonneg. Qed.

Lemma total_bytes_delete m name st rev key rec :
  m !! name = Some st → ns_entries st !! key = Some rec →
  total_bytes (<[name := mk_namespace rev (delete key (ns_entries st))]> m) = total_bytes m - record_bytes rec.
Proof.
  intros Hm Hk. rewrite (total_bytes_update m name st _ Hm).
  rewrite (zsum_perm record_bytes _ _ (ns_records_delete st rev key rec Hk)). cbn [zsum foldr]. 
  change (foldr (λ a z, record_bytes a + z) 0) with (zsum record_bytes). lia.
Qed.
(** An insertion replaces what the key held. *)
Lemma total_bytes_insert m name st rev key rec :
  unwrap_or (m !! name) namespace_default = st →
  total_bytes (<[name := mk_namespace rev (<[key := rec]> (ns_entries st))]> m)
  = total_bytes m + record_bytes rec
    - match ns_entries st !! key with Some old => record_bytes old | None => 0 end.
Proof.
  intros Hst.
  assert (zsum record_bytes (ns_records (mk_namespace rev (<[key := rec]> (ns_entries st))))
    = zsum record_bytes (ns_records st) + record_bytes rec
      - match ns_entries st !! key with Some old => record_bytes old | None => 0 end) as Hz.
  { destruct (ns_entries st !! key) as [old|] eqn:Hk.
    - rewrite <-(insert_delete_eq (ns_entries st) key rec).
      change (delete key (ns_entries st)) with (ns_entries (mk_namespace rev (delete key (ns_entries st)))).
      rewrite (zsum_perm record_bytes _ _ (ns_records_insert (mk_namespace rev (delete key (ns_entries st))) rev key rec
        (lookup_delete_eq _ _))).
      rewrite (zsum_perm record_bytes _ _ (ns_records_delete st rev key old Hk)), !zsum_cons. lia.
    - rewrite (zsum_perm record_bytes _ _ (ns_records_insert st rev key rec Hk)), zsum_cons. lia. }
  destruct (m !! name) as [st0|] eqn:Hm; cbn in Hst; subst.
  - rewrite (total_bytes_update m name st _ Hm), Hz. lia.
  - rewrite (total_bytes_fresh m name _ Hm), Hz. unfold ns_records at 1. cbn [ns_entries namespace_default].
    rewrite map_to_list_empty, fmap_nil, zsum_nil. lia.
Qed.

(** A stored record is part of the count. *)
Lemma record_le_total m name st key rec :
  m !! name = Some st → ns_entries st !! key = Some rec → record_bytes rec ≤ total_bytes m.
Proof.
  intros Hm Hk. pose proof (total_bytes_delete m name st 0 key rec Hm Hk).
  pose proof (total_bytes_nonneg (<[name := mk_namespace 0 (delete key (ns_entries st))]> m)). lia.
Qed.

(** ** Changes that keep the invariant *)

Lemma record_ok_mono rev rev' key rec : rev ≤ rev' → record_ok rev key rec → record_ok rev' key rec.
Proof. intros Hle []. split; try done. lia. Qed.

Lemma namespace_ok_delete name st rev key :
  namespace_ok name st → ns_revision st ≤ rev → namespace_ok name (mk_namespace rev (delete key (ns_entries st))).
Proof.
  intros [Hn Hr Hs Hrec Hd] Hle. split; cbn [ns_revision ns_entries]; [done|lia| | |].
  - pose proof (map_subset_size (delete key (ns_entries st)) (ns_entries st)) as _.
    pose proof (subseteq_size (dom (delete key (ns_entries st))) (dom (ns_entries st)) ltac:(set_solver)) as H.
    rewrite !size_dom in H. lia.
  - intros k rec [_ Hk]%lookup_delete_Some. eapply record_ok_mono; [done|by apply Hrec].
  - intros k1 k2 r1 r2 [_ H1]%lookup_delete_Some [_ H2]%lookup_delete_Some. by apply Hd.
Qed.

Lemma namespace_ok_insert name st rev key rec :
  namespace_ok name st → ns_revision st < rev → sr_revision rec = rev → record_ok rev key rec →
  (ns_entries st !! key = None → Z.of_nat (size (ns_entries st)) < MAX_ENTRIES_PER_NAMESPACE) →
  namespace_ok name (mk_namespace rev (<[key := rec]> (ns_entries st))).
Proof.
  intros [Hn Hr Hs Hrec Hd] Hlt Hrev Hok Hroom. split; cbn [ns_revision ns_entries]; [done|lia| | |].
  - destruct (ns_entries st !! key) as [old|] eqn:Hk.
    + rewrite map_size_insert_Some by eauto. done.
    + rewrite map_size_insert_None by done. specialize (Hroom eq_refl). lia.
  - intros k r Hk. destruct (decide (k = key)) as [->|Hne].
    + rewrite lookup_insert_eq in Hk. by simplify_eq.
    + rewrite lookup_insert_ne in Hk by done. eapply record_ok_mono; [|by apply Hrec]. lia.
  - assert (∀ k r, ns_entries st !! k = Some r → sr_revision r ≠ rev) as Hold.
    { intros k r Hk. destruct (rec_revision _ _ _ (Hrec k r Hk)). lia. }
    intros k1 k2 r1 r2 H1 H2 Heq.
    destruct (decide (k1 = key)) as [->|H1n], (decide (k2 = key)) as [->|H2n]; [done| | |].
    + rewrite lookup_insert_eq in H1. rewrite lookup_insert_ne in H2 by done. simplify_eq.
      exfalso. eapply Hold; [exact H2|congruence].
    + rewrite lookup_insert_eq in H2. rewrite lookup_insert_ne in H1 by done. simplify_eq.
      exfalso. eapply Hold; [exact H1|congruence].
    + rewrite lookup_insert_ne in H1, H2 by done. by apply (Hd k1 k2 r1 r2).
Qed.

Lemma size_update {V} (m : gmap string V) k v v' : m !! k = Some v → size (<[k := v']> m) = size m.
Proof. intros Hk. apply map_size_insert_Some. eauto. Qed.

Lemma size_delete_found {V} (m : gmap string V) k v : m !! k = Some v → size m = S (size (delete k m)).
Proof.
  intros Hk. rewrite <-(insert_delete_id m k v Hk) at 1. by rewrite map_size_insert_None by apply lookup_delete_eq.
Qed.

(** Dropping an entry. *)
Lemma registry_ok_delete r name st key rec rev p o :
  registry_ok r → namespaces r !! name = Some st → ns_entries st !! key = Some rec → ns_revision st ≤ rev →
  vec_len p ≤ MAX_PENDING_EXPIRIES →
  registry_ok (mk_registry (<[name := mk_namespace rev (delete key (ns_entries st))]> (namespaces r)) p o
    (saturating_sub (stored_bytes r) (record_bytes rec)))
  ∧ saturating_sub (stored_bytes r) (record_bytes rec) = stored_bytes r - record_bytes rec.
Proof.
  intros [Hb Hl Hc Hn Hp] Hst Hk Hle Hp'.
  pose proof (record_le_total _ _ _ _ _ Hst Hk) as Hr. pose proof (record_bytes_nonneg rec).
  assert (saturating_sub (stored_bytes r) (record_bytes rec) = stored_bytes r - record_bytes rec) as Heq
    by (unfold saturating_sub; lia).
  split; [|done]. split; cbn [namespaces pending stored_bytes]; rewrite ?Heq.
  - rewrite (total_bytes_delete _ _ _ _ _ _ Hst Hk). lia.
  - lia.
  - by rewrite (size_update _ _ _ _ Hst).
  - intros name' st' H'. destruct (decide (name' = name)) as [->|Hne].
    + rewrite lookup_insert_eq in H'. simplify_eq. apply namespace_ok_delete; [by apply Hn|done].
    + rewrite lookup_insert_ne in H' by done. by apply Hn.
  - done.
Qed.

Lemma push_pending_fields r e :
  namespaces (push_pending r e) = namespaces r ∧ stored_bytes (push_pending r e) = stored_bytes r
  ∧ (vec_len (pending r) ≤ MAX_PENDING_EXPIRIES → vec_len (pending (push_pending r e)) ≤ MAX_PENDING_EXPIRIES)
  ∧ (pending_overflowed (push_pending r e) = false →
       pending_overflowed r = false ∧ pending (push_pending r e) = pending r ++ [e]).
Proof.
  unfold push_pending. split_match; cbn [namespaces stored_bytes pending pending_overflowed]; reflect_bools; split_and!; try done.
  - unfold vec_len, MAX_PENDING_EXPIRIES in *. rewrite length_app. cbn [length]. intros H.
    destruct (pending r) as [|x l]; cbn [length tail] in *; lia.
  - unfold vec_len in *. rewrite length_app. cbn [length]. lia.
Qed.

Lemma registry_ok_push r e : registry_ok r → registry_ok (push_pending r e).
Proof.
  destruct (push_pending_fields r e) as (Hn & Hs & Hp & _). intros [H1 H2 H3 H4 H5].
  split; rewrite ?Hn, ?Hs; auto.
Qed.

Lemma registry_ok_drained r : registry_ok r → registry_ok (drain_pending r).2.
Proof. intros [H1 H2 H3 H4 H5]. by split. Qed.

(** ** Expiry *)

Lemma next_revision_Ret z z' : next_revision z = Ret z' ↔ z' = z + 1 ∧ z + 1 ≤ u64_max.
Proof.
  unfold next_revision. destruct (checked_add u64_max z 1) as [y|] eqn:H.
  - apply checked_add_Some in H as [-> Hle]. naive_solver.
  - split; [done|]. intros [-> Hle]. unfold checked_add in H. by rewrite (proj2 (Z.leb_le _ _) Hle) in H.
Qed.

(** A key that is due. *)
Definition due (r : Registry) (name key : string) (now : Z) : Prop :=
  ∃ rec, find_record r name key = Some rec ∧ is_expired rec now = true.

Lemma find_record_Some r name key rec :
  find_record r name key = Some rec ↔ ∃ st, namespaces r !! name = Some st ∧ ns_entries st !! key = Some rec.
Proof. unfold find_record. by rewrite bind_Some. Qed.

(** What expiring a key does: nothing, or its removal, one revision and one event. *)
Lemma expire_key_spec r name key now :
  (¬ due r name key now ∧ expire_key_if_due r name key now = Ret r)
  ∨ (∃ st rec, namespaces r !! name = Some st ∧ ns_entries st !! key = Some rec ∧ is_expired rec now = true
      ∧ expire_key_if_due r name key now =
          obind (next_revision (ns_revision st)) (λ rev,
            Ret (push_pending
              (mk_registry (<[name := mk_namespace rev (delete key (ns_entries st))]> (namespaces r))
                (pending r) (pending_overflowed r) (saturating_sub (stored_bytes r) (record_bytes rec)))
              (mk_expired name key rev (sr_schema rec) (sr_value rec) (sr_owner_id rec)
                (unwrap_or (sr_expires_ms rec) now))))).
Proof.
  unfold expire_key_if_due, due, find_record.
  destruct (namespaces r !! name) as [st|] eqn:Hst; cbn; [|left; split; [naive_solver|done]].
  destruct (ns_entries st !! key) as [rec|] eqn:Hk; [|left; split; [naive_solver|done]].
  destruct (is_expired rec now) eqn:He; cbn [negb];
    [|left; split; [intros (rec' & [= <-] & H'); congruence|done]].
  right. by exists st, rec.
Qed.

Lemma expire_key_ok r name key now r' :
  registry_ok r → expire_key_if_due r name key now = Ret r' → registry_ok r'.
Proof.
  intros Hok H. destruct (expire_key_spec r name key now) as [[_ He]|(st & rec & Hst & Hk & _ & He)];
    rewrite He in H; [by simplify_eq|].
  destruct (next_revision _) as [rev|] eqn:Hr; [|done]. apply next_revision_Ret in Hr as [-> _]. cbn [obind] in H.
  injection H as <-. apply registry_ok_push.
  eapply registry_ok_delete; [done|done|done|lia|by apply ro_pending].
Qed.

Lemma expire_key_bytes r name key now r' :
  registry_ok r → expire_key_if_due r name key now = Ret r' → stored_bytes r' ≤ stored_bytes r.
Proof.
  intros Hok H. destruct (expire_key_spec r name key now) as [[_ He]|(st & rec & Hst & Hk & _ & He)];
    rewrite He in H; [by simplify_eq|].
  destruct (next_revision _) as [rev|] eqn:Hr; [|done]. cbn [obind] in H. injection H as <-.
  rewrite (proj1 (proj2 (push_pending_fields _ _))). cbn [stored_bytes].
  pose proof (record_bytes_nonneg rec). pose proof (record_le_total _ _ _ _ _ Hst Hk).
  rewrite <-(ro_bytes _ Hok) in *. unfold saturating_sub. lia.
Qed.

Lemma expire_all_ok l r now r' : registry_ok r → expire_all r l now = Ret r' → registry_ok r'.
Proof.
  revert r. induction l as [|[name key] l IH]; intros r Hok; cbn [expire_all]; [by intros [= <-]|].
  destruct (expire_key_if_due r name key now) as [r1|] eqn:H1; [|done]. cbn [obind].
  apply IH. by eapply expire_key_ok.
Qed.

Lemma expire_all_bytes l r now r' :
  registry_ok r → expire_all r l now = Ret r' → stored_bytes r' ≤ stored_bytes r.
Proof.
  revert r. induction l as [|[name key] l IH]; intros r Hok; cbn [expire_all]; [by intros [= <-]|].
  destruct (expire_key_if_due r name key now) as [r1|] eqn:H1; [|done]. cbn [obind]. intros H.
  pose proof (expire_key_bytes _ _ _ _ _ Hok H1). pose proof (IH r1 (expire_key_ok _ _ _ _ _ Hok H1) H). lia.
Qed.

(** Expiry trades entries for revisions one by one: their sum stays, so there is room for
    every entry to expire. *)
Definition revision_room (r : Registry) : Prop :=
  ∀ name st, namespaces r !! name = Some st → ns_revision st + Z.of_nat (size (ns_entries st)) ≤ u64_max.

Lemma expire_key_total r name key now :
  revision_room r →
  ∃ r', expire_key_if_due r name key now = Ret r' ∧ revision_room r'.
Proof.
  intros Hroom. destruct (expire_key_spec r name key now) as [[_ He]|(st & rec & Hst & Hk & _ & He)];
    rewrite He; [by exists r|].
  pose proof (size_delete_found _ _ _ Hk) as Hsz. pose proof (Hroom _ _ Hst).
  assert (next_revision (ns_revision st) = Ret (ns_revision st + 1)) as -> by (apply next_revision_Ret; lia).
  eexists. split; [done|]. intros name' st'.
  rewrite (proj1 (push_pending_fields _ _)). cbn [namespaces]. destruct (decide (name' = name)) as [->|Hne].
  - rewrite lookup_insert_eq. intros [= <-]. cbn [ns_revision ns_entries]. lia.
  - rewrite lookup_insert_ne by done. apply Hroom.
Qed.

Lemma expire_all_total l r now :
  revision_room r → ∃ r', expire_all r l now = Ret r' ∧ revision_room r'.
Proof.
  revert r. induction l as [|[name key] l IH]; intros r Hroom; cbn [expire_all]; [by exists r|].
  destruct (expire_key_total r name key now Hroom) as (r1 & -> & H1). by apply IH.
Qed.

(** ** Expiry of several keys of one namespace *)

Lemma expire_key_ns r name key now r' st :
  namespaces r !! name = Some st → expire_key_if_due r name key now = Ret r' →
  ∃ st', namespaces r' = <[name := st']> (namespaces r)
    ∧ ns_revision st' + Z.of_nat (size (ns_entries st')) = ns_revision st + Z.of_nat (size (ns_entries st))
    ∧ (∀ k, ns_entries st' !! k =
         match ns_entries st !! k with
         | Some rec => if bool_decide (k = key) && is_expired rec now then None else Some rec
         | None => None
         end).
Proof.
  intros Hst H. destruct (expire_key_spec r name key now) as [[Hn He]|(st0 & rec & Hst0 & Hk & Hx & He)];
    rewrite He in H.
  - injection H as <-. exists st. rewrite insert_id by done. split_and!; [done|done|]. intros k.
    destruct (ns_entries st !! k) as [rec|] eqn:Hk; [|done]. case_bool_decide; [subst|done]. cbn [andb].
    destruct (is_expired rec now) eqn:Hx; [|done]. exfalso. apply Hn. exists rec.
    rewrite find_record_Some. eauto.
  - rewrite Hst in Hst0. injection Hst0 as <-. destruct (next_revision _) as [rev|] eqn:Hr; [|done].
    apply next_revision_Ret in Hr as [-> _]. cbn [obind] in H. injection H as <-.
    exists (mk_namespace (ns_revision st + 1) (delete key (ns_entries st))).
    rewrite (proj1 (push_pending_fields _ _)). cbn [namespaces ns_revision ns_entries]. split_and!; [done| |].
    + pose proof (size_delete_found _ _ _ Hk). lia.
    + intros k. destruct (decide (k = key)) as [->|Hne].
      * by rewrite lookup_delete_eq, Hk, bool_decide_true, Hx.
      * rewrite lookup_delete_ne by done. rewrite bool_decide_false by done. by destruct (ns_entries st !! k).
Qed.

Lemma expire_all_ns keys r name now r' st :
  namespaces r !! name = Some st → expire_all r ((λ key, (name, key)) <$> keys) now = Ret r' →
  ∃ st', namespaces r' = <[name := st']> (namespaces r)
    ∧ ns_revision st' + Z.of_nat (size (ns_entries st')) = ns_revision st + Z.of_nat (size (ns_entries st))
    ∧ (∀ k, ns_entries st' !! k =
         match ns_entries st !! k with
         | Some rec => if bool_decide (k ∈ keys) && is_expired rec now then None else Some rec
         | None => None
         end).
Proof.
  revert r st. induction keys as [|key keys IH]; intros r st Hst; cbn [fmap list_fmap expire_all].
  { intros [= <-]. exists st. rewrite insert_id by done. split_and!; [done|done|]. intros k.
    destruct (ns_entries st !! k); [|done]. by rewrite bool_decide_false by apply not_elem_of_nil. }
  destruct (expire_key_if_due r name key now) as [r1|] eqn:H1; [|done]. cbn [obind]. intros H2.
  destruct (expire_key_ns _ _ _ _ _ _ Hst H1) as (st1 & Hn1 & Hs1 & Hk1).
  destruct (IH r1 st1) as (st2 & Hn2 & Hs2 & Hk2); [by rewrite Hn1, lookup_insert_eq|done|].
  exists st2. split_and!; [by rewrite Hn2, Hn1, insert_insert_eq|lia|]. intros k. rewrite Hk2, Hk1.
  destruct (ns_entries st !! k) as [rec|]; [|done].
  destruct (is_expired rec now) eqn:Hx; rewrite ?andb_false_r, ?andb_true_r, ?Hx, ?andb_false_r; [|done].
  repeat case_bool_decide; rewrite ?Hx; cbn; set_solver.
Qed.

(** Two registries with the same namespaces and the same bytes. *)
Definition same_contents (r r' : Registry) : Prop :=
  namespaces r = namespaces r' ∧ stored_bytes r = stored_bytes r'.

Lemma same_contents_ok r r' : registry_ok r → registry_ok r' → namespaces r = namespaces r' → same_contents r r'.
Proof. intros [H1 _ _ _ _] [H2 _ _ _ _] Hn. split; [done|]. by rewrite H1, H2, Hn. Qed.

(** The order in which due keys of a namespace expire does not matter. *)
Lemma expire_all_order r name now l l' r1 r2 :
  registry_ok r → (∀ k, k ∈ l ↔ k ∈ l') →
  expire_all r ((λ key, (name, key)) <$> l) now = Ret r1 →
  expire_all r ((λ key, (name, key)) <$> l') now = Ret r2 → same_contents r1 r2.
Proof.
  intros Hok Hl H1 H2. apply same_contents_ok; [by eapply expire_all_ok|by eapply expire_all_ok|].
  destruct (namespaces r !! name) as [st|] eqn:Hst.
  - destruct (expire_all_ns _ _ _ _ _ _ Hst H1) as (st1 & Hn1 & Hs1 & Hk1).
    destruct (expire_all_ns _ _ _ _ _ _ Hst H2) as (st2 & Hn2 & Hs2 & Hk2).
    assert (ns_entries st1 = ns_entries st2) as He.
    { apply map_eq. intros k. rewrite Hk1, Hk2. destruct (ns_entries st !! k); [|done].
      by rewrite (bool_decide_ext _ _ (Hl k)). }
    rewrite Hn1, Hn2. f_equal. destruct st1 as [v1 m1], st2 as [v2 m2]; cbn [ns_entries ns_revision] in *. subst. f_equal. lia.
  - assert (∀ l r', expire_all r ((λ key, (name, key)) <$> l) now = Ret r' → r' = r) as Hsame.
    { clear -Hst. induction l as [|key l IH]; cbn [fmap list_fmap expire_all]; [by intros r' [= <-]|].
      intros r'. unfold expire_key_if_due at 1. rewrite Hst. cbn [obind]. apply IH. }
    by rewrite (Hsame _ _ H1), (Hsame _ _ H2).
Qed.

(** ** Storing *)

Lemma put_request_Ok name key schema value ttl owner admin now v e :
  0 ≤ now → str_len owner ≤ 256 →
  put_request name key schema value ttl owner admin now = Ok (v, e) →
  (∃ layout, validate_namespace name = Ok layout ∧ layout ≠ System)
  ∧ ∀ rev, 1 ≤ rev → record_ok rev key (mk_record schema v rev now e owner).
Proof.
  intros Hnow Howner. unfold put_request. rewrite rbind_Ok. intros (layout & Hl & H).
  rewrite rbind_Ok in H. destruct H as ([] & Hk & H). rewrite rbind_Ok in H. destruct H as ([] & Hs & H).
  destruct value as [value|]; [|done]. split_match_in H; [done|]. reflect_bools.
  rewrite rbind_Ok in H. destruct H as (expires & Ht & H). rewrite rbind_Ok in H. destruct H as ([] & Ha & H).
  rewrite rbind_Ok in H. destruct H as ([] & Hv & H). injection H as <- <-. split.
  { exists layout. split; [done|]. by intros ->. }
  intros rev Hrev. split; cbn [sr_schema sr_value sr_revision sr_updated_ms sr_expires_ms sr_owner_id]; try done.
  intros t ->. destruct ttl as [ttl|]; [|done]. rewrite rbind_Ok in Ht. destruct Ht as (t' & Ht & [= ->]).
  revert Ht. unfold ttl_expiry_ms. repeat split_match; try done. intros [= <-]. reflect_bools.
  repeat match goal with H : checked_add _ _ _ = Some _ |- _ => apply checked_add_Some in H as [-> _] end.
  unfold MIN_TTL_MS, MAX_TTL_MS in *. lia.
Qed.

(** The namespace a put writes to exists afterwards. *)
Definition ensure_ns (r : Registry) (name : string) : Registry :=
  mk_registry (<[name := unwrap_or (namespaces r !! name) namespace_default]> (namespaces r))
    (pending r) (pending_overflowed r) (stored_bytes r).

Lemma ensure_ns_found r name st : namespaces r !! name = Some st → ensure_ns r name = r.
Proof. intros Hst. unfold ensure_ns. rewrite Hst. cbn [unwrap_or]. rewrite insert_id by done. by destruct r. Qed.

Lemma ensure_ns_ok r name :
  registry_ok r → (∃ layout, validate_namespace name = Ok layout ∧ layout ≠ System) →
  (namespaces r !! name = None → Z.of_nat (size (namespaces r)) < MAX_NAMESPACES) →
  registry_ok (ensure_ns r name).
Proof.
  intros Hok Hname Hroom. destruct (namespaces r !! name) as [st|] eqn:Hst.
  { by rewrite (ensure_ns_found _ _ _ Hst). }
  unfold ensure_ns. rewrite Hst. cbn [unwrap_or]. destruct Hok as [H1 H2 H3 H4 H5].
  split; cbn [stored_bytes namespaces pending]; [| done | | | done].
  - rewrite (total_bytes_fresh _ _ _ Hst). unfold ns_records. cbn [ns_entries namespace_default].
    rewrite map_to_list_empty, fmap_nil, zsum_nil. lia.
  - rewrite map_size_insert_None by done. specialize (Hroom eq_refl). lia.
  - intros name' st'. destruct (decide (name' = name)) as [->|Hne].
    + rewrite lookup_insert_eq. intros [= <-]. split; cbn [ns_revision ns_entries namespace_default]; try done.
    + rewrite lookup_insert_ne by done. apply H4.
Qed.

(** What a put leaves when quotas allow it. *)
Definition stored (r : Registry) (name key : string) (rec : StoredRecord) (bytes : Z) : Registry :=
  let st := unwrap_or (namespaces r !! name) namespace_default in
  mk_registry (<[name := mk_namespace (sr_revision rec) (<[key := rec]> (ns_entries st))]> (namespaces r))
    (pending r) (pending_overflowed r) bytes.

Lemma stored_ensure r name key rec b : stored (ensure_ns r name) name key rec b = stored r name key rec b.
Proof. unfold stored, ensure_ns. cbn [namespaces]. by rewrite lookup_insert_eq, insert_insert_eq. Qed.

Lemma find_record_ensure r name key name' : find_record (ensure_ns r name) name' key = find_record r name' key.
Proof.
  unfold find_record, ensure_ns. cbn [namespaces]. destruct (decide (name' = name)) as [->|Hne].
  - rewrite lookup_insert_eq. by destruct (namespaces r !! name).
  - by rewrite lookup_insert_ne.
Qed.

(** Bytes after replacing what the key held. *)
Definition old_bytes (r : Registry) (name key : string) : Z :=
  match find_record r name key with Some old => value_bytes (sr_value old) | None => 0 end.
Definition bytes_after (r : Registry) (name key : string) (value : Struct) : Z :=
  stored_bytes r + encoded_len value - old_bytes r name key.

Lemma old_le_stored r name key rec :
  registry_ok r → find_record r name key = Some rec → record_bytes rec ≤ stored_bytes r.
Proof.
  intros Hok (st & Hst & Hk)%find_record_Some. rewrite (ro_bytes _ Hok). by eapply record_le_total.
Qed.

Lemma old_bytes_range r name key : registry_ok r → 0 ≤ old_bytes r name key ≤ stored_bytes r.
Proof.
  intros Hok. unfold old_bytes. destruct (find_record r name key) as [rec|] eqn:Hf.
  - split; [apply record_bytes_nonneg|by apply (old_le_stored r name key)].
  - rewrite (ro_bytes _ Hok). split; [done|apply total_bytes_nonneg].
Qed.

Lemma stored_ok r name key rec st :
  registry_ok r → namespaces r !! name = Some st → sr_revision rec = ns_revision st + 1 →
  record_ok (sr_revision rec) key rec →
  (ns_entries st !! key = None → Z.of_nat (size (ns_entries st)) < MAX_ENTRIES_PER_NAMESPACE) →
  bytes_after r name key (sr_value rec) ≤ MAX_TOTAL_VALUE_BYTES →
  registry_ok (stored r name key rec (bytes_after r name key (sr_value rec))).
Proof.
  intros Hok Hst Hrev Hrec Hroom Hq. unfold stored. rewrite Hst. cbn [unwrap_or].
  pose proof (total_bytes_insert (namespaces r) name st (sr_revision rec) key rec) as Ht.
  rewrite Hst in Ht. specialize (Ht eq_refl). unfold bytes_after, old_bytes, find_record in *. rewrite Hst in Hq |- *.
  cbn [mbind option_bind] in *. destruct Hok as [H1 H2 H3 H4 H5].
  split; cbn [stored_bytes namespaces pending]; [|done| |  |done].
  - rewrite Ht. unfold record_bytes, value_bytes. lia.
  - by rewrite (size_update _ _ _ _ Hst).
  - intros name' st'. destruct (decide (name' = name)) as [->|Hne].
    + rewrite lookup_insert_eq. intros [= <-]. apply namespace_ok_insert; [by apply H4|lia|done|done|done].
    + rewrite lookup_insert_ne by done. apply H4.
Qed.

Lemma store_record_eq r name key schema value e owner now :
  registry_ok r → bytes_after r name key value ≤ MAX_TOTAL_VALUE_BYTES →
  encoded_len value ≤ MAX_VALUE_BYTES →
  (∀ st, unwrap_or (namespaces r !! name) namespace_default = st → ns_revision st + 1 ≤ u64_max →
   store_record r name key schema value e owner now =
     let rec := mk_record schema value (ns_revision st + 1) now e owner in
     Ret (Ok (entry_of name key rec), stored r name key rec (bytes_after r name key value))).
Proof.
  intros Hok Hq Hv st Hst Hrev. unfold store_record, bytes_after in *. fold (old_bytes r name key).
  pose proof (old_bytes_range r name key Hok) as Hold.
  pose proof (ro_limit _ Hok) as Hl. pose proof (encoded_len_range value) as Hr.
  unfold value_bytes. assert (saturating_sub (saturating_add u64_max (stored_bytes r) (encoded_len value)) (old_bytes r name key)
    = stored_bytes r + encoded_len value - old_bytes r name key) as ->.
  { unfold saturating_sub, saturating_add. unfold MAX_TOTAL_VALUE_BYTES, MAX_VALUE_BYTES, u64_max in *. lia. }
  destruct (MAX_TOTAL_VALUE_BYTES <? _) eqn:Hb; [reflect_bools; lia|]. rewrite Hst.
  rewrite (proj2 (next_revision_Ret _ _) (conj eq_refl Hrev)). cbn [obind]. unfold stored. by rewrite Hst.
Qed.

Lemma store_record_full r name key schema value e owner now :
  registry_ok r → encoded_len value ≤ MAX_VALUE_BYTES → MAX_TOTAL_VALUE_BYTES < bytes_after r name key value →
  store_record r name key schema value e owner now = Ret (Err (InvalidE StoreFull), r).
Proof.
  intros Hok Hv Hq. unfold store_record, bytes_after in *. fold (old_bytes r name key).
  pose proof (old_bytes_range r name key Hok) as Hold.
  pose proof (ro_limit _ Hok) as Hl. pose proof (encoded_len_range value) as Hr.
  unfold value_bytes. destruct (MAX_TOTAL_VALUE_BYTES <? _) eqn:Hb; [done|]. reflect_bools.
  unfold saturating_sub, saturating_add, MAX_TOTAL_VALUE_BYTES, MAX_VALUE_BYTES, u64_max in *. lia.
Qed.

End inv.
