(* ===== verification/StateDurable.v ===== *)
(** * The state store on disk

    [DurableStore] of [server/state_store_durable.rs]: the same store in two SQL tables,
    changed by transactions, and restored from them when the server starts.

    The database is the pair of its tables.  Every SQL statement is one step that can
    fail: [Io] lists what the statements to come do, and succeed beyond its end.  A
    transaction that is not committed changes nothing, which is what [BEGIN], [COMMIT]
    and [ROLLBACK] promise.  [Blob] is an encoded document, [query_order] the order in
    which a query without [ORDER BY] returns its rows. *)

From S2P Require Import Prelude StateSchema StateStore.

Class DatabaseEnv := {
  Blob : Type;
  encode_to_vec : Struct → Blob;
  struct_decode : Blob → result string Struct;
  blob_len : Blob → Z;
  query_order : gset string → list string
}.

(** Decoding inverts encoding, [encoded_len] is the length of the encoding, and a query
    returns every row once. *)
Class DatabaseLaws (S : StoreEnv) (E : DatabaseEnv) : Prop := {
  decode_encode : ∀ v, struct_decode (encode_to_vec v) = Ok v;
  blob_len_encode : ∀ v, blob_len (encode_to_vec v) = encoded_len v;
  query_order_perm : ∀ s, query_order s ≡ₚ elements s
}.

Definition SCHEMA_VERSION : Z := 1.
Definition MAX_RESTORED_OWNER_BYTES : Z := 256.

Inductive TransactionError :=
| DomainError (e : Error)
| StorageError (message : string).

Definition storage_error (e : TransactionError) : Error :=
  match e with DomainError e => e | StorageError message => Storage message end.

Definition Io : Type := list (option string).

Section database.
Context `{S : StoreEnv} `{E : DatabaseEnv}.

Record Row := mk_row {
  row_schema : string;
  row_value : Blob;
  row_revision : Z;
  row_updated_ms : Z;
  row_expires_ms : option Z;
  row_owner_id : string
}.

Record Database := mk_database {
  t_namespaces : gmap string Z;
  t_entries : gmap (string * string) Row
}.

(** ** Statements *)

Definition Tx (A : Type) : Type := Database → Io → outcome (result TransactionError A * Database * Io).

Definition tx_ret {A : Type} (a : A) : Tx A := λ db io, Ret (Ok a, db, io).
Definition tx_fail {A : Type} (e : TransactionError) : Tx A := λ db io, Ret (Err e, db, io).
Definition tx_panic {A : Type} : Tx A := λ _ _, Panic.
Definition tx_bind {A B : Type} (m : Tx A) (k : A → Tx B) : Tx B := λ db io,
  match m db io with
  | Panic => Panic
  | Ret (Err e, db, io) => Ret (Err e, db, io)
  | Ret (Ok a, db, io) => k a db io
  end.

(** A statement that succeeds or fails as [Io] says. *)
Definition statement : Tx unit := λ db io,
  match io with
  | Some message :: io' => Ret (Err (StorageError message), db, io')
  | None :: io' => Ret (Ok tt, db, io')
  | [] => Ret (Ok tt, db, [])
  end.
Definition query {A : Type} (f : Database → A) : Tx A := λ db io,
  tx_bind statement (λ _, tx_ret (f db)) db io.
Definition execute (f : Database → Database) : Tx unit := λ db io,
  match statement db io with
  | Ret (Ok _, _, io) => Ret (Ok tt, f db, io)
  | other => other
  end.
Definition domain {A : Type} (r : result Error A) : Tx A :=
  match r with Ok a => tx_ret a | Err e => tx_fail (DomainError e) end.

End database.

Notation "'let*' x := m 'in' k" := (tx_bind m (λ x, k))
  (at level 10, x pattern, m at level 100, k at level 200,
   format "'[v' 'let*'  x  :=  m  'in' '/' k ']'") : rust_scope.

Section store.
Context `{S : StoreEnv} `{E : DatabaseEnv}.

Definition to_i64 (value : Z) : Tx Z :=
  if value <=? i64_max then tx_ret value
  else tx_fail (StorageError ("state-store integer " +:+ usize_to_string value +:+ " overflows i64")).
Definition to_u64 (value : Z) : Tx Z :=
  if 0 <=? value then tx_ret value
  else tx_fail (StorageError ("state-store integer -" +:+ usize_to_string (- value) +:+ " is negative")).
(** [map(to_i64).transpose()], [map(to_u64).transpose()]. *)
Definition tx_option (f : Z → Tx Z) (o : option Z) : Tx (option Z) :=
  match o with
  | None => tx_ret None
  | Some z => let* z := f z in tx_ret (Some z)
  end.

Definition namespace_revision (namespace : string) : Tx (option Z) :=
  let* row := query (λ db, t_namespaces db !! namespace) in
  tx_option to_u64 row.

Definition namespace_count : Tx Z := query (λ db, Z.of_nat (size (t_namespaces db))).

Definition keys_of (db : Database) (namespace : string) : gset string :=
  set_map snd (base.filter (λ nk : string * string, nk.1 = namespace) (dom (t_entries db))).

Definition entry_count (namespace : string) : Tx Z :=
  query (λ db, Z.of_nat (size (keys_of db namespace))).

Definition entry_revision (namespace key : string) : Tx (option Z) :=
  let* row := query (λ db, t_entries db !! (namespace, key)) in
  tx_option to_u64 (row_revision <$> row).

Definition entry_bytes (namespace key : string) : Tx Z :=
  let* row := query (λ db, t_entries db !! (namespace, key)) in
  match row with
  | Some row => to_u64 (blob_len (row_value row))
  | None => tx_ret 0
  end.

Definition entry_expires_ms (namespace key : string) : Tx (option Z) :=
  let* row := query (λ db, t_entries db !! (namespace, key)) in
  tx_option to_u64 (row ≫= row_expires_ms).

Definition row_due (row : Row) (now_ms : Z) : bool :=
  is_some_and (λ expires_ms, expires_ms <=? now_ms) (row_expires_ms row).

Definition due_rows (db : Database) (namespace : string) (now_ms : Z) : gset string :=
  base.filter (λ key, is_some_and (λ row, row_due row now_ms) (t_entries db !! (namespace, key)) = true)
    (keys_of db namespace).

Definition expired_keys (namespace : string) (now_ms : Z) : Tx (list string) :=
  let* now_ms := to_i64 now_ms in
  query (λ db, query_order (due_rows db namespace now_ms)).

Definition read_entry (namespace key : string) : Tx (option StoredEntry) :=
  let* row := query (λ db, t_entries db !! (namespace, key)) in
  match row with
  | None => tx_ret None
  | Some row =>
      match struct_decode (row_value row) with
      | Err error => tx_fail (StorageError ("stored state value is corrupt: " +:+ error))
      | Ok value =>
          let* revision := to_u64 (row_revision row) in
          let* updated_ms := to_u64 (row_updated_ms row) in
          let* expires_ms := tx_option to_u64 (row_expires_ms row) in
          tx_ret (Some (mk_entry namespace key (row_schema row) value revision updated_ms expires_ms
            (row_owner_id row)))
      end
  end.

Definition set_revision (namespace : string) (revision : Z) (db : Database) : Database :=
  match t_namespaces db !! namespace with
  | Some _ => mk_database (<[namespace := revision]> (t_namespaces db)) (t_entries db)
  | None => db
  end.

Definition bump_namespace_revision (namespace : string) : Tx Z :=
  let* row := namespace_revision namespace in
  match row ≫= λ revision, checked_add u64_max revision 1 with
  | None => tx_panic
  | Some revision =>
      let* stored := to_i64 revision in
      let* _ := execute (set_revision namespace stored) in
      tx_ret revision
  end.

Definition delete_row (namespace key : string) (db : Database) : Database :=
  mk_database (t_namespaces db) (delete (namespace, key) (t_entries db)).

Definition d_expire_key_if_due (namespace key : string) (now_ms : Z) : Tx Z :=
  let* expired := entry_expires_ms namespace key in
  if is_some_and (λ expires_ms, expires_ms <=? now_ms) expired then
    let* removed_bytes := entry_bytes namespace key in
    let* _ := execute (delete_row namespace key) in
    let* _ := bump_namespace_revision namespace in
    tx_ret removed_bytes
  else tx_ret 0.

Fixpoint reclaim_keys (namespace : string) (keys : list string) (now_ms freed_bytes : Z) : Tx Z :=
  match keys with
  | [] => tx_ret freed_bytes
  | key :: keys' =>
      let* freed := d_expire_key_if_due namespace key now_ms in
      reclaim_keys namespace keys' now_ms (saturating_add u64_max freed_bytes freed)
  end.

Definition d_reclaim_namespace (namespace : string) (now_ms : Z) : Tx Z :=
  let* expired := expired_keys namespace now_ms in
  reclaim_keys namespace expired now_ms 0.

Definition admit_namespace (namespace : string) (now_ms : Z) : Tx Z :=
  let* row := namespace_revision namespace in
  match row with
  | None =>
      let* count := namespace_count in
      if MAX_NAMESPACES <=? count then tx_fail (DomainError (InvalidE StoreFull))
      else
        let* _ := execute (λ db, mk_database (<[namespace := 0]> (t_namespaces db)) (t_entries db)) in
        tx_ret 0
  | Some _ =>
      let* freed_bytes := d_reclaim_namespace namespace now_ms in
      let* count := entry_count namespace in
      if MAX_ENTRIES_PER_NAMESPACE <=? count then tx_fail (DomainError (InvalidE NamespaceFull))
      else tx_ret freed_bytes
  end.

Definition insert_entry (namespace key schema : string) (value : Struct) (expires_ms : option Z)
    (owner_id : string) (now_ms : Z) : Tx Z :=
  let* revision := bump_namespace_revision namespace in
  let* stored_revision := to_i64 revision in
  let* stored_now := to_i64 now_ms in
  let* stored_expires := tx_option to_i64 expires_ms in
  let* _ := execute (λ db, mk_database (t_namespaces db)
    (<[(namespace, key) := mk_row schema (encode_to_vec value) stored_revision stored_now stored_expires owner_id]>
      (t_entries db))) in
  tx_ret revision.

Definition expire_one (namespace key : string) (now_ms : Z) : Tx (option (ExpiredEntry * Z)) :=
  let* entry := read_entry namespace key in
  match entry with
  | None => tx_ret None
  | Some entry =>
      let freed_bytes := encoded_len (se_value entry) in
      let* _ := execute (delete_row namespace key) in
      let* revision := bump_namespace_revision namespace in
      tx_ret (Some (mk_expired namespace key revision (se_schema entry) (se_value entry) (se_owner_id entry)
        (unwrap_or (se_expires_ms entry) now_ms), freed_bytes))
  end.

Fixpoint expire_listed (due : list (string * string)) (now_ms freed_bytes : Z) (expired : list ExpiredEntry)
    : Tx (list ExpiredEntry * Z) :=
  match due with
  | [] => tx_ret (expired, freed_bytes)
  | (namespace, key) :: due' =>
      let* one := expire_one namespace key now_ms in
      match one with
      | None => expire_listed due' now_ms freed_bytes expired
      | Some (entry, freed) =>
          expire_listed due' now_ms (saturating_add u64_max freed_bytes freed) (expired ++ [entry])
      end
  end.

(** ** Transactions *)

Record DurableStore := mk_durable {
  connection : Database;
  d_stored_bytes : Z
}.

(** [BEGIN IMMEDIATE], the body, then [COMMIT] or [ROLLBACK]. *)
Definition atomically {A : Type} (body : Tx A) : Tx A := λ db io,
  match statement db io with
  | Ret (Ok _, db, io) =>
      match body db io with
      | Panic => Panic
      | Ret (Err e, _, io) => Ret (Err e, db, io)
      | Ret (Ok a, db', io) =>
          match statement db' io with
          | Ret (Ok _, _, io) => Ret (Ok a, db', io)
          | Ret (Err e, _, io) => Ret (Err e, db, io)
          | Panic => Panic
          end
      end
  | Ret (Err e, db, io) => Ret (Err e, db, io)
  | Panic => Panic
  end.

(** [finish_transaction]: the staged byte count is taken over with the commit. *)
Definition transaction {A : Type} (body : Tx (A * Z)) (d : DurableStore) (io : Io)
    : outcome (result Error A * DurableStore * Io) :=
  match atomically body (connection d) io with
  | Panic => Panic
  | Ret (Err e, _, io) => Ret (Err (storage_error e), d, io)
  | Ret (Ok (value, staged_bytes), db, io) => Ret (Ok value, mk_durable db staged_bytes, io)
  end.

Definition put_transaction (stored : Z) (namespace key schema : string) (value : Struct) (value_bytes : Z)
    (expected_revision expires_ms : option Z) (owner_id : string) (now_ms : Z) : Tx (StoredEntry * Z) :=
  let* freed_bytes := d_expire_key_if_due namespace key now_ms in
  let* current := entry_revision namespace key in
  let* _ := domain (check_expected expected_revision current) in
  let* old_bytes := entry_bytes namespace key in
  let* freed_bytes :=
    match current with
    | Some _ => tx_ret freed_bytes
    | None => let* freed := admit_namespace namespace now_ms in
              tx_ret (saturating_add u64_max freed_bytes freed)
    end in
  let total_bytes :=
    saturating_sub (saturating_sub (saturating_add u64_max stored value_bytes) old_bytes) freed_bytes in
  if MAX_TOTAL_VALUE_BYTES <? total_bytes then tx_fail (DomainError (InvalidE StoreFull))
  else
    let* revision := insert_entry namespace key schema value expires_ms owner_id now_ms in
    tx_ret (mk_entry namespace key schema value revision now_ms expires_ms owner_id, total_bytes).

Definition d_put (d : DurableStore) (namespace key schema : string) (value : option Struct)
    (expected_revision : option Z) (ttl : option Duration) (owner_id : string) (writer_admin : bool)
    (now_ms : Z) (io : Io) : outcome (result Error StoredEntry * DurableStore * Io) :=
  match put_request namespace key schema value ttl owner_id writer_admin now_ms with
  | Err e => Ret (Err e, d, io)
  | Ok (value, expires_ms) =>
      transaction (put_transaction (d_stored_bytes d) namespace key schema value (encoded_len value)
        expected_revision expires_ms owner_id now_ms) d io
  end.

Definition get_transaction (stored : Z) (namespace key : string) (now_ms : Z) : Tx (StoredEntry * Z) :=
  let* freed_bytes := d_expire_key_if_due namespace key now_ms in
  let* entry := read_entry namespace key in
  match entry with
  | None => tx_fail (DomainError NotFound)
  | Some entry => tx_ret (entry, saturating_sub stored freed_bytes)
  end.

Definition d_get (d : DurableStore) (namespace key owner_id : string) (reader_admin : bool) (now_ms : Z)
    (io : Io) : outcome (result Error StoredEntry * DurableStore * Io) :=
  match (let? layout := validate_namespace namespace in
         let? _ := authorize_read layout owner_id reader_admin in
         validate_key key) with
  | Err e => Ret (Err e, d, io)
  | Ok _ => transaction (get_transaction (d_stored_bytes d) namespace key now_ms) d io
  end.

Definition delete_transaction (stored : Z) (namespace key : string) (expected_revision : option Z)
    (now_ms : Z) : Tx (Z * Z) :=
  let* freed_bytes := d_expire_key_if_due namespace key now_ms in
  let* current := entry_revision namespace key in
  let* _ := domain (check_expected expected_revision current) in
  match current with
  | None => tx_fail (DomainError NotFound)
  | Some _ =>
      let* removed_bytes := entry_bytes namespace key in
      let* _ := execute (delete_row namespace key) in
      let* revision := bump_namespace_revision namespace in
      tx_ret (revision, saturating_sub (saturating_sub stored freed_bytes) removed_bytes)
  end.

Definition d_delete (d : DurableStore) (namespace key : string) (expected_revision : option Z)
    (owner_id : string) (writer_admin : bool) (now_ms : Z) (io : Io)
    : outcome (result Error Z * DurableStore * Io) :=
  match delete_request namespace key owner_id writer_admin with
  | Err e => Ret (Err e, d, io)
  | Ok _ => transaction (delete_transaction (d_stored_bytes d) namespace key expected_revision now_ms) d io
  end.

(** [ORDER BY namespace], [ORDER BY key]. *)
Definition ordered (s : gset string) : list string := sort_strings (elements s).

Fixpoint due_of (names : list string) (now_ms : Z) : Tx (list (string * string)) :=
  match names with
  | [] => tx_ret []
  | namespace :: names' =>
      let* keys := expired_keys namespace now_ms in
      let* due := due_of names' now_ms in
      tx_ret (((λ key, (namespace, key)) <$> keys) ++ due)
  end.

Definition expire_due_transaction (stored now_ms : Z) : Tx (list ExpiredEntry * Z) :=
  let* names := query (λ db, ordered (dom (t_namespaces db))) in
  let* due := due_of names now_ms in
  let* (expired, freed_bytes) := expire_listed (merge_sort pair_le due) now_ms 0 [] in
  tx_ret (expired, saturating_sub stored freed_bytes).

Definition d_expire_due (d : DurableStore) (now_ms : Z) (io : Io)
    : outcome (result Error (list ExpiredEntry) * DurableStore * Io) :=
  transaction (expire_due_transaction (d_stored_bytes d) now_ms) d io.

Definition expire_keys_transaction (stored : Z) (namespace : string) (keys : list string) (now_ms : Z)
    : Tx (list ExpiredEntry * Z) :=
  let* (expired, freed_bytes) :=
    expire_listed ((λ key, (namespace, key)) <$> sort_strings keys) now_ms 0 [] in
  tx_ret (expired, saturating_sub stored freed_bytes).

Definition d_expire_keys (d : DurableStore) (namespace : string) (keys : list string) (now_ms : Z) (io : Io)
    : outcome (result Error (list ExpiredEntry) * DurableStore * Io) :=
  transaction (expire_keys_transaction (d_stored_bytes d) namespace keys now_ms) d io.

End store.
