(* ===== verification/StateSync.v ===== *)
(** * The two copies of the state store

    A logic for the statements of [StateDurable] and, with it, the relation between the
    database and the registry: every database routine that succeeds does to the tables
    what its counterpart does to the registry. *)

From S2P Require Import Prelude StateSchema StateStore StateStoreInv StateDurable.

(** ** Outcomes of statements *)

Section logic.
Context `{S : StoreEnv} `{E : DatabaseEnv}.

(** Whatever the statements do, [m] does not panic, and if it succeeds [Q] holds. *)
Definition tx_spec {A : Type} (m : Tx A) (db : Database) (Q : A → Database → Prop) : Prop :=
  ∀ io, match m db io with
        | Panic => False
        | Ret (Err _, _, _) => True
        | Ret (Ok a, db', _) => Q a db'
        end.

Lemma tx_spec_ret {A} (a : A) db (Q : A → Database → Prop) : Q a db → tx_spec (tx_ret a) db Q.
Proof. by intros H io. Qed.
Lemma tx_spec_fail {A} e db (Q : A → Database → Prop) : tx_spec (tx_fail e) db Q.
Proof. by intros io. Qed.
Lemma tx_spec_bind {A B} (m : Tx A) (k : A → Tx B) db (Q : A → Database → Prop) R :
  tx_spec m db Q → (∀ a db', Q a db' → tx_spec (k a) db' R) → tx_spec (tx_bind m k) db R.
Proof.
  intros Hm Hk io. unfold tx_bind. specialize (Hm io). destruct (m db io) as [[[[a|e] db'] io']|]; [|done|done].
  exact (Hk a db' Hm io').
Qed.
Lemma tx_spec_mono {A} (m : Tx A) db (Q R : A → Database → Prop) :
  tx_spec m db Q → (∀ a db', Q a db' → R a db') → tx_spec m db R.
Proof. intros Hm HQ io. specialize (Hm io). destruct (m db io) as [[[[a|e] db'] io']|]; auto. Qed.
Lemma tx_spec_query {A} (f : Database → A) db (Q : A → Database → Prop) : Q (f db) db → tx_spec (query f) db Q.
Proof. intros H io. unfold query, tx_bind, statement. destruct io as [|[m|] io]; cbn; done. Qed.
Lemma tx_spec_execute f db (Q : unit → Database → Prop) : Q tt (f db) → tx_spec (execute f) db Q.
Proof. intros H io. unfold execute, statement. destruct io as [|[m|] io]; cbn; done. Qed.
Lemma tx_spec_domain {A} (r : result Error A) db (Q : A → Database → Prop) :
  (∀ a, r = Ok a → Q a db) → tx_spec (domain r) db Q.
Proof. intros H io. destruct r as [a|e]; [by apply H|done]. Qed.
Lemma tx_spec_to_i64 z db (Q : Z → Database → Prop) :
  (z ≤ i64_max → Q z db) → tx_spec (to_i64 z) db Q.
Proof. intros H io. unfold to_i64. destruct (z <=? i64_max) eqn:Hz; [|done]. reflect_bools. by apply H. Qed.
Lemma tx_spec_to_u64 z db (Q : Z → Database → Prop) : (0 ≤ z → Q z db) → tx_spec (to_u64 z) db Q.
Proof. intros H io. unfold to_u64. destruct (0 <=? z) eqn:Hz; [|done]. reflect_bools. by apply H. Qed.
Lemma tx_spec_option f (P : Z → Prop) o db (Q : option Z → Database → Prop) :
  (∀ z Q', (P z → Q' z db) → tx_spec (f z) db Q') →
  ((∀ z, o = Some z → P z) → Q o db) → tx_spec (tx_option f o) db Q.
Proof.
  intros Hf H. destruct o as [z|]; cbn [tx_option]; [|by apply tx_spec_ret, H].
  eapply tx_spec_bind; [apply (Hf z (λ z' db', z' = z ∧ db' = db ∧ P z)); done|].
  intros z' db' (-> & -> & Hz). apply tx_spec_ret, H. by intros z' [= <-].
Qed.

Lemma tx_spec_bind_query {A B} (f : Database → A) (k : A → Tx B) db R :
  tx_spec (k (f db)) db R → tx_spec (tx_bind (query f) k) db R.
Proof.
  intros H. eapply (tx_spec_bind _ _ _ (λ a db', a = f db ∧ db' = db)); [by apply tx_spec_query|].
  by intros ? ? [-> ->].
Qed.
Lemma tx_spec_bind_execute {B} f (k : unit → Tx B) db R :
  tx_spec (k tt) (f db) R → tx_spec (tx_bind (execute f) k) db R.
Proof.
  intros H. eapply (tx_spec_bind _ _ _ (λ a db', db' = f db)); [by apply tx_spec_execute|]. by intros [] ? ->.
Qed.
Lemma tx_spec_bind_i64 {B} z (k : Z → Tx B) db R :
  (z ≤ i64_max → tx_spec (k z) db R) → tx_spec (tx_bind (to_i64 z) k) db R.
Proof.
  intros H. eapply (tx_spec_bind _ _ _ (λ a db', a = z ∧ db' = db ∧ z ≤ i64_max)); [by apply tx_spec_to_i64|].
  intros ? ? (-> & -> & Hz). by apply H.
Qed.
Lemma tx_spec_bind_u64 {B} z (k : Z → Tx B) db R :
  tx_spec (k z) db R → tx_spec (tx_bind (to_u64 z) k) db R.
Proof.
  intros H. eapply (tx_spec_bind _ _ _ (λ a db', a = z ∧ db' = db)); [by apply tx_spec_to_u64|].
  by intros ? ? [-> ->].
Qed.
Lemma tx_spec_option_u64 o db (Q : option Z → Database → Prop) : Q o db → tx_spec (tx_option to_u64 o) db Q.
Proof. intros H. apply (tx_spec_option _ (λ z, 0 ≤ z)); [|done]. intros z Q' Hz. by apply tx_spec_to_u64. Qed.
Lemma tx_spec_option_i64 o db (Q : option Z → Database → Prop) : Q o db → tx_spec (tx_option to_i64 o) db Q.
Proof. intros H. apply (tx_spec_option _ (λ z, z ≤ i64_max)); [|done]. intros z Q' Hz. by apply tx_spec_to_i64. Qed.

Lemma tx_spec_bind_option_i64 {B} o (k : option Z → Tx B) db R :
  tx_spec (k o) db R → tx_spec (tx_bind (tx_option to_i64 o) k) db R.
Proof.
  intros H. eapply (tx_spec_bind _ _ _ (λ a db', a = o ∧ db' = db)); [by apply tx_spec_option_i64|].
  by intros ? ? [-> ->].
Qed.
Lemma tx_spec_bind_option_u64 {B} o (k : option Z → Tx B) db R :
  tx_spec (k o) db R → tx_spec (tx_bind (tx_option to_u64 o) k) db R.
Proof.
  intros H. eapply (tx_spec_bind _ _ _ (λ a db', a = o ∧ db' = db)); [by apply tx_spec_option_u64|].
  by intros ? ? [-> ->].
Qed.

(** A transaction commits all of its body or leaves the store as it was. *)
Lemma transaction_spec {A} (body : Tx (A * Z)) d (Q : A → DurableStore → Prop) :
  tx_spec body (connection d) (λ vb db, Q vb.1 (mk_durable db vb.2)) →
  ∀ io, match transaction body d io with
        | Panic => False
        | Ret (Err _, d', _) => d' = d
        | Ret (Ok v, d', _) => Q v d'
        end.
Proof.
  intros H io. unfold transaction, atomically.
  assert (∀ db io, (∃ e io', statement db io = Ret (Err e, db, io'))
    ∨ (∃ io', statement db io = Ret (Ok tt, db, io'))) as Hs.
  { intros db0 io0. destruct io0 as [|[m|] io0]; eauto. }
  destruct (Hs (connection d) io) as [(e & io1 & ->)|(io1 & ->)]; [done|].
  specialize (H io1). destruct (body (connection d) io1) as [[[[[v b]|e] db'] io2]|]; [|done|done].
  destruct (Hs db' io2) as [(e & io3 & ->)|(io3 & ->)]; done.
Qed.

End logic.

(** Steps through the next statement of a routine. *)
Ltac tx_step :=
  lazymatch goal with
  | |- tx_spec (tx_bind (query _) _) _ _ => apply tx_spec_bind_query
  | |- tx_spec (tx_bind (execute _) _) _ _ => apply tx_spec_bind_execute
  | |- tx_spec (tx_bind (to_i64 _) _) _ _ => apply tx_spec_bind_i64; intros ?
  | |- tx_spec (tx_bind (to_u64 _) _) _ _ => apply tx_spec_bind_u64
  | |- tx_spec (tx_bind (tx_option to_i64 _) _) _ _ => apply tx_spec_bind_option_i64
  | |- tx_spec (tx_bind (tx_option to_u64 _) _) _ _ => apply tx_spec_bind_option_u64
  | |- tx_spec (tx_ret _) _ _ => apply tx_spec_ret
  | |- tx_spec (tx_fail _) _ _ => apply tx_spec_fail
  end.

(** ** Rows and records *)

Section sync.
Context `{S : StoreEnv} {SL : StoreLaws S} `{E : DatabaseEnv} {DL : DatabaseLaws S E}.

Definition row_of (rec : StoredRecord) : Row :=
  mk_row (sr_schema rec) (encode_to_vec (sr_value rec)) (sr_revision rec) (sr_updated_ms rec)
    (sr_expires_ms rec) (sr_owner_id rec).

Record same_db (r : Registry) (db : Database) : Prop := {
  sd_names : t_namespaces db = ns_revision <$> namespaces r;
  sd_rows : ∀ name key, t_entries db !! (name, key) = row_of <$> find_record r name key;
  sd_range : ∀ name st, namespaces r !! name = Some st → ns_revision st ≤ i64_max
}.

(** The registry and the store on disk agree, byte count included. *)
Definition in_step (r : Registry) (d : DurableStore) : Prop :=
  same_db r (connection d) ∧ d_stored_bytes d = stored_bytes r.

Lemma same_db_contents r r' db : same_contents r r' → same_db r db → same_db r' db.
Proof.
  intros [Hn Hb] [H1 H2 H3]. split; [by rewrite H1, Hn| |by rewrite <-Hn]. intros name key.
  rewrite H2. unfold find_record. by rewrite Hn.
Qed.

Lemma same_db_room r db : registry_ok r → same_db r db → revision_room r.
Proof.
  intros Hok Hs name st Hst. pose proof (sd_range _ _ Hs _ _ Hst).
  pose proof (nso_size _ _ (ro_namespaces _ Hok _ _ Hst)).
  unfold i64_max, u64_max, MAX_ENTRIES_PER_NAMESPACE in *. lia.
Qed.

Lemma row_due_of rec now : row_due (row_of rec) now = is_expired rec now.
Proof. done. Qed.

(** The rows of a namespace. *)
Lemma keys_of_spec db name key : key ∈ keys_of db name ↔ is_Some (t_entries db !! (name, key)).
Proof.
  unfold keys_of. rewrite elem_of_map. split.
  - intros ([n k] & -> & [Hn Hd]%elem_of_filter). cbn in *. subst. by apply elem_of_dom.
  - intros H. exists (name, key). split; [done|]. apply elem_of_filter. split; [done|by apply elem_of_dom].
Qed.
Lemma keys_of_dom r db name st :
  same_db r db → namespaces r !! name = Some st → keys_of db name = dom (ns_entries st).
Proof.
  intros Hs Hst. apply set_eq. intros key. rewrite keys_of_spec, (sd_rows _ _ Hs), elem_of_dom.
  unfold find_record. rewrite Hst. cbn. by rewrite fmap_is_Some.
Qed.
Lemma due_rows_spec r db name now key :
  same_db r db → key ∈ due_rows db name now ↔ due r name key now.
Proof.
  intros Hs. unfold due_rows, due. rewrite elem_of_filter, keys_of_spec, !(sd_rows _ _ Hs).
  destruct (find_record r name key) as [rec|]; cbn.
  - rewrite row_due_of. split; [intros [H _]; eauto|]. intros (rec' & [= <-] & H). eauto.
  - split; [by intros [H _]|]. intros (rec' & H & _). done.
Qed.

(** ** Single routines *)

(** Reading the revision of a namespace. *)
Lemma namespace_revision_spec r db name :
  registry_ok r → same_db r db →
  tx_spec (namespace_revision name) db (λ o db', o = ns_revision <$> namespaces r !! name ∧ db' = db).
Proof.
  intros Hok Hs. unfold namespace_revision. tx_step.
  apply tx_spec_option_u64. by rewrite (sd_names _ _ Hs), lookup_fmap.
Qed.

Lemma bump_spec db name rev :
  t_namespaces db !! name = Some rev → rev ≤ i64_max →
  tx_spec (bump_namespace_revision name) db (λ rev' db',
    rev' = rev + 1 ∧ rev' ≤ i64_max ∧ db' = mk_database (<[name := rev']> (t_namespaces db)) (t_entries db)).
Proof.
  intros Hn Hr. unfold bump_namespace_revision, namespace_revision.
  eapply (tx_spec_bind _ _ _ (λ o db', o = Some rev ∧ db' = db)).
  { tx_step. rewrite Hn. by apply tx_spec_option_u64. }
  intros ? ? [-> ->]. cbn [mbind option_bind]. unfold checked_add.
  rewrite (proj2 (Z.leb_le _ _)) by (unfold i64_max, u64_max in *; lia).
  do 3 tx_step. split_and!; [done|done|]. unfold set_revision. by rewrite Hn.
Qed.

Lemma entry_bytes_spec r db name key :
  same_db r db →
  tx_spec (entry_bytes name key) db (λ b db',
    b = match find_record r name key with Some rec => record_bytes rec | None => 0 end ∧ db' = db).
Proof.
  intros Hs. unfold entry_bytes. tx_step. rewrite (sd_rows _ _ Hs).
  destruct (find_record r name key) as [rec|]; cbn; [|by apply tx_spec_ret].
  apply tx_spec_to_u64. intros _. by rewrite blob_len_encode.
Qed.

Lemma entry_revision_spec r db name key :
  same_db r db →
  tx_spec (entry_revision name key) db (λ o db', o = sr_revision <$> find_record r name key ∧ db' = db).
Proof.
  intros Hs. unfold entry_revision. tx_step. rewrite (sd_rows _ _ Hs).
  apply tx_spec_option_u64. by destruct (find_record r name key).
Qed.

Lemma read_entry_spec r db name key :
  same_db r db →
  tx_spec (read_entry name key) db (λ o db', o = entry_of name key <$> find_record r name key ∧ db' = db).
Proof.
  intros Hs. unfold read_entry. tx_step. rewrite (sd_rows _ _ Hs).
  destruct (find_record r name key) as [rec|]; cbn; [|by apply tx_spec_ret].
  rewrite decode_encode.
  by do 4 tx_step.
Qed.

(** Removing a row and bumping the revision is removing the record. *)
Lemma same_db_delete r db name st key rec rev p o b :
  same_db r db → namespaces r !! name = Some st → ns_entries st !! key = Some rec → rev ≤ i64_max →
  same_db (mk_registry (<[name := mk_namespace rev (delete key (ns_entries st))]> (namespaces r)) p o b)
    (mk_database (<[name := rev]> (t_namespaces db)) (delete (name, key) (t_entries db))).
Proof.
  intros [H1 H2 H3] Hst Hk Hr. split; cbn [t_namespaces t_entries namespaces].
  - by rewrite H1, fmap_insert.
  - intros name' key'. unfold find_record. cbn [namespaces].
    destruct (decide (name' = name)) as [->|Hn].
    + rewrite lookup_insert_eq. cbn. destruct (decide (key' = key)) as [->|Hk'].
      * by rewrite !lookup_delete_eq.
      * rewrite !lookup_delete_ne by congruence. rewrite H2. unfold find_record. by rewrite Hst.
    + rewrite lookup_insert_ne, lookup_delete_ne by congruence. by rewrite H2.
  - intros name' st'. destruct (decide (name' = name)) as [->|Hn].
    + rewrite lookup_insert_eq. by intros [= <-].
    + rewrite lookup_insert_ne by done. apply H3.
Qed.

Lemma same_db_push r db e : same_db r db → same_db (push_pending r e) db.
Proof.
  destruct (push_pending_fields r e) as (Hn & _). intros [H1 H2 H3]. split; [by rewrite Hn| |by rewrite Hn].
  intros name key. rewrite H2. unfold find_record. by rewrite Hn.
Qed.

(** [expire_key_if_due] on both copies. *)
Lemma d_expire_key_spec r db name key now :
  registry_ok r → same_db r db →
  tx_spec (d_expire_key_if_due name key now) db (λ freed db',
    ∃ r', expire_key_if_due r name key now = Ret r' ∧ same_db r' db' ∧ registry_ok r'
      ∧ freed = stored_bytes r - stored_bytes r').
Proof.
  intros Hok Hs. unfold d_expire_key_if_due, entry_expires_ms.
  eapply (tx_spec_bind _ _ _ (λ o db', o = find_record r name key ≫= sr_expires_ms ∧ db' = db)).
  { tx_step. rewrite (sd_rows _ _ Hs).
    apply tx_spec_option_u64. by destruct (find_record r name key). }
  intros ? ? [-> ->].
  destruct (expire_key_spec r name key now) as [[Hn He]|(st & rec & Hst & Hk & Hx & He)].
  - assert (is_some_and (λ t, t <=? now) (find_record r name key ≫= sr_expires_ms) = false) as ->.
    { destruct (find_record r name key) as [rec|] eqn:Hf; [|done]. cbn.
      destruct (is_some_and _ (sr_expires_ms rec)) eqn:Hd; [|done]. exfalso. apply Hn. by exists rec. }
    tx_step. exists r. split_and!; [done|done|done|lia].
  - assert (find_record r name key = Some rec) as Hf by (apply find_record_Some; eauto). rewrite Hf.
    cbn [mbind option_bind]. unfold is_expired in Hx. rewrite Hx.
    eapply tx_spec_bind; [by apply (entry_bytes_spec r)|]. intros ? ? [-> ->]. rewrite Hf.
    tx_step.
    eapply tx_spec_bind.
    { apply (bump_spec (delete_row name key db) name (ns_revision st)); [|by eapply sd_range].
      cbn [t_namespaces delete_row]. by rewrite (sd_names _ _ Hs), lookup_fmap, Hst. }
    intros rev db' (-> & Hr & ->). tx_step.
    rewrite He. rewrite (proj2 (next_revision_Ret _ _)) by (split; [done|unfold i64_max, u64_max in *; lia]).
    cbn [obind]. eexists. split; [done|].
    destruct (registry_ok_delete r name st key rec (ns_revision st + 1) (pending r) (pending_overflowed r))
      as [Hok' Hb]; [done|done|done|lia|by apply ro_pending|].
    split_and!.
    + apply same_db_push. by apply (same_db_delete r db name st key rec).
    + by apply registry_ok_push.
    + rewrite (proj1 (proj2 (push_pending_fields _ _))). cbn [stored_bytes]. lia.
Qed.

(** ** Reclaiming and admission *)

Lemma stored_bytes_nonneg r : registry_ok r → 0 ≤ stored_bytes r.
Proof. intros Hok. rewrite (ro_bytes _ Hok). apply total_bytes_nonneg. Qed.

Lemma reclaim_keys_spec keys r db name now freed :
  registry_ok r → same_db r db → 0 ≤ freed → freed + stored_bytes r ≤ u64_max →
  tx_spec (reclaim_keys name keys now freed) db (λ freed' db',
    ∃ r', expire_all r ((λ key, (name, key)) <$> keys) now = Ret r' ∧ same_db r' db' ∧ registry_ok r'
      ∧ freed' = freed + (stored_bytes r - stored_bytes r')).
Proof.
  revert r db freed. induction keys as [|key keys IH]; intros r db freed Hok Hs Hf Hmax;
    cbn [reclaim_keys fmap list_fmap expire_all].
  { tx_step. exists r. split_and!; [done|done|done|lia]. }
  eapply tx_spec_bind; [by apply d_expire_key_spec|].
  intros f1 db1 (r1 & He1 & Hs1 & Hok1 & ->). rewrite He1. cbn [obind]. pose proof (stored_bytes_nonneg r1 Hok1).
  unfold saturating_add. rewrite Z.min_r by lia.
  eapply tx_spec_mono.
  - apply (IH r1 db1 (freed + (stored_bytes r - stored_bytes r1))); [done|done| |lia].
    pose proof (expire_key_bytes _ _ _ _ _ Hok He1). lia.
  - intros f2 db2 (r2 & He & Hs2 & Hok2 & ->). exists r2. split_and!; [done|done|done|lia].
Qed.

Lemma stored_bytes_small r : registry_ok r → stored_bytes r ≤ u64_max.
Proof. intros Hok. pose proof (ro_limit _ Hok). unfold MAX_TOTAL_VALUE_BYTES, u64_max in *. lia. Qed.

(** The keys that the registry reclaims are the due ones. *)
Lemma reclaimed_keys r name st now key :
  namespaces r !! name = Some st →
  key ∈ fst <$> base.filter (λ e : string * StoredRecord, is_expired e.2 now = true) (hash_iter (ns_entries st))
  ↔ due r name key now.
Proof.
  intros Hst. rewrite list_elem_of_fmap. unfold due. setoid_rewrite find_record_Some. split.
  - intros ([k rec] & -> & [Hx Hin]%list_elem_of_filter). rewrite hash_iter_perm in Hin.
    apply elem_of_map_to_list in Hin. cbn in *. eauto.
  - intros (rec & (st' & Hst' & Hk) & Hx). rewrite Hst in Hst'. injection Hst' as <-.
    exists (key, rec). split; [done|]. apply list_elem_of_filter. split; [done|].
    rewrite hash_iter_perm. by apply elem_of_map_to_list.
Qed.

Lemma pairs_fst {V : Type} (name : string) (l : list (string * V)) :
  (λ e, (name, e.1)) <$> l = (λ key, (name, key)) <$> (fst <$> l).
Proof. by rewrite <-list_fmap_compose. Qed.

Lemma reclaim_spec r db name st now :
  registry_ok r → same_db r db → namespaces r !! name = Some st →
  tx_spec (d_reclaim_namespace name now) db (λ freed db',
    ∃ r', reclaim_namespace r name now = Ret r' ∧ same_db r' db' ∧ registry_ok r'
      ∧ freed = stored_bytes r - stored_bytes r').
Proof.
  intros Hok Hs Hst. unfold d_reclaim_namespace, expired_keys.
  eapply (tx_spec_bind _ _ _ (λ l db', l = query_order (due_rows db name now) ∧ db' = db)).
  { tx_step. by apply tx_spec_query. }
  intros ? ? [-> ->]. eapply tx_spec_mono.
  { apply (reclaim_keys_spec _ r); [done|done|done|]. by apply stored_bytes_small. }
  intros freed db' (r1 & He & Hs1 & Hok1 & ->). unfold reclaim_namespace. rewrite Hst.
  set (mine := fst <$> base.filter (λ e : string * StoredRecord, is_expired e.2 now = true) (hash_iter (ns_entries st))).
  rewrite pairs_fst. fold mine.
  destruct (expire_all_total ((λ key, (name, key)) <$> mine) r now) as (r2 & He2 & _);
    [by eapply same_db_room|].
  assert (same_contents r1 r2) as Hc.
  { refine (expire_all_order r name now _ _ r1 r2 Hok _ He He2). intros k. unfold mine.
    rewrite (reclaimed_keys r name st now k Hst), <-(due_rows_spec r db name now k Hs).
    rewrite query_order_perm. by rewrite elem_of_elements. }
  exists r2. split_and!; [done|by apply (same_db_contents r1)|exact (expire_all_ok _ _ _ _ Hok He2)|].
  destruct Hc as [_ <-]. lia.
Qed.

Lemma reclaim_ns_present r name now r' st :
  namespaces r !! name = Some st → reclaim_namespace r name now = Ret r' →
  ∃ st', namespaces r' !! name = Some st' ∧ ∀ key, ns_entries st !! key = None → ns_entries st' !! key = None.
Proof.
  intros Hst. unfold reclaim_namespace. rewrite Hst.
  rewrite pairs_fst. intros H.
  destruct (expire_all_ns _ _ _ _ _ _ Hst H) as (st' & Hn & _ & Hk). exists st'.
  split; [by rewrite Hn, lookup_insert_eq|]. intros key Hkey. by rewrite Hk, Hkey.
Qed.

Lemma same_db_ensure r db name :
  same_db r db → namespaces r !! name = None →
  same_db (ensure_ns r name) (mk_database (<[name := 0]> (t_namespaces db)) (t_entries db)).
Proof.
  intros [H1 H2 H3] Hn. split; cbn [t_namespaces t_entries].
  - unfold ensure_ns. rewrite Hn, H1. cbn [namespaces unwrap_or]. by rewrite fmap_insert.
  - intros n k. by rewrite H2, find_record_ensure.
  - intros n st. unfold ensure_ns. cbn [namespaces]. rewrite Hn. destruct (decide (n = name)) as [->|Hne].
    + rewrite lookup_insert_eq. by intros [= <-].
    + rewrite lookup_insert_ne by done. apply H3.
Qed.

(** Room for a new key, on both copies. *)
Definition has_room (r : Registry) (name : string) : Prop :=
  (namespaces r !! name = None → Z.of_nat (size (namespaces r)) < MAX_NAMESPACES)
  ∧ (∀ st, namespaces r !! name = Some st → Z.of_nat (size (ns_entries st)) < MAX_ENTRIES_PER_NAMESPACE).

Lemma admit_spec r db name key now :
  registry_ok r → same_db r db → find_record r name key = None →
  tx_spec (admit_namespace name now) db (λ freed db',
    ∃ r', admit_key r name now = Ret (Ok tt, r') ∧ registry_ok r' ∧ same_db (ensure_ns r' name) db'
      ∧ find_record r' name key = None ∧ has_room r' name
      ∧ freed = stored_bytes r - stored_bytes r' ∧ stored_bytes r' ≤ stored_bytes r).
Proof.
  intros Hok Hs Hf. unfold admit_namespace, admit_key.
  eapply tx_spec_bind; [by apply (namespace_revision_spec r)|]. intros ? ? [-> ->].
  destruct (namespaces r !! name) as [st|] eqn:Hst; cbn [fmap option_fmap option_map].
  - rewrite bool_decide_false by done. eapply tx_spec_bind; [by apply (reclaim_spec r db name st)|].
    intros freed db' (r' & Hr & Hs' & Hok' & ->). rewrite Hr. cbn [obind]. unfold entry_count. tx_step.
    destruct (reclaim_ns_present _ _ _ _ _ Hst Hr) as (st' & Hst' & Hk').
    assert (ns_entries st' !! key = None) as Hkey.
    { apply Hk'. unfold find_record in Hf. by rewrite Hst in Hf. }
    rewrite Hst', (keys_of_dom r' db' name st' Hs' Hst'), size_dom.
    destruct (MAX_ENTRIES_PER_NAMESPACE <=? _) eqn:Hm; tx_step. reflect_bools.
    exists r'. split_and!; [done|done|by rewrite (ensure_ns_found _ _ _ Hst')| | |done|by eapply expire_all_bytes].
    + unfold find_record. by rewrite Hst'.
    + split; [by rewrite Hst'|]. intros st0. rewrite Hst'. by intros [= <-].
  - rewrite bool_decide_true by done. unfold namespace_count. tx_step.
    rewrite (sd_names _ _ Hs), map_size_fmap.
    destruct (MAX_NAMESPACES <=? _) eqn:Hm; do 2 try tx_step. reflect_bools.
    exists r. split_and!; [done|done|by apply same_db_ensure|done| |lia|done].
    split; [intros _; lia|]. by rewrite Hst.
Qed.

(** ** Requests *)

Lemma same_db_stored r db name key st rec b :
  same_db r db → namespaces r !! name = Some st → sr_revision rec ≤ i64_max →
  same_db (stored r name key rec b)
    (mk_database (<[name := sr_revision rec]> (t_namespaces db)) (<[(name, key) := row_of rec]> (t_entries db))).
Proof.
  intros [H1 H2 H3] Hst Hr. unfold stored. rewrite Hst. cbn [unwrap_or].
  split; cbn [t_namespaces t_entries namespaces].
  - by rewrite H1, fmap_insert.
  - intros name' key'. unfold find_record. cbn [namespaces].
    destruct (decide (name' = name)) as [->|Hn].
    + rewrite lookup_insert_eq. cbn [mbind option_bind ns_entries]. destruct (decide (key' = key)) as [->|Hk'].
      * by rewrite !lookup_insert_eq.
      * rewrite !lookup_insert_ne by congruence. rewrite H2. unfold find_record. by rewrite Hst.
    + rewrite lookup_insert_ne, lookup_insert_ne by congruence. by rewrite H2.
  - intros name' st'. destruct (decide (name' = name)) as [->|Hn].
    + rewrite lookup_insert_eq. by intros [= <-].
    + rewrite lookup_insert_ne by done. apply H3.
Qed.

Lemma insert_entry_spec r db name key schema value e owner now st :
  same_db r db → namespaces r !! name = Some st →
  tx_spec (insert_entry name key schema value e owner now) db (λ rev db',
    rev = ns_revision st + 1 ∧ rev ≤ i64_max
    ∧ ∀ b, same_db (stored r name key (mk_record schema value rev now e owner) b) db').
Proof.
  intros Hs Hst. unfold insert_entry. eapply tx_spec_bind.
  { apply (bump_spec db name (ns_revision st)); [|by eapply sd_range].
    by rewrite (sd_names _ _ Hs), lookup_fmap, Hst. }
  intros rev db' (-> & Hr & ->). do 5 tx_step. split_and!; [done|done|]. intros b. by apply (same_db_stored r db name key st).
Qed.

Lemma ensure_lookup r name :
  namespaces (ensure_ns r name) !! name = Some (unwrap_or (namespaces r !! name) namespace_default).
Proof. apply lookup_insert_eq. Qed.

(** The write itself: quota, revision, row. *)
Lemma write_spec r db name key schema value e owner now stored0 :
  registry_ok r → registry_ok (ensure_ns r name) → same_db (ensure_ns r name) db →
  (find_record r name key = None → has_room r name) →
  (∀ rev, 1 ≤ rev → record_ok rev key (mk_record schema value rev now e owner)) →
  stored_bytes r ≤ stored0 ≤ MAX_TOTAL_VALUE_BYTES →
  tx_spec
    (let total_bytes :=
       saturating_sub (saturating_sub (saturating_add u64_max stored0 (encoded_len value)) (old_bytes r name key))
         (stored0 - stored_bytes r) in
     if MAX_TOTAL_VALUE_BYTES <? total_bytes then tx_fail (DomainError (InvalidE StoreFull))
     else
       let* revision := insert_entry name key schema value e owner now in
       tx_ret (mk_entry name key schema value revision now e owner, total_bytes)) db
    (λ eb db', ∃ r', store_record r name key schema value e owner now = Ret (Ok eb.1, r')
       ∧ same_db r' db' ∧ registry_ok r' ∧ eb.2 = stored_bytes r').
Proof.
  intros Hok Hoke Hs Hroom Hrec Hst0. cbv zeta. pose proof (old_bytes_range r name key Hok) as Hold.
  pose proof (encoded_len_range value) as Hv. pose proof (rec_size _ _ _ (Hrec 1 ltac:(lia))) as Hsize.
  cbn [sr_value] in Hsize.
  assert (saturating_sub (saturating_sub (saturating_add u64_max stored0 (encoded_len value)) (old_bytes r name key))
    (stored0 - stored_bytes r) = bytes_after r name key value) as ->.
  { unfold saturating_sub, saturating_add, bytes_after.
    unfold MAX_TOTAL_VALUE_BYTES, MAX_VALUE_BYTES, u64_max in *. lia. }
  destruct (MAX_TOTAL_VALUE_BYTES <? _) eqn:Hq; [tx_step|]. reflect_bools.
  eapply tx_spec_bind; [apply (insert_entry_spec (ensure_ns r name)); [done|apply ensure_lookup]|].
  intros rev db' (-> & Hr & Hdb). tx_step. cbn [fst snd].
  set (st := unwrap_or (namespaces r !! name) namespace_default) in *.
  rewrite (store_record_eq r name key schema value e owner now Hok Hq Hsize st eq_refl)
    by (unfold i64_max, u64_max in *; lia).
  cbv zeta. eexists. split; [done|]. rewrite <-stored_ensure.
  split_and!; [apply Hdb| |done].
  pose proof (stored_ok (ensure_ns r name) name key (mk_record schema value (ns_revision st + 1) now e owner) st Hoke
    (ensure_lookup r name)) as H.
  unfold bytes_after, old_bytes in *. rewrite find_record_ensure in H. cbn [sr_value sr_revision stored_bytes ensure_ns] in H.
  pose proof (nso_revision _ _ (ro_namespaces _ Hoke _ _ (ensure_lookup r name))) as Hpos. fold st in Hpos.
  apply H; [done|apply Hrec; lia| |done].
  intros Hn. unfold st in Hn |- *. unfold find_record in Hroom. destruct (namespaces r !! name) as [st0|] eqn:Hst.
  - cbn [unwrap_or] in *. destruct (Hroom Hn) as [_ Hr2]. by apply Hr2.
  - cbn [unwrap_or namespace_default ns_entries]. rewrite map_size_empty. done.
Qed.

Lemma put_transaction_spec r db name key schema value expected e owner now :
  registry_ok r → same_db r db →
  (∃ layout, validate_namespace name = Ok layout ∧ layout ≠ System) →
  (∀ rev, 1 ≤ rev → record_ok rev key (mk_record schema value rev now e owner)) →
  tx_spec (put_transaction (stored_bytes r) name key schema value (encoded_len value) expected e owner now) db
    (λ eb db', ∃ r',
       obind (expire_key_if_due r name key now) (λ r,
         let current := sr_revision <$> find_record r name key in
         match check_expected expected current with
         | Err e => Ret (Err e, r)
         | Ok _ =>
             let! (admitted, r) := match current with Some _ => Ret (Ok tt, r) | None => admit_key r name now end in
             match admitted with
             | Err e => Ret (Err e, r)
             | Ok _ => store_record r name key schema value e owner now
             end
         end) = Ret (Ok eb.1, r')
       ∧ same_db r' db' ∧ registry_ok r' ∧ eb.2 = stored_bytes r').
Proof.
  intros Hok Hs Hname Hrec. unfold put_transaction. pose proof (ro_limit _ Hok) as Hlim.
  eapply tx_spec_bind; [by apply (d_expire_key_spec r)|]. intros freed db1 (r1 & He1 & Hs1 & Hok1 & ->).
  pose proof (expire_key_bytes _ _ _ _ _ Hok He1) as Hle. rewrite He1. cbn [obind].
  eapply tx_spec_bind; [by apply (entry_revision_spec r1)|]. intros ? ? [-> ->].
  eapply (tx_spec_bind _ _ _ (λ u db', check_expected expected (sr_revision <$> find_record r1 name key) = Ok tt ∧ db' = db1)).
  { apply tx_spec_domain. intros [] Hc. done. }
  intros u ? [Hc ->]. rewrite Hc.
  eapply tx_spec_bind; [by apply (entry_bytes_spec r1)|]. intros ? ? [-> ->].
  change (match find_record r1 name key with Some rec => record_bytes rec | None => 0 end)
    with (old_bytes r1 name key).
  destruct (find_record r1 name key) as [rec|] eqn:Hf; cbn [fmap option_fmap option_map].
  - eapply (tx_spec_bind _ _ _ (λ f db', f = stored_bytes r - stored_bytes r1 ∧ db' = db1)); [by apply tx_spec_ret|].
    intros ? ? [-> ->]. cbn [obind].
    pose proof Hf as (st & Hst & Hk)%find_record_Some.
    apply (write_spec r1); [done|by rewrite (ensure_ns_found _ _ _ Hst)|by rewrite (ensure_ns_found _ _ _ Hst)|
      by rewrite Hf|done|lia].
  - eapply (tx_spec_bind _ _ _ (λ f db', ∃ r', admit_key r1 name now = Ret (Ok tt, r') ∧ registry_ok r'
      ∧ same_db (ensure_ns r' name) db' ∧ find_record r' name key = None ∧ has_room r' name
      ∧ f = stored_bytes r - stored_bytes r' ∧ stored_bytes r' ≤ stored_bytes r)).
    { eapply tx_spec_bind; [by apply (admit_spec r1 db1 name key)|].
      intros f db2 (r2 & Ha & Hok2 & Hs2 & Hf2 & Hroom & -> & Hle2). tx_step. exists r2.
      pose proof (stored_bytes_nonneg r2 Hok2). pose proof (stored_bytes_small r Hok).
      split_and!; [done|done|done|done|done|unfold saturating_add; lia|lia]. }
    intros f db2 (r2 & -> & Hok2 & Hs2 & Hf2 & Hroom & -> & Hle2). cbn [obind].
    assert (old_bytes r1 name key = old_bytes r2 name key) as -> by (unfold old_bytes; by rewrite Hf, Hf2).
    apply (write_spec r2); [done|by apply ensure_ns_ok; [done|done|apply Hroom]|done|done|done|lia].
Qed.
End sync.

(** * Requests on both copies of the state store

    Each operation of the database that succeeds has the effect, and the result, of the
    operation of the registry with the same name; one that fails changes nothing. *)



Section requests.
Context `{S : StoreEnv} {SL : StoreLaws S} `{E : DatabaseEnv} {DL : DatabaseLaws S E}.

(** [Q] of what a durable operation returns; a failure leaves the store alone. *)
Definition durable_result {A : Type} (d : DurableStore) (m : outcome (result Error A * DurableStore * Io))
    (Q : A → DurableStore → Prop) : Prop :=
  match m with
  | Panic => False
  | Ret (Err _, d', _) => d' = d
  | Ret (Ok a, d', _) => Q a d'
  end.

Lemma put_in_step r d name key schema value expected ttl owner admin now io :
  registry_ok r → in_step r d → 0 ≤ now → str_len owner ≤ 256 →
  durable_result d (d_put d name key schema value expected ttl owner admin now io) (λ e d',
    ∃ r', put r name key schema value expected ttl owner admin now = Ret (Ok e, r') ∧ in_step r' d' ∧ registry_ok r').
Proof.
  intros Hok [Hs Hb] Hnow Howner. unfold d_put, put.
  destruct (put_request name key schema value ttl owner admin now) as [[v e]|err] eqn:Hq; [|done].
  destruct (put_request_Ok _ _ _ _ _ _ _ _ _ _ Hnow Howner Hq) as [Hname Hrec].
  apply transaction_spec. rewrite Hb. eapply tx_spec_mono.
  { by apply (put_transaction_spec r (connection d) name key schema v expected e owner now). }
  intros [entry bytes] db (r' & Hp & Hs' & Hok' & Hbytes). cbn [fst snd] in *. exists r'. done.
Qed.

Lemma get_in_step r d name key owner admin now io :
  registry_ok r → in_step r d →
  durable_result d (d_get d name key owner admin now io) (λ e d',
    ∃ r', get r name key owner admin now = Ret (Ok e, r') ∧ in_step r' d' ∧ registry_ok r').
Proof.
  intros Hok [Hs Hb]. unfold d_get, get.
  destruct (let? layout := validate_namespace name in _) as [[]|err]; [|done].
  apply transaction_spec. unfold get_transaction.
  eapply tx_spec_bind; [by apply (d_expire_key_spec r)|]. intros freed db1 (r1 & He1 & Hs1 & Hok1 & ->).
  rewrite He1. cbn [obind].
  eapply tx_spec_bind; [by apply (read_entry_spec r1)|]. intros ? ? [-> ->].
  destruct (find_record r1 name key) as [rec|]; cbn [fmap option_fmap option_map]; tx_step. cbn [fst snd].
  exists r1. split_and!; [done| |done]. split; [done|]. cbn [d_stored_bytes]. rewrite Hb.
  pose proof (stored_bytes_nonneg r1 Hok1). unfold saturating_sub. lia.
Qed.

Lemma delete_in_step r d name key expected owner admin now io :
  registry_ok r → in_step r d →
  durable_result d (d_delete d name key expected owner admin now io) (λ rev d',
    ∃ r', delete_entry r name key expected owner admin now = Ret (Ok rev, r') ∧ in_step r' d' ∧ registry_ok r').
Proof.
  intros Hok [Hs Hb]. unfold d_delete, delete_entry.
  destruct (delete_request name key owner admin) as [[]|err]; [|done].
  apply transaction_spec. unfold delete_transaction.
  eapply tx_spec_bind; [by apply (d_expire_key_spec r)|]. intros freed db1 (r1 & He1 & Hs1 & Hok1 & ->).
  pose proof (expire_key_bytes _ _ _ _ _ Hok He1) as Hle. rewrite He1. cbn [obind].
  eapply tx_spec_bind; [by apply (entry_revision_spec r1)|]. intros ? ? [-> ->].
  eapply (tx_spec_bind _ _ _ (λ u db', check_expected expected (sr_revision <$> find_record r1 name key) = Ok tt ∧ db' = db1)).
  { apply tx_spec_domain. intros [] Hc. done. }
  intros u ? [Hc ->]. destruct (find_record r1 name key) as [rec|] eqn:Hf; cbn [fmap option_fmap option_map] in *; [|tx_step].
  pose proof Hf as (st & Hst & Hk)%find_record_Some. rewrite Hst, Hk. cbn [fmap option_fmap option_map]. rewrite Hc.
  eapply tx_spec_bind; [by apply (entry_bytes_spec r1)|]. intros ? ? [-> ->]. rewrite Hf. tx_step.
  eapply tx_spec_bind.
  { apply (bump_spec (delete_row name key db1) name (ns_revision st)); [|by eapply sd_range].
    cbn [t_namespaces delete_row]. by rewrite (sd_names _ _ Hs1), lookup_fmap, Hst. }
  intros rev db' (-> & Hr & ->). tx_step. cbn [fst snd].
  rewrite (proj2 (next_revision_Ret _ _)) by (split; [done|unfold i64_max, u64_max in *; lia]).
  destruct (registry_ok_delete r1 name st key rec (ns_revision st + 1) (pending r1) (pending_overflowed r1))
    as [Hok' Hbytes]; [done|done|done|lia|by apply ro_pending|].
  cbn [obind]. eexists. split; [done|]. split; [|done]. split.
  - by apply (same_db_delete r1 db1 name st key rec).
  - cbn [d_stored_bytes stored_bytes]. pose proof (stored_bytes_nonneg r1 Hok1). rewrite Hb.
    change (value_bytes (sr_value rec)) with (record_bytes rec). rewrite Hbytes.
    pose proof (stored_bytes_nonneg _ Hok') as Hn. cbn [stored_bytes] in Hn. rewrite Hbytes in Hn.
    unfold saturating_sub. lia.
Qed.

(** ** Expiring a list of keys *)

Lemma expire_key_due_other r name key now r' name' key' :
  expire_key_if_due r name key now = Ret r' → (name', key') ≠ (name, key) →
  find_record r' name' key' = find_record r name' key'.
Proof.
  intros H Hne. destruct (expire_key_spec r name key now) as [[_ He]|(st & rec & Hst & Hk & _ & He)];
    rewrite He in H; [by simplify_eq|].
  destruct (next_revision _) as [rev|] eqn:Hr; [|done]. cbn [obind] in H. injection H as <-.
  unfold find_record. rewrite (proj1 (push_pending_fields _ _)). cbn [namespaces].
  destruct (decide (name' = name)) as [->|Hn]; [|by rewrite lookup_insert_ne].
  rewrite lookup_insert_eq, Hst. cbn [mbind option_bind ns_entries]. apply lookup_delete_ne. congruence.
Qed.

(** Expiring a due key in the database, in the registry, and by taking over the event. *)
Lemma expire_one_spec r db name key now :
  registry_ok r → same_db r db → due r name key now →
  tx_spec (expire_one name key now) db (λ o db',
    ∃ x r', o = Some (x, stored_bytes r - stored_bytes r')
      ∧ expire_key_if_due r name key now = Ret r' ∧ apply_expiration r x = r'
      ∧ same_db r' db' ∧ registry_ok r').
Proof.
  intros Hok Hs (rec0 & Hf0 & Hx0). unfold expire_one.
  eapply tx_spec_bind; [by apply (read_entry_spec r)|]. intros ? ? [-> ->]. rewrite Hf0.
  cbn [fmap option_fmap option_map].
  destruct (expire_key_spec r name key now) as [[Hn He]|(st & rec & Hst & Hk & Hx & He)].
  { exfalso. apply Hn. by exists rec0. }
  assert (rec0 = rec) as -> by (apply find_record_Some in Hf0 as (st0 & Hst0 & Hk0); congruence).
  tx_step. eapply tx_spec_bind.
  { apply (bump_spec (delete_row name key db) name (ns_revision st)); [|by eapply sd_range].
    cbn [t_namespaces delete_row]. by rewrite (sd_names _ _ Hs), lookup_fmap, Hst. }
  intros rev db' (-> & Hr & ->). tx_step.
  destruct (registry_ok_delete r name st key rec (ns_revision st + 1) (pending r) (pending_overflowed r))
    as [Hok' Hb]; [done|done|done|lia|by apply ro_pending|].
  eexists _, _. split_and!; [|rewrite He; rewrite (proj2 (next_revision_Ret _ _))
    by (split; [done|unfold i64_max, u64_max in *; lia]); done| | |].
  - rewrite (proj1 (proj2 (push_pending_fields _ _))). cbn [stored_bytes]. rewrite Hb.
    do 2 f_equal. unfold record_bytes. cbn [se_value entry_of]. lia.
  - unfold apply_expiration. cbn [xe_namespace xe_key xe_revision]. rewrite Hst. cbn [unwrap_or]. rewrite Hk.
    by rewrite Z.max_r by lia.
  - apply same_db_push. by apply (same_db_delete r db name st key rec).
  - by apply registry_ok_push.
Qed.

Lemma expire_listed_spec l r db now freed acc :
  registry_ok r → same_db r db → NoDup l → (∀ name key, (name, key) ∈ l → due r name key now) →
  0 ≤ freed → freed + stored_bytes r ≤ u64_max →
  tx_spec (expire_listed l now freed acc) db (λ res db',
    ∃ news r', res = (acc ++ news, freed + (stored_bytes r - stored_bytes r'))
      ∧ expire_all r l now = Ret r' ∧ apply_expirations r news = r'
      ∧ same_db r' db' ∧ registry_ok r').
Proof.
  revert r db freed acc. induction l as [|[name key] l IH]; intros r db freed acc Hok Hs Hnd Hdue Hf Hmax;
    cbn [expire_listed expire_all].
  { tx_step. exists [], r. rewrite app_nil_r. split_and!; [f_equal; lia|done|done|done|done]. }
  apply NoDup_cons in Hnd as [Hnotin Hnd].
  eapply tx_spec_bind; [apply (expire_one_spec r); [done|done|by apply Hdue; left]|].
  intros ? db1 (x & r1 & -> & He1 & Ha1 & Hs1 & Hok1). rewrite He1. cbn [obind].
  pose proof (expire_key_bytes _ _ _ _ _ Hok He1). pose proof (stored_bytes_nonneg r1 Hok1).
  unfold saturating_add. rewrite Z.min_r by lia.
  eapply tx_spec_mono.
  { apply (IH r1 db1 (freed + (stored_bytes r - stored_bytes r1)) (acc ++ [x])); [done|done|done| |lia|lia].
    intros name' key' Hin. destruct (Hdue name' key') as (rec & Hrec & Hx); [by right|]. exists rec.
    split; [|done]. rewrite (expire_key_due_other _ _ _ _ _ name' key' He1); [done|]. intros [= -> ->]. done. }
  intros res db2 (news & r2 & -> & He2 & Ha2 & Hs2 & Hok2). exists (x :: news), r2.
  split_and!; [rewrite <-app_assoc; f_equal; lia|done| |done|done].
  unfold apply_expirations in *. cbn [foldl]. by rewrite Ha1.
Qed.

(** ** All due keys, in order *)

#[local] Instance pair_le_total : Total pair_le.
Proof.
  intros [a b] [c d]. unfold pair_le. cbn. destruct (decide (a = c)) as [->|Hne].
  - destruct (str_leb_total b d); naive_solver.
  - rewrite !str_ltb_leb. destruct (str_leb_total a c); naive_solver.
Qed.
#[local] Instance pair_le_trans : Transitive pair_le.
Proof.
  intros [a b] [c d] [e f]. unfold pair_le. cbn. rewrite !str_ltb_leb.
  intros [[H1 H2]|[-> H1]] [[H3 H4]|[-> H3]]; try naive_solver.
  - left. split; [by eapply str_leb_trans|]. intros ->. apply H2. by apply str_leb_antisym.
  - right. split; [done|by eapply str_leb_trans].
Qed.
#[local] Instance pair_le_antisym : AntiSymm (=) pair_le.
Proof.
  intros [a b] [c d]. unfold pair_le. cbn. rewrite !str_ltb_leb.
  intros [[H1 H2]|[-> H1]] [[H3 H4]|[H5 H3]]; subst; try naive_solver.
  - exfalso. apply H2. by apply str_leb_antisym.
  - f_equal. by apply str_leb_antisym.
Qed.

Lemma sorted_pairs_eq l l' : l ≡ₚ l' → merge_sort pair_le l = merge_sort pair_le l'.
Proof.
  intros Hp. apply (StronglySorted_unique pair_le).
  - apply StronglySorted_merge_sort; apply _.
  - apply StronglySorted_merge_sort; apply _.
  - by rewrite !merge_sort_Permutation.
Qed.

(** Keys grouped by namespace are listed once. *)
Lemma NoDup_grouped {A} (name : A → string) (f : A → list string) (l : list A) :
  NoDup (name <$> l) → (∀ a, a ∈ l → NoDup (f a)) →
  NoDup (mjoin ((λ a, (λ k, (name a, k)) <$> f a) <$> l)).
Proof.
  induction l as [|a l IH]; intros Hnd Hf; cbn; [constructor|]. rewrite fmap_cons in Hnd.
  apply NoDup_cons in Hnd as [Hnotin Hnd]. apply NoDup_app. split_and!.
  - apply NoDup_fmap_2; [intros x y [=]; done|]. apply Hf. by left.
  - intros [n k] (k1 & [= -> ->] & _)%list_elem_of_fmap Hin. apply list_elem_of_join in Hin as (g & Hg & Hl).
    apply list_elem_of_fmap in Hl as (b & -> & Hb). apply list_elem_of_fmap in Hg as (k2 & [= Hn ->] & _).
    apply Hnotin. rewrite Hn. apply list_elem_of_fmap. by exists b.
  - apply IH; [done|]. intros b Hb. apply Hf. by right.
Qed.

Lemma all_due_eq r now :
  all_due r now = mjoin ((λ n : string * NamespaceState, (λ k, (n.1, k))
    <$> (fst <$> base.filter (λ e : string * StoredRecord, is_expired e.2 now = true) (hash_iter (ns_entries n.2))))
    <$> hash_iter (namespaces r)).
Proof. unfold all_due. f_equal. apply list_fmap_ext. intros _ [n st] _. apply pairs_fst. Qed.

Lemma all_due_spec r now :
  NoDup (all_due r now) ∧ ∀ name key, (name, key) ∈ all_due r now ↔ due r name key now.
Proof.
  rewrite all_due_eq. split.
  - apply (NoDup_grouped fst).
    + rewrite hash_iter_perm. apply NoDup_fst_map_to_list.
    + intros [n st] _. cbn [snd]. eapply (sublist_NoDup _ (fst <$> hash_iter (ns_entries st))).
      * rewrite hash_iter_perm. apply NoDup_fst_map_to_list.
      * apply sublist_fmap, sublist_filter.
  - intros name key. rewrite list_elem_of_join. split.
    + intros (g & Hg & Hl). apply list_elem_of_fmap in Hl as ([n st] & -> & Hn).
      apply list_elem_of_fmap in Hg as (k & [= -> ->] & Hk). rewrite hash_iter_perm in Hn.
      apply elem_of_map_to_list in Hn. by eapply reclaimed_keys.
    + intros Hdue. pose proof Hdue as (rec & (st & Hst & Hk)%find_record_Some & Hx).
      eexists. split; [|apply list_elem_of_fmap; exists (name, st); split; [done|]].
      * cbn [fst snd]. apply list_elem_of_fmap. exists key. split; [done|]. by apply (proj2 (reclaimed_keys r name st now key Hst)).
      * rewrite hash_iter_perm. by apply elem_of_map_to_list.
Qed.

Lemma due_of_spec names db now :
  tx_spec (due_of names now) db (λ l db',
    l = mjoin ((λ n, (λ k, (n, k)) <$> query_order (due_rows db n now)) <$> names) ∧ db' = db).
Proof.
  induction names as [|n names IH]; cbn [due_of]; [by tx_step|].
  eapply (tx_spec_bind _ _ _ (λ l db', l = query_order (due_rows db n now) ∧ db' = db)).
  { unfold expired_keys. tx_step. by apply tx_spec_query. }
  intros ? ? [-> ->]. eapply tx_spec_bind; [apply IH|]. intros ? ? [-> ->]. by tx_step.
Qed.

Lemma due_rows_perm r db now :
  same_db r db →
  mjoin ((λ n, (λ k, (n, k)) <$> query_order (due_rows db n now)) <$> ordered (dom (t_namespaces db)))
  ≡ₚ all_due r now.
Proof.
  intros Hs. apply NoDup_Permutation.
  - apply (NoDup_grouped id).
    + rewrite list_fmap_id. unfold ordered, sort_strings. rewrite merge_sort_Permutation. apply NoDup_elements.
    + intros n _. rewrite query_order_perm. apply NoDup_elements.
  - apply all_due_spec.
  - intros [name key]. rewrite (proj2 (all_due_spec r now)), list_elem_of_join. split.
    + intros (g & Hg & Hl). apply list_elem_of_fmap in Hl as (n & -> & Hn).
      apply list_elem_of_fmap in Hg as (k & [= -> ->] & Hk).
      rewrite query_order_perm, elem_of_elements, (due_rows_spec r) in Hk; done.
    + intros Hdue. pose proof Hdue as (rec & (st & Hst & Hk)%find_record_Some & Hx).
      eexists. split; [|apply list_elem_of_fmap; exists name; split; [done|]].
      * apply list_elem_of_fmap. exists key. split; [done|].
        by rewrite query_order_perm, elem_of_elements, (due_rows_spec r).
      * unfold ordered, sort_strings. rewrite merge_sort_Permutation, elem_of_elements, (sd_names _ _ Hs).
        rewrite dom_fmap. apply elem_of_dom. eauto.
Qed.

Lemma expire_due_in_step r d now io :
  registry_ok r → in_step r d →
  durable_result d (d_expire_due d now io) (λ _ d',
    ∃ r', expire_all r (merge_sort pair_le (all_due r now)) now = Ret r' ∧ in_step r' d' ∧ registry_ok r').
Proof.
  intros Hok [Hs Hb]. unfold d_expire_due. apply transaction_spec. unfold expire_due_transaction. tx_step.
  eapply tx_spec_bind; [apply due_of_spec|]. intros ? ? [-> ->].
  rewrite (sorted_pairs_eq _ _ (due_rows_perm r (connection d) now Hs)).
  eapply tx_spec_bind.
  { apply (expire_listed_spec _ r); [done|done| | |done|by apply stored_bytes_small].
    - rewrite merge_sort_Permutation. apply all_due_spec.
    - intros name key. rewrite merge_sort_Permutation. apply all_due_spec. }
  intros [expired freed] db' (news & r' & [= -> ->] & He & _ & Hs' & Hok'). tx_step. cbn [fst snd].
  exists r'. split_and!; [done| |done]. split; [done|]. cbn [d_stored_bytes]. rewrite Hb.
  pose proof (stored_bytes_nonneg r' Hok'). unfold saturating_sub. lia.
Qed.

Lemma due_keys_spec r name prefix now :
  NoDup (due_keys r name prefix now)
  ∧ ∀ key, key ∈ due_keys r name prefix now ↔ due r name key now ∧ str_prefix prefix key = true.
Proof.
  unfold due_keys, due. destruct (namespaces r !! name) as [st|] eqn:Hst.
  - unfold sort_strings. split.
    + rewrite merge_sort_Permutation. eapply (sublist_NoDup _ (fst <$> hash_iter (ns_entries st))).
      * rewrite hash_iter_perm. apply NoDup_fst_map_to_list.
      * apply sublist_fmap, sublist_filter.
    + intros key. rewrite merge_sort_Permutation, list_elem_of_fmap. split.
      * intros ([k rec] & -> & [Hx Hin]%list_elem_of_filter). rewrite hash_iter_perm in Hin.
        apply elem_of_map_to_list in Hin. cbn in *. apply andb_true_iff in Hx as [Hp Hx].
        split; [|done]. exists rec. split; [|done]. apply find_record_Some. eauto.
      * intros [(rec & Hf & Hx) Hp]. apply find_record_Some in Hf as (st' & Hst' & Hk).
        rewrite Hst in Hst'. injection Hst' as <-. exists (key, rec). split; [done|]. apply list_elem_of_filter.
        split; [cbn; by rewrite Hp, Hx|]. rewrite hash_iter_perm. by apply elem_of_map_to_list.
  - split; [constructor|]. intros key. split; [by intros ?%not_elem_of_nil|].
    intros [(rec & Hf & _) _]. apply find_record_Some in Hf as (st & Hst' & _). congruence.
Qed.

(** The watch path: the database expires the keys, the registry takes the events over. *)
Lemma expire_keys_in_step r d name prefix now io :
  registry_ok r → in_step r d →
  durable_result d (d_expire_keys d name (due_keys r name prefix now) now io) (λ news d',
    ∃ r', apply_expirations r news = r' ∧ in_step r' d' ∧ registry_ok r'
      ∧ expire_all r ((λ key, (name, key)) <$> sort_strings (due_keys r name prefix now)) now = Ret r').
Proof.
  intros Hok [Hs Hb]. unfold d_expire_keys. apply transaction_spec. unfold expire_keys_transaction.
  destruct (due_keys_spec r name prefix now) as [Hnd Hdue].
  eapply tx_spec_bind.
  { apply (expire_listed_spec _ r); [done|done| | |done|by apply stored_bytes_small].
    - apply NoDup_fmap_2; [intros x y [=]; done|]. unfold sort_strings. by rewrite merge_sort_Permutation.
    - intros n k (k' & [= -> ->] & Hk)%list_elem_of_fmap. unfold sort_strings in Hk.
      rewrite merge_sort_Permutation in Hk. by apply Hdue in Hk as [? _]. }
  intros [expired freed] db' (news & r' & [= -> ->] & He & Ha & Hs' & Hok'). tx_step. cbn [fst snd].
  exists r'. split_and!; [done| |done|done]. split; [done|]. cbn [d_stored_bytes]. rewrite Hb.
  pose proof (stored_bytes_nonneg r' Hok'). unfold saturating_sub. lia.
Qed.

End requests.
