(* ===== verification/StateRestore.v ===== *)
(** * Restoring the state store

    What [DurableStore::open] and [export] of [server/state_store_durable.rs] do with a
    database file, and [open_state_store] of [server.rs], which fills the registry. *)

From S2P Require Import Prelude StateSchema StateStore StateDurable.

Section restore.
Context `{S : StoreEnv} `{E : DatabaseEnv}.

(** ** Opening a file *)

(** A file: [PRAGMA user_version] and the tables. *)
Record DatabaseFile := mk_file { user_version : Z; tables : Database }.
Definition empty_tables : Database := mk_database ∅ ∅.

Definition fail {A : Type} (message : string) : Tx A := tx_fail (StorageError message).
Definition checked {A : Type} (r : result string A) : Tx A :=
  match r with Ok a => tx_ret a | Err message => fail message end.

Definition initialize_schema (version : Z) : Tx unit :=
  let* version := query (λ _, version) in
  if SCHEMA_VERSION <? version
  then fail ("unsupported state-store schema version " +:+ usize_to_string version)
  else if version =? 0 then atomically (execute (λ _, empty_tables))
  else query (λ _, tt).

Definition total_len (db : Database) : Z :=
  zsum (λ e : string * string * Row, blob_len (row_value e.2)) (map_to_list (t_entries db)).

Definition bad_namespace (n : string * Z) : bool := (n.2 <? 0) || (MAX_NAMESPACE_CHARS <? str_len n.1).
Definition bad_entry (db : Database) (e : string * string * Row) : bool :=
  let '((namespace, key), row) := e in
  match t_namespaces db !! namespace with
  | None => true
  | Some revision =>
      (MAX_VALUE_BYTES <? blob_len (row_value row)) || (MAX_NAMESPACE_CHARS <? str_len namespace)
      || (MAX_KEY_CHARS <? str_len key) || (MAX_SCHEMA_CHARS <? str_len (row_schema row))
      || (MAX_RESTORED_OWNER_BYTES <? str_len (row_owner_id row))
      || (row_revision row <? 1) || (revision <? row_revision row) || (row_updated_ms row <? 0)
      || is_some_and (λ t, t <? 0) (row_expires_ms row)
  end.

Definition validate_restored_bounds (db : Database) : result string unit :=
  let? _ := ensure (Z.of_nat (size (t_namespaces db)) <=? MAX_NAMESPACES)
    "restored state exceeds namespace limit" in
  let? _ := ensure
    (forallb (λ e : string * string * Row,
       Z.of_nat (size (keys_of db e.1.1)) <=? MAX_ENTRIES_PER_NAMESPACE) (map_to_list (t_entries db)))
    "restored state exceeds entry limit" in
  let? _ := ensure (total_len db <=? MAX_TOTAL_VALUE_BYTES) "restored state exceeds value byte limit" in
  ensure (negb (existsb bad_namespace (map_to_list (t_namespaces db)))
          && negb (existsb (bad_entry db) (map_to_list (t_entries db))))
    "restored state contains invalid metadata or oversized values".

Fixpoint validate_restored_names (l : list (string * Z)) : result string unit :=
  match l with
  | [] => Ok tt
  | (namespace, _) :: l' =>
      match validate_namespace namespace with
      | Err _ => Err "invalid restored namespace: Invalid(Namespace)"
      | Ok _ => validate_restored_names l'
      end
  end.

Fixpoint validate_restored_entries (l : list (string * string * Row)) : result string unit :=
  match l with
  | [] => Ok tt
  | ((_, key), row) :: l' =>
      match validate_key key with
      | Err _ => Err "invalid restored key: Invalid(Key)"
      | Ok _ =>
          match struct_decode (row_value row) with
          | Err e => Err e
          | Ok value =>
              match validate_value (row_schema row) value with
              | Err _ => Err "invalid restored value: Invalid(Schema)"
              | Ok _ => validate_restored_entries l'
              end
          end
      end
  end.

Definition validate_restored_store : Tx unit :=
  let* bounds := query validate_restored_bounds in
  let* _ := checked bounds in
  let* names := query (λ db, validate_restored_names (map_to_list (t_namespaces db))) in
  let* _ := checked names in
  let* entries := query (λ db, validate_restored_entries (map_to_list (t_entries db))) in
  checked entries.

(** The rows of [GROUP BY namespace]: namespaces with due rows, and how many. *)
Definition due_groups (db : Database) (cutoff : Z) : list (string * Z) :=
  (λ namespace, (namespace, Z.of_nat (size (due_rows db namespace cutoff))))
    <$> query_order (set_map fst (dom (base.filter (λ e : string * string * Row, row_due e.2 cutoff = true) (t_entries db)))).

Fixpoint purge_bumps (groups : list (string * Z)) : Tx (list (string * Z)) :=
  match groups with
  | [] => tx_ret []
  | (namespace, count) :: groups' =>
      let* row := query (λ db, t_namespaces db !! namespace) in
      match row with
      | None => fail "state-store namespace is missing"
      | Some revision =>
          if revision <? 0 then fail "state-store revision is corrupt"
          else if u64_max <? revision + count then fail "state-store revision overflows u64"
          else if i64_max <? revision + count then fail "state-store revision exceeds the persisted range"
          else let* bumps := purge_bumps groups' in tx_ret ((namespace, revision + count) :: bumps)
      end
  end.

Fixpoint set_revisions (bumps : list (string * Z)) : Tx unit :=
  match bumps with
  | [] => tx_ret tt
  | (namespace, revision) :: bumps' =>
      let* _ := execute (set_revision namespace revision) in set_revisions bumps'
  end.

Definition delete_due (cutoff : Z) (db : Database) : Database :=
  mk_database (t_namespaces db)
    (base.filter (λ e : string * string * Row, row_due e.2 cutoff = false) (t_entries db)).

Definition purge_expired (now_ms : Z) : Tx unit :=
  let* cutoff := to_i64 now_ms in
  atomically
    (let* groups := query (λ db, due_groups db cutoff) in
     let* bumps := purge_bumps groups in
     let* _ := execute (delete_due cutoff) in
     set_revisions bumps).

(** [open] after the file is connected: the WAL checkpoint and the byte count are the
    last two statements. *)
Definition open_tables (version now_ms : Z) : Tx DurableStore :=
  let* _ := initialize_schema version in
  let* _ := validate_restored_store in
  let* _ := purge_expired now_ms in
  let* _ := query (λ _, tt) in
  let* stored_bytes := query total_len in
  λ db, tx_ret (mk_durable db stored_bytes) db.

(** [DurableStore::open]: the store, and the tables of the file afterwards. *)
Definition open (file : DatabaseFile) (now_ms : Z) (io : Io)
    : outcome (result Error DurableStore * Database * Io) :=
  match open_tables (user_version file) now_ms (tables file) io with
  | Panic => Panic
  | Ret (Err e, db, io) => Ret (Err (storage_error e), db, io)
  | Ret (Ok d, db, io) => Ret (Ok d, db, io)
  end.

(** ** Export and import *)

Record NamespaceExport := mk_export {
  ex_namespace : string;
  ex_revision : Z;
  ex_entries : list StoredEntry
}.

Fixpoint export_keys (namespace : string) (keys : list string) (now_ms : Z) : Tx (list StoredEntry) :=
  match keys with
  | [] => tx_ret []
  | key :: keys' =>
      let* entry := read_entry namespace key in
      match entry with
      | None => export_keys namespace keys' now_ms
      | Some entry =>
          if is_some_and (λ t, t <=? now_ms) (se_expires_ms entry) then export_keys namespace keys' now_ms
          else let* rest := export_keys namespace keys' now_ms in tx_ret (entry :: rest)
      end
  end.

Fixpoint export_namespaces (names : list (string * Z)) (now_ms : Z) : Tx (list NamespaceExport) :=
  match names with
  | [] => tx_ret []
  | (namespace, revision) :: names' =>
      let* keys := query (λ db, ordered (keys_of db namespace)) in
      let* entries := export_keys namespace keys now_ms in
      let* rest := export_namespaces names' now_ms in
      tx_ret (mk_export namespace revision entries :: rest)
  end.

Fixpoint checked_names (l : list (string * Z)) : Tx (list (string * Z)) :=
  match l with
  | [] => tx_ret []
  | (namespace, revision) :: l' =>
      let* revision := to_u64 revision in
      let* rest := checked_names l' in
      tx_ret ((namespace, revision) :: rest)
  end.

Definition export_all (now_ms : Z) : Tx (list NamespaceExport) :=
  let* rows := query (λ db, btree_iter (t_namespaces db)) in
  let* names := checked_names rows in
  export_namespaces names now_ms.

Definition export (d : DurableStore) (now_ms : Z) (io : Io) : outcome (result Error (list NamespaceExport) * Io) :=
  match export_all now_ms (connection d) io with
  | Panic => Panic
  | Ret (Ok exports, _, io) => Ret (Ok exports, io)
  | Ret (Err e, _, io) => Ret (Err (storage_error e), io)
  end.

Definition import_all (r : Registry) (exports : list NamespaceExport) : Registry :=
  foldl (λ r x, import_namespace r (ex_namespace x) (ex_revision x) (ex_entries x)) r exports.

(** [open_state_store]: on failure the registry stays and generic dispatch is disabled. *)
Definition open_state_store (r : Registry) (file : DatabaseFile) (now_ms : Z) (io : Io)
    : outcome (Registry * option DurableStore * Io) :=
  let! (opened, _, io) := open file now_ms io in
  match opened with
  | Err _ => Ret (r, None, io)
  | Ok d =>
      let! (exported, io) := export d now_ms io in
      match exported with
      | Err _ => Ret (r, None, io)
      | Ok exports => Ret (import_all r exports, Some d, io)
      end
  end.

End restore.
