(* ===== verification/StateRestoreInv.v ===== *)
(** * Restarts of the state store

    A database that agrees with a registry passes the checks of [open], and the registry
    filled from it holds the same entries, less those that expired in between. *)

From S2P Require Import Prelude StateSchema StateStore StateStoreInv StateDurable StateSync StateRestore.

Section sure.
Context `{S : StoreEnv} `{E : DatabaseEnv}.

(** [m] fails only where a statement fails, and otherwise ends in [Q]. *)
Definition tx_sure {A : Type} (m : Tx A) (db : Database) (Q : A → Database → Prop) : Prop :=
  ∀ io, match m db io with
        | Panic => False
        | Ret (Err _, _, _) => io ≠ []
        | Ret (Ok a, db', io') => Q a db' ∧ (io = [] → io' = [])
        end.

Lemma tx_sure_ret {A} (a : A) db (Q : A → Database → Prop) : Q a db → tx_sure (tx_ret a) db Q.
Proof. by intros H io. Qed.
Lemma tx_sure_bind {A B} (m : Tx A) (k : A → Tx B) db (Q : A → Database → Prop) R :
  tx_sure m db Q → (∀ a db', Q a db' → tx_sure (k a) db' R) → tx_sure (tx_bind m k) db R.
Proof.
  intros Hm Hk io. unfold tx_bind. specialize (Hm io). destruct (m db io) as [[[[a|e] db'] io']|]; [|done|done].
  destruct Hm as [HQ Hio]. specialize (Hk a db' HQ io'). destruct (k a db' io') as [[[[b|e] db2] io2]|]; [|naive_solver|done].
  naive_solver.
Qed.
Lemma tx_sure_mono {A} (m : Tx A) db (Q R : A → Database → Prop) :
  tx_sure m db Q → (∀ a db', Q a db' → R a db') → tx_sure m db R.
Proof. intros Hm HQ io. specialize (Hm io). destruct (m db io) as [[[[a|e] db'] io']|]; naive_solver. Qed.
Lemma tx_sure_query {A B} (f : Database → A) (k : A → Tx B) db R :
  tx_sure (k (f db)) db R → tx_sure (tx_bind (query f) k) db R.
Proof.
  intros H. eapply (tx_sure_bind _ _ _ (λ a db', a = f db ∧ db' = db)); [|by intros ? ? [-> ->]].
  intros io. unfold query, tx_bind, statement. destruct io as [|[m|] io]; cbn; done.
Qed.
Lemma tx_sure_query_end {A} (f : Database → A) db (R : A → Database → Prop) : R (f db) db → tx_sure (query f) db R.
Proof. intros H io. unfold query, tx_bind, statement. destruct io as [|[m|] io]; cbn; done. Qed.
Lemma tx_sure_execute {B} f (k : unit → Tx B) db R :
  tx_sure (k tt) (f db) R → tx_sure (tx_bind (execute f) k) db R.
Proof.
  intros H. eapply (tx_sure_bind _ _ _ (λ _ db', db' = f db)); [|by intros [] ? ->].
  intros io. unfold execute, statement. destruct io as [|[m|] io]; cbn; done.
Qed.
Lemma tx_sure_u64 {B} z (k : Z → Tx B) db R :
  0 ≤ z → tx_sure (k z) db R → tx_sure (tx_bind (to_u64 z) k) db R.
Proof.
  intros Hz H. eapply (tx_sure_bind _ _ _ (λ a db', a = z ∧ db' = db)); [|by intros ? ? [-> ->]].
  intros io. unfold to_u64. by rewrite (proj2 (Z.leb_le _ _) Hz).
Qed.
Lemma tx_sure_i64 {B} z (k : Z → Tx B) db R :
  z ≤ i64_max → tx_sure (k z) db R → tx_sure (tx_bind (to_i64 z) k) db R.
Proof.
  intros Hz H. eapply (tx_sure_bind _ _ _ (λ a db', a = z ∧ db' = db)); [|by intros ? ? [-> ->]].
  intros io. unfold to_i64. by rewrite (proj2 (Z.leb_le _ _) Hz).
Qed.
Lemma tx_sure_option_u64 {B} o (k : option Z → Tx B) db R :
  (∀ z, o = Some z → 0 ≤ z) → tx_sure (k o) db R → tx_sure (tx_bind (tx_option to_u64 o) k) db R.
Proof.
  intros Hz H. eapply (tx_sure_bind _ _ _ (λ a db', a = o ∧ db' = db)); [|by intros ? ? [-> ->]].
  destruct o as [z|]; cbn [tx_option]; [|by apply tx_sure_ret].
  apply tx_sure_u64; [by apply Hz|by apply tx_sure_ret].
Qed.
Lemma tx_sure_atomically {A} (body : Tx A) db (Q : A → Database → Prop) :
  tx_sure body db Q → tx_sure (atomically body) db Q.
Proof.
  intros H io. unfold atomically.
  assert (∀ db io, (∃ e io', io ≠ [] ∧ statement db io = Ret (Err e, db, io'))
    ∨ (∃ io', statement db io = Ret (Ok tt, db, io') ∧ (io = [] → io' = []))) as Hs.
  { intros db0 io0. destruct io0 as [|[m|] io0]; [right; by eexists|left; by do 2 eexists|right; by eexists]. }
  destruct (Hs db io) as [(e & io1 & Hn & ->)|(io1 & -> & Hio)]; [done|].
  specialize (H io1). destruct (body db io1) as [[[[a|e] db'] io2]|]; [|naive_solver|done].
  destruct (Hs db' io2) as [(e & io3 & Hn & ->)|(io3 & -> & Hio3)]; naive_solver.
Qed.

End sure.

Section restore.
Context `{S : StoreEnv} {SL : StoreLaws S} `{E : DatabaseEnv} {DL : DatabaseLaws S E}.

(** ** The rows of a registry *)

Lemma row_namespace r db name key row :
  same_db r db → t_entries db !! (name, key) = Some row →
  ∃ st rec, namespaces r !! name = Some st ∧ ns_entries st !! key = Some rec ∧ row = row_of rec.
Proof.
  intros Hs. rewrite (sd_rows _ _ Hs). intros (rec & Hf & ->)%fmap_Some.
  apply find_record_Some in Hf as (st & Hst & Hk). by exists st, rec.
Qed.

Definition flat_rows (m : gmap string NamespaceState) : list (string * string * Row) :=
  mjoin ((λ n : string * NamespaceState,
    (λ e : string * StoredRecord, (n.1, e.1, row_of e.2)) <$> map_to_list (ns_entries n.2)) <$> map_to_list m).

Lemma elem_flat_rows m name key row :
  (name, key, row) ∈ flat_rows m ↔
  ∃ st rec, m !! name = Some st ∧ ns_entries st !! key = Some rec ∧ row = row_of rec.
Proof.
  unfold flat_rows. rewrite list_elem_of_join. split.
  - intros (g & Hg & Hl). apply list_elem_of_fmap in Hl as ([n st] & -> & Hn).
    apply list_elem_of_fmap in Hg as ([k rec] & [= -> -> ->] & Hk). cbn in *.
    exists st, rec. split_and!; [by apply elem_of_map_to_list|by apply elem_of_map_to_list|done].
  - intros (st & rec & Hst & Hk & ->). eexists. split; [|apply list_elem_of_fmap; exists (name, st); split; [done|]].
    + apply list_elem_of_fmap. exists (key, rec). split; [done|by apply elem_of_map_to_list].
    + by apply elem_of_map_to_list.
Qed.

Lemma flat_rows_perm r db : same_db r db → map_to_list (t_entries db) ≡ₚ flat_rows (namespaces r).
Proof.
  intros Hs. apply NoDup_Permutation; [apply NoDup_map_to_list| |].
  - apply (NoDup_fmap_1 fst). unfold flat_rows.
    rewrite fmap_mjoin.
    rewrite (list_fmap_ext _ (λ n : string * NamespaceState,
      (λ k, (n.1, k)) <$> (fst <$> map_to_list (ns_entries n.2)))).
    2:{ intros _ [n st] _. rewrite <-list_fmap_compose. exact (pairs_fst n (map_to_list (ns_entries st))). }
    apply (NoDup_grouped fst); [apply NoDup_fst_map_to_list|]. intros [n st] _. apply NoDup_fst_map_to_list.
  - intros [[name key] row]. rewrite elem_of_map_to_list, elem_flat_rows. split.
    + by apply row_namespace.
    + intros (st & rec & Hst & Hk & ->). rewrite (sd_rows _ _ Hs). unfold find_record. rewrite Hst. cbn. by rewrite Hk.
Qed.

Lemma total_len_eq r db : registry_ok r → same_db r db → total_len db = stored_bytes r.
Proof.
  intros Hok Hs. unfold total_len. rewrite (zsum_perm _ _ _ (flat_rows_perm r db Hs)), (ro_bytes _ Hok).
  unfold flat_rows, total_bytes, map_flat. rewrite !zsum_mjoin. apply zsum_ext. intros [n st] _.
  unfold ns_records. rewrite !zsum_fmap. apply zsum_ext. intros [k rec] _. apply blob_len_encode.
Qed.

(** ** The checks of [open] *)

Lemma row_ok r db name key row :
  registry_ok r → same_db r db → t_entries db !! (name, key) = Some row →
  ∃ st rec, namespaces r !! name = Some st ∧ row = row_of rec ∧ namespace_ok name st
    ∧ record_ok (ns_revision st) key rec.
Proof.
  intros Hok Hs Hrow. destruct (row_namespace r db name key row Hs Hrow) as (st & rec & Hst & Hk & ->).
  pose proof (ro_namespaces _ Hok _ _ Hst) as Hns. exists st, rec. split_and!; [done|done|done|by apply (nso_records name)].
Qed.

Lemma validate_namespace_len name layout :
  validate_namespace name = Ok layout → str_len name ≤ MAX_NAMESPACE_CHARS.
Proof. unfold validate_namespace. split_match; [done|]. intros _. by reflect_bools. Qed.
Lemma validate_key_len key : validate_key key = Ok tt → str_len key ≤ MAX_KEY_CHARS.
Proof. unfold validate_key. split_match; [done|]. intros _. by reflect_bools. Qed.
Lemma validate_schema_len schema : validate_schema schema = Ok tt → str_len schema ≤ MAX_SCHEMA_CHARS.
Proof. unfold validate_schema. split_match; [done|]. intros _. by reflect_bools. Qed.

Lemma bad_entry_ok r db name key row :
  registry_ok r → same_db r db → t_entries db !! (name, key) = Some row → bad_entry db ((name, key), row) = false.
Proof.
  intros Hok Hs Hrow. destruct (row_ok r db name key row Hok Hs Hrow) as (st & rec & Hst & -> & Hns & Hrec).
  unfold bad_entry. rewrite (sd_names _ _ Hs), lookup_fmap, Hst.
  cbn [fmap option_fmap option_map row_value row_schema row_owner_id row_revision row_updated_ms row_expires_ms row_of].
  rewrite blob_len_encode. destruct (nso_name _ _ Hns) as (layout & Hn & _).
  pose proof (validate_namespace_len _ _ Hn). destruct Hrec as [Hk Hsc _ Hsz Hrev Hu He Hown].
  pose proof (validate_key_len _ Hk). pose proof (validate_schema_len _ Hsc). unfold MAX_RESTORED_OWNER_BYTES.
  rewrite !orb_false_iff, !Z.ltb_ge. split_and!; try lia. destruct (sr_expires_ms rec) as [t|]; [|done].
  cbn. apply Z.ltb_ge. by apply He.
Qed.

Lemma restored_bounds_ok r db : registry_ok r → same_db r db → validate_restored_bounds db = Ok tt.
Proof.
  intros Hok Hs. unfold validate_restored_bounds. rewrite rbind_Ok. exists tt. split.
  { apply ensure_Ok, Z.leb_le. rewrite (sd_names _ _ Hs), map_size_fmap. apply Hok. }
  rewrite rbind_Ok. exists tt. split.
  { apply ensure_Ok, forallb_forall. intros [[name key] row] Hin%list_elem_of_In%elem_of_map_to_list. cbn [fst snd].
    destruct (row_ok r db name key row Hok Hs Hin) as (st & rec & Hst & _ & Hns & _).
    rewrite (keys_of_dom r db name st Hs Hst), size_dom. apply Z.leb_le. by apply nso_size in Hns. }
  rewrite rbind_Ok. exists tt. split.
  { apply ensure_Ok, Z.leb_le. rewrite (total_len_eq r db Hok Hs). apply Hok. }
  apply ensure_Ok, andb_true_iff. rewrite !negb_true_iff. split.
  - apply not_true_iff_false. intros ([name rev] & Hin & Hbad)%existsb_exists.
    apply list_elem_of_In, elem_of_map_to_list in Hin. rewrite (sd_names _ _ Hs), lookup_fmap in Hin.
    apply fmap_Some in Hin as (st & Hst & ->). pose proof (ro_namespaces _ Hok _ _ Hst) as [(layout & Hn & _) Hr _ _ _].
    pose proof (validate_namespace_len _ _ Hn). unfold bad_namespace in Hbad. cbn [fst snd] in Hbad.
    apply orb_true_iff in Hbad as [Hb|Hb]; reflect_bools; lia.
  - apply not_true_iff_false. intros ([[name key] row] & Hin & Hbad)%existsb_exists.
    apply list_elem_of_In, elem_of_map_to_list in Hin. by rewrite (bad_entry_ok r db name key row Hok Hs Hin) in Hbad.
Qed.

Lemma restored_names_ok r l :
  registry_ok r → (∀ name rev, (name, rev) ∈ l → is_Some (namespaces r !! name)) →
  validate_restored_names l = Ok tt.
Proof.
  intros Hok. induction l as [|[name rev] l IH]; intros Hl; [done|]. cbn [validate_restored_names].
  destruct (Hl name rev) as [st Hst]; [by left|].
  destruct (nso_name _ _ (ro_namespaces _ Hok _ _ Hst)) as (layout & -> & _). apply IH.
  intros n v Hin. apply (Hl n v). by right.
Qed.

Lemma restored_entries_ok r db l :
  registry_ok r → same_db r db →
  (∀ name key row, (name, key, row) ∈ l → t_entries db !! (name, key) = Some row) →
  validate_restored_entries l = Ok tt.
Proof.
  intros Hok Hs. induction l as [|[[name key] row] l IH]; intros Hl; [done|]. cbn [validate_restored_entries].
  destruct (row_ok r db name key row Hok Hs) as (st & rec & _ & -> & _ & Hrec); [apply Hl; by left|].
  rewrite (rec_key _ _ _ Hrec). cbn [row_of row_value row_schema]. rewrite decode_encode, (rec_value _ _ _ Hrec).
  apply IH. intros n k w Hin. apply (Hl n k w). by right.
Qed.

Lemma validate_restored_sure r db :
  registry_ok r → same_db r db → tx_sure validate_restored_store db (λ _ db', db' = db).
Proof.
  intros Hok Hs. unfold validate_restored_store. apply tx_sure_query. rewrite (restored_bounds_ok r db Hok Hs).
  cbn [checked]. eapply tx_sure_bind; [by apply (tx_sure_ret tt db (λ _ db', db' = db))|]. intros _ ? ->.
  apply tx_sure_query. rewrite (restored_names_ok r); [|done|].
  2:{ intros name rev Hin%elem_of_map_to_list. rewrite (sd_names _ _ Hs), lookup_fmap in Hin.
      by apply fmap_Some in Hin as (st & Hst & _); exists st. }
  cbn [checked]. eapply tx_sure_bind; [by apply (tx_sure_ret tt db (λ _ db', db' = db))|]. intros _ ? ->.
  apply tx_sure_query. rewrite (restored_entries_ok r db); [by apply tx_sure_ret|done|done|].
  intros name key row Hin. by apply elem_of_map_to_list.
Qed.

(** ** Purging what expired *)

Lemma expire_key_find r name key now r' n k :
  expire_key_if_due r name key now = Ret r' →
  find_record r' n k =
    match find_record r n k with
    | Some rec => if bool_decide ((n, k) = (name, key)) && is_expired rec now then None else Some rec
    | None => None
    end.
Proof.
  intros H. destruct (decide ((n, k) = (name, key))) as [[= -> ->]|Hne].
  2:{ rewrite (expire_key_due_other _ _ _ _ _ n k H Hne), bool_decide_false by done.
      by destruct (find_record r n k). }
  rewrite bool_decide_true by done. destruct (namespaces r !! name) as [st|] eqn:Hst.
  - destruct (expire_key_ns _ _ _ _ _ _ Hst H) as (st' & Hn & _ & Hk). unfold find_record.
    rewrite Hn, lookup_insert_eq, Hst. cbn [mbind option_bind]. rewrite Hk, bool_decide_true by done. done.
  - unfold expire_key_if_due in H. rewrite Hst in H. injection H as <-. unfold find_record. by rewrite Hst.
Qed.

Lemma expire_all_find l r now r' n k :
  expire_all r l now = Ret r' →
  find_record r' n k =
    match find_record r n k with
    | Some rec => if bool_decide ((n, k) ∈ l) && is_expired rec now then None else Some rec
    | None => None
    end.
Proof.
  revert r. induction l as [|[name key] l IH]; intros r; cbn [expire_all].
  { intros [= <-]. by destruct (find_record r n k). }
  destruct (expire_key_if_due r name key now) as [r1|] eqn:H1; [|done]. cbn [obind]. intros H.
  rewrite (IH r1 H), (expire_key_find _ _ _ _ _ n k H1).
  destruct (find_record r n k) as [rec|]; [|done].
  destruct (is_expired rec now) eqn:Hx; rewrite ?andb_false_r, ?andb_true_r, ?Hx, ?andb_false_r; [|done].
  repeat case_bool_decide; rewrite ?Hx; cbn; set_solver.
Qed.

(** Namespaces stay, and each trades entries for revisions. *)
Lemma expire_all_sizes l r now r' n :
  expire_all r l now = Ret r' →
  match namespaces r !! n, namespaces r' !! n with
  | Some st, Some st' =>
      ns_revision st' + Z.of_nat (size (ns_entries st')) = ns_revision st + Z.of_nat (size (ns_entries st))
      ∧ ns_revision st ≤ ns_revision st'
  | None, None => True
  | _, _ => False
  end.
Proof.
  revert r. induction l as [|[name key] l IH]; intros r; cbn [expire_all].
  { intros [= <-]. by destruct (namespaces r !! n). }
  destruct (expire_key_if_due r name key now) as [r1|] eqn:H1; [|done]. cbn [obind]. intros H.
  specialize (IH r1 H). destruct (namespaces r !! name) as [st|] eqn:Hst.
  - destruct (expire_key_ns _ _ _ _ _ _ Hst H1) as (st1 & Hn & Hs & Hk). rewrite Hn in IH.
    assert (size (ns_entries st1) ≤ size (ns_entries st))%nat as Hle.
    { rewrite <-!size_dom. apply subseteq_size. intros k. rewrite !elem_of_dom, Hk.
      destruct (ns_entries st !! k); [eauto|]. by intros [? ?]. }
    destruct (decide (n = name)) as [->|Hne].
    + rewrite Hst. rewrite lookup_insert_eq in IH. destruct (namespaces r' !! name); [|done]. lia.
    + rewrite lookup_insert_ne in IH by done. done.
  - unfold expire_key_if_due in H1. rewrite Hst in H1. by injection H1 as <-.
Qed.

(** Revisions far enough from the end of the persisted range. *)
Definition restart_room (r : Registry) : Prop :=
  ∀ name st, namespaces r !! name = Some st → ns_revision st + Z.of_nat (size (ns_entries st)) ≤ i64_max.

Lemma due_rows_size r db name st r1 st1 now :
  same_db r db → namespaces r !! name = Some st →
  expire_all r (merge_sort pair_le (all_due r now)) now = Ret r1 → namespaces r1 !! name = Some st1 →
  size (ns_entries st) = (size (due_rows db name now) + size (ns_entries st1))%nat.
Proof.
  intros Hs Hst He Hst1. rewrite <-!size_dom. rewrite <-size_union.
  - f_equal. apply set_eq. intros k. rewrite elem_of_union, (due_rows_spec r), !elem_of_dom by done.
    pose proof (expire_all_find _ _ _ _ name k He) as Hf. unfold find_record in Hf. rewrite Hst, Hst1 in Hf.
    cbn [mbind option_bind] in Hf. rewrite Hf. unfold due, find_record. rewrite Hst. cbn [mbind option_bind].
    destruct (ns_entries st !! k) as [rec|] eqn:Hk; [|split; [by intros [? ?]|intros [(? & ? & _)|[? ?]]; done]].
    destruct (is_expired rec now) eqn:Hx; rewrite ?andb_false_r; naive_solver.
  - intros k. rewrite (due_rows_spec r), elem_of_dom by done. intros (rec & Hf & Hx) [rec1 Hk1].
    pose proof (expire_all_find _ _ _ _ name k He) as Hf1. rewrite Hf, Hx in Hf1.
    rewrite bool_decide_true in Hf1; [|rewrite merge_sort_Permutation; apply all_due_spec; by exists rec].
    unfold find_record in Hf1. rewrite Hst1 in Hf1. cbn in Hf1. congruence.
Qed.

Definition bumped (db : Database) (g : string * Z) : string * Z :=
  (g.1, unwrap_or (t_namespaces db !! g.1) 0 + g.2).

Lemma purge_bumps_sure groups db :
  (∀ n c, (n, c) ∈ groups → ∃ rev, t_namespaces db !! n = Some rev ∧ 0 ≤ rev ∧ rev + c ≤ i64_max) →
  tx_sure (purge_bumps groups) db (λ bumps db', bumps = bumped db <$> groups ∧ db' = db).
Proof.
  induction groups as [|[n c] groups IH]; intros Hg; cbn [purge_bumps]; [by apply tx_sure_ret|].
  apply tx_sure_query. destruct (Hg n c) as (rev & Hn & Hr & Hm); [by left|]. rewrite Hn.
  rewrite (proj2 (Z.ltb_ge _ _)) by lia.
  rewrite (proj2 (Z.ltb_ge _ _)) by (unfold i64_max, u64_max in *; lia).
  rewrite (proj2 (Z.ltb_ge _ _)) by lia.
  eapply tx_sure_bind; [apply IH; intros n' c' Hin; apply Hg; by right|]. intros ? ? [-> ->].
  apply tx_sure_ret. rewrite fmap_cons. unfold bumped at 2. cbn [fst snd]. by rewrite Hn.
Qed.

Lemma set_revisions_sure bumps db :
  NoDup (fst <$> bumps) → (∀ n v, (n, v) ∈ bumps → is_Some (t_namespaces db !! n)) →
  tx_sure (set_revisions bumps) db (λ _ db',
    t_entries db' = t_entries db
    ∧ (∀ n v, (n, v) ∈ bumps → t_namespaces db' !! n = Some v)
    ∧ (∀ n, n ∉ fst <$> bumps → t_namespaces db' !! n = t_namespaces db !! n)).
Proof.
  revert db. induction bumps as [|[n v] bumps IH]; intros db Hnd Hb; cbn [set_revisions].
  { apply tx_sure_ret. split_and!; [done|by intros n v ?%not_elem_of_nil|done]. }
  rewrite fmap_cons in Hnd. apply NoDup_cons in Hnd as [Hn Hnd]. cbn [fst] in Hn.
  apply tx_sure_execute. destruct (Hb n v) as [rev Hrev]; [by left|]. unfold set_revision. rewrite Hrev.
  eapply tx_sure_mono.
  { apply IH; [done|]. cbn [t_namespaces]. intros n' v' Hin. destruct (decide (n' = n)) as [->|Hne].
    - rewrite lookup_insert_eq. eauto.
    - rewrite lookup_insert_ne by done. apply (Hb n' v'). by right. }
  intros [] db' (He & Hset & Hkeep). cbn [t_entries t_namespaces] in *. split_and!; [done| |].
  - intros n' v' [[= -> ->]|Hin]%elem_of_cons; [by rewrite Hkeep, lookup_insert_eq|by apply Hset].
  - intros n'. rewrite fmap_cons, not_elem_of_cons. cbn [fst]. intros [Hne Hnot].
    by rewrite Hkeep, lookup_insert_ne.
Qed.

Lemma due_groups_spec r db now :
  same_db r db →
  NoDup (fst <$> due_groups db now)
  ∧ (∀ n c, (n, c) ∈ due_groups db now → c = Z.of_nat (size (due_rows db n now)) ∧ is_Some (namespaces r !! n))
  ∧ (∀ n, n ∉ fst <$> due_groups db now → size (due_rows db n now) = 0%nat).
Proof.
  intros Hs. unfold due_groups.
  set (names := set_map fst (dom (base.filter (λ e : string * string * Row, row_due e.2 now = true) (t_entries db))) : gset string).
  assert (fst <$> ((λ namespace, (namespace, Z.of_nat (size (due_rows db namespace now)))) <$> query_order names)
    = query_order names) as Hfst.
  { rewrite <-list_fmap_compose. apply list_fmap_id. }
  assert (∀ n, n ∈ names ↔ ∃ k, due r n k now) as Hnames.
  { intros n. unfold names. rewrite elem_of_map. split.
    - intros ([n' k] & -> & Hd). apply elem_of_dom in Hd as [row [Hrow Hdue]%map_lookup_filter_Some].
      exists k. cbn [fst snd] in *. rewrite (sd_rows _ _ Hs) in Hrow. apply fmap_Some in Hrow as (rec & Hf & ->).
      by exists rec.
    - intros (k & rec & Hf & Hx). exists (n, k). split; [done|]. apply elem_of_dom. exists (row_of rec).
      apply map_lookup_filter_Some. split; [|done]. by rewrite (sd_rows _ _ Hs), Hf. }
  rewrite Hfst. split_and!.
  - rewrite query_order_perm. apply NoDup_elements.
  - intros n c (n' & [= -> ->] & Hn)%list_elem_of_fmap. rewrite query_order_perm, elem_of_elements, Hnames in Hn.
    split; [done|]. destruct Hn as (k & rec & (st & Hst & _)%find_record_Some & _). eauto.
  - intros n. rewrite query_order_perm, elem_of_elements, Hnames. intros Hn. apply size_empty_iff.
    intros k. rewrite (due_rows_spec r) by done. split; [|by intros ?%not_elem_of_empty].
    intros Hd. exfalso. apply Hn. by exists k.
Qed.

Lemma same_db_purged r r1 db db' now :
  same_db r db → restart_room r → expire_all r (merge_sort pair_le (all_due r now)) now = Ret r1 →
  t_entries db' = t_entries (delete_due now db) →
  (∀ n, t_namespaces db' !! n = ns_revision <$> namespaces r1 !! n) → same_db r1 db'.
Proof.
  intros Hs Hroom He Hent Hnames. split.
  - apply map_eq. intros n. by rewrite Hnames, lookup_fmap.
  - intros n k. rewrite Hent, (expire_all_find _ _ _ _ n k He). cbn [t_entries delete_due].
    assert (∀ rec, find_record r n k = Some rec → is_expired rec now = true →
      bool_decide ((n, k) ∈ merge_sort pair_le (all_due r now)) = true) as Hin.
    { intros rec Hf Hx. apply bool_decide_eq_true. rewrite merge_sort_Permutation. apply all_due_spec. by exists rec. }
    destruct (find_record r n k) as [rec|] eqn:Hf.
    + destruct (is_expired rec now) eqn:Hx.
      * rewrite (Hin rec eq_refl Hx). apply map_lookup_filter_None. right. intros row.
        rewrite (sd_rows _ _ Hs), Hf. intros [= <-]. cbn [snd]. by rewrite row_due_of, Hx.
      * rewrite andb_false_r. apply map_lookup_filter_Some. rewrite (sd_rows _ _ Hs), Hf. by rewrite <-(row_due_of rec) in Hx.
    + apply map_lookup_filter_None. left. by rewrite (sd_rows _ _ Hs), Hf.
  - intros n st1 Hst1. pose proof (expire_all_sizes _ _ _ _ n He) as Hsz. rewrite Hst1 in Hsz.
    destruct (namespaces r !! n) as [st|] eqn:Hst; [|done]. specialize (Hroom n st Hst). lia.
Qed.

Lemma purge_sure r db now :
  registry_ok r → same_db r db → restart_room r → now ≤ i64_max →
  tx_sure (purge_expired now) db (λ _ db', ∃ r1,
    expire_all r (merge_sort pair_le (all_due r now)) now = Ret r1 ∧ registry_ok r1 ∧ same_db r1 db').
Proof.
  intros Hok Hs Hroom Hnow. unfold purge_expired. apply tx_sure_i64; [done|]. apply tx_sure_atomically, tx_sure_query.
  destruct (due_groups_spec r db now Hs) as (Hnd & Hgroup & Hrest).
  destruct (expire_all_total (merge_sort pair_le (all_due r now)) r now) as (r1 & He & _); [by eapply same_db_room|].
  assert (∀ n st, namespaces r !! n = Some st → ∃ st1, namespaces r1 !! n = Some st1
    ∧ ns_revision st1 = ns_revision st + Z.of_nat (size (due_rows db n now))) as Hrev.
  { intros n st Hst. pose proof (expire_all_sizes _ _ _ _ n He) as Hsz. rewrite Hst in Hsz.
    destruct (namespaces r1 !! n) as [st1|] eqn:Hst1; [|done]. exists st1. split; [done|].
    pose proof (due_rows_size r db n st r1 st1 now Hs Hst He Hst1). lia. }
  eapply tx_sure_bind.
  { apply purge_bumps_sure. intros n c Hin. destruct (Hgroup n c Hin) as [-> [st Hst]]. exists (ns_revision st).
    rewrite (sd_names _ _ Hs), lookup_fmap, Hst. split_and!; [done|apply (ro_namespaces _ Hok _ _ Hst)|].
    destruct (Hrev n st Hst) as (st1 & Hst1 & <-). pose proof (expire_all_sizes _ _ _ _ n He) as Hsz.
    rewrite Hst, Hst1 in Hsz. specialize (Hroom n st Hst). lia. }
  intros ? ? [-> ->]. apply tx_sure_execute.
  assert (fst <$> (bumped db <$> due_groups db now) = fst <$> due_groups db now) as Hfst
    by (by rewrite <-list_fmap_compose).
  eapply tx_sure_mono.
  { apply set_revisions_sure; [by rewrite Hfst|]. cbn [t_namespaces delete_due].
    intros n v ([n' c] & [= -> ->] & Hin)%list_elem_of_fmap. destruct (Hgroup n' c Hin) as [_ [st Hst]].
    rewrite (sd_names _ _ Hs), lookup_fmap, Hst. eauto. }
  intros [] db' (Hent & Hset & Hkeep). rewrite Hfst in Hkeep. exists r1.
  split_and!; [done|by eapply expire_all_ok|]. apply (same_db_purged r r1 db db' now); [done|done|done|done|].
  intros n. destruct (namespaces r !! n) as [st|] eqn:Hst.
  - destruct (Hrev n st Hst) as (st1 & -> & Hr1). cbn [fmap option_fmap option_map]. rewrite Hr1.
    destruct (decide (n ∈ fst <$> due_groups db now)) as [Hin|Hnot].
    + apply list_elem_of_fmap in Hin as ([n' c] & -> & Hin). cbn [fst] in *.
      destruct (Hgroup n' c Hin) as [-> _]. apply Hset. apply list_elem_of_fmap. eexists. split; [|exact Hin].
      unfold bumped. cbn [fst snd]. by rewrite (sd_names _ _ Hs), lookup_fmap, Hst.
    + rewrite (Hkeep n Hnot), (Hrest n Hnot). cbn [t_namespaces delete_due].
      rewrite (sd_names _ _ Hs), lookup_fmap, Hst. cbn. f_equal. lia.
  - pose proof (expire_all_sizes _ _ _ _ n He) as Hsz. rewrite Hst in Hsz.
    destruct (namespaces r1 !! n); [done|]. cbn [fmap option_fmap option_map].
    rewrite Hkeep; [cbn [t_namespaces delete_due]; by rewrite (sd_names _ _ Hs), lookup_fmap, Hst|].
    intros ([n' c] & -> & Hin)%list_elem_of_fmap. destruct (Hgroup n' c Hin) as [_ [st Hst']]. cbn in Hst. congruence.
Qed.

(** ** Export and import *)

Lemma read_entry_sure r db name key :
  registry_ok r → same_db r db →
  tx_sure (read_entry name key) db (λ o db', o = entry_of name key <$> find_record r name key ∧ db' = db).
Proof.
  intros Hok Hs. unfold read_entry. apply tx_sure_query.
  destruct (t_entries db !! (name, key)) as [row|] eqn:Hrow.
  - destruct (row_namespace r db name key row Hs Hrow) as (st & rec & Hst & Hk & ->).
    destruct (nso_records _ _ (ro_namespaces _ Hok _ _ Hst) _ _ Hk) as [_ _ _ _ Hrev Hu He _].
    cbn [row_of row_value row_revision row_updated_ms row_expires_ms row_schema row_owner_id]. rewrite decode_encode.
    apply tx_sure_u64; [lia|]. apply tx_sure_u64; [done|]. apply tx_sure_option_u64; [done|]. apply tx_sure_ret.
    split; [|done]. unfold find_record. rewrite Hst. cbn [mbind option_bind]. by rewrite Hk.
  - apply tx_sure_ret. rewrite (sd_rows _ _ Hs) in Hrow. apply fmap_None in Hrow. by rewrite Hrow.
Qed.

(** Nothing is due. *)
Definition fresh_at (r : Registry) (now : Z) : Prop :=
  ∀ name key rec, find_record r name key = Some rec → is_expired rec now = false.

Definition entries_for (r : Registry) (name : string) (keys : list string) : list StoredEntry :=
  omap (λ key, entry_of name key <$> find_record r name key) keys.

Lemma export_keys_sure r db name keys now :
  registry_ok r → same_db r db → fresh_at r now →
  tx_sure (export_keys name keys now) db (λ l db', l = entries_for r name keys ∧ db' = db).
Proof.
  intros Hok Hs Hfresh. induction keys as [|key keys IH]; cbn [export_keys]; [by apply tx_sure_ret|].
  eapply tx_sure_bind; [by apply (read_entry_sure r)|]. intros ? ? [-> ->]. unfold entries_for. cbn [omap list_omap].
  destruct (find_record r name key) as [rec|] eqn:Hf; cbn [fmap option_fmap option_map]; [|exact IH].
  change (is_some_and _ (se_expires_ms (entry_of name key rec))) with (is_expired rec now).
  rewrite (Hfresh name key rec Hf). eapply tx_sure_bind; [exact IH|]. intros ? ? [-> ->]. by apply tx_sure_ret.
Qed.

Definition export_of (r : Registry) (db : Database) (n : string * Z) : NamespaceExport :=
  mk_export n.1 n.2 (entries_for r n.1 (ordered (keys_of db n.1))).

Lemma export_sure r db now :
  registry_ok r → same_db r db → fresh_at r now →
  tx_sure (export_all now) db (λ l db', l = export_of r db <$> btree_iter (t_namespaces db) ∧ db' = db).
Proof.
  intros Hok Hs Hfresh. unfold export_all. apply tx_sure_query.
  eapply (tx_sure_bind _ _ _ (λ l db', l = btree_iter (t_namespaces db) ∧ db' = db)).
  - assert (∀ n v, (n, v) ∈ btree_iter (t_namespaces db) → 0 ≤ v) as Hpos.
    { intros n v Hin%btree_iter_elem. rewrite (sd_names _ _ Hs), lookup_fmap in Hin.
      apply fmap_Some in Hin as (st & Hst & ->). apply (ro_namespaces _ Hok _ _ Hst). }
    induction (btree_iter (t_namespaces db)) as [|[n v] l IH]; cbn [checked_names]; [by apply tx_sure_ret|].
    apply tx_sure_u64; [apply (Hpos n); by left|]. eapply tx_sure_bind; [apply IH; intros n' v' Hin; apply (Hpos n'); by right|].
    intros ? ? [-> ->]. by apply tx_sure_ret.
  - intros ? ? [-> ->]. induction (btree_iter (t_namespaces db)) as [|[n v] l IH]; cbn [export_namespaces];
      [by apply tx_sure_ret|].
    apply tx_sure_query. eapply tx_sure_bind; [by apply (export_keys_sure r)|]. intros ? ? [-> ->].
    eapply tx_sure_bind; [exact IH|]. intros ? ? [-> ->]. by apply tx_sure_ret.
Qed.

(** What importing entries into a namespace does. *)
Definition put_entries (m : gmap string StoredRecord) (l : list StoredEntry) : gmap string StoredRecord :=
  foldl (λ m e, <[se_key e := record_of e]> m) m l.
Definition lens (l : list StoredEntry) : Z := zsum (λ e, encoded_len (se_value e)) l.

Lemma import_namespace_eq r name rev entries :
  namespaces r !! name = None → 0 ≤ rev → stored_bytes r ≤ u64_max →
  namespaces (import_namespace r name rev entries)
  = <[name := mk_namespace rev (put_entries ∅ entries)]> (namespaces r)
  ∧ stored_bytes (import_namespace r name rev entries) = Z.min u64_max (stored_bytes r + lens entries)
  ∧ pending (import_namespace r name rev entries) = pending r
  ∧ pending_overflowed (import_namespace r name rev entries) = pending_overflowed r.
Proof.
  intros Hn Hrev Hsmall. unfold import_namespace. rewrite Hn. cbn [unwrap_or namespace_default ns_revision ns_entries].
  rewrite Z.max_r by lia.
  assert (∀ l r0 m, namespaces r0 = <[name := mk_namespace rev m]> (namespaces r) → stored_bytes r0 ≤ u64_max →
    let r' := foldl (λ r e, import_entry r name e) r0 l in
    namespaces r' = <[name := mk_namespace rev (put_entries m l)]> (namespaces r)
    ∧ stored_bytes r' = Z.min u64_max (stored_bytes r0 + lens l)
    ∧ pending r' = pending r0 ∧ pending_overflowed r' = pending_overflowed r0) as Hgen.
  { induction l as [|e l IH]; intros r0 m Hr0 Hb; cbn [foldl]; cbv zeta.
    { unfold lens. rewrite zsum_nil. split_and!; [done|lia|done|done]. }
    pose proof (encoded_len_range (se_value e)) as Hlen. pose proof (zsum_nonneg (λ e, encoded_len (se_value e)) l
      (λ e, proj1 (encoded_len_range (se_value e)))) as Hl.
    destruct (IH (import_entry r0 name e) (<[se_key e := record_of e]> m)) as (H1 & H2 & H3 & H4).
    - unfold import_entry. cbn [namespaces]. rewrite Hr0, lookup_insert_eq. cbn [unwrap_or ns_revision ns_entries].
      by rewrite insert_insert_eq.
    - cbn [import_entry stored_bytes]. unfold saturating_add. lia.
    - split_and!; [done| |done|done]. rewrite H2. unfold lens in *. rewrite zsum_cons.
      cbn [import_entry stored_bytes]. unfold saturating_add, value_bytes. lia. }
  by destruct (Hgen entries (mk_registry (<[name := mk_namespace rev ∅]> (namespaces r)) (pending r)
    (pending_overflowed r) (stored_bytes r)) ∅ eq_refl Hsmall) as (H1 & H2 & H3 & H4).
Qed.

Lemma put_entries_lookup r name l m k :
  put_entries m (entries_for r name l) !! k =
    if bool_decide (k ∈ l) then option_or (find_record r name k) (m !! k) else m !! k.
Proof.
  revert m. induction l as [|key l IH]; intros m; unfold entries_for; cbn [omap list_omap].
  { by rewrite bool_decide_false by apply not_elem_of_nil. }
  destruct (find_record r name key) as [rec|] eqn:Hf; cbn [fmap option_fmap option_map].
  - unfold put_entries. cbn [foldl]. change (foldl _ ?x (omap _ l)) with (put_entries x (entries_for r name l)).
    rewrite IH. destruct (decide (k = key)) as [->|Hne].
    + cbn [se_key entry_of record_of]. rewrite lookup_insert_eq, Hf. cbn [option_or].
      rewrite (bool_decide_true (key ∈ key :: l)) by (by left). case_bool_decide; cbn; by destruct rec.
    + cbn [se_key entry_of]. rewrite lookup_insert_ne by done.
      assert (k ∈ key :: l ↔ k ∈ l) as Hiff by set_solver. by rewrite (bool_decide_ext _ _ Hiff).
  - rewrite IH. destruct (decide (k = key)) as [->|Hne].
    + rewrite (bool_decide_true (key ∈ key :: l)) by (by left). rewrite Hf. cbn [option_or]. by case_bool_decide.
    + assert (k ∈ key :: l ↔ k ∈ l) as Hiff by set_solver. by rewrite (bool_decide_ext _ _ Hiff).
Qed.

(** The entries exported for a namespace are the ones it holds. *)
Lemma exported_entries r db name st :
  same_db r db → namespaces r !! name = Some st →
  put_entries ∅ (entries_for r name (ordered (keys_of db name))) = ns_entries st
  ∧ lens (entries_for r name (ordered (keys_of db name))) = zsum record_bytes (ns_records st).
Proof.
  intros Hs Hst. rewrite (keys_of_dom r db name st Hs Hst). split.
  - apply map_eq. intros k. rewrite put_entries_lookup. unfold find_record. rewrite Hst. cbn [mbind option_bind].
    assert (k ∈ ordered (dom (ns_entries st)) ↔ is_Some (ns_entries st !! k)) as Hin.
    { unfold ordered, sort_strings. by rewrite merge_sort_Permutation, elem_of_elements, elem_of_dom. }
    rewrite (bool_decide_ext _ _ Hin), lookup_empty. case_bool_decide as Hk; [by destruct (ns_entries st !! k)|].
    destruct (ns_entries st !! k) eqn:He; [|done]. exfalso. apply Hk. eauto.
  - assert (ordered (dom (ns_entries st)) ≡ₚ fst <$> map_to_list (ns_entries st)) as Hp.
    { unfold ordered, sort_strings. rewrite merge_sort_Permutation. apply NoDup_Permutation.
      - apply NoDup_elements.
      - apply NoDup_fst_map_to_list.
      - intros k. rewrite elem_of_elements, elem_of_dom, list_elem_of_fmap. split.
        + intros [rec Hk]. exists (k, rec). split; [done|by apply elem_of_map_to_list].
        + intros ([k' rec] & -> & Hin%elem_of_map_to_list). eauto. }
    unfold lens, entries_for. rewrite (zsum_perm _ _ _ (omap_Permutation _ _ _ Hp)).
    unfold ns_records. rewrite zsum_fmap.
    assert (∀ e, e ∈ map_to_list (ns_entries st) → find_record r name e.1 = Some e.2) as Hl.
    { intros [k rec] Hin%elem_of_map_to_list. unfold find_record. by rewrite Hst. }
    revert Hl. clear Hp. induction (map_to_list (ns_entries st)) as [|[k rec] l IH]; intros Hl; [done|].
    assert (find_record r name k = Some rec) as Hk by (apply (Hl (k, rec)); by left).
    rewrite fmap_cons. cbn [omap list_omap fst]. rewrite Hk.
    cbn [fmap option_fmap option_map]. rewrite !zsum_cons, IH; [done|]. intros e He. apply Hl. by right.
Qed.

Lemma import_all_eq r db l r0 :
  registry_ok r → same_db r db → NoDup (fst <$> l) →
  (∀ n v, (n, v) ∈ l → ∃ st, namespaces r !! n = Some st ∧ v = ns_revision st) →
  (∀ n, n ∈ fst <$> l → namespaces r0 !! n = None) →
  stored_bytes r0 = Z.min u64_max (total_bytes (namespaces r0)) →
  let r' := import_all r0 (export_of r db <$> l) in
  (∀ n, namespaces r' !! n = if bool_decide (n ∈ fst <$> l) then namespaces r !! n else namespaces r0 !! n)
  ∧ stored_bytes r' = Z.min u64_max (total_bytes (namespaces r')) ∧ pending r' = pending r0
  ∧ pending_overflowed r' = pending_overflowed r0.
Proof.
  intros Hok Hs. revert r0. induction l as [|[n v] l IH]; intros r0 Hnd Hl Hfree Hb; cbv zeta.
  { cbn [fmap list_fmap import_all foldl]. split_and!; [|done|done|done].
    intros n. by rewrite bool_decide_false by apply not_elem_of_nil. }
  rewrite fmap_cons in *. cbn [fst] in *. apply NoDup_cons in Hnd as [Hn Hnd].
  destruct (Hl n v) as (st & Hst & ->); [by left|].
  destruct (exported_entries r db n st Hs Hst) as [He Hlen].
  destruct (import_namespace_eq r0 n (ns_revision st) (entries_for r n (ordered (keys_of db n)))) as (H1 & H2 & H3 & H4);
    [apply Hfree; by left|apply (ro_namespaces _ Hok _ _ Hst)|lia|].
  rewrite fmap_cons. unfold import_all. cbn [export_of fst snd foldl ex_namespace ex_revision ex_entries].
  change (foldl _ ?x (export_of r db <$> l)) with (import_all x (export_of r db <$> l)).
  set (r1 := import_namespace r0 n (ns_revision st) _) in *.
  assert (mk_namespace (ns_revision st) (ns_entries st) = st) as Heta by (by destruct st). rewrite He, Heta in H1.
  destruct (IH r1 Hnd) as (H5 & H6 & H7 & H8).
  - intros n' v' Hin. apply Hl. by right.
  - intros n' Hin. rewrite H1. rewrite lookup_insert_ne by (intros ->; done). apply Hfree. by right.
  - rewrite H2, Hlen, H1, total_bytes_fresh by (apply Hfree; by left).
    pose proof (zsum_nonneg record_bytes (ns_records st) record_bytes_nonneg). lia.
  - split_and!; [|done|congruence|congruence]. intros n'. rewrite H5, H1.
    destruct (decide (n' = n)) as [->|Hne].
    + rewrite lookup_insert_eq, Hst, (bool_decide_true (n ∈ n :: _)) by (by left). by case_bool_decide.
    + rewrite lookup_insert_ne by done. assert (n' ∈ n :: (fst <$> l) ↔ n' ∈ fst <$> l) as Hiff by set_solver.
      by rewrite (bool_decide_ext _ _ Hiff).
Qed.

(** ** Opening *)

Lemma import_restores r db :
  registry_ok r → same_db r db →
  let r' := import_all registry_default (export_of r db <$> btree_iter (t_namespaces db)) in
  namespaces r' = namespaces r ∧ stored_bytes r' = stored_bytes r ∧ pending r' = [] ∧ pending_overflowed r' = false.
Proof.
  intros Hok Hs. cbv zeta.
  destruct (import_all_eq r db (btree_iter (t_namespaces db)) registry_default) as (H1 & H2 & H3 & H4); try done.
  - apply btree_iter_NoDup.
  - intros n v Hin%btree_iter_elem. rewrite (sd_names _ _ Hs), lookup_fmap in Hin.
    apply fmap_Some in Hin as (st & Hst & ->). eauto.
  - assert (namespaces (import_all registry_default (export_of r db <$> btree_iter (t_namespaces db))) = namespaces r) as Hn.
    { apply map_eq. intros n. rewrite H1. cbn [namespaces registry_default].
      destruct (namespaces r !! n) as [st|] eqn:Hst; [|by case_bool_decide].
      rewrite bool_decide_true; [done|]. apply list_elem_of_fmap. exists (n, ns_revision st). split; [done|].
      apply btree_iter_elem. by rewrite (sd_names _ _ Hs), lookup_fmap, Hst. }
    split_and!; [done| |done|done]. rewrite H2, Hn, <-(ro_bytes _ Hok). pose proof (stored_bytes_small r Hok). lia.
Qed.

(** A file that holds [r]: written by an earlier store, or new. *)
Definition file_holds (r : Registry) (file : DatabaseFile) : Prop :=
  user_version file = SCHEMA_VERSION ∧ same_db r (tables file)
  ∨ user_version file = 0 ∧ r = registry_default.

Lemma same_db_empty : same_db registry_default empty_tables.
Proof. split; [cbn; by rewrite fmap_empty|done|]. intros name st. cbn. by rewrite lookup_empty. Qed.

Lemma initialize_sure r file :
  file_holds r file → tx_sure (initialize_schema (user_version file)) (tables file) (λ _ db, same_db r db).
Proof.
  intros [[-> Hs]|[-> ->]]; unfold initialize_schema; apply tx_sure_query; [by apply tx_sure_query_end|].
  apply tx_sure_atomically. intros io. unfold execute, statement. destruct io as [|[m|] io]; [|done|]; (split; [apply same_db_empty|done]).
Qed.

Lemma open_tables_sure r file now :
  registry_ok r → file_holds r file → restart_room r → now ≤ i64_max →
  tx_sure (open_tables (user_version file) now) (tables file) (λ d db', ∃ r1,
    expire_all r (merge_sort pair_le (all_due r now)) now = Ret r1 ∧ registry_ok r1 ∧ in_step r1 d
    ∧ connection d = db').
Proof.
  intros Hok Hfile Hroom Hnow. unfold open_tables.
  eapply tx_sure_bind; [by apply (initialize_sure r)|]. intros [] db Hs.
  eapply tx_sure_bind; [by apply (validate_restored_sure r)|]. intros [] ? ->.
  eapply tx_sure_bind; [by apply (purge_sure r)|]. intros [] db' (r1 & He & Hok1 & Hs1).
  apply tx_sure_query, tx_sure_query. intros io. split; [|done]. exists r1. split_and!; [done|done| |done].
  split; [done|]. by apply total_len_eq.
Qed.

(** What is left of a registry at [now]. *)
Definition survives (r r' : Registry) (now : Z) : Prop :=
  ∀ name key, find_record r' name key =
    match find_record r name key with
    | Some rec => if is_expired rec now then None else Some rec
    | None => None
    end.

Lemma expired_all_survives r now r1 :
  expire_all r (merge_sort pair_le (all_due r now)) now = Ret r1 → survives r r1 now ∧ fresh_at r1 now.
Proof.
  intros He.
  assert (survives r r1 now) as Hsv.
  { intros n k. rewrite (expire_all_find _ _ _ _ n k He). destruct (find_record r n k) as [rec|] eqn:Hf; [|done].
    destruct (is_expired rec now) eqn:Hx; [|by rewrite andb_false_r]. rewrite bool_decide_true; [done|].
    rewrite merge_sort_Permutation. apply all_due_spec. by exists rec. }
  split; [done|]. intros n k rec. rewrite Hsv. destruct (find_record r n k) as [rec0|]; [|done].
  destruct (is_expired rec0 now) eqn:Hx; [done|]. by intros [= <-].
Qed.

(** Opening a file that holds [r]. *)
Lemma open_state_store_spec r file now io :
  registry_ok r → file_holds r file → restart_room r → now ≤ i64_max →
  match open_state_store registry_default file now io with
  | Panic => False
  | Ret (_, None, _) => io ≠ []
  | Ret (r', Some d, _) =>
      in_step r' d ∧ registry_ok r' ∧ survives r r' now ∧ pending r' = [] ∧ pending_overflowed r' = false
      ∧ ∀ name, match namespaces r !! name, namespaces r' !! name with
                | Some st, Some st' =>
                    ns_revision st' + Z.of_nat (size (ns_entries st')) = ns_revision st + Z.of_nat (size (ns_entries st))
                    ∧ ns_revision st ≤ ns_revision st'
                | None, None => True
                | _, _ => False
                end
  end.
Proof.
  intros Hok Hs Hroom Hnow. unfold open_state_store, open.
  pose proof (open_tables_sure r file now Hok Hs Hroom Hnow io) as Ho.
  destruct (open_tables (user_version file) now (tables file) io) as [[[[d|e] db1] io1]|]; [|done|done]. cbn [obind].
  destruct Ho as [(r1 & He & Hok1 & [Hs1 Hb1] & Hconn) Hio].
  destruct (expired_all_survives _ _ _ He) as [Hsv Hfresh]. unfold export.
  pose proof (export_sure r1 (connection d) now Hok1 Hs1 Hfresh io1) as Hx.
  destruct (export_all now (connection d) io1) as [[[[l|e] db2] io2]|]; [|cbn [obind]; intros ->; by apply Hx, Hio|done].
  destruct Hx as [[-> ->] _]. cbn [obind].
  destruct (import_restores r1 (connection d) Hok1 Hs1) as (Hn & Hb & Hp & Ho).
  set (r' := import_all _ _) in *. assert (same_contents r1 r') as Hc by (split; [done|by symmetry]).
  split_and!; [split; [by apply (same_db_contents r1)|congruence]| | |done|done|].
  - destruct Hok1 as [A1 A2 A3 A4 A5]. split; rewrite ?Hn, ?Hb, ?Hp; try done.
  - intros n k. rewrite <-(Hsv n k). unfold find_record. by rewrite Hn.
  - intros n. rewrite Hn. by apply (expire_all_sizes _ _ _ _ n He).
Qed.

End restore.
