(* ===== verification/StateWatch.v ===== *)
(** * Watches of the state store

    [WatchRegistry] of [server/state_store_watch.rs]: sessions watch a key prefix of a
    namespace, receive numbered updates, acknowledge them, and lose the watch when they
    fall behind, lose authorization or disappear.

    The transport of the sessions is an argument: [enqueue] hands a notification to a
    session's queue and [has_session] tells whether it is connected.
    [snapshot_encoded_len] is the size prost computes, [active] stands for
    [authentication::active], [project_status] for the view of the profile status that a
    session may see, and [watch_iter] is the order in which the watch table is visited. *)

From S2P Require Import Prelude StateSchema StateStore.

Definition MAX_WATCHES_PER_SESSION : Z := 64.
Definition MAX_WATCHES_TOTAL : Z := 1024.
Definition MAX_IN_FLIGHT_UPDATES : Z := 32.
Definition ACK_TIMEOUT_MS : Z := 30000.

(** ** Messages *)

Record Timestamp := mk_timestamp { ts_seconds : Z; ts_nanos : Z }.
Definition timestamp_ms (millis : Z) : Timestamp :=
  mk_timestamp (Z.min i64_max (millis / 1000)) (millis mod 1000 * 1000000).

(** [proto::StateEntry]; its value is always present. *)
Record StateEntry := mk_state_entry {
  pe_namespace : string;
  pe_key : string;
  pe_schema : string;
  pe_value : Struct;
  pe_revision : Z;
  pe_updated_at : Timestamp;
  pe_expires_at : option Timestamp;
  pe_owner_id : string
}.

Definition proto_entry (e : StoredEntry) : StateEntry :=
  mk_state_entry (se_namespace e) (se_key e) (se_schema e) (se_value e) (se_revision e)
    (timestamp_ms (se_updated_ms e)) (timestamp_ms <$> se_expires_ms e) (se_owner_id e).

Record StateWatchSnapshot := mk_snapshot {
  sn_watch_id : string;
  sn_namespace : string;
  sn_key_prefix : string;
  sn_snapshot_revision : Z;
  sn_entries : list StateEntry
}.

Inductive CloseReason := BufferOverflow | AckTimeout | AuthorizationRevoked.
Inductive UpdateKind := KindPut | KindDelete | KindExpire.

Inductive Notification :=
| StateStoreWatchUpdate (watch_id namespace key : string) (revision : Z) (kind : UpdateKind)
    (entry : option StateEntry) (watch_sequence : Z)
| StateStoreWatchClosed (watch_id namespace : string) (reason : CloseReason).

Inductive WatchEventKind := EvPut (e : StoredEntry) | EvDelete | EvExpire.
Record WatchEvent := mk_watch_event {
  we_namespace : string;
  we_key : string;
  we_revision : Z;
  we_kind : WatchEventKind
}.

Inductive EnqueueOutcome := Sent | QueueFull | Gone.
#[global] Instance EnqueueOutcome_eq_dec : EqDecision EnqueueOutcome.
Proof. solve_decision. Defined.

(** ** Watches *)

Record PendingUpdate := mk_pending { pu_sequence : Z; pu_sent_ms : Z }.

Record Watch := mk_watch {
  w_session_id : Z;
  w_watch_id : string;
  w_namespace : string;
  w_key_prefix : string;
  w_delivered : Z;
  w_applied : Z;
  w_unacked : list PendingUpdate
}.

Notation Watches := (gmap (Z * string) Watch).

(** Principals and API sessions, as far as watches look at them. *)
Record Principal := mk_principal { p_id : string; p_admin : bool }.
Record ApiSession := mk_session {
  s_principal : Principal;
  s_closed : bool;
  s_absolute_expires_at_ms : Z;
  s_last_activity : Z
}.
(** The clocks a request reads: an [Instant] and the Unix time in milliseconds. *)
Record Clock := mk_clock { c_now : Z; c_now_ms : Z }.

Class ServerEnv := {
  Transport : Type;
  enqueue : Transport → Z → Notification → EnqueueOutcome * Transport;
  has_session : Transport → Z → bool;
  snapshot_encoded_len : StateWatchSnapshot → Z;
  active : Principal → Clock → bool;
  idle_timeout : Z;
  project_status : Z → StoredEntry → StoredEntry;
  watch_iter : Watches → list (Z * string * Watch)
}.

Class ServerLaws (E : ServerEnv) : Prop := {
  watch_iter_perm : ∀ m, watch_iter m ≡ₚ map_to_list m
}.

Definition PROFILES_NAMESPACE : string := "service/runtime-profiles/".
Definition STATUS_KEY : string := "status".

Section watch.
Context `{E : ServerEnv}.

Definition register (watches : Watches) (session_id : Z) (namespace key_prefix watch_id : string)
    : result Error unit * Watches :=
  let fresh := mk_watch session_id watch_id namespace key_prefix 0 0 [] in
  if bool_decide (watches !! (session_id, watch_id) = None)
     && ((MAX_WATCHES_PER_SESSION
            <=? Z.of_nat (length (base.filter (λ k : Z * string, k.1 = session_id) (elements (dom watches : gset (Z * string))))))
         || (MAX_WATCHES_TOTAL <=? Z.of_nat (size watches)))
  then (Err (InvalidE WatchLimitExceeded), watches)
  else (Ok tt, <[(session_id, watch_id) := fresh]> watches).

Definition unregister (watches : Watches) (session_id : Z) (watch_id : string)
    : result Error unit * Watches :=
  (if bool_decide (watches !! (session_id, watch_id) = None) then Err (InvalidE WatchNotFound) else Ok tt,
   delete (session_id, watch_id) watches).

(** [front_mut()]: the oldest pending update counts from now. *)
Definition restart_front (unacked : list PendingUpdate) (now_ms : Z) : list PendingUpdate :=
  match unacked with
  | [] => []
  | oldest :: rest => mk_pending (pu_sequence oldest) now_ms :: rest
  end.

Definition acknowledge (watches : Watches) (session_id : Z) (watch_id : string)
    (applied_sequence now_ms : Z) : result (string * Error) Z * Watches :=
  match watches !! (session_id, watch_id) with
  | None => (Err ("", InvalidE WatchNotFound), watches)
  | Some w =>
      if w_delivered w <? applied_sequence then (Err (w_namespace w, InvalidE AckAhead), watches)
      else if w_applied w <? applied_sequence then
        (Ok applied_sequence,
         <[(session_id, watch_id) :=
             mk_watch (w_session_id w) (w_watch_id w) (w_namespace w) (w_key_prefix w) (w_delivered w)
               applied_sequence
               (restart_front (base.filter (λ p, applied_sequence < pu_sequence p) (w_unacked w)) now_ms)]>
           watches)
      else (Ok (w_applied w), watches)
  end.

Definition close_session (watches : Watches) (session_id : Z) : Watches :=
  base.filter (λ kw : Z * string * Watch, kw.1.1 ≠ session_id) watches.

Definition session_live (session : ApiSession) (clock : Clock) : bool :=
  negb (s_closed session
        || (s_absolute_expires_at_ms session <=? Z.min i64_max (c_now_ms clock))
        || (idle_timeout <=? saturating_duration_since (c_now clock) (s_last_activity session))
        || negb (active (s_principal session) clock)).

Definition session_authorized (sessions : gmap Z ApiSession) (clock : Clock) (session_id : Z)
    (layout : option NamespaceLayout) : bool :=
  match layout, sessions !! session_id with
  | Some layout, Some session =>
      session_live session clock
      && match authorize_read layout (p_id (s_principal session)) (p_admin (s_principal session)) with
         | Ok _ => true
         | Err _ => false
         end
  | _, _ => false
  end.

Definition update_notification (w : Watch) (event : WatchEvent) (sequence : Z) : Notification :=
  let '(kind, entry) :=
    match we_kind event with
    | EvPut e => (KindPut, Some (proto_entry e))
    | EvDelete => (KindDelete, None)
    | EvExpire => (KindExpire, None)
    end in
  StateStoreWatchUpdate (w_watch_id w) (we_namespace event) (we_key event) (we_revision event) kind entry sequence.

Definition closed_notification (w : Watch) (reason : CloseReason) : Notification :=
  StateStoreWatchClosed (w_watch_id w) (w_namespace w) reason.

(** Only the status document of the profile namespace depends on who looks. *)
Definition project_event_for_watch (sessions : gmap Z ApiSession) (session_id : Z) (event : WatchEvent)
    : WatchEvent :=
  if negb (str_eqb (we_namespace event) PROFILES_NAMESPACE) || negb (str_eqb (we_key event) STATUS_KEY) then event
  else match we_kind event with
       | EvPut e =>
           if is_some_and (λ s, p_admin (s_principal s)) (sessions !! session_id) then event
           else mk_watch_event (we_namespace event) (we_key event) (we_revision event)
                  (EvPut (project_status session_id e))
       | _ => event
       end.

(** ** Publishing *)

Definition Sends : Type := list (Z * Notification).
Definition Terminations : Type := list (Z * string * option CloseReason).

(** One watch and one event: the watch afterwards, whether it ends, what was sent. *)
Definition deliver (sessions : gmap Z ApiSession) (clock : Clock) (now_ms : Z) (event : WatchEvent)
    (layout : option NamespaceLayout) (t : Transport) (w : Watch)
    : outcome (Watch * option (option CloseReason) * Sends * Transport) :=
  if negb (str_eqb (w_namespace w) (we_namespace event)) || negb (str_prefix (w_key_prefix w) (we_key event))
  then Ret (w, None, [], t)
  else if negb (session_authorized sessions clock (w_session_id w) layout)
  then Ret (w, Some (Some AuthorizationRevoked), [], t)
  else
    let! sequence := plain_add u64_max (w_delivered w) 1 in
    let w := mk_watch (w_session_id w) (w_watch_id w) (w_namespace w) (w_key_prefix w) sequence (w_applied w)
               (w_unacked w ++ [mk_pending sequence now_ms]) in
    if MAX_IN_FLIGHT_UPDATES <? vec_len (w_unacked w)
    then Ret (w, Some (Some BufferOverflow), [], t)
    else
      let notification :=
        update_notification w (project_event_for_watch sessions (w_session_id w) event) sequence in
      let '(outcome, t) := enqueue t (w_session_id w) notification in
      Ret (match outcome with
           | Sent => (w, None, [(w_session_id w, notification)], t)
           | QueueFull => (w, Some None, [], t)
           | Gone => (w, None, [], t)
           end).

Fixpoint deliver_all (sessions : gmap Z ApiSession) (clock : Clock) (now_ms : Z) (event : WatchEvent)
    (layout : option NamespaceLayout) (t : Transport) (visit : list (Z * string * Watch)) (watches : Watches)
    (terminate : Terminations) (sent : Sends) : outcome (Watches * Terminations * Sends * Transport) :=
  match visit with
  | [] => Ret (watches, terminate, sent, t)
  | (key, w) :: visit' =>
      let! (w, ending, sends, t) := deliver sessions clock now_ms event layout t w in
      deliver_all sessions clock now_ms event layout t visit' (<[key := w]> watches)
        (match ending with Some reason => terminate ++ [(key, reason)] | None => terminate end) (sent ++ sends)
  end.

(** Removes the watches that ended and remembers those that are told why. *)
Fixpoint terminate_all (watches : Watches) (terminate : Terminations) (closed : list (Watch * CloseReason))
    : Watches * list (Watch * CloseReason) :=
  match terminate with
  | [] => (watches, closed)
  | (key, reason) :: terminate' =>
      terminate_all (delete key watches) terminate'
        (match watches !! key, reason with
         | Some w, Some reason => closed ++ [(w, reason)]
         | _, _ => closed
         end)
  end.

Fixpoint publish_each (sessions : gmap Z ApiSession) (clock : Clock) (now_ms : Z) (events : list WatchEvent)
    (t : Transport) (watches : Watches) (closed : list (Watch * CloseReason)) (sent : Sends)
    : outcome (Watches * list (Watch * CloseReason) * Sends * Transport) :=
  match events with
  | [] => Ret (watches, closed, sent, t)
  | event :: events' =>
      let layout := match validate_namespace (we_namespace event) with Ok l => Some l | Err _ => None end in
      let! (watches, terminate, sent, t) :=
        deliver_all sessions clock now_ms event layout t (watch_iter watches) watches [] sent in
      let '(watches, closed) := terminate_all watches terminate closed in
      publish_each sessions clock now_ms events' t watches closed sent
  end.

Fixpoint send_closed (t : Transport) (closed : list (Watch * CloseReason)) (sent : Sends) : Sends * Transport :=
  match closed with
  | [] => (sent, t)
  | (w, reason) :: closed' =>
      let notification := closed_notification w reason in
      let '(outcome, t) := enqueue t (w_session_id w) notification in
      send_closed t closed'
        (if bool_decide (outcome = Sent) then sent ++ [(w_session_id w, notification)] else sent)
  end.

Definition publish (sessions : gmap Z ApiSession) (clock : Clock) (watches : Watches) (events : list WatchEvent)
    (pending_overflowed : bool) (now_ms : Z) (t : Transport) : outcome (Sends * Watches * Transport) :=
  let '(watches, closed) :=
    if pending_overflowed
    then (∅, (λ kw : Z * string * Watch,
                (mk_watch (w_session_id kw.2) (w_watch_id kw.2) (w_namespace kw.2) (w_key_prefix kw.2)
                   (w_delivered kw.2) (w_applied kw.2) [], BufferOverflow)) <$> watch_iter watches)
    else (watches, []) in
  let! (watches, closed, sent, t) := publish_each sessions clock now_ms events t watches closed [] in
  let '(sent, t) := send_closed t closed sent in
  Ret (sent, watches, t).

(** ** The sweeper *)

Definition watch_ending (sessions : gmap Z ApiSession) (clock : Clock) (now_ms : Z) (t : Transport) (w : Watch)
    : option (option CloseReason) :=
  if negb (has_session t (w_session_id w)) then Some None
  else
    let layout := match validate_namespace (w_namespace w) with Ok l => Some l | Err _ => None end in
    if negb (session_authorized sessions clock (w_session_id w) layout) then Some (Some AuthorizationRevoked)
    else match w_unacked w with
         | oldest :: _ =>
             if saturating_add u64_max (pu_sent_ms oldest) ACK_TIMEOUT_MS <=? now_ms then Some (Some AckTimeout)
             else None
         | [] => None
         end.

Definition expire_watches (sessions : gmap Z ApiSession) (clock : Clock) (watches : Watches) (now_ms : Z)
    (t : Transport) : Sends * Watches * Transport :=
  let terminate :=
    omap (λ kw : Z * string * Watch, (λ reason, (kw.1, reason)) <$> watch_ending sessions clock now_ms t kw.2)
      (watch_iter watches) in
  let '(watches, closed) := terminate_all watches terminate [] in
  let '(sent, t) := send_closed t closed [] in
  (sent, watches, t).

End watch.
