(* ===== verification/StateServer.v ===== *)
(** * Requests of the state store

    The handlers of [server/state_store.rs]: each request runs against the database, then
    against the registry in memory, and publishes what changed to the watches, all under
    the store's locks, so a request is one step of [ServerState].

    A handler returns its reply, the state, what was sent to sessions, and the rest of
    the statement outcomes [Io].  Requests of the settings and profile namespaces go to
    other modules and are not part of this one. *)

From S2P Require Import Prelude StateSchema StateStore StateDurable StateRestore StateWatch.

Definition MAX_WATCH_SNAPSHOT_ENTRIES : Z := 64.
Definition MAX_WATCH_SNAPSHOT_BYTES : Z := 64 * 1024.

(** ** Replies *)

Inductive ErrorCode := CodeNotFound | CodeRejected | CodeInvalidRequest | CodeInternal.
Inductive StateStoreErrorCode :=
| DetailUnspecified | DetailNotFound | DetailConflict | DetailNotAuthorized | DetailNamespaceInvalid
| DetailKeyInvalid | DetailSchemaInvalid | DetailValueTooLarge | DetailTtlInvalid | DetailWatchNotFound
| DetailWatchLimitExceeded.

Record StateStoreError := mk_store_error {
  de_namespace : string;
  de_key : string;
  de_code : StateStoreErrorCode;
  de_current_revision : option Z
}.
Record ControlCommandError := mk_control_error {
  ce_code : ErrorCode;
  ce_status : Z;
  ce_message : string;
  ce_detail : option StateStoreError
}.

Definition invalid (message : string) : ControlCommandError :=
  mk_control_error CodeInvalidRequest 400 message None.

Definition state_store_error (code : ErrorCode) (status : Z) (message namespace key : string)
    (detail_code : StateStoreErrorCode) (current_revision : option Z) : ControlCommandError :=
  mk_control_error code status message (Some (mk_store_error namespace key detail_code current_revision)).

Definition registry_error (error : Error) (namespace key : string) : ControlCommandError :=
  let reply code status message detail :=
    state_store_error code status message namespace key detail None in
  match error with
  | NotFound => reply CodeNotFound 404 "state entry was not found" DetailNotFound
  | Conflict current_revision =>
      state_store_error CodeRejected 409 "state entry changed; reload before saving" namespace key
        DetailConflict (Some current_revision)
  | NotAuthorized => reply CodeRejected 403 "state write is not permitted" DetailNotAuthorized
  | InvalidE InvNamespace => reply CodeInvalidRequest 400 "state namespace is invalid" DetailNamespaceInvalid
  | InvalidE InvKey => reply CodeInvalidRequest 400 "state key is invalid" DetailKeyInvalid
  | InvalidE InvSchema => reply CodeInvalidRequest 400 "state schema is invalid" DetailSchemaInvalid
  | InvalidE ValueMissing => invalid "state value is required"
  | InvalidE ValueTooLarge => reply CodeInvalidRequest 400 "state value is too large" DetailValueTooLarge
  | InvalidE NamespaceFull => reply CodeRejected 409 "state namespace is full" DetailNamespaceInvalid
  | InvalidE StoreFull => reply CodeRejected 409 "state store is full" DetailNamespaceInvalid
  | Storage message => mk_control_error CodeInternal 500 message None
  | InvalidE InvTtl => reply CodeInvalidRequest 400 "state TTL is invalid" DetailTtlInvalid
  | InvalidE WatchNotFound => reply CodeNotFound 404 "state watch was not found" DetailWatchNotFound
  | InvalidE WatchLimitExceeded => reply CodeRejected 429 "state watch limit reached" DetailWatchLimitExceeded
  | InvalidE AckAhead =>
      reply CodeInvalidRequest 400 "watch acknowledgement is ahead of delivery" DetailUnspecified
  end.

Inductive StateStoreResult :=
| ResultEntry (e : StateEntry)
| ResultDeleted (namespace key : string) (revision : Z)
| ResultWatch (s : StateWatchSnapshot)
| ResultUnwatched (watch_id : string)
| ResultWatchAck (watch_id : string) (applied_sequence : Z).

(** ** Requests *)

Record PutState := mk_put_state {
  ps_namespace : string;
  ps_key : string;
  ps_schema : string;
  ps_value : option Struct;
  ps_expected_revision : option Z;
  ps_ttl : option Duration
}.

Inductive Action :=
| ActGet (namespace key : string)
| ActPut (request : PutState)
| ActDelete (namespace key : string) (expected_revision : option Z)
| ActWatch (namespace key_prefix watch_id : string)
| ActUnwatch (watch_id : string)
| ActWatchAck (watch_id : string) (applied_sequence : Z)
| ActNone.

(** The namespaces that other modules serve; they publish to the same watches. *)
Definition SETTINGS_TEST_NAMESPACE : string := "service/state-store-test/".
Definition is_adapter_namespace (namespace : string) : bool :=
  str_eqb namespace PROFILES_NAMESPACE || str_eqb namespace SETTINGS_TEST_NAMESPACE.
Definition command_namespace (action : Action) : option string :=
  match action with
  | ActGet namespace _ | ActDelete namespace _ _ | ActWatch namespace _ _ => Some namespace
  | ActPut q => Some (ps_namespace q)
  | ActUnwatch _ | ActWatchAck _ _ | ActNone => None
  end.

(** [is_ascii_graphic]. *)
Definition validate_client_id (value name : string) : result ControlCommandError unit :=
  if str_is_empty value || (64 <? str_len value)
     || negb (forallb (λ b, (33 <=? b) && (b <=? 126)) (bytes_of value))
  then Err (invalid (name +:+ " must contain 1 to 64 visible ASCII characters"))
  else Ok tt.

Section server.
Context `{S : StoreEnv} `{E : DatabaseEnv} `{V : ServerEnv}.

Record ServerState := mk_server {
  sv_registry : Registry;
  sv_durable : option DurableStore;
  sv_watches : Watches;
  sv_sessions : gmap Z ApiSession;
  sv_transport : Transport
}.

Definition Reply : Type := result ControlCommandError StateStoreResult * ServerState * Sends * Io.

Definition expire_event (e : ExpiredEntry) : WatchEvent :=
  mk_watch_event (xe_namespace e) (xe_key e) (xe_revision e) EvExpire.

(** Publishes the expirations, then the direct event. *)
Definition publish_events (s : ServerState) (direct : option WatchEvent) (expired : list ExpiredEntry)
    (pending_overflowed : bool) (clock : Clock) : outcome (Sends * ServerState) :=
  let events :=
    (expire_event <$> expired) ++ match direct with Some event => [event] | None => [] end in
  let! (sent, watches, t) :=
    publish (sv_sessions s) clock (sv_watches s) events pending_overflowed (c_now_ms clock) (sv_transport s) in
  Ret (sent, mk_server (sv_registry s) (sv_durable s) watches (sv_sessions s) t).

(** The registry's part of a request is done: its events go out. *)
Definition drain_and_publish (s : ServerState) (r : Registry) (d : option DurableStore)
    (direct : option WatchEvent) (clock : Clock) : outcome (Sends * ServerState) :=
  let '(expired, overflowed, r) := drain_pending r in
  publish_events (mk_server r d (sv_watches s) (sv_sessions s) (sv_transport s)) direct expired overflowed clock.

(** [if let Some(mut durable) = lock_durable(state) { durable.op()?; }]. *)
Definition on_durable {A : Type} (d : option DurableStore)
    (op : DurableStore → Io → outcome (result Error A * DurableStore * Io)) (io : Io)
    : outcome (result Error unit * option DurableStore * Io) :=
  match d with
  | None => Ret (Ok tt, None, io)
  | Some d =>
      let! (r, d, io) := op d io in
      Ret (match r with Ok _ => Ok tt | Err e => Err e end, Some d, io)
  end.

Definition with_durable (s : ServerState) (d : option DurableStore) : ServerState :=
  mk_server (sv_registry s) d (sv_watches s) (sv_sessions s) (sv_transport s).
Definition with_watches (s : ServerState) (w : Watches) : ServerState :=
  mk_server (sv_registry s) (sv_durable s) w (sv_sessions s) (sv_transport s).

Definition do_get (s : ServerState) (p : Principal) (namespace key : string) (clock : Clock) (io : Io)
    : outcome Reply :=
  let now := c_now_ms clock in
  let! (done_, d, io) :=
    on_durable (sv_durable s) (λ d io, d_get d namespace key (p_id p) (p_admin p) now io) io in
  match done_ with
  | Err e => Ret (Err (registry_error e namespace key), with_durable s d, [], io)
  | Ok _ =>
      let! (outcome, r) := get (sv_registry s) namespace key (p_id p) (p_admin p) now in
      let! (sent, s) := drain_and_publish s r d None clock in
      Ret (match outcome with
           | Ok e => Ok (ResultEntry (proto_entry e))
           | Err e => Err (registry_error e namespace key)
           end, s, sent, io)
  end.

Definition do_put (s : ServerState) (p : Principal) (q : PutState) (clock : Clock) (io : Io) : outcome Reply :=
  match ps_value q with
  | None => Ret (Err (invalid "state value is required"), s, [], io)
  | Some value =>
      let now := c_now_ms clock in
      let! (done_, d, io) :=
        on_durable (sv_durable s) (λ d io, d_put d (ps_namespace q) (ps_key q) (ps_schema q) (Some value)
          (ps_expected_revision q) (ps_ttl q) (p_id p) (p_admin p) now io) io in
      match done_ with
      | Err e => Ret (Err (registry_error e (ps_namespace q) (ps_key q)), with_durable s d, [], io)
      | Ok _ =>
          let! (outcome, r) := put (sv_registry s) (ps_namespace q) (ps_key q) (ps_schema q) (Some value)
            (ps_expected_revision q) (ps_ttl q) (p_id p) (p_admin p) now in
          let direct :=
            match outcome with
            | Ok e => Some (mk_watch_event (se_namespace e) (se_key e) (se_revision e) (EvPut e))
            | Err _ => None
            end in
          let! (sent, s) := drain_and_publish s r d direct clock in
          Ret (match outcome with
               | Ok e => Ok (ResultEntry (proto_entry e))
               | Err e => Err (registry_error e (ps_namespace q) (ps_key q))
               end, s, sent, io)
      end
  end.

Definition do_delete (s : ServerState) (p : Principal) (namespace key : string) (expected_revision : option Z)
    (clock : Clock) (io : Io) : outcome Reply :=
  let now := c_now_ms clock in
  let! (done_, d, io) :=
    on_durable (sv_durable s)
      (λ d io, d_delete d namespace key expected_revision (p_id p) (p_admin p) now io) io in
  match done_ with
  | Err e => Ret (Err (registry_error e namespace key), with_durable s d, [], io)
  | Ok _ =>
      let! (outcome, r) :=
        delete_entry (sv_registry s) namespace key expected_revision (p_id p) (p_admin p) now in
      let direct :=
        match outcome with
        | Ok revision => Some (mk_watch_event namespace key revision EvDelete)
        | Err _ => None
        end in
      let! (sent, s) := drain_and_publish s r d direct clock in
      Ret (match outcome with
           | Ok revision => Ok (ResultDeleted namespace key revision)
           | Err e => Err (registry_error e namespace key)
           end, s, sent, io)
  end.

(** [session_lifecycle::admit] around the registration; [busy] is a contended admission
    lock. *)
Definition unavailable : ControlCommandError :=
  mk_control_error CodeRejected 401 "API session is unavailable" None.
Definition admit_session (s : ServerState) (session_id : Z) (busy : bool) (clock : Clock)
    (register : result ControlCommandError unit * Watches) : result ControlCommandError unit * Watches :=
  if session_id =? 0 then register
  else match sv_sessions s !! session_id with
       | None => (Err unavailable, sv_watches s)
       | Some session =>
           if s_closed session then (Err unavailable, sv_watches s)
           else if busy
           then (Err (mk_control_error CodeRejected 409 "API session admission is busy" None), sv_watches s)
           else if negb (session_live session clock) then (Err unavailable, sv_watches s)
           else register
       end.

Definition watch_request (p : Principal) (namespace key_prefix watch_id : string)
    : result ControlCommandError unit :=
  let? _ := validate_client_id watch_id "watch ID" in
  match (let? layout := validate_namespace namespace in
         let? _ := if str_is_empty key_prefix then Ok tt else validate_key_prefix key_prefix in
         authorize_read layout (p_id p) (p_admin p)) with
  | Err e => Err (registry_error e namespace "")
  | Ok _ => Ok tt
  end.

Definition check_snapshot_bounds (message : StateWatchSnapshot) (namespace watch_id : string)
    : result ControlCommandError unit :=
  if (MAX_WATCH_SNAPSHOT_ENTRIES <? vec_len (sn_entries message))
     || (MAX_WATCH_SNAPSHOT_BYTES <? snapshot_encoded_len message)
  then Err (registry_error (InvalidE ValueTooLarge) namespace watch_id)
  else Ok tt.

(** Expires what the watch would see, in the database first. *)
Definition watch_expire (s : ServerState) (namespace key_prefix : string) (now : Z) (io : Io)
    : outcome (result Error Registry * option DurableStore * Io) :=
  match sv_durable s with
  | None => Ret (Ok (sv_registry s), None, io)
  | Some d =>
      let! (committed, d, io) :=
        d_expire_keys d namespace (due_keys (sv_registry s) namespace key_prefix now) now io in
      Ret (match committed with
           | Ok committed => Ok (apply_expirations (sv_registry s) committed)
           | Err e => Err e
           end, Some d, io)
  end.

(** The snapshot, its bounds, and the registration. *)
Definition begin_watch (s : ServerState) (session_id : Z) (namespace key_prefix watch_id : string)
    (busy : bool) (clock : Clock) (sent : Sends) (io : Io) : outcome Reply :=
  let! (revision, entries, r) := snapshot (sv_registry s) namespace key_prefix (c_now_ms clock) in
  let s := mk_server r (sv_durable s) (sv_watches s) (sv_sessions s) (sv_transport s) in
  let message := mk_snapshot watch_id namespace key_prefix revision (proto_entry <$> entries) in
  match check_snapshot_bounds message namespace watch_id with
  | Err e => Ret (Err e, s, sent, io)
  | Ok _ =>
      let '(registered, watches) :=
        admit_session s session_id busy clock
          (let '(r, w) := register (sv_watches s) session_id namespace key_prefix watch_id in
           (match r with Ok _ => Ok tt | Err e => Err (registry_error e namespace watch_id) end, w)) in
      Ret (match registered with Ok _ => Ok (ResultWatch message) | Err e => Err e end,
           with_watches s watches, sent, io)
  end.

Definition do_watch (s : ServerState) (session_id : Z) (p : Principal) (namespace key_prefix watch_id : string)
    (busy : bool) (clock : Clock) (io : Io) : outcome Reply :=
  match watch_request p namespace key_prefix watch_id with
  | Err e => Ret (Err e, s, [], io)
  | Ok _ =>
      let! (sent1, s) := drain_and_publish s (sv_registry s) (sv_durable s) None clock in
      let! (expired, d, io) := watch_expire s namespace key_prefix (c_now_ms clock) io in
      match expired with
      | Err e => Ret (Err (registry_error e namespace watch_id), with_durable s d, sent1, io)
      | Ok r =>
          let! (sent2, s) := drain_and_publish s r d None clock in
          begin_watch s session_id namespace key_prefix watch_id busy clock (sent1 ++ sent2) io
      end
  end.

Definition do_unwatch (s : ServerState) (session_id : Z) (watch_id : string) (io : Io) : Reply :=
  let '(r, watches) := unregister (sv_watches s) session_id watch_id in
  (match r with Ok _ => Ok (ResultUnwatched watch_id) | Err e => Err (registry_error e "" watch_id) end,
   with_watches s watches, [], io).

Definition do_acknowledge (s : ServerState) (session_id : Z) (watch_id : string) (applied_sequence : Z)
    (clock : Clock) (io : Io) : Reply :=
  let '(r, watches) := acknowledge (sv_watches s) session_id watch_id applied_sequence (c_now_ms clock) in
  (match r with
   | Ok accepted => Ok (ResultWatchAck watch_id accepted)
   | Err (namespace, e) => Err (registry_error e namespace watch_id)
   end, with_watches s watches, [], io).

Definition dispatch (s : ServerState) (session_id : Z) (p : Principal) (action : Action) (busy : bool)
    (clock : Clock) (io : Io) : outcome Reply :=
  match action with
  | ActGet namespace key => do_get s p namespace key clock io
  | ActPut q => do_put s p q clock io
  | ActDelete namespace key expected => do_delete s p namespace key expected clock io
  | ActWatch namespace prefix watch_id => do_watch s session_id p namespace prefix watch_id busy clock io
  | ActUnwatch watch_id => Ret (do_unwatch s session_id watch_id io)
  | ActWatchAck watch_id applied => Ret (do_acknowledge s session_id watch_id applied clock io)
  | ActNone => Ret (Err (invalid "state store command has no action"), s, [], io)
  end.

(** ** The sweeper *)

Definition expire_leases (s : ServerState) (clock : Clock) (io : Io) : outcome (ServerState * Sends * Io) :=
  let now := c_now_ms clock in
  let! (done_, d, io) := on_durable (sv_durable s) (λ d io, d_expire_due d now io) io in
  match done_ with
  | Err _ => Ret (with_durable s d, [], io)
  | Ok _ =>
      let! (expired, overflowed, r) := expire_due (sv_registry s) now in
      let! (sent, s) :=
        publish_events (mk_server r d (sv_watches s) (sv_sessions s) (sv_transport s)) None expired overflowed clock in
      Ret (s, sent, io)
  end.

Definition expire_state_store_watches (s : ServerState) (clock : Clock) (io : Io)
    : outcome (ServerState * Sends * Io) :=
  let! (s, sent1, io) := expire_leases s clock io in
  let '(sent2, watches, t) :=
    expire_watches (sv_sessions s) clock (sv_watches s) (c_now_ms clock) (sv_transport s) in
  Ret (mk_server (sv_registry s) (sv_durable s) watches (sv_sessions s) t, sent1 ++ sent2, io).

End server.
