(* ===== verification/StateWatchInv.v ===== *)
(** * The invariant of the watches

    A watch has in flight exactly the updates after the last acknowledged one, never more
    than 32, and what publishing does to a single watch whatever the others do. *)

From S2P Require Import Prelude StateSchema StateStore StateStoreInv StateDurable StateSync StateRestore StateRestoreInv StateWatch StateServer.

Section filters.
Context {A : Type} (P : A → Prop) `{∀ x, Decision (P x)}.

Lemma filter_none (l : list A) : (∀ x, x ∈ l → ¬ P x) → base.filter P l = [].
Proof.
  induction l as [|a l IH]; intros Hl; [done|]. rewrite filter_cons_False by (apply Hl; by left).
  apply IH. intros x Hx. apply Hl. by right.
Qed.
Lemma filter_every (l : list A) : (∀ x, x ∈ l → P x) → base.filter P l = l.
Proof.
  induction l as [|a l IH]; intros Hl; [done|]. rewrite filter_cons_True by (apply Hl; by left).
  f_equal. apply IH. intros x Hx. apply Hl. by right.
Qed.
Lemma filter_image {B : Type} (f : B → A) (l : list B) : base.filter P (f <$> l) = f <$> base.filter (λ x, P (f x)) l.
Proof.
  induction l as [|a l IH]; [done|]. rewrite fmap_cons, !filter_cons. destruct (decide (P (f a))); [|done].
  by rewrite fmap_cons, IH.
Qed.
End filters.

(** [applied + 1 .. delivered]. *)
Definition in_flight (applied delivered : Z) : list Z :=
  (λ i, applied + Z.of_nat i) <$> seq 1 (Z.to_nat (delivered - applied)).

Record watch_ok (key : Z * string) (w : Watch) : Prop := {
  wo_key : key = (w_session_id w, w_watch_id w);
  wo_applied : 0 ≤ w_applied w ≤ w_delivered w;
  wo_unacked : pu_sequence <$> w_unacked w = in_flight (w_applied w) (w_delivered w);
  wo_window : w_delivered w - w_applied w ≤ MAX_IN_FLIGHT_UPDATES
}.

Definition session_keys (session_id : Z) (ws : Watches) : list (Z * string) :=
  base.filter (λ k : Z * string, k.1 = session_id) (elements (dom ws : gset (Z * string))).

Record watches_ok (ws : Watches) : Prop := {
  wso_each : ∀ key w, ws !! key = Some w → watch_ok key w;
  wso_total : Z.of_nat (size ws) ≤ MAX_WATCHES_TOTAL;
  wso_session : ∀ s, Z.of_nat (length (session_keys s ws)) ≤ MAX_WATCHES_PER_SESSION
}.

Lemma in_flight_snoc a d : a ≤ d → in_flight a (d + 1) = in_flight a d ++ [d + 1].
Proof.
  intros H. unfold in_flight. replace (Z.to_nat (d + 1 - a)) with (S (Z.to_nat (d - a))) by lia.
  rewrite seq_S, fmap_app. f_equal. cbn. f_equal. lia.
Qed.

Lemma in_flight_filter a b d :
  a ≤ b ≤ d → base.filter (λ s, b < s) (in_flight a d) = in_flight b d.
Proof.
  intros H. unfold in_flight. replace (Z.to_nat (d - a)) with (Z.to_nat (b - a) + Z.to_nat (d - b))%nat by lia.
  rewrite seq_app, fmap_app, filter_app.
  assert (base.filter (λ s, b < s) ((λ i : nat, a + Z.of_nat i) <$> seq 1 (Z.to_nat (b - a))) = []) as ->.
  { apply filter_none. intros s (i & -> & Hi)%list_elem_of_fmap. apply elem_of_seq in Hi. lia. }
  cbn [app]. rewrite (Nat.add_comm 1).
  rewrite <-fmap_add_seq, <-list_fmap_compose. rewrite filter_every.
  - apply list_fmap_ext. intros i x _. cbn. lia.
  - intros s (i & -> & Hi)%list_elem_of_fmap. apply elem_of_seq in Hi. cbn. lia.
Qed.

Lemma session_keys_sub (s : Z) (ws ws' : Watches) :
  (dom ws : gset (Z * string)) ⊆ dom ws' → (length (session_keys s ws) ≤ length (session_keys s ws'))%nat.
Proof.
  intros Hsub. unfold session_keys. apply submseteq_length, NoDup_submseteq.
  - apply NoDup_filter, NoDup_elements.
  - intros k. rewrite !list_elem_of_filter, !elem_of_elements. set_solver.
Qed.

(** Tables with fewer watches, each of them in order. *)
Lemma watches_ok_sub ws ws' :
  watches_ok ws → (dom ws' : gset (Z * string)) ⊆ dom ws → (∀ key w, ws' !! key = Some w → watch_ok key w) → watches_ok ws'.
Proof.
  intros [H1 H2 H3] Hsub Heach. split; [done| |].
  - pose proof (subseteq_size _ _ Hsub) as Hs. rewrite !size_dom in Hs. lia.
  - intros s. pose proof (session_keys_sub s ws' ws Hsub). specialize (H3 s). lia.
Qed.

Section watch.
Context `{E : ServerEnv} {L : ServerLaws E}.

(** ** Single operations *)

Lemma register_ok ws (s : Z) ns prefix id r ws' :
  watches_ok ws → register ws s ns prefix id = (r, ws') →
  watches_ok ws' ∧ (r = Ok tt → ws' = <[(s, id) := mk_watch s id ns prefix 0 0 []]> ws) ∧ (r ≠ Ok tt → ws' = ws).
Proof.
  intros Hok. unfold register. case_bool_decide as Hn; cbn [andb].
  - destruct (_ || _) eqn:Hlim; intros [= <- <-]; [done|]. split; [|done]. reflect_bools.
    destruct Hok as [H1 H2 H3]. split.
    + intros key w. destruct (decide (key = (s, id))) as [->|Hne].
      * rewrite lookup_insert_eq. by intros [= <-].
      * rewrite lookup_insert_ne by done. apply H1.
    + rewrite map_size_insert_None by done. lia.
    + intros s'. unfold session_keys in *. rewrite dom_insert_L.
      assert ((s, id) ∉ (dom ws : gset (Z * string))) as Hnd by (by apply not_elem_of_dom).
      rewrite (filter_Permutation _ _ _ (elements_union_singleton _ _ Hnd)), filter_cons. cbn [fst].
      case_decide as Hs; [subst|apply H3]. cbn [length]. lia.
  - intros [= <- <-]. split; [|done]. destruct (ws !! (s, id)) as [w0|] eqn:Hw0; [|done].
    apply (watches_ok_sub ws); [done| |].
    + rewrite dom_insert_L. apply (mk_is_Some) in Hw0. apply elem_of_dom in Hw0. set_solver.
    + intros key w. destruct (decide (key = (s, id))) as [->|Hne].
      * rewrite lookup_insert_eq. by intros [= <-].
      * rewrite lookup_insert_ne by done. apply Hok.
Qed.

Lemma acknowledge_ok ws (s : Z) id applied now r ws' :
  watches_ok ws → acknowledge ws s id applied now = (r, ws') →
  watches_ok ws'
  ∧ ∀ key, match ws !! key, ws' !! key with
           | Some w, Some w' => w_namespace w' = w_namespace w ∧ w_key_prefix w' = w_key_prefix w
               ∧ w_delivered w' = w_delivered w ∧ w_applied w ≤ w_applied w'
           | None, None => True
           | _, _ => False
           end.
Proof.
  intros Hok. unfold acknowledge.
  assert (watches_ok ws ∧ ∀ key, match ws !! key, ws !! key with
    | Some w, Some w' => w_namespace w' = w_namespace w ∧ w_key_prefix w' = w_key_prefix w
        ∧ w_delivered w' = w_delivered w ∧ w_applied w ≤ w_applied w'
    | None, None => True | _, _ => False end) as Hsame.
  { split; [done|]. intros key. by destruct (ws !! key). }
  destruct (ws !! (s, id)) as [w|] eqn:Hw; [|by intros [= <- <-]].
  destruct (w_delivered w <? applied) eqn:Hd; [by intros [= <- <-]|].
  destruct (w_applied w <? applied) eqn:Ha; [|by intros [= <- <-]]. intros [= <- <-]. reflect_bools. clear Hsame.
  destruct (wso_each _ Hok _ _ Hw) as [Hk Happ Hun Hwin]. split.
  - apply (watches_ok_sub ws); [done| |].
    + rewrite dom_insert_L. apply (mk_is_Some) in Hw. apply elem_of_dom in Hw. set_solver.
    + intros key w'. destruct (decide (key = (s, id))) as [->|Hne].
      * rewrite lookup_insert_eq. intros [= <-]. split; cbn [w_session_id w_watch_id w_applied w_delivered w_unacked]; [done|lia| |lia].
        rewrite <-(in_flight_filter (w_applied w)), <-Hun by lia. rewrite filter_image.
        assert (∀ l, pu_sequence <$> restart_front l now = pu_sequence <$> l) as -> by (by intros []). done.
      * rewrite lookup_insert_ne by done. apply Hok.
  - intros key. destruct (decide (key = (s, id))) as [->|Hne].
    + rewrite lookup_insert_eq, Hw. cbn. split_and!; [done|done|done|lia].
    + rewrite lookup_insert_ne by done. by destruct (ws !! key).
Qed.

End watch.

(** * What publishing does to one watch

    Publishing visits every watch for every event.  Followed through all of it, a watch
    either ends or has counted exactly the events of its namespace and prefix, and was
    sent updates for them in order, numbered without reuse. *)



(** An event of a watch's namespace under its prefix. *)
Definition matches (w : Watch) (ev : WatchEvent) : bool :=
  str_eqb (w_namespace w) (we_namespace ev) && str_prefix (w_key_prefix w) (we_key ev).

(** The updates of a list of sends that belong to a watch. *)
Definition update_to (key : Z * string) (s : Z * Notification) : option Notification :=
  match s with
  | (session, StateStoreWatchUpdate id ns k rev kind entry sequence) =>
      if bool_decide ((session, id) = key) then Some (StateStoreWatchUpdate id ns k rev kind entry sequence) else None
  | _ => None
  end.
Definition updates_to (key : Z * string) (sent : Sends) : list Notification := omap (update_to key) sent.

Definition note (id : string) (ev : WatchEvent) (sequence : Z) : Notification :=
  update_notification (mk_watch 0 id "" "" 0 0 []) ev sequence.

(** The updates for a list of events, numbered on from [n]. *)
Fixpoint numbered (id : string) (n : Z) (evs : list WatchEvent) : list Notification :=
  match evs with
  | [] => []
  | ev :: evs' => note id ev (n + 1) :: numbered id (n + 1) evs'
  end.

Lemma numbered_app id n l k : numbered id n (l ++ k) = numbered id n l ++ numbered id (n + Z.of_nat (length l)) k.
Proof.
  revert n. induction l as [|ev l IH]; intros n; cbn [numbered app length].
  - f_equal. lia.
  - rewrite IH. do 2 f_equal. f_equal. lia.
Qed.
Lemma numbered_length id n l : length (numbered id n l) = length l.
Proof. revert n. induction l as [|ev l IH]; intros n; cbn; [done|]. by rewrite IH. Qed.

Lemma updates_to_app key a b : updates_to key (a ++ b) = updates_to key a ++ updates_to key b.
Proof. apply omap_app. Qed.

(** A watch after some of its events: [evs] counted, [ups] sent. *)
Record followed (w : Watch) (evs : list WatchEvent) (ups : list Notification) (w' : Watch) : Prop := {
  fo_session : w_session_id w' = w_session_id w;
  fo_id : w_watch_id w' = w_watch_id w;
  fo_namespace : w_namespace w' = w_namespace w;
  fo_prefix : w_key_prefix w' = w_key_prefix w;
  fo_delivered : w_delivered w' = w_delivered w + Z.of_nat (length (base.filter (λ ev, matches w ev = true) evs));
  fo_updates : ups `sublist_of` numbered (w_watch_id w) (w_delivered w) (base.filter (λ ev, matches w ev = true) evs)
}.

Lemma followed_refl w : followed w [] [] w.
Proof. split; try done. cbn. lia. Qed.

Lemma matches_followed w evs ups w' ev : followed w evs ups w' → matches w' ev = matches w ev.
Proof. intros [_ _ Hn Hp _ _]. unfold matches. by rewrite Hn, Hp. Qed.

Lemma followed_trans w evs1 ups1 w1 evs2 ups2 w2 :
  followed w evs1 ups1 w1 → followed w1 evs2 ups2 w2 → followed w (evs1 ++ evs2) (ups1 ++ ups2) w2.
Proof.
  intros H1 H2. pose proof (λ ev, matches_followed _ _ _ _ ev H1) as Hm.
  assert (base.filter (λ ev, matches w1 ev = true) evs2 = base.filter (λ ev, matches w ev = true) evs2) as Hf.
  { apply list_filter_iff. intros ev. rewrite Hm. tauto. }
  destruct H1 as [A1 A2 A3 A4 A6 A7], H2 as [B1 B2 B3 B4 B6 B7]. rewrite Hf in B6, B7.
  split; try congruence.
  - rewrite filter_app, length_app. lia.
  - rewrite filter_app, numbered_app. apply sublist_app; [done|]. by rewrite <-A6, <-A2.
Qed.

Section publish.
Context `{E : ServerEnv} {L : ServerLaws E}.

(** ** One watch and one event *)

Lemma update_note w ev n : update_notification w ev n = note (w_watch_id w) ev n.
Proof. unfold note, update_notification. by destruct (we_kind ev). Qed.

Lemma project_plain sessions s ev :
  we_namespace ev ≠ PROFILES_NAMESPACE → project_event_for_watch sessions s ev = ev.
Proof. intros H. unfold project_event_for_watch. by rewrite (bool_decide_false _ H : str_eqb _ _ = false). Qed.

(** Every notification of a delivery is an update of the watch itself. *)
Lemma deliver_sends sessions clock now ev layout t w w' ending sends t' :
  deliver sessions clock now ev layout t w = Ret (w', ending, sends, t') →
  ∀ key, key ≠ (w_session_id w, w_watch_id w) → updates_to key sends = [].
Proof.
  unfold deliver. destruct (_ || _); [by intros [= <- <- <- <-]|].
  destruct (negb _); [by intros [= <- <- <- <-]|].
  destruct (plain_add _ _ _) as [sequence|]; [|done]. cbn [obind].
  destruct (_ <? _); [by intros [= <- <- <- <-]|].
  destruct (enqueue _ _ _) as [[] t1]; intros [= <- <- <- <-] key Hkey; [|done|done].
  unfold updates_to. cbn [omap list_omap update_to w_session_id]. rewrite update_note. unfold note, update_notification.
  cbn [w_watch_id]. destruct (we_kind _); rewrite bool_decide_false; done.
Qed.

Definition advance (w : Watch) (now : Z) : Watch :=
  mk_watch (w_session_id w) (w_watch_id w) (w_namespace w) (w_key_prefix w) (w_delivered w + 1) (w_applied w)
    (w_unacked w ++ [mk_pending (w_delivered w + 1) now]).

(** A watch that stays: untouched, or one update further. *)
Lemma deliver_cases sessions clock now ev layout t w w' sends t' :
  deliver sessions clock now ev layout t w = Ret (w', None, sends, t') →
  (matches w ev = false ∧ w' = w ∧ sends = [])
  ∨ (matches w ev = true ∧ w' = advance w now ∧ vec_len (w_unacked w') ≤ MAX_IN_FLIGHT_UPDATES
     ∧ sends `sublist_of` [(w_session_id w, note (w_watch_id w)
         (project_event_for_watch sessions (w_session_id w) ev) (w_delivered w + 1))]).
Proof.
  unfold deliver, matches. destruct (str_eqb _ _ ) eqn:H1; cbn [negb orb andb]; [|intros [= <- <- <-]; auto].
  destruct (str_prefix _ _) eqn:H2; cbn [negb]; [|intros [= <- <- <-]; auto].
  destruct (negb (session_authorized _ _ _ _)); [done|].
  destruct (plain_add u64_max (w_delivered w) 1) as [sequence|] eqn:Hseq; [|done]. cbn [obind].
  unfold plain_add in Hseq. split_match_in Hseq; [|done]. injection Hseq as <-.
  destruct (_ <? _) eqn:Hwin; [done|]. reflect_bools. fold (advance w now). rewrite update_note. cbn [w_watch_id w_session_id advance] in *.
  destruct (enqueue _ _ _) as [[] t1]; intros [= <- <- <-]; right; split_and!; try done; apply sublist_nil_l.
Qed.

Lemma advance_ok key w now :
  watch_ok key w → vec_len (w_unacked (advance w now)) ≤ MAX_IN_FLIGHT_UPDATES → watch_ok key (advance w now).
Proof.
  intros [Hk Ha Hu Hw] Hwin. split; cbn [advance w_session_id w_watch_id w_applied w_delivered w_unacked] in *; [done|lia| |].
  - rewrite fmap_app, Hu, in_flight_snoc by lia. done.
  - assert (length (w_unacked w) = Z.to_nat (w_delivered w - w_applied w)) as Hlen.
    { rewrite <-(length_fmap pu_sequence), Hu. unfold in_flight. by rewrite length_fmap, length_seq. }
    unfold vec_len in Hwin. rewrite length_app in Hwin. cbn [length] in Hwin. lia.
Qed.

Lemma update_to_own key id ev n : key.2 = id → update_to key (key.1, note id ev n) = Some (note id ev n).
Proof.
  intros <-. unfold note, update_notification. cbn [w_watch_id].
  destruct (we_kind ev); cbn [update_to]; by rewrite bool_decide_true by (by destruct key).
Qed.

Lemma deliver_followed sessions clock now ev layout t w w' sends t' key :
  watch_ok key w → deliver sessions clock now ev layout t w = Ret (w', None, sends, t') →
  watch_ok key w'
  ∧ (w_namespace w ≠ PROFILES_NAMESPACE → followed w [ev] (updates_to key sends) w').
Proof.
  intros Hok Hd. destruct (deliver_cases _ _ _ _ _ _ _ _ _ _ Hd) as [(Hm & -> & ->)|(Hm & -> & Hwin & Hs)].
  - split; [done|]. intros _.
    split; try done; rewrite filter_cons_False by (by rewrite Hm); rewrite filter_nil; cbn; [lia|constructor].
  - split; [by apply advance_ok|]. intros Hns. rewrite project_plain in Hs.
    2:{ unfold matches in Hm. reflect_bools. congruence. }
    assert (base.filter (λ e, matches w e = true) [ev] = [ev]) as Hfil by (by rewrite filter_cons_True).
    split; try done; rewrite Hfil; [cbn; lia|]. cbn [numbered].
    assert (∀ a b : Sends, a `sublist_of` b → updates_to key a `sublist_of` updates_to key b) as Hmono.
    { induction 1 as [|x a b _ IH|x a b _ IH]; [done| |]; unfold updates_to; cbn [omap list_omap];
        destruct (update_to key x); [by apply sublist_skip|done|by apply sublist_cons|done]. }
    etrans; [apply Hmono, Hs|]. unfold updates_to. cbn [omap list_omap].
    pose proof (wo_key _ _ Hok) as Hk. pose proof (update_to_own key (w_watch_id w) ev (w_delivered w + 1)) as Hu.
    rewrite Hk in Hu |- *. cbn [fst snd] in Hu. by rewrite Hu.
Qed.

(** ** All watches and one event *)

Lemma deliver_all_other sessions clock now ev layout key visit t W term sent W' term' sent' t' :
  (∀ k w, (k, w) ∈ visit → watch_ok k w) → key ∉ fst <$> visit →
  deliver_all sessions clock now ev layout t visit W term sent = Ret (W', term', sent', t') →
  W' !! key = W !! key ∧ updates_to key sent' = updates_to key sent
  ∧ (key ∈ fst <$> term' ↔ key ∈ fst <$> term).
Proof.
  revert t W term sent. induction visit as [|[k w] visit IH]; intros t W term sent Hok Hkey; cbn [deliver_all].
  { by intros [= <- <- <- <-]. }
  rewrite fmap_cons, not_elem_of_cons in Hkey. cbn [fst] in Hkey. destruct Hkey as [Hne Hkey].
  destruct (deliver _ _ _ _ _ _ w) as [[[[w1 ending] sends] t1]|] eqn:Hd; [|done]. cbn [obind]. intros H.
  destruct (IH _ _ _ _ (λ k' w' Hin, Hok k' w' (list_elem_of_further _ _ _ Hin)) Hkey H) as (H1 & H2 & H3).
  split_and!.
  - rewrite H1. by apply lookup_insert_ne.
  - rewrite H2, updates_to_app.
    rewrite (deliver_sends _ _ _ _ _ _ _ _ _ _ _ Hd key); [by rewrite app_nil_r|].
    intros ->. apply Hne. symmetry. eapply wo_key, Hok. by left.
  - rewrite H3. destruct ending; [|done]. rewrite fmap_app. cbn. set_solver.
Qed.

Lemma deliver_all_one sessions clock now ev layout key w visit t W term sent W' term' sent' t' :
  (∀ k w, (k, w) ∈ visit → watch_ok k w) → NoDup (fst <$> visit) → (key, w) ∈ visit →
  deliver_all sessions clock now ev layout t visit W term sent = Ret (W', term', sent', t') →
  ∃ w' ending sends t0 t1, deliver sessions clock now ev layout t0 w = Ret (w', ending, sends, t1)
    ∧ W' !! key = Some w' ∧ updates_to key sent' = updates_to key sent ++ updates_to key sends
    ∧ (ending ≠ None → key ∈ fst <$> term') ∧ (ending = None → key ∈ fst <$> term' ↔ key ∈ fst <$> term).
Proof.
  revert t W term sent. induction visit as [|[k w0] visit IH]; intros t W term sent Hok Hnd Hin;
    [by apply not_elem_of_nil in Hin|]. cbn [deliver_all]. rewrite fmap_cons in Hnd. cbn [fst] in Hnd.
  apply NoDup_cons in Hnd as [Hk Hnd].
  destruct (deliver _ _ _ _ _ _ w0) as [[[[w1 ending] sends] t1]|] eqn:Hd; [|done]. cbn [obind]. intros H.
  assert (∀ k w, (k, w) ∈ visit → watch_ok k w) as Hok' by (intros k' w' Hi; apply Hok; by right).
  apply elem_of_cons in Hin as [[= <- <-]|Hin].
  - destruct (deliver_all_other _ _ _ _ _ key _ _ _ _ _ _ _ _ _ Hok' Hk H) as (H1 & H2 & H3).
    exists w1, ending, sends, t, t1. split_and!; [done|by rewrite H1, lookup_insert_eq|by rewrite H2, updates_to_app| |].
    + intros Hne. apply H3. destruct ending; [|done]. rewrite fmap_app. cbn. set_solver.
    + intros ->. done.
  - assert (key ≠ k) as Hne.
    { intros ->. apply Hk. apply list_elem_of_fmap. by exists (k, w). }
    destruct (IH _ _ _ _ Hok' Hnd Hin H) as (w' & en & sn & t2 & t3 & A1 & A2 & A3 & A4 & A5).
    exists w', en, sn, t2, t3. split_and!; [done|done| |done|].
    + rewrite A3, updates_to_app, (deliver_sends _ _ _ _ _ _ _ _ _ _ _ Hd key); [by rewrite app_nil_r|].
      intros Heq. apply Hne. rewrite Heq. symmetry. eapply wo_key, Hok. by left.
    + intros Hen. rewrite (A5 Hen). destruct ending; [|done]. rewrite fmap_app. cbn. set_solver.
Qed.

Lemma terminate_all_lookup term W closed W' closed' key :
  terminate_all W term closed = (W', closed') →
  W' !! key = if bool_decide (key ∈ fst <$> term) then None else W !! key.
Proof.
  revert W closed. induction term as [|[k reason] term IH]; intros W closed; cbn [terminate_all].
  { intros [= <- <-]. by rewrite bool_decide_false by apply not_elem_of_nil. }
  intros H. rewrite (IH _ _ H), fmap_cons. cbn [fst]. destruct (decide (key = k)) as [->|Hne].
  - rewrite lookup_delete_eq, (bool_decide_true (k ∈ k :: _)) by (by left). by case_bool_decide.
  - rewrite lookup_delete_ne by done. assert (key ∈ k :: (fst <$> term) ↔ key ∈ fst <$> term) as Hiff by set_solver.
    by rewrite (bool_decide_ext _ _ Hiff).
Qed.

(** What became of a watch: it ended, or it follows the events. *)
Definition kept (key : Z * string) (W : Watches) (evs : list WatchEvent) (sent : Sends) (W' : Watches) (sent' : Sends)
    : Prop :=
  match W !! key, W' !! key with
  | None, Some _ => False
  | Some w, Some w' =>
      watch_ok key w' ∧ w_delivered w' ≤ w_delivered w + Z.of_nat (length evs)
      ∧ (w_namespace w ≠ PROFILES_NAMESPACE →
         ∃ ups, updates_to key sent' = updates_to key sent ++ ups ∧ followed w evs ups w')
  | _, None => True
  end.

Lemma kept_trans key W evs sent W1 sent1 evs2 W2 sent2 :
  kept key W evs sent W1 sent1 → kept key W1 evs2 sent1 W2 sent2 → kept key W (evs ++ evs2) sent W2 sent2.
Proof.
  unfold kept. destruct (W !! key) as [w|], (W1 !! key) as [w1|], (W2 !! key) as [w2|]; try done.
  intros (_ & Hd1 & H1) (Hok2 & Hd2 & H2). split; [done|]. split; [rewrite length_app; lia|].
  intros Hns. destruct (H1 Hns) as (u1 & Hu1 & Hf1). destruct H2 as (u2 & Hu2 & Hf2).
  { by rewrite (fo_namespace _ _ _ _ Hf1). }
  exists (u1 ++ u2). split; [by rewrite Hu2, Hu1, app_assoc|]. by eapply followed_trans.
Qed.

Lemma event_kept sessions clock now ev layout t W sent W1 term sent1 t1 closed W2 closed2 key :
  (∀ k w, W !! k = Some w → watch_ok k w) →
  deliver_all sessions clock now ev layout t (watch_iter W) W [] sent = Ret (W1, term, sent1, t1) →
  terminate_all W1 term closed = (W2, closed2) → kept key W [ev] sent W2 sent1.
Proof.
  intros Hok Hd Ht. unfold kept. rewrite (terminate_all_lookup _ _ _ _ _ key Ht).
  assert (∀ k w, (k, w) ∈ watch_iter W → watch_ok k w) as Hokv.
  { intros k w. rewrite watch_iter_perm. intros Hin%elem_of_map_to_list. by apply Hok. }
  destruct (W !! key) as [w|] eqn:Hw.
  - destruct (deliver_all_one sessions clock now ev layout key w (watch_iter W) t W [] sent W1 term sent1 t1)
      as (w' & ending & sends & t2 & t3 & A1 & A2 & A3 & A4 & A5); [done| | |done|].
    { rewrite watch_iter_perm. apply NoDup_fst_map_to_list. }
    { rewrite watch_iter_perm. by apply elem_of_map_to_list. }
    destruct ending as [reason|].
    { by rewrite bool_decide_true by (by apply A4). }
    rewrite bool_decide_false by (rewrite (A5 eq_refl); apply not_elem_of_nil). rewrite A2.
    destruct (deliver_followed _ _ _ _ _ _ _ _ _ _ key (Hok _ _ Hw) A1) as [Hok' Hf]. split; [done|]. split.
    + destruct (deliver_cases _ _ _ _ _ _ _ _ _ _ A1) as [(_ & -> & _)|(_ & -> & _)]; cbn; lia.
    + intros Hns. exists (updates_to key sends). by split; [|apply Hf].
  - destruct (deliver_all_other sessions clock now ev layout key (watch_iter W) t W [] sent W1 term sent1 t1)
      as (A1 & A2 & A3); [done| |done|].
    { rewrite watch_iter_perm. intros ([k w] & -> & Hin%elem_of_map_to_list)%list_elem_of_fmap. cbn in Hw. congruence. }
    rewrite A1, Hw. by case_bool_decide.
Qed.

Lemma kept_ok W evs sent W' sent' :
  (∀ key, kept key W evs sent W' sent') → (∀ k w, W' !! k = Some w → watch_ok k w).
Proof. intros Hk k w Hw. specialize (Hk k). unfold kept in Hk. rewrite Hw in Hk. by destruct (W !! k); [destruct Hk|]. Qed.

Lemma publish_each_kept evs sessions clock now t W closed sent W' closed' sent' t' :
  (∀ k w, W !! k = Some w → watch_ok k w) →
  publish_each sessions clock now evs t W closed sent = Ret (W', closed', sent', t') →
  ∀ key, kept key W evs sent W' sent'.
Proof.
  revert t W closed sent. induction evs as [|ev evs IH]; intros t W closed sent Hok; cbn [publish_each].
  { intros [= <- <- <- <-] key. unfold kept. destruct (W !! key) as [w|] eqn:Hw; [|done].
    split; [by apply Hok|]. split; [cbn; lia|]. intros _. exists []. split; [by rewrite app_nil_r|apply followed_refl]. }
  destruct (deliver_all _ _ _ _ _ _ _ _ _ _) as [[[[W1 term] sent1] t1]|] eqn:Hd; [|done]. cbn [obind].
  destruct (terminate_all W1 term closed) as [W2 closed2] eqn:Ht. intros H key.
  pose proof (λ k, event_kept _ _ _ _ _ _ _ _ _ _ _ _ _ _ _ k Hok Hd Ht) as H1.
  apply (kept_trans key W [ev] sent W2 sent1); [apply H1|]. by apply (IH _ _ _ _ (kept_ok _ _ _ _ _ H1) H).
Qed.

Lemma send_closed_updates key closed t sent sent' t' :
  send_closed t closed sent = (sent', t') → updates_to key sent' = updates_to key sent.
Proof.
  revert t sent. induction closed as [|[w reason] closed IH]; intros t sent; cbn [send_closed].
  { by intros [= <- <-]. }
  destruct (enqueue _ _ _) as [outcome t1]. intros H. rewrite (IH _ _ H). case_bool_decide; [|done].
  rewrite updates_to_app. cbn. by rewrite app_nil_r.
Qed.

Lemma publish_kept sessions clock W evs overflowed now t sent W' t' :
  (∀ k w, W !! k = Some w → watch_ok k w) →
  publish sessions clock W evs overflowed now t = Ret (sent, W', t') →
  ∀ key, kept key W evs [] W' sent ∧ (overflowed = true → W' !! key = None).
Proof.
  intros Hok. unfold publish.
  set (start := if overflowed then _ else _).
  assert (∀ k, start.1 !! k = if overflowed then None else W !! k) as Hstart.
  { intros k. unfold start. by destruct overflowed. }
  destruct start as [W0 closed]. cbn [fst] in Hstart.
  destruct (publish_each _ _ _ _ _ _ _ _) as [[[[W1 closed1] sent1] t1]|] eqn:Hp; [|done]. cbn [obind].
  destruct (send_closed t1 closed1 sent1) as [sent2 t2] eqn:Hc. intros [= <- <- <-] key.
  assert (∀ k w, W0 !! k = Some w → watch_ok k w) as Hok0.
  { intros k w. rewrite Hstart. destruct overflowed; [done|]. apply Hok. }
  pose proof (publish_each_kept _ _ _ _ _ _ _ _ _ _ _ _ Hok0 Hp key) as Hk. unfold kept in *.
  rewrite Hstart in Hk. rewrite (send_closed_updates key _ _ _ _ _ Hc). destruct overflowed.
  - destruct (W1 !! key); [done|]. split; [by destruct (W !! key)|done].
  - by split.
Qed.

(** ** Publishing returns *)

Lemma deliver_returns sessions clock now ev layout t w :
  w_delivered w < u64_max → ∃ r, deliver sessions clock now ev layout t w = Ret r.
Proof.
  intros Hd. unfold deliver. repeat (case_match; [by eexists|]).
  assert (plain_add u64_max (w_delivered w) 1 = Ret (w_delivered w + 1)) as ->.
  { unfold plain_add. by rewrite (proj2 (Z.leb_le _ _)) by lia. }
  cbn [obind]. case_match; [by eexists|]. destruct (enqueue _ _ _) as [[] t1]; by eexists.
Qed.

Lemma deliver_all_returns sessions clock now ev layout visit t W term sent :
  (∀ k w, (k, w) ∈ visit → w_delivered w < u64_max) →
  ∃ r, deliver_all sessions clock now ev layout t visit W term sent = Ret r.
Proof.
  revert t W term sent. induction visit as [|[k w] visit IH]; intros t W term sent Hv; cbn [deliver_all]; [by eexists|].
  destruct (deliver_returns sessions clock now ev layout t w) as [[[[w1 ending] sends] t1] ->];
    [apply (Hv k w); by left|]. cbn [obind]. apply IH. intros k' w' Hin. apply (Hv k' w'). by right.
Qed.

Lemma publish_each_returns evs sessions clock now t W closed sent :
  (∀ k w, W !! k = Some w → watch_ok k w ∧ w_delivered w + Z.of_nat (length evs) ≤ u64_max) →
  ∃ r, publish_each sessions clock now evs t W closed sent = Ret r.
Proof.
  revert t W closed sent. induction evs as [|ev evs IH]; intros t W closed sent Hw; cbn [publish_each]; [by eexists|].
  set (layout := match validate_namespace _ with Ok l => _ | Err _ => _ end).
  destruct (deliver_all_returns sessions clock now ev layout (watch_iter W) t W [] sent)
    as [[[[W1 term] sent1] t1] Hd].
  { intros k w. rewrite watch_iter_perm. intros Hin%elem_of_map_to_list. destruct (Hw k w Hin) as [_ Hle].
    cbn [length] in Hle. lia. }
  rewrite Hd. cbn [obind]. destruct (terminate_all W1 term closed) as [W2 closed2] eqn:Ht. apply IH.
  intros k w Hk. pose proof (event_kept _ _ _ _ _ _ _ _ _ _ _ _ _ _ _ k (λ k w H, proj1 (Hw k w H)) Hd Ht) as Hkept.
  unfold kept in Hkept. rewrite Hk in Hkept. destruct (W !! k) as [w0|] eqn:Hw0; [|done].
  destruct Hkept as (Hok & Hle & _). destruct (Hw k w0 Hw0) as [_ Hle0]. cbn [length] in *. split; [done|lia].
Qed.

Lemma publish_returns sessions clock W evs overflowed now t :
  (∀ k w, W !! k = Some w → watch_ok k w ∧ w_delivered w + Z.of_nat (length evs) ≤ u64_max) →
  ∃ r, publish sessions clock W evs overflowed now t = Ret r.
Proof.
  intros Hw. unfold publish. destruct overflowed.
  - destruct (publish_each_returns evs sessions clock now t ∅
      ((λ kw : Z * string * Watch, (mk_watch (w_session_id kw.2) (w_watch_id kw.2) (w_namespace kw.2)
         (w_key_prefix kw.2) (w_delivered kw.2) (w_applied kw.2) [], BufferOverflow)) <$> watch_iter W) [])
      as [[[[W1 closed1] sent1] t1] ->]; [by intros k w|]. cbn [obind]. destruct (send_closed _ _ _). by eexists.
  - destruct (publish_each_returns evs sessions clock now t W [] [] Hw) as [[[[W1 closed1] sent1] t1] ->].
    cbn [obind]. destruct (send_closed _ _ _). by eexists.
Qed.

End publish.

(** * What the events of the state store say

    The registry reports its changes as events: an expiration for every entry that ran
    out, and the change a request made itself.  Applied in order to the entries of a
    namespace as they were, the events give the entries as they are, unless the list of
    expirations overflowed. *)



Definition entries (r : Registry) (ns : string) : gmap string StoredRecord :=
  match namespaces r !! ns with Some st => ns_entries st | None => ∅ end.

(** One event on the entries of the namespace [ns]. *)
Definition apply_event (ns : string) (m : gmap string StoredRecord) (ev : WatchEvent) : gmap string StoredRecord :=
  if str_eqb (we_namespace ev) ns
  then match we_kind ev with
       | EvPut e => <[we_key ev := record_of e]> m
       | EvDelete | EvExpire => delete (we_key ev) m
       end
  else m.
Definition apply_events (ns : string) (m : gmap string StoredRecord) (evs : list WatchEvent) : gmap string StoredRecord :=
  foldl (apply_event ns) m evs.

Lemma find_record_entries r ns key : find_record r ns key = entries r ns !! key.
Proof. unfold find_record, entries. by destruct (namespaces r !! ns). Qed.

Lemma entries_insert m p o b ns st ns' :
  entries (mk_registry (<[ns := st]> m) p o b) ns' =
    if str_eqb ns ns' then ns_entries st else entries (mk_registry m p o b) ns'.
Proof.
  unfold entries, str_eqb. cbn [namespaces]. case_bool_decide as H; [subst; by rewrite lookup_insert_eq|].
  by rewrite lookup_insert_ne.
Qed.

(** [r'] is [r] after some expirations, which its pending list has unless it overflowed. *)
Definition reported (r r' : Registry) : Prop :=
  pending_overflowed r' = false → pending_overflowed r = false ∧
    ∃ news, pending r' = pending r ++ news
      ∧ ∀ ns, entries r' ns = apply_events ns (entries r ns) (expire_event <$> news).

#[global] Instance reported_refl : Reflexive reported.
Proof. intros r Ho. split; [done|]. exists []. by rewrite app_nil_r. Qed.
#[global] Instance reported_trans : Transitive reported.
Proof.
  intros r1 r2 r3 H12 H23 Ho. destruct (H23 Ho) as [Ho2 (l2 & Hp2 & He2)].
  destruct (H12 Ho2) as [Ho1 (l1 & Hp1 & He1)]. split; [done|]. exists (l1 ++ l2).
  split; [by rewrite Hp2, Hp1, app_assoc|]. intros ns. unfold apply_events in *. by rewrite fmap_app, foldl_app, He2, He1.
Qed.

(** Removing a key and reporting it. *)
Lemma reported_push r ns st rev key rec b x :
  namespaces r !! ns = Some st → ns_entries st !! key = Some rec → xe_namespace x = ns → xe_key x = key →
  reported r (push_pending (mk_registry (<[ns := mk_namespace rev (delete key (ns_entries st))]> (namespaces r))
    (pending r) (pending_overflowed r) b) x).
Proof.
  intros Hst Hk <- <- Ho. set (r1 := mk_registry _ _ _ _) in *.
  destruct (push_pending_fields r1 x) as (Hn & _ & _ & Hp). destruct (Hp Ho) as [Ho1 Hp1]. split; [done|].
  exists [x]. split; [done|]. intros n. unfold apply_events. cbn [fmap list_fmap foldl].
  transitivity (entries r1 n); [unfold entries; by rewrite Hn|]. unfold r1. rewrite entries_insert. unfold apply_event.
  cbn [we_namespace we_key we_kind expire_event]. unfold str_eqb. case_bool_decide as He; [|done]. subst n. cbn [ns_entries].
  unfold entries. by rewrite Hst.
Qed.

Section events.
Context `{S : StoreEnv} {SL : StoreLaws S}.

Lemma expire_key_reported r ns key now r' : expire_key_if_due r ns key now = Ret r' → reported r r'.
Proof.
  intros H. destruct (expire_key_spec r ns key now) as [[_ He]|(st & rec & Hst & Hk & _ & He)];
    rewrite He in H; [by simplify_eq|].
  destruct (next_revision _) as [rev|]; [|done]. cbn [obind] in H. injection H as <-. by eapply reported_push.
Qed.

Lemma expire_all_reported l r now r' : expire_all r l now = Ret r' → reported r r'.
Proof.
  revert r. induction l as [|[ns key] l IH]; intros r; cbn [expire_all]; [by intros [= <-]|].
  destruct (expire_key_if_due r ns key now) as [r1|] eqn:H1; [|done]. cbn [obind]. intros H.
  transitivity r1; [by eapply expire_key_reported|by apply IH].
Qed.

Lemma admit_key_reported r ns now a r' : admit_key r ns now = Ret (a, r') → reported r r'.
Proof.
  unfold admit_key. case_bool_decide; [by intros [= _ <-]|]. unfold reclaim_namespace.
  destruct (expire_all _ _ _) as [r1|] eqn:H1; [|done]. cbn [obind]. destruct (namespaces r1 !! ns); [|done].
  intros [= _ <-]. by eapply expire_all_reported.
Qed.

(** A put that succeeds: expirations, then the entry it returns. *)
Lemma put_reported r ns key schema value expected ttl owner admin now e r' :
  put r ns key schema value expected ttl owner admin now = Ret (Ok e, r') →
  ∃ r1, reported r r1 ∧ pending r' = pending r1 ∧ pending_overflowed r' = pending_overflowed r1
    ∧ se_namespace e = ns ∧ se_key e = key
    ∧ ∀ n, entries r' n = if str_eqb ns n then <[key := record_of e]> (entries r1 n) else entries r1 n.
Proof.
  unfold put. destruct (put_request _ _ _ _ _ _ _ _) as [[v x]|]; [|done].
  destruct (expire_key_if_due r ns key now) as [r1|] eqn:H1; [|done]. cbn [obind].
  destruct (check_expected _ _); [|done].
  set (adm := match _ with Some _ => _ | None => _ end).
  assert (∀ a r2, adm = Ret (a, r2) → reported r r2) as Hrep.
  { intros adm0 r2 Ha. transitivity r1; [by eapply expire_key_reported|]. unfold adm in Ha.
    destruct (sr_revision <$> _); [by simplify_eq|by eapply admit_key_reported]. }
  clearbody adm. destruct adm as [[[[]|] r2]|]; [|done|done]. cbn [obind]. unfold store_record.
  destruct (_ <? _); [done|]. destruct (next_revision _) as [rev|]; [|done]. cbn [obind]. intros [= <- <-].
  exists r2. split_and!; [by eapply Hrep|done|done|done|done|]. intros n. rewrite entries_insert. unfold str_eqb.
  case_bool_decide; [|done]. subst n. cbn [ns_entries]. unfold entries. by destruct (namespaces r2 !! ns).
Qed.

Lemma delete_reported r ns key expected owner admin now rev r' :
  delete_entry r ns key expected owner admin now = Ret (Ok rev, r') →
  ∃ r1, reported r r1 ∧ pending r' = pending r1 ∧ pending_overflowed r' = pending_overflowed r1
    ∧ ∀ n, entries r' n = if str_eqb ns n then delete key (entries r1 n) else entries r1 n.
Proof.
  unfold delete_entry. destruct (delete_request _ _ _ _); [|done].
  destruct (expire_key_if_due r ns key now) as [r1|] eqn:H1; [|done]. cbn [obind].
  destruct (namespaces r1 !! ns) as [st|] eqn:Hst; [|done]. destruct (check_expected _ _); [|done].
  destruct (ns_entries st !! key) as [rec|]; [|done]. destruct (next_revision _) as [v|]; [|done]. cbn [obind].
  intros [= <- <-]. exists r1. split_and!; [by eapply expire_key_reported|done|done|]. intros n.
  rewrite entries_insert. unfold str_eqb. case_bool_decide; [|done]. subst n. cbn [ns_entries].
  unfold entries. by rewrite Hst.
Qed.

(** ** Revisions and entries together *)

(** Every namespace has at most [b] revisions used or needed to expire what it holds. *)
Definition spent (r : Registry) (b : Z) : Prop :=
  ∀ ns st, namespaces r !! ns = Some st → ns_revision st + Z.of_nat (size (ns_entries st)) ≤ b.

Lemma spent_mono r b b' : b ≤ b' → spent r b → spent r b'.
Proof. intros Hle H ns st Hst. specialize (H ns st Hst). lia. Qed.

Lemma expire_all_spent l r now r' b : spent r b → expire_all r l now = Ret r' → spent r' b.
Proof.
  intros Hs H ns st Hst. pose proof (expire_all_sizes _ _ _ _ ns H) as Hsz. rewrite Hst in Hsz.
  destruct (namespaces r !! ns) as [st0|] eqn:H0; [|done]. specialize (Hs ns st0 H0). lia.
Qed.
Lemma expire_key_spent r ns key now r' b : spent r b → expire_key_if_due r ns key now = Ret r' → spent r' b.
Proof.
  intros Hs H. apply (expire_all_spent [(ns, key)] r now r' b Hs). cbn [expire_all]. by rewrite H.
Qed.

Lemma put_spent r ns key schema value expected ttl owner admin now e r' b :
  0 ≤ b → spent r b → put r ns key schema value expected ttl owner admin now = Ret (Ok e, r') → spent r' (b + 2).
Proof.
  intros Hb Hs. unfold put. destruct (put_request _ _ _ _ _ _ _ _) as [[v x]|]; [|done].
  destruct (expire_key_if_due r ns key now) as [r1|] eqn:H1; [|done]. cbn [obind].
  pose proof (expire_key_spent _ _ _ _ _ _ Hs H1) as Hs1.
  destruct (check_expected _ _); [|done]. set (adm := match _ with Some _ => _ | None => _ end).
  assert (∀ a r2, adm = Ret (a, r2) → spent r2 b) as Hrep.
  { intros adm0 r2. unfold adm. destruct (sr_revision <$> _); [by intros [= <- <-]|]. unfold admit_key.
    case_bool_decide; [by intros [= _ <-]|]. unfold reclaim_namespace. destruct (expire_all _ _ _) as [r3|] eqn:H3; [|done].
    cbn [obind]. destruct (namespaces r3 !! ns); [|done]. intros [= _ <-]. by eapply expire_all_spent. }
  clearbody adm. destruct adm as [[[[]|] r2]|]; [|done|done]. specialize (Hrep _ _ eq_refl). cbn [obind]. unfold store_record.
  destruct (_ <? _); [done|]. destruct (next_revision _) as [rev|] eqn:Hr; [|done]. apply next_revision_Ret in Hr as [-> _].
  cbn [obind]. intros [= <- <-] n st. cbn [namespaces]. destruct (decide (n = ns)) as [->|Hne].
  - rewrite lookup_insert_eq. intros [= <-]. cbn [ns_revision ns_entries]. specialize (Hrep ns).
    destruct (namespaces r2 !! ns) as [st|]; cbn [unwrap_or ns_revision ns_entries namespace_default].
    + specialize (Hrep st eq_refl). rewrite map_size_insert. destruct (_ !! key); cbn; lia.
    + rewrite map_size_insert, lookup_empty, map_size_empty. cbn. lia.
  - rewrite lookup_insert_ne by done. intros Hst. specialize (Hrep n st Hst). lia.
Qed.

Lemma delete_spent r ns key expected owner admin now rev r' b :
  spent r b → delete_entry r ns key expected owner admin now = Ret (Ok rev, r') → spent r' b.
Proof.
  intros Hs. unfold delete_entry. destruct (delete_request _ _ _ _); [|done].
  destruct (expire_key_if_due r ns key now) as [r1|] eqn:H1; [|done]. cbn [obind].
  pose proof (expire_key_spent _ _ _ _ _ _ Hs H1) as Hs1.
  destruct (namespaces r1 !! ns) as [st|] eqn:Hst; [|done]. destruct (check_expected _ _); [|done].
  destruct (ns_entries st !! key) as [rec|] eqn:Hk; [|done]. destruct (next_revision _) as [v|] eqn:Hr; [|done].
  apply next_revision_Ret in Hr as [-> _]. cbn [obind]. intros [= <- <-] n st'. cbn [namespaces].
  destruct (decide (n = ns)) as [->|Hne].
  - rewrite lookup_insert_eq. intros [= <-]. cbn [ns_revision ns_entries]. specialize (Hs1 ns st Hst).
    pose proof (size_delete_found _ _ _ Hk). lia.
  - rewrite lookup_insert_ne by done. apply Hs1.
Qed.

End events.
