(* ===== verification/StateRun.v ===== *)
(** * Runs of the state store

    A [Step] is a request, the sweeper, a change of the sessions or of the transport, or
    what a module of an adapter namespace does to the shared watches.  Every step keeps
    the registry within its quotas, the database in step with it and the watches in
    order; the steps of a run never panic. *)

From S2P Require Import Prelude StateSchema StateStore StateStoreInv StateDurable StateSync StateRestore StateRestoreInv StateWatch StateServer StateWatchInv.

Section run.
Context `{S : StoreEnv} {SL : StoreLaws S} `{E : DatabaseEnv} {DL : DatabaseLaws S E}
  `{V : ServerEnv} {VL : ServerLaws V}.

Inductive Step :=
| SRequest (session_id : Z) (p : Principal) (action : Action) (busy : bool) (clock : Clock) (io : Io)
| SSweep (clock : Clock) (io : Io)
| SAdapterEvent (event : WatchEvent) (clock : Clock)
| SAdapterWatch (session_id : Z) (namespace key_prefix watch_id : string)
| SCloseSession (session_id : Z)
| SSessions (sessions : gmap Z ApiSession)
| STransport (t : Transport).

Definition Outcome : Type := ServerState * Sends * option (result ControlCommandError StateStoreResult).

(** Requests of adapter namespaces are not steps of the store, and adapters publish
    nothing else. *)
Definition step (s : ServerState) (st : Step) : outcome Outcome :=
  match st with
  | SRequest session p action busy clock io =>
      if is_some_and is_adapter_namespace (command_namespace action) then Ret (s, [], None)
      else
        let! (reply, s, sent, io) := dispatch s session p action busy clock io in
        Ret (s, sent, Some reply)
  | SSweep clock io =>
      let! (s, sent, io) := expire_state_store_watches s clock io in
      Ret (s, sent, None)
  | SAdapterEvent event clock =>
      if is_adapter_namespace (we_namespace event)
      then let! (sent, s) := publish_events s (Some event) [] false clock in Ret (s, sent, None)
      else Ret (s, [], None)
  | SAdapterWatch session namespace prefix id =>
      if is_adapter_namespace namespace
      then Ret (with_watches s (register (sv_watches s) session namespace prefix id).2, [], None)
      else Ret (s, [], None)
  | SCloseSession session => Ret (with_watches s (close_session (sv_watches s) session), [], None)
  | SSessions sessions =>
      Ret (mk_server (sv_registry s) (sv_durable s) (sv_watches s) sessions (sv_transport s), [], None)
  | STransport t =>
      Ret (mk_server (sv_registry s) (sv_durable s) (sv_watches s) (sv_sessions s) t, [], None)
  end.

Fixpoint run (s : ServerState) (steps : list Step) : outcome (ServerState * Sends) :=
  match steps with
  | [] => Ret (s, [])
  | st :: steps' =>
      let! (s, sent, reply) := step s st in
      let! (s, sent') := run s steps' in
      Ret (s, sent ++ sent')
  end.

(** An event with an entry is about that entry. *)
Definition event_ok (ev : WatchEvent) : Prop :=
  match we_kind ev with
  | EvPut e => se_namespace e = we_namespace ev ∧ se_key e = we_key ev
  | _ => True
  end.

(** Clocks are Unix times and principals have short names; an adapter publishes
    entries under their own name. *)
Definition step_ok (st : Step) : Prop :=
  match st with
  | SRequest _ p _ _ clock _ => 0 ≤ c_now_ms clock ∧ str_len (p_id p) ≤ 256
  | SAdapterEvent event _ => event_ok event
  | _ => True
  end.

(** The steps that register the watch [key] anew. *)
Definition registers (key : Z * string) (st : Step) : bool :=
  match st with
  | SRequest session _ (ActWatch _ _ id) _ _ _ | SAdapterWatch session _ _ id => bool_decide (key = (session, id))
  | _ => false
  end.

(** ** The invariant *)

(** At most [b] revisions of any namespace and [D] updates of any watch are used. *)
Record server_ok (s : ServerState) (b D : Z) : Prop := {
  so_registry : registry_ok (sv_registry s);
  so_quiet : pending (sv_registry s) = [] ∧ pending_overflowed (sv_registry s) = false;
  so_durable : ∃ d, sv_durable s = Some d ∧ in_step (sv_registry s) d;
  so_watches : watches_ok (sv_watches s);
  so_delivered : ∀ key w, sv_watches s !! key = Some w → w_delivered w ≤ D;
  so_spent : spent (sv_registry s) b
}.

Lemma server_ok_mono s b D b' D' : b ≤ b' → D ≤ D' → server_ok s b D → server_ok s b' D'.
Proof.
  intros Hb HD [H1 H2 H3 H4 H5 H6]. split; try done.
  - intros key w Hw. specialize (H5 key w Hw). lia.
  - by apply (spent_mono _ b).
Qed.

(** What a step was for a watch: either it ended, or the events of the step changed the
    entries and were sent to it. *)
Record advanced (key : Z * string) (s : ServerState) (evs : list WatchEvent) (sent : Sends) (s' : ServerState) : Prop := {
  ad_kept : kept key (sv_watches s) evs [] (sv_watches s') sent;
  ad_entries : is_Some (sv_watches s' !! key) → ∀ ns, is_adapter_namespace ns = false →
    entries (sv_registry s') ns = apply_events ns (entries (sv_registry s) ns) evs;
  ad_events : Forall event_ok evs
}.

Lemma kept_shift key W evs W' sent pre :
  kept key W evs [] W' sent → kept key W evs pre W' (pre ++ sent).
Proof.
  unfold kept. destruct (W !! key), (W' !! key); try done. intros (H1 & H2 & H3). split_and!; [done|done|].
  intros Hns. destruct (H3 Hns) as (ups & Hu & Hf). exists ups. rewrite updates_to_app, Hu. done.
Qed.

Lemma advanced_trans key s evs sent s1 evs1 sent1 s2 :
  advanced key s evs sent s1 → advanced key s1 evs1 sent1 s2 → advanced key s (evs ++ evs1) (sent ++ sent1) s2.
Proof.
  intros [K1 E1 F1] [K2 E2 F2]. split.
  - eapply kept_trans; [done|]. by apply kept_shift.
  - intros Hs ns Hns. unfold apply_events in *. rewrite foldl_app, E2 by done. f_equal. apply E1; [|done].
    unfold kept in K2. destruct Hs as [w2 Hw2]. rewrite Hw2 in K2. by destruct (sv_watches s1 !! key).
  - by apply Forall_app.
Qed.

(** Steps that touch neither the entries nor the other watches. *)
Lemma advanced_same key s s' :
  watches_ok (sv_watches s') → sv_registry s' = sv_registry s →
  match sv_watches s !! key, sv_watches s' !! key with
  | Some w, Some w' => w_session_id w' = w_session_id w ∧ w_watch_id w' = w_watch_id w ∧ w_namespace w' = w_namespace w
      ∧ w_key_prefix w' = w_key_prefix w ∧ w_delivered w' = w_delivered w
  | None, Some _ => False
  | _, None => True
  end → advanced key s [] [] s'.
Proof.
  intros Hok Hr Hw. split; [|by rewrite Hr|constructor]. unfold kept.
  destruct (sv_watches s !! key) as [w|], (sv_watches s' !! key) as [w'|] eqn:Hw'; try done.
  destruct Hw as (H1 & H2 & H3 & H4 & H5). split_and!; [by apply Hok|cbn; lia|]. intros _. exists []. split; [done|].
  split; try done. cbn. lia.
Qed.
End run.

(** * Every step of the state store keeps the invariant

    Requests and the sweeper end in [publish_events]: what it does to the watches, then
    each handler in turn. *)



(** The most events published at once, and in one step. *)
Definition PUBLISH_EVENTS : Z := MAX_PENDING_EXPIRIES + 1.
Definition STEP_EVENTS : Z := 2 * PUBLISH_EVENTS.

Section steps.
Context `{S : StoreEnv} {SL : StoreLaws S} `{E : DatabaseEnv} {DL : DatabaseLaws S E}
  `{V : ServerEnv} {VL : ServerLaws V}.

Definition events_of (expired : list ExpiredEntry) (direct : option WatchEvent) : list WatchEvent :=
  (expire_event <$> expired) ++ match direct with Some event => [event] | None => [] end.

Lemma kept_watches W evs sent W' sent' :
  watches_ok W → (∀ key, kept key W evs sent W' sent') → watches_ok W'.
Proof.
  intros Hok Hk. apply (watches_ok_sub W); [done| |by eapply kept_ok].
  intros key [w' Hw']%elem_of_dom. apply elem_of_dom. specialize (Hk key). unfold kept in Hk. rewrite Hw' in Hk.
  by destruct (W !! key).
Qed.

Lemma publish_events_spec s direct expired ov clock D :
  watches_ok (sv_watches s) → (∀ key w, sv_watches s !! key = Some w → w_delivered w ≤ D) →
  vec_len expired ≤ MAX_PENDING_EXPIRIES → D + PUBLISH_EVENTS ≤ u64_max →
  ∃ sent s', publish_events s direct expired ov clock = Ret (sent, s')
    ∧ sv_registry s' = sv_registry s ∧ sv_durable s' = sv_durable s ∧ sv_sessions s' = sv_sessions s
    ∧ watches_ok (sv_watches s') ∧ (∀ key w, sv_watches s' !! key = Some w → w_delivered w ≤ D + PUBLISH_EVENTS)
    ∧ ∀ key, kept key (sv_watches s) (events_of expired direct) [] (sv_watches s') sent
        ∧ (ov = true → sv_watches s' !! key = None).
Proof.
  intros Hok HD Hlen Hmax. unfold publish_events. fold (events_of expired direct).
  assert (Z.of_nat (length (events_of expired direct)) ≤ PUBLISH_EVENTS) as Hevs.
  { unfold events_of, PUBLISH_EVENTS, vec_len in *. rewrite length_app, length_fmap. destruct direct; cbn [length]; lia. }
  destruct (publish_returns (sv_sessions s) clock (sv_watches s) (events_of expired direct) ov (c_now_ms clock) (sv_transport s))
    as [[[sent W'] t'] Hp].
  { intros k w Hw. split; [by apply Hok|]. specialize (HD k w Hw). lia. }
  pose proof (publish_kept _ _ _ _ _ _ _ _ _ _ (wso_each _ Hok) Hp) as Hk. rewrite Hp. cbn [obind].
  eexists _, _. split; [done|]. cbn [sv_registry sv_durable sv_sessions sv_watches]. split_and!; [done|done|done| | |done].
  - apply (kept_watches (sv_watches s) (events_of expired direct) [] _ sent); [done|apply Hk].
  - intros key w Hw. destruct (Hk key) as [Hkk _]. unfold kept in Hkk. rewrite Hw in Hkk.
    destruct (sv_watches s !! key) as [w0|] eqn:Hw0; [|done]. destruct Hkk as (_ & Hle & _). specialize (HD key w0 Hw0). lia.
Qed.

(** Both copies have moved to [r] and [d]; the events of [r] go out. *)
Lemma drain_and_publish_spec s r d direct clock b D :
  server_ok s b D → D + PUBLISH_EVENTS ≤ u64_max → registry_ok r → in_step r d → ∀ b', spent r b' →
  (pending_overflowed r = false → ∀ ns, entries r ns =
     apply_events ns (entries (sv_registry s) ns) (events_of (pending r) direct)) →
  (∀ ev, direct = Some ev → event_ok ev) →
  ∃ sent s', drain_and_publish s r (Some d) direct clock = Ret (sent, s')
    ∧ server_ok s' b' (D + PUBLISH_EVENTS) ∧ sv_sessions s' = sv_sessions s ∧ sv_registry s' = (drain_pending r).2
    ∧ ∀ key, advanced key s (events_of (pending r) direct) sent s'.
Proof.
  intros [_ _ _ Hw HD _] Hmax Hok Hstep b' Hspent Hent Hev. unfold drain_and_publish. cbn [drain_pending].
  destruct (publish_events_spec (mk_server (drain_pending r).2 (Some d) (sv_watches s) (sv_sessions s) (sv_transport s))
    direct (pending r) (pending_overflowed r) clock D) as (sent & s' & Hp & Hr & Hd & Hses & Hw' & HD' & Hk);
    [done|done|by apply ro_pending|done|].
  cbn [drain_pending snd] in Hp. rewrite Hp. cbn [sv_registry sv_durable sv_sessions sv_watches] in *.
  exists sent, s'. split; [done|]. split_and!; [|done|done|].
  - split; rewrite ?Hr; [by apply registry_ok_drained|done| |done|done|].
    + exists d. split; [done|]. destruct Hstep as [Hs Hb]. split; [|done]. by apply (same_db_contents r).
    + exact Hspent.
  - intros key. destruct (Hk key) as [Hkk Hov]. split; [done| |].
    + intros [w Hw1] ns _. destruct (pending_overflowed r) eqn:Ho; [rewrite Hov in Hw1; done|].
      rewrite <-(Hent eq_refl). by rewrite Hr.
    + unfold events_of. apply Forall_app. split.
      * apply Forall_fmap, Forall_true. done.
      * destruct direct as [ev|]; [|constructor]. apply Forall_singleton. by apply Hev.
Qed.

(** Expirations only. *)
Lemma reported_events s r b D :
  server_ok s b D → reported (sv_registry s) r → pending_overflowed r = false →
  ∀ ns, entries r ns = apply_events ns (entries (sv_registry s) ns) (events_of (pending r) None).
Proof.
  intros [_ [Hp _] _ _ _ _] Hrep Ho ns. destruct (Hrep Ho) as [_ (news & Hp' & He)].
  unfold events_of. by rewrite app_nil_r, Hp', Hp.
Qed.

(** Expirations, then the change of the request itself. *)
Lemma direct_events s r r' ev b D :
  server_ok s b D → reported (sv_registry s) r → pending r' = pending r → pending_overflowed r' = pending_overflowed r →
  (∀ ns, entries r' ns = apply_event ns (entries r ns) ev) → pending_overflowed r' = false →
  ∀ ns, entries r' ns = apply_events ns (entries (sv_registry s) ns) (events_of (pending r') (Some ev)).
Proof.
  intros Hs Hrep Hp Ho He Hov ns. rewrite He, Hp. unfold events_of, apply_events. rewrite foldl_app. cbn [foldl]. f_equal.
  rewrite (reported_events s r b D Hs Hrep) by congruence. unfold events_of, apply_events. by rewrite app_nil_r.
Qed.

(** ** Steps *)

(** A step that returns keeps the invariant and advances every watch it does not
    register. *)
Definition step_sound (s : ServerState) (b D : Z) (reg : Z * string → bool) (s' : ServerState) (sent : Sends) : Prop :=
  server_ok s' (b + 2) (D + STEP_EVENTS)
  ∧ ∀ key, reg key = false → ∃ evs, advanced key s evs sent s'.

Definition sound {A : Type} (s : ServerState) (b D : Z) (reg : Z * string → bool)
    (get : A → ServerState * Sends) (m : outcome A) : Prop :=
  ∃ a, m = Ret a ∧ step_sound s b D reg (get a).1 (get a).2.

Definition reply_state (r : Reply) : ServerState * Sends := (r.1.1.2, r.1.2).

Lemma same_sound s b D reg s' :
  server_ok s b D → sv_registry s' = sv_registry s → sv_durable s' = sv_durable s → watches_ok (sv_watches s') →
  (∀ key w, sv_watches s' !! key = Some w → reg key = false →
     ∃ w0, sv_watches s !! key = Some w0 ∧ w_session_id w = w_session_id w0 ∧ w_watch_id w = w_watch_id w0
       ∧ w_namespace w = w_namespace w0 ∧ w_key_prefix w = w_key_prefix w0 ∧ w_delivered w = w_delivered w0) →
  (∀ key w, sv_watches s' !! key = Some w → w_delivered w ≤ D + STEP_EVENTS) →
  step_sound s b D reg s' [].
Proof.
  intros [H1 H2 H3 H4 H5 H6] Hr Hd Hw Hkey HD. split.
  - split; rewrite ?Hr, ?Hd; try done. apply (spent_mono _ b); [lia|done].
  - intros key Hreg. exists []. apply advanced_same; [done|done|].
    destruct (sv_watches s' !! key) as [w|] eqn:Hw'; [|by destruct (sv_watches s !! key)].
    destruct (Hkey key w Hw' Hreg) as (w0 & -> & A1 & A2 & A3 & A4 & A5). done.
Qed.

Lemma idle_sound s b D reg : server_ok s b D → step_sound s b D reg s [].
Proof.
  intros Hs. apply same_sound; try done; [apply Hs| |].
  - intros key w Hw _. by exists w.
  - intros key w Hw. pose proof (so_delivered _ _ _ Hs key w Hw). unfold STEP_EVENTS, PUBLISH_EVENTS, MAX_PENDING_EXPIRIES. lia.
Qed.

Lemma with_durable_same s d : sv_durable s = Some d → with_durable s (Some d) = s.
Proof. intros H. destruct s. unfold with_durable. cbn in *. by subst. Qed.

(** The database ran [op] first: a failure changes nothing, a success has [Q]. *)
Lemma on_durable_spec {A} s b D (op : DurableStore → Io → outcome (result Error A * DurableStore * Io)) io
    (Q : A → DurableStore → Prop) :
  server_ok s b D → (∀ d, in_step (sv_registry s) d → durable_result d (op d io) Q) →
  ∃ done_ d' io', on_durable (sv_durable s) op io = Ret (done_, Some d', io')
    ∧ match done_ with Err _ => with_durable s (Some d') = s | Ok _ => ∃ a, Q a d' end.
Proof.
  intros [_ _ (d & Hd & Hstep) _ _ _] Hop. specialize (Hop d Hstep). rewrite Hd. cbn [on_durable]. unfold durable_result in Hop.
  destruct (op d io) as [[[[a|e] d'] io']|]; [| |done]; cbn [obind].
  - exists (Ok tt), d', io'. split; [done|]. by exists a.
  - subst d'. exists (Err e), d, io'. split; [done|]. by apply with_durable_same.
Qed.

Lemma step_room D : D + STEP_EVENTS ≤ u64_max → D + PUBLISH_EVENTS ≤ u64_max.
Proof. unfold STEP_EVENTS, PUBLISH_EVENTS, MAX_PENDING_EXPIRIES. lia. Qed.

Lemma step_sound_of s b D reg s' sent evs :
  server_ok s' (b + 2) (D + PUBLISH_EVENTS) → (∀ key, advanced key s evs sent s') → step_sound s b D reg s' sent.
Proof.
  intros H1 H2. split.
  - eapply server_ok_mono; [| |done]; unfold STEP_EVENTS, PUBLISH_EVENTS, MAX_PENDING_EXPIRIES; lia.
  - intros key _. exists evs. apply H2.
Qed.

Lemma get_reported r ns key owner admin now e r' b :
  spent r b → get r ns key owner admin now = Ret (Ok e, r') → reported r r' ∧ spent r' b.
Proof.
  intros Hs. unfold get. destruct (let? layout := validate_namespace ns in _); [|done].
  destruct (expire_key_if_due r ns key now) as [r1|] eqn:H1; [|done]. cbn [obind]. intros [= _ <-].
  split; [by eapply expire_key_reported|by eapply expire_key_spent].
Qed.

Lemma do_get_sound s p ns key clock io b D reg :
  server_ok s b D → D + STEP_EVENTS ≤ u64_max →
  sound s b D reg reply_state (do_get s p ns key clock io).
Proof.
  intros Hs Hmax%step_room. unfold do_get.
  destruct (on_durable_spec s b D (λ d io, d_get d ns key (p_id p) (p_admin p) (c_now_ms clock) io) io _ Hs
    (λ d Hd, get_in_step (sv_registry s) d ns key (p_id p) (p_admin p) (c_now_ms clock) io (so_registry _ _ _ Hs) Hd))
    as (done_ & d' & io' & -> & Hres). cbn [obind].
  destruct done_ as [[]|e]; [|eexists; split; [done|]; cbn; rewrite Hres; by apply idle_sound].
  destruct Hres as (e & r' & Hg & Hstep & Hok). rewrite Hg. cbn [obind].
  destruct (get_reported _ _ _ _ _ _ _ _ (b + 2) (spent_mono _ b (b + 2) ltac:(lia) (so_spent _ _ _ Hs)) Hg) as [Hrep Hsp].
  destruct (drain_and_publish_spec s r' d' None clock b D) with (b' := b + 2) as (sent & s' & -> & Hs' & _ & _ & Hadv);
    [done|done|done|done|done|by eapply reported_events|done|]. cbn [obind].
  eexists. split; [done|]. by eapply step_sound_of.
Qed.

Lemma do_put_sound s p q clock io b D reg :
  server_ok s b D → D + STEP_EVENTS ≤ u64_max → 0 ≤ b → 0 ≤ c_now_ms clock → str_len (p_id p) ≤ 256 →
  sound s b D reg reply_state (do_put s p q clock io).
Proof.
  intros Hs Hmax%step_room Hb Hnow Howner. unfold do_put.
  destruct (ps_value q) as [value|]; [|eexists; split; [done|]; by apply idle_sound].
  destruct (on_durable_spec s b D (λ d io, d_put d (ps_namespace q) (ps_key q) (ps_schema q) (Some value)
      (ps_expected_revision q) (ps_ttl q) (p_id p) (p_admin p) (c_now_ms clock) io) io _ Hs
    (λ d Hd, put_in_step (sv_registry s) d (ps_namespace q) (ps_key q) (ps_schema q) (Some value) (ps_expected_revision q)
      (ps_ttl q) (p_id p) (p_admin p) (c_now_ms clock) io (so_registry _ _ _ Hs) Hd Hnow Howner))
    as (done_ & d' & io' & -> & Hres). cbn [obind].
  destruct done_ as [[]|e]; [|eexists; split; [done|]; cbn; rewrite Hres; by apply idle_sound].
  destruct Hres as (e & r' & Hg & Hstep & Hok). rewrite Hg. cbn [obind].
  destruct (put_reported _ _ _ _ _ _ _ _ _ _ _ _ Hg) as (r1 & Hrep & Hp1 & Ho1 & Hns & Hkey & Hent).
  set (ev := mk_watch_event (se_namespace e) (se_key e) (se_revision e) (EvPut e)).
  destruct (drain_and_publish_spec s r' d' (Some ev) clock b D) with (b' := b + 2) as (sent & s' & -> & Hs' & _ & _ & Hadv);
    [done|done|done|done| | |by intros ? [= <-]|].
  - eapply put_spent; [done|apply Hs|done].
  - intros Ho ns. apply (direct_events s r1 r' ev b D); [done..| |done]. intros n. rewrite Hent.
    unfold apply_event. cbn [ev we_namespace we_key we_kind]. by rewrite Hns, Hkey.
  - cbn [obind]. eexists. split; [done|]. by eapply step_sound_of.
Qed.

Lemma do_delete_sound s p ns key expected clock io b D reg :
  server_ok s b D → D + STEP_EVENTS ≤ u64_max →
  sound s b D reg reply_state (do_delete s p ns key expected clock io).
Proof.
  intros Hs Hmax%step_room. unfold do_delete.
  destruct (on_durable_spec s b D (λ d io, d_delete d ns key expected (p_id p) (p_admin p) (c_now_ms clock) io) io _ Hs
    (λ d Hd, delete_in_step (sv_registry s) d ns key expected (p_id p) (p_admin p) (c_now_ms clock) io (so_registry _ _ _ Hs) Hd))
    as (done_ & d' & io' & -> & Hres). cbn [obind].
  destruct done_ as [[]|e]; [|eexists; split; [done|]; cbn; rewrite Hres; by apply idle_sound].
  destruct Hres as (rev & r' & Hg & Hstep & Hok). rewrite Hg. cbn [obind].
  destruct (delete_reported _ _ _ _ _ _ _ _ _ Hg) as (r1 & Hrep & Hp1 & Ho1 & Hent).
  set (ev := mk_watch_event ns key rev EvDelete).
  destruct (drain_and_publish_spec s r' d' (Some ev) clock b D) with (b' := b + 2) as (sent & s' & -> & Hs' & _ & _ & Hadv);
    [done|done|done|done| | |by intros ? [= <-]|].
  - apply (spent_mono _ b); [lia|]. eapply delete_spent; [apply Hs|done].
  - intros Ho n. apply (direct_events s r1 r' ev b D); [done..| |done]. intros n'. rewrite Hent. done.
  - cbn [obind]. eexists. split; [done|]. by eapply step_sound_of.
Qed.

End steps.

(** * Watching and sweeping

    A watch request expires what it would see, takes the snapshot and registers, so the
    snapshot is the registry's view at the moment the watch begins; the sweeper expires
    leases and ends watches.  With the handlers of the other requests this covers every
    step, and so every run. *)



(** The entries of a map under a prefix, as they are sent. *)
Definition shown (ns prefix : string) (m : gmap string StoredRecord) : gmap string StateEntry :=
  map_imap (λ k rec, if str_prefix prefix k then Some (proto_entry (entry_of ns k rec)) else None) m.

Definition view (r : Registry) (ns prefix : string) : gmap string StateEntry := shown ns prefix (entries r ns).

(** A client's copy of a snapshot. *)
Definition replica_of (l : list StateEntry) : gmap string StateEntry := list_to_map ((λ e, (pe_key e, e)) <$> l).

Section watching.
Context `{S : StoreEnv} {SL : StoreLaws S} `{E : DatabaseEnv} {DL : DatabaseLaws S E}
  `{V : ServerEnv} {VL : ServerLaws V}.

(** ** The snapshot *)

Lemma expire_all_idle r l now : (∀ ns key, (ns, key) ∈ l → ¬ due r ns key now) → expire_all r l now = Ret r.
Proof.
  induction l as [|[ns key] l IH]; intros Hl; [done|]. cbn [expire_all].
  destruct (expire_key_spec r ns key now) as [[_ ->]|(st & rec & Hst & Hk & Hx & _)].
  - cbn [obind]. apply IH. intros n k Hin. apply Hl. by right.
  - exfalso. apply (Hl ns key); [by left|]. exists rec. split; [|done]. apply find_record_Some. eauto.
Qed.

Definition snapshot_keys (r : Registry) (ns prefix : string) : list string :=
  match namespaces r !! ns with
  | None => []
  | Some state => sort_strings (base.filter (λ key, str_prefix prefix key = true) (fst <$> hash_iter (ns_entries state)))
  end.

Lemma snapshot_keys_spec r ns prefix :
  NoDup (snapshot_keys r ns prefix)
  ∧ ∀ key, key ∈ snapshot_keys r ns prefix ↔ str_prefix prefix key = true ∧ is_Some (entries r ns !! key).
Proof.
  unfold snapshot_keys, entries, sort_strings. destruct (namespaces r !! ns) as [st|].
  - split.
    + rewrite merge_sort_Permutation. apply NoDup_filter. rewrite hash_iter_perm. apply NoDup_fst_map_to_list.
    + intros key. rewrite merge_sort_Permutation, list_elem_of_filter, hash_iter_perm, list_elem_of_fmap.
      split; (intros [H1 H2]; split; [done|]).
      * destruct H2 as ([k rec] & -> & H2%elem_of_map_to_list). by exists rec.
      * destruct H2 as [rec H2]. exists (key, rec). split; [done|]. by apply elem_of_map_to_list.
  - split; [constructor|]. intros key. rewrite lookup_empty. split; [by intros ?%not_elem_of_nil|].
    by intros [_ [? [=]]].
Qed.

Lemma snapshot_quiet r ns prefix now :
  (∀ key, str_prefix prefix key = true → ¬ due r ns key now) →
  ∃ rev, snapshot r ns prefix now =
    Ret (rev, omap (λ key, entry_of ns key <$> find_record r ns key) (snapshot_keys r ns prefix), r).
Proof.
  intros Hdue. unfold snapshot. fold (snapshot_keys r ns prefix).
  assert (expire_all r ((λ key, (ns, key)) <$> snapshot_keys r ns prefix) now = Ret r) as ->; [|by eexists].
  apply expire_all_idle. intros n key (k & [= -> ->] & Hk)%list_elem_of_fmap. apply Hdue.
  by apply (proj2 (snapshot_keys_spec r ns prefix)) in Hk as [? _].
Qed.

(** The entries of a list of keys, as sent. *)
Definition sent_entries (r : Registry) (ns : string) (keys : list string) : list StateEntry :=
  proto_entry <$> omap (λ key, entry_of ns key <$> find_record r ns key) keys.

Lemma sent_entries_elem r ns keys e :
  e ∈ sent_entries r ns keys ↔
    pe_key e ∈ keys ∧ (proto_entry ∘ entry_of ns (pe_key e)) <$> find_record r ns (pe_key e) = Some e.
Proof.
  unfold sent_entries. rewrite list_elem_of_fmap. setoid_rewrite list_elem_of_omap. split.
  - intros (x & -> & (k & Hk & Hf)). destruct (find_record r ns k) as [rec|] eqn:Hr; [|done].
    injection Hf as <-. cbn. by rewrite Hr.
  - intros [Hk Hf]. destruct (find_record r ns (pe_key e)) as [rec|] eqn:Hr; [|done]. injection Hf as Hf.
    exists (entry_of ns (pe_key e) rec). split; [done|]. exists (pe_key e). by rewrite Hr.
Qed.

Lemma sent_entries_NoDup r ns keys : NoDup keys → NoDup (pe_key <$> sent_entries r ns keys).
Proof.
  induction 1 as [|k keys Hk Hnd IH]; [constructor|]. unfold sent_entries. cbn [omap list_omap].
  destruct (find_record r ns k) as [rec|]; cbn [fmap option_fmap option_map]; [|done].
  rewrite !fmap_cons. constructor; [|done]. intros (e & He & Hin)%list_elem_of_fmap.
  apply sent_entries_elem in Hin as [Hin _]. rewrite <-He in Hin. done.
Qed.

(** What was sent is the view, by key. *)
Lemma snapshot_view r ns prefix :
  replica_of (sent_entries r ns (snapshot_keys r ns prefix)) = view r ns prefix.
Proof.
  destruct (snapshot_keys_spec r ns prefix) as [Hnd Hin]. unfold replica_of. apply map_eq. intros k.
  apply option_eq. intros e. rewrite <-elem_of_list_to_map.
  2:{ rewrite <-list_fmap_compose. by apply sent_entries_NoDup. }
  rewrite list_elem_of_fmap. unfold view, shown. rewrite map_lookup_imap. split.
  - intros (x & [= -> ->] & [Hk Hf]%sent_entries_elem). apply Hin in Hk as [Hp _]. rewrite find_record_entries in Hf.
    destruct (entries r ns !! pe_key x); [|done]. cbn in *. by rewrite Hp.
  - destruct (entries r ns !! k) as [rec|] eqn:Hr; [|done]. cbn. destruct (str_prefix prefix k) eqn:Hp; [|done].
    intros [= <-]. exists (proto_entry (entry_of ns k rec)). split; [done|]. apply sent_entries_elem. split.
    + apply Hin. cbn. by rewrite Hr.
    + cbn. by rewrite find_record_entries, Hr.
Qed.

(** ** The watch request *)

Lemma drained_quiet s b D : server_ok s b D → (drain_pending (sv_registry s)).2 = sv_registry s.
Proof. intros [_ [Hp Ho] _ _ _ _]. destruct (sv_registry s). cbn in *. by subst. Qed.

(** Nothing was pending: the first publication is empty. *)
Lemma stale_spec s clock b D :
  server_ok s b D → D + PUBLISH_EVENTS ≤ u64_max →
  ∃ sent s', drain_and_publish s (sv_registry s) (sv_durable s) None clock = Ret (sent, s')
    ∧ server_ok s' b (D + PUBLISH_EVENTS) ∧ sv_sessions s' = sv_sessions s ∧ sv_registry s' = sv_registry s
    ∧ ∀ key, advanced key s [] sent s'.
Proof.
  intros Hs Hmax. destruct (so_durable _ _ _ Hs) as (d & Hd & Hstep). rewrite Hd.
  destruct (drain_and_publish_spec s (sv_registry s) d None clock b D Hs Hmax (so_registry _ _ _ Hs) Hstep b)
    as (sent & s' & He & Hs' & Hses & Hr & Hadv); [apply Hs| |done|].
  - apply (reported_events s (sv_registry s) b D Hs). done.
  - exists sent, s'. rewrite Hr, (drained_quiet _ _ _ Hs). rewrite (proj1 (so_quiet _ _ _ Hs)) in Hadv. done.
Qed.

Lemma watch_expire_spec s ns prefix now io b D :
  server_ok s b D →
  ∃ res d io', watch_expire s ns prefix now io = Ret (res, Some d, io')
    ∧ match res with
      | Err _ => with_durable s (Some d) = s
      | Ok r => registry_ok r ∧ in_step r d ∧ reported (sv_registry s) r ∧ spent r b
          ∧ ∀ key, str_prefix prefix key = true → ¬ due r ns key now
      end.
Proof.
  intros Hs. destruct (so_durable _ _ _ Hs) as (d & Hd & Hstep). unfold watch_expire. rewrite Hd.
  pose proof (expire_keys_in_step (sv_registry s) d ns prefix now io (so_registry _ _ _ Hs) Hstep) as Hx.
  unfold durable_result in Hx. destruct (d_expire_keys _ _ _ _ _) as [[[[news|e] d'] io']|]; [| |done]; cbn [obind].
  - destruct Hx as (r' & Ha & Hst' & Hok' & He). eexists _, _, _. split; [done|]. cbn. rewrite Ha.
    split_and!; [done|done|by eapply expire_all_reported|eapply expire_all_spent; [apply Hs|done]|].
    intros key Hp (rec & Hf & Hxp). rewrite (expire_all_find _ _ _ _ ns key He) in Hf.
    destruct (find_record (sv_registry s) ns key) as [rec0|] eqn:Hf0; [|done].
    destruct (is_expired rec0 now) eqn:Hx0; [|rewrite andb_false_r in Hf; congruence].
    rewrite bool_decide_true in Hf; [done|]. apply list_elem_of_fmap. exists key. split; [done|].
    unfold sort_strings. rewrite merge_sort_Permutation. apply due_keys_spec. split; [|done]. by exists rec0.
  - subst d'. eexists _, _, _. split; [done|]. by apply with_durable_same.
Qed.

(** Registering: the watch begins, or nothing changes. *)
Lemma admit_register_spec s session ns prefix id busy clock registered W :
  watches_ok (sv_watches s) →
  admit_session s session busy clock
    (let '(r, w) := register (sv_watches s) session ns prefix id in
     (match r with Ok _ => Ok tt | Err e => Err (registry_error e ns id) end, w)) = (registered, W) →
  watches_ok W
  ∧ match registered with
    | Ok _ => W = <[(session, id) := mk_watch session id ns prefix 0 0 []]> (sv_watches s)
    | Err _ => W = sv_watches s
    end.
Proof.
  intros Hok. destruct (register (sv_watches s) session ns prefix id) as [r w] eqn:Hreg.
  destruct (register_ok _ _ _ _ _ _ _ Hok Hreg) as (Hw & H1 & H2). unfold admit_session.
  assert (∀ registered W, (match r with Ok _ => Ok tt | Err e => Err (registry_error e ns id) end, w) = (registered, W) →
    watches_ok W ∧ match registered with
      | Ok _ => W = <[(session, id) := mk_watch session id ns prefix 0 0 []]> (sv_watches s)
      | Err _ => W = sv_watches s end) as Hr.
  { intros ? ? [= <- <-]. destruct r as [[]|e]; split; auto. }
  destruct (session =? 0); [apply Hr|]. destruct (sv_sessions s !! session) as [ses|]; [|by intros [= <- <-]].
  destruct (s_closed ses); [by intros [= <- <-]|]. destruct busy; [by intros [= <- <-]|].
  destruct (negb _); [by intros [= <- <-]|apply Hr].
Qed.

(** What a watch request answers: the view it begins with, and a watch with no updates. *)
Definition watch_begins (session : Z) (ns prefix id : string) (reply : result ControlCommandError StateStoreResult)
    (s' : ServerState) : Prop :=
  ∀ message, reply = Ok (ResultWatch message) →
    sv_watches s' !! (session, id) = Some (mk_watch session id ns prefix 0 0 [])
    ∧ replica_of (sn_entries message) = view (sv_registry s') ns prefix.

(** The end of the request, once both copies have expired what is due. *)
Lemma begin_watch_spec s session ns prefix id busy clock sent io b D :
  server_ok s b D → 0 ≤ D → (∀ key, str_prefix prefix key = true → ¬ due (sv_registry s) ns key (c_now_ms clock)) →
  ∃ res s', begin_watch s session ns prefix id busy clock sent io = Ret (res, s', sent, io)
    ∧ server_ok s' b D ∧ sv_registry s' = sv_registry s ∧ watch_begins session ns prefix id res s'
    ∧ ∀ key, key ≠ (session, id) → sv_watches s' !! key = sv_watches s !! key.
Proof.
  intros Hs HD Hdue. unfold begin_watch.
  destruct (snapshot_quiet (sv_registry s) ns prefix (c_now_ms clock) Hdue) as [rev ->]. cbn [obind].
  assert (mk_server (sv_registry s) (sv_durable s) (sv_watches s) (sv_sessions s) (sv_transport s) = s) as -> by (by destruct s).
  destruct (check_snapshot_bounds _ _ _) as [[]|e].
  2:{ eexists _, s. split_and!; [done|done|done|by intros ?|done]. }
  destruct (admit_session _ _ _ _ _) as [registered W] eqn:Ha.
  destruct (admit_register_spec _ _ _ _ _ _ _ _ _ (so_watches _ _ _ Hs) Ha) as [Hw Hreg].
  eexists _, _. split; [done|]. destruct Hs as [H1 H2 H3 H4 H5 H6].
  destruct registered as [[]|e]; subst W; split_and!; try done.
  - split; try done. cbn [with_watches sv_watches]. intros key w. destruct (decide (key = (session, id))) as [->|Hne].
    + rewrite lookup_insert_eq. intros [= <-]. done.
    + rewrite lookup_insert_ne by done. apply H5.
  - intros message [= <-]. cbn [with_watches sv_watches sv_registry sn_entries]. rewrite lookup_insert_eq.
    split; [done|]. apply snapshot_view.
  - intros key Hne. cbn [with_watches sv_watches]. by rewrite lookup_insert_ne.
Qed.

Lemma do_watch_spec s session p ns prefix id busy clock io b D :
  server_ok s b D → 0 ≤ D → D + STEP_EVENTS ≤ u64_max →
  ∃ res s' sent io', do_watch s session p ns prefix id busy clock io = Ret (res, s', sent, io')
    ∧ step_sound s b D (λ key, bool_decide (key = (session, id))) s' sent ∧ watch_begins session ns prefix id res s'.
Proof.
  intros Hs HD Hmax. unfold do_watch. destruct (watch_request p ns prefix id) as [[]|e].
  2:{ eexists _, _, _, _. split; [done|]. split; [by apply idle_sound|by intros ?]. }
  destruct (stale_spec s clock b D Hs (step_room _ Hmax)) as (sent1 & s1 & -> & Hs1 & _ & Hr1 & Hadv1). cbn [obind].
  destruct (watch_expire_spec s1 ns prefix (c_now_ms clock) io _ _ Hs1) as (res & d & io' & -> & Hres). cbn [obind].
  destruct res as [r|e].
  2:{ eexists _, _, _, _. split; [done|]. rewrite Hres. split; [|by intros ?]. apply (step_sound_of s b D _ s1 sent1 []); [|done].
    eapply server_ok_mono; [| |done]; lia. }
  destruct Hres as (Hok & Hstep & Hrep & Hsp & Hdue).
  destruct (drain_and_publish_spec s1 r d None clock _ _ Hs1) with (b' := b) as (sent2 & s2 & -> & Hs2 & _ & Hr2 & Hadv2);
    [unfold STEP_EVENTS in Hmax; lia|done|done|done|by eapply reported_events|done|]. cbn [obind].
  destruct (begin_watch_spec s2 session ns prefix id busy clock (sent1 ++ sent2) io' _ _ Hs2)
    as (res & s3 & -> & Hs3 & Hr3 & Hbeg & Hother).
  { unfold PUBLISH_EVENTS, MAX_PENDING_EXPIRIES. lia. }
  { rewrite Hr2. exact Hdue. }
  eexists _, _, _, _. split; [done|]. split; [|done]. split.
  - eapply server_ok_mono; [| |done]; unfold STEP_EVENTS; lia.
  - intros key Hkey%bool_decide_eq_false. eexists.
    assert (advanced key s2 [] [] s3) as H3.
    { apply advanced_same; [apply Hs3|done|]. rewrite Hother by done. by destruct (sv_watches s2 !! key). }
    pose proof (advanced_trans _ _ _ _ _ _ _ _ (Hadv1 key) (advanced_trans _ _ _ _ _ _ _ _ (Hadv2 key) H3)) as Hall.
    rewrite (app_nil_r sent2) in Hall. exact Hall.
Qed.

End watching.

(** * All steps of the state store

    Unwatching, acknowledging, the sweeper and what adapters do complete the handlers:
    every step, and every run that is not astronomically long, returns and keeps the
    invariant of the server. *)



Section all.
Context `{S : StoreEnv} {SL : StoreLaws S} `{E : DatabaseEnv} {DL : DatabaseLaws S E}
  `{V : ServerEnv} {VL : ServerLaws V}.

(** Fewer watches, the others as they were. *)
Lemma fewer_sound s b D reg s' :
  server_ok s b D → sv_registry s' = sv_registry s → sv_durable s' = sv_durable s →
  sv_watches s' ⊆ sv_watches s → step_sound s b D reg s' [].
Proof.
  intros Hs Hr Hd Hsub.
  assert (∀ key w, sv_watches s' !! key = Some w → sv_watches s !! key = Some w) as Hin.
  { intros key w Hw. by eapply lookup_weaken. }
  apply same_sound; try done.
  - apply (watches_ok_sub (sv_watches s)); [apply Hs|by apply subseteq_dom|]. intros key w Hw. apply Hs. by apply Hin.
  - intros key w Hw _. exists w. split_and!; [by apply Hin|done..].
  - intros key w Hw. pose proof (so_delivered _ _ _ Hs key w (Hin _ _ Hw)).
    unfold STEP_EVENTS, PUBLISH_EVENTS, MAX_PENDING_EXPIRIES. lia.
Qed.

Lemma acknowledge_sound s session id applied clock io b D reg :
  server_ok s b D → step_sound s b D reg (reply_state (do_acknowledge s session id applied clock io)).1 [].
Proof.
  intros Hs. unfold do_acknowledge. destruct (acknowledge _ _ _ _ _) as [r W] eqn:Ha. cbn [reply_state fst snd].
  destruct (acknowledge_ok _ _ _ _ _ _ _ (so_watches _ _ _ Hs) Ha) as [Hok Hw].
  apply same_sound; try done; cbn [with_watches sv_watches]; intros key w HW; specialize (Hw key); rewrite HW in Hw;
    destruct (sv_watches s !! key) as [w0|] eqn:H0; try done; destruct Hw as (A1 & A2 & A3 & _).
  - intros _. exists w0. pose proof (wo_key _ _ (wso_each _ Hok _ _ HW)) as K1.
    pose proof (wo_key _ _ (wso_each _ (so_watches _ _ _ Hs) _ _ H0)) as K2. split_and!; congruence.
  - pose proof (so_delivered _ _ _ Hs key w0 H0). unfold STEP_EVENTS, PUBLISH_EVENTS, MAX_PENDING_EXPIRIES. lia.
Qed.

(** ** The sweeper *)

Lemma expire_leases_spec s clock io b D :
  server_ok s b D → D + PUBLISH_EVENTS ≤ u64_max →
  ∃ s' sent io' evs, expire_leases s clock io = Ret (s', sent, io')
    ∧ server_ok s' b (D + PUBLISH_EVENTS) ∧ ∀ key, advanced key s evs sent s'.
Proof.
  intros Hs Hmax. unfold expire_leases.
  destruct (on_durable_spec s b D (λ d io, d_expire_due d (c_now_ms clock) io) io _ Hs
    (λ d Hd, expire_due_in_step (sv_registry s) d (c_now_ms clock) io (so_registry _ _ _ Hs) Hd))
    as (done_ & d' & io' & -> & Hres). cbn [obind]. destruct done_ as [[]|e].
  - destruct Hres as (x & r' & He & Hstep & Hok). unfold expire_due. rewrite He. cbn [obind drain_pending].
    destruct (drain_and_publish_spec s r' d' None clock b D) with (b' := b) as (sent & s' & Hp & Hs' & _ & _ & Hadv);
      [done|done|done|done|eapply expire_all_spent; [apply Hs|done]| |done|].
    { eapply reported_events; [done|by eapply expire_all_reported]. }
    unfold drain_and_publish in Hp. cbn [drain_pending] in Hp. rewrite Hp. cbn [obind]. eauto 10.
  - rewrite Hres. exists s, [], io', []. split; [done|]. split.
    + eapply server_ok_mono; [| |done]; unfold PUBLISH_EVENTS, MAX_PENDING_EXPIRIES; lia.
    + intros key. apply advanced_same; [apply Hs|done|]. by destruct (sv_watches s !! key).
Qed.

Lemma terminate_all_sub term W closed : (terminate_all W term closed).1 ⊆ W.
Proof.
  revert W closed. induction term as [|[k reason] term IH]; intros W closed; cbn [terminate_all]; [done|].
  etrans; [apply IH|]. apply delete_subseteq.
Qed.

Lemma expire_watches_spec s clock sent W t :
  expire_watches (sv_sessions s) clock (sv_watches s) (c_now_ms clock) (sv_transport s) = (sent, W, t) →
  W ⊆ sv_watches s ∧ ∀ key, updates_to key sent = [].
Proof.
  unfold expire_watches. set (term := omap _ _). pose proof (terminate_all_sub term (sv_watches s) []) as Hsub.
  destruct (terminate_all (sv_watches s) term []) as [W1 closed]. destruct (send_closed _ _ _) as [sent1 t1] eqn:Hc.
  intros [= <- <- <-]. split; [done|]. intros key. by rewrite (send_closed_updates key _ _ _ _ _ Hc).
Qed.

Lemma kept_sends key W evs sent W' s1 s2 :
  updates_to key s1 = updates_to key s2 → kept key W evs sent W' s1 → kept key W evs sent W' s2.
Proof. intros Hu. unfold kept. by rewrite Hu. Qed.

Lemma sweep_sound s clock io b D reg :
  server_ok s b D → D + STEP_EVENTS ≤ u64_max →
  sound s b D reg fst (expire_state_store_watches s clock io).
Proof.
  intros Hs Hmax. unfold expire_state_store_watches.
  destruct (expire_leases_spec s clock io b D Hs (step_room _ Hmax)) as (s1 & sent1 & io' & evs & -> & Hs1 & Hadv).
  cbn [obind]. destruct (expire_watches _ _ _ _ _) as [[sent2 W] t] eqn:Hx.
  destruct (expire_watches_spec _ _ _ _ _ Hx) as [Hsub Hup]. eexists. split; [done|]. cbn [fst snd].
  set (s2 := mk_server _ _ _ _ _). assert (step_sound s1 b (D + PUBLISH_EVENTS - PUBLISH_EVENTS) reg s2 []) as [Hs2 H2].
  { destruct (fewer_sound s1 b (D + PUBLISH_EVENTS) reg s2) as [Hok Hk]; try done. split; [|done].
    destruct Hok as [A1 A2 A3 A4 A5 A6]. split; try done. intros key w Hw.
    pose proof (so_delivered _ _ _ Hs1 key w (lookup_weaken _ _ _ _ Hw Hsub)). unfold STEP_EVENTS, PUBLISH_EVENTS, MAX_PENDING_EXPIRIES in *. lia. }
  split; [by replace D with (D + PUBLISH_EVENTS - PUBLISH_EVENTS) by lia|]. intros key Hkey.
  destruct (H2 key Hkey) as (evs2 & Hadv2). exists (evs ++ evs2).
  destruct (advanced_trans _ _ _ _ _ _ _ _ (Hadv key) Hadv2) as [B1 B2 B3]. split; [|done|done].
  rewrite app_nil_r in B1. eapply kept_sends; [|exact B1]. by rewrite updates_to_app, Hup, app_nil_r.
Qed.

(** ** Adapters *)

Lemma adapter_event_sound s event clock b D reg :
  server_ok s b D → D + STEP_EVENTS ≤ u64_max → is_adapter_namespace (we_namespace event) = true →
  event_ok event → sound s b D reg (λ r, (r.2, r.1)) (publish_events s (Some event) [] false clock).
Proof.
  intros Hs Hmax Had Hev.
  destruct (publish_events_spec s (Some event) [] false clock D) as (sent & s' & Hp & Hr & Hd & _ & Hw & HD & Hk);
    [apply Hs|apply Hs|done|by apply step_room|]. eexists. split; [done|]. cbn [fst snd].
  destruct Hs as [H1 H2 H3 H4 H5 H6]. apply (step_sound_of _ _ _ _ _ _ [event]).
  - split; rewrite ?Hr, ?Hd; try done. apply (spent_mono _ b); [lia|done].
  - intros key. destruct (Hk key) as [Hkk _]. split; [done| |by apply Forall_singleton].
    intros _ ns Hns. rewrite Hr. unfold apply_events. cbn [foldl]. unfold apply_event, str_eqb.
    rewrite bool_decide_false; [done|]. intros <-. congruence.
Qed.

Lemma adapter_watch_sound s session ns prefix id b D :
  server_ok s b D → 0 ≤ D →
  step_sound s b D (λ key, bool_decide (key = (session, id)))
    (with_watches s (register (sv_watches s) session ns prefix id).2) [].
Proof.
  intros Hs HD. destruct (register _ _ _ _ _) as [r W] eqn:Hreg. cbn [snd].
  destruct (register_ok _ _ _ _ _ _ _ (so_watches _ _ _ Hs) Hreg) as (Hw & H1 & H2).
  assert (∀ key w, W !! key = Some w → sv_watches s !! key = Some w ∨ key = (session, id) ∧ w_delivered w = 0) as Hlook.
  { intros key w. destruct r as [[]|e]; [rewrite H1 by done|by rewrite H2; auto].
    destruct (decide (key = (session, id))) as [->|Hne]; [|rewrite lookup_insert_ne by done; auto].
    rewrite lookup_insert_eq. intros [= <-]. auto. }
  apply same_sound; try done; cbn [with_watches sv_watches].
  - intros key w Hl Hkey%bool_decide_eq_false. destruct (Hlook key w Hl) as [Hl0|[-> _]]; [|done]. by exists w.
  - intros key w Hl. unfold STEP_EVENTS, PUBLISH_EVENTS, MAX_PENDING_EXPIRIES.
    destruct (Hlook key w Hl) as [Hl0|[_ ->]]; [|lia]. pose proof (so_delivered _ _ _ Hs key w Hl0). lia.
Qed.

(** ** Every step *)

Definition outcome_state (o : Outcome) : ServerState * Sends := o.1.

Lemma sound_bind {A B} s b D reg (f : A → ServerState * Sends) (g : B → ServerState * Sends) (m : outcome A)
    (k : A → outcome B) :
  sound s b D reg f m → (∀ a, ∃ x, k a = Ret x ∧ g x = f a) → sound s b D reg g (obind m k).
Proof. intros (a & -> & Ha) Hk. destruct (Hk a) as (x & Hx & Hg). exists x. split; [done|]. by rewrite Hg. Qed.

Lemma dispatch_sound s session p action busy clock io b D :
  server_ok s b D → 0 ≤ b → 0 ≤ D → D + STEP_EVENTS ≤ u64_max → 0 ≤ c_now_ms clock → str_len (p_id p) ≤ 256 →
  sound s b D (λ key, registers key (SRequest session p action busy clock io)) reply_state
    (dispatch s session p action busy clock io).
Proof.
  intros Hs Hb HD Hmax Hnow Hp. destruct action as [ns key|q|ns key exp|ns prefix id|id|id applied|]; cbn [dispatch registers].
  - by apply do_get_sound.
  - by apply do_put_sound.
  - by apply do_delete_sound.
  - destruct (do_watch_spec s session p ns prefix id busy clock io b D Hs HD Hmax) as (res & s' & sent & io' & -> & Hsd & _).
    by eexists.
  - eexists. split; [done|]. unfold do_unwatch. destruct (unregister _ _ _) as [r W] eqn:Hu. cbn [reply_state fst snd].
    apply fewer_sound; try done. unfold unregister in Hu. injection Hu as _ <-. apply delete_subseteq.
  - eexists. split; [done|]. pose proof (acknowledge_sound s session id applied clock io b D (λ _, false) Hs) as Ha.
    assert ((reply_state (do_acknowledge s session id applied clock io)).2 = []) as ->; [|done].
    unfold do_acknowledge. by destruct (acknowledge _ _ _ _ _).
  - eexists. split; [done|]. by apply idle_sound.
Qed.

Lemma step_spec s st b D :
  server_ok s b D → 0 ≤ b → 0 ≤ D → D + STEP_EVENTS ≤ u64_max → step_ok st →
  sound s b D (λ key, registers key st) outcome_state (step s st).
Proof.
  intros Hs Hb HD Hmax Hok. destruct st as [ses p a busy clock io|clock io|ev clock|ses ns prefix id|ses|sessions|t];
    cbn [step step_ok registers] in *.
  - destruct (is_some_and _ _); [eexists; split; [done|]; by apply idle_sound|]. destruct Hok.
    eapply sound_bind; [by apply dispatch_sound|]. intros [[[reply s'] sent] io']. by eexists.
  - eapply sound_bind; [by apply sweep_sound|]. intros [[s' sent] io']. by eexists.
  - destruct (is_adapter_namespace _) eqn:Had; [|eexists; split; [done|]; by apply idle_sound].
    eapply sound_bind; [by apply adapter_event_sound|]. intros [sent s']. by eexists.
  - destruct (is_adapter_namespace _); [|eexists; split; [done|]; by apply idle_sound].
    eexists. split; [done|]. by apply adapter_watch_sound.
  - eexists. split; [done|]. apply fewer_sound; try done. apply map_filter_subseteq.
  - eexists. split; [done|]. by apply fewer_sound.
  - eexists. split; [done|]. by apply fewer_sound.
Qed.

(** ** Runs *)

Definition after (n : nat) (z k : Z) : Z := z + k * Z.of_nat n.

Lemma run_spec steps s b D :
  server_ok s b D → 0 ≤ b → 0 ≤ D → after (length steps) D STEP_EVENTS ≤ u64_max → Forall step_ok steps →
  ∃ s' sent, run s steps = Ret (s', sent) ∧ server_ok s' (after (length steps) b 2) (after (length steps) D STEP_EVENTS)
    ∧ ∀ key, Forall (λ st, registers key st = false) steps → ∃ evs, advanced key s evs sent s'.
Proof.
  unfold after. revert s b D. induction steps as [|st steps IH]; intros s b D Hs Hb HD Hmax Hok; cbn [run length] in *.
  - exists s, []. split; [done|]. split; [eapply server_ok_mono; [| |done]; lia|]. intros key _. exists [].
    apply advanced_same; [apply Hs|done|]. by destruct (sv_watches s !! key).
  - inversion_clear Hok as [|? ? Hst Hsteps]. assert (0 ≤ STEP_EVENTS) as Hpos by done.
    destruct (step_spec s st b D Hs Hb HD) as ([[s1 sent1] reply] & -> & [Hs1 Hadv1]); [nia|done|]. cbn [obind fst snd outcome_state] in *.
    destruct (IH s1 (b + 2) (D + STEP_EVENTS)) as (s2 & sent2 & -> & Hs2 & Hadv2); [done|lia|lia|lia|done|]. cbn [obind].
    exists s2, (sent1 ++ sent2). split; [done|]. split; [eapply server_ok_mono; [| |done]; lia|].
    intros key Hkey. inversion_clear Hkey as [|? ? Hk1 Hk2]. destruct (Hadv1 key Hk1) as (e1 & A1).
    destruct (Hadv2 key Hk2) as (e2 & A2). exists (e1 ++ e2). by eapply advanced_trans.
Qed.

End all.
