(* ===== verification/StateReplica.v ===== *)
(** * What clients and restarts see of the state store

    The theorems on whole runs: a server booted from a file serves every request, a
    reboot finds the entries of the run before it, a successful put is a compare-and-set,
    and a client that applies the updates of a watch to its snapshot holds the entries of
    the server. *)

From S2P Require Import Prelude StateSchema StateStore StateStoreInv StateDurable StateSync StateRestore StateRestoreInv StateWatch StateServer StateWatchInv StateRun.

(** A client that applies an update to its copy. *)
Definition apply_update (m : gmap string StateEntry) (n : Notification) : gmap string StateEntry :=
  match n with
  | StateStoreWatchUpdate _ _ key _ _ (Some entry) _ => <[key := entry]> m
  | StateStoreWatchUpdate _ _ key _ _ None _ => delete key m
  | StateStoreWatchClosed _ _ _ => m
  end.

(** What a reader sees at [now]. *)
Definition visible (r : Registry) (ns key : string) (now : Z) : option StoredRecord :=
  match find_record r ns key with
  | Some rec => if is_expired rec now then None else Some rec
  | None => None
  end.

Lemma sublist_full {A} (l k : list A) : l `sublist_of` k → length l = length k → l = k.
Proof.
  induction 1 as [|x l k _ IH|x l k Hs _]; cbn [length]; [done| |].
  - intros [= H]. f_equal. by apply IH.
  - pose proof (sublist_length _ _ Hs). lia.
Qed.

(** ** Updates and events *)

(** One update does to the copy what the event did to the entries. *)
Lemma shown_event ns prefix m w ev n :
  w_namespace w = ns → w_key_prefix w = prefix → event_ok ev → matches w ev = true →
  apply_update (shown ns prefix m) (note (w_watch_id w) ev n) = shown ns prefix (apply_event ns m ev).
Proof.
  intros Hns Hpr Hok Hm. unfold matches in Hm. apply andb_true_iff in Hm as [Hn Hp]. unfold apply_event.
  rewrite Hns in Hn. rewrite Hpr in Hp.
  assert (str_eqb (we_namespace ev) ns = true) as -> by (unfold str_eqb in *; reflect_bools; by apply bool_decide_eq_true).
  unfold event_ok, note, update_notification in *. apply map_eq. intros k. unfold shown.
  destruct (we_kind ev) as [e| |]; cbn [apply_update].
  - destruct Hok as [He1 He2]. assert (proto_entry e = proto_entry (entry_of ns (we_key ev) (record_of e))) as ->.
    { unfold str_eqb in Hn. reflect_bools. unfold entry_of, record_of. destruct e. cbn in *. f_equal. congruence. }
    rewrite map_lookup_imap. destruct (decide (k = we_key ev)) as [->|Hne].
    + rewrite !lookup_insert_eq. cbn. by rewrite Hp.
    + rewrite !lookup_insert_ne by done. by rewrite map_lookup_imap.
  - rewrite map_lookup_imap. destruct (decide (k = we_key ev)) as [->|Hne]; [by rewrite !lookup_delete_eq|].
    rewrite !lookup_delete_ne by done. by rewrite map_lookup_imap.
  - rewrite map_lookup_imap. destruct (decide (k = we_key ev)) as [->|Hne]; [by rewrite !lookup_delete_eq|].
    rewrite !lookup_delete_ne by done. by rewrite map_lookup_imap.
Qed.

(** Events elsewhere do not show. *)
Lemma shown_other ns prefix m w ev :
  w_namespace w = ns → w_key_prefix w = prefix → matches w ev = false →
  shown ns prefix (apply_event ns m ev) = shown ns prefix m.
Proof.
  intros Hns Hpr Hm. unfold apply_event, str_eqb. case_bool_decide as He; [|done].
  unfold matches in Hm. rewrite Hns, Hpr, <-He in Hm. unfold str_eqb in Hm. rewrite bool_decide_true in Hm by done.
  cbn [andb] in Hm. apply map_eq. intros k. unfold shown. rewrite !map_lookup_imap.
  destruct (we_kind ev); (destruct (decide (k = we_key ev)) as [->|Hne];
    [rewrite ?lookup_insert_eq, ?lookup_delete_eq; cbn; rewrite ?Hm; by destruct (m !! we_key ev)
    |by rewrite ?lookup_insert_ne, ?lookup_delete_ne by done]).
Qed.

Lemma shown_events ns prefix evs m w n :
  w_namespace w = ns → w_key_prefix w = prefix → Forall event_ok evs →
  foldl apply_update (shown ns prefix m) (numbered (w_watch_id w) n (base.filter (λ ev, matches w ev = true) evs))
  = shown ns prefix (apply_events ns m evs).
Proof.
  intros Hns Hpr Hok. revert m n. induction Hok as [|ev evs Hev _ IH]; intros m n; [done|].
  unfold apply_events. cbn [foldl]. fold (apply_events ns (apply_event ns m ev) evs). rewrite filter_cons.
  destruct (decide (matches w ev = true)) as [Hm|Hm]; cbn [numbered foldl].
  - by rewrite (shown_event ns prefix m w ev).
  - rewrite <-(shown_other ns prefix m w ev); [apply IH|done|done|]. by destruct (matches w ev).
Qed.

Section claims.
Context `{S : StoreEnv} {SL : StoreLaws S} `{E : DatabaseEnv} {DL : DatabaseLaws S E}
  `{V : ServerEnv} {VL : ServerLaws V}.

(** ** Booting *)

(** A server on a file: the store it opens, no watches yet. *)
Definition booted (file : DatabaseFile) (now : Z) (io : Io) (sessions : gmap Z ApiSession) (t : Transport)
    : outcome (option ServerState) :=
  let! (r, d, io) := open_state_store registry_default file now io in
  Ret (match d with Some d => Some (mk_server r (Some d) ∅ sessions t) | None => None end).

Lemma booted_spec r file now io sessions t b :
  registry_ok r → file_holds r file → spent r b → b ≤ i64_max → now ≤ i64_max →
  match booted file now io sessions t with
  | Panic => False
  | Ret None => io ≠ []
  | Ret (Some s) => server_ok s b 0 ∧ survives r (sv_registry s) now
      ∧ ∀ ns st, namespaces r !! ns = Some st →
          ∃ st', namespaces (sv_registry s) !! ns = Some st' ∧ ns_revision st ≤ ns_revision st'
  end.
Proof.
  intros Hok Hf Hsp Hb Hnow. unfold booted.
  pose proof (open_state_store_spec r file now io Hok Hf) as Ho.
  destruct (open_state_store registry_default file now io) as [[[r' [d|]] io']|]; cbn [obind].
  - destruct Ho as (Hstep & Hok' & Hsv & Hp & Hov & Hrev); [|done|].
    { intros ns st Hst. specialize (Hsp ns st Hst). lia. }
    cbn [sv_registry]. split_and!; [|done|].
    2:{ intros ns st Hst. specialize (Hrev ns). rewrite Hst in Hrev. destruct (namespaces r' !! ns); [|done].
      eexists. split; [done|apply Hrev]. }
    split; cbn [sv_registry sv_durable sv_watches]; [done|done|eauto| | |].
    + split; [done|by rewrite map_size_empty|]. intros s. unfold session_keys. by rewrite dom_empty_L, elements_empty.
    + intros key w. by rewrite lookup_empty.
    + intros ns st' Hst'. specialize (Hrev ns). rewrite Hst' in Hrev. destruct (namespaces r !! ns) as [st|] eqn:Hst; [|done].
      specialize (Hsp ns st Hst). lia.
  - apply Ho; [|done]. intros ns st Hst. specialize (Hsp ns st Hst). lia.
  - apply Ho; [|done]. intros ns st Hst. specialize (Hsp ns st Hst). lia.
Qed.

(** ** Reachable states *)

(** Servers that started with a new file, took steps, and were stopped or crashed and
    booted again from what their database holds; [n] counts the steps. *)
Inductive reached : Z → ServerState → Prop :=
| reached_boot file now io sessions t s :
    user_version file = 0 → now ≤ i64_max → booted file now io sessions t = Ret (Some s) → reached 0 s
| reached_step n s st s' sent reply :
    reached n s → step_ok st → step s st = Ret (s', sent, reply) → reached (n + 1) s'
| reached_reboot n s d now io sessions t s' :
    reached n s → sv_durable s = Some d → now ≤ i64_max →
    booted (mk_file SCHEMA_VERSION (connection d)) now io sessions t = Ret (Some s') → reached n s'.

(** Enough for a million steps a second for eight years. *)
Definition MAX_STEPS : Z := 2 ^ 48.

Lemma steps_room n : 0 ≤ n ≤ MAX_STEPS → n * STEP_EVENTS + STEP_EVENTS ≤ u64_max ∧ 2 * n + 2 ≤ i64_max.
Proof.
  intros Hn. change STEP_EVENTS with 8194. change MAX_STEPS with 281474976710656 in Hn.
  change u64_max with 18446744073709551615. change i64_max with 9223372036854775807. lia.
Qed.

Lemma reboot_spec s d now io sessions t b D :
  server_ok s b D → sv_durable s = Some d → b ≤ i64_max → now ≤ i64_max →
  match booted (mk_file SCHEMA_VERSION (connection d)) now io sessions t with
  | Panic => False
  | Ret None => io ≠ []
  | Ret (Some s') => server_ok s' b 0 ∧ survives (sv_registry s) (sv_registry s') now
      ∧ ∀ ns st, namespaces (sv_registry s) !! ns = Some st →
          ∃ st', namespaces (sv_registry s') !! ns = Some st' ∧ ns_revision st ≤ ns_revision st'
  end.
Proof.
  intros Hs Hd Hb Hnow. destruct (so_durable _ _ _ Hs) as (d0 & Hd0 & [Hsame _]). rewrite Hd in Hd0. injection Hd0 as <-.
  apply (booted_spec (sv_registry s)); [apply Hs|by left|apply Hs|done|done].
Qed.

Lemma reached_nonneg n s : reached n s → 0 ≤ n.
Proof. induction 1; lia. Qed.

Lemma reached_ok n s : reached n s → n ≤ MAX_STEPS → server_ok s (2 * n) (n * STEP_EVENTS).
Proof.
  induction 1 as [file now io sessions t s Hv Hnow Hboot|n s st s' sent reply Hr IH Hok Hstep
    |n s d now io sessions t s' Hr IH Hd Hnow Hboot]; intros Hmax.
  - pose proof (booted_spec registry_default file now io sessions t 0 registry_default_ok) as Hb. rewrite Hboot in Hb.
    apply Hb; [by right|intros ns st; cbn; by rewrite lookup_empty|done|done].
  - pose proof (reached_nonneg _ _ Hr). destruct (steps_room n) as [HD Hb]; [lia|].
    destruct (step_spec s st (2 * n) (n * STEP_EVENTS)) as (o & Ho & [Hs' _]);
      [apply IH; lia|lia|unfold STEP_EVENTS, PUBLISH_EVENTS, MAX_PENDING_EXPIRIES; lia|done|done|].
    rewrite Hstep in Ho. injection Ho as <-. cbn [outcome_state fst snd] in Hs'. eapply server_ok_mono; [| |done]; lia.
  - specialize (IH Hmax). pose proof (reached_nonneg _ _ Hr). destruct (steps_room n) as [HD Hb]; [lia|].
    pose proof (reboot_spec s d now io sessions t _ _ IH Hd) as Hb'. rewrite Hboot in Hb'.
    destruct Hb' as [Hs' _]; [lia|done|]. eapply server_ok_mono; [| |done]; [lia|].
    unfold STEP_EVENTS, PUBLISH_EVENTS, MAX_PENDING_EXPIRIES. lia.
Qed.

(** C5. In every reachable state of the state store the registry is within its quotas
    (256 namespaces, 1024 entries each, 64 MiB counted exactly), memory and database hold
    the same entries, revisions and byte count, and the watches are within theirs (64 per
    session, 1024 in all, 32 unacknowledged updates each), whatever statements of the
    database failed; and the next step returns: no revision or sequence overflows. *)
Theorem store_invariant n s st :
  reached n s → n ≤ MAX_STEPS → step_ok st →
  registry_ok (sv_registry s) ∧ (∃ d, sv_durable s = Some d ∧ in_step (sv_registry s) d) ∧ watches_ok (sv_watches s)
  ∧ ∃ s' sent reply, step s st = Ret (s', sent, reply).
Proof.
  intros Hr Hmax Hok. pose proof (reached_ok n s Hr Hmax) as Hs. pose proof (reached_nonneg _ _ Hr).
  destruct (steps_room n) as [HD Hb]; [lia|]. split_and!; [apply Hs|apply Hs|apply Hs|].
  destruct (step_spec s st _ _ Hs) as ([[s' sent] reply] & -> & _);
    [lia|unfold STEP_EVENTS, PUBLISH_EVENTS, MAX_PENDING_EXPIRIES; lia|done|done|by eauto].
Qed.

(** C7. A server that stops or crashes finds its state again: booting from the database
    of a reachable state never panics, fails only when a statement of the database does,
    and otherwise restores exactly the entries that have not expired, with revisions that
    are never lower, so that a compare-and-set across the restart cannot be fooled. *)
Theorem restart_recovers n s now io sessions t :
  reached n s → n ≤ MAX_STEPS → now ≤ i64_max →
  ∃ d, sv_durable s = Some d ∧
    match booted (mk_file SCHEMA_VERSION (connection d)) now io sessions t with
    | Panic => False
    | Ret None => io ≠ []
    | Ret (Some s') =>
        (∀ ns key, find_record (sv_registry s') ns key = visible (sv_registry s) ns key now)
        ∧ ∀ ns st, namespaces (sv_registry s) !! ns = Some st →
            ∃ st', namespaces (sv_registry s') !! ns = Some st' ∧ ns_revision st ≤ ns_revision st'
    end.
Proof.
  intros Hr Hmax Hnow. pose proof (reached_ok n s Hr Hmax) as Hs. pose proof (reached_nonneg _ _ Hr).
  destruct (steps_room n) as [HD Hb]; [lia|]. destruct (so_durable _ _ _ Hs) as (d & Hd & _). exists d. split; [done|].
  pose proof (reboot_spec s d now io sessions t _ _ Hs Hd ltac:(lia) Hnow) as Hre.
  destruct (booted _ _ _ _ _) as [[s'|]|]; [|done|done]. by destruct Hre as (_ & Hsv & Hrev).
Qed.

(** ** Watches *)

Lemma watch_step_spec s b D session p ns prefix id busy clock io s1 sent1 message :
  server_ok s b D → 0 ≤ D → D + STEP_EVENTS ≤ u64_max →
  step s (SRequest session p (ActWatch ns prefix id) busy clock io) = Ret (s1, sent1, Some (Ok (ResultWatch message))) →
  is_adapter_namespace ns = false ∧ watch_begins session ns prefix id (Ok (ResultWatch message)) s1
  ∧ server_ok s1 (b + 2) (D + STEP_EVENTS).
Proof.
  intros Hs HD Hmax. cbn [step command_namespace is_some_and dispatch].
  destruct (is_adapter_namespace ns); [done|].
  destruct (do_watch_spec s session p ns prefix id busy clock io b D Hs HD Hmax) as (res & s' & sent & io' & -> & [Hok _] & Hbeg).
  cbn [obind]. intros [= <- <- ->]. done.
Qed.

(** C6. A watch is a replica: apply the updates a client received for a watch to the
    snapshot that began it; if none is missing (their number is the watch's sequence
    number), the result is the server's current view of the namespace under the prefix.
    This holds through every interleaving of requests, expirations, restarts of other
    watches, database failures and lost or closed sessions. *)
Theorem watch_replica n s session p ns prefix id busy clock io s1 sent1 message steps s2 sent2 w :
  reached n s → n + 1 + Z.of_nat (length steps) ≤ MAX_STEPS →
  step s (SRequest session p (ActWatch ns prefix id) busy clock io) = Ret (s1, sent1, Some (Ok (ResultWatch message))) →
  Forall step_ok steps → Forall (λ st, registers (session, id) st = false) steps → run s1 steps = Ret (s2, sent2) →
  sv_watches s2 !! (session, id) = Some w → Z.of_nat (length (updates_to (session, id) sent2)) = w_delivered w →
  foldl apply_update (replica_of (sn_entries message)) (updates_to (session, id) sent2) = view (sv_registry s2) ns prefix.
Proof.
  intros Hr Hmax Hstep Hok Hreg Hrun Hw Hlen. pose proof (reached_nonneg _ _ Hr). pose proof (reached_ok n s Hr ltac:(lia)) as Hs.
  destruct (steps_room (n + Z.of_nat (length steps))) as [HD Hb]; [lia|]. assert (0 ≤ STEP_EVENTS) by done.
  destruct (watch_step_spec s (2 * n) (n * STEP_EVENTS) session p ns prefix id busy clock io s1 sent1 message Hs)
    as (Had & Hbeg & Hs1); [nia|nia|done|].
  destruct (Hbeg message eq_refl) as [Hw1 Hrep].
  destruct (run_spec steps s1 _ _ Hs1) as (s2' & sent2' & Hrun' & _ & Hadv); [lia|nia|unfold after; nia|done|].
  rewrite Hrun in Hrun'. injection Hrun' as <- <-. destruct (Hadv (session, id) Hreg) as (evs & [Hk He Hev]).
  unfold kept in Hk. rewrite Hw1, Hw in Hk. destruct Hk as (_ & _ & Hf). destruct Hf as (ups & Hu & [_ _ _ _ Hd Hs3]).
  { cbn. intros ->. done. }
  cbn [updates_to omap list_omap app] in Hu. rewrite Hu in Hlen |- *. cbn [w_watch_id w_delivered] in *.
  rewrite (sublist_full _ _ Hs3).
  2:{ rewrite numbered_length. lia. }
  rewrite Hrep. unfold view. rewrite He by (done || by eauto).
  by apply (shown_events ns prefix evs (entries (sv_registry s1) ns) (mk_watch session id ns prefix 0 0 []) 0).
Qed.

(** ** Compare-and-set *)

(** Expiring what is due changes nothing a reader sees. *)
Lemma expire_all_visible l r now r' ns key :
  expire_all r l now = Ret r' → visible r' ns key now = visible r ns key now.
Proof.
  intros He. unfold visible. rewrite (expire_all_find _ _ _ _ ns key He).
  destruct (find_record r ns key) as [rec|]; [|done]. destruct (is_expired rec now) eqn:Hx.
  - rewrite andb_true_r. case_bool_decide; [done|]. by rewrite Hx.
  - by rewrite andb_false_r, Hx.
Qed.

Lemma expire_key_all r ns key now : expire_key_if_due r ns key now = expire_all r [(ns, key)] now.
Proof. cbn [expire_all]. by destruct (expire_key_if_due r ns key now). Qed.

(** Revisions of a namespace do not go back when entries expire. *)
Lemma expire_all_revision l r now r' ns st :
  expire_all r l now = Ret r' → namespaces r !! ns = Some st →
  ∃ st', namespaces r' !! ns = Some st' ∧ ns_revision st ≤ ns_revision st'.
Proof.
  intros He Hst. pose proof (expire_all_sizes _ _ _ _ ns He) as Hsz. rewrite Hst in Hsz.
  destruct (namespaces r' !! ns) as [st'|]; [|done]. exists st'. split; [done|lia].
Qed.

(** The record a put leaves, and what it leaves alone. *)
Lemma store_record_spec r ns key schema value x owner now e r' :
  store_record r ns key schema value x owner now = Ret (Ok e, r') →
  find_record r' ns key = Some (record_of e)
  ∧ e = entry_of ns key (mk_record schema value (se_revision e) now x owner)
  ∧ (∀ n k, (n, k) ≠ (ns, key) → find_record r' n k = find_record r n k)
  ∧ ∀ st, namespaces r !! ns = Some st → ns_revision st < se_revision e.
Proof.
  unfold store_record. destruct (_ <? _); [done|]. destruct (next_revision _) as [rev|] eqn:Hr; [|done].
  apply next_revision_Ret in Hr as [-> _]. cbn [obind]. intros [= <- <-]. unfold find_record. cbn [namespaces]. split_and!.
  - rewrite lookup_insert_eq. cbn. by rewrite lookup_insert_eq.
  - done.
  - intros n k Hne. destruct (decide (n = ns)) as [->|Hn]; [|by rewrite lookup_insert_ne].
    rewrite lookup_insert_eq. cbn [mbind option_bind ns_entries].
    rewrite lookup_insert_ne by congruence. by destruct (namespaces r !! ns).
  - intros st ->. cbn. lia.
Qed.

Lemma put_request_value ns key schema value ttl owner admin now v x :
  put_request ns key schema value ttl owner admin now = Ok (v, x) → value = Some v.
Proof.
  unfold put_request. rewrite rbind_Ok. intros (layout & _ & H). rewrite rbind_Ok in H. destruct H as ([] & _ & H).
  rewrite rbind_Ok in H. destruct H as ([] & _ & H). destruct value as [value|]; [|done]. split_match_in H; [done|].
  rewrite rbind_Ok in H. destruct H as (expires & _ & H). rewrite rbind_Ok in H. destruct H as ([] & _ & H).
  rewrite rbind_Ok in H. destruct H as ([] & _ & [= <- <-]). done.
Qed.

Lemma expire_all_app l l' r now r1 r2 :
  expire_all r l now = Ret r1 → expire_all r1 l' now = Ret r2 → expire_all r (l ++ l') now = Ret r2.
Proof.
  revert r. induction l as [|[ns key] l IH]; intros r; cbn [expire_all app]; [by intros [= ->]|].
  destruct (expire_key_if_due r ns key now) as [r0|]; [|done]. cbn [obind]. apply IH.
Qed.

(** Making room for a key only expires entries. *)
Lemma admit_key_expires r ns now a r' : admit_key r ns now = Ret (a, r') → ∃ l, expire_all r l now = Ret r'.
Proof.
  unfold admit_key. case_bool_decide; [intros [= _ <-]; by exists []|]. unfold reclaim_namespace.
  set (l := match namespaces r !! ns with None => _ | Some _ => _ end).
  destruct (expire_all r l now) as [r1|] eqn:H1; [|done]. cbn [obind]. destruct (namespaces r1 !! ns); [|done].
  intros [= _ <-]. eauto.
Qed.

Lemma put_visible r ns key schema value expected ttl owner admin now e r' :
  put r ns key schema (Some value) expected ttl owner admin now = Ret (Ok e, r') →
  check_expected expected (sr_revision <$> visible r ns key now) = Ok tt
  ∧ find_record r' ns key = Some (record_of e)
  ∧ (∃ x, e = entry_of ns key (mk_record schema value (se_revision e) now x owner))
  ∧ (∀ n k, (n, k) ≠ (ns, key) → visible r' n k now = visible r n k now)
  ∧ ∀ st, namespaces r !! ns = Some st → ns_revision st < se_revision e.
Proof.
  unfold put. destruct (put_request _ _ _ _ _ _ _ _) as [[v x]|] eqn:Hq; [|done].
  apply put_request_value in Hq as [= <-].
  rewrite expire_key_all. destruct (expire_all r [(ns, key)] now) as [r1|] eqn:H1; [|done]. cbn [obind].
  assert (find_record r1 ns key = visible r ns key now) as Hcur.
  { rewrite (expire_all_find _ _ _ _ ns key H1), bool_decide_true by (by left). done. }
  rewrite Hcur. destruct (check_expected _ _) as [[]|] eqn:Hc; [|done].
  set (adm := match _ with Some _ => _ | None => _ end).
  assert (∀ a r2, adm = Ret (a, r2) → ∃ l, expire_all r l now = Ret r2) as Hadm.
  { intros a r2 Ha. unfold adm in Ha. destruct (sr_revision <$> _); [injection Ha as <- <-; eauto|].
    destruct (admit_key_expires _ _ _ _ _ Ha) as [l Hl]. exists ([(ns, key)] ++ l). by eapply expire_all_app. }
  clearbody adm. destruct adm as [[[[]|] r2]|]; [|done|done]. destruct (Hadm _ _ eq_refl) as [l Hl]. cbn [obind].
  intros (F1 & F2 & F3 & F4)%store_record_spec. split_and!; [done|done|by exists x| |].
  - intros n k Hne. rewrite <-(expire_all_visible _ _ _ _ n k Hl). unfold visible. by rewrite F3.
  - intros st Hst. destruct (expire_all_revision _ _ _ _ _ _ Hl Hst) as (st' & Hst' & Hle). specialize (F4 _ Hst'). lia.
Qed.

Lemma check_expected_Ok expected current wanted :
  check_expected expected current = Ok tt → expected = Some wanted →
  current = if wanted =? 0 then None else Some wanted.
Proof.
  intros H ->. cbn in H. destruct current as [have|]; destruct (wanted =? 0); try done.
  split_match_in H; [|done]. reflect_bools. by subst.
Qed.

(** Publishing leaves the registry as the request left it. *)
Lemma drain_and_publish_registry s r d direct clock sent s' :
  drain_and_publish s r d direct clock = Ret (sent, s') →
  sv_registry s' = (drain_pending r).2.
Proof.
  unfold drain_and_publish. cbn [drain_pending]. unfold publish_events.
  destruct (publish _ _ _ _ _ _ _) as [[[a W] t]|]; [|done]. cbn [obind]. by intros [= <- <-].
Qed.

(** C8. A put that succeeds is a compare-and-set: the entry its client saw (none, or one
    of the expected revision; expired ones do not count) was the current one, the new
    entry is stored with the value, schema and owner of the request and with a revision
    above every earlier one of its namespace, and no other entry a reader sees changes.
    Database failures, quotas and due expirations never make it anything else. *)
Theorem put_compare_and_set n s session p q busy clock io s' sent x :
  reached n s → n ≤ MAX_STEPS → 0 ≤ c_now_ms clock → str_len (p_id p) ≤ 256 →
  step s (SRequest session p (ActPut q) busy clock io) = Ret (s', sent, Some (Ok (ResultEntry x))) →
  let now := c_now_ms clock in
  (∀ expected, ps_expected_revision q = Some expected →
     sr_revision <$> visible (sv_registry s) (ps_namespace q) (ps_key q) now = if expected =? 0 then None else Some expected)
  ∧ (∃ v e, ps_value q = Some v
      ∧ e = entry_of (ps_namespace q) (ps_key q) (mk_record (ps_schema q) v (se_revision e) now (se_expires_ms e) (p_id p))
      ∧ x = proto_entry e ∧ find_record (sv_registry s') (ps_namespace q) (ps_key q) = Some (record_of e)
      ∧ ∀ st, namespaces (sv_registry s) !! ps_namespace q = Some st → ns_revision st < se_revision e)
  ∧ ∀ ns key, (ns, key) ≠ (ps_namespace q, ps_key q) →
      visible (sv_registry s') ns key now = visible (sv_registry s) ns key now.
Proof.
  intros Hr Hmax Hnow Hp. pose proof (reached_ok n s Hr Hmax) as Hs. cbn [step command_namespace is_some_and dispatch].
  destruct (is_adapter_namespace _); [done|]. unfold do_put. destruct (ps_value q) as [v|]; [|done].
  destruct (on_durable_spec s _ _ (λ d io, d_put d (ps_namespace q) (ps_key q) (ps_schema q) (Some v)
      (ps_expected_revision q) (ps_ttl q) (p_id p) (p_admin p) (c_now_ms clock) io) io _ Hs
    (λ d Hd, put_in_step (sv_registry s) d (ps_namespace q) (ps_key q) (ps_schema q) (Some v) (ps_expected_revision q)
      (ps_ttl q) (p_id p) (p_admin p) (c_now_ms clock) io (so_registry _ _ _ Hs) Hd Hnow Hp))
    as (done_ & d' & io' & -> & Hres). cbn [obind]. destruct done_ as [[]|err]; [|done].
  destruct Hres as (e & r' & Hput & _). rewrite Hput. cbn [obind].
  destruct (drain_and_publish _ _ _ _ _) as [[sent' s1]|] eqn:Hd; [|done]. cbn [obind]. intros [= <- <- <-].
  apply drain_and_publish_registry in Hd. cbn zeta.
  destruct (put_visible _ _ _ _ _ _ _ _ _ _ _ _ Hput) as (F1 & F2 & (t & F3) & F4 & F5).
  assert (∀ ns key, find_record (sv_registry s1) ns key = find_record r' ns key) as Hf by (intros; by rewrite Hd).
  split_and!; [intros expected Hex; by eapply check_expected_Ok| |intros ns key Hne; unfold visible at 1; rewrite Hf; by apply F4].
  exists v, e. split_and!; [done|by rewrite F3 at 1; rewrite F3 at 3|done|by rewrite Hf|done].
Qed.

End claims.

(** ** A concrete server

    Documents are stored as they are, ten bytes each, and every notification arrives. *)

Definition demo_store : StoreEnv := {| encoded_len := λ _, 10; hash_iter := λ V m, map_to_list m |}.
Lemma demo_store_laws : StoreLaws demo_store.
Proof. split; [done|]. intros V m. reflexivity. Qed.

Definition demo_database : DatabaseEnv := {|
  Blob := Struct; encode_to_vec := λ v, v; struct_decode := λ v, Ok v; blob_len := λ _, 10; query_order := elements
|}.
Lemma demo_database_laws : DatabaseLaws demo_store demo_database.
Proof. by split. Qed.

Definition demo_env : ServerEnv := {|
  Transport := unit; enqueue := λ t _ _, (Sent, t); has_session := λ _ _, true; snapshot_encoded_len := λ _, 100;
  active := λ _ _, true; idle_timeout := 1000000; project_status := λ _ e, e; watch_iter := map_to_list
|}.
Lemma demo_env_laws : ServerLaws demo_env.
Proof. by split. Qed.

(** Both sides of a closed equation evaluate to the same value. *)
Ltac computed := match goal with |- ?a = _ => vm_cast_no_check (eq_refl a) end.

#[local] Existing Instances demo_store demo_store_laws demo_database demo_database_laws demo_env demo_env_laws.

Definition demo_wire : @Transport demo_env := tt.
Definition demo_admin : Principal := mk_principal "admin" true.
Definition demo_sessions : gmap Z ApiSession := {[ 7 := mk_session demo_admin false 1000000 0 ]}.
Definition demo_boot : outcome (option ServerState) := booted (mk_file 0 empty_tables) 1000 [] demo_sessions demo_wire.
Definition demo_server : ServerState :=
  match demo_boot with Ret (Some s) => s | _ => mk_server registry_default None ∅ ∅ demo_wire end.

Definition demo_intent : Struct :=
  [("role", StringValue "subscribe"); ("desired", BoolValue true); ("source_id", StringValue "cam1");
   ("media_kind", StringValue "video")].
Definition demo_put (key : string) (ttl : option Duration) : PutState :=
  mk_put_state "service/app/" key MEDIA_INTENT_SCHEMA (Some demo_intent) None ttl.
Definition demo_request (a : Action) (now : Z) : Step := SRequest 7 demo_admin a false (mk_clock now now) [].

(** What a step leaves, sends and answers. *)
Definition demo_next (s : ServerState) (st : Step) : ServerState * Sends * option (result ControlCommandError StateStoreResult) :=
  match step s st with Ret o => o | Panic => (s, [], None) end.
Definition demo_first : ServerState := (demo_next demo_server (demo_request (ActPut (demo_put "a" None)) 1000)).1.1.

Lemma demo_reached : reached 1 demo_first.
Proof.
  set (st := demo_request (ActPut (demo_put "a" None)) 1000).
  apply (reached_step 0 demo_server st _ (demo_next demo_server st).1.2 (demo_next demo_server st).2).
  - apply (reached_boot (mk_file 0 empty_tables) 1000 [] demo_sessions demo_wire); [done|done|]. computed.
  - by split.
  - computed.
Qed.

Lemma store_invariant_witness :
  bool_decide (is_Some (find_record (sv_registry demo_first) "service/app/" "a")) = true
  ∧ ∃ s' sent reply, step demo_first (demo_request (ActPut (demo_put "b" None)) 2000) = Ret (s', sent, reply).
Proof.
  split; [computed|].
  apply (store_invariant 1 demo_first (demo_request (ActPut (demo_put "b" None)) 2000)); [apply demo_reached|done|by split].
Defined.

Lemma restart_recovers_witness :
  sr_revision <$> visible (sv_registry demo_first) "service/app/" "a" 5000 = Some 1
  ∧ ∃ d, sv_durable demo_first = Some d ∧
    match booted (mk_file SCHEMA_VERSION (connection d)) 5000 [] demo_sessions demo_wire with
    | Ret (Some s') => find_record (sv_registry s') "service/app/" "a" = visible (sv_registry demo_first) "service/app/" "a" 5000
    | _ => False
    end.
Proof.
  split; [computed|].
  destruct (restart_recovers 1 demo_first 5000 [] demo_sessions demo_wire demo_reached ltac:(done) ltac:(done)) as (d & Hd & H).
  exists d. split; [exact Hd|]. destruct (booted _ _ _ _ _) as [[s'|]|]; [|by apply H|by apply H]. apply H.
Defined.

Definition demo_watch : Step := demo_request (ActWatch "service/app/" "" "w1") 2000.
Definition demo_steps : list Step :=
  [demo_request (ActPut (demo_put "b" None)) 3000; demo_request (ActPut (demo_put "c" (Some (mk_duration 1 0)))) 3000;
   demo_request (ActDelete "service/app/" "a" (Some 1)) 3500; SSweep (mk_clock 9000 9000) []].
Definition demo_watching : ServerState := (demo_next demo_first demo_watch).1.1.
Definition demo_snapshot : StateWatchSnapshot :=
  match (demo_next demo_first demo_watch).2 with Some (Ok (ResultWatch m)) => m | _ => mk_snapshot "" "" "" 0 [] end.
Definition demo_end : ServerState * Sends :=
  match run demo_watching demo_steps with Ret o => o | Panic => (demo_watching, []) end.
Definition demo_updates : list Notification := updates_to (7, "w1") demo_end.2.

(** Four updates (two puts, a deletion and an expiration) lead from the snapshot to the view. *)
Lemma watch_replica_witness :
  length demo_updates = 4%nat
  ∧ foldl apply_update (replica_of (sn_entries demo_snapshot)) demo_updates = view (sv_registry demo_end.1) "service/app/" "".
Proof.
  split; [computed|].
  apply (watch_replica 1 demo_first 7 demo_admin "service/app/" "" "w1" false (mk_clock 2000 2000) [] demo_watching
    (demo_next demo_first demo_watch).1.2 demo_snapshot demo_steps demo_end.1 demo_end.2
    (match sv_watches demo_end.1 !! (7, "w1") with Some w => w | None => mk_watch 0 "" "" "" 0 0 [] end)).
  - apply demo_reached.
  - done.
  - computed.
  - repeat constructor; done.
  - repeat constructor; done.
  - computed.
  - computed.
  - computed.
Defined.

(** The entry of revision 1 is replaced by a client that saw it. *)
Definition demo_update : PutState := mk_put_state "service/app/" "a" MEDIA_INTENT_SCHEMA (Some demo_intent) (Some 1) None.
Definition demo_second : Step := demo_request (ActPut demo_update) 2000.
Definition demo_entry : StateEntry :=
  match (demo_next demo_first demo_second).2 with
  | Some (Ok (ResultEntry x)) => x
  | _ => proto_entry (mk_entry "" "" "" [] 0 0 None "")
  end.

Lemma put_compare_and_set_witness :
  pe_revision demo_entry = 2
  ∧ sr_revision <$> visible (sv_registry demo_first) "service/app/" "a" 2000 = Some 1
  ∧ ∀ key, key ≠ "a"%string →
      visible (sv_registry (demo_next demo_first demo_second).1.1) "service/app/" key 2000
      = visible (sv_registry demo_first) "service/app/" key 2000.
Proof.
  split; [computed|].
  destruct (put_compare_and_set 1 demo_first 7 demo_admin demo_update false (mk_clock 2000 2000) []
    (demo_next demo_first demo_second).1.1 (demo_next demo_first demo_second).1.2 demo_entry demo_reached)
    as (Hseen & _ & Hkeep); [done|done|done|computed|].
  split; [exact (Hseen 1 eq_refl)|]. intros key Hne. apply Hkeep. intros [=]. done.
Defined.
