(* ===== verification/Mp4Io.v ===== *)
(** * Reading and writing MP4 files

    What the MP4 code ([crates/mp4]) uses of [std::io], [byteorder] and its own
    [error.rs]: a result that may also be a panic, the file a writer writes to with
    the failures of its calls, the cursor a reader reads from, and big-endian
    integers.

    A [Sink] is the writer as the program sees it (through its buffer): the bytes,
    the position, and the answers of the calls to come.  [Some n] makes a call fail
    after it moved [n] bytes, [None] lets it succeed, and every call after the list
    succeeds; so a statement about every [Sink] is a statement about every schedule
    of I/O failures.  [emits] and [reads] are the specifications the boxes are proved
    against; both compose along [bind]. *)

From S2P Require Import Prelude.

(** ** [BoxType] and [error.rs] *)

Inductive BoxType :=
| FtypBoxType | MvhdBoxType | MfhdBoxType | FreeBoxType | MdatBoxType | MoovBoxType | MvexBoxType
| MehdBoxType | TrexBoxType | EmsgBoxType | MoofBoxType | TkhdBoxType | TfhdBoxType | TfdtBoxType
| EdtsBoxType | MdiaBoxType | ElstBoxType | MdhdBoxType | HdlrBoxType | MinfBoxType | VmhdBoxType
| StblBoxType | StsdBoxType | SttsBoxType | CttsBoxType | StssBoxType | StscBoxType | StszBoxType
| StcoBoxType | Co64BoxType | TrakBoxType | TrafBoxType | TrunBoxType | UdtaBoxType | MetaBoxType
| DinfBoxType | DrefBoxType | UrlBoxType | SmhdBoxType | Avc1BoxType | AvcCBoxType | Hev1BoxType
| Hvc1BoxType | HvcCBoxType | Mp4aBoxType | EsdsBoxType | Tx3gBoxType | VpccBoxType | Vp09BoxType
| DataBoxType | IlstBoxType | NameBoxType | DayBoxType | CovrBoxType | DescBoxType | WideBoxType
| UnknownBox (t : Z).

#[global] Instance BoxType_eq_dec : EqDecision BoxType.
Proof. solve_decision. Defined.

Inductive Mp4Error :=
| IoError
| InvalidData (msg : string)
| BoxNotFound (t : BoxType)
| Box2NotFound (a b : BoxType)
| TrakNotFound (id : Z)
| BoxInTrakNotFound (id : Z) (t : BoxType)
| BoxInTrafNotFound (id : Z) (t : BoxType)
| BoxInStblNotFound (id : Z) (t : BoxType)
| EntryInStblNotFound (id : Z) (t : BoxType) (entry : Z)
| EntryInTrunNotFound (id : Z) (t : BoxType) (entry : Z)
| UnsupportedBoxVersion (t : BoxType) (version : Z).

(** A call returns a value, returns an error, or panics. *)
Inductive io (A : Type) : Type :=
| Done (a : A)
| Fails (e : Mp4Error)
| Panics.
Arguments Done {A} a.
Arguments Fails {A} e.
Arguments Panics {A}.

Definition is_done {A : Type} (r : io A) : bool := match r with Done _ => true | _ => false end.

(** [Option::ok_or]. *)
Definition ok_or {A : Type} (o : option A) (e : Mp4Error) : io A :=
  match o with Some a => Done a | None => Fails e end.

(** ** Big-endian integers *)

Fixpoint be_bytes (k : nat) (n : Z) : list Z :=
  match k with
  | O => []
  | S k => Z.land (Z.shiftr n (8 * Z.of_nat k)) 255 :: be_bytes k n
  end.

Definition from_be (l : list Z) : Z := fold_left (λ acc b, acc * 256 + b) l 0.

(** [as u32] and the sign of an [i32]. *)
Definition u32_of_i32 (z : Z) : Z := z mod 2 ^ 32.
Definition i32_of_u32 (n : Z) : Z := if n <? 2 ^ 31 then n else n - 2 ^ 32.

(** ** The writer *)

Record Sink := mk_sink { s_bytes : list Z; s_pos : Z; s_faults : list (option Z) }.

Definition W (A : Type) : Type := Sink → io A * Sink.

Definition wret {A : Type} (a : A) : W A := λ s, (Done a, s).
Definition wfail {A : Type} (e : Mp4Error) : W A := λ s, (Fails e, s).
Definition wpanic {A : Type} : W A := λ s, (Panics, s).
Definition wbind {A B : Type} (m : W A) (k : A → W B) : W B :=
  λ s, match m s with
       | (Done a, s') => k a s'
       | (Fails e, s') => (Fails e, s')
       | (Panics, s') => (Panics, s')
       end.
Definition wlift {A : Type} (r : io A) : W A := λ s, (r, s).

Notation "'let^' x := m 'in' k" := (wbind m (λ x, k))
  (at level 10, x pattern, m at level 100, k at level 200,
   format "'[v' 'let^'  x  :=  m  'in' '/' k ']'") : rust_scope.
Notation "m ;^ k" := (wbind m (λ _, k)) (at level 100, right associativity) : rust_scope.

(** The bytes after [bs] is written at the position [p]; a gap past the end reads as
    zeros. *)
Definition overwrite (l : list Z) (p : nat) (bs : list Z) : list Z :=
  take p l ++ replicate (p - length l) 0 ++ bs ++ drop (p + length bs) l.

(** The sink after [bs] was written and the answers [fs] remain. *)
Definition put (bs : list Z) (fs : list (option Z)) (s : Sink) : Sink :=
  mk_sink (overwrite (s_bytes s) (Z.to_nat (s_pos s)) bs) (s_pos s + vec_len bs) fs.

Definition seek_to (p : Z) (fs : list (option Z)) (s : Sink) : Sink := mk_sink (s_bytes s) p fs.

(** [Write::write_all]. *)
Definition write_all (bs : list Z) : W unit :=
  λ s, match s_faults s with
       | Some n :: fs => (Fails IoError, put (take (Z.to_nat n) bs) fs s)
       | None :: fs => (Done (), put bs fs s)
       | [] => (Done (), put bs [] s)
       end.
(** [Write::flush] and [Seek::stream_position]: no byte moves. *)
Definition sink_flush : W unit :=
  λ s, match s_faults s with
       | Some _ :: fs => (Fails IoError, seek_to (s_pos s) fs s)
       | None :: fs => (Done (), seek_to (s_pos s) fs s)
       | [] => (Done (), s)
       end.
Definition stream_position : W Z :=
  λ s, match s_faults s with
       | Some _ :: fs => (Fails IoError, seek_to (s_pos s) fs s)
       | None :: fs => (Done (s_pos s), seek_to (s_pos s) fs s)
       | [] => (Done (s_pos s), s)
       end.
(** [Seek::seek(SeekFrom::Start(p))]. *)
Definition sink_seek (p : Z) : W unit :=
  λ s, match s_faults s with
       | Some _ :: fs => (Fails IoError, seek_to (s_pos s) fs s)
       | None :: fs => (Done (), seek_to p fs s)
       | [] => (Done (), seek_to p [] s)
       end.

Definition write_u8 (n : Z) : W unit := write_all (be_bytes 1 n).
(** [write_u24] asserts that its argument fits in three bytes. *)
Definition write_u24 (n : Z) : W unit := if n <? 2 ^ 24 then write_all (be_bytes 3 n) else wpanic.
Definition write_u32 (n : Z) : W unit := write_all (be_bytes 4 n).
Definition write_u64 (n : Z) : W unit := write_all (be_bytes 8 n).
Definition write_i32 (z : Z) : W unit := write_all (be_bytes 4 (u32_of_i32 z)).

(** [if let Some(v) = field { write(v)? }]. *)
Definition write_opt {A : Type} (w : A → W unit) (o : option A) : W unit :=
  match o with Some a => w a | None => wret () end.
(** [for a in l { w(a)? }]. *)
Fixpoint write_each {A B : Type} (w : A → W B) (l : list A) : W unit :=
  match l with
  | [] => wret ()
  | a :: l => w a ;^ write_each w l
  end.

(** ** The reader *)

Definition R (A : Type) : Type := list Z → Z → io (A * Z).

Definition rret {A : Type} (a : A) : R A := λ _ p, Done (a, p).
Definition rfail {A : Type} (e : Mp4Error) : R A := λ _ _, Fails e.
Definition rdbind {A B : Type} (m : R A) (k : A → R B) : R B :=
  λ data p, match m data p with
            | Done (a, p') => k a data p'
            | Fails e => Fails e
            | Panics => Panics
            end.

Notation "'let%' x := m 'in' k" := (rdbind m (λ x, k))
  (at level 10, x pattern, m at level 100, k at level 200,
   format "'[v' 'let%'  x  :=  m  'in' '/' k ']'") : rust_scope.
Notation "m ;% k" := (rdbind m (λ _, k)) (at level 100, right associativity) : rust_scope.

(** [Read::read_exact] of [n] bytes. *)
Definition read_exact (n : nat) : R (list Z) :=
  λ data p, if p + Z.of_nat n <=? vec_len data
            then Done (take n (drop (Z.to_nat p) data), p + Z.of_nat n)
            else Fails IoError.
Definition read_uint (k : nat) : R Z := let% bs := read_exact k in rret (from_be bs).
Definition read_u8 : R Z := read_uint 1.
Definition read_u24 : R Z := read_uint 3.
Definition read_u32 : R Z := read_uint 4.
Definition read_u64 : R Z := read_uint 8.
Definition read_i32 : R Z := let% n := read_uint 4 in rret (i32_of_u32 n).
Definition tell : R Z := λ _ p, Done (p, p).
Definition skip_bytes_to (p : Z) : R unit := λ _ _, Done ((), p).

Definition rok_or {A : Type} (o : option A) (e : Mp4Error) : R A :=
  match o with Some a => rret a | None => rfail e end.
(** [if flag { Some(read()?) } else { None }]. *)
Definition read_opt {A : Type} (flag : bool) (r : R A) : R (option A) :=
  if flag then let% a := r in rret (Some a) else rret None.

(** ** Big-endian round trip *)

Lemma be_bytes_length k n : length (be_bytes k n) = k.
Proof. induction k as [|k IH]; [done|]. cbn [be_bytes length]. by rewrite IH. Qed.

Lemma byte_at n i : 0 ≤ i → Z.land (Z.shiftr n i) 255 = (n / 2 ^ i) mod 2 ^ 8.
Proof. intros. rewrite Z.shiftr_div_pow2 by done. apply (Z.land_ones _ 8). lia. Qed.

Lemma from_be_fold l acc : fold_left (λ acc b, acc * 256 + b) l acc = acc * 2 ^ (8 * vec_len l) + from_be l.
Proof.
  unfold from_be, vec_len. revert acc. induction l as [|b l IH]; intros acc; [cbn [fold_left length]; lia|].
  cbn [fold_left length]. rewrite (IH (acc * 256 + b)), (IH (0 * 256 + b)).
  replace (8 * Z.of_nat (S (length l))) with (8 + 8 * Z.of_nat (length l)) by lia.
  rewrite Z.pow_add_r by lia. change (2 ^ 8) with 256. nia.
Qed.

Lemma from_be_bytes_mod k n : from_be (be_bytes k n) = n mod 2 ^ (8 * Z.of_nat k).
Proof.
  induction k as [|k IH]; [cbn; by rewrite Z.mod_1_r|].
  cbn [be_bytes]. unfold from_be. cbn [fold_left]. rewrite from_be_fold, IH.
  unfold vec_len. rewrite be_bytes_length, byte_at by lia.
  replace (8 * Z.of_nat (S k)) with (8 * Z.of_nat k + 8) by lia.
  rewrite Z.pow_add_r, Z.rem_mul_r by (try apply Z.pow_pos_nonneg; lia). lia.
Qed.

Lemma from_be_bytes_roundtrip k n : 0 ≤ n < 2 ^ (8 * Z.of_nat k) → from_be (be_bytes k n) = n.
Proof. intros. rewrite from_be_bytes_mod. by apply Z.mod_small. Qed.

Lemma i32_roundtrip z : - 2 ^ 31 ≤ z < 2 ^ 31 → i32_of_u32 (u32_of_i32 z) = z.
Proof.
  intros Hz. unfold i32_of_u32, u32_of_i32. destruct (decide (0 ≤ z)).
  - rewrite Z.mod_small by lia. destruct (z <? 2 ^ 31) eqn:?; reflect_bools; lia.
  - replace (z mod 2 ^ 32) with (z + 2 ^ 32)
      by (rewrite <-(Z.mod_add z 1) by lia; rewrite Z.mod_small; lia).
    destruct (z + 2 ^ 32 <? 2 ^ 31) eqn:?; reflect_bools; lia.
Qed.

Lemma u32_of_i32_range z : 0 ≤ u32_of_i32 z < 2 ^ (8 * Z.of_nat 4).
Proof. apply (Z.mod_pos_bound z (2 ^ 32)). lia. Qed.

(** ** What a sequence of writes leaves in the sink *)

Definition sink_ok (s : Sink) : Prop := 0 ≤ s_pos s ≤ vec_len (s_bytes s).

Lemma overwrite_length l p bs :
  (p ≤ length l)%nat → length (overwrite l p bs) = Nat.max (length l) (p + length bs).
Proof.
  intros. unfold overwrite. rewrite !length_app, length_take, length_replicate, length_drop. lia.
Qed.

Lemma overwrite_inside l p bs :
  (p ≤ length l)%nat → overwrite l p bs = take p l ++ bs ++ drop (p + length bs) l.
Proof. intros. unfold overwrite. by replace (p - length l)%nat with 0%nat by lia. Qed.

Lemma overwrite_nil l p : (p ≤ length l)%nat → overwrite l p [] = l.
Proof.
  intros. rewrite overwrite_inside by done. cbn [length app]. rewrite Nat.add_0_r. apply take_drop.
Qed.

Lemma overwrite_app l p a b :
  (p ≤ length l)%nat → overwrite (overwrite l p a) (p + length a) b = overwrite l p (a ++ b).
Proof.
  intros. assert (length (take p l) = p) as Hp by (rewrite length_take; lia).
  rewrite (overwrite_inside (overwrite l p a)) by (rewrite overwrite_length by done; lia).
  rewrite !(overwrite_inside l) by done. rewrite (app_assoc (take p l) a).
  rewrite take_app_le by (rewrite length_app; lia).
  rewrite (take_ge (take p l ++ a)) by (rewrite length_app; lia).
  rewrite drop_app_ge by (rewrite length_app; lia).
  rewrite drop_drop, length_app, Hp, !length_app, <-!app_assoc. do 4 f_equal. lia.
Qed.

Lemma put_ok bs fs s : sink_ok s → sink_ok (put bs fs s).
Proof.
  intros [H1 H2]. unfold sink_ok, put, vec_len in *. cbn [s_pos s_bytes].
  rewrite overwrite_length by lia. lia.
Qed.

Lemma put_nil s : sink_ok s → put [] (s_faults s) s = s.
Proof.
  intros [H1 H2]. unfold vec_len in H2. destruct s as [l p fs]. unfold put, vec_len. cbn [s_pos s_bytes s_faults length] in *.
  rewrite overwrite_nil by lia. f_equal. lia.
Qed.

Lemma put_put a b fs gs s : sink_ok s → put b gs (put a fs s) = put (a ++ b) gs s.
Proof.
  intros [H1 H2]. unfold vec_len in H2. unfold put, vec_len. cbn [s_pos s_bytes].
  replace (Z.to_nat (s_pos s + Z.of_nat (length a))) with (Z.to_nat (s_pos s) + length a)%nat by lia.
  rewrite overwrite_app by lia. rewrite length_app. f_equal. lia.
Qed.

(** [m] writes exactly [bs] and returns [a]; only a failing call can stop it, and then
    a prefix of [bs] was written. *)
Definition emits {A : Type} (m : W A) (a : A) (bs : list Z) : Prop :=
  ∀ s, sink_ok s → ∃ fs, fs `suffix_of` s_faults s ∧
    (m s = (Done a, put bs fs s) ∨
     (s_faults s ≠ [] ∧ ∃ n, m s = (Fails IoError, put (take n bs) fs s))).

Lemma emits_ret {A : Type} (a : A) : emits (wret a) a [].
Proof. intros s Hs. exists (s_faults s). split; [done|]. left. unfold wret. by rewrite put_nil. Qed.

Lemma emits_write_all bs : emits (write_all bs) () bs.
Proof.
  intros s Hs. unfold write_all. destruct (s_faults s) as [|[n|] fs] eqn:Hf.
  - exists []. split; [done|]. by left.
  - exists fs. split; [by apply suffix_cons_r|]. right. split; [done|]. by exists (Z.to_nat n).
  - exists fs. split; [by apply suffix_cons_r|]. by left.
Qed.

Lemma emits_bind {A B : Type} (m : W A) (k : A → W B) a b xs ys :
  emits m a xs → emits (k a) b ys → emits (wbind m k) b (xs ++ ys).
Proof.
  intros Hm Hk s Hs. unfold wbind. destruct (Hm s Hs) as (fs & Hfs & [E|(Hne & n & E)]); rewrite E.
  - destruct (Hk (put xs fs s) (put_ok _ _ _ Hs)) as (gs & Hgs & [F|(Hne & n & F)]); rewrite F; exists gs.
    + split; [by etransitivity|]. left. by rewrite put_put.
    + split; [by etransitivity|]. right. split.
      * intros Hnil. rewrite Hnil in Hfs. apply suffix_nil_inv in Hfs. subst fs. by apply Hne.
      * exists (length xs + n)%nat. rewrite put_put by done. by rewrite take_app_add.
  - exists fs. split; [done|]. right. split; [done|]. exists (n `min` length xs)%nat.
    rewrite take_app_le by lia. by rewrite <-(firstn_all xs) at 1; rewrite take_take.
Qed.

Lemma emits_bind_ret {A : Type} (m : W unit) (k : W A) a xs ys :
  emits m () xs → emits k a ys → emits (m ;^ k) a (xs ++ ys).
Proof. intros. by apply emits_bind with (). Qed.

Lemma emits_write_opt {A : Type} (w : A → W unit) (e : A → list Z) o :
  (∀ a, o = Some a → emits (w a) () (e a)) →
  emits (write_opt w o) () (match o with Some a => e a | None => [] end).
Proof. intros H. destruct o; [by apply H|apply emits_ret]. Qed.

Lemma emits_write_each {A B : Type} (w : A → W B) (b : B) (e : A → list Z) l :
  (∀ a, a ∈ l → emits (w a) b (e a)) → emits (write_each w l) () (mjoin (e <$> l)).
Proof.
  induction l as [|a l IH]; intros H; [apply emits_ret|].
  cbn [write_each fmap list_fmap mjoin list_join]. apply (emits_bind _ _ b).
  - apply H, list_elem_of_here.
  - apply IH. intros x Hx. apply H. by apply list_elem_of_further.
Qed.

Lemma emits_u24 n : n < 2 ^ 24 → emits (write_u24 n) () (be_bytes 3 n).
Proof. intros. unfold write_u24. destruct (n <? 2 ^ 24) eqn:?; reflect_bools; [apply emits_write_all|lia]. Qed.

(** ** What a reader finds *)

(** [m] consumes exactly [bs] and returns [a], wherever [bs] stands. *)
Definition reads {A : Type} (m : R A) (a : A) (bs : list Z) : Prop :=
  ∀ pre post, m (pre ++ bs ++ post) (vec_len pre) = Done (a, vec_len (pre ++ bs)).

Lemma reads_ret {A : Type} (a : A) : reads (rret a) a [].
Proof. intros pre post. unfold rret. by rewrite app_nil_r. Qed.

Lemma reads_bind {A B : Type} (m : R A) (k : A → R B) a b xs ys :
  reads m a xs → reads (k a) b ys → reads (rdbind m k) b (xs ++ ys).
Proof.
  intros Hm Hk pre post. unfold rdbind. rewrite <-(app_assoc xs), (Hm pre (ys ++ post)).
  rewrite (app_assoc pre), Hk. by rewrite app_assoc.
Qed.

Lemma reads_exact bs n : length bs = n → reads (read_exact n) bs bs.
Proof.
  intros <- pre post. unfold read_exact, vec_len. rewrite !length_app.
  destruct (_ <=? _) eqn:E; reflect_bools; [|lia]. rewrite Nat2Z.id, drop_app_length, take_app_length.
  do 2 f_equal. lia.
Qed.

Lemma reads_uint k n : 0 ≤ n < 2 ^ (8 * Z.of_nat k) → reads (read_uint k) n (be_bytes k n).
Proof.
  intros Hn. unfold read_uint. rewrite <-(app_nil_r (be_bytes k n)).
  apply reads_bind with (be_bytes k n); [apply reads_exact, be_bytes_length|].
  rewrite from_be_bytes_roundtrip by done. apply reads_ret.
Qed.

Lemma reads_i32 z : - 2 ^ 31 ≤ z < 2 ^ 31 → reads read_i32 z (be_bytes 4 (u32_of_i32 z)).
Proof.
  intros Hz. unfold read_i32. rewrite <-(app_nil_r (be_bytes 4 _)).
  apply reads_bind with (u32_of_i32 z); [apply reads_uint, u32_of_i32_range|].
  rewrite i32_roundtrip by done. apply reads_ret.
Qed.

Lemma reads_opt {A : Type} flag (r : R A) (e : A → list Z) o :
  flag = negb (is_none o) → (∀ a, o = Some a → reads r a (e a)) →
  reads (read_opt flag r) o (match o with Some a => e a | None => [] end).
Proof.
  intros -> H. destruct o as [a|]; cbn; [|apply reads_ret].
  rewrite <-(app_nil_r (e a)). apply reads_bind with a; [by apply H|apply reads_ret].
Qed.
