(* ===== verification/Mp4Box.v ===== *)
(** * The boxes of a movie fragment

    [crates/mp4/src/mp4box]: the box header of [mod.rs], and the boxes a recorded
    fragment is made of: [moof.rs] with its [mfhd.rs] and, per track, [traf.rs] with
    [tfhd.rs], [tfdt.rs] and [trun.rs].  Each box is a record with its size, its
    writer and its reader, call by call.  The sizes are sums of machine words far
    below [2^64]; a read loop runs on fuel, which the length of the data bounds. *)

From S2P Require Import Prelude Mp4Io.

Definition HEADER_SIZE : Z := 8.
Definition HEADER_EXT_SIZE : Z := 4.

(** ** [impl From<u32> for BoxType] and back *)

Definition boxtype_table : list (BoxType * Z) :=
  [(FtypBoxType, 0x66747970); (MvhdBoxType, 0x6d766864); (MfhdBoxType, 0x6d666864);
   (FreeBoxType, 0x66726565); (MdatBoxType, 0x6d646174); (MoovBoxType, 0x6d6f6f76);
   (MvexBoxType, 0x6d766578); (MehdBoxType, 0x6d656864); (TrexBoxType, 0x74726578);
   (EmsgBoxType, 0x656d7367); (MoofBoxType, 0x6d6f6f66); (TkhdBoxType, 0x746b6864);
   (TfhdBoxType, 0x74666864); (TfdtBoxType, 0x74666474); (EdtsBoxType, 0x65647473);
   (MdiaBoxType, 0x6d646961); (ElstBoxType, 0x656c7374); (MdhdBoxType, 0x6d646864);
   (HdlrBoxType, 0x68646c72); (MinfBoxType, 0x6d696e66); (VmhdBoxType, 0x766d6864);
   (StblBoxType, 0x7374626c); (StsdBoxType, 0x73747364); (SttsBoxType, 0x73747473);
   (CttsBoxType, 0x63747473); (StssBoxType, 0x73747373); (StscBoxType, 0x73747363);
   (StszBoxType, 0x7374737A); (StcoBoxType, 0x7374636F); (Co64BoxType, 0x636F3634);
   (TrakBoxType, 0x7472616b); (TrafBoxType, 0x74726166); (TrunBoxType, 0x7472756E);
   (UdtaBoxType, 0x75647461); (MetaBoxType, 0x6d657461); (DinfBoxType, 0x64696e66);
   (DrefBoxType, 0x64726566); (UrlBoxType, 0x75726C20); (SmhdBoxType, 0x736d6864);
   (Avc1BoxType, 0x61766331); (AvcCBoxType, 0x61766343); (Hev1BoxType, 0x68657631);
   (Hvc1BoxType, 0x68766331); (HvcCBoxType, 0x68766343); (Mp4aBoxType, 0x6d703461);
   (EsdsBoxType, 0x65736473); (Tx3gBoxType, 0x74783367); (VpccBoxType, 0x76706343);
   (Vp09BoxType, 0x76703039); (DataBoxType, 0x64617461); (IlstBoxType, 0x696c7374);
   (NameBoxType, 0xa96e616d); (DayBoxType, 0xa9646179); (CovrBoxType, 0x636f7672);
   (DescBoxType, 0x64657363); (WideBoxType, 0x77696465)].

Definition boxtype_from_u32 (t : Z) : BoxType :=
  match find (λ e, t =? snd e) boxtype_table with
  | Some e => fst e
  | None => UnknownBox t
  end.
Definition boxtype_to_u32 (b : BoxType) : Z :=
  match b with
  | UnknownBox t => t
  | _ => match find (λ e, bool_decide (fst e = b)) boxtype_table with
         | Some e => snd e
         | None => 0
         end
  end.

(** ** [BoxHeader] *)

Record BoxHeader := mk_header { bh_name : BoxType; bh_size : Z }.

Definition header_read : R BoxHeader :=
  let% buf := read_exact 8 in
  let size := from_be (take 4 buf) in
  let typ := from_be (drop 4 buf) in
  if size =? 1 then
    let% buf := read_exact 8 in
    let largesize := from_be buf in
    if largesize =? 0 then rret (mk_header (boxtype_from_u32 typ) 0)
    else if largesize <=? 15 then rfail (InvalidData "64-bit box size too small")
    else rret (mk_header (boxtype_from_u32 typ) (largesize - 8))
  else if negb (size =? 0) && (size <? HEADER_SIZE)
       then rfail (InvalidData "box size is smaller than its header")
       else rret (mk_header (boxtype_from_u32 typ) size).

Definition header_write (h : BoxHeader) : W Z :=
  if negb (bh_size h =? 0) && (bh_size h <? HEADER_SIZE)
  then wfail (InvalidData "box size is smaller than its header")
  else if u32_max <? bh_size h then
    match checked_add u64_max (bh_size h) 8 with
    | None => wfail (InvalidData "64-bit box size overflow")
    | Some largesize =>
        write_u32 1 ;^ write_u32 (boxtype_to_u32 (bh_name h)) ;^ write_u64 largesize ;^ wret 16
    end
  else write_u32 (bh_size h) ;^ write_u32 (boxtype_to_u32 (bh_name h)) ;^ wret 8.

Definition read_box_header_ext : R (Z * Z) :=
  let% version := read_u8 in
  let% flags := read_u24 in
  rret (version, flags).
Definition write_box_header_ext (v f : Z) : W Z := write_u8 v ;^ write_u24 f ;^ wret 4.

Definition box_start : R Z :=
  let% p := tell in
  rok_or (checked_sub p HEADER_SIZE) (InvalidData "reader is positioned before the box header").
Definition checked_box_end (size : Z) : R Z :=
  if size <? HEADER_SIZE then rfail (InvalidData "box size is smaller than its header")
  else let% start := box_start in
       rok_or (checked_add u64_max start size) (InvalidData "box size overflow").
Definition ensure_box_size (size minimum_size : Z) : R unit :=
  if size <? minimum_size then rfail (InvalidData "box is too small for its required fields")
  else rret ().
Definition checked_box_end_with_min (size minimum_size : Z) : R Z :=
  ensure_box_size size minimum_size ;% checked_box_end size.
Definition ensure_box_bytes_remaining (end_ needed : Z) : R unit :=
  let% p := tell in
  let% remaining := rok_or (checked_sub end_ p) (InvalidData "box contents exceed its declared size") in
  if remaining <? needed then rfail (InvalidData "box is truncated") else rret ().
Definition read_box_header (end_ : Z) : R BoxHeader :=
  ensure_box_bytes_remaining end_ HEADER_SIZE ;%
  let% start := tell in
  let% encoded_size := read_u32 in
  skip_bytes_to start ;%
  (if encoded_size =? 1 then ensure_box_bytes_remaining end_ (HEADER_SIZE + 8) else rret ()) ;%
  header_read.
Definition skip_box (size : Z) : R unit :=
  let% end_ := checked_box_end size in skip_bytes_to end_.

(** ** [mfhd.rs] *)

Record MfhdBox := mk_mfhd { mfhd_version : Z; mfhd_flags : Z; sequence_number : Z }.
Definition mfhd_default : MfhdBox := mk_mfhd 0 0 1.
Definition mfhd_size (b : MfhdBox) : Z := HEADER_SIZE + HEADER_EXT_SIZE + 4.
Definition mfhd_read (size : Z) : R MfhdBox :=
  let% end_ := checked_box_end_with_min size (HEADER_SIZE + HEADER_EXT_SIZE + 4) in
  let% (version, flags) := read_box_header_ext in
  let% n := read_u32 in
  skip_bytes_to end_ ;%
  rret (mk_mfhd version flags n).
Definition mfhd_write (b : MfhdBox) : W Z :=
  let size := mfhd_size b in
  header_write (mk_header MfhdBoxType size) ;^
  write_box_header_ext (mfhd_version b) (mfhd_flags b) ;^
  write_u32 (sequence_number b) ;^
  wret size.

(** ** [tfdt.rs] *)

Record TfdtBox := mk_tfdt { tfdt_version : Z; tfdt_flags : Z; base_media_decode_time : Z }.
Definition tfdt_size (b : TfdtBox) : Z :=
  HEADER_SIZE + HEADER_EXT_SIZE + if tfdt_version b =? 1 then 8 else 4.
Definition tfdt_read (size : Z) : R TfdtBox :=
  let% end_ := checked_box_end_with_min size (HEADER_SIZE + HEADER_EXT_SIZE) in
  let% (version, flags) := read_box_header_ext in
  let% minimum_size :=
    (if version =? 0 then rret (HEADER_SIZE + HEADER_EXT_SIZE + 4)
     else if version =? 1 then rret (HEADER_SIZE + HEADER_EXT_SIZE + 8)
     else rfail (InvalidData "version must be 0 or 1")) in
  ensure_box_size size minimum_size ;%
  let% t := (if version =? 1 then read_u64 else read_u32) in
  skip_bytes_to end_ ;%
  rret (mk_tfdt version flags t).
Definition tfdt_write (b : TfdtBox) : W Z :=
  let size := tfdt_size b in
  header_write (mk_header TfdtBoxType size) ;^
  write_box_header_ext (tfdt_version b) (tfdt_flags b) ;^
  (if tfdt_version b =? 1 then write_u64 (base_media_decode_time b)
   else if tfdt_version b =? 0 then write_u32 (base_media_decode_time b)
   else wfail (InvalidData "version must be 0 or 1")) ;^
  wret size.

(** ** [tfhd.rs] *)

Record TfhdBox := mk_tfhd {
  tfhd_version : Z;
  tfhd_flags : Z;
  tfhd_track_id : Z;
  base_data_offset : option Z;
  sample_description_index : option Z;
  default_sample_duration : option Z;
  default_sample_size : option Z;
  default_sample_flags : option Z
}.
Definition FLAG_BASE_DATA_OFFSET : Z := 0x01.
Definition FLAG_SAMPLE_DESCRIPTION_INDEX : Z := 0x02.
Definition FLAG_DEFAULT_SAMPLE_DURATION : Z := 0x08.
Definition FLAG_DEFAULT_SAMPLE_SIZE : Z := 0x10.
Definition FLAG_DEFAULT_SAMPLE_FLAGS : Z := 0x20.
Definition FLAG_DEFAULT_BASE_IS_MOOF : Z := 0x020000.
Definition tfhd_default : TfhdBox := mk_tfhd 0 0 0 None None None None None.

(** [Self::FLAG & flags > 0]. *)
Definition flag_set (flag flags : Z) : bool := 0 <? Z.land flag flags.

Definition tfhd_size_of (flags : Z) : Z :=
  HEADER_SIZE + HEADER_EXT_SIZE + 4
  + (if flag_set FLAG_BASE_DATA_OFFSET flags then 8 else 0)
  + (if flag_set FLAG_SAMPLE_DESCRIPTION_INDEX flags then 4 else 0)
  + (if flag_set FLAG_DEFAULT_SAMPLE_DURATION flags then 4 else 0)
  + (if flag_set FLAG_DEFAULT_SAMPLE_SIZE flags then 4 else 0)
  + (if flag_set FLAG_DEFAULT_SAMPLE_FLAGS flags then 4 else 0).
Definition tfhd_size (b : TfhdBox) : Z := tfhd_size_of (tfhd_flags b).
Definition tfhd_read (size : Z) : R TfhdBox :=
  let% end_ := checked_box_end_with_min size (HEADER_SIZE + HEADER_EXT_SIZE) in
  let% (version, flags) := read_box_header_ext in
  ensure_box_size size (tfhd_size_of flags) ;%
  let% track_id := read_u32 in
  let% offset := read_opt (flag_set FLAG_BASE_DATA_OFFSET flags) read_u64 in
  let% index := read_opt (flag_set FLAG_SAMPLE_DESCRIPTION_INDEX flags) read_u32 in
  let% duration := read_opt (flag_set FLAG_DEFAULT_SAMPLE_DURATION flags) read_u32 in
  let% sample_size := read_opt (flag_set FLAG_DEFAULT_SAMPLE_SIZE flags) read_u32 in
  let% sample_flags := read_opt (flag_set FLAG_DEFAULT_SAMPLE_FLAGS flags) read_u32 in
  skip_bytes_to end_ ;%
  rret (mk_tfhd version flags track_id offset index duration sample_size sample_flags).
Definition tfhd_write (b : TfhdBox) : W Z :=
  let size := tfhd_size b in
  header_write (mk_header TfhdBoxType size) ;^
  write_box_header_ext (tfhd_version b) (tfhd_flags b) ;^
  write_u32 (tfhd_track_id b) ;^
  write_opt write_u64 (base_data_offset b) ;^
  write_opt write_u32 (sample_description_index b) ;^
  write_opt write_u32 (default_sample_duration b) ;^
  write_opt write_u32 (default_sample_size b) ;^
  write_opt write_u32 (default_sample_flags b) ;^
  wret size.

(** ** [trun.rs] *)

Record TrunBox := mk_trun {
  trun_version : Z;
  trun_flags : Z;
  sample_count : Z;
  data_offset : option Z;
  first_sample_flags : option Z;
  sample_durations : list Z;
  sample_sizes : list Z;
  trun_sample_flags : list Z;
  sample_cts : list Z
}.
Definition FLAG_DATA_OFFSET : Z := 0x01.
Definition FLAG_FIRST_SAMPLE_FLAGS : Z := 0x04.
Definition FLAG_SAMPLE_DURATION : Z := 0x100.
Definition FLAG_SAMPLE_SIZE : Z := 0x200.
Definition FLAG_SAMPLE_FLAGS : Z := 0x400.
Definition FLAG_SAMPLE_CTS : Z := 0x800.
Definition trun_default : TrunBox := mk_trun 0 0 0 None None [] [] [] [].

(** The bytes of the optional fields, and of one sample's fields. *)
Definition trun_other_size (flags : Z) : Z :=
  4 + (if flag_set FLAG_DATA_OFFSET flags then 4 else 0)
    + (if flag_set FLAG_FIRST_SAMPLE_FLAGS flags then 4 else 0).
Definition trun_sample_size (flags : Z) : Z :=
  (if flag_set FLAG_SAMPLE_DURATION flags then 4 else 0)
  + (if flag_set FLAG_SAMPLE_SIZE flags then 4 else 0)
  + (if flag_set FLAG_SAMPLE_FLAGS flags then 4 else 0)
  + (if flag_set FLAG_SAMPLE_CTS flags then 4 else 0).
Definition trun_size (b : TrunBox) : Z :=
  let flags := trun_flags b in
  let per := 4 * sample_count b in
  HEADER_SIZE + HEADER_EXT_SIZE + 4
  + (if flag_set FLAG_DATA_OFFSET flags then 4 else 0)
  + (if flag_set FLAG_FIRST_SAMPLE_FLAGS flags then 4 else 0)
  + (if flag_set FLAG_SAMPLE_DURATION flags then per else 0)
  + (if flag_set FLAG_SAMPLE_SIZE flags then per else 0)
  + (if flag_set FLAG_SAMPLE_FLAGS flags then per else 0)
  + (if flag_set FLAG_SAMPLE_CTS flags then per else 0).

(** The values the sample loop pushes onto a vector of the box. *)
Definition push_opt (l : list Z) (o : option Z) : list Z :=
  match o with Some v => l ++ [v] | None => l end.

(** [for _ in 0..sample_count]: [n] counts the samples still to read. *)
Fixpoint trun_read_samples (n : nat) (flags : Z) (ds ss fs cs : list Z)
    : R (list Z * list Z * list Z * list Z) :=
  match n with
  | O => rret (ds, ss, fs, cs)
  | S n =>
      let% d := read_opt (flag_set FLAG_SAMPLE_DURATION flags) read_u32 in
      let% s := read_opt (flag_set FLAG_SAMPLE_SIZE flags) read_u32 in
      let% f := read_opt (flag_set FLAG_SAMPLE_FLAGS flags) read_u32 in
      let% c := read_opt (flag_set FLAG_SAMPLE_CTS flags) read_u32 in
      trun_read_samples n flags (push_opt ds d) (push_opt ss s) (push_opt fs f) (push_opt cs c)
  end.
Definition trun_read (size : Z) : R TrunBox :=
  let% end_ := checked_box_end_with_min size (HEADER_SIZE + HEADER_EXT_SIZE) in
  let% (version, flags) := read_box_header_ext in
  let header_size := HEADER_SIZE + HEADER_EXT_SIZE in
  let other_size := trun_other_size flags in
  ensure_box_size size (header_size + other_size) ;%
  let% count := read_u32 in
  let% offset := read_opt (flag_set FLAG_DATA_OFFSET flags) read_i32 in
  let% first := read_opt (flag_set FLAG_FIRST_SAMPLE_FLAGS flags) read_u32 in
  if saturating_sub (saturating_sub size header_size) other_size <? count * trun_sample_size flags
  then rfail (InvalidData "trun sample_count indicates more values than could fit in the box")
  else
    let% (ds, ss, fs, cs) := trun_read_samples (Z.to_nat count) flags [] [] [] [] in
    skip_bytes_to end_ ;%
    rret (mk_trun version flags count offset first ds ss fs cs).

(** [writer.write_u32(v[i])]: an index past the end panics. *)
Definition write_indexed (flag : bool) (l : list Z) (i : nat) : W unit :=
  if flag then match l !! i with Some v => write_u32 v | None => wpanic end else wret ().
Definition trun_write_sample (b : TrunBox) (i : nat) : W unit :=
  let flags := trun_flags b in
  write_indexed (flag_set FLAG_SAMPLE_DURATION flags) (sample_durations b) i ;^
  write_indexed (flag_set FLAG_SAMPLE_SIZE flags) (sample_sizes b) i ;^
  write_indexed (flag_set FLAG_SAMPLE_FLAGS flags) (trun_sample_flags b) i ;^
  write_indexed (flag_set FLAG_SAMPLE_CTS flags) (sample_cts b) i.
Definition trun_write (b : TrunBox) : W Z :=
  let size := trun_size b in
  header_write (mk_header TrunBoxType size) ;^
  write_box_header_ext (trun_version b) (trun_flags b) ;^
  write_u32 (sample_count b) ;^
  write_opt write_i32 (data_offset b) ;^
  write_opt write_u32 (first_sample_flags b) ;^
  if negb (sample_count b =? vec_len (sample_sizes b) mod 2 ^ 32)
  then wfail (InvalidData "sample count out of sync")
  else write_each (trun_write_sample b) (seq 0 (Z.to_nat (sample_count b))) ;^ wret size.

(** ** [traf.rs] *)

Record TrafBox := mk_traf { tfhd : TfhdBox; tfdt : option TfdtBox; trun : option TrunBox }.

Definition opt_size {A : Type} (size : A → Z) (o : option A) : Z :=
  match o with Some a => size a | None => 0 end.
Definition traf_size (b : TrafBox) : Z :=
  HEADER_SIZE + tfhd_size (tfhd b) + opt_size tfdt_size (tfdt b) + opt_size trun_size (trun b).

(** The boxes [read_box] has seen so far. *)
Record TrafAcc := mk_traf_acc {
  acc_tfhd : option TfhdBox; acc_tfdt : option TfdtBox; acc_trun : option TrunBox }.

(** One turn of the loop: the header of a child box and its contents. *)
Definition traf_child (end_ : Z) (acc : TrafAcc) : R TrafAcc :=
  let% h := read_box_header end_ in
  let s := bh_size h in
  let% child_end := checked_box_end s in
  if end_ <? child_end
  then rfail (InvalidData "traf box contains a box with a larger size than it")
  else match bh_name h with
       | TfhdBoxType => let% b := tfhd_read s in rret (mk_traf_acc (Some b) (acc_tfdt acc) (acc_trun acc))
       | TfdtBoxType => let% b := tfdt_read s in rret (mk_traf_acc (acc_tfhd acc) (Some b) (acc_trun acc))
       | TrunBoxType => let% b := trun_read s in rret (mk_traf_acc (acc_tfhd acc) (acc_tfdt acc) (Some b))
       | _ => skip_box s ;% rret acc
       end.

(** [while current < end]: every turn consumes a header, so the length of the data
    bounds the turns. *)
Fixpoint box_loop {A : Type} (child : Z → A → R A) (fuel : nat) (end_ : Z) (acc : A) : R A :=
  match fuel with
  | O => rfail IoError
  | S fuel =>
      let% current := tell in
      if current <? end_ then
        let% acc := child end_ acc in
        box_loop child fuel end_ acc
      else rret acc
  end.
Definition data_fuel : R nat := λ data p, Done (S (S (length data)), p).

Definition traf_read (size : Z) : R TrafBox :=
  let% end_ := checked_box_end size in
  let% fuel := data_fuel in
  let% acc := box_loop traf_child fuel end_ (mk_traf_acc None None None) in
  match acc_tfhd acc with
  | None => rfail (BoxNotFound TfhdBoxType)
  | Some h => skip_bytes_to end_ ;% rret (mk_traf h (acc_tfdt acc) (acc_trun acc))
  end.
Definition traf_write (b : TrafBox) : W Z :=
  let size := traf_size b in
  header_write (mk_header TrafBoxType size) ;^
  tfhd_write (tfhd b) ;^
  write_opt (λ t, tfdt_write t ;^ wret ()) (tfdt b) ;^
  write_opt (λ t, trun_write t ;^ wret ()) (trun b) ;^
  wret size.

(** ** [moof.rs] *)

Record MoofBox := mk_moof { mfhd : MfhdBox; trafs : list TrafBox }.

Definition moof_size (b : MoofBox) : Z :=
  HEADER_SIZE + mfhd_size (mfhd b) + zsum traf_size (trafs b).

Definition moof_child (end_ : Z) (acc : option MfhdBox * list TrafBox) : R (option MfhdBox * list TrafBox) :=
  let% h := read_box_header end_ in
  let s := bh_size h in
  let% child_end := checked_box_end s in
  if end_ <? child_end
  then rfail (InvalidData "moof box contains a box with a larger size than it")
  else match bh_name h with
       | MfhdBoxType => let% b := mfhd_read s in rret (Some b, snd acc)
       | TrafBoxType => let% b := traf_read s in rret (fst acc, snd acc ++ [b])
       | _ => skip_box s ;% rret acc
       end.

Definition moof_read (size : Z) : R MoofBox :=
  let% end_ := checked_box_end size in
  let% fuel := data_fuel in
  let% acc := box_loop moof_child fuel end_ (None, []) in
  match fst acc with
  | None => rfail (BoxNotFound MfhdBoxType)
  | Some h => skip_bytes_to end_ ;% rret (mk_moof h (snd acc))
  end.
Definition moof_write (b : MoofBox) : W Z :=
  let size := moof_size b in
  header_write (mk_header MoofBoxType size) ;^
  mfhd_write (mfhd b) ;^
  write_each traf_write (trafs b) ;^
  wret 0.
