(* ===== verification/Mp4BoxInv.v ===== *)
(** * Movie fragments read back as they were written

    The bytes of each box of a fragment as a function, the proofs that the writers of
    [Mp4Box] emit exactly those bytes and that the readers turn them back into the
    box, and that the length of the data is enough fuel for the loops that read the
    children of a box. *)

From S2P Require Import Prelude Mp4Io Mp4Box.

(** ** Bytes *)

Definition header_bytes (name : BoxType) (size : Z) : list Z :=
  be_bytes 4 size ++ be_bytes 4 (boxtype_to_u32 name).
Definition ext_bytes (v f : Z) : list Z := be_bytes 1 v ++ be_bytes 3 f.
Definition opt_bytes {A : Type} (e : A → list Z) (o : option A) : list Z :=
  match o with Some a => e a | None => [] end.

Definition mfhd_body (b : MfhdBox) : list Z :=
  ext_bytes (mfhd_version b) (mfhd_flags b) ++ be_bytes 4 (sequence_number b).
Definition tfdt_body (b : TfdtBox) : list Z :=
  ext_bytes (tfdt_version b) (tfdt_flags b)
  ++ be_bytes (if (tfdt_version b =? 1)%Z then 8 else 4) (base_media_decode_time b).
Definition tfhd_body (b : TfhdBox) : list Z :=
  ext_bytes (tfhd_version b) (tfhd_flags b) ++ be_bytes 4 (tfhd_track_id b)
  ++ opt_bytes (be_bytes 8) (base_data_offset b) ++ opt_bytes (be_bytes 4) (sample_description_index b)
  ++ opt_bytes (be_bytes 4) (default_sample_duration b) ++ opt_bytes (be_bytes 4) (default_sample_size b)
  ++ opt_bytes (be_bytes 4) (default_sample_flags b).

(** The field of sample [i] in one of the vectors of a run. *)
Definition field_at (flag : bool) (l : list Z) (i : nat) : option Z := if flag then l !! i else None.
Definition trun_sample_bytes (b : TrunBox) (i : nat) : list Z :=
  let flags := trun_flags b in
  opt_bytes (be_bytes 4) (field_at (flag_set FLAG_SAMPLE_DURATION flags) (sample_durations b) i)
  ++ opt_bytes (be_bytes 4) (field_at (flag_set FLAG_SAMPLE_SIZE flags) (sample_sizes b) i)
  ++ opt_bytes (be_bytes 4) (field_at (flag_set FLAG_SAMPLE_FLAGS flags) (trun_sample_flags b) i)
  ++ opt_bytes (be_bytes 4) (field_at (flag_set FLAG_SAMPLE_CTS flags) (sample_cts b) i).
Definition trun_body (b : TrunBox) : list Z :=
  ext_bytes (trun_version b) (trun_flags b) ++ be_bytes 4 (sample_count b)
  ++ opt_bytes (λ z, be_bytes 4 (u32_of_i32 z)) (data_offset b)
  ++ opt_bytes (be_bytes 4) (first_sample_flags b)
  ++ mjoin (trun_sample_bytes b <$> seq 0 (Z.to_nat (sample_count b))).

(** A box: its header and its body. *)
Definition box_bytes (name : BoxType) (body : list Z) : list Z :=
  header_bytes name (HEADER_SIZE + vec_len body) ++ body.
Definition traf_body (b : TrafBox) : list Z :=
  box_bytes TfhdBoxType (tfhd_body (tfhd b))
  ++ opt_bytes (λ t, box_bytes TfdtBoxType (tfdt_body t)) (tfdt b)
  ++ opt_bytes (λ t, box_bytes TrunBoxType (trun_body t)) (trun b).
Definition traf_bytes (b : TrafBox) : list Z := box_bytes TrafBoxType (traf_body b).
Definition moof_body (b : MoofBox) : list Z :=
  box_bytes MfhdBoxType (mfhd_body (mfhd b)) ++ mjoin (traf_bytes <$> trafs b).
Definition moof_bytes (b : MoofBox) : list Z := box_bytes MoofBoxType (moof_body b).

(** ** Well-formed boxes: fields in their width, and present when flagged *)

Definition u_in (k : nat) (n : Z) : Prop := 0 ≤ n < 2 ^ (8 * Z.of_nat k).
Definition opt_in (k : nat) (flag : bool) (o : option Z) : Prop :=
  flag = negb (is_none o) ∧ ∀ n, o = Some n → u_in k n.
Definition ext_in (v f : Z) : Prop := u_in 1 v ∧ u_in 3 f.

Definition mfhd_wf (b : MfhdBox) : Prop :=
  ext_in (mfhd_version b) (mfhd_flags b) ∧ u_in 4 (sequence_number b).
Definition tfdt_wf (b : TfdtBox) : Prop :=
  ext_in (tfdt_version b) (tfdt_flags b) ∧
  ((tfdt_version b = 0 ∧ u_in 4 (base_media_decode_time b)) ∨
   (tfdt_version b = 1 ∧ u_in 8 (base_media_decode_time b))).
Record tfhd_wf (b : TfhdBox) : Prop := {
  twf_ext : ext_in (tfhd_version b) (tfhd_flags b);
  twf_id : u_in 4 (tfhd_track_id b);
  twf_offset : opt_in 8 (flag_set FLAG_BASE_DATA_OFFSET (tfhd_flags b)) (base_data_offset b);
  twf_index : opt_in 4 (flag_set FLAG_SAMPLE_DESCRIPTION_INDEX (tfhd_flags b)) (sample_description_index b);
  twf_duration : opt_in 4 (flag_set FLAG_DEFAULT_SAMPLE_DURATION (tfhd_flags b)) (default_sample_duration b);
  twf_size : opt_in 4 (flag_set FLAG_DEFAULT_SAMPLE_SIZE (tfhd_flags b)) (default_sample_size b);
  twf_flags : opt_in 4 (flag_set FLAG_DEFAULT_SAMPLE_FLAGS (tfhd_flags b)) (default_sample_flags b)
}.
Definition column_in (count : Z) (flag : bool) (l : list Z) : Prop :=
  (if flag then vec_len l = count else l = []) ∧ Forall (u_in 4) l.
Record trun_wf (b : TrunBox) : Prop := {
  rwf_ext : ext_in (trun_version b) (trun_flags b);
  rwf_count : u_in 4 (sample_count b);
  rwf_len : vec_len (sample_sizes b) = sample_count b;
  rwf_offset : flag_set FLAG_DATA_OFFSET (trun_flags b) = negb (is_none (data_offset b)) ∧
    ∀ z, data_offset b = Some z → - 2 ^ 31 ≤ z < 2 ^ 31;
  rwf_first : opt_in 4 (flag_set FLAG_FIRST_SAMPLE_FLAGS (trun_flags b)) (first_sample_flags b);
  rwf_durations : column_in (sample_count b) (flag_set FLAG_SAMPLE_DURATION (trun_flags b)) (sample_durations b);
  rwf_sizes : column_in (sample_count b) (flag_set FLAG_SAMPLE_SIZE (trun_flags b)) (sample_sizes b);
  rwf_flags : column_in (sample_count b) (flag_set FLAG_SAMPLE_FLAGS (trun_flags b)) (trun_sample_flags b);
  rwf_cts : column_in (sample_count b) (flag_set FLAG_SAMPLE_CTS (trun_flags b)) (sample_cts b)
}.
Definition traf_wf (b : TrafBox) : Prop :=
  tfhd_wf (tfhd b) ∧ (∀ t, tfdt b = Some t → tfdt_wf t) ∧ (∀ t, trun b = Some t → trun_wf t).
Definition moof_wf (b : MoofBox) : Prop :=
  mfhd_wf (mfhd b) ∧ Forall traf_wf (trafs b) ∧ moof_size b ≤ u32_max.

(** ** The sizes are the lengths of the bytes *)

Lemma vec_len_be k n : vec_len (be_bytes k n) = Z.of_nat k.
Proof. unfold vec_len. by rewrite be_bytes_length. Qed.
Lemma vec_len_nil {A : Type} : vec_len (@nil A) = 0.
Proof. done. Qed.
#[export] Hint Rewrite @vec_len_app vec_len_be @vec_len_nil : mp4.

Lemma header_bytes_length name size : vec_len (header_bytes name size) = HEADER_SIZE.
Proof. unfold header_bytes. by autorewrite with mp4. Qed.
Lemma ext_bytes_length v f : vec_len (ext_bytes v f) = HEADER_EXT_SIZE.
Proof. unfold ext_bytes. by autorewrite with mp4. Qed.
Lemma box_bytes_length name body : vec_len (box_bytes name body) = HEADER_SIZE + vec_len body.
Proof. unfold box_bytes. by rewrite vec_len_app, header_bytes_length. Qed.
#[export] Hint Rewrite header_bytes_length ext_bytes_length box_bytes_length : mp4.

Lemma opt_bytes_length k flag o :
  opt_in k flag o → vec_len (opt_bytes (be_bytes k) o) = if flag then Z.of_nat k else 0.
Proof. intros [-> _]. destruct o; cbn; by autorewrite with mp4. Qed.

Lemma mfhd_length b : HEADER_SIZE + vec_len (mfhd_body b) = mfhd_size b.
Proof. unfold mfhd_body, mfhd_size. autorewrite with mp4. unfold HEADER_SIZE, HEADER_EXT_SIZE. lia. Qed.

Lemma tfdt_length b : HEADER_SIZE + vec_len (tfdt_body b) = tfdt_size b.
Proof.
  unfold tfdt_body, tfdt_size. autorewrite with mp4. unfold HEADER_SIZE, HEADER_EXT_SIZE.
  destruct (tfdt_version b =? 1); lia.
Qed.

Lemma tfhd_length b : tfhd_wf b → HEADER_SIZE + vec_len (tfhd_body b) = tfhd_size b.
Proof.
  intros []. unfold tfhd_body, tfhd_size, tfhd_size_of. autorewrite with mp4.
  erewrite !opt_bytes_length by eassumption. unfold HEADER_SIZE, HEADER_EXT_SIZE. repeat case_match; lia.
Qed.

Lemma column_lookup count flag l i :
  column_in count flag l → Z.of_nat i < count →
  field_at flag l i = (if flag then Some (l !!! i) else None) ∧ opt_in 4 flag (field_at flag l i).
Proof.
  intros [Hl Hf] Hi. unfold field_at, opt_in. destruct flag; [|by split].
  unfold vec_len in Hl. destruct (lookup_lt_is_Some_2 l i) as [v Hv]; [lia|].
  rewrite (list_lookup_total_correct _ _ _ Hv). split; [done|]. rewrite Hv. split; [done|].
  intros n [= <-]. eapply Forall_lookup_1; eauto.
Qed.

Lemma trun_sample_length b i :
  trun_wf b → Z.of_nat i < sample_count b →
  vec_len (trun_sample_bytes b i) = trun_sample_size (trun_flags b).
Proof.
  intros [] Hi. unfold trun_sample_bytes, trun_sample_size. autorewrite with mp4.
  erewrite !opt_bytes_length by (by eapply column_lookup). repeat case_match; lia.
Qed.

Lemma vec_len_mjoin {A : Type} (e : A → list Z) l : vec_len (mjoin (e <$> l)) = zsum (λ a, vec_len (e a)) l.
Proof. induction l as [|a l IH]; [done|]. cbn. rewrite vec_len_app. f_equal. exact IH. Qed.

Lemma zsum_const {A : Type} (f : A → Z) l c : (∀ a, a ∈ l → f a = c) → zsum f l = c * vec_len l.
Proof.
  unfold zsum, vec_len. induction l as [|a l IH]; intros H; [cbn; lia|]. cbn [foldr length].
  rewrite H by apply list_elem_of_here. rewrite IH; [lia|]. intros x Hx. apply H. by apply list_elem_of_further.
Qed.

Lemma elem_of_indices i n : i ∈ seq 0 n → (i < n)%nat.
Proof. rewrite elem_of_seq. lia. Qed.

Lemma trun_samples_length b :
  trun_wf b →
  vec_len (mjoin (trun_sample_bytes b <$> seq 0 (Z.to_nat (sample_count b))))
  = trun_sample_size (trun_flags b) * sample_count b.
Proof.
  intros H. rewrite vec_len_mjoin. rewrite (zsum_const _ _ (trun_sample_size (trun_flags b))).
  - unfold vec_len. rewrite length_seq, Z2Nat.id by (destruct (rwf_count b H); lia). done.
  - intros i Hi%elem_of_indices. apply trun_sample_length; [done|lia].
Qed.

Lemma trun_length b : trun_wf b → HEADER_SIZE + vec_len (trun_body b) = trun_size b.
Proof.
  intros H. pose proof (trun_samples_length b H) as Hs. destruct H as [? ? ? [Ho _] ? ? ? ? ?]. unfold trun_body, trun_size.
  autorewrite with mp4. rewrite Hs. erewrite (opt_bytes_length 4) by eassumption.
  assert (vec_len (opt_bytes (λ z, be_bytes 4 (u32_of_i32 z)) (data_offset b))
          = if flag_set FLAG_DATA_OFFSET (trun_flags b) then 4 else 0) as ->.
  { rewrite Ho. destruct (data_offset b); cbn; by autorewrite with mp4. }
  unfold HEADER_SIZE, HEADER_EXT_SIZE, trun_sample_size. repeat case_match; lia.
Qed.

Lemma traf_length b : traf_wf b → HEADER_SIZE + vec_len (traf_body b) = traf_size b.
Proof.
  intros (Hh & Ht & Hr). unfold traf_body, traf_size. autorewrite with mp4. rewrite tfhd_length by done.
  destruct (tfdt b) as [t|], (trun b) as [r|]; cbn [opt_bytes opt_size]; autorewrite with mp4;
    rewrite ?tfdt_length, ?trun_length by eauto; lia.
Qed.

Lemma moof_length b : moof_wf b → HEADER_SIZE + vec_len (moof_body b) = moof_size b.
Proof.
  intros (Hh & Ht & _). unfold moof_body, moof_size. autorewrite with mp4. rewrite mfhd_length, vec_len_mjoin.
  rewrite (zsum_ext _ traf_size); [lia|].
  intros a Ha. unfold traf_bytes. rewrite box_bytes_length. apply traf_length. by eapply Forall_forall in Ht.
Qed.

(** ** The writers emit those bytes *)

Lemma emits_eq {A : Type} (m : W A) a xs ys : emits m a xs → xs = ys → emits m a ys.
Proof. by intros ? <-. Qed.

Lemma emits_header name size : HEADER_SIZE ≤ size ≤ u32_max →
  emits (header_write (mk_header name size)) 8 (header_bytes name size).
Proof.
  intros Hs. unfold header_write. cbn [bh_size bh_name].
  destruct (negb (size =? 0) && (size <? HEADER_SIZE)) eqn:E1; [reflect_bools; lia|].
  destruct (u32_max <? size) eqn:E2; [reflect_bools; lia|].
  unfold header_bytes. rewrite <-(app_nil_r (be_bytes 4 (boxtype_to_u32 name))).
  repeat (apply emits_bind_ret; [apply emits_write_all|]). apply emits_ret.
Qed.

Lemma emits_ext v f : u_in 3 f → emits (write_box_header_ext v f) 4 (ext_bytes v f).
Proof.
  intros [_ Hf]. unfold write_box_header_ext, ext_bytes. rewrite <-(app_nil_r (be_bytes 3 f)).
  apply emits_bind_ret; [apply emits_write_all|]. apply emits_bind_ret; [by apply emits_u24|]. apply emits_ret.
Qed.

Lemma emits_opt_u32 o : emits (write_opt write_u32 o) () (opt_bytes (be_bytes 4) o).
Proof. apply emits_write_opt. intros. apply emits_write_all. Qed.
Lemma emits_opt_u64 o : emits (write_opt write_u64 o) () (opt_bytes (be_bytes 8) o).
Proof. apply emits_write_opt. intros. apply emits_write_all. Qed.

(** One step along a chain of writes. *)
Ltac emit_step :=
  first [ apply emits_ret | apply emits_write_all | (apply emits_ext; assumption)
        | apply emits_opt_u32 | apply emits_opt_u64 ].
Ltac emit_chain := repeat (first [ emit_step | eapply emits_bind ]).

Lemma emits_box {A : Type} name size body (k : W A) (a : A) xs :
  HEADER_SIZE + vec_len body = size → size ≤ u32_max → emits k a xs → xs = body →
  emits (header_write (mk_header name size) ;^ k) a (box_bytes name body).
Proof.
  intros Hlen Hsize Hk ->. unfold box_bytes. eapply emits_bind; [|exact Hk]. rewrite Hlen.
  apply emits_header. pose proof (Nat2Z.is_nonneg (length body)). unfold vec_len in *. lia.
Qed.

Lemma emits_mfhd b : mfhd_wf b → emits (mfhd_write b) (mfhd_size b) (box_bytes MfhdBoxType (mfhd_body b)).
Proof.
  intros [[_ Hf] _]. unfold mfhd_write. eapply emits_box; [apply mfhd_length|done|emit_chain|].
  unfold mfhd_body. by rewrite !app_nil_r.
Qed.

Lemma emits_tfdt b : tfdt_wf b → emits (tfdt_write b) (tfdt_size b) (box_bytes TfdtBoxType (tfdt_body b)).
Proof.
  intros [[_ Hf] Hv]. unfold tfdt_write. eapply emits_box; [apply tfdt_length| | |].
  - unfold tfdt_size. by destruct (tfdt_version b =? 1).
  - eapply emits_bind; [by apply emits_ext|]. eapply emits_bind; [|apply emits_ret].
    instantiate (1 := be_bytes (if tfdt_version b =? 1 then 8 else 4) (base_media_decode_time b)).
    destruct (tfdt_version b =? 1) eqn:E1; [apply emits_write_all|].
    destruct (tfdt_version b =? 0) eqn:E0; [apply emits_write_all|]. reflect_bools. destruct Hv as [[]|[]]; lia.
  - unfold tfdt_body. by rewrite !app_nil_r.
Qed.

Lemma emits_tfhd b : tfhd_wf b → emits (tfhd_write b) (tfhd_size b) (box_bytes TfhdBoxType (tfhd_body b)).
Proof.
  intros Hwf. assert (tfhd_size b ≤ u32_max) by (unfold tfhd_size, tfhd_size_of, u32_max, HEADER_SIZE, HEADER_EXT_SIZE; repeat case_match; lia).
  pose proof (tfhd_length b Hwf) as Hlen. destruct Hwf as [[_ Hf] _ _ _ _ _ _]. unfold tfhd_write.
  eapply emits_box; [done|done|emit_chain|]. unfold tfhd_body. by rewrite !app_nil_r.
Qed.

Lemma emits_indexed count flag l i :
  column_in count flag l → Z.of_nat i < count →
  emits (write_indexed flag l i) () (opt_bytes (be_bytes 4) (field_at flag l i)).
Proof.
  intros H Hi. destruct (column_lookup _ _ _ _ H Hi) as [E _]. unfold write_indexed, field_at in *.
  destruct flag; [rewrite E; apply emits_write_all|apply emits_ret].
Qed.

Lemma emits_trun_sample b i :
  trun_wf b → Z.of_nat i < sample_count b → emits (trun_write_sample b i) () (trun_sample_bytes b i).
Proof.
  intros [] Hi. unfold trun_write_sample, trun_sample_bytes.
  repeat (apply emits_bind_ret; [by eapply emits_indexed|]). by eapply emits_indexed.
Qed.

Lemma emits_trun b :
  trun_wf b → trun_size b ≤ u32_max →
  emits (trun_write b) (trun_size b) (box_bytes TrunBoxType (trun_body b)).
Proof.
  intros Hwf Hs. pose proof (trun_length b Hwf) as Hlen.
  assert (emits (write_each (trun_write_sample b) (seq 0 (Z.to_nat (sample_count b)))) ()
            (mjoin (trun_sample_bytes b <$> seq 0 (Z.to_nat (sample_count b))))) as Hsam.
  { apply emits_write_each with (). intros i Hi%elem_of_indices. apply emits_trun_sample; [done|lia]. }
  destruct Hwf as [[_ Hf] [Hc1 Hc2] Hl _ _ _ _ _ _]. unfold trun_write. rewrite Hl, Z.mod_small by (change (2 ^ 32) with (2 ^ (8 * Z.of_nat 4)); lia).
  rewrite Z.eqb_refl. eapply emits_box; [done|done| |].
  - eapply emits_bind; [by apply emits_ext|]. eapply emits_bind; [apply emits_write_all|].
    eapply emits_bind; [apply (emits_write_opt _ (λ z, be_bytes 4 (u32_of_i32 z))); intros; apply emits_write_all|].
    eapply emits_bind; [emit_step|]. eapply emits_bind; [exact Hsam|apply emits_ret].
  - unfold trun_body, opt_bytes. by rewrite !app_nil_r.
Qed.

Lemma emits_then_unit {A : Type} (m : W A) a xs : emits m a xs → emits (m ;^ wret ()) () xs.
Proof. intros H. rewrite <-(app_nil_r xs). eapply emits_bind; [exact H|apply emits_ret]. Qed.

Lemma opt_size_nonneg {A : Type} (f : A → Z) o : (∀ a, 0 ≤ f a) → 0 ≤ opt_size f o.
Proof. intros H. destruct o; cbn; [apply H|lia]. Qed.

Lemma tfdt_size_pos b : 0 ≤ tfdt_size b.
Proof. unfold tfdt_size, HEADER_SIZE, HEADER_EXT_SIZE. case_match; lia. Qed.

Lemma trun_size_pos b : trun_wf b → 0 ≤ trun_size b.
Proof. intros H. rewrite <-trun_length by done. unfold HEADER_SIZE, vec_len. lia. Qed.

Lemma traf_size_pos b : traf_wf b → HEADER_SIZE ≤ traf_size b.
Proof. intros H. rewrite <-traf_length by done. unfold vec_len. lia. Qed.

Lemma tfhd_size_pos b : 0 ≤ tfhd_size b.
Proof. unfold tfhd_size, tfhd_size_of, HEADER_SIZE, HEADER_EXT_SIZE. repeat case_match; lia. Qed.

Lemma emits_traf b :
  traf_wf b → traf_size b ≤ u32_max → emits (traf_write b) (traf_size b) (traf_bytes b).
Proof.
  intros Hwf Hs. pose proof (traf_length b Hwf) as Hlen. destruct Hwf as (Hh & Ht & Hr).
  unfold traf_write, traf_bytes. eapply emits_box; [done|done| |].
  - eapply emits_bind; [by apply emits_tfhd|].
    eapply emits_bind; [apply (emits_write_opt _ (λ t, box_bytes TfdtBoxType (tfdt_body t)))|].
    { intros t Et. eapply emits_then_unit, emits_tfdt; eauto. }
    eapply emits_bind; [apply (emits_write_opt _ (λ t, box_bytes TrunBoxType (trun_body t)))|apply emits_ret].
    intros t Et. eapply emits_then_unit, emits_trun; [eauto|]. revert Hs. unfold traf_size. rewrite Et. cbn [opt_size].
    pose proof (tfhd_size_pos (tfhd b)). pose proof (opt_size_nonneg tfdt_size (tfdt b) tfdt_size_pos).
    unfold HEADER_SIZE. lia.
  - unfold traf_body, opt_bytes. by rewrite !app_nil_r.
Qed.

Lemma traf_size_le b t : moof_wf b → t ∈ trafs b → traf_size t ≤ u32_max.
Proof.
  intros (_ & Hf & Hs) Ht. unfold moof_size in Hs.
  assert (traf_size t ≤ zsum traf_size (trafs b)) as H.
  { clear Hs. induction Hf as [|x l Hx Hl IH]; [by apply elem_of_nil in Ht|].
    rewrite zsum_cons. pose proof (traf_size_pos _ Hx) as Hp. unfold HEADER_SIZE in Hp.
    assert (0 ≤ zsum traf_size l).
    { clear -Hl. induction Hl as [|y l Hy _ IH]; [done|]. rewrite zsum_cons.
      pose proof (traf_size_pos _ Hy). unfold HEADER_SIZE in *. lia. }
    apply elem_of_cons in Ht as [->|Ht]; [lia|]. specialize (IH Ht). lia. }
  unfold mfhd_size, HEADER_SIZE, HEADER_EXT_SIZE in Hs. lia.
Qed.

Lemma emits_moof b : moof_wf b → emits (moof_write b) 0 (moof_bytes b).
Proof.
  intros Hwf. pose proof (moof_length b Hwf) as Hlen. pose proof (traf_size_le b) as Hle.
  pose proof Hwf as (Hm & Ht & Hs). unfold moof_write, moof_bytes. eapply emits_box; [done|done| |].
  - eapply emits_bind; [by apply emits_mfhd|]. eapply emits_bind; [|apply emits_ret].
    instantiate (1 := mjoin (traf_bytes <$> trafs b)).
    induction (trafs b) as [|t l IH] in Ht, Hle |- *; [apply emits_ret|].
    cbn [write_each fmap list_fmap mjoin list_join]. apply Forall_cons in Ht as [Ht1 Ht2].
    eapply emits_bind; [apply emits_traf; [done|apply Hle; [done|apply list_elem_of_here]]|].
    apply IH; [|done]. intros x Hw Hx. apply Hle; [done|by apply list_elem_of_further].
  - unfold moof_body. by rewrite !app_nil_r.
Qed.

(** ** The readers take them back *)

(** [m] reads [bs] where [bs] ends at the position [e]. *)
Definition reads_to {A : Type} (e : Z) (m : R A) (a : A) (bs : list Z) : Prop :=
  ∀ pre post, vec_len (pre ++ bs) = e →
    m (pre ++ bs ++ post) (vec_len pre) = Done (a, e).

Lemma reads_to_bind {A B : Type} e (m : R A) (k : A → R B) a b xs ys :
  reads m a xs → reads_to e (k a) b ys → reads_to e (rdbind m k) b (xs ++ ys).
Proof.
  intros Hm Hk pre post He. unfold rdbind. rewrite <-(app_assoc xs), (Hm pre (ys ++ post)).
  rewrite (app_assoc pre), Hk; [done|by rewrite <-app_assoc].
Qed.

Lemma reads_to_pure {A B : Type} e (m : R A) (k : A → R B) a b ys :
  reads m a [] → reads_to e (k a) b ys → reads_to e (rdbind m k) b ys.
Proof. intros. by apply (reads_to_bind e m k a b [] ys). Qed.

Lemma reads_to_skip {A : Type} e (a : A) : reads_to e (skip_bytes_to e ;% rret a) a [].
Proof. intros pre post He. done. Qed.

(** A box reader after the header was consumed. *)
Definition reads_box {A : Type} (rd : Z → R A) (a : A) (body : list Z) : Prop :=
  ∀ pre post, HEADER_SIZE ≤ vec_len pre → vec_len (pre ++ body) ≤ u64_max →
    rd (HEADER_SIZE + vec_len body) (pre ++ body ++ post) (vec_len pre) = Done (a, vec_len (pre ++ body)).

Lemma checked_box_end_reads (body pre : list Z) data :
  HEADER_SIZE ≤ vec_len pre → vec_len (pre ++ body) ≤ u64_max →
  checked_box_end (HEADER_SIZE + vec_len body) data (vec_len pre) = Done (vec_len (pre ++ body), vec_len pre).
Proof.
  intros Hp Hb. rewrite vec_len_app in *. unfold checked_box_end, box_start, rdbind, tell, rok_or, checked_sub, checked_add, rret.
  assert (0 ≤ vec_len body) by (unfold vec_len; lia). unfold HEADER_SIZE in *.
  destruct (_ <? _) eqn:E1; reflect_bools; [lia|]. destruct (8 <=? vec_len pre) eqn:E2; reflect_bools; [|lia].
  destruct (_ <=? u64_max) eqn:E3; reflect_bools; [|lia]. do 2 f_equal. lia.
Qed.

Lemma reads_box_intro {A : Type} (k : Z → R A) (a : A) (rd : Z → R A) body :
  (rd (HEADER_SIZE + vec_len body) = let% end_ := checked_box_end (HEADER_SIZE + vec_len body) in k end_) →
  (∀ e, reads_to e (k e) a body) → reads_box rd a body.
Proof.
  intros Hrd Hk pre post Hp Hb. rewrite Hrd. unfold rdbind. rewrite (checked_box_end_reads body) by done. by apply Hk.
Qed.

Lemma reads_ensure size minimum : minimum ≤ size → reads (ensure_box_size size minimum) () [].
Proof. intros H. unfold ensure_box_size. destruct (size <? minimum) eqn:?; reflect_bools; [lia|apply reads_ret]. Qed.

Lemma ensure_with_min size minimum :
  minimum ≤ size → checked_box_end_with_min size minimum = checked_box_end size.
Proof. intros H. unfold checked_box_end_with_min, ensure_box_size. destruct (size <? minimum) eqn:?; reflect_bools; [lia|done]. Qed.

Lemma reads_ext v f : ext_in v f → reads read_box_header_ext (v, f) (ext_bytes v f).
Proof.
  intros [Hv Hf]. unfold read_box_header_ext, ext_bytes. rewrite <-(app_nil_r (be_bytes 3 f)).
  eapply reads_bind; [by apply reads_uint|]. eapply reads_bind; [by apply reads_uint|]. apply reads_ret.
Qed.

Lemma reads_opt_uint k flag o :
  opt_in k flag o → reads (read_opt flag (read_uint k)) o (opt_bytes (be_bytes k) o).
Proof. intros [-> Hn]. apply reads_opt; [done|]. intros a Ha. apply reads_uint. by apply Hn. Qed.

Lemma reads_mfhd b : mfhd_wf b → reads_box mfhd_read b (mfhd_body b).
Proof.
  intros [He Hn]. apply (reads_box_intro (λ end_, let% (version, flags) := read_box_header_ext in
    let% n := read_u32 in skip_bytes_to end_ ;% rret (mk_mfhd version flags n))).
  - rewrite mfhd_length. unfold mfhd_read. rewrite ensure_with_min; [done|]. unfold mfhd_size. lia.
  - intros e. unfold mfhd_body. rewrite <-(app_nil_r (be_bytes 4 _)).
    eapply reads_to_bind; [by apply reads_ext|]. cbn beta iota.
    eapply reads_to_bind; [by apply reads_uint|]. destruct b. apply reads_to_skip.
Qed.

Lemma reads_tfdt b : tfdt_wf b → reads_box tfdt_read b (tfdt_body b).
Proof.
  intros [He Ht].
  set (k := λ end_ : Z, let% (version, flags) := read_box_header_ext in
    let% minimum_size := (if version =? 0 then rret (HEADER_SIZE + HEADER_EXT_SIZE + 4)
       else if version =? 1 then rret (HEADER_SIZE + HEADER_EXT_SIZE + 8)
       else rfail (InvalidData "version must be 0 or 1")) in
    ensure_box_size (tfdt_size b) minimum_size ;%
    let% t := (if version =? 1 then read_u64 else read_u32) in
    skip_bytes_to end_ ;% rret (mk_tfdt version flags t)).
  apply (reads_box_intro k); rewrite ?tfdt_length.
  - unfold tfdt_read. rewrite ensure_with_min; [done|]. unfold tfdt_size. case_match; lia.
  - intros e. unfold tfdt_body, k, tfdt_size. rewrite <-(app_nil_r (be_bytes _ (base_media_decode_time b))).
    eapply reads_to_bind; [by apply reads_ext|]. cbn beta iota.
    destruct b as [v f t]; cbn [tfdt_version tfdt_flags base_media_decode_time] in *.
    destruct Ht as [[-> Ht]|[-> Ht]]; cbn [Z.eqb Pos.eqb];
      (eapply reads_to_pure; [apply reads_ret|]);
      (eapply reads_to_pure; [apply reads_ensure; lia|]);
      (eapply reads_to_bind; [by apply reads_uint|apply reads_to_skip]).
Qed.

Lemma reads_tfhd b : tfhd_wf b → reads_box tfhd_read b (tfhd_body b).
Proof.
  intros Hwf. pose proof (tfhd_length b Hwf) as Hlen. destruct Hwf.
  set (k := λ end_ : Z, let% (version, flags) := read_box_header_ext in
    ensure_box_size (tfhd_size b) (tfhd_size_of flags) ;%
    let% track_id := read_u32 in
    let% offset := read_opt (flag_set FLAG_BASE_DATA_OFFSET flags) read_u64 in
    let% index := read_opt (flag_set FLAG_SAMPLE_DESCRIPTION_INDEX flags) read_u32 in
    let% duration := read_opt (flag_set FLAG_DEFAULT_SAMPLE_DURATION flags) read_u32 in
    let% sample_size := read_opt (flag_set FLAG_DEFAULT_SAMPLE_SIZE flags) read_u32 in
    let% sample_flags := read_opt (flag_set FLAG_DEFAULT_SAMPLE_FLAGS flags) read_u32 in
    skip_bytes_to end_ ;%
    rret (mk_tfhd version flags track_id offset index duration sample_size sample_flags)).
  apply (reads_box_intro k); rewrite ?Hlen.
  - unfold tfhd_read. rewrite ensure_with_min; [done|]. unfold tfhd_size, tfhd_size_of. repeat case_match; lia.
  - intros e. unfold tfhd_body, k. rewrite <-(app_nil_r (opt_bytes _ (default_sample_flags b))).
    eapply reads_to_bind; [by apply reads_ext|]. cbn beta iota.
    eapply reads_to_pure; [apply reads_ensure; unfold tfhd_size; lia|].
    eapply reads_to_bind; [by apply reads_uint|].
    do 5 (eapply reads_to_bind; [by apply reads_opt_uint|]). destruct b. apply reads_to_skip.
Qed.

Lemma push_field count flag l i :
  column_in count flag l → Z.of_nat i < count → push_opt (take i l) (field_at flag l i) = take (S i) l.
Proof.
  intros Hc Hi. destruct (column_lookup _ _ _ _ Hc Hi) as [E _]. rewrite E. destruct Hc as [Hl _].
  destruct flag; cbn [push_opt field_at] in *; [|by rewrite Hl, !take_nil]. by rewrite (take_S_r _ _ _ E).
Qed.

Lemma take_column count flag l : column_in count flag l → take (Z.to_nat count) l = l.
Proof. intros [Hl _]. destruct flag; [|by rewrite Hl, take_nil]. apply take_ge. unfold vec_len in Hl. lia. Qed.

(** The sample loop appends the samples from [j] on to the first [j] of each column. *)
Lemma reads_trun_samples b n j :
  trun_wf b → Z.of_nat (j + n) = sample_count b →
  reads (trun_read_samples n (trun_flags b) (take j (sample_durations b)) (take j (sample_sizes b))
           (take j (trun_sample_flags b)) (take j (sample_cts b)))
    (sample_durations b, sample_sizes b, trun_sample_flags b, sample_cts b)
    (mjoin (trun_sample_bytes b <$> seq j n)).
Proof.
  intros Hwf. pose proof Hwf as [_ _ _ _ _ Hd Hs Hf Hc]. revert j. induction n as [|n IH]; intros j Hj.
  - replace j with (Z.to_nat (sample_count b)) by lia.
    rewrite (take_column _ _ _ Hd), (take_column _ _ _ Hs), (take_column _ _ _ Hf), (take_column _ _ _ Hc). apply reads_ret.
  - cbn [trun_read_samples seq fmap list_fmap mjoin list_join]. unfold trun_sample_bytes at 1. rewrite <-!app_assoc.
    assert (Z.of_nat j < sample_count b) as Hi by lia.
    do 4 (eapply reads_bind; [apply reads_opt_uint; by eapply column_lookup|]).
    rewrite (push_field _ _ _ _ Hd), (push_field _ _ _ _ Hs), (push_field _ _ _ _ Hf), (push_field _ _ _ _ Hc) by done.
    apply IH. lia.
Qed.

Lemma reads_trun_rest b e :
  trun_wf b →
  reads_to e (let% (ds, ss, fs, cs) := trun_read_samples (Z.to_nat (sample_count b)) (trun_flags b) [] [] [] [] in
              skip_bytes_to e ;%
              rret (mk_trun (trun_version b) (trun_flags b) (sample_count b) (data_offset b) (first_sample_flags b) ds ss fs cs))
    b (mjoin (trun_sample_bytes b <$> seq 0 (Z.to_nat (sample_count b)))).
Proof.
  intros Hwf. rewrite <-(app_nil_r (mjoin _)). eapply reads_to_bind.
  - apply (reads_trun_samples b _ 0 Hwf). destruct (rwf_count b Hwf). lia.
  - destruct b. apply reads_to_skip.
Qed.

Lemma trun_size_split b :
  trun_size b = HEADER_SIZE + HEADER_EXT_SIZE + trun_other_size (trun_flags b)
                + sample_count b * trun_sample_size (trun_flags b).
Proof. unfold trun_size, trun_other_size, trun_sample_size. repeat case_match; lia. Qed.

Lemma reads_trun b : trun_wf b → reads_box trun_read b (trun_body b).
Proof.
  intros Hwf. pose proof (trun_length b Hwf) as Hlen. pose proof (λ e, reads_trun_rest b e Hwf) as Hrest.
  pose proof (trun_size_split b) as Hsplit. destruct Hwf as [He [Hc0 Hc1] _ [Ho1 Ho2] Hf _ _ _ _].
  assert (0 ≤ trun_other_size (trun_flags b) ∧ 0 ≤ trun_sample_size (trun_flags b)) as [Hpos Hpos2]
    by (unfold trun_other_size, trun_sample_size; repeat case_match; lia).
  intros pre post Hp Hb. revert Hp Hb. rewrite Hlen. unfold trun_read.
  rewrite ensure_with_min by nia. intros Hp Hb. unfold rdbind at 1.
  rewrite <-Hlen, (checked_box_end_reads (trun_body b)) by done. rewrite Hlen.
  revert pre post Hp Hb. set (e := λ pre : list Z, vec_len (pre ++ trun_body b)). intros pre post _ _.
  change (vec_len (pre ++ trun_body b)) with (e pre). generalize (eq_refl (e pre)). unfold e at 1. generalize (e pre).
  clear e. intros e. revert pre post. unfold trun_body.
  eapply reads_to_bind; [by apply reads_ext|]. cbn beta iota.
  eapply reads_to_pure; [apply reads_ensure; nia|].
  eapply reads_to_bind; [by apply reads_uint|].
  eapply reads_to_bind; [apply (reads_opt _ _ (λ z, be_bytes 4 (u32_of_i32 z))); [done|intros; apply reads_i32; by apply Ho2]|].
  eapply reads_to_bind; [by apply reads_opt_uint|].
  destruct (_ <? _) eqn:E; [|apply Hrest]. reflect_bools. unfold saturating_sub in E. lia.
Qed.

(** ** Child boxes *)

Definition known (name : BoxType) : Prop :=
  boxtype_from_u32 (boxtype_to_u32 name) = name ∧ u_in 4 (boxtype_to_u32 name).

Lemma reads_header name size :
  known name → HEADER_SIZE ≤ size ≤ u32_max →
  reads header_read (mk_header name size) (header_bytes name size).
Proof.
  intros [Hn Hu] Hs. unfold header_read. rewrite <-(app_nil_r (header_bytes name size)).
  assert (u_in 4 size) as Hsz by (unfold u_in, u32_max, HEADER_SIZE in *; lia).
  eapply reads_bind; [apply reads_exact; unfold header_bytes; by rewrite length_app, !be_bytes_length|].
  unfold header_bytes. rewrite take_app_length', drop_app_length' by (by rewrite be_bytes_length).
  rewrite !from_be_bytes_roundtrip by done. unfold HEADER_SIZE in *.
  destruct (size =? 1) eqn:E1; reflect_bools; [lia|].
  destruct (negb (size =? 0) && (size <? 8)) eqn:E2; [reflect_bools; lia|]. rewrite Hn. apply reads_ret.
Qed.

Lemma ensure_remaining end_ needed data p :
  needed ≤ end_ - p → 0 ≤ needed → ensure_box_bytes_remaining end_ needed data p = Done ((), p).
Proof.
  intros H Hn. unfold ensure_box_bytes_remaining, rdbind, tell, rok_or, checked_sub, rret.
  destruct (p <=? end_) eqn:E; reflect_bools; [|lia]. destruct (_ <? needed) eqn:E2; reflect_bools; [lia|done].
Qed.

Lemma read_box_header_reads name size end_ pre post :
  known name → HEADER_SIZE ≤ size ≤ u32_max → vec_len pre + HEADER_SIZE ≤ end_ →
  read_box_header end_ (pre ++ header_bytes name size ++ post) (vec_len pre)
  = Done (mk_header name size, vec_len (pre ++ header_bytes name size)).
Proof.
  intros Hn Hs He. unfold read_box_header, rdbind.
  rewrite ensure_remaining by (unfold HEADER_SIZE in *; lia). unfold tell.
  assert (read_u32 (pre ++ header_bytes name size ++ post) (vec_len pre) = Done (size, vec_len (pre ++ be_bytes 4 size))) as ->.
  { unfold header_bytes. rewrite <-app_assoc. apply reads_uint. unfold u32_max, HEADER_SIZE in *. lia. }
  unfold skip_bytes_to. unfold HEADER_SIZE in *. destruct (size =? 1) eqn:E1; reflect_bools; [lia|].
  unfold rret. by apply reads_header.
Qed.

(** A turn of a child loop at a box that fits: the header is read, its end checked,
    and what follows reads the body. *)
Lemma child_header {A : Type} name body end_ (k : BoxHeader → Z → R A) pre post :
  known name → HEADER_SIZE + vec_len body ≤ u32_max → vec_len (pre ++ box_bytes name body) ≤ end_ → end_ ≤ u64_max →
  (let% h := read_box_header end_ in let% e := checked_box_end (bh_size h) in k h e)
    (pre ++ box_bytes name body ++ post) (vec_len pre)
  = k (mk_header name (HEADER_SIZE + vec_len body)) (vec_len (pre ++ box_bytes name body))
      ((pre ++ header_bytes name (HEADER_SIZE + vec_len body)) ++ body ++ post)
      (vec_len (pre ++ header_bytes name (HEADER_SIZE + vec_len body))).
Proof.
  intros Hn Hs He Hu. pose proof (Nat2Z.is_nonneg (length body)) as Hb0. fold (vec_len body) in Hb0.
  pose proof (Nat2Z.is_nonneg (length pre)) as Hp0. fold (vec_len pre) in Hp0.
  unfold box_bytes in *. rewrite !vec_len_app, header_bytes_length in He.
  unfold rdbind at 1. rewrite <-app_assoc, read_box_header_reads by (try done; lia). cbn [bh_size].
  unfold rdbind. rewrite (checked_box_end_reads body); rewrite ?vec_len_app, ?header_bytes_length; [|lia..].
  rewrite (app_assoc pre). f_equal. lia.
Qed.

(** The turn for a child box whose reader is [rd]. *)
Lemma child_body {A : Type} (rd : Z → R A) (a : A) name body pre post :
  reads_box rd a body → vec_len (pre ++ box_bytes name body) ≤ u64_max →
  rd (HEADER_SIZE + vec_len body)
    ((pre ++ header_bytes name (HEADER_SIZE + vec_len body)) ++ body ++ post)
    (vec_len (pre ++ header_bytes name (HEADER_SIZE + vec_len body)))
  = Done (a, vec_len (pre ++ box_bytes name body)).
Proof.
  intros Hrd Hu. unfold box_bytes in *. rewrite (app_assoc pre) in *. apply Hrd; [|done].
  rewrite vec_len_app, header_bytes_length. unfold vec_len. lia.
Qed.

(** What one turn of a child loop does at a child whose bytes are [bs]. *)
Definition turn {A : Type} (child : Z → A → R A) (end_ : Z) (acc acc' : A) (bs : list Z) : Prop :=
  bs ≠ [] ∧ ∀ pre post, vec_len (pre ++ bs) ≤ end_ →
    child end_ acc (pre ++ bs ++ post) (vec_len pre) = Done (acc', vec_len (pre ++ bs)).

Inductive turns {A : Type} (child : Z → A → R A) (end_ : Z) : A → A → list Z → nat → Prop :=
| turns_nil acc : turns child end_ acc acc [] 0
| turns_cons acc mid acc' bs cs n :
    turn child end_ acc mid bs → turns child end_ mid acc' cs n →
    turns child end_ acc acc' (bs ++ cs) (S n).

Lemma turns_app {A : Type} (child : Z → A → R A) end_ a b c bs cs n m :
  turns child end_ a b bs n → turns child end_ b c cs m → turns child end_ a c (bs ++ cs) (n + m).
Proof. induction 1; intros H2; [done|]. rewrite <-app_assoc. cbn. econstructor; eauto. Qed.

Lemma turns_one {A : Type} (child : Z → A → R A) end_ a b bs : turn child end_ a b bs → turns child end_ a b bs 1.
Proof. intros H. rewrite <-(app_nil_r bs). econstructor; [done|constructor]. Qed.

Lemma turns_le {A : Type} (child : Z → A → R A) end_ a b bs n : turns child end_ a b bs n → (n ≤ length bs)%nat.
Proof.
  induction 1 as [|acc mid acc' bs cs n [Hne _] _ IH]; [done|]. rewrite length_app. destruct bs; [done|]. cbn. lia.
Qed.

Lemma box_loop_reads {A : Type} (child : Z → A → R A) fuel end_ acc acc' bs n :
  turns child end_ acc acc' bs n → (n < fuel)%nat →
  reads_to end_ (box_loop child fuel end_ acc) acc' bs.
Proof.
  intros Ht. revert fuel. induction Ht as [acc|acc mid acc' bs cs n [Hne Hturn] _ IH];
    intros [|fuel] Hf pre post He; try lia.
  - rewrite app_nil_r in He. cbn. unfold rdbind, tell. rewrite <-He, Z.ltb_irrefl. done.
  - cbn [box_loop]. unfold rdbind at 1, tell. rewrite (app_assoc pre), vec_len_app in He.
    assert (0 ≤ vec_len cs ∧ vec_len pre < vec_len (pre ++ bs)) as [Hc Hb].
    { unfold vec_len. rewrite length_app. destruct bs; [done|]. cbn [length]. lia. }
    destruct (_ <? _) eqn:E; reflect_bools; [|lia]. unfold rdbind. rewrite <-app_assoc, Hturn by lia.
    rewrite (app_assoc pre). apply IH; [lia|]. by rewrite vec_len_app.
Qed.

(** A box whose contents are children, read by a child loop. *)
Lemma reads_box_loop {A B : Type} (child : Z → A → R A) (fin : Z → A → R B) (rd : Z → R B) acc acc' n b body :
  (∀ size, rd size = let% end_ := checked_box_end size in
                     let% fuel := data_fuel in
                     let% acc := box_loop child fuel end_ acc in fin end_ acc) →
  (∀ end_, end_ ≤ u64_max → turns child end_ acc acc' body n) →
  (∀ end_, reads_to end_ (fin end_ acc') b []) →
  reads_box rd b body.
Proof.
  intros Hrd Ht Hfin pre post Hp Hb. rewrite Hrd. unfold rdbind at 1. rewrite (checked_box_end_reads body) by done.
  unfold rdbind at 1, data_fuel. specialize (Ht _ Hb). unfold rdbind.
  erewrite (box_loop_reads child _ _ _ _ _ _ Ht); [|apply turns_le in Ht; rewrite !length_app; lia|done].
  rewrite (app_assoc pre). apply (Hfin _ (pre ++ body) post). by rewrite app_nil_r.
Qed.

Lemma box_bytes_ne name body : box_bytes name body ≠ [].
Proof. unfold box_bytes, header_bytes. cbn. done. Qed.

(** The common part of a turn: the child is a known box that fits. *)
Ltac child_turn Hb :=
  split; [apply box_bytes_ne|];
  let pre := fresh "pre" in let post := fresh "post" in let Hfit := fresh "Hfit" in
  intros pre post Hfit;
  (rewrite child_header; [|by vm_compute|lia|done|done]); cbn [bh_name bh_size];
  (match goal with |- context [?x <? ?y] => destruct (x <? y) eqn:?; [reflect_bools; lia|] end);
  unfold rdbind; (rewrite (child_body _ _ _ _ pre post Hb) by lia); reflexivity.

Lemma traf_turn_tfhd end_ acc b :
  tfhd_wf b → end_ ≤ u64_max →
  turn traf_child end_ acc (mk_traf_acc (Some b) (acc_tfdt acc) (acc_trun acc)) (box_bytes TfhdBoxType (tfhd_body b)).
Proof.
  intros Hwf He. pose proof (reads_tfhd b Hwf) as Hb. pose proof (tfhd_length b Hwf).
  assert (tfhd_size b ≤ u32_max) by (unfold tfhd_size, tfhd_size_of, u32_max, HEADER_SIZE, HEADER_EXT_SIZE; repeat case_match; lia).
  unfold traf_child. child_turn Hb.
Qed.

Lemma traf_turn_tfdt end_ acc b :
  tfdt_wf b → end_ ≤ u64_max →
  turn traf_child end_ acc (mk_traf_acc (acc_tfhd acc) (Some b) (acc_trun acc)) (box_bytes TfdtBoxType (tfdt_body b)).
Proof.
  intros Hwf He. pose proof (reads_tfdt b Hwf) as Hb. pose proof (tfdt_length b).
  assert (tfdt_size b ≤ u32_max) by (unfold tfdt_size, u32_max, HEADER_SIZE, HEADER_EXT_SIZE; repeat case_match; lia).
  unfold traf_child. child_turn Hb.
Qed.

Lemma traf_turn_trun end_ acc b :
  trun_wf b → trun_size b ≤ u32_max → end_ ≤ u64_max →
  turn traf_child end_ acc (mk_traf_acc (acc_tfhd acc) (acc_tfdt acc) (Some b)) (box_bytes TrunBoxType (trun_body b)).
Proof.
  intros Hwf Hs He. pose proof (reads_trun b Hwf) as Hb. pose proof (trun_length b Hwf).
  unfold traf_child. child_turn Hb.
Qed.

Lemma traf_turns end_ b :
  traf_wf b → traf_size b ≤ u32_max → end_ ≤ u64_max →
  turns traf_child end_ (mk_traf_acc None None None) (mk_traf_acc (Some (tfhd b)) (tfdt b) (trun b)) (traf_body b)
    (1 + ((if is_none (tfdt b) then 0 else 1) + (if is_none (trun b) then 0 else 1))).
Proof.
  intros (Hh & Ht & Hr) Hs He. unfold traf_size in Hs.
  pose proof (tfhd_size_pos (tfhd b)). pose proof (opt_size_nonneg tfdt_size (tfdt b) tfdt_size_pos).
  eapply turns_app; [by apply turns_one, traf_turn_tfhd|]. cbn [acc_tfdt acc_trun].
  apply turns_app with (mk_traf_acc (Some (tfhd b)) (tfdt b) None).
  - destruct (tfdt b) as [t|]; cbn [is_none opt_bytes]; [|constructor].
    apply turns_one. apply (traf_turn_tfdt end_ (mk_traf_acc (Some (tfhd b)) None None)); auto.
  - destruct (trun b) as [t|]; cbn [is_none opt_bytes opt_size] in *; [|constructor].
    apply turns_one. apply (traf_turn_trun end_ (mk_traf_acc (Some (tfhd b)) (tfdt b) None)); auto.
    unfold HEADER_SIZE in *. lia.
Qed.

Lemma reads_traf b : traf_wf b → traf_size b ≤ u32_max → reads_box traf_read b (traf_body b).
Proof.
  intros Hwf Hs. eapply (reads_box_loop traf_child (λ end_ acc,
    match acc_tfhd acc with
    | None => rfail (BoxNotFound TfhdBoxType)
    | Some h => skip_bytes_to end_ ;% rret (mk_traf h (acc_tfdt acc) (acc_trun acc))
    end)); [done|by intros; apply traf_turns|].
  intros end_. destruct b. apply reads_to_skip.
Qed.

Lemma moof_turn_mfhd end_ acc b :
  mfhd_wf b → end_ ≤ u64_max → turn moof_child end_ acc (Some b, snd acc) (box_bytes MfhdBoxType (mfhd_body b)).
Proof.
  intros Hwf He. pose proof (reads_mfhd b Hwf) as Hb. pose proof (mfhd_length b).
  assert (mfhd_size b ≤ u32_max) by done. unfold moof_child. child_turn Hb.
Qed.

Lemma moof_turn_traf end_ acc b :
  traf_wf b → traf_size b ≤ u32_max → end_ ≤ u64_max →
  turn moof_child end_ acc (fst acc, snd acc ++ [b]) (traf_bytes b).
Proof.
  intros Hwf Hs He. pose proof (reads_traf b Hwf Hs) as Hb. pose proof (traf_length b Hwf).
  unfold moof_child, traf_bytes. child_turn Hb.
Qed.

Lemma moof_turns_trafs end_ l m acc :
  (∀ t, t ∈ l → traf_wf t ∧ traf_size t ≤ u32_max) → end_ ≤ u64_max →
  turns moof_child end_ (m, acc) (m, acc ++ l) (mjoin (traf_bytes <$> l)) (length l).
Proof.
  intros Hl He. revert acc. induction l as [|t l IH]; intros acc; [rewrite app_nil_r; constructor|].
  cbn [fmap list_fmap mjoin list_join length]. destruct (Hl t) as [Hw Hs]; [apply list_elem_of_here|].
  econstructor; [by apply (moof_turn_traf end_ (m, acc))|]. cbn [fst snd].
  replace (acc ++ t :: l) with ((acc ++ [t]) ++ l) by (by rewrite <-app_assoc).
  apply IH. intros x Hx. apply Hl. by apply list_elem_of_further.
Qed.

Lemma reads_moof b : moof_wf b → reads_box moof_read b (moof_body b).
Proof.
  intros Hwf. pose proof (traf_size_le b) as Hle. pose proof Hwf as (Hm & Ht & Hs).
  eapply (reads_box_loop moof_child (λ end_ acc,
    match fst acc with
    | None => rfail (BoxNotFound MfhdBoxType)
    | Some h => skip_bytes_to end_ ;% rret (mk_moof h (snd acc))
    end)); [done| |].
  - intros end_ He. eapply turns_app; [by apply turns_one, moof_turn_mfhd|].
    apply (moof_turns_trafs end_ (trafs b) _ []); [|done].
    intros t Hin. split; [by eapply Forall_forall in Ht|by apply Hle].
  - intros end_. destruct b. apply reads_to_skip.
Qed.
