(* ===== verification/Mp4Moof.v ===== *)
(** * A fragment header on disk

    The round trip of [moof] through a file with arbitrary failures, the fuel of the
    reader, and [normalize_fragment_sample_description_indices]
    ([crates/mp4/src/fragmented.rs]), which rewrites a stored fragment so that it can be
    served with an initialization segment of one sample description. *)

From S2P Require Import Prelude Mp4Io Mp4Box Mp4BoxInv.

(** ** [normalize_fragment_sample_description_indices] *)

Definition normalize_traf (t : TrafBox) : TrafBox :=
  let h := tfhd t in
  if negb (Z.land (tfhd_flags h) FLAG_SAMPLE_DESCRIPTION_INDEX =? 0)
  then mk_traf (mk_tfhd (tfhd_version h) (tfhd_flags h) (tfhd_track_id h) (base_data_offset h) (Some 1)
                  (default_sample_duration h) (default_sample_size h) (default_sample_flags h))
         (tfdt t) (trun t)
  else t.

(** [Vec::write]: an empty vector that accepts every byte. *)
Definition vec_sink : Sink := mk_sink [] 0 [].

Definition normalize_fragment_sample_description_indices (fragment : list Z) : io (list Z) :=
  match header_read fragment 0 with
  | Fails e => Fails e
  | Panics => Panics
  | Done (header, p) =>
      if bool_decide (bh_name header ≠ MoofBoxType) || (vec_len fragment <? bh_size header)
      then Fails (InvalidData "fragment must begin with one complete moof box")
      else match moof_read (bh_size header) fragment p with
      | Fails e => Fails e
      | Panics => Panics
      | Done (moof, _) =>
          match moof_write (mk_moof (mfhd moof) (map normalize_traf (trafs moof))) vec_sink with
          | (Fails e, _) => Fails e
          | (Panics, _) => Panics
          | (Done _, normalized) =>
              if negb (vec_len (s_bytes normalized) =? bh_size header)
              then Fails (InvalidData "normalizing sample descriptions changed the moof size")
              else Done (s_bytes normalized ++ drop (Z.to_nat (bh_size header)) fragment)
          end
      end
  end.

(** ** The round trip *)

(** A reader of one [moof] box at the current position. *)
Definition read_moof_box : R MoofBox :=
  let% h := header_read in
  if bool_decide (bh_name h = MoofBoxType) then moof_read (bh_size h)
  else rfail (BoxNotFound MoofBoxType).

Lemma reads_moof_box b pre post :
  moof_wf b → vec_len pre + moof_size b ≤ u64_max →
  read_moof_box (pre ++ moof_bytes b ++ post) (vec_len pre) = Done (b, vec_len (pre ++ moof_bytes b)).
Proof.
  intros Hwf Hu. pose proof (moof_length b Hwf) as Hlen. pose proof Hwf as (_ & _ & Hs).
  assert (0 ≤ vec_len (moof_body b)) by (unfold vec_len; lia).
  unfold read_moof_box, moof_bytes, box_bytes, rdbind. rewrite <-app_assoc.
  rewrite (reads_header MoofBoxType) by (done || lia). cbn [bh_name bh_size].
  rewrite bool_decide_true by done. rewrite !(app_assoc pre). apply reads_moof; [done| |].
  - rewrite vec_len_app, header_bytes_length. unfold vec_len. lia.
  - rewrite !vec_len_app, header_bytes_length. lia.
Qed.

Lemma moof_bytes_length b : moof_wf b → vec_len (moof_bytes b) = moof_size b.
Proof. intros. unfold moof_bytes. by rewrite box_bytes_length, moof_length. Qed.

(** The bytes a sink holds around what was just written. *)
Lemma put_bytes bs fs s :
  sink_ok s → ∃ post, s_bytes (put bs fs s) = take (Z.to_nat (s_pos s)) (s_bytes s) ++ bs ++ post.
Proof.
  intros [H1 H2]. unfold vec_len in H2. eexists. unfold put. cbn [s_bytes]. apply overwrite_inside. lia.
Qed.

Lemma vec_len_prefix s : sink_ok s → vec_len (take (Z.to_nat (s_pos s)) (s_bytes s)) = s_pos s.
Proof. intros [H1 H2]. unfold vec_len in *. rewrite length_take. lia. Qed.

Lemma put_prefix bs fs s :
  sink_ok s → take (Z.to_nat (s_pos s)) (s_bytes (put bs fs s)) = take (Z.to_nat (s_pos s)) (s_bytes s).
Proof.
  intros Hs. destruct (put_bytes bs fs s Hs) as [post ->]. pose proof (vec_len_prefix s Hs) as Hl. unfold vec_len in Hl.
  rewrite take_app_le by lia. apply take_ge. lia.
Qed.

(** C4. Writing a fragment header and reading it back gives the same header: for every
    well-formed [moof] (any number of tracks, samples and optional fields) written at
    any position of a file, whatever I/O calls fail, [moof.write_box] never panics and
    fails only because a call of the file failed; when it succeeds it has written
    exactly [box_size] bytes, and reading a box header and then [MoofBox::read_box] at
    that position returns the box written and stops right after it.  In every case the
    bytes before the position are untouched. *)
Theorem moof_roundtrip b s :
  moof_wf b → sink_ok s → s_pos s + moof_size b ≤ u64_max →
  let '(r, s') := moof_write b s in
  take (Z.to_nat (s_pos s)) (s_bytes s') = take (Z.to_nat (s_pos s)) (s_bytes s) ∧
  match r with
  | Done _ => s_pos s' = s_pos s + moof_size b ∧ read_moof_box (s_bytes s') (s_pos s) = Done (b, s_pos s')
  | Fails e => e = IoError ∧ s_faults s ≠ []
  | Panics => False
  end.
Proof.
  intros Hwf Hs Hu. destruct (emits_moof b Hwf s Hs) as (fs & _ & [E|(Hne & n & E)]); rewrite E.
  - split; [by apply put_prefix|]. split; [unfold put; cbn [s_pos]; by rewrite moof_bytes_length|].
    destruct (put_bytes (moof_bytes b) fs s Hs) as [post ->]. pose proof (vec_len_prefix s Hs) as Hl.
    rewrite <-Hl at 2. rewrite reads_moof_box by (try done; lia).
    do 2 f_equal. rewrite vec_len_app, Hl. done.
  - split; [by apply put_prefix|]. by split.
Qed.

Definition demo_moof : MoofBox :=
  mk_moof (mk_mfhd 0 0 7)
    [mk_traf (mk_tfhd 0 (0x02003a) 1 None (Some 2) (Some 3000) (Some 4) (Some 0x01010000))
       (Some (mk_tfdt 1 0 90000))
       (Some (mk_trun 1 0xf01 2 (Some 128) None [3000; 2999] [4; 5] [0x02000000; 0x01010000] [0; 4294967295]));
     mk_traf (mk_tfhd 0 0x020000 2 None None None None None) None None].

Lemma demo_moof_wf : moof_wf demo_moof.
Proof.
  repeat first [ progress simplify_eq/= | split | constructor | intros ? ?
               | (intros ? [=]) | (right; split; [reflexivity|split; done]) ]; done.
Qed.

Lemma moof_roundtrip_witness :
  moof_wf demo_moof ∧ sink_ok (mk_sink [1; 2; 3] 3 [None; None]) ∧
  let '(r, s') := moof_write demo_moof (mk_sink [1; 2; 3] 3 [None; None]) in
  s_pos s' = 163 ∧ read_moof_box (s_bytes s') 3 = Done (demo_moof, 163).
Proof.
  assert (sink_ok (mk_sink [1; 2; 3] 3 [None; None])) as Hs by done.
  split; [exact demo_moof_wf|]. split; [exact Hs|].
  assert (3 + moof_size demo_moof ≤ u64_max) as Hu by (by vm_compute).
  pose proof (moof_roundtrip demo_moof (mk_sink [1; 2; 3] 3 [None; None]) demo_moof_wf Hs Hu) as H.
  vm_compute in H. vm_compute. exact (proj2 H).
Defined.

(** ** Normalizing a stored fragment *)

Lemma normalize_flag_set t :
  tfhd_wf (tfhd t) →
  negb (Z.land (tfhd_flags (tfhd t)) FLAG_SAMPLE_DESCRIPTION_INDEX =? 0)
  = flag_set FLAG_SAMPLE_DESCRIPTION_INDEX (tfhd_flags (tfhd t)).
Proof.
  intros [[_ [Hf _]] _ _ _ _ _ _]. unfold flag_set. rewrite (Z.land_comm FLAG_SAMPLE_DESCRIPTION_INDEX).
  pose proof (proj2 (Z.land_nonneg (tfhd_flags (tfhd t)) FLAG_SAMPLE_DESCRIPTION_INDEX) (or_introl Hf)) as Hn.
  destruct (Z.land _ _ =? 0) eqn:E1, (0 <? Z.land _ _) eqn:E2; reflect_bools; try done; lia.
Qed.

Lemma normalize_traf_wf t : traf_wf t → traf_wf (normalize_traf t) ∧ traf_size (normalize_traf t) = traf_size t.
Proof.
  intros (Hh & Ht & Hr). unfold normalize_traf. rewrite normalize_flag_set by done.
  destruct (flag_set _ _) eqn:E; [|done]. split; [|done]. split; [|by split].
  destruct Hh. constructor; cbn; try done. rewrite E. split; [done|]. by intros n [= <-].
Qed.

Lemma normalize_trafs_wf l :
  Forall traf_wf l →
  Forall traf_wf (map normalize_traf l) ∧ zsum traf_size (map normalize_traf l) = zsum traf_size l.
Proof.
  induction 1 as [|t l Ht _ [IH1 IH2]]; [done|]. destruct (normalize_traf_wf t Ht) as [H1 H2].
  cbn [map]. split; [by constructor|]. rewrite !zsum_cons. congruence.
Qed.

Definition normalize_moof (b : MoofBox) : MoofBox := mk_moof (mfhd b) (map normalize_traf (trafs b)).

Lemma normalize_moof_wf b : moof_wf b → moof_wf (normalize_moof b) ∧ moof_size (normalize_moof b) = moof_size b.
Proof.
  intros (Hm & Ht & Hs). destruct (normalize_trafs_wf _ Ht) as [H1 H2].
  unfold normalize_moof, moof_size in *. cbn [mfhd trafs]. rewrite H2. split; [split; [done|split; [done|]]|done]. unfold moof_size. cbn [mfhd trafs]. by rewrite H2.
Qed.

Lemma vec_write b : moof_wf b → ∃ fs, moof_write b vec_sink = (Done 0, mk_sink (moof_bytes b) (vec_len (moof_bytes b)) fs).
Proof.
  intros Hwf. assert (sink_ok vec_sink) as Hs by done.
  destruct (emits_moof b Hwf vec_sink Hs) as (fs & _ & [E|(Hne & _)]); [|done]. exists fs. rewrite E.
  unfold put, vec_sink, overwrite. cbn. by rewrite drop_nil, app_nil_r.
Qed.

Lemma moof_header_at b rest :
  moof_wf b → header_read (moof_bytes b ++ rest) 0 = Done (mk_header MoofBoxType (moof_size b), HEADER_SIZE).
Proof.
  intros Hwf. pose proof (moof_length b Hwf) as Hlen. pose proof Hwf as (_ & _ & Hs).
  assert (0 ≤ vec_len (moof_body b)) by (unfold vec_len; lia).
  unfold moof_bytes, box_bytes. rewrite <-app_assoc, Hlen.
  pose proof (reads_header MoofBoxType (moof_size b) ltac:(by vm_compute) ltac:(lia) [] (moof_body b ++ rest)) as E.
  cbn [app] in E. rewrite header_bytes_length in E. exact E.
Qed.

Lemma moof_read_at b rest :
  moof_wf b → moof_read (moof_size b) (moof_bytes b ++ rest) HEADER_SIZE = Done (b, moof_size b).
Proof.
  intros Hwf. pose proof (moof_length b Hwf) as Hlen. pose proof Hwf as (_ & _ & Hs).
  unfold moof_bytes, box_bytes. rewrite <-app_assoc, Hlen.
  rewrite <-Hlen at 1. rewrite <-(header_bytes_length MoofBoxType (moof_size b)) at 2.
  rewrite reads_moof; [|done|by rewrite header_bytes_length|].
  - by rewrite vec_len_app, header_bytes_length, Hlen.
  - rewrite vec_len_app, header_bytes_length, Hlen. unfold u32_max, u64_max in *. lia.
Qed.

Lemma normalize_runs b rest :
  moof_wf b →
  normalize_fragment_sample_description_indices (moof_bytes b ++ rest)
  = Done (moof_bytes (normalize_moof b) ++ rest).
Proof.
  intros Hwf. destruct (normalize_moof_wf b Hwf) as [Hwf' Hsz].
  pose proof (moof_bytes_length b Hwf) as Hlen. pose proof (moof_bytes_length _ Hwf') as Hlen'.
  unfold normalize_fragment_sample_description_indices. rewrite moof_header_at by done. cbn [bh_name bh_size].
  rewrite bool_decide_false by (by intros ?). cbn [orb].
  destruct (_ <? _) eqn:E; [reflect_bools; rewrite vec_len_app in E; unfold vec_len in *; lia|].
  rewrite moof_read_at by done. destruct (vec_write _ Hwf') as [fs F]. unfold normalize_moof at 1 in F. rewrite F.
  cbn [s_bytes]. rewrite Hlen', Hsz, Z.eqb_refl. cbn [negb]. do 2 f_equal.
  apply drop_app_length'. unfold vec_len in Hlen. lia.
Qed.

(** Normalizing a stored fragment changes nothing but the sample-description
    indices: for every well-formed [moof] followed by any bytes (the [mdat] box and the
    rest), [normalize_fragment_sample_description_indices] succeeds, the bytes after the
    [moof] are untouched and stay at their offset, and the new [moof] is the old one
    with the index [1] in every track fragment that carries an index. *)
Theorem normalize_exact b rest :
  moof_wf b →
  normalize_fragment_sample_description_indices (moof_bytes b ++ rest)
  = Done (moof_bytes (normalize_moof b) ++ rest)
  ∧ vec_len (moof_bytes (normalize_moof b)) = vec_len (moof_bytes b)
  ∧ read_moof_box (moof_bytes (normalize_moof b) ++ rest) 0 = Done (normalize_moof b, moof_size b)
  ∧ ∀ i t, trafs b !! i = Some t → ∃ t', trafs (normalize_moof b) !! i = Some t' ∧
      tfdt t' = tfdt t ∧ trun t' = trun t ∧ tfhd_track_id (tfhd t') = tfhd_track_id (tfhd t) ∧
      sample_description_index (tfhd t') = (if is_none (sample_description_index (tfhd t)) then None else Some 1).
Proof.
  intros Hwf. destruct (normalize_moof_wf b Hwf) as [Hwf' Hsz]. pose proof Hwf as (_ & Ht & Hs).
  pose proof (moof_bytes_length b Hwf) as Hlen. pose proof (moof_bytes_length _ Hwf') as Hlen'.
  assert (moof_size b ≤ u64_max) as Hu by (unfold u32_max, u64_max in *; lia).
  repeat split.
  - by apply normalize_runs.
  - by rewrite Hlen, Hlen', Hsz.
  - rewrite <-Hsz. rewrite <-Hsz in Hu. rewrite <-Hlen'. by apply (reads_moof_box _ [] rest).
  - intros i t Hi. cbn [normalize_moof trafs]. exists (normalize_traf t).
    rewrite list_lookup_fmap, Hi. split; [done|].
    assert (traf_wf t) as (Hh & _) by (eapply Forall_lookup_1; eauto).
    unfold normalize_traf. rewrite normalize_flag_set by done. destruct (twf_index _ Hh) as [Hi2 _].
    rewrite Hi2. destruct (sample_description_index (tfhd t)) eqn:E; cbn; rewrite ?E; done.
Qed.

Lemma normalize_exact_witness :
  moof_wf demo_moof ∧
  sample_description_index <$> (tfhd <$> trafs demo_moof) = [Some 2; None] ∧
  normalize_fragment_sample_description_indices (moof_bytes demo_moof ++ [9; 9])
  = Done (moof_bytes (normalize_moof demo_moof) ++ [9; 9]) ∧
  sample_description_index <$> (tfhd <$> trafs (normalize_moof demo_moof)) = [Some 1; None].
Proof.
  split; [exact demo_moof_wf|]. split; [reflexivity|].
  split; [exact (proj1 (normalize_exact demo_moof [9; 9] demo_moof_wf))|reflexivity].
Defined.

(** ** The fuel of the reader, for any bytes *)

Lemma rdbind_inv {A B : Type} (m : R A) (k : A → R B) data p x :
  rdbind m k data p = Done x → ∃ a q, m data p = Done (a, q) ∧ k a data q = Done x.
Proof. unfold rdbind. destruct (m data p) as [[a q]|e|]; [|done|done]. eauto. Qed.

(** Every successful run of [m] stops at [e]. *)
Definition lands {A : Type} (m : R A) (e : Z) : Prop :=
  ∀ data p a q, m data p = Done (a, q) → q = e.

Lemma lands_bind {A B : Type} (m : R A) (k : A → R B) e : (∀ a, lands (k a) e) → lands (rdbind m k) e.
Proof. intros Hk data p a q (b & r & _ & E)%rdbind_inv. by eapply Hk. Qed.
Lemma lands_skip {A : Type} (a : A) e : lands (skip_bytes_to e ;% rret a) e.
Proof. by intros data p b q [= -> ->]. Qed.
Lemma lands_fail {A : Type} x e : lands (@rfail A x) e.
Proof. by intros data p b q [=]. Qed.

Ltac lands_tac :=
  repeat first
    [ apply lands_skip | apply lands_fail
    | (apply lands_bind; let x := fresh "x" in intros x; try (destruct x as [[[? ?] ?] ?]); try (destruct x as [? ?]))
    | (match goal with |- lands (if ?b then _ else _) _ => destruct b end)
    | (match goal with |- lands (match ?b with _ => _ end) _ => destruct b end) ].

Lemma checked_box_end_inv size data p e q :
  checked_box_end size data p = Done (e, q) → q = p ∧ e = p - HEADER_SIZE + size ∧ HEADER_SIZE ≤ size.
Proof.
  unfold checked_box_end, box_start, rok_or, checked_sub, checked_add, rdbind, tell, rret, rfail.
  intros H. repeat (case_match; simplify_eq/=; reflect_bools); lia.
Qed.

Lemma checked_box_end_with_min_inv size m data p e q :
  checked_box_end_with_min size m data p = Done (e, q) → q = p ∧ e = p - HEADER_SIZE + size ∧ HEADER_SIZE ≤ size.
Proof.
  unfold checked_box_end_with_min, ensure_box_size. destruct (size <? m); [done|]. apply checked_box_end_inv.
Qed.

(** A box reader stops at the end the box declares. *)
Definition stops_at_end {A : Type} (rd : Z → R A) : Prop :=
  ∀ size data p a q, rd size data p = Done (a, q) → q = p - HEADER_SIZE + size ∧ HEADER_SIZE ≤ size.

(** A reader that checks the end of its box, reads, and skips to that end. *)
Ltac stops_tac inv :=
  intros size data p a q (e & r & H & Hk)%rdbind_inv; apply inv in H as (-> & -> & ?);
  split; [|done]; revert Hk;
  match goal with |- ?m _ _ = _ → _ =>
    let Hl := fresh in assert (lands m (p - HEADER_SIZE + size)) as Hl by lands_tac; apply Hl
  end.

Lemma mfhd_stops : stops_at_end mfhd_read.
Proof. stops_tac checked_box_end_with_min_inv. Qed.
Lemma tfdt_stops : stops_at_end tfdt_read.
Proof. stops_tac checked_box_end_with_min_inv. Qed.
Lemma tfhd_stops : stops_at_end tfhd_read.
Proof. stops_tac checked_box_end_with_min_inv. Qed.
Lemma trun_stops : stops_at_end trun_read.
Proof. stops_tac checked_box_end_with_min_inv. Qed.
Lemma traf_stops : stops_at_end traf_read.
Proof. stops_tac checked_box_end_inv. Qed.
Lemma skip_box_stops : stops_at_end skip_box.
Proof.
  intros size data p a q (e & r & H & Hk)%rdbind_inv. apply checked_box_end_inv in H as (-> & -> & ?).
  unfold skip_bytes_to in Hk. by simplify_eq.
Qed.

Lemma read_exact_inv n data p bs q :
  read_exact n data p = Done (bs, q) → q = p + Z.of_nat n ∧ q ≤ vec_len data.
Proof. unfold read_exact. destruct (_ <=? _) eqn:E; [|done]. reflect_bools. intros [= <- <-]. lia. Qed.

Lemma header_read_inv data p h q :
  header_read data p = Done (h, q) → p + HEADER_SIZE ≤ q ∧ q ≤ vec_len data.
Proof.
  intros (buf & r & [-> H1]%read_exact_inv & Hk)%rdbind_inv. unfold HEADER_SIZE in *.
  destruct (_ =? 1).
  - apply rdbind_inv in Hk as (buf' & r' & [-> H2]%read_exact_inv & Hk).
    unfold rret, rfail in Hk. repeat (case_match; simplify_eq/=); lia.
  - unfold rret, rfail in Hk. repeat (case_match; simplify_eq/=); lia.
Qed.

Lemma ensure_remaining_inv end_ needed data p u q : ensure_box_bytes_remaining end_ needed data p = Done (u, q) → q = p.
Proof.
  unfold ensure_box_bytes_remaining, rok_or, rdbind, tell, rret, rfail. intros H. by repeat (case_match; simplify_eq/=).
Qed.

Lemma read_box_header_inv end_ data p h q :
  read_box_header end_ data p = Done (h, q) → p + HEADER_SIZE ≤ q ∧ q ≤ vec_len data.
Proof.
  intros (u & r & ->%ensure_remaining_inv & Hk)%rdbind_inv. apply rdbind_inv in Hk as (st & r & [= <- <-] & Hk).
  apply rdbind_inv in Hk as (n & r & _ & Hk). apply rdbind_inv in Hk as (u' & r' & [= _ <-] & Hk).
  apply rdbind_inv in Hk as (u'' & r'' & H & Hk). assert (r'' = p) as ->; [|by eapply header_read_inv].
  destruct (n =? 1); [by eapply ensure_remaining_inv|by injection H].
Qed.

(** A child loop advances past a header, which is inside the data, at every turn. *)
Definition advances {A : Type} (child : Z → A → R A) : Prop :=
  ∀ end_ acc data p a q, child end_ acc data p = Done (a, q) → p < q ∧ p < vec_len data.

Lemma child_advances {A B : Type} (rd : Z → R B) (f : B → A) size data p0 p e a q :
  stops_at_end rd → p0 + HEADER_SIZE ≤ p → p ≤ vec_len data → checked_box_end size data p = Done (e, p) →
  (let% b := rd size in rret (f b)) data p = Done (a, q) → p0 < q ∧ p0 < vec_len data.
Proof.
  intros Hrd Hp Hd _ (b & r & H & Hk)%rdbind_inv. unfold rret in Hk. simplify_eq.
  apply Hrd in H as [-> Hs]. unfold HEADER_SIZE in *. lia.
Qed.

Lemma traf_child_advances : advances traf_child.
Proof.
  intros end_ acc data p a q (h & p1 & [H1 H2]%read_box_header_inv & Hk)%rdbind_inv.
  apply rdbind_inv in Hk as (e & p2 & He & Hk). pose proof (checked_box_end_inv _ _ _ _ _ He) as (-> & _ & _).
  destruct (end_ <? e); [done|].
  destruct (bh_name h); revert Hk; (eapply child_advances; [|done|done|exact He]);
    first [apply tfhd_stops|apply tfdt_stops|apply trun_stops|apply skip_box_stops].
Qed.

Lemma moof_child_advances : advances moof_child.
Proof.
  intros end_ acc data p a q (h & p1 & [H1 H2]%read_box_header_inv & Hk)%rdbind_inv.
  apply rdbind_inv in Hk as (e & p2 & He & Hk). pose proof (checked_box_end_inv _ _ _ _ _ He) as (-> & _ & _).
  destruct (end_ <? e); [done|].
  destruct (bh_name h); revert Hk; (eapply child_advances; [|done|done|exact He]);
    first [apply mfhd_stops|apply traf_stops|apply skip_box_stops].
Qed.

(** The loops that read the children of a [traf] and of a [moof] end on any bytes,
    well-formed or not: from any position of the data, the fuel the readers take
    ([data_fuel], two more than the length of the data) gives the result of any larger
    amount of fuel, so the bound is never what stops the loop. *)
Theorem box_loop_terminates {A : Type} (child : Z → A → R A) fuel more end_ acc data p :
  advances child → 0 ≤ p → (S (S (length data)) ≤ fuel)%nat →
  box_loop child (fuel + more) end_ acc data p = box_loop child fuel end_ acc data p.
Proof.
  intros Hadv Hp Hf. assert (Z.max 0 (vec_len data - p) < Z.of_nat fuel) as Hm by (unfold vec_len; lia).
  clear Hf Hp. revert acc p Hm. induction fuel as [|fuel IH]; intros acc p Hm; [lia|].
  cbn [Nat.add box_loop]. unfold rdbind at 1 3, tell. destruct (p <? end_); [|done].
  unfold rdbind. destruct (child end_ acc data p) as [[a q]|e|] eqn:E; [|done|done].
  apply IH. apply Hadv in E. lia.
Qed.
