(* ===== verification/Fragmented.v ===== *)
(** * The fragmented MP4 writer

    [crates/mp4/src/fragmented.rs]: a file starts with an initialization segment of
    fixed capacity, followed by fragments ([moof] and [mdat]) that the caller flushes.
    Samples wait in their track until then.  Every operation is a function of the whole
    writer, the failures of the file included ([Mp4Io.Sink]).

    The bytes of the [moov] box ([Mp4TrackWriter] and [MoovBox::write_box]) are the
    function [moov_box] of the time scale and the tracks; the padding to the fixed
    capacity, the rewriting in place and every error around it are modelled. *)

From S2P Require Import Prelude Mp4Io Mp4Box.

(** ** Data ([types.rs], [track.rs], [writer.rs]) *)

Inductive TrackType := VideoTrack | AudioTrack | SubtitleTrack.
#[global] Instance TrackType_eq_dec : EqDecision TrackType.
Proof. solve_decision. Defined.

Inductive SampleFreqIndex :=
| Freq96000 | Freq88200 | Freq64000 | Freq48000 | Freq44100 | Freq32000 | Freq24000
| Freq22050 | Freq16000 | Freq12000 | Freq11025 | Freq8000 | Freq7350.
#[global] Instance SampleFreqIndex_eq_dec : EqDecision SampleFreqIndex.
Proof. solve_decision. Defined.
Inductive ChannelConfig := Mono | Stereo | Three | Four | Five | FiveOne | SevenOne.
#[global] Instance ChannelConfig_eq_dec : EqDecision ChannelConfig.
Proof. solve_decision. Defined.

(** An [AudioObjectType] is its discriminant. *)
Definition AacLowComplexity : Z := 2.

Inductive MediaConfig :=
| AvcConfig (width height : Z) (seq_param_set pic_param_set : list Z)
| HevcConfig (width height : Z) (vps sps pps decoder_config : list Z)
| Vp9Config (width height : Z)
| AacConfig (bitrate profile : Z) (freq_index : SampleFreqIndex) (chan_conf : ChannelConfig)
| TtxtConfig.
#[global] Instance MediaConfig_eq_dec : EqDecision MediaConfig.
Proof. solve_decision. Defined.

Record Mp4Sample := mk_sample {
  start_time : Z;
  duration : Z;
  rendering_offset : Z;
  is_sync : bool;
  bytes : list Z
}.

Record Mp4SampleLocation := mk_location { loc_offset : Z; loc_size : Z }.
Record Mp4ByteRange := mk_range { range_offset : Z; range_size : Z }.
Record Mp4FragmentInfo := mk_info {
  info_sequence : Z;
  info_range : Mp4ByteRange;
  video_keyframe : option Mp4SampleLocation
}.

Record Mp4Config := mk_config {
  major_brand : Z; minor_version : Z; compatible_brands : list Z; cfg_timescale : Z }.
Record TrackConfig := mk_track_config {
  tc_type : TrackType; tc_timescale : Z; tc_language : string; tc_media_conf : MediaConfig }.
Record FragmentedTrackConfig := mk_frag_config {
  fc_type : TrackType; fc_timescale : Z; fc_language : string; fc_descriptions : list MediaConfig }.

Record FragmentTrack := mk_track {
  track_id : Z;
  track_type : TrackType;
  timescale : Z;
  language : string;
  sample_descriptions : list MediaConfig;
  sample_description_count : Z;
  pending_sample_description_index : option Z;
  samples : list Mp4Sample
}.

Record FragmentedMp4Writer := mk_writer {
  writer : Sink;
  tracks : list FragmentTrack;
  initialization : Mp4ByteRange;
  movie_timescale : Z;
  moov_offset : Z;
  fw_sequence_number : Z;
  poisoned : bool
}.

Definition SYNC_SAMPLE_FLAGS : Z := 0x02000000.
Definition NON_SYNC_SAMPLE_FLAGS : Z := 0x01010000.
Definition INITIALIZATION_METADATA_CAPACITY : Z := 8 * 1024.
Definition i32_max : Z := 2 ^ 31 - 1.

Definition sample_flags (t : TrackType) (is_sync : bool) : Z :=
  if bool_decide (t = VideoTrack) && negb is_sync then NON_SYNC_SAMPLE_FLAGS else SYNC_SAMPLE_FLAGS.
Definition track_default_sample_flags (t : TrackType) : Z :=
  if bool_decide (t = VideoTrack) then NON_SYNC_SAMPLE_FLAGS else SYNC_SAMPLE_FLAGS.
Definition media_config_track_type (c : MediaConfig) : TrackType :=
  match c with
  | AvcConfig _ _ _ _ | HevcConfig _ _ _ _ _ _ | Vp9Config _ _ => VideoTrack
  | AacConfig _ _ _ _ => AudioTrack
  | TtxtConfig => SubtitleTrack
  end.

(** ** Errors without state, and operations on the writer *)

Definition ibind {A B : Type} (m : io A) (k : A → io B) : io B :=
  match m with Done a => k a | Fails e => Fails e | Panics => Panics end.
Notation "'let&' x := m 'in' k" := (ibind m (λ x, k))
  (at level 10, x pattern, m at level 100, k at level 200,
   format "'[v' 'let&'  x  :=  m  'in' '/' k ']'") : rust_scope.

Definition FW (A : Type) : Type := FragmentedMp4Writer → io A * FragmentedMp4Writer.
Definition fret {A : Type} (r : io A) : FW A := λ w, (r, w).
Definition fbind {A B : Type} (m : FW A) (k : A → FW B) : FW B :=
  λ w, match m w with
       | (Done a, w') => k a w'
       | (Fails e, w') => (Fails e, w')
       | (Panics, w') => (Panics, w')
       end.
Notation "'let@' x := m 'in' k" := (fbind m (λ x, k))
  (at level 10, x pattern, m at level 100, k at level 200,
   format "'[v' 'let@'  x  :=  m  'in' '/' k ']'") : rust_scope.

Definition set_writer (s : Sink) (w : FragmentedMp4Writer) : FragmentedMp4Writer :=
  mk_writer s (tracks w) (initialization w) (movie_timescale w) (moov_offset w) (fw_sequence_number w) (poisoned w).
Definition set_tracks (l : list FragmentTrack) (w : FragmentedMp4Writer) : FragmentedMp4Writer :=
  mk_writer (writer w) l (initialization w) (movie_timescale w) (moov_offset w) (fw_sequence_number w) (poisoned w).
Definition set_sequence (n : Z) (w : FragmentedMp4Writer) : FragmentedMp4Writer :=
  mk_writer (writer w) (tracks w) (initialization w) (movie_timescale w) (moov_offset w) n (poisoned w).
Definition set_poisoned (w : FragmentedMp4Writer) : FragmentedMp4Writer :=
  mk_writer (writer w) (tracks w) (initialization w) (movie_timescale w) (moov_offset w) (fw_sequence_number w) true.
Definition set_samples (p : option Z) (l : list Mp4Sample) (t : FragmentTrack) : FragmentTrack :=
  mk_track (track_id t) (track_type t) (timescale t) (language t) (sample_descriptions t)
    (sample_description_count t) p l.
Definition set_descriptions (l : list MediaConfig) (n : Z) (t : FragmentTrack) : FragmentTrack :=
  mk_track (track_id t) (track_type t) (timescale t) (language t) l n
    (pending_sample_description_index t) (samples t).
Definition set_duration (d : Z) (s : Mp4Sample) : Mp4Sample :=
  mk_sample (start_time s) d (rendering_offset s) (is_sync s) (bytes s).

Definition on_sink {A : Type} (m : W A) : FW A :=
  λ w, let '(r, s) := m (writer w) in (r, set_writer s w).

Definition ensure_not_poisoned : FW unit :=
  λ w, (if poisoned w then Fails (InvalidData "fragmented MP4 writer is poisoned") else Done (), w).

Definition has_samples (t : FragmentTrack) : bool := match samples t with [] => false | _ => true end.
Definition has_pending_samples (w : FragmentedMp4Writer) : bool := existsb has_samples (tracks w).
Definition clear_samples (w : FragmentedMp4Writer) : FragmentedMp4Writer :=
  set_tracks (map (set_samples None []) (tracks w)) w.
Definition discard_pending_samples (w : FragmentedMp4Writer) : FragmentedMp4Writer := clear_samples w.

(** [tracks.get(track_id - 1).filter(|track| track.track_id == track_id)]. *)
Definition find_track (id : Z) (w : FragmentedMp4Writer) : option (nat * FragmentTrack) :=
  let i := Z.to_nat (saturating_sub id 1) in
  match tracks w !! i with
  | Some t => if track_id t =? id then Some (i, t) else None
  | None => None
  end.
Definition update_track (i : nat) (t : FragmentTrack) (w : FragmentedMp4Writer) : FragmentedMp4Writer :=
  set_tracks (<[i := t]> (tracks w)) w.

(** ** Samples *)

(** [samples.last_mut()] with a new duration. *)
Fixpoint set_last_duration (d : Z) (l : list Mp4Sample) : list Mp4Sample :=
  match l with
  | [] => []
  | [s] => [set_duration d s]
  | s :: l => s :: set_last_duration d l
  end.
Definition u32_try (n : Z) : option Z := if (0 <=? n) && (n <=? u32_max) then Some n else None.

Definition write_sample_with_description (id index : Z) (sample : Mp4Sample) : FW unit :=
  let@ _ := ensure_not_poisoned in
  λ w,
  if duration sample =? 0 then (Fails (InvalidData "fragmented MP4 sample duration is zero"), w)
  else if u32_max <? vec_len (bytes sample)
  then (Fails (InvalidData "fragmented MP4 sample exceeds 4 GiB"), w)
  else match find_track id w with
  | None => (Fails (TrakNotFound id), w)
  | Some (i, t) =>
      if (index =? 0) || (sample_description_count t <? index)
      then (Fails (InvalidData "sample description index is out of range"), w)
      else if is_some_and (λ p, negb (p =? index)) (pending_sample_description_index t)
      then (Fails (InvalidData "sample description can change only at a fragment boundary"), w)
      else if bool_decide (track_type t = VideoTrack) && negb (has_samples t) && negb (is_sync sample)
      then (Fails (InvalidData "fragmented MP4 video fragment must start with a sync sample"), w)
      else
        let stretched :=
          match last (samples t) with
          | None => Done (samples t)
          | Some previous =>
              match checked_sub (start_time sample) (start_time previous) with
              | Some delta =>
                  if 0 <? delta then
                    match u32_try delta with
                    | Some d => Done (set_last_duration d (samples t))
                    | None => Fails (InvalidData "fragmented MP4 sample duration exceeds u32")
                    end
                  else Fails (InvalidData "fragmented MP4 sample decode times are not increasing")
              | None => Fails (InvalidData "fragmented MP4 sample decode times are not increasing")
              end
          end in
        match stretched with
        | Fails e => (Fails e, w)
        | Panics => (Panics, w)
        | Done l =>
            if vec_len l =? u32_max
            then (Fails (InvalidData "fragmented MP4 fragment has too many samples"),
                  update_track i (set_samples (pending_sample_description_index t) l t) w)
            else (Done (), update_track i (set_samples (Some index) (l ++ [sample]) t) w)
        end
  end.
Definition write_sample (id : Z) (sample : Mp4Sample) : FW unit := write_sample_with_description id 1 sample.

(** ** Fragments *)

Fixpoint checked_sum (max acc : Z) (l : list Z) : option Z :=
  match l with
  | [] => Some acc
  | n :: l => match checked_add max acc n with Some a => checked_sum max a l | None => None end
  end.

(** [u32::try_from(bytes.len()).unwrap()] for every sample. *)
Fixpoint sizes_of (l : list Mp4Sample) : io (list Z) :=
  match l with
  | [] => Done []
  | s :: l => match u32_try (vec_len (bytes s)) with
              | None => Panics
              | Some n => let& ns := sizes_of l in Done (n :: ns)
              end
  end.

(** One track of the fragment: the body of the first loop of [flush_fragment]. *)
Definition build_traf (t : FragmentTrack) (payload_len : Z) : io (TrafBox * Z) :=
  let& sample_count := ok_or (u32_try (vec_len (samples t)))
                         (InvalidData "fragmented MP4 fragment has too many samples") in
  match samples t with
  | [] => Panics
  | first_sample :: _ =>
      let has_composition_offsets := existsb (λ s, negb (rendering_offset s =? 0)) (samples t) in
      let signed_composition_offsets := existsb (λ s, rendering_offset s <? 0) (samples t) in
      let flags := Z.lor (Z.lor (Z.lor FLAG_DATA_OFFSET FLAG_SAMPLE_DURATION) FLAG_SAMPLE_SIZE) FLAG_SAMPLE_FLAGS in
      let flags := if has_composition_offsets then Z.lor flags FLAG_SAMPLE_CTS else flags in
      let& sizes := sizes_of (samples t) in
      let& payload_len := ok_or (checked_sum u64_max payload_len sizes)
                            (InvalidData "fragmented MP4 payload size overflow") in
      let has_multiple_descriptions := 1 <? sample_description_count t in
      match pending_sample_description_index t, u32_try (vec_len (bytes first_sample)) with
      | Some index, Some first_size =>
          Done (mk_traf
            (mk_tfhd 0
               (Z.lor (Z.lor (Z.lor (Z.lor FLAG_DEFAULT_BASE_IS_MOOF FLAG_DEFAULT_SAMPLE_DURATION)
                                FLAG_DEFAULT_SAMPLE_SIZE) FLAG_DEFAULT_SAMPLE_FLAGS)
                  (if has_multiple_descriptions then FLAG_SAMPLE_DESCRIPTION_INDEX else 0))
               (track_id t) None
               (if has_multiple_descriptions then Some index else None)
               (Some (duration first_sample)) (Some first_size)
               (Some (track_default_sample_flags (track_type t))))
            (Some (mk_tfdt 1 0 (start_time first_sample)))
            (Some (mk_trun (if signed_composition_offsets then 1 else 0) flags sample_count (Some 0) None
               (map duration (samples t)) sizes
               (map (λ s, sample_flags (track_type t) (is_sync s)) (samples t))
               (if has_composition_offsets then map (λ s, u32_of_i32 (rendering_offset s)) (samples t) else []))),
            payload_len)
      | _, _ => Panics
      end
  end.
Fixpoint build_trafs (l : list FragmentTrack) (payload_len : Z) : io (list TrafBox * Z) :=
  match l with
  | [] => Done ([], payload_len)
  | t :: l =>
      let& (traf, payload_len) := build_traf t payload_len in
      let& (trafs, payload_len) := build_trafs l payload_len in
      Done (traf :: trafs, payload_len)
  end.

Definition set_data_offset (o : Z) (t : TrafBox) : io TrafBox :=
  match trun t with
  | None => Panics
  | Some r => Done (mk_traf (tfhd t) (tfdt t)
      (Some (mk_trun (trun_version r) (trun_flags r) (sample_count r) (Some o) (first_sample_flags r)
               (sample_durations r) (sample_sizes r) (trun_sample_flags r) (sample_cts r))))
  end.

(** The second loop: where each track's payload lies, and the first video keyframe. *)
Fixpoint assign_offsets (fragment_start : Z) (l : list (TrafBox * FragmentTrack)) (payload_offset : Z)
    (keyframe : option Mp4SampleLocation) : io (list TrafBox * option Mp4SampleLocation) :=
  match l with
  | [] => Done ([], keyframe)
  | (traf, t) :: l =>
      let& o := ok_or (if payload_offset <=? i32_max then Some payload_offset else None)
                  (InvalidData "fragmented MP4 data offset exceeds i32") in
      let& traf := set_data_offset o traf in
      let& keyframe :=
        (match samples t with
         | first_sample :: _ =>
             if is_none keyframe && bool_decide (track_type t = VideoTrack) && is_sync first_sample then
               let& o := ok_or (checked_add u64_max fragment_start payload_offset)
                           (InvalidData "keyframe byte offset overflow") in
               let& n := ok_or (u32_try (vec_len (bytes first_sample)))
                           (InvalidData "fragmented MP4 sample exceeds 4 GiB") in
               Done (Some (mk_location o n))
             else Done keyframe
         | [] => if is_none keyframe && bool_decide (track_type t = VideoTrack) then Panics else Done keyframe
         end) in
      let& payload_offset := ok_or (checked_sum u64_max payload_offset (map (λ s, vec_len (bytes s)) (samples t)))
                               (InvalidData "fragmented MP4 data offset overflow") in
      let& (trafs, keyframe) := assign_offsets fragment_start l payload_offset keyframe in
      Done (traf :: trafs, keyframe)
  end.

(** The fragment header: everything [flush_fragment] computes before it writes. *)
Definition build_fragment (fragment_start sequence : Z) (l : list FragmentTrack)
    : io (MoofBox * Z * option Mp4SampleLocation) :=
  let& (trafs, payload_len) := build_trafs l 0 in
  let& mdat_size := ok_or (checked_add u64_max HEADER_SIZE payload_len)
                      (InvalidData "fragmented MP4 mdat size overflow") in
  if u32_max <? mdat_size then Fails (InvalidData "fragmented MP4 mdat exceeds 32-bit box size")
  else
    let header := mk_mfhd 0 0 sequence in
    let& payload_offset := ok_or (checked_add u64_max (moof_size (mk_moof header trafs)) HEADER_SIZE)
                             (InvalidData "fragmented MP4 data offset overflow") in
    let& (trafs, keyframe) := assign_offsets fragment_start (zip trafs l) payload_offset None in
    Done (mk_moof header trafs, mdat_size, keyframe).

Definition write_fragment (moof : MoofBox) (mdat_size : Z) (l : list FragmentTrack) : W Z :=
  moof_write moof ;^
  header_write (mk_header MdatBoxType mdat_size) ;^
  write_each (λ t, write_each (λ s, write_all (bytes s)) (samples t)) l ;^
  sink_flush ;^
  stream_position.

Definition flush_fragment : FW (option Mp4FragmentInfo) :=
  let@ _ := ensure_not_poisoned in
  λ w,
  if negb (has_pending_samples w) then (Done None, w)
  else (let@ fragment_start := on_sink stream_position in
        λ w,
        let pending := filter (λ t, has_samples t = true) (tracks w) in
        (let@ (moof, mdat_size, keyframe) := fret (build_fragment fragment_start (fw_sequence_number w) pending) in
         let@ fragment_end := on_sink (write_fragment moof mdat_size pending) in
         λ w,
         let w := clear_samples w in
         let info := mk_info (fw_sequence_number w) (mk_range fragment_start (fragment_end - fragment_start)) keyframe in
         match checked_add u32_max (fw_sequence_number w) 1 with
         | None => (Fails (InvalidData "fragmented MP4 sequence number overflow"), w)
         | Some n => (Done (Some info), set_sequence n w)
         end) w) w.

(** The trailing sample of a track ends where the next sample starts. *)
Definition finish_trailing_sample (id next_start_time : Z) : FW unit :=
  let@ _ := ensure_not_poisoned in
  λ w,
  match find_track id w with
  | None => (Fails (TrakNotFound id), w)
  | Some (i, t) =>
      match last (samples t) with
      | None => (Done (), w)
      | Some l =>
          match checked_sub next_start_time (start_time l) with
          | None => (Fails (InvalidData "fragment boundary does not follow the trailing sample"), w)
          | Some d =>
              if 0 <? d then
                match u32_try d with
                | None => (Fails (InvalidData "fragmented MP4 sample duration exceeds u32"), w)
                | Some d =>
                    (Done (), update_track i (set_samples (pending_sample_description_index t)
                                                (set_last_duration d (samples t)) t) w)
                end
              else (Fails (InvalidData "fragment boundary does not follow the trailing sample"), w)
          end
      end
  end.
Definition flush_fragment_before_sample (id next_start_time : Z) : FW (option Mp4FragmentInfo) :=
  let@ _ := finish_trailing_sample id next_start_time in flush_fragment.

Definition write_end : FW (option Mp4FragmentInfo) := flush_fragment.

(** ** The initialization segment *)

(** [ftyp.rs]; a [FourCC] is the big-endian number of its four bytes. *)
Record FtypBox := mk_ftyp { ftyp_major_brand : Z; ftyp_minor_version : Z; ftyp_compatible_brands : list Z }.
Definition ftyp_size (b : FtypBox) : Z := HEADER_SIZE + 8 + 4 * vec_len (ftyp_compatible_brands b).
Definition ftyp_write (b : FtypBox) : W Z :=
  let size := ftyp_size b in
  header_write (mk_header FtypBoxType size) ;^
  write_u32 (ftyp_major_brand b) ;^
  write_u32 (ftyp_minor_version b) ;^
  write_each write_u32 (ftyp_compatible_brands b) ;^
  wret size.

(** [Vec::resize(n, 0)]. *)
Definition resize (n : nat) (l : list Z) : list Z := take n l ++ replicate (n - length l) 0.

Definition write_initialization_metadata_bytes (moov_offset : Z) (metadata : list Z) : W unit :=
  sink_seek moov_offset ;^ write_all metadata ;^ sink_flush.

Section moov.
Context (moov_box : Z → list FragmentTrack → io (list Z)).

Definition initialization_metadata (movie_timescale : Z) (tracks : list FragmentTrack) : io (list Z) :=
  let& next_track_id :=
    ok_or (match u32_try (vec_len tracks) with Some n => checked_add u32_max n 1 | None => None end)
      (InvalidData "too many fragmented MP4 tracks") in
  let& metadata := moov_box movie_timescale tracks in
  let& free_size :=
    ok_or (match checked_sub INITIALIZATION_METADATA_CAPACITY (vec_len metadata) with
           | Some n => if HEADER_SIZE <=? n then Some n else None
           | None => None
           end)
      (InvalidData "fragmented MP4 initialization metadata capacity exceeded") in
  match header_write (mk_header FreeBoxType free_size) (mk_sink metadata (vec_len metadata) []) with
  | (Fails e, _) => Fails e
  | (Panics, _) => Panics
  | (Done _, output) => Done (resize (Z.to_nat INITIALIZATION_METADATA_CAPACITY) (s_bytes output))
  end.

Definition write_initialization_metadata (moov_offset movie_timescale : Z) (tracks : list FragmentTrack) : W unit :=
  match initialization_metadata movie_timescale tracks with
  | Fails e => wfail e
  | Panics => wpanic
  | Done metadata => write_initialization_metadata_bytes moov_offset metadata
  end.

(** The tracks of a new writer, numbered from one. *)
Fixpoint new_tracks (index : nat) (configs : list FragmentedTrackConfig) : io (list FragmentTrack) :=
  match configs with
  | [] => Done []
  | c :: configs =>
      let& id := ok_or (u32_try (Z.of_nat index + 1)) (InvalidData "too many fragmented MP4 tracks") in
      let& count := ok_or (u32_try (vec_len (fc_descriptions c))) (InvalidData "too many sample descriptions") in
      let& rest := new_tracks (S index) configs in
      Done (mk_track id (fc_type c) (fc_timescale c) (fc_language c) (fc_descriptions c) count None [] :: rest)
  end.

Definition write_start_with_sample_descriptions (config : Mp4Config) (configs : list FragmentedTrackConfig)
    : W FragmentedMp4Writer :=
  if match configs with [] => true | _ => false end
  then wfail (InvalidData "fragmented MP4 requires at least one track")
  else if (cfg_timescale config =? 0) || existsb (λ c, fc_timescale c =? 0) configs
  then wfail (InvalidData "MP4 timescales must be non-zero")
  else if existsb (λ c, match fc_descriptions c with [] => true | _ => false end) configs
  then wfail (InvalidData "fragmented MP4 tracks require a sample description")
  else
    let^ init_start := stream_position in
    ftyp_write (mk_ftyp (major_brand config) (minor_version config) (compatible_brands config)) ;^
    let^ moov_offset := stream_position in
    let^ tracks := wlift (new_tracks 0 configs) in
    write_initialization_metadata moov_offset (cfg_timescale config) tracks ;^
    (λ s, (Done (mk_writer s tracks
                   (mk_range init_start (moov_offset + INITIALIZATION_METADATA_CAPACITY - init_start))
                   (cfg_timescale config) moov_offset 1 false), s)).

Definition write_start (config : Mp4Config) (configs : list TrackConfig) : W FragmentedMp4Writer :=
  write_start_with_sample_descriptions config
    (map (λ c, mk_frag_config (tc_type c) (tc_timescale c) (tc_language c) [tc_media_conf c]) configs).

(** [add_sample_description]: an existing description keeps its index; a new one is
    appended and the initialization segment rewritten in place. *)
Definition add_sample_description (id : Z) (description : MediaConfig) : FW Z :=
  let@ _ := ensure_not_poisoned in
  λ w,
  match find_track id w with
  | None => (Fails (TrakNotFound id), w)
  | Some (i, t) =>
      if bool_decide (media_config_track_type description ≠ track_type t)
      then (Fails (InvalidData "sample description does not match the track type"), w)
      else match position (λ c, bool_decide (c = description)) (sample_descriptions t) with
      | Some n => (ok_or (u32_try (Z.of_nat n + 1)) (InvalidData "too many sample descriptions"), w)
      | None =>
          if has_pending_samples w
          then (Fails (InvalidData "sample descriptions can change only at a fragment boundary"), w)
          else
            let descriptions := sample_descriptions t ++ [description] in
            match u32_try (vec_len descriptions) with
            | None => (Fails (InvalidData "too many sample descriptions"),
                       update_track i (set_descriptions descriptions (sample_description_count t) t) w)
            | Some count =>
                let w' := update_track i (set_descriptions descriptions count t) w in
                match initialization_metadata (movie_timescale w') (tracks w') with
                | Fails e =>
                    (Fails e, update_track i (set_descriptions (sample_descriptions t) (count - 1) t) w')
                | Panics => (Panics, w')
                | Done metadata =>
                    match stream_position (writer w') with
                    | (Fails e, s) => (Fails e, set_writer s w')
                    | (Panics, s) => (Panics, set_writer s w')
                    | (Done media_end, s) =>
                        match write_initialization_metadata_bytes (moov_offset w') metadata s with
                        | (Fails e, s) =>
                            (Fails e, set_poisoned (set_writer s
                               (update_track i (set_descriptions (sample_descriptions t) (count - 1) t) w')))
                        | (Panics, s) => (Panics, set_writer s w')
                        | (Done _, s) =>
                            match sink_seek media_end s with
                            | (Fails e, s) => (Fails e, set_writer s w')
                            | (Panics, s) => (Panics, set_writer s w')
                            | (Done _, s) => (Done count, set_writer s w')
                            end
                        end
                    end
                end
            end
      end
  end.

End moov.
