(* ===== verification/FragmentedInv.v ===== *)
(** * What a flushed fragment contains

    The invariant of the fragmented writer, and the header [flush_fragment] computes:
    it is well formed, its runs list the pending samples, and its offsets point at the
    samples' bytes in the [mdat] box that follows. *)

From S2P Require Import Prelude Mp4Io Mp4Box Mp4BoxInv Mp4Moof Fragmented.

(** ** Invariants *)

Record sample_ok (s : Mp4Sample) : Prop := {
  so_start : 0 ≤ start_time s ≤ u64_max;
  so_duration : 0 < duration s ≤ u32_max;
  so_offset : - 2 ^ 31 ≤ rendering_offset s < 2 ^ 31;
  so_bytes : vec_len (bytes s) ≤ u32_max
}.

(** The decode times of a run: each sample starts where the one before it ends. *)
Fixpoint contiguous (l : list Mp4Sample) : Prop :=
  match l with
  | [] => True
  | s :: l' => match l' with s' :: _ => start_time s' = start_time s + duration s | [] => True end ∧ contiguous l'
  end.

Record track_ok (i : nat) (t : FragmentTrack) : Prop := {
  to_id : track_id t = Z.of_nat i + 1 ∧ track_id t ≤ u32_max;
  to_count : 1 ≤ sample_description_count t ≤ u32_max;
  to_pending : match pending_sample_description_index t with
               | None => samples t = []
               | Some p => samples t ≠ [] ∧ 1 ≤ p ≤ sample_description_count t
               end;
  to_samples : Forall sample_ok (samples t);
  to_contiguous : contiguous (samples t);
  to_len : vec_len (samples t) ≤ u32_max;
  to_sync : track_type t = VideoTrack → ∀ s l, samples t = s :: l → is_sync s = true;
  to_descriptions : sample_description_count t ≤ vec_len (sample_descriptions t)
}.

Record writer_ok (w : FragmentedMp4Writer) : Prop := {
  wo_sink : sink_ok (writer w);
  wo_tracks : ∀ i t, tracks w !! i = Some t → track_ok i t;
  wo_sequence : 1 ≤ fw_sequence_number w ≤ u32_max
}.

(** A track with something to flush. *)
Definition pending_ok (t : FragmentTrack) : Prop := (∃ i, track_ok i t) ∧ samples t ≠ [].

(** ** The header of a fragment *)

Definition sample_size (s : Mp4Sample) : Z := vec_len (bytes s).
Definition payload_size (t : FragmentTrack) : Z := zsum sample_size (samples t).
Definition track_payload (t : FragmentTrack) : list Z := mjoin (bytes <$> samples t).
Definition has_cts (t : FragmentTrack) : bool := existsb (λ s, negb (rendering_offset s =? 0)) (samples t).
Definition has_signed_cts (t : FragmentTrack) : bool := existsb (λ s, rendering_offset s <? 0) (samples t).
Definition first_of (t : FragmentTrack) : Mp4Sample :=
  match samples t with s :: _ => s | [] => mk_sample 0 0 0 false [] end.

Definition trun_spec (o : Z) (t : FragmentTrack) : TrunBox :=
  mk_trun (if has_signed_cts t then 1 else 0) (if has_cts t then 0xf01 else 0x701) (vec_len (samples t)) (Some o) None
    (map duration (samples t)) (map sample_size (samples t))
    (map (λ s, sample_flags (track_type t) (is_sync s)) (samples t))
    (if has_cts t then map (λ s, u32_of_i32 (rendering_offset s)) (samples t) else []).
Definition tfhd_spec (t : FragmentTrack) : TfhdBox :=
  mk_tfhd 0 (if 1 <? sample_description_count t then 0x02003a else 0x020038) (track_id t) None
    (if 1 <? sample_description_count t then pending_sample_description_index t else None)
    (Some (duration (first_of t))) (Some (sample_size (first_of t)))
    (Some (track_default_sample_flags (track_type t))).
Definition traf_spec (o : Z) (t : FragmentTrack) : TrafBox :=
  mk_traf (tfhd_spec t) (Some (mk_tfdt 1 0 (start_time (first_of t)))) (Some (trun_spec o t)).

Fixpoint trafs_at (o : Z) (l : list FragmentTrack) : list TrafBox :=
  match l with
  | [] => []
  | t :: l => traf_spec o t :: trafs_at (o + payload_size t) l
  end.

Lemma u32_try_ok n : 0 ≤ n ≤ u32_max → u32_try n = Some n.
Proof.
  intros. unfold u32_try. destruct (_ && _) eqn:E; [done|]. apply andb_false_iff in E as [E|E]; reflect_bools; lia.
Qed.
Lemma u32_try_Some n m : u32_try n = Some m → m = n ∧ 0 ≤ n ≤ u32_max.
Proof. unfold u32_try. destruct (_ && _) eqn:E; [|done]. intros [= <-]. reflect_bools. lia. Qed.

Lemma sizes_of_ok l : Forall sample_ok l → sizes_of l = Done (map sample_size l).
Proof.
  induction 1 as [|s l Hs _ IH]; [done|]. cbn [sizes_of map]. destruct Hs.
  rewrite u32_try_ok by (unfold vec_len in *; lia). by rewrite IH.
Qed.

Lemma checked_sum_spec max acc l :
  Forall (λ n, 0 ≤ n) l → acc ≤ max →
  checked_sum max acc l = if acc + zsum id l <=? max then Some (acc + zsum id l) else None.
Proof.
  intros Hl. revert acc. induction Hl as [|n l Hn Hl IH]; intros acc Ha.
  - cbn. rewrite Z.add_0_r. by rewrite (proj2 (Z.leb_le _ _)).
  - cbn [checked_sum]. unfold checked_add. rewrite zsum_cons. change (id n) with n.
    assert (0 ≤ zsum id l) as Hs. { clear -Hl. induction Hl; [done|]. rewrite zsum_cons. unfold id at 1. lia. }
    rewrite Z.add_assoc. destruct (acc + n <=? max) eqn:E; reflect_bools; [by apply IH|].
    destruct (_ <=? max) eqn:E2; reflect_bools; [lia|done].
Qed.

Lemma zsum_map {A B : Type} (f : A → B) (g : B → Z) l : zsum g (map f l) = zsum (λ a, g (f a)) l.
Proof. induction l as [|a l IH]; [done|]. cbn [map]. by rewrite !zsum_cons, IH. Qed.

Lemma checked_sum_sizes max acc l :
  acc ≤ max → checked_sum max acc (map sample_size l)
  = if acc + zsum sample_size l <=? max then Some (acc + zsum sample_size l) else None.
Proof.
  intros Ha. rewrite checked_sum_spec; [by rewrite zsum_map| |done].
  apply Forall_map, Forall_true. intros s. unfold sample_size, vec_len. lia.
Qed.

Lemma build_traf_spec t p :
  pending_ok t → p ≤ u64_max →
  build_traf t p = if p + payload_size t <=? u64_max then Done (traf_spec 0 t, p + payload_size t)
                   else Fails (InvalidData "fragmented MP4 payload size overflow").
Proof.
  intros [[i Ht] Hne] Hpl. destruct Ht as [Hid Hc Hp Hs _ Hl _]. unfold build_traf.
  rewrite (u32_try_ok (vec_len (samples t))) by (unfold vec_len in *; lia).
  cbn [ok_or ibind]. rewrite sizes_of_ok by done. cbn [ibind]. rewrite checked_sum_sizes by done.
  unfold payload_size, traf_spec, tfhd_spec, trun_spec, has_cts, has_signed_cts, first_of.
  destruct (samples t) as [|s l] eqn:El; [done|]. cbv beta iota.
  destruct (_ <=? u64_max); [|done]. cbn [ok_or ibind].
  destruct (pending_sample_description_index t) as [pi|]; [|done].
  apply Forall_cons in Hs as [[] _]. rewrite (u32_try_ok (vec_len (bytes s))) by (unfold vec_len in *; lia).
  destruct (1 <? sample_description_count t); destruct (existsb _ (s :: l)); done.
Qed.

Lemma payload_size_nonneg t : 0 ≤ payload_size t.
Proof. apply zsum_nonneg. intros. unfold sample_size, vec_len. lia. Qed.
Lemma payloads_nonneg l : 0 ≤ zsum payload_size l.
Proof. apply zsum_nonneg, payload_size_nonneg. Qed.
#[export] Hint Resolve payload_size_nonneg payloads_nonneg : mp4.

Lemma build_trafs_spec l p :
  Forall pending_ok l → p ≤ u64_max →
  build_trafs l p = (if p + zsum payload_size l <=? u64_max
                     then Done (map (traf_spec 0) l, p + zsum payload_size l)
                     else Fails (InvalidData "fragmented MP4 payload size overflow")).
Proof.
  intros Hl. revert p. induction Hl as [|t l Ht Hl IH]; intros p Hp; cbn [build_trafs map].
  - rewrite zsum_nil, Z.add_0_r. by rewrite (proj2 (Z.leb_le _ _)).
  - rewrite build_traf_spec, zsum_cons, Z.add_assoc by done. pose proof (payloads_nonneg l).
    destruct (p + payload_size t <=? u64_max) eqn:E; reflect_bools.
    + cbn [ibind]. rewrite IH by done. by destruct (_ <=? u64_max).
    + cbn [ibind]. destruct (_ <=? u64_max) eqn:E2; reflect_bools; [lia|done].
Qed.

(** The track fragment is well formed wherever its payload starts. *)
Lemma sample_flags_range t b : u_in 4 (sample_flags t b).
Proof. unfold sample_flags, u_in. case_match; done. Qed.
Lemma default_flags_range t : u_in 4 (track_default_sample_flags t).
Proof. unfold track_default_sample_flags, u_in. case_match; done. Qed.

Lemma u_in_4 n : 0 ≤ n ≤ u32_max → u_in 4 n.
Proof. unfold u_in, u32_max. lia. Qed.
Lemma u_in_8 n : 0 ≤ n ≤ u64_max → u_in 8 n.
Proof. unfold u_in, u64_max. lia. Qed.

Lemma first_of_ok t : pending_ok t → sample_ok (first_of t).
Proof.
  intros [[i []] Hne]. unfold first_of. destruct (samples t) as [|s l]; [done|].
  by apply Forall_cons in to_samples0 as [].
Qed.

Lemma tfhd_spec_wf t : pending_ok t → tfhd_wf (tfhd_spec t).
Proof.
  intros Ht. pose proof (first_of_ok t Ht) as []. destruct Ht as [[i []] Hne].
  assert (0 ≤ sample_size (first_of t)) by (unfold sample_size, vec_len; lia).
  unfold tfhd_spec. destruct (1 <? sample_description_count t); constructor; cbn;
    try (by split); try (by apply u_in_4; lia);
    try (split; [done|]; intros n [= <-]; (apply u_in_4; unfold sample_size in *; lia) || apply default_flags_range).
  destruct (pending_sample_description_index t) as [p|]; [|done].
  split; [done|]. intros n [= <-]. apply u_in_4. lia.
Qed.

Lemma column_map {A : Type} (f : A → Z) (l : list A) flag count :
  flag = true → count = vec_len l → (∀ a, a ∈ l → u_in 4 (f a)) → column_in count flag (map f l).
Proof.
  intros -> -> H. split; [unfold vec_len; by rewrite length_map|]. apply Forall_map, Forall_forall. exact H.
Qed.

Lemma trun_spec_wf o t : pending_ok t → - 2 ^ 31 ≤ o < 2 ^ 31 → trun_wf (trun_spec o t).
Proof.
  intros [[i []] Hne] Ho.
  assert (∀ s, s ∈ samples t → sample_ok s) as Hs by (by apply Forall_forall).
  assert (0 ≤ vec_len (samples t)) by (unfold vec_len; lia).
  assert (∀ s, 0 ≤ sample_size s) by (intros; unfold sample_size, vec_len; lia).
  unfold trun_spec. destruct (has_cts t), (has_signed_cts t); constructor; cbn;
    try (by split); try (by apply u_in_4; lia); try (by unfold vec_len; rewrite length_map);
    try (split; [done|]; by intros z [= <-]); try (by (split; [done|constructor]));
    (apply column_map; [done|done|]; intros s Hin; pose proof (Hs s Hin) as [];
     first [apply u_in_4; unfold sample_size in *; lia | apply sample_flags_range | apply u32_of_i32_range
           | (apply u_in_4; split; [apply H0|done])]).
Qed.

Lemma traf_spec_wf o t : pending_ok t → - 2 ^ 31 ≤ o < 2 ^ 31 → traf_wf (traf_spec o t).
Proof.
  intros Ht Ho. split; [by apply tfhd_spec_wf|]. cbn. split; intros x [= <-]; [|by apply trun_spec_wf].
  pose proof (first_of_ok t Ht) as []. split; [by split|]. right. split; [done|]. apply u_in_8. cbn. lia.
Qed.

Lemma traf_spec_size o t : traf_size (traf_spec o t) = traf_size (traf_spec 0 t).
Proof. reflexivity. Qed.

Lemma trafs_at_size o l : zsum traf_size (trafs_at o l) = zsum (λ t, traf_size (traf_spec 0 t)) l.
Proof. revert o. induction l as [|t l IH]; intros o; [done|]. cbn [trafs_at]. by rewrite !zsum_cons, IH. Qed.

(** Where the first sample of the first video track lies. *)
Fixpoint keyframe_at (start o : Z) (l : list FragmentTrack) : option Mp4SampleLocation :=
  match l with
  | [] => None
  | t :: l => if bool_decide (track_type t = VideoTrack)
              then Some (mk_location (start + o) (sample_size (first_of t)))
              else keyframe_at start (o + payload_size t) l
  end.

(** The offsets at which the payloads of [l] start, when the first is at [o]. *)
Fixpoint payload_offsets (o : Z) (l : list FragmentTrack) : list Z :=
  match l with [] => [] | t :: l => o :: payload_offsets (o + payload_size t) l end.

Lemma set_data_offset_spec o t : set_data_offset o (traf_spec 0 t) = Done (traf_spec o t).
Proof. reflexivity. Qed.

(** The keyframe found at one track. *)
Lemma keyframe_step start o t keyframe :
  pending_ok t →
  (match samples t with
   | first_sample :: _ =>
       if is_none keyframe && bool_decide (track_type t = VideoTrack) && is_sync first_sample then
         let& o := ok_or (checked_add u64_max start o) (InvalidData "keyframe byte offset overflow") in
         let& n := ok_or (u32_try (vec_len (bytes first_sample))) (InvalidData "fragmented MP4 sample exceeds 4 GiB") in
         Done (Some (mk_location o n))
       else Done keyframe
   | [] => if is_none keyframe && bool_decide (track_type t = VideoTrack) then Panics else Done keyframe
   end)
  = (if is_none keyframe && bool_decide (track_type t = VideoTrack) then
       if start + o <=? u64_max then Done (Some (mk_location (start + o) (sample_size (first_of t))))
       else Fails (InvalidData "keyframe byte offset overflow")
     else Done keyframe).
Proof.
  intros Ht. pose proof (first_of_ok t Ht) as [_ _ _ Hb]. destruct Ht as [[i []] Hne]. unfold first_of in *.
  destruct (samples t) as [|s l]; [done|]. destruct keyframe as [k|]; cbn [is_none andb]; [done|].
  case_bool_decide as Hv; cbn [andb]; [|done]. rewrite (to_sync0 Hv s l eq_refl).
  unfold checked_add. destruct (_ <=? u64_max); [|done]. cbn [ok_or ibind].
  rewrite u32_try_ok by (unfold vec_len in *; lia). done.
Qed.

Lemma assign_offsets_spec start l o keyframe :
  Forall pending_ok l →
  match assign_offsets start (zip (map (traf_spec 0) l) l) o keyframe with
  | Done (trs, k) =>
      trs = trafs_at o l ∧ k = option_or keyframe (keyframe_at start o l) ∧
      Forall (λ o', o' ≤ i32_max) (payload_offsets o l)
  | Fails _ => True
  | Panics => False
  end.
Proof.
  intros Hl. revert o keyframe. induction Hl as [|t l Ht Hl IH]; intros o keyframe.
  - cbn. repeat split; [by destruct keyframe|constructor].
  - cbn [map zip zip_with assign_offsets trafs_at keyframe_at payload_offsets].
    destruct (o <=? i32_max) eqn:Eo; [|done]. cbn [ok_or ibind]. reflect_bools.
    rewrite set_data_offset_spec. cbn [ibind]. rewrite (keyframe_step start o t keyframe Ht).
    assert (o ≤ u64_max) as Hou by (unfold i32_max, u64_max in *; lia).
    pose proof (checked_sum_sizes u64_max o (samples t) Hou) as Hsum. unfold sample_size at 1 in Hsum.
    destruct (is_none keyframe && bool_decide (track_type t = VideoTrack)) eqn:Ek.
    + destruct (start + o <=? u64_max); [|done]. cbn [ibind]. rewrite Hsum. destruct (_ <=? u64_max); [|done].
      cbn [ok_or ibind]. fold (payload_size t). apply andb_true_iff in Ek as [Ek1 Ek2].
      specialize (IH (o + payload_size t) (Some (mk_location (start + o) (sample_size (first_of t))))).
      destruct (assign_offsets _ _ _ _) as [[trs k]|e|]; [|done|done]. cbn [ibind].
      destruct IH as (-> & -> & Ho). destruct keyframe; [done|]. rewrite Ek2. split; [done|]. split; [done|]. by constructor.
    + cbn [ibind]. rewrite Hsum. destruct (_ <=? u64_max); [|done].
      cbn [ok_or ibind]. fold (payload_size t). specialize (IH (o + payload_size t) keyframe).
      destruct (assign_offsets _ _ _ _) as [[trs k]|e|]; [|done|done]. cbn [ibind].
      destruct IH as (-> & -> & Ho). repeat split; [|by constructor].
      destruct keyframe as [|]; [done|]. cbn [is_none andb] in Ek. by rewrite Ek.
Qed.

(** What a fragment is made of. *)
Definition fragment_base (l : list FragmentTrack) : Z :=
  HEADER_SIZE + mfhd_size mfhd_default + zsum (λ t, traf_size (traf_spec 0 t)) l + HEADER_SIZE.
Definition fragment_moof (sequence : Z) (l : list FragmentTrack) : MoofBox :=
  mk_moof (mk_mfhd 0 0 sequence) (trafs_at (fragment_base l) l).
Definition fragment_payload (l : list FragmentTrack) : list Z := mjoin (track_payload <$> l).
Definition fragment_bytes (sequence : Z) (l : list FragmentTrack) : list Z :=
  moof_bytes (fragment_moof sequence l)
  ++ header_bytes MdatBoxType (HEADER_SIZE + zsum payload_size l) ++ fragment_payload l.

Lemma fragment_moof_size sequence l : moof_size (fragment_moof sequence l) + HEADER_SIZE = fragment_base l.
Proof. unfold moof_size, fragment_moof, fragment_base. cbn [mfhd trafs]. rewrite trafs_at_size. done. Qed.

Lemma trafs_at_wf o l :
  0 ≤ o → Forall pending_ok l → Forall (λ o', o' ≤ i32_max) (payload_offsets o l) → Forall traf_wf (trafs_at o l).
Proof.
  intros Hpos Hl. revert o Hpos. induction Hl as [|t l Ht Hl IH]; intros o Hpos Ho; cbn [trafs_at]; [constructor|].
  cbn [payload_offsets] in Ho. apply Forall_cons in Ho as [Ho Hos]. constructor.
  - apply traf_spec_wf; [done|]. unfold i32_max in Ho. lia.
  - apply IH; [pose proof (payload_size_nonneg t); lia|done].
Qed.

Lemma build_fragment_spec start sequence l :
  Forall pending_ok l → l ≠ [] → 1 ≤ sequence ≤ u32_max →
  match build_fragment start sequence l with
  | Done (moof, mdat_size, k) =>
      moof = fragment_moof sequence l ∧ moof_wf moof ∧ mdat_size = HEADER_SIZE + zsum payload_size l ∧
      HEADER_SIZE ≤ mdat_size ≤ u32_max ∧ k = keyframe_at start (fragment_base l) l ∧
      Forall (λ o', o' ≤ i32_max) (payload_offsets (fragment_base l) l)
  | Fails _ => True
  | Panics => False
  end.
Proof.
  intros Hl Hne Hseq. unfold build_fragment. rewrite build_trafs_spec by done. rewrite Z.add_0_l.
  destruct (_ <=? u64_max); [|done]. cbn [ibind]. unfold checked_add. destruct (_ <=? u64_max); [|done].
  cbn [ok_or ibind]. destruct (u32_max <? _) eqn:Em; [done|]. reflect_bools.
  assert (moof_size (mk_moof (mk_mfhd 0 0 sequence) (map (traf_spec 0) l)) + HEADER_SIZE = fragment_base l) as Hb.
  { unfold moof_size, fragment_base. cbn [mfhd trafs]. by rewrite zsum_map. }
  rewrite Hb. destruct (_ <=? u64_max); [|done]. cbn [ok_or ibind].
  pose proof (assign_offsets_spec start l (fragment_base l) None Hl) as Ha.
  destruct (assign_offsets _ _ _ _) as [[trs k]|e|]; [|done|done]. cbn [ibind]. destruct Ha as (-> & -> & Ho).
  assert (0 ≤ fragment_base l) as Hbase.
  { unfold fragment_base. assert (0 ≤ zsum (λ t, traf_size (traf_spec 0 t)) l); [|unfold mfhd_size, HEADER_SIZE, HEADER_EXT_SIZE; lia].
    clear -Hl. induction Hl as [|t l Ht _ IH]; [done|]. rewrite zsum_cons.
    pose proof (traf_size_pos _ (traf_spec_wf 0 t Ht ltac:(lia))). unfold HEADER_SIZE in *. lia. }
  pose proof (payloads_nonneg l).
  split; [done|]. split; [|repeat split; try done; lia].
  split; [split; [by split|apply u_in_4; cbn; lia]|]. split; [by apply trafs_at_wf|].
  pose proof (fragment_moof_size sequence l) as Hsz. unfold fragment_moof in Hsz.
  destruct l as [|t l]; [done|]. cbn [payload_offsets] in Ho. apply Forall_cons in Ho as [Ho _].
  unfold i32_max, u32_max, HEADER_SIZE in *. lia.
Qed.

(** ** Writing the fragment *)

(** [emits] for a result that is the position, [c] bytes further. *)
Definition emits_pos (m : W Z) (c : Z) (bs : list Z) : Prop :=
  ∀ s, sink_ok s → ∃ fs, fs `suffix_of` s_faults s ∧
    (m s = (Done (s_pos s + c), put bs fs s) ∨
     (s_faults s ≠ [] ∧ ∃ n, m s = (Fails IoError, put (take n bs) fs s))).

Lemma emits_then_pos {A : Type} (m : W A) (k : W Z) a c xs ys :
  emits m a xs → emits_pos k c ys → emits_pos (m ;^ k) (vec_len xs + c) (xs ++ ys).
Proof.
  intros Hm Hk s Hs. unfold wbind. destruct (Hm s Hs) as (fs & Hfs & [E|(Hne & n & E)]); rewrite E.
  - destruct (Hk (put xs fs s) (put_ok _ _ _ Hs)) as (gs & Hgs & [F|(Hne & n & F)]); rewrite F; exists gs.
    + split; [by etransitivity|]. left. rewrite put_put by done. do 2 f_equal. unfold put. cbn [s_pos]. lia.
    + split; [by etransitivity|]. right. split.
      * intros Hnil. rewrite Hnil in Hfs. apply suffix_nil_inv in Hfs. subst fs. by apply Hne.
      * exists (length xs + n)%nat. rewrite put_put by done. by rewrite take_app_add.
  - exists fs. split; [done|]. right. split; [done|]. exists (n `min` length xs)%nat.
    rewrite take_app_le by lia. by rewrite <-(firstn_all xs) at 1; rewrite take_take.
Qed.

Lemma seek_here fs s : sink_ok s → seek_to (s_pos s) fs s = put [] fs s.
Proof.
  intros [H1 H2]. unfold vec_len in H2. unfold put, seek_to, vec_len. rewrite overwrite_nil by lia.
  cbn [length]. f_equal. lia.
Qed.

Lemma put_nil_here s : sink_ok s → s = put [] (s_faults s) s.
Proof. intros. symmetry. by apply put_nil. Qed.

Lemma emits_flush : emits sink_flush () [].
Proof.
  intros s Hs. unfold sink_flush. destruct (s_faults s) as [|[n|] fs] eqn:E.
  - exists []. split; [done|]. left. rewrite <-E. by rewrite <-put_nil_here.
  - exists fs. split; [by apply suffix_cons_r|]. right. split; [done|]. exists 0%nat. by rewrite seek_here.
  - exists fs. split; [by apply suffix_cons_r|]. left. by rewrite seek_here.
Qed.

Lemma emits_stream_position : emits_pos stream_position 0 [].
Proof.
  intros s Hs. unfold stream_position. rewrite Z.add_0_r. destruct (s_faults s) as [|[n|] fs] eqn:E.
  - exists []. split; [done|]. left. rewrite <-E. by rewrite <-put_nil_here.
  - exists fs. split; [by apply suffix_cons_r|]. right. split; [done|]. exists 0%nat. by rewrite seek_here.
  - exists fs. split; [by apply suffix_cons_r|]. left. by rewrite seek_here.
Qed.

Lemma emits_payload l :
  emits (write_each (λ t, write_each (λ s, write_all (bytes s)) (samples t)) l) () (fragment_payload l).
Proof.
  apply emits_write_each with (). intros t _. unfold track_payload.
  apply emits_write_each with (). intros s _. apply emits_write_all.
Qed.

Lemma payload_length l : vec_len (fragment_payload l) = zsum payload_size l.
Proof.
  unfold fragment_payload. rewrite vec_len_mjoin. apply zsum_ext. intros t _.
  unfold track_payload. by rewrite vec_len_mjoin.
Qed.

Lemma fragment_bytes_length sequence l :
  moof_wf (fragment_moof sequence l) → vec_len (fragment_bytes sequence l) = fragment_base l + zsum payload_size l.
Proof.
  intros H. unfold fragment_bytes. rewrite !vec_len_app, moof_bytes_length, header_bytes_length, payload_length by done.
  pose proof (fragment_moof_size sequence l). lia.
Qed.

Lemma emits_fragment sequence l :
  moof_wf (fragment_moof sequence l) → HEADER_SIZE + zsum payload_size l ≤ u32_max →
  emits_pos (write_fragment (fragment_moof sequence l) (HEADER_SIZE + zsum payload_size l) l)
    (vec_len (fragment_bytes sequence l)) (fragment_bytes sequence l).
Proof.
  intros Hwf Hsz. pose proof (payloads_nonneg l).
  assert (fragment_bytes sequence l
    = moof_bytes (fragment_moof sequence l) ++ header_bytes MdatBoxType (HEADER_SIZE + zsum payload_size l)
      ++ fragment_payload l ++ [] ++ []) as E by (by rewrite !app_nil_r).
  assert (vec_len (fragment_bytes sequence l)
    = vec_len (moof_bytes (fragment_moof sequence l))
      + (vec_len (header_bytes MdatBoxType (HEADER_SIZE + zsum payload_size l))
         + (vec_len (fragment_payload l) + (vec_len (@nil Z) + 0)))) as ->
    by (unfold fragment_bytes; rewrite !vec_len_app, (@vec_len_nil Z); lia).
  rewrite E. unfold write_fragment.
  eapply emits_then_pos; [by apply emits_moof|]. eapply emits_then_pos; [apply emits_header; lia|].
  eapply emits_then_pos; [apply emits_payload|].
  eapply emits_then_pos; [apply emits_flush|apply emits_stream_position].
Qed.
