(* ===== verification/FragmentedRun.v ===== *)
(** * Sessions of the fragmented writer

    Every sequence of operations on one file, in any order and with any failures of
    the file, as steps on the writer and the log of the fragments it returned to its
    caller.  The invariant: the writer is well formed, and every fragment in the log is
    still in the file, byte for byte, at the range the caller was given.  One thing is
    asked of the caller: not to flush when the file stands in front of a fragment, which
    the writer leaves behind in one case only ([placed]). *)

From S2P Require Import Prelude Mp4Io Mp4Box Mp4BoxInv Mp4Moof Fragmented FragmentedInv.

(** ** Bytes that other writes leave alone *)

Definition slice (l : list Z) (o n : Z) : list Z := take (Z.to_nat n) (drop (Z.to_nat o) l).

Lemma overwrite_lookup l p bs i :
  (p ≤ length l)%nat →
  overwrite l p bs !! i = if decide (p ≤ i < p + length bs)%nat then bs !! (i - p)%nat else l !! i.
Proof.
  intros Hp. rewrite overwrite_inside by done. case_decide as Hi.
  - rewrite lookup_app_r by (rewrite length_take; lia). rewrite length_take, lookup_app_l by lia. f_equal. lia.
  - destruct (decide (i < p)%nat).
    + rewrite lookup_app_l by (rewrite length_take; lia). by apply lookup_take_lt.
    + rewrite lookup_app_r by (rewrite length_take; lia). rewrite length_take, lookup_app_r by lia.
      rewrite lookup_drop. f_equal. lia.
Qed.

Lemma slice_lookup l o n i : slice l o n !! i = if decide (i < Z.to_nat n)%nat then l !! (Z.to_nat o + i)%nat else None.
Proof.
  unfold slice. case_decide; [rewrite lookup_take_lt, lookup_drop by done; done|]. by apply lookup_take_ge; lia.
Qed.

Lemma slice_overwrite l p bs o n :
  (p ≤ length l)%nat → 0 ≤ o → 0 ≤ n → o + n ≤ Z.of_nat p ∨ Z.of_nat p + vec_len bs ≤ o →
  slice (overwrite l p bs) o n = slice l o n.
Proof.
  intros Hp Ho Hn Hd. apply list_eq. intros i. rewrite !slice_lookup. case_decide; [|done].
  rewrite overwrite_lookup by done. unfold vec_len in Hd. case_decide; [lia|done].
Qed.

Lemma slice_put bs fs s o n :
  sink_ok s → 0 ≤ o → 0 ≤ n → o + n ≤ s_pos s ∨ s_pos s + vec_len bs ≤ o →
  slice (s_bytes (put bs fs s)) o n = slice (s_bytes s) o n.
Proof.
  intros [H1 H2] Ho Hn Hd. unfold vec_len in H2. unfold put. cbn [s_bytes]. apply slice_overwrite; try lia.
Qed.

Lemma slice_put_here bs fs s : sink_ok s → slice (s_bytes (put bs fs s)) (s_pos s) (vec_len bs) = bs.
Proof.
  intros [H1 H2]. unfold vec_len in H2. unfold put. cbn [s_bytes]. apply list_eq. intros i.
  rewrite slice_lookup. unfold vec_len. rewrite Nat2Z.id. rewrite overwrite_lookup by lia.
  case_decide; [|symmetry; apply lookup_ge_None; lia]. rewrite decide_True by lia. f_equal. lia.
Qed.

Lemma slice_split l o n bs : slice l o n = bs → 0 ≤ o → vec_len bs = n →
  ∃ pre post, l = pre ++ bs ++ post ∧ (bs ≠ [] → vec_len pre = o).
Proof.
  intros <- Ho Hn. exists (take (Z.to_nat o) l), (drop (Z.to_nat n) (drop (Z.to_nat o) l)).
  unfold slice at 1. rewrite take_drop, take_drop. split; [done|]. intros Hne. unfold slice in *.
  assert (Z.to_nat o < length l)%nat.
  { destruct (decide (Z.to_nat o < length l)%nat); [done|]. destruct Hne. rewrite drop_ge by lia. by rewrite take_nil. }
  unfold vec_len. rewrite length_take. lia.
Qed.

Lemma put_length bs fs s : sink_ok s → vec_len (s_bytes s) ≤ vec_len (s_bytes (put bs fs s)) ∧ s_pos s + vec_len bs ≤ vec_len (s_bytes (put bs fs s)).
Proof.
  intros [H1 H2]. unfold vec_len in *. unfold put. cbn [s_bytes]. rewrite overwrite_length by lia. lia.
Qed.

(** ** Flushing *)

Definition pending (w : FragmentedMp4Writer) : list FragmentTrack := filter (λ t, has_samples t = true) (tracks w).

Lemma has_samples_true t : has_samples t = true ↔ samples t ≠ [].
Proof. unfold has_samples. by destruct (samples t). Qed.

Lemma pending_all_ok w : writer_ok w → Forall pending_ok (pending w).
Proof.
  intros [_ Ht _]. apply Forall_forall. intros t [Hs Hin]%list_elem_of_filter.
  apply list_elem_of_lookup in Hin as [i Hi]. split; [by exists i; apply Ht|by apply has_samples_true].
Qed.

Lemma has_pending_iff w : has_pending_samples w = true ↔ pending w ≠ [].
Proof.
  unfold has_pending_samples, pending. rewrite existsb_exists. split.
  - intros (t & Hin & Ht). apply list_elem_of_In in Hin.
    intros E. apply (not_elem_of_nil t). rewrite <-E. by apply list_elem_of_filter.
  - destruct (filter _ _) as [|t l] eqn:E; [done|]. intros _. exists t.
    assert (t ∈ filter (λ t, has_samples t = true) (tracks w)) as [Ht Hin]%list_elem_of_filter by (rewrite E; apply list_elem_of_here).
    split; [by apply list_elem_of_In|done].
Qed.

(** The writer after [bs] went to the file. *)
Definition after_put (bs : list Z) (fs : list (option Z)) (w : FragmentedMp4Writer) : FragmentedMp4Writer :=
  set_writer (put bs fs (writer w)) w.

(** What a returned fragment is. *)
Record entry_ok (file : list Z) (info : Mp4FragmentInfo) (l : list FragmentTrack) : Prop := {
  eo_pending : Forall pending_ok l;
  eo_ne : l ≠ [];
  eo_wf : moof_wf (fragment_moof (info_sequence info) l);
  eo_offsets : Forall (λ o, o ≤ i32_max) (payload_offsets (fragment_base l) l);
  eo_offset : 0 ≤ range_offset (info_range info);
  eo_size : range_size (info_range info) = vec_len (fragment_bytes (info_sequence info) l);
  eo_keyframe : video_keyframe info = keyframe_at (range_offset (info_range info)) (fragment_base l) l;
  eo_bytes : slice file (range_offset (info_range info)) (range_size (info_range info))
             = fragment_bytes (info_sequence info) l
}.

Lemma flush_fragment_spec w :
  writer_ok w →
  match flush_fragment w with
  | (Done None, w') => w' = w ∧ poisoned w = false ∧ pending w = []
  | (Done (Some info), w') =>
      poisoned w = false ∧ pending w ≠ [] ∧ fw_sequence_number w < u32_max ∧
      info = mk_info (fw_sequence_number w)
               (mk_range (s_pos (writer w)) (vec_len (fragment_bytes (fw_sequence_number w) (pending w))))
               (keyframe_at (s_pos (writer w)) (fragment_base (pending w)) (pending w)) ∧
      moof_wf (fragment_moof (fw_sequence_number w) (pending w)) ∧
      Forall (λ o, o ≤ i32_max) (payload_offsets (fragment_base (pending w)) (pending w)) ∧
      ∃ fs, w' = set_sequence (fw_sequence_number w + 1)
                   (clear_samples (after_put (fragment_bytes (fw_sequence_number w) (pending w)) fs w))
  | (Fails _, w') =>
      (poisoned w = true ∧ w' = w) ∨
      (poisoned w = false ∧ ∃ bs fs, w' = after_put bs fs w ∨ w' = clear_samples (after_put bs fs w))
  | (Panics, _) => False
  end.
Proof.
  intros Hw. pose proof (pending_all_ok w Hw) as Hp. destruct Hw as [Hs Ht Hseq].
  unfold flush_fragment, fbind, ensure_not_poisoned. destruct (poisoned w) eqn:Epo; [by left|].
  destruct (has_pending_samples w) eqn:Ehp; cbn [negb].
  2: { split; [done|]. split; [done|]. destruct (pending w) as [|t l] eqn:E; [done|].
       assert (has_pending_samples w = true) by (apply has_pending_iff; by rewrite E). congruence. }
  apply has_pending_iff in Ehp. unfold on_sink at 1.
  destruct (emits_stream_position (writer w) Hs) as (fs & _ & [E|(_ & n & E)]); rewrite E.
  2: { right. split; [done|]. exists (take n []), fs. by left. }
  rewrite Z.add_0_r. cbn [tracks set_writer fw_sequence_number]. fold (pending w). unfold fret.
  pose proof (build_fragment_spec (s_pos (writer w)) (fw_sequence_number w) (pending w) Hp Ehp Hseq) as Hb.
  destruct (build_fragment _ _ _) as [[[moof mdat] k]|e|]; [|right; split; [done|]; exists [], fs; by left|done].
  destruct Hb as (-> & Hwf & -> & Hmd & -> & Hos). unfold on_sink. cbn [writer set_writer].
  set (frag := fragment_bytes (fw_sequence_number w) (pending w)).
  destruct (emits_fragment (fw_sequence_number w) (pending w) Hwf ltac:(lia) (put [] fs (writer w)) (put_ok _ _ _ Hs))
    as (gs & _ & [F|(_ & n & F)]); rewrite F; rewrite put_put by done; cbn [app].
  2: { right. split; [done|]. eexists _, gs. by left. }
  fold frag. unfold clear_samples, set_tracks, set_writer. cbn [fw_sequence_number].
  unfold checked_add. destruct (_ <=? u32_max) eqn:Eq; reflect_bools.
  2: { right. split; [done|]. exists frag, gs. by right. }
  split; [done|]. split; [done|]. split; [lia|]. split; [|split; [done|split; [done|by exists gs]]].
  unfold put. cbn [s_pos]. rewrite (@vec_len_nil Z). do 2 f_equal. lia.
Qed.

(** ** Samples and their durations *)

Lemma set_last_length d l : length (set_last_duration d l) = length l.
Proof. induction l as [|s l IH]; [done|]. destruct l; [done|]. cbn [set_last_duration length] in *. by rewrite IH. Qed.

Lemma set_last_head d s l :
  ∃ s' l', set_last_duration d (s :: l) = s' :: l' ∧ start_time s' = start_time s ∧ is_sync s' = is_sync s.
Proof. destruct l as [|m l]; [by exists (set_duration d s), []|]. by exists s, (set_last_duration d (m :: l)). Qed.

Lemma set_last_ok d l next s :
  last l = Some s → d = next - start_time s → 0 < d ≤ u32_max → next ≤ u64_max →
  Forall sample_ok l → contiguous l →
  Forall sample_ok (set_last_duration d l) ∧ contiguous (set_last_duration d l) ∧
  last (set_last_duration d l) = Some (set_duration d s).
Proof.
  intros Hl Hd Hr Hn Hok. revert Hl. induction Hok as [|x l Hx Hok IH]; [done|]. intros Hl Hc.
  destruct l as [|y l].
  - injection Hl as ->. cbn. split; [|done]. constructor; [|constructor].
    destruct Hx. constructor; cbn; lia.
  - change (set_last_duration d (x :: y :: l)) with (x :: set_last_duration d (y :: l)).
    destruct Hc as [Hxy Hc]. destruct (IH Hl Hc) as (H1 & H2 & H3).
    destruct (set_last_head d y l) as (y' & l' & E & Hst & _). rewrite E in *.
    split; [by constructor|]. split; [|done]. split; [congruence|done].
Qed.

Lemma contiguous_snoc l s :
  contiguous l → (∀ p, last l = Some p → start_time s = start_time p + duration p) → contiguous (l ++ [s]).
Proof.
  induction l as [|x l IH]; intros Hc Hp; [by split|]. destruct Hc as [Hx Hc]. cbn [app]. split.
  - destruct l as [|y l]; [by apply Hp|done].
  - apply IH; [done|]. intros p E. apply Hp. destruct l; [done|exact E].
Qed.

Lemma find_track_Some id w i t : find_track id w = Some (i, t) → tracks w !! i = Some t.
Proof. unfold find_track. destruct (tracks w !! _) as [u|] eqn:E; [|done]. by destruct (_ =? _); [intros [= <- <-]|]. Qed.

(** The parts of a writer an operation on samples may touch. *)
Lemma update_track_ok i t t' w :
  writer_ok w → tracks w !! i = Some t → (track_ok i t → track_ok i t') → writer_ok (update_track i t' w).
Proof.
  intros [Hs Ht Hq] Hi Hok. constructor; [done| |done]. cbn. intros j u Hj.
  destruct (decide (i = j)) as [<-|Hne].
  - rewrite list_lookup_insert_eq in Hj by (by eapply lookup_lt_Some). injection Hj as <-. eauto.
  - rewrite list_lookup_insert_ne in Hj by done. eauto.
Qed.

Lemma finish_ok id next w r w' :
  writer_ok w → 0 ≤ next ≤ u64_max → finish_trailing_sample id next w = (r, w') →
  writer_ok w' ∧ r ≠ Panics ∧ ∃ l, w' = set_tracks l w.
Proof.
  intros Hw Hn. assert (w = set_tracks (tracks w) w) as Hid by (by destruct w).
  unfold finish_trailing_sample, fbind, ensure_not_poisoned.
  destruct (poisoned w); [intros [= <- <-]; eauto|].
  destruct (find_track id w) as [[i t]|] eqn:Ef; [|intros [= <- <-]; eauto].
  apply find_track_Some in Ef. destruct (last (samples t)) as [s|] eqn:El; [|intros [= <- <-]; eauto].
  destruct (checked_sub _ _) as [d|] eqn:Ed; [|intros [= <- <-]; eauto].
  destruct (0 <? d) eqn:Ez; [|intros [= <- <-]; eauto].
  destruct (u32_try d) as [d'|] eqn:Eu; [|intros [= <- <-]; eauto]. intros [= <- <-].
  apply u32_try_Some in Eu as [-> Hd]. reflect_bools. unfold checked_sub in Ed.
  destruct (_ <=? _) eqn:E2; [|done]. injection Ed as Ed. reflect_bools.
  split; [|split; [done|by eexists]]. eapply update_track_ok; [done..|]. intros [Hid' Hcnt Hpend Hsam Hcon Hlen Hsy].
  destruct (set_last_ok d (samples t) next s) as (H1 & H2 & H3); [done|lia|lia|lia|done|done|].
  constructor; cbn; try done.
  - destruct (pending_sample_description_index t).
    + destruct Hpend as [Hne Hp]. split; [|done]. intros E. apply (f_equal length) in E.
      rewrite set_last_length in E. by destruct (samples t).
    + by rewrite Hpend.
  - unfold vec_len. by rewrite set_last_length.
  - intros Hv s0 l0 E. destruct (samples t) as [|x xs] eqn:Es; [done|].
    destruct (set_last_head d x xs) as (x' & xs' & E' & _ & Hsync). rewrite E' in E. injection E as <- <-.
    rewrite Hsync. by eapply Hsy.
Qed.

(** What [write_sample_with_description] does to the samples of the track. *)
Lemma stretch_ok l sample d :
  Forall sample_ok l → contiguous l → sample_ok sample →
  (match last l with
   | None => Done l
   | Some previous =>
       match checked_sub (start_time sample) (start_time previous) with
       | Some delta =>
           if 0 <? delta then
             match u32_try delta with
             | Some d => Done (set_last_duration d l)
             | None => Fails (InvalidData "fragmented MP4 sample duration exceeds u32")
             end
           else Fails (InvalidData "fragmented MP4 sample decode times are not increasing")
       | None => Fails (InvalidData "fragmented MP4 sample decode times are not increasing")
       end
   end) = Done d →
  Forall sample_ok d ∧ contiguous d ∧ contiguous (d ++ [sample]) ∧ length d = length l ∧
  (∀ s xs, d = s :: xs → ∃ s' xs', l = s' :: xs' ∧ is_sync s = is_sync s').
Proof.
  intros Hok Hc Hs. destruct (last l) as [p|] eqn:El.
  - destruct (checked_sub _ _) as [delta|] eqn:Ed; [|done]. destruct (0 <? delta) eqn:Ez; [|done].
    destruct (u32_try delta) as [u|] eqn:Eu; [|done]. intros [= <-]. apply u32_try_Some in Eu as [-> Hu].
    unfold checked_sub in Ed. destruct (_ <=? _) eqn:E2; [|done]. injection Ed as Ed. reflect_bools.
    destruct Hs. destruct (set_last_ok delta l (start_time sample) p) as (H1 & H2 & H3); [done|lia|lia|lia|done|done|].
    split; [done|]. split; [done|]. split; [|split; [apply set_last_length|]].
    + apply contiguous_snoc; [done|]. intros q. rewrite H3. intros [= <-]. cbn. lia.
    + intros s xs E. destruct l as [|x l]; [done|]. destruct (set_last_head delta x l) as (x' & l' & E' & _ & Hy).
      rewrite E' in E. injection E as <- <-. eauto.
  - intros [= <-]. apply last_None in El as ->. split; [done|]. split; [done|]. by split; [split|].
Qed.

Lemma write_sample_ok id index sample w r w' :
  writer_ok w → sample_ok sample → 0 ≤ index → write_sample_with_description id index sample w = (r, w') →
  writer_ok w' ∧ r ≠ Panics ∧ ∃ l, w' = set_tracks l w.
Proof.
  intros Hw Hs Hx. assert (w = set_tracks (tracks w) w) as Hid by (by destruct w).
  unfold write_sample_with_description, fbind, ensure_not_poisoned.
  destruct (poisoned w); [intros [= <- <-]; eauto|].
  destruct (duration sample =? 0); [intros [= <- <-]; eauto|].
  destruct (u32_max <? _); [intros [= <- <-]; eauto|].
  destruct (find_track id w) as [[i t]|] eqn:Ef; [|intros [= <- <-]; eauto]. apply find_track_Some in Ef.
  destruct ((index =? 0) || _) eqn:E1; [intros [= <- <-]; eauto|].
  destruct (is_some_and _ _) eqn:E2; [intros [= <- <-]; eauto|].
  destruct (_ && _ && _) eqn:E3; [intros [= <- <-]; eauto|].
  destruct (wo_tracks w Hw i t Ef) as [Hid' Hcnt Hpend Hsam Hcon Hlen Hsy].
  match goal with |- context [match ?m with Done _ => _ | Fails _ => _ | Panics => _ end] => destruct m as [l|e|] eqn:Em end.
  2: by (intros [= <- <-]; eauto).
  2: { exfalso. repeat (case_match; try discriminate). }
  apply stretch_ok in Em as (H1 & H2 & H3 & H4 & H5); [|done..].
  assert (∀ s xs, l = s :: xs → track_type t = VideoTrack → is_sync s = true) as Hl.
  { intros s xs E Hv. destruct (H5 s xs E) as (s' & xs' & E' & ->). by eapply Hsy. }
  destruct (vec_len l =? u32_max) eqn:E4; intros [= <- <-]; reflect_bools; (split; [|split; [done|by eexists]]);
    (eapply update_track_ok; [done..|]); intros _; constructor; cbn; try done.
  - destruct (pending_sample_description_index t); [destruct Hpend; split; [|done]|].
    + intros E. by destruct l, (samples t).
    + by rewrite Hpend in H4; destruct l.
  - lia.
  - intros Hv s xs E. by eapply Hl.
  - split; [by destruct l|]. lia.
  - apply Forall_app. split; [done|]. by constructor.
  - unfold vec_len in *. rewrite length_app. cbn. lia.
  - intros Hv s xs E. destruct l as [|y l]; cbn [app] in E; injection E as <- <-; [|by eapply Hl].
    unfold has_samples in E3. destruct (samples t); [|done].
    rewrite bool_decide_true in E3 by done. cbn in E3. by destruct (is_sync sample).
Qed.

Lemma clear_ok w : writer_ok w → writer_ok (clear_samples w).
Proof.
  intros [Hs Ht Hq]. constructor; [done| |done]. cbn. intros i t Hi.
  rewrite list_lookup_fmap in Hi. destruct (tracks w !! i) as [u|] eqn:E; [|done]. injection Hi as <-.
  destruct (Ht i u E). constructor; cbn; try done.
Qed.

Lemma set_writer_ok s w : writer_ok w → sink_ok s → writer_ok (set_writer s w).
Proof. intros [_ Ht Hq] Hs. by constructor. Qed.
Lemma set_sequence_ok n w : writer_ok w → 1 ≤ n ≤ u32_max → writer_ok (set_sequence n w).
Proof. intros [Hs Ht _] Hn. by constructor. Qed.

(** ** The initialization segment *)

Section moov.
Context (moov_box : Z → list FragmentTrack → io (list Z)).

Lemma resize_length n l : length (resize n l) = n.
Proof. unfold resize. rewrite length_app, length_take, length_replicate. lia. Qed.

Lemma initialization_metadata_length scale l m :
  initialization_metadata moov_box scale l = Done m → vec_len m = INITIALIZATION_METADATA_CAPACITY.
Proof.
  unfold initialization_metadata. destruct (match u32_try _ with Some _ => _ | None => _ end); [|done].
  cbn [ok_or ibind]. destruct (moov_box scale l) as [b|e|]; [|done|done]. cbn [ibind].
  destruct (match checked_sub _ _ with Some _ => _ | None => _ end); [|done]. cbn [ok_or ibind].
  destruct (header_write _ _) as [[?|?|] s]; [|done|done]. intros [= <-].
  unfold vec_len. rewrite resize_length. done.
Qed.

(** The region that holds the initialization metadata is inside the file. *)
Definition region_ok (w : FragmentedMp4Writer) : Prop :=
  0 ≤ moov_offset w ∧ moov_offset w + INITIALIZATION_METADATA_CAPACITY ≤ vec_len (s_bytes (writer w)).

(** Rewriting the metadata touches its region only. *)
Definition only_region (w : FragmentedMp4Writer) (s : Sink) : Prop :=
  sink_ok s ∧ ∃ bs, vec_len bs ≤ INITIALIZATION_METADATA_CAPACITY ∧
    s_bytes s = overwrite (s_bytes (writer w)) (Z.to_nat (moov_offset w)) bs.

Lemma only_region_seek w p fs : sink_ok (writer w) → region_ok w → 0 ≤ p ≤ vec_len (s_bytes (writer w)) →
  only_region w (seek_to p fs (writer w)).
Proof.
  intros Hs [H1 H2] Hp. split; [done|]. exists []. split; [done|]. cbn. rewrite overwrite_nil; [done|].
  unfold vec_len, INITIALIZATION_METADATA_CAPACITY in *. lia.
Qed.

Lemma seek_result p s : sink_seek p s = (Done (), seek_to p (tail (s_faults s)) s) ∨ sink_seek p s = (Fails IoError, seek_to (s_pos s) (tail (s_faults s)) s).
Proof. unfold sink_seek. destruct (s_faults s) as [|[n|] fs]; cbn; auto. Qed.

Lemma position_result s : sink_ok s →
  (∃ fs, stream_position s = (Done (s_pos s), put [] fs s)) ∨ (∃ fs, stream_position s = (Fails IoError, put [] fs s)).
Proof.
  intros Hs. destruct (emits_stream_position s Hs) as (fs & _ & [E|(_ & n & E)]).
  - left. exists fs. by rewrite E, Z.add_0_r.
  - right. exists fs. by rewrite E, take_nil.
Qed.

Lemma rewrite_metadata_spec w metadata s :
  region_ok w → sink_ok s → s_bytes s = s_bytes (writer w) → vec_len metadata = INITIALIZATION_METADATA_CAPACITY →
  ∃ r s', write_initialization_metadata_bytes (moov_offset w) metadata s = (r, s') ∧ only_region w s' ∧
    r ≠ Panics ∧ (r = Done () → s_pos s' = moov_offset w + INITIALIZATION_METADATA_CAPACITY).
Proof.
  intros [H1 H2] Hs Hb Hm. unfold write_initialization_metadata_bytes, wbind.
  destruct (seek_result (moov_offset w) s) as [E|E]; rewrite E.
  2: { eexists _, _. split; [done|]. split; [|done]. split; [done|]. exists []. split; [done|].
       cbn. rewrite Hb, overwrite_nil; [done|]. unfold vec_len, INITIALIZATION_METADATA_CAPACITY in *. lia. }
  set (s1 := seek_to _ _ s). assert (sink_ok s1) as Hs1.
  { unfold sink_ok, s1. cbn. rewrite Hb. unfold INITIALIZATION_METADATA_CAPACITY in *. lia. }
  assert (emits (write_all metadata ;^ sink_flush) () (metadata ++ [])) as He
    by (apply emits_bind_ret; [apply emits_write_all|apply emits_flush]).
  rewrite app_nil_r in He. destruct (He s1 Hs1) as (fs & _ & [F|(_ & n & F)]); unfold wbind in F; rewrite F;
    (eexists _, _; split; [done|]); (split; [split; [by apply put_ok|]|split; [done|try done]]).
  - exists metadata. split; [lia|]. unfold put, s1. cbn. by rewrite Hb.
  - intros _. unfold put, s1. cbn. lia.
  - exists (take n metadata). split; [unfold vec_len in *; rewrite length_take; lia|]. unfold put, s1. cbn. by rewrite Hb.
Qed.

Lemma describe_track_ok i t d n w :
  writer_ok w → tracks w !! i = Some t → has_pending_samples w = false → 1 ≤ n ≤ u32_max → n ≤ vec_len d →
  writer_ok (update_track i (set_descriptions d n t) w).
Proof.
  intros Hw Hi Hp Hn Hd. eapply update_track_ok; [done..|]. intros [Hid Hcnt Hpend Hsam Hcon Hlen Hsy _].
  assert (samples t = []) as Hempty.
  { destruct (samples t) eqn:E; [done|]. assert (has_pending_samples w = true); [|congruence].
    apply existsb_exists. exists t. split; [by apply list_elem_of_In; eapply list_elem_of_lookup_2|]. by unfold has_samples; rewrite E. }
  constructor; cbn; try done. rewrite Hempty in *. destruct (pending_sample_description_index t); naive_solver.
Qed.

(** What stays when a sample description is added. *)
Definition described (w w' : FragmentedMp4Writer) : Prop :=
  writer_ok w' ∧ only_region w (writer w') ∧ moov_offset w' = moov_offset w ∧
  initialization w' = initialization w ∧ fw_sequence_number w' = fw_sequence_number w ∧
  (poisoned w = true → w' = w) ∧
  (poisoned w' = false → s_pos (writer w') = s_pos (writer w) ∨
                         s_pos (writer w') = moov_offset w + INITIALIZATION_METADATA_CAPACITY).

Lemma only_region_same w : sink_ok (writer w) → region_ok w → only_region w (writer w).
Proof.
  intros Hs Hr. pose proof Hs as [H1 H2]. pose proof (only_region_seek w (s_pos (writer w)) (s_faults (writer w)) Hs Hr ltac:(lia)) as H.
  by destruct (writer w).
Qed.

Lemma overwrite_long l p bs : (p ≤ length l)%nat → vec_len l ≤ vec_len (overwrite l p bs).
Proof. intros. unfold vec_len. rewrite overwrite_length by done. lia. Qed.

Lemma described_same w : writer_ok w → region_ok w → described w w.
Proof.
  intros Hw Hr. split; [done|]. split; [by apply only_region_same; [apply Hw|]|]. repeat split; auto.
Qed.

(** The writer with new descriptions for one track, after the file moved on. *)
Definition redescribe (i : nat) (d : list MediaConfig) (n : Z) (t : FragmentTrack) (s : Sink) (q : bool)
    (w : FragmentedMp4Writer) : FragmentedMp4Writer :=
  mk_writer s (<[i:=set_descriptions d n t]> (tracks w)) (initialization w) (movie_timescale w) (moov_offset w)
    (fw_sequence_number w) q.

Lemma redescribed i d n t s q w :
  writer_ok w → tracks w !! i = Some t → has_pending_samples w = false → poisoned w = false →
  1 ≤ n ≤ u32_max → n ≤ vec_len d → only_region w s →
  (q = false → s_pos s = s_pos (writer w) ∨ s_pos s = moov_offset w + INITIALIZATION_METADATA_CAPACITY) →
  described w (redescribe i d n t s q w).
Proof.
  intros Hw Hi Hp Hpo Hn Hd Hreg Hpos. pose proof (describe_track_ok i t d n w Hw Hi Hp Hn Hd) as [_ Ht Hq].
  split; [constructor; [by destruct Hreg|exact Ht|exact Hq]|]. split; [exact Hreg|]. repeat split; [by rewrite Hpo|exact Hpos].
Qed.

(** The end of [add_sample_description]: the metadata is rewritten in place. *)
Lemma describe_rewrite w metadata :
  sink_ok (writer w) → region_ok w → vec_len metadata = INITIALIZATION_METADATA_CAPACITY →
  ∃ rp s1, stream_position (writer w) = (rp, s1) ∧ only_region w s1 ∧ s_pos s1 = s_pos (writer w) ∧
    match rp with
    | Done media_end =>
        ∃ r2 s2, write_initialization_metadata_bytes (moov_offset w) metadata s1 = (r2, s2) ∧ r2 ≠ Panics ∧
          only_region w s2 ∧
          (∃ r3 s3, sink_seek media_end s2 = (r3, s3) ∧ only_region w s3 ∧
             (r2 = Done () → s_pos s3 = s_pos (writer w) ∨ s_pos s3 = moov_offset w + INITIALIZATION_METADATA_CAPACITY))
    | Fails _ => True
    | Panics => False
    end.
Proof.
  intros Hs Hr Hm. pose proof Hs as [Hs1 Hs2].
  assert (∀ fs, only_region w (put [] fs (writer w))) as Hput
    by (intros; rewrite <-seek_here by done; by apply only_region_seek).
  destruct (position_result (writer w) Hs) as [[fs E]|[fs E]]; rewrite E; eexists _, _; (split; [done|]); (split; [apply Hput|]);
    (split; [unfold put, vec_len; cbn; lia|done || idtac]).
  assert (s_bytes (put [] fs (writer w)) = s_bytes (writer w)) as Hpb by (by rewrite <-seek_here).
  destruct (rewrite_metadata_spec w metadata (put [] fs (writer w)) Hr (put_ok _ _ _ Hs) Hpb Hm)
    as (r1 & s1 & -> & Hreg & Hr1 & Hend).
  eexists _, _. split; [done|]. split; [done|]. split; [done|].
  destruct Hreg as [[Hp1 Hp2] (bs & Hbs & Hbytes)].
  assert (vec_len (s_bytes (writer w)) ≤ vec_len (s_bytes s1)).
  { rewrite Hbytes. apply overwrite_long. destruct Hr. unfold vec_len, INITIALIZATION_METADATA_CAPACITY in *. lia. }
  destruct (seek_result (s_pos (writer w)) s1) as [F|F]; rewrite F; eexists _, _; (split; [done|]);
    (split; [split; [unfold sink_ok; cbn; lia|by exists bs]|]); cbn [s_pos seek_to]; auto.
Qed.

Lemma describe_spec id c w r w' :
  writer_ok w → region_ok w → add_sample_description moov_box id c w = (r, w') → r ≠ Panics → described w w'.
Proof.
  intros Hw Hr E Hnp. pose proof (described_same w Hw Hr) as Hself. pose proof (wo_sink w Hw) as Hs.
  pose proof (only_region_same w Hs Hr) as Hsame.
  revert E. unfold add_sample_description, fbind, ensure_not_poisoned.
  destruct (poisoned w) eqn:Epo; [by intros [= <- <-]|].
  destruct (find_track id w) as [[i t]|] eqn:Ef; [|by intros [= <- <-]]. apply find_track_Some in Ef.
  case_bool_decide; [by intros [= <- <-]|]. destruct (position _ _); [by intros [= <- <-]|].
  destruct (has_pending_samples w) eqn:Ehp; [by intros [= <- <-]|].
  destruct (wo_tracks w Hw i t Ef) as [_ Hcnt _ _ _ _ _ Hds].
  set (ds := sample_descriptions t ++ [c]).
  assert (vec_len ds = vec_len (sample_descriptions t) + 1) as Hlen by (unfold ds; by rewrite vec_len_app).
  pose proof (λ d n s q, redescribed i d n t s q w Hw Ef Ehp Epo) as Hmk.
  destruct (u32_try _) as [count|] eqn:Eu.
  2: { intros [= <- <-]. apply (Hmk ds _ (writer w) (poisoned w)); lia || auto. }
  apply u32_try_Some in Eu as [-> Hcr]. cbn [movie_timescale tracks update_track set_tracks].
  destruct (initialization_metadata _ _ _) as [metadata|e|] eqn:Em.
  2: { intros [= <- <-]. unfold update_track, set_tracks. cbn [tracks writer]. rewrite list_insert_insert_eq.
       apply (Hmk (sample_descriptions t) _ (writer w) (poisoned w)); lia || auto. }
  2: { by intros [= <- <-]. }
  apply initialization_metadata_length in Em. unfold update_track, set_tracks. cbn [writer moov_offset].
  destruct (describe_rewrite w metadata Hs Hr Em) as (rp & s1 & -> & Hreg & Hpos1 & Hp).
  destruct rp as [media_end|e|]; [|intros [= <- <-]; apply (Hmk ds (vec_len ds) s1 (poisoned w)); lia || auto|done].
  destruct Hp as (r2 & s2 & -> & Hr2 & Hreg2 & r3 & s3 & F & Hreg3 & Hpos3).
  destruct r2 as [u|e|]; [|intros [= <- <-]|done].
  - destruct u. specialize (Hpos3 eq_refl).
    rewrite F. destruct r3; intros [= <- <-]; apply (Hmk ds (vec_len ds) s3 (poisoned w)); lia || auto.
  - unfold set_poisoned, set_writer, update_track, set_tracks. cbn. rewrite list_insert_insert_eq.
    apply (Hmk (sample_descriptions t) _ s2 true); lia || done.
Qed.

(** ** Sessions *)

Definition fragment_log : Type := list (Mp4FragmentInfo * list FragmentTrack).

(** The fragment a flush returned, with the tracks it was made of. *)
Definition logged (r : io (option Mp4FragmentInfo)) (w : FragmentedMp4Writer) : fragment_log :=
  match r with Done (Some info) => [(info, pending w)] | _ => [] end.

Definition init_end (w : FragmentedMp4Writer) : Z := moov_offset w + INITIALIZATION_METADATA_CAPACITY.
Definition range_end (info : Mp4FragmentInfo) : Z := range_offset (info_range info) + range_size (info_range info).

(** The file stands behind every fragment the caller was given, or the writer refuses
    to write at all.  Only one event ends this: [add_sample_description] rewrites the
    metadata and its seek back to the end of the media fails. *)
Definition placed (x : FragmentedMp4Writer * fragment_log) : Prop :=
  poisoned (fst x) = true ∨ Forall (λ e, range_end (fst e) ≤ s_pos (writer (fst x))) (snd x).

(** One call on the writer, with any failures of the file.  The caller does not flush
    when the file stands in front of a fragment it was given. *)
Inductive frag_step : FragmentedMp4Writer * fragment_log → FragmentedMp4Writer * fragment_log → Prop :=
| step_sample w log id index s r w' :
    sample_ok s → 0 ≤ index → write_sample_with_description id index s w = (r, w') → frag_step (w, log) (w', log)
| step_finish w log id next r w' :
    0 ≤ next ≤ u64_max → finish_trailing_sample id next w = (r, w') → frag_step (w, log) (w', log)
| step_flush w log r w' :
    placed (w, log) → flush_fragment w = (r, w') → frag_step (w, log) (w', log ++ logged r w)
| step_discard w log : frag_step (w, log) (discard_pending_samples w, log)
| step_describe w log id c r w' :
    add_sample_description moov_box id c w = (r, w') → r ≠ Panics → frag_step (w, log) (w', log).

Record logged_ok (w : FragmentedMp4Writer) (e : Mp4FragmentInfo * list FragmentTrack) : Prop := {
  lo_entry : entry_ok (s_bytes (writer w)) (fst e) (snd e);
  lo_after : init_end w ≤ range_offset (info_range (fst e));
  lo_sequence : 1 ≤ info_sequence (fst e) < fw_sequence_number w
}.
Definition entry_lt (e e' : Mp4FragmentInfo * list FragmentTrack) : Prop :=
  range_end (fst e) ≤ range_offset (info_range (fst e')) ∧ info_sequence (fst e) < info_sequence (fst e').

Record session_ok (x : FragmentedMp4Writer * fragment_log) : Prop := {
  ss_writer : writer_ok (fst x);
  ss_region : region_ok (fst x);
  ss_position : poisoned (fst x) = false → init_end (fst x) ≤ s_pos (writer (fst x));
  ss_log : Forall (logged_ok (fst x)) (snd x);
  ss_order : StronglySorted entry_lt (snd x)
}.

(** An entry survives a change of the file that leaves its range alone. *)
Lemma entry_keep file file' info l :
  entry_ok file info l →
  slice file' (range_offset (info_range info)) (range_size (info_range info))
  = slice file (range_offset (info_range info)) (range_size (info_range info)) →
  entry_ok file' info l.
Proof. intros [] E. constructor; try done. by rewrite E. Qed.

Lemma entry_size_pos file info l : entry_ok file info l → 0 ≤ range_size (info_range info).
Proof. intros []. rewrite eo_size0. unfold vec_len. lia. Qed.

(** A writer whose file was appended to, or not touched at all. *)
Lemma keep_put bs fs w w' log :
  session_ok (w, log) → poisoned w = false → Forall (λ e, range_end (fst e) ≤ s_pos (writer w)) log →
  writer w' = put bs fs (writer w) → writer_ok w' → moov_offset w' = moov_offset w →
  fw_sequence_number w ≤ fw_sequence_number w' → poisoned w' = false →
  session_ok (w', log) .
Proof.
  intros [Hw [Hr1 Hr2] Hp Hl Ho] Hpo Hbefore Hput Hw' Hm Hseq Hpo'. cbn [fst snd] in *.
  pose proof (wo_sink w Hw) as Hs. destruct (put_length bs fs _ Hs) as [Hlen _].
  assert (s_pos (writer w) ≤ s_pos (writer w')) as Hpos.
  { rewrite Hput. unfold put, vec_len. cbn [s_pos]. lia. }
  constructor; cbn [fst snd]; try done.
  - unfold region_ok. rewrite Hm, Hput. lia.
  - intros _. unfold init_end in *. rewrite Hm. specialize (Hp Hpo). lia.
  - eapply Forall_impl; [apply Forall_and; split; [exact Hl|exact Hbefore]|]. intros [info l] [[He Ha Hq] Hb]. constructor; cbn [fst snd] in *.
    + eapply entry_keep; [exact He|]. rewrite Hput.
      apply slice_put; [done|apply He|by eapply entry_size_pos|]. left. exact Hb.
    + unfold init_end in *. by rewrite Hm.
    + lia.
Qed.

Lemma put_nil_eq w : sink_ok (writer w) → writer w = put [] (s_faults (writer w)) (writer w).
Proof. intros. by rewrite put_nil. Qed.

Lemma keep_tracks w w' log l :
  session_ok (w, log) → writer_ok w' → w' = set_tracks l w → session_ok (w', log).
Proof.
  intros Hx Hw' ->. destruct Hx as [Hw Hr Hp Hl Ho]. constructor; [exact Hw'|exact Hr|exact Hp| |exact Ho].
  eapply Forall_impl; [exact Hl|]. intros e [He Ha Hq]. by constructor.
Qed.

Lemma keep_described w w' log :
  session_ok (w, log) → described w w' → session_ok (w', log).
Proof.
  intros Hx (Hw' & [Hs' (bs & Hbs & Hbytes)] & Hm & Hi & Hq & Hpo & Hback).
  destruct (poisoned w) eqn:Epo; [by rewrite (Hpo eq_refl)|].
  destruct Hx as [Hw [Hr1 Hr2] Hp Hl Ho]. cbn [fst snd] in *.
  assert (Z.to_nat (moov_offset w) ≤ length (s_bytes (writer w)))%nat as Hin
    by (unfold vec_len, INITIALIZATION_METADATA_CAPACITY in *; lia).
  constructor; cbn [fst snd]; try done.
  - split; rewrite Hm; [done|]. rewrite Hbytes. pose proof (overwrite_long _ _ bs Hin). lia.
  - intros Hf. specialize (Hback Hf). unfold init_end in *. rewrite Hm. specialize (Hp Epo). lia.
  - eapply Forall_impl; [exact Hl|]. intros [info l] [He Ha Hsq]. constructor; cbn [fst snd] in *.
    + eapply entry_keep; [exact He|]. rewrite Hbytes.
      apply slice_overwrite; [done|apply He|by eapply entry_size_pos|]. right. unfold init_end in Ha. lia.
    + unfold init_end in *. by rewrite Hm.
    + lia.
Qed.

(** A flush leaves the file behind the fragment it returns. *)
Lemma flush_placed w log r w' :
  writer_ok w → placed (w, log) → flush_fragment w = (r, w') → placed (w', log ++ logged r w).
Proof.
  intros Hw Hpl E. pose proof (flush_fragment_spec w Hw) as Hf. rewrite E in Hf.
  assert (∀ bs fs, Forall (λ e : Mp4FragmentInfo * list FragmentTrack, range_end (fst e) ≤ s_pos (writer w)) log →
                   Forall (λ e, range_end (fst e) ≤ s_pos (put bs fs (writer w))) log) as Hput.
  { intros bs fs H. eapply Forall_impl; [exact H|]. intros e He. unfold put, vec_len. cbn in *. lia. }
  destruct r as [[info|]|e|]; cbn [logged]; rewrite ?app_nil_r; [| | |done].
  - destruct Hf as (Hpo & _ & _ & -> & _ & _ & fs & ->). destruct Hpl as [|Hpl]; [cbn in *; congruence|]. right.
    apply Forall_app. split; [by apply Hput|]. constructor; [|constructor]. unfold range_end, put. cbn. lia.
  - by destruct Hf as [-> _].
  - destruct Hf as [[_ ->]|(Hpo & bs & fs & Hf)]; [done|]. destruct Hpl as [|Hpl]; [cbn in *; congruence|]. right.
    destruct Hf as [->| ->]; by apply Hput.
Qed.

Lemma flush_step w log r w' :
  session_ok (w, log) → placed (w, log) → flush_fragment w = (r, w') → r ≠ Panics ∧ session_ok (w', log ++ logged r w).
Proof.
  intros Hx Hpl E. pose proof (flush_fragment_spec w (ss_writer _ Hx)) as Hf. rewrite E in Hf. pose proof (ss_writer _ Hx) as Hw. cbn [fst] in Hw.
  pose proof (wo_sink w Hw) as Hs. destruct r as [[info|]|e|]; [| | |done]; (split; [done|]); cbn [logged]; rewrite ?app_nil_r.
  - destruct Hf as (Hpo & Hne & Hseq & -> & Hwf & Hos & fs & ->). destruct Hpl as [|Hpl]; [cbn in *; congruence|]. cbn [fst snd] in Hpl.
    set (frag := fragment_bytes (fw_sequence_number w) (pending w)) in *.
    set (w' := set_sequence _ _).
    assert (writer_ok w') as Hw'.
    { apply set_sequence_ok; [|destruct Hw; lia]. apply clear_ok, set_writer_ok; [done|by apply put_ok]. }
    assert (session_ok (w', log)) as Hx'.
    { eapply (keep_put frag fs w); try done. cbn. lia. }
    assert (logged_ok w' (mk_info (fw_sequence_number w) (mk_range (s_pos (writer w)) (vec_len frag))
      (keyframe_at (s_pos (writer w)) (fragment_base (pending w)) (pending w)), pending w)) as Hnew.
    { constructor; cbn [fst snd info_range info_sequence range_offset range_size].
      - constructor; cbn [info_range info_sequence range_offset range_size video_keyframe]; try done;
          [by apply pending_all_ok|apply Hs|apply (slice_put_here frag fs (writer w) Hs)].
      - apply (ss_position _ Hx Hpo).
      - cbn. destruct Hw. lia. }
    destruct Hx' as [H1 H2 H3 H4 H5]. constructor; cbn [fst snd] in *; try done.
    + apply Forall_app. split; [done|]. by constructor.
    + apply StronglySorted_snoc; [done|]. eapply Forall_impl; [apply Forall_and; split; [apply (ss_log _ Hx)|exact Hpl]|].
      intros e [[_ _ Hq] Hb]. split; [exact Hb|exact (proj2 Hq)].
  - by destruct Hf as [-> _].
  - destruct Hf as [[_ ->]|(Hpo & bs & fs & Hf)]; [done|]. destruct Hpl as [|Hpl]; [cbn in *; congruence|].
    assert (writer_ok (after_put bs fs w)) as Ha by (apply set_writer_ok; [done|by apply put_ok]).
    destruct Hf as [->| ->]; eapply (keep_put bs fs w); try done; by apply clear_ok.
Qed.

Lemma frag_step_ok x y : session_ok x → frag_step x y → session_ok y.
Proof.
  intros Hx Hst. destruct Hst as [w log id index s r w' Hs Hi E|w log id next r w' Hn E|w log r w' Hpl E|w log|w log id c r w' E Hr].
  - destruct (write_sample_ok _ _ _ _ _ _ (ss_writer _ Hx) Hs Hi E) as (H1 & _ & l & ->). by eapply keep_tracks.
  - destruct (finish_ok _ _ _ _ _ (ss_writer _ Hx) Hn E) as (H1 & _ & l & ->). by eapply keep_tracks.
  - by apply (flush_step w log r w').
  - eapply keep_tracks; [done|apply clear_ok, (ss_writer _ Hx)|done].
  - eapply keep_described; [done|]. by eapply describe_spec; [apply (ss_writer _ Hx)|apply (ss_region _ Hx)|..].
Qed.

Lemma frag_run_ok x y : rtc frag_step x y → session_ok x → session_ok y.
Proof. induction 1; [done|]. intros. by apply IHrtc, (frag_step_ok x). Qed.

(** ** Sessions in which the file always stands behind its fragments *)

Definition kept_step (x y : FragmentedMp4Writer * fragment_log) : Prop := placed x → frag_step x y ∧ placed y.

Lemma kept_run x y : rtc kept_step x y → placed x → rtc frag_step x y ∧ placed y.
Proof.
  induction 1 as [x|x y z Hxy _ IH]; intros Hx; [by split|]. destruct (Hxy Hx) as [H1 H2].
  destruct (IH H2) as [H3 H4]. split; [by eapply rtc_l|done].
Qed.
Lemma kept_run_frag f0 y : rtc kept_step (f0, []) y → rtc frag_step (f0, []) y.
Proof. intros H. apply kept_run in H as [H _]; [done|]. by right. Qed.

Lemma kept_sample w log id index s r w' :
  writer_ok w → sample_ok s → 0 ≤ index → write_sample_with_description id index s w = (r, w') → kept_step (w, log) (w', log).
Proof.
  intros Hw Hs Hi E Hx. split; [by eapply step_sample|]. by destruct (write_sample_ok _ _ _ _ _ _ Hw Hs Hi E) as (_ & _ & l & ->).
Qed.
Lemma kept_finish w log id next r w' :
  writer_ok w → 0 ≤ next ≤ u64_max → finish_trailing_sample id next w = (r, w') → kept_step (w, log) (w', log).
Proof.
  intros Hw Hn E Hx. split; [by eapply step_finish|]. by destruct (finish_ok _ _ _ _ _ Hw Hn E) as (_ & _ & l & ->).
Qed.
Lemma kept_flush w log r w' :
  writer_ok w → flush_fragment w = (r, w') → kept_step (w, log) (w', log ++ logged r w).
Proof. intros Hw E Hx. split; [by apply step_flush|by apply flush_placed]. Qed.
Lemma kept_describe w log id c n w' :
  add_sample_description moov_box id c w = (Done n, w') → s_pos (writer w') = s_pos (writer w) →
  kept_step (w, log) (w', log).
Proof.
  intros E Hpos Hx. split; [by eapply step_describe|]. revert E. unfold add_sample_description, fbind, ensure_not_poisoned.
  destruct (poisoned w) eqn:Hpo; [done|]. intros _. destruct Hx as [Hx|Hx]; [cbn in *; congruence|]. right. cbn in *. by rewrite Hpos.
Qed.

(** ** The start of a session *)

Lemma new_tracks_ok index configs l :
  existsb (λ c, match fc_descriptions c with [] => true | _ => false end) configs = false →
  new_tracks index configs = Done l → ∀ i t, l !! i = Some t → track_ok (index + i) t.
Proof.
  revert index l. induction configs as [|c configs IH]; intros index l He; cbn [new_tracks]; [by intros [= <-]|].
  cbn [existsb] in He. apply orb_false_iff in He as [Hd He].
  destruct (u32_try (Z.of_nat index + 1)) as [id|] eqn:E1; [|done]. cbn [ok_or ibind].
  destruct (u32_try (vec_len (fc_descriptions c))) as [n|] eqn:E2; [|done]. cbn [ok_or ibind].
  destruct (new_tracks (S index) configs) as [rest|e|] eqn:E3; [|done|done]. cbn [ibind]. intros [= <-] i t Hi.
  apply u32_try_Some in E1 as [-> H1]. apply u32_try_Some in E2 as [-> H2].
  destruct i as [|i].
  - injection Hi as <-. rewrite Nat.add_0_r. constructor; cbn; try done; [lia|].
    destruct (fc_descriptions c); [done|]. unfold vec_len in *. cbn [length] in *. lia.
  - replace (index + S i)%nat with (S index + i)%nat by lia. by eapply IH.
Qed.

Lemma new_tracks_empty index configs l : new_tracks index configs = Done l → existsb has_samples l = false.
Proof.
  revert index l. induction configs as [|c configs IH]; intros index l; cbn [new_tracks]; [by intros [= <-]|].
  destruct (u32_try (Z.of_nat index + 1)); [|done]. destruct (u32_try (vec_len _)); [|done]. cbn [ok_or ibind].
  destruct (new_tracks (S index) configs) eqn:E; [|done|done]. cbn [ibind]. intros [= <-]. cbn. by eapply IH.
Qed.

Lemma emits_ftyp b : ftyp_size b ≤ u32_max →
  ∃ bs, emits (ftyp_write b) (ftyp_size b) bs.
Proof.
  intros Hs. unfold ftyp_write. eexists. eapply emits_bind; [apply emits_header|].
  - unfold ftyp_size, HEADER_SIZE, vec_len in *. lia.
  - eapply emits_bind; [apply emits_write_all|]. eapply emits_bind; [apply emits_write_all|].
    eapply emits_bind; [apply (emits_write_each _ () (be_bytes 4)); intros; apply emits_write_all|apply emits_ret].
Qed.

(** Writing the metadata where the file stands. *)
Lemma start_metadata_spec metadata s :
  sink_ok s →
  (∃ fs, write_initialization_metadata_bytes (s_pos s) metadata s = (Done (), put metadata fs s)) ∨
  (∃ s', write_initialization_metadata_bytes (s_pos s) metadata s = (Fails IoError, s')).
Proof.
  intros Hs. unfold write_initialization_metadata_bytes, wbind.
  destruct (seek_result (s_pos s) s) as [E|E]; rewrite E; [|eauto]. rewrite seek_here by done.
  assert (emits (write_all metadata ;^ sink_flush) () (metadata ++ [])) as He
    by (apply emits_bind_ret; [apply emits_write_all|apply emits_flush]).
  rewrite app_nil_r in He. destruct (He _ (put_ok [] (tail (s_faults s)) s Hs)) as (fs & _ & [F|(_ & n & F)]);
    unfold wbind in F; rewrite F; [left|eauto]. exists fs. by rewrite put_put.
Qed.

Lemma write_start_ok config configs s w s' :
  sink_ok s → ftyp_size (mk_ftyp (major_brand config) (minor_version config) (compatible_brands config)) ≤ u32_max →
  write_start_with_sample_descriptions moov_box config configs s = (Done w, s') →
  session_ok (w, []) ∧ has_pending_samples w = false ∧ poisoned w = false ∧ fw_sequence_number w = 1.
Proof.
  intros Hs Hf. unfold write_start_with_sample_descriptions.
  destruct (match configs with [] => true | _ => false end); [done|].
  destruct (_ || _); [done|]. destruct (existsb _ configs) eqn:Ed; [done|].
  unfold wbind. destruct (position_result s Hs) as [[fs0 E0]|[fs0 E0]]; rewrite E0; [|done].
  destruct (emits_ftyp _ Hf) as [fb Hfb]. pose proof (put_ok [] fs0 s Hs) as Hs0.
  destruct (Hfb _ Hs0) as (fs1 & _ & [E1|(_ & n & E1)]); rewrite E1; [|done].
  pose proof (put_ok fb fs1 _ Hs0) as Hs1. rewrite put_put in * by done. cbn [app] in *.
  destruct (position_result _ Hs1) as [[fs2 E2]|[fs2 E2]]; rewrite E2; [|done].
  pose proof (put_ok [] fs2 _ Hs1) as Hs2. rewrite put_put in * by done. rewrite app_nil_r in *.
  unfold wlift. destruct (new_tracks 0 configs) as [l|e|] eqn:El; [|done|done].
  unfold write_initialization_metadata.
  destruct (initialization_metadata _ _ _) as [m|e|] eqn:Em; [|done|done].
  apply initialization_metadata_length in Em.
  destruct (start_metadata_spec m _ Hs2) as [[fs3 E3]|[s3 E3]]; cbn [s_pos put] in E3 |- *; rewrite E3; [|done].
  intros [= <- <-]. set (s2 := put fb fs2 s) in *.
  change (s_pos s + vec_len fb) with (s_pos s2). destruct (put_length m fs3 s2 Hs2) as [_ Hlen].
  apply new_tracks_empty in El as Hnp.
  split; [|done]. constructor; cbn [fst snd]; [|split| | |]; cbn; try done.
  - constructor; [by apply put_ok|by apply (new_tracks_ok 0 configs)|done].
  - destruct Hs2. done.
  - rewrite <-Em. done.
  - intros _. unfold init_end. cbn. rewrite Em. lia.
  - constructor.
Qed.

End moov.
