(* ===== verification/Mp4Track.v ===== *)
(** * Reading the samples of a fragmented file

    [crates/mp4/src/track.rs] and [reader.rs]: the tables the reader builds from the
    [moof] boxes of a file, and the sample it returns for a number: its bytes, times,
    composition offset and sync flag, from the fragments or, in a file without any, from
    the sample tables of its [stbl] box. *)

From S2P Require Import Prelude Mp4Io Mp4Box Fragmented.

(** The tables of [stbl] the reader looks into. *)
Record StszBox := mk_stsz { stsz_sample_size : Z; stsz_sample_count : Z; stsz_sample_sizes : list Z }.
Record StscEntry := mk_stsc {
  first_chunk : Z; samples_per_chunk : Z; stsc_description_index : Z; first_sample : Z }.
Record SttsEntry := mk_stts { stts_sample_count : Z; sample_delta : Z }.
Record CttsEntry := mk_ctts { ctts_sample_count : Z; ctts_sample_offset : Z }.
Record SampleTable := mk_table {
  stsz : StszBox;
  stsc_entries : list StscEntry;
  stts_entries : list SttsEntry;
  ctts_entries : option (list CttsEntry);
  stss_entries : option (list Z);
  stco_entries : option (list Z);
  co64_entries : option (list Z);
  stsd_count : Z
}.

Record Mp4Track := mk_mp4_track {
  mt_track_id : Z;
  mt_table : SampleTable;
  mt_trafs : list TrafBox;
  mt_default_sample_duration : Z;
  mt_default_sample_size : Z;
  mt_default_sample_flags : Z;
  mt_default_sample_description_index : Z;
  traf_sample_counts : list Z;
  traf_start_times : list Z;
  traf_base_offsets : list Z;
  fragmented_duration : Z;
  fragmented_total_size : Z
}.

(** [Mp4Track::from]. *)
Definition track_from (id : Z) (table : SampleTable) : Mp4Track :=
  mk_mp4_track id table [] 0 0 0 1 [] [] [] 0 0.

Definition get_or (l : list Z) (i : nat) (d : Z) : Z := default d (l !! i).
(** [a + b] on [u64]: an overflow panics. *)
Definition plus_u64 (a b : Z) : io Z := if a + b <=? u64_max then Done (a + b) else Panics.

(** ** Building the tables *)

(** [for i in 0..sample_count] of [precompute_fragmented_caches]. *)
Fixpoint sum_samples (n : nat) (i : nat) (ds ss : list Z) (dd ds' : Z) (duration total : Z) : io (Z * Z) :=
  match n with
  | O => Done (duration, total)
  | S n =>
      let& duration := plus_u64 duration (get_or ds i dd) in
      let& total := plus_u64 total (get_or ss i ds') in
      sum_samples n (S i) ds ss dd ds' duration total
  end.
Fixpoint precompute_trafs (dd ds : Z) (l : list TrafBox) (times : list Z) (running total : Z) : io (list Z * Z * Z) :=
  match l with
  | [] => Done (times, running, total)
  | traf :: l =>
      let start := match tfdt traf with Some b => base_media_decode_time b | None => running end in
      let default_duration := default dd (default_sample_duration (tfhd traf)) in
      let default_size := default ds (default_sample_size (tfhd traf)) in
      let& (duration, total) :=
        (match trun traf with
         | Some r => sum_samples (Z.to_nat (sample_count r)) 0 (sample_durations r) (sample_sizes r)
                       default_duration default_size 0 total
         | None => Done (0, total)
         end) in
      let& running := plus_u64 start duration in
      precompute_trafs dd ds l (times ++ [start]) running total
  end.
Definition precompute_fragmented_caches (t : Mp4Track) : io Mp4Track :=
  let& (times, running, total) :=
    precompute_trafs (mt_default_sample_duration t) (mt_default_sample_size t) (mt_trafs t) (traf_start_times t) 0 0 in
  Done (mk_mp4_track (mt_track_id t) (mt_table t) (mt_trafs t) (mt_default_sample_duration t)
          (mt_default_sample_size t) (mt_default_sample_flags t) (mt_default_sample_description_index t)
          (traf_sample_counts t) times (traf_base_offsets t) running total).

(** One track fragment of a [moof] at [moof_offset]: the body of the loop of
    [read_header]. *)
Definition track_add (moof_offset : Z) (traf : TrafBox) (t : Mp4Track) : io Mp4Track :=
  let count := match trun traf with Some r => sample_count r | None => 0 end in
  let& counts :=
    (if 0 <? count then
       let& c := ok_or (checked_add u32_max (default 0 (last (traf_sample_counts t))) count)
                   (InvalidData "cumulative trun sample_count overflow") in
       Done (traf_sample_counts t ++ [c])
     else Done (traf_sample_counts t)) in
  let base := match base_data_offset (tfhd traf) with
              | Some o => o
              | None => if negb (Z.land (tfhd_flags (tfhd traf)) FLAG_DEFAULT_BASE_IS_MOOF =? 0)
                        then moof_offset else 0
              end in
  Done (mk_mp4_track (mt_track_id t) (mt_table t) (mt_trafs t ++ [traf]) (mt_default_sample_duration t)
          (mt_default_sample_size t) (mt_default_sample_flags t) (mt_default_sample_description_index t)
          counts (traf_start_times t) (traf_base_offsets t ++ [base]) (fragmented_duration t)
          (fragmented_total_size t)).

Fixpoint add_trafs (moof_offset : Z) (l : list TrafBox) (m : gmap Z Mp4Track) : io (gmap Z Mp4Track) :=
  match l with
  | [] => Done m
  | traf :: l =>
      match m !! tfhd_track_id (tfhd traf) with
      | None => Fails (TrakNotFound (tfhd_track_id (tfhd traf)))
      | Some t =>
          let& t := track_add moof_offset traf t in
          add_trafs moof_offset l (<[tfhd_track_id (tfhd traf) := t]> m)
      end
  end.
Fixpoint add_moofs (l : list (MoofBox * Z)) (m : gmap Z Mp4Track) : io (gmap Z Mp4Track) :=
  match l with
  | [] => Done m
  | (moof, moof_offset) :: l => let& m := add_trafs moof_offset (trafs moof) m in add_moofs l m
  end.

Record TrexBox := mk_trex {
  trex_track_id : Z; trex_description_index : Z; trex_duration : Z; trex_size : Z; trex_flags : Z }.
Definition apply_trex (trexs : list TrexBox) (t : Mp4Track) : Mp4Track :=
  match find (λ x, trex_track_id x =? mt_track_id t) trexs with
  | Some x => mk_mp4_track (mt_track_id t) (mt_table t) (mt_trafs t) (trex_duration x) (trex_size x) (trex_flags x)
                (trex_description_index x) (traf_sample_counts t) (traf_start_times t) (traf_base_offsets t)
                (fragmented_duration t) (fragmented_total_size t)
  | None => t
  end.

(** The part of [read_header] that follows the scan of the boxes: every [moof] with its
    offset is added to its tracks, the defaults of [mvex] are taken over and the
    caches computed.  The tracks are visited in any order; one that panics ends the
    process. *)
Definition read_tracks (moofs : list (MoofBox * Z)) (trexs : list TrexBox) (tracks : gmap Z Mp4Track)
    : io (gmap Z Mp4Track) :=
  match moofs with
  | [] => Done tracks
  | _ =>
      let& tracks := add_moofs moofs tracks in
      let done_ := (λ t, precompute_fragmented_caches (apply_trex trexs t)) <$> tracks in
      if bool_decide (map_Forall (λ _ r, is_done r = true) done_)
      then Done (omap (λ r, match r with Done t => Some t | _ => None end) done_)
      else Panics
  end.

(** ** The tables of a progressive file *)

(** [binary_search_by_key] of a slice. *)
Fixpoint search_loop (fuel : nat) (keys : list Z) (x : Z) (base size : nat) : nat :=
  match fuel with
  | O => base
  | S fuel =>
      if (size <=? 1)%nat then base
      else
        let half := (size / 2)%nat in
        let mid := (base + half)%nat in
        search_loop fuel keys x (if x <? get_or keys mid 0 then base else mid) (size - half)
  end.
Definition binary_search (keys : list Z) (x : Z) : nat + nat :=
  match keys with
  | [] => inr 0%nat
  | _ =>
      let base := search_loop (length keys) keys x 0 (length keys) in
      if get_or keys base 0 =? x then inl base
      else inr (if get_or keys base 0 <? x then S base else base)
  end.

(** [a - 1] as an index: zero panics. *)
Definition index_before (n : Z) : io nat := if n <=? 0 then Panics else Done (Z.to_nat (n - 1)).
Definition u32_result (n : Z) : io Z := if (0 <=? n) && (n <=? u32_max) then Done n else Panics.

Definition stsc_index (t : SampleTable) (sample_id : Z) : io nat :=
  match stsc_entries t with
  | [] => Fails (InvalidData "no stsc entries")
  | entries =>
      match binary_search (map first_sample entries) sample_id with
      | inl i => Done i
      | inr O => Fails (InvalidData "sample not found")
      | inr (S i) => Done i
      end
  end.

Definition chunk_offset (track_id : Z) (t : SampleTable) (chunk_id : Z) : io Z :=
  match stco_entries t, co64_entries t with
  | None, None => Fails (InvalidData "must have either stco or co64 boxes")
  | Some entries, _ =>
      let& i := index_before chunk_id in
      ok_or (entries !! i) (EntryInStblNotFound track_id StcoBoxType chunk_id)
  | None, Some entries =>
      let& i := index_before chunk_id in
      ok_or (entries !! i) (EntryInStblNotFound track_id Co64BoxType chunk_id)
  end.

Fixpoint ctts_index (track_id : Z) (entries : list CttsEntry) (i : nat) (sample_count sample_id : Z) : io (nat * Z) :=
  match entries with
  | [] => Fails (EntryInStblNotFound track_id CttsBoxType sample_id)
  | e :: entries =>
      let& next := ok_or (checked_add u32_max sample_count (ctts_sample_count e))
                     (InvalidData "attempt to sum ctts entries sample_count with overflow") in
      if sample_id <? next then Done (i, sample_count) else ctts_index track_id entries (S i) next sample_id
  end.

(** The sum of a slice of [u32]. *)
Fixpoint sum_u32 (acc : Z) (l : list Z) : io Z :=
  match l with
  | [] => Done acc
  | n :: l => let& acc := u32_result (acc + n) in sum_u32 acc l
  end.

Definition table_sample_size (track_id : Z) (t : SampleTable) (id : Z) : io Z :=
  if 0 <? stsz_sample_size (stsz t) then Done (stsz_sample_size (stsz t))
  else
    let& i := index_before id in
    ok_or (stsz_sample_sizes (stsz t) !! i) (EntryInStblNotFound track_id StszBoxType id).

Definition table_sample_offset (track_id : Z) (t : SampleTable) (id : Z) : io Z :=
  let& index := stsc_index t id in
  match stsc_entries t !! index with
  | None => Panics
  | Some e =>
      let& chunk_id :=
        (match checked_sub id (first_sample e) with
         | None => Fails (InvalidData "attempt to calculate stsc chunk_id with overflow")
         | Some n => if samples_per_chunk e =? 0 then Panics
                     else ok_or (checked_add u32_max (n / samples_per_chunk e) (first_chunk e))
                            (InvalidData "attempt to calculate stsc chunk_id with overflow")
         end) in
      let& offset := chunk_offset track_id t chunk_id in
      let first_in_chunk := id - (id - first_sample e) mod samples_per_chunk e in
      let& within :=
        (if 0 <? stsz_sample_size (stsz t) then u32_result ((id - first_in_chunk) * stsz_sample_size (stsz t))
         else
           let& start := index_before first_in_chunk in
           let& stop := index_before id in
           if (stop <=? length (stsz_sample_sizes (stsz t)))%nat
           then sum_u32 0 (take (stop - start) (drop start (stsz_sample_sizes (stsz t))))
           else Fails (EntryInStblNotFound track_id StszBoxType id)) in
      plus_u64 offset within
  end.

Fixpoint table_time_loop (track_id : Z) (entries : list SttsEntry) (sample_count elapsed id : Z) : io (Z * Z) :=
  match entries with
  | [] => Fails (EntryInStblNotFound track_id SttsBoxType id)
  | e :: entries =>
      let& next := ok_or (checked_add u32_max sample_count (stts_sample_count e))
                     (InvalidData "attempt to sum stts entries sample_count with overflow") in
      if id <? next then
        let& d := u32_result (id - sample_count) in
        let& start := plus_u64 (d * sample_delta e) elapsed in
        Done (start, sample_delta e)
      else
        let& elapsed := plus_u64 elapsed (stts_sample_count e * sample_delta e) in
        table_time_loop track_id entries next elapsed id
  end.

Definition table_rendering_offset (track_id : Z) (t : SampleTable) (id : Z) : io Z :=
  match ctts_entries t with
  | None => Done 0
  | Some entries =>
      match ctts_index track_id entries 0 1 id with
      | Done (i, _) => match entries !! i with Some e => Done (ctts_sample_offset e) | None => Panics end
      | Fails _ => Done 0
      | Panics => Panics
      end
  end.
Definition table_is_sync (t : SampleTable) (id : Z) : bool :=
  match stss_entries t with
  | None => true
  | Some entries => match binary_search entries id with inl _ => true | inr _ => false end
  end.

(** ** Reading a sample *)

(** [partition_point] of a sorted slice: the first element that is not below. *)
Definition partition_point (P : Z → bool) (l : list Z) : nat :=
  match position (λ a, negb (P a)) l with Some i => i | None => length l end.

Definition find_traf_idx_and_sample_idx (t : Mp4Track) (sample_id : Z) : option (nat * nat) :=
  if match traf_sample_counts t with [] => true | _ => false end || (sample_id =? 0) then None
  else
    let idx := partition_point (λ count, count <? sample_id) (traf_sample_counts t) in
    if (length (traf_sample_counts t) <=? idx)%nat then None
    else
      let offset := match idx with O => 0 | S k => get_or (traf_sample_counts t) k 0 end in
      Some (idx, Z.to_nat (sample_id - offset - 1)).

Definition fragmented (t : Mp4Track) : bool := match mt_trafs t with [] => false | _ => true end.

Definition traf_not_found (t : Mp4Track) : Mp4Error := BoxInTrafNotFound (mt_track_id t) TrafBoxType.
(** [self.trafs[traf_idx]]. *)
Definition traf_at (t : Mp4Track) (i : nat) : io TrafBox :=
  match mt_trafs t !! i with Some b => Done b | None => Panics end.

Definition track_sample_size (t : Mp4Track) (id : Z) : io Z :=
  if fragmented t then
    match find_traf_idx_and_sample_idx t id with
    | None => Fails (traf_not_found t)
    | Some (k, i) =>
        let& traf := traf_at t k in
        match (match trun traf with Some r => sample_sizes r !! i | None => None end) with
        | Some n => Done n
        | None => match default_sample_size (tfhd traf) with
                  | Some n => Done n
                  | None => Done (mt_default_sample_size t)
                  end
        end
    end
  else table_sample_size (mt_track_id t) (mt_table t) id.

(** [offset as i64 + data_offset as i64] and back to [u64]. *)
Definition as_i64 (n : Z) : Z := if n <? 2 ^ 63 then n else n - 2 ^ 64.
Definition shift_offset (offset data_offset : Z) : io Z :=
  let z := as_i64 offset + data_offset in
  if (i64_min <=? z) && (z <=? i64_max) then Done (z mod 2 ^ 64) else Panics.

Fixpoint add_sizes (n i : nat) (ss : list Z) (d : Z) (offset : Z) : io Z :=
  match n with
  | O => Done offset
  | S n => let& offset := plus_u64 offset (get_or ss i d) in add_sizes n (S i) ss d offset
  end.

Definition track_sample_offset (t : Mp4Track) (id : Z) : io Z :=
  if fragmented t then
    match find_traf_idx_and_sample_idx t id with
    | None => Fails (traf_not_found t)
    | Some (k, i) =>
        let& traf := traf_at t k in
        let offset := match traf_base_offsets t !! k with
                      | Some o => o
                      | None => default 0 (base_data_offset (tfhd traf))
                      end in
        match trun traf with
        | None => Done offset
        | Some r =>
            let& offset := shift_offset offset (default 0 (data_offset r)) in
            add_sizes i 0 (sample_sizes r) (default (mt_default_sample_size t) (default_sample_size (tfhd traf))) offset
        end
    end
  else table_sample_offset (mt_track_id t) (mt_table t) id.

Definition track_sample_time (t : Mp4Track) (id : Z) : io (Z * Z) :=
  if fragmented t then
    match find_traf_idx_and_sample_idx t id with
    | None => Fails (traf_not_found t)
    | Some (k, i) =>
        let& traf := traf_at t k in
        match traf_start_times t !! k with
        | None => Panics
        | Some start =>
            let default_duration := default (mt_default_sample_duration t) (default_sample_duration (tfhd traf)) in
            match trun traf with
            | None => Done (start, default_duration)
            | Some r =>
                let& start := add_sizes i 0 (sample_durations r) default_duration start in
                Done (start, get_or (sample_durations r) i default_duration)
            end
        end
    end
  else table_time_loop (mt_track_id t) (stts_entries (mt_table t)) 1 0 id.

Definition track_rendering_offset (t : Mp4Track) (id : Z) : io Z :=
  if fragmented t then
    match find_traf_idx_and_sample_idx t id with
    | None => Done 0
    | Some (k, i) =>
        let& traf := traf_at t k in
        match (match trun traf with Some r => sample_cts r !! i | None => None end) with
        | Some c => Done (i32_of_u32 c)
        | None => Done 0
        end
    end
  else table_rendering_offset (mt_track_id t) (mt_table t) id.

Definition is_sync_sample (t : Mp4Track) (id : Z) : io bool :=
  if fragmented t then
    match find_traf_idx_and_sample_idx t id with
    | None => Done false
    | Some (k, i) =>
        let& traf := traf_at t k in
        let flags := default (mt_default_sample_flags t) (default_sample_flags (tfhd traf)) in
        let flags :=
          match trun traf with
          | None => flags
          | Some r => match trun_sample_flags r !! i with
                      | Some f => f
                      | None => match i, first_sample_flags r with O, Some f => f | _, _ => flags end
                      end
          end in
        Done (Z.land flags 0x00010000 =? 0)
    end
  else Done (table_is_sync (mt_table t) id).

(** A missing entry of a sample table is [Ok(None)]. *)
Definition or_none {A B : Type} (m : io A) (k : A → io (option B)) : io (option B) :=
  match m with
  | Done a => k a
  | Fails (EntryInStblNotFound _ _ _) => Done None
  | Fails e => Fails e
  | Panics => Panics
  end.
Definition sample_location (t : Mp4Track) (id : Z) : io (option Mp4SampleLocation) :=
  or_none (track_sample_offset t id) (λ offset,
  or_none (track_sample_size t id) (λ size, Done (Some (mk_location offset size)))).
Definition track_read_sample (t : Mp4Track) (file : list Z) (id : Z) : io (option Mp4Sample) :=
  or_none (track_sample_offset t id) (λ offset,
  or_none (track_sample_size t id) (λ size,
  let& (buffer, _) := read_exact (Z.to_nat size) file offset in
  or_none (track_sample_time t id) (λ '(start, d),
  let& rendering_offset := track_rendering_offset t id in
  let& is_sync := is_sync_sample t id in
  Done (Some (mk_sample start d rendering_offset is_sync buffer))))).

Definition track_sample_count (t : Mp4Track) : Z :=
  if fragmented t then default 0 (last (traf_sample_counts t)) else stsz_sample_count (stsz (mt_table t)).

Definition track_description_index (t : Mp4Track) (id : Z) : io Z :=
  if (id =? 0) || (track_sample_count t <? id) then Fails (EntryInStblNotFound (mt_track_id t) StsdBoxType id)
  else
    let& index :=
      (if fragmented t then
         match find_traf_idx_and_sample_idx t id with
         | None => Fails (traf_not_found t)
         | Some (k, _) =>
             let& traf := traf_at t k in
             Done (default (mt_default_sample_description_index t) (sample_description_index (tfhd traf)))
         end
       else
         let& i := stsc_index (mt_table t) id in
         match stsc_entries (mt_table t) !! i with Some e => Done (stsc_description_index e) | None => Panics end) in
    if (index =? 0) || (stsd_count (mt_table t) <? index)
    then Fails (InvalidData "sample description index is out of range")
    else Done index.
