(* ===== verification/Mp4TrackInv.v ===== *)
(** * Every sample of a fragmented file is read back

    What the tables of a track say about the samples of its fragments, and the proof
    that reading sample [n] of the track returns the [n]-th sample of its fragments,
    in the order of the fragments. *)

From S2P Require Import Prelude Mp4Io Mp4Box Mp4BoxInv Fragmented FragmentedInv FragmentedRun Mp4Track.

(** ** Counting samples across fragments *)

Fixpoint cumulative (acc : Z) (ls : list (list Mp4Sample)) : list Z :=
  match ls with
  | [] => []
  | l :: ls => (acc + vec_len l) :: cumulative (acc + vec_len l) ls
  end.

Lemma locate (ls : list (list Mp4Sample)) n s :
  mjoin ls !! n = Some s →
  ∃ k i l, ls !! k = Some l ∧ l !! i = Some s ∧ n = (length (mjoin (take k ls)) + i)%nat.
Proof.
  revert n. induction ls as [|l ls IH]; intros n; cbn [mjoin list_join]; [done|].
  destruct (decide (n < length l)%nat).
  - rewrite lookup_app_l by done. intros H. by exists 0%nat, n, l.
  - rewrite lookup_app_r by lia. intros (k & i & l' & H1 & H2 & H3)%IH. exists (S k), i, l'.
    split; [done|]. split; [done|]. cbn [take mjoin list_join]. rewrite length_app. unfold mjoin in *. lia.
Qed.

Lemma cumulative_lookup acc ls k l :
  ls !! k = Some l →
  cumulative acc ls !! k = Some (acc + Z.of_nat (length (mjoin (take k ls))) + vec_len l).
Proof.
  revert acc ls. induction k as [|k IH]; intros acc [|l' ls]; try done; cbn [cumulative lookup list_lookup].
  - intros [= ->]. cbn. f_equal. lia.
  - intros H. rewrite (IH _ _ H). cbn [take mjoin list_join]. rewrite length_app. unfold vec_len, mjoin. f_equal. lia.
Qed.

Lemma cumulative_length acc ls : length (cumulative acc ls) = length ls.
Proof. revert acc. induction ls as [|l ls IH]; intros acc; [done|]. cbn. by rewrite IH. Qed.

Lemma cumulative_snoc acc ls l :
  cumulative acc (ls ++ [l]) = cumulative acc ls ++ [acc + Z.of_nat (length (mjoin ls)) + vec_len l].
Proof.
  revert acc. induction ls as [|x ls IH]; intros acc; cbn [app cumulative]; [cbn; do 2 f_equal; lia|].
  rewrite IH. cbn [mjoin list_join app]. rewrite length_app. unfold vec_len, mjoin. do 4 f_equal. lia.
Qed.

Lemma cumulative_last ls : default 0 (last (cumulative 0 ls)) = Z.of_nat (length (mjoin ls)).
Proof.
  destruct ls as [|x ls] using rev_ind; [done|]. rewrite cumulative_snoc, last_snoc. cbn [default from_option].
  rewrite join_app, length_app. cbn [mjoin list_join]. rewrite app_nil_r. unfold vec_len, mjoin. cbn. lia.
Qed.

Lemma position_at {A : Type} (P : A → bool) l k a :
  l !! k = Some a → P a = true → (∀ j b, (j < k)%nat → l !! j = Some b → P b = false) → position P l = Some k.
Proof.
  revert k. induction l as [|x l IH]; intros [|k] Hk Ha Hj; try done; cbn [position].
  - injection Hk as ->. by rewrite Ha.
  - rewrite (Hj 0%nat x) by (lia || done). rewrite (IH k Hk Ha); [done|]. intros j b Hlt. apply (Hj (S j) b). lia.
Qed.

Lemma take_join_mono (ls : list (list Mp4Sample)) j k l :
  (j < k)%nat → ls !! j = Some l → (length (mjoin (take j ls)) + length l ≤ length (mjoin (take k ls)))%nat.
Proof.
  revert j k. induction ls as [|x ls IH]; intros [|j] [|k] Hlt Hj; try done || lia; cbn [take mjoin list_join].
  - injection Hj as ->. rewrite length_app. cbn. lia.
  - rewrite !length_app. specialize (IH j k ltac:(lia) Hj). unfold mjoin in *. lia.
Qed.

(** The traf and the place in it of sample [id]. *)
Lemma find_traf_spec t ls k i l :
  traf_sample_counts t = cumulative 0 ls → ls !! k = Some l → (i < length l)%nat →
  find_traf_idx_and_sample_idx t (Z.of_nat (length (mjoin (take k ls)) + i) + 1) = Some (k, i).
Proof.
  intros Hc Hk Hi. unfold find_traf_idx_and_sample_idx. rewrite Hc.
  pose proof (cumulative_lookup 0 ls k l Hk) as Hl. pose proof (lookup_lt_Some _ _ _ Hk) as Hkl.
  set (id := Z.of_nat _ + 1).
  assert (position (λ a, negb (a <? id)) (cumulative 0 ls) = Some k) as Hp.
  { eapply position_at; [exact Hl| |].
    - apply negb_true_iff, Z.ltb_ge. unfold id, vec_len. lia.
    - intros j b Hj Hb. destruct (lookup_lt_is_Some_2 ls j ltac:(lia)) as [l' Hl'].
      rewrite (cumulative_lookup 0 ls j l' Hl') in Hb. injection Hb as <-. apply negb_false_iff, Z.ltb_lt.
      pose proof (take_join_mono ls j k l' Hj Hl'). unfold id, vec_len. lia. }
  unfold partition_point. rewrite Hp, cumulative_length.
  destruct (cumulative 0 ls) eqn:Ec; [by rewrite lookup_nil in Hl|]. rewrite <-Ec in *.
  destruct (id =? 0) eqn:E0; [unfold id in E0; reflect_bools; lia|]. cbn [orb].
  destruct (length ls <=? k)%nat eqn:El; [apply Nat.leb_le in El; lia|]. do 2 f_equal.
  destruct k as [|k]; [unfold id; rewrite take_0; cbn [mjoin list_join length]; lia|].
  destruct (lookup_lt_is_Some_2 ls k ltac:(lia)) as [l' Hl']. unfold get_or.
  rewrite (cumulative_lookup 0 ls k l' Hl'). cbn [default from_option]. unfold id.
  rewrite (take_S_r _ _ _ Hl'). rewrite join_app, length_app. cbn [mjoin list_join].
  rewrite app_nil_r. unfold vec_len, Datatypes.id. lia.
Qed.

(** ** What a track fragment says about its samples *)

Record run_holds (file : list Z) (base : Z) (r : TrunBox) (l : list Mp4Sample) : Prop := {
  rh_count : sample_count r = vec_len l;
  rh_durations : sample_durations r = map duration l;
  rh_sizes : sample_sizes r = map sample_size l;
  rh_sync : ∀ i s, l !! i = Some s →
    ∃ f, trun_sample_flags r !! i = Some f ∧ (Z.land f 0x00010000 =? 0) = is_sync s;
  rh_cts : ∀ i s, l !! i = Some s →
    match sample_cts r !! i with Some c => i32_of_u32 c | None => 0 end = rendering_offset s;
  rh_data : ∃ o, data_offset r = Some o ∧ 0 ≤ o ∧ 0 ≤ base ∧
    base + o + zsum sample_size l ≤ vec_len file ∧
    slice file (base + o) (zsum sample_size l) = mjoin (bytes <$> l)
}.

(** A sample ends within the clock. *)
Definition sample_ends (s : Mp4Sample) : Prop := start_time s + duration s ≤ u64_max.

Record traf_holds (file : list Z) (base : Z) (traf : TrafBox) (l : list Mp4Sample) : Prop := {
  th_ne : l ≠ [];
  th_ok : Forall sample_ok l;
  th_ends : Forall sample_ends l;
  th_contiguous : contiguous l;
  th_base : base_data_offset (tfhd traf) = None;
  th_flag : Z.land (tfhd_flags (tfhd traf)) FLAG_DEFAULT_BASE_IS_MOOF ≠ 0;
  th_start : ∃ b, tfdt traf = Some b ∧ ∀ s l', l = s :: l' → base_media_decode_time b = start_time s;
  th_run : ∃ r, trun traf = Some r ∧ run_holds file base r l
}.

Record track_holds (file : list Z) (t : Mp4Track) (ls : list (list Mp4Sample)) : Prop := {
  kh_counts : traf_sample_counts t = cumulative 0 ls;
  kh_trafs : length (mt_trafs t) = length ls;
  kh_bases : length (traf_base_offsets t) = length ls;
  kh_holds : ∀ k l, ls !! k = Some l → ∃ traf base, mt_trafs t !! k = Some traf ∧
    traf_base_offsets t !! k = Some base ∧ traf_holds file base traf l
}.

(** The start times the caches hold. *)
Definition times_hold (t : Mp4Track) (ls : list (list Mp4Sample)) : Prop :=
  ∀ k s l, ls !! k = Some (s :: l) → traf_start_times t !! k = Some (start_time s).

Lemma contiguous_start s l i s' :
  contiguous (s :: l) → (s :: l) !! i = Some s' →
  start_time s' = start_time s + zsum duration (take i (s :: l)).
Proof.
  revert s l. induction i as [|i IH]; intros s l Hc Hi; [injection Hi as ->; cbn; lia|].
  cbn [lookup list_lookup] in Hi. destruct l as [|y l]; [done|]. destruct Hc as [Hy Hc].
  rewrite (IH y l Hc Hi), Hy. change (take (S i) (s :: y :: l)) with (s :: take i (y :: l)). rewrite zsum_cons. lia.
Qed.

Lemma get_or_map {A : Type} (f : A → Z) l i a d : l !! i = Some a → get_or (map f l) i d = f a.
Proof. intros H. unfold get_or. by rewrite list_lookup_fmap, H. Qed.

Lemma take_plus_elem {A : Type} (f : A → Z) l i a :
  (∀ a, 0 ≤ f a) → l !! i = Some a → zsum f (take i l) + f a ≤ zsum f l.
Proof.
  intros Hf Hi. rewrite <-(take_drop i l) at 2. rewrite zsum_app, (drop_S _ _ _ Hi), zsum_cons.
  pose proof (zsum_nonneg f (drop (S i) l) Hf). lia.
Qed.

(** The loops that skip the samples before the one wanted. *)
Lemma zsum_Forall_nonneg {A : Type} (f : A → Z) l : Forall (λ a, 0 ≤ f a) l → 0 ≤ zsum f l.
Proof. induction 1 as [|a l Ha _ IH]; [done|]. rewrite zsum_cons. lia. Qed.

Lemma add_sizes_spec {A : Type} (f : A → Z) l d n i o :
  Forall (λ a, 0 ≤ f a) l → (i + n ≤ length l)%nat → o + zsum f (take n (drop i l)) ≤ u64_max →
  add_sizes n i (map f l) d o = Done (o + zsum f (take n (drop i l))).
Proof.
  intros Hf. revert i o. induction n as [|n IH]; intros i o Hl Hm; cbn [add_sizes].
  - rewrite take_0, zsum_nil. f_equal. lia.
  - destruct (lookup_lt_is_Some_2 l i ltac:(lia)) as [a Ha]. rewrite (get_or_map f l i a d Ha).
    revert Hm. rewrite (drop_S _ _ _ Ha). cbn [take]. rewrite zsum_cons. intros Hm.
    pose proof (zsum_Forall_nonneg f (take n (drop (S i) l)) ltac:(by apply Forall_take, Forall_drop)). unfold plus_u64.
    destruct (_ <=? _) eqn:E; reflect_bools; [|lia]. cbn [ibind]. rewrite IH by lia. f_equal. lia.
Qed.

Lemma sum_samples_spec l dd ds n i d t :
  (i + n = length l)%nat → Forall sample_ok l →
  d + zsum duration (drop i l) ≤ u64_max → t + zsum sample_size (drop i l) ≤ u64_max →
  sum_samples n i (map duration l) (map sample_size l) dd ds d t
  = Done (d + zsum duration (drop i l), t + zsum sample_size (drop i l)).
Proof.
  intros Hn Hok. revert i d t Hn. induction n as [|n IH]; intros i d t Hn Hd Ht; cbn [sum_samples].
  - rewrite drop_ge by lia. rewrite !zsum_nil. do 2 f_equal; lia.
  - destruct (lookup_lt_is_Some_2 l i ltac:(lia)) as [a Ha].
    rewrite (get_or_map duration l i a dd Ha), (get_or_map sample_size l i a ds Ha).
    revert Hd Ht. rewrite (drop_S _ _ _ Ha), !zsum_cons. intros Hd Ht.
    pose proof (zsum_Forall_nonneg duration (drop (S i) l)
      ltac:(apply Forall_drop; eapply Forall_impl; [exact Hok|]; intros s []; cbn; lia)).
    pose proof (zsum_nonneg sample_size (drop (S i) l) ltac:(intros; unfold sample_size, vec_len; lia)).
    unfold plus_u64. destruct (d + _ <=? _) eqn:E; reflect_bools; [|lia]. cbn [ibind].
    destruct (t + _ <=? _) eqn:E2; reflect_bools; [|lia]. cbn [ibind]. rewrite IH by lia. do 2 f_equal; lia.
Qed.

(** ** The bytes of one sample *)

Lemma slice_inner l a total x n :
  0 ≤ a → 0 ≤ x → 0 ≤ n → x + n ≤ total → slice l (a + x) n = slice (slice l a total) x n.
Proof.
  intros Ha Hx Hn Ht. apply list_eq. intros i. rewrite !slice_lookup. case_decide; [|done].
  rewrite decide_True by lia. f_equal. lia.
Qed.

Lemma slice_join (l : list Mp4Sample) i s :
  l !! i = Some s → slice (mjoin (bytes <$> l)) (zsum sample_size (take i l)) (sample_size s) = bytes s.
Proof.
  revert i. induction l as [|x l IH]; intros [|i] Hi; try done.
  - injection Hi as ->. cbn [take fmap list_fmap mjoin list_join]. rewrite zsum_nil. unfold slice, sample_size, vec_len.
    rewrite Nat2Z.id, drop_0. by rewrite take_app_length.
  - cbn [take fmap list_fmap mjoin list_join]. rewrite zsum_cons. rewrite <-(IH i Hi).
    assert (0 ≤ zsum sample_size (take i l)) by (apply zsum_nonneg; intros; unfold sample_size, vec_len; lia).
    unfold slice. f_equal. unfold sample_size at 1, vec_len.
    rewrite Z2Nat.inj_add, Nat2Z.id by lia. rewrite <-drop_drop, drop_app_length. done.
Qed.

Lemma read_exact_slice file o n :
  0 ≤ o → 0 ≤ n → o + n ≤ vec_len file → read_exact (Z.to_nat n) file o = Done (slice file o n, o + n).
Proof.
  intros Ho Hn Hl. unfold read_exact. rewrite Z2Nat.id by done. destruct (_ <=? _) eqn:E; reflect_bools; [done|lia].
Qed.

Section read.
Context (file : list Z) (t : Mp4Track) (ls : list (list Mp4Sample)).
Context (Hlen : vec_len file ≤ i64_max) (Hh : track_holds file t ls) (Ht : times_hold t ls).
Context (k i : nat) (l : list Mp4Sample) (s : Mp4Sample) (Hk : ls !! k = Some l) (Hi : l !! i = Some s).

Let id : Z := Z.of_nat (length (mjoin (take k ls)) + i) + 1.

Lemma found : find_traf_idx_and_sample_idx t id = Some (k, i).
Proof. apply (find_traf_spec t ls k i l); [apply Hh|exact Hk|by eapply lookup_lt_Some]. Qed.

Lemma is_fragmented : fragmented t = true.
Proof.
  unfold fragmented. pose proof (kh_trafs _ _ _ Hh) as E. pose proof (lookup_lt_Some _ _ _ Hk).
  destruct (mt_trafs t); [cbn in E; lia|done].
Qed.

Lemma the_traf : ∃ traf base r, mt_trafs t !! k = Some traf ∧ traf_base_offsets t !! k = Some base ∧
  traf_holds file base traf l ∧ trun traf = Some r ∧ run_holds file base r l.
Proof.
  destruct (kh_holds _ _ _ Hh k l Hk) as (traf & base & H1 & H2 & H3).
  destruct (th_run _ _ _ _ H3) as (r & H4 & H5). by exists traf, base, r.
Qed.

Lemma sizes_ok : Forall (λ a, 0 ≤ sample_size a) l.
Proof. apply Forall_true. intros. unfold sample_size, vec_len. lia. Qed.

Lemma size_read : track_sample_size t id = Done (sample_size s).
Proof.
  unfold track_sample_size. rewrite is_fragmented, found.
  destruct the_traf as (traf & base & r & H1 & H2 & H3 & H4 & []). unfold traf_at. rewrite H1. cbn [ibind].
  rewrite H4, rh_sizes0, list_lookup_fmap, Hi. done.
Qed.

Lemma offset_read : ∃ o, track_sample_offset t id = Done o ∧ 0 ≤ o ∧ o + sample_size s ≤ vec_len file ∧
  slice file o (sample_size s) = bytes s.
Proof.
  destruct the_traf as (traf & base & r & H1 & H2 & H3 & H4 & []). destruct rh_data0 as (o & Ho & Ho0 & Hb0 & Hfit & Hs).
  pose proof (take_plus_elem sample_size l i s ltac:(intros; unfold sample_size, vec_len; lia) Hi) as Hp.
  assert (0 ≤ zsum sample_size (take i l)) by (apply zsum_nonneg; intros; unfold sample_size, vec_len; lia).
  assert (0 ≤ sample_size s) by (unfold sample_size, vec_len; lia).
  exists (base + o + zsum sample_size (take i l)). split; [|split; [lia|split; [lia|]]].
  - unfold track_sample_offset. rewrite is_fragmented, found. unfold traf_at. rewrite H1. cbn [ibind].
    rewrite H2, H4, Ho. cbn [default from_option]. unfold shift_offset, as_i64. change (Datatypes.id o) with o.
    unfold i64_max in Hlen. destruct (base <? 2 ^ 63) eqn:E1; reflect_bools; [|lia].
    destruct ((i64_min <=? base + o) && (base + o <=? i64_max)) eqn:E2.
    2: { apply andb_false_iff in E2 as [E2|E2]; reflect_bools; unfold i64_min, i64_max in *; lia. }
    cbn [ibind]. rewrite Z.mod_small by lia. rewrite rh_sizes0, add_sizes_spec.
    + by rewrite drop_0.
    + apply sizes_ok.
    + apply lookup_lt_Some in Hi. lia.
    + rewrite drop_0. unfold u64_max. lia.
  - rewrite (slice_inner file (base + o) (zsum sample_size l)) by lia. rewrite Hs. by apply slice_join.
Qed.

Lemma time_read : track_sample_time t id = Done (start_time s, duration s).
Proof.
  unfold track_sample_time. rewrite is_fragmented, found.
  destruct the_traf as (traf & base & r & H1 & H2 & [] & H4 & []). unfold traf_at. rewrite H1. cbn [ibind].
  destruct l as [|x xs] eqn:El; [done|]. rewrite (Ht k x xs) by done. rewrite H4.
  assert (start_time s = start_time x + zsum duration (take i (x :: xs))) as Hst by (by apply contiguous_start).
  assert (sample_ok s) as [] by (eapply Forall_lookup_1; eauto).
  rewrite rh_durations0, add_sizes_spec.
  - cbn [ibind]. rewrite drop_0, <-Hst. by rewrite (get_or_map _ _ _ _ _ Hi).
  - eapply Forall_impl; [exact th_ok0|]. intros a []. cbn. lia.
  - apply lookup_lt_Some in Hi. lia.
  - rewrite drop_0, <-Hst. lia.
Qed.

Lemma cts_read : track_rendering_offset t id = Done (rendering_offset s).
Proof.
  unfold track_rendering_offset. rewrite is_fragmented, found.
  destruct the_traf as (traf & base & r & H1 & H2 & _ & H4 & []). unfold traf_at. rewrite H1. cbn [ibind]. rewrite H4.
  specialize (rh_cts0 i s Hi). destruct (sample_cts r !! i); by rewrite rh_cts0 || rewrite <-rh_cts0.
Qed.

Lemma sync_read : is_sync_sample t id = Done (is_sync s).
Proof.
  unfold is_sync_sample. rewrite is_fragmented, found.
  destruct the_traf as (traf & base & r & H1 & H2 & _ & H4 & []). unfold traf_at. rewrite H1. cbn [ibind]. rewrite H4.
  destruct (rh_sync0 i s Hi) as (f & -> & ->). done.
Qed.

Lemma sample_read : track_read_sample t file id = Done (Some s).
Proof.
  unfold track_read_sample. destruct offset_read as (o & -> & H1 & H2 & H3). cbn [or_none]. rewrite size_read. cbn [or_none].
  rewrite read_exact_slice by (try done; unfold sample_size, vec_len; lia). cbn [ibind]. rewrite time_read. cbn [or_none].
  rewrite cts_read. cbn [ibind]. rewrite sync_read. cbn [ibind]. rewrite H3. by destruct s.
Qed.
End read.
