(* ===== verification/Mp4ReadBack.v ===== *)
(** * From the writer's file to the reader's samples

    The fragments of a session ([FragmentedRun]) seen by the reader of the crate
    ([Mp4Track]): every sample that was flushed is read back, in order, from the file
    the writer left behind. *)

From S2P Require Import Prelude Mp4Io Mp4Box Mp4BoxInv Mp4Moof Fragmented FragmentedInv FragmentedRun Mp4Track Mp4TrackInv.

(** A sample as the file keeps it: only a video track marks samples as non-sync. *)
Definition as_read (ty : TrackType) (s : Mp4Sample) : Mp4Sample :=
  mk_sample (start_time s) (duration s) (rendering_offset s)
    (if bool_decide (ty = VideoTrack) then is_sync s else true) (bytes s).
Definition read_back (t : FragmentTrack) : list Mp4Sample := map (as_read (track_type t)) (samples t).

Lemma read_back_ok t : Forall sample_ok (samples t) → Forall sample_ok (read_back t).
Proof. intros H. apply Forall_map. eapply Forall_impl; [exact H|]. intros s []. by constructor. Qed.

Lemma read_back_contiguous t : contiguous (samples t) → contiguous (read_back t).
Proof.
  unfold read_back. induction (samples t) as [|s l IH]; [done|]. cbn [map contiguous]. intros [H1 H2].
  split; [by destruct l|by apply IH].
Qed.

Lemma zsum_read_back f t :
  (∀ s, f (as_read (track_type t) s) = f s) → zsum f (read_back t) = zsum f (samples t).
Proof. intros H. unfold read_back. rewrite zsum_map. apply zsum_ext. intros. apply H. Qed.

Lemma read_back_sizes t : zsum sample_size (read_back t) = payload_size t.
Proof. by apply zsum_read_back. Qed.

Lemma read_back_bytes t : mjoin (bytes <$> read_back t) = track_payload t.
Proof. unfold read_back, track_payload. by rewrite <-list_fmap_compose. Qed.

Lemma map_lookup {A B : Type} (f : A → B) l i : map f l !! i = f <$> l !! i.
Proof. apply list_lookup_fmap. Qed.

(** ** One track of a fragment *)

Lemma run_spec_holds file base o t :
  pending_ok t → 0 ≤ o → 0 ≤ base → base + o + payload_size t ≤ vec_len file →
  slice file (base + o) (payload_size t) = track_payload t →
  run_holds file base (trun_spec o t) (read_back t).
Proof.
  intros [[j []] Hne] Ho Hb Hfit Hs. unfold trun_spec, read_back. constructor; cbn [sample_count sample_durations sample_sizes trun_sample_flags sample_cts data_offset].
  - unfold vec_len. by rewrite length_map.
  - by rewrite map_map.
  - by rewrite map_map.
  - intros i s Hi. rewrite map_lookup in Hi. destruct (samples t !! i) as [x|] eqn:Ex; [|done].
    injection Hi as <-. eexists. split; [by rewrite map_lookup, Ex|]. unfold sample_flags. cbn.
    case_bool_decide; cbn; [by destruct (is_sync x)|done].
  - intros i s Hi. rewrite map_lookup in Hi. destruct (samples t !! i) as [x|] eqn:Ex; [|done].
    injection Hi as <-. assert (sample_ok x) as [_ _ Hx _] by (eapply Forall_lookup_1; eauto).
    destruct (has_cts t) eqn:Ec; [rewrite map_lookup, Ex; cbn; by apply i32_roundtrip|]. rewrite lookup_nil. cbn.
    destruct (rendering_offset x =? 0) eqn:E0; reflect_bools; [done|].
    assert (has_cts t = true); [|congruence]. unfold has_cts. apply existsb_exists. exists x.
    split; [by apply list_elem_of_In; eapply list_elem_of_lookup_2|]. by apply negb_true_iff, Z.eqb_neq.
  - exists o. rewrite <-read_back_sizes in Hfit, Hs. unfold read_back in *. repeat split; try done.
    rewrite Hs, <-read_back_bytes. done.
Qed.

Definition track_ends (t : FragmentTrack) : Prop := Forall sample_ends (samples t).

Lemma traf_spec_holds file base o t :
  pending_ok t → track_ends t → 0 ≤ o → 0 ≤ base → base + o + payload_size t ≤ vec_len file →
  slice file (base + o) (payload_size t) = track_payload t →
  traf_holds file base (traf_spec o t) (read_back t).
Proof.
  intros Ht Hends Ho Hb Hfit Hs. pose proof Ht as [[j Hok] Hne]. constructor.
  - unfold read_back. by destruct (samples t).
  - by apply read_back_ok, Hok.
  - apply Forall_map. exact Hends.
  - by apply read_back_contiguous, Hok.
  - done.
  - cbn. by destruct (1 <? sample_description_count t).
  - eexists. split; [done|]. unfold read_back, first_of. cbn. intros s l E. destruct (samples t); [done|].
    by injection E as <- _.
  - eexists. split; [done|]. by apply run_spec_holds.
Qed.

Definition holds_track (file : list Z) (base : Z) (traf : TrafBox) (t : FragmentTrack) : Prop :=
  tfhd_track_id (tfhd traf) = track_id t ∧ traf_holds file base traf (read_back t).

(** The payloads of the tracks follow one another. *)
Lemma trafs_at_hold file base o l :
  Forall pending_ok l → Forall track_ends l → 0 ≤ o → 0 ≤ base → base + o + zsum payload_size l ≤ vec_len file →
  slice file (base + o) (zsum payload_size l) = fragment_payload l →
  Forall2 (holds_track file base) (trafs_at o l) l.
Proof.
  intros Hl. revert o. induction Hl as [|t l Ht Hl IH]; intros o Hends Ho Hb Hfit Hs; cbn [trafs_at]; [constructor|].
  apply Forall_cons in Hends as [Hend Hends].
  rewrite zsum_cons in *. pose proof (payload_size_nonneg t). pose proof (payloads_nonneg l).
  cbn [fragment_payload fmap list_fmap mjoin list_join] in Hs.
  assert (vec_len (track_payload t) = payload_size t) as Hlen by (unfold track_payload; by rewrite vec_len_mjoin).
  constructor.
  - split; [done|]. apply traf_spec_holds; try done; [lia|].
    rewrite <-(Z.add_0_r (base + o)).
    rewrite (slice_inner file (base + o) (payload_size t + zsum payload_size l)) by lia. rewrite Hs.
    unfold slice. rewrite drop_0, <-Hlen. unfold vec_len. rewrite Nat2Z.id. by rewrite take_app_length.
  - apply IH; [done|lia|done|lia|].
    replace (base + (o + payload_size t)) with (base + o + payload_size t) by lia.
    rewrite (slice_inner file (base + o) (payload_size t + zsum payload_size l)) by lia. rewrite Hs.
    unfold slice. rewrite <-Hlen. unfold vec_len. rewrite Nat2Z.id, drop_app_length.
    apply take_ge. pose proof (payload_length l) as Hpl. unfold vec_len in Hpl. fold (fragment_payload l). lia.
Qed.

Lemma slice_fits l o n : 0 < vec_len (slice l o n) → 0 ≤ o → vec_len (slice l o n) = n → o + n ≤ vec_len l.
Proof. unfold slice, vec_len. rewrite length_take, length_drop. lia. Qed.

Lemma fragment_bytes_pos sequence l :
  moof_wf (fragment_moof sequence l) → 0 < vec_len (fragment_bytes sequence l).
Proof.
  intros H. unfold fragment_bytes. rewrite !vec_len_app, header_bytes_length, payload_length.
  pose proof (payloads_nonneg l). unfold HEADER_SIZE, vec_len. lia.
Qed.

Lemma entry_fits file info l : entry_ok file info l → range_end info ≤ vec_len file.
Proof.
  intros [Epend Ene Ewf Eoffs Eoff Esize Ekey Ebytes]. unfold range_end. apply slice_fits; rewrite ?Ebytes; try done.
Qed.

(** The bytes of a track's first sample are the first bytes of its payload. *)
Lemma first_bytes file o t :
  pending_ok t → 0 ≤ o → slice file o (payload_size t) = track_payload t →
  slice file o (sample_size (first_of t)) = bytes (first_of t).
Proof.
  intros [_ Hne] Ho Hs. unfold first_of, payload_size, track_payload in *. destruct (samples t) as [|s l] eqn:E; [done|].
  rewrite zsum_cons in Hs. pose proof (zsum_nonneg sample_size l ltac:(intros; unfold sample_size, vec_len; lia)).
  rewrite <-(Z.add_0_r o), (slice_inner file o (sample_size s + zsum sample_size l)) by (try done; unfold sample_size, vec_len in *; lia).
  rewrite Hs. cbn [fmap list_fmap mjoin list_join]. unfold slice, sample_size, vec_len. by rewrite Nat2Z.id, drop_0, take_app_length.
Qed.

Lemma keyframe_at_bytes file base o l loc :
  Forall pending_ok l → 0 ≤ o → 0 ≤ base →
  slice file (base + o) (zsum payload_size l) = fragment_payload l → keyframe_at base o l = Some loc →
  ∃ t, t ∈ l ∧ track_type t = VideoTrack ∧ is_sync (first_of t) = true ∧
    slice file (loc_offset loc) (loc_size loc) = bytes (first_of t).
Proof.
  intros Hl. revert o. induction Hl as [|t l Ht Hl IH]; intros o Ho Hb Hs; cbn [keyframe_at]; [done|].
  rewrite zsum_cons in Hs. pose proof (payload_size_nonneg t). pose proof (payloads_nonneg l).
  cbn [fragment_payload fmap list_fmap mjoin list_join] in Hs.
  assert (vec_len (track_payload t) = payload_size t) as Hlen by (unfold track_payload; by rewrite vec_len_mjoin).
  case_bool_decide as Hv.
  - intros [= <-]. cbn. exists t. split; [apply list_elem_of_here|]. split; [done|]. split.
    + pose proof Ht as [[j Hok] Hne]. unfold first_of. destruct (samples t) eqn:E; [done|]. by eapply (to_sync _ _ Hok Hv).
    + apply first_bytes; [done|lia|]. rewrite <-(Z.add_0_r (base + o)).
      rewrite (slice_inner file (base + o) (payload_size t + zsum payload_size l)) by lia. rewrite Hs.
      unfold slice. rewrite drop_0, <-Hlen. unfold vec_len. by rewrite Nat2Z.id, take_app_length.
  - intros E. destruct (IH (o + payload_size t)) as (t' & Ht' & Hrest); [lia|done| |done|].
    + replace (base + (o + payload_size t)) with (base + o + payload_size t) by lia.
      rewrite (slice_inner file (base + o) (payload_size t + zsum payload_size l)) by lia. rewrite Hs.
      unfold slice. rewrite <-Hlen. unfold vec_len. rewrite Nat2Z.id, drop_app_length.
      apply take_ge. pose proof (payload_length l) as Hpl. unfold vec_len in Hpl. fold (fragment_payload l). lia.
    + exists t'. split; [by apply list_elem_of_further|done].
Qed.

(** The payload of a returned fragment. *)
Lemma entry_payload file info l :
  entry_ok file info l →
  0 ≤ fragment_base l ∧ range_offset (info_range info) + fragment_base l + zsum payload_size l ≤ vec_len file ∧
  slice file (range_offset (info_range info) + fragment_base l) (zsum payload_size l) = fragment_payload l.
Proof.
  intros He. pose proof (entry_fits _ _ _ He) as Hfit. destruct He as [Epend Ene Ewf Eoffs Eoff Esize Ekey Ebytes].
  pose proof (fragment_bytes_length _ _ Ewf) as Hlen. pose proof (payloads_nonneg l) as Hp.
  assert (0 ≤ fragment_base l) as Hb.
  { rewrite <-(fragment_moof_size (info_sequence info)). rewrite <-moof_bytes_length by done. unfold HEADER_SIZE, vec_len. lia. }
  unfold range_end in Hfit. rewrite Esize, Hlen in *. split; [done|]. split; [lia|].
  rewrite (slice_inner file _ (fragment_base l + zsum payload_size l)) by lia. rewrite Ebytes.
  unfold fragment_bytes. rewrite app_assoc. unfold slice.
  assert (vec_len (moof_bytes (fragment_moof (info_sequence info) l)
     ++ header_bytes MdatBoxType (HEADER_SIZE + zsum payload_size l)) = fragment_base l) as Hpre.
  { rewrite vec_len_app, header_bytes_length, moof_bytes_length by done. apply fragment_moof_size. }
  rewrite <-Hpre at 1. unfold vec_len at 1. rewrite Nat2Z.id, drop_app_length.
  apply take_ge. pose proof (payload_length l) as Hpl. unfold vec_len in Hpl. lia.
Qed.

(** A returned fragment, seen by the reader. *)
Lemma entry_holds file info l :
  entry_ok file info l → Forall track_ends l →
  Forall2 (holds_track file (range_offset (info_range info))) (trafs (fragment_moof (info_sequence info) l)) l.
Proof.
  intros He Hends. destruct (entry_payload _ _ _ He) as (Hb & Hfit & Hs). destruct He.
  cbn [fragment_moof trafs]. by apply trafs_at_hold.
Qed.

(** The keyframe a flush reports is the first sample of a video track, at that place. *)
Lemma entry_keyframe file info l loc :
  entry_ok file info l → video_keyframe info = Some loc →
  ∃ t, t ∈ l ∧ track_type t = VideoTrack ∧ is_sync (first_of t) = true ∧
    slice file (loc_offset loc) (loc_size loc) = bytes (first_of t).
Proof.
  intros He Hk. destruct (entry_payload _ _ _ He) as (Hb & Hfit & Hs). pose proof He as [Hp _ _ _ Ho _ Ek _].
  eapply (keyframe_at_bytes file (range_offset (info_range info)) (fragment_base l)); try done. by rewrite <-Ek.
Qed.

Lemma entry_reads file info l :
  entry_ok file info l → vec_len file ≤ u64_max →
  read_moof_box file (range_offset (info_range info))
  = Done (fragment_moof (info_sequence info) l,
          range_offset (info_range info) + moof_size (fragment_moof (info_sequence info) l)).
Proof.
  intros He Hu. pose proof (entry_fits _ _ _ He) as Hfit. destruct He as [Epend Ene Ewf Eoffs Eoff Esize Ekey Ebytes].
  destruct (slice_split _ _ _ _ Ebytes Eoff (eq_sym Esize)) as (pre & post & -> & Hpre).
  rewrite <-Hpre.
  2: { pose proof (fragment_bytes_pos _ _ Ewf). intros E. rewrite E in *. done. }
  unfold fragment_bytes. rewrite <-!app_assoc, reads_moof_box; [|done|].
  - do 2 f_equal. by rewrite vec_len_app, moof_bytes_length.
  - revert Hu. unfold fragment_bytes. rewrite !vec_len_app, moof_bytes_length by done. unfold vec_len. lia.
Qed.

(** ** The tables the reader builds *)

(** The runs of track [id] in one fragment, and in all fragments of a log. *)
Definition fragment_runs (id : Z) (l : list FragmentTrack) : list (list Mp4Sample) :=
  map read_back (filter (λ t, track_id t = id) l).
Definition log_runs (id : Z) (log : fragment_log) : list (list Mp4Sample) :=
  mjoin ((λ e, fragment_runs id (snd e)) <$> log).
(** The samples of track [id] that were flushed, in order. *)
Definition log_samples (id : Z) (log : fragment_log) : list Mp4Sample := mjoin (log_runs id log).

Lemma track_add_holds file base traf t l ls :
  track_holds file t ls → traf_holds file base traf l →
  Z.of_nat (length (mjoin (ls ++ [l]))) ≤ u32_max →
  ∃ t', track_add base traf t = Done t' ∧ track_holds file t' (ls ++ [l]) ∧
    traf_start_times t' = traf_start_times t ∧ mt_track_id t' = mt_track_id t.
Proof.
  intros [Hc Ht Hb Hh] Htr Hmax. pose proof Htr as [Hne _ _ _ Hbase Hflag _ (r & Hr & Hrun)].
  rewrite join_app, length_app in Hmax. cbn [mjoin list_join] in Hmax. rewrite app_nil_r in Hmax.
  unfold track_add. rewrite Hr, (rh_count _ _ _ _ Hrun), Hbase, Hc, cumulative_last.
  assert (0 < vec_len l) by (unfold vec_len; destruct l; [done|]; cbn [length]; lia).
  destruct (0 <? vec_len l) eqn:E; reflect_bools; [|lia]. unfold checked_add.
  destruct (_ <=? u32_max) eqn:E2; reflect_bools; [|unfold vec_len in *; lia]. cbn [ok_or ibind].
  destruct (Z.land _ _ =? 0) eqn:E3; reflect_bools; [done|]. cbn [negb]. eexists. split; [done|].
  split; [|done]. constructor; cbn.
  - rewrite cumulative_snoc. done.
  - rewrite !length_app. cbn. lia.
  - rewrite !length_app. cbn. lia.
  - intros k l' Hk. destruct (decide (k < length ls)%nat).
    + rewrite lookup_app_l in Hk by done. rewrite !lookup_app_l by lia. by apply Hh.
    + rewrite lookup_app_r in Hk by lia. rewrite !lookup_app_r by lia. rewrite Ht, Hb.
      destruct (k - length ls)%nat as [|j]; [|by destruct j]. injection Hk as <-. by exists traf, base.
Qed.

(** What the map of tracks holds, for the runs each track has so far. *)
Definition tracks_hold (file : list Z) (m : gmap Z Mp4Track) (runs : Z → list (list Mp4Sample)) : Prop :=
  ∀ id t, m !! id = Some t → track_holds file t (runs id) ∧ traf_start_times t = [].

Definition small (ls : list (list Mp4Sample)) : Prop := Z.of_nat (length (mjoin ls)) ≤ u32_max.

Lemma small_app a b : small (a ++ b) → small a.
Proof. unfold small. rewrite join_app, length_app. lia. Qed.

Lemma tracks_hold_ext file m f g : (∀ id, f id = g id) → tracks_hold file m f → tracks_hold file m g.
Proof. intros H Hm id t Ht. rewrite <-H. by apply Hm. Qed.

Lemma filter_cons_id id t l :
  fragment_runs id (t :: l) = (if decide (track_id t = id) then [read_back t] else []) ++ fragment_runs id l.
Proof. unfold fragment_runs. rewrite filter_cons. by case_decide. Qed.

Lemma add_trafs_holds file base trs l m runs :
  Forall2 (holds_track file base) trs l → tracks_hold file m runs →
  (∀ t, t ∈ l → is_Some (m !! track_id t)) → (∀ id, small (runs id ++ fragment_runs id l)) →
  ∃ m', add_trafs base trs m = Done m' ∧ dom m' = dom m ∧
    tracks_hold file m' (λ id, runs id ++ fragment_runs id l).
Proof.
  intros Hf. revert m runs. induction Hf as [|traf t trs l [Hid Htr] Hf IH]; intros m runs Hm Hin Hs; cbn [add_trafs].
  - exists m. split; [done|]. split; [done|]. eapply tracks_hold_ext; [|exact Hm]. intros. by rewrite app_nil_r.
  - rewrite Hid. destruct (Hin t (list_elem_of_here _ _)) as [mt Hmt]. rewrite Hmt.
    destruct (Hm _ _ Hmt) as [Hh Htimes].
    assert (small (runs (track_id t) ++ [read_back t])) as Hsm.
    { apply (small_app _ (fragment_runs (track_id t) l)). rewrite <-app_assoc. specialize (Hs (track_id t)).
      rewrite filter_cons_id, decide_True in Hs by done. exact Hs. }
    destruct (track_add_holds file base traf mt (read_back t) _ Hh Htr Hsm) as (mt' & -> & Hh' & Htimes' & _). cbn [ibind].
    destruct (IH (<[track_id t := mt']> m)
                (λ id, runs id ++ (if decide (track_id t = id) then [read_back t] else []))) as (m' & E & Hd & Hm').
    + intros id u Hu. destruct (decide (track_id t = id)) as [<-|Hne].
      * rewrite lookup_insert_eq in Hu. injection Hu as <-. split; [done|congruence].
      * rewrite lookup_insert_ne in Hu by done. rewrite app_nil_r. by apply Hm.
    + intros u Hu. apply lookup_insert_is_Some'. right. apply Hin. by apply list_elem_of_further.
    + intros id. specialize (Hs id). by rewrite filter_cons_id, app_assoc in Hs.
    + exists m'. split; [exact E|]. split.
      * rewrite Hd, dom_insert_L. assert (track_id t ∈ dom m) by (by eapply elem_of_dom_2). set_solver.
      * eapply tracks_hold_ext; [|exact Hm']. intros id. by rewrite filter_cons_id, <-app_assoc.
Qed.

(** The fragments of a log, as the reader finds them. *)
Definition log_moofs (log : fragment_log) : list (MoofBox * Z) :=
  (λ e, (fragment_moof (info_sequence (fst e)) (snd e), range_offset (info_range (fst e)))) <$> log.

Lemma add_moofs_holds file log m runs :
  Forall (λ e, entry_ok file (fst e) (snd e) ∧ Forall track_ends (snd e)) log → tracks_hold file m runs →
  (∀ e t, e ∈ log → t ∈ snd e → is_Some (m !! track_id t)) →
  (∀ id, small (runs id ++ log_runs id log)) →
  ∃ m', add_moofs (log_moofs log) m = Done m' ∧ dom m' = dom m ∧
    tracks_hold file m' (λ id, runs id ++ log_runs id log).
Proof.
  intros Hlog. revert m runs. induction Hlog as [|e log [He Hends] Hlog IH]; intros m runs Hm Hin Hs.
  - exists m. split; [done|]. split; [done|]. eapply tracks_hold_ext; [|exact Hm]. intros. by rewrite app_nil_r.
  - change (log_moofs (e :: log)) with ((fragment_moof (info_sequence (fst e)) (snd e), range_offset (info_range (fst e))) :: log_moofs log).
    cbn [add_moofs].
    assert (∀ id, log_runs id (e :: log) = fragment_runs id (snd e) ++ log_runs id log) as Hcons by done.
    destruct (add_trafs_holds file _ _ _ m runs (entry_holds _ _ _ He Hends) Hm) as (m1 & -> & Hd1 & Hm1).
    + intros t Ht. eapply Hin; [apply list_elem_of_here|done].
    + intros id. apply (small_app _ (log_runs id log)). rewrite <-app_assoc, <-Hcons. apply Hs.
    + cbn [ibind]. destruct (IH m1 _ Hm1) as (m' & E & Hd & Hm').
      * intros e' t He' Ht. apply elem_of_dom. rewrite Hd1. apply elem_of_dom. eapply Hin; [|exact Ht]. by apply list_elem_of_further.
      * intros id. rewrite <-app_assoc, <-Hcons. apply Hs.
      * exists m'. split; [exact E|]. split; [congruence|]. eapply tracks_hold_ext; [|exact Hm'].
        intros id. by rewrite Hcons, app_assoc.
Qed.

Lemma contiguous_end s l :
  contiguous (s :: l) → Forall sample_ends (s :: l) → start_time s + zsum duration (s :: l) ≤ u64_max.
Proof.
  revert s. induction l as [|y l IH]; intros s Hc Hok; apply Forall_cons in Hok as [Hs Hok]; unfold sample_ends in Hs; rewrite zsum_cons.
  - rewrite zsum_nil. lia.
  - destruct Hc as [Hy Hc]. specialize (IH y Hc Hok). rewrite Hy in IH. lia.
Qed.

Definition first_start (l : list Mp4Sample) : Z := match l with s :: _ => start_time s | [] => 0 end.

Lemma precompute_spec file dd ds trs ls times running total :
  Forall2 (λ traf l, ∃ base, traf_holds file base traf l) trs ls →
  total + zsum (zsum sample_size) ls ≤ u64_max →
  ∃ r u, precompute_trafs dd ds trs times running total = Done (times ++ map first_start ls, r, u).
Proof.
  intros Hf. revert times running total.
  induction Hf as [|traf l trs ls [base [Hne Hok Hends Hc _ _ (b & Hb & Hst) (r & Hr & Hrun)]] Hf IH]; intros times running total Hm; cbn [precompute_trafs].
  - rewrite app_nil_r. eauto.
  - destruct l as [|s l]; [done|]. rewrite Hb, Hr, (rh_count _ _ _ _ Hrun), (rh_durations _ _ _ _ Hrun), (rh_sizes _ _ _ _ Hrun).
    rewrite zsum_cons in Hm.
    assert (0 ≤ zsum (zsum sample_size) ls) by (apply zsum_nonneg; intros; apply zsum_nonneg; intros; unfold sample_size, vec_len; lia).
    pose proof (contiguous_end s l Hc Hends) as Hend. pose proof Hok as [[Hs0 _ _ _] _]%Forall_cons.
    unfold vec_len. rewrite Nat2Z.id, sum_samples_spec; rewrite ?drop_0; try done || lia.
    cbn [ibind]. rewrite (Hst s l eq_refl), Z.add_0_l. unfold plus_u64.
    destruct (_ <=? _) eqn:E; reflect_bools; [|lia]. cbn [ibind].
    destruct (IH (times ++ [start_time s]) (start_time s + zsum duration (s :: l)) (total + zsum sample_size (s :: l)))
      as (x & u & ->); [lia|]. exists x, u. by rewrite <-app_assoc.
Qed.

Lemma track_holds_trex file trexs t ls : track_holds file t ls → track_holds file (apply_trex trexs t) ls.
Proof. intros []. unfold apply_trex. destruct (find _ _); by constructor. Qed.

Lemma holds_zip file t ls :
  track_holds file t ls → Forall2 (λ traf l, ∃ base, traf_holds file base traf l) (mt_trafs t) ls.
Proof.
  intros [_ Ht _ Hh]. apply Forall2_same_length_lookup. split; [done|]. intros k traf l Hk Hl.
  destruct (Hh k l Hl) as (traf' & base & H1 & _ & H3). simplify_eq. by exists base.
Qed.

Lemma precompute_holds file t ls :
  track_holds file t ls → traf_start_times t = [] → zsum (zsum sample_size) ls ≤ u64_max →
  ∃ t', precompute_fragmented_caches t = Done t' ∧ track_holds file t' ls ∧ times_hold t' ls.
Proof.
  intros Hh Htimes Hs. unfold precompute_fragmented_caches. rewrite Htimes.
  destruct (precompute_spec file (mt_default_sample_duration t) (mt_default_sample_size t) (mt_trafs t) ls [] 0 0
    (holds_zip _ _ _ Hh) ltac:(lia)) as (r & u & ->). cbn [ibind app]. eexists. split; [done|].
  split; [destruct Hh; by constructor|]. intros k s l Hk. cbn. rewrite map_lookup, Hk. done.
Qed.

(** ** The size of what was flushed *)

Lemma runs_size id l : zsum (zsum sample_size) (fragment_runs id l) ≤ zsum payload_size l.
Proof.
  unfold fragment_runs. rewrite zsum_map.
  rewrite (zsum_ext _ payload_size) by (intros; apply read_back_sizes).
  apply zsum_sub_le; [apply payload_size_nonneg|]. apply sublist_filter.
Qed.

Definition info_size (e : Mp4FragmentInfo * list FragmentTrack) : Z := range_size (info_range (fst e)).

Lemma sorted_sizes log a b :
  StronglySorted entry_lt log → a ≤ b →
  Forall (λ e, a ≤ range_offset (info_range (fst e)) ∧ 0 ≤ info_size e ∧ range_end (fst e) ≤ b) log →
  zsum info_size log ≤ b - a.
Proof.
  intros Hs. revert a. induction Hs as [|e log Hs IH He]; intros a Hab Hf; [rewrite zsum_nil; lia|].
  apply Forall_cons in Hf as [(H1 & H2 & H3) Hf]. rewrite zsum_cons.
  assert (zsum info_size log ≤ b - range_end (fst e)); [|unfold range_end, info_size in *; lia].
  apply IH; [done|]. apply Forall_forall. intros x Hx. rewrite Forall_forall in He, Hf.
  destruct (He x Hx) as [Hlt _]. destruct (Hf x Hx) as (_ & H5 & H6). auto.
Qed.

Lemma log_sizes file id log :
  Forall (λ e, entry_ok file (fst e) (snd e)) log →
  zsum (zsum sample_size) (log_runs id log) ≤ zsum info_size log.
Proof.
  induction 1 as [|e log He Hl IH]; [done|].
  change (log_runs id (e :: log)) with (fragment_runs id (snd e) ++ log_runs id log). rewrite zsum_app, zsum_cons.
  pose proof (runs_size id (snd e)). unfold info_size at 1. rewrite (eo_size _ _ _ He).
  rewrite fragment_bytes_length by apply He.
  assert (0 ≤ fragment_base (snd e)); [|lia].
  rewrite <-(fragment_moof_size (info_sequence (fst e))), <-moof_bytes_length by apply He. unfold HEADER_SIZE, vec_len. lia.
Qed.

(** ** The session and the reader *)

(** The reader's look at every fragment: [moof] boxes at the given offsets. *)
Fixpoint read_moofs (file : list Z) (offsets : list Z) : io (list (MoofBox * Z)) :=
  match offsets with
  | [] => Done []
  | o :: offsets =>
      let& (moof, _) := read_moof_box file o in
      let& rest := read_moofs file offsets in
      Done ((moof, o) :: rest)
  end.
Definition log_offsets (log : fragment_log) : list Z := (λ e, range_offset (info_range (fst e))) <$> log.
Definition log_count (log : fragment_log) : Z := zsum (λ e, zsum (λ t, vec_len (samples t)) (snd e)) log.

Lemma read_moofs_log file log :
  Forall (λ e, entry_ok file (fst e) (snd e)) log → vec_len file ≤ u64_max →
  read_moofs file (log_offsets log) = Done (log_moofs log).
Proof.
  intros Hl Hu. induction Hl as [|e log He Hl IH]; [done|].
  change (log_offsets (e :: log)) with (range_offset (info_range (fst e)) :: log_offsets log).
  cbn [read_moofs]. rewrite (entry_reads _ _ _ He Hu). cbn [ibind]. rewrite IH. done.
Qed.

Lemma runs_count id l : Z.of_nat (length (mjoin (fragment_runs id l))) ≤ zsum (λ t, vec_len (samples t)) l.
Proof.
  induction l as [|t l IH]; [done|]. rewrite filter_cons_id, zsum_cons, join_app, length_app.
  assert (length (read_back t) = length (samples t)) as Hlen by apply length_map.
  case_decide; cbn [mjoin list_join app length]; rewrite ?app_nil_r; unfold vec_len in *; lia.
Qed.

Lemma log_small id log : log_count log ≤ u32_max → small (log_runs id log).
Proof.
  intros H. unfold small. assert (Z.of_nat (length (mjoin (log_runs id log))) ≤ log_count log); [|lia].
  clear H. induction log as [|e log IH]; [done|].
  change (log_runs id (e :: log)) with (fragment_runs id (snd e) ++ log_runs id log).
  unfold log_count. rewrite zsum_cons, join_app, length_app. pose proof (runs_count id (snd e)).
  unfold log_count in IH. lia.
Qed.

Lemma fresh_holds file m : map_Forall (λ id t, ∃ table, t = track_from id table) m → tracks_hold file m (λ _, []).
Proof. intros H id t Ht. destruct (H id t Ht) as [table ->]. split; [by constructor|done]. Qed.

Lemma Forall_and_mono {A : Type} (P Q : A → Prop) l : Forall P l → Forall Q l → Forall (λ a, P a ∧ Q a) l.
Proof. intros. by apply Forall_and. Qed.

(** The tables of all tracks together. *)
Lemma read_tracks_holds file log trexs m :
  log ≠ [] → Forall (λ e, entry_ok file (fst e) (snd e)) log → Forall (λ e, Forall track_ends (snd e)) log → zsum info_size log ≤ u64_max → log_count log ≤ u32_max →
  map_Forall (λ id t, ∃ table, t = track_from id table) m →
  Forall (λ e, Forall (λ t, is_Some (m !! track_id t)) (snd e)) log →
  ∃ m', read_tracks (log_moofs log) trexs m = Done m' ∧ dom m' = dom m ∧
    ∀ id t, m' !! id = Some t → track_holds file t (log_runs id log) ∧ times_hold t (log_runs id log).
Proof.
  intros Hne Hl Hends Hsz Hc Hfresh Hin.
  destruct (add_moofs_holds file log m (λ _, []) (Forall_and_mono _ _ _ Hl Hends) (fresh_holds file m Hfresh)) as (m1 & E & Hd & Hm1).
  { intros e t He Ht. rewrite Forall_forall in Hin. specialize (Hin e He). rewrite Forall_forall in Hin. by apply Hin. }
  { intros id. by apply log_small. }
  assert (∀ id t, m1 !! id = Some t → ∃ t', precompute_fragmented_caches (apply_trex trexs t) = Done t' ∧
            track_holds file t' (log_runs id log) ∧ times_hold t' (log_runs id log)) as Hpre.
  { intros id t Ht. destruct (Hm1 id t Ht) as [Hh Htimes]. apply precompute_holds; [by apply track_holds_trex| |].
    - unfold apply_trex. by destruct (find _ _).
    - pose proof (log_sizes file id log Hl). lia. }
  unfold read_tracks. destruct (log_moofs log) eqn:El; [by destruct log|]. rewrite E. cbn [ibind].
  rewrite bool_decide_true.
  2: { intros id r Hr. rewrite lookup_fmap in Hr. destruct (m1 !! id) as [t|] eqn:Et; [|done]. injection Hr as <-.
       destruct (Hpre id t Et) as (t' & -> & _). done. }
  eexists. split; [done|]. split.
  - rewrite <-Hd. apply set_eq. intros id. rewrite !elem_of_dom, lookup_omap, lookup_fmap.
    destruct (m1 !! id) as [t|] eqn:Et; cbn; [|done]. destruct (Hpre id t Et) as (t' & -> & _). by split; eexists.
  - intros id t Ht. rewrite lookup_omap, lookup_fmap in Ht. destruct (m1 !! id) as [u|] eqn:Eu; [|done]. cbn in Ht.
    destruct (Hpre id u Eu) as (t' & E' & H1 & H2). rewrite E' in Ht. injection Ht as <-. done.
Qed.

(** Every entry of a session's log lies inside the file, after the others. *)
Lemma session_sizes w log :
  session_ok (w, log) → Forall (λ e, entry_ok (s_bytes (writer w)) (fst e) (snd e)) log ∧
    zsum info_size log ≤ vec_len (s_bytes (writer w)).
Proof.
  intros [_ _ _ Hl Ho]. cbn [fst snd] in *.
  assert (Forall (λ e, entry_ok (s_bytes (writer w)) (fst e) (snd e)) log) as He
    by (eapply Forall_impl; [exact Hl|]; intros e []; done).
  split; [done|]. rewrite <-(Z.sub_0_r (vec_len _)). apply sorted_sizes; [done|unfold vec_len; lia|].
  eapply Forall_impl; [exact He|]. intros e H. split; [apply H|]. split; [apply (entry_size_pos _ _ _ H)|apply (entry_fits _ _ _ H)].
Qed.

Lemma session_reads_back w log trexs tracks0 :
  session_ok (w, log) → vec_len (s_bytes (writer w)) ≤ i64_max → log_count log ≤ u32_max →
  Forall (λ e, Forall track_ends (snd e)) log →
  map_Forall (λ id t, ∃ table, t = track_from id table) tracks0 →
  Forall (λ e, Forall (λ t, is_Some (tracks0 !! track_id t)) (snd e)) log →
  ∃ moofs m, read_moofs (s_bytes (writer w)) (log_offsets log) = Done moofs ∧
    read_tracks moofs trexs tracks0 = Done m ∧ dom m = dom tracks0 ∧
    ∀ id t n s, m !! id = Some t → log_samples id log !! n = Some s →
      track_read_sample t (s_bytes (writer w)) (Z.of_nat n + 1) = Done (Some s).
Proof.
  intros Hx Hlen Hc Hends Hfresh Hin. destruct (session_sizes w log Hx) as [He Hsz].
  assert (vec_len (s_bytes (writer w)) ≤ u64_max) as Hu by (unfold i64_max, u64_max in *; lia).
  exists (log_moofs log). destruct (decide (log = [])) as [->|Hne].
  { exists tracks0. split; [done|]. split; [done|]. split; [done|]. intros id t n s _ H. done. }
  destruct (read_tracks_holds (s_bytes (writer w)) log trexs tracks0 Hne He Hends ltac:(lia) Hc Hfresh Hin) as (m & E & Hd & Hm).
  exists m. split; [by apply read_moofs_log|]. split; [done|]. split; [done|].
  intros id t n s Ht Hn. destruct (Hm id t Ht) as [Hh Htm].
  destruct (locate _ _ _ Hn) as (k & i & l & Hk & Hi & ->).
  by apply (sample_read _ t (log_runs id log) Hlen Hh Htm k i l).
Qed.


(** C3. The samples of every fragment the writer returned can be read back at the
    ranges it returned.  A session starts with [write_start] and is any sequence of
    writes, flushes, discards and new sample descriptions, each with any failures of the
    file, in which the caller does not flush again once [add_sample_description] has
    failed in its seek back to the end of the media and left the file standing in front
    of a fragment.  In every such session, at each returned offset the file holds a
    [moof] box that the reader's [moof] decoder accepts, and with the sample tables the
    reader builds from these boxes, reading sample [n] of a track returns the [n]-th
    sample of that track that was flushed, with its decode time, duration, composition
    offset, sync flag and bytes.  So later fragments, failed flushes and rewrites of the
    initialization segment, failed ones included, do not damage an earlier fragment.
    The reader's scan of top-level boxes is not part of this: after a failed flush the
    file is no sequence of boxes. *)
Theorem flushed_samples_read_back moov_box config configs s0 s1 w0 w log trexs tracks0 :
  sink_ok s0 → ftyp_size (mk_ftyp (major_brand config) (minor_version config) (compatible_brands config)) ≤ u32_max →
  write_start_with_sample_descriptions moov_box config configs s0 = (Done w0, s1) →
  rtc (frag_step moov_box) (w0, []) (w, log) →
  vec_len (s_bytes (writer w)) ≤ i64_max → log_count log ≤ u32_max →
  Forall (λ e, Forall track_ends (snd e)) log →
  map_Forall (λ id t, ∃ table, t = track_from id table) tracks0 →
  Forall (λ e, Forall (λ t, is_Some (tracks0 !! track_id t)) (snd e)) log →
  ∃ moofs m, read_moofs (s_bytes (writer w)) (log_offsets log) = Done moofs ∧
    read_tracks moofs trexs tracks0 = Done m ∧ dom m = dom tracks0 ∧
    ∀ id t n s, m !! id = Some t → log_samples id log !! n = Some s →
      track_read_sample t (s_bytes (writer w)) (Z.of_nat n + 1) = Done (Some s).
Proof.
  intros Hs Hf Hst Hrun. destruct (write_start_ok moov_box config configs s0 w0 s1 Hs Hf Hst) as [H0 _].
  apply session_reads_back. by apply (frag_run_ok moov_box _ _ Hrun).
Qed.

(** ** A session with a failed flush and a change of the decoder parameters *)

Definition demo_moov : Z → list FragmentTrack → io (list Z) := λ _ _, Done (replicate 100 7).
Definition demo_config : Mp4Config := mk_config 0x69736f36 1 [0x69736f36] 1000.
Definition demo_configs : list FragmentedTrackConfig :=
  [mk_frag_config VideoTrack 90000 "und" [AvcConfig 320 240 [1] [2]];
   mk_frag_config AudioTrack 48000 "und" [AacConfig 64000 AacLowComplexity Freq48000 Mono]].
(** A write of the first flush fails after two bytes, and so does the last seek of
    the last call. *)
Definition demo_sink : Sink := mk_sink [] 0 (replicate 12 None ++ [Some 2] ++ replicate 115 None ++ [Some 0]).
Definition demo_start : io FragmentedMp4Writer * Sink :=
  write_start_with_sample_descriptions demo_moov demo_config demo_configs demo_sink.
Definition demo_w0 : FragmentedMp4Writer :=
  match fst demo_start with
  | Done w => w
  | _ => mk_writer demo_sink [] (mk_range 0 0) 0 0 1 false
  end.

Definition demo_v1 : Mp4Sample := mk_sample 0 3000 0 true [1; 2; 3].
Definition demo_a1 : Mp4Sample := mk_sample 0 1024 0 true [9; 9].
Definition demo_v2 : Mp4Sample := mk_sample 3000 1 (-5) false [4; 5].
Definition demo_v3 : Mp4Sample := mk_sample 7000 3000 0 true [6].
Definition demo_w1 : FragmentedMp4Writer := snd (write_sample_with_description 1 1 demo_v1 demo_w0).
Definition demo_w2 : FragmentedMp4Writer := snd (write_sample_with_description 2 1 demo_a1 demo_w1).
Definition demo_w3 : FragmentedMp4Writer := snd (write_sample_with_description 1 1 demo_v2 demo_w2).
Definition demo_w4 : FragmentedMp4Writer := snd (finish_trailing_sample 1 7000 demo_w3).
Definition demo_w5 : FragmentedMp4Writer := snd (flush_fragment demo_w4).
Definition demo_w6 : FragmentedMp4Writer := snd (flush_fragment demo_w5).
Definition demo_w7 : FragmentedMp4Writer := snd (add_sample_description demo_moov 1 (AvcConfig 640 480 [1] [2]) demo_w6).
Definition demo_w8 : FragmentedMp4Writer := snd (write_sample_with_description 1 2 demo_v3 demo_w7).
Definition demo_w9 : FragmentedMp4Writer := snd (flush_fragment demo_w8).
Definition demo_w10 : FragmentedMp4Writer := snd (add_sample_description demo_moov 1 (AvcConfig 800 600 [1] [2]) demo_w9).
Definition demo_log : fragment_log :=
  (([] ++ logged (fst (flush_fragment demo_w4)) demo_w4) ++ logged (fst (flush_fragment demo_w5)) demo_w5)
  ++ logged (fst (flush_fragment demo_w8)) demo_w8.

(** A step to the state the call leaves behind. *)
Lemma do_sample m w log id index s :
  sample_ok s → 0 ≤ index → frag_step m (w, log) (snd (write_sample_with_description id index s w), log).
Proof. intros. eapply step_sample; [done..|apply surjective_pairing]. Qed.
Lemma do_flush m w log :
  bool_decide (Forall (λ e, range_end (fst e) ≤ s_pos (writer w)) log) = true →
  frag_step m (w, log) (snd (flush_fragment w), log ++ logged (fst (flush_fragment w)) w).
Proof. intros H. apply bool_decide_eq_true_1 in H. eapply step_flush; [by right|apply surjective_pairing]. Qed.

Lemma demo_samples_ok s : s ∈ [demo_v1; demo_v2; demo_v3; demo_a1] → sample_ok s.
Proof.
  intros Hs. repeat (apply elem_of_cons in Hs as [->|Hs]); [..|by apply elem_of_nil in Hs];
    constructor; cbn; unfold u64_max, u32_max, vec_len; cbn; lia.
Qed.
Ltac demo_sample := apply demo_samples_ok; repeat first [apply list_elem_of_here | apply list_elem_of_further].

Lemma session_run : rtc (frag_step demo_moov) (demo_w0, []) (demo_w10, demo_log).
Proof.
  apply rtc_l with (demo_w1, []); [apply (do_sample _ _ _ 1 1 demo_v1); [|done]; demo_sample|].
  apply rtc_l with (demo_w2, []); [apply (do_sample _ _ _ 2 1 demo_a1); [|done]; demo_sample|].
  apply rtc_l with (demo_w3, []); [apply (do_sample _ _ _ 1 1 demo_v2); [|done]; demo_sample|].
  apply rtc_l with (demo_w4, []); [eapply (step_finish _ _ _ 1 7000); [by unfold u64_max|apply surjective_pairing]|].
  apply rtc_l with (demo_w5, [] ++ logged (fst (flush_fragment demo_w4)) demo_w4); [apply do_flush; by vm_compute|].
  apply rtc_l with (demo_w6, ([] ++ logged (fst (flush_fragment demo_w4)) demo_w4) ++ logged (fst (flush_fragment demo_w5)) demo_w5);
    [apply do_flush; by vm_compute|].
  apply rtc_l with (demo_w7, ([] ++ logged (fst (flush_fragment demo_w4)) demo_w4) ++ logged (fst (flush_fragment demo_w5)) demo_w5).
  { eapply (step_describe _ _ _ 1 (AvcConfig 640 480 [1] [2])); [apply surjective_pairing|by vm_compute]. }
  apply rtc_l with (demo_w8, ([] ++ logged (fst (flush_fragment demo_w4)) demo_w4) ++ logged (fst (flush_fragment demo_w5)) demo_w5);
    [apply (do_sample _ _ _ 1 2 demo_v3); [|done]; demo_sample|].
  apply rtc_l with (demo_w9, demo_log); [apply do_flush; by vm_compute|].
  apply rtc_once. eapply (step_describe _ _ _ 1 (AvcConfig 800 600 [1] [2])); [apply surjective_pairing|by vm_compute].
Qed.

Definition demo_table : SampleTable :=
  mk_table (mk_stsz 0 0 []) [] [] None None (Some []) None 1.
Definition demo_tracks : gmap Z Mp4Track := <[1 := track_from 1 demo_table]> {[2 := track_from 2 demo_table]}.

Lemma flushed_samples_read_back_witness :
  fst (flush_fragment demo_w4) = Fails IoError ∧
  fst (add_sample_description demo_moov 1 (AvcConfig 800 600 [1] [2]) demo_w9) = Fails IoError ∧ poisoned demo_w10 = false ∧
  log_samples 1 demo_log = [demo_v1; mk_sample 3000 4000 (-5) false [4; 5]; demo_v3] ∧
  ∃ moofs m, read_moofs (s_bytes (writer demo_w10)) (log_offsets demo_log) = Done moofs ∧
    read_tracks moofs [] demo_tracks = Done m ∧ dom m = dom demo_tracks ∧
    ∀ id t n s, m !! id = Some t → log_samples id demo_log !! n = Some s →
      track_read_sample t (s_bytes (writer demo_w10)) (Z.of_nat n + 1) = Done (Some s).
Proof.
  do 4 (split; [vm_compute; reflexivity|]).
  apply (flushed_samples_read_back demo_moov demo_config demo_configs demo_sink (snd demo_start) demo_w0 demo_w10 demo_log [] demo_tracks).
  - split; by vm_compute.
  - by vm_compute.
  - vm_compute. reflexivity.
  - exact session_run.
  - by vm_compute.
  - by vm_compute.
  - apply (bool_decide_eq_true_1 (Forall (λ e, Forall (λ t, Forall (λ s, start_time s + duration s ≤ u64_max) (samples t)) (snd e)) demo_log)).
    vm_compute. reflexivity.
  - apply map_Forall_insert_2; [by eexists|]. apply map_Forall_singleton. by eexists.
  - apply (bool_decide_eq_true_1 (Forall (λ e, Forall (λ t, is_Some (demo_tracks !! track_id t)) (snd e)) demo_log)). vm_compute. reflexivity.
Defined.

(** ** A failed seek after a rewrite of the metadata

    [add_sample_description] poisons the writer when rewriting the metadata fails, but
    not when the seek back to the end of the media fails: the writer stays usable with
    its position at the end of the initialization segment, and the next fragment is
    written over the first one.  This is why a flush of [frag_step] requires that the
    file stands behind the fragments. *)

Definition lost_w1 : FragmentedMp4Writer :=
  set_writer (mk_sink (s_bytes (writer demo_w6)) (s_pos (writer demo_w6)) [None; None; None; None; Some 0]) demo_w6.
Definition lost_w2 : FragmentedMp4Writer := snd (add_sample_description demo_moov 1 (AvcConfig 640 480 [1] [2]) lost_w1).
Definition lost_w3 : FragmentedMp4Writer := snd (write_sample_with_description 1 2 demo_v3 lost_w2).

Theorem failed_seek_overwrites_a_fragment :
  fst (add_sample_description demo_moov 1 (AvcConfig 640 480 [1] [2]) lost_w1) = Fails IoError ∧
  poisoned lost_w2 = false ∧
  ∃ info info', fst (flush_fragment demo_w5) = Done (Some info) ∧ fst (flush_fragment lost_w3) = Done (Some info') ∧
    range_offset (info_range info') < range_offset (info_range info) < range_end info'.
Proof. split; [by vm_compute|]. split; [by vm_compute|]. eexists _, _. by vm_compute. Qed.
