(* ===== verification/FragmentedSamples.v ===== *)
(** * The samples of a session

    What the operations of the fragmented writer do to the samples of a track: those in
    the log of fragments and those still pending, taken together, only grow at the end,
    and a duration changes only where the next sample fixes it. *)

From S2P Require Import Prelude Mp4Io Mp4Box Fragmented FragmentedInv FragmentedRun Mp4Track Mp4TrackInv Mp4ReadBack.

(** The samples of track [id] among some tracks, and among the fragments of a log. *)
Definition of_id (id : Z) (l : list FragmentTrack) : list Mp4Sample :=
  mjoin (samples <$> filter (λ t, track_id t = id) l).
Definition flushed (id : Z) (log : fragment_log) : list Mp4Sample := mjoin ((λ e, of_id id (snd e)) <$> log).
Definition all_samples (id : Z) (w : FragmentedMp4Writer) (log : fragment_log) : list Mp4Sample :=
  flushed id log ++ of_id id (tracks w).

(** A sample as the caller gave it: all but the times. *)
Definition key (s : Mp4Sample) : bool * list Z := (is_sync s, bytes s).

Lemma of_id_cons id t l : of_id id (t :: l) = (if decide (track_id t = id) then samples t else []) ++ of_id id l.
Proof. unfold of_id. rewrite filter_cons. by case_decide. Qed.

Lemma of_id_app id l k : of_id id (l ++ k) = of_id id l ++ of_id id k.
Proof. unfold of_id. by rewrite filter_app, fmap_app, join_app. Qed.

Lemma flushed_snoc id log e : flushed id (log ++ [e]) = flushed id log ++ of_id id (snd e).
Proof. unfold flushed. rewrite fmap_app, join_app. cbn. by rewrite app_nil_r. Qed.

Lemma of_id_pending id w : of_id id (pending w) = of_id id (tracks w).
Proof.
  unfold pending. induction (tracks w) as [|t l IH]; [done|]. rewrite filter_cons, of_id_cons.
  case_decide as Hh; [by rewrite of_id_cons, IH|]. rewrite IH. case_decide; [|done].
  assert (samples t = []) as ->; [|done]. unfold has_samples in Hh. by destruct (samples t).
Qed.

Lemma of_id_clear id l : of_id id (map (set_samples None []) l) = [].
Proof. induction l as [|t l IH]; [done|]. cbn [map]. rewrite of_id_cons, IH. by case_decide. Qed.

(** Track [id] is the one at position [id - 1]. *)
Lemma of_id_none id n l :
  (∀ i t, l !! i = Some t → track_id t = Z.of_nat (n + i) + 1) → id ≤ Z.of_nat n → of_id id l = [].
Proof.
  revert n. induction l as [|t l IH]; intros n Hl Hid; [done|]. rewrite of_id_cons.
  rewrite decide_False by (rewrite (Hl 0%nat t eq_refl); lia).
  apply (IH (S n)); [|lia]. intros i u Hi. rewrite (Hl (S i) u Hi). lia.
Qed.

Lemma of_id_lookup n l i t :
  (∀ i t, l !! i = Some t → track_id t = Z.of_nat (n + i) + 1) → l !! i = Some t → of_id (track_id t) l = samples t.
Proof.
  revert n i. induction l as [|u l IH]; intros n i Hl Hi; [done|]. rewrite of_id_cons.
  assert (∀ j v, l !! j = Some v → track_id v = Z.of_nat (S n + j) + 1) as Hl'
    by (intros j v Hj; rewrite (Hl (S j) v Hj); lia).
  destruct i as [|i].
  - injection Hi as ->. rewrite decide_True by done. rewrite (of_id_none _ (S n)); [apply app_nil_r|done|].
    rewrite (Hl 0%nat t eq_refl). lia.
  - rewrite decide_False; [by apply (IH (S n) i)|]. rewrite (Hl 0%nat u eq_refl), (Hl (S i) t Hi). lia.
Qed.

Lemma of_id_insert_ne id l i t :
  (∀ u, l !! i = Some u → track_id u = track_id t) → track_id t ≠ id → of_id id (<[i := t]> l) = of_id id l.
Proof.
  revert i. induction l as [|u l IH]; intros [|i] Hl Hne; try done; cbn [insert list_insert]; rewrite !of_id_cons.
  - rewrite (Hl u eq_refl). by case_decide.
  - f_equal. by apply IH.
Qed.

Lemma track_ids w : writer_ok w → ∀ i t, tracks w !! i = Some t → track_id t = Z.of_nat (0 + i) + 1.
Proof. intros Hw i t Hi. by destruct (to_id _ _ (wo_tracks w Hw i t Hi)). Qed.

Lemma find_track_id id w i t : find_track id w = Some (i, t) → track_id t = id.
Proof.
  unfold find_track. destruct (tracks w !! _) as [u|]; [|done]. destruct (track_id u =? id) eqn:E; [|done].
  intros [= <- <-]. by reflect_bools.
Qed.

(** Replacing the samples of one track. *)
Lemma update_samples id w i t p l :
  writer_ok w → find_track id w = Some (i, t) →
  of_id id (tracks (update_track i (set_samples p l t) w)) = l ∧
  (∀ j, j ≠ id → of_id j (tracks (update_track i (set_samples p l t) w)) = of_id j (tracks w)).
Proof.
  intros Hw Hf. pose proof (find_track_id _ _ _ _ Hf) as Hid. apply find_track_Some in Hf as Hi.
  pose proof (lookup_lt_Some _ _ _ Hi) as Hlt. split.
  - rewrite <-Hid. change (track_id t) with (track_id (set_samples p l t)).
    rewrite (of_id_lookup 0 _ i (set_samples p l t)); [done| |].
    + intros j u Hj. cbn [update_track set_tracks tracks] in Hj. destruct (decide (i = j)) as [<-|Hne].
      * rewrite list_lookup_insert_eq in Hj by done. injection Hj as <-. by apply (track_ids w Hw i t).
      * rewrite list_lookup_insert_ne in Hj by done. by apply (track_ids w Hw).
    + cbn. by rewrite list_lookup_insert_eq.
  - intros j Hj. cbn [update_track set_tracks tracks]. apply of_id_insert_ne; [|cbn; congruence].
    intros u Hu. cbn. congruence.
Qed.

Lemma of_id_found id w i t : writer_ok w → find_track id w = Some (i, t) → of_id id (tracks w) = samples t.
Proof.
  intros Hw Hf. rewrite <-(find_track_id _ _ _ _ Hf). apply find_track_Some in Hf.
  by apply (of_id_lookup 0 _ i t); [apply track_ids|].
Qed.

(** The pending samples with the last one ending at [next]. *)
Definition stretch (next : Z) (l : list Mp4Sample) : list Mp4Sample :=
  match last l with Some p => set_last_duration (next - start_time p) l | None => l end.

Lemma write_sample_samples id index s w w' :
  writer_ok w → write_sample_with_description id index s w = (Done (), w') →
  of_id id (tracks w') = stretch (start_time s) (of_id id (tracks w)) ++ [s] ∧
  (∀ p, last (of_id id (tracks w)) = Some p → 0 < start_time s - start_time p ≤ u32_max) ∧
  (∀ j, j ≠ id → of_id j (tracks w') = of_id j (tracks w)).
Proof.
  intros Hw. unfold write_sample_with_description, fbind, ensure_not_poisoned.
  destruct (poisoned w); [done|]. destruct (duration s =? 0); [done|]. destruct (u32_max <? _); [done|].
  destruct (find_track id w) as [[i t]|] eqn:Ef; [|done]. destruct ((index =? 0) || _); [done|].
  destruct (is_some_and _ _); [done|]. destruct (_ && _ && _); [done|].
  rewrite (of_id_found id w i t Hw Ef). unfold stretch. destruct (last (samples t)) as [p|] eqn:El.
  - destruct (checked_sub _ _) as [d|] eqn:Ed; [|done]. apply checked_sub_Some in Ed as [-> Hle].
    destruct (0 <? _) eqn:Ez; [|done]. destruct (u32_try _) as [u|] eqn:Eu; [|done]. apply u32_try_Some in Eu as [-> Hu].
    reflect_bools. destruct (vec_len _ =? u32_max); [done|]. intros [= <-].
    destruct (update_samples id w i t (Some index) (set_last_duration (start_time s - start_time p) (samples t) ++ [s]) Hw Ef)
      as [H1 H2].
    split; [exact H1|]. split; [|exact H2]. intros q [= <-]. lia.
  - destruct (vec_len _ =? u32_max); [done|]. intros [= <-].
    destruct (update_samples id w i t (Some index) (samples t ++ [s]) Hw Ef) as [H1 H2]. done.
Qed.

Lemma finish_samples id next w w' :
  writer_ok w → finish_trailing_sample id next w = (Done (), w') →
  of_id id (tracks w') = stretch next (of_id id (tracks w)) ∧
  (∀ p, last (of_id id (tracks w)) = Some p → 0 < next - start_time p ≤ u32_max) ∧
  (∀ j, j ≠ id → of_id j (tracks w') = of_id j (tracks w)).
Proof.
  intros Hw. unfold finish_trailing_sample, fbind, ensure_not_poisoned. destruct (poisoned w); [done|].
  destruct (find_track id w) as [[i t]|] eqn:Ef; [|done]. unfold stretch. rewrite (of_id_found id w i t Hw Ef).
  destruct (last (samples t)) as [p|] eqn:El; [|by intros [= <-]; rewrite (of_id_found id w i t Hw Ef)].
  destruct (checked_sub _ _) as [d|] eqn:Ed; [|done]. apply checked_sub_Some in Ed as [-> Hle].
  destruct (0 <? _) eqn:Ez; [|done]. destruct (u32_try _) as [u|] eqn:Eu; [|done]. apply u32_try_Some in Eu as [-> Hu].
  intros [= <-]. reflect_bools.
  destruct (update_samples id w i t (pending_sample_description_index t) (set_last_duration (next - start_time p) (samples t)) Hw Ef) as [H1 H2].
  split; [exact H1|]. split; [|exact H2]. intros q [= <-]. lia.
Qed.

Lemma flush_samples w r w' log :
  writer_ok w → flush_fragment w = (Done r, w') →
  (∀ id, all_samples id w' (log ++ logged (Done r) w) = all_samples id w log) ∧ pending w' = [] ∧
  (∀ id, of_id id (tracks w') = []) ∧ (r = None → pending w = []).
Proof.
  intros Hw E. pose proof (flush_fragment_spec w Hw) as Hf. rewrite E in Hf. destruct r as [info|]; cbn [logged].
  - destruct Hf as (_ & _ & _ & _ & _ & _ & fs & ->).
    assert (∀ id, of_id id (tracks (set_sequence (fw_sequence_number w + 1)
        (clear_samples (after_put (fragment_bytes (fw_sequence_number w) (pending w)) fs w)))) = []) as H0
      by (intros; apply of_id_clear).
    split; [|split; [|split; [done|done]]].
    + intros id. unfold all_samples. rewrite H0, app_nil_r, flushed_snoc. cbn [snd]. by rewrite of_id_pending.
    + unfold pending. cbn. induction (tracks w) as [|t l IH]; [done|]. cbn [map]. by rewrite filter_cons, decide_False.
  - destruct Hf as (-> & _ & Hp). split; [intros; by rewrite app_nil_r|]. split; [done|]. split; [|done].
    intros id. by rewrite <-of_id_pending, Hp.
Qed.

Lemma describe_samples moov_box id c w n w' :
  writer_ok w → add_sample_description moov_box id c w = (Done n, w') →
  (∀ j, of_id j (tracks w') = of_id j (tracks w)) ∧ has_pending_samples w' = has_pending_samples w ∧
  0 ≤ n ∧ s_pos (writer w') = s_pos (writer w).
Proof.
  intros Hw. unfold add_sample_description, fbind, ensure_not_poisoned.
  destruct (poisoned w); [done|]. destruct (find_track id w) as [[i t]|] eqn:Ef; [|done].
  case_bool_decide; [done|]. destruct (position _ _) as [k|].
  { destruct (u32_try _) as [u|] eqn:Eu; [|done]. apply u32_try_Some in Eu as [-> Hu]. intros [= <- <-].
    split; [done|]. split; [done|]. split; [lia|done]. }
  destruct (has_pending_samples w) eqn:Ehp; [done|]. destruct (u32_try _) as [count|] eqn:Eu; [|done].
  apply u32_try_Some in Eu as [-> Hu].
  cbn [movie_timescale tracks update_track set_tracks writer].
  destruct (initialization_metadata _ _ _); [|done|done].
  destruct (position_result (writer w) (wo_sink w Hw)) as [[fs ->]|[fs ->]]; [|done].
  destruct (write_initialization_metadata_bytes _ _ _) as [[?|?|] s2]; [|done|done].
  destruct (seek_result (s_pos (writer w)) s2) as [->| ->]; [|done]. intros [= <- <-]. cbn [tracks set_writer writer s_pos seek_to].
  apply find_track_Some in Ef.
  assert (∀ l, existsb has_samples l = false → ∀ j, of_id j l = []) as Hnil.
  { intros l Hl j. induction l as [|u l IH]; [done|]. cbn in Hl. apply orb_false_iff in Hl as [H1 H2].
    rewrite of_id_cons, IH by done. unfold has_samples in H1. destruct (samples u); [|done]. by case_decide. }
  assert (existsb has_samples (<[i := set_descriptions (sample_descriptions t ++ [c]) (vec_len (sample_descriptions t ++ [c])) t]> (tracks w)) = false) as Hn.
  { unfold has_pending_samples in Ehp. clear -Ehp Ef. revert i Ef. induction (tracks w) as [|u l IH]; intros [|i] Ef; try done;
      cbn in *; apply orb_false_iff in Ehp as [H1 H2]; apply orb_false_iff; [injection Ef as <-; done|]. split; [done|]. by apply IH. }
  split; [intros j; rewrite (Hnil _ Hn); symmetry; by apply Hnil|].
  split; [exact Hn|]. split; [unfold vec_len; lia|done].
Qed.

(** ** Durations and times across fragments *)

Lemma map_key_set_last d l : map key (set_last_duration d l) = map key l.
Proof.
  induction l as [|s l IH]; [done|]. destruct l as [|y l]; [done|].
  change (set_last_duration d (s :: y :: l)) with (s :: set_last_duration d (y :: l)). cbn [map] in *. by rewrite IH.
Qed.
Lemma map_key_stretch n l : map key (stretch n l) = map key l.
Proof. unfold stretch. destruct (last l); [apply map_key_set_last|done]. Qed.

Lemma set_last_app d l k : k ≠ [] → set_last_duration d (l ++ k) = l ++ set_last_duration d k.
Proof.
  intros Hk. induction l as [|s l IH]; [done|]. cbn [app]. rewrite <-IH. by destruct l, k.
Qed.
Lemma last_app_ne {A : Type} (l k : list A) : k ≠ [] → last (l ++ k) = last k.
Proof. intros Hk. rewrite last_app. destruct (last k) eqn:E; [done|]. by apply last_None in E. Qed.
Lemma stretch_app n l k : k ≠ [] → stretch n (l ++ k) = l ++ stretch n k.
Proof.
  intros Hk. unfold stretch. rewrite last_app_ne by done. destruct (last k) eqn:E; [|by apply last_None in E].
  by apply set_last_app.
Qed.

Lemma set_last_contiguous d l p :
  contiguous l → last l = Some p →
  contiguous (set_last_duration d l) ∧ last (set_last_duration d l) = Some (set_duration d p).
Proof.
  induction l as [|s l IH]; [done|]. intros [Hs Hc] Hl. destruct l as [|y l]; [by injection Hl as ->|].
  change (set_last_duration d (s :: y :: l)) with (s :: set_last_duration d (y :: l)).
  destruct (IH Hc Hl) as [H1 H2]. destruct (set_last_head d y l) as (y' & l' & E & Hst & _). rewrite E in *.
  split; [|done]. split; [congruence|done].
Qed.

(** After stretching, the next sample continues the run. *)
Lemma contiguous_stretch l s : contiguous l → contiguous (stretch (start_time s) l ++ [s]).
Proof.
  intros Hc. unfold stretch. destruct (last l) as [p|] eqn:El.
  - destruct (set_last_contiguous (start_time s - start_time p) l p Hc El) as [H1 H2].
    apply contiguous_snoc; [done|]. intros q. rewrite H2. intros [= <-]. cbn. lia.
  - apply last_None in El as ->. by split.
Qed.

Lemma stretch_contiguous n l : contiguous l → contiguous (stretch n l).
Proof.
  intros Hc. unfold stretch. destruct (last l) as [p|] eqn:El; [|done]. by apply (set_last_contiguous _ l p).
Qed.

Lemma stretch_last n l p :
  contiguous l → last l = Some p → last (stretch n l) = Some (set_duration (n - start_time p) p).
Proof. intros Hc El. unfold stretch. rewrite El. by apply (set_last_contiguous _ l p). Qed.

Lemma stretch_twice n l : contiguous l → stretch n (stretch n l) = stretch n l.
Proof.
  intros Hc. unfold stretch at 1. destruct (last l) as [p|] eqn:El.
  - rewrite (stretch_last n l p Hc El). unfold stretch. rewrite El. cbn [start_time set_duration]. clear.
    induction l as [|s l IH]; [done|]. destruct l as [|y l]; [done|].
    change (set_last_duration (n - start_time p) (s :: y :: l)) with (s :: set_last_duration (n - start_time p) (y :: l)).
    rewrite <-IH at 2. destruct (set_last_head (n - start_time p) y l) as (y' & l' & -> & _). done.
  - apply last_None in El as ->. done.
Qed.

Lemma stretch_head n s l : ∃ s' l', stretch n (s :: l) = s' :: l' ∧ start_time s' = start_time s.
Proof.
  unfold stretch. destruct (last (s :: l)) as [p|]; [|by exists s, l].
  destruct (set_last_head (n - start_time p) s l) as (s' & l' & E & H & _). eauto.
Qed.

(** The time a run covers. *)
Lemma contiguous_sum s l p :
  contiguous (s :: l) → last (s :: l) = Some p →
  start_time s + zsum duration (s :: l) = start_time p + duration p.
Proof.
  revert s. induction l as [|y l IH]; intros s Hc Hl; rewrite zsum_cons.
  - injection Hl as ->. rewrite zsum_nil. lia.
  - destruct Hc as [Hy Hc]. rewrite <-(IH y Hc Hl), Hy. lia.
Qed.

(** ** The tracks of a session *)

(** What no operation changes of a track. *)
Definition kind_of_track (t : FragmentTrack) : Z * TrackType := (track_id t, track_type t).
Definition kinds (l : list FragmentTrack) : list (Z * TrackType) := map kind_of_track l.

Lemma kinds_update i t t' l : l !! i = Some t → kind_of_track t' = kind_of_track t → kinds (<[i := t']> l) = kinds l.
Proof.
  intros Hi Ht. unfold kinds. change (map kind_of_track (<[i := t']> l)) with (kind_of_track <$> <[i := t']> l).
  rewrite list_fmap_insert, Ht. apply list_insert_id. by rewrite list_lookup_fmap, Hi.
Qed.
Lemma kinds_clear p l : kinds (map (set_samples p []) l) = kinds l.
Proof. unfold kinds. rewrite map_map. by apply map_ext. Qed.

Lemma write_sample_kinds id index s w r w' :
  write_sample_with_description id index s w = (r, w') → kinds (tracks w') = kinds (tracks w).
Proof.
  unfold write_sample_with_description, fbind, ensure_not_poisoned. destruct (poisoned w); [by intros [= _ <-]|].
  destruct (duration s =? 0); [by intros [= _ <-]|]. destruct (u32_max <? _); [by intros [= _ <-]|].
  destruct (find_track id w) as [[i t]|] eqn:Ef; [|by intros [= _ <-]]. apply find_track_Some in Ef.
  destruct (_ || _); [by intros [= _ <-]|]. destruct (is_some_and _ _); [by intros [= _ <-]|].
  destruct (_ && _); [by intros [= _ <-]|].
  destruct (match last _ with Some _ => _ | None => _ end) as [k|e|]; [|by intros [= _ <-]|by intros [= _ <-]].
  destruct (vec_len k =? u32_max); intros [= _ <-]; by apply (kinds_update _ t).
Qed.
Lemma finish_kinds id next w r w' :
  finish_trailing_sample id next w = (r, w') → kinds (tracks w') = kinds (tracks w).
Proof.
  unfold finish_trailing_sample, fbind, ensure_not_poisoned. destruct (poisoned w); [by intros [= _ <-]|].
  destruct (find_track id w) as [[i t]|] eqn:Ef; [|by intros [= _ <-]]. apply find_track_Some in Ef.
  destruct (last _); [|by intros [= _ <-]]. destruct (checked_sub _ _); [|by intros [= _ <-]].
  destruct (0 <? _); [|by intros [= _ <-]]. destruct (u32_try _); [|by intros [= _ <-]].
  intros [= _ <-]. by apply (kinds_update _ t).
Qed.
Lemma flush_kinds w r w' : writer_ok w → flush_fragment w = (r, w') → kinds (tracks w') = kinds (tracks w).
Proof.
  intros Hw E. pose proof (flush_fragment_spec w Hw) as Hf. rewrite E in Hf. destruct r as [[info|]|e|]; [| | |done].
  - destruct Hf as (_ & _ & _ & _ & _ & _ & fs & ->). apply kinds_clear.
  - by destruct Hf as [-> _].
  - destruct Hf as [[_ ->]|(_ & bs & fs & [-> | ->])]; [done|done|apply kinds_clear].
Qed.
Lemma describe_kinds moov_box id c w r w' :
  add_sample_description moov_box id c w = (r, w') → kinds (tracks w') = kinds (tracks w).
Proof.
  unfold add_sample_description, fbind, ensure_not_poisoned. destruct (poisoned w); [by intros [= _ <-]|].
  destruct (find_track id w) as [[i t]|] eqn:Ef; [|by intros [= _ <-]]. apply find_track_Some in Ef.
  case_bool_decide; [by intros [= _ <-]|]. destruct (position _ _); [by intros [= _ <-]|].
  destruct (has_pending_samples w); [by intros [= _ <-]|].
  assert (∀ d n, kinds (<[i := set_descriptions d n t]> (tracks w)) = kinds (tracks w)) as H1 by (intros; by apply (kinds_update _ t)).
  destruct (u32_try _) as [count|]; [|intros [= _ <-]; apply H1].
  set (w1 := update_track i _ w).
  destruct (initialization_metadata _ _ _) as [m|e|]; [|intros [= _ <-]; cbn; rewrite list_insert_insert_eq; apply H1|intros [= _ <-]; apply H1].
  destruct (stream_position _) as [[n|e|] s]; [|intros [= _ <-]; apply H1|intros [= _ <-]; apply H1].
  destruct (write_initialization_metadata_bytes _ _ _) as [[x|e|] s2];
    [|intros [= _ <-]; cbn; rewrite list_insert_insert_eq; apply H1|intros [= _ <-]; apply H1].
  destruct (sink_seek _ _) as [[y|e|] s3]; intros [= _ <-]; apply H1.
Qed.

(** The tracks of every fragment are among those the file was started with. *)
Definition kinds_ok (ks : list (Z * TrackType)) (x : FragmentedMp4Writer * fragment_log) : Prop :=
  kinds (tracks (fst x)) = ks ∧ Forall (λ e, Forall (λ t, kind_of_track t ∈ ks) (snd e)) (snd x).

Lemma kinds_elem t l : t ∈ l → kind_of_track t ∈ kinds l.
Proof. intros H. apply (list_elem_of_fmap_2 kind_of_track l t H). Qed.

Lemma frag_step_kinds moov_box ks x y : session_ok x → frag_step moov_box x y → kinds_ok ks x → kinds_ok ks y.
Proof.
  intros Hs Hst [Hk Hl]. destruct Hst as [w log id index s r w' _ _ E|w log id next r w' _ E|w log r w' _ E|w log|w log id c r w' E _];
    cbn [fst snd] in *; (split; cbn [fst snd]; [|try exact Hl]).
  - by rewrite (write_sample_kinds _ _ _ _ _ _ E).
  - by rewrite (finish_kinds _ _ _ _ _ E).
  - by rewrite (flush_kinds _ _ _ (ss_writer _ Hs) E).
  - apply Forall_app. split; [exact Hl|]. destruct r as [[info|]|e|]; cbn [logged]; try constructor; [|constructor].
    cbn [snd]. rewrite <-Hk. apply Forall_forall. intros t Ht. apply kinds_elem. unfold pending in Ht. by apply list_elem_of_filter in Ht as [_ Ht].
  - by rewrite <-Hk, <-(kinds_clear None (tracks w)).
  - by rewrite (describe_kinds _ _ _ _ _ _ E).
Qed.

Lemma run_kinds moov_box f0 w log :
  session_ok (f0, []) → rtc (frag_step moov_box) (f0, []) (w, log) →
  Forall (λ e, Forall (λ t, kind_of_track t ∈ kinds (tracks f0)) (snd e)) log.
Proof.
  intros H0 Hrun. assert (kinds_ok (kinds (tracks f0)) (w, log)) as [_ Hl]; [|exact Hl].
  assert (kinds_ok (kinds (tracks f0)) (f0, [])) as Hk by (split; [done|constructor]). revert H0 Hk.
  generalize (kinds (tracks f0)). induction Hrun as [|x y z Hxy Hyz IH]; intros ks H0 Hk; [done|].
  apply IH; [by eapply frag_step_ok|]. by eapply frag_step_kinds.
Qed.

Lemma new_tracks_kinds i configs l :
  new_tracks i configs = Done l → map snd (kinds l) = map fc_type configs ∧ map fst (kinds l) = map (λ n, Z.of_nat n + 1) (seq i (length configs)).
Proof.
  revert i l. induction configs as [|c configs IH]; intros i l; cbn [new_tracks]; [by intros [= <-]|].
  destruct (u32_try (Z.of_nat i + 1)) as [id|] eqn:E1; [|done]. apply u32_try_Some in E1 as [-> _]. cbn [ok_or ibind].
  destruct (u32_try (vec_len (fc_descriptions c))) as [n|]; [|done]. cbn [ok_or ibind].
  destruct (new_tracks (S i) configs) as [rest|e|] eqn:E; [|done|done]. intros [= <-].
  destruct (IH _ _ E) as [H1 H2]. cbn [kinds map seq length]. unfold kinds in *. by rewrite H1, H2.
Qed.

Lemma write_start_tracks moov_box config configs s w s' :
  write_start_with_sample_descriptions moov_box config configs s = (Done w, s') → new_tracks 0 configs = Done (tracks w).
Proof.
  unfold write_start_with_sample_descriptions. destruct (match configs with [] => true | _ => false end); [done|].
  destruct (_ || _); [done|]. destruct (existsb _ configs); [done|]. unfold wbind, wlift.
  destruct (stream_position s) as [[n|e|] s1]; [|done|done]. destruct (ftyp_write _ s1) as [[k|e|] s2]; [|done|done].
  destruct (stream_position s2) as [[m|e|] s3]; [|done|done]. destruct (new_tracks 0 configs) as [l|e|]; [|done|done].
  destruct (write_initialization_metadata _ _ _ _ s3) as [[u|e|] s4]; [|done|done]. by intros [= <- <-].
Qed.

(** ** What the reader is given *)

Lemma log_samples_flushed id ty log :
  Forall (λ e, Forall (λ t, track_id t = id → track_type t = ty) (snd e)) log →
  log_samples id log = map (as_read ty) (flushed id log).
Proof.
  intros H. induction H as [|e log He _ IH]; [done|].
  change (log_samples id (e :: log)) with (mjoin (fragment_runs id (snd e) ++ log_runs id log)).
  change (flushed id (e :: log)) with (of_id id (snd e) ++ flushed id log).
  rewrite join_app, map_app. fold (log_samples id log). rewrite <-IH. f_equal. clear IH.
  induction He as [|t l Ht _ IH]; [done|]. rewrite filter_cons_id, of_id_cons, join_app, map_app, IH. f_equal.
  case_decide as Hid; [|done]. cbn. rewrite app_nil_r. unfold read_back. by rewrite Ht.
Qed.

Lemma flushed_elem log e t s : e ∈ log → t ∈ snd e → s ∈ samples t → s ∈ flushed (track_id t) log.
Proof.
  intros He Ht Hs. unfold flushed. apply list_elem_of_join. exists (of_id (track_id t) (snd e)).
  split; [|apply list_elem_of_fmap; eauto]. unfold of_id. apply list_elem_of_join. exists (samples t).
  split; [done|]. apply list_elem_of_fmap. exists t. split; [done|]. by apply list_elem_of_filter.
Qed.

Lemma elem_flushed id log s : s ∈ flushed id log → ∃ e t, e ∈ log ∧ t ∈ snd e ∧ track_id t = id ∧ s ∈ samples t.
Proof.
  intros H. unfold flushed in H. apply list_elem_of_join in H as (k & Hs & Hk).
  apply list_elem_of_fmap in Hk as (e & -> & He). unfold of_id in Hs. apply list_elem_of_join in Hs as (k & Hs & Hk).
  apply list_elem_of_fmap in Hk as (t & -> & Ht). apply list_elem_of_filter in Ht as [Hid Ht]. by exists e, t.
Qed.

Lemma flushed_sample_ok w log id s : session_ok (w, log) → s ∈ flushed id log → sample_ok s.
Proof.
  intros Hx (e & t & He & Ht & _ & Hs)%elem_flushed. destruct (session_sizes w log Hx) as [Hl _].
  rewrite Forall_forall in Hl. pose proof (eo_pending _ _ _ (Hl e He)) as Hp. rewrite Forall_forall in Hp.
  destruct (Hp t Ht) as [[i Hok] _]. pose proof (to_samples _ _ Hok) as Hf. rewrite Forall_forall in Hf. by apply Hf.
Qed.

Lemma contiguous_ends k :
  contiguous k → Forall sample_ok k → (∀ p, last k = Some p → sample_ends p) → Forall sample_ends k.
Proof.
  intros Hc Hs. revert Hc. induction Hs as [|s k Hs Hk IH]; intros Hc Hl; [done|]. destruct k as [|y k].
  - constructor; [by apply Hl|done].
  - destruct Hc as [Hy Hc]. constructor; [|by apply IH]. unfold sample_ends. rewrite <-Hy.
    apply Forall_cons in Hk as [Hy' _]. apply Hy'.
Qed.

(** The two tracks of a recording. *)
Lemma two_tracks_count log :
  Forall (λ e, Forall (λ t, track_id t = 1 ∨ track_id t = 2) (snd e)) log →
  log_count log = vec_len (flushed 1 log) + vec_len (flushed 2 log).
Proof.
  intros H. unfold log_count, vec_len. induction H as [|e log He _ IH]; [done|]. rewrite zsum_cons, IH.
  change (flushed 1 (e :: log)) with (of_id 1 (snd e) ++ flushed 1 log).
  change (flushed 2 (e :: log)) with (of_id 2 (snd e) ++ flushed 2 log). rewrite !length_app.
  assert (zsum (λ t, Z.of_nat (length (samples t))) (snd e) = Z.of_nat (length (of_id 1 (snd e))) + Z.of_nat (length (of_id 2 (snd e)))); [|lia].
  clear IH. induction He as [|t l Ht _ IH]; [done|]. rewrite zsum_cons, IH, !of_id_cons, !length_app.
  destruct Ht as [E|E]; repeat case_decide; cbn [length]; lia.
Qed.
