(* ===== verification/MediumTerm.v ===== *)
(** * The medium-term writer

    [src/storage/medium_term.rs] with [medium_term/volume_file.rs] and
    [src/media_time.rs]: the recorder's frames become an MP4 file of fragments.  The
    writer waits for a keyframe, prepares the frames up to the next one, and then
    writes: a keyframe ends a fragment, whose byte range, time and keyframe go to the
    recording catalog.

    The world is the writer, the file it will open, and the calls it makes on the
    catalog and the file system; each of these calls takes its answer from a list
    ([false] is an error), so that a statement about every world is one about every
    failure.  [write_buffer_bytes] and [started_at] only tune the buffer and the
    rotation and have no field; the counters of frames and bytes are far below [2^64].
    [Codecs] is what the writer asks of the [retina] crate. *)

From S2P Require Import Prelude Frame Nal Mp4Io Mp4Box Fragmented.

Definition VIDEO_TIMESCALE : Z := 90000.

(** ** [media_time.rs]; a [Duration] is in nanoseconds *)

Definition duration_to_ticks (d timescale : Z) : Z :=
  let whole_seconds := saturating_mul u64_max (d / nanos_per_sec) timescale in
  let fractional :=
    saturating_add u64_max (saturating_mul u64_max (d mod nanos_per_sec) timescale) 500000000 / 1000000000 in
  saturating_add u64_max whole_seconds fractional.
Definition ticks_to_duration (ticks timescale : Z) : Z :=
  if timescale =? 0 then 0
  else
    let nanos := saturating_mul u64_max (ticks mod timescale) 1000000000 / timescale in
    (ticks / timescale) * nanos_per_sec + (if nanos <=? u32_max then nanos else 999999999).

(** ** Data *)

Record RecordingStreamIdentity := mk_identity { source_id : string; stream_id : string; storage_key : string }.
Record CatalogRecording := mk_cat_recording {
  cr_id : string; cr_stream_id : string; cr_source_id : option string; cr_logical_stream_id : option string;
  cr_started_at_ms : Z; cr_ended_at_ms : option Z; cr_path : string; cr_init_offset : Z; cr_init_len : Z;
  cr_finalized : bool }.
Record CatalogFragment := mk_cat_fragment {
  cf_recording_id : string; cf_sequence : Z; cf_start_ms : Z; cf_duration_ms : Z; cf_byte_offset : Z;
  cf_byte_len : Z; cf_random_access : bool }.
Record CatalogKeyframe := mk_cat_keyframe {
  ck_recording_id : string; ck_fragment_sequence : Z; ck_byte_offset : Z; ck_byte_len : Z }.

(** The errors a [std::io::Error] is made from. *)
Inductive MtError :=
| Mp4Err (e : Mp4Error)
| OtherErr (msg : string)
| InvalidDataErr (msg : string)
| InvalidInputErr (msg : string)
| CatalogErr
| FileErr.

(** The calls that leave the writer. *)
Inductive Call :=
| CreateFile (path : string)
| OpenReservation
| UpsertRecording (r : CatalogRecording)
| InsertFragment (f : CatalogFragment) (k : option CatalogKeyframe)
| Rename (from to : string)
| UpdateRecordingPath (id path : string)
| Evidence
| FinalizeReserved
| RemoveFile (path : string).

(** The variant of [WriterFile]. *)
Inductive WriterFile := Legacy | Named.

Record ActiveWriter := mk_active {
  mp4 : FragmentedMp4Writer;
  file_kind : WriterFile;
  video_track : Z;
  video_codec : VideoCodec;
  active_media_config : MediaConfig;
  video_sample_description_index : Z;
  audio_track : option Z;
  audio_timescale : Z;
  last_video_dts : option Z;
  last_video_duration : Z;
  fragment_start_dts : option Z;
  next_audio_dts : option Z
}.

Inductive WriterState :=
| WaitingForKeyframe
| Preparing (frames : list RecordingFrame)
| Active (a : ActiveWriter).

Record MediumTermWriter := mk_medium {
  state : WriterState;
  path : string;
  final_path : string;
  recording_id : string;
  identity : RecordingStreamIdentity;
  started_at_ms : Z;
  catalog : bool;
  segment_origin : option Z;
  camera_timestamp_origin : option Z;
  frames_written : Z;
  bytes_written : Z;
  recorded_duration : Z;
  reservation : bool;
  named_volume : bool
}.

(** The writer, the answers of the calls to come, the failures of the file it opens,
    and the calls that succeeded, latest last. *)
Record World := mk_world {
  mt : MediumTermWriter;
  answers : list bool;
  file_faults : list (option Z);
  calls : list Call
}.

(** [create_inner] with the paths and the identifier it computed. *)
Definition create_inner (root_path root_final id : string) (who : RecordingStreamIdentity) (start_ms : Z)
    (with_catalog reserved : bool) : MediumTermWriter :=
  mk_medium WaitingForKeyframe root_path root_final id who start_ms with_catalog None None 0 0 0 reserved reserved.

(** ** State passing with errors and panics *)

Definition M (A : Type) : Type := World → outcome (result MtError A) * World.
Definition mret {A : Type} (a : A) : M A := λ w, (Ret (Ok a), w).
Definition mfail {A : Type} (e : MtError) : M A := λ w, (Ret (Err e), w).
Definition mpanic {A : Type} : M A := λ w, (Panic, w).
Definition mbind {A B : Type} (m : M A) (k : A → M B) : M B :=
  λ w, match m w with
       | (Ret (Ok a), w') => k a w'
       | (Ret (Err e), w') => (Ret (Err e), w')
       | (Panic, w') => (Panic, w')
       end.
Notation "'let$' x := m 'in' k" := (mbind m (λ x, k))
  (at level 10, x pattern, m at level 100, k at level 200,
   format "'[v' 'let$'  x  :=  m  'in' '/' k ']'") : rust_scope.
Notation "m ;$ k" := (mbind m (λ _, k)) (at level 100, right associativity) : rust_scope.

Definition mlift {A : Type} (r : outcome (result MtError A)) : M A := λ w, (r, w).
Definition mok_or {A : Type} (o : option A) (e : MtError) : M A :=
  match o with Some a => mret a | None => mfail e end.

Definition get_mt : M MediumTermWriter := λ w, (Ret (Ok (mt w)), w).
Definition set_mt (m : MediumTermWriter) (w : World) : World := mk_world m (answers w) (file_faults w) (calls w).
Definition put_mt (m : MediumTermWriter) : M unit := λ w, (Ret (Ok ()), set_mt m w).
Definition with_state (s : WriterState) (m : MediumTermWriter) : MediumTermWriter :=
  mk_medium s (path m) (final_path m) (recording_id m) (identity m) (started_at_ms m) (catalog m) (segment_origin m)
    (camera_timestamp_origin m) (frames_written m) (bytes_written m) (recorded_duration m) (reservation m) (named_volume m).
Definition with_origin (o t : option Z) (m : MediumTermWriter) : MediumTermWriter :=
  mk_medium (state m) (path m) (final_path m) (recording_id m) (identity m) (started_at_ms m) (catalog m) o t
    (frames_written m) (bytes_written m) (recorded_duration m) (reservation m) (named_volume m).
Definition with_counters (n b d : Z) (m : MediumTermWriter) : MediumTermWriter :=
  mk_medium (state m) (path m) (final_path m) (recording_id m) (identity m) (started_at_ms m) (catalog m)
    (segment_origin m) (camera_timestamp_origin m) n b d (reservation m) (named_volume m).
Definition with_reservation (r : bool) (m : MediumTermWriter) : MediumTermWriter :=
  mk_medium (state m) (path m) (final_path m) (recording_id m) (identity m) (started_at_ms m) (catalog m)
    (segment_origin m) (camera_timestamp_origin m) (frames_written m) (bytes_written m) (recorded_duration m) r (named_volume m).

(** A call on the catalog or the file system. *)
Definition call (c : Call) (e : MtError) : M unit :=
  λ w, match answers w with
       | false :: rest => (Ret (Err e), mk_world (mt w) rest (file_faults w) (calls w))
       | true :: rest => (Ret (Ok ()), mk_world (mt w) rest (file_faults w) (calls w ++ [c]))
       | [] => (Ret (Ok ()), mk_world (mt w) [] (file_faults w) (calls w ++ [c]))
       end.

(** An operation on the MP4 writer of the active state ([map_err(mp4_err)]). *)
Definition set_mp4 (f : FragmentedMp4Writer) (a : ActiveWriter) : ActiveWriter :=
  mk_active f (file_kind a) (video_track a) (video_codec a) (active_media_config a) (video_sample_description_index a)
    (audio_track a) (audio_timescale a) (last_video_dts a) (last_video_duration a) (fragment_start_dts a) (next_audio_dts a).
Definition set_fragment_start (o : option Z) (a : ActiveWriter) : ActiveWriter :=
  mk_active (mp4 a) (file_kind a) (video_track a) (video_codec a) (active_media_config a) (video_sample_description_index a)
    (audio_track a) (audio_timescale a) (last_video_dts a) (last_video_duration a) o (next_audio_dts a).
Definition set_description (i : Z) (c : VideoCodec) (m : MediaConfig) (a : ActiveWriter) : ActiveWriter :=
  mk_active (mp4 a) (file_kind a) (video_track a) c m i
    (audio_track a) (audio_timescale a) (last_video_dts a) (last_video_duration a) (fragment_start_dts a) (next_audio_dts a).
Definition set_last_video (o : option Z) (d : Z) (a : ActiveWriter) : ActiveWriter :=
  mk_active (mp4 a) (file_kind a) (video_track a) (video_codec a) (active_media_config a) (video_sample_description_index a)
    (audio_track a) (audio_timescale a) o d (fragment_start_dts a) (next_audio_dts a).
Definition set_next_audio (o : option Z) (a : ActiveWriter) : ActiveWriter :=
  mk_active (mp4 a) (file_kind a) (video_track a) (video_codec a) (active_media_config a) (video_sample_description_index a)
    (audio_track a) (audio_timescale a) (last_video_dts a) (last_video_duration a) (fragment_start_dts a) o.

(** [if let Active(ref mut active) = self.state]; every caller has checked the state. *)
Definition get_active : M ActiveWriter :=
  λ w, match state (mt w) with Active a => (Ret (Ok a), w) | _ => (Panic, w) end.
Definition modify_active (f : ActiveWriter → ActiveWriter) : M unit :=
  λ w, match state (mt w) with
       | Active a => (Ret (Ok ()), set_mt (with_state (Active (f a)) (mt w)) w)
       | _ => (Panic, w)
       end.
Definition on_mp4 {A : Type} (m : FW A) : M A :=
  λ w, match state (mt w) with
       | Active a =>
           let '(r, f) := m (mp4 a) in
           let w' := set_mt (with_state (Active (set_mp4 f a)) (mt w)) w in
           match r with
           | Done x => (Ret (Ok x), w')
           | Fails e => (Ret (Err (Mp4Err e)), w')
           | Panics => (Panic, w')
           end
       | _ => (Panic, w)
       end.

(** ** Decoder parameters *)

(** [parameters_from_sps_and_pps] and [parameters_from_vps_sps_pps]: the pixel
    dimensions, and for H.265 the decoder configuration record. *)
Record Codecs := mk_codecs {
  h264_parameters : list Z → list Z → option (Z * Z);
  h265_parameters : list Z → list Z → list Z → option (Z * Z * list Z)
}.

Definition u16_try (n : Z) : option Z := if (0 <=? n) && (n <=? 65535) then Some n else None.
Definition invalid {A : Type} (msg : string) : outcome (result MtError A) := Ret (Err (InvalidDataErr msg)).
Notation "'let+' x := o 'or' msg 'in' k" := (match o with Some x => k | None => invalid msg end)
  (at level 10, x pattern, o at level 100, msg at level 9, k at level 200) : rust_scope.

Section codecs.
Context (codecs : Codecs).

Definition h264_pixel_dimensions (sps pps : list Z) : option (Z * Z) :=
  match h264_parameters codecs sps pps with
  | Some (w, h) => match u16_try w, u16_try h with Some w, Some h => Some (w, h) | _, _ => None end
  | None => None
  end.

Definition h265_media_config (video : VideoFrame) : outcome (result MtError (option MediaConfig)) :=
  let! params := extract_h265_params (v_data video) in
  match params with
  | (None, None, None) => Ret (Ok None)
  | (Some vps, Some sps, Some pps) =>
      if existsb (λ p, 65535 <? vec_len p) [vps; sps; pps]
      then invalid "H.265 parameter set exceeds the 16-bit MP4 wire length"
      else
        let+ (w, h, extra) := h265_parameters codecs vps sps pps or "invalid H.265 parameter sets" in
        let+ w := u16_try w or "H.265 width exceeds MP4 range" in
        let+ h := u16_try h or "H.265 height exceeds MP4 range" in
        Ret (Ok (Some (HevcConfig w h vps sps pps extra)))
  | _ => invalid "H.265 keyframe has incomplete decoder parameters"
  end.
Definition video_media_config (video : VideoFrame) : outcome (result MtError (option MediaConfig)) :=
  match v_codec video with
  | H264 =>
      let! params := extract_h264_sps_pps (v_data video) in
      match params with
      | (None, None) => Ret (Ok None)
      | (Some sps, Some pps) =>
          let+ fallback_width := u16_try (v_width video) or "H.264 width exceeds MP4 range" in
          let+ fallback_height := u16_try (v_height video) or "H.264 height exceeds MP4 range" in
          let '(w, h) := default (fallback_width, fallback_height) (h264_pixel_dimensions sps pps) in
          Ret (Ok (Some (AvcConfig w h sps pps)))
      | _ => invalid "H.264 keyframe has incomplete decoder parameters"
      end
  | H265 => h265_media_config video
  end.
Definition codec_name (c : VideoCodec) : string := match c with H264 => "h264" | H265 => "h265" end.
Definition required_video_media_config (video : VideoFrame) : outcome (result MtError MediaConfig) :=
  let! r := video_media_config video in
  match r with
  | Ok (Some c) => Ret (Ok c)
  | Ok None => invalid (codec_name (v_codec video) ++ " keyframe has no decoder parameters")
  | Err e => Ret (Err e)
  end.

(** ** Time *)

Definition resolve_video_dts (previous_dts : option Z) (camera_dts fallback_duration : Z) : Z :=
  match previous_dts with
  | None => camera_dts
  | Some previous =>
      if previous <? camera_dts then camera_dts
      else saturating_add u64_max previous (Z.max fallback_duration 1)
  end.
Definition timestamp_ticks_or_fallback (timestamp origin : option Z) (wall_elapsed timescale : Z) : Z :=
  let elapsed := match timestamp, origin with
                 | Some t, Some o => saturating_sub t o
                 | _, _ => wall_elapsed
                 end in
  duration_to_ticks elapsed timescale.
Definition audio_sample_duration (d timescale : Z) : outcome (result MtError Z) :=
  match u32_try (duration_to_ticks d timescale) with
  | Some n => if 0 <? n then Ret (Ok n) else Ret (Err (OtherErr "invalid audio frame duration"))
  | None => Ret (Err (OtherErr "invalid audio frame duration"))
  end.
(** The [u128] product does not saturate. *)
Definition ticks_to_millis (ticks timescale : Z) : Z :=
  let millis := ticks * 1000 / timescale in
  if millis <=? u64_max then millis else u64_max.

Definition sample_freq_index (rate : Z) : SampleFreqIndex :=
  if rate =? 96000 then Freq96000 else if rate =? 88200 then Freq88200 else if rate =? 64000 then Freq64000
  else if rate =? 48000 then Freq48000 else if rate =? 44100 then Freq44100 else if rate =? 32000 then Freq32000
  else if rate =? 24000 then Freq24000 else if rate =? 22050 then Freq22050 else if rate =? 16000 then Freq16000
  else if rate =? 12000 then Freq12000 else if rate =? 11025 then Freq11025 else if rate =? 8000 then Freq8000
  else Freq48000.

Definition audio_frame_config (f : RecordingFrame) : option TrackConfig :=
  match frame f with
  | Video _ => None
  | Audio a =>
      if bool_decide (a_codec a ≠ Aac) then None
      else
        let '(raw_aac, info) := strip_adts (a_data a) in
        match raw_aac with
        | [] => None
        | _ =>
            let scale := match info with Some i => sample_rate i | None => a_sample_rate a end in
            let n := match info with Some i => channels i | None => 1 end in
            Some (mk_track_config AudioTrack scale "und"
                    (AacConfig 64000 AacLowComplexity (sample_freq_index scale) (if n =? 2 then Stereo else Mono)))
        end
  end.
(** [Iterator::find_map]. *)
Fixpoint find_map {A B : Type} (f : A → option B) (l : list A) : option B :=
  match l with
  | [] => None
  | a :: l => match f a with Some b => Some b | None => find_map f l end
  end.
Definition audio_track_config (frames : list RecordingFrame) : option TrackConfig := find_map audio_frame_config frames.

(** ** The catalog and the file *)

Definition catalog_initialization (r : Mp4ByteRange) : M unit :=
  let$ m := get_mt in
  if catalog m then
    call (UpsertRecording
      (mk_cat_recording (recording_id m) (storage_key (identity m)) (Some (source_id (identity m)))
         (Some (stream_id (identity m))) (started_at_ms m) None (path m) (range_offset r) (range_size r) false))
      CatalogErr
  else mret ().

(** The row of a fragment, and of its keyframe. *)
Definition catalog_fragment (m : MediumTermWriter) (info : Mp4FragmentInfo) (start_dts end_dts : Z) : CatalogFragment :=
  let start_offset_ms := ticks_to_millis start_dts VIDEO_TIMESCALE in
  let duration_ms := Z.max (ticks_to_millis (saturating_sub end_dts start_dts) VIDEO_TIMESCALE) 1 in
  let start_ms := i64_saturating_add (started_at_ms m) (if start_offset_ms <=? i64_max then start_offset_ms else i64_max) in
  mk_cat_fragment (recording_id m) (info_sequence info) start_ms duration_ms
    (range_offset (info_range info)) (range_size (info_range info)) true.
Definition catalog_keyframe (m : MediumTermWriter) (info : Mp4FragmentInfo) : option CatalogKeyframe :=
  match video_keyframe info with
  | Some l => Some (mk_cat_keyframe (recording_id m) (info_sequence info) (loc_offset l) (loc_size l))
  | None => None
  end.
Definition insert_catalog_fragment (info : Mp4FragmentInfo) (start_dts end_dts : Z) : M unit :=
  let$ m := get_mt in
  if catalog m then
    call (InsertFragment (catalog_fragment m info start_dts end_dts) (catalog_keyframe m info)) CatalogErr
  else mret ().

Definition open_writer_file : M WriterFile :=
  let$ m := get_mt in
  if reservation m then
    put_mt (with_reservation false m) ;$ call OpenReservation FileErr ;$ mret Named
  else if negb (named_volume m) then
    call (CreateFile (path m)) FileErr ;$ mret Legacy
  else mfail (OtherErr "named recording reservation is no longer available").

(** [WriterFile::complete]. *)
Definition complete (kind : WriterFile) : M unit :=
  let$ m := get_mt in
  match kind with
  | Legacy =>
      call (Rename (path m) (final_path m)) FileErr ;$
      (if catalog m then call (UpdateRecordingPath (recording_id m) (final_path m)) CatalogErr else mret ())
  | Named => call Evidence FileErr ;$ call FinalizeReserved FileErr
  end.

Section moov.
Context (moov_box : Z → list FragmentTrack → io (list Z)).

(** ** Opening the file *)

Definition mp4_config : Mp4Config := mk_config 0x69736f36 1 [0x69736f36; 0x69736f6d; 0x6d703431] 1000.

Definition init_mp4 (frames : list RecordingFrame) : M ActiveWriter :=
  match find is_video_keyframe frames with
  | None => mfail (OtherErr "prepared MP4 segment has no keyframe")
  | Some keyframe =>
      match frame keyframe with
      | Audio _ => mfail (OtherErr "prepared MP4 keyframe is not video")
      | Video video =>
          let$ media_conf := mlift (required_video_media_config video) in
          let video_config := mk_track_config VideoTrack VIDEO_TIMESCALE "und" media_conf in
          let audio_config := audio_track_config frames in
          let audio := match audio_config with Some c => Some (tc_timescale c) | None => None end in
          let$ kind := open_writer_file in
          let$ f := (λ w,
            match write_start moov_box mp4_config
                    (video_config :: match audio_config with Some c => [c] | None => [] end)
                    (mk_sink [] 0 (file_faults w)) with
            | (Done f, _) => (Ret (Ok f), w)
            | (Fails e, _) => (Ret (Err (Mp4Err e)), w)
            | (Panics, _) => (Panic, w)
            end) in
          catalog_initialization (initialization f) ;$
          mret (mk_active f kind 1 (v_codec video) media_conf 1
                  (match audio with Some _ => Some 2 | None => None end) (default 0 audio) None 0 None None)
      end
  end.

(** ** Writing a frame *)

(** What the catalog is told once the frame is in: a fragment and its time. *)
Definition Completed : Type := option (Mp4FragmentInfo * Z * Z).

Definition flush_before_keyframe (dts : Z) : M Completed :=
  let$ a := get_active in
  let$ start := mok_or (fragment_start_dts a) (OtherErr "active MP4 fragment has no start timestamp") in
  let$ fragment := on_mp4 (flush_fragment_before_sample (video_track a) dts) in
  modify_active (set_fragment_start (Some dts)) ;$
  mret (match fragment with Some f => Some (f, start, dts) | None => None end).

(** The sample description of a keyframe, and the check of any other frame. *)
Definition describe_keyframe (video : VideoFrame) : M unit :=
  let$ config := mlift (video_media_config video) in
  let$ a := get_active in
  match config with
  | Some c =>
      let$ index := on_mp4 (add_sample_description moov_box (video_track a) c) in
      modify_active (set_description index (v_codec video) c)
  | None =>
      if bool_decide (v_codec video ≠ video_codec a)
      then mfail (InvalidDataErr "video codec changed without decoder parameters")
      else mret ()
  end.
Definition check_delta_frame (video : VideoFrame) : M unit :=
  let$ a := get_active in
  if bool_decide (v_codec video ≠ video_codec a)
  then mfail (InvalidDataErr "video codec changed without a keyframe boundary")
  else
    let$ has_parameters :=
      mlift (let! b := match v_codec video with
                       | H264 => has_h264_parameter_sets (v_data video)
                       | H265 => has_h265_parameter_sets (v_data video)
                       end in Ret (Ok b)) in
    if has_parameters then
      let$ config := mlift (required_video_media_config video) in
      if bool_decide (config ≠ active_media_config a)
      then mfail (InvalidDataErr "video decoder parameters changed without a keyframe boundary")
      else mret ()
    else mret ().

(** The duration of a frame until the next one corrects it. *)
Definition frame_duration (last : option Z) (dts fallback : Z) : outcome Z :=
  match last with
  | None => Ret fallback
  | Some l =>
      if dts <? l then Panic
      else match u32_try (dts - l) with
           | Some d => if 0 <? d then Ret d else Ret fallback
           | None => Ret fallback
           end
  end.

(** The frame itself, once the fragment before it is out. *)
Definition store_video (video : VideoFrame) (dts fallback_duration : Z) : M unit :=
  (if v_is_keyframe video then describe_keyframe video else check_delta_frame video) ;$
  modify_active (λ a, set_fragment_start (Some (default dts (fragment_start_dts a))) a) ;$
  let$ a := get_active in
  let$ d := mlift (let! d := frame_duration (last_video_dts a) dts fallback_duration in Ret (Ok d)) in
  on_mp4 (write_sample_with_description (video_track a) (video_sample_description_index a)
            (mk_sample dts d 0 (v_is_keyframe video) (v_data video))) ;$
  modify_active (set_last_video (Some dts) d) ;$
  let$ m := get_mt in
  put_mt (with_counters (frames_written m + 1) (bytes_written m + vec_len (v_data video))
            (saturating_add duration_max (recorded_duration m) (ticks_to_duration d VIDEO_TIMESCALE)) m).

Definition write_video (rf : RecordingFrame) (video : VideoFrame) (elapsed : Z) : M Completed :=
  let$ a := get_active in
  let$ m := get_mt in
  let camera_dts := timestamp_ticks_or_fallback (timestamp rf) (camera_timestamp_origin m) elapsed VIDEO_TIMESCALE in
  let fallback_duration := Z.max (last_video_duration a) 1 in
  let dts := resolve_video_dts (last_video_dts a) camera_dts fallback_duration in
  let$ completed :=
    (if v_is_keyframe video && has_pending_samples (mp4 a) then flush_before_keyframe dts else mret None) in
  store_video video dts fallback_duration ;$
  mret completed.

Definition write_audio (rf : RecordingFrame) (audio : AudioFrame) (elapsed : Z) : M unit :=
  if bool_decide (a_codec audio ≠ Aac) then mret ()
  else
    let raw_aac := fst (strip_adts (a_data audio)) in
    match raw_aac with
    | [] => mret ()
    | _ =>
        let$ a := get_active in
        match audio_track a with
        | None => mret ()
        | Some track =>
            let$ m := get_mt in
            let camera_dts :=
              match timestamp rf with
              | Some _ => Some (timestamp_ticks_or_fallback (timestamp rf) (camera_timestamp_origin m) elapsed (audio_timescale a))
              | None => None
              end in
            let dts := match next_audio_dts a, camera_dts with
                       | Some next, Some camera => Z.max next camera
                       | Some next, None => next
                       | None, Some camera => camera
                       | None, None => duration_to_ticks elapsed (audio_timescale a)
                       end in
            let$ d := mlift (audio_sample_duration (a_duration audio) (audio_timescale a)) in
            on_mp4 (write_sample track
              (mk_sample dts d 0 true (drop (length (a_data audio) - length raw_aac) (a_data audio)))) ;$
            (if u64_max <? dts + d then mpanic else modify_active (set_next_audio (Some (dts + d)))) ;$
            let$ m := get_mt in
            put_mt (with_counters (frames_written m + 1) (bytes_written m + vec_len raw_aac) (recorded_duration m) m)
        end
    end.

Definition write_frame (rf : RecordingFrame) : M unit :=
  let$ m := get_mt in
  match state m with
  | Active _ =>
      match segment_origin m with
      | None => mpanic
      | Some origin =>
          let elapsed := saturating_duration_since (received_at rf) origin in
          match frame rf with
          | Video video =>
              let$ completed := write_video rf video elapsed in
              match completed with
              | Some (fragment, start_dts, end_dts) => insert_catalog_fragment fragment start_dts end_dts
              | None => mret ()
              end
          | Audio audio => write_audio rf audio elapsed
          end
      end
  | _ => mret ()
  end.
Fixpoint write_frames (l : list RecordingFrame) : M unit :=
  match l with
  | [] => mret ()
  | f :: l => write_frame f ;$ write_frames l
  end.

(** ** The public operations *)

Definition activate_prepared : M unit :=
  let$ m := get_mt in
  match state m with
  | Preparing frames =>
      put_mt (with_state WaitingForKeyframe m) ;$
      let$ active := init_mp4 frames in
      let$ m := get_mt in
      put_mt (with_state (Active active) m) ;$
      write_frames frames
  | _ => mret ()
  end.

Definition append_one (rf : RecordingFrame) : M Z :=
  let$ m := get_mt in
  let previous := recorded_duration m in
  match state m with
  | WaitingForKeyframe =>
      (if is_video_keyframe rf
       then put_mt (with_state (Preparing [rf]) (with_origin (Some (received_at rf)) (timestamp rf) m))
       else mret ()) ;$
      mret 0
  | _ =>
      (match state m with
       | Preparing _ => if is_video_keyframe rf then activate_prepared else mret ()
       | _ => mret ()
       end) ;$
      let$ m := get_mt in
      (match state m with
       | Preparing frames => put_mt (with_state (Preparing (frames ++ [rf])) m)
       | Active _ => write_frame rf
       | WaitingForKeyframe => mfail (OtherErr "fragmented MP4 writer lost its prepared state")
       end) ;$
      let$ m := get_mt in
      mret (saturating_sub (recorded_duration m) previous)
  end.
Fixpoint append_batch (frames : list RecordingFrame) (total : Z) : M Z :=
  match frames with
  | [] => mret total
  | rf :: frames =>
      let$ d := append_one rf in
      append_batch frames (saturating_add duration_max total d)
  end.

Definition append_received (rf : RecordingFrame) : M Z :=
  let$ m := get_mt in
  let origin := default (received_at rf) (segment_origin m) in
  let$ elapsed := mok_or (checked_duration_since (received_at rf) origin)
                    (InvalidInputErr "replay precedes the recording origin") in
  let$ t := mok_or (checked_add duration_max (default 0 (camera_timestamp_origin m)) elapsed)
              (InvalidInputErr "replay timestamp exceeds the recording timeline") in
  append_one (mk_frame (received_at rf) (Some t) (frame rf)).

(** The end of [finalize]; flushing the buffer moves no byte of the file.  The writer is
    consumed; the model keeps its last state, so that a statement can look at the file. *)
Definition finish_recording : M string :=
  let$ m := get_mt in
  match state m with
  | Active a =>
      let$ final_fragment := on_mp4 write_end in
      on_mp4 (on_sink sink_flush) ;$
      on_mp4 (on_sink sink_flush) ;$
      (match final_fragment with
       | Some fragment =>
           let$ start := mok_or (fragment_start_dts a) (OtherErr "final MP4 fragment has no start timestamp") in
           insert_catalog_fragment fragment start
             (saturating_add u64_max (default start (last_video_dts a)) (last_video_duration a))
       | None => mret ()
       end) ;$
      complete (file_kind a) ;$
      mret (final_path m)
  | _ =>
      (if negb (named_volume m) then (λ w, (Ret (Ok ()), snd (call (RemoveFile (path m)) FileErr w))) else mret ()) ;$
      put_mt (with_state WaitingForKeyframe m) ;$
      mret (final_path m)
  end.
Definition finalize : M string :=
  let$ m := get_mt in
  (match state m with Preparing _ => activate_prepared | _ => mret () end) ;$
  finish_recording.

Definition discard_pending : M unit :=
  let$ m := get_mt in
  match state m with
  | Active _ =>
      modify_active (λ a, set_next_audio None (set_last_video None (last_video_duration a)
                            (set_fragment_start None (set_mp4 (discard_pending_samples (mp4 a)) a))))
  | _ => put_mt (with_state WaitingForKeyframe m)
  end.

Definition finalize_before (end_ : Z) : M string :=
  activate_prepared ;$
  let$ m := get_mt in
  let limit := match segment_origin m with
               | Some origin => Some (duration_to_ticks (saturating_duration_since end_ origin) VIDEO_TIMESCALE)
               | None => None
               end in
  let$ completed :=
    (match state m with
     | Active a =>
         match limit, last_video_dts a, fragment_start_dts a with
         | Some limit, Some last, Some start =>
             let end_dts := Z.min limit (saturating_add u64_max last (last_video_duration a)) in
             if end_dts <=? last
             then mfail (InvalidDataErr "event deadline does not follow the last video sample")
             else
               let$ fragment := on_mp4 (flush_fragment_before_sample (video_track a) end_dts) in
               mret (match fragment with Some f => Some (f, start, end_dts) | None => None end)
         | _, _, _ => mret None
         end
     | _ => mret None
     end) in
  (match completed with
   | Some (fragment, start, end_dts) => insert_catalog_fragment fragment start end_dts
   | None => mret ()
   end) ;$
  finalize.

End moov.
End codecs.
