(* ===== verification/MediumTermInv.v ===== *)
(** * What a recording contains

    The medium-term writer ([MediumTerm]) on top of the fragmented writer: the frames it
    is given, the samples of the file and the rows of the catalog stay in step. *)

From S2P Require Import Prelude Frame Nal Mp4Io Mp4Box Fragmented FragmentedInv FragmentedRun Mp4Track Mp4TrackInv Mp4ReadBack FragmentedSamples MediumTerm.

(** ** Inverting a successful run *)

Lemma mbind_ok {A B : Type} (m : M A) (k : A → M B) w b w' :
  mbind m k w = (Ret (Ok b), w') → ∃ a w1, m w = (Ret (Ok a), w1) ∧ k a w1 = (Ret (Ok b), w').
Proof. unfold mbind. destruct (m w) as [[[a|e]|] w1]; intros E; [eauto|done|done]. Qed.

Lemma mlift_ok {A : Type} (r : outcome (result MtError A)) w a w' :
  mlift r w = (Ret (Ok a), w') → r = Ret (Ok a) ∧ w' = w.
Proof. by intros [= -> ->]. Qed.
Lemma mok_or_ok {A : Type} (o : option A) e w a w' : mok_or o e w = (Ret (Ok a), w') → o = Some a ∧ w' = w.
Proof. destruct o; [by intros [= -> ->]|done]. Qed.
Lemma get_mt_ok w a w' : get_mt w = (Ret (Ok a), w') → a = mt w ∧ w' = w.
Proof. by intros [= -> ->]. Qed.
Lemma call_ok c e w u w' : call c e w = (Ret (Ok u), w') →
  ∃ rest, w' = mk_world (mt w) rest (file_faults w) (calls w ++ [c]).
Proof. unfold call. destruct (answers w) as [|[] l]; intros [= _ <-]; eauto. Qed.
Lemma get_active_ok w a w' : get_active w = (Ret (Ok a), w') → state (mt w) = Active a ∧ w' = w.
Proof. unfold get_active. destruct (state (mt w)); [done|done|by intros [= -> ->]]. Qed.

(** The world with another active writer. *)
Definition set_active (a : ActiveWriter) (w : World) : World := set_mt (with_state (Active a) (mt w)) w.
Lemma modify_active_ok f w u w' : modify_active f w = (Ret (Ok u), w') →
  ∃ a, state (mt w) = Active a ∧ w' = set_active (f a) w.
Proof. unfold modify_active. destruct (state (mt w)) as [| |a]; [done|done|]. intros [= _ <-]. eauto. Qed.
Lemma on_mp4_ok {A : Type} (m : FW A) w x w' : on_mp4 m w = (Ret (Ok x), w') →
  ∃ a f, state (mt w) = Active a ∧ m (mp4 a) = (Done x, f) ∧ w' = set_active (set_mp4 f a) w.
Proof.
  unfold on_mp4. destruct (state (mt w)) as [| |a]; [done|done|]. destruct (m (mp4 a)) as [[y|e|] f] eqn:E; [|done|done].
  intros [= -> <-]. by exists a, f.
Qed.

(** Takes the first call of a successful run apart. *)
Ltac msimp H :=
  lazymatch type of H with
  | get_mt _ = (Ret (Ok _), _) => apply get_mt_ok in H as [-> ->]
  | get_active _ = (Ret (Ok _), _) => apply get_active_ok in H as [H ->]
  | mret _ _ = (Ret (Ok _), _) => injection H as <- <-
  | put_mt _ _ = (Ret (Ok _), _) => injection H as _ <-
  | mlift _ _ = (Ret (Ok _), _) => apply mlift_ok in H as [H ->]
  | mok_or _ _ _ = (Ret (Ok _), _) => apply mok_or_ok in H as [H ->]
  | mfail _ _ = (Ret (Ok _), _) => discriminate H
  | mpanic _ = (Ret (Ok _), _) => discriminate H
  | _ => idtac
  end.
Ltac mstep H x w1 H1 := apply mbind_ok in H as (x & w1 & H1 & H); cbv beta in H; msimp H1.

(** ** The frames, the samples and the rows *)

Definition video_key (rf : RecordingFrame) : option (bool * list Z) :=
  match frame rf with Video v => Some (v_is_keyframe v, v_data v) | Audio _ => None end.
Definition videos (l : list RecordingFrame) : list (bool * list Z) := omap video_key l.

(** The payload of an AAC frame without its ADTS header. *)
Definition audio_key (rf : RecordingFrame) : option (bool * list Z) :=
  match frame rf with
  | Video _ => None
  | Audio a => if bool_decide (a_codec a ≠ Aac) then None
               else match fst (strip_adts (a_data a)) with [] => None | raw => Some (true, raw) end
  end.
Definition audios (l : list RecordingFrame) : list (bool * list Z) := omap audio_key l.

Definition frame_typed (rf : RecordingFrame) : Prop :=
  match frame rf with Video _ => True | Audio a => 0 ≤ a_sample_rate a end.

(** The calls of a recording: the file and its initialization, a row per fragment, the
    completion. *)
Definition fragment_row (m : MediumTermWriter) (e : Mp4FragmentInfo * list FragmentTrack) : Call :=
  let v := of_id 1 (snd e) in
  InsertFragment
    (catalog_fragment m (fst e) (first_start v) (saturating_add u64_max (first_start v) (zsum duration v)))
    (catalog_keyframe m (fst e)).
Definition opening (m : MediumTermWriter) (r : Mp4ByteRange) : list Call :=
  (if named_volume m then OpenReservation else CreateFile (path m)) ::
  if catalog m then
    [UpsertRecording (mk_cat_recording (recording_id m) (storage_key (identity m)) (Some (source_id (identity m)))
       (Some (stream_id (identity m))) (started_at_ms m) None (path m) (range_offset r) (range_size r) false)]
  else [].
Definition rows (m : MediumTermWriter) (log : fragment_log) : list Call :=
  if catalog m then map (fragment_row m) log else [].
Definition completion (m : MediumTermWriter) : list Call :=
  if named_volume m then [Evidence; FinalizeReserved]
  else Rename (path m) (final_path m) :: if catalog m then [UpdateRecordingPath (recording_id m) (final_path m)] else [].

(** What an operation never changes. *)
Definition static (m : MediumTermWriter) :=
  (path m, final_path m, recording_id m, identity m, started_at_ms m, catalog m, named_volume m).

Lemma fragment_row_static m m' e : static m = static m' → fragment_row m e = fragment_row m' e.
Proof. intros [= H1 H2 H3 H4 H5 H6 H7]. unfold fragment_row, catalog_fragment, catalog_keyframe. by rewrite H3, H5. Qed.

Section recording.
Context (codecs : Codecs) (moov_box : Z → list FragmentTrack → io (list Z)) (kind : WriterFile) (sound : option Z).

Implicit Types (a : ActiveWriter) (l : list RecordingFrame) (log : fragment_log).

(** An active writer that has written the frames [l], as fragments [log] and pending
    samples, since the file was started as [f0]. *)
Record base_ok (f0 : FragmentedMp4Writer) l a log : Prop := {
  bo_run : rtc (kept_step moov_box) (f0, []) (mp4 a, log);
  bo_tracks : video_track a = 1 ∧ audio_track a = sound ∧ (sound = None ∨ sound = Some 2);
  bo_video : map key (all_samples 1 (mp4 a) log) = videos l;
  bo_audio : map key (all_samples 2 (mp4 a) log) = match sound with Some _ => audios l | None => [] end;
  bo_ends : Forall sample_ends (all_samples 2 (mp4 a) log);
  bo_contiguous : contiguous (all_samples 1 (mp4 a) log);
  bo_durations : 0 ≤ last_video_duration a ≤ u32_max;
  bo_index : 0 ≤ video_sample_description_index a;
  bo_scale : 0 ≤ audio_timescale a;
  bo_next : ∀ n, next_audio_dts a = Some n → 0 ≤ n ≤ u64_max;
  bo_kind : file_kind a = kind
}.
(** Between two frames, the times of the active writer are those of its pending video
    samples, and there are some unless nothing was written at all. *)
Record active_ok (f0 : FragmentedMp4Writer) l a log : Prop := {
  ao_base : base_ok f0 l a log;
  ao_start : fragment_start_dts a = start_time <$> head (of_id 1 (tracks (mp4 a)));
  ao_last : last_video_dts a = start_time <$> last (of_id 1 (tracks (mp4 a)));
  ao_duration : ∀ p, last (of_id 1 (tracks (mp4 a))) = Some p → duration p = last_video_duration a;
  ao_pending : of_id 1 (tracks (mp4 a)) = [] → log = [] ∧ has_pending_samples (mp4 a) = false
}.
(** Before the sample at [dts], once the fragment before it is out. *)
Record ready_ok (f0 : FragmentedMp4Writer) l (dts : Z) a log : Prop := {
  ry_base : base_ok f0 l a log;
  ry_start : default dts (fragment_start_dts a) = default dts (start_time <$> head (of_id 1 (tracks (mp4 a))));
  ry_stretched : of_id 1 (tracks (mp4 a)) ≠ [] ∨ stretch dts (flushed 1 log) = flushed 1 log
}.

Lemma session_writer f0 w log : session_ok (f0, []) → rtc (kept_step moov_box) (f0, []) (w, log) → writer_ok w.
Proof. intros H0 Hr. apply (ss_writer _ (frag_run_ok moov_box _ _ (kept_run_frag _ _ _ Hr) H0)). Qed.

Lemma stretch_nil n k : stretch n k = [] → k = [].
Proof. destruct k as [|s k]; [done|]. by destruct (stretch_head n s k) as (s' & k' & -> & _). Qed.

(** Ending a fragment before a sample at [next]. *)
Lemma flush_before_samples next w r w' log :
  writer_ok w → 0 ≤ next ≤ u64_max → of_id 1 (tracks w) ≠ [] →
  flush_fragment_before_sample 1 next w = (Done r, w') →
  ∃ info ts, r = Some info ∧ rtc (kept_step moov_box) (w, log) (w', log ++ [(info, ts)]) ∧
    of_id 1 ts = stretch next (of_id 1 (tracks w)) ∧ (∀ id, of_id id (tracks w') = []) ∧
    has_pending_samples w' = false ∧
    all_samples 1 w' (log ++ [(info, ts)]) = stretch next (all_samples 1 w log) ∧
    (∀ j, j ≠ 1 → all_samples j w' (log ++ [(info, ts)]) = all_samples j w log) ∧
    (∀ p, last (of_id 1 (tracks w)) = Some p → 0 < next - start_time p).
Proof.
  intros Hw Hn Hne. unfold flush_fragment_before_sample, fbind.
  destruct (finish_trailing_sample 1 next w) as [[[]|e|] w1] eqn:E1; [|done|done]. intros E2.
  destruct (finish_samples 1 next w w1 Hw E1) as (H1 & Hp & Hj).
  destruct (finish_ok 1 next w _ w1 Hw Hn E1) as (Hw1 & _ & _).
  destruct (flush_samples w1 r w' log Hw1 E2) as (Ha & Hnil & Hids & Hnone).
  assert (of_id 1 (tracks w1) ≠ []) as Hne1 by (rewrite H1; intros E; by apply stretch_nil in E).
  destruct r as [info|]; cycle 1.
  { exfalso. apply Hne1. rewrite <-of_id_pending, Hnone by done. done. }
  exists info, (pending w1). split; [done|]. split; [|split; [|split; [done|split; [|split; [|split]]]]].
  - apply rtc_l with (w1, log); [by eapply kept_finish|]. apply rtc_once. by apply (kept_flush moov_box w1 log (Done (Some info))).
  - by rewrite of_id_pending.
  - apply not_true_is_false. rewrite has_pending_iff. by intros [].
  - cbn [logged] in Ha. rewrite Ha. unfold all_samples. by rewrite H1, stretch_app.
  - intros j Hne'. cbn [logged] in Ha. rewrite Ha. unfold all_samples. by rewrite Hj.
  - intros p Hl. specialize (Hp p Hl). lia.
Qed.

(** Adding the sample [s], where the fragments before it already end at its start. *)
Lemma store_samples index s w w' log :
  writer_ok w → write_sample_with_description 1 index s w = (Done (), w') →
  of_id 1 (tracks w) ≠ [] ∨ stretch (start_time s) (flushed 1 log) = flushed 1 log →
  all_samples 1 w' log = stretch (start_time s) (all_samples 1 w log) ++ [s] ∧
  last (of_id 1 (tracks w')) = Some s ∧
  start_time <$> head (of_id 1 (tracks w')) = Some (default (start_time s) (start_time <$> head (of_id 1 (tracks w)))) ∧
  (∀ j, j ≠ 1 → all_samples j w' log = all_samples j w log).
Proof.
  intros Hw E Hor. destruct (write_sample_samples 1 index s w w' Hw E) as (H1 & _ & Hj). unfold all_samples.
  rewrite H1, app_assoc. split; [|split; [by rewrite last_snoc|split]].
  - f_equal. destruct (decide (of_id 1 (tracks w) = [])) as [E0|Hne]; [|by rewrite stretch_app].
    destruct Hor as [|Hor]; [done|]. by rewrite E0, !app_nil_r, Hor.
  - destruct (of_id 1 (tracks w)) as [|x k]; [done|]. destruct (stretch_head (start_time s) x k) as (x' & k' & -> & Hst).
    cbn. by rewrite Hst.
  - intros j Hne. by rewrite Hj.
Qed.

(** ** One video frame *)

(** Only the active writer and the counters have changed. *)
Definition quiet (w w' : World) : Prop :=
  static (mt w') = static (mt w) ∧ file_faults w' = file_faults w ∧ calls w' = calls w.
Lemma quietly_refl w : quiet w w.
Proof. done. Qed.
Lemma quietly_trans w w1 w2 : quiet w w1 → quiet w1 w2 → quiet w w2.
Proof. intros (H1 & H2 & H3) (H4 & H5 & H6). unfold quiet. by rewrite H4, H5, H6. Qed.
Lemma quiet_active a w : quiet w (set_active a w).
Proof. done. Qed.

Lemma describe_keyframe_ok f0 l dts v a log w u w' :
  session_ok (f0, []) → state (mt w) = Active a → ready_ok f0 l dts a log →
  describe_keyframe codecs moov_box v w = (Ret (Ok u), w') →
  ∃ a', state (mt w') = Active a' ∧ quiet w w' ∧ ready_ok f0 l dts a' log ∧
    last_video_dts a' = last_video_dts a ∧ last_video_duration a' = last_video_duration a.
Proof.
  intros H0 Hst Hr H. unfold describe_keyframe in H. mstep H conf w1 H1. mstep H a1 w2 H2. rewrite Hst in H2. injection H2 as <-.
  destruct conf as [c|]; cycle 1.
  { case_bool_decide; msimp H. by exists a. }
  mstep H x w2 H2. apply on_mp4_ok in H2 as (a1 & f & E1 & E & ->). rewrite Hst in E1. injection E1 as <-.
  apply modify_active_ok in H as (a1 & E1 & ->). injection E1 as <-. destruct Hr as [[Hrun Htr Hv Ha Hae Hc Hd Hi Hs Hn Hk] Hst' Hor].
  pose proof (session_writer f0 _ _ H0 Hrun) as Hw. destruct Htr as [Ht1 Ht2]. rewrite Ht1 in E.
  destruct (describe_samples moov_box 1 c (mp4 a) x f Hw E) as (Hj & _ & Hx & Hpos).
  eexists. split; [done|]. split; [done|]. split; [|done]. unfold all_samples in *.
  constructor; cbn; rewrite ?Hj; try done. constructor; cbn; unfold all_samples; rewrite ?Hj; try done.
  eapply rtc_r; [exact Hrun|]. by eapply kept_describe; [exact E|].
Qed.

Lemma check_delta_frame_ok v w u w' : check_delta_frame codecs v w = (Ret (Ok u), w') → w' = w.
Proof.
  intros H. unfold check_delta_frame in H. mstep H a w1 H1. case_bool_decide; [by msimp H|].
  mstep H b w2 H2. destruct b; [|by msimp H]. mstep H c w3 H3. case_bool_decide; by msimp H.
Qed.

Lemma frame_duration_ok o dts fallback d :
  frame_duration o dts fallback = Ret d → 0 < fallback ≤ u32_max → 0 < d ≤ u32_max.
Proof.
  unfold frame_duration. intros E Hf. destruct o as [p|]; [|by injection E as <-]. destruct (dts <? p); [done|].
  destruct (u32_try (dts - p)) as [n|] eqn:Eu; [|by injection E as <-]. apply u32_try_Some in Eu as [-> Hu].
  destruct (0 <? dts - p) eqn:Ez; injection E as <-; [|done]. reflect_bools. lia.
Qed.

Lemma write_sample_done id index s w w' :
  write_sample_with_description id index s w = (Done (), w') → duration s ≠ 0 ∧ vec_len (bytes s) ≤ u32_max.
Proof.
  unfold write_sample_with_description, fbind, ensure_not_poisoned. destruct (poisoned w); [done|].
  destruct (duration s =? 0) eqn:E1; [done|]. destruct (u32_max <? _) eqn:E2; [done|]. intros _. reflect_bools. lia.
Qed.

Lemma video_sample_ok dts d b data index w w' :
  0 ≤ dts ≤ u64_max → 0 < d ≤ u32_max →
  write_sample_with_description 1 index (mk_sample dts d 0 b data) w = (Done (), w') → sample_ok (mk_sample dts d 0 b data).
Proof. intros Ht Hd E. apply write_sample_done in E as [_ Hl]. constructor; cbn in *; lia. Qed.

Lemma videos_snoc l rf : videos (l ++ [rf]) = videos l ++ option_list (video_key rf).
Proof. unfold videos. rewrite omap_app. cbn. by destruct (video_key rf). Qed.
Lemma audios_snoc l rf : audios (l ++ [rf]) = audios l ++ option_list (audio_key rf).
Proof. unfold audios. rewrite omap_app. cbn. by destruct (audio_key rf). Qed.

Lemma store_video_ok f0 l rf v dts fallback a log w u w' :
  session_ok (f0, []) → state (mt w) = Active a → ready_ok f0 l dts a log → frame rf = Video v →
  0 ≤ dts ≤ u64_max → 0 < fallback ≤ u32_max →
  store_video codecs moov_box v dts fallback w = (Ret (Ok u), w') →
  ∃ a', state (mt w') = Active a' ∧ quiet w w' ∧ active_ok f0 (l ++ [rf]) a' log.
Proof.
  intros H0 Hst Hr Hf Ht Hfb H. unfold store_video in H. mstep H u1 w1 H1.
  assert (∃ a1, state (mt w1) = Active a1 ∧ quiet w w1 ∧ ready_ok f0 l dts a1 log) as (a1 & Hst1 & Hq1 & Hr1).
  { destruct (v_is_keyframe v).
    - destruct (describe_keyframe_ok f0 l dts v a log w u1 w1 H0 Hst Hr H1) as (a1 & ? & ? & ? & _). eauto.
    - apply check_delta_frame_ok in H1 as ->. eauto using quietly_refl. }
  clear H1 Hr Hst a. mstep H u2 w2 H2. apply modify_active_ok in H2 as (a & E & ->). rewrite Hst1 in E. injection E as <-.
  mstep H a w3 H3. injection H3 as <-. mstep H d w4 H4. cbn [last_video_dts set_fragment_start] in H4.
  destruct (frame_duration _ dts fallback) as [d'|] eqn:Ed; [|done]. injection H4 as <-.
  mstep H u5 w5 H5. apply on_mp4_ok in H5 as (a2 & f & E2 & E & ->). injection E2 as <-.
  mstep H u6 w6 H6. apply modify_active_ok in H6 as (a3 & E3 & ->). injection E3 as <-.
  mstep H m w7 H7. injection H as _ <-. eexists. split; [done|]. split; [exact Hq1|].
  apply frame_duration_ok in Ed; [|done]. destruct Hr1 as [[Hrun [Ht1 Ht2] Hv Ha Hae Hc Hd Hi Hs Hn Hk] Hstart Hor].
  cbn [mp4 set_fragment_start video_track video_sample_description_index] in E. rewrite Ht1 in E. destruct u5.
  pose proof (video_sample_ok _ _ _ _ _ _ _ Ht Ed E) as Hok.
  destruct (store_samples _ _ _ f log (session_writer f0 _ _ H0 Hrun) E Hor) as (Hall & Hlast & Hhead & Hj).
  constructor; cbn; rewrite ?Hhead, ?Hlast, ?Hstart; cbn; try done.
  - constructor; cbn; rewrite ?Hall, ?Hj; try done; [..|lia].
    + eapply rtc_r; [exact Hrun|]. eapply kept_sample; [exact (session_writer f0 _ _ H0 Hrun)|exact Hok|exact Hi|exact E].
    + rewrite map_app, map_key_stretch, Hv, videos_snoc. unfold video_key. by rewrite Hf.
    + rewrite Ha, audios_snoc. unfold audio_key. rewrite Hf. cbn. by rewrite app_nil_r.
    + by apply (contiguous_stretch _ (mk_sample dts d' 0 (v_is_keyframe v) (v_data v))).
  - intros p [= <-]. done.
  - intros E0. by rewrite E0 in Hlast.
Qed.

Lemma duration_to_ticks_range d scale : 0 ≤ d → 0 ≤ scale → 0 ≤ duration_to_ticks d scale ≤ u64_max.
Proof.
  intros Hd Hs. unfold duration_to_ticks, saturating_add, saturating_mul, nanos_per_sec, u64_max.
  assert (0 ≤ d / 1000000000) as Hq by (apply Z.div_pos; lia). pose proof (Z.mod_pos_bound d 1000000000 ltac:(lia)) as Hm.
  assert (∀ x, 0 ≤ x → 0 ≤ Z.min (2 ^ 64 - 1) x) as Hmin by (intros; lia).
  split; [|lia]. apply Hmin, Z.add_nonneg_nonneg; [apply Hmin; nia|]. apply Z.div_pos; [|lia]. apply Hmin.
  pose proof (Hmin (d mod 1000000000 * scale) ltac:(nia)). lia.
Qed.

Lemma ticks_range t o elapsed scale :
  0 ≤ elapsed → 0 ≤ scale → 0 ≤ timestamp_ticks_or_fallback t o elapsed scale ≤ u64_max.
Proof.
  intros He Hs. unfold timestamp_ticks_or_fallback. apply duration_to_ticks_range; [|done].
  destruct t, o; try done. unfold saturating_sub. lia.
Qed.

Lemma resolve_range o camera fallback :
  (∀ p, o = Some p → 0 ≤ p ≤ u64_max) → 0 ≤ camera ≤ u64_max → 0 ≤ resolve_video_dts o camera fallback ≤ u64_max.
Proof.
  intros Ho Hc. unfold resolve_video_dts. destruct o as [p|]; [|done]. specialize (Ho p eq_refl).
  destruct (p <? camera); [done|]. unfold saturating_add. lia.
Qed.

Lemma contiguous_suffix k1 k2 : contiguous (k1 ++ k2) → contiguous k2.
Proof. induction k1 as [|s k1 IH]; [done|]. intros [_ H]. by apply IH. Qed.

Lemma pending_sample_ok id w s : writer_ok w → s ∈ of_id id (tracks w) → sample_ok s.
Proof.
  intros Hw Hin. unfold of_id in Hin. apply list_elem_of_join in Hin as (k & Hs & Hk).
  apply list_elem_of_fmap in Hk as (t & -> & Ht). apply list_elem_of_filter in Ht as [_ Ht].
  apply list_elem_of_lookup in Ht as [i Hi]. pose proof (to_samples _ _ (wo_tracks w Hw i t Hi)) as Hf.
  rewrite Forall_forall in Hf. by apply Hf.
Qed.

Lemma last_elem {A : Type} (k : list A) p : last k = Some p → p ∈ k.
Proof. rewrite last_Some. intros [k' ->]. set_solver. Qed.

(** The time a finished run of samples covers. *)
Lemma stretch_covers next k p :
  contiguous k → last k = Some p →
  first_start (stretch next k) = first_start k ∧ first_start k + zsum duration (stretch next k) = next.
Proof.
  intros Hc Hl. pose proof (stretch_last next k p Hc Hl) as Hl'. pose proof (stretch_contiguous next k Hc) as Hc'.
  destruct k as [|s k]; [done|]. destruct (stretch_head next s k) as (s' & k' & E & Hs). rewrite E in *. cbn [first_start].
  split; [done|]. rewrite <-Hs, (contiguous_sum s' k' _ Hc' Hl'). cbn. lia.
Qed.

(** A fragment the catalog has yet to be told of. *)
Definition told (c : Completed) log log' : Prop :=
  (c = None ∧ log' = log) ∨
  ∃ info ts, log' = log ++ [(info, ts)] ∧
    c = Some (info, first_start (of_id 1 ts),
              saturating_add u64_max (first_start (of_id 1 ts)) (zsum duration (of_id 1 ts))).

Lemma flush_before_keyframe_ok f0 l dts a log w c w' :
  session_ok (f0, []) → state (mt w) = Active a → active_ok f0 l a log → of_id 1 (tracks (mp4 a)) ≠ [] →
  0 ≤ dts ≤ u64_max → flush_before_keyframe dts w = (Ret (Ok c), w') →
  ∃ a' log', state (mt w') = Active a' ∧ quiet w w' ∧ told c log log' ∧ ready_ok f0 l dts a' log'.
Proof.
  intros H0 Hst Hx Hne Ht H. unfold flush_before_keyframe in H. mstep H a1 w1 H1. rewrite Hst in H1. injection H1 as <-.
  mstep H start w2 H2. mstep H fr w3 H3. apply on_mp4_ok in H3 as (a1 & f & E1 & E & ->). rewrite Hst in E1. injection E1 as <-.
  mstep H u4 w4 H4. apply modify_active_ok in H4 as (a4 & E4 & ->). injection E4 as <-. msimp H.
  destruct Hx as [[Hrun [Ht1 Ht2] Hv Ha Hae Hc Hd Hi Hs Hn Hk] Hstart _ _ _]. rewrite Ht1 in E.
  pose proof (session_writer f0 _ _ H0 Hrun) as Hw.
  destruct (flush_before_samples dts (mp4 a) fr f log Hw Ht Hne E)
    as (info & ts & -> & Hrun' & Hts & Hnil & _ & H1' & Hj & _).
  destruct (last (of_id 1 (tracks (mp4 a)))) as [p|] eqn:El; [|by apply last_None in El].
  pose proof (contiguous_suffix _ _ Hc) as Hc1. destruct (stretch_covers dts _ p Hc1 El) as [Hf Hsum].
  eexists _, (log ++ [(info, ts)]). split; [done|]. split; [done|]. split.
  - right. exists info, ts. split; [done|]. unfold saturating_add. rewrite Hts, Hf, Hsum. f_equal. f_equal.
    + f_equal. rewrite H2 in Hstart. destruct (of_id 1 (tracks (mp4 a))); [done|]. by injection Hstart as ->.
    + lia.
  - constructor; cbn; [constructor; cbn; rewrite ?H1', ?Hj; try done| |].
    + by etrans.
    + by rewrite map_key_stretch.
    + by apply stretch_contiguous.
    + by rewrite Hnil.
    + right. unfold all_samples in H1'. rewrite Hnil, app_nil_r in H1'. rewrite H1'. by apply stretch_twice.
Qed.

Lemma write_video_ok f0 l rf v elapsed a log w c w' :
  session_ok (f0, []) → state (mt w) = Active a → active_ok f0 l a log → frame rf = Video v → 0 ≤ elapsed →
  write_video codecs moov_box rf v elapsed w = (Ret (Ok c), w') →
  ∃ a' log', state (mt w') = Active a' ∧ quiet w w' ∧ told c log log' ∧ active_ok f0 (l ++ [rf]) a' log'.
Proof.
  intros H0 Hst Hx Hf He H. unfold write_video in H. mstep H a1 w1 H1. rewrite Hst in H1. injection H1 as <-.
  mstep H m w2 H2. mstep H c' w3 H3. mstep H u w4 H4. msimp H.
  set (dts := resolve_video_dts _ _ _) in *. pose proof (bo_durations _ _ _ _ (ao_base _ _ _ _ Hx)) as Hd.
  pose proof (session_writer f0 _ _ H0 (bo_run _ _ _ _ (ao_base _ _ _ _ Hx))) as Hw.
  assert (0 ≤ dts ≤ u64_max) as Ht.
  { apply resolve_range; [|by apply ticks_range]. intros p Hp. rewrite (ao_last _ _ _ _ Hx) in Hp.
    destruct (last _) as [q|] eqn:El; [|done]. injection Hp as <-.
    by eapply so_start, pending_sample_ok, last_elem. }
  assert (∃ a1 log', state (mt w3) = Active a1 ∧ quiet w w3 ∧ told c' log log' ∧ ready_ok f0 l dts a1 log')
    as (a1 & log' & Hst1 & Hq1 & Htold & Hr).
  { destruct (decide (of_id 1 (tracks (mp4 a)) = [])) as [E0|Hne].
    - destruct (ao_pending _ _ _ _ Hx E0) as [-> Hnp]. rewrite Hnp, andb_false_r in H3. msimp H3.
      exists a, []. split; [done|]. split; [done|]. split; [by left|].
      constructor; [apply Hx|by rewrite (ao_start _ _ _ _ Hx)|by right].
    - destruct (_ && _) eqn:Eb; [by eapply flush_before_keyframe_ok|]. msimp H3.
      exists a, log. split; [done|]. split; [done|]. split; [by left|].
      constructor; [apply Hx|by rewrite (ao_start _ _ _ _ Hx)|by left]. }
  assert (0 < Z.max (last_video_duration a) 1 ≤ u32_max) as Hfb by (unfold u32_max in *; lia).
  destruct (store_video_ok f0 l rf v dts _ a1 log' w3 u w4 H0 Hst1 Hr Hf Ht Hfb H4) as (a2 & Hst2 & Hq2 & Hx2).
  exists a2, log'. split; [done|]. split; [by eapply quietly_trans|]. done.
Qed.

(** ** One audio frame *)

Lemma base_skip f0 l rf a log :
  video_key rf = None → audio_key rf = None ∨ sound = None → base_ok f0 l a log → base_ok f0 (l ++ [rf]) a log.
Proof.
  intros Hv Ha [Hrun Htr Hvs Hau Hae Hc Hd Hi Hs Hn Hk]. constructor; try done.
  - by rewrite videos_snoc, Hv, app_nil_r.
  - rewrite Hau, audios_snoc. destruct Ha as [-> | ->]; [by rewrite app_nil_r|done].
Qed.
Lemma active_skip f0 l rf a log :
  video_key rf = None → audio_key rf = None ∨ sound = None → active_ok f0 l a log → active_ok f0 (l ++ [rf]) a log.
Proof. intros Hv Ha [Hb H1 H2 H3 H4]. constructor; try done. by apply base_skip. Qed.

Lemma active_video f0 l a log : active_ok f0 l a log → videos l ≠ [] → of_id 1 (tracks (mp4 a)) ≠ [].
Proof.
  intros Hx Hv E. apply Hv. rewrite <-(bo_video _ _ _ _ (ao_base _ _ _ _ Hx)). unfold all_samples.
  rewrite E. by destruct (ao_pending _ _ _ _ Hx E) as [-> _].
Qed.

Lemma strip_adts_suffix data raw : fst (strip_adts data) = raw → raw ≠ [] → drop (length data - length raw) data = raw.
Proof.
  unfold strip_adts. destruct (parse_adts data) as [i|]; cbn [fst]; intros <- Hne.
  - assert (header_len i < length data)%nat as Hlt.
    { destruct (decide (header_len i < length data)%nat); [done|]. rewrite drop_ge in Hne by lia. done. }
    rewrite length_drop. f_equal. lia.
  - by rewrite Nat.sub_diag.
Qed.

Lemma stretch_ends n k : Forall sample_ends k → n ≤ u64_max → Forall sample_ends (stretch n k).
Proof.
  intros Hk Hn. unfold stretch. destruct (last k) as [p|] eqn:El; [|done]. revert p El.
  induction Hk as [|s k Hs Hk IH]; intros p El; [done|]. destruct k as [|y k].
  - injection El as <-. constructor; [|done]. unfold sample_ends. cbn. lia.
  - change (set_last_duration (n - start_time p) (s :: y :: k)) with (s :: set_last_duration (n - start_time p) (y :: k)).
    constructor; [done|]. by apply IH.
Qed.

(** The sample of an AAC frame [raw] in the audio track. *)
Lemma active_audio f0 l rf raw dts d a f log n :
  session_ok (f0, []) → active_ok f0 l a log → videos l ≠ [] → video_key rf = None → audio_key rf = Some (true, raw) →
  sound = Some 2 → 0 ≤ dts → dts + d ≤ u64_max → 0 < d ≤ u32_max → (∀ x, n = Some x → 0 ≤ x ≤ u64_max) →
  write_sample 2 (mk_sample dts d 0 true raw) (mp4 a) = (Done (), f) →
  active_ok f0 (l ++ [rf]) (set_next_audio n (set_mp4 f a)) log.
Proof.
  intros H0 Hx Hv Hvk Hak Htr Ht Hend Hd Hn E. pose proof (active_video _ _ _ _ Hx Hv) as Hne.
  destruct Hx as [[Hrun [Ht1 Ht2] Hvs Hau Hae Hc Hds Hi Hs Hnx Hk] Hst Hl Hdu Hp].
  pose proof (session_writer f0 _ _ H0 Hrun) as Hw.
  destruct (write_sample_samples 2 1 _ (mp4 a) f Hw E) as (H2 & _ & Hj). pose proof (Hj 1 ltac:(done)) as H1.
  constructor; cbn; rewrite ?H1; try done. constructor; cbn; try done.
  - eapply rtc_r; [exact Hrun|]. eapply (kept_sample _ _ _ 2 1); [exact Hw| |done|exact E].
    apply write_sample_done in E as [_ Hlen]. constructor; cbn in *; lia.
  - unfold all_samples in *. by rewrite H1, videos_snoc, Hvk, app_nil_r.
  - unfold all_samples in *. rewrite Htr in *. rewrite H2, audios_snoc, Hak. cbn [option_list].
    rewrite <-Hau, !map_app, map_key_stretch, <-app_assoc. done.
  - unfold all_samples in *. rewrite H2, app_assoc. apply Forall_app in Hae as [Hae1 Hae2].
    apply Forall_app. split; [|by constructor]. apply Forall_app. split; [done|]. apply stretch_ends; [done|cbn; lia].
  - unfold all_samples in *. by rewrite H1.
Qed.

Lemma audio_duration_ok d scale n : audio_sample_duration d scale = Ret (Ok n) → 0 < n ≤ u32_max.
Proof.
  unfold audio_sample_duration. destruct (u32_try _) as [x|] eqn:E; [|done]. apply u32_try_Some in E as [-> Hu].
  destruct (0 <? _) eqn:Ez; [|done]. intros [= <-]. reflect_bools. lia.
Qed.

Lemma write_audio_ok f0 l rf x elapsed a log w u w' :
  session_ok (f0, []) → state (mt w) = Active a → active_ok f0 l a log → videos l ≠ [] → frame rf = Audio x →
  0 ≤ elapsed → write_audio rf x elapsed w = (Ret (Ok u), w') →
  ∃ a', state (mt w') = Active a' ∧ quiet w w' ∧ active_ok f0 (l ++ [rf]) a' log.
Proof.
  intros H0 Hst Hx Hv Hf He H. unfold write_audio in H. assert (video_key rf = None) as Hvk by (unfold video_key; by rewrite Hf).
  assert (audio_key rf = None ∨ sound = None → w' = w → ∃ a', state (mt w') = Active a' ∧ quiet w w' ∧ active_ok f0 (l ++ [rf]) a' log)
    as Hskip by (intros Ha ->; exists a; split; [done|]; split; [done|]; by apply active_skip).
  case_bool_decide as Hc; [msimp H; apply Hskip; [|done]; left; unfold audio_key; rewrite Hf; by rewrite bool_decide_true|].
  destruct (fst (strip_adts (a_data x))) as [|b raw] eqn:Er.
  { msimp H. apply Hskip; [|done]. left. unfold audio_key. rewrite Hf, Er. by case_bool_decide. }
  assert (audio_key rf = Some (true, b :: raw)) as Hak by (unfold audio_key; rewrite Hf, Er; by case_bool_decide).
  mstep H a1 w1 H1. rewrite Hst in H1. injection H1 as <-.
  pose proof (ao_base _ _ _ _ Hx) as Hb. destruct (bo_tracks _ _ _ _ Hb) as (_ & Et & Hsound). rewrite Et in H.
  destruct Hsound as [Hsn|Hsn]; rewrite Hsn in H; [msimp H; apply Hskip; [by right|done]|].
  mstep H m w2 H2. mstep H d w3 H3. apply audio_duration_ok in H3. rewrite (strip_adts_suffix _ _ Er ltac:(done)) in H.
  set (dts := match next_audio_dts a with Some _ => _ | None => _ end) in *.
  assert (0 ≤ dts ≤ u64_max) as Ht.
  { subst dts. pose proof (bo_next _ _ _ _ Hb) as Hn. pose proof (bo_scale _ _ _ _ Hb) as Hs.
    destruct (timestamp rf) as [tm|]; destruct (next_audio_dts a) as [n|]; try specialize (Hn n eq_refl); try lia;
      [|by apply ticks_range|by apply duration_to_ticks_range].
    pose proof (ticks_range (Some tm) (camera_timestamp_origin (mt w)) elapsed (audio_timescale a) He Hs). lia. }
  mstep H u4 w4 H4. apply on_mp4_ok in H4 as (a4 & f & E4 & E & ->). rewrite Hst in E4. injection E4 as <-.
  mstep H u5 w5 H5. destruct (u64_max <? dts + d) eqn:Eo; [done|]. apply modify_active_ok in H5 as (a5 & E5 & ->).
  injection E5 as <-. mstep H m6 w6 H6. injection H as _ <-. eexists. split; [done|]. split; [done|]. destruct u4. reflect_bools.
  apply (active_audio f0 l rf (b :: raw) dts d a f log); try done; [lia|]. intros y [= <-]. lia.
Qed.

(** ** The world of a recording *)

(** The file was started with a video track, and an audio track after it. *)
Definition started (faults : list (option Z)) (f0 : FragmentedMp4Writer) : Prop :=
  ∃ c audio s, write_start moov_box mp4_config (mk_track_config VideoTrack VIDEO_TIMESCALE "und" c :: audio)
                 (mk_sink [] 0 faults) = (Done f0, s) ∧
    map tc_type audio = match sound with Some _ => [AudioTrack] | None => [] end.

Lemma started_ok faults f0 : started faults f0 → session_ok (f0, []) ∧ has_pending_samples f0 = false.
Proof.
  intros (c & audio & s & E & _). by destruct (write_start_ok moov_box mp4_config _ (mk_sink [] 0 faults) f0 s ltac:(done) ltac:(done) E) as (? & ? & _).
Qed.

Record recording (m0 : MediumTermWriter) (faults : list (option Z)) l w f0 a log : Prop := {
  rc_state : state (mt w) = Active a;
  rc_static : static (mt w) = static m0;
  rc_faults : file_faults w = faults;
  rc_started : started faults f0;
  rc_calls : calls w = opening m0 (initialization f0) ++ rows m0 log;
  rc_active : active_ok f0 l a log
}.

Lemma insert_ok m0 info start end_ w u w' :
  static (mt w) = static m0 → insert_catalog_fragment info start end_ w = (Ret (Ok u), w') →
  mt w' = mt w ∧ file_faults w' = file_faults w ∧
  calls w' = calls w ++ (if catalog m0 then [InsertFragment (catalog_fragment m0 info start end_) (catalog_keyframe m0 info)] else []).
Proof.
  intros Hs H. unfold insert_catalog_fragment in H. mstep H m w1 H1. injection Hs as E1 E2 E3 E4 E5 E6 E7.
  rewrite E6 in H. destruct (catalog m0); [|msimp H; by rewrite app_nil_r].
  apply call_ok in H as [rest ->]. split; [done|]. split; [done|]. cbn. unfold catalog_fragment, catalog_keyframe.
  by rewrite E3, E5.
Qed.

Lemma rows_nil m : rows m [] = [].
Proof. unfold rows. by destruct (catalog m). Qed.
Lemma rows_snoc m log e : rows m (log ++ [e]) = rows m log ++ if catalog m then [fragment_row m e] else [].
Proof. unfold rows. destruct (catalog m); [by rewrite map_app|done]. Qed.

Lemma write_frame_ok m0 faults l rf w f0 a log u w' :
  recording m0 faults l w f0 a log → is_video (frame rf) = true ∨ videos l ≠ [] →
  write_frame codecs moov_box rf w = (Ret (Ok u), w') → ∃ a' log', recording m0 faults (l ++ [rf]) w' f0 a' log'.
Proof.
  intros [Hst Hs Hff Hf0 Hc Hx] Hor H. destruct (started_ok _ _ Hf0) as [H0 _]. unfold write_frame in H. mstep H m w1 H1.
  rewrite Hst in H. destruct (segment_origin (mt w)) as [origin|]; [|by msimp H].
  assert (0 ≤ saturating_duration_since (received_at rf) origin) as He by (unfold saturating_duration_since; lia).
  destruct (frame rf) as [v|x] eqn:Ef.
  - mstep H c w2 H2.
    destruct (write_video_ok f0 l rf v _ a log w c w2 H0 Hst Hx Ef He H2) as (a' & log' & Hst' & (Q1 & Q2 & Q3) & Ht & Hx').
    destruct Ht as [[-> ->]|(info & ts & -> & ->)].
    + msimp H. exists a', log. constructor; [done|congruence|by rewrite Q2|done|by rewrite Q3|done].
    + destruct (insert_ok m0 _ _ _ w2 u w' ltac:(congruence) H) as (E1 & E2 & E3).
      exists a', (log ++ [(info, ts)]). constructor; [by rewrite E1|by rewrite E1, Q1|by rewrite E2, Q2|done| |done].
      by rewrite E3, Q3, Hc, rows_snoc, app_assoc.
  - destruct Hor as [|Hv]; [done|].
    destruct (write_audio_ok f0 l rf x _ a log w u w' H0 Hst Hx Hv Ef He H) as (a' & Hst' & (Q1 & Q2 & Q3) & Hx').
    exists a', log. constructor; [done|congruence|by rewrite Q2|done|by rewrite Q3|done].
Qed.

Lemma write_frames_ok m0 faults k l w f0 a log u w' :
  recording m0 faults l w f0 a log → videos l ≠ [] → write_frames codecs moov_box k w = (Ret (Ok u), w') →
  ∃ a' log', recording m0 faults (l ++ k) w' f0 a' log'.
Proof.
  revert l w a log. induction k as [|rf k IH]; intros l w a log Hr Hv H.
  - cbn [write_frames] in H. msimp H. rewrite app_nil_r. eauto.
  - cbn [write_frames] in H. mstep H u1 w1 H1.
    destruct (write_frame_ok m0 faults l rf w f0 a log u1 w1 Hr (or_intror Hv) H1) as (a1 & log1 & Hr1).
    rewrite (cons_middle rf l k), app_assoc. eapply IH; [exact Hr1| |exact H].
    rewrite videos_snoc. by intros [? _]%app_nil.
Qed.

End recording.
