(* ===== verification/MediumTermRun.v ===== *)
(** * A whole recording

    From the first frame to [finalize]: the file and the catalog of a recording whose
    calls all succeeded, and the frames read back from that file. *)

From S2P Require Import Prelude Frame Nal Mp4Io Mp4Box Fragmented FragmentedInv FragmentedRun Mp4Track Mp4TrackInv Mp4ReadBack FragmentedSamples MediumTerm MediumTermInv.

Section run.
Context (codecs : Codecs) (moov_box : Z → list FragmentTrack → io (list Z)).

Implicit Types (a : ActiveWriter) (l : list RecordingFrame) (log : fragment_log).

Definition kind_of (m : MediumTermWriter) : WriterFile := if named_volume m then Named else Legacy.
(** A file has an audio track when there was an AAC frame before its second keyframe. *)
Definition sound_of (prepared : list RecordingFrame) : option Z :=
  match audio_track_config prepared with Some _ => Some 2 | None => None end.

(** ** Opening the file *)

Lemma adts_rate data i : parse_adts data = Some i → 0 ≤ sample_rate i.
Proof.
  assert (Forall (λ r, 0 ≤ r) SAMPLE_RATES) as Hr by (repeat constructor; done). rewrite Forall_lookup in Hr.
  unfold parse_adts. destruct data as [|d0 [|d1 [|d2 [|d3 data]]]]; try done. destruct (_ <? 7)%nat; [done|].
  destruct (_ || _); [done|]. destruct (Nat.ltb _ _); [done|].
  destruct (SAMPLE_RATES !! _) as [r|] eqn:E; [|done]. intros [= <-]. by eapply Hr.
Qed.

Lemma audio_config_scale k c : Forall frame_typed k → audio_track_config k = Some c → 0 ≤ tc_timescale c.
Proof.
  unfold audio_track_config. induction 1 as [|rf k Hrf _ IH]; cbn [find_map]; [done|].
  destruct (audio_frame_config rf) as [c'|] eqn:E; [|exact IH]. intros [= ->].
  unfold audio_frame_config in E. unfold frame_typed in Hrf. destruct (frame rf) as [v|x]; [done|].
  case_bool_decide; [done|]. unfold strip_adts in E. destruct (parse_adts (a_data x)) as [i|] eqn:Ei.
  - destruct (drop _ _); [done|]. injection E as <-. cbn. by eapply adts_rate.
  - destruct (a_data x); [done|]. by injection E as <-.
Qed.

Lemma open_ok m0 w k w' :
  static (mt w) = static m0 → reservation (mt w) = named_volume m0 → calls w = [] →
  open_writer_file w = (Ret (Ok k), w') →
  static (mt w') = static m0 ∧ file_faults w' = file_faults w ∧ k = (if named_volume m0 then Named else Legacy) ∧
  calls w' = [if named_volume m0 then OpenReservation else CreateFile (path m0)].
Proof.
  intros Hs Hr Hc H. unfold open_writer_file in H. mstep H m w1 H1. rewrite Hr in H. pose proof Hs as [= E1 E2 E3 E4 E5 E6 E7].
  destruct (named_volume m0) eqn:En; [|rewrite E7 in H; cbn [negb] in H].
  - mstep H u1 w1 H1. mstep H u2 w2 H2. apply call_ok in H2 as [rest ->]. msimp H. cbn. by rewrite Hc.
  - mstep H u1 w1 H1. apply call_ok in H1 as [rest ->]. msimp H. cbn. by rewrite Hc, E1.
Qed.

Lemma catalog_initialization_ok m0 r w u w' :
  static (mt w) = static m0 → catalog_initialization r w = (Ret (Ok u), w') →
  mt w' = mt w ∧ file_faults w' = file_faults w ∧ calls w' = calls w ++ tail (opening m0 r).
Proof.
  intros Hs H. unfold catalog_initialization in H. mstep H m w1 H1. injection Hs as E1 E2 E3 E4 E5 E6 E7. cbn [opening tail].
  rewrite E6 in H. destruct (catalog m0); [|msimp H; by rewrite app_nil_r].
  apply call_ok in H as [rest ->]. cbn. by rewrite E1, E3, E4, E5.
Qed.

Lemma nothing_pending w id : has_pending_samples w = false → of_id id (tracks w) = [].
Proof.
  intros H. rewrite <-of_id_pending. destruct (pending w) as [|t k] eqn:E; [done|].
  exfalso. assert (has_pending_samples w = true) as Ht by (apply has_pending_iff; by rewrite E). congruence.
Qed.

Lemma fresh_active f0 kind codec conf sound scale :
  has_pending_samples f0 = false → 0 ≤ scale → sound = None ∨ sound = Some 2 →
  active_ok moov_box kind sound f0 [] (mk_active f0 kind 1 codec conf 1 sound scale None 0 None None) [].
Proof.
  intros Hp Hs Ha. pose proof (λ id, nothing_pending f0 id Hp) as Hn. unfold all_samples.
  constructor; cbn; rewrite ?Hn; try done. constructor; cbn; unfold all_samples; rewrite ?Hn; cbn; try done.
  by destruct sound.
Qed.

Lemma audio_config_type k c : audio_track_config k = Some c → tc_type c = AudioTrack.
Proof.
  unfold audio_track_config. induction k as [|rf k IH]; [done|]. cbn [find_map].
  destruct (audio_frame_config rf) as [c'|] eqn:E; [|exact IH]. intros [= ->]. unfold audio_frame_config in E.
  destruct (frame rf); [done|]. case_bool_decide; [done|]. destruct (strip_adts _) as [[|b raw] i]; [done|]. by injection E as <-.
Qed.

Lemma init_mp4_ok m0 k w a w' :
  Forall frame_typed k → static (mt w) = static m0 → reservation (mt w) = named_volume m0 → calls w = [] →
  init_mp4 codecs moov_box k w = (Ret (Ok a), w') →
  static (mt w') = static m0 ∧ file_faults w' = file_faults w ∧
  ∃ f0, started moov_box (sound_of k) (file_faults w) f0 ∧ calls w' = opening m0 (initialization f0) ∧
    active_ok moov_box (kind_of m0) (sound_of k) f0 [] a [].
Proof.
  intros Hty Hs Hr Hc H. unfold init_mp4 in H. destruct (find _ k) as [kf|]; [|by msimp H].
  destruct (frame kf) as [v|x]; [|by msimp H]. mstep H conf w1 H1. mstep H kd w2 H2.
  destruct (open_ok m0 w kd w2 Hs Hr Hc H2) as (Hs2 & Hff & Hkd & Hc2). apply mbind_ok in H as (f & w3 & H3 & H).
  destruct (write_start _ _ _ _) as [[f'|e|] s] eqn:E; [|done|done]. injection H3 as <- <-.
  mstep H u4 w4 H4. destruct (catalog_initialization_ok m0 _ w2 u4 w4 Hs2 H4) as (E1 & E2 & E3). msimp H.
  assert (started moov_box (sound_of k) (file_faults w) f') as Hst.
  { rewrite <-Hff. eexists _, _, s. split; [exact E|]. unfold sound_of.
    destruct (audio_track_config k) as [c|] eqn:Ea; [|done]. cbn. by rewrite (audio_config_type k c). }
  rewrite E1, E2. split; [done|]. split; [done|]. exists f'. split; [done|]. split; [by rewrite E3, Hc2|].
  destruct (started_ok _ _ _ _ Hst) as [_ Hp]. subst kd. unfold sound_of.
  destruct (audio_track_config k) as [c|] eqn:Ea; apply fresh_active; auto; [|by cbn]. by eapply audio_config_scale.
Qed.

(** ** The public operations *)

Definition no_keyframe (l : list RecordingFrame) : Prop := Forall (λ rf, is_video_keyframe rf = false) l.

(** The writer after the frames [l]: nothing, the frames since the first keyframe, or
    an open file. *)
Inductive appended (m0 : MediumTermWriter) (faults : list (option Z)) : list RecordingFrame → World → Prop :=
| app_waiting l w :
    state (mt w) = WaitingForKeyframe → static (mt w) = static m0 → reservation (mt w) = named_volume m0 →
    calls w = [] → file_faults w = faults → no_keyframe l → appended m0 faults l w
| app_preparing pre rf k w :
    state (mt w) = Preparing (rf :: k) → static (mt w) = static m0 → reservation (mt w) = named_volume m0 →
    calls w = [] → file_faults w = faults → no_keyframe pre → is_video_keyframe rf = true → no_keyframe k →
    appended m0 faults (pre ++ rf :: k) w
| app_active pre rf k next rest w f0 a log :
    no_keyframe pre → is_video_keyframe rf = true → no_keyframe k → is_video_keyframe next = true →
    recording moov_box (kind_of m0) (sound_of (rf :: k)) m0 faults (rf :: k ++ next :: rest) w f0 a log →
    appended m0 faults (pre ++ rf :: k ++ next :: rest) w.

Lemma keyframe_videos rf k : is_video_keyframe rf = true → videos (rf :: k) ≠ [].
Proof. unfold is_video_keyframe, videos. cbn. unfold video_key. by destruct (frame rf). Qed.

Lemma activate_prepared_ok m0 faults rf k w u w' :
  Forall frame_typed (rf :: k) → static (mt w) = static m0 → reservation (mt w) = named_volume m0 → calls w = [] →
  file_faults w = faults → is_video_keyframe rf = true → state (mt w) = Preparing (rf :: k) →
  activate_prepared codecs moov_box w = (Ret (Ok u), w') →
  ∃ f0 a log, recording moov_box (kind_of m0) (sound_of (rf :: k)) m0 faults (rf :: k) w' f0 a log.
Proof.
  intros Hty Hs Hr Hc Hff Hkf Hst H. unfold activate_prepared in H. mstep H m w1 H1. rewrite Hst in H.
  mstep H u1 w1 H1. mstep H a w2 H2.
  destruct (init_mp4_ok m0 _ (set_mt (with_state WaitingForKeyframe (mt w)) w) a w2 Hty Hs Hr Hc H2)
    as (Hs2 & Hff2 & f0 & Hf0 & Hc2 & Hx). cbn [set_mt file_faults] in Hff2, Hf0.
  mstep H m3 w3 H3. mstep H u4 w4 H4. cbn [write_frames] in H. mstep H u5 w5 H5.
  set (w3 := set_mt (with_state (Active a) (mt w2)) w2) in *.
  assert (recording moov_box (kind_of m0) (sound_of (rf :: k)) m0 faults [] w3 f0 a []) as Hr0.
  { constructor; [done|done|by rewrite <-Hff, <-Hff2|by rewrite <-Hff|by rewrite rows_nil, app_nil_r|done]. }
  destruct (write_frame_ok _ _ _ _ _ _ _ rf w3 _ _ _ u5 w5 Hr0 (or_introl (keyframe_is_video rf Hkf)) H5) as (a1 & log1 & Hr1).
  destruct (write_frames_ok _ _ _ _ _ _ k [rf] w5 _ _ _ u w' Hr1 (keyframe_videos rf [] Hkf) H) as (a2 & log2 & Hr2).
  by exists f0, a2, log2.
Qed.

Lemma append_one_ok m0 faults l rf w d w' :
  Forall frame_typed (l ++ [rf]) →
  appended m0 faults l w → append_one codecs moov_box rf w = (Ret (Ok d), w') → appended m0 faults (l ++ [rf]) w'.
Proof.
  intros Hty Hx H. unfold append_one in H. mstep H m w1 H1.
  destruct Hx as [l w Hst Hs Hr Hc Hff Hn|pre k0 k w Hst Hs Hr Hc Hff Hn Hk Hk'|pre k0 k next rest w f0 a log Hn Hk Hk' Hnx Hrec].
  - rewrite Hst in H. mstep H u1 w1 H1. msimp H. destruct (is_video_keyframe rf) eqn:Ek; msimp H1.
    + apply (app_preparing m0 faults l rf []); try done. constructor.
    + apply app_waiting; try done. apply Forall_app. split; [done|by constructor].
  - rewrite Hst in H. mstep H u1 w1 H1. mstep H m2 w2 H2. mstep H u3 w3 H3. mstep H m4 w4 H4. msimp H.
    rewrite <-app_assoc. cbn [app]. destruct (is_video_keyframe rf) eqn:Ek; cycle 1.
    { msimp H1. rewrite Hst in H3. msimp H3. apply app_preparing; try done. apply Forall_app. split; [done|by constructor]. }
    apply Forall_app in Hty as [Hty _]. apply Forall_app in Hty as [_ Hty].
    destruct (activate_prepared_ok m0 faults k0 k w u1 w1 Hty Hs Hr Hc Hff Hk Hst H1) as (f0 & a & log & Hrec).
    rewrite (rc_state _ _ _ _ _ _ _ _ _ _ Hrec) in H3.
    destruct (write_frame_ok _ _ _ _ _ _ _ rf w1 _ _ _ u3 w3 Hrec (or_intror (keyframe_videos k0 k Hk)) H3) as (a' & log' & Hrec').
    by eapply (app_active m0 faults pre k0 k rf []).
  - rewrite (rc_state _ _ _ _ _ _ _ _ _ _ Hrec) in H. mstep H u1 w1 H1. mstep H m2 w2 H2. mstep H u3 w3 H3. mstep H m4 w4 H4. msimp H.
    rewrite (rc_state _ _ _ _ _ _ _ _ _ _ Hrec) in H3.
    destruct (write_frame_ok _ _ _ _ _ _ _ rf w _ _ _ u3 w3 Hrec (or_intror (keyframe_videos k0 _ Hk)) H3) as (a' & log' & Hrec').
    assert (∀ x y, (x :: k ++ next :: y) ++ [rf] = x :: k ++ next :: (y ++ [rf])) as Hsn by (intros; by rewrite <-app_comm_cons, <-app_assoc).
    rewrite Hsn in Hrec'. rewrite <-app_assoc, Hsn. by eapply app_active.
Qed.

Lemma append_batch_ok m0 faults k l total w d w' :
  Forall frame_typed (l ++ k) →
  appended m0 faults l w → append_batch codecs moov_box k total w = (Ret (Ok d), w') → appended m0 faults (l ++ k) w'.
Proof.
  revert l total w. induction k as [|rf k IH]; intros l total w Hty Hx H; cbn [append_batch] in H.
  - msimp H. by rewrite app_nil_r.
  - mstep H d1 w1 H1. rewrite (cons_middle rf l k), app_assoc in Hty |- *. eapply IH; [done| |exact H].
    apply Forall_app in Hty as [Hty _]. by eapply append_one_ok.
Qed.

Lemma on_flush_ok w u w' :
  on_mp4 (on_sink sink_flush) w = (Ret (Ok u), w') →
  ∃ a f, state (mt w) = Active a ∧ s_bytes (writer f) = s_bytes (writer (mp4 a)) ∧ w' = set_active (set_mp4 f a) w.
Proof.
  intros (a & f & Hst & E & ->)%on_mp4_ok. exists a, f. split; [done|]. split; [|done].
  unfold on_sink in E. destruct (sink_flush (writer (mp4 a))) as [r s] eqn:Es. injection E as _ <-. cbn.
  unfold sink_flush in Es. by destruct (s_faults (writer (mp4 a))) as [|[n|] fs]; injection Es as _ <-.
Qed.

Lemma complete_ok m0 w u w' :
  static (mt w) = static m0 → complete (kind_of m0) w = (Ret (Ok u), w') → mt w' = mt w ∧ calls w' = calls w ++ completion m0.
Proof.
  intros Hs H. unfold complete, kind_of in H. mstep H m w1 H1. injection Hs as E1 E2 E3 E4 E5 E6 E7. unfold completion.
  destruct (named_volume m0); mstep H u1 w1 H1; apply call_ok in H1 as [rest ->].
  - apply call_ok in H as [rest' ->]. cbn. by rewrite <-app_assoc.
  - rewrite E6 in H. destruct (catalog m0); [apply call_ok in H as [rest' ->]|msimp H]; cbn; by rewrite <-?app_assoc, E1, E2, ?E3.
Qed.

(** A finished recording of the frames [l]: the session that wrote the file, every frame
    in a fragment of it, and the calls that announced them. *)
Record recorded (sound : option Z) (m0 : MediumTermWriter) (faults : list (option Z)) l w f0 f log : Prop := {
  rd_file : ∃ a, state (mt w) = Active a ∧ s_bytes (writer (mp4 a)) = s_bytes (writer f) ∧
              (∀ p, last (flushed 1 log) = Some p → last_video_dts a = Some (start_time p) ∧ last_video_duration a = duration p);
  rd_started : started moov_box sound faults f0;
  rd_run : rtc (kept_step moov_box) (f0, []) (f, log);
  rd_video : map key (flushed 1 log) = videos l;
  rd_contiguous : contiguous (flushed 1 log);
  rd_audio : map key (flushed 2 log) = match sound with Some _ => audios l | None => [] end;
  rd_ends : Forall sample_ends (flushed 2 log);
  rd_calls : calls w = opening m0 (initialization f0) ++ rows m0 log ++ completion m0
}.

(** The last fragment, written by [write_end]. *)
Lemma write_end_ok kind sound f0 l a log r f :
  session_ok (f0, []) → active_ok moov_box kind sound f0 l a log → videos l ≠ [] → write_end (mp4 a) = (Done r, f) →
  ∃ info ts start, r = Some info ∧ fragment_start_dts a = Some start ∧
    rtc (kept_step moov_box) (f0, []) (f, log ++ [(info, ts)]) ∧
    (∀ id, flushed id (log ++ [(info, ts)]) = all_samples id (mp4 a) log) ∧
    start = first_start (of_id 1 ts) ∧
    saturating_add u64_max (default start (last_video_dts a)) (last_video_duration a)
      = saturating_add u64_max (first_start (of_id 1 ts)) (zsum duration (of_id 1 ts)).
Proof.
  intros H0 Hx Hv E. pose proof (active_video _ _ _ _ _ _ _ Hx Hv) as Hne.
  pose proof (bo_run _ _ _ _ _ _ _ (ao_base _ _ _ _ _ _ _ Hx)) as Hrun.
  pose proof (contiguous_suffix _ _ (bo_contiguous _ _ _ _ _ _ _ (ao_base _ _ _ _ _ _ _ Hx))) as Hc1.
  destruct Hx as [_ Hst Hl Hd _]. pose proof (session_writer _ f0 _ _ H0 Hrun) as Hw. unfold write_end in E.
  destruct (flush_samples (mp4 a) r f log Hw E) as (Hall & _ & Hids & Hnone).
  destruct r as [info|]; cycle 1.
  { exfalso. apply Hne. by rewrite <-of_id_pending, Hnone. }
  exists info, (pending (mp4 a)). rewrite of_id_pending.
  destruct (of_id 1 (tracks (mp4 a))) as [|s k] eqn:Eo; [done|]. exists (start_time s).
  split; [done|]. split; [done|]. split; [|split; [|split; [done|]]].
  - eapply rtc_r; [exact Hrun|]. by apply (kept_flush moov_box (mp4 a) log (Done (Some info))).
  - intros id. cbn [logged] in Hall. rewrite <-(Hall id). unfold all_samples. by rewrite Hids, app_nil_r.
  - destruct (last (s :: k)) as [p|] eqn:El; [|by apply last_None in El]. rewrite Hl. cbn [fmap option_fmap option_map default first_start].
    unfold saturating_add. by rewrite (contiguous_sum s k p Hc1 El), (Hd p eq_refl).
Qed.

Lemma finish_active_ok sound m0 faults l w f0 a log p w' :
  recording moov_box (kind_of m0) sound m0 faults l w f0 a log → videos l ≠ [] →
  finish_recording w = (Ret (Ok p), w') → p = final_path m0 ∧ ∃ f log', recorded sound m0 faults l w' f0 f log'.
Proof.
  intros [Hst Hs Hff Hf0 Hc Hx] Hv H. unfold finish_recording in H.
  mstep H m2 w2 H2. rewrite Hst in H. mstep H r w3 H3. apply on_mp4_ok in H3 as (a3 & f & E3 & E & ->).
  rewrite Hst in E3. injection E3 as <-. destruct (started_ok _ _ _ _ Hf0) as [H0 _].
  destruct (write_end_ok _ _ f0 l a log r f H0 Hx Hv E) as (info & ts & start & -> & Hstart & Hrun & Hall & Hfs & Hend).
  mstep H u4 w4 H4. apply on_flush_ok in H4 as (a4 & f4 & E4 & Hb4 & ->). injection E4 as <-.
  mstep H u5 w5 H5. apply on_flush_ok in H5 as (a5 & f5 & E5 & Hb5 & ->). injection E5 as <-. cbn in Hb4, Hb5.
  mstep H u6 w6 H6. rewrite Hstart in H6. mstep H6 st w7 H7. injection H7 as <-. rewrite Hend in H6. rewrite Hfs in H6.
  apply (insert_ok m0) in H6 as (E1 & E2 & E6); [|exact Hs]. mstep H u8 w8 H8.
  rewrite (bo_kind _ _ _ _ _ _ _ (ao_base _ _ _ _ _ _ _ Hx)) in H8.
  apply (complete_ok m0) in H8 as [E8 Hc8]; [|by rewrite E1]. msimp H.
  split; [by injection Hs|]. exists f, (log ++ [(info, ts)]). destruct (ao_base _ _ _ _ _ _ _ Hx) as [_ _ Hvs Hau Hae Hco _ _ _ _ _].
  constructor; rewrite ?Hall; try done.
  - rewrite E8, E1. eexists. split; [done|]. cbn. split; [congruence|]. unfold all_samples.
    rewrite last_app_ne by by eapply active_video. intros q Hq. rewrite (ao_last _ _ _ _ _ _ _ Hx), (ao_duration _ _ _ _ _ _ _ Hx q Hq), Hq. done.
  - rewrite Hc8, E6. cbn [set_active set_mt calls]. by rewrite Hc, rows_snoc, <-!app_assoc.
Qed.

(** ** From the first frame to the end *)

Fixpoint until_keyframe (l : list RecordingFrame) : list RecordingFrame :=
  match l with
  | [] => []
  | rf :: l => if is_video_keyframe rf then [] else rf :: until_keyframe l
  end.
(** The frames that are there when the file is opened, for a recording that starts with
    a keyframe. *)
Definition prepared (l : list RecordingFrame) : list RecordingFrame :=
  match l with [] => [] | rf :: l => rf :: until_keyframe l end.

Lemma until_none k : no_keyframe k → until_keyframe k = k.
Proof. induction 1 as [|rf k Hrf _ IH]; [done|]. cbn. by rewrite Hrf, IH. Qed.
Lemma until_next k next rest : no_keyframe k → is_video_keyframe next = true → until_keyframe (k ++ next :: rest) = k.
Proof. intros Hk Hn. induction Hk as [|rf k Hrf _ IH]; cbn; [by rewrite Hn|]. by rewrite Hrf, IH. Qed.

(** The recording of [fs] and how it ended: without a keyframe there is no file to keep. *)
Inductive outcome_of (m0 : MediumTermWriter) (faults : list (option Z)) (fs : list RecordingFrame) (w : World) : Prop :=
| no_recording :
    no_keyframe fs → Forall (λ c, c = RemoveFile (path m0)) (calls w) → outcome_of m0 faults fs w
| one_recording pre rf k f0 f log :
    fs = pre ++ rf :: k → no_keyframe pre → is_video_keyframe rf = true →
    recorded (sound_of (prepared (rf :: k))) m0 faults (rf :: k) w f0 f log → outcome_of m0 faults fs w.

Lemma finalize_ok m0 faults fs w p w' :
  Forall frame_typed fs → appended m0 faults fs w → finalize codecs moov_box w = (Ret (Ok p), w') →
  p = final_path m0 ∧ outcome_of m0 faults fs w'.
Proof.
  intros Hty Hx H. unfold finalize in H. mstep H m w1 H1. mstep H u w1 H1.
  destruct Hx as [l w Hst Hs Hr Hc Hff Hn|pre k0 k w Hst Hs Hr Hc Hff Hn Hk Hk'|pre k0 k next rest w f0 a log Hn Hk Hk' Hnx Hrec].
  - rewrite Hst in H1. msimp H1. unfold finish_recording in H. mstep H m w2 H2. rewrite Hst in H.
    mstep H u2 w2 H2. mstep H u3 w3 H3. msimp H. injection Hs as E1 E2 E3 E4 E5 E6 E7. split; [done|].
    apply no_recording; [done|]. cbn [set_mt calls]. destruct (negb _); [|msimp H2; by rewrite Hc].
    injection H2 as _ <-. unfold call. destruct (answers w) as [|[] r]; cbn; rewrite Hc; repeat constructor; by rewrite E1.
  - rewrite Hst in H1. apply Forall_app in Hty as [_ Hty].
    destruct (activate_prepared_ok m0 faults k0 k w u w1 Hty Hs Hr Hc Hff Hk Hst H1) as (f0 & a & log & Hrec).
    destruct (finish_active_ok _ _ _ _ _ _ _ _ _ _ Hrec (keyframe_videos k0 k Hk) H) as [-> (f & log' & Hd)].
    split; [done|]. eapply one_recording; [done|done|done|]. cbn [prepared]. rewrite until_none by done. exact Hd.
  - rewrite (rc_state _ _ _ _ _ _ _ _ _ _ Hrec) in H1. msimp H1.
    destruct (finish_active_ok _ _ _ _ _ _ _ _ _ _ Hrec (keyframe_videos k0 _ Hk) H) as [-> (f & log' & Hd)].
    split; [done|]. eapply one_recording; [done|done|done|]. cbn [prepared]. rewrite until_next by done. exact Hd.
Qed.

End run.

(** A new writer and its world. *)
Definition fresh_world (m0 : MediumTermWriter) (answers : list bool) (faults : list (option Z)) : World :=
  mk_world m0 answers faults [].

Lemma whole_recording codecs moov_box root_path root_final id who start_ms with_catalog reserved answers faults fs d w1 p w2 :
  let m0 := create_inner root_path root_final id who start_ms with_catalog reserved in
  Forall frame_typed fs →
  append_batch codecs moov_box fs 0 (fresh_world m0 answers faults) = (Ret (Ok d), w1) →
  finalize codecs moov_box w1 = (Ret (Ok p), w2) → p = root_final ∧ outcome_of moov_box m0 faults fs w2.
Proof.
  intros m0 Hty H1 H2. eapply (finalize_ok codecs moov_box m0 faults fs w1); [done| |exact H2].
  apply (append_batch_ok codecs moov_box m0 faults fs [] 0 (fresh_world m0 answers faults) d w1 Hty); [|exact H1].
  by apply app_waiting; [..|constructor].
Qed.

(** The first keyframe is where it is. *)
Lemma first_keyframe_unique pre rf k pre' rf' k' :
  pre ++ rf :: k = pre' ++ rf' :: k' → no_keyframe pre → no_keyframe pre' →
  is_video_keyframe rf = true → is_video_keyframe rf' = true → rf :: k = rf' :: k'.
Proof.
  intros E Hp Hp' Hk Hk'. revert pre' E Hp'. induction Hp as [|x pre Hx Hp IH]; intros [|y pre'] E Hp'; cbn in E.
  - done.
  - injection E as -> _. apply Forall_cons in Hp' as [Hy _]. congruence.
  - injection E as -> _. congruence.
  - injection E as _ E. apply Forall_cons in Hp' as [_ Hp']. by eapply IH.
Qed.

Lemma outcome_recorded moov_box m0 faults pre rf k w :
  no_keyframe pre → is_video_keyframe rf = true → outcome_of moov_box m0 faults (pre ++ rf :: k) w →
  ∃ f0 f log, recorded moov_box (sound_of (prepared (rf :: k))) m0 faults (rf :: k) w f0 f log.
Proof.
  intros Hp Hk [Hn _|pre' rf' k' f0 f log E Hp' Hk' Hr].
  - apply Forall_app in Hn as [_ Hn]. apply Forall_cons in Hn as [Hn _]. congruence.
  - rewrite (first_keyframe_unique _ _ _ _ _ _ E Hp Hp' Hk Hk'). eauto.
Qed.

(** ** Reading the recording back *)

(** The byte offsets of the fragments the catalog was told of. *)
Definition catalogued_offsets (cs : list Call) : list Z :=
  omap (λ c, match c with InsertFragment f _ => Some (cf_byte_offset f) | _ => None end) cs.

Lemma omap_none {A B : Type} (f : A → option B) k : Forall (λ a, f a = None) k → omap f k = [].
Proof. induction 1 as [|a k Ha _ IH]; [done|]. cbn. by rewrite Ha. Qed.

Lemma catalogued_log m r log :
  catalog m = true → catalogued_offsets (opening m r ++ rows m log ++ completion m) = log_offsets log.
Proof.
  intros Hc. unfold catalogued_offsets. rewrite !omap_app, (omap_none _ (opening m r)), (omap_none _ (completion m)), app_nil_r.
  - unfold rows, log_offsets. rewrite Hc. induction log as [|e log IH]; [done|]. cbn in *. by rewrite IH.
  - unfold completion. rewrite Hc. destruct (named_volume m); by repeat constructor.
  - unfold opening. rewrite Hc. destruct (named_volume m); by repeat constructor.
Qed.

Lemma started_kinds moov_box sound faults f0 :
  started moov_box sound faults f0 →
  kinds (tracks f0) = (1, VideoTrack) :: match sound with Some _ => [(2, AudioTrack)] | None => [] end.
Proof.
  intros (c & audio & s & E & Ha). apply write_start_tracks, new_tracks_kinds in E as [H1 H2]. cbn [map length seq] in H1, H2.
  rewrite map_map, (map_ext _ tc_type), Ha in H1 by done. rewrite length_map, <-(length_map tc_type audio), Ha in H2.
  destruct (kinds (tracks f0)) as [|[i1 t1] [|[i2 t2] [|x k]]]; destruct sound; by simplify_eq/=.
Qed.

Lemma keys_count l : (length (videos l) + length (audios l) ≤ length l)%nat.
Proof.
  induction l as [|rf l IH]; [done|]. unfold videos, audios in *. cbn.
  unfold video_key at 1, audio_key at 1. destruct (frame rf) as [v|x]; cbn; [lia|].
  case_bool_decide; [lia|]. destruct (fst (strip_adts _)); cbn; lia.
Qed.

Lemma as_read_key ty s : is_sync s = true ∨ ty = VideoTrack → key (as_read ty s) = key s.
Proof. unfold as_read, key. cbn. intros [-> | ->]; by case_bool_decide. Qed.

Lemma audios_sync l b data n : audios l !! n = Some (b, data) → b = true.
Proof.
  intros H. apply list_elem_of_lookup_2 in H. unfold audios in H. apply list_elem_of_omap in H as (rf & _ & E).
  unfold audio_key in E. destruct (frame rf); [done|]. case_bool_decide; [done|].
  destruct (fst (strip_adts _)); [done|]. by injection E as <- _.
Qed.

(** The [n]-th sample the reader is given for a frame. *)
Lemma read_key id ty log ks n b data :
  Forall (λ e, Forall (λ t, track_id t = id → track_type t = ty) (snd e)) log → map key (flushed id log) = ks →
  ks !! n = Some (b, data) → b = true ∨ ty = VideoTrack →
  ∃ s, log_samples id log !! n = Some s ∧ key s = (b, data).
Proof.
  intros Hty <- Hn Hb. rewrite (log_samples_flushed id ty log Hty), map_lookup. rewrite map_lookup in Hn.
  destruct (flushed id log !! n) as [s|]; [|done]. injection Hn as E1 E2. eexists. split; [done|].
  rewrite as_read_key; [unfold key; congruence|]. destruct Hb as [->|]; auto.
Qed.

(** The conditions of the reader hold for a recording of fewer than [2^32] frames. *)
Lemma recorded_readable moov_box sound m0 faults l w f0 f log a (tracks0 : gmap Z Mp4Track) :
  recorded moov_box sound m0 faults l w f0 f log → state (mt w) = Active a → vec_len l ≤ u32_max →
  default 0 (last_video_dts a) + last_video_duration a ≤ u64_max →
  is_Some (tracks0 !! 1) → (sound ≠ None → is_Some (tracks0 !! 2)) →
  session_ok (f, log) ∧ log_count log ≤ u32_max ∧ Forall (λ e, Forall track_ends (snd e)) log ∧
  Forall (λ e, Forall (λ t, is_Some (tracks0 !! track_id t)) (snd e)) log ∧
  Forall (λ e, Forall (λ t, track_id t = 1 → track_type t = VideoTrack) (snd e)) log ∧
  Forall (λ e, Forall (λ t, track_id t = 2 → track_type t = AudioTrack) (snd e)) log.
Proof.
  intros [(a' & Hst & _ & Hlast) Hf0 Hrun Hv Hc Hau Hae _] Ha Hn Hend Ht1 Ht2. rewrite Hst in Ha. injection Ha as ->.
  destruct (started_ok _ _ _ _ Hf0) as [H0 _]. pose proof (frag_run_ok moov_box _ _ (kept_run_frag _ _ _ Hrun) H0) as Hx.
  pose proof (run_kinds moov_box f0 f log H0 (kept_run_frag _ _ _ Hrun)) as Hk. rewrite (started_kinds _ _ _ _ Hf0) in Hk.
  assert (∀ P : FragmentTrack → Prop, (∀ e t, e ∈ log → t ∈ snd e → kind_of_track t = (1, VideoTrack) ∨ kind_of_track t = (2, AudioTrack) ∧ sound ≠ None → P t) →
            Forall (λ e, Forall P (snd e)) log) as Hall.
  { intros P HP. apply Forall_forall. intros e He. apply Forall_forall. intros t Ht. apply (HP e t He Ht).
    rewrite Forall_forall in Hk. specialize (Hk e He). rewrite Forall_forall in Hk. specialize (Hk t Ht).
    apply elem_of_cons in Hk as [->|Hk]; [by left|]. right. destruct sound; [|by apply not_elem_of_nil in Hk].
    by apply list_elem_of_singleton in Hk as ->. }
  assert (Forall sample_ends (flushed 1 log)) as Hve.
  { apply contiguous_ends; [done| |].
    - apply Forall_forall. intros s Hs. by eapply flushed_sample_ok.
    - intros p Hp. destruct (Hlast p Hp) as [E1 E2]. rewrite E1, E2 in Hend. exact Hend. }
  split; [done|]. split; [|split; [|split; [|split]]]; [|apply Hall..].
  - rewrite two_tracks_count by (apply Hall; intros e t _ _ [[= -> _]|[[= -> _] _]]; auto).
    unfold vec_len in *. rewrite <-(length_map key (flushed 1 log)), <-(length_map key (flushed 2 log)), Hv, Hau.
    pose proof (keys_count l). destruct sound; cbn; lia.
  - intros e t He Ht Hkt. apply Forall_forall. intros s Hs. pose proof (flushed_elem log e t s He Ht Hs) as Hin.
    destruct Hkt as [[= E _]|[[= E _] _]]; rewrite E in Hin; [rewrite Forall_forall in Hve; by apply Hve|rewrite Forall_forall in Hae; by apply Hae].
  - intros e t _ _ [[= -> _]|[[= -> _] Hs]]; auto.
  - intros e t _ _ [[= -> ->]|[[= -> ->] _]]; done.
  - intros e t _ _ [[= -> ->]|[[= -> ->] _]]; done.
Qed.

(** C2. A recording is complete.  When every call of [append_batch] and [finalize]
    succeeded, the frames before the first keyframe are dropped and every video frame
    from it on is in a fragment of the file, in order, with its bytes and keyframe flag;
    the decode times run without a gap from one frame and one fragment to the next.  The
    AAC payloads are there too, in order, if one arrived before the second keyframe.
    The fragments lie in the file one after the other, and the calls on the catalog are
    exactly: the file, its initialization, one row per fragment with its byte range, its
    keyframe and the time its video covers, and the completion.  Without a keyframe
    nothing is catalogued and nothing kept. *)
Theorem recording_exact codecs moov_box root_path root_final id who start_ms with_catalog reserved answers faults fs d w1 p w2 :
  let m0 := create_inner root_path root_final id who start_ms with_catalog reserved in
  Forall frame_typed fs →
  append_batch codecs moov_box fs 0 (fresh_world m0 answers faults) = (Ret (Ok d), w1) →
  finalize codecs moov_box w1 = (Ret (Ok p), w2) →
  p = root_final ∧
  ((no_keyframe fs ∧ Forall (λ c, c = RemoveFile root_path) (calls w2)) ∨
   ∃ pre rf k a init log,
     fs = pre ++ rf :: k ∧ no_keyframe pre ∧ is_video_keyframe rf = true ∧ state (mt w2) = Active a ∧
     Forall (λ e, entry_ok (s_bytes (writer (mp4 a))) (fst e) (snd e)) log ∧ StronglySorted entry_lt log ∧
     map key (flushed 1 log) = videos (rf :: k) ∧ contiguous (flushed 1 log) ∧
     map key (flushed 2 log) = match sound_of (prepared (rf :: k)) with Some _ => audios (rf :: k) | None => [] end ∧
     calls w2 = opening m0 init ++ rows m0 log ++ completion m0).
Proof.
  intros m0 Hty H1 H2. destruct (whole_recording _ _ _ _ _ _ _ _ _ _ _ _ _ _ _ _ Hty H1 H2) as [-> Ho]. split; [done|].
  destruct Ho as [Hn Hc|pre rf k f0 f log -> Hn Hk [(a & Hst & Hb & _) Hf0 Hrun Hv Hc Hau _ Hcalls]]; [by left|right].
  exists pre, rf, k, a, (initialization f0), log. rewrite Hb. destruct (started_ok _ _ _ _ Hf0) as [H0 _].
  pose proof (frag_run_ok moov_box _ _ (kept_run_frag _ _ _ Hrun) H0) as Hx. destruct (session_sizes f log Hx) as [He _].
  pose proof (ss_order _ Hx) as Hord. done.
Qed.

(** C1. What the catalog says can be played.  After a successful recording with a
    catalog, the crate's reader, given the [moof] boxes at the byte offsets of the
    catalog's rows and no other hint, returns for sample [n] of the video track the
    [n]-th video frame since the first keyframe, bytes and keyframe flag, and for the
    audio track the [n]-th AAC payload.  This composes the recorder, the fragmented
    writer, the box encoders and decoders and the reader's sample tables. *)
Theorem catalogued_frames_read_back codecs moov_box root_path root_final id who start_ms reserved answers faults
    pre rf k d w1 p w2 a trexs (tracks0 : gmap Z Mp4Track) :
  let m0 := create_inner root_path root_final id who start_ms true reserved in
  let sound := sound_of (prepared (rf :: k)) in
  Forall frame_typed (pre ++ rf :: k) → no_keyframe pre → is_video_keyframe rf = true → vec_len (rf :: k) ≤ u32_max →
  append_batch codecs moov_box (pre ++ rf :: k) 0 (fresh_world m0 answers faults) = (Ret (Ok d), w1) →
  finalize codecs moov_box w1 = (Ret (Ok p), w2) → state (mt w2) = Active a →
  vec_len (s_bytes (writer (mp4 a))) ≤ i64_max → default 0 (last_video_dts a) + last_video_duration a ≤ u64_max →
  map_Forall (λ id t, ∃ table, t = track_from id table) tracks0 →
  is_Some (tracks0 !! 1) → (sound ≠ None → is_Some (tracks0 !! 2)) →
  ∃ moofs m, read_moofs (s_bytes (writer (mp4 a))) (catalogued_offsets (calls w2)) = Done moofs ∧
    read_tracks moofs trexs tracks0 = Done m ∧ dom m = dom tracks0 ∧
    ∀ n b data,
      (videos (rf :: k) !! n = Some (b, data) → ∃ t s, m !! 1 = Some t ∧ key s = (b, data) ∧
         track_read_sample t (s_bytes (writer (mp4 a))) (Z.of_nat n + 1) = Done (Some s)) ∧
      (sound ≠ None → audios (rf :: k) !! n = Some (b, data) → ∃ t s, m !! 2 = Some t ∧ key s = (b, data) ∧
         track_read_sample t (s_bytes (writer (mp4 a))) (Z.of_nat n + 1) = Done (Some s)).
Proof.
  intros m0 sound Hty Hpre Hk Hlen H1 H2 Ha Hfile Hend Hfresh Ht1 Ht2.
  destruct (whole_recording _ _ _ _ _ _ _ _ _ _ _ _ _ _ _ _ Hty H1 H2) as [_ Ho].
  destruct (outcome_recorded moov_box m0 faults pre rf k w2 Hpre Hk Ho) as (f0 & f & log & Hr). fold sound in Hr.
  destruct (recorded_readable _ _ _ _ _ _ _ _ _ _ tracks0 Hr Ha Hlen Hend Ht1 Ht2) as (Hx & Hc & He & Hin & Hk1 & Hk2).
  pose proof Hr as [(a' & Hst & Hb & _) _ _ Hv _ Hau _ Hcalls]. rewrite Hst in Ha. injection Ha as ->.
  rewrite Hcalls, catalogued_log by done. rewrite Hb in *.
  destruct (session_reads_back f log trexs tracks0 Hx Hfile Hc He Hfresh Hin) as (moofs & m & E1 & E2 & Hd & Hread).
  exists moofs, m. split; [done|]. split; [done|]. split; [done|].
  assert (∀ i, is_Some (tracks0 !! i) → is_Some (m !! i)) as Hm by (intros i; by rewrite <-!elem_of_dom, Hd).
  intros n b data. split.
  - intros Hn. destruct (Hm 1 Ht1) as [t Ht].
    destruct (read_key 1 VideoTrack log _ n b data Hk1 Hv Hn ltac:(by right)) as (s & Hs & Es).
    exists t, s. split; [done|]. split; [done|]. by eapply Hread.
  - intros Hsn Hn. destruct (Hm 2 (Ht2 Hsn)) as [t Ht].
    assert (map key (flushed 2 log) = audios (rf :: k)) as Hau' by (rewrite Hau; by destruct sound).
    destruct (read_key 2 AudioTrack log _ n b data Hk2 Hau' Hn ltac:(left; by eapply audios_sync)) as (s & Hs & Es).
    exists t, s. split; [done|]. split; [done|]. by eapply Hread.
Qed.

(** ** A recording of five video frames and two AAC frames *)

Definition demo_codecs : Codecs := mk_codecs (λ _ _, Some (640, 480)) (λ _ _ _, None).
Definition demo_key (x : Z) : list Z := [0; 0; 0; 2; 103; 1; 0; 0; 0; 2; 104; 2; 0; 0; 0; 2; 101; x].
Definition demo_delta (x : Z) : list Z := [0; 0; 0; 2; 65; x].
Definition demo_video (ms : Z) (keyframe : bool) (data : list Z) : RecordingFrame :=
  mk_frame (ms * 1000000) (Some (ms * 1000000)) (Video (mk_video H264 keyframe 640 480 data)).
Definition demo_audio (ms : Z) (data : list Z) : RecordingFrame :=
  mk_frame (ms * 1000000) (Some (ms * 1000000)) (Audio (mk_audio Aac 16000 64000000 data)).
Definition demo_first : RecordingFrame := demo_video 40 true (demo_key 1).
Definition demo_rest : list RecordingFrame :=
  [demo_audio 50 [1; 2; 3]; demo_video 80 false (demo_delta 2); demo_video 120 true (demo_key 3);
   demo_audio 130 [4]; demo_video 160 false (demo_delta 4)].
Definition demo_frames : list RecordingFrame := demo_video 0 false (demo_delta 0) :: demo_first :: demo_rest.
Definition demo_who : RecordingStreamIdentity := mk_identity "cam" "main" "cam-main".
Definition demo_m0 : MediumTermWriter := create_inner "a.part" "a.mp4" "rec-1" demo_who 1700000000000 true false.
Definition demo_appended : World := snd (append_batch demo_codecs demo_moov demo_frames 0 (fresh_world demo_m0 [] [])).
Definition demo_final : World := snd (finalize demo_codecs demo_moov demo_appended).

Definition demo_active : ActiveWriter :=
  match state (mt demo_final) with
  | Active a => a
  | _ => mk_active demo_w0 Legacy 1 H264 TtxtConfig 1 None 0 None 0 None None
  end.

Lemma recording_exact_witness :
  length (calls demo_final) = 6%nat ∧
  "a.mp4"%string = "a.mp4"%string ∧
  ((no_keyframe demo_frames ∧ Forall (λ c, c = RemoveFile "a.part") (calls demo_final)) ∨
   ∃ pre rf k a init log,
     demo_frames = pre ++ rf :: k ∧ no_keyframe pre ∧ is_video_keyframe rf = true ∧ state (mt demo_final) = Active a ∧
     Forall (λ e, entry_ok (s_bytes (writer (mp4 a))) (fst e) (snd e)) log ∧ StronglySorted entry_lt log ∧
     map key (flushed 1 log) = videos (rf :: k) ∧ contiguous (flushed 1 log) ∧
     map key (flushed 2 log) = match sound_of (prepared (rf :: k)) with Some _ => audios (rf :: k) | None => [] end ∧
     calls demo_final = opening demo_m0 init ++ rows demo_m0 log ++ completion demo_m0).
Proof.
  split; [vm_compute; reflexivity|].
  apply (recording_exact demo_codecs demo_moov "a.part" "a.mp4" "rec-1" demo_who 1700000000000 true false [] [] demo_frames
           120011111 demo_appended "a.mp4" demo_final).
  - repeat constructor; cbn; lia.
  - vm_compute. reflexivity.
  - vm_compute. reflexivity.
Defined.

Lemma catalogued_frames_read_back_witness :
  videos (demo_first :: demo_rest) = [(true, demo_key 1); (false, demo_delta 2); (true, demo_key 3); (false, demo_delta 4)] ∧
  audios (demo_first :: demo_rest) = [(true, [1; 2; 3]); (true, [4])] ∧
  ∃ moofs m, read_moofs (s_bytes (writer (mp4 demo_active))) (catalogued_offsets (calls demo_final)) = Done moofs ∧
    read_tracks moofs [] demo_tracks = Done m ∧ dom m = dom demo_tracks ∧
    ∀ n b data,
      (videos (demo_first :: demo_rest) !! n = Some (b, data) → ∃ t s, m !! 1 = Some t ∧ key s = (b, data) ∧
         track_read_sample t (s_bytes (writer (mp4 demo_active))) (Z.of_nat n + 1) = Done (Some s)) ∧
      (sound_of (prepared (demo_first :: demo_rest)) ≠ None → audios (demo_first :: demo_rest) !! n = Some (b, data) →
         ∃ t s, m !! 2 = Some t ∧ key s = (b, data) ∧
         track_read_sample t (s_bytes (writer (mp4 demo_active))) (Z.of_nat n + 1) = Done (Some s)).
Proof.
  split; [vm_compute; reflexivity|]. split; [vm_compute; reflexivity|].
  apply (catalogued_frames_read_back demo_codecs demo_moov "a.part" "a.mp4" "rec-1" demo_who 1700000000000 false [] []
           [demo_video 0 false (demo_delta 0)] demo_first demo_rest 120011111 demo_appended "a.mp4" demo_final demo_active).
  - repeat constructor; cbn; lia.
  - by repeat constructor.
  - reflexivity.
  - by vm_compute.
  - vm_compute. reflexivity.
  - vm_compute. reflexivity.
  - vm_compute. reflexivity.
  - by vm_compute.
  - by vm_compute.
  - apply map_Forall_insert_2; [by eexists|]. apply map_Forall_singleton. by eexists.
  - eexists. vm_compute. reflexivity.
  - intros _. eexists. vm_compute. reflexivity.
Defined.

(** ** A fragment the catalog never hears of

    [write_frame] ends the fragment before a keyframe, and only then reads the
    keyframe's parameter sets; when these are incomplete it returns without telling the
    catalog of the fragment it has written.  The recorder reports the frame and keeps the
    writer ([write_frame_to_pipeline] in [storage/engine.rs]), the next fragment is
    catalogued, and its row starts at the rejected keyframe. *)

Definition bad_keyframe : RecordingFrame := demo_video 160 true [0; 0; 0; 2; 103; 1; 0; 0; 0; 2; 101; 9].
Definition lost_before : World :=
  snd (append_batch demo_codecs demo_moov [demo_first; demo_video 80 false (demo_delta 2); demo_video 120 true (demo_key 3)] 0
         (fresh_world demo_m0 [] [])).
Definition lost_rejected : World := snd (append_one demo_codecs demo_moov bad_keyframe lost_before).
Definition lost_final : World :=
  snd (finalize demo_codecs demo_moov (snd (append_one demo_codecs demo_moov (demo_video 240 true (demo_key 5)) lost_rejected))).

Definition catalogued_sequences (cs : list Call) : list (Z * Z) :=
  omap (λ c, match c with InsertFragment f _ => Some (cf_sequence f, cf_start_ms f - 1700000000000) | _ => None end) cs.

Theorem rejected_keyframe_loses_a_fragment :
  fst (append_one demo_codecs demo_moov bad_keyframe lost_before)
    = Ret (Err (InvalidDataErr "H.264 keyframe has incomplete decoder parameters")) ∧
  catalogued_sequences (calls lost_final) = [(1, 0); (3, 120)] ∧
  ∃ a, state (mt lost_rejected) = Active a ∧ fw_sequence_number (mp4 a) = 3 ∧ has_pending_samples (mp4 a) = false.
Proof. split; [by vm_compute|]. split; [by vm_compute|]. eexists. by vm_compute. Qed.
